(* ===== verification/_CoqProject ===== *)
-Q . S2P
Prelude.v
Text.v
Common.v
Approval.v
StoreTypes.v
Store.v
StoreInv.v
Journal.v
Registry.v
StoreSteps.v
StoreHistory.v
StoreLease.v
StoreCommit.v
StoreInbox.v
StoreWake.v
StoreTree.v
StoreDecisions.v
JournalPaging.v
HostTables.v
Activation.v
ActivationSlots.v
ActivationTurns.v
ActivationDrain.v
ActivationTermination.v
Ring.v
Custody.v
VhcProto.v
VhcMerkle.v
VhcMessages.v
VhcAuthority.v
VhcAssignment.v
VhcLcg.v
VhcCommittee.v
VhcBatches.v
VhcDetState.v
VhcDetCustody.v
VhcFoldWalk.v
VhcDigest.v
VhcAttestation.v
VhcState.v
VhcCommit.v
VhcCoordinator.v
VhcCoordLog.v
VhcCoordRoster.v
VhcCoordLive.v
VhcRounds.v
VhcBarrier.v
VhcCheckpoint.v
Auth.v
AuthFacts.v
Authz.v
Pairing.v
Access.v
Authn.v
CoreConversation.v
CoreWire.v
Guardrail.v
ModelCall.v
Engine.v
EngineLog.v
EngineTurn.v
EngineSafety.v
CoreIncarnation.v
Folding.v
Capture.v
Durable.v
UrlSafety.v
Egress.v
Gates.v
Sqlite.v
SqliteRel.v
SqliteSim.v
Exec.v
Contained.v
KernelSpec.v
MemFs.v
Confined.v
LocalEnv.v
Credentials.v
CredPool.v
