(* ===== verification/Prelude.v ===== *)
(** * A verification library for the daemon node

    The daemon is a durable agent host.  A session is a row of a durable store;
    an engine (the agent loop) is constructed for it only while it has work,
    under an activation lease with a fencing token, runs one turn, commits and
    is dropped.  Everything else that happens to a session (user input, steers,
    child completions, operator decisions) is written to the store first and
    wakes the session afterwards.  Users reach a node through an authenticated,
    authorized socket, and nodes train models together under a replicated
    consensus protocol.  The library models the durable core, the turn of the
    engine, the identity and access layer, and the consensus core.

    ** The parts and how they interact

    - [crates/substrate/daemon-store/src/lib.rs] is the store: session rows with
      their fence, epoch, turn counter and snapshot; the ordered inbox of
      splices with its claims; the completion table with its idempotency keys;
      job, wake and notice outboxes; delegation edges; parked approvals; the
      verifiable journal; and the tables of the host (routing, preferences,
      scheduled jobs, feedback).  [InMemoryStore] is the reference
      implementation of its trait; every method takes the one lock for its
      whole body.  [sqlite.rs] is the implementation a node runs on.
    - [crates/substrate/daemon-activation/src/lib.rs] is the activation
      substrate: a manager that keeps at most one live incarnation per session,
      leases, loads, hydrates, runs and commits turns through the store,
      lingers after a commit, runs queued jobs, dispatches wakes and recovers
      after a crash.
    - [crates/engine/daemon-core/src] is the engine an incarnation runs: a turn
      resumes what was parked, builds the request from the conversation, calls
      the model under a capability lease with bounded recovery, runs the tool
      calls under a guardrail, and ends, or suspends on a delegated job or an
      operator's approval.  The decision of an operator travels from the store
      to the engine as a completion payload.  [daemon-host/src/engine_incarnation.rs]
      is the engine behind the activation seam: it decodes the snapshot, folds
      the claimed splices into the conversation, runs the turn and says how to
      commit it.  A tool that edits or executes passes an approval gate, whose
      decision is bound to the fingerprint of the command; it touches files and
      starts processes only inside its workspace ([exec]); what it fetches goes
      through the URL guard and [crates/engine/daemon-egress].
    - [crates/substrate/daemon-auth/src] is the identity store (users, roles,
      credentials, sessions, paired devices); [daemon-host/src/authn.rs],
      [socket.rs], [pairing.rs], [authz.rs], [revocation.rs] and
      [node_api/access.rs] are what stands before the API: logins, connections,
      device pairing, the gate every request passes, and the administration
      that cuts live connections.
    - [crates/vhc] is distributed training.  [daemon-vhc-proto] holds signatures,
      set commitments and the chunk-addressed state; [daemon-vhc-sdk-consensus]
      the messages, deterministic assignment, attestations, authority, committed
      sets, the digest and the coordinator state machine;
      [daemon-vhc-sdk-rounds] the barrier of a training peer;
      [daemon-vhc-custody] the disk custodian.
    - [crates/contracts/daemon-common/src] holds the shared values (tokens,
      epochs, usage and its pricing, the base error) and the bounded ring behind
      the node's live streams ([cursored.rs]).

    ** The files: models

    Definitions follow the source, with its names; every file opens with the
    source files it translates.
    - [Prelude]: [u64]/[u32] with their wrap-around, records with update, the
      state-and-error monad, map and vector idioms, the order in which a
      [HashMap] is walked ([HashOrder]), stable sorting, weakest preconditions
      with their hint database.  [Text]: [str::trim], [String::from_utf8_lossy],
      prefixes, on UTF-8 bytes.  [Common]: [daemon-common].
    - The store: [StoreTypes] (structs and enums), [Store] ([Inner], one field
      per field, and the session, lease, inbox, commit, completion, delegation,
      approval, snapshot and lineage methods), [Journal] ([append_trace] to
      [active_journal_seal]), [Registry] (the host tables), [Approval] (both ends
      of a decision payload), [Activation] (the manager; [Incarnation] and
      [EngineFactory] are the class [Engine] there), [Sqlite] (the tables of the
      database and the statements of every method of the session lifecycle).
    - The engine: [CoreConversation] (conversation, flattening, repair of the
      sequence, composed prompt, token estimate, compaction), [Guardrail] (the
      tool-call controller), [ModelCall] (failures, tunables, recovery policy,
      stream driver, events), [Engine] (snapshot, effects, [run_turn] with every
      call it makes, completions, rewind), [CoreIncarnation] (hydrate, run and
      checkpoint of the incarnation, profiles, dormant edits), [Gates] (policies,
      gates and the handlers that answer them), [UrlSafety] (the URL guard, with
      the address parser of the standard library), [Egress] (the HTTP client),
      [Exec] (Unix paths, the lexical floor, fingerprints), [Contained]
      ([ContainedRoot] over the system calls), [LocalEnv] (the local environment
      and its environment policy).
    - Credentials: [Credentials] (scopes, leases, the authority, owner and relay
      brokers), [CredPool] (the in-memory and the file-backed store, the sources
      over a store, the broker with an authority per profile, everything that
      writes stored credentials: the set and remove handlers, the end of a
      sign-in, account credentials and rejection marks; the embedded pool of the
      engine).
    - Access: [Auth] (tables and methods of the identity store), [Authz] (the
      capability of every API request), [Pairing] (the armed code, with one
      step per critical section), [Access] (the
      administrative handlers of a node that carries store, pairing and
      revocations, what they do when one is missing, revocation epochs), [Authn] (mechanisms,
      tokens, and the states of a connection).
    - Training: [VhcProto], [VhcMerkle], [VhcMessages], [VhcAuthority],
      [VhcAssignment], [VhcDetState], [VhcFoldWalk], [VhcDigest],
      [VhcAttestation], [VhcCheckpoint], [VhcState], [VhcCommit],
      [VhcCoordinator] (the function [tick]), [VhcRounds] (the barrier), and
      [Custody] (reservations, with decision and admission as separate steps).
    - [Ring]: [CursoredRing], and the unbounded log it refines.

    ** The files: executions and theorems

    - [StoreSteps]: [StoreOp] lists every state-changing method, [run_op] runs
      one, [reachable n s] says that [s] is reached from the empty store by [n]
      of them in any order (concurrent callers are interleavings, because a
      method is atomic); [mstep] is the relation of elementary writes, and every
      method is at most eight of them.  [StoreInv]: the status invariant.
      [StoreHistory]: counters, inbox, completions, notices and journal over
      whole histories.
    - [StoreLease]: a token that lost its lease is refused for ever.
      [StoreCommit]: exact effects and errors of the commits, crash consistency.
      [StoreInbox]: order, claims and consumption; a session with work is never
      parked as idle; loads deliver all work.  [StoreWake]: completions are
      applied once and never lost.  [StoreTree], [StoreDecisions],
      [JournalPaging], [HostTables]: creation, decisions, paging, host tables.
    - [SqliteRel], [SqliteSim]: run side by side, the SQLite store answers as
      the in-memory one does, for the calls of [legal]; examples show where the
      two part.
    - [ActivationSlots], [ActivationTurns], [ActivationDrain],
      [ActivationTermination]: slots are exclusive, a
      superseded turn writes nothing, a current one settles exactly what its load
      delivered, recovery returns and leaves nothing to do.
    - [CoreWire]: the sequence sent to a provider is well formed whatever the
      conversation, no user input is lost, the well-formed sequences are exactly
      the ones left alone; what compaction keeps.  [Guardrail] ends with
      what the controller counts, [ModelCall] with waiting times and the usage
      contract.
      [EngineLog]: triples over the log of a turn.  [EngineTurn]: a turn always
      ends, its events are bracketed and paired by call id, leases are released, model calls
      are bounded, usage adds up, the suspension state stays consistent.
      [EngineSafety]: nothing runs pre-approved without a delivered decision and
      an unchanged fingerprint; what the guardrail makes of a batch; the context
      cap; rewind.
    - [Folding], [Capture], [Durable]: store, activation and engine composed.
      Whatever clients, operators, turns and crashes do, the cursor of a stored
      snapshot is the boundary of the consumed inbox, and an activation folds
      every row beyond it into the conversation once.
    - [Gates] ends with what the headless handler lets through, [UrlSafety] with
      the blocks of addresses the guard stops, [Egress] with what leaves the node,
      [Exec] with what a fingerprint binds.  [Confined]: no operation on a
      workspace changes or reads anything outside it, on any kernel that keeps
      the laws of [KernelSpec]; [MemFs] is one.
    - [Credentials] ends with the life of a lease through a chain of relays,
      [CredPool] with which writes of a stored credential revoke the leases on it,
      the atomicity of the file store and the rotation of a pool.
    - [AuthFacts]: well-formed tables, the kept administrator, the life of a
      token.  [Authz] to [Authn] end with theirs: the gate is the role ladder, a
      pairing code has its budget under any interleaving, an administrator's handlers refuse the others,
      logins bind the principal of their token, a revoked connection makes no
      further call.
    - [VhcMerkle]: what a root pins.  [VhcLcg]: the generator has full period, so
      sampling ends.  [VhcCommittee], [VhcBatches]: quorums and windows.
      [VhcDetCustody]: the chunk map pins the bytes.  [VhcCommit]: what evidence
      shows.  [VhcAuthority]: quorum intersection, agreement on the committed
      set, the codec.  [VhcCoordLog], [VhcCoordRoster], [VhcCoordLive]: one
      record per round, a bounded roster, progress.  [VhcBarrier]: rounds are
      voiced in order.  [VhcFoldWalk], [VhcDigest]: order and streaming.
    - Where the code departs from its documentation or its intent, an [Example]
      evaluates the run that shows it.

    ** Bounds and fuel

    - [u64] and [u32] counters wrap, as in the release profile of the workspace
      (overflow checks are off).  Theorems about store histories assume
      [in_range n], that [8 * n < 2^64] for [n] operations: a method performs at
      most eight elementary writes, each of which raises a counter by one.
      [Ring] and [Custody] assume that pushes and bytes stay below [2^64].
    - [owns_subtree] walks at most [MAX_LINEAGE_WALK = 16] parents, the bound of
      the source; the coordinator's ring has 16 slots.
    - [run_workers], [read_forward] and [read_backward] have the length of what
      they consume plus one as fuel.  A turn, a linger, a wake and a recovery
      round of [Activation] depend on what other tasks do meanwhile: these are
      arguments, and a run that needs more of them than given is [None];
      [recover_terminates] and [wake_returns] give numbers that suffice.
    - The recovery loop of a model call has fuel [2 * max_retries + 3]: the
      retries of the profile, one hop to the fallback with its own retries, one
      compaction.  [turn_protocol] proves that it never runs out, and that the
      rounds of a turn, structural in [max_iterations], end.  The repair loop has
      the number of messages as fuel.
    - The recursive removal of a directory has its depth as fuel
      ([remove_dir_all_ends]).
    - Rejection sampling has fuel [bound + 1], proved enough; the merkle levels,
      the splits and the windows recurse on lengths.

    ** Hypotheses and parameters

    Code outside the repository, and the parts of it that a component meets only
    through a trait, are classes: every theorem holds for all their instances,
    and a witness instantiates them.
    - [Engine] of [Activation] (only termination of recovery assumes something
      of it, [settling]); [World] of [Engine] (provider, host, tools, credential
      pool, context engine, memory, control queues, clock), of which
      [tools_keep_ids] says that a tool answers under the id of the call it is run
      for (only the pairing of ids assumes it); [Json] (serde_json,
      the argument repair and the hasher); [Host] of [CoreIncarnation] (codecs,
      session metadata, profile resolver), of which [LosslessCodec] says that
      decoding a snapshot or a message inverts encoding it.
    - [Idna] of [UrlSafety], [UrlLib] and the sending function of [Egress]: any.
    - [Kernel] of [Contained]: the system calls, with their documented behaviour
      in [KernelLaws]; [Spawner] of [LocalEnv]: any; SHA-256 in [Exec]: any, up
      to a collision.
    - [CapabilityCrypto] of [Credentials] (envelope digest, ed25519), of which
      [SignaturesVerify] says that a signature made by the key verifies; the
      source of secrets there, the refresher in [CredPool] and the JSON of the
      credential file: any ([StoreJsonLaws] says that the file is read back).
    - [Crypto] (blake3, ed25519), [Xxh3], [CborValue], [StateCodec],
      [CheckpointCodec] and the message encoder; [RoundExperiment],
      [PayloadSource].  What an adversary cannot do is stated up to a collision
      among the byte strings actually hashed ([collision_in], decidable).
    - The primitives of [Auth] (Argon2id, SHA-256, HMAC, PBKDF2, SASLprep,
      randomness, the order of rows), SPAKE2 in [Pairing], rsasl in [Authn].
    - A [HashMap] is walked in an arbitrary order ([HashOrder]); the free space
      of a file system and the clocks are arguments.

    ** Not modelled

    - Of the SQLite store: the journal, the host tables, the migrations, and
      errors of the database itself; the full-text search of sessions and the
      room tables, which only that store has.
    - The async runtime: tasks, panics, channel capacities; tracing and metrics.
      The parallel calls of a tool batch are a sequence of runs.
    - Of [daemon-core]: the actor, the tool pipeline and registry, checkpoints,
      the CBOR codec of the snapshot, the scripted providers:
      the engine meets them through [World] and [Host].  What other processes do
      to a workspace while an operation runs, and the stub of [contained.rs] for
      systems other than Unix.
    - Of the credentials: the hints of the redacted listing, the steps of a
      sign-in before its end and the refresh of OAuth tokens.
    - Of the host: transports, framing, streaming, routing and cron services; of
      the custodian: the process-wide registry, path scoping and usage report.
    - Of training: the run envelope, certificates, grants, rosters and
      transitions of [daemon-vhc-proto], the journal, the session and its network.
    - The other crates: model providers, chat adapters, tools, memory, the API
      surface as serialised data.

    What is left out is I/O glue, generated or serialised data, or meets the
    modelled parts only through one of the classes above. *)

From stdpp Require Export base tactics option list list_numbers gmap strings pretty sorting.
From Stdlib Require Export NArith Lia.
From Stdlib Require Import Strings.Byte.

#[global] Set Default Goal Selector "!".

(** ** Machine integers

    The release profile of the workspace leaves overflow checks off, so [+] on
    [u64] and [u32] wraps; the models keep the width explicit. *)

Declare Scope daemon_scope.
Delimit Scope daemon_scope with daemon.

Definition u64_bound : N := 18446744073709551616.
Definition u32_bound : N := 4294967296.

Definition wrap64 (x : N) : N := x `mod` u64_bound.
Definition wrap32 (x : N) : N := x `mod` u32_bound.

(** [x + y] on [u64] / [u32]. *)
Notation "x +₆₄ y" := (wrap64 (x + y)%N) (at level 50, left associativity) : daemon_scope.
Notation "x +₃₂ y" := (wrap32 (x + y)%N) (at level 50, left associativity) : daemon_scope.

Lemma wrap64_small x : (x < u64_bound)%N → wrap64 x = x.
Proof. apply N.mod_small. Qed.

Lemma wrap64_bound x : (wrap64 x < u64_bound)%N.
Proof. by apply N.mod_lt. Qed.

Lemma wrap32_small x : (x < u32_bound)%N → wrap32 x = x.
Proof. apply N.mod_small. Qed.

(** Saturating arithmetic on [u64]; subtraction on [N] stops at zero already. *)
Definition sat_add (x y : N) : N := N.min (x + y)%N (u64_bound - 1)%N.
Definition sat_mul (x y : N) : N := N.min (x * y)%N (u64_bound - 1)%N.
Abbreviation sat_sub := N.sub.

(** [x - y] on [u64] ([fetch_sub] wraps). *)
Definition wrap_sub (x y : N) : N := wrap64 (x + (u64_bound - wrap64 y))%N.

Lemma wrap_sub_small x y : (y ≤ x)%N → (x < u64_bound)%N → wrap_sub x y = (x - y)%N.
Proof.
  intros Hle Hx. unfold wrap_sub. rewrite (wrap64_small y) by lia.
  replace (x + (u64_bound - y))%N with (x - y + 1 * u64_bound)%N by lia.
  unfold wrap64. rewrite N.Div0.mod_add. apply N.mod_small. lia.
Qed.

(** Solves goals that mix [wrap64] with linear arithmetic, when the arguments
    are provably in range. *)
Ltac u64_lia :=
  intros; repeat match goal with
  | H : context [wrap64 ?x] |- _ => rewrite (wrap64_small x) in H by (unfold u64_bound in *; lia)
  | |- context [wrap64 ?x] => rewrite (wrap64_small x) by (unfold u64_bound in *; lia)
  end; unfold u64_bound in *; lia.

(** ** Byte strings *)

Abbreviation bytes := (list Byte.byte).

#[global] Instance byte_eq_dec : EqDecision Byte.byte := Byte.byte_eq_dec.

(** [String::into_bytes] / [str::as_bytes]: a Rust string is its UTF-8 bytes. *)
Definition string_bytes (s : string) : bytes := String.list_byte_of_string s.

(** ** Records with functional update

    [s <| f := v |>] replaces the field [f]; the updater of a projection is
    derived from the record's eta expansion. *)

Class Eta (R : Type) := eta_expand : R → R.
Class Updater {R T : Type} (proj : R → T) := update : (T → T) → R → R.
Arguments update {R T proj Updater} g r /.

Ltac derive_updater :=
  match goal with
  | |- @Updater ?R ?T ?proj =>
    let g := fresh "g" in
    let r := fresh "r" in
    intros g r;
    let e := eval hnf in (@eta_expand R _ r) in
    let p := eval pattern (proj r) in e in
    match p with
    | ?h _ => let b := eval cbv beta in (h (g (proj r))) in exact b
    end
  end.

#[global] Hint Extern 0 (@Updater _ _ _) => derive_updater : typeclass_instances.

Notation "s <| f := v |>" := (update (proj := f) (λ _, v) s)
  (at level 1, f constr at level 1, left associativity, format "s  <| f  :=  v |>").

(** ** Fallible, stateful code

    [M S E A] is code holding the lock on a state [S] that returns a value or
    an error.  An error keeps the mutations already made, as an early return
    from a method holding a mutable borrow does. *)

Inductive result (E A : Type) : Type :=
| Ok (a : A)
| Err (e : E).
Arguments Ok {E A} a.
Arguments Err {E A} e.

Definition M (S E A : Type) : Type := S → result E A * S.

#[global] Instance M_ret {S E} : MRet (M S E) := λ A a s, (Ok a, s).
#[global] Instance M_bind {S E} : MBind (M S E) := λ A B f m s,
  match m s with
  | (Ok a, s') => f a s'
  | (Err e, s') => (Err e, s')
  end.

Definition get {S E} : M S E S := λ s, (Ok s, s).
Definition gets {S E A} (f : S → A) : M S E A := λ s, (Ok (f s), s).
Definition modify {S E} (f : S → S) : M S E unit := λ s, (Ok tt, f s).
Definition throw {S E A} (e : E) : M S E A := λ s, (Err e, s).

(** [Option::ok_or_else] followed by [?]. *)
Definition ok_or {S E A} (o : option A) (e : E) : M S E A :=
  match o with Some a => mret a | None => throw e end.

Section monad_laws.
Context {S E : Type}.

Lemma M_bind_ok {A B} (f : A → M S E B) m s a s' :
  m s = (Ok a, s') → (m ≫= f) s = f a s'.
Proof. intros H. unfold mbind, M_bind. by rewrite H. Qed.

Lemma M_bind_err {A B} (f : A → M S E B) m s e s' :
  m s = (Err e, s') → (m ≫= f) s = (Err e, s').
Proof. intros H. unfold mbind, M_bind. by rewrite H. Qed.

Lemma M_bind_inv {A B} (f : A → M S E B) m s r s' :
  (m ≫= f) s = (r, s') →
  (∃ e, m s = (Err e, s') ∧ r = Err e) ∨
  (∃ a s1, m s = (Ok a, s1) ∧ f a s1 = (r, s')).
Proof.
  unfold mbind, M_bind. destruct (m s) as [[a|e] s1] eqn:Hm; intros H.
  - right. eauto.
  - left. exists e. simplify_eq. eauto.
Qed.
End monad_laws.

(** ** Hash maps

    [HashMap] iteration order is unspecified: an operation that walks one is
    parameterised by the order, and every theorem holds for all orders. *)
Class HashOrder := {
  hash_order : ∀ {K A : Type} `{Countable K}, gmap K A → list (K * A);
  hash_order_perm : ∀ {K A : Type} `{Countable K} (m : gmap K A),
    hash_order m ≡ₚ map_to_list m
}.

(** The canonical order of the finite maps themselves is one of them. *)
Definition canonical_order : HashOrder.
Proof. by refine {| hash_order _ _ _ _ m := map_to_list m |}. Defined.

Section hash_order.
Context `{HashOrder} {K A : Type} `{Countable K}.

Lemma elem_of_hash_order (m : gmap K A) k x :
  (k, x) ∈ hash_order m ↔ m !! k = Some x.
Proof. rewrite (hash_order_perm m). apply elem_of_map_to_list. Qed.

Lemma NoDup_fst_hash_order (m : gmap K A) : NoDup (hash_order m).*1.
Proof. rewrite (hash_order_perm m). apply NoDup_fst_map_to_list. Qed.

Lemma elem_of_hash_values (m : gmap K A) x :
  x ∈ (hash_order m).*2 ↔ ∃ k, m !! k = Some x.
Proof.
  rewrite list_elem_of_fmap. split.
  - intros ([k y] & -> & Hin%elem_of_hash_order). by exists k.
  - intros (k & Hk). exists (k, x). by rewrite elem_of_hash_order.
Qed.
End hash_order.

(** [HashMap::entry(k).or_default()] on a map of vectors. *)
Definition entry_vec {K A} `{Countable K} (m : gmap K (list A)) (k : K) : list A :=
  default [] (m !! k).

(** [entry(k).or_default().push(x)]. *)
Definition entry_push {K A} `{Countable K} (m : gmap K (list A)) (k : K) (x : A)
    : gmap K (list A) :=
  <[k := entry_vec m k ++ [x]]> m.

(** ** Sorting

    [slice::sort_by] is a stable sort; insertion from the right is one too. *)
Section sort_by.
Context {A : Type} (leb : A → A → bool).

Fixpoint insert_by (x : A) (l : list A) : list A :=
  match l with
  | [] => [x]
  | y :: l' => if leb x y then x :: l else y :: insert_by x l'
  end.

Fixpoint sort_by (l : list A) : list A :=
  match l with
  | [] => []
  | x :: l' => insert_by x (sort_by l')
  end.

Lemma insert_by_perm x l : insert_by x l ≡ₚ x :: l.
Proof.
  induction l as [|y l IH]; simpl; [done|].
  destruct (leb x y); [done|]. rewrite IH. by constructor.
Qed.

Lemma sort_by_perm l : sort_by l ≡ₚ l.
Proof. induction l as [|x l IH]; simpl; [done|]. by rewrite insert_by_perm, IH. Qed.

Context (R : relation A) (HR : Transitive R)
  (leb_R : ∀ x y, leb x y = true → R x y) (nleb_R : ∀ x y, leb x y = false → R y x).

Lemma insert_by_sorted x l : StronglySorted R l → StronglySorted R (insert_by x l).
Proof using All.
  induction 1 as [|y l Hl IH Hy]; simpl; [by repeat constructor|].
  destruct (leb x y) eqn:Hxy.
  - constructor; [by constructor|]. constructor; [by apply leb_R|].
    eapply Forall_impl; [exact Hy|]. intros z Hz. by trans y; [apply leb_R|].
  - constructor; [done|]. rewrite insert_by_perm. constructor; [by apply nleb_R|done].
Qed.

Lemma sort_by_sorted l : StronglySorted R (sort_by l).
Proof using All. induction l; simpl; [constructor|by apply insert_by_sorted]. Qed.
End sort_by.

Lemma sort_by_id {A} (leb : A → A → bool) l :
  StronglySorted (λ x y, leb x y = true) l → sort_by leb l = l.
Proof.
  induction 1 as [|x l Hl IH Hx]; [done|]. simpl. rewrite IH.
  destruct Hx as [|y l Hy _]; [done|]. simpl. by rewrite Hy.
Qed.

Lemma StronglySorted_fmap_impl {A B} (f : A → B) (R : relation B) (R' : relation A) l :
  (∀ x y, R (f x) (f y) → R' x y) → StronglySorted R (f <$> l) → StronglySorted R' l.
Proof.
  intros HR. induction l as [|x l IH]; simpl; [constructor|].
  inversion 1 as [|? ? Hs Hx]; subst. constructor; [by apply IH|].
  rewrite Forall_fmap in Hx. eapply Forall_impl; [exact Hx|]. intros y. apply HR.
Qed.

(** ** In-place edits of a vector *)

(** [if let Some(x) = v.iter_mut().find(p) { *x = f(x) }]. *)
Fixpoint update_first {A} (p : A → bool) (f : A → A) (l : list A) : list A :=
  match l with
  | [] => []
  | x :: l' => if p x then f x :: l' else x :: update_first p f l'
  end.

Lemma elem_of_update_first {A} (p : A → bool) f (l : list A) y :
  y ∈ update_first p f l → y ∈ l ∨ ∃ x, x ∈ l ∧ p x = true ∧ y = f x.
Proof.
  induction l as [|x l IH]; simpl; [by left|].
  destruct (p x) eqn:Hp; rewrite !elem_of_cons; intros [->|Hy]; auto.
  - right. exists x. rewrite elem_of_cons. auto.
  - apply IH in Hy as [?|(z & ? & ? & ?)]; [auto|]. right. exists z. rewrite elem_of_cons. auto.
Qed.

Lemma fmap_update_first {A B} (g : A → B) (p : A → bool) f (l : list A) :
  (∀ x, g (f x) = g x) → g <$> update_first p f l = g <$> l.
Proof.
  intros Hg. induction l as [|x l IH]; simpl; [done|].
  destruct (p x); csimpl; congruence.
Qed.

Lemma existsb_false_Forall {A} (p : A → bool) (l : list A) :
  existsb p l = false ↔ Forall (λ x, p x = false) l.
Proof.
  induction l as [|x l IH]; simpl; [by split; [constructor|]|].
  rewrite orb_false_iff, Forall_cons. naive_solver.
Qed.

Lemma existsb_true_Exists {A} (p : A → bool) (l : list A) :
  existsb p l = true ↔ Exists (λ x, p x = true) l.
Proof.
  induction l as [|x l IH]; simpl; [by split; [|inversion 1]|].
  rewrite orb_true_iff, Exists_cons. naive_solver.
Qed.

(** ** Sublists and sorted lists *)

Lemma Forall_sublist {A} (P : A → Prop) l k : l `sublist_of` k → Forall P k → Forall P l.
Proof. induction 1; inversion 1; subst; auto. Qed.

Lemma sublist_fmap {A B} (f : A → B) (l k : list A) :
  l `sublist_of` k → (f <$> l) `sublist_of` (f <$> k).
Proof. intros H. by apply fmap_sublist. Qed.

Lemma sublist_filter_b {A} (p : A → bool) (l : list A) : List.filter p l `sublist_of` l.
Proof.
  induction l as [|x l IH]; simpl; [constructor|].
  destruct (p x); [by apply sublist_skip|by apply sublist_cons].
Qed.

Lemma StronglySorted_sublist {A} (R : relation A) l k :
  l `sublist_of` k → StronglySorted R k → StronglySorted R l.
Proof.
  induction 1 as [|x l k Hs IH|x l k Hs IH]; inversion 1; subst; [constructor|..].
  - constructor; [by apply IH|]. by eapply Forall_sublist.
  - by apply IH.
Qed.

Lemma StronglySorted_snoc {A} (R : relation A) l x :
  StronglySorted R l → Forall (λ y, R y x) l → StronglySorted R (l ++ [x]).
Proof.
  induction 1 as [|y l Hl IH Hy]; simpl; [by repeat constructor|].
  intros [H1 H2]%Forall_cons. constructor; [by apply IH|]. apply Forall_app. by repeat constructor.
Qed.

(** Inclusion and exclusion for two finite sets. *)
Lemma size_union_inter `{Countable A} (a b : gset A) : size a + size b = size (a ∪ b) + size (a ∩ b).
Proof.
  assert (size (a ∪ (b ∖ a)) = size a + size (b ∖ a)) as H1 by (apply size_union; set_solver).
  assert (size ((b ∖ a) ∪ (a ∩ b)) = size (b ∖ a) + size (a ∩ b)) as H2 by (apply size_union; set_solver).
  replace (a ∪ (b ∖ a)) with (a ∪ b) in H1 by (apply set_eq; intros x; destruct (decide (x ∈ a)); set_solver).
  replace ((b ∖ a) ∪ (a ∩ b)) with b in H2 by (apply set_eq; intros x; destruct (decide (x ∈ a)); set_solver).
  lia.
Qed.

Lemma StronglySorted_lt_NoDup (l : list N) : StronglySorted N.lt l → NoDup l.
Proof.
  induction 1 as [|x l _ IH Hx]; constructor; [|done]. intros Hin.
  rewrite Forall_forall in Hx. apply Hx in Hin. lia.
Qed.

Lemma StronglySorted_le_lt (l : list N) : StronglySorted N.le l → NoDup l → StronglySorted N.lt l.
Proof.
  intros Hs Hn. induction Hs as [|x l Hs IH Hx]; [constructor|]. apply NoDup_cons in Hn as [Hxl Hn].
  constructor; [by apply IH|]. rewrite Forall_forall in *. intros y Hy. specialize (Hx y Hy).
  assert (x ≠ y) by (by intros ->). lia.
Qed.

(** A strictly increasing key identifies the elements of a list. *)
Lemma StronglySorted_lt_inj {A} (f : A → N) l x y :
  StronglySorted N.lt (f <$> l) → x ∈ l → y ∈ l → f x = f y → x = y.
Proof.
  induction l as [|z l IH]; simpl; intros Hs Hx Hy Heq; [by apply not_elem_of_nil in Hx|].
  inversion Hs as [|? ? Hs' Hz]; subst. rewrite Forall_fmap, Forall_forall in Hz. simpl in Hz.
  apply elem_of_cons in Hx as [->|Hx], Hy as [->|Hy]; [done|..|by apply IH].
  - apply Hz in Hy. lia.
  - apply Hz in Hx. lia.
Qed.

(** So does a key without duplicates. *)
Lemma NoDup_fmap_key {A B} (f : A → B) l x y :
  NoDup (f <$> l) → x ∈ l → y ∈ l → f x = f y → x = y.
Proof.
  induction l as [|z l IH]; simpl; intros Hs Hx Hy Heq; [by apply not_elem_of_nil in Hx|].
  apply NoDup_cons in Hs as [Hz Hs].
  apply elem_of_cons in Hx as [->|Hx], Hy as [->|Hy]; [done|..|by apply IH].
  - destruct Hz. rewrite Heq. by apply list_elem_of_fmap_2.
  - destruct Hz. rewrite <- Heq. by apply list_elem_of_fmap_2.
Qed.

(** ** Weakest preconditions

    [wp m Q s]: run from [s], [m] ends in a result and a state satisfying [Q].
    Operations always return, so this is total correctness. *)
Definition wp {S E A} (m : M S E A) (Q : result E A → S → Prop) (s : S) : Prop :=
  Q (m s).1 (m s).2.

Section wp.
Context {S E : Type}.
Implicit Types s : S.

Lemma wp_bind {A B} (m : M S E A) (f : A → M S E B) Q s :
  wp m (λ r s', match r with Ok a => wp (f a) Q s' | Err e => Q (Err e) s' end) s →
  wp (m ≫= f) Q s.
Proof. unfold wp, mbind, M_bind. by destruct (m s) as [[a|e] s']. Qed.

Lemma wp_ret {A} (a : A) (Q : result E A → S → Prop) s : Q (Ok a) s → wp (mret a) Q s.
Proof. done. Qed.
Lemma wp_throw {A} (e : E) (Q : result E A → S → Prop) s : Q (Err e) s → wp (throw e) Q s.
Proof. done. Qed.
Lemma wp_modify f (Q : result E unit → S → Prop) s : Q (Ok tt) (f s) → wp (modify f) Q s.
Proof. done. Qed.
Lemma wp_get (Q : result E S → S → Prop) s : Q (Ok s) s → wp get Q s.
Proof. done. Qed.
Lemma wp_ok_or {A} (o : option A) e (Q : result E A → S → Prop) s :
  (∀ a, o = Some a → Q (Ok a) s) → (o = None → Q (Err e) s) → wp (ok_or o e) Q s.
Proof. intros H1 H2. destruct o; simpl; [by apply H1|by apply H2]. Qed.
Lemma wp_mono {A} (m : M S E A) (Q Q' : result E A → S → Prop) s :
  (∀ r s', Q r s' → Q' r s') → wp m Q s → wp m Q' s.
Proof. unfold wp. auto. Qed.
(** Reading a triple off as a fact about one run. *)
Lemma wp_run {A} (m : M S E A) Q s r s' : wp m Q s → m s = (r, s') → Q r s'.
Proof. unfold wp. intros H Hm. by rewrite Hm in H. Qed.
End wp.

Create HintDb store.

(** One symbolic step through the body of an operation. *)
Ltac wp_step :=
  lazymatch goal with
  | |- wp (mbind _ _) _ _ => apply wp_bind
  | |- wp (mret _) _ _ => apply wp_ret
  | |- wp (throw _) _ _ => apply wp_throw
  | |- wp (modify _) _ _ => apply wp_modify
  | |- wp get _ _ => apply wp_get
  | |- wp (ok_or _ _) _ _ => apply wp_ok_or; [intros ? ?|intros ?]
  | |- wp (match ?x with _ => _ end) _ _ => destruct x eqn:?
  | |- wp (let _ := _ in _) _ _ => intro
  end.
Ltac wp_steps := repeat (wp_step; cbv beta iota).

(** ** Ranges of numbers *)

Section ranges.
#[local] Open Scope N_scope.


Definition range (a b : N) : list N := (λ i, a + N.of_nat i) <$> seq 0 (N.to_nat (b - a)).

Lemma range_nil a b : b ≤ a → range a b = [].
Proof. intros Hab. unfold range. by replace (N.to_nat (b - a)) with 0%nat by lia. Qed.

Lemma range_cons a b : a < b → range a b = a :: range (a + 1) b.
Proof.
  intros Hab. unfold range. replace (N.to_nat (b - a)) with (S (N.to_nat (b - (a + 1)))) by lia.
  cbn [seq]. rewrite fmap_cons. f_equal; [lia|]. rewrite <- fmap_S_seq, <- list_fmap_compose.
  apply list_fmap_ext. intros i x _. simpl. lia.
Qed.

Lemma range_ind (P : N → list N → Prop) b :
  (∀ a, b ≤ a → P a []) → (∀ a, a < b → P (a + 1) (range (a + 1) b) → P a (a :: range (a + 1) b)) →
  ∀ a, P a (range a b).
Proof.
  intros H0 HS a. remember (N.to_nat (b - a)) as n eqn:Hn. revert a Hn. induction n as [|n IH]; intros a Hn.
  - rewrite range_nil by lia. apply H0. lia.
  - rewrite range_cons by lia. apply HS; [lia|]. apply IH. lia.
Qed.

Lemma elem_of_range x a b : x ∈ range a b ↔ a ≤ x < b.
Proof.
  apply (range_ind (λ a l, x ∈ l ↔ a ≤ x < b)); clear a.
  - intros a Ha. rewrite elem_of_nil. lia.
  - intros a Ha IH. rewrite elem_of_cons, IH. lia.
Qed.

Lemma range_app a b c : a ≤ b → b ≤ c → range a b ++ range b c = range a c.
Proof.
  intros Hab. revert Hab. apply (range_ind (λ a l, a ≤ b → b ≤ c → l ++ range b c = range a c)); clear a.
  - intros a Ha Hab Hbc. by replace a with b by lia.
  - intros a Ha IH _ Hbc. rewrite (range_cons a c) by lia. simpl. f_equal. apply IH; lia.
Qed.

Lemma range_length a b : length (range a b) = N.to_nat (b - a).
Proof. unfold range. by rewrite length_fmap, length_seq. Qed.

(** A strictly ascending list inside an interval is no longer than it. *)
Lemma sorted_interval_length a b l :
  StronglySorted N.lt l → Forall (λ x, a ≤ x ∧ x < b) l → N.of_nat (length l) ≤ b - a.
Proof.
  intros Hs Hf. assert (length l ≤ length (range a b))%nat as Hle.
  { apply submseteq_length, NoDup_submseteq; [by apply StronglySorted_lt_NoDup|].
    intros x Hx. apply elem_of_range. rewrite Forall_forall in Hf. by apply Hf. }
  rewrite range_length in Hle. lia.
Qed.
End ranges.
