(* ===== verification/Text.v ===== *)
(** * Strings as the store and the engine use them

    A Rust string is its UTF-8 bytes.  [str::trim] strips the encodings of the
    Unicode [White_Space] characters; [String::from_utf8_lossy] replaces every
    maximal ill-formed prefix by U+FFFD. *)

From S2P Require Import Prelude.
From Stdlib Require Import Strings.Byte.

(** ** Prefixes of byte strings *)

Fixpoint strip_prefix (p l : bytes) : option bytes :=
  match p, l with
  | [], _ => Some l
  | b :: p', c :: l' => if decide (b = c) then strip_prefix p' l' else None
  | _ :: _, [] => None
  end.

Definition starts_with (p l : bytes) : bool :=
  match strip_prefix p l with Some _ => true | None => false end.

Lemma strip_prefix_Some p l k : strip_prefix p l = Some k ↔ l = p ++ k.
Proof.
  revert l. induction p as [|b p IH]; intros l; simpl; [naive_solver|].
  destruct l as [|c l]; [naive_solver|].
  case_decide as Hb; subst; [rewrite IH|]; naive_solver.
Qed.

Lemma strip_prefix_app p l : strip_prefix p (p ++ l) = Some l.
Proof. by apply strip_prefix_Some. Qed.

(** ** Order and numbers *)

Definition string_ltb (a b : string) : bool :=
  match String.compare a b with Lt => true | _ => false end.

Lemma string_not_lt a b : negb (string_ltb b a) = true ↔ String.le a b.
Proof.
  unfold string_ltb, String.le, String.leb. rewrite String.compare_antisym.
  destruct (String.compare a b); simpl; split; done.
Qed.

Definition byte_of (x : N) : Byte.byte := default Byte.x00 (Byte.of_N (x mod 256)).

Lemma byte_of_to_N x : Byte.to_N (byte_of x) = (x mod 256)%N.
Proof.
  unfold byte_of. pose proof (N.mod_lt x 256 ltac:(done)) as Hlt.
  destruct (Byte.of_N (x mod 256)) as [b|] eqn:E.
  - by apply Byte.to_of_N in E.
  - apply Byte.of_N_None_iff in E. lia.
Qed.

(** [str::parse] for an unsigned type: an optional [+], then digits only, in range. *)
Fixpoint parse_digits (bound acc : N) (b : bytes) : option N :=
  match b with
  | [] => if (acc <? bound)%N then Some acc else None
  | d :: b' =>
      let v := Byte.to_N d in
      if ((48 <=? v) && (v <=? 57))%N then parse_digits bound (acc * 10 + (v - 48))%N b' else None
  end.

Definition parse_int (bound : N) (b : bytes) : option N :=
  match b with
  | [] => None
  | Byte.x2b :: [] => None
  | Byte.x2b :: b' => parse_digits bound 0%N b'
  | b => parse_digits bound 0%N b
  end.

Definition parse_u64 : bytes → option N := parse_int u64_bound.
Definition parse_u32 : bytes → option N := parse_int u32_bound.

(** Decimal digits, least significant first. *)
Fixpoint digits_rev (fuel : nat) (x : N) : bytes :=
  match fuel with
  | O => []
  | S fuel' => byte_of (48 + x mod 10) :: if (x <? 10)%N then [] else digits_rev fuel' (x / 10)
  end.

(** The [Display] form of an unsigned number. *)
Definition decimal (x : N) : bytes := rev (digits_rev (S (N.to_nat (N.log2 x))) x).

Definition is_digit (d : Byte.byte) : Prop := (48 <= Byte.to_N d <= 57)%N.

Definition digit_step (acc : N) (d : Byte.byte) : N := (acc * 10 + (Byte.to_N d - 48))%N.

Lemma parse_digits_value bound acc b :
  Forall is_digit b →
  parse_digits bound acc b =
    (let v := fold_left digit_step b acc in if (v <? bound)%N then Some v else None).
Proof.
  intros Hb. revert acc. induction Hb as [|d b [H1 H2] _ IH]; intros acc; [done|]. simpl.
  apply N.leb_le in H1 as ->. apply N.leb_le in H2 as ->. apply IH.
Qed.

Lemma digit_byte x : Byte.to_N (byte_of (48 + x mod 10)) = (48 + x mod 10)%N.
Proof. rewrite byte_of_to_N. apply N.mod_small. pose proof (N.mod_lt x 10 ltac:(done)). lia. Qed.

Lemma digits_rev_digits fuel x : Forall is_digit (digits_rev fuel x).
Proof.
  revert x. induction fuel as [|fuel IH]; intros x; cbn [digits_rev]; constructor.
  - unfold is_digit. rewrite digit_byte. pose proof (N.mod_lt x 10 ltac:(done)). generalize dependent (x mod 10)%N. lia.
  - case_match; [constructor|done].
Qed.

Lemma digits_rev_value fuel x :
  (x < 2 ^ N.of_nat fuel)%N →
  fold_left digit_step (rev (digits_rev fuel x)) 0%N = x.
Proof.
  revert x. induction fuel as [|fuel IH]; intros x Hx; [simpl in *; lia|].
  cbn [digits_rev rev]. rewrite fold_left_app. cbn [fold_left]. unfold digit_step at 1.
  rewrite digit_byte. pose proof (N.div_mod x 10 ltac:(done)) as Hdm.
  generalize dependent (x mod 10)%N. intros r Hdm. destruct (N.ltb_spec x 10) as [Hlt|Hge].
  - cbn [rev fold_left]. rewrite N.div_small in Hdm by done. simpl. lia.
  - rewrite IH; [lia|]. rewrite Nat2N.inj_succ, N.pow_succ_r' in Hx.
    apply N.Div0.div_lt_upper_bound. nia.
Qed.

Lemma decimal_digits x : Forall is_digit (decimal x).
Proof. unfold decimal. apply Forall_rev. apply digits_rev_digits. Qed.

Lemma decimal_nonempty x : decimal x ≠ [].
Proof. unfold decimal. cbn [digits_rev rev]. intros [_ ?]%app_eq_nil. done. Qed.

Lemma parse_int_decimal bound x : (x < bound)%N → parse_int bound (decimal x) = Some x.
Proof.
  intros Hx. assert (parse_digits bound 0 (decimal x) = Some x) as Hp.
  { rewrite parse_digits_value by apply decimal_digits. cbv zeta. unfold decimal.
    rewrite digits_rev_value.
    - by apply N.ltb_lt in Hx as ->.
    - rewrite Nat2N.inj_succ, N2Nat.id. destruct (decide (x = 0%N)) as [->|]; [done|].
      by apply N.log2_spec; lia. }
  pose proof (decimal_digits x) as Hd. pose proof (decimal_nonempty x) as Hn.
  destruct (decimal x) as [|d b]; [done|]. apply Forall_cons in Hd as [Hd _].
  unfold is_digit in Hd. destruct d; try exact Hp. simpl in Hd. lia.
Qed.

(** ** [str::trim] *)

(** The UTF-8 encodings of the characters with the [White_Space] property. *)
Definition white_space : list bytes :=
  [[x09]; [x0a]; [x0b]; [x0c]; [x0d]; [x20]; [xc2; x85]; [xc2; xa0]; [xe1; x9a; x80];
   [xe2; x80; x80]; [xe2; x80; x81]; [xe2; x80; x82]; [xe2; x80; x83]; [xe2; x80; x84];
   [xe2; x80; x85]; [xe2; x80; x86]; [xe2; x80; x87]; [xe2; x80; x88]; [xe2; x80; x89];
   [xe2; x80; x8a]; [xe2; x80; xa8]; [xe2; x80; xa9]; [xe2; x80; xaf]; [xe2; x81; x9f];
   [xe3; x80; x80]].

(** Drop one leading element of [ws], if there is one. *)
Fixpoint drop_one (ws : list bytes) (l : bytes) : option bytes :=
  match ws with
  | [] => None
  | w :: ws' => match strip_prefix w l with Some k => Some k | None => drop_one ws' l end
  end.

Fixpoint drop_all (ws : list bytes) (fuel : nat) (l : bytes) : bytes :=
  match fuel with
  | O => l
  | S fuel' => match drop_one ws l with Some k => drop_all ws fuel' k | None => l end
  end.

Definition trim_start (l : bytes) : bytes := drop_all white_space (length l) l.
Definition trim_end (l : bytes) : bytes :=
  rev (drop_all (@rev _ <$> white_space) (length l) (rev l)).
Definition trim (l : bytes) : bytes := trim_end (trim_start l).

Section drop.
Context (ws : list bytes) (Hws : Forall (λ w, w ≠ []) ws).

Lemma drop_one_None l : drop_one ws l = None ↔ Forall (λ w, strip_prefix w l = None) ws.
Proof using Type.
  clear Hws. induction ws as [|w ws' IH]; simpl; [by split; [constructor|]|].
  rewrite Forall_cons. destruct (strip_prefix w l); naive_solver.
Qed.

Lemma drop_one_Some l k : drop_one ws l = Some k → ∃ w, w ∈ ws ∧ l = w ++ k.
Proof using Type.
  clear Hws. induction ws as [|w ws' IH]; simpl; [done|].
  destruct (strip_prefix w l) as [k'|] eqn:E; intros H; simplify_eq.
  - exists w. rewrite elem_of_cons. split; [by left|]. by apply strip_prefix_Some.
  - apply IH in H as (w' & ? & ?). exists w'. rewrite elem_of_cons. auto.
Qed.

Lemma drop_one_shorter l k : drop_one ws l = Some k → length k < length l.
Proof using All.
  intros (w & Hw & ->)%drop_one_Some. rewrite Forall_forall in Hws.
  apply Hws in Hw. rewrite length_app. destruct w; simpl; [done|lia].
Qed.

Lemma drop_all_suffix fuel l : ∃ p, l = p ++ drop_all ws fuel l.
Proof using Type.
  clear Hws. revert l. induction fuel as [|fuel IH]; intros l; simpl; [by exists []|].
  destruct (drop_one ws l) as [k|] eqn:E; [|by exists []].
  apply drop_one_Some in E as (w & _ & ->). destruct (IH k) as [p Hp].
  exists (w ++ p). by rewrite <- app_assoc, <- Hp.
Qed.

(** Enough fuel: the length, since every dropped element is non-empty. *)
Lemma drop_all_fixed fuel l : length l ≤ fuel → drop_one ws (drop_all ws fuel l) = None.
Proof using All.
  revert l. induction fuel as [|fuel IH]; intros l Hl; simpl.
  - destruct l; simpl in *; [|lia].
    destruct (drop_one ws []) as [k|] eqn:E; [|done].
    apply drop_one_shorter in E. simpl in E. lia.
  - destruct (drop_one ws l) as [k|] eqn:E; [|done].
    apply IH. apply drop_one_shorter in E. lia.
Qed.

Lemma drop_all_noop fuel l : drop_one ws l = None → drop_all ws fuel l = l.
Proof using Type. by destruct fuel; simpl; [|intros ->]. Qed.
End drop.

Lemma white_space_nonempty : Forall (λ w, w ≠ []) white_space.
Proof. by repeat constructor. Qed.
Lemma white_space_rev_nonempty : Forall (λ w, w ≠ []) (@rev _ <$> white_space).
Proof. by repeat constructor. Qed.

Lemma trim_end_prefix l : ∃ k, l = trim_end l ++ k.
Proof.
  destruct (drop_all_suffix (@rev _ <$> white_space) (length l) (rev l)) as [p Hp].
  exists (rev p). unfold trim_end. rewrite <- rev_app_distr, <- Hp. by rewrite rev_involutive.
Qed.

Lemma no_prefix_shorten (w l k : bytes) :
  strip_prefix w (l ++ k) = None → strip_prefix w l = None.
Proof.
  intros H. destruct (strip_prefix w l) as [m|] eqn:E; [|done].
  apply strip_prefix_Some in E as ->. rewrite <- app_assoc, strip_prefix_app in H. done.
Qed.

(** Trimming twice trims once. *)
Lemma trim_idemp l : trim (trim l) = trim l.
Proof.
  assert (drop_one white_space (trim l) = None) as Hs.
  { unfold trim. destruct (trim_end_prefix (trim_start l)) as [k Hk].
    pose proof (drop_all_fixed _ white_space_nonempty (length l) l (le_n _)) as H0.
    fold (trim_start l) in H0. rewrite Hk in H0. apply drop_one_None in H0.
    apply drop_one_None. eapply Forall_impl; [exact H0|]. intros w. apply no_prefix_shorten. }
  unfold trim at 1. unfold trim_start. rewrite drop_all_noop by done.
  unfold trim at 1. unfold trim_end at 1.
  rewrite drop_all_noop; [by rewrite rev_involutive|].
  unfold trim, trim_end. rewrite rev_involutive. apply drop_all_fixed;
    [exact white_space_rev_nonempty|by rewrite length_rev].
Qed.

(** ** [String::from_utf8_lossy] *)

Definition byte_in (lo hi b : Byte.byte) : bool :=
  (Byte.to_N lo <=? Byte.to_N b)%N && (Byte.to_N b <=? Byte.to_N hi)%N.

Definition is_cont (b : Byte.byte) : bool := byte_in x80 xbf b.

(** The second byte a three- or four-byte lead admits. *)
Definition second_ok (b0 b1 : Byte.byte) : bool :=
  if byte_in xe0 xe0 b0 then byte_in xa0 xbf b1
  else if byte_in xed xed b0 then byte_in x80 x9f b1
  else if byte_in xf0 xf0 b0 then byte_in x90 xbf b1
  else if byte_in xf4 xf4 b0 then byte_in x80 x8f b1
  else is_cont b1.

(** U+FFFD. *)
Definition replacement : bytes := [xef; xbf; xbd].

Fixpoint from_utf8_lossy (l : bytes) : bytes :=
  match l with
  | [] => []
  | b0 :: t0 =>
    if byte_in x00 x7f b0 then b0 :: from_utf8_lossy t0
    else if byte_in xc2 xdf b0 then
      match t0 with
      | b1 :: t1 => if is_cont b1 then b0 :: b1 :: from_utf8_lossy t1
                    else replacement ++ from_utf8_lossy t0
      | [] => replacement
      end
    else if byte_in xe0 xef b0 then
      match t0 with
      | b1 :: t1 =>
        if second_ok b0 b1 then
          match t1 with
          | b2 :: t2 => if is_cont b2 then b0 :: b1 :: b2 :: from_utf8_lossy t2
                        else replacement ++ from_utf8_lossy t1
          | [] => replacement
          end
        else replacement ++ from_utf8_lossy t0
      | [] => replacement
      end
    else if byte_in xf0 xf4 b0 then
      match t0 with
      | b1 :: t1 =>
        if second_ok b0 b1 then
          match t1 with
          | b2 :: t2 =>
            if is_cont b2 then
              match t2 with
              | b3 :: t3 => if is_cont b3 then b0 :: b1 :: b2 :: b3 :: from_utf8_lossy t3
                            else replacement ++ from_utf8_lossy t2
              | [] => replacement
              end
            else replacement ++ from_utf8_lossy t1
          | [] => replacement
          end
        else replacement ++ from_utf8_lossy t0
      | [] => replacement
      end
    else replacement ++ from_utf8_lossy t0
  end.

(** Well-formed UTF-8: the invariant of every Rust [String]. *)
Definition utf8_valid (l : bytes) : Prop := from_utf8_lossy l = l.

(** Decoding commutes with an ASCII prefix. *)
Lemma from_utf8_lossy_ascii p l :
  forallb (byte_in x00 x7f) p = true → from_utf8_lossy (p ++ l) = p ++ from_utf8_lossy l.
Proof.
  induction p as [|b p IH]; simpl; [done|].
  intros [Hb Hp]%andb_true_iff. by rewrite Hb, IH.
Qed.
