(* ===== verification/Common.v ===== *)
(** * Shared primitives ([crates/contracts/daemon-common])

    Identifiers, fencing tokens, epochs, the additive usage measurement and its
    pricing, and the shared base error. *)

From S2P Require Import Prelude.

#[local] Open Scope N_scope.
#[local] Open Scope daemon_scope.

(** ** Identifiers

    Every identifier is a string newtype; a partition, a fence and an epoch
    wrap a [u64]. *)

Abbreviation SessionId := string (only parsing).
Abbreviation JobId := string (only parsing).
Abbreviation JournalStreamId := string (only parsing).
Abbreviation ProfileRef := string (only parsing).
Abbreviation SnapshotBlob := (list Byte.byte) (only parsing).
Abbreviation ContentHash := (list Byte.byte) (only parsing).
Abbreviation MerkleRoot := (list Byte.byte) (only parsing).
Abbreviation PartitionId := N (only parsing).
Abbreviation FenceToken := N (only parsing).
Abbreviation Epoch := N (only parsing).

Definition FenceToken_ZERO : FenceToken := 0.
Definition FenceToken_next (f : FenceToken) : FenceToken := f +₆₄ 1.

Definition Epoch_ZERO : Epoch := 0.
Definition Epoch_next (e : Epoch) : Epoch := e +₆₄ 1.

(** The journal stream of a session has the session's own name. *)
Definition JournalStreamId_session (id : SessionId) : JournalStreamId := id.

Lemma FenceToken_next_lt (f : FenceToken) : f + 1 < u64_bound → f < FenceToken_next f.
Proof. unfold FenceToken_next. u64_lia. Qed.

(** ** Usage *)

Record UsageDelta := mkUsageDelta {
  input_tokens : N;
  output_tokens : N;
  api_calls : N;
  cache_read_tokens : N;
  cache_write_tokens : N;
  reasoning_tokens : N;
  cost_micros : N
}.

#[export] Instance UsageDelta_eq_dec : EqDecision UsageDelta.
Proof. solve_decision. Defined.

Definition UsageDelta_default : UsageDelta := mkUsageDelta 0 0 0 0 0 0 0.

(** [UsageDelta::add]: seven counters, [api_calls] a [u32]. *)
Definition UsageDelta_add (self other : UsageDelta) : UsageDelta :=
  mkUsageDelta
    (input_tokens self +₆₄ input_tokens other)
    (output_tokens self +₆₄ output_tokens other)
    (api_calls self +₃₂ api_calls other)
    (cache_read_tokens self +₆₄ cache_read_tokens other)
    (cache_write_tokens self +₆₄ cache_write_tokens other)
    (reasoning_tokens self +₆₄ reasoning_tokens other)
    (cost_micros self +₆₄ cost_micros other).

Record Pricing := mkPricing {
  input_micros_per_mtok : N;
  output_micros_per_mtok : N;
  cache_read_micros_per_mtok : N;
  cache_write_micros_per_mtok : N
}.

(** [Pricing::from_io]: cache reads at 0.1x, writes at 1.25x the input rate. *)
Definition Pricing_from_io (input output : N) : Pricing :=
  mkPricing input output (input / 10) (wrap64 (input * 5) / 4).

(** [tokens * rate / 1_000_000] in [u128], truncated to [u64].  The product of
    two [u64] values fits a [u128]. *)
Definition per_mtok (tokens rate : N) : N := wrap64 (tokens * rate / 1000000).

(** [UsageDelta::estimate_cost_micros]; truncated subtraction is
    [saturating_sub]. *)
Definition estimate_cost_micros (self : UsageDelta) (pricing : Pricing) : N :=
  let fresh_input := input_tokens self - cache_read_tokens self - cache_write_tokens self in
  per_mtok fresh_input (input_micros_per_mtok pricing)
  +₆₄ per_mtok (cache_read_tokens self) (cache_read_micros_per_mtok pricing)
  +₆₄ per_mtok (cache_write_tokens self) (cache_write_micros_per_mtok pricing)
  +₆₄ per_mtok (output_tokens self) (output_micros_per_mtok pricing).

Lemma wrap64_add_l x y : wrap64 (wrap64 x + y) = wrap64 (x + y).
Proof. unfold wrap64. by rewrite N.Div0.add_mod_idemp_l. Qed.
Lemma wrap64_add_r x y : wrap64 (x + wrap64 y) = wrap64 (x + y).
Proof. unfold wrap64. by rewrite N.Div0.add_mod_idemp_r. Qed.
Lemma wrap32_add_l x y : wrap32 (wrap32 x + y) = wrap32 (x + y).
Proof. unfold wrap32. by rewrite N.Div0.add_mod_idemp_l. Qed.
Lemma wrap32_add_r x y : wrap32 (x + wrap32 y) = wrap32 (x + y).
Proof. unfold wrap32. by rewrite N.Div0.add_mod_idemp_r. Qed.

Create Rewrite HintDb wrap.
#[export] Hint Rewrite wrap64_add_l wrap64_add_r wrap32_add_l wrap32_add_r : wrap.

(** Folding is associative and commutative even when counters wrap, so a tree's
    usage does not depend on how its children's deltas are grouped. *)
#[export] Instance UsageDelta_add_assoc : Assoc (=) UsageDelta_add.
Proof.
  intros x y z. unfold UsageDelta_add; simpl.
  f_equal; autorewrite with wrap; f_equal; lia.
Qed.

#[export] Instance UsageDelta_add_comm : Comm (=) UsageDelta_add.
Proof. intros x y. unfold UsageDelta_add; simpl. f_equal; f_equal; lia. Qed.

Lemma per_million x : ∃ q r, x / 1000000 = q ∧ x = 1000000 * q + r ∧ r < 1000000.
Proof.
  exists (x / 1000000), (x mod 1000000). split_and!; [done|by apply N.div_mod|by apply N.mod_lt].
Qed.

(** The estimate is within four micro-dollars below the exact price, whenever
    the price fits a [u64] and the cached tokens are part of the input. *)
Lemma estimate_cost_close u p :
  let exact := (input_tokens u - cache_read_tokens u - cache_write_tokens u) * input_micros_per_mtok p +
    cache_read_tokens u * cache_read_micros_per_mtok p +
    cache_write_tokens u * cache_write_micros_per_mtok p + output_tokens u * output_micros_per_mtok p in
  exact < 1000000 * u64_bound →
  1000000 * estimate_cost_micros u p ≤ exact < 1000000 * (estimate_cost_micros u p + 4).
Proof.
  intros exact He. unfold estimate_cost_micros, per_mtok. subst exact.
  set (a := (_ - _) * _) in *. set (b := cache_read_tokens u * _) in *.
  set (c := cache_write_tokens u * _) in *. set (d := output_tokens u * _) in *. clearbody a b c d.
  destruct (per_million a) as (qa & ra & -> & Ha & Hra), (per_million b) as (qb & rb & -> & Hb & Hrb),
    (per_million c) as (qc & rc & -> & Hc & Hrc), (per_million d) as (qd & rd & -> & Hd & Hrd).
  unfold wrap64, u64_bound in *.
  rewrite (N.mod_small qa), (N.mod_small qb), (N.mod_small qc), (N.mod_small qd) by lia.
  rewrite (N.mod_small (qa + qb)), (N.mod_small (qa + qb + qc)), N.mod_small by lia. lia.
Qed.

(** ** Errors *)

(** [DaemonError]. *)
Inductive DaemonError :=
| DE_Fenced (have current : N)
| DE_NotFound
| DE_Codec (msg : string)
| DE_Fault (msg : string)
| DE_Other (msg : string).

#[export] Instance DaemonError_eq_dec : EqDecision DaemonError.
Proof. solve_decision. Defined.

(** The [Display] form ([thiserror]'s [#[error(..)]] strings). *)
Definition DaemonError_to_string (e : DaemonError) : string :=
  match e with
  | DE_Fenced have current =>
      "fenced: holder token " +:+ pretty have +:+ " is stale (current is " +:+ pretty current +:+ ")"
  | DE_NotFound => "not found"
  | DE_Codec m => "codec: " +:+ m
  | DE_Fault m => "injected fault: " +:+ m
  | DE_Other m => m
  end%string.
