(* ===== verification/Approval.v ===== *)
(** * Operator decisions on the wire between the store and the engine

    The store encodes a decision as a completion payload
    ([approval_completion_payload]); the engine's [resolve_approvals] decodes
    it when the session resumes.  The file models both ends and shows that the
    decision the operator made is the one the engine acts on. *)

From S2P Require Import Prelude Text Common.


(** [approval_completion_payload]. *)
Definition approval_completion_payload (allow allow_permanent : bool) (reason : option string) : bytes :=
  match allow, allow_permanent, (λ r, trim (string_bytes r)) <$> reason with
  | true, true, _ => string_bytes "allow_permanent"
  | true, false, _ => string_bytes "allow"
  | false, _, Some (b :: r) => string_bytes "deny:" ++ b :: r
  | false, _, _ => string_bytes "deny"
  end.

(** What [resolve_approvals] reads off the payload of a completion. *)
Definition decision_text (payload : bytes) : bytes := from_utf8_lossy payload.
Definition decision_allows (payload : bytes) : bool :=
  starts_with (string_bytes "allow") (decision_text payload).
Definition decision_permanent (payload : bytes) : bool :=
  bool_decide (decision_text payload = string_bytes "allow_permanent").

(** The tool-error content injected for a denied action. *)
Definition denial_content (job_id : JobId) (payload : bytes) : bytes :=
  let plain := string_bytes ("operator denied this action (request " +:+ job_id +:+ ")") in
  match strip_prefix (string_bytes "deny:") (decision_text payload) with
  | Some reason =>
      match trim reason with
      | [] => plain
      | text => string_bytes ("operator denied this action (request " +:+ job_id +:+ "): ") ++ text
      end
  | None => plain
  end.

Lemma deny_text r :
  decision_text (string_bytes "deny:" ++ r) = string_bytes "deny:" ++ from_utf8_lossy r.
Proof. by apply from_utf8_lossy_ascii. Qed.

Lemma deny_never_allows r : starts_with (string_bytes "allow") (string_bytes "deny:" ++ r) = false.
Proof. reflexivity. Qed.

(** The allow bit of a decision survives the encoding, whatever reason the
    operator typed: a deny reason can never read as an allow. *)
Lemma allows_payload allow perm reason :
  decision_allows (approval_completion_payload allow perm reason) = allow.
Proof.
  unfold decision_allows, approval_completion_payload.
  destruct allow, perm, reason as [r|]; try reflexivity; cbn [fmap option_fmap option_map].
  all: destruct (trim (string_bytes r)) as [|b t]; [reflexivity|].
  all: by rewrite deny_text, deny_never_allows.
Qed.

Lemma permanent_payload allow perm reason :
  decision_permanent (approval_completion_payload allow perm reason) = allow && perm.
Proof.
  unfold decision_permanent, approval_completion_payload.
  destruct allow, perm, reason as [r|]; try reflexivity; cbn [fmap option_fmap option_map].
  all: destruct (trim (string_bytes r)) as [|b t]; [reflexivity|].
  all: by rewrite deny_text.
Qed.

(** A decision reaches the engine as it was made: the allow bit and the
    permanence bit survive, and a denial carries the operator's trimmed words
    (or none, when they are blank). *)
Theorem decision_roundtrip allow perm reason job :
  let payload := approval_completion_payload allow perm reason in
  let words := trim (string_bytes (default "" reason)) in
  decision_allows payload = allow ∧
  decision_permanent payload = allow && perm ∧
  (allow = false → utf8_valid words →
   denial_content job payload =
     if decide (words = [])
     then string_bytes ("operator denied this action (request " +:+ job +:+ ")")
     else string_bytes ("operator denied this action (request " +:+ job +:+ "): ") ++ words).
Proof.
  intros payload words. split; [apply allows_payload|]. split; [apply permanent_payload|].
  intros -> Hv. unfold payload, denial_content, approval_completion_payload.
  destruct reason as [r|]; [|by destruct perm].
  cbn [fmap option_fmap option_map]. unfold words in *. clear words. simpl default in *.
  set (words := trim (string_bytes r)) in *. destruct words as [|b t] eqn:Hw; [by destruct perm|].
  assert (trim (b :: t) = b :: t) as Ht by (rewrite <- Hw; apply trim_idemp).
  unfold utf8_valid in Hv.
  destruct perm; rewrite deny_text, Hv, strip_prefix_app, Ht; by case_decide.
Qed.

Lemma decision_roundtrip_witness :
  denial_content "req" (approval_completion_payload false false (Some " too risky ")) =
    string_bytes "operator denied this action (request req): too risky".
Proof.
  destruct (decision_roundtrip false false (Some " too risky ") "req") as (_ & _ & ->);
    [reflexivity|vm_compute; reflexivity|vm_compute; reflexivity].
Defined.
