(* ===== verification/StoreTypes.v ===== *)
(** * The data of the durable store ([crates/substrate/daemon-store])

    The rows the store persists, the values its operations exchange, and the
    errors they return.  Field names carry a prefix naming their struct;
    payloads stay opaque bytes, as in the source. *)

From S2P Require Import Prelude Common.

#[local] Open Scope N_scope.

(** ** Sessions *)

Inductive SessionStatus :=
| Active
| Suspended (job_id : JobId)
| Ready
| Completed
| Idle.

#[export] Instance SessionStatus_eq_dec : EqDecision SessionStatus.
Proof. solve_decision. Defined.

Record SessionRecord := mkSessionRecord {
  sr_session_id : SessionId;
  sr_partition : PartitionId;
  sr_epoch : Epoch;
  sr_status : SessionStatus;
  sr_snapshot : SnapshotBlob;
  sr_fence : FenceToken;
  sr_turn_seq : N
}.

#[export] Instance eta_SessionRecord : Eta SessionRecord := λ r,
  mkSessionRecord (sr_session_id r) (sr_partition r) (sr_epoch r) (sr_status r)
    (sr_snapshot r) (sr_fence r) (sr_turn_seq r).

Inductive SessionRole := Primary | ManagedChild | EphemeralSubagent.

Inductive ChildLifetime := Persistent | Ephemeral.

(** [ChildLifetime::role]. *)
Definition ChildLifetime_role (l : ChildLifetime) : SessionRole :=
  match l with
  | Persistent => ManagedChild
  | Ephemeral => EphemeralSubagent
  end.

Record SessionMeta := mkSessionMeta {
  sm_bound_profile : option ProfileRef;
  sm_overlay : bytes;
  sm_title : option string;
  sm_last_activity_ms : option N;
  sm_role : option SessionRole;
  sm_parent : option SessionId;
  sm_pinned : bool;
  sm_archived : bool;
  sm_scheduled_job : option JobId;
  sm_activation_epoch : N;
  sm_owner : option string;
  sm_terminal_ms : option N;
  sm_inline_profile : bytes
}.

#[export] Instance eta_SessionMeta : Eta SessionMeta := λ m,
  mkSessionMeta (sm_bound_profile m) (sm_overlay m) (sm_title m) (sm_last_activity_ms m)
    (sm_role m) (sm_parent m) (sm_pinned m) (sm_archived m) (sm_scheduled_job m)
    (sm_activation_epoch m) (sm_owner m) (sm_terminal_ms m) (sm_inline_profile m).

(** [SessionMeta::default]. *)
Definition SessionMeta_default : SessionMeta :=
  mkSessionMeta None [] None None None None false false None 0 None None [].

Definition MAX_LINEAGE_WALK : nat := 16.

(** [ExecutionPolicy]: stamped at creation, never inferred. *)
Inductive ExecutionPolicy :=
| InteractiveRoot
| JoiningChild
| DetachedChild
| BackgroundChild
| CronRun.

(** ** Background jobs and their completions *)

Record JobCommand := mkJobCommand {
  jc_job_id : JobId;
  jc_session_id : SessionId;
  jc_epoch : Epoch;
  jc_payload : bytes;
  jc_lifetime : ChildLifetime;
  jc_child : option SessionId
}.

#[export] Instance eta_JobCommand : Eta JobCommand := λ j,
  mkJobCommand (jc_job_id j) (jc_session_id j) (jc_epoch j) (jc_payload j)
    (jc_lifetime j) (jc_child j).

Record JobCompletion := mkJobCompletion {
  jp_session_id : SessionId;
  jp_epoch : Epoch;
  jp_job_id : JobId;
  jp_payload : bytes
}.

Record CompletionNotice := mkCompletionNotice {
  cn_parent : SessionId;
  cn_child : SessionId;
  cn_call_id : option string;
  cn_payload : bytes
}.

(** ** The durable inbox *)

Inductive SpliceKind := StartTurn | Steer | Observe.

Inductive SpliceClaim :=
| Pending
| Claimed (fence : N)
| Consumed (turn_seq : N).

#[export] Instance SpliceClaim_eq_dec : EqDecision SpliceClaim.
Proof. solve_decision. Defined.

Record InboxSplice := mkInboxSplice {
  is_session_id : SessionId;
  is_splice_seq : N;
  is_kind : SpliceKind;
  is_payload : bytes;
  is_origin_op : string;
  is_origin : string;
  is_received_at_ms : N;
  is_claim : SpliceClaim
}.

#[export] Instance eta_InboxSplice : Eta InboxSplice := λ r,
  mkInboxSplice (is_session_id r) (is_splice_seq r) (is_kind r) (is_payload r)
    (is_origin_op r) (is_origin r) (is_received_at_ms r) (is_claim r).

Record NewSplice := mkNewSplice {
  ns_session_id : SessionId;
  ns_kind : SpliceKind;
  ns_payload : bytes;
  ns_origin_op : string;
  ns_origin : string
}.

(** Seven days. *)
Definition SPLICE_RETENTION_MS : N := 7 * 24 * 60 * 60 * 1000.

(** [matches!(row.claim, SpliceClaim::Consumed { .. })]. *)
Definition is_consumed (c : SpliceClaim) : bool :=
  match c with Consumed _ => true | _ => false end.

(** ** Activations and commits *)

Record Activation := mkActivation {
  ac_snapshot : SnapshotBlob;
  ac_unapplied : list JobCompletion;
  ac_fence : FenceToken;
  ac_splices : list InboxSplice;
  ac_policy : option ExecutionPolicy;
  ac_turn_seq : N
}.

Record Checkpoint := mkCheckpoint {
  cp_session_id : SessionId;
  cp_epoch : Epoch;
  cp_snapshot : SnapshotBlob;
  cp_completion_payload : option bytes;
  cp_consumed_splices : option N;
  cp_applied_completions : list (Epoch * JobId)
}.

#[export] Instance eta_Checkpoint : Eta Checkpoint := λ c,
  mkCheckpoint (cp_session_id c) (cp_epoch c) (cp_snapshot c) (cp_completion_payload c)
    (cp_consumed_splices c) (cp_applied_completions c).

(** [Checkpoint::new] and its builder methods. *)
Definition Checkpoint_new (id : SessionId) (epoch : Epoch) (snapshot : SnapshotBlob) : Checkpoint :=
  mkCheckpoint id epoch snapshot None None [].

Definition with_completion_payload (c : Checkpoint) (payload : option bytes) : Checkpoint :=
  c <| cp_completion_payload := payload |>.

Definition with_consumed_splices (c : Checkpoint) (seq : option N) : Checkpoint :=
  c <| cp_consumed_splices := seq |>.

Definition with_applied_completions (c : Checkpoint) (keys : list (Epoch * JobId)) : Checkpoint :=
  c <| cp_applied_completions := keys |>.

Record TurnSeal := mkTurnSeal {
  ts_segment : N;
  ts_root : MerkleRoot;
  ts_signature : bytes
}.

Record TurnCommit := mkTurnCommit {
  tc_turn_seq : N;
  tc_status : SessionStatus
}.

Record ParkedApproval := mkParkedApproval {
  pa_session_id : SessionId;
  pa_job_id : JobId;
  pa_epoch : Epoch;
  pa_prompt : string;
  pa_path : option string;
  pa_fingerprint : option string;
  pa_decision : option bool
}.

#[export] Instance eta_ParkedApproval : Eta ParkedApproval := λ a,
  mkParkedApproval (pa_session_id a) (pa_job_id a) (pa_epoch a) (pa_prompt a) (pa_path a)
    (pa_fingerprint a) (pa_decision a).

Inductive RunnableEdge :=
| Delegation (job : JobCommand)
| CompletionNoticeEdge (parent : SessionId) (call_id : option string)
| ChildEdge (parent : SessionId) (work_label : string).

Record RunnableSession := mkRunnableSession {
  rs_id : SessionId;
  rs_partition : PartitionId;
  rs_snapshot : SnapshotBlob;
  rs_policy : ExecutionPolicy;
  rs_meta : option SessionMeta;
  rs_edge : option RunnableEdge;
  rs_first_input : option bytes
}.

(** ** The verifiable journal *)

Record TraceEntry := mkTraceEntry {
  te_seq : N;
  te_bytes : bytes;
  te_content_hash : ContentHash
}.

Record CommittedRoot := mkCommittedRoot {
  cr_root : MerkleRoot;
  cr_signature : bytes
}.

Record TraceSegment := mkTraceSegment {
  sg_stream : JournalStreamId;
  sg_segment : N;
  sg_entries : list TraceEntry;
  sg_committed : option CommittedRoot
}.

Record JournalEntry := mkJournalEntry {
  je_cursor : N;
  je_segment : N;
  je_entry : TraceEntry
}.

Record JournalPage := mkJournalPage {
  pg_entries : list JournalEntry;
  pg_segment_roots : list (N * CommittedRoot);
  pg_next_cursor : N;
  pg_head_cursor : N
}.

Definition JournalPage_default : JournalPage := mkJournalPage [] [] 0 0.

Record JournalSeal := mkJournalSeal {
  jl_seal_cursor : N;
  jl_retained_turns : N;
  jl_epoch : N;
  jl_recorded_unix : N
}.

(** ** Host tables *)

Record ChatRoute := mkChatRoute {
  rt_key : string;
  rt_session_id : SessionId;
  rt_profile : option ProfileRef;
  rt_descriptor : bytes
}.

Record TransportPref := mkTransportPref {
  tp_transport : string;
  tp_enabled : bool;
  tp_label : option string;
  tp_settings : gmap string string
}.

Record AcpEntry := mkAcpEntry {
  acp_name : string;
  acp_entry : bytes
}.

Record CustomProviderRecord := mkCustomProviderRecord {
  cpr_id : string;
  cpr_entry : bytes
}.

Definition CRON_RUN_RETENTION : nat := 50.

Record StoredCronJob := mkStoredCronJob {
  cj_id : string;
  cj_schedule : string;
  cj_spec : bytes;
  cj_next_fire_unix : option N;
  cj_paused : bool;
  cj_last_run_unix : option N;
  cj_last_ok : option bool;
  cj_last_detail : option string;
  cj_fire_count : N;
  cj_created_unix : N;
  cj_owner : option string
}.

Record StoredCronRun := mkStoredCronRun {
  cu_job_id : string;
  cu_started_unix : N;
  cu_finished_unix : option N;
  cu_ok : bool;
  cu_detail : option string;
  cu_session : option SessionId;
  cu_manual : bool
}.

Record StoredCronSuggestion := mkStoredCronSuggestion {
  cs_id : string;
  cs_title : string;
  cs_description : string;
  cs_source : string;
  cs_spec : bytes;
  cs_dedup_key : string;
  cs_status : string;
  cs_created_unix : N
}.

Record StoredSavedPresence := mkStoredSavedPresence {
  sp_id : string;
  sp_payload : bytes
}.

Record FeedbackRecord := mkFeedbackRecord {
  fb_id : string;
  fb_created_at_ms : Z;
  fb_kind : string;
  fb_rating : option string;
  fb_comment : option string;
  fb_include_content : bool;
  fb_session : option string;
  fb_cursor : option N;
  fb_trace : option N;
  fb_surface : string;
  fb_app_version : option string;
  fb_os : option string;
  fb_consent : string;
  fb_node_version : string;
  fb_model : option string;
  fb_provider : option string;
  fb_end_reason : option string;
  fb_input_tokens : option N;
  fb_output_tokens : option N;
  fb_response_content : option string;
  fb_delivered : bool
}.

#[export] Instance eta_FeedbackRecord : Eta FeedbackRecord := λ r,
  mkFeedbackRecord (fb_id r) (fb_created_at_ms r) (fb_kind r) (fb_rating r) (fb_comment r)
    (fb_include_content r) (fb_session r) (fb_cursor r) (fb_trace r) (fb_surface r)
    (fb_app_version r) (fb_os r) (fb_consent r) (fb_node_version r) (fb_model r)
    (fb_provider r) (fb_end_reason r) (fb_input_tokens r) (fb_output_tokens r)
    (fb_response_content r) (fb_delivered r).

(** Twenty-four hours. *)
Definition COMMAND_DEDUP_TTL_MS : N := 24 * 60 * 60 * 1000.

Record StoreStats := mkStoreStats {
  st_pending_jobs : nat;
  st_pending_wakes : nat;
  st_sessions : nat
}.

(** ** Faults and errors *)

Inductive FaultPoint :=
| BeforeSnapshot
| AfterSnapshot
| AfterJobOutbox
| BeforeWakePublish
| MidRunnableConstruction.

#[export] Instance FaultPoint_eq_dec : EqDecision FaultPoint.
Proof. solve_decision. Defined.

Inductive StoreError :=
| Fenced (have current : N)
| NotFound (id : SessionId)
| AlreadyExists (id : SessionId)
| Fault (point : FaultPoint)
| CommonErr (inner : DaemonError).

#[export] Instance StoreError_eq_dec : EqDecision StoreError.
Proof. solve_decision. Defined.

Inductive StoreErrorWire :=
| WFenced (have current : N)
| WNotFound (id : SessionId)
| WFault (msg : string)
| WOther (msg : string).

(** The derived [Debug] rendering of a fault point. *)
Definition FaultPoint_debug (p : FaultPoint) : string :=
  match p with
  | BeforeSnapshot => "BeforeSnapshot"
  | AfterSnapshot => "AfterSnapshot"
  | AfterJobOutbox => "AfterJobOutbox"
  | BeforeWakePublish => "BeforeWakePublish"
  | MidRunnableConstruction => "MidRunnableConstruction"
  end.

(** [impl From<&StoreError> for StoreErrorWire]. *)
Definition StoreErrorWire_from (e : StoreError) : StoreErrorWire :=
  match e with
  | Fenced have current => WFenced have current
  | NotFound id => WNotFound id
  | AlreadyExists id => WOther ("session already exists: " +:+ id)
  | Fault point => WFault (FaultPoint_debug point)
  | CommonErr inner => WOther (DaemonError_to_string inner)
  end.

(** [StoreErrorWire::into_store_error]. *)
Definition into_store_error (w : StoreErrorWire) : StoreError :=
  match w with
  | WFenced have current => Fenced have current
  | WNotFound id => NotFound id
  | WFault msg => CommonErr (DE_Fault msg)
  | WOther msg => CommonErr (DE_Other msg)
  end.

(** The [Display] form of a store error. *)
Definition StoreError_to_string (e : StoreError) : string :=
  match e with
  | Fenced have current =>
      "fenced: holder token " +:+ pretty have +:+ " is stale (current is " +:+ pretty current +:+ ")"
  | NotFound id => "session not found: " +:+ id
  | AlreadyExists id => "session already exists: " +:+ id
  | Fault point => "injected fault at " +:+ FaultPoint_debug point
  | CommonErr inner => DaemonError_to_string inner
  end%string.
