(* ===== verification/Store.v ===== *)
(** * The in-memory durable store ([crates/substrate/daemon-store], [InMemoryStore])

    [Inner] is the state behind the store's lock, one field per field of the
    source.  Every operation holds the lock for its whole body, so each one is
    a single atomic step on [Inner].  [now] stands for [now_ms()].

    This file holds the session, lease, inbox, completion, delegation and
    approval operations; [Registry] and [Journal] hold the host tables and the
    verifiable journal. *)

From S2P Require Import Prelude Text Common Approval StoreTypes.

#[local] Open Scope N_scope.
#[local] Open Scope daemon_scope.

Record Inner := mkInner {
  in_sessions : gmap SessionId SessionRecord;
  in_inbox_keys : gset (SessionId * Epoch * JobId);
  in_unapplied : gmap SessionId (list JobCompletion);
  in_job_outbox : list JobCommand;
  in_enqueued_jobs : gset JobId;
  in_wake_outbox : list SessionId;
  in_delegations : gmap SessionId JobCommand;
  in_completion_notices : gmap SessionId (SessionId * option string);
  in_notices_fired : gset SessionId;
  in_notice_outbox : list CompletionNotice;
  in_detached_seq : gmap SessionId N;
  in_splices : gmap SessionId (list InboxSplice);
  in_splice_seq : gmap SessionId N;
  in_pending_approvals : gmap SessionId (list ParkedApproval);
  in_child_index : gmap SessionId (list SessionId);
  in_background_edges : gmap SessionId string;
  in_usage : gmap SessionId UsageDelta;
  in_session_text : gmap SessionId (string * string);
  in_session_meta : gmap SessionId SessionMeta;
  in_execution_policy : gmap SessionId ExecutionPolicy;
  in_chat_routes : gmap string ChatRoute;
  in_tool_overrides : gmap string bool;
  in_transport_prefs : gmap string (bool * option string * gmap string string);
  in_credential_labels : gmap string string;
  in_feedback_outbox : list FeedbackRecord;
  in_telemetry_consent : bool;
  in_crash_consent : bool;
  in_gateway_override : option (bool * option string);
  in_acp_catalog : gmap string AcpEntry;
  in_custom_providers : gmap string CustomProviderRecord;
  in_cron_jobs : gmap string StoredCronJob;
  in_cron_runs : gmap string (list StoredCronRun);
  in_cron_suggestions : gmap string StoredCronSuggestion;
  in_saved_presences : list StoredSavedPresence;
  in_saved_presence_active : option string;
  in_fault : option FaultPoint;
  in_journal_entries : gmap JournalStreamId (list JournalEntry);
  in_journal_roots : gmap (JournalStreamId * N) CommittedRoot;
  in_journal_cursor : N;
  in_journal_seals : gmap JournalStreamId (list JournalSeal);
  in_command_dedup : gmap (string * string) (bytes * N)
}.

#[export] Instance eta_Inner : Eta Inner := λ s,
  mkInner (in_sessions s) (in_inbox_keys s) (in_unapplied s) (in_job_outbox s)
    (in_enqueued_jobs s) (in_wake_outbox s) (in_delegations s) (in_completion_notices s)
    (in_notices_fired s) (in_notice_outbox s) (in_detached_seq s) (in_splices s)
    (in_splice_seq s) (in_pending_approvals s) (in_child_index s) (in_background_edges s)
    (in_usage s) (in_session_text s) (in_session_meta s) (in_execution_policy s)
    (in_chat_routes s) (in_tool_overrides s) (in_transport_prefs s) (in_credential_labels s)
    (in_feedback_outbox s) (in_telemetry_consent s) (in_crash_consent s)
    (in_gateway_override s) (in_acp_catalog s) (in_custom_providers s) (in_cron_jobs s)
    (in_cron_runs s) (in_cron_suggestions s) (in_saved_presences s)
    (in_saved_presence_active s) (in_fault s) (in_journal_entries s) (in_journal_roots s)
    (in_journal_cursor s) (in_journal_seals s) (in_command_dedup s).

(** [InMemoryStore::new]: the derived [Default]. *)
Definition InMemoryStore_new : Inner :=
  mkInner ∅ ∅ ∅ [] ∅ [] ∅ ∅ ∅ [] ∅ ∅ ∅ ∅ ∅ ∅ ∅ ∅ ∅ ∅ ∅ ∅ ∅ ∅ [] false false None
    ∅ ∅ ∅ ∅ ∅ [] None None ∅ ∅ 0 ∅ ∅.

(** A store operation: atomic on [Inner], failing with a [StoreError]. *)
Abbreviation Store := (M Inner StoreError).

(** ** Helpers shared by the operations *)

Definition set_fault (fault : option FaultPoint) (s : Inner) : Inner :=
  s <| in_fault := fault |>.

(** [take_fault]: one-shot. *)
Definition take_fault (point : FaultPoint) : Store unit := λ s,
  if decide (in_fault s = Some point)
  then (Err (Fault point), s <| in_fault := None |>)
  else (Ok tt, s).

(** [check_fence]: a token below the granted one is stale. *)
Definition check_fence (rec : SessionRecord) (fence : FenceToken) : Store unit :=
  if fence <? sr_fence rec then throw (Fenced fence (sr_fence rec)) else mret tt.

(** [sessions.get(id).ok_or_else(|| NotFound(id))?]. *)
Definition find_session (id : SessionId) : Store SessionRecord :=
  s ← get; ok_or (in_sessions s !! id) (NotFound id).

(** Writing back through the [&mut SessionRecord] found under [id]. *)
Definition put_session (id : SessionId) (rec : SessionRecord) (s : Inner) : Inner :=
  s <| in_sessions := <[id := rec]> (in_sessions s) |>.

Definition write_session (id : SessionId) (rec : SessionRecord) : Store unit :=
  modify (put_session id rec).

(** The claim CAS on one row: the row as claimed by [fence], if it is. *)
Definition claim_row (fence : FenceToken) (row : InboxSplice) : option InboxSplice :=
  match is_claim row with
  | Pending => Some (row <| is_claim := Claimed fence |>)
  | Claimed old =>
      if old <? fence then Some (row <| is_claim := Claimed fence |>)
      else if old =? fence then Some row
      else None
  | Consumed _ => None
  end.

(** [claim_splices_locked]. *)
Definition claim_splices_locked (session : SessionId) (fence : FenceToken) (s : Inner)
    : list InboxSplice * Inner :=
  match in_splices s !! session with
  | Some rows =>
      (omap (claim_row fence) rows,
       s <| in_splices := <[session := (λ r, default r (claim_row fence r)) <$> rows]> (in_splices s) |>)
  | None => ([], s)
  end.

Definition consume_row (up_to turn_seq : N) (row : InboxSplice) : InboxSplice :=
  if (is_splice_seq row <=? up_to) && negb (is_consumed (is_claim row))
  then row <| is_claim := Consumed turn_seq |>
  else row.

(** [consume_splices_locked]. *)
Definition consume_splices_locked (session : SessionId) (up_to turn_seq : N) (s : Inner) : Inner :=
  match in_splices s !! session with
  | Some rows =>
      s <| in_splices := <[session := consume_row up_to turn_seq <$> rows]> (in_splices s) |>
  | None => s
  end.

(** [if let Some(up_to) = checkpoint.consumed_splices { consume_splices_locked(..) }]. *)
Definition consume_checkpoint (cp : Checkpoint) (turn_seq : N) : Store unit :=
  match cp_consumed_splices cp with
  | Some up_to => modify (consume_splices_locked (cp_session_id cp) up_to turn_seq)
  | None => mret tt
  end.

(** [insert_fresh]: insert-if-absent, an existing row is never reset. *)
Definition insert_fresh (id : SessionId) (partition : PartitionId) (snapshot : SnapshotBlob)
    (status : SessionStatus) : Store unit :=
  s ← get;
  match in_sessions s !! id with
  | Some _ => throw (AlreadyExists id)
  | None => write_session id (mkSessionRecord id partition Epoch_ZERO status snapshot FenceToken_ZERO 0)
  end.

(** [apply_completion_locked]: idempotent per [(session, epoch, job)]; [true]
    when the completion was fresh. *)
Definition apply_completion_locked (c : JobCompletion) (s : Inner) : bool * Inner :=
  let key := (jp_session_id c, jp_epoch c, jp_job_id c) in
  if decide (key ∈ in_inbox_keys s) then (false, s)
  else
    let s1 := s <| in_inbox_keys := {[key]} ∪ in_inbox_keys s |>
                <| in_unapplied := entry_push (in_unapplied s) (jp_session_id c) c |> in
    match in_sessions s1 !! jp_session_id c with
    | Some rec => (true, put_session (jp_session_id c) (rec <| sr_status := Ready |>) s1)
    | None => (true, s1)
    end.

Definition apply_completion (c : JobCompletion) : Store bool := λ s,
  let '(fresh, s') := apply_completion_locked c s in (Ok fresh, s').

(** [wake_outbox.push_back(id)]. *)
Definition enqueue_wake (id : SessionId) (s : Inner) : Inner :=
  s <| in_wake_outbox := in_wake_outbox s ++ [id] |>.

(** [if apply_completion_locked(..) { wake_outbox.push_back(session) }]. *)
Definition apply_and_wake (c : JobCompletion) : Store unit :=
  fresh ← apply_completion c;
  if fresh : bool then modify (enqueue_wake (jp_session_id c)) else mret tt.

(** [siblings.contains(child)] guarding [siblings.push(child)]. *)
Definition add_child (parent child : SessionId) (m : gmap SessionId (list SessionId))
    : gmap SessionId (list SessionId) :=
  let siblings := entry_vec m parent in
  <[parent := if decide (child ∈ siblings) then siblings else siblings ++ [child]]> m.

(** [entry(k).or_insert(v)]: first writer wins. *)
Definition or_insert {K A} `{Countable K} (m : gmap K A) (k : K) (v : A) : gmap K A :=
  match m !! k with Some _ => m | None => <[k := v]> m end.

(** [*s += 1; *s] on [splice_seq.entry(id).or_insert(0)]. *)
Definition next_splice_seq (s : Inner) (id : SessionId) : N :=
  default 0 (in_splice_seq s !! id) +₆₄ 1.

(** Assigning the next sequence number to a row and pushing it. *)
Definition push_splice (id : SessionId) (row : N → InboxSplice) (s : Inner) : Inner :=
  let seq := next_splice_seq s id in
  s <| in_splice_seq := <[id := seq]> (in_splice_seq s) |>
    <| in_splices := entry_push (in_splices s) id (row seq) |>.

(** ** Creation *)

Definition create_session (id : SessionId) (partition : PartitionId) (snapshot : SnapshotBlob)
    : Store unit :=
  insert_fresh id partition snapshot Ready.

Definition create_idle (id : SessionId) (partition : PartitionId) (snapshot : SnapshotBlob)
    : Store unit :=
  _ ← insert_fresh id partition snapshot Idle;
  modify (λ s, s <| in_execution_policy := <[id := InteractiveRoot]> (in_execution_policy s) |>).

(** The edge a runnable child is created with. *)
Definition bind_edge (id : SessionId) (edge : option RunnableEdge) (s : Inner) : Inner :=
  match edge with
  | Some (Delegation job) =>
      s <| in_child_index := add_child (jc_session_id job) id (in_child_index s) |>
        <| in_delegations := <[id := job]> (in_delegations s) |>
  | Some (CompletionNoticeEdge parent call_id) =>
      s <| in_child_index := add_child parent id (in_child_index s) |>
        <| in_completion_notices := or_insert (in_completion_notices s) id (parent, call_id) |>
  | Some (ChildEdge parent work_label) =>
      s <| in_child_index := add_child parent id (in_child_index s) |>
        <| in_background_edges := <[id := work_label]> (in_background_edges s) |>
  | None => s
  end.

Definition first_input_row (id : SessionId) (now : N) (input : bytes) (seq : N) : InboxSplice :=
  mkInboxSplice id seq StartTurn input "first-input" "factory" now Pending.

(** [create_runnable]: row, policy, meta, edge and first input in one step. *)
Definition create_runnable (spec : RunnableSession) (now : N) : Store bool :=
  s ← get;
  match in_sessions s !! rs_id spec with
  | Some _ => mret false
  | None =>
      _ ← take_fault MidRunnableConstruction;
      _ ← insert_fresh (rs_id spec) (rs_partition spec) (rs_snapshot spec) Ready;
      _ ← modify (λ s, s <| in_execution_policy := <[rs_id spec := rs_policy spec]> (in_execution_policy s) |>);
      _ ← (match rs_meta spec with
           | Some meta => modify (λ s, s <| in_session_meta := <[rs_id spec := meta]> (in_session_meta s) |>)
           | None => mret tt
           end);
      _ ← modify (bind_edge (rs_id spec) (rs_edge spec));
      _ ← (match rs_first_input spec with
           | Some input => modify (push_splice (rs_id spec) (first_input_row (rs_id spec) now input))
           | None => mret tt
           end);
      mret true
  end.

Definition execution_policy (s : Inner) (id : SessionId) : option ExecutionPolicy :=
  in_execution_policy s !! id.

(** [Completed -> Ready]. *)
Definition reopen_if_settled (id : SessionId) : Store bool :=
  rec ← find_session id;
  match sr_status rec with
  | Completed => _ ← write_session id (rec <| sr_status := Ready |>); mret true
  | _ => mret false
  end.

(** [Idle -> Ready]. *)
Definition mark_ready_if_idle (id : SessionId) : Store bool :=
  rec ← find_session id;
  match sr_status rec with
  | Idle => _ ← write_session id (rec <| sr_status := Ready |>); mret true
  | _ => mret false
  end.

(** ** The durable inbox *)

Definition new_row (n : NewSplice) (now seq : N) : InboxSplice :=
  mkInboxSplice (ns_session_id n) seq (ns_kind n) (ns_payload n) (ns_origin_op n)
    (ns_origin n) now Pending.

(** [append_splice]: append-or-return-existing on [(session, origin_op)], and
    the [Idle -> Ready] flip. *)
Definition append_splice (n : NewSplice) (now : N) : Store N :=
  rec ← find_session (ns_session_id n);
  s ← get;
  match List.find (λ r, bool_decide (is_origin_op r = ns_origin_op n))
          (entry_vec (in_splices s) (ns_session_id n)) with
  | Some existing => mret (is_splice_seq existing)
  | None =>
      let seq := next_splice_seq s (ns_session_id n) in
      _ ← modify (push_splice (ns_session_id n) (new_row n now));
      _ ← (match sr_status rec with
           | Idle => write_session (ns_session_id n) (rec <| sr_status := Ready |>)
           | _ => mret tt
           end);
      mret seq
  end.

Definition splices_after (s : Inner) (id : SessionId) (after_seq : N) : list InboxSplice :=
  filter (λ r, after_seq < is_splice_seq r ∧ is_consumed (is_claim r) = false)
    (entry_vec (in_splices s) id).

Definition claim_inbox (id : SessionId) (fence : FenceToken) : Store (list InboxSplice) := λ s,
  let '(claimed, s') := claim_splices_locked id fence s in (Ok claimed, s').

Definition claim_splices (id : SessionId) (fence : FenceToken) : Store (list InboxSplice) :=
  rec ← find_session id;
  _ ← check_fence rec fence;
  claim_inbox id fence.

(** The rows [prune_consumed_splices] keeps. *)
Definition retained (cutoff_ms : N) (r : InboxSplice) : bool :=
  negb (is_consumed (is_claim r) && (is_received_at_ms r <? cutoff_ms)).

Definition prune_consumed_splices (cutoff_ms : N) (s : Inner) : N * Inner :=
  let keep := List.filter (retained cutoff_ms) in
  (map_fold (λ _ rows pruned, pruned +₆₄ N.of_nat (length rows - length (keep rows))) 0 (in_splices s),
   s <| in_splices := keep <$> in_splices s |>).

(** ** Leases, loads and commits *)

(** [acquire_activation_lease]: the next fencing token, and [Active]. *)
Definition acquire_activation_lease (id : SessionId) : Store FenceToken :=
  rec ← find_session id;
  let fence := FenceToken_next (sr_fence rec) in
  _ ← write_session id (rec <| sr_fence := fence |> <| sr_status := Active |>);
  mret fence.

(** [load_for_activation]: reads the row, its completions and policy, and claims
    the inbox, in one step.  The token is not checked here. *)
Definition load_for_activation (id : SessionId) (fence : FenceToken) : Store Activation :=
  rec ← find_session id;
  s ← get;
  claimed ← claim_inbox id fence;
  mret (mkActivation (sr_snapshot rec) (entry_vec (in_unapplied s) id) fence claimed
          (in_execution_policy s !! id) (sr_turn_seq rec)).

(** [if enqueued_jobs.insert(job_id) { job_outbox.push_back(job) }]. *)
Definition enqueue_job (job : JobCommand) (s : Inner) : Inner :=
  if decide (jc_job_id job ∈ in_enqueued_jobs s) then s
  else s <| in_enqueued_jobs := {[jc_job_id job]} ∪ in_enqueued_jobs s |>
         <| in_job_outbox := in_job_outbox s ++ [job] |>.

(** [checkpoint_and_enqueue]: the suspension commit. *)
Definition checkpoint_and_enqueue (cp : Checkpoint) (job : JobCommand) (fence : FenceToken)
    : Store unit :=
  rec ← find_session (cp_session_id cp);
  _ ← check_fence rec fence;
  _ ← take_fault BeforeSnapshot;
  _ ← write_session (cp_session_id cp)
        (rec <| sr_snapshot := cp_snapshot cp |> <| sr_epoch := cp_epoch cp |>
             <| sr_status := Suspended (jc_job_id job) |>);
  _ ← modify (enqueue_job job);
  _ ← consume_checkpoint cp (sr_turn_seq rec);
  _ ← take_fault AfterSnapshot;
  take_fault AfterJobOutbox.

(** The payload a terminal child reports: its structured result, or the legacy
    [child:{id}] marker. *)
Definition terminal_payload (cp : Checkpoint) : bytes :=
  default (string_bytes ("child:" +:+ cp_session_id cp)) (cp_completion_payload cp).

(** The delegation half of [mark_completed]: fulfil the parent's job and wake it. *)
Definition fulfil_delegation (cp : Checkpoint) : Store unit :=
  s ← get;
  match in_delegations s !! cp_session_id cp with
  | Some job =>
      match in_sessions s !! jc_session_id job with
      | Some _ =>
          apply_and_wake (mkJobCompletion (jc_session_id job) (jc_epoch job) (jc_job_id job)
                            (terminal_payload cp))
      | None => mret tt
      end
  | None => mret tt
  end.

(** The notice half of [mark_completed]: at most one notice per child. *)
Definition fire_notice (cp : Checkpoint) (s : Inner) : Inner :=
  match in_completion_notices s !! cp_session_id cp with
  | Some (parent, call_id) =>
      if decide (cp_session_id cp ∈ in_notices_fired s) then s
      else s <| in_notices_fired := {[cp_session_id cp]} ∪ in_notices_fired s |>
             <| in_notice_outbox := in_notice_outbox s ++
                  [mkCompletionNotice parent (cp_session_id cp) call_id (terminal_payload cp)] |>
  | None => s
  end.

(** [session_meta.entry(id).or_default().terminal_ms = Some(now)]. *)
Definition stamp_terminal (id : SessionId) (now : N) (s : Inner) : Inner :=
  s <| in_session_meta :=
         <[id := (default SessionMeta_default (in_session_meta s !! id)) <| sm_terminal_ms := Some now |>]>
           (in_session_meta s) |>.

(** [mark_completed]: the terminal commit. *)
Definition mark_completed (cp : Checkpoint) (fence : FenceToken) (now : N) : Store unit :=
  rec ← find_session (cp_session_id cp);
  _ ← check_fence rec fence;
  let committed_turn := sr_turn_seq rec in
  _ ← write_session (cp_session_id cp)
        (rec <| sr_snapshot := cp_snapshot cp |> <| sr_epoch := cp_epoch cp |>
             <| sr_status := Completed |> <| sr_turn_seq := committed_turn +₆₄ 1 |>);
  _ ← consume_checkpoint cp committed_turn;
  _ ← modify (stamp_terminal (cp_session_id cp) now);
  _ ← fulfil_delegation cp;
  modify (fire_notice cp).

(** [rows.retain(|c| !applied.any(..))]: drop exactly the folded completions. *)
Definition is_applied (keys : list (Epoch * JobId)) (c : JobCompletion) : bool :=
  existsb (λ k, (jp_epoch c =? k.1) && bool_decide (jp_job_id c = k.2)) keys.

Definition drop_applied (id : SessionId) (keys : list (Epoch * JobId)) (s : Inner) : Inner :=
  match keys, in_unapplied s !! id with
  | _ :: _, Some rows =>
      s <| in_unapplied :=
             <[id := List.filter (λ c, negb (is_applied keys c)) rows]> (in_unapplied s) |>
  | _, _ => s
  end.

Definition seal_turn (id : SessionId) (seal : option TurnSeal) (s : Inner) : Inner :=
  match seal with
  | Some sl =>
      s <| in_journal_roots :=
             <[(JournalStreamId_session id, ts_segment sl) := mkCommittedRoot (ts_root sl) (ts_signature sl)]>
               (in_journal_roots s) |>
  | None => s
  end.

(** Unconsumed work inside the transaction: a pending or claimed splice, or an
    unapplied completion. *)
Definition unconsumed (r : InboxSplice) : bool := negb (is_consumed (is_claim r)).

Definition has_pending_splices (s : Inner) (id : SessionId) : bool :=
  existsb unconsumed (entry_vec (in_splices s) id).

Definition has_unapplied (s : Inner) (id : SessionId) : bool :=
  match entry_vec (in_unapplied s) id with [] => false | _ => true end.

Definition seal_mismatch (seal : option TurnSeal) (turn_seq : N) : option N :=
  match seal with
  | Some sl => if ts_segment sl =? turn_seq then None else Some (ts_segment sl)
  | None => None
  end.

Definition check_seal (seal : option TurnSeal) (turn_seq : N) : Store unit :=
  match seal_mismatch seal turn_seq with
  | Some segment =>
      throw (CommonErr (DE_Other ("commit_turn: seal segment " +:+ pretty segment +:+
               " != in-flight turn " +:+ pretty turn_seq +:+ " (incarnation bug)")))
  | None => mret tt
  end.

(** [commit_turn]: the non-terminal turn boundary. *)
Definition commit_turn (cp : Checkpoint) (seal : option TurnSeal) (fence : FenceToken)
    : Store TurnCommit :=
  let id := cp_session_id cp in
  rec ← find_session id;
  _ ← check_fence rec fence;
  _ ← check_seal seal (sr_turn_seq rec);
  _ ← take_fault BeforeSnapshot;
  let committed_turn := sr_turn_seq rec in
  let rec1 := rec <| sr_snapshot := cp_snapshot cp |> <| sr_epoch := cp_epoch cp |>
                  <| sr_turn_seq := committed_turn +₆₄ 1 |> in
  _ ← write_session id rec1;
  _ ← consume_checkpoint cp committed_turn;
  _ ← modify (drop_applied id (cp_applied_completions cp));
  _ ← modify (seal_turn id seal);
  s ← get;
  let status := if has_pending_splices s id || has_unapplied s id then Ready else Idle in
  _ ← write_session id (rec1 <| sr_status := status |>);
  _ ← (match status with Ready => modify (enqueue_wake id) | _ => mret tt end);
  mret (mkTurnCommit committed_turn status).

(** [record_completion_and_wake]. *)
Definition record_completion_and_wake (c : JobCompletion) : Store unit :=
  _ ← find_session (jp_session_id c);
  fresh ← apply_completion c;
  if fresh : bool then
    _ ← take_fault BeforeWakePublish;
    modify (enqueue_wake (jp_session_id c))
  else mret tt.

(** ** Delegation edges and detached children *)

(** [bind_delegation] pushes the child-index row unconditionally. *)
Definition bind_delegation (child : SessionId) (job : JobCommand) : Store unit :=
  modify (λ s, s <| in_child_index := entry_push (in_child_index s) (jc_session_id job) child |>
                 <| in_delegations := <[child := job]> (in_delegations s) |>).

(** [{parent}/d{n}]. *)
Definition detached_child_id (parent : SessionId) (n : N) : SessionId :=
  parent +:+ "/d" +:+ pretty n.

Definition enqueue_detached_job (job : JobCommand) : Store SessionId :=
  s ← get;
  let parent := jc_session_id job in
  let seq := default 0 (in_detached_seq s !! parent) +₆₄ 1 in
  let child := detached_child_id parent seq in
  _ ← modify (λ s, s <| in_detached_seq := <[parent := seq]> (in_detached_seq s) |>
                     <| in_job_outbox := in_job_outbox s ++ [job <| jc_child := Some child |>] |>);
  mret child.

Definition bind_completion_notice (child parent : SessionId) (call_id : option string) : Store unit :=
  modify (λ s, s <| in_child_index := add_child parent child (in_child_index s) |>
                 <| in_completion_notices := or_insert (in_completion_notices s) child (parent, call_id) |>).

Definition dequeue_completion_notice (s : Inner) : option CompletionNotice * Inner :=
  match in_notice_outbox s with
  | n :: q => (Some n, s <| in_notice_outbox := q |>)
  | [] => (None, s)
  end.

(** [record_child_edge] pushes the child-index row unconditionally. *)
Definition record_child_edge (parent child : SessionId) (work_label : string) : Store unit :=
  modify (λ s, s <| in_child_index := entry_push (in_child_index s) parent child |>
                 <| in_background_edges := <[child := work_label]> (in_background_edges s) |>).

Definition children_of (s : Inner) (parent : SessionId) : list SessionId :=
  entry_vec (in_child_index s) parent.

(** ** Parked approvals *)

(** [for approval in approvals { if !rows.any(same job) { rows.push(approval) } }]. *)
Definition park_rows (rows approvals : list ParkedApproval) : list ParkedApproval :=
  foldl (λ rows a,
    if existsb (λ r, bool_decide (pa_job_id r = pa_job_id a)) rows then rows else rows ++ [a])
    rows approvals.

(** [park_approval]: suspend on the first approval without enqueuing a job. *)
Definition park_approval (cp : Checkpoint) (approvals : list ParkedApproval) (fence : FenceToken)
    : Store unit :=
  let id := cp_session_id cp in
  rec ← find_session id;
  _ ← check_fence rec fence;
  _ ← take_fault BeforeSnapshot;
  let rec1 := rec <| sr_snapshot := cp_snapshot cp |> <| sr_epoch := cp_epoch cp |> in
  _ ← write_session id
        (match head approvals with
         | Some a => rec1 <| sr_status := Suspended (pa_job_id a) |>
         | None => rec1
         end);
  _ ← consume_checkpoint cp (sr_turn_seq rec);
  modify (λ s, s <| in_pending_approvals :=
    <[id := park_rows (entry_vec (in_pending_approvals s) id) approvals]> (in_pending_approvals s) |>).

Definition same_job (job_id : JobId) (r : ParkedApproval) : bool :=
  bool_decide (pa_job_id r = job_id).

(** [answer_approval]: [Ok false] when no row matches, [Ok true] otherwise; an
    answered row is left alone. *)
Definition answer_approval (session : SessionId) (job_id : JobId) (allow allow_permanent : bool)
    (reason : option string) : Store bool :=
  s ← get;
  match List.find (same_job job_id) (entry_vec (in_pending_approvals s) session) with
  | None => mret false
  | Some row =>
      match pa_decision row with
      | Some _ => mret true
      | None =>
          _ ← modify (λ s, s <| in_pending_approvals :=
                <[session := update_first (same_job job_id) (λ r, r <| pa_decision := Some allow |>)
                    (entry_vec (in_pending_approvals s) session)]> (in_pending_approvals s) |>);
          _ ← apply_and_wake (mkJobCompletion session (pa_epoch row) job_id
                (approval_completion_payload allow allow_permanent reason));
          mret true
      end
  end.

Definition unanswered (rows : list ParkedApproval) : list ParkedApproval :=
  filter (λ r, pa_decision r = None) rows.

Definition pending_approvals_of `{HashOrder} (s : Inner) (session : option SessionId)
    : list ParkedApproval :=
  match session with
  | Some id => unanswered (entry_vec (in_pending_approvals s) id)
  | None => mjoin (unanswered <$> (hash_order (in_pending_approvals s)).*2)
  end.

(** ** Reads, usage and the tree projection *)

(** [delegation_work]: the parent job's payload as text, or the background label. *)
Definition delegation_work (s : Inner) (child : SessionId) : option bytes :=
  match in_delegations s !! child with
  | Some job => Some (from_utf8_lossy (jc_payload job))
  | None => string_bytes <$> in_background_edges s !! child
  end.

Definition record_usage (id : SessionId) (delta : UsageDelta) (s : Inner) : Inner :=
  s <| in_usage := <[id := UsageDelta_add (default UsageDelta_default (in_usage s !! id)) delta]> (in_usage s) |>.

Definition usage_of (s : Inner) (id : SessionId) : UsageDelta :=
  default UsageDelta_default (in_usage s !! id).

Definition index_session_text (id : SessionId) (title : option string) (body : string) (s : Inner) : Inner :=
  s <| in_session_text := <[id := (default "" title, body)]> (in_session_text s) |>.

(** [Ready], [Active], or [Suspended] with a recorded completion. *)
Definition resumable (s : Inner) (partition : PartitionId) (r : SessionRecord) : bool :=
  (sr_partition r =? partition) &&
  match sr_status r with
  | Ready | Active => true
  | Suspended _ => has_unapplied s (sr_session_id r)
  | _ => false
  end.

Definition scan_resumable `{HashOrder} (s : Inner) (partition : PartitionId) : list SessionId :=
  sr_session_id <$> filter (λ r, resumable s partition r = true) (hash_order (in_sessions s)).*2.

Definition dequeue_job (s : Inner) : option JobCommand * Inner :=
  match in_job_outbox s with
  | j :: q => (Some j, s <| in_job_outbox := q |>)
  | [] => (None, s)
  end.

Definition dequeue_wake (s : Inner) : option SessionId * Inner :=
  match in_wake_outbox s with
  | w :: q => (Some w, s <| in_wake_outbox := q |>)
  | [] => (None, s)
  end.

Definition status (s : Inner) (id : SessionId) : option SessionStatus :=
  sr_status <$> in_sessions s !! id.

Definition peek_snapshot (s : Inner) (id : SessionId) : option SnapshotBlob :=
  sr_snapshot <$> in_sessions s !! id.

(** [swap_snapshot_if_dormant]: refuse an [Active] session or a changed blob. *)
Definition swap_snapshot_if_dormant (id : SessionId) (expected new : SnapshotBlob) : Store bool :=
  rec ← find_session id;
  if decide (sr_status rec = Active ∨ sr_snapshot rec ≠ expected) then mret false
  else _ ← write_session id (rec <| sr_snapshot := new |>); mret true.

Definition set_session_meta (id : SessionId) (meta : SessionMeta) : Store unit :=
  modify (λ s, s <| in_session_meta := <[id := meta]> (in_session_meta s) |>).

Definition session_meta (s : Inner) (id : SessionId) : option SessionMeta :=
  in_session_meta s !! id.

Definition session_meta_list `{HashOrder} (s : Inner) : list (SessionId * SessionMeta) :=
  hash_order (in_session_meta s).

Definition list_sessions `{HashOrder} (s : Inner) : list (SessionId * SessionStatus) :=
  (λ r, (sr_session_id r, sr_status r)) <$> (hash_order (in_sessions s)).*2.

Definition stats (s : Inner) : StoreStats :=
  mkStoreStats (length (in_job_outbox s)) (length (in_wake_outbox s)) (size (in_sessions s)).

(** ** Subtree ownership *)

(** The bounded walk up the recorded parent chain. *)
Fixpoint lineage_walk (s : Inner) (parent cursor : SessionId) (fuel : nat) : bool :=
  match fuel with
  | O => false
  | S fuel' =>
      match session_meta s cursor with
      | None => false
      | Some meta =>
          match sm_parent meta with
          | Some p => if decide (p = parent) then true else lineage_walk s parent p fuel'
          | None => false
          end
      end
  end.

(** [owns_subtree]: the [{parent}/] prefix proves descent, otherwise walk. *)
Definition owns_subtree (s : Inner) (parent target : SessionId) : bool :=
  starts_with (string_bytes (parent +:+ "/")) (string_bytes target) ||
  lineage_walk s parent target MAX_LINEAGE_WALK.
