(* ===== verification/StoreInv.v ===== *)
(** * Invariants of the durable store

    Predicates over the tables of [Inner] and the proof that every operation
    preserves them.  A predicate mentions only the tables it constrains, so an
    operation on other tables preserves it by computation. *)

From S2P Require Import Prelude Text Common Approval StoreTypes Store.

#[local] Open Scope N_scope.
#[local] Open Scope daemon_scope.

(** ** Stepping through store code *)

Lemma wp_find_session id Q s :
  (∀ r, in_sessions s !! id = Some r → Q (Ok r) s) →
  (in_sessions s !! id = None → Q (Err (NotFound id)) s) →
  wp (find_session id) Q s.
Proof. intros H1 H2. apply wp_bind, wp_get. by apply wp_ok_or. Qed.

Lemma wp_check_fence r f (Q : result StoreError unit → Inner → Prop) s :
  (sr_fence r ≤ f → Q (Ok tt) s) → (f < sr_fence r → Q (Err (Fenced f (sr_fence r))) s) →
  wp (check_fence r f) Q s.
Proof.
  intros H1 H2. unfold check_fence.
  destruct (N.ltb_spec f (sr_fence r)); [by apply wp_throw, H2|by apply wp_ret, H1].
Qed.

Lemma wp_take_fault p Q s :
  (in_fault s ≠ Some p → Q (Ok tt) s) →
  (in_fault s = Some p → Q (Err (Fault p)) (s <| in_fault := None |>)) →
  wp (take_fault p) Q s.
Proof. intros H1 H2. unfold wp, take_fault. case_decide; [by apply H2|by apply H1]. Qed.

Lemma wp_claim_inbox id f Q s :
  Q (Ok (claim_splices_locked id f s).1) (claim_splices_locked id f s).2 →
  wp (claim_inbox id f) Q s.
Proof. unfold wp, claim_inbox. by destruct (claim_splices_locked id f s). Qed.

Lemma wp_apply_completion c Q s :
  Q (Ok (apply_completion_locked c s).1) (apply_completion_locked c s).2 →
  wp (apply_completion c) Q s.
Proof. unfold wp, apply_completion. by destruct (apply_completion_locked c s). Qed.

Ltac store_step :=
  lazymatch goal with
  | |- wp (find_session _) _ _ => apply wp_find_session; [intros ? ?|intros ?]
  | |- wp (check_fence _ _) _ _ => apply wp_check_fence; [intros ?|intros ?]
  | |- wp (take_fault _) _ _ => apply wp_take_fault; [intros ?|intros ?]
  | |- wp (claim_inbox _ _) _ _ => apply wp_claim_inbox
  | |- wp (apply_completion _) _ _ => apply wp_apply_completion
  | |- wp (apply_and_wake _) _ _ => unfold apply_and_wake
  | |- wp (write_session _ _) _ _ => apply wp_modify
  | |- wp (consume_checkpoint _ _) _ _ => unfold consume_checkpoint
  | |- wp (fulfil_delegation _) _ _ => unfold fulfil_delegation
  | |- wp (insert_fresh _ _ _ _) _ _ => unfold insert_fresh
  | |- wp (check_seal _ _) _ _ => unfold check_seal
  | _ => wp_step
  end.
Ltac store_steps := repeat (store_step; cbv beta iota).

(** ** Rows: tables hang off existing sessions, and the status rule

    [rows_ok]: every row is stored under its own id; splices, completions and
    parked approvals belong to existing sessions; an [Idle] session has no
    unconsumed splice and no unapplied completion. *)

Definition work_free (splices : gmap SessionId (list InboxSplice))
    (unapplied : gmap SessionId (list JobCompletion)) (id : SessionId) : Prop :=
  existsb unconsumed (entry_vec splices id) = false ∧ entry_vec unapplied id = [].

Record rows_ok (sessions : gmap SessionId SessionRecord)
    (splices : gmap SessionId (list InboxSplice))
    (unapplied : gmap SessionId (list JobCompletion))
    (approvals : gmap SessionId (list ParkedApproval)) : Prop := {
  rows_keyed : ∀ id r, sessions !! id = Some r → sr_session_id r = id;
  rows_splices : ∀ id, is_Some (splices !! id) → is_Some (sessions !! id);
  rows_unapplied : ∀ id, is_Some (unapplied !! id) → is_Some (sessions !! id);
  rows_approvals : ∀ id, is_Some (approvals !! id) → is_Some (sessions !! id);
  rows_idle : ∀ id r, sessions !! id = Some r → sr_status r = Idle → work_free splices unapplied id
}.

Definition rows_wf (s : Inner) : Prop :=
  rows_ok (in_sessions s) (in_splices s) (in_unapplied s) (in_pending_approvals s).

Lemma rows_absent_work_free s id :
  rows_wf s → in_sessions s !! id = None → work_free (in_splices s) (in_unapplied s) id.
Proof.
  intros H Hid. unfold work_free, entry_vec. split.
  - destruct (in_splices s !! id) eqn:E; [|done].
    destruct (rows_splices _ _ _ _ H id); [eauto|congruence].
  - destruct (in_unapplied s !! id) eqn:E; [|done].
    destruct (rows_unapplied _ _ _ _ H id); [eauto|congruence].
Qed.

Lemma rows_put_session s id r :
  rows_wf s → sr_session_id r = id →
  (sr_status r = Idle → work_free (in_splices s) (in_unapplied s) id) →
  rows_wf (put_session id r s).
Proof.
  intros [] Hid Hidle.
  assert (∀ j, is_Some (in_sessions s !! j) → is_Some (<[id:=r]> (in_sessions s) !! j)).
  { intros j Hj. destruct (decide (id = j)); simplify_map_eq; eauto. }
  constructor; simpl; try by auto.
  - intros j r' [[<- <-]|[? ?]]%lookup_insert_Some; eauto.
  - intros j r' [[<- <-]|[? ?]]%lookup_insert_Some ?; eauto.
Qed.

(** Rewriting a row of an existing session, keeping or leaving [Idle]. *)
Lemma rows_put_session_same s id r r' :
  rows_wf s → in_sessions s !! id = Some r → sr_session_id r' = sr_session_id r →
  sr_status r' = sr_status r ∨ sr_status r' ≠ Idle → rows_wf (put_session id r' s).
Proof.
  intros H Hr Hid Hst. apply rows_put_session; [done|..].
  - rewrite Hid. eapply rows_keyed; eauto.
  - intros Hi. destruct Hst as [Hst|]; [|done]. eapply rows_idle; eauto. congruence.
Qed.

(** Changing the inbox or the completion table so that no session gains work. *)
Lemma rows_shrink s splices unapplied :
  rows_wf s →
  (∀ id, is_Some (splices !! id) → is_Some (in_splices s !! id)) →
  (∀ id, is_Some (unapplied !! id) → is_Some (in_unapplied s !! id)) →
  (∀ id, work_free (in_splices s) (in_unapplied s) id → work_free splices unapplied id) →
  rows_ok (in_sessions s) splices unapplied (in_pending_approvals s).
Proof. intros [] H1 H2 H3. constructor; naive_solver. Qed.

Lemma is_Some_insert_same {K A} `{Countable K} (m : gmap K A) k x y j :
  m !! k = Some x → is_Some (<[k:=y]> m !! j) → is_Some (m !! j).
Proof. intros Hk Hj. destruct (decide (k = j)); simplify_map_eq; eauto. Qed.

Lemma entry_vec_insert {K A} `{Countable K} (m : gmap K (list A)) k x j :
  entry_vec (<[k:=x]> m) j = if decide (k = j) then x else entry_vec m j.
Proof. unfold entry_vec. case_decide; by simplify_map_eq. Qed.

Lemma existsb_fmap_false {A} (p : A → bool) (f : A → A) l :
  (∀ x, p x = false → p (f x) = false) → existsb p l = false → existsb p (f <$> l) = false.
Proof. rewrite !existsb_false_Forall, Forall_fmap. intros Hf Hl.
  eapply Forall_impl; [exact Hl|done].
Qed.

Lemma claim_row_consumed f r : unconsumed r = false → claim_row f r = None.
Proof. unfold unconsumed, claim_row. by destruct (is_claim r). Qed.

Lemma consume_row_consumed up_to turn r :
  unconsumed r = false → unconsumed (consume_row up_to turn r) = false.
Proof.
  unfold consume_row, unconsumed. intros H. destruct (is_claim r) eqn:E; try done.
  simpl. by rewrite andb_false_r, E.
Qed.

(** Rewriting the inbox of one session row by row, never reviving a row. *)
Lemma rows_map_inbox s id rows (f : InboxSplice → InboxSplice) :
  rows_wf s → in_splices s !! id = Some rows →
  (∀ r, unconsumed r = false → unconsumed (f r) = false) →
  rows_wf (s <| in_splices := <[id := f <$> rows]> (in_splices s) |>).
Proof.
  intros H Hrows Hf. unfold rows_wf; simpl. apply rows_shrink; try done.
  - intros j. by eapply is_Some_insert_same.
  - intros j [H1 H2]. split; [|done]. rewrite entry_vec_insert. case_decide; subst; [|done].
    apply existsb_fmap_false; [done|]. unfold entry_vec in H1. by rewrite Hrows in H1.
Qed.

Lemma rows_consume s id up_to turn :
  rows_wf s → rows_wf (consume_splices_locked id up_to turn s).
Proof.
  intros H. unfold consume_splices_locked. destruct (in_splices s !! id) eqn:E; [|done].
  simpl snd. apply rows_map_inbox; [done..|]. intros r. apply consume_row_consumed.
Qed.

Lemma rows_claim s id f : rows_wf s → rows_wf (claim_splices_locked id f s).2.
Proof.
  intros H. unfold claim_splices_locked. destruct (in_splices s !! id) eqn:E; [|done].
  simpl snd. apply rows_map_inbox; [done..|]. intros r Hr. by rewrite claim_row_consumed.
Qed.

Lemma rows_prune s cutoff : rows_wf s → rows_wf (prune_consumed_splices cutoff s).2.
Proof.
  intros H. unfold rows_wf; simpl. apply rows_shrink; try done.
  - intros j. rewrite lookup_fmap. by destruct (in_splices s !! j).
  - intros j [H1 H2]. split; [|done]. unfold entry_vec in *. rewrite lookup_fmap.
    destruct (in_splices s !! j) as [rows|]; simpl in *; [|done].
    rewrite existsb_false_Forall in *. rewrite Forall_forall in *.
    intros r Hr%list_elem_of_In%filter_In. apply H1. by apply list_elem_of_In, Hr.
Qed.

Lemma rows_drop_applied s id keys : rows_wf s → rows_wf (drop_applied id keys s).
Proof.
  intros H. unfold drop_applied. destruct keys as [|k keys]; [done|].
  destruct (in_unapplied s !! id) as [rows|] eqn:E; [|done].
  unfold rows_wf; simpl. apply rows_shrink; try done.
  - intros j. by eapply is_Some_insert_same.
  - intros j [H1 H2]. split; [done|]. rewrite entry_vec_insert. case_decide; subst; [|done].
    unfold entry_vec in H2. rewrite E in H2. simpl in H2. by subst rows.
Qed.

Lemma rows_seal_turn s id seal : rows_wf s → rows_wf (seal_turn id seal s).
Proof. by destruct seal. Qed.
Lemma rows_enqueue_wake s id : rows_wf s → rows_wf (enqueue_wake id s).
Proof. done. Qed.
Lemma rows_enqueue_job s job : rows_wf s → rows_wf (enqueue_job job s).
Proof. unfold enqueue_job. by case_decide. Qed.
Lemma rows_stamp_terminal s id now : rows_wf s → rows_wf (stamp_terminal id now s).
Proof. done. Qed.
Lemma rows_fire_notice s cp : rows_wf s → rows_wf (fire_notice cp s).
Proof.
  unfold fire_notice. destruct (in_completion_notices s !! _) as [[? ?]|]; [|done].
  by case_decide.
Qed.
Lemma rows_bind_edge s id e : rows_wf s → rows_wf (bind_edge id e s).
Proof. by destruct e as [[]|]. Qed.

Lemma rows_apply_completion s c :
  rows_wf s → is_Some (in_sessions s !! jp_session_id c) →
  rows_wf (apply_completion_locked c s).2.
Proof.
  intros H [r Hr]. unfold apply_completion_locked. case_decide; [done|]. simpl. rewrite Hr. simpl.
  set (id := jp_session_id c) in *.
  assert (sr_session_id r = id) by by eapply (rows_keyed _ _ _ _ H).
  destruct H. constructor; simpl.
  - intros j r' [[<- <-]|[? ?]]%lookup_insert_Some; eauto.
  - intros j Hj. destruct (decide (id = j)); simplify_map_eq; eauto.
  - intros j Hj. destruct (decide (id = j)); subst; simplify_map_eq; [eauto|].
    apply rows_unapplied0. unfold entry_push in Hj. by rewrite lookup_insert_ne in Hj.
  - intros j Hj. destruct (decide (id = j)); simplify_map_eq; eauto.
  - intros j r' [[<- <-]|[? ?]]%lookup_insert_Some Hi; [by simpl in Hi|].
    unfold work_free, entry_push. rewrite entry_vec_insert, decide_False by done.
    by eapply rows_idle0.
Qed.

Lemma rows_push_splice s id row r :
  rows_wf s → in_sessions s !! id = Some r → sr_status r ≠ Idle →
  rows_wf (push_splice id row s).
Proof.
  intros [] Hr Hst. constructor; simpl; try done.
  - intros j Hj. destruct (decide (id = j)); subst; [eauto|].
    apply rows_splices0. unfold entry_push in Hj. by rewrite lookup_insert_ne in Hj.
  - intros j r' Hj Hi. destruct (decide (id = j)); [by simplify_eq|].
    unfold work_free, entry_push. rewrite entry_vec_insert, decide_False by done.
    by eapply rows_idle0.
Qed.

#[export] Hint Resolve rows_consume rows_claim rows_prune rows_drop_applied rows_seal_turn
  rows_enqueue_wake rows_enqueue_job rows_stamp_terminal rows_fire_notice rows_bind_edge : store.

(** An operation keeps a predicate of the store, whatever it returns. *)
Definition keeps {A} (P : Inner → Prop) (m : Store A) : Prop := ∀ s, P s → wp m (λ _, P) s.

Lemma keeps_run {A} P (m : Store A) s : keeps P m → P s → P (m s).2.
Proof. intros H Hs. exact (H s Hs). Qed.

(** Run the next call of a body with a preservation lemma for it. *)
Lemma keeps_then {A B} P (m : Store A) (f : A → Store B) s :
  keeps P m → P s → (∀ a s', m s = (Ok a, s') → P s' → wp (f a) (λ _, P) s') →
  wp (m ≫= f) (λ _, P) s.
Proof.
  intros Hm Hs Hf. apply wp_bind. specialize (Hm s Hs). unfold wp in *.
  destruct (m s) as [[a|e] s'] eqn:E; simpl in *; [by apply Hf|done].
Qed.

Section rows_ops.
Lemma insert_fresh_rows id part snap st : keeps rows_wf (insert_fresh id part snap st).
Proof.
  intros s H. store_steps; [done|]. apply rows_put_session; [done..|].
  intros _. by apply rows_absent_work_free.
Qed.

Lemma create_session_rows id part snap : keeps rows_wf (create_session id part snap).
Proof. apply insert_fresh_rows. Qed.

Lemma create_idle_rows id part snap : keeps rows_wf (create_idle id part snap).
Proof.
  intros s H. apply wp_bind. eapply wp_mono; [|by apply insert_fresh_rows].
  intros [[]|e] s' H'; [by apply wp_modify|done].
Qed.

Lemma create_runnable_rows spec now : keeps rows_wf (create_runnable spec now).
Proof.
  intros s H. unfold create_runnable. store_steps; try done.
  all: repeat first [ apply rows_bind_edge
                    | apply (rows_push_splice _ _ _ (mkSessionRecord (rs_id spec)
                        (rs_partition spec) Epoch_ZERO Ready (rs_snapshot spec) FenceToken_ZERO 0))
                    | apply rows_put_session ]; try done.
  all: try (destruct (rs_edge spec) as [[]|]; by simplify_map_eq).
Qed.

Lemma reopen_if_settled_rows id : keeps rows_wf (reopen_if_settled id).
Proof.
  intros s H. unfold reopen_if_settled. store_steps; try done.
  eapply rows_put_session_same; eauto.
Qed.

Lemma mark_ready_if_idle_rows id : keeps rows_wf (mark_ready_if_idle id).
Proof.
  intros s H. unfold mark_ready_if_idle. store_steps; try done.
  eapply rows_put_session_same; eauto.
Qed.

(** The push happens before the [Idle -> Ready] flip; the two commute. *)
Lemma append_splice_rows n now : keeps rows_wf (append_splice n now).
Proof.
  intros s H. unfold append_splice. store_steps; try done.
  all: try (eapply rows_push_splice; [done..|]; congruence).
  match goal with Hr : in_sessions s !! _ = Some ?r |- _ =>
    change (rows_wf (push_splice (ns_session_id n) (new_row n now)
      (put_session (ns_session_id n) (r <| sr_status := Ready |>) s))) end.
  eapply rows_push_splice; [|by simplify_map_eq|done].
  eapply rows_put_session_same; eauto.
Qed.

Lemma claim_splices_rows id f : keeps rows_wf (claim_splices id f).
Proof. intros s H. unfold claim_splices. store_steps; eauto with store. Qed.

Lemma acquire_lease_rows id : keeps rows_wf (acquire_activation_lease id).
Proof.
  intros s H. unfold acquire_activation_lease. store_steps; [|done].
  eapply rows_put_session_same; eauto.
Qed.

Lemma load_for_activation_rows id f : keeps rows_wf (load_for_activation id f).
Proof. intros s H. unfold load_for_activation. store_steps; eauto with store. Qed.

Lemma checkpoint_and_enqueue_rows cp job f : keeps rows_wf (checkpoint_and_enqueue cp job f).
Proof.
  intros s H. unfold checkpoint_and_enqueue. store_steps; try done.
  all: try apply rows_consume; apply rows_enqueue_job; eapply rows_put_session_same; eauto.
Qed.

Lemma apply_and_wake_rows c s :
  rows_wf s → is_Some (in_sessions s !! jp_session_id c) →
  wp (apply_and_wake c) (λ _, rows_wf) s.
Proof.
  intros H Hs. unfold apply_and_wake. store_steps; by apply rows_apply_completion.
Qed.

Lemma consume_checkpoint_rows cp turn : keeps rows_wf (consume_checkpoint cp turn).
Proof. intros s H. unfold consume_checkpoint. store_steps; eauto with store. Qed.

Lemma fulfil_delegation_rows cp : keeps rows_wf (fulfil_delegation cp).
Proof.
  intros s H. apply wp_bind, wp_get; cbv beta iota.
  repeat case_match; try by apply wp_ret. apply apply_and_wake_rows; simpl; eauto.
Qed.

Lemma mark_completed_rows cp f now : keeps rows_wf (mark_completed cp f now).
Proof.
  intros s H. apply wp_bind, wp_find_session; [intros r Hr|done].
  apply wp_bind, wp_check_fence; [intros _|done]. apply wp_bind, wp_modify.
  apply keeps_then; [apply consume_checkpoint_rows|by eapply rows_put_session_same; eauto|].
  intros _ s1 _ H1. apply wp_bind, wp_modify.
  apply keeps_then; [apply fulfil_delegation_rows|done|].
  intros _ s2 _ H2. apply wp_modify. eauto with store.
Qed.

Lemma commit_turn_rows cp seal f : keeps rows_wf (commit_turn cp seal f).
Proof.
  intros s H. apply wp_bind, wp_find_session; [intros r Hr|done].
  apply wp_bind, wp_check_fence; [intros _|done]. apply wp_bind.
  unfold check_seal. destruct (seal_mismatch seal (sr_turn_seq r)); [done|]. apply wp_ret.
  apply wp_bind, wp_take_fault; [intros _|done]. apply wp_bind, wp_modify.
  apply keeps_then; [apply consume_checkpoint_rows|by eapply rows_put_session_same; eauto|].
  intros _ s1 _ H1.
  apply wp_bind, wp_modify, wp_bind, wp_modify, wp_bind, wp_get, wp_bind, wp_modify.
  set (s2 := seal_turn _ _ _).
  assert (rows_wf s2) as H2 by (unfold s2; eauto with store). clearbody s2.
  assert (sr_session_id r = cp_session_id cp) by by eapply (rows_keyed _ _ _ _ H).
  destruct (has_pending_splices s2 (cp_session_id cp)) eqn:Hp,
    (has_unapplied s2 (cp_session_id cp)) eqn:Hu; simpl.
  all: store_steps; apply rows_put_session; try done.
  intros _. split; [done|]. unfold has_unapplied in Hu. by destruct (entry_vec _ _).
Qed.

Lemma record_completion_rows c : keeps rows_wf (record_completion_and_wake c).
Proof.
  intros s H. apply wp_bind, wp_find_session; [intros r Hr|done].
  apply wp_bind, wp_apply_completion.
  assert (rows_wf (apply_completion_locked c s).2) by (apply rows_apply_completion; eauto).
  store_steps; done.
Qed.

Lemma rows_put_approvals s id rows :
  rows_wf s → is_Some (in_sessions s !! id) →
  rows_wf (s <| in_pending_approvals := <[id := rows]> (in_pending_approvals s) |>).
Proof.
  intros [] Hid. constructor; simpl; try done.
  intros j [y Hj]. destruct (decide (id = j)); simplify_map_eq; eauto.
Qed.

Lemma park_approval_rows cp approvals f : keeps rows_wf (park_approval cp approvals f).
Proof.
  intros s H. apply wp_bind, wp_find_session; [intros r Hr|done].
  apply wp_bind, wp_check_fence; [intros _|done].
  apply wp_bind, wp_take_fault; [intros _|done]. apply wp_bind, wp_modify.
  set (s1 := put_session _ _ s).
  assert (rows_wf s1 ∧ is_Some (in_sessions s1 !! cp_session_id cp)) as [H1 Hs1].
  { split; [destruct (head approvals); eapply rows_put_session_same; eauto|].
    by simplify_map_eq. }
  clearbody s1. unfold consume_checkpoint. store_steps; apply rows_put_approvals; try done.
  - by apply rows_consume.
  - unfold consume_splices_locked. by destruct (in_splices s1 !! _).
Qed.

Lemma answer_approval_rows id job allow perm reason :
  keeps rows_wf (answer_approval id job allow perm reason).
Proof.
  intros s H. apply wp_bind, wp_get; cbv beta iota.
  destruct (List.find _ _) as [row|] eqn:Hf; [|done].
  destruct (pa_decision row); [done|]. apply wp_bind, wp_modify.
  assert (is_Some (in_sessions s !! id)).
  { apply (rows_approvals _ _ _ _ H). unfold entry_vec in Hf.
    destruct (in_pending_approvals s !! id); [eauto|done]. }
  apply wp_bind. eapply wp_mono; [|apply apply_and_wake_rows; [by apply rows_put_approvals|done]].
  by intros [[]|e] s' Hs'.
Qed.

Lemma swap_snapshot_rows id e n : keeps rows_wf (swap_snapshot_if_dormant id e n).
Proof.
  intros s H. unfold swap_snapshot_if_dormant. store_steps; try done.
  eapply rows_put_session_same; eauto.
Qed.

Lemma bind_delegation_rows child job : keeps rows_wf (bind_delegation child job).
Proof. by intros s H. Qed.
Lemma enqueue_detached_rows job : keeps rows_wf (enqueue_detached_job job).
Proof. by intros s H. Qed.
Lemma bind_completion_notice_rows c p i : keeps rows_wf (bind_completion_notice c p i).
Proof. by intros s H. Qed.
Lemma record_child_edge_rows p c l : keeps rows_wf (record_child_edge p c l).
Proof. by intros s H. Qed.
End rows_ops.

Create HintDb store_rows.
#[export] Hint Resolve create_session_rows create_idle_rows create_runnable_rows
  reopen_if_settled_rows mark_ready_if_idle_rows append_splice_rows claim_splices_rows
  acquire_lease_rows load_for_activation_rows checkpoint_and_enqueue_rows mark_completed_rows
  commit_turn_rows record_completion_rows park_approval_rows answer_approval_rows
  swap_snapshot_rows : store_rows.
