(* ===== verification/Journal.v ===== *)
(** * The verifiable journal of the store ([append_trace] .. [active_journal_seal])

    One append-only log per stream, entries keyed by [(segment, seq)] and paged
    by a store-wide monotonic cursor; sealed segment roots beside it. *)

From S2P Require Import Prelude Text Common Approval StoreTypes Store.

#[local] Open Scope N_scope.
#[local] Open Scope daemon_scope.

(** The fence check of the durable path: the stream names the session. *)
Definition check_stream_fence (stream : JournalStreamId) (fence : option FenceToken) : Store unit :=
  match fence with
  | Some f => rec ← find_session stream; check_fence rec f
  | None => mret tt
  end.

Definition same_slot (segment seq : N) (e : JournalEntry) : bool :=
  (je_segment e =? segment) && (te_seq (je_entry e) =? seq).

(** Pushing an entry under the next cursor. *)
Definition push_entry (stream : JournalStreamId) (segment : N) (entry : TraceEntry) (s : Inner) : Inner :=
  let cursor := in_journal_cursor s +₆₄ 1 in
  s <| in_journal_cursor := cursor |>
    <| in_journal_entries := entry_push (in_journal_entries s) stream (mkJournalEntry cursor segment entry) |>.

(** [append_trace]: fenced, append-only, idempotent per [(segment, seq)]. *)
Definition append_trace (stream : JournalStreamId) (segment : N) (entry : TraceEntry)
    (fence : option FenceToken) : Store unit :=
  _ ← check_stream_fence stream fence;
  s ← get;
  if existsb (same_slot segment (te_seq entry)) (entry_vec (in_journal_entries s) stream)
  then mret tt
  else modify (push_entry stream segment entry).

Definition commit_trace_segment (stream : JournalStreamId) (segment : N) (root : MerkleRoot)
    (signature : bytes) (fence : option FenceToken) : Store unit :=
  _ ← check_stream_fence stream fence;
  modify (λ s, s <| in_journal_roots :=
    <[(stream, segment) := mkCommittedRoot root signature]> (in_journal_roots s) |>).

Definition seq_leb (a b : TraceEntry) : bool := te_seq a <=? te_seq b.
Definition cursor_leb (a b : JournalEntry) : bool := je_cursor a <=? je_cursor b.

Definition load_trace_segment (s : Inner) (stream : JournalStreamId) (segment : N)
    : option TraceSegment :=
  let entries := sort_by seq_leb
    (je_entry <$> filter (λ e, je_segment e = segment) (entry_vec (in_journal_entries s) stream)) in
  let committed := in_journal_roots s !! (stream, segment) in
  match entries, committed with
  | [], None => None
  | _, _ => Some (mkTraceSegment stream segment entries committed)
  end.

(** [sort_unstable] then [dedup]: adjacent duplicates removed. *)
Fixpoint dedup (l : list N) : list N :=
  match l with
  | x :: (y :: _) as t => if x =? y then dedup t else x :: dedup t
  | _ => l
  end.

(** The sealed roots of the segments a page covers. *)
Definition segment_roots (s : Inner) (stream : JournalStreamId) (entries : list JournalEntry)
    : list (N * CommittedRoot) :=
  omap (λ seg, (λ root, (seg, root)) <$> in_journal_roots s !! (stream, seg))
    (dedup (sort_by N.leb (je_segment <$> entries))).

(** [log.iter().map(cursor).max().unwrap_or(0)]. *)
Definition head_cursor (log : list JournalEntry) : N := foldr (λ e m, N.max (je_cursor e) m) 0 log.

(** [entries.truncate(max)] when [max > 0]. *)
Definition truncate {A} (max : N) (l : list A) : list A :=
  if max =? 0 then l else take (N.to_nat max) l.

(** [entries.drain(..len - max)] when [max > 0] and there are more. *)
Definition keep_last {A} (max : N) (l : list A) : list A :=
  if max =? 0 then l else drop (length l - N.to_nat max) l.

Definition load_journal (s : Inner) (stream : JournalStreamId) (after_cursor max : N) : JournalPage :=
  match in_journal_entries s !! stream with
  | None => JournalPage_default
  | Some log =>
      let entries := truncate max
        (sort_by cursor_leb (filter (λ e, after_cursor < je_cursor e) log)) in
      mkJournalPage entries (segment_roots s stream entries)
        (from_option je_cursor after_cursor (last entries)) (head_cursor log)
  end.

Definition load_journal_before (s : Inner) (stream : JournalStreamId) (before_cursor max : N)
    : JournalPage :=
  match in_journal_entries s !! stream with
  | None => JournalPage_default
  | Some log =>
      let entries := keep_last max
        (sort_by cursor_leb (filter (λ e, je_cursor e < before_cursor) log)) in
      mkJournalPage entries (segment_roots s stream entries)
        (from_option je_cursor before_cursor (head entries)) (head_cursor log)
  end.

Definition record_journal_seal (stream : JournalStreamId) (seal : JournalSeal) : Store unit :=
  modify (λ s, s <| in_journal_seals := entry_push (in_journal_seals s) stream seal |>).

Definition active_journal_seal (s : Inner) (stream : JournalStreamId) : option JournalSeal :=
  last (entry_vec (in_journal_seals s) stream).
