(* ===== verification/Registry.v ===== *)
(** * The host tables of the store

    Routing pins, tool and transport preferences, credential labels, the
    feedback outbox, consent toggles, command deduplication, the gateway
    override, agent and provider catalogs, scheduled jobs and saved presences.
    None of them touches the durable session tables. *)

From S2P Require Import Prelude Text Common Approval StoreTypes Store.

#[local] Open Scope N_scope.

(** ** Routing pins and overrides *)

Definition routing_list `{HashOrder} (s : Inner) : list ChatRoute :=
  (hash_order (in_chat_routes s)).*2.

Definition routing_get (s : Inner) (key : string) : option ChatRoute :=
  in_chat_routes s !! key.

Definition routing_set (route : ChatRoute) : Store unit :=
  modify (λ s, s <| in_chat_routes := <[rt_key route := route]> (in_chat_routes s) |>).

Definition routing_remove (key : string) : Store unit :=
  modify (λ s, s <| in_chat_routes := delete key (in_chat_routes s) |>).

Definition tool_overrides `{HashOrder} (s : Inner) : list (string * bool) :=
  hash_order (in_tool_overrides s).

Definition set_tool_override (tool : string) (enabled : bool) : Store unit :=
  modify (λ s, s <| in_tool_overrides := <[tool := enabled]> (in_tool_overrides s) |>).

(** ** Transport preferences: three columns of one row *)

Definition transport_prefs `{HashOrder} (s : Inner) : list TransportPref :=
  (λ '(transport, (enabled, label, settings)), mkTransportPref transport enabled label settings)
    <$> hash_order (in_transport_prefs s).

(** [entry(transport).or_insert((true, None, BTreeMap::new()))], then an edit. *)
Definition edit_pref (transport : string)
    (f : bool * option string * gmap string string → bool * option string * gmap string string)
    : Store unit :=
  modify (λ s, s <| in_transport_prefs :=
    <[transport := f (default (true, None, ∅) (in_transport_prefs s !! transport))]>
      (in_transport_prefs s) |>).

Definition set_transport_enabled (transport : string) (enabled : bool) : Store unit :=
  edit_pref transport (λ '(_, label, settings), (enabled, label, settings)).

Definition set_transport_label (transport : string) (label : option string) : Store unit :=
  edit_pref transport (λ '(enabled, _, settings), (enabled, label, settings)).

Definition set_transport_settings (transport : string) (settings : gmap string string) : Store unit :=
  edit_pref transport (λ '(enabled, label, _), (enabled, label, settings)).

Definition credential_labels `{HashOrder} (s : Inner) : list (string * string) :=
  hash_order (in_credential_labels s).

Definition set_credential_label (profile : string) (label : option string) : Store unit :=
  modify (λ s, s <| in_credential_labels :=
    match label with
    | Some l => <[profile := l]> (in_credential_labels s)
    | None => delete profile (in_credential_labels s)
    end |>).

(** ** Feedback outbox and consent *)

Definition feedback_enqueue (record : FeedbackRecord) : Store unit :=
  modify (λ s,
    if existsb (λ r, bool_decide (fb_id r = fb_id record)) (in_feedback_outbox s) then s
    else s <| in_feedback_outbox := in_feedback_outbox s ++ [record] |>).

(** [created_at_ms] then [id]: [a] sorts no later than [b]. *)
Definition feedback_leb (a b : FeedbackRecord) : bool :=
  match (fb_created_at_ms a ?= fb_created_at_ms b)%Z with
  | Lt => true
  | Eq => negb (string_ltb (fb_id b) (fb_id a))
  | Gt => false
  end.

(** [if limit != 0 { pending.truncate(limit) }]. *)
Definition feedback_pending (s : Inner) (limit : nat) : list FeedbackRecord :=
  let pending := sort_by feedback_leb (filter (λ r, fb_delivered r = false) (in_feedback_outbox s)) in
  if decide (limit = 0%nat) then pending else take limit pending.

Definition feedback_mark_delivered (id : string) : Store unit :=
  modify (λ s, s <| in_feedback_outbox :=
    update_first (λ r, bool_decide (fb_id r = id)) (λ r, r <| fb_delivered := true |>)
      (in_feedback_outbox s) |>).

Definition telemetry_consent_get (s : Inner) : bool := in_telemetry_consent s.
Definition telemetry_consent_set (enabled : bool) : Store unit :=
  modify (λ s, s <| in_telemetry_consent := enabled |>).
Definition crash_consent_get (s : Inner) : bool := in_crash_consent s.
Definition crash_consent_set (enabled : bool) : Store unit :=
  modify (λ s, s <| in_crash_consent := enabled |>).

(** ** Command deduplication *)

(** [command_dedup_get]: an expired row is evicted on access. *)
Definition command_dedup_get (principal op_id : string) (now_ms : N) (s : Inner)
    : option bytes * Inner :=
  match in_command_dedup s !! (principal, op_id) with
  | Some (result, at_ms) =>
      if now_ms - at_ms <? COMMAND_DEDUP_TTL_MS then (Some result, s)
      else (None, s <| in_command_dedup := delete (principal, op_id) (in_command_dedup s) |>)
  | None => (None, s)
  end.

(** First writer wins. *)
Definition command_dedup_put (principal op_id : string) (result : bytes) (at_ms : N) : Store unit :=
  modify (λ s, s <| in_command_dedup :=
    or_insert (in_command_dedup s) (principal, op_id) (result, at_ms) |>).

(** ** Gateway, catalogs *)

Definition gateway_override (s : Inner) : option (bool * option string) := in_gateway_override s.
Definition set_gateway_override (enabled : bool) (addr : option string) : Store unit :=
  modify (λ s, s <| in_gateway_override := Some (enabled, addr) |>).

Definition acp_list `{HashOrder} (s : Inner) : list AcpEntry := (hash_order (in_acp_catalog s)).*2.
Definition acp_set (entry : AcpEntry) : Store unit :=
  modify (λ s, s <| in_acp_catalog := <[acp_name entry := entry]> (in_acp_catalog s) |>).
Definition acp_remove (name : string) : Store unit :=
  modify (λ s, s <| in_acp_catalog := delete name (in_acp_catalog s) |>).

Definition custom_provider_list `{HashOrder} (s : Inner) : list CustomProviderRecord :=
  (hash_order (in_custom_providers s)).*2.
Definition custom_provider_set (entry : CustomProviderRecord) : Store unit :=
  modify (λ s, s <| in_custom_providers := <[cpr_id entry := entry]> (in_custom_providers s) |>).
Definition custom_provider_remove (id : string) : Store unit :=
  modify (λ s, s <| in_custom_providers := delete id (in_custom_providers s) |>).

(** ** Scheduled jobs *)

Definition cron_list `{HashOrder} (s : Inner) : list StoredCronJob := (hash_order (in_cron_jobs s)).*2.
Definition cron_get (s : Inner) (id : string) : option StoredCronJob := in_cron_jobs s !! id.
Definition cron_set (job : StoredCronJob) : Store unit :=
  modify (λ s, s <| in_cron_jobs := <[cj_id job := job]> (in_cron_jobs s) |>).
Definition cron_remove (id : string) : Store unit :=
  modify (λ s, s <| in_cron_jobs := delete id (in_cron_jobs s) |>
                 <| in_cron_runs := delete id (in_cron_runs s) |>).

(** [!paused && next_fire_unix.is_some_and(|t| t <= now)]. *)
Definition is_due (now_unix : N) (j : StoredCronJob) : bool :=
  negb (cj_paused j) &&
  match cj_next_fire_unix j with Some t => t <=? now_unix | None => false end.

(** [Option<u64>] orders [None] first. *)
Definition option_compare (a b : option N) : comparison :=
  match a, b with
  | None, None => Eq
  | None, Some _ => Lt
  | Some _, None => Gt
  | Some x, Some y => (x ?= y)
  end.

Definition due_leb (a b : StoredCronJob) : bool :=
  match option_compare (cj_next_fire_unix a) (cj_next_fire_unix b) with
  | Lt => true
  | Eq => negb (string_ltb (cj_id b) (cj_id a))
  | Gt => false
  end.

Definition cron_due `{HashOrder} (s : Inner) (now_unix : N) : list StoredCronJob :=
  sort_by due_leb (filter (λ j, is_due now_unix j = true) (hash_order (in_cron_jobs s)).*2).

Definition cron_runs_list (s : Inner) (id : string) (max : nat) : list StoredCronRun :=
  take max (reverse (entry_vec (in_cron_runs s) id)).

(** [runs.drain(0..len - CRON_RUN_RETENTION)] when over the bound. *)
Definition cron_run_append (run : StoredCronRun) : Store unit :=
  modify (λ s,
    let runs := entry_vec (in_cron_runs s) (cu_job_id run) ++ [run] in
    s <| in_cron_runs :=
      <[cu_job_id run := drop (length runs - CRON_RUN_RETENTION) runs]> (in_cron_runs s) |>).

Definition cron_suggestions_list `{HashOrder} (s : Inner) : list StoredCronSuggestion :=
  (hash_order (in_cron_suggestions s)).*2.
Definition cron_suggestion_get (s : Inner) (id : string) : option StoredCronSuggestion :=
  in_cron_suggestions s !! id.
Definition cron_suggestion_set (suggestion : StoredCronSuggestion) : Store unit :=
  modify (λ s, s <| in_cron_suggestions := <[cs_id suggestion := suggestion]> (in_cron_suggestions s) |>).
Definition cron_suggestion_remove (id : string) : Store unit :=
  modify (λ s, s <| in_cron_suggestions := delete id (in_cron_suggestions s) |>).

(** ** Saved presences, in insertion order *)

Definition saved_presence_list (s : Inner) : list StoredSavedPresence := in_saved_presences s.

Definition saved_presence_set (presence : StoredSavedPresence) : Store unit :=
  modify (λ s, s <| in_saved_presences :=
    if existsb (λ p, bool_decide (sp_id p = sp_id presence)) (in_saved_presences s)
    then update_first (λ p, bool_decide (sp_id p = sp_id presence)) (λ _, presence) (in_saved_presences s)
    else in_saved_presences s ++ [presence] |>).

Definition saved_presence_remove (id : string) : Store unit :=
  modify (λ s, s <| in_saved_presences := filter (λ p, sp_id p ≠ id) (in_saved_presences s) |>).

Definition saved_presence_active_get (s : Inner) : option string := in_saved_presence_active s.
Definition saved_presence_active_set (id : string) : Store unit :=
  modify (λ s, s <| in_saved_presence_active := Some id |>).
