(* ===== verification/StoreSteps.v ===== *)
(** * Executions of the store

    [StoreOp] enumerates the state-changing operations of the store's
    interface, [run_op] runs one, [runs] is a finite sequence of them.  Every
    operation decomposes into the elementary writes of [mstep], which is how
    properties of whole executions are proved: once per elementary write. *)

From S2P Require Import Prelude Text Common Approval StoreTypes Store StoreInv Journal Registry.

#[local] Open Scope N_scope.
#[local] Open Scope daemon_scope.

Inductive StoreOp :=
| OpSetFault (fault : option FaultPoint)
| OpCreateSession (id : SessionId) (partition : PartitionId) (snapshot : SnapshotBlob)
| OpCreateIdle (id : SessionId) (partition : PartitionId) (snapshot : SnapshotBlob)
| OpCreateRunnable (spec : RunnableSession) (now : N)
| OpReopenIfSettled (id : SessionId)
| OpMarkReadyIfIdle (id : SessionId)
| OpAppendSplice (n : NewSplice) (now : N)
| OpClaimSplices (id : SessionId) (fence : FenceToken)
| OpPruneConsumed (cutoff_ms : N)
| OpAcquireLease (id : SessionId)
| OpLoad (id : SessionId) (fence : FenceToken)
| OpCheckpoint (cp : Checkpoint) (job : JobCommand) (fence : FenceToken)
| OpMarkCompleted (cp : Checkpoint) (fence : FenceToken) (now : N)
| OpCommitTurn (cp : Checkpoint) (seal : option TurnSeal) (fence : FenceToken)
| OpRecordCompletion (c : JobCompletion)
| OpBindDelegation (child : SessionId) (job : JobCommand)
| OpEnqueueDetached (job : JobCommand)
| OpBindNotice (child parent : SessionId) (call_id : option string)
| OpDequeueNotice
| OpRecordChildEdge (parent child : SessionId) (label : string)
| OpEnqueueWake (id : SessionId)
| OpParkApproval (cp : Checkpoint) (approvals : list ParkedApproval) (fence : FenceToken)
| OpAnswerApproval (session : SessionId) (job : JobId) (allow permanent : bool) (reason : option string)
| OpRecordUsage (id : SessionId) (delta : UsageDelta)
| OpIndexText (id : SessionId) (title : option string) (body : string)
| OpDequeueJob
| OpDequeueWake
| OpSwapSnapshot (id : SessionId) (expected new : SnapshotBlob)
| OpSetMeta (id : SessionId) (meta : SessionMeta)
| OpAppendTrace (stream : JournalStreamId) (segment : N) (entry : TraceEntry) (fence : option FenceToken)
| OpCommitSegment (stream : JournalStreamId) (segment : N) (root : MerkleRoot) (signature : bytes)
    (fence : option FenceToken)
| OpJournalSeal (stream : JournalStreamId) (seal : JournalSeal)
| OpRoutingSet (route : ChatRoute)
| OpRoutingRemove (key : string)
| OpToolOverride (tool : string) (enabled : bool)
| OpTransportEnabled (transport : string) (enabled : bool)
| OpTransportLabel (transport : string) (label : option string)
| OpTransportSettings (transport : string) (settings : gmap string string)
| OpCredentialLabel (profile : string) (label : option string)
| OpFeedbackEnqueue (record : FeedbackRecord)
| OpFeedbackDelivered (id : string)
| OpTelemetryConsent (enabled : bool)
| OpCrashConsent (enabled : bool)
| OpDedupGet (principal op_id : string) (now : N)
| OpDedupPut (principal op_id : string) (result : bytes) (at_ms : N)
| OpGatewayOverride (enabled : bool) (addr : option string)
| OpAcpSet (entry : AcpEntry)
| OpAcpRemove (name : string)
| OpCustomProviderSet (entry : CustomProviderRecord)
| OpCustomProviderRemove (id : string)
| OpCronSet (job : StoredCronJob)
| OpCronRemove (id : string)
| OpCronRunAppend (run : StoredCronRun)
| OpSuggestionSet (suggestion : StoredCronSuggestion)
| OpSuggestionRemove (id : string)
| OpPresenceSet (presence : StoredSavedPresence)
| OpPresenceRemove (id : string)
| OpPresenceActive (id : string).

(** The state an operation leaves behind, whatever it returned. *)
Definition run_op (op : StoreOp) (s : Inner) : Inner :=
  match op with
  | OpSetFault f => set_fault f s
  | OpCreateSession id p b => (create_session id p b s).2
  | OpCreateIdle id p b => (create_idle id p b s).2
  | OpCreateRunnable spec now => (create_runnable spec now s).2
  | OpReopenIfSettled id => (reopen_if_settled id s).2
  | OpMarkReadyIfIdle id => (mark_ready_if_idle id s).2
  | OpAppendSplice n now => (append_splice n now s).2
  | OpClaimSplices id f => (claim_splices id f s).2
  | OpPruneConsumed c => (prune_consumed_splices c s).2
  | OpAcquireLease id => (acquire_activation_lease id s).2
  | OpLoad id f => (load_for_activation id f s).2
  | OpCheckpoint cp job f => (checkpoint_and_enqueue cp job f s).2
  | OpMarkCompleted cp f now => (mark_completed cp f now s).2
  | OpCommitTurn cp seal f => (commit_turn cp seal f s).2
  | OpRecordCompletion c => (record_completion_and_wake c s).2
  | OpBindDelegation child job => (bind_delegation child job s).2
  | OpEnqueueDetached job => (enqueue_detached_job job s).2
  | OpBindNotice c p i => (bind_completion_notice c p i s).2
  | OpDequeueNotice => (dequeue_completion_notice s).2
  | OpRecordChildEdge p c l => (record_child_edge p c l s).2
  | OpEnqueueWake id => enqueue_wake id s
  | OpParkApproval cp a f => (park_approval cp a f s).2
  | OpAnswerApproval id j a p r => (answer_approval id j a p r s).2
  | OpRecordUsage id d => record_usage id d s
  | OpIndexText id t b => index_session_text id t b s
  | OpDequeueJob => (dequeue_job s).2
  | OpDequeueWake => (dequeue_wake s).2
  | OpSwapSnapshot id e n => (swap_snapshot_if_dormant id e n s).2
  | OpSetMeta id m => (set_session_meta id m s).2
  | OpAppendTrace st seg e f => (append_trace st seg e f s).2
  | OpCommitSegment st seg r sig f => (commit_trace_segment st seg r sig f s).2
  | OpJournalSeal st seal => (record_journal_seal st seal s).2
  | OpRoutingSet r => (routing_set r s).2
  | OpRoutingRemove k => (routing_remove k s).2
  | OpToolOverride t e => (set_tool_override t e s).2
  | OpTransportEnabled t e => (set_transport_enabled t e s).2
  | OpTransportLabel t l => (set_transport_label t l s).2
  | OpTransportSettings t m => (set_transport_settings t m s).2
  | OpCredentialLabel p l => (set_credential_label p l s).2
  | OpFeedbackEnqueue r => (feedback_enqueue r s).2
  | OpFeedbackDelivered id => (feedback_mark_delivered id s).2
  | OpTelemetryConsent e => (telemetry_consent_set e s).2
  | OpCrashConsent e => (crash_consent_set e s).2
  | OpDedupGet p o now => (command_dedup_get p o now s).2
  | OpDedupPut p o r a => (command_dedup_put p o r a s).2
  | OpGatewayOverride e a => (set_gateway_override e a s).2
  | OpAcpSet e => (acp_set e s).2
  | OpAcpRemove n => (acp_remove n s).2
  | OpCustomProviderSet e => (custom_provider_set e s).2
  | OpCustomProviderRemove id => (custom_provider_remove id s).2
  | OpCronSet j => (cron_set j s).2
  | OpCronRemove id => (cron_remove id s).2
  | OpCronRunAppend r => (cron_run_append r s).2
  | OpSuggestionSet x => (cron_suggestion_set x s).2
  | OpSuggestionRemove id => (cron_suggestion_remove id s).2
  | OpPresenceSet p => (saved_presence_set p s).2
  | OpPresenceRemove id => (saved_presence_remove id s).2
  | OpPresenceActive id => (saved_presence_active_set id s).2
  end.

(** A sequence of operations, first to last. *)
Definition run_ops (ops : list StoreOp) (s : Inner) : Inner := foldl (λ s op, run_op op s) s ops.

(** The states a fresh store reaches in [n] operations. *)
Inductive reachable : nat → Inner → Prop :=
| reachable_new : reachable 0 InMemoryStore_new
| reachable_step n s op : reachable n s → reachable (S n) (run_op op s).

Lemma append_trace_rows stream seg e f : keeps rows_wf (append_trace stream seg e f).
Proof. intros s H. unfold append_trace, check_stream_fence. store_steps; done. Qed.
Lemma commit_segment_rows stream seg r sig f : keeps rows_wf (commit_trace_segment stream seg r sig f).
Proof. intros s H. unfold commit_trace_segment, check_stream_fence. store_steps; done. Qed.
Lemma feedback_enqueue_rows r : keeps rows_wf (feedback_enqueue r).
Proof. intros s H. apply wp_modify. by case_match. Qed.
#[local] Hint Resolve append_trace_rows commit_segment_rows feedback_enqueue_rows : store_rows.

Lemma run_op_rows op s : rows_wf s → rows_wf (run_op op s).
Proof.
  intros H. destruct op; cbn [run_op]; try exact H;
    try (apply keeps_run; [solve [auto with nocore store_rows]|exact H]).
  - by apply rows_prune.
  - by unfold dequeue_completion_notice; destruct (in_notice_outbox s).
  - by unfold dequeue_job; destruct (in_job_outbox s).
  - by unfold dequeue_wake; destruct (in_wake_outbox s).
  - unfold command_dedup_get. by repeat case_match.
Qed.

Lemma reachable_rows n s : reachable n s → rows_wf s.
Proof.
  induction 1 as [|n s op _ IH]; [|by apply run_op_rows].
  constructor; simpl; intros id; try (intros ? ?; by simplify_map_eq); by intros [? ?%lookup_empty_Some].
Qed.

(** ** Elementary writes *)

(** The tables the execution properties speak of are untouched. *)
Definition core_eq (s s' : Inner) : Prop :=
  in_sessions s' = in_sessions s ∧ in_inbox_keys s' = in_inbox_keys s ∧
  in_unapplied s' = in_unapplied s ∧ in_notices_fired s' = in_notices_fired s ∧
  in_notice_outbox s' = in_notice_outbox s ∧ in_splices s' = in_splices s ∧
  in_splice_seq s' = in_splice_seq s ∧ in_detached_seq s' = in_detached_seq s ∧
  in_journal_entries s' = in_journal_entries s ∧ in_journal_cursor s' = in_journal_cursor s.

(** A row is rewritten in place: same identity, and each counter either kept or
    advanced by one. *)
Record row_step (r r' : SessionRecord) : Prop := {
  row_id : sr_session_id r' = sr_session_id r;
  row_partition : sr_partition r' = sr_partition r;
  row_fence : sr_fence r' = sr_fence r ∨ sr_fence r' = FenceToken_next (sr_fence r);
  row_turn : sr_turn_seq r' = sr_turn_seq r ∨ sr_turn_seq r' = sr_turn_seq r +₆₄ 1
}.

Inductive mstep : Inner → Inner → Prop :=
| ms_frame s s' : core_eq s s' → mstep s s'
| ms_new s id r :
    in_sessions s !! id = None → sr_session_id r = id → sr_fence r = 0 → sr_turn_seq r = 0 →
    mstep s (put_session id r s)
| ms_row s id r r' :
    in_sessions s !! id = Some r → row_step r r' → mstep s (put_session id r' s)
| ms_push s id row :
    is_Some (in_sessions s !! id) →
    (∀ seq, is_session_id (row seq) = id ∧ is_splice_seq (row seq) = seq ∧ is_claim (row seq) = Pending) →
    (∀ r, r ∈ entry_vec (in_splices s) id → is_origin_op r ≠ is_origin_op (row (next_splice_seq s id))) →
    mstep s (push_splice id row s)
| ms_claim s id f : mstep s (claim_splices_locked id f s).2
| ms_consume s id up_to turn : mstep s (consume_splices_locked id up_to turn s)
| ms_prune s cutoff : mstep s (prune_consumed_splices cutoff s).2
| ms_apply s c :
    is_Some (in_sessions s !! jp_session_id c) → mstep s (apply_completion_locked c s).2
| ms_drop s id keys : mstep s (drop_applied id keys s)
| ms_notice s cp : mstep s (fire_notice cp s)
| ms_dequeue_notice s : mstep s (dequeue_completion_notice s).2
| ms_detached s parent :
    mstep s (s <| in_detached_seq :=
      <[parent := default 0 (in_detached_seq s !! parent) +₆₄ 1]> (in_detached_seq s) |>)
| ms_entry s stream segment entry :
    existsb (same_slot segment (te_seq entry)) (entry_vec (in_journal_entries s) stream) = false →
    mstep s (push_entry stream segment entry s).

(** How the helpers act on the session table. *)
Lemma sessions_consume id u t s : in_sessions (consume_splices_locked id u t s) = in_sessions s.
Proof. unfold consume_splices_locked. by case_match. Qed.
Lemma sessions_drop id keys s : in_sessions (drop_applied id keys s) = in_sessions s.
Proof. unfold drop_applied. by repeat case_match. Qed.
Lemma sessions_seal id seal s : in_sessions (seal_turn id seal s) = in_sessions s.
Proof. by destruct seal. Qed.
Lemma sessions_enqueue_job job s : in_sessions (enqueue_job job s) = in_sessions s.
Proof. unfold enqueue_job. by case_decide. Qed.
Lemma sessions_bind_edge id e s : in_sessions (bind_edge id e s) = in_sessions s.
Proof. by destruct e as [[]|]. Qed.
Lemma sessions_push id row s : in_sessions (push_splice id row s) = in_sessions s.
Proof. done. Qed.
Lemma sessions_put id r s : in_sessions (put_session id r s) = <[id := r]> (in_sessions s).
Proof. done. Qed.
Lemma sessions_claim id f s : in_sessions (claim_splices_locked id f s).2 = in_sessions s.
Proof. unfold claim_splices_locked. by case_match. Qed.

Create Rewrite HintDb tables.
#[export] Hint Rewrite sessions_consume sessions_drop sessions_seal sessions_enqueue_job
  sessions_bind_edge sessions_push sessions_put sessions_claim : tables.

Lemma core_seal id seal s : core_eq s (seal_turn id seal s).
Proof. by destruct seal. Qed.
Lemma core_enqueue_job job s : core_eq s (enqueue_job job s).
Proof. unfold enqueue_job. by case_decide. Qed.
Lemma core_bind_edge id e s : core_eq s (bind_edge id e s).
Proof. by destruct e as [[]|]. Qed.

(** Decompose the state an operation reached, last write first. *)
Ltac mtrace_one :=
  lazymatch goal with
  | |- bsteps mstep _ ?s ?s => apply bsteps_refl
  | |- bsteps mstep _ _ (consume_splices_locked _ _ _ _) => eapply bsteps_r; [|apply ms_consume]
  | |- bsteps mstep _ _ (drop_applied _ _ _) => eapply bsteps_r; [|apply ms_drop]
  | |- bsteps mstep _ _ (fire_notice _ _) => eapply bsteps_r; [|apply ms_notice]
  | |- bsteps mstep _ _ (claim_splices_locked _ _ _).2 => eapply bsteps_r; [|apply ms_claim]
  | |- bsteps mstep _ _ (apply_completion_locked _ _).2 => eapply bsteps_r; [|apply ms_apply]
  | |- bsteps mstep _ _ (seal_turn _ _ _) => eapply bsteps_r; [|apply ms_frame, core_seal]
  | |- bsteps mstep _ _ (enqueue_job _ _) => eapply bsteps_r; [|apply ms_frame, core_enqueue_job]
  | |- bsteps mstep _ _ (bind_edge _ _ _) => eapply bsteps_r; [|apply ms_frame, core_bind_edge]
  | |- bsteps mstep _ _ (enqueue_wake _ ?x) => apply bsteps_r with x; [|by apply ms_frame]
  | |- bsteps mstep _ _ (stamp_terminal _ _ ?x) => apply bsteps_r with x; [|by apply ms_frame]
  | |- bsteps mstep _ _ (update _ ?x) => apply bsteps_r with x; [|by apply ms_frame]
  | |- bsteps mstep _ _ (push_entry _ _ _ _) => eapply bsteps_r; [|by apply ms_entry]
  | |- bsteps mstep _ _ (push_splice _ _ _) => eapply bsteps_r; [|apply ms_push]
  | |- bsteps mstep _ _ (put_session _ _ _) =>
      eapply bsteps_r; [|eapply ms_row; [autorewrite with tables; by simplify_map_eq|]]
  end.
Ltac mtrace := repeat mtrace_one.

(** At most eight elementary writes per operation. *)
Definition traces {A} (m : Store A) : Prop := ∀ s, rows_wf s → wp m (λ _, bsteps mstep 8 s) s.

Section traces.
#[local] Hint Extern 1 (row_step _ _) => (constructor; simpl; auto) : core.

Lemma insert_fresh_traces id part snap st : traces (insert_fresh id part snap st).
Proof.
  intros s H. store_steps; [apply bsteps_refl|].
  apply bsteps_r with s; [apply bsteps_refl|by apply ms_new].
Qed.

Lemma create_idle_traces id part snap : traces (create_idle id part snap).
Proof.
  intros s H. unfold create_idle. store_steps; mtrace.
  apply bsteps_r with s; [apply bsteps_refl|by apply ms_new].
Qed.

Lemma reopen_traces id : traces (reopen_if_settled id).
Proof. intros s H. unfold reopen_if_settled. store_steps; mtrace; auto. Qed.

Lemma mark_ready_traces id : traces (mark_ready_if_idle id).
Proof. intros s H. unfold mark_ready_if_idle. store_steps; mtrace; auto. Qed.

Lemma acquire_traces id : traces (acquire_activation_lease id).
Proof. intros s H. unfold acquire_activation_lease. store_steps; mtrace; auto. Qed.

Lemma claim_traces id f : traces (claim_splices id f).
Proof. intros s H. unfold claim_splices. store_steps; mtrace. Qed.

Lemma load_traces id f : traces (load_for_activation id f).
Proof. intros s H. unfold load_for_activation. store_steps; mtrace. Qed.

Lemma checkpoint_traces cp job f : traces (checkpoint_and_enqueue cp job f).
Proof. intros s H. unfold checkpoint_and_enqueue. store_steps; mtrace; auto. Qed.

Lemma swap_traces id e n : traces (swap_snapshot_if_dormant id e n).
Proof. intros s H. unfold swap_snapshot_if_dormant. store_steps; mtrace; auto. Qed.

Lemma commit_turn_traces cp seal f : traces (commit_turn cp seal f).
Proof. intros s H. unfold commit_turn. store_steps; mtrace; auto. Qed.

Lemma park_traces cp approvals f : traces (park_approval cp approvals f).
Proof.
  intros s H. unfold park_approval. store_steps; mtrace; destruct (head approvals); auto.
Qed.

Lemma mark_completed_traces cp f now : traces (mark_completed cp f now).
Proof.
  intros s H. unfold mark_completed. store_steps; mtrace; auto.
  all: autorewrite with tables; eauto.
Qed.

Lemma record_completion_traces c : traces (record_completion_and_wake c).
Proof. intros s H. unfold record_completion_and_wake. store_steps; mtrace; eauto. Qed.

Lemma find_origin_None (op : string) rows :
  List.find (λ r, bool_decide (is_origin_op r = op)) rows = None →
  ∀ r, r ∈ rows → is_origin_op r ≠ op.
Proof.
  intros Hf r Hr. apply list_elem_of_In in Hr.
  eapply List.find_none in Hf; [|exact Hr]. by apply bool_decide_eq_false in Hf.
Qed.

Lemma append_traces n now : traces (append_splice n now).
Proof.
  intros s H. unfold append_splice. store_steps; mtrace; auto; try by eauto.
  all: by apply find_origin_None.
Qed.

Lemma create_runnable_traces spec now : traces (create_runnable spec now).
Proof.
  intros s H. unfold create_runnable. store_steps; mtrace.
  all: try (apply bsteps_r with s; [apply bsteps_refl|by apply ms_new]).
  all: autorewrite with tables; simpl; try by simplify_map_eq.
  all: intros r Hr.
  all: assert (in_splices s !! rs_id spec = None) as Hnone
    by (destruct (in_splices s !! rs_id spec) eqn:E; [|done];
        destruct (rows_splices _ _ _ _ H (rs_id spec)); [eauto|congruence]).
  all: destruct (rs_edge spec) as [[]|]; simpl in Hr; unfold entry_vec in Hr;
    rewrite Hnone in Hr; by apply not_elem_of_nil in Hr.
Qed.

Lemma answer_traces id job allow perm reason : traces (answer_approval id job allow perm reason).
Proof.
  intros s H. unfold answer_approval. store_steps; mtrace.
  all: simpl; apply (rows_approvals _ _ _ _ H).
  all: match goal with Hf : List.find _ _ = Some _ |- _ => unfold entry_vec in Hf;
         destruct (in_pending_approvals s !! id); [by eauto|done] end.
Qed.

Lemma detached_traces job : traces (enqueue_detached_job job).
Proof.
  intros s H. unfold enqueue_detached_job. store_steps. mtrace.
  eapply bsteps_r; [apply bsteps_refl|]. apply ms_detached.
Qed.

Lemma append_trace_traces stream seg e f : traces (append_trace stream seg e f).
Proof. intros s H. unfold append_trace, check_stream_fence. store_steps; mtrace. Qed.

Lemma commit_segment_traces stream seg r sig f : traces (commit_trace_segment stream seg r sig f).
Proof. intros s H. unfold commit_trace_segment, check_stream_fence. store_steps; mtrace. Qed.

Lemma feedback_traces r : traces (feedback_enqueue r).
Proof. intros s H. unfold feedback_enqueue. store_steps. case_match; mtrace. Qed.
End traces.

Create HintDb store_traces.
#[export] Hint Resolve insert_fresh_traces create_idle_traces reopen_traces mark_ready_traces
  acquire_traces claim_traces load_traces checkpoint_traces swap_traces commit_turn_traces
  park_traces mark_completed_traces record_completion_traces append_traces
  create_runnable_traces answer_traces detached_traces append_trace_traces
  commit_segment_traces feedback_traces : store_traces.

(** Every operation is at most eight elementary writes. *)
Lemma run_op_traces op s : rows_wf s → bsteps mstep 8 s (run_op op s).
Proof.
  intros H. destruct op; cbn [run_op];
    try (refine ((_ : traces _) s H); solve [auto with nocore store_traces]);
    try (apply bsteps_r with s; [apply bsteps_refl|by apply ms_frame]).
  - refine ((_ : traces _) s H). apply insert_fresh_traces.
  - apply bsteps_r with s; [apply bsteps_refl|apply ms_prune].
  - apply bsteps_r with s; [apply bsteps_refl|apply ms_dequeue_notice].
  - unfold dequeue_job. case_match; [apply bsteps_refl|cbn [snd]; mtrace].
  - unfold dequeue_wake. case_match; [apply bsteps_refl|cbn [snd]; mtrace].
  - unfold command_dedup_get. repeat case_match; cbn [snd]; mtrace.
Qed.

Lemma reachable_traces n s : reachable n s → bsteps mstep (8 * n) InMemoryStore_new s.
Proof.
  induction 1 as [|n s op Hs IH]; [apply bsteps_refl|].
  replace (8 * S n)%nat with (8 * n + 8)%nat by lia.
  eapply bsteps_trans; [exact IH|]. apply run_op_traces. by eapply reachable_rows.
Qed.
