(* ===== verification/StoreHistory.v ===== *)
(** * Properties of store executions, by elementary writes

    Counter bounds, the inbox, the completion table, the notice outbox and the
    journal, each shown for one elementary write and then for executions. *)

From S2P Require Import Prelude Text Common Approval StoreTypes Store StoreInv Journal Registry.
From S2P Require Import StoreSteps.

#[local] Open Scope N_scope.
#[local] Open Scope daemon_scope.

(** ** Counters

    Every counter of the store is bounded by the number of elementary writes,
    so none wraps within [2^64] of them. *)
Record counters_le (k : N) (s : Inner) : Prop := {
  ctr_rows : ∀ id r, in_sessions s !! id = Some r → sr_fence r ≤ k ∧ sr_turn_seq r ≤ k;
  ctr_splice : ∀ id, default 0 (in_splice_seq s !! id) ≤ k;
  ctr_detached : ∀ id, default 0 (in_detached_seq s !! id) ≤ k;
  ctr_cursor : in_journal_cursor s ≤ k
}.

Lemma counters_eq k s s' :
  in_sessions s' = in_sessions s → in_splice_seq s' = in_splice_seq s →
  in_detached_seq s' = in_detached_seq s → in_journal_cursor s' = in_journal_cursor s →
  counters_le k s → counters_le (k + 1) s'.
Proof.
  intros H1 H2 H3 H4 []. constructor; rewrite ?H1, ?H2, ?H3, ?H4; try lia.
  - intros id r Hr. apply ctr_rows0 in Hr. lia.
  - intros id. specialize (ctr_splice0 id). lia.
  - intros id. specialize (ctr_detached0 id). lia.
Qed.

Lemma counters_put k s id r :
  counters_le k s → sr_fence r ≤ k + 1 → sr_turn_seq r ≤ k + 1 →
  counters_le (k + 1) (put_session id r s).
Proof.
  intros [] Hf Ht. constructor; simpl; try lia.
  - intros j r' [[<- <-]|[_ Hj]]%lookup_insert_Some; [done|]. apply ctr_rows0 in Hj. lia.
  - intros j. specialize (ctr_splice0 j). lia.
  - intros j. specialize (ctr_detached0 j). lia.
Qed.

Lemma default_insert_le (m : gmap string N) j k x :
  (∀ i, default 0 (m !! i) ≤ k) → x ≤ k + 1 → ∀ i, default 0 (<[j:=x]> m !! i) ≤ k + 1.
Proof.
  intros Hm Hx i. destruct (decide (j = i)); simplify_map_eq; [done|]. specialize (Hm i). lia.
Qed.

Lemma counters_apply k s c :
  counters_le k s → counters_le (k + 1) (apply_completion_locked c s).2.
Proof.
  intros H. unfold apply_completion_locked. case_decide; [by apply (counters_eq k s)|]. simpl.
  destruct (in_sessions s !! jp_session_id c) as [r|] eqn:E; [|by apply (counters_eq k s)].
  pose proof (ctr_rows _ _ H _ _ E). apply counters_put; simpl; [|lia..].
  destruct H. by constructor.
Qed.

Lemma wrap_succ x k : x ≤ k → k + 1 < u64_bound → x +₆₄ 1 = x + 1.
Proof. u64_lia. Qed.

Lemma mstep_counters k s s' :
  counters_le k s → k + 1 < u64_bound → mstep s s' → counters_le (k + 1) s'.
Proof.
  intros H Hk Hstep. destruct Hstep as
    [s s' Heq|s id r _ _ Hf Ht|s id r r' Hr [_ _ Hf Ht]|s id row _ _ _|s id f|s id u t|s cutoff
    |s c _|s id keys|s cp|s|s parent|s stream seg e _].
  - destruct Heq as (?&_&_&_&_&_&?&?&_&?). by apply (counters_eq k s).
  - apply counters_put; [done|lia..].
  - destruct (ctr_rows _ _ H _ _ Hr). unfold FenceToken_next in Hf.
    rewrite (wrap_succ _ k) in Hf by done. rewrite (wrap_succ _ k) in Ht by done. apply counters_put; [done|lia..].
  - pose proof (ctr_splice _ _ H id) as Hid. apply (counters_eq k s s) in H; try done.
    destruct H. constructor; simpl; try done. intros j.
    unfold next_splice_seq. rewrite (wrap_succ _ k) by done.
    destruct (decide (id = j)); simplify_map_eq; [lia|apply ctr_splice0].
  - unfold claim_splices_locked. case_match; by apply (counters_eq k s).
  - unfold consume_splices_locked. case_match; by apply (counters_eq k s).
  - by apply (counters_eq k s).
  - by apply counters_apply.
  - unfold drop_applied. repeat case_match; by apply (counters_eq k s).
  - unfold fire_notice. repeat case_match; by apply (counters_eq k s).
  - unfold dequeue_completion_notice. repeat case_match; by apply (counters_eq k s).
  - pose proof (ctr_detached _ _ H parent) as Hid. apply (counters_eq k s s) in H; try done.
    destruct H. constructor; simpl; try done. intros j.
    rewrite (wrap_succ _ k) by done.
    destruct (decide (parent = j)); simplify_map_eq; [lia|apply ctr_detached0].
  - pose proof (ctr_cursor _ _ H). apply (counters_eq k s s) in H; try done.
    destruct H. constructor; simpl; try done. rewrite (wrap_succ _ k) by done. lia.
Qed.

(** ** Preservation along executions *)

(** A state predicate that holds initially and survives each elementary write
    of a store whose counters are in range holds after any execution. *)
Lemma bsteps_ind_bounded (P : Inner → Prop) k n s s' :
  (∀ k x y, counters_le k x → k + 1 < u64_bound → P x → mstep x y → P y) →
  bsteps mstep n s s' → counters_le k s → k + N.of_nat n < u64_bound → P s →
  P s' ∧ counters_le (k + N.of_nat n) s'.
Proof.
  intros Hstep Hs. revert k. induction Hs as [n x|n x y z Hxy Hyz IH]; intros k Hk Hb Hx.
  - split; [done|]. destruct Hk. constructor; try lia.
    + intros id r Hr%ctr_rows0. lia.
    + intros id. specialize (ctr_splice0 id). lia.
    + intros id. specialize (ctr_detached0 id). lia.
  - destruct (IH (k + 1)) as [H1 H2].
    + eapply mstep_counters; eauto. lia.
    + lia.
    + eapply Hstep; [exact Hk|lia|exact Hx|exact Hxy].
    + split; [done|]. by replace (k + N.of_nat (S n)) with (k + 1 + N.of_nat n) by lia.
Qed.

Lemma counters_new : counters_le 0 InMemoryStore_new.
Proof. constructor; simpl; [intros ? ? ?; by simplify_map_eq|done..]. Qed.

(** The bound under which executions are considered: eight elementary writes
    per operation, below [2^64]. *)
Definition in_range (n : nat) : Prop := 8 * N.of_nat n < u64_bound.

Lemma reachable_ind_bounded (P : Inner → Prop) n s :
  (∀ k x y, counters_le k x → k + 1 < u64_bound → P x → mstep x y → P y) →
  P InMemoryStore_new → reachable n s → in_range n →
  P s ∧ counters_le (8 * N.of_nat n) s.
Proof.
  intros Hstep H0 Hr Hn. apply reachable_traces in Hr. unfold in_range in Hn.
  destruct (bsteps_ind_bounded P 0 (8 * n) InMemoryStore_new s Hstep Hr counters_new) as [H1 H2];
    [lia|done|].
  split; [done|]. by replace (8 * N.of_nat n) with (0 + N.of_nat (8 * n)) by lia.
Qed.

Lemma reachable_counters n s : reachable n s → in_range n → counters_le (8 * N.of_nat n) s.
Proof. intros Hr Hn. by eapply (reachable_ind_bounded (λ _, True)). Qed.

(** ** The inbox

    Rows of a session are in strictly increasing sequence order, never above
    the counter that assigns them, and no two carry the same [origin_op]. *)
Definition inbox_rows_ok (id : SessionId) (counter : N) (rows : list InboxSplice) : Prop :=
  StronglySorted (<) (is_splice_seq <$> rows) ∧
  Forall (λ r, is_session_id r = id ∧ 1 ≤ is_splice_seq r ≤ counter) rows ∧
  NoDup (is_origin_op <$> rows).

Definition inbox_wf (s : Inner) : Prop := ∀ id,
  inbox_rows_ok id (default 0 (in_splice_seq s !! id)) (entry_vec (in_splices s) id).

(** The part of a row no later write changes. *)
Definition splice_key (r : InboxSplice) : SessionId * N * SpliceKind * bytes * string :=
  (is_session_id r, is_splice_seq r, is_kind r, is_payload r, is_origin_op r).

Lemma inbox_rows_keys id c rows rows' :
  splice_key <$> rows' = splice_key <$> rows → inbox_rows_ok id c rows → inbox_rows_ok id c rows'.
Proof.
  intros Hk (H1 & H2 & H3).
  assert (∀ {B} (g : _ → B), (g ∘ splice_key) <$> rows' = (g ∘ splice_key) <$> rows) as Hg.
  { intros B g. by rewrite !list_fmap_compose, Hk. }
  assert (is_splice_seq <$> rows' = is_splice_seq <$> rows) as E1 by exact (Hg _ (λ k, k.1.1.1.2)).
  assert (is_origin_op <$> rows' = is_origin_op <$> rows) as E2 by exact (Hg _ (λ k, k.2)).
  set (pair := λ r, (is_session_id r, is_splice_seq r)).
  assert (pair <$> rows' = pair <$> rows) as E3 by exact (Hg _ (λ k, (k.1.1.1.1, k.1.1.1.2))).
  split_and!; [by rewrite E1| |by rewrite E2].
  change (Forall ((λ p, p.1 = id ∧ 1 ≤ p.2 ≤ c) ∘ pair) rows').
  rewrite <- Forall_fmap, E3, Forall_fmap. exact H2.
Qed.

Lemma claim_row_key f r : splice_key (default r (claim_row f r)) = splice_key r.
Proof. unfold claim_row. by repeat case_match. Qed.
Lemma consume_row_key u t r : splice_key (consume_row u t r) = splice_key r.
Proof. unfold consume_row. by case_match. Qed.

Lemma fmap_key_eq (f : InboxSplice → InboxSplice) (rows : list InboxSplice) :
  (∀ r, splice_key (f r) = splice_key r) → splice_key <$> (f <$> rows) = splice_key <$> rows.
Proof. intros Hf. rewrite <- list_fmap_compose. apply list_fmap_ext. intros i x _. apply Hf. Qed.

Lemma inbox_map s id rows f :
  inbox_wf s → in_splices s !! id = Some rows → (∀ r, splice_key (f r) = splice_key r) →
  inbox_wf (s <| in_splices := <[id := f <$> rows]> (in_splices s) |>).
Proof.
  intros H Hr Hf j. simpl. rewrite entry_vec_insert. case_decide; subst; [|done].
  apply (inbox_rows_keys _ _ rows); [by apply fmap_key_eq|].
  specialize (H j). unfold entry_vec in H. by rewrite Hr in H.
Qed.

Lemma inbox_rows_sublist id c l k :
  l `sublist_of` k → inbox_rows_ok id c k → inbox_rows_ok id c l.
Proof.
  intros Hs (H1 & H2 & H3). split_and!.
  - eapply StronglySorted_sublist; [|exact H1]. by apply sublist_fmap.
  - by eapply Forall_sublist.
  - eapply sublist_NoDup; [exact H3|]. by apply sublist_fmap.
Qed.

Lemma mstep_inbox k s s' :
  counters_le k s → k + 1 < u64_bound → inbox_wf s → mstep s s' → inbox_wf s'.
Proof.
  intros Hc Hk H Hstep. destruct Hstep as
    [s s' Heq|s id r _ _ Hf Ht|s id r r' Hr _|s id row _ Hrow Hop|s id f|s id u t|s cutoff
    |s c _|s id keys|s cp|s|s parent|s stream seg e _]; try done.
  - destruct Heq as (_&_&_&_&_&Hs&Hq&_). unfold inbox_wf. by rewrite Hs, Hq.
  - intros j. simpl. unfold next_splice_seq. pose proof (ctr_splice _ _ Hc id).
    rewrite (wrap_succ _ k) by done. unfold entry_push. rewrite entry_vec_insert.
    destruct (decide (id = j)) as [<-|Hne]; simplify_map_eq; [|apply H].
    destruct (H id) as (H1 & H2 & H3). unfold next_splice_seq in Hop.
    rewrite (wrap_succ _ k) in Hop by done.
    destruct (Hrow (default 0 (in_splice_seq s !! id) + 1)) as (Hid & Hseq & _).
    split_and!.
    + rewrite fmap_app. apply StronglySorted_snoc; [done|]. rewrite Forall_fmap.
      eapply Forall_impl; [exact H2|]. simpl. intros x [_ [_ Hx]]. rewrite Hseq. eapply N.le_lt_trans; [exact Hx|]. lia.
    + apply Forall_app. split; [|constructor; [|done]].
      * eapply Forall_impl; [exact H2|]. simpl. intros x (? & ? & Hx). split_and!; [done..|].
        etrans; [exact Hx|]. lia.
      * rewrite Hseq. split; [done|]. lia.
    + rewrite fmap_app. apply NoDup_app. split_and!; [done| |apply NoDup_singleton].
      intros x (r & -> & Hr)%list_elem_of_fmap Hx%list_elem_of_singleton. by eapply Hop.
  - unfold claim_splices_locked. case_match; [|done]. apply inbox_map; [done..|].
    intros r. apply claim_row_key.
  - unfold consume_splices_locked. case_match; [|done]. apply inbox_map; [done..|].
    intros r. apply consume_row_key.
  - intros j. eapply inbox_rows_sublist; [|apply (H j)]. simpl. unfold entry_vec.
    rewrite lookup_fmap. destruct (in_splices s !! j); simpl; [apply sublist_filter_b|constructor].
  - unfold apply_completion_locked. case_decide; [done|]. simpl. by case_match.
  - unfold drop_applied. by repeat case_match.
  - unfold fire_notice. by repeat case_match.
  - unfold dequeue_completion_notice. by repeat case_match.
Qed.

(** ** Completions

    Every unapplied completion is filed under its session, its key is in the
    idempotency set, and no key is filed twice. *)
Definition completion_key (c : JobCompletion) : SessionId * Epoch * JobId :=
  (jp_session_id c, jp_epoch c, jp_job_id c).

Definition completions_wf (s : Inner) : Prop := ∀ id,
  NoDup (completion_key <$> entry_vec (in_unapplied s) id) ∧
  Forall (λ c, jp_session_id c = id ∧ completion_key c ∈ in_inbox_keys s)
    (entry_vec (in_unapplied s) id).

Lemma mstep_completions s s' : completions_wf s → mstep s s' → completions_wf s'.
Proof.
  intros H Hstep. destruct Hstep as
    [s s' Heq|s id r _ _ Hf Ht|s id r r' Hr _|s id row _ Hrow Hop|s id f|s id u t|s cutoff
    |s c _|s id keys|s cp|s|s parent|s stream seg e _]; try done.
  - destruct Heq as (_&H1&H2&_). unfold completions_wf. by rewrite H1, H2.
  - unfold claim_splices_locked. by case_match.
  - unfold consume_splices_locked. by case_match.
  - unfold apply_completion_locked. fold (completion_key c). case_decide as Hnew; [done|].
    assert (completions_wf (s <| in_inbox_keys := {[completion_key c]} ∪ in_inbox_keys s |>
      <| in_unapplied := entry_push (in_unapplied s) (jp_session_id c) c |>)) as H';
      [|cbv zeta; by case_match].
    intros j. simpl. unfold entry_push. rewrite entry_vec_insert.
    destruct (H j) as [H1 H2]. case_decide as Hj; subst.
    + split.
      * rewrite fmap_app. apply NoDup_app. split_and!; [done| |apply NoDup_singleton].
        intros x (c' & -> & Hc')%list_elem_of_fmap Hx%list_elem_of_singleton.
        rewrite Forall_forall in H2. apply H2 in Hc' as [_ Hc']. congruence.
      * apply Forall_app. split; [|repeat constructor; set_solver].
        eapply Forall_impl; [exact H2|]. simpl. intros c' [? ?]. set_solver.
    + split; [done|]. eapply Forall_impl; [exact H2|]. simpl. intros c' [? ?]. set_solver.
  - unfold drop_applied. destruct keys as [|k keys]; [done|].
    destruct (in_unapplied s !! id) as [rows|] eqn:E; [|done].
    intros j. simpl. rewrite entry_vec_insert. case_decide as Hj; subst; [|apply H].
    destruct (H j) as [H1 H2]. unfold entry_vec in H1, H2. rewrite E in H1, H2. split.
    + eapply sublist_NoDup; [exact H1|]. apply sublist_fmap, sublist_filter_b.
    + eapply Forall_sublist; [|exact H2]. apply sublist_filter_b.
  - unfold fire_notice. by repeat case_match.
  - unfold dequeue_completion_notice. by repeat case_match.
Qed.

(** ** Notices

    A child appears at most once in the notice outbox, and only when it is
    marked as fired. *)
Definition notices_wf (s : Inner) : Prop :=
  NoDup (cn_child <$> in_notice_outbox s) ∧
  Forall (λ n, cn_child n ∈ in_notices_fired s) (in_notice_outbox s).

Lemma mstep_notices s s' : notices_wf s → mstep s s' → notices_wf s'.
Proof.
  intros [H1 H2] Hstep. destruct Hstep as
    [s s' Heq|s id r _ _ Hf Ht|s id r r' Hr _|s id row _ Hrow Hop|s id f|s id u t|s cutoff
    |s c _|s id keys|s cp|s|s parent|s stream seg e _]; try done.
  - destruct Heq as (_&_&_&Hf&Ho&_). unfold notices_wf. by rewrite Hf, Ho.
  - unfold claim_splices_locked. by case_match.
  - unfold consume_splices_locked. by case_match.
  - unfold apply_completion_locked. case_decide; [done|]. cbv zeta. by case_match.
  - unfold drop_applied. by repeat case_match.
  - unfold fire_notice. destruct (in_completion_notices s !! _) as [[p i]|]; [|done].
    case_decide as Hnew; [done|]. unfold notices_wf. cbn [in_notice_outbox in_notices_fired update].
    split.
    + rewrite fmap_app. apply NoDup_app. split_and!; [done| |apply NoDup_singleton].
      intros x (n & -> & Hn)%list_elem_of_fmap Hx%list_elem_of_singleton.
      rewrite Forall_forall in H2. apply H2 in Hn. simpl in Hx. congruence.
    + apply Forall_app. split; [|repeat constructor; set_solver].
      eapply Forall_impl; [exact H2|]. simpl. intros n ?. set_solver.
  - unfold dequeue_completion_notice, notices_wf.
    destruct (in_notice_outbox s) as [|n q] eqn:E; simpl; [by rewrite E|].
    apply NoDup_cons in H1 as [_ H1]. by apply Forall_cons in H2 as [_ H2].
Qed.

(** ** The journal

    Each stream's log is in strictly increasing cursor order, below the
    store-wide cursor, with one entry per [(segment, seq)]. *)
Definition entry_slot (e : JournalEntry) : N * N := (je_segment e, te_seq (je_entry e)).

Definition log_ok (cursor : N) (log : list JournalEntry) : Prop :=
  StronglySorted (<) (je_cursor <$> log) ∧
  Forall (λ e, 1 ≤ je_cursor e ≤ cursor) log ∧ NoDup (entry_slot <$> log).

Definition journal_wf (s : Inner) : Prop := ∀ stream,
  log_ok (in_journal_cursor s) (entry_vec (in_journal_entries s) stream).

Lemma mstep_journal k s s' :
  counters_le k s → k + 1 < u64_bound → journal_wf s → mstep s s' → journal_wf s'.
Proof.
  intros Hc Hk H Hstep. destruct Hstep as
    [s s' Heq|s id r _ _ Hf Ht|s id r r' Hr _|s id row _ Hrow Hop|s id f|s id u t|s cutoff
    |s c _|s id keys|s cp|s|s parent|s stream seg e Hnew]; try done.
  - destruct Heq as (_&_&_&_&_&_&_&_&He&Hcur). unfold journal_wf. by rewrite He, Hcur.
  - unfold claim_splices_locked. by case_match.
  - unfold consume_splices_locked. by case_match.
  - unfold apply_completion_locked. case_decide; [done|]. cbv zeta. by case_match.
  - unfold drop_applied. by repeat case_match.
  - unfold fire_notice. by repeat case_match.
  - unfold dequeue_completion_notice. by repeat case_match.
  - intros j. simpl. pose proof (ctr_cursor _ _ Hc). rewrite (wrap_succ _ k) by done.
    unfold entry_push. rewrite entry_vec_insert. destruct (H j) as (H1 & H2 & H3).
    assert (Forall (λ e, 1 ≤ je_cursor e ≤ in_journal_cursor s + 1)
      (entry_vec (in_journal_entries s) j)).
    { eapply Forall_impl; [exact H2|]. simpl. intros; lia. }
    case_decide as Hj; subst; [|done]. split_and!.
    + rewrite fmap_app. apply StronglySorted_snoc; [done|]. rewrite Forall_fmap.
      eapply Forall_impl; [exact H2|]. simpl. intros; lia.
    + apply Forall_app. split; [done|]. constructor; [simpl; lia|done].
    + rewrite fmap_app. apply NoDup_app. split_and!; [done| |apply NoDup_singleton].
      intros x (e' & -> & He')%list_elem_of_fmap Hx%list_elem_of_singleton.
      apply existsb_false_Forall in Hnew. rewrite Forall_forall in Hnew.
      apply Hnew in He'. unfold same_slot in He'. unfold entry_slot in Hx. simpl in Hx.
      injection Hx as Hx1 Hx2. rewrite Hx1, Hx2, !N.eqb_refl in He'. done.
Qed.

(** ** The invariant of every reachable store *)
Record store_wf (s : Inner) : Prop := {
  wf_rows : rows_wf s;
  wf_inbox : inbox_wf s;
  wf_completions : completions_wf s;
  wf_notices : notices_wf s;
  wf_journal : journal_wf s
}.

Lemma reachable_wf n s : reachable n s → in_range n → store_wf s.
Proof.
  intros Hr Hn.
  destruct (reachable_ind_bounded (λ s, inbox_wf s ∧ completions_wf s ∧ notices_wf s ∧ journal_wf s)
    n s) as [(?&?&?&?) _]; try done.
  - intros k x y Hc Hk (?&?&?&?) Hstep. split_and!;
      [by eapply mstep_inbox|by eapply mstep_completions|by eapply mstep_notices|by eapply mstep_journal].
  - split_and!; [intros id|intros id|..|intros id]; try by repeat constructor.
  - constructor; try done. by eapply reachable_rows.
Qed.

(** ** What no execution undoes *)

(** The order a claim moves in: pending, then claimed under fences that only
    grow, then consumed by one turn for good. *)
Definition claim_le (a b : SpliceClaim) : Prop :=
  match a, b with
  | Pending, _ => True
  | Claimed f, Claimed g => f ≤ g
  | Claimed _, Consumed _ => True
  | Claimed _, Pending => False
  | Consumed t, c => c = Consumed t
  end.

#[export] Instance claim_le_preorder : PreOrder claim_le.
Proof.
  split.
  - intros []; simpl; auto; lia.
  - intros [|f|t] [|g|u] [|h|v]; simpl; try naive_solver lia.
Qed.

Record evolves (s s' : Inner) : Prop := {
  ev_rows : ∀ id r, in_sessions s !! id = Some r → ∃ r', in_sessions s' !! id = Some r' ∧
    sr_partition r' = sr_partition r ∧ sr_fence r ≤ sr_fence r' ∧ sr_turn_seq r ≤ sr_turn_seq r';
  ev_keys : in_inbox_keys s ⊆ in_inbox_keys s';
  ev_fired : in_notices_fired s ⊆ in_notices_fired s';
  ev_counter : ∀ id, default 0 (in_splice_seq s !! id) ≤ default 0 (in_splice_seq s' !! id);
  ev_detached : ∀ id, default 0 (in_detached_seq s !! id) ≤ default 0 (in_detached_seq s' !! id);
  ev_splices : ∀ id r', r' ∈ entry_vec (in_splices s') id →
    is_splice_seq r' ≤ default 0 (in_splice_seq s !! id) →
    ∃ r, r ∈ entry_vec (in_splices s) id ∧ splice_key r' = splice_key r ∧
      claim_le (is_claim r) (is_claim r');
  ev_log : ∀ stream, entry_vec (in_journal_entries s) stream `prefix_of`
    entry_vec (in_journal_entries s') stream
}.

#[export] Instance evolves_preorder : PreOrder evolves.
Proof.
  split.
  - intros s. constructor; try done.
    + intros id r Hr. exists r. split_and!; [done..|lia|lia].
    + intros id r Hr _. by exists r.
  - intros s1 s2 s3 H1 H2. constructor.
    + intros id r (r1 & Hr1 & ? & ? & ?)%(ev_rows _ _ H1).
      apply (ev_rows _ _ H2) in Hr1 as (r2 & ? & ? & ? & ?).
      exists r2. split_and!; [done|congruence|lia..].
    + etrans; [apply (ev_keys _ _ H1)|apply (ev_keys _ _ H2)].
    + etrans; [apply (ev_fired _ _ H1)|apply (ev_fired _ _ H2)].
    + intros id. etrans; [apply (ev_counter _ _ H1)|apply (ev_counter _ _ H2)].
    + intros id. etrans; [apply (ev_detached _ _ H1)|apply (ev_detached _ _ H2)].
    + intros id r3 Hin Hle. destruct (ev_splices _ _ H2 id r3 Hin) as (r2 & Hin2 & Hk2 & Hc2).
      { etrans; [exact Hle|apply (ev_counter _ _ H1)]. }
      assert (is_splice_seq r3 = is_splice_seq r2) as Hs by (unfold splice_key in Hk2; congruence).
      destruct (ev_splices _ _ H1 id r2 Hin2) as (r1 & Hin1 & Hk1 & Hc1); [by rewrite <- Hs|].
      exists r1. split_and!; [done|congruence|by etrans].
    + intros stream. etrans; [apply (ev_log _ _ H1)|apply (ev_log _ _ H2)].
Qed.

(** A write to the inbox of one session that keeps every row's key and moves
    claims forward. *)
Lemma evolves_map_inbox s id rows f :
  in_splices s !! id = Some rows →
  (∀ r, splice_key (f r) = splice_key r ∧ claim_le (is_claim r) (is_claim (f r))) →
  evolves s (s <| in_splices := <[id := f <$> rows]> (in_splices s) |>).
Proof.
  intros Hr Hf. destruct (reflexivity s : evolves s s). constructor; simpl; try done.
  intros j r' Hin Hle. rewrite entry_vec_insert in Hin. case_decide; subst; [|by apply ev_splices0].
  apply list_elem_of_fmap in Hin as (r & -> & Hin). exists r.
  unfold entry_vec. rewrite Hr. split; [done|apply Hf].
Qed.

Lemma evolves_sessions s s' :
  (∀ id r, in_sessions s !! id = Some r → ∃ r', in_sessions s' !! id = Some r' ∧
    sr_partition r' = sr_partition r ∧ sr_fence r ≤ sr_fence r' ∧ sr_turn_seq r ≤ sr_turn_seq r') →
  in_inbox_keys s ⊆ in_inbox_keys s' → in_notices_fired s ⊆ in_notices_fired s' →
  in_splices s' = in_splices s → in_splice_seq s' = in_splice_seq s →
  in_detached_seq s' = in_detached_seq s → in_journal_entries s' = in_journal_entries s →
  evolves s s'.
Proof.
  intros H1 H2 H3 H4 H5 H6 H7. destruct (reflexivity s : evolves s s).
  constructor; rewrite ?H4, ?H5, ?H6, ?H7; done.
Qed.

Lemma same_rows (m : gmap SessionId SessionRecord) id r : m !! id = Some r →
  ∃ r', m !! id = Some r' ∧ sr_partition r' = sr_partition r ∧
    sr_fence r ≤ sr_fence r' ∧ sr_turn_seq r ≤ sr_turn_seq r'.
Proof. intros H. exists r. split_and!; [done..|lia|lia]. Qed.

Lemma same_row r : ∃ r', Some r = Some r' ∧ sr_partition r' = sr_partition r ∧
    sr_fence r ≤ sr_fence r' ∧ sr_turn_seq r ≤ sr_turn_seq r'.
Proof. exists r. split_and!; [done..|lia|lia]. Qed.

Lemma evolves_put s id r r' :
  in_sessions s !! id = Some r → sr_partition r' = sr_partition r →
  sr_fence r ≤ sr_fence r' → sr_turn_seq r ≤ sr_turn_seq r' → evolves s (put_session id r' s).
Proof.
  intros Hr Hp Hf Ht. apply evolves_sessions; try done. simpl. intros j x Hj.
  destruct (decide (id = j)); simplify_map_eq; [by eauto|apply same_row].
Qed.

Lemma evolves_core s s' : core_eq s s' → evolves s s'.
Proof.
  intros (H1 & H2 & _ & H3 & _ & ? & ? & ? & ? & _).
  apply evolves_sessions; rewrite ?H1, ?H2, ?H3; try done. apply same_rows.
Qed.

Lemma evolves_apply s c : evolves s (apply_completion_locked c s).2.
Proof.
  unfold apply_completion_locked. case_decide; [done|]. cbv zeta.
  destruct (in_sessions _ !! _) as [r|] eqn:E; simpl in *; (apply evolves_sessions; simpl; try done).
  - intros j x Hj. destruct (decide (jp_session_id c = j)); simplify_map_eq; [|apply same_row].
    eexists. split; [done|]. simpl. split_and!; [done|lia..].
  - set_solver.
  - apply same_rows.
  - set_solver.
Qed.

Lemma claim_row_forward f r :
  splice_key (default r (claim_row f r)) = splice_key r ∧
  claim_le (is_claim r) (is_claim (default r (claim_row f r))).
Proof.
  split; [apply claim_row_key|]. unfold claim_row.
  destruct (is_claim r) eqn:E; simpl; [done| |by rewrite E].
  destruct (N.ltb_spec fence f); simpl; [lia|].
  destruct (N.eqb_spec fence f); simpl; rewrite E; lia.
Qed.

Lemma consume_row_forward u t r :
  splice_key (consume_row u t r) = splice_key r ∧
  claim_le (is_claim r) (is_claim (consume_row u t r)).
Proof.
  split; [apply consume_row_key|]. unfold consume_row.
  destruct (is_claim r) as [|g|v] eqn:E; simpl; rewrite ?andb_false_r, ?andb_true_r; [done| |by rewrite E].
  destruct (is_splice_seq r <=? u); simpl; [done|]. rewrite E. lia.
Qed.

Lemma evolves_push k s id row :
  counters_le k s → k + 1 < u64_bound → (∀ seq, is_splice_seq (row seq) = seq) →
  evolves s (push_splice id row s).
Proof.
  intros Hc Hk Hrow. destruct (reflexivity s : evolves s s). pose proof (ctr_splice _ _ Hc id).
  constructor; simpl; try done; unfold next_splice_seq; rewrite (wrap_succ _ k) by done.
  - intros j. destruct (decide (id = j)); simplify_map_eq; [lia|done].
  - intros j r' Hin Hle. unfold entry_push in Hin. rewrite entry_vec_insert in Hin.
    case_decide; subst; [|by apply ev_splices0].
    apply elem_of_app in Hin as [?|Hin%list_elem_of_singleton]; [by apply ev_splices0|].
    subst r'. rewrite Hrow in Hle. lia.
Qed.

Lemma evolves_prune s cutoff : evolves s (prune_consumed_splices cutoff s).2.
Proof.
  destruct (reflexivity s : evolves s s). constructor; simpl; try done.
  intros j r' Hin Hle. apply ev_splices0; [|done]. unfold entry_vec in *.
  rewrite lookup_fmap in Hin. destruct (in_splices s !! j); simpl in *; [|done].
  apply list_elem_of_In, filter_In in Hin as [Hin _]. by apply list_elem_of_In.
Qed.

Lemma mstep_evolves k s s' :
  counters_le k s → k + 1 < u64_bound → mstep s s' → evolves s s'.
Proof.
  intros Hc Hk Hstep. destruct Hstep as
    [s s' Heq|s id r Hnone _ _ _|s id r r' Hr [_ Hp Hf Ht]|s id row _ Hrow _|s id f|s id u t|s cutoff
    |s c _|s id keys|s cp|s|s parent|s stream seg e _].
  - by apply evolves_core.
  - apply evolves_sessions; try done. simpl. intros j x Hj.
    destruct (decide (id = j)); simplify_map_eq. apply same_row.
  - destruct (ctr_rows _ _ Hc _ _ Hr). unfold FenceToken_next in Hf.
    rewrite (wrap_succ _ k) in Hf by done. rewrite (wrap_succ _ k) in Ht by done.
    apply (evolves_put s id r r'); [done..|lia|lia].
  - eapply evolves_push; [done..|]. intros seq. apply Hrow.
  - unfold claim_splices_locked. case_match; [|done].
    apply evolves_map_inbox; [done|]. intros r. apply claim_row_forward.
  - unfold consume_splices_locked. case_match; [|done].
    apply evolves_map_inbox; [done|]. intros r. apply consume_row_forward.
  - apply evolves_prune.
  - apply evolves_apply.
  - unfold drop_applied. repeat case_match; try done.
    apply evolves_sessions; try done. apply same_rows.
  - unfold fire_notice. repeat case_match; try done.
    apply evolves_sessions; try done; [apply same_rows|]. simpl. set_solver.
  - unfold dequeue_completion_notice. repeat case_match; try done.
    apply evolves_sessions; try done. apply same_rows.
  - destruct (reflexivity s : evolves s s). pose proof (ctr_detached _ _ Hc parent).
    constructor; simpl; try done. intros j. rewrite (wrap_succ _ k) by done.
    destruct (decide (parent = j)); simplify_map_eq; [lia|done].
  - destruct (reflexivity s : evolves s s). constructor; simpl; try done.
    intros j. unfold entry_push. rewrite entry_vec_insert.
    case_decide; subst; [by apply prefix_app_r|done].
Qed.

(** ** Continuing an execution *)

Lemma reachable_run_ops n s ops : reachable n s → reachable (n + length ops) (run_ops ops s).
Proof.
  revert n s. induction ops as [|op ops IH]; intros n s Hr; simpl.
  - by replace (n + 0)%nat with n by lia.
  - replace (n + S (length ops))%nat with (S n + length ops)%nat by lia.
    apply IH. by constructor.
Qed.

Lemma run_op_evolves n s op : reachable n s → in_range (S n) → evolves s (run_op op s).
Proof.
  unfold in_range. intros Hr Hn.
  destruct (bsteps_ind_bounded (evolves s) (8 * N.of_nat n) 8 s (run_op op s)); try done.
  - intros k x y Hk Hb Hx Hxy. etrans; [exact Hx|]. by eapply mstep_evolves.
  - apply run_op_traces. by eapply reachable_rows.
  - apply reachable_counters; [done|]. unfold in_range. lia.
  - lia.
Qed.

Lemma run_ops_evolves n s ops :
  reachable n s → in_range (n + length ops) → evolves s (run_ops ops s).
Proof.
  revert n s. induction ops as [|op ops IH]; intros n s Hr Hn; simpl; [done|].
  unfold in_range in *. simpl in Hn. trans (run_op op s).
  - apply (run_op_evolves n); [done|]. unfold in_range. lia.
  - apply (IH (S n)); [by constructor|lia].
Qed.

Lemma bsteps_keep (P : Inner → Prop) k x y :
  (∀ x y, P x → mstep x y → P y) → bsteps mstep k x y → P x → P y.
Proof. intros Hstep. induction 1; eauto. Qed.

(** A property every elementary write keeps survives any continuation. *)
Lemma run_ops_ind (P : Inner → Prop) n s ops :
  (∀ x y, P x → mstep x y → P y) → reachable n s → P s → P (run_ops ops s).
Proof.
  intros Hstep. revert n s. induction ops as [|op ops IH]; intros n s Hr Hs; [done|].
  cbn [run_ops foldl]. apply (IH (S n)); [by constructor|].
  apply (bsteps_keep P 8 s); [done| |done]. by apply run_op_traces, (reachable_rows n).
Qed.
