(* ===== verification/StoreLease.v ===== *)
(** * Leases and fencing

    The activation lease is the store's mutual exclusion: a new lease carries a
    larger fencing token, and every commit path refuses a smaller one. *)

From S2P Require Import Prelude Text Common Approval StoreTypes Store StoreInv Journal Registry.
From S2P Require Import StoreSteps StoreHistory.

#[local] Open Scope N_scope.
#[local] Open Scope daemon_scope.

(** ** The interface of a fenced operation

    [FencedOp id m]: presented with a token below the one granted for [id],
    [m] fails with [Fenced] and writes nothing. *)
Class FencedOp {A} (id : SessionId) (m : FenceToken → Store A) : Prop :=
  fenced_reject : ∀ f r s, in_sessions s !! id = Some r → f < sr_fence r →
    m f s = (Err (Fenced f (sr_fence r)), s).

Lemma find_session_Some id r s : in_sessions s !! id = Some r → find_session id s = (Ok r, s).
Proof. intros H. unfold find_session, mbind, M_bind, get. simpl. by rewrite H. Qed.
Lemma find_session_None id s : in_sessions s !! id = None → find_session id s = (Err (NotFound id), s).
Proof. intros H. unfold find_session, mbind, M_bind, get. simpl. by rewrite H. Qed.
Lemma check_fence_stale r f s : f < sr_fence r → check_fence r f s = (Err (Fenced f (sr_fence r)), s).
Proof. intros H%N.ltb_lt. unfold check_fence. by rewrite H. Qed.
Lemma check_fence_ok r f s : sr_fence r ≤ f → check_fence r f s = (Ok tt, s).
Proof. intros H%N.ltb_ge. unfold check_fence. by rewrite H. Qed.
Lemma take_fault_none p s : in_fault s ≠ Some p → take_fault p s = (Ok tt, s).
Proof. intros H. unfold take_fault. by rewrite decide_False. Qed.
Lemma take_fault_armed p s :
  in_fault s = Some p → take_fault p s = (Err (Fault p), s <| in_fault := None |>).
Proof. intros H. unfold take_fault. by rewrite decide_True. Qed.

(** Any body that starts with the row lookup and the fence check is fenced. *)
Lemma fenced_prefix {A} id (k : SessionRecord → FenceToken → Store A) :
  FencedOp id (λ f, rec ← find_session id; _ ← check_fence rec f; k rec f).
Proof.
  intros f r s Hr Hf. erewrite M_bind_ok by (by apply find_session_Some).
  by erewrite M_bind_err by (by apply check_fence_stale).
Qed.

#[export] Instance claim_splices_fenced id : FencedOp id (claim_splices id).
Proof. apply (fenced_prefix id (λ _ f, claim_inbox id f)). Qed.
#[export] Instance checkpoint_fenced cp job :
  FencedOp (cp_session_id cp) (checkpoint_and_enqueue cp job).
Proof. unfold checkpoint_and_enqueue. apply (fenced_prefix (cp_session_id cp)). Qed.
#[export] Instance mark_completed_fenced cp now :
  FencedOp (cp_session_id cp) (λ f, mark_completed cp f now).
Proof. unfold mark_completed. apply (fenced_prefix (cp_session_id cp)). Qed.
#[export] Instance commit_turn_fenced cp seal : FencedOp (cp_session_id cp) (commit_turn cp seal).
Proof. unfold commit_turn. apply (fenced_prefix (cp_session_id cp)). Qed.
#[export] Instance park_approval_fenced cp approvals :
  FencedOp (cp_session_id cp) (park_approval cp approvals).
Proof. unfold park_approval. apply (fenced_prefix (cp_session_id cp)). Qed.

Lemma stream_fence_reject {A} id (k : Store A) :
  FencedOp id (λ f, _ ← check_stream_fence id (Some f); k).
Proof.
  intros f r s Hr Hf. unfold check_stream_fence.
  erewrite M_bind_err; [done|]. erewrite M_bind_ok by (by apply find_session_Some).
  by apply check_fence_stale.
Qed.
#[export] Instance append_trace_fenced id seg e : FencedOp id (λ f, append_trace id seg e (Some f)).
Proof. apply stream_fence_reject. Qed.
#[export] Instance commit_segment_fenced id seg root sig :
  FencedOp id (λ f, commit_trace_segment id seg root sig (Some f)).
Proof. apply stream_fence_reject. Qed.

(** ** Granting a lease *)

Lemma acquire_spec id r s :
  in_sessions s !! id = Some r →
  acquire_activation_lease id s =
    (Ok (FenceToken_next (sr_fence r)),
     put_session id (r <| sr_fence := FenceToken_next (sr_fence r) |> <| sr_status := Active |>) s).
Proof. intros Hr. unfold acquire_activation_lease. by erewrite M_bind_ok by (by apply find_session_Some). Qed.

Lemma acquire_Ok_inv id s f s' :
  acquire_activation_lease id s = (Ok f, s') →
  ∃ r, in_sessions s !! id = Some r ∧ f = FenceToken_next (sr_fence r) ∧
    in_sessions s' !! id = Some (r <| sr_fence := f |> <| sr_status := Active |>).
Proof.
  destruct (in_sessions s !! id) as [r|] eqn:E; intros H.
  - rewrite (acquire_spec id r s E) in H. injection H as <- <-. exists r.
    split_and!; [done..|]. by simplify_map_eq.
  - unfold acquire_activation_lease in H. by erewrite M_bind_err in H by (by apply find_session_None).
Qed.

(** A lease granted later on carries a strictly larger token. *)
Lemma acquire_later n s id f s1 ops g s2 :
  reachable n s → in_range (n + S (S (length ops))) →
  acquire_activation_lease id s = (Ok f, s1) →
  acquire_activation_lease id (run_ops ops s1) = (Ok g, s2) → f < g.
Proof.
  intros Hr Hn H1 H2.
  assert (reachable (S n) s1) as Hr1.
  { change s1 with (Ok (E := StoreError) f, s1).2. rewrite <- H1.
    exact (reachable_step n s (OpAcquireLease id) Hr). }
  pose proof (run_ops_evolves (S n) s1 ops Hr1) as Hev.
  pose proof (reachable_run_ops (S n) s1 ops Hr1) as Hr2.
  apply acquire_Ok_inv in H1 as (r1 & _ & _ & Hs1). apply acquire_Ok_inv in H2 as (r2 & Hs2 & -> & _).
  unfold in_range in *.
  destruct (ev_rows _ _ (Hev ltac:(lia)) _ _ Hs1) as (r2' & Hr2' & _ & Hle & _).
  rewrite Hs2 in Hr2'. injection Hr2' as <-.
  assert (sr_fence r2 ≤ 8 * N.of_nat (S n + length ops)) as Hb.
  { eapply ctr_rows; [|exact Hs2]. apply reachable_counters; [done|]. unfold in_range; lia. }
  simpl in Hle. eapply N.le_lt_trans; [exact Hle|]. apply FenceToken_next_lt.
  unfold u64_bound in *. lia.
Qed.

(** Every commit path refuses a stale token and leaves the store as it was. *)
Lemma stale_refused id r f s cp job seal approvals now seg entry root sig :
  in_sessions s !! id = Some r → cp_session_id cp = id → f < sr_fence r →
  let refused := Fenced f (sr_fence r) in
  claim_splices id f s = (Err refused, s) ∧
  checkpoint_and_enqueue cp job f s = (Err refused, s) ∧
  mark_completed cp f now s = (Err refused, s) ∧
  commit_turn cp seal f s = (Err refused, s) ∧
  park_approval cp approvals f s = (Err refused, s) ∧
  append_trace id seg entry (Some f) s = (Err refused, s) ∧
  commit_trace_segment id seg root sig (Some f) s = (Err refused, s).
Proof.
  intros Hr <- Hf refused. split_and!.
  - by apply claim_splices_fenced.
  - by apply checkpoint_fenced.
  - by apply (mark_completed_fenced cp now).
  - by apply commit_turn_fenced.
  - by apply park_approval_fenced.
  - by apply (append_trace_fenced (cp_session_id cp) seg entry).
  - by apply (commit_segment_fenced (cp_session_id cp) seg root sig).
Qed.

(** C1. A lease is exclusive for good: once a session's lease is granted again,
    the earlier holder's token is refused, with both tokens in the error and
    nothing written, at any later point of the execution: by the claim of inbox
    rows, by the suspension, terminal, turn and parking commits, and by the fenced
    journal writes. *)
Theorem lease_exclusive n s id f s1 ops1 g s2 ops2 cp job seal approvals now seg entry root sig :
  reachable n s → in_range (n + length ops1 + length ops2 + 2) →
  acquire_activation_lease id s = (Ok f, s1) →
  acquire_activation_lease id (run_ops ops1 s1) = (Ok g, s2) →
  cp_session_id cp = id →
  let t := run_ops ops2 s2 in
  f < g ∧ ∃ current, g ≤ current ∧ let refused := Fenced f current in
    claim_splices id f t = (Err refused, t) ∧
    checkpoint_and_enqueue cp job f t = (Err refused, t) ∧
    mark_completed cp f now t = (Err refused, t) ∧
    commit_turn cp seal f t = (Err refused, t) ∧
    park_approval cp approvals f t = (Err refused, t) ∧
    append_trace id seg entry (Some f) t = (Err refused, t) ∧
    commit_trace_segment id seg root sig (Some f) t = (Err refused, t).
Proof.
  intros Hr Hn H1 H2 <- t. unfold in_range in Hn. set (id := cp_session_id cp) in *.
  assert (f < g) as Hfg by (eapply (acquire_later n s id f s1 ops1); eauto; unfold in_range; lia).
  split; [done|].
  assert (reachable (S n) s1) as Hr1.
  { change s1 with (Ok (E := StoreError) f, s1).2. rewrite <- H1.
    exact (reachable_step n s (OpAcquireLease id) Hr). }
  pose proof (reachable_run_ops (S n) s1 ops1 Hr1) as Hr1'.
  assert (reachable (S (S n + length ops1)) s2) as Hr2.
  { change s2 with (Ok (E := StoreError) g, s2).2. rewrite <- H2.
    exact (reachable_step _ _ (OpAcquireLease id) Hr1'). }
  apply acquire_Ok_inv in H2 as (r2 & _ & _ & Hs2).
  destruct (ev_rows _ _ (run_ops_evolves _ _ ops2 Hr2 ltac:(unfold in_range; lia)) _ _ Hs2)
    as (r3 & Hr3 & _ & Hle & _). simpl in Hle.
  exists (sr_fence r3). split; [done|]. apply (stale_refused id r3); [done|done|lia].
Qed.

Definition demo_store : Inner := (create_session "s" 0 [] InMemoryStore_new).2.

Lemma demo_store_reachable : reachable 1 demo_store.
Proof. exact (reachable_step 0 _ (OpCreateSession "s" 0 []) reachable_new). Qed.

Lemma lease_exclusive_witness :
  let t := run_ops [OpEnqueueWake "s"] (acquire_activation_lease "s" (acquire_activation_lease "s" demo_store).2).2 in
  let cp := Checkpoint_new "s" 1 [] in
  ∃ current, 2 ≤ current ∧ let refused := Fenced 1 current in
    claim_splices "s" 1 t = (Err refused, t) ∧
    checkpoint_and_enqueue cp (mkJobCommand "j" "s" 0 [] Ephemeral None) 1 t = (Err refused, t) ∧
    mark_completed cp 1 0 t = (Err refused, t) ∧
    commit_turn cp None 1 t = (Err refused, t) ∧
    park_approval cp [] 1 t = (Err refused, t) ∧
    append_trace "s" 0 (mkTraceEntry 0 [] []) (Some 1) t = (Err refused, t) ∧
    commit_trace_segment "s" 0 [] [] (Some 1) t = (Err refused, t).
Proof.
  apply (lease_exclusive 1 demo_store "s" 1 (acquire_activation_lease "s" demo_store).2 [] 2
           (acquire_activation_lease "s" (acquire_activation_lease "s" demo_store).2).2
           [OpEnqueueWake "s"] (Checkpoint_new "s" 1 []) (mkJobCommand "j" "s" 0 [] Ephemeral None) None [] 0 0
           (mkTraceEntry 0 [] []) [] [] demo_store_reachable);
    vm_compute; reflexivity.
Defined.
