(* ===== verification/StoreCommit.v ===== *)
(** * Commits

    What each commit path writes on success, and what an error leaves behind. *)

From S2P Require Import Prelude Text Common Approval StoreTypes Store StoreInv Journal Registry.
From S2P Require Import StoreSteps StoreHistory StoreLease.

#[local] Open Scope N_scope.
#[local] Open Scope daemon_scope.

(** ** The turn commit *)

(** The inbox of the committing session once the watermark is applied. *)
Definition committed_inbox (cp : Checkpoint) (turn : N) (s : Inner) : list InboxSplice :=
  match cp_consumed_splices cp with
  | Some up_to => consume_row up_to turn <$> entry_vec (in_splices s) (cp_session_id cp)
  | None => entry_vec (in_splices s) (cp_session_id cp)
  end.

(** The completions of the committing session the checkpoint did not fold in. *)
Definition leftover (cp : Checkpoint) (s : Inner) : list JobCompletion :=
  List.filter (λ c, negb (is_applied (cp_applied_completions cp) c))
    (entry_vec (in_unapplied s) (cp_session_id cp)).

Lemma consume_checkpoint_run cp turn s :
  consume_checkpoint cp turn s =
    (Ok tt, match cp_consumed_splices cp with
            | Some up_to => consume_splices_locked (cp_session_id cp) up_to turn s
            | None => s
            end).
Proof. unfold consume_checkpoint. by destruct (cp_consumed_splices cp). Qed.

Definition consume_checkpoint_state (cp : Checkpoint) (turn : N) (s : Inner) : Inner :=
  (consume_checkpoint cp turn s).2.

Lemma consumed_inbox cp turn s :
  entry_vec (in_splices (consume_checkpoint_state cp turn s)) (cp_session_id cp) =
  committed_inbox cp turn s.
Proof.
  unfold consume_checkpoint_state, committed_inbox. rewrite consume_checkpoint_run. simpl.
  destruct (cp_consumed_splices cp) as [u|]; [|done]. unfold consume_splices_locked.
  destruct (in_splices s !! _) as [rows|] eqn:E; simpl.
  - rewrite entry_vec_insert, decide_True by done. unfold entry_vec. by rewrite E.
  - unfold entry_vec. by rewrite E.
Qed.

Lemma consumed_inbox_other cp turn s j :
  j ≠ cp_session_id cp →
  entry_vec (in_splices (consume_checkpoint_state cp turn s)) j = entry_vec (in_splices s) j.
Proof.
  intros Hj. unfold consume_checkpoint_state. rewrite consume_checkpoint_run. simpl.
  destruct (cp_consumed_splices cp) as [u|]; [|done]. unfold consume_splices_locked.
  case_match; [|done]. simpl. by rewrite entry_vec_insert, decide_False.
Qed.

(** Everything but the inbox is as before. *)
Definition inbox_only (s s' : Inner) : Prop :=
  s' = s <| in_splices := in_splices s' |>.

Lemma consume_inbox_only cp turn s : inbox_only s (consume_checkpoint_state cp turn s).
Proof.
  unfold inbox_only, consume_checkpoint_state. rewrite consume_checkpoint_run. simpl.
  destruct (cp_consumed_splices cp) as [u|]; [|by destruct s]. unfold consume_splices_locked.
  case_match; by destruct s.
Qed.

Lemma is_applied_nil c : is_applied [] c = false.
Proof. done. Qed.

Lemma drop_applied_vec id keys s :
  entry_vec (in_unapplied (drop_applied id keys s)) id =
  List.filter (λ c, negb (is_applied keys c)) (entry_vec (in_unapplied s) id).
Proof.
  unfold drop_applied. destruct keys as [|k keys].
  { induction (entry_vec (in_unapplied s) id) as [|c l IH]; [done|]. simpl. f_equal. exact IH. }
  destruct (in_unapplied s !! id) as [rows|] eqn:E; simpl.
  - rewrite entry_vec_insert, decide_True by done. unfold entry_vec. by rewrite E.
  - unfold entry_vec. by rewrite E.
Qed.

Lemma drop_applied_other id keys s j :
  j ≠ id → entry_vec (in_unapplied (drop_applied id keys s)) j = entry_vec (in_unapplied s) j.
Proof.
  intros Hj. unfold drop_applied. repeat case_match; try done.
  simpl. by rewrite entry_vec_insert, decide_False.
Qed.

(** The status a turn commit computes inside the transaction. *)
Definition boundary_status (cp : Checkpoint) (turn : N) (s : Inner) : SessionStatus :=
  if existsb unconsumed (committed_inbox cp turn s) ||
     match leftover cp s with [] => false | _ => true end
  then Ready else Idle.

(** What a successful turn commit leaves: the row advanced one turn, the inbox
    consumed up to the watermark, the folded completions dropped, the segment
    sealed, and the session [Ready] and woken exactly when work is left. *)
Record turn_committed (cp : Checkpoint) (seal : option TurnSeal) (r : SessionRecord)
    (s s' : Inner) : Prop := {
  tcd_row : in_sessions s' = <[cp_session_id cp :=
    mkSessionRecord (sr_session_id r) (sr_partition r) (cp_epoch cp)
      (boundary_status cp (sr_turn_seq r) s) (cp_snapshot cp) (sr_fence r) (sr_turn_seq r +₆₄ 1)]>
    (in_sessions s);
  tcd_inbox : entry_vec (in_splices s') (cp_session_id cp) = committed_inbox cp (sr_turn_seq r) s;
  tcd_inbox_other : ∀ j, j ≠ cp_session_id cp →
    entry_vec (in_splices s') j = entry_vec (in_splices s) j;
  tcd_unapplied : entry_vec (in_unapplied s') (cp_session_id cp) = leftover cp s;
  tcd_unapplied_other : ∀ j, j ≠ cp_session_id cp →
    entry_vec (in_unapplied s') j = entry_vec (in_unapplied s) j;
  tcd_roots : in_journal_roots s' = in_journal_roots (seal_turn (cp_session_id cp) seal s);
  tcd_wake : in_wake_outbox s' = in_wake_outbox s ++
    match boundary_status cp (sr_turn_seq r) s with Ready => [cp_session_id cp] | _ => [] end;
  tcd_frame : in_inbox_keys s' = in_inbox_keys s ∧ in_job_outbox s' = in_job_outbox s ∧
    in_journal_entries s' = in_journal_entries s ∧ in_splice_seq s' = in_splice_seq s ∧
    in_pending_approvals s' = in_pending_approvals s ∧ in_fault s' = in_fault s
}.

Lemma drop_unapplied_only id keys s :
  drop_applied id keys s = s <| in_unapplied := in_unapplied (drop_applied id keys s) |>.
Proof. unfold drop_applied. destruct keys; [by destruct s|]. case_match; by destruct s. Qed.

Lemma seal_roots_only id seal s :
  seal_turn id seal s = s <| in_journal_roots := in_journal_roots (seal_turn id seal s) |>.
Proof. destruct seal; by destruct s. Qed.

(** The state just before the status is computed, by table. *)
Definition before_status (cp : Checkpoint) (seal : option TurnSeal) (rec1 : SessionRecord)
    (turn : N) (s : Inner) : Inner :=
  seal_turn (cp_session_id cp) seal
    (drop_applied (cp_session_id cp) (cp_applied_completions cp)
      (consume_checkpoint_state cp turn (put_session (cp_session_id cp) rec1 s))).

Lemma before_status_eq cp seal rec1 turn s :
  let s1 := before_status cp seal rec1 turn s in
  s1 = put_session (cp_session_id cp) rec1 s
         <| in_splices := in_splices s1 |> <| in_unapplied := in_unapplied s1 |>
         <| in_journal_roots := in_journal_roots s1 |>.
Proof.
  unfold before_status. rewrite seal_roots_only. simpl. rewrite drop_unapplied_only. simpl.
  rewrite (consume_inbox_only cp turn (put_session (cp_session_id cp) rec1 s)). done.
Qed.

Lemma check_seal_ok seal turn s : seal_mismatch seal turn = None → check_seal seal turn s = (Ok tt, s).
Proof. intros H. unfold check_seal. by rewrite H. Qed.

(** The guards of a commit, passed. *)
Record commit_guards (id : SessionId) (seal : option TurnSeal) (f : FenceToken) (r : SessionRecord)
    (s : Inner) : Prop := {
  cg_row : in_sessions s !! id = Some r;
  cg_fence : sr_fence r ≤ f;
  cg_seal : seal_mismatch seal (sr_turn_seq r) = None;
  cg_fault : in_fault s ≠ Some BeforeSnapshot
}.

Definition advanced (cp : Checkpoint) (r : SessionRecord) : SessionRecord :=
  r <| sr_snapshot := cp_snapshot cp |> <| sr_epoch := cp_epoch cp |>
    <| sr_turn_seq := sr_turn_seq r +₆₄ 1 |>.

Lemma commit_turn_run cp seal f s r :
  commit_guards (cp_session_id cp) seal f r s →
  let id := cp_session_id cp in
  let s1 := before_status cp seal (advanced cp r) (sr_turn_seq r) s in
  let st := if has_pending_splices s1 id || has_unapplied s1 id then Ready else Idle in
  let s2 := put_session id (advanced cp r <| sr_status := st |>) s1 in
  commit_turn cp seal f s =
    (Ok (mkTurnCommit (sr_turn_seq r) st), match st with Ready => enqueue_wake id s2 | _ => s2 end).
Proof.
  intros [Hr Hf Hs Hfault]. cbv zeta. unfold commit_turn.
  erewrite M_bind_ok by (by apply find_session_Some).
  erewrite M_bind_ok by (by apply check_fence_ok).
  erewrite M_bind_ok by (by apply check_seal_ok).
  erewrite M_bind_ok by (by apply take_fault_none).
  erewrite M_bind_ok by reflexivity.
  erewrite M_bind_ok by apply consume_checkpoint_run.
  erewrite M_bind_ok by reflexivity. erewrite M_bind_ok by reflexivity.
  erewrite M_bind_ok by reflexivity. erewrite M_bind_ok by reflexivity.
  unfold before_status, consume_checkpoint_state. rewrite consume_checkpoint_run. cbn [snd].
  fold (advanced cp r). by destruct (has_pending_splices _ _ || has_unapplied _ _).
Qed.

Lemma before_status_inbox cp seal r s :
  entry_vec (in_splices (before_status cp seal (advanced cp r) (sr_turn_seq r) s)) (cp_session_id cp) =
  committed_inbox cp (sr_turn_seq r) s.
Proof.
  unfold before_status. rewrite seal_roots_only, drop_unapplied_only.
  cbn [in_splices update]. by rewrite consumed_inbox.
Qed.

Lemma before_status_unapplied cp seal r s :
  entry_vec (in_unapplied (before_status cp seal (advanced cp r) (sr_turn_seq r) s)) (cp_session_id cp) =
  leftover cp s.
Proof.
  unfold before_status. rewrite seal_roots_only. cbn [in_unapplied update].
  rewrite drop_applied_vec, consume_inbox_only. done.
Qed.

Lemma before_status_boundary cp seal r s :
  let s1 := before_status cp seal (advanced cp r) (sr_turn_seq r) s in
  (if has_pending_splices s1 (cp_session_id cp) || has_unapplied s1 (cp_session_id cp)
   then Ready else Idle) = boundary_status cp (sr_turn_seq r) s.
Proof.
  cbv zeta. unfold has_pending_splices, has_unapplied, boundary_status.
  by rewrite before_status_inbox, before_status_unapplied.
Qed.

Lemma boundary_status_cases cp turn s :
  boundary_status cp turn s = Ready ∨ boundary_status cp turn s = Idle.
Proof. unfold boundary_status. case_match; auto. Qed.

Lemma commit_turn_committed cp seal f r s :
  commit_guards (cp_session_id cp) seal f r s →
  ∃ s', commit_turn cp seal f s =
      (Ok (mkTurnCommit (sr_turn_seq r) (boundary_status cp (sr_turn_seq r) s)), s') ∧
    turn_committed cp seal r s s'.
Proof.
  intros Hg. pose proof (commit_turn_run cp seal f s r Hg) as Hrun. cbv zeta in Hrun.
  rewrite before_status_boundary in Hrun. rewrite Hrun. eexists; split; [reflexivity|].
  clear Hrun. pose proof (before_status_inbox cp seal r s) as Hi.
  pose proof (before_status_unapplied cp seal r s) as Hu.
  assert (∀ j, j ≠ cp_session_id cp → entry_vec (in_splices
    (before_status cp seal (advanced cp r) (sr_turn_seq r) s)) j = entry_vec (in_splices s) j) as Hio.
  { intros j Hj. unfold before_status. rewrite seal_roots_only, drop_unapplied_only.
    cbn [in_splices update]. by rewrite consumed_inbox_other. }
  assert (∀ j, j ≠ cp_session_id cp → entry_vec (in_unapplied
    (before_status cp seal (advanced cp r) (sr_turn_seq r) s)) j = entry_vec (in_unapplied s) j) as Huo.
  { intros j Hj. unfold before_status. rewrite seal_roots_only. cbn [in_unapplied update].
    by rewrite drop_applied_other, consume_inbox_only. }
  assert (in_journal_roots (before_status cp seal (advanced cp r) (sr_turn_seq r) s) =
    in_journal_roots (seal_turn (cp_session_id cp) seal s)) as Hroots.
  { unfold before_status. destruct seal; simpl; by rewrite drop_unapplied_only, consume_inbox_only. }
  rewrite (before_status_eq cp seal) in *. revert Hi Hu Hio Huo Hroots.
  set (x := in_splices (before_status _ _ _ _ _)). set (y := in_unapplied (before_status _ _ _ _ _)).
  set (z := in_journal_roots (before_status _ _ _ _ _)). intros Hi Hu Hio Huo Hroots.
  destruct (boundary_status_cases cp (sr_turn_seq r) s) as [Hst|Hst]; rewrite Hst;
    constructor; rewrite ?Hst; simpl; try done; try (by rewrite insert_insert_eq);
    by rewrite app_nil_r.
Qed.

(** A row the commit leaves as work: unconsumed and beyond the watermark. *)
Definition beyond (cp : Checkpoint) (row : InboxSplice) : Prop :=
  unconsumed row = true ∧
  match cp_consumed_splices cp with Some up_to => up_to < is_splice_seq row | None => True end.

Lemma unconsumed_consume u t row :
  unconsumed (consume_row u t row) = unconsumed row && (u <? is_splice_seq row).
Proof.
  unfold consume_row, unconsumed. rewrite N.leb_antisym.
  destruct (u <? is_splice_seq row), (is_claim row) eqn:E; simpl; by rewrite ?E.
Qed.

Lemma committed_inbox_work cp turn s :
  existsb unconsumed (committed_inbox cp turn s) = true ↔
  ∃ row, row ∈ entry_vec (in_splices s) (cp_session_id cp) ∧ beyond cp row.
Proof.
  unfold committed_inbox, beyond. destruct (cp_consumed_splices cp) as [u|].
  - rewrite existsb_true_Exists, Exists_fmap, Exists_exists.
    apply exist_proper. intros row. simpl. rewrite unconsumed_consume, andb_true_iff, N.ltb_lt. done.
  - rewrite existsb_true_Exists, Exists_exists. naive_solver.
Qed.

Lemma is_applied_spec keys c : is_applied keys c = true ↔ (jp_epoch c, jp_job_id c) ∈ keys.
Proof.
  unfold is_applied. rewrite existsb_true_Exists, Exists_exists. split.
  - intros ([e j] & Hin & Hk). apply andb_true_iff in Hk as [->%N.eqb_eq ->%bool_decide_eq_true].
    done.
  - intros Hin. eexists; split; [exact Hin|]. simpl. by rewrite N.eqb_refl, bool_decide_eq_true_2.
Qed.

Lemma elem_of_leftover cp s c :
  c ∈ leftover cp s ↔ c ∈ entry_vec (in_unapplied s) (cp_session_id cp) ∧
    (jp_epoch c, jp_job_id c) ∉ cp_applied_completions cp.
Proof.
  unfold leftover. rewrite list_elem_of_In, filter_In, <- list_elem_of_In, negb_true_iff.
  rewrite <- is_applied_spec, not_true_iff_false. done.
Qed.

Lemma boundary_status_spec cp turn s :
  boundary_status cp turn s = Ready ↔
    (∃ row, row ∈ entry_vec (in_splices s) (cp_session_id cp) ∧ beyond cp row) ∨
    (∃ c, c ∈ entry_vec (in_unapplied s) (cp_session_id cp) ∧
       (jp_epoch c, jp_job_id c) ∉ cp_applied_completions cp).
Proof.
  rewrite <- (committed_inbox_work cp turn). setoid_rewrite <- elem_of_leftover.
  unfold boundary_status. destruct (existsb _ _), (leftover cp s) as [|c l]; simpl; split; try by auto.
  - by intros [?|(c & Hc%not_elem_of_nil)].
  - intros _. right. exists c. by left.
Qed.

(** C7. The turn boundary commits in one step: a call that passes the fence,
    seal and fault guards returns the turn it sealed, replaces the snapshot and
    epoch, advances the turn counter, consumes exactly the rows up to the
    watermark, drops exactly the folded completions, seals the segment root,
    touches no other session's work, and leaves the session [Ready] with one
    wake queued if and only if some row beyond the watermark or some completion
    not folded in remains; otherwise the session is [Idle] and nothing is
    queued. *)
Theorem commit_turn_correct cp seal f r s :
  commit_guards (cp_session_id cp) seal f r s →
  ∃ st s', commit_turn cp seal f s = (Ok (mkTurnCommit (sr_turn_seq r) st), s') ∧
    turn_committed cp seal r s s' ∧
    (st = Ready ∨ st = Idle) ∧ status s' (cp_session_id cp) = Some st ∧
    (st = Ready ↔
      (∃ row, row ∈ entry_vec (in_splices s) (cp_session_id cp) ∧ beyond cp row) ∨
      (∃ c, c ∈ entry_vec (in_unapplied s) (cp_session_id cp) ∧
         (jp_epoch c, jp_job_id c) ∉ cp_applied_completions cp)).
Proof.
  intros Hg. destruct (commit_turn_committed cp seal f r s Hg) as (s' & Hrun & Hs').
  eexists _, s'. split_and!; [exact Hrun|done|apply boundary_status_cases| |apply boundary_status_spec].
  unfold status. rewrite (tcd_row _ _ _ _ _ Hs'), lookup_insert_eq. done.
Qed.

(** A store whose session ["s"] holds the first lease and two inbox rows. *)
Definition demo_inbox : Inner :=
  run_ops [OpAppendSplice (mkNewSplice "s" StartTurn [] "op1" "t") 5;
           OpAppendSplice (mkNewSplice "s" Steer [] "op2" "t") 6; OpAcquireLease "s"] demo_store.

Lemma demo_inbox_reachable : reachable 4 demo_inbox.
Proof. exact (reachable_run_ops 1 demo_store [_; _; _] demo_store_reachable). Qed.

Lemma commit_turn_correct_witness :
  ∃ s', commit_turn (with_consumed_splices (Checkpoint_new "s" 1 []) (Some 1)) None 1 demo_inbox =
    (Ok (mkTurnCommit 0 Ready), s').
Proof.
  destruct (commit_turn_correct (with_consumed_splices (Checkpoint_new "s" 1 []) (Some 1)) None 1
    (mkSessionRecord "s" 0 0 Active [] 1 0) demo_inbox) as (st & s' & Hrun & _ & _ & _ & Hready).
  - constructor; [vm_compute; reflexivity|vm_compute; discriminate|reflexivity|discriminate].
  - exists s'. rewrite Hrun. do 3 f_equal. apply Hready. left.
    eexists. split; [apply (list_elem_of_lookup_2 _ 1); vm_compute; reflexivity|].
    split; vm_compute; reflexivity.
Defined.

(** ** Errors of the commits *)

(** Firing a fault disarms it; nothing else changes. *)
Definition disarmed (s : Inner) : Inner := s <| in_fault := None |>.

(** A refused turn commit writes nothing: the error is [NotFound] for an
    unknown session, [Fenced] for a stale token, the typed seal error when the
    presented segment is not the turn in flight, or the injected fault, tested
    in this order, and the store is as before (a fired fault is disarmed). *)
Theorem commit_turn_errors cp seal f s e s' :
  commit_turn cp seal f s = (Err e, s') →
  let id := cp_session_id cp in
  (in_sessions s !! id = None ∧ e = NotFound id ∧ s' = s) ∨
  ∃ r, in_sessions s !! id = Some r ∧
    ((f < sr_fence r ∧ e = Fenced f (sr_fence r) ∧ s' = s) ∨
     sr_fence r ≤ f ∧
     ((∃ seg, seal_mismatch seal (sr_turn_seq r) = Some seg ∧ (∃ m, e = CommonErr (DE_Other m)) ∧ s' = s) ∨
      seal_mismatch seal (sr_turn_seq r) = None ∧
        in_fault s = Some BeforeSnapshot ∧ e = Fault BeforeSnapshot ∧ s' = disarmed s)).
Proof.
  intros H id. destruct (in_sessions s !! id) as [r|] eqn:Hr; [right; exists r; split; [done|]|left].
  2: { unfold commit_turn in H. erewrite M_bind_err in H by (by apply find_session_None).
       by simplify_eq. }
  destruct (N.lt_ge_cases f (sr_fence r)) as [Hf|Hf]; [left|right].
  { rewrite (commit_turn_fenced cp seal f r s Hr Hf) in H. by simplify_eq. }
  split; [done|]. destruct (seal_mismatch seal (sr_turn_seq r)) as [seg|] eqn:Hs; [left|right].
  { unfold commit_turn in H. erewrite M_bind_ok in H by (by apply find_session_Some).
    erewrite M_bind_ok in H by (by apply check_fence_ok).
    unfold check_seal in H. rewrite Hs in H. erewrite M_bind_err in H by reflexivity.
    exists seg. simplify_eq. eauto. }
  split; [done|]. destruct (decide (in_fault s = Some BeforeSnapshot)) as [Hx|Hx].
  - unfold commit_turn in H. erewrite M_bind_ok in H by (by apply find_session_Some).
    erewrite M_bind_ok in H by (by apply check_fence_ok).
    erewrite M_bind_ok in H by (by apply check_seal_ok).
    erewrite M_bind_err in H by (by apply take_fault_armed). by simplify_eq.
  - destruct (commit_turn_committed cp seal f r s) as (s1 & Hrun & _); [done|].
    rewrite Hrun in H. discriminate.
Qed.

Lemma commit_turn_errors_witness :
  ∃ m, (commit_turn (Checkpoint_new "s" 1 []) (Some (mkTurnSeal 7 [] [])) 1 demo_inbox).1 =
    Err (CommonErr (DE_Other m)).
Proof.
  destruct (commit_turn_errors (Checkpoint_new "s" 1 []) (Some (mkTurnSeal 7 [] [])) 1 demo_inbox
    (CommonErr (DE_Other ("commit_turn: seal segment 7 != in-flight turn 0 (incarnation bug)")))
    demo_inbox) as [(H & _)|(r & Hr & [(_ & H & _)|(_ & [(seg & _ & (m & Hm) & _)|(_ & _ & H & _)])])];
    [vm_compute; reflexivity|discriminate..| |discriminate].
  exists m. rewrite <- Hm. vm_compute. reflexivity.
Defined.

(** ** The suspension commit *)

Lemma checkpoint_run cp job f r s :
  in_sessions s !! cp_session_id cp = Some r → sr_fence r ≤ f → in_fault s ≠ Some BeforeSnapshot →
  let s1 := consume_checkpoint_state cp (sr_turn_seq r) (enqueue_job job
    (put_session (cp_session_id cp) (r <| sr_snapshot := cp_snapshot cp |> <| sr_epoch := cp_epoch cp |>
      <| sr_status := Suspended (jc_job_id job) |>) s)) in
  checkpoint_and_enqueue cp job f s = (_ ← take_fault AfterSnapshot; take_fault AfterJobOutbox) s1.
Proof.
  intros Hr Hf Hx. cbv zeta. unfold checkpoint_and_enqueue.
  erewrite M_bind_ok by (by apply find_session_Some).
  erewrite M_bind_ok by (by apply check_fence_ok).
  erewrite M_bind_ok by (by apply take_fault_none).
  erewrite M_bind_ok by reflexivity. erewrite M_bind_ok by reflexivity.
  unfold consume_checkpoint_state. rewrite consume_checkpoint_run. cbn [snd].
  by erewrite M_bind_ok by apply consume_checkpoint_run.
Qed.

Lemma fault_enqueue_job job s : in_fault (enqueue_job job s) = in_fault s.
Proof. unfold enqueue_job. by case_decide. Qed.

Lemma fault_consume cp turn s : in_fault (consume_checkpoint_state cp turn s) = in_fault s.
Proof. by rewrite consume_inbox_only. Qed.

(** The writes of the suspension commit do not look at the fault slot. *)
Lemma consume_disarm cp turn s :
  consume_checkpoint_state cp turn (disarmed s) = disarmed (consume_checkpoint_state cp turn s).
Proof.
  unfold consume_checkpoint_state. rewrite !consume_checkpoint_run. cbn [snd].
  destruct (cp_consumed_splices cp); [|done]. unfold consume_splices_locked. simpl. by case_match.
Qed.
Lemma enqueue_job_disarm job s : enqueue_job job (disarmed s) = disarmed (enqueue_job job s).
Proof. unfold enqueue_job. simpl. by case_decide. Qed.

(** The suspension commit is crash-consistent: whichever crash point is
    armed, the store ends either exactly as it was, or exactly as the same call
    leaves it with no crash point armed, the slot disarmed in both cases.  A
    snapshot is never kept without its job. *)
Theorem checkpoint_crash_consistent cp job f s :
  let s' := (checkpoint_and_enqueue cp job f s).2 in
  let clean := (checkpoint_and_enqueue cp job f (disarmed s)).2 in
  disarmed s' = disarmed s ∨ disarmed s' = clean.
Proof.
  cbv zeta. destruct (in_sessions s !! cp_session_id cp) as [r|] eqn:Hr.
  2: { left. unfold checkpoint_and_enqueue. by erewrite M_bind_err by (by apply find_session_None). }
  destruct (N.lt_ge_cases f (sr_fence r)) as [Hf|Hf].
  { left. by rewrite (checkpoint_fenced cp job f r s Hr Hf). }
  destruct (decide (in_fault s = Some BeforeSnapshot)) as [Hx|Hx].
  { left. unfold checkpoint_and_enqueue. erewrite M_bind_ok by (by apply find_session_Some).
    erewrite M_bind_ok by (by apply check_fence_ok).
    by erewrite M_bind_err by (by apply take_fault_armed). }
  right. rewrite (checkpoint_run cp job f r s), (checkpoint_run cp job f r (disarmed s)) by done.
  change (put_session ?i ?x (disarmed s)) with (disarmed (put_session i x s)).
  rewrite enqueue_job_disarm, consume_disarm.
  set (s1 := consume_checkpoint_state _ _ _). unfold mbind, M_bind, take_fault.
  repeat (case_decide; simpl in *); done.
Qed.

(** ** The terminal commit *)

(** The completion a terminal child owes its parent. *)
Definition owed_completion (cp : Checkpoint) (job : JobCommand) : JobCompletion :=
  mkJobCompletion (jc_session_id job) (jc_epoch job) (jc_job_id job) (terminal_payload cp).

Definition completed_row (cp : Checkpoint) (r : SessionRecord) : SessionRecord :=
  r <| sr_snapshot := cp_snapshot cp |> <| sr_epoch := cp_epoch cp |>
    <| sr_status := Completed |> <| sr_turn_seq := sr_turn_seq r +₆₄ 1 |>.

(** The store once the row, the inbox and the terminal stamp are written. *)
Definition settled (cp : Checkpoint) (r : SessionRecord) (now : N) (s : Inner) : Inner :=
  stamp_terminal (cp_session_id cp) now
    (consume_checkpoint_state cp (sr_turn_seq r) (put_session (cp_session_id cp) (completed_row cp r) s)).

Lemma settled_eq cp r now s :
  settled cp r now s =
  put_session (cp_session_id cp) (completed_row cp r) s
    <| in_splices := in_splices (settled cp r now s) |>
    <| in_session_meta := in_session_meta (settled cp r now s) |>.
Proof.
  unfold settled, stamp_terminal. simpl.
  by rewrite (consume_inbox_only cp _ (put_session (cp_session_id cp) (completed_row cp r) s)).
Qed.

Lemma mark_completed_run cp f now r s :
  in_sessions s !! cp_session_id cp = Some r → sr_fence r ≤ f →
  mark_completed cp f now s =
    (_ ← fulfil_delegation cp; modify (fire_notice cp)) (settled cp r now s).
Proof.
  intros Hr Hf. unfold mark_completed.
  erewrite M_bind_ok by (by apply find_session_Some).
  erewrite M_bind_ok by (by apply check_fence_ok).
  erewrite M_bind_ok by reflexivity. erewrite M_bind_ok by apply consume_checkpoint_run.
  erewrite M_bind_ok by reflexivity.
  unfold settled, consume_checkpoint_state. by rewrite consume_checkpoint_run.
Qed.

Lemma apply_and_wake_run c s :
  apply_and_wake c s =
    (Ok tt, let '(fresh, s1) := apply_completion_locked c s in
            if fresh then enqueue_wake (jp_session_id c) s1 else s1).
Proof.
  unfold apply_and_wake, apply_completion, mbind, M_bind.
  by destruct (apply_completion_locked c s) as [[] s1].
Qed.

(** Delivering a completion to an existing session: what a fresh one and a
    known one do. *)
Definition delivered (c : JobCompletion) (s s' : Inner) : Prop :=
  if decide (completion_key c ∈ in_inbox_keys s) then s' = s
  else ∃ r, in_sessions s !! jp_session_id c = Some r ∧
    s' = s <| in_inbox_keys := {[completion_key c]} ∪ in_inbox_keys s |>
           <| in_unapplied := entry_push (in_unapplied s) (jp_session_id c) c |>
           <| in_sessions := <[jp_session_id c := r <| sr_status := Ready |>]> (in_sessions s) |>
           <| in_wake_outbox := in_wake_outbox s ++ [jp_session_id c] |>.

Lemma apply_and_wake_delivered c s :
  is_Some (in_sessions s !! jp_session_id c) → delivered c s (apply_and_wake c s).2.
Proof.
  intros [r Hr]. rewrite apply_and_wake_run. unfold delivered, apply_completion_locked.
  fold (completion_key c). case_decide; [done|]. simpl. rewrite Hr. by exists r.
Qed.

(** What the delegation half does to a settled store. *)
Lemma fulfil_delegation_effect cp s :
  let s2 := (fulfil_delegation cp s).2 in
  (fulfil_delegation cp s).1 = Ok tt ∧
  match in_delegations s !! cp_session_id cp with
  | Some job =>
      if decide (is_Some (in_sessions s !! jc_session_id job))
      then delivered (owed_completion cp job) s s2 else s2 = s
  | None => s2 = s
  end.
Proof.
  unfold fulfil_delegation, mbind, M_bind, get. simpl.
  destruct (in_delegations s !! cp_session_id cp) as [job|]; [|done].
  destruct (in_sessions s !! jc_session_id job) eqn:E.
  - split; [by rewrite apply_and_wake_run|]. rewrite decide_True by eauto.
    apply apply_and_wake_delivered. simpl. eauto.
  - by rewrite decide_False by (intros [? ?]; done).
Qed.

Lemma fulfil_delegation_notices cp s :
  let s2 := (fulfil_delegation cp s).2 in
  in_notice_outbox s2 = in_notice_outbox s ∧
  in_completion_notices s2 = in_completion_notices s ∧ in_notices_fired s2 = in_notices_fired s.
Proof.
  destruct (fulfil_delegation_effect cp s) as [_ H]. cbv zeta.
  destruct (in_delegations s !! _); [|by rewrite H]. case_decide; [|by rewrite H].
  unfold delivered in H. case_decide; [by rewrite H|]. by destruct H as (? & _ & ->).
Qed.

Lemma fire_notice_outbox cp s :
  in_notice_outbox (fire_notice cp s) = in_notice_outbox s ++
    match in_completion_notices s !! cp_session_id cp with
    | Some (parent, call_id) =>
        if decide (cp_session_id cp ∈ in_notices_fired s) then []
        else [mkCompletionNotice parent (cp_session_id cp) call_id (terminal_payload cp)]
    | None => []
    end.
Proof.
  unfold fire_notice. destruct (in_completion_notices s !! _) as [[p i]|]; [|by rewrite app_nil_r].
  case_decide; simpl; [by rewrite app_nil_r|done].
Qed.

Lemma settled_sessions cp r now s j :
  in_sessions s !! cp_session_id cp = Some r →
  is_Some (in_sessions (settled cp r now s) !! j) ↔ is_Some (in_sessions s !! j).
Proof.
  intros Hr. rewrite settled_eq. simpl.
  destruct (decide (cp_session_id cp = j)); simplify_map_eq; [|done]. split; eauto.
Qed.

(** A terminal commit is one step that settles the session and informs
    its parent: the row is [Completed] one turn later and stamped, its inbox
    consumed; a delegating parent is delivered the owed completion (queued,
    made [Ready] and woken the first time, untouched on a repeat); a
    notice-bound parent gets one notice, the first time only. *)
Theorem mark_completed_correct cp f now r s :
  in_sessions s !! cp_session_id cp = Some r → sr_fence r ≤ f →
  ∃ s1 s2, settled cp r now s = s1 ∧
    mark_completed cp f now s = (Ok tt, fire_notice cp s2) ∧
    status s1 (cp_session_id cp) = Some Completed ∧
    (sm_terminal_ms <$> session_meta s1 (cp_session_id cp)) = Some (Some now) ∧
    entry_vec (in_splices s1) (cp_session_id cp) = committed_inbox cp (sr_turn_seq r) s ∧
    match in_delegations s !! cp_session_id cp with
    | Some job =>
        if decide (is_Some (in_sessions s !! jc_session_id job))
        then delivered (owed_completion cp job) s1 s2
        else s2 = s1
    | None => s2 = s1
    end ∧
    in_notice_outbox (fire_notice cp s2) = in_notice_outbox s ++
      match in_completion_notices s !! cp_session_id cp with
      | Some (parent, call_id) =>
          if decide (cp_session_id cp ∈ in_notices_fired s) then []
          else [mkCompletionNotice parent (cp_session_id cp) call_id (terminal_payload cp)]
      | None => []
      end.
Proof.
  intros Hr Hf. set (s1 := settled cp r now s).
  destruct (fulfil_delegation_effect cp s1) as [Hok Hdel].
  destruct (fulfil_delegation_notices cp s1) as (H1 & H2 & H3).
  pose proof (settled_eq cp r now s) as Heq. fold s1 in Heq.
  exists s1, (fulfil_delegation cp s1).2. split_and!; [done|..].
  - rewrite (mark_completed_run cp f now r s Hr Hf). fold s1. unfold mbind, M_bind at 1.
    by destruct (fulfil_delegation cp s1) as [[[]|e] s2].
  - rewrite Heq. unfold status. by simplify_map_eq.
  - unfold s1, settled, session_meta, stamp_terminal. simpl. by simplify_map_eq.
  - unfold s1, settled. simpl. by rewrite consumed_inbox.
  - replace (in_delegations s1) with (in_delegations s) in Hdel by (by rewrite Heq).
    destruct (in_delegations s !! cp_session_id cp) as [job|]; [|done].
    pose proof (settled_sessions cp r now s (jc_session_id job) Hr) as Hiff. fold s1 in Hiff.
    case_decide; case_decide; tauto.
  - rewrite fire_notice_outbox, H1, H2, H3, Heq. done.
Qed.

(** A parent ["p"] delegated to ["c"], and ["c"] holds its first lease. *)
Definition demo_delegation : Inner :=
  run_ops [OpCreateSession "p" 0 []; OpCreateSession "c" 0 [];
           OpBindDelegation "c" (mkJobCommand "job" "p" 3 [] Ephemeral None); OpAcquireLease "c"]
    InMemoryStore_new.

Lemma mark_completed_correct_witness :
  let s' := (mark_completed (Checkpoint_new "c" 1 []) 1 9 demo_delegation).2 in
  in_wake_outbox s' = ["p"] ∧ status s' "p" = Some Ready.
Proof.
  destruct (mark_completed_correct (Checkpoint_new "c" 1 []) 1 9
    (mkSessionRecord "c" 0 0 Active [] 1 0) demo_delegation eq_refl ltac:(done))
    as (s1 & s2 & <- & -> & _ & _ & _ & Hd & _).
  vm_compute in Hd. destruct Hd as (r & Hr & ->). split; [|vm_compute]; reflexivity.
Defined.
