(* ===== verification/StoreInbox.v ===== *)
(** * The durable inbox

    Ordering, deduplication, claims and consumption, over whole executions. *)

From S2P Require Import Prelude Text Common Approval StoreTypes Store StoreInv Journal Registry.
From S2P Require Import StoreSteps StoreHistory StoreLease StoreCommit.

#[local] Open Scope N_scope.
#[local] Open Scope daemon_scope.

(** ** The status rule *)

(** C4. In every reachable store an [Idle] session has no work: no pending
    or claimed inbox row and no unapplied completion.  Whatever the operations
    run, a session with work left is never parked as [Idle]. *)
Theorem idle_has_no_work n s id r :
  reachable n s → in_sessions s !! id = Some r → sr_status r = Idle →
  splices_after s id 0 = [] ∧ entry_vec (in_unapplied s) id = [].
Proof.
  intros Hn Hr Hi. destruct (rows_idle _ _ _ _ (reachable_rows n s Hn) id r Hr Hi) as [H1 H2].
  split; [|done]. unfold splices_after. apply existsb_false_Forall in H1.
  apply elem_of_nil_inv. intros row [[_ Hc] Hin]%list_elem_of_filter.
  rewrite Forall_forall in H1. specialize (H1 row Hin). unfold unconsumed in H1.
  by rewrite Hc in H1.
Qed.

Lemma idle_has_no_work_witness :
  splices_after (commit_turn (with_consumed_splices (Checkpoint_new "s" 1 []) (Some 2)) None 1 demo_inbox).2
    "s" 0 = [].
Proof.
  apply (idle_has_no_work 5 _ "s" (mkSessionRecord "s" 0 1 Idle [] 1 1)).
  - apply (reachable_step 4 demo_inbox (OpCommitTurn _ _ _) demo_inbox_reachable).
  - vm_compute. reflexivity.
  - reflexivity.
Defined.

(** ** Order, identity and permanence of rows *)

(** In every reachable store a session's inbox is in strictly increasing
    sequence order from 1, every row belongs to the session, and no two rows
    carry the same idempotency key. *)
Theorem inbox_ordered n s id :
  reachable n s → in_range n →
  let rows := entry_vec (in_splices s) id in
  StronglySorted (<) (is_splice_seq <$> rows) ∧
  Forall (λ r, is_session_id r = id ∧ 1 ≤ is_splice_seq r ≤ default 0 (in_splice_seq s !! id)) rows ∧
  NoDup (is_origin_op <$> rows).
Proof. intros Hr Hn. exact (wf_inbox _ (reachable_wf n s Hr Hn) id). Qed.

Lemma inbox_ordered_witness :
  let rows := entry_vec (in_splices demo_inbox) "s" in
  length rows = 2%nat ∧ StronglySorted (<) (is_splice_seq <$> rows).
Proof.
  split; [reflexivity|].
  apply (inbox_ordered 4 demo_inbox "s" demo_inbox_reachable). vm_compute. reflexivity.
Defined.

(** A row is followed by its number: a later row with the same number has the
    same key, and its claim only moved forward. *)
Lemma later_row n s id row ops row' :
  reachable n s → in_range (n + length ops) →
  row ∈ entry_vec (in_splices s) id → row' ∈ entry_vec (in_splices (run_ops ops s)) id →
  is_splice_seq row' = is_splice_seq row →
  splice_key row' = splice_key row ∧ claim_le (is_claim row) (is_claim row').
Proof.
  intros Hr Hn Hin Hin' Hseq.
  assert (inbox_rows_ok id (default 0 (in_splice_seq s !! id)) (entry_vec (in_splices s) id))
    as (Hsort & Hall & _).
  { apply (wf_inbox _ (reachable_wf n s Hr ltac:(unfold in_range in *; lia))). }
  rewrite Forall_forall in Hall. destruct (Hall row Hin) as (_ & _ & Hle).
  destruct (ev_splices _ _ (run_ops_evolves n s ops Hr Hn) id row' Hin')
    as (row0 & Hin0 & Hk & Hcl); [rewrite Hseq; exact Hle|].
  assert (row0 = row) as ->; [|done].
  apply (StronglySorted_lt_inj is_splice_seq _ row0 row Hsort Hin0 Hin).
  rewrite <- Hseq. unfold splice_key in Hk. congruence.
Qed.

(** A splice is never replayed: once a row is consumed by a turn, no
    later operation changes that, and its sequence number never names another
    splice; at any later point a row with that number is the same row, still
    consumed by the same turn. *)
Theorem consumed_for_good n s id row turn ops row' :
  reachable n s → in_range (n + length ops) →
  row ∈ entry_vec (in_splices s) id → is_claim row = Consumed turn →
  row' ∈ entry_vec (in_splices (run_ops ops s)) id → is_splice_seq row' = is_splice_seq row →
  splice_key row' = splice_key row ∧ is_claim row' = Consumed turn.
Proof.
  intros Hr Hn Hin Hc Hin' Hseq.
  destruct (later_row n s id row ops row' Hr Hn Hin Hin' Hseq) as [Hk Hcl]. by rewrite Hc in Hcl.
Qed.

Lemma consumed_for_good_witness :
  let s := (commit_turn (with_consumed_splices (Checkpoint_new "s" 1 []) (Some 1)) None 1 demo_inbox).2 in
  let row := mkInboxSplice "s" 1 StartTurn [] "op1" "t" 5 (Consumed 0) in
  row ∈ entry_vec (in_splices (run_ops [OpAcquireLease "s"; OpClaimSplices "s" 2] s)) "s" ∧
  splice_key row = splice_key row ∧ is_claim row = Consumed 0.
Proof.
  intros s row.
  split; [apply (list_elem_of_lookup_2 _ 0); vm_compute; reflexivity|].
  apply (consumed_for_good 5 s "s" row 0 [OpAcquireLease "s"; OpClaimSplices "s" 2] row).
  - apply (reachable_step 4 demo_inbox (OpCommitTurn _ _ _) demo_inbox_reachable).
  - vm_compute. reflexivity.
  - apply (list_elem_of_lookup_2 _ 0). vm_compute. reflexivity.
  - reflexivity.
  - apply (list_elem_of_lookup_2 _ 0). vm_compute. reflexivity.
  - reflexivity.
Defined.

(** ** Appends are idempotent *)

#[local] Abbreviation same_origin op := (λ r, bool_decide (is_origin_op r = op)).

Lemma find_origin_Some op rows e :
  List.find (same_origin op) rows = Some e → e ∈ rows ∧ is_origin_op e = op.
Proof.
  intros [Hin Ho]%find_some. apply list_elem_of_In in Hin. by apply bool_decide_eq_true in Ho.
Qed.

Lemma append_known n now s r e :
  in_sessions s !! ns_session_id n = Some r →
  List.find (same_origin (ns_origin_op n)) (entry_vec (in_splices s) (ns_session_id n)) = Some e →
  append_splice n now s = (Ok (is_splice_seq e), s).
Proof.
  intros Hr He. unfold append_splice. erewrite M_bind_ok by (by apply find_session_Some).
  erewrite M_bind_ok by reflexivity. by rewrite He.
Qed.

Lemma append_fresh n now s r :
  in_sessions s !! ns_session_id n = Some r →
  List.find (same_origin (ns_origin_op n)) (entry_vec (in_splices s) (ns_session_id n)) = None →
  ∃ r', append_splice n now s = (Ok (next_splice_seq s (ns_session_id n)),
    push_splice (ns_session_id n) (new_row n now) (put_session (ns_session_id n) r' s)) ∧
    r' = r <| sr_status := match sr_status r with Idle => Ready | st => st end |>.
Proof.
  intros Hr He. eexists; split; [|done]. unfold append_splice.
  erewrite M_bind_ok by (by apply find_session_Some).
  erewrite M_bind_ok by reflexivity. rewrite He. erewrite M_bind_ok by reflexivity.
  destruct r as [i p e st b f t]. simpl. destruct st; try done.
  all: unfold mbind, M_bind; simpl; unfold put_session; simpl; by rewrite insert_id.
Qed.

(** An accepted append left its row behind. *)
Lemma append_row n now s q s' :
  append_splice n now s = (Ok q, s') →
  is_Some (in_sessions s' !! ns_session_id n) ∧
  ∃ row, row ∈ entry_vec (in_splices s') (ns_session_id n) ∧
    is_splice_seq row = q ∧ is_origin_op row = ns_origin_op n.
Proof.
  intros H. destruct (in_sessions s !! ns_session_id n) as [r|] eqn:Hr.
  2: { unfold append_splice in H. by erewrite M_bind_err in H by (by apply find_session_None). }
  destruct (List.find (same_origin (ns_origin_op n)) (entry_vec (in_splices s) (ns_session_id n)))
    as [e|] eqn:He.
  - rewrite (append_known n now s r e Hr He) in H. injection H as <- <-.
    apply find_origin_Some in He as [??]. split; [by eauto|]. by exists e.
  - destruct (append_fresh n now s r Hr He) as (r' & Heq & _). rewrite Heq in H.
    injection H as <- <-. split; [simpl; by simplify_map_eq|].
    exists (new_row n now (next_splice_seq s (ns_session_id n))). split; [|done]. simpl.
    unfold entry_push. rewrite entry_vec_insert, decide_True by done. set_solver.
Qed.

Lemma append_Ok n now s r :
  in_sessions s !! ns_session_id n = Some r → ∃ q, (append_splice n now s).1 = Ok q.
Proof.
  intros Hr. destruct (List.find (same_origin (ns_origin_op n))
    (entry_vec (in_splices s) (ns_session_id n))) as [e|] eqn:He.
  - rewrite (append_known n now s r e Hr He). by eexists.
  - destruct (append_fresh n now s r Hr He) as (r' & -> & _). by eexists.
Qed.

Lemma splice_key_seq r r' : splice_key r = splice_key r' → is_splice_seq r = is_splice_seq r'.
Proof. unfold splice_key. congruence. Qed.
Lemma splice_key_origin r r' : splice_key r = splice_key r' → is_origin_op r = is_origin_op r'.
Proof. unfold splice_key. congruence. Qed.

(** Where a key whose row was once in the inbox is found again later: on that
    row, or on a later one, once the first is gone. *)
Lemma origin_found_later n s id row ops e :
  reachable n s → in_range (n + length ops) →
  row ∈ entry_vec (in_splices s) id → e ∈ entry_vec (in_splices (run_ops ops s)) id →
  is_origin_op e = is_origin_op row →
  is_splice_seq e = is_splice_seq row ∨
  (is_splice_seq row < is_splice_seq e ∧
   Forall (λ r, is_splice_seq r ≠ is_splice_seq row) (entry_vec (in_splices (run_ops ops s)) id)).
Proof.
  intros Hr Hn Hin He Ho.
  destruct (wf_inbox _ (reachable_wf n s Hr ltac:(unfold in_range in *; lia)) id) as (_ & Hall & Hnd).
  destruct (wf_inbox _ (reachable_wf _ _ (reachable_run_ops n s ops Hr) Hn) id) as (_ & _ & Hnd2).
  rewrite Forall_forall in Hall. destruct (Hall row Hin) as (_ & _ & Hle).
  destruct (N.le_gt_cases (is_splice_seq e) (default 0 (in_splice_seq s !! id))) as [Hl|Hgt].
  - left. destruct (ev_splices _ _ (run_ops_evolves n s ops Hr Hn) id e He Hl) as (r & Hrin & Hk & _).
    rewrite <- (NoDup_fmap_key is_origin_op _ r row Hnd Hrin Hin); [by apply splice_key_seq|].
    rewrite <- Ho. symmetry. by apply splice_key_origin.
  - right. assert (is_splice_seq row < is_splice_seq e) as Hlt by (eapply N.le_lt_trans; [exact Hle|exact Hgt]).
    split; [done|]. apply Forall_forall. intros r Hrin Hseq.
    assert (r = e) as ->; [|lia]. apply (NoDup_fmap_key is_origin_op _ r e Hnd2 Hrin He).
    rewrite Ho. apply splice_key_origin. by eapply later_row.
Qed.

(** Retrying an append is safe at any later time: with the same session
    and idempotency key it always succeeds, and either returns the sequence
    number first assigned and changes nothing, or (only when the original row
    is gone from the inbox) a strictly larger one; a retry never shares or
    reorders the original's number. *)
Theorem append_retry n s x now q s1 ops y now' :
  reachable n s → in_range (n + length ops + 2) →
  ns_session_id y = ns_session_id x → ns_origin_op y = ns_origin_op x →
  append_splice x now s = (Ok q, s1) →
  let s2 := run_ops ops s1 in
  ∃ q', (append_splice y now' s2).1 = Ok q' ∧
    ((q' = q ∧ (append_splice y now' s2).2 = s2) ∨
     (q < q' ∧ Forall (λ row, is_splice_seq row ≠ q) (entry_vec (in_splices s2) (ns_session_id x)))).
Proof.
  intros Hr Hn Hid Hop Happ s2. unfold in_range in Hn.
  assert (reachable (S n) s1) as Hr1.
  { change s1 with (Ok (E := StoreError) q, s1).2. rewrite <- Happ.
    exact (reachable_step n s (OpAppendSplice x now) Hr). }
  assert (in_range (S n + length ops)) as Hn1 by (unfold in_range; lia).
  pose proof (run_ops_evolves (S n) s1 ops Hr1 Hn1) as Hev.
  destruct (append_row x now s q s1 Happ) as ([r1 Hs1] & row0 & Hrow0 & Hq & Ho).
  destruct (ev_rows _ _ Hev _ _ Hs1) as (r2 & Hs2 & _). fold s2 in Hs2. rewrite <- Hid in Hs2.
  destruct (List.find (same_origin (ns_origin_op y)) (entry_vec (in_splices s2) (ns_session_id y)))
    as [e|] eqn:He.
  - rewrite (append_known y now' s2 r2 e Hs2 He). exists (is_splice_seq e). split; [done|].
    apply find_origin_Some in He as [He1 He2]. rewrite Hid in He1. rewrite Hop, <- Ho in He2.
    destruct (origin_found_later (S n) s1 _ row0 ops e Hr1 Hn1 Hrow0 He1 He2) as [Heq|[Hlt Hgone]];
      [left|right]; by rewrite <- Hq.
  - destruct (append_fresh y now' s2 r2 Hs2 He) as (r' & -> & _). eexists; split; [done|]. right.
    rewrite Hid in He |- *. split.
    + pose proof (reachable_counters _ _ (reachable_run_ops (S n) s1 ops Hr1) Hn1) as Hc. fold s2 in Hc.
      unfold next_splice_seq.
      rewrite (wrap_succ _ _ (ctr_splice _ _ Hc (ns_session_id x))) by (unfold u64_bound in *; lia).
      destruct (wf_inbox _ (reachable_wf _ _ Hr1 ltac:(unfold in_range; lia)) (ns_session_id x))
        as (_ & Hall & _). rewrite Forall_forall in Hall. destruct (Hall _ Hrow0) as (_ & _ & Hle).
      pose proof (ev_counter _ _ Hev (ns_session_id x)) as Hle2. rewrite Hq in Hle.
      apply N.lt_succ_r in Hle. eapply N.lt_le_trans; [exact Hle|]. rewrite N.add_1_r.
      by apply N.succ_le_mono in Hle2.
    + apply Forall_forall. intros row Hin Hseq. eapply (find_origin_None _ _ He); [exact Hin|].
      rewrite Hop, <- Ho. apply splice_key_origin. eapply later_row; eauto. congruence.
Qed.

Lemma append_retry_witness :
  ∃ q', (append_splice (mkNewSplice "s" StartTurn [] "op1" "t") 9
    (run_ops [OpEnqueueWake "s"] (append_splice (mkNewSplice "s" StartTurn [] "op1" "t") 5 demo_store).2)).1 = Ok q' ∧ 1 ≤ q'.
Proof.
  destruct (append_retry 1 demo_store (mkNewSplice "s" StartTurn [] "op1" "t") 5 1
    (append_splice (mkNewSplice "s" StartTurn [] "op1" "t") 5 demo_store).2 [OpEnqueueWake "s"]
    (mkNewSplice "s" StartTurn [] "op1" "t") 9 demo_store_reachable eq_refl eq_refl eq_refl eq_refl)
    as (q' & Hq & [[Heq _]|[Hlt _]]); exists q'; (split; [exact Hq|]).
  - rewrite Heq. done.
  - by apply N.lt_le_incl.
Defined.

(** ** Claims *)

Definition claimed_by (f : FenceToken) (row : InboxSplice) : InboxSplice := row <| is_claim := Claimed f |>.

(** No row is held by a token newer than [f]. *)
Definition claims_upto (f : FenceToken) (rows : list InboxSplice) : Prop :=
  Forall (λ row, ∀ g, is_claim row = Claimed g → g ≤ f) rows.

Lemma claim_row_upto f row :
  (∀ g, is_claim row = Claimed g → g ≤ f) →
  claim_row f row = if unconsumed row then Some (claimed_by f row) else None.
Proof.
  intros Hle. unfold claim_row, unconsumed. destruct (is_claim row) as [|g|t] eqn:E; simpl; try done.
  specialize (Hle g eq_refl). destruct (N.ltb_spec g f); [done|].
  assert (g = f) as -> by lia. rewrite N.eqb_refl. unfold claimed_by. destruct row; simpl in *.
  by rewrite E.
Qed.

Lemma claim_upto f rows :
  claims_upto f rows →
  omap (claim_row f) rows = claimed_by f <$> List.filter unconsumed rows ∧
  ((λ r, default r (claim_row f r)) <$> rows) =
    ((λ r, if unconsumed r then claimed_by f r else r) <$> rows).
Proof.
  induction 1 as [|row rows Hrow _ [IH1 IH2]]; [done|]. csimpl.
  rewrite (claim_row_upto f row Hrow), IH1, IH2. by destruct (unconsumed row).
Qed.

(** The rows as a claim under [f] leaves them. *)
Definition held (f : FenceToken) (rows : list InboxSplice) : list InboxSplice :=
  (λ r, if unconsumed r then claimed_by f r else r) <$> rows.

Lemma held_live f g rows :
  claimed_by g <$> List.filter unconsumed (held f rows) = claimed_by g <$> List.filter unconsumed rows.
Proof.
  induction rows as [|row rows IH]; [done|].
  change (held f (row :: rows)) with ((if unconsumed row then claimed_by f row else row) :: held f rows).
  destruct (unconsumed row) eqn:E; cbn [List.filter]; rewrite ?E; [|done].
  change (unconsumed (claimed_by f row)) with true. rewrite !fmap_cons, IH. done.
Qed.

Lemma held_upto f g rows : f ≤ g → claims_upto g (held f rows).
Proof.
  intros Hle. unfold claims_upto, held. rewrite Forall_fmap. apply Forall_forall. intros row _ h. simpl.
  destruct (unconsumed row) eqn:E; simpl; [intros [= <-]; done|].
  unfold unconsumed in E. by destruct (is_claim row).
Qed.

Lemma held_older f g rows : g < f → omap (claim_row g) (held f rows) = [].
Proof.
  intros Hlt. induction rows as [|row rows IH]; [done|].
  change (held f (row :: rows)) with ((if unconsumed row then claimed_by f row else row) :: held f rows).
  cbn [omap list_omap]. rewrite IH. destruct (unconsumed row) eqn:E; [|by rewrite claim_row_consumed].
  unfold claim_row. simpl. destruct (N.ltb_spec f g); [lia|]. destruct (N.eqb_spec f g); [lia|done].
Qed.

Lemma claim_locked_spec id f s :
  claims_upto f (entry_vec (in_splices s) id) →
  (claim_splices_locked id f s).1 = claimed_by f <$> List.filter unconsumed (entry_vec (in_splices s) id) ∧
  entry_vec (in_splices (claim_splices_locked id f s).2) id = held f (entry_vec (in_splices s) id).
Proof.
  unfold claim_splices_locked, entry_vec. destruct (in_splices s !! id) as [rows|] eqn:E; simpl.
  - intros [H1 H2]%claim_upto. rewrite H1, H2, lookup_insert_eq. done.
  - by rewrite E.
Qed.

Lemma claim_locked_frame id f s :
  (claim_splices_locked id f s).2 = s <| in_splices := in_splices (claim_splices_locked id f s).2 |>.
Proof. unfold claim_splices_locked. case_match; by destruct s. Qed.

Lemma load_run id f r s :
  in_sessions s !! id = Some r →
  load_for_activation id f s =
    (Ok (mkActivation (sr_snapshot r) (entry_vec (in_unapplied s) id) f
           (claim_splices_locked id f s).1 (in_execution_policy s !! id) (sr_turn_seq r)),
     (claim_splices_locked id f s).2).
Proof.
  intros Hr. unfold load_for_activation. erewrite M_bind_ok by (by apply find_session_Some).
  erewrite M_bind_ok by reflexivity. unfold claim_inbox, mbind, M_bind.
  by destruct (claim_splices_locked id f s).
Qed.

(** A load delivers everything: under a token no older than any claim,
    an activation carries the snapshot, every unapplied completion and every
    unconsumed inbox row in order, claimed under the token.  Until a commit,
    loading again under the same or a newer token delivers the same work (a
    crashed holder loses nothing), while an older token can claim no row. *)
Theorem load_delivers_work id f r s :
  in_sessions s !! id = Some r → claims_upto f (entry_vec (in_splices s) id) →
  let live := List.filter unconsumed (entry_vec (in_splices s) id) in
  let activation g := mkActivation (sr_snapshot r) (entry_vec (in_unapplied s) id) g
    (claimed_by g <$> live) (in_execution_policy s !! id) (sr_turn_seq r) in
  ∃ s', load_for_activation id f s = (Ok (activation f), s') ∧
    in_sessions s' = in_sessions s ∧
    (∀ g, f ≤ g → (load_for_activation id g s').1 = Ok (activation g)) ∧
    (∀ g, g < f → (claim_splices_locked id g s').1 = []).
Proof.
  intros Hr Hup live activation. destruct (claim_locked_spec id f s Hup) as [Hc Hh].
  exists (claim_splices_locked id f s).2. rewrite (load_run id f r s Hr), Hc.
  split_and!; [done|by rewrite claim_locked_frame|..].
  - intros g Hg. rewrite (load_run id g r) by (by rewrite claim_locked_frame). simpl.
    destruct (claim_locked_spec id g (claim_splices_locked id f s).2) as [-> _].
    { rewrite Hh. by apply held_upto. }
    rewrite Hh, held_live. by rewrite claim_locked_frame.
  - intros g Hg. revert Hh. unfold claim_splices_locked at 2, entry_vec at 1.
    set (s' := (claim_splices_locked id f s).2). intros Hh.
    destruct (in_splices s' !! id) as [rows|] eqn:E; [|done]. simpl in *. rewrite Hh.
    by apply held_older.
Qed.

Lemma load_delivers_work_witness :
  ∃ act, (load_for_activation "s" 1 demo_inbox).1 = Ok act ∧ length (ac_splices act) = 2%nat.
Proof.
  destruct (load_delivers_work "s" 1 (mkSessionRecord "s" 0 0 Active [] 1 0) demo_inbox)
    as (s' & Hrun & _).
  - vm_compute. reflexivity.
  - vm_compute. repeat constructor; discriminate.
  - rewrite Hrun. eexists. split; [reflexivity|]. vm_compute. reflexivity.
Defined.
