(* ===== verification/StoreWake.v ===== *)
(** * Completions, wakes, recovery scans and notices

    A completion is applied once and cannot be lost; a notice fires at most
    once. *)

From S2P Require Import Prelude Text Common Approval StoreTypes Store StoreInv Journal Registry.
From S2P Require Import StoreSteps StoreHistory StoreLease StoreCommit StoreInbox.

#[local] Open Scope N_scope.
#[local] Open Scope daemon_scope.

(** ** Redelivery *)

Lemma record_known c s :
  is_Some (in_sessions s !! jp_session_id c) → completion_key c ∈ in_inbox_keys s →
  record_completion_and_wake c s = (Ok tt, s).
Proof.
  intros [r Hr] Hk. unfold record_completion_and_wake.
  erewrite M_bind_ok by (by apply find_session_Some).
  unfold apply_completion, apply_completion_locked. fold (completion_key c).
  erewrite M_bind_ok by (by rewrite decide_True). done.
Qed.

(** The store a fresh completion leaves, before the wake. *)
Definition completion_applied (c : JobCompletion) (r : SessionRecord) (s : Inner) : Inner :=
  s <| in_inbox_keys := {[completion_key c]} ∪ in_inbox_keys s |>
    <| in_unapplied := entry_push (in_unapplied s) (jp_session_id c) c |>
    <| in_sessions := <[jp_session_id c := r <| sr_status := Ready |>]> (in_sessions s) |>.

Lemma record_fresh c r s :
  in_sessions s !! jp_session_id c = Some r → completion_key c ∉ in_inbox_keys s →
  record_completion_and_wake c s =
    if decide (in_fault s = Some BeforeWakePublish)
    then (Err (Fault BeforeWakePublish), disarmed (completion_applied c r s))
    else (Ok tt, enqueue_wake (jp_session_id c) (completion_applied c r s)).
Proof.
  intros Hr Hk. unfold record_completion_and_wake.
  erewrite M_bind_ok by (by apply find_session_Some).
  erewrite (M_bind_ok _ (apply_completion c) s true (completion_applied c r s)).
  2: { unfold apply_completion, apply_completion_locked. fold (completion_key c).
       rewrite decide_False by done. simpl. by rewrite Hr. }
  unfold mbind, M_bind, take_fault. simpl. by case_decide.
Qed.

(** C17. A completion is applied once for good: after it was recorded (even
    if the crash point before the wake fired), recording the same
    [(session, epoch, job)] again, at any later point of the execution and with
    any payload, succeeds and changes nothing. *)
Theorem completion_redelivery n s c ops c' :
  reachable n s → in_range (n + length ops + 1) →
  is_Some (in_sessions s !! jp_session_id c) → completion_key c' = completion_key c →
  let s2 := run_ops ops (record_completion_and_wake c s).2 in
  record_completion_and_wake c' s2 = (Ok tt, s2).
Proof.
  intros Hr Hn [r Hs] Hk s2. unfold in_range in Hn.
  assert (reachable (S n) (record_completion_and_wake c s).2) as Hr1
    by exact (reachable_step n s (OpRecordCompletion c) Hr).
  pose proof (run_ops_evolves (S n) _ ops Hr1 ltac:(unfold in_range; lia)) as Hev. fold s2 in Hev.
  assert (jp_session_id c' = jp_session_id c) as Hid by (unfold completion_key in Hk; congruence).
  assert (is_Some (in_sessions (record_completion_and_wake c s).2 !! jp_session_id c) ∧
    completion_key c ∈ in_inbox_keys (record_completion_and_wake c s).2) as [[r1 Hs1] Hk1].
  { destruct (decide (completion_key c ∈ in_inbox_keys s)).
    - rewrite record_known by eauto. simpl. eauto.
    - rewrite (record_fresh c r) by done. case_decide; simpl; (split; [by simplify_map_eq|set_solver]). }
  apply record_known.
  - destruct (ev_rows _ _ Hev _ _ Hs1) as (r2 & ? & _). rewrite Hid. eauto.
  - rewrite Hk. by apply (ev_keys _ _ Hev).
Qed.

Definition demo_completion : JobCompletion := mkJobCompletion "s" 1 "job" [].

Lemma completion_redelivery_witness :
  let s2 := run_ops [OpAcquireLease "s"; OpCommitTurn (with_applied_completions
      (Checkpoint_new "s" 1 []) [(1, "job")]) None 1] (record_completion_and_wake demo_completion demo_store).2 in
  entry_vec (in_unapplied s2) "s" = [] ∧
  record_completion_and_wake demo_completion s2 = (Ok tt, s2).
Proof.
  split; [vm_compute; reflexivity|].
  apply (completion_redelivery 1 demo_store demo_completion
    [OpAcquireLease "s"; OpCommitTurn (with_applied_completions
      (Checkpoint_new "s" 1 []) [(1, "job")]) None 1] demo_completion demo_store_reachable).
  - vm_compute. reflexivity.
  - vm_compute. eauto.
  - reflexivity.
Defined.

(** In every reachable store the unapplied completions of a session are
    its own, hold no key twice, and every key is in the idempotency set: an
    activation never folds the same completion in twice. *)
Theorem unapplied_unique n s id :
  reachable n s → in_range n →
  NoDup (completion_key <$> entry_vec (in_unapplied s) id) ∧
  Forall (λ c, jp_session_id c = id ∧ completion_key c ∈ in_inbox_keys s)
    (entry_vec (in_unapplied s) id).
Proof. intros Hr Hn. exact (wf_completions _ (reachable_wf n s Hr Hn) id). Qed.

Lemma unapplied_unique_witness :
  let s := run_ops [OpRecordCompletion demo_completion; OpRecordCompletion demo_completion] demo_store in
  length (entry_vec (in_unapplied s) "s") = 1%nat ∧
  NoDup (completion_key <$> entry_vec (in_unapplied s) "s").
Proof.
  split; [vm_compute; reflexivity|].
  apply (unapplied_unique 3 _ "s" (reachable_run_ops 1 demo_store [_; _] demo_store_reachable)).
  vm_compute. reflexivity.
Defined.

(** ** The recovery scan *)

Definition has_work_to_resume (s : Inner) (id : SessionId) (r : SessionRecord) : Prop :=
  sr_status r = Ready ∨ sr_status r = Active ∨
  (∃ job, sr_status r = Suspended job) ∧ entry_vec (in_unapplied s) id ≠ [].

Lemma resumable_spec s p id r :
  sr_session_id r = id →
  resumable s p r = true ↔ sr_partition r = p ∧ has_work_to_resume s id r.
Proof.
  intros <-. unfold resumable, has_work_to_resume, has_unapplied. rewrite andb_true_iff, N.eqb_eq.
  destruct (sr_status r) as [|j| | |]; (split; [intros [? ?]; split; [done|]|intros (? & Hw); split; [done|]]);
    try by auto; try (by destruct Hw as [?|[?|[[? ?] ?]]]).
  - right; right. split; [by eauto|]. by destruct (entry_vec _ _).
  - destruct Hw as [?|[?|[_ Hw]]]; try done. by destruct (entry_vec _ _).
Qed.

Lemma elem_of_scan `{HashOrder} s p id :
  rows_wf s →
  id ∈ scan_resumable s p ↔
  ∃ r, in_sessions s !! id = Some r ∧ sr_partition r = p ∧ has_work_to_resume s id r.
Proof.
  intros Hw. unfold scan_resumable. rewrite list_elem_of_fmap. setoid_rewrite list_elem_of_filter.
  setoid_rewrite elem_of_hash_values. split.
  - intros (r & -> & Hres & k & Hk). assert (sr_session_id r = k) as Hid by by eapply rows_keyed.
    exists r. rewrite Hid. split; [done|]. by apply resumable_spec.
  - intros (r & Hr & Hp). assert (sr_session_id r = id) as Hid by by eapply rows_keyed.
    exists r. split; [done|]. split; [by apply (resumable_spec s p id r)|eauto].
Qed.

Lemma NoDup_scan `{HashOrder} n s p : reachable n s → NoDup (scan_resumable s p).
Proof.
  intros Hn. pose proof (reachable_rows n s Hn) as Hw. unfold scan_resumable.
  assert ((sr_session_id <$> (hash_order (in_sessions s)).*2) = (hash_order (in_sessions s)).*1) as Heq.
  { rewrite <- list_fmap_compose. apply list_fmap_ext. intros i [k r] Hi%list_elem_of_lookup_2. simpl.
    apply elem_of_hash_order in Hi. by eapply rows_keyed. }
  eapply sublist_NoDup; [apply (NoDup_fst_hash_order (in_sessions s))|]. rewrite <- Heq.
  apply sublist_fmap, sublist_filter.
Qed.

(** The recovery scan is exact, whatever order the session table is
    walked in: it lists, without repetition, precisely the sessions of the
    partition that are [Ready], [Active] (their holder is presumed dead), or
    [Suspended] with a recorded completion. *)
Theorem scan_resumable_exact `{HashOrder} n s p id :
  reachable n s →
  NoDup (scan_resumable s p) ∧
  (id ∈ scan_resumable s p ↔
   ∃ r, in_sessions s !! id = Some r ∧ sr_partition r = p ∧ has_work_to_resume s id r).
Proof. intros Hn. split; [by eapply NoDup_scan|by eapply elem_of_scan, reachable_rows]. Qed.

Lemma scan_resumable_exact_witness : "s" ∈ scan_resumable (H := canonical_order) demo_store 0.
Proof.
  apply (scan_resumable_exact (H := canonical_order) 1 demo_store 0 "s" demo_store_reachable).
  exists (mkSessionRecord "s" 0 0 Ready [] 0 0). split; [vm_compute; reflexivity|].
  split; [reflexivity|left; reflexivity].
Defined.

(** ** No lost wake *)

(** C19. The first recording of a completion, for a session of the store, cannot
    be lost: whether the call returns or dies at the crash point before the wake
    is published, the completion is filed, its session is [Ready] and the recovery
    scan of its partition lists it; a call that returns has also queued the wake,
    and a call that died has queued none and reports the fault.  (A completion
    recorded again, with a key already in the inbox, changes nothing and queues no
    wake.) *)
Theorem no_lost_wake `{HashOrder} n s c r :
  reachable n s → in_sessions s !! jp_session_id c = Some r → completion_key c ∉ in_inbox_keys s →
  let res := (record_completion_and_wake c s).1 in
  let s' := (record_completion_and_wake c s).2 in
  entry_vec (in_unapplied s') (jp_session_id c) = entry_vec (in_unapplied s) (jp_session_id c) ++ [c] ∧
  status s' (jp_session_id c) = Some Ready ∧
  jp_session_id c ∈ scan_resumable s' (sr_partition r) ∧
  ((res = Ok tt ∧ in_wake_outbox s' = in_wake_outbox s ++ [jp_session_id c]) ∨
   (res = Err (Fault BeforeWakePublish) ∧ in_fault s = Some BeforeWakePublish ∧
    in_wake_outbox s' = in_wake_outbox s)).
Proof.
  intros Hn Hr Hk res s'.
  assert (reachable (S n) s') as Hn' by exact (reachable_step n s (OpRecordCompletion c) Hn).
  assert (∃ w x, s' = completion_applied c r s <| in_wake_outbox := w |> <| in_fault := x |> ∧
    ((res = Ok tt ∧ w = in_wake_outbox s ++ [jp_session_id c]) ∨
     (res = Err (Fault BeforeWakePublish) ∧ in_fault s = Some BeforeWakePublish ∧ w = in_wake_outbox s)))
    as (w & x & Heq & Hw).
  { unfold res, s'. rewrite (record_fresh c r s Hr Hk). case_decide; simpl.
    - exists (in_wake_outbox s), None. auto.
    - exists (in_wake_outbox s ++ [jp_session_id c]), (in_fault s). auto. }
  rewrite Heq. split_and!.
  - simpl. unfold entry_push. by rewrite entry_vec_insert, decide_True.
  - unfold status. by simplify_map_eq.
  - rewrite <- Heq. apply elem_of_scan; [by eapply reachable_rows|].
    exists (r <| sr_status := Ready |>). rewrite Heq. split; [by simplify_map_eq|]. split; [done|by left].
  - exact Hw.
Qed.

Lemma no_lost_wake_witness :
  let s := set_fault (Some BeforeWakePublish) demo_store in
  "s" ∈ scan_resumable (H := canonical_order) (record_completion_and_wake demo_completion s).2 0.
Proof.
  apply (no_lost_wake (H := canonical_order) 2 (set_fault (Some BeforeWakePublish) demo_store)
    demo_completion (mkSessionRecord "s" 0 0 Ready [] 0 0)).
  - exact (reachable_step 1 demo_store (OpSetFault _) demo_store_reachable).
  - vm_compute. reflexivity.
  - apply not_elem_of_empty.
Defined.

(** ** Notices *)

(** No write brings back a notice that was fired and taken. *)
Lemma mstep_notice_gone child s s' :
  child ∈ in_notices_fired s ∧ child ∉ (cn_child <$> in_notice_outbox s) → mstep s s' →
  child ∈ in_notices_fired s' ∧ child ∉ (cn_child <$> in_notice_outbox s').
Proof.
  intros [H1 H2] Hstep. destruct Hstep as
    [s s' Heq|s id r _ _ Hf Ht|s id r r' Hr _|s id row _ Hrow Hop|s id f|s id u t|s cutoff
    |s c _|s id keys|s cp|s|s parent|s stream seg e _]; try done.
  - destruct Heq as (_&_&_&Hf&Ho&_). by rewrite Hf, Ho.
  - unfold claim_splices_locked. by case_match.
  - unfold consume_splices_locked. by case_match.
  - unfold apply_completion_locked. case_decide; [done|]. cbv zeta. by case_match.
  - unfold drop_applied. by repeat case_match.
  - rewrite fire_notice_outbox, fmap_app. unfold fire_notice.
    destruct (in_completion_notices s !! _) as [[p i]|]; [|rewrite app_nil_r; done].
    case_decide as Hnew; simpl; [by rewrite app_nil_r|]. split; [set_solver|].
    rewrite elem_of_app, list_elem_of_singleton. intros [?| ->]; done.
  - unfold dequeue_completion_notice. destruct (in_notice_outbox s) as [|x q] eqn:E; simpl;
      [by rewrite E|]. split; [done|]. intros Hin. apply H2. simpl. by right.
Qed.

(** A child's completion notice reaches its parent at most once: the
    outbox never holds two notices of one child, and once a child's notice has
    been taken from the outbox none is ever queued again, however often the
    child is reopened and settled. *)
Theorem notice_at_most_once n s child ops :
  reachable n s → in_range (n + length ops) →
  NoDup (cn_child <$> in_notice_outbox s) ∧
  (child ∈ in_notices_fired s → child ∉ (cn_child <$> in_notice_outbox s) →
   child ∉ (cn_child <$> in_notice_outbox (run_ops ops s))).
Proof.
  intros Hr Hn. unfold in_range in Hn. split.
  { apply (wf_notices _ (reachable_wf n s Hr ltac:(unfold in_range; lia))). }
  intros H1 H2. apply (run_ops_ind (λ s, child ∈ in_notices_fired s ∧ child ∉ (cn_child <$> in_notice_outbox s)) n s);
    [apply mstep_notice_gone|done|done].
Qed.

Lemma notice_at_most_once_witness :
  let s := run_ops [OpBindNotice "s" "p" None; OpAcquireLease "s";
      OpMarkCompleted (Checkpoint_new "s" 1 []) 1 5; OpDequeueNotice] demo_store in
  "s" ∉ (cn_child <$> in_notice_outbox (run_ops
    [OpReopenIfSettled "s"; OpMarkCompleted (Checkpoint_new "s" 2 []) 1 6] s)).
Proof.
  intros s. eapply (notice_at_most_once 5 s "s").
  - exact (reachable_run_ops 1 demo_store [_; _; _; _] demo_store_reachable).
  - vm_compute. reflexivity.
  - apply (bool_decide_unpack _). vm_compute. exact I.
  - apply not_elem_of_nil.
Defined.
