(* ===== verification/StoreTree.v ===== *)
(** * Creation and delegation

    Atomic creation of a runnable session, and the ids of detached children. *)

From S2P Require Import Prelude Text Common Approval StoreTypes Store StoreInv Journal Registry.
From S2P Require Import StoreSteps StoreHistory StoreLease StoreCommit StoreInbox StoreWake.

From Stdlib Require Import Ascii.

#[local] Open Scope N_scope.
#[local] Open Scope daemon_scope.

(** ** Runnable creation *)

Definition fresh_row (spec : RunnableSession) : SessionRecord :=
  mkSessionRecord (rs_id spec) (rs_partition spec) Epoch_ZERO Ready (rs_snapshot spec) FenceToken_ZERO 0.

(** The edge a spec asks for, as the tables show it. *)
Definition edge_bound (id : SessionId) (edge : option RunnableEdge) (s : Inner) : Prop :=
  match edge with
  | Some (Delegation job) =>
      id ∈ children_of s (jc_session_id job) ∧ in_delegations s !! id = Some job
  | Some (CompletionNoticeEdge parent _) =>
      id ∈ children_of s parent ∧ is_Some (in_completion_notices s !! id)
  | Some (ChildEdge parent label) =>
      id ∈ children_of s parent ∧ in_background_edges s !! id = Some label
  | None => True
  end.

Lemma elem_of_add_child p c m : c ∈ entry_vec (add_child p c m) p.
Proof.
  unfold add_child. rewrite entry_vec_insert, decide_True by done.
  case_decide; [done|]. set_solver.
Qed.

Lemma bind_edge_bound id edge s : edge_bound id edge (bind_edge id edge s).
Proof.
  destruct edge as [[job|p c|p l]|]; simpl; [..|done]; (split; [apply elem_of_add_child|]); try by simplify_map_eq.
  unfold or_insert. case_match; [eauto|]. by simplify_map_eq.
Qed.

(** What a spec's construction leaves, all of it. *)
Record runnable_created (spec : RunnableSession) (now : N) (s s' : Inner) : Prop := {
  rc_row : in_sessions s' = <[rs_id spec := fresh_row spec]> (in_sessions s);
  rc_policy : execution_policy s' (rs_id spec) = Some (rs_policy spec);
  rc_meta : session_meta s' (rs_id spec) =
    match rs_meta spec with Some m => Some m | None => session_meta s (rs_id spec) end;
  rc_edge : edge_bound (rs_id spec) (rs_edge spec) s';
  rc_input : is_payload <$> splices_after s' (rs_id spec) 0 =
    match rs_first_input spec with Some input => [input] | None => [] end
}.

Lemma create_runnable_known spec now s r :
  in_sessions s !! rs_id spec = Some r → create_runnable spec now s = (Ok false, s).
Proof. intros Hr. unfold create_runnable, mbind, M_bind, get. by rewrite Hr. Qed.

Lemma create_runnable_fault spec now s :
  in_sessions s !! rs_id spec = None → in_fault s = Some MidRunnableConstruction →
  create_runnable spec now s = (Err (Fault MidRunnableConstruction), disarmed s).
Proof.
  intros Hr Hf. unfold create_runnable. erewrite M_bind_ok by reflexivity. rewrite Hr.
  by erewrite M_bind_err by (by apply take_fault_armed).
Qed.

(** The store after the row, the policy, the meta and the edge. *)
Definition runnable_base (spec : RunnableSession) (s : Inner) : Inner :=
  let s1 := put_session (rs_id spec) (fresh_row spec) s
              <| in_execution_policy := <[rs_id spec := rs_policy spec]> (in_execution_policy s) |> in
  let s2 := match rs_meta spec with
            | Some m => s1 <| in_session_meta := <[rs_id spec := m]> (in_session_meta s1) |>
            | None => s1
            end in
  bind_edge (rs_id spec) (rs_edge spec) s2.

Lemma create_runnable_run spec now s :
  in_sessions s !! rs_id spec = None → in_fault s ≠ Some MidRunnableConstruction →
  create_runnable spec now s =
    (Ok true, match rs_first_input spec with
              | Some input => push_splice (rs_id spec) (first_input_row (rs_id spec) now input)
                                (runnable_base spec s)
              | None => runnable_base spec s
              end).
Proof.
  intros Hr Hf. unfold create_runnable. erewrite M_bind_ok by reflexivity. rewrite Hr.
  erewrite M_bind_ok by (by apply take_fault_none).
  erewrite M_bind_ok. 2: { unfold insert_fresh, mbind, M_bind, get. by rewrite Hr. }
  erewrite M_bind_ok by reflexivity. unfold runnable_base.
  destruct (rs_meta spec), (rs_first_input spec); reflexivity.
Qed.

Lemma runnable_base_tables spec s :
  in_sessions (runnable_base spec s) = <[rs_id spec := fresh_row spec]> (in_sessions s) ∧
  execution_policy (runnable_base spec s) (rs_id spec) = Some (rs_policy spec) ∧
  session_meta (runnable_base spec s) (rs_id spec) =
    (match rs_meta spec with Some m => Some m | None => session_meta s (rs_id spec) end) ∧
  in_splices (runnable_base spec s) = in_splices s ∧ in_splice_seq (runnable_base spec s) = in_splice_seq s.
Proof.
  unfold runnable_base, execution_policy, session_meta.
  destruct (rs_edge spec) as [[]|], (rs_meta spec); simpl; by simplify_map_eq.
Qed.

(** Runnable creation is all or nothing: an existing id is reported and
    nothing changes; a crash mid-construction leaves nothing of the session;
    otherwise the row, the policy, the meta, the parent edge and the first
    input all exist at once, the session [Ready] with that one input to read. *)
Theorem create_runnable_all_or_nothing n spec now s :
  reachable n s → in_range (S n) →
  match in_sessions s !! rs_id spec with
  | Some _ => create_runnable spec now s = (Ok false, s)
  | None =>
      if decide (in_fault s = Some MidRunnableConstruction)
      then create_runnable spec now s = (Err (Fault MidRunnableConstruction), disarmed s)
      else ∃ s', create_runnable spec now s = (Ok true, s') ∧ runnable_created spec now s s'
  end.
Proof.
  intros Hn Hb. destruct (in_sessions s !! rs_id spec) as [r|] eqn:Hr;
    [by eapply create_runnable_known|].
  case_decide as Hf; [by apply create_runnable_fault|]. eexists; split; [by apply create_runnable_run|].
  destruct (runnable_base_tables spec s) as (H1 & H2 & H3 & H4 & H5).
  assert (edge_bound (rs_id spec) (rs_edge spec) (runnable_base spec s)) as H6 by apply bind_edge_bound.
  assert (in_splices s !! rs_id spec = None) as Hnone.
  { destruct (in_splices s !! rs_id spec) eqn:E; [|done].
    destruct (rows_splices _ _ _ _ (reachable_rows n s Hn) (rs_id spec)); [eauto|congruence]. }
  destruct (rs_first_input spec) as [input|] eqn:Ei; constructor; rewrite ?Ei; try done.
  - unfold splices_after, push_splice, entry_push. cbn [in_splices update].
    rewrite entry_vec_insert, decide_True by done. unfold entry_vec. rewrite H4, Hnone. simpl.
    rewrite filter_cons_True; [done|]. simpl. split; [|done].
    unfold next_splice_seq. rewrite H5.
    pose proof (ctr_splice _ _ (reachable_counters n s Hn ltac:(unfold in_range in *; lia)) (rs_id spec)).
    unfold in_range in Hb. rewrite (wrap_succ _ _ ltac:(eassumption)) by (unfold u64_bound in *; lia). lia.
  - unfold splices_after, entry_vec. by rewrite H4, Hnone.
Qed.

Definition demo_spec : RunnableSession :=
  mkRunnableSession "s/d1" 0 [] DetachedChild (Some SessionMeta_default)
    (Some (CompletionNoticeEdge "s" (Some "call"))) (Some (string_bytes "go")).

Lemma create_runnable_all_or_nothing_witness :
  ∃ s', create_runnable demo_spec 3 demo_store = (Ok true, s') ∧ "s/d1" ∈ children_of s' "s".
Proof.
  pose proof (create_runnable_all_or_nothing 1 demo_spec 3 demo_store demo_store_reachable
    ltac:(vm_compute; reflexivity)) as H.
  vm_compute in_sessions in H. destruct H as (s' & Hrun & Hc).
  exists s'. split; [exact Hrun|]. exact (proj1 (rc_edge _ _ _ _ Hc)).
Defined.

(** ** Detached children *)

Lemma list_ascii_app a b :
  String.list_ascii_of_string (a +:+ b) = String.list_ascii_of_string a ++ String.list_ascii_of_string b.
Proof. induction a as [|c a IH]; simpl; [done|]. by rewrite IH. Qed.

Lemma list_ascii_inj a b : String.list_ascii_of_string a = String.list_ascii_of_string b → a = b.
Proof.
  intros H. rewrite <- (String.string_of_list_ascii_of_string a), H.
  apply String.string_of_list_ascii_of_string.
Qed.

(** Decimal digits: no letter occurs in a printed number. *)
Lemma pretty_go_no_d x str :
  "d"%char ∉ String.list_ascii_of_string str → "d"%char ∉ String.list_ascii_of_string (pretty_N_go x str).
Proof.
  revert str. induction (N.lt_wf_0 x) as [x _ IH]; intros str Hd.
  assert (x = 0 ∨ 0 < x) as [->|Hx] by lia; [by rewrite pretty_N_go_0|].
  rewrite pretty_N_go_step by done. apply IH; [by apply N.div_lt|]. simpl.
  apply not_elem_of_cons. split; [|done]. unfold pretty_N_char. by repeat case_match.
Qed.

Lemma pretty_no_d (n : N) : "d"%char ∉ String.list_ascii_of_string (pretty n).
Proof.
  unfold pretty, pretty_N. case_decide; [|apply pretty_go_no_d; simpl; apply not_elem_of_nil].
  simpl. apply not_elem_of_cons. split; [done|apply not_elem_of_nil].
Qed.

(** The last occurrence of a separator splits a list in one way. *)
Lemma split_last_unique {A} (x : A) l1 l2 k1 k2 :
  x ∉ k1 → x ∉ k2 → l1 ++ x :: k1 = l2 ++ x :: k2 → l1 = l2 ∧ k1 = k2.
Proof.
  intros H1 H2. revert l2. induction l1 as [|y l1 IH]; intros [|z l2]; simpl; intros Heq.
  - by injection Heq as ->.
  - injection Heq as <- ->. destruct H1. set_solver.
  - injection Heq as -> <-. destruct H2. set_solver.
  - injection Heq as -> Heq. by apply IH in Heq as [-> ->].
Qed.

Lemma detached_child_id_inj p n q m :
  detached_child_id p n = detached_child_id q m → p = q ∧ n = m.
Proof.
  intros H. apply (f_equal String.list_ascii_of_string) in H. unfold detached_child_id in H.
  rewrite !list_ascii_app in H.
  change (String.list_ascii_of_string "/d") with (["/"%char] ++ ["d"%char]) in H.
  rewrite <- !app_assoc, !(app_assoc _ ["/"%char]) in H.
  apply split_last_unique in H as [H1 H2]; [|apply pretty_no_d..].
  apply (app_inj_tail _ _ "/"%char "/"%char) in H1 as [H1 _].
  split; [by apply list_ascii_inj|]. apply list_ascii_inj in H2. by apply (inj pretty) in H2.
Qed.

Lemma enqueue_detached_run job s :
  let seq := default 0 (in_detached_seq s !! jc_session_id job) +₆₄ 1 in
  (enqueue_detached_job job s).1 = Ok (detached_child_id (jc_session_id job) seq) ∧
  in_detached_seq (enqueue_detached_job job s).2 = <[jc_session_id job := seq]> (in_detached_seq s) ∧
  in_job_outbox (enqueue_detached_job job s).2 = in_job_outbox s ++
    [job <| jc_child := Some (detached_child_id (jc_session_id job) seq) |>].
Proof. done. Qed.

Lemma starts_with_app p l : starts_with p (p ++ l) = true.
Proof. unfold starts_with. by rewrite strip_prefix_app. Qed.

Lemma string_bytes_app a b : string_bytes (a +:+ b) = string_bytes a ++ string_bytes b.
Proof.
  unfold string_bytes, String.list_byte_of_string. by rewrite list_ascii_app, List.map_app.
Qed.

(** Detached children get fresh names: of any two detached jobs enqueued
    in an execution, by the same or by different parents, the children differ,
    and each child lies in the subtree of the parent that enqueued it. *)
Theorem detached_children_distinct n s job1 ops job2 child1 child2 :
  reachable n s → in_range (n + length ops + 2) →
  (enqueue_detached_job job1 s).1 = Ok child1 →
  (enqueue_detached_job job2 (run_ops ops (enqueue_detached_job job1 s).2)).1 = Ok child2 →
  child1 ≠ child2 ∧ owns_subtree s (jc_session_id job1) child1 = true.
Proof.
  intros Hr Hn H1 H2. unfold in_range in Hn.
  destruct (enqueue_detached_run job1 s) as (E1 & Hseq & _).
  set (s1 := (enqueue_detached_job job1 s).2) in *.
  assert (reachable (S n) s1) as Hr1 by exact (reachable_step n s (OpEnqueueDetached job1) Hr).
  pose proof (run_ops_evolves (S n) s1 ops Hr1 ltac:(unfold in_range; lia)) as Hev.
  destruct (enqueue_detached_run job2 (run_ops ops s1)) as (E2 & _).
  rewrite E1 in H1. rewrite E2 in H2. injection H1 as <-. injection H2 as <-. split.
  - intros [Hp Hsq]%detached_child_id_inj. rewrite <- Hp in Hsq.
    pose proof (ev_detached _ _ Hev (jc_session_id job1)) as Hle.
    pose proof (reachable_counters _ _ (reachable_run_ops _ _ ops Hr1) ltac:(unfold in_range; lia)) as Hc.
    pose proof (ctr_detached _ _ Hc (jc_session_id job1)) as Hk.
    set (k := default 0 (in_detached_seq (run_ops ops s1) !! jc_session_id job1)) in *.
    rewrite Hseq, lookup_insert_eq, Hsq in Hle. simpl in Hle.
    rewrite (wrap_succ _ _ Hk) in Hle by (unfold u64_bound in *; lia). lia.
  - unfold owns_subtree, detached_child_id. rewrite !string_bytes_app.
    change (string_bytes "/d") with (string_bytes "/" ++ string_bytes "d").
    by rewrite <- app_assoc, app_assoc, starts_with_app.
Qed.

Definition demo_job (id : JobId) : JobCommand := mkJobCommand id "s" 1 [] Persistent None.

Lemma detached_children_distinct_witness :
  (enqueue_detached_job (demo_job "a") demo_store).1 = Ok "s/d1" ∧ "s/d1" ≠ "s/d2".
Proof.
  split; [vm_compute; reflexivity|].
  apply (detached_children_distinct 1 demo_store (demo_job "a") [OpDequeueJob] (demo_job "b") "s/d1" "s/d2"
    demo_store_reachable); vm_compute; reflexivity.
Defined.
