(* ===== verification/StoreDecisions.v ===== *)
(** * Approvals, snapshot edits, lineage, pruning, usage and the error wire

    Also three concrete executions on which the code departs from what its
    documentation says. *)

From S2P Require Import Prelude Text Common Approval StoreTypes Store StoreInv Journal Registry.
From S2P Require Import StoreSteps StoreHistory StoreLease StoreCommit StoreInbox StoreWake.
From S2P Require Import StoreTree.

#[local] Open Scope N_scope.
#[local] Open Scope daemon_scope.

(** ** Answering a parked approval *)

Lemma find_update_first {A} (p : A → bool) f (l : list A) x :
  (∀ y, p y = true → p (f y) = true) →
  List.find p l = Some x → List.find p (update_first p f l) = Some (f x).
Proof.
  intros Hf. induction l as [|y l IH]; simpl; [done|].
  destruct (p y) eqn:E; simpl; [intros [= ->]; by rewrite (Hf x E)|].
  rewrite E. apply IH.
Qed.

(** The completion an answer produces. *)
Definition answer_completion (row : ParkedApproval) (session : SessionId) (job : JobId)
    (allow permanent : bool) (reason : option string) : JobCompletion :=
  mkJobCompletion session (pa_epoch row) job (approval_completion_payload allow permanent reason).

Definition row_decided (session : SessionId) (job : JobId) (allow : bool) (s : Inner) : Inner :=
  s <| in_pending_approvals :=
    <[session := update_first (same_job job) (λ r, r <| pa_decision := Some allow |>)
        (entry_vec (in_pending_approvals s) session)]> (in_pending_approvals s) |>.

Lemma row_decided_rows session job allow s :
  entry_vec (in_pending_approvals (row_decided session job allow s)) session =
  update_first (same_job job) (λ r, r <| pa_decision := Some allow |>)
    (entry_vec (in_pending_approvals s) session).
Proof. unfold row_decided. simpl. by rewrite entry_vec_insert, decide_True. Qed.

Lemma answer_run session job allow perm reason s row :
  List.find (same_job job) (entry_vec (in_pending_approvals s) session) = Some row →
  pa_decision row = None →
  answer_approval session job allow perm reason s =
    (Ok true, (apply_and_wake (answer_completion row session job allow perm reason)
                 (row_decided session job allow s)).2).
Proof.
  intros Hf Hd. unfold answer_approval. erewrite M_bind_ok by reflexivity. rewrite Hf, Hd.
  erewrite M_bind_ok by reflexivity. erewrite M_bind_ok by apply apply_and_wake_run.
  unfold answer_completion, row_decided. by rewrite apply_and_wake_run.
Qed.

Lemma answer_known session job allow perm reason s row d :
  List.find (same_job job) (entry_vec (in_pending_approvals s) session) = Some row →
  pa_decision row = Some d →
  answer_approval session job allow perm reason s = (Ok true, s).
Proof. intros Hf Hd. unfold answer_approval, mbind, M_bind, get. by rewrite Hf, Hd. Qed.

Lemma delivered_approvals c s s' :
  delivered c s s' → in_pending_approvals s' = in_pending_approvals s.
Proof. unfold delivered. case_decide; [by intros ->|by intros (r & _ & ->)]. Qed.

(** The first operator decision on a parked approval wins and reaches the
    engine intact: answering records the decision on the row, delivers the
    session one completion whose payload the engine decodes to exactly that
    allow bit and permanence, and every later answer to the same request
    succeeds without changing anything; an unknown request is reported. *)
Theorem answer_approval_first_wins n s session job allow perm reason :
  reachable n s →
  match List.find (same_job job) (entry_vec (in_pending_approvals s) session) with
  | None => answer_approval session job allow perm reason s = (Ok false, s)
  | Some row =>
      match pa_decision row with
      | Some _ => answer_approval session job allow perm reason s = (Ok true, s)
      | None =>
          ∃ s', answer_approval session job allow perm reason s = (Ok true, s') ∧
            let c := answer_completion row session job allow perm reason in
            delivered c (row_decided session job allow s) s' ∧
            decision_allows (jp_payload c) = allow ∧
            decision_permanent (jp_payload c) = allow && perm ∧
            ∀ allow' perm' reason', answer_approval session job allow' perm' reason' s' = (Ok true, s')
      end
  end.
Proof.
  intros Hn. destruct (List.find _ _) as [row|] eqn:Hf.
  2: { unfold answer_approval, mbind, M_bind, get. by rewrite Hf. }
  destruct (pa_decision row) eqn:Hd; [by eapply answer_known|].
  eexists; split; [by apply answer_run|]. intros c.
  assert (is_Some (in_sessions s !! session)) as Hs.
  { apply (rows_approvals _ _ _ _ (reachable_rows n s Hn)). unfold entry_vec in Hf.
    destruct (in_pending_approvals s !! session); [by eauto|done]. }
  assert (delivered c (row_decided session job allow s)
    (apply_and_wake c (row_decided session job allow s)).2) as Hdel
    by by apply apply_and_wake_delivered.
  split_and!; [done|apply allows_payload|apply permanent_payload|].
  intros a' p' r'. eapply (answer_known _ _ _ _ _ _ (row <| pa_decision := Some allow |>)); [|done].
  fold c. rewrite (delivered_approvals _ _ _ Hdel), row_decided_rows.
  erewrite find_update_first; [reflexivity| |exact Hf]. by intros y.
Qed.

Definition demo_parked : Inner :=
  run_ops [OpAcquireLease "s"; OpParkApproval (Checkpoint_new "s" 1 [])
    [mkParkedApproval "s" "req" 1 "rm" None None None] 1] demo_store.

Lemma answer_approval_first_wins_witness :
  ∃ s', answer_approval "s" "req" true true None demo_parked = (Ok true, s') ∧
    answer_approval "s" "req" false false None s' = (Ok true, s').
Proof.
  pose proof (answer_approval_first_wins 3 demo_parked "s" "req" true true None
    (reachable_run_ops 1 demo_store [_; _] demo_store_reachable)) as H.
  vm_compute List.find in H. simpl pa_decision in H.
  destruct H as (s' & Hrun & _ & _ & _ & Hagain). exists s'. split; [exact Hrun|apply Hagain].
Defined.

(** ** Offline snapshot edits *)

(** Editing a dormant snapshot is a compare-and-swap: it succeeds exactly
    when the session is not [Active] and still holds the expected blob, then
    only the blob changes; a second editor that read the old blob loses unless
    it would write the same bytes over itself; a lease taken in between also
    makes the edit lose. *)
Theorem swap_snapshot_cas id expected new r s :
  in_sessions s !! id = Some r →
  (sr_status r ≠ Active ∧ sr_snapshot r = expected →
   ∃ s', swap_snapshot_if_dormant id expected new s = (Ok true, s') ∧
     s' = put_session id (r <| sr_snapshot := new |>) s ∧
     (∀ other, expected ≠ new → swap_snapshot_if_dormant id expected other s' = (Ok false, s'))) ∧
  (sr_status r = Active ∨ sr_snapshot r ≠ expected →
   swap_snapshot_if_dormant id expected new s = (Ok false, s)) ∧
  (let s1 := (acquire_activation_lease id s).2 in
   swap_snapshot_if_dormant id expected new s1 = (Ok false, s1)).
Proof.
  intros Hr.
  assert (∀ r s e n, in_sessions s !! id = Some r → sr_status r = Active ∨ sr_snapshot r ≠ e →
    swap_snapshot_if_dormant id e n s = (Ok false, s)) as Hlose.
  { intros r' s' e n Hr' Hc. unfold swap_snapshot_if_dormant.
    erewrite M_bind_ok by (by apply find_session_Some). by rewrite decide_True. }
  split_and!; [|by apply Hlose|].
  - intros [Hst Hb]. eexists; split; [|split; [reflexivity|]].
    + unfold swap_snapshot_if_dormant. erewrite M_bind_ok by (by apply find_session_Some).
      by rewrite decide_False by tauto.
    + intros other Hne. eapply Hlose; [by simplify_map_eq|]. right. simpl. congruence.
  - rewrite (acquire_spec id r s Hr). eapply Hlose; [by simplify_map_eq|]. by left.
Qed.

Lemma swap_snapshot_cas_witness :
  ∃ s', swap_snapshot_if_dormant "s" [] (string_bytes "x") demo_store = (Ok true, s').
Proof.
  destruct (swap_snapshot_cas "s" [] (string_bytes "x") (mkSessionRecord "s" 0 0 Ready [] 0 0)
    demo_store eq_refl) as (H & _).
  destruct H as (s' & Hrun & _); [split; [discriminate|reflexivity]|]. exists s'. exact Hrun.
Defined.

(** ** Lineage *)

(** [parent_chain s k t p]: [p] is recorded as the [k]-th ancestor of [t]. *)
Inductive parent_chain (s : Inner) : nat → SessionId → SessionId → Prop :=
| chain_one t m p : session_meta s t = Some m → sm_parent m = Some p → parent_chain s 1 t p
| chain_more k t m q p :
    session_meta s t = Some m → sm_parent m = Some q → parent_chain s k q p →
    parent_chain s (S k) t p.

Lemma lineage_walk_spec s p t fuel :
  lineage_walk s p t fuel = true ↔ ∃ k, (k ≤ fuel)%nat ∧ parent_chain s k t p.
Proof.
  revert t. induction fuel as [|fuel IH]; intros t; simpl.
  - split; [done|]. intros (k & Hk & Hc). destruct Hc; lia.
  - split.
    + destruct (session_meta s t) as [m|] eqn:Hm; [|done].
      destruct (sm_parent m) as [q|] eqn:Hq; [|done]. case_decide as Hp.
      * intros _. subst. exists 1%nat. split; [lia|by eapply chain_one].
      * intros (k & Hk & Hc)%IH. exists (S k). split; [lia|by eapply chain_more].
    + intros (k & Hk & Hc). destruct Hc as [t m p Hm Hq|k t m q p Hm Hq Hc]; rewrite Hm, Hq.
      * by rewrite decide_True.
      * case_decide; [done|]. apply IH. exists k. split; [lia|done].
Qed.

(** The subtree check is exact and always terminates, even on a cyclic
    or missing lineage: a session owns a target exactly when the target's id
    extends the session's id by a path segment, or the session is one of the
    target's sixteen nearest recorded ancestors. *)
Theorem owns_subtree_exact s parent target :
  owns_subtree s parent target = true ↔
  (∃ rest, string_bytes target = string_bytes parent ++ string_bytes "/" ++ rest) ∨
  (∃ k, (k ≤ 16)%nat ∧ parent_chain s k target parent).
Proof.
  unfold owns_subtree. rewrite orb_true_iff, lineage_walk_spec. apply or_iff_compat_r.
  unfold starts_with. rewrite string_bytes_app. split.
  - destruct (strip_prefix _ _) as [k|] eqn:E; [|done]. intros _.
    apply strip_prefix_Some in E. exists k. by rewrite app_assoc.
  - intros (rest & ->). by rewrite app_assoc, strip_prefix_app.
Qed.

(** ** Pruning consumed rows *)

(** The number of rows [m] holds in all its inboxes. *)
Definition total_rows (m : gmap SessionId (list InboxSplice)) : nat :=
  map_fold (λ _ rows n, (length rows + n)%nat) 0%nat m.

Lemma total_rows_insert m id rows :
  m !! id = None → total_rows (<[id := rows]> m) = (length rows + total_rows m)%nat.
Proof. intros H. unfold total_rows. rewrite map_fold_insert_L; [done| |done]. lia. Qed.

Lemma length_filter_le {A} (p : A → bool) l : (length (List.filter p l) ≤ length l)%nat.
Proof. induction l; simpl; [done|]. case_match; simpl; lia. Qed.

Lemma prune_count_fold cutoff (m : gmap SessionId (list InboxSplice)) :
  N.of_nat (total_rows m) < u64_bound →
  map_fold (λ _ rows pruned, pruned +₆₄ N.of_nat (length rows - length (List.filter (retained cutoff) rows)))
    0 m = N.of_nat (total_rows m - total_rows (List.filter (retained cutoff) <$> m)) ∧
  (total_rows (List.filter (retained cutoff) <$> m) ≤ total_rows m)%nat.
Proof.
  induction m as [|id rows m Hid IH] using map_ind; intros Hb; [done|].
  rewrite fmap_insert, total_rows_insert in * by done.
  rewrite total_rows_insert by (by rewrite lookup_fmap, Hid).
  destruct IH as [IH1 IH2]; [lia|]. pose proof (length_filter_le (retained cutoff) rows).
  rewrite map_fold_insert_L; [|intros; autorewrite with wrap; f_equal; lia|done].
  rewrite IH1. split; [|lia]. rewrite wrap64_small by lia. lia.
Qed.

(** Pruning never drops live work: of every inbox it removes exactly the
    rows that are consumed and older than the cutoff, keeping the others in
    order, and it reports the number of rows removed. *)
Theorem prune_exact cutoff s :
  N.of_nat (total_rows (in_splices s)) < u64_bound →
  let s' := (prune_consumed_splices cutoff s).2 in
  (∀ id row, row ∈ entry_vec (in_splices s') id ↔ row ∈ entry_vec (in_splices s) id ∧
     (unconsumed row = true ∨ cutoff ≤ is_received_at_ms row)) ∧
  (∀ id, entry_vec (in_splices s') id `sublist_of` entry_vec (in_splices s) id) ∧
  (∀ id, has_pending_splices s' id = has_pending_splices s id) ∧
  (prune_consumed_splices cutoff s).1 =
    N.of_nat (total_rows (in_splices s) - total_rows (in_splices s')).
Proof.
  intros Hb s'.
  assert (∀ id, entry_vec (in_splices s') id =
    List.filter (retained cutoff) (entry_vec (in_splices s) id)) as Hf.
  { intros id. unfold s', entry_vec. simpl. rewrite lookup_fmap. by destruct (in_splices s !! id). }
  split_and!.
  - intros id row. rewrite Hf, list_elem_of_In, filter_In, <- list_elem_of_In.
    apply and_iff_compat_l. unfold retained, unconsumed.
    rewrite negb_andb, orb_true_iff, negb_true_iff, (negb_true_iff (_ <? _)), N.ltb_ge. done.
  - intros id. rewrite Hf. apply sublist_filter_b.
  - intros id. unfold has_pending_splices. rewrite Hf.
    induction (entry_vec (in_splices s) id) as [|row rows IH]; [done|]. simpl.
    destruct (retained cutoff row) eqn:E; simpl; rewrite IH; [done|].
    unfold retained in E. unfold unconsumed at 2. by destruct (is_consumed (is_claim row)).
  - apply prune_count_fold. exact Hb.
Qed.

Lemma prune_exact_witness :
  let s := (commit_turn (with_consumed_splices (Checkpoint_new "s" 1 []) (Some 1)) None 1 demo_inbox).2 in
  (prune_consumed_splices 6 s).1 = 1.
Proof.
  intros s. destruct (prune_exact 6 s) as (_ & _ & _ & ->); vm_compute; reflexivity.
Defined.

(** ** Usage *)

(** A session's usage is the sum of what was recorded for it: any order
    of the same deltas, on every session, gives the same totals, wrap-around
    included, and a delta recorded for one session never reaches another. *)
Theorem usage_order_independent (l k : list (SessionId * UsageDelta)) s id :
  l ≡ₚ k →
  let record s l := foldl (λ s '(i, d), record_usage i d s) s l in
  usage_of (record s l) id = usage_of (record s k) id ∧
  usage_of (record s l) id =
    foldl UsageDelta_add (usage_of s id) (filter (λ p, p.1 = id) l).*2.
Proof.
  intros Hp record.
  assert (∀ l s, usage_of (record s l) id =
    foldl UsageDelta_add (usage_of s id) (filter (λ p, p.1 = id) l).*2) as Hsum.
  { clear. intros l. induction l as [|[i d] l IH]; intros s; [done|]. cbn [record foldl].
    fold (record (record_usage i d s) l). rewrite IH.
    unfold usage_of, record_usage at 1. cbn [in_usage update].
    destruct (decide (i = id)) as [->|Hne].
    - by rewrite filter_cons_True, lookup_insert_eq.
    - by rewrite filter_cons_False, lookup_insert_ne. }
  split; [|apply Hsum]. rewrite !Hsum. set (u := usage_of s id). clearbody u. clear Hsum.
  revert u. induction Hp as [|[i d] l k Hp IH|[i d] [j e] l|l k m Hp1 IH1 Hp2 IH2]; intros u.
  - done.
  - rewrite !filter_cons. case_decide; simpl; apply IH.
  - rewrite !filter_cons. repeat (case_decide; simpl); try done.
    by rewrite <- !(assoc UsageDelta_add), (comm UsageDelta_add d).
  - by rewrite IH1.
Qed.

Lemma usage_order_independent_witness :
  let d1 := mkUsageDelta 1 2 1 0 0 0 5 in
  let d2 := mkUsageDelta 10 20 1 0 0 0 7 in
  usage_of (record_usage "s" d2 (record_usage "s" d1 demo_store)) "s" =
  usage_of (record_usage "s" d1 (record_usage "s" d2 demo_store)) "s".
Proof.
  intros d1 d2. apply (usage_order_independent [("s", d1); ("s", d2)] [("s", d2); ("s", d1)] demo_store "s").
  apply Permutation_swap.
Defined.

(** ** Errors across a placement cut *)

Definition across (e : StoreError) : StoreError := into_store_error (StoreErrorWire_from e).

(** The store's verdict survives the placement cut: a [Fenced] or
    [NotFound] error arrives as itself, no other error can arrive as one of
    them, and every error but an injected fault keeps its message. *)
Theorem error_wire_verdict e :
  (∀ have current, across e = Fenced have current ↔ e = Fenced have current) ∧
  (∀ id, across e = NotFound id ↔ e = NotFound id) ∧
  ((∀ p, e ≠ Fault p) → StoreError_to_string (across e) = StoreError_to_string e).
Proof.
  split_and!; [intros h c; by destruct e|intros i; by destruct e|].
  intros Hf. destruct e as [h c|i|i|p|d]; try done. by destruct (Hf p).
Qed.

Lemma error_wire_verdict_witness :
  StoreError_to_string (across (AlreadyExists "s")) = "session already exists: s".
Proof. apply (error_wire_verdict (AlreadyExists "s")). discriminate. Defined.

(** ** Where the tables are looser than their contracts *)

(** The dormancy check of a snapshot edit does not exclude a live
    incarnation: a completion makes a session [Ready] even while an incarnation
    holds its lease, an edit of the snapshot then passes the check and takes
    effect, and the holder's turn commit, still under the current token,
    succeeds and overwrites the edit. *)
Theorem edit_lost_under_live_lease id r c edit cp s :
  in_sessions s !! id = Some r → sr_status r = Active → jp_session_id c = id → cp_session_id cp = id →
  completion_key c ∉ in_inbox_keys s → in_fault s = None →
  ∃ s1 s2 s3 commit, record_completion_and_wake c s = (Ok tt, s1) ∧
    swap_snapshot_if_dormant id (sr_snapshot r) edit s1 = (Ok true, s2) ∧
    peek_snapshot s2 id = Some edit ∧
    commit_turn cp None (sr_fence r) s2 = (Ok commit, s3) ∧ peek_snapshot s3 id = Some (cp_snapshot cp).
Proof.
  intros Hr Hst Hc Hcp Hk Hf. subst id. rewrite (record_fresh c r s) by done.
  rewrite decide_False by (by rewrite Hf). eexists. set (s1 := enqueue_wake _ _).
  set (r2 := r <| sr_status := Ready |> <| sr_snapshot := edit |>).
  assert (swap_snapshot_if_dormant (jp_session_id c) (sr_snapshot r) edit s1 =
    (Ok true, put_session (jp_session_id c) r2 s1)) as Hswap.
  { unfold swap_snapshot_if_dormant.
    erewrite M_bind_ok by (apply find_session_Some; unfold s1; simpl; by simplify_map_eq).
    by rewrite decide_False by (intros [?|?]; done). }
  destruct (commit_turn_committed cp None (sr_fence r) r2 (put_session (jp_session_id c) r2 s1))
    as (s3 & Hrun & Htc).
  { rewrite Hcp. constructor; [by simplify_map_eq|simpl; lia|done|simpl; by rewrite Hf]. }
  eexists _, s3, _. split; [done|]. split; [exact Hswap|].
  split; [unfold peek_snapshot; by simplify_map_eq|]. split; [exact Hrun|].
  unfold peek_snapshot. rewrite (tcd_row _ _ _ _ _ Htc), Hcp. by simplify_map_eq.
Qed.

Lemma edit_lost_under_live_lease_witness :
  ∃ s1 s2 s3 commit,
    record_completion_and_wake demo_completion (acquire_activation_lease "s" demo_store).2 = (Ok tt, s1) ∧
    swap_snapshot_if_dormant "s" [] (string_bytes "edit") s1 = (Ok true, s2) ∧
    peek_snapshot s2 "s" = Some (string_bytes "edit") ∧
    commit_turn (Checkpoint_new "s" 1 (string_bytes "turn")) None 1 s2 = (Ok commit, s3) ∧
    peek_snapshot s3 "s" = Some (string_bytes "turn").
Proof.
  apply (edit_lost_under_live_lease "s" (mkSessionRecord "s" 0 0 Active [] 1 0) demo_completion
    (string_bytes "edit") (Checkpoint_new "s" 1 (string_bytes "turn"))
    (acquire_activation_lease "s" demo_store).2); try reflexivity.
  apply (bool_decide_unpack _). vm_compute. exact I.
Defined.

(** Binding a delegation twice lists the child twice; creating the child with
    its edge does not. *)
Lemma bind_delegation_duplicates child job s :
  children_of (bind_delegation child job (bind_delegation child job s).2).2 (jc_session_id job) =
  children_of s (jc_session_id job) ++ [child; child].
Proof.
  unfold children_of, bind_delegation, modify, entry_push. simpl.
  rewrite entry_vec_insert, decide_True, entry_vec_insert, decide_True by done. by rewrite <- app_assoc.
Qed.

(** Two suggestions with one dedup key are both kept. *)
Lemma suggestion_keys_not_unique a b s :
  cs_id a ≠ cs_id b → cs_dedup_key a = cs_dedup_key b →
  let s' := (cron_suggestion_set b (cron_suggestion_set a s).2).2 in
  cron_suggestion_get s' (cs_id a) = Some a ∧ cron_suggestion_get s' (cs_id b) = Some b.
Proof. intros Hab _ s'. unfold s', cron_suggestion_get. simpl. by simplify_map_eq. Qed.
