(* ===== verification/JournalPaging.v ===== *)
(** * Correctness of the journal reads

    Appends, forward and backward paging, and segment loads of the verifiable
    journal, for every reachable store. *)

From S2P Require Import Prelude Text Common Approval StoreTypes Store StoreInv Journal Registry.
From S2P Require Import StoreSteps StoreHistory StoreLease StoreCommit.

#[local] Open Scope N_scope.
#[local] Open Scope daemon_scope.

(** ** Sorting sorted logs *)

Lemma sort_by_cursor log :
  StronglySorted (<) (je_cursor <$> log) → sort_by cursor_leb log = log.
Proof.
  intros H. apply sort_by_id. eapply (StronglySorted_fmap_impl je_cursor); [|exact H].
  intros x y Hxy. apply N.leb_le. lia.
Qed.

(** The entries after a cursor, and before one. *)
Definition after (c : N) (log : list JournalEntry) : list JournalEntry :=
  filter (λ e, c < je_cursor e) log.
Definition before (c : N) (log : list JournalEntry) : list JournalEntry :=
  filter (λ e, je_cursor e < c) log.

Definition sorted_log (log : list JournalEntry) : Prop := StronglySorted (<) (je_cursor <$> log).

Lemma sorted_log_sublist l k : l `sublist_of` k → sorted_log k → sorted_log l.
Proof. intros Hs. apply StronglySorted_sublist. by apply sublist_fmap. Qed.

Lemma sorted_log_after c log : sorted_log log → sorted_log (after c log).
Proof. apply sorted_log_sublist, sublist_filter. Qed.
Lemma sorted_log_before c log : sorted_log log → sorted_log (before c log).
Proof. apply sorted_log_sublist, sublist_filter. Qed.

Lemma load_journal_entries s stream c max :
  sorted_log (entry_vec (in_journal_entries s) stream) →
  pg_entries (load_journal s stream c max) = truncate max (after c (entry_vec (in_journal_entries s) stream)) ∧
  (is_Some (in_journal_entries s !! stream) →
   pg_next_cursor (load_journal s stream c max) =
     from_option je_cursor c (last (pg_entries (load_journal s stream c max)))).
Proof.
  unfold load_journal, entry_vec. destruct (in_journal_entries s !! stream) as [log|]; simpl; intros Hs.
  - fold (after c log). by rewrite (sort_by_cursor (after c log)) by by apply sorted_log_after.
  - split; [unfold truncate; change (after c []) with (@nil JournalEntry); case_match; by rewrite ?take_nil|by intros [? ?]].
Qed.

Lemma load_journal_before_entries s stream c max :
  sorted_log (entry_vec (in_journal_entries s) stream) →
  pg_entries (load_journal_before s stream c max) =
    keep_last max (before c (entry_vec (in_journal_entries s) stream)) ∧
  (is_Some (in_journal_entries s !! stream) →
   pg_next_cursor (load_journal_before s stream c max) =
     from_option je_cursor c (head (pg_entries (load_journal_before s stream c max)))).
Proof.
  unfold load_journal_before, entry_vec. destruct (in_journal_entries s !! stream) as [log|]; simpl; intros Hs.
  - fold (before c log). by rewrite (sort_by_cursor (before c log)) by by apply sorted_log_before.
  - split; [unfold keep_last; change (before c []) with (@nil JournalEntry); case_match; by rewrite ?drop_nil|by intros [? ?]].
Qed.

(** ** Cutting a sorted log *)

Lemma filter_all {A} (P : A → Prop) `{∀ x, Decision (P x)} (l : list A) : Forall P l → filter P l = l.
Proof. induction 1; [done|]. by rewrite filter_cons_True, IHForall. Qed.
Lemma filter_nothing {A} (P : A → Prop) `{∀ x, Decision (P x)} (l : list A) :
  Forall (λ x, ¬ P x) l → filter P l = [].
Proof. induction 1; [done|]. by rewrite filter_cons_False, IHForall. Qed.

Lemma sorted_log_app l k :
  sorted_log (l ++ k) → sorted_log l ∧ sorted_log k ∧
  (∀ x y, x ∈ l → y ∈ k → je_cursor x < je_cursor y).
Proof.
  unfold sorted_log. rewrite fmap_app, StronglySorted_app. intros (H & Hl & Hk). split_and!; [done..|].
  intros x y Hx Hy. apply H; by apply list_elem_of_fmap_2.
Qed.

(** Splitting at an entry: what comes after it, and what comes before. *)
Lemma after_split l e k : sorted_log (l ++ e :: k) → after (je_cursor e) (l ++ e :: k) = k.
Proof.
  intros Hs. change (e :: k) with ([e] ++ k) in *. rewrite app_assoc in *.
  apply sorted_log_app in Hs as (Hl & Hk & Hlt). unfold after. rewrite filter_app.
  rewrite filter_nothing, filter_all; [done|..].
  - apply Forall_forall. intros x Hx. apply Hlt; [set_solver|done].
  - apply sorted_log_app in Hl as (_ & _ & Hlt'). apply Forall_forall.
    intros x [Hx| ->%list_elem_of_singleton]%elem_of_app; [|lia].
    assert (je_cursor x < je_cursor e) by (apply Hlt'; set_solver). lia.
Qed.

Lemma before_split l e k : sorted_log (l ++ e :: k) → before (je_cursor e) (l ++ e :: k) = l.
Proof.
  intros Hs. apply sorted_log_app in Hs as (Hl & Hk & Hlt). unfold before. rewrite filter_app.
  rewrite filter_all, filter_nothing; [by rewrite app_nil_r|..].
  - constructor; [lia|]. change (e :: k) with ([e] ++ k) in Hk.
    apply sorted_log_app in Hk as (_ & _ & Hlt'). apply Forall_forall. intros x Hx.
    assert (je_cursor e < je_cursor x) by (apply Hlt'; set_solver). lia.
  - apply Forall_forall. intros x Hx. apply Hlt; set_solver.
Qed.

Lemma after_after c d log : c ≤ d → after d (after c log) = after d log.
Proof.
  intros Hcd. unfold after. rewrite list_filter_filter. apply list_filter_iff. intros x. lia.
Qed.
Lemma before_before c d log : d ≤ c → before d (before c log) = before d log.
Proof.
  intros Hcd. unfold before. rewrite list_filter_filter. apply list_filter_iff. intros x. lia.
Qed.

(** ** Paging *)

(** A client that follows [next_cursor] until a page is empty. *)
Fixpoint read_forward (fuel : nat) (s : Inner) (stream : JournalStreamId) (cursor max : N)
    : list JournalEntry :=
  match fuel with
  | O => []
  | S fuel' =>
      let page := load_journal s stream cursor max in
      match pg_entries page with
      | [] => []
      | es => es ++ read_forward fuel' s stream (pg_next_cursor page) max
      end
  end.

Fixpoint read_backward (fuel : nat) (s : Inner) (stream : JournalStreamId) (cursor max : N)
    : list JournalEntry :=
  match fuel with
  | O => []
  | S fuel' =>
      let page := load_journal_before s stream cursor max in
      match pg_entries page with
      | [] => []
      | es => read_backward fuel' s stream (pg_next_cursor page) max ++ es
      end
  end.

Lemma entries_present (s : Inner) stream e :
  e ∈ entry_vec (in_journal_entries s) stream → is_Some (in_journal_entries s !! stream).
Proof.
  unfold entry_vec. destruct (in_journal_entries s !! stream); [eauto|]. by intros ?%not_elem_of_nil.
Qed.

Lemma read_forward_spec s stream fuel c max :
  let log := entry_vec (in_journal_entries s) stream in
  sorted_log log → max ≠ 0 → (length (after c log) < fuel)%nat →
  read_forward fuel s stream c max = after c log.
Proof.
  intros log Hs Hmax. revert c. induction fuel as [|fuel IH]; intros c Hlen; [lia|].
  cbn [read_forward]. destruct (load_journal_entries s stream c max Hs) as [He Hnext]. fold log in He.
  rewrite He in *. unfold truncate in *. rewrite (proj2 (N.eqb_neq _ _) Hmax) in *.
  destruct (N.to_nat max) as [|m] eqn:Em; [lia|].
  destruct (after c log) as [|x F] eqn:EF; [done|].
  assert (∃ l e, take (S m) (x :: F) = l ++ [e]) as (l & e & Hle).
  { destruct (exists_last (l := take (S m) (x :: F))) as (l & e & ?); [done|by eauto]. }
  rewrite Hle in *. rewrite last_snoc in Hnext. simpl in Hnext.
  assert (x :: F = l ++ e :: drop (S m) (x :: F)) as Hcut.
  { rewrite <- (take_drop (S m) (x :: F)) at 1. by rewrite Hle, <- app_assoc. }
  assert (e ∈ after c log) as Hin by (rewrite EF, Hcut; set_solver).
  assert (c < je_cursor e ∧ e ∈ log) as [Hc Hel] by by apply list_elem_of_filter in Hin.
  rewrite (Hnext (entries_present s stream e Hel)).
  assert (after (je_cursor e) log = drop (S m) (x :: F)) as Hafter.
  { rewrite <- (after_after c) by lia. rewrite EF, Hcut at 1. apply after_split.
    rewrite <- Hcut, <- EF. by apply sorted_log_after. }
  rewrite IH, Hafter.
  - trans ((l ++ [e]) ++ drop (S m) (x :: F)); [by destruct l|]. rewrite <- app_assoc. by symmetry.
  - rewrite Hafter, length_drop. simpl in *. lia.
Qed.

(** Forward paging reads the journal completely: following the returned
    cursors from any position, with any page size, yields exactly the entries
    after that position, each once and in order. *)
Theorem forward_paging_complete n s stream c max :
  reachable n s → in_range n → max ≠ 0 →
  let log := entry_vec (in_journal_entries s) stream in
  read_forward (S (length log)) s stream c max = filter (λ e, c < je_cursor e) log.
Proof.
  intros Hr Hn Hmax log. apply read_forward_spec; [|done|].
  - apply (wf_journal _ (reachable_wf n s Hr Hn)).
  - apply le_n_S, sublist_length, sublist_filter.
Qed.

(** A store with three entries on stream ["s"] and one elsewhere. *)
Definition demo_entry (seq : N) : TraceEntry := mkTraceEntry seq [] [].
Definition demo_journal : Inner :=
  run_ops [OpAppendTrace "s" 0 (demo_entry 0) None; OpAppendTrace "t" 0 (demo_entry 0) None;
           OpAppendTrace "s" 1 (demo_entry 0) None; OpAppendTrace "s" 0 (demo_entry 1) None]
    InMemoryStore_new.

Lemma demo_journal_reachable : reachable 4 demo_journal.
Proof. exact (reachable_run_ops 0 InMemoryStore_new [_; _; _; _] reachable_new). Qed.

Lemma forward_paging_complete_witness :
  read_forward (S (length (entry_vec (in_journal_entries demo_journal) "s"))) demo_journal "s" 0 2 =
    [mkJournalEntry 1 0 (demo_entry 0); mkJournalEntry 3 1 (demo_entry 0); mkJournalEntry 4 0 (demo_entry 1)].
Proof.
  rewrite (forward_paging_complete 4 demo_journal "s" 0 2 demo_journal_reachable);
    [vm_compute; reflexivity|vm_compute; reflexivity|discriminate].
Defined.

Lemma read_backward_spec s stream fuel c max :
  let log := entry_vec (in_journal_entries s) stream in
  sorted_log log → max ≠ 0 → (length (before c log) < fuel)%nat →
  read_backward fuel s stream c max = before c log.
Proof.
  intros log Hs Hmax. revert c. induction fuel as [|fuel IH]; intros c Hlen; [lia|].
  cbn [read_backward]. destruct (load_journal_before_entries s stream c max Hs) as [He Hnext]. fold log in He.
  rewrite He in *. unfold keep_last in *. rewrite (proj2 (N.eqb_neq _ _) Hmax) in *.
  set (k := (length (before c log) - N.to_nat max)%nat) in *.
  destruct (drop k (before c log)) as [|e es] eqn:Ed.
  { apply drop_nil_inv in Ed. unfold k in Ed. destruct (before c log); simpl in *; [done|lia]. }
  simpl in Hnext.
  assert (before c log = take k (before c log) ++ e :: es) as Hcut by (by rewrite <- Ed, take_drop).
  assert (e ∈ before c log) as Hin by (rewrite Hcut; set_solver).
  assert (je_cursor e < c ∧ e ∈ log) as [Hc Hel] by by apply list_elem_of_filter in Hin.
  rewrite (Hnext (entries_present s stream e Hel)).
  assert (before (je_cursor e) log = take k (before c log)) as Hbefore.
  { rewrite <- (before_before c) by lia. rewrite Hcut at 1. apply before_split.
    rewrite <- Hcut. by apply sorted_log_before. }
  rewrite IH, Hbefore; [by rewrite <- Hcut|].
  rewrite Hbefore, length_take. apply (f_equal length) in Ed. rewrite length_drop in Ed. simpl in Ed. lia.
Qed.

(** Backward paging mirrors it: following the cursors back from any
    position, with any page size, yields exactly the entries before that
    position, in order. *)
Theorem backward_paging_complete n s stream c max :
  reachable n s → in_range n → max ≠ 0 →
  let log := entry_vec (in_journal_entries s) stream in
  read_backward (S (length log)) s stream c max = filter (λ e, je_cursor e < c) log.
Proof.
  intros Hr Hn Hmax log. apply read_backward_spec; [|done|].
  - apply (wf_journal _ (reachable_wf n s Hr Hn)).
  - apply le_n_S, sublist_length, sublist_filter.
Qed.

Lemma backward_paging_complete_witness :
  read_backward (S (length (entry_vec (in_journal_entries demo_journal) "s"))) demo_journal "s" 4 1 =
    [mkJournalEntry 1 0 (demo_entry 0); mkJournalEntry 3 1 (demo_entry 0)].
Proof.
  rewrite (backward_paging_complete 4 demo_journal "s" 4 1 demo_journal_reachable);
    [vm_compute; reflexivity|vm_compute; reflexivity|discriminate].
Defined.

(** ** Appends *)

Definition stream_fence_ok (s : Inner) (stream : JournalStreamId) (fence : option FenceToken) : Prop :=
  match fence with
  | None => True
  | Some f => ∃ r, in_sessions s !! stream = Some r ∧ sr_fence r ≤ f
  end.

Lemma check_stream_fence_ok s stream fence :
  stream_fence_ok s stream fence → check_stream_fence stream fence s = (Ok tt, s).
Proof.
  destruct fence as [f|]; [|done]. intros (r & Hr & Hf). unfold check_stream_fence.
  erewrite M_bind_ok by (by apply find_session_Some). by apply check_fence_ok.
Qed.

Lemma append_trace_run s stream seg entry fence :
  stream_fence_ok s stream fence →
  append_trace stream seg entry fence s =
    (Ok tt, if existsb (same_slot seg (te_seq entry)) (entry_vec (in_journal_entries s) stream)
            then s else push_entry stream seg entry s).
Proof.
  intros Hf. unfold append_trace. erewrite M_bind_ok by (by apply check_stream_fence_ok).
  erewrite M_bind_ok by reflexivity. by case_match.
Qed.

Lemma same_slot_spec seg entry log :
  existsb (same_slot seg (te_seq entry)) log = true ↔ (seg, te_seq entry) ∈ (entry_slot <$> log).
Proof.
  rewrite existsb_true_Exists, Exists_exists, list_elem_of_fmap. apply exist_proper. intros e.
  unfold same_slot, entry_slot. rewrite andb_true_iff, !N.eqb_eq. split.
  - intros (? & ? & ?). split; [congruence|done].
  - intros ([= -> ->] & ?). done.
Qed.

(** The journal is append-only and idempotent: an authorised append of a
    new [(segment, seq)] adds one entry at the end of its stream under a cursor
    above every cursor of every stream, and changes no other stream; of a known
    one it changes nothing, even with other bytes. *)
Theorem append_trace_correct n s stream seg entry fence :
  reachable n s → in_range (S n) → stream_fence_ok s stream fence →
  let log := entry_vec (in_journal_entries s) stream in
  if decide ((seg, te_seq entry) ∈ (entry_slot <$> log))
  then append_trace stream seg entry fence s = (Ok tt, s)
  else ∃ s' c, append_trace stream seg entry fence s = (Ok tt, s') ∧
    entry_vec (in_journal_entries s') stream = log ++ [mkJournalEntry c seg entry] ∧
    (∀ t, t ≠ stream → entry_vec (in_journal_entries s') t = entry_vec (in_journal_entries s) t) ∧
    (∀ t e, e ∈ entry_vec (in_journal_entries s) t → je_cursor e < c).
Proof.
  intros Hr Hn Hf log. rewrite (append_trace_run s stream seg entry fence Hf). fold log.
  case_decide as Hslot; rewrite <- same_slot_spec in Hslot.
  { by rewrite Hslot. }
  apply not_true_iff_false in Hslot. rewrite Hslot. eexists _, (in_journal_cursor s +₆₄ 1).
  split; [reflexivity|]. simpl. unfold entry_push. split_and!.
  - by rewrite entry_vec_insert, decide_True.
  - intros t Ht. by rewrite entry_vec_insert, decide_False.
  - intros t e He. unfold in_range in Hn.
    pose proof (reachable_counters n s Hr ltac:(unfold in_range; lia)) as Hc.
    rewrite (wrap_succ _ _ (ctr_cursor _ _ Hc)) by (unfold u64_bound in *; lia).
    destruct (wf_journal _ (reachable_wf n s Hr ltac:(unfold in_range; lia)) t) as (_ & Hall & _).
    rewrite Forall_forall in Hall. specialize (Hall e He). simpl in Hall. lia.
Qed.

Lemma append_trace_correct_witness :
  append_trace "s" 0 (mkTraceEntry 1 (string_bytes "other") []) None demo_journal = (Ok tt, demo_journal).
Proof.
  pose proof (append_trace_correct 4 demo_journal "s" 0 (mkTraceEntry 1 (string_bytes "other") []) None
    demo_journal_reachable ltac:(vm_compute; reflexivity) I) as H.
  cbv zeta in H. rewrite decide_True in H; [exact H|].
  apply (bool_decide_unpack _). vm_compute. exact I.
Defined.

(** ** Pages are stable *)

Lemma after_prefix c l k : l `prefix_of` k → after c l `prefix_of` after c k.
Proof. intros [m ->]. exists (after c m). apply filter_app. Qed.

Lemma truncate_prefix {A} max (l k : list A) : l `prefix_of` k → truncate max l `prefix_of` truncate max k.
Proof.
  intros [m ->]. unfold truncate. case_match; [by exists m|].
  rewrite take_app. by eexists.
Qed.

Lemma prefix_full {A} (l k : list A) : l `prefix_of` k → (length k ≤ length l)%nat → l = k.
Proof.
  intros [m ->] Hl. rewrite length_app in Hl. destruct m; [by rewrite app_nil_r|simpl in *; lia].
Qed.

(** A page read once stays read: whatever the store does afterwards, the
    page from the same position starts with the same entries, and a page that
    was full is returned unchanged. *)
Theorem journal_page_stable n s stream c max ops :
  reachable n s → in_range (n + length ops) →
  let old := pg_entries (load_journal s stream c max) in
  let new := pg_entries (load_journal (run_ops ops s) stream c max) in
  old `prefix_of` new ∧ (max ≠ 0 → length old = N.to_nat max → new = old).
Proof.
  intros Hr Hn old new. unfold in_range in Hn.
  assert (old = truncate max (after c (entry_vec (in_journal_entries s) stream))) as Hold.
  { apply load_journal_entries, (wf_journal _ (reachable_wf n s Hr ltac:(unfold in_range; lia))). }
  assert (new = truncate max (after c (entry_vec (in_journal_entries (run_ops ops s)) stream))) as Hnew.
  { apply load_journal_entries, (wf_journal _ (reachable_wf _ _ (reachable_run_ops n s ops Hr) Hn)). }
  assert (old `prefix_of` new) as Hp.
  { rewrite Hold, Hnew. apply truncate_prefix, after_prefix, (ev_log _ _ (run_ops_evolves n s ops Hr Hn)). }
  split; [done|]. intros Hmax Hlen. symmetry. apply prefix_full; [done|].
  rewrite Hlen, Hnew. unfold truncate. rewrite (proj2 (N.eqb_neq _ _) Hmax), length_take. lia.
Qed.

Lemma journal_page_stable_witness :
  let old := pg_entries (load_journal demo_journal "s" 0 2) in
  pg_entries (load_journal (run_ops [OpAppendTrace "s" 2 (demo_entry 0) None] demo_journal) "s" 0 2) = old.
Proof.
  apply (journal_page_stable 4 demo_journal "s" 0 2 [OpAppendTrace "s" 2 (demo_entry 0) None]
    demo_journal_reachable); [vm_compute; reflexivity|discriminate|vm_compute; reflexivity].
Defined.

(** ** Segments *)

Lemma NoDup_fmap_strong {A B} (f : A → B) (l : list A) :
  NoDup l → (∀ x y, x ∈ l → y ∈ l → f x = f y → x = y) → NoDup (f <$> l).
Proof.
  intros Hl. induction Hl as [|x l Hx Hl IH]; intros Hf; simpl; [constructor|]. constructor.
  - intros (y & Hy & Hin)%list_elem_of_fmap. destruct Hx.
    rewrite (Hf x y); [done|set_solver..|done].
  - apply IH. set_solver.
Qed.

Lemma StronglySorted_strict {A} (f : A → N) l :
  StronglySorted (λ x y, f x ≤ f y) l → NoDup (f <$> l) → StronglySorted (λ x y, f x < f y) l.
Proof.
  induction 1 as [|x l Hl IH Hx]; simpl; [constructor|]. intros [Hn1 Hn2]%NoDup_cons.
  constructor; [by apply IH|]. rewrite Forall_forall in *. intros y Hy.
  specialize (Hx y Hy). destruct (N.eq_dec (f x) (f y)) as [Heq|]; [|lia].
  destruct Hn1. rewrite Heq. by apply list_elem_of_fmap_2.
Qed.

(** Loading a segment returns exactly its entries, in strictly increasing
    sequence order whatever order they were appended in, with the sealed root
    if any; it returns nothing exactly when the segment has neither. *)
Theorem load_trace_segment_exact n s stream seg :
  reachable n s → in_range n →
  let mine := je_entry <$> filter (λ e, je_segment e = seg) (entry_vec (in_journal_entries s) stream) in
  let root := in_journal_roots s !! (stream, seg) in
  match load_trace_segment s stream seg with
  | Some sg => sg_stream sg = stream ∧ sg_segment sg = seg ∧ sg_committed sg = root ∧
      sg_entries sg ≡ₚ mine ∧ StronglySorted (λ x y, te_seq x < te_seq y) (sg_entries sg)
  | None => mine = [] ∧ root = None
  end.
Proof.
  intros Hr Hn mine root.
  destruct (wf_journal _ (reachable_wf n s Hr Hn) stream) as (_ & _ & Hnd).
  assert (NoDup (te_seq <$> mine)) as Hseq.
  { unfold mine. rewrite <- list_fmap_compose.
    set (F := filter _ _). assert (NoDup (entry_slot <$> F)) as HF.
    { eapply sublist_NoDup; [exact Hnd|]. apply sublist_fmap, sublist_filter. }
    assert (Forall (λ e, je_segment e = seg) F) as Hseg.
    { apply Forall_forall. intros e He. by apply list_elem_of_filter in He as [He _]. }
    rewrite Forall_forall in Hseg. apply NoDup_fmap_strong; [by eapply NoDup_fmap_1|].
    intros x y Hx Hy Hxy. apply (NoDup_fmap_key entry_slot F x y HF Hx Hy).
    unfold entry_slot. rewrite (Hseg x Hx), (Hseg y Hy). by f_equal. }
  assert (sort_by seq_leb mine ≡ₚ mine) as Hp by apply sort_by_perm.
  assert (StronglySorted (λ x y, te_seq x < te_seq y) (sort_by seq_leb mine)) as Hs.
  { apply StronglySorted_strict; [|by rewrite Hp].
    apply sort_by_sorted; [intros x y z; lia| |]; intros x y; unfold seq_leb; [rewrite N.leb_le|rewrite N.leb_gt]; lia. }
  unfold load_trace_segment. fold mine root.
  destruct (sort_by seq_leb mine) as [|e es] eqn:E; [|by simpl].
  assert (mine = []) as Hm by (symmetry; by apply Permutation_nil_l). destruct root; simpl; [|done].
  rewrite Hm. by split_and!.
Qed.

Lemma load_trace_segment_exact_witness :
  ∃ sg, load_trace_segment demo_journal "s" 0 = Some sg ∧ length (sg_entries sg) = 2%nat ∧
    StronglySorted (λ x y, te_seq x < te_seq y) (sg_entries sg).
Proof.
  pose proof (load_trace_segment_exact 4 demo_journal "s" 0 demo_journal_reachable
    ltac:(vm_compute; reflexivity)) as H. cbv zeta in H.
  destruct (load_trace_segment demo_journal "s" 0) as [sg|] eqn:E; [|exfalso; vm_compute in E; discriminate].
  exists sg. destruct H as (_ & _ & _ & Hp & Hs). split; [done|]. split; [|exact Hs].
  rewrite Hp. vm_compute. reflexivity.
Defined.
