(* ===== verification/HostTables.v ===== *)
(** * Correctness of the host tables

    The due scan, run retention, command deduplication and the feedback outbox,
    for every reachable store. *)

From S2P Require Import Prelude Text Common Approval StoreTypes Store StoreInv Journal Registry.
From S2P Require Import StoreSteps.

#[local] Open Scope N_scope.
#[local] Open Scope daemon_scope.

(** ** The tables other operations leave alone *)

Definition host_view (s : Inner) :=
  (in_cron_jobs s, in_cron_runs s, in_feedback_outbox s, in_saved_presences s).

Lemma host_consume id u t s : host_view (consume_splices_locked id u t s) = host_view s.
Proof. unfold consume_splices_locked. by case_match. Qed.
Lemma host_drop id keys s : host_view (drop_applied id keys s) = host_view s.
Proof. unfold drop_applied. by repeat case_match. Qed.
Lemma host_seal id seal s : host_view (seal_turn id seal s) = host_view s.
Proof. by destruct seal. Qed.
Lemma host_enqueue_job job s : host_view (enqueue_job job s) = host_view s.
Proof. unfold enqueue_job. by case_decide. Qed.
Lemma host_bind_edge id e s : host_view (bind_edge id e s) = host_view s.
Proof. by destruct e as [[]|]. Qed.
Lemma host_push id row s : host_view (push_splice id row s) = host_view s.
Proof. done. Qed.
Lemma host_put id r s : host_view (put_session id r s) = host_view s.
Proof. done. Qed.
Lemma host_wake id s : host_view (enqueue_wake id s) = host_view s.
Proof. done. Qed.
Lemma host_stamp id now s : host_view (stamp_terminal id now s) = host_view s.
Proof. done. Qed.
Lemma host_claim id f s : host_view (claim_splices_locked id f s).2 = host_view s.
Proof. unfold claim_splices_locked. by case_match. Qed.
Lemma host_apply c s : host_view (apply_completion_locked c s).2 = host_view s.
Proof. unfold apply_completion_locked. case_decide; [done|]. cbv zeta. by case_match. Qed.
Lemma host_notice cp s : host_view (fire_notice cp s) = host_view s.
Proof. unfold fire_notice. by repeat case_match. Qed.
Lemma host_entry st seg e s : host_view (push_entry st seg e s) = host_view s.
Proof. done. Qed.
Lemma host_approvals x s : host_view (s <| in_pending_approvals := x |>) = host_view s.
Proof. done. Qed.
Lemma host_fault x s : host_view (s <| in_fault := x |>) = host_view s.
Proof. done. Qed.
Lemma host_policy x s : host_view (s <| in_execution_policy := x |>) = host_view s.
Proof. done. Qed.
Lemma host_meta x s : host_view (s <| in_session_meta := x |>) = host_view s.
Proof. done. Qed.

Create Rewrite HintDb host.
#[export] Hint Rewrite host_consume host_drop host_seal host_enqueue_job host_bind_edge host_push
  host_put host_wake host_stamp host_claim host_apply host_notice host_entry host_approvals host_fault host_policy host_meta : host.

(** Symbolic execution of an operation that leaves the host tables alone. *)
Ltac solve_host :=
  lazymatch goal with |- host_view (?m ?s).2 = _ =>
    change (wp m (λ _ s', host_view s' = host_view s) s) end;
  store_steps; autorewrite with host; reflexivity.

(** The operations that write a host table. *)
Definition host_op (op : StoreOp) : bool :=
  match op with
  | OpFeedbackEnqueue _ | OpFeedbackDelivered _ | OpCronSet _ | OpCronRemove _ | OpCronRunAppend _
  | OpPresenceSet _ | OpPresenceRemove _ => true
  | _ => false
  end.

Lemma host_frame op s : host_op op = false → host_view (run_op op s) = host_view s.
Proof.
  intros Hop. destruct op; try discriminate Hop; cbn [run_op]; try reflexivity.
  all: try (unfold create_session, create_idle, create_runnable, reopen_if_settled, mark_ready_if_idle,
    append_splice, claim_splices, acquire_activation_lease, load_for_activation,
    checkpoint_and_enqueue, mark_completed, commit_turn, record_completion_and_wake,
    park_approval, answer_approval, swap_snapshot_if_dormant, append_trace, commit_trace_segment,
    check_stream_fence; solve_host).
  - unfold dequeue_completion_notice. by case_match.
  - unfold dequeue_job. by case_match.
  - unfold dequeue_wake. by case_match.
  - unfold command_dedup_get. by repeat case_match.
Qed.

(** ** The invariant of the host tables *)

Definition host_ok (v : gmap string StoredCronJob * gmap string (list StoredCronRun) *
    list FeedbackRecord * list StoredSavedPresence) : Prop :=
  let '(jobs, runs, feedback, presences) := v in
  (∀ id j, jobs !! id = Some j → cj_id j = id) ∧
  (∀ id rs, runs !! id = Some rs → (length rs ≤ CRON_RUN_RETENTION)%nat ∧ Forall (λ r, cu_job_id r = id) rs) ∧
  NoDup (fb_id <$> feedback) ∧ NoDup (sp_id <$> presences).

Definition host_wf (s : Inner) : Prop := host_ok (host_view s).

Lemma NoDup_push {A B} (f : A → B) `{EqDecision B} l x :
  existsb (λ y, bool_decide (f y = f x)) l = false → NoDup (f <$> l) → NoDup (f <$> l ++ [x]).
Proof.
  intros He Hl. rewrite fmap_app. apply NoDup_app. split_and!; [done| |apply NoDup_singleton].
  intros k (y & -> & Hy)%list_elem_of_fmap Hk%list_elem_of_singleton.
  apply existsb_false_Forall in He. rewrite Forall_forall in He.
  specialize (He y Hy). by apply bool_decide_eq_false in He.
Qed.

Lemma fmap_update_first_key {A B} (g : A → B) (p : A → bool) (f : A → A) (l : list A) :
  (∀ x, p x = true → g (f x) = g x) → g <$> update_first p f l = g <$> l.
Proof.
  intros Hg. induction l as [|x l IH]; simpl; [done|].
  destruct (p x) eqn:E; csimpl; [by rewrite Hg|by rewrite IH].
Qed.

Lemma run_append_ok (runs : list StoredCronRun) run :
  (length runs ≤ CRON_RUN_RETENTION)%nat ∧ Forall (λ r, cu_job_id r = cu_job_id run) runs →
  let rs := drop (length (runs ++ [run]) - CRON_RUN_RETENTION) (runs ++ [run]) in
  (length rs ≤ CRON_RUN_RETENTION)%nat ∧ Forall (λ r, cu_job_id r = cu_job_id run) rs.
Proof.
  intros [Hl Hf] rs. split; [unfold rs; rewrite length_drop; lia|].
  unfold rs. apply Forall_drop, Forall_app. by repeat constructor.
Qed.

Lemma run_op_host op s : host_wf s → host_wf (run_op op s).
Proof.
  destruct (host_op op) eqn:Hop.
  2: { intros H. unfold host_wf. by rewrite host_frame. }
  unfold host_wf, host_ok, host_view. destruct op; try discriminate Hop; cbn [run_op]; simpl;
    intros (Hj & Hr & Hf & Hp).
  - case_match eqn:E; [done|]. split_and!; [done..| |done]. simpl. by apply (NoDup_push fb_id).
  - split_and!; [done..| |done]. by rewrite fmap_update_first.
  - split_and!; try done. intros id j. rewrite lookup_insert_Some. intros [[<- <-]|[_ ?]]; eauto.
  - split_and!; try done.
    + intros i j [_ ?]%lookup_delete_Some. eauto.
    + intros i rs [_ ?]%lookup_delete_Some. eauto.
  - split_and!; try done. intros id rs. rewrite lookup_insert_Some. intros [[<- <-]|[_ ?]]; [|eauto].
    apply run_append_ok. unfold entry_vec.
    destruct (in_cron_runs s !! cu_job_id run) as [rs|] eqn:E; simpl; [by apply Hr|].
    split; [lia|constructor].
  - split_and!; [done..|]. case_match eqn:E; [|by apply (NoDup_push sp_id)].
    rewrite fmap_update_first_key; [done|]. intros x Hx. by apply bool_decide_eq_true in Hx.
  - split_and!; [done..|]. eapply sublist_NoDup; [exact Hp|]. apply sublist_fmap, sublist_filter.
Qed.

Lemma reachable_host n s : reachable n s → host_wf s.
Proof.
  induction 1 as [|n s op _ IH]; [|by apply run_op_host].
  split_and!; [intros ? ? ?; by simplify_map_eq|intros ? ? ?; by simplify_map_eq|constructor|constructor].
Qed.

(** ** Sorting by a rank and a name *)

Section lex.
Context {A : Type} (rank : A → Z) (name : A → string).

Definition lex_le (x y : A) : Prop :=
  (rank x < rank y)%Z ∨ rank x = rank y ∧ String.le (name x) (name y).

#[local] Instance lex_le_trans : Transitive lex_le.
Proof.
  intros x y z [?|[? ?]] [?|[? ?]]; unfold lex_le; [left; lia..|right]. split; [lia|by etrans].
Qed.

Lemma lex_le_antisym x y : lex_le x y → lex_le y x → rank x = rank y ∧ name x = name y.
Proof.
  intros [?|[? ?]] [?|[? ?]]; [lia..|]. split; [done|]. by apply (anti_symm String.le).
Qed.

Lemma lex_le_total x y : ¬ lex_le x y → lex_le y x.
Proof.
  intros H. unfold lex_le in *. destruct (Z.lt_total (rank x) (rank y)) as [?|[?|?]]; [tauto| |by left].
  right. split; [done|]. destruct (total String.le (name x) (name y)); [tauto|done].
Qed.

Lemma sort_by_lex (leb : A → A → bool) l :
  (∀ x y, leb x y = true ↔ lex_le x y) → StronglySorted lex_le (sort_by leb l).
Proof.
  intros Hleb. apply sort_by_sorted; [apply lex_le_trans| |]; intros x y H; [by apply Hleb|].
  apply lex_le_total. rewrite <- Hleb. by rewrite H.
Qed.

(** Sorted lists of the same elements with distinct names coincide. *)
Lemma lex_sorted_unique l k :
  StronglySorted lex_le l → StronglySorted lex_le k → l ≡ₚ k → NoDup (name <$> l) → l = k.
Proof.
  intros Hl Hk Hp Hn. apply (StronglySorted_unique_strong lex_le); try done.
  intros x y Hx Hy H1 H2. destruct (lex_le_antisym x y H1 H2) as [_ Hxy].
  apply (NoDup_fmap_key name l); try done. by rewrite Hp.
Qed.
End lex.

(** ** The due scan *)

Definition due_rank (j : StoredCronJob) : Z := Z.of_N (from_option N.succ 0 (cj_next_fire_unix j)).

Lemma due_leb_spec x y : due_leb x y = true ↔ lex_le due_rank cj_id x y.
Proof.
  unfold due_leb, lex_le, due_rank. rewrite <- string_not_lt.
  destruct (cj_next_fire_unix x) as [t|], (cj_next_fire_unix y) as [u|]; simpl;
    [|split; [done|]; intros [?|[? _]]; lia|split; [left; lia|done]|].
  - destruct (N.compare_spec t u); simpl.
    + subst. split; [intros H; by right|]. intros [?|[_ ?]]; [lia|done].
    + split; [left; lia|done].
    + split; [done|]. intros [?|[? _]]; lia.
  - split; [intros H; by right|]. intros [?|[_ ?]]; [lia|done].
Qed.

(** [j] is scheduled, not paused, and its next fire is no later than [now]. *)
Definition job_due (s : Inner) (now : N) (j : StoredCronJob) : Prop :=
  cron_get s (cj_id j) = Some j ∧ cj_paused j = false ∧
  ∃ t, cj_next_fire_unix j = Some t ∧ t ≤ now.

Lemma is_due_spec now j :
  is_due now j = true ↔ cj_paused j = false ∧ ∃ t, cj_next_fire_unix j = Some t ∧ t ≤ now.
Proof.
  unfold is_due. rewrite andb_true_iff, negb_true_iff. destruct (cj_next_fire_unix j) as [t|].
  - rewrite N.leb_le. naive_solver.
  - naive_solver.
Qed.

Lemma cron_jobs_ids `{HashOrder} n s :
  reachable n s → cj_id <$> (hash_order (in_cron_jobs s)).*2 = (hash_order (in_cron_jobs s)).*1.
Proof.
  intros Hn. destruct (reachable_host n s Hn) as (Hj & _). rewrite <- list_fmap_compose.
  apply list_fmap_ext. intros i [k j] Hi%list_elem_of_lookup_2. simpl.
  apply elem_of_hash_order in Hi. by apply Hj.
Qed.

Lemma cron_due_NoDup `{HashOrder} n s now : reachable n s → NoDup (cj_id <$> cron_due s now).
Proof.
  intros Hn. unfold cron_due. rewrite sort_by_perm.
  eapply sublist_NoDup; [apply (NoDup_fst_hash_order (in_cron_jobs s))|].
  rewrite <- (cron_jobs_ids n s Hn). apply sublist_fmap, sublist_filter.
Qed.

(** The due scan is exact and deterministic: whatever order the job table
    is walked in, it returns the same list, which holds precisely the jobs that
    are scheduled, not paused and due, each once, earliest first and by id
    among equal times. *)
Theorem cron_due_exact (O1 O2 : HashOrder) n s now :
  reachable n s →
  cron_due (H := O1) s now = cron_due (H := O2) s now ∧
  (∀ j, j ∈ cron_due (H := O1) s now ↔ job_due s now j) ∧
  NoDup (cj_id <$> cron_due (H := O1) s now) ∧
  StronglySorted (lex_le due_rank cj_id) (cron_due (H := O1) s now).
Proof.
  intros Hn. split_and!.
  - apply (lex_sorted_unique due_rank cj_id); [apply sort_by_lex, due_leb_spec..| |by eapply cron_due_NoDup].
    unfold cron_due. rewrite !sort_by_perm. apply filter_Permutation, fmap_Permutation.
    by rewrite !hash_order_perm.
  - intros j. unfold cron_due, job_due. rewrite sort_by_perm, list_elem_of_filter, is_due_spec.
    rewrite elem_of_hash_values. destruct (reachable_host n s Hn) as (Hj & _). unfold cron_get.
    split; [intros (? & k & Hk)|intros (Hk & ?)].
    + by rewrite (Hj k j Hk).
    + eauto.
  - by eapply cron_due_NoDup.
  - apply sort_by_lex, due_leb_spec.
Qed.

Definition demo_cron (id : string) (fire : option N) : StoredCronJob :=
  mkStoredCronJob id "" [] fire false None None None 0 0 None.

Lemma cron_due_exact_witness :
  let s := run_ops [OpCronSet (demo_cron "b" (Some 5)); OpCronSet (demo_cron "a" (Some 5));
                    OpCronSet (demo_cron "c" (Some 9))] InMemoryStore_new in
  length (cron_due (H := canonical_order) s 7) = 2%nat ∧
  StronglySorted (lex_le due_rank cj_id) (cron_due (H := canonical_order) s 7).
Proof.
  intros s. split; [vm_compute; reflexivity|].
  apply (cron_due_exact canonical_order canonical_order 3 s 7).
  exact (reachable_step 2 _ (OpCronSet _) (reachable_step 1 _ (OpCronSet _)
    (reachable_step 0 _ (OpCronSet _) reachable_new))).
Defined.

(** ** Run history *)

Definition append_runs (runs : list StoredCronRun) (s : Inner) : Inner :=
  foldl (λ s r, (cron_run_append r s).2) s runs.

Lemma drop_drop_last {A} k (l : list A) x :
  drop (length (drop (length l - k) l ++ [x]) - k) (drop (length l - k) l ++ [x]) =
  drop (length (l ++ [x]) - k) (l ++ [x]).
Proof.
  destruct (decide (length l < k)%nat) as [Hlt|Hge].
  - rewrite !length_app. simpl. replace (length l - k)%nat with 0%nat by lia. by rewrite drop_0.
  - destruct k as [|k].
    + rewrite (drop_ge (l ++ [x])), (drop_ge (_ ++ [x])) by lia. done.
    + rewrite !length_app, length_drop. simpl length.
      replace (length l - (length l - S k) + 1 - S k)%nat with 1%nat by lia.
      replace (length l + 1 - S k)%nat with (1 + (length l - S k))%nat by lia.
      rewrite Nat.add_comm, <- (drop_drop _ 1). f_equal. by rewrite drop_app_le by lia.
Qed.

Lemma append_runs_vec runs s id :
  (length (entry_vec (in_cron_runs s) id) ≤ CRON_RUN_RETENTION)%nat →
  let all := entry_vec (in_cron_runs s) id ++ filter (λ r, cu_job_id r = id) runs in
  entry_vec (in_cron_runs (append_runs runs s)) id = drop (length all - CRON_RUN_RETENTION) all.
Proof.
  induction runs as [|run runs IH] using rev_ind; intros Hl all; unfold all.
  - simpl. rewrite app_nil_r. by replace (length _ - _)%nat with 0%nat by lia.
  - unfold append_runs. rewrite foldl_app. fold (append_runs runs s). simpl.
    rewrite entry_vec_insert, filter_app, filter_cons, filter_nil. specialize (IH Hl). simpl in IH.
    case_decide as Hid; [|by rewrite app_nil_r].
    rewrite app_assoc, Hid, IH. apply drop_drop_last.
Qed.

(** A job's run history is its newest runs: after any further runs are
    recorded, listing returns the most recent ones first, at most the fifty
    retained and at most the number asked for, and none of another job. *)
Theorem cron_history_newest n s runs id max :
  reachable n s →
  cron_runs_list (append_runs runs s) id max =
    take max (take CRON_RUN_RETENTION
      (reverse (entry_vec (in_cron_runs s) id ++ filter (λ r, cu_job_id r = id) runs))).
Proof.
  intros Hn. unfold cron_runs_list. f_equal. destruct (reachable_host n s Hn) as (_ & Hr & _).
  rewrite append_runs_vec.
  - by rewrite take_reverse.
  - unfold entry_vec. destruct (in_cron_runs s !! id) as [rs|] eqn:E; simpl; [by apply Hr in E as [? _]|lia].
Qed.

Definition demo_run (t : N) : StoredCronRun := mkStoredCronRun "a" t None true None None false.

Lemma cron_history_newest_witness :
  cron_runs_list (append_runs [demo_run 1; demo_run 2; demo_run 3] InMemoryStore_new) "a" 2 =
    [demo_run 3; demo_run 2].
Proof. rewrite (cron_history_newest 0 _ _ _ _ reachable_new). vm_compute. reflexivity. Defined.

(** ** Command deduplication *)

(** Command deduplication is first-writer-wins for twenty-four hours: two
    results put for one [(principal, op)] read back as the first while it is
    fresh; once expired the read evicts it and a later put takes its place; no
    other principal's or operation's row is touched. *)
Theorem command_dedup_first_writer principal op r1 t1 r2 t2 now s :
  in_command_dedup s !! (principal, op) = None →
  let s2 := (command_dedup_put principal op r2 t2 (command_dedup_put principal op r1 t1 s).2).2 in
  (now - t1 < COMMAND_DEDUP_TTL_MS → command_dedup_get principal op now s2 = (Some r1, s2)) ∧
  (COMMAND_DEDUP_TTL_MS ≤ now - t1 →
    (command_dedup_get principal op now s2).1 = None ∧
    let s3 := (command_dedup_put principal op r2 now (command_dedup_get principal op now s2).2).2 in
    command_dedup_get principal op now s3 = (Some r2, s3)) ∧
  (∀ k, k ≠ (principal, op) → in_command_dedup s2 !! k = in_command_dedup s !! k).
Proof.
  intros Hnone s2.
  assert (in_command_dedup s2 = <[(principal, op) := (r1, t1)]> (in_command_dedup s)) as H2.
  { unfold s2, command_dedup_put, modify. simpl. unfold or_insert. by rewrite Hnone, lookup_insert_eq. }
  split_and!.
  - intros Hlt%N.ltb_lt. unfold command_dedup_get. by rewrite H2, lookup_insert_eq, Hlt.
  - intros Hge%N.ltb_ge.
    assert (command_dedup_get principal op now s2 =
      (None, s2 <| in_command_dedup := delete (principal, op) (in_command_dedup s2) |>)) as Hget.
    { unfold command_dedup_get. rewrite H2 at 1. by rewrite lookup_insert_eq, Hge. }
    rewrite Hget. split; [done|]. cbv zeta. unfold command_dedup_get, command_dedup_put, modify. simpl.
    unfold or_insert. rewrite lookup_delete_eq, lookup_insert_eq. by rewrite N.sub_diag.
  - intros k Hk. by rewrite H2, lookup_insert_ne.
Qed.

Lemma command_dedup_first_writer_witness :
  let s2 := (command_dedup_put "p" "op" [] 20 (command_dedup_put "p" "op" (string_bytes "ok") 10
    InMemoryStore_new).2).2 in
  command_dedup_get "p" "op" 1000 s2 = (Some (string_bytes "ok"), s2).
Proof.
  apply (command_dedup_first_writer "p" "op" (string_bytes "ok") 10 [] 20 1000 InMemoryStore_new eq_refl).
  reflexivity.
Defined.

(** ** The feedback outbox *)

Lemma feedback_leb_spec x y : feedback_leb x y = true ↔ lex_le fb_created_at_ms fb_id x y.
Proof.
  unfold feedback_leb, lex_le. rewrite <- string_not_lt.
  destruct (Z.compare_spec (fb_created_at_ms x) (fb_created_at_ms y)) as [Heq|Hlt|Hgt].
  - rewrite Heq. split; [intros H; by right|]. intros [?|[_ ?]]; [lia|done].
  - split; [by left|done].
  - split; [done|]. intros [?|[? _]]; lia.
Qed.

Definition undelivered (l : list FeedbackRecord) : list FeedbackRecord :=
  filter (λ r, fb_delivered r = false) l.

Lemma undelivered_mark r l :
  r ∈ undelivered l → NoDup (fb_id <$> l) →
  undelivered l ≡ₚ r :: undelivered
    (update_first (λ x, bool_decide (fb_id x = fb_id r)) (λ x, x <| fb_delivered := true |>) l).
Proof.
  induction l as [|x l IH]; intros Hin Hnd; [by apply not_elem_of_nil in Hin|].
  simpl in Hnd. apply NoDup_cons in Hnd as [Hx Hnd]. cbn [update_first].
  apply list_elem_of_filter in Hin as [Hd [->|Hr]%elem_of_cons].
  - rewrite bool_decide_eq_true_2 by done. unfold undelivered.
    rewrite filter_cons_True by done. rewrite filter_cons_False by done. done.
  - assert (fb_id x ≠ fb_id r) as Hne.
    { intros Heq. apply Hx. rewrite Heq. by apply list_elem_of_fmap_2. }
    rewrite bool_decide_eq_false_2 by done.
    assert (undelivered l ≡ₚ r :: undelivered (update_first (λ x, bool_decide (fb_id x = fb_id r))
      (λ x, x <| fb_delivered := true |>) l)) as Hp.
    { apply IH; [|done]. by apply list_elem_of_filter. }
    unfold undelivered in *. rewrite !filter_cons. case_decide; rewrite Hp; [|done].
    apply Permutation_swap.
Qed.

Lemma feedback_sorted s : StronglySorted (lex_le fb_created_at_ms fb_id) (feedback_pending s 0).
Proof. apply sort_by_lex, feedback_leb_spec. Qed.

Lemma feedback_perm s : feedback_pending s 0 ≡ₚ undelivered (in_feedback_outbox s).
Proof. apply sort_by_perm. Qed.

(** The feedback outbox drains oldest first: the pending list holds
    exactly the undelivered records in order of time then id, a limit keeps its
    front, and acknowledging the front record leaves exactly the rest, so a
    drain delivers every record once. *)
Theorem feedback_drains n s limit :
  reachable n s →
  (∀ r, r ∈ feedback_pending s 0 ↔ r ∈ in_feedback_outbox s ∧ fb_delivered r = false) ∧
  StronglySorted (lex_le fb_created_at_ms fb_id) (feedback_pending s 0) ∧
  (limit ≠ 0%nat → feedback_pending s limit = take limit (feedback_pending s 0)) ∧
  (∀ r rest, feedback_pending s 0 = r :: rest →
    feedback_pending (feedback_mark_delivered (fb_id r) s).2 0 = rest).
Proof.
  intros Hn. destruct (reachable_host n s Hn) as (_ & _ & Hnd & _). split_and!.
  - intros r. rewrite feedback_perm. unfold undelivered. rewrite list_elem_of_filter. tauto.
  - apply feedback_sorted.
  - intros Hl. unfold feedback_pending. by rewrite decide_False.
  - intros r rest Hp. pose proof (feedback_sorted s) as Hs. pose proof (feedback_perm s) as Hperm.
    rewrite Hp in Hs, Hperm. inversion Hs as [|? ? Hs' _]; subst.
    assert (undelivered (in_feedback_outbox (feedback_mark_delivered (fb_id r) s).2) ≡ₚ rest) as Hrest.
    { apply (Permutation_cons_inv (a := r)). rewrite Hperm. symmetry. apply undelivered_mark; [|done].
      rewrite <- Hperm. set_solver. }
    symmetry. apply (lex_sorted_unique fb_created_at_ms fb_id); [done|apply feedback_sorted| |].
    + by rewrite feedback_perm, Hrest.
    + rewrite <- Hrest. eapply sublist_NoDup; [|apply sublist_fmap, sublist_filter].
      simpl. by rewrite fmap_update_first.
Qed.

Definition demo_feedback (id : string) (t : Z) : FeedbackRecord :=
  mkFeedbackRecord id t "" None None false None None None "" None None "" "" None None None None None None false.

Lemma feedback_drains_witness :
  let s := (feedback_enqueue (demo_feedback "b" 7) (feedback_enqueue (demo_feedback "a" 9) InMemoryStore_new).2).2 in
  feedback_pending (feedback_mark_delivered "b" s).2 0 = [demo_feedback "a" 9].
Proof.
  intros s. apply (feedback_drains 2 s 0 (reachable_step 1 _ (OpFeedbackEnqueue (demo_feedback "b" 7))
    (reachable_step 0 _ (OpFeedbackEnqueue (demo_feedback "a" 9)) reachable_new)))
    with (r := demo_feedback "b" 7).
  vm_compute. reflexivity.
Defined.
