(* ===== verification/Activation.v ===== *)
(** * The activation substrate ([crates/substrate/daemon-activation])

    [ActivationManager] over the store: the active-only directory with its
    generation-checked slot guards, the fenced load / hydrate / run / commit
    turn, the commit-then-linger cycle, wakes, the job worker, the recovery
    scanner.

    The engine is the [Incarnation] trait the manager drives, a class here.
    While a turn runs other tasks (and the engine itself) use the store: what
    they do is the argument [during] of a turn, and [lingering] of a linger. *)

From S2P Require Import Prelude Text Common Approval StoreTypes Store StoreInv Journal Registry.
From S2P Require Import StoreSteps.

#[local] Open Scope N_scope.
#[local] Open Scope daemon_scope.

(** ** The seam *)

Inductive Step :=
| StepCompleted
| StepTurnCommitted
| StepSuspended (job : JobCommand)
| StepParkApproval (approvals : list ParkedApproval).

Inductive EngineError :=
| EngineOther (msg : string)
| EngineCommon (inner : DaemonError).

Record TurnCtx := mkTurnCtx {
  tx_policy : option ExecutionPolicy;
  tx_turn_seq : N;
  tx_fence : FenceToken
}.

Inductive SubErr :=
| SubStore (e : StoreError)
| SubEngine (e : EngineError)
| SubBusy (id : SessionId)
| SubJoin (msg : string).

(** The [Incarnation] and [EngineFactory] traits: [create] makes a fresh
    incarnation, [take_turn_seal] may change it. *)
Class Engine := {
  Incarnation : Type;
  create : Incarnation;
  hydrate : SnapshotBlob → list JobCompletion → list InboxSplice → TurnCtx → Incarnation →
    result EngineError unit * Incarnation;
  run : Incarnation → result EngineError Step * Incarnation;
  checkpoint : Incarnation → result EngineError SnapshotBlob;
  epoch : Incarnation → Epoch;
  consumed_splices : Incarnation → option N;
  completion_payload : Incarnation → option bytes;
  take_turn_seal : Incarnation → option TurnSeal * Incarnation
}.

(** ** The manager *)

(** [ManagerInner]: the store behind it, the directory of reserved slots with
    their generations, the generation mint, the linger switch and the wake
    mailboxes of lingering incarnations ([true]: a permit is waiting). *)
Record Manager := mkManager {
  mg_store : Inner;
  mg_partition : PartitionId;
  mg_directory : gmap SessionId N;
  mg_generations : N;
  mg_linger : bool;
  mg_lingers : gmap SessionId bool;
  mg_shutdown : bool
}.

#[export] Instance eta_Manager : Eta Manager := λ m,
  mkManager (mg_store m) (mg_partition m) (mg_directory m) (mg_generations m) (mg_linger m)
    (mg_lingers m) (mg_shutdown m).

Definition with_linger (store : Inner) (partition : PartitionId) (linger : bool) : Manager :=
  mkManager store partition ∅ 0 linger ∅ false.
Definition manager_new (store : Inner) (partition : PartitionId) : Manager :=
  with_linger store partition false.

Definition active_count (m : Manager) : nat := size (mg_directory m).

Abbreviation Act := (M Manager SubErr).

(** A store operation under [?]: its error is wrapped by [SubErr::Store]. *)
Definition store_op {A} (op : Store A) : Act A := λ m,
  match op (mg_store m) with
  | (Ok a, s) => (Ok a, m <| mg_store := s |>)
  | (Err e, s) => (Err (SubStore e), m <| mg_store := s |>)
  end.

(** An infallible store call. *)
Definition store_call {A} (op : Inner → A * Inner) : Act A := λ m,
  let '(a, s) := op (mg_store m) in (Ok a, m <| mg_store := s |>).

(** What the rest of the system does to the store meanwhile. *)
Definition interference (ops : list StoreOp) : Act unit :=
  modify (λ m, m <| mg_store := run_ops ops (mg_store m) |>).

(** An engine call under [?]. *)
Definition engine_result {A} (r : result EngineError A) : Act A :=
  match r with Ok a => mret a | Err e => throw (SubEngine e) end.

(** [status(id)]. *)
Definition read_status (id : SessionId) : Act (option SessionStatus) :=
  m ← get; mret (status (mg_store m) id).

(** ** Slots *)

Record SlotGuard := mkSlotGuard {
  sl_id : SessionId;
  sl_generation : N
}.

(** [try_reserve]: the generation is minted before the vacancy check. *)
Definition try_reserve (id : SessionId) (m : Manager) : option SlotGuard * Manager :=
  let generation := mg_generations m in
  let m1 := m <| mg_generations := generation +₆₄ 1 |> in
  match mg_directory m !! id with
  | Some _ => (None, m1)
  | None => (Some (mkSlotGuard id generation),
             m1 <| mg_directory := <[id := generation]> (mg_directory m) |>)
  end.

(** [SlotGuard::drop]: [remove_if] the generation is still ours. *)
Definition drop_slot (g : SlotGuard) (m : Manager) : Manager :=
  match mg_directory m !! sl_id g with
  | Some gen => if gen =? sl_generation g
                then m <| mg_directory := delete (sl_id g) (mg_directory m) |> else m
  | None => m
  end.

(** [passivate]: unconditional. *)
Definition passivate (id : SessionId) (m : Manager) : Manager :=
  m <| mg_directory := delete id (mg_directory m) |>.

(** ** One turn *)

Section engine.
Context `{Engine}.

(** [load_for_activation] up to the engine's verdict: the incarnation (a fresh
    one when the stored snapshot is not the blob its own commit persisted),
    the verdict, and the completion keys the load delivered. *)
Definition begin_turn (id : SessionId) (fence : FenceToken) (inc : Incarnation)
    (last_committed : option SnapshotBlob) : Act (Incarnation * Step * list (Epoch * JobId)) :=
  activation ← store_op (load_for_activation id fence);
  let inc := match last_committed with
             | Some committed => if decide (committed = ac_snapshot activation) then inc else create
             | None => inc
             end in
  let applied := (λ c, (jp_epoch c, jp_job_id c)) <$> ac_unapplied activation in
  let ctx := mkTurnCtx (ac_policy activation) (ac_turn_seq activation) fence in
  let '(r1, inc1) := hydrate (ac_snapshot activation) (ac_unapplied activation)
                       (ac_splices activation) ctx inc in
  _ ← engine_result r1;
  let '(r2, inc2) := run inc1 in
  step ← engine_result r2;
  mret (inc2, step, applied).

(** The commit each verdict is routed to. *)
Definition finish_turn (id : SessionId) (fence : FenceToken) (now : N) (inc : Incarnation)
    (step : Step) (applied : list (Epoch * JobId))
    : Act (Incarnation * option (TurnCommit * SnapshotBlob)) :=
  snapshot ← engine_result (checkpoint inc);
  let base := with_consumed_splices (Checkpoint_new id (epoch inc) snapshot) (consumed_splices inc) in
  match step with
  | StepSuspended job =>
      _ ← store_op (checkpoint_and_enqueue base job fence); mret (inc, None)
  | StepParkApproval approvals =>
      _ ← store_op (park_approval base approvals fence); mret (inc, None)
  | StepTurnCommitted =>
      let cp := with_applied_completions base applied in
      let '(seal, inc') := take_turn_seal inc in
      commit ← store_op (commit_turn cp seal fence);
      mret (inc', Some (commit, snapshot))
  | StepCompleted =>
      let cp := with_completion_payload base (completion_payload inc) in
      _ ← store_op (mark_completed cp fence now); mret (inc, None)
  end.

(** [run_turn], with the store traffic of the rest of the system between the
    load and the commit. *)
Definition run_turn (id : SessionId) (fence : FenceToken) (now : N) (inc : Incarnation)
    (last_committed : option SnapshotBlob) (during : list StoreOp)
    : Act (Incarnation * option (TurnCommit * SnapshotBlob)) :=
  '(inc, step, applied) ← begin_turn id fence inc last_committed;
  _ ← interference during;
  finish_turn id fence now inc step applied.

(** ** Lingering *)

(** How a linger ends: by a notification, the idle timeout or shutdown. *)
Inductive LingerEnd := Notified | TimedOut | ShutDown.

(** [linger_wait]: register the mailbox, skip the wait if the session is
    already [Ready], otherwise wait; [lingering] is what happens meanwhile. *)
Definition linger_wait (id : SessionId) (lingering : list StoreOp) (how : LingerEnd) : Act bool :=
  _ ← modify (λ m, m <| mg_lingers := <[id := false]> (mg_lingers m) |>);
  st ← read_status id;
  woke ← (if decide (st = Some Ready) then mret true
          else _ ← interference lingering;
               mret (match how with Notified => true | _ => false end));
  _ ← modify (λ m, m <| mg_lingers := delete id (mg_lingers m) |>);
  mret woke.

(** The environment of one turn of a cycle. *)
Record TurnEnv := mkTurnEnv {
  en_during : list StoreOp;
  en_lingering : list StoreOp;
  en_how : LingerEnd;
  en_now : N
}.

(** [run_cycle]: turns on one reservation, a fresh lease per follow-on turn.
    [released] is whether the caller was already told the first turn's
    outcome.  One [TurnEnv] per turn; [None] when they run out, the cycle
    still going. *)
Fixpoint run_cycle (envs : list TurnEnv) (id : SessionId) (fence : FenceToken) (inc : Incarnation)
    (last_committed : option SnapshotBlob) (released : bool) (m : Manager)
    : option (bool * result SubErr unit * Manager) :=
  match envs with
  | [] => None
  | env :: envs' =>
      match run_turn id fence (en_now env) inc last_committed (en_during env) m with
      | (Err e, m1) => Some (released, Err e, m1)
      | (Ok (_, None), m1) => Some (released, Ok tt, m1)
      | (Ok (inc1, Some (commit, snapshot)), m1) =>
          if negb (mg_linger m1) then Some (released, Ok tt, m1)
          else
            let follow_on m2 :=
              match store_op (acquire_activation_lease id) m2 with
              | (Ok fence', m3) => run_cycle envs' id fence' inc1 (Some snapshot) true m3
              | (Err e, m3) => Some (true, Err e, m3)
              end in
            match tc_status commit with
            | Ready => follow_on m1
            | Idle =>
                match linger_wait id (en_lingering env) (en_how env) m1 with
                | (Ok true, m2) =>
                    if decide (status (mg_store m2) id = Some Ready) then follow_on m2
                    else Some (true, Ok tt, m2)
                | (_, m2) => Some (true, Ok tt, m2)
                end
            | _ => Some (released, Ok tt, m1)
            end
      end
  end.

(** [run_reserved]: the cycle on a fresh incarnation, then the slot is
    dropped.  The result is the one the caller is told, the manager the one at
    the end of the spawned cycle.  Without lingering the caller is told after
    the drop, so this is the state it finds; a cycle that goes on after its
    first commit has told its caller ([released]) before. *)
Definition run_reserved (envs : list TurnEnv) (id : SessionId) (fence : FenceToken)
    (slot : SlotGuard) (m : Manager) : option (result SubErr unit * Manager) :=
  match run_cycle envs id fence create None false m with
  | None => None
  | Some (released, r, m1) =>
      Some (if released then Ok tt else r, drop_slot slot m1)
  end.

(** Hand the hint to a lingering incarnation's mailbox. *)
Definition notify_lingerer (id : SessionId) (m : Manager) : Manager :=
  match mg_lingers m !! id with
  | Some _ => m <| mg_lingers := <[id := true]> (mg_lingers m) |>
  | None => m
  end.

(** A session with runnable work, by status. *)
Definition wakeable (st : option SessionStatus) : bool :=
  match st with
  | Some Completed | Some Idle | None => false
  | _ => true
  end.

(** [wake]: status gate, slot, lease, cycle; a fence loss is absorbed. *)
Definition wake (envs : list TurnEnv) (id : SessionId) (m : Manager)
    : option (result SubErr unit * Manager) :=
  if wakeable (status (mg_store m) id) then
    match try_reserve id m with
    | (None, m1) => Some (Ok tt, notify_lingerer id m1)
    | (Some slot, m1) =>
        match store_op (acquire_activation_lease id) m1 with
        | (Err e, m2) => Some (Err e, drop_slot slot m2)
        | (Ok fence, m2) =>
            match run_reserved envs id fence slot m2 with
            | None => None
            | Some (Err (SubStore (Fenced _ _)), m3) => Some (Ok tt, m3)
            | Some (r, m3) => Some (r, m3)
            end
        end
    end
  else Some (Ok tt, m).

(** [activate]: the caller brings the fence. *)
Definition activate (envs : list TurnEnv) (id : SessionId) (fence : FenceToken) (m : Manager)
    : option (result SubErr unit * Manager) :=
  match try_reserve id m with
  | (None, m1) => Some (Err (SubBusy id), m1)
  | (Some slot, m1) => run_reserved envs id fence slot m1
  end.

(** ** Dispatchers

    A run of the dispatchers is given one list of turn environments per wake;
    [None] means they ran out before the dispatcher returned.  A dispatcher
    takes each wake to the end of its cycle, as the code does without lingering;
    with lingering the tail of a cycle runs beside the dispatcher, and the
    sequences here are the schedules in which it ends first. *)

(** [while let Some(id) = dequeue_wake() { wake(id)?; dispatched += 1 }]. *)
Fixpoint dispatch_wakes (oracle : list (list TurnEnv)) (dispatched : N) (m : Manager)
    : option (result SubErr N * Manager) :=
  match dequeue_wake (mg_store m) with
  | (None, _) => Some (Ok dispatched, m)
  | (Some id, s) =>
      match oracle with
      | [] => None
      | envs :: oracle' =>
          match wake envs id (m <| mg_store := s |>) with
          | None => None
          | Some (Err e, m1) => Some (Err e, m1)
          | Some (Ok _, m1) => dispatch_wakes oracle' (dispatched +₆₄ 1) m1
          end
      end
  end.

(** [for id in scan_resumable(partition) { wake(id)?; scanned += 1 }]. *)
Fixpoint wake_all (oracle : list (list TurnEnv)) (ids : list SessionId) (scanned : N) (m : Manager)
    : option (result SubErr N * Manager) :=
  match ids with
  | [] => Some (Ok scanned, m)
  | id :: ids' =>
      match oracle with
      | [] => None
      | envs :: oracle' =>
          match wake envs id m with
          | None => None
          | Some (Err e, m1) => Some (Err e, m1)
          | Some (Ok _, m1) => wake_all oracle' ids' (scanned +₆₄ 1) m1
          end
      end
  end.

Definition scan_once `{HashOrder} (oracle : list (list TurnEnv)) (m : Manager)
    : option (result SubErr N * Manager) :=
  wake_all oracle (scan_resumable (mg_store m) (mg_partition m)) 0 m.
End engine.

(** The completion a job's worker produces. *)
Definition worker_completion (job : JobCommand) : JobCompletion :=
  mkJobCompletion (jc_session_id job) (jc_epoch job) (jc_job_id job) (jc_payload job).

(** [run_workers]: the loop dequeues one job per turn and enqueues none, so the
    length of the outbox bounds it. *)
Fixpoint run_workers_loop (fuel : nat) (processed : N) : Act N :=
  match fuel with
  | O => mret processed
  | S fuel' =>
      job ← store_call dequeue_job;
      match job with
      | None => mret processed
      | Some job =>
          _ ← store_op (record_completion_and_wake (worker_completion job));
          run_workers_loop fuel' (processed +₆₄ 1)
      end
  end.

Definition run_workers : Act N := λ m, run_workers_loop (S (length (in_job_outbox (mg_store m)))) 0 m.

(** One round of the recovery loop and its environment. *)
Record Round := mkRound {
  rd_wakes : list (list TurnEnv);
  rd_scans : list (list TurnEnv)
}.

(** [recover]: rounds until one finds no job, no wake and nothing to scan. *)
Fixpoint recover `{Engine} `{HashOrder} (rounds : list Round) (m : Manager)
    : option (result SubErr unit * Manager) :=
  match rounds with
  | [] => None
  | rd :: rounds' =>
      match run_workers m with
      | (Err e, m1) => Some (Err e, m1)
      | (Ok jobs, m1) =>
          match dispatch_wakes (rd_wakes rd) 0 m1 with
          | None => None
          | Some (Err e, m2) => Some (Err e, m2)
          | Some (Ok wakes, m2) =>
              match scan_once (rd_scans rd) m2 with
              | None => None
              | Some (Err e, m3) => Some (Err e, m3)
              | Some (Ok scanned, m3) =>
                  if (jobs =? 0) && (wakes =? 0) && (scanned =? 0) then Some (Ok tt, m3)
                  else recover rounds' m3
              end
          end
      end
  end.

(** [shutdown] releases the lingering incarnations; waiting for the tracked
    tasks is the runtime's. *)
Definition shutdown (m : Manager) : Manager := m <| mg_shutdown := true |>.

(** [deliver]: the only message is a wake. *)
Inductive SessionMsg := MsgWake.

Definition deliver `{Engine} (envs : list TurnEnv) (id : SessionId) (msg : SessionMsg) (m : Manager)
    : option (result SubErr unit * Manager) :=
  match msg with MsgWake => wake envs id m end.
