(* ===== verification/ActivationSlots.v ===== *)
(** * Slots and wakes of the activation manager

    The active-only directory: a wake returns the slot it reserved, and slot
    guards stay safe under every interleaving of reservations and drops. *)

From S2P Require Import Prelude Text Common Approval StoreTypes Store StoreInv Journal Registry.
From S2P Require Import StoreSteps StoreHistory StoreLease StoreCommit Activation.

#[local] Open Scope N_scope.
#[local] Open Scope daemon_scope.

(** ** What a turn leaves alone *)

(** The directory, the generation mint and the configuration. *)
Definition same_slots (m m' : Manager) : Prop :=
  mg_directory m' = mg_directory m ∧ mg_generations m' = mg_generations m ∧
  mg_linger m' = mg_linger m ∧ mg_partition m' = mg_partition m ∧ mg_shutdown m' = mg_shutdown m.

#[export] Instance same_slots_preorder : PreOrder same_slots.
Proof. split; [done|]. intros x y z (?&?&?&?&?) (?&?&?&?&?). repeat split; congruence. Qed.

Definition slot_neutral {A} (a : Act A) : Prop := ∀ m, same_slots m (a m).2.

Lemma neutral_bind {A B} (a : Act A) (f : A → Act B) :
  slot_neutral a → (∀ x, slot_neutral (f x)) → slot_neutral (a ≫= f).
Proof.
  intros Ha Hf m. unfold mbind, M_bind. specialize (Ha m).
  destruct (a m) as [[x|e] m1]; simpl in *; [|done]. etrans; [exact Ha|apply Hf].
Qed.
Lemma neutral_ret {A} (x : A) : slot_neutral (mret x).
Proof. by intros m. Qed.
Lemma neutral_store_op {A} (op : Store A) : slot_neutral (store_op op).
Proof. intros m. unfold store_op. by destruct (op (mg_store m)) as [[]]. Qed.
Lemma neutral_store_call {A} (op : Inner → A * Inner) : slot_neutral (store_call op).
Proof. intros m. unfold store_call. by destruct (op (mg_store m)). Qed.
Lemma neutral_engine {A} (r : result EngineError A) : slot_neutral (engine_result r).
Proof. by destruct r. Qed.
Lemma neutral_interference ops : slot_neutral (interference ops).
Proof. by intros m. Qed.
Lemma neutral_read id : slot_neutral (read_status id).
Proof. by intros m. Qed.

Create HintDb slots.
#[export] Hint Resolve neutral_bind neutral_ret neutral_store_op neutral_store_call neutral_engine
  neutral_interference neutral_read : slots.

(** An engine that echoes its snapshot, folds everything it is given and ends
    every turn at the boundary. *)
Definition echo_engine : Engine := {|
  Incarnation := SnapshotBlob * option N;
  create := ([], None);
  hydrate snap _ splices _ _ := (Ok tt, (snap, is_splice_seq <$> last splices));
  run inc := (Ok StepTurnCommitted, inc);
  checkpoint inc := Ok inc.1;
  epoch _ := 1;
  consumed_splices inc := inc.2;
  completion_payload _ := None;
  take_turn_seal inc := (None, inc)
|}.

Section engine.
Context `{Engine}.

Lemma begin_turn_neutral id f inc lc : slot_neutral (begin_turn id f inc lc).
Proof.
  apply neutral_bind; [auto with slots|]. intros a. cbv zeta.
  destruct (hydrate _ _ _ _ _) as [r1 i1]. apply neutral_bind; [auto with slots|]. intros _.
  destruct (run i1) as [r2 i2]. apply neutral_bind; auto with slots.
Qed.

Lemma finish_turn_neutral id f now inc st keys : slot_neutral (finish_turn id f now inc st keys).
Proof.
  apply neutral_bind; [auto with slots|]. intros b. cbv zeta.
  destruct st; try destruct (take_turn_seal inc); auto with slots.
Qed.

Lemma run_turn_neutral id f now inc lc during : slot_neutral (run_turn id f now inc lc during).
Proof.
  apply neutral_bind; [apply begin_turn_neutral|]. intros [[i st] keys].
  apply neutral_bind; [auto with slots|]. intros _. apply finish_turn_neutral.
Qed.

Lemma linger_wait_neutral id ops how : slot_neutral (linger_wait id ops how).
Proof.
  apply neutral_bind; [by intros m|]. intros _. apply neutral_bind; [auto with slots|]. intros st.
  apply neutral_bind; [case_decide; auto with slots|]. intros b.
  apply neutral_bind; [by intros m|auto with slots].
Qed.

Lemma run_cycle_neutral envs id f inc lc rel m r :
  run_cycle envs id f inc lc rel m = Some r → same_slots m r.2.
Proof.
  revert f inc lc rel m. induction envs as [|env envs IH]; intros f inc lc rel m; cbn [run_cycle]; [done|].
  pose proof (run_turn_neutral id f (en_now env) inc lc (en_during env) m) as Ht.
  destruct (run_turn _ _ _ _ _ _ m) as [[[i1 [[commit snap]|]]|e] m1]; simpl in Ht.
  2,3: by intros [= <-].
  destruct (negb (mg_linger m1)); [by intros [= <-]|].
  assert (∀ m2, same_slots m m2 →
    match store_op (acquire_activation_lease id) m2 with
    | (Ok f', m3) => run_cycle envs id f' i1 (Some snap) true m3
    | (Err e, m3) => Some (true, Err e, m3)
    end = Some r → same_slots m r.2) as Hfollow.
  { intros m2 H2. pose proof (neutral_store_op (acquire_activation_lease id) m2) as H3.
    destruct (store_op _ m2) as [[f'|e] m3]; simpl in H3.
    - intros Hr%IH. by etrans; [|exact Hr]; etrans.
    - intros [= <-]. by etrans. }
  destruct (tc_status commit); try by intros [= <-].
  - by apply Hfollow.
  - pose proof (linger_wait_neutral id (en_lingering env) (en_how env) m1) as Hl.
    destruct (linger_wait _ _ _ m1) as [[[]|e] m2]; simpl in Hl; try (intros [= <-]; by etrans).
    case_decide; [apply Hfollow; by etrans|]. intros [= <-]. by etrans.
Qed.

(** With lingering off a cycle is one turn, so it always returns. *)
Lemma run_cycle_single env envs id f inc lc m :
  mg_linger m = false →
  run_cycle (env :: envs) id f inc lc false m =
    let '(r, m1) := run_turn id f (en_now env) inc lc (en_during env) m in
    Some (false, match r with Ok _ => Ok tt | Err e => Err e end, m1).
Proof.
  intros Hl. cbn [run_cycle].
  pose proof (run_turn_neutral id f (en_now env) inc lc (en_during env) m) as (_ & _ & Hl1 & _).
  destruct (run_turn _ _ _ _ _ _ m) as [[[i1 [[commit snap]|]]|e] m1]; simpl in *; try done.
  by rewrite Hl1, Hl.
Qed.

(** ** Wakes *)

(** A redundant wake never disturbs a session: when the session has no
    runnable work, or its slot is already held, the wake succeeds without a
    store operation (no new lease fences the running incarnation) and leaves
    the directory as it is. *)
Theorem redundant_wake_harmless envs id m :
  wakeable (status (mg_store m) id) = false ∨ is_Some (mg_directory m !! id) →
  ∃ m', wake envs id m = Some (Ok tt, m') ∧ mg_store m' = mg_store m ∧
    mg_directory m' = mg_directory m.
Proof.
  unfold wake. intros [->|[g Hg]]; [by eauto|].
  destruct (wakeable _); [|by eauto]. unfold try_reserve. rewrite Hg.
  eexists; split; [done|]. unfold notify_lingerer. by case_match.
Qed.

Lemma drop_own_slot id m m1 :
  mg_directory m !! id = None →
  mg_directory m1 = <[id := mg_generations m]> (mg_directory m) →
  mg_directory (drop_slot (mkSlotGuard id (mg_generations m)) m1) = mg_directory m.
Proof.
  intros Hnone Hd. unfold drop_slot. simpl. rewrite Hd, lookup_insert_eq, N.eqb_refl.
  simpl. by rewrite delete_insert_id.
Qed.

Lemma run_reserved_slot envs id f m0 m r m' :
  mg_directory m0 !! id = None → mg_directory m = <[id := mg_generations m0]> (mg_directory m0) →
  run_reserved envs id f (mkSlotGuard id (mg_generations m0)) m = Some (r, m') →
  mg_directory m' = mg_directory m0.
Proof.
  intros Hnone Hd. unfold run_reserved.
  destruct (run_cycle _ _ _ _ _ _ m) as [[[rel r1] m1]|] eqn:E; [|done]. intros [= _ <-].
  apply run_cycle_neutral in E as (Hd1 & _). simpl in Hd1. apply drop_own_slot; [done|]. by rewrite Hd1.
Qed.

(** However the cycle of a wake goes, when it has ended the directory is what it
    was before the wake, and the reported error is never a fence loss. *)
Lemma wake_slot envs id m r m' :
  wake envs id m = Some (r, m') →
  mg_directory m' = mg_directory m ∧ active_count m' = active_count m ∧
  ∀ have current, r ≠ Err (SubStore (Fenced have current)).
Proof.
  intros Hw. assert (mg_directory m' = mg_directory m ∧
    ∀ have current, r ≠ Err (SubStore (Fenced have current))) as [Hd Hr];
    [|split_and!; [done|by unfold active_count; rewrite Hd|done]].
  unfold wake in Hw. destruct (wakeable _); [|by simplify_eq].
  unfold try_reserve in Hw. destruct (mg_directory m !! id) eqn:Hnone.
  { simplify_eq. split; [|done]. unfold notify_lingerer. by case_match. }
  set (m1 := _ <| mg_directory := _ |>) in Hw.
  assert (mg_directory m1 = <[id := mg_generations m]> (mg_directory m)) as Hm1 by done.
  clearbody m1. pose proof (neutral_store_op (acquire_activation_lease id) m1) as (Hm2 & _).
  destruct (store_op _ m1) as [[f|e] m2] eqn:Eop; simpl in Hm2.
  - destruct (run_reserved _ _ _ _ m2) as [[r3 m3]|] eqn:E; [|done].
    assert (mg_directory m3 = mg_directory m) as H3.
    { eapply run_reserved_slot; [exact Hnone| |exact E]. congruence. }
    destruct r3 as [|[[]| | |]]; by simplify_eq.
  - simplify_eq. split; [apply drop_own_slot; [done|congruence]|].
    intros h c [= ->]. unfold store_op, acquire_activation_lease in Eop.
    destruct (in_sessions (mg_store m1) !! id) eqn:Es.
    + by erewrite M_bind_ok in Eop by (by apply find_session_Some).
    + by erewrite M_bind_err in Eop by (by apply find_session_None).
Qed.

(** Without lingering a wake always returns: one turn of the engine is
    run at most, whatever happens to the store meanwhile. *)
Lemma wake_returns env envs id m :
  mg_linger m = false → ∃ r m', wake (env :: envs) id m = Some (r, m').
Proof.
  intros Hl. unfold wake. destruct (wakeable _); [|by eauto].
  destruct (try_reserve id m) as [[slot|] m1] eqn:Er; [|by eauto].
  assert (mg_linger m1 = false) as Hl1.
  { unfold try_reserve in Er. by destruct (mg_directory m !! id); simplify_eq. }
  pose proof (neutral_store_op (acquire_activation_lease id) m1) as (_ & _ & Hl2 & _).
  destruct (store_op _ m1) as [[f|e] m2]; [|by eauto]. simpl in Hl2. unfold run_reserved.
  rewrite run_cycle_single by congruence.
  destruct (run_turn _ _ _ _ _ _ m2) as [r m3]. destruct r as [?|[[]| | |]]; eauto.
Qed.

(** Without lingering a wake always returns and always gives its slot back:
    whatever the engine does, whatever other tasks do to the store meanwhile
    and however the store answers, the wake comes back after at most one turn
    with the directory as it was, and never reports a fence loss (the winner of
    the lease drives the session). *)
Theorem wake_releases_slot env envs id m :
  mg_linger m = false →
  ∃ r m', wake (env :: envs) id m = Some (r, m') ∧
    mg_directory m' = mg_directory m ∧ active_count m' = active_count m ∧
    ∀ have current, r ≠ Err (SubStore (Fenced have current)).
Proof.
  intros Hl. destruct (wake_returns env envs id m Hl) as (r & m' & Hw).
  exists r, m'. split; [exact Hw|]. by eapply wake_slot.
Qed.
End engine.

(** A manager over a store with a [Ready] session ["s"]. *)
Definition demo_manager : Manager := manager_new demo_store 0.
Definition quiet : TurnEnv := mkTurnEnv [] [] TimedOut 0.

Lemma redundant_wake_harmless_witness :
  ∃ m', wake (H := echo_engine) [quiet] "nobody" demo_manager = Some (Ok tt, m') ∧
    mg_store m' = mg_store demo_manager.
Proof.
  destruct (redundant_wake_harmless (H := echo_engine) [quiet] "nobody" demo_manager) as (m' & Hw & Hs & _).
  - left. vm_compute. reflexivity.
  - exists m'. split; [exact Hw|exact Hs].
Defined.

Lemma wake_releases_slot_witness :
  ∃ r m', wake (H := echo_engine) [quiet] "s" demo_manager = Some (r, m') ∧ active_count m' = 0%nat.
Proof.
  destruct (wake_releases_slot (H := echo_engine) quiet [] "s" demo_manager eq_refl)
    as (r & m' & Hw & _ & Hc & _).
  exists r, m'. split; [exact Hw|exact Hc].
Defined.

(** ** Guards under interleaving *)

(** Reservations, guard drops and passivations in any order; the list holds the
    guards not yet dropped. *)
Inductive slot_step : Manager * list SlotGuard → Manager * list SlotGuard → Prop :=
| ss_reserve m gs id g m' : try_reserve id m = (Some g, m') → slot_step (m, gs) (m', g :: gs)
| ss_busy m gs id m' : try_reserve id m = (None, m') → slot_step (m, gs) (m', gs)
| ss_drop m gs1 g gs2 : slot_step (m, gs1 ++ g :: gs2) (drop_slot g m, gs1 ++ gs2)
| ss_passivate m gs id : slot_step (m, gs) (passivate id m, gs).

Record slots_ok (k : N) (x : Manager * list SlotGuard) : Prop := {
  so_mint : mg_generations x.1 ≤ k;
  so_fresh : Forall (λ g, sl_generation g < mg_generations x.1) x.2;
  so_unique : NoDup (sl_generation <$> x.2);
  so_owned : ∀ id gen, mg_directory x.1 !! id = Some gen → mkSlotGuard id gen ∈ x.2
}.

Lemma slots_ok_mono k k' x : slots_ok k x → k ≤ k' → slots_ok k' x.
Proof. intros [] ?. constructor; try done. lia. Qed.

Lemma slots_ok_reserve k m gs id :
  slots_ok k (m, gs) → k + 1 < u64_bound →
  match try_reserve id m with
  | (Some g, m') => slots_ok (k + 1) (m', g :: gs)
  | (None, m') => slots_ok (k + 1) (m', gs)
  end.
Proof.
  intros [Hm Hf Hu Ho] Hk. simpl in *.
  assert (mg_generations m +₆₄ 1 = mg_generations m + 1) as Hw by u64_lia.
  assert (Forall (λ g, sl_generation g < mg_generations m + 1) gs) as Hf'.
  { eapply Forall_impl; [exact Hf|]. simpl. lia. }
  unfold try_reserve. destruct (mg_directory m !! id) eqn:E; constructor; simpl; rewrite ?Hw; try done; try lia.
  - constructor; [simpl; lia|done].
  - constructor; [|done]. intros (g & Hg & Hin)%list_elem_of_fmap. rewrite Forall_forall in Hf.
    specialize (Hf g Hin). simpl in Hg, Hf. lia.
  - intros j gen [[<- <-]|[_ Hj]]%lookup_insert_Some; [left|right; by apply Ho].
Qed.

Lemma slots_ok_drop k m gs1 g gs2 :
  slots_ok k (m, gs1 ++ g :: gs2) → slots_ok k (drop_slot g m, gs1 ++ gs2).
Proof.
  intros [Hm Hf Hu Ho]. simpl in *.
  assert (gs1 ++ gs2 `sublist_of` gs1 ++ g :: gs2) as Hsub.
  { apply sublist_app; [done|]. by apply sublist_cons. }
  assert (mg_generations (drop_slot g m) = mg_generations m) as Hg by (unfold drop_slot; by repeat case_match).
  constructor; simpl; rewrite ?Hg; try done.
  - by eapply Forall_sublist.
  - eapply sublist_NoDup; [exact Hu|]. by apply sublist_fmap.
  - intros id gen Hid.
    assert (mg_directory m !! id = Some gen ∧ mkSlotGuard id gen ≠ g) as [Hid' Hne].
    { unfold drop_slot in Hid. destruct (mg_directory m !! sl_id g) as [x|] eqn:Ex.
      - destruct (N.eqb_spec x (sl_generation g)) as [->|Hx]; simpl in Hid.
        + apply lookup_delete_Some in Hid as [Hne Hid]. split; [done|]. by intros <-.
        + split; [done|]. intros <-. simpl in *. congruence.
      - split; [done|]. intros <-. simpl in *. congruence. }
    apply Ho in Hid'. apply elem_of_app in Hid' as [?|[?|?]%elem_of_cons]; [|done|]; set_solver.
Qed.

Lemma slots_ok_step k x y : slots_ok k x → k + 1 < u64_bound → slot_step x y → slots_ok (k + 1) y.
Proof.
  intros Hx Hk Hstep. destruct Hstep as [m gs id g m' Hr|m gs id m' Hr|m gs1 g gs2|m gs id].
  - pose proof (slots_ok_reserve k m gs id Hx Hk) as Hok. by rewrite Hr in Hok.
  - pose proof (slots_ok_reserve k m gs id Hx Hk) as Hok. by rewrite Hr in Hok.
  - eapply slots_ok_mono; [by apply slots_ok_drop|lia].
  - destruct Hx as [Hm Hf Hu Ho]. constructor; simpl in *; try done; [lia|].
    intros j gen [_ Hj]%lookup_delete_Some. by apply Ho.
Qed.

Lemma slots_ok_run n k x y :
  nsteps slot_step n x y → slots_ok k x → k + N.of_nat n < u64_bound → slots_ok (k + N.of_nat n) y.
Proof.
  intros Hn. revert k. induction Hn as [x|n x y z Hxy Hyz IH]; intros k Hx Hk.
  - by eapply slots_ok_mono; [exact Hx|lia].
  - replace (k + N.of_nat (S n)) with (k + 1 + N.of_nat n) by lia.
    apply IH; [|lia]. eapply slots_ok_step; [exact Hx|lia|exact Hxy].
Qed.

(** Slot guards are safe under every interleaving of reservations, drops
    and passivations: a reserved slot is always held by a guard still alive,
    dropping a guard never frees a slot another guard holds (a stale guard
    cannot evict a newer incarnation), and once every guard is dropped the
    directory is empty. *)
Theorem slot_guards_safe n store partition linger m gs :
  nsteps slot_step n (with_linger store partition linger, []) (m, gs) → N.of_nat n < u64_bound →
  (∀ id gen, mg_directory m !! id = Some gen → mkSlotGuard id gen ∈ gs) ∧
  (∀ g g', g ∈ gs → g' ∈ gs → g ≠ g' → mg_directory m !! sl_id g' = Some (sl_generation g') →
     mg_directory (drop_slot g m) !! sl_id g' = Some (sl_generation g')) ∧
  (gs = [] → mg_directory m = ∅).
Proof.
  intros Hn Hk.
  assert (slots_ok (0 + N.of_nat n) (m, gs)) as [_ _ Hu Ho].
  { eapply slots_ok_run; [exact Hn| |lia]. constructor; simpl; [lia|constructor|constructor|].
    intros id gen Hid. by simplify_map_eq. }
  simpl in *. split_and!; [done|..].
  - intros g g' Hg Hg' Hne Hd. unfold drop_slot.
    destruct (mg_directory m !! sl_id g) as [x|] eqn:Ex; [|done].
    destruct (N.eqb_spec x (sl_generation g)) as [->|]; [|done]. simpl.
    rewrite lookup_delete_ne; [done|]. intros Heq. rewrite Heq, Hd in Ex. injection Ex as Ex.
    apply Hne. by apply (NoDup_fmap_key sl_generation gs).
  - intros ->. apply map_empty. intros id. destruct (mg_directory m !! id) eqn:E; [|done].
    apply Ho in E. by apply not_elem_of_nil in E.
Qed.

Lemma slot_guards_safe_witness :
  let m0 := with_linger demo_store 0 false in
  let m1 := (try_reserve "s" m0).2 in
  let m3 := (try_reserve "s" (passivate "s" m1)).2 in
  mg_directory (drop_slot (mkSlotGuard "s" 0) m3) !! "s" = Some 1.
Proof.
  intros m0 m1 m3.
  refine (proj1 (proj2 (slot_guards_safe 3 demo_store 0 false m3 [mkSlotGuard "s" 1; mkSlotGuard "s" 0] _ _))
    (mkSlotGuard "s" 0) (mkSlotGuard "s" 1) _ _ _ _).
  - eapply nsteps_l; [by apply (ss_reserve _ _ "s")|]. eapply nsteps_l; [by apply (ss_passivate _ _ "s")|].
    eapply nsteps_l; [by apply (ss_reserve _ _ "s")|]. apply nsteps_O.
  - vm_compute. reflexivity.
  - right. left.
  - left.
  - discriminate.
  - vm_compute. reflexivity.
Defined.
