(* ===== verification/ActivationTurns.v ===== *)
(** * Turns

    What a load delivers is what a commit settles, and a turn whose lease was
    granted to another holder commits nothing. *)

From S2P Require Import Prelude Text Common Approval StoreTypes Store StoreInv Journal Registry.
From S2P Require Import StoreSteps StoreHistory StoreLease StoreCommit StoreInbox Activation.
From S2P Require Import ActivationSlots.

#[local] Open Scope N_scope.
#[local] Open Scope daemon_scope.

Section turns.
Context `{Engine}.

Lemma store_op_run {A} (op : Store A) m :
  store_op op m =
    (match (op (mg_store m)).1 with Ok a => Ok a | Err e => Err (SubStore e) end,
     m <| mg_store := (op (mg_store m)).2 |>).
Proof. unfold store_op. by destruct (op (mg_store m)) as [[]]. Qed.

(** A turn begins with exactly one store operation, the load. *)
Lemma begin_turn_store id f inc lc m :
  mg_store (begin_turn id f inc lc m).2 = run_op (OpLoad id f) (mg_store m).
Proof.
  unfold begin_turn, mbind, M_bind. rewrite store_op_run.
  destruct (load_for_activation id f (mg_store m)) as [[a|e] s1] eqn:E; cbn [fst snd run_op];
    rewrite E; [|done]. cbv zeta.
  destruct (hydrate _ _ _ _ _) as [[[]|e1] i1]; [|done]. unfold engine_result at 1.
  unfold mret, M_ret. destruct (run i1) as [[st|e2] i2]; done.
Qed.

(** The keys it reports are those of the completions the load delivered. *)
Lemma begin_turn_keys id f inc lc m i st keys m1 :
  begin_turn id f inc lc m = (Ok (i, st, keys), m1) →
  keys = (λ c, (jp_epoch c, jp_job_id c)) <$> entry_vec (in_unapplied (mg_store m)) id.
Proof.
  unfold begin_turn, mbind, M_bind. rewrite store_op_run.
  destruct (in_sessions (mg_store m) !! id) as [r|] eqn:Hr.
  2: { unfold load_for_activation. by erewrite M_bind_err by (by apply find_session_None). }
  rewrite (load_run id f r _ Hr). cbn [fst snd]. cbv zeta.
  destruct (hydrate _ _ _ _ _) as [[[]|e1] i1]; [|done]. unfold engine_result at 1.
  unfold mret, M_ret. destruct (run i1) as [[st'|e2] i2]; [|done]. by intros [= _ _ <- _].
Qed.

(** On an existing session only the engine can make it fail. *)
Lemma begin_turn_err id f inc lc m r e m1 :
  in_sessions (mg_store m) !! id = Some r →
  begin_turn id f inc lc m = (Err e, m1) → ∃ e', e = SubEngine e'.
Proof.
  intros Hr. unfold begin_turn, mbind, M_bind. rewrite store_op_run, (load_run id f r _ Hr).
  cbn [fst snd]. cbv zeta. destruct (hydrate _ _ _ _ _) as [[[]|e1] i1]; unfold engine_result at 1;
    [|intros [= <- _]; eauto].
  unfold mret, M_ret. destruct (run i1) as [[st'|e2] i2]; [done|]. intros [= <- _]; eauto.
Qed.

(** A lease granted inside an execution leaves a larger token at its end. *)
Lemma superseded_fence n s id r ops1 ops2 :
  reachable n s → in_range (n + length ops1 + length ops2 + 1) → in_sessions s !! id = Some r →
  ∃ r2, in_sessions (run_ops (ops1 ++ OpAcquireLease id :: ops2) s) !! id = Some r2 ∧ sr_fence r < sr_fence r2.
Proof.
  intros Hn Hb Hr. unfold in_range in Hb. unfold run_ops. rewrite foldl_app. fold (run_ops ops1 s).
  destruct (ev_rows _ _ (run_ops_evolves n s ops1 Hn ltac:(unfold in_range; lia)) _ _ Hr)
    as (r1 & Hr1 & _ & Hle1 & _).
  pose proof (reachable_run_ops n s ops1 Hn) as Hn1. set (s1 := run_ops ops1 s) in *. cbn [foldl].
  set (s2 := run_op (OpAcquireLease id) s1).
  assert (reachable (S (n + length ops1)) s2) as Hn2 by by constructor.
  assert (in_sessions s2 !! id = Some (r1 <| sr_fence := FenceToken_next (sr_fence r1) |>
    <| sr_status := Active |>)) as Hs2.
  { unfold s2. cbn [run_op]. rewrite (acquire_spec id r1 s1 Hr1). by simplify_map_eq. }
  destruct (ev_rows _ _ (run_ops_evolves _ s2 ops2 Hn2 ltac:(unfold in_range; lia)) _ _ Hs2)
    as (r2 & Hr2 & _ & Hle2 & _). simpl in Hle2. exists r2. split; [done|].
  pose proof (ctr_rows _ _ (reachable_counters _ _ Hn1 ltac:(unfold in_range; lia)) _ _ Hr1) as [Hc _].
  assert (sr_fence r1 < FenceToken_next (sr_fence r1)); [|lia].
  apply FenceToken_next_lt. unfold u64_bound in *. lia.
Qed.

(** Once the session's token has moved on, the commit of any verdict fails and
    the store stays as it was. *)
Lemma finish_turn_stale id f now inc st keys r m :
  in_sessions (mg_store m) !! id = Some r → f < sr_fence r →
  ∃ e, finish_turn id f now inc st keys m = (Err e, m) ∧
    (e = SubStore (Fenced f (sr_fence r)) ∨ ∃ e', e = SubEngine e').
Proof.
  intros Hr Hf. unfold finish_turn. destruct (checkpoint inc) as [b|e].
  2: { exists (SubEngine e). eauto. }
  exists (SubStore (Fenced f (sr_fence r))). split; [|by left].
  erewrite M_bind_ok by reflexivity. cbv zeta.
  assert (∀ A (op : FenceToken → Store A) cp, FencedOp (cp_session_id cp) op → cp_session_id cp = id →
    store_op (op f) m = (Err (SubStore (Fenced f (sr_fence r))), m)) as Hop.
  { intros A op cp Hfe <-. rewrite store_op_run, (Hfe f r _ Hr Hf). by destruct m. }
  destruct st as [| |job|approvals].
  - erewrite M_bind_err; [done|].
    by apply (Hop _ (λ f, mark_completed _ f now) _ (mark_completed_fenced _ now)).
  - destruct (take_turn_seal inc) as [seal i]. erewrite M_bind_err; [done|].
    by apply (Hop _ (commit_turn _ seal) _ (commit_turn_fenced _ seal)).
  - erewrite M_bind_err; [done|]. by apply (Hop _ (checkpoint_and_enqueue _ job) _ (checkpoint_fenced _ job)).
  - erewrite M_bind_err; [done|].
    by apply (Hop _ (park_approval _ approvals) _ (park_approval_fenced _ approvals)).
Qed.

(** C10. A superseded turn commits nothing: if the session's lease is granted
    to another holder at any point while the engine runs, whatever else happens
    around it, the turn fails and leaves the store exactly as its load and the
    others' operations made it; a turn that got as far as its commit reports
    the fence loss or the engine's own checkpoint failure. *)
Theorem superseded_turn_writes_nothing n m id r now inc lc ops1 ops2 :
  let f := sr_fence r in
  let during := ops1 ++ OpAcquireLease id :: ops2 in
  reachable n (mg_store m) → in_range (n + length during + 1) →
  in_sessions (mg_store m) !! id = Some r →
  let loaded := run_op (OpLoad id f) (mg_store m) in
  let '(res, m') := run_turn id f now inc lc during m in
  (∃ e, res = Err (SubEngine e) ∧ mg_store m' = loaded) ∨
  mg_store m' = run_ops during loaded ∧
    ((∃ current, f < current ∧ res = Err (SubStore (Fenced f current))) ∨
     ∃ e, res = Err (SubEngine e)).
Proof.
  intros f during Hn Hb Hr loaded. unfold in_range, during in Hb. rewrite length_app in Hb. simpl in Hb.
  assert (reachable (S n) loaded) as Hl by exact (reachable_step n _ (OpLoad id f) Hn).
  assert (in_sessions loaded !! id = Some r) as Hrl.
  { unfold loaded. cbn [run_op]. rewrite (load_run id f r _ Hr). cbn [snd].
    by autorewrite with tables. }
  pose proof (begin_turn_store id f inc lc m) as Hs. fold loaded in Hs.
  unfold run_turn, mbind, M_bind at 1.
  destruct (begin_turn id f inc lc m) as [[[[i st] keys]|e] m1] eqn:Eb; cbn [snd] in Hs.
  2: { left. destruct (begin_turn_err id f inc lc m r e m1 Hr Eb) as [e' ->]. eauto. }
  set (m2 := m1 <| mg_store := run_ops during (mg_store m1) |>).
  assert (mg_store m2 = run_ops during loaded) as Hm2 by (unfold m2; simpl; by rewrite Hs).
  destruct (superseded_fence (S n) loaded id r ops1 ops2 Hl) as (r2 & Hr2 & Hlt);
    [unfold in_range; lia|done|]. fold during in Hr2. rewrite <- Hm2 in Hr2.
  destruct (finish_turn_stale id f now i st keys r2 m2 Hr2 Hlt) as (e & Hfin & He).
  unfold interference, modify, mbind, M_bind. fold m2. rewrite Hfin. right. split; [done|].
  destruct He as [->|[e' ->]]; eauto.
Qed.

(** The keys of the completions waiting for a session. *)
Definition waiting_keys (s : Inner) (id : SessionId) : list (Epoch * JobId) :=
  (λ c, (jp_epoch c, jp_job_id c)) <$> entry_vec (in_unapplied s) id.

Lemma run_turn_commit id f now inc lc during m i keys m1 b r :
  begin_turn id f inc lc m = (Ok (i, StepTurnCommitted, keys), m1) →
  checkpoint i = Ok b →
  let s1 := run_ops during (mg_store m1) in
  commit_guards id (take_turn_seal i).1 f r s1 →
  let cp := with_applied_completions
    (with_consumed_splices (Checkpoint_new id (epoch i) b) (consumed_splices i)) keys in
  ∃ s', commit_turn cp (take_turn_seal i).1 f s1 =
      (Ok (mkTurnCommit (sr_turn_seq r) (boundary_status cp (sr_turn_seq r) s1)), s') ∧
    turn_committed cp (take_turn_seal i).1 r s1 s' ∧
    run_turn id f now inc lc during m =
      (Ok ((take_turn_seal i).2,
           Some (mkTurnCommit (sr_turn_seq r) (boundary_status cp (sr_turn_seq r) s1), b)),
       m1 <| mg_store := s' |>).
Proof.
  intros Hb Hc s1 Hg cp.
  destruct (commit_turn_committed cp (take_turn_seal i).1 f r s1 Hg) as (s' & Hrun & Htc).
  exists s'. split_and!; [done..|]. unfold run_turn. erewrite M_bind_ok by exact Hb. cbv beta iota.
  erewrite M_bind_ok by reflexivity. unfold finish_turn. rewrite Hc.
  erewrite M_bind_ok by reflexivity. cbv zeta. destruct (take_turn_seal i) as [seal i']. cbn [fst snd] in *.
  fold cp. unfold mbind, M_bind. rewrite store_op_run. cbn [mg_store update]. fold s1. rewrite Hrun. done.
Qed.

(** C12. A turn settles exactly what its load delivered: when the engine ends
    the turn and the token is still current, the turn commits; none of the
    completions the load delivered is left unapplied, none that arrived while
    the engine ran is lost, and the session stays [Ready] exactly for inbox
    rows beyond the engine's watermark and completions that arrived meanwhile.
    With nothing new it goes [Idle]: folded work is never delivered again. *)
Theorem turn_settles_delivered_work id f now inc lc during m i keys m1 b r :
  begin_turn id f inc lc m = (Ok (i, StepTurnCommitted, keys), m1) →
  checkpoint i = Ok b →
  let s1 := run_ops during (mg_store m1) in
  commit_guards id (take_turn_seal i).1 f r s1 →
  ∃ st m', run_turn id f now inc lc during m =
      (Ok ((take_turn_seal i).2, Some (mkTurnCommit (sr_turn_seq r) st, b)), m') ∧
    (∀ c, c ∈ entry_vec (in_unapplied (mg_store m')) id ↔
       c ∈ entry_vec (in_unapplied s1) id ∧ (jp_epoch c, jp_job_id c) ∉ waiting_keys (mg_store m) id) ∧
    (st = Ready ∨ st = Idle) ∧
    (st = Ready ↔
      (∃ row, row ∈ entry_vec (in_splices s1) id ∧ unconsumed row = true ∧
         match consumed_splices i with Some u => u < is_splice_seq row | None => True end) ∨
      (∃ c, c ∈ entry_vec (in_unapplied s1) id ∧
         (jp_epoch c, jp_job_id c) ∉ waiting_keys (mg_store m) id)).
Proof.
  intros Hb Hc s1 Hg.
  destruct (run_turn_commit id f now inc lc during m i keys m1 b r Hb Hc Hg) as (s' & _ & Htc & Hrun).
  rewrite (begin_turn_keys _ _ _ _ _ _ _ _ _ Hb) in *. fold (waiting_keys (mg_store m) id) in *.
  eexists _, _. split; [exact Hrun|]. split_and!.
  - intros c. cbn [mg_store update]. change id with (cp_session_id (with_applied_completions
      (with_consumed_splices (Checkpoint_new id (epoch i) b) (consumed_splices i))
      (waiting_keys (mg_store m) id))) at 1.
    rewrite (tcd_unapplied _ _ _ _ _ Htc), elem_of_leftover. done.
  - apply boundary_status_cases.
  - apply boundary_status_spec.
Qed.
End turns.

(** A manager over a store whose session ["s"] has two inbox rows, a completion
    and the first lease. *)
Definition demo_turn : Manager :=
  manager_new (run_ops [OpRecordCompletion (mkJobCompletion "s" 1 "job" []); OpAcquireLease "s"]
    demo_inbox) 0.

Lemma superseded_turn_writes_nothing_witness :
  let during := [OpEnqueueWake "x"; OpAcquireLease "s"] in
  mg_store (run_turn (H := echo_engine) "s" 2 7 create None during demo_turn).2 =
  run_ops during (run_op (OpLoad "s" 2) (mg_store demo_turn)).
Proof.
  pose proof (superseded_turn_writes_nothing (H := echo_engine) 6 demo_turn "s"
    (mkSessionRecord "s" 0 0 Active [] 2 0) 7 create None [OpEnqueueWake "x"] []) as Hs.
  cbv zeta in Hs. specialize (Hs (reachable_run_ops 4 demo_inbox [_; _] demo_inbox_reachable)
    ltac:(vm_compute; reflexivity) ltac:(vm_compute; reflexivity)).
  cbn [sr_fence app] in Hs. cbv zeta.
  destruct (run_turn (H := echo_engine) _ _ _ _ _ _ _) as [res m'] eqn:E.
  destruct Hs as [(e & -> & _)|[Hs _]]; [|exact Hs].
  exfalso. vm_compute in E. discriminate.
Defined.

Lemma turn_settles_delivered_work_witness :
  ∃ m', run_turn (H := echo_engine) "s" 2 7 create None [] demo_turn =
    (Ok (([], Some 2), Some (mkTurnCommit 0 Idle, [])), m').
Proof.
  destruct (turn_settles_delivered_work (H := echo_engine) "s" 2 7 create None [] demo_turn
    ([], Some 2) [(1, "job")] (begin_turn (H := echo_engine) "s" 2 create None demo_turn).2 []
    (mkSessionRecord "s" 0 0 Active [] 2 0)) as (st & m' & Hrun & _ & Hst & Hready).
  - vm_compute. reflexivity.
  - reflexivity.
  - constructor; [vm_compute; reflexivity|vm_compute; discriminate|reflexivity|vm_compute; discriminate].
  - exists m'. rewrite Hrun. destruct Hst as [-> | ->]; [|reflexivity]. exfalso.
    destruct (proj1 Hready eq_refl) as [(row & Hin & _ & Hlt)|(c & Hin & Hk)].
    + vm_compute in Hin. set_unfold in Hin. destruct Hin as [-> | [-> | []]]; vm_compute in Hlt; discriminate.
    + vm_compute in Hin. set_unfold in Hin. destruct Hin as [-> | []]. apply Hk.
      apply list_elem_of_here.
Defined.
