(* ===== verification/ActivationDrain.v ===== *)
(** * The job worker and what a recovery leaves

    [run_workers] drains the job outbox and files a completion per job.  A
    recovery that returns leaves no queued job, no queued wake and no resumable
    session of its partition. *)

From S2P Require Import Prelude Text Common Approval StoreTypes Store StoreInv Journal Registry.
From S2P Require Import StoreSteps StoreHistory StoreLease StoreCommit StoreInbox StoreWake.
From S2P Require Import Activation ActivationSlots ActivationTurns.

#[local] Open Scope N_scope.
#[local] Open Scope daemon_scope.

(** ** The job worker *)

(** What recording completions does to the store, step by step or all at once. *)
Record recorded (s s' : Inner) : Prop := {
  rd_keys : in_inbox_keys s ⊆ in_inbox_keys s';
  rd_sessions : ∀ id, is_Some (in_sessions s !! id) → is_Some (in_sessions s' !! id);
  rd_ready : ∀ id, status s id = Some Ready → status s' id = Some Ready;
  rd_wake : in_wake_outbox s `prefix_of` in_wake_outbox s';
  rd_unapplied : ∀ id, entry_vec (in_unapplied s) id `prefix_of` entry_vec (in_unapplied s') id;
  rd_fault : in_fault s' = in_fault s;
  rd_jobs : in_job_outbox s' = in_job_outbox s;
  rd_delegations : in_delegations s' = in_delegations s;
  rd_partition : ∀ id, (sr_partition <$> in_sessions s' !! id) = (sr_partition <$> in_sessions s !! id);
  rd_rows : rows_wf s → rows_wf s'
}.

#[export] Instance recorded_preorder : PreOrder recorded.
Proof.
  split.
  - intros s. by constructor.
  - intros a b c [] []. constructor; [set_solver|by eauto|by eauto|by etrans| |congruence..| |by eauto].
    + intros id. by trans (entry_vec (in_unapplied b) id).
    + intros id. by rewrite rd_partition1.
Qed.

(** A completion key is settled in a store: known, and if it was not known in
    [s0], filed, its session [Ready] and woken. *)
Definition key_settled (s0 : Inner) (s : Inner) (key : SessionId * Epoch * JobId) : Prop :=
  key ∈ in_inbox_keys s ∧
  (key ∉ in_inbox_keys s0 →
    status s key.1.1 = Some Ready ∧ key.1.1 ∈ in_wake_outbox s ∧
    key ∈ (completion_key <$> entry_vec (in_unapplied s) key.1.1)).

Definition job_key (job : JobCommand) : SessionId * Epoch * JobId :=
  completion_key (worker_completion job).

Lemma key_settled_mono s0 key s s' : recorded s s' → key_settled s0 s key → key_settled s0 s' key.
Proof.
  intros [] [Hk Hn]. split; [set_solver|]. intros H. destruct (Hn H) as (? & Hw & Hu). split_and!.
  - eauto.
  - destruct rd_wake0 as [l ->]. set_solver.
  - destruct (rd_unapplied0 key.1.1) as [l ->]. rewrite fmap_app. set_solver.
Qed.

Lemma record_recorded c r s :
  in_sessions s !! jp_session_id c = Some r → in_fault s ≠ Some BeforeWakePublish →
  ∃ s', record_completion_and_wake c s = (Ok tt, s') ∧ recorded s s' ∧
    in_inbox_keys s' = {[completion_key c]} ∪ in_inbox_keys s ∧ key_settled s s' (completion_key c) ∧
    (length (in_wake_outbox s') ≤ S (length (in_wake_outbox s)))%nat.
Proof.
  intros Hr Hf. destruct (decide (completion_key c ∈ in_inbox_keys s)) as [Hk|Hk].
  { exists s. rewrite record_known by eauto. split_and!; [done..|set_solver|by split|lia]. }
  assert (rows_wf s → rows_wf (record_completion_and_wake c s).2) as Hrows by apply record_completion_rows.
  rewrite (record_fresh c r s Hr Hk), decide_False in * by done. eexists; split; [done|]. split_and!.
  - constructor; simpl; try done.
    + set_solver.
    + intros id Hid. destruct (decide (jp_session_id c = id)); simplify_map_eq; eauto.
    + unfold status. simpl. intros id. destruct (decide (jp_session_id c = id)) as [<-|]; simplify_map_eq; done.
    + by eexists.
    + intros id. unfold entry_push. rewrite entry_vec_insert. case_decide; [subst; by eexists|done].
    + intros id. destruct (decide (jp_session_id c = id)) as [<-|]; by simplify_map_eq.
  - done.
  - split; [simpl; set_solver|]. intros _. split_and!.
    + unfold status. by simplify_map_eq.
    + simpl. set_solver.
    + simpl. unfold entry_push. rewrite entry_vec_insert, decide_True, fmap_app by done. set_solver.
  - simpl. rewrite length_app. simpl. lia.
Qed.

(** Settling after one more record settles relative to the store before it. *)
Lemma key_settled_later k0 s s1 s' k :
  in_inbox_keys s1 = {[k0]} ∪ in_inbox_keys s → key_settled s s1 k0 → recorded s1 s' →
  key_settled s1 s' k → key_settled s s' k.
Proof.
  intros Hk H0 Hg [Hin Hn]. split; [done|]. intros Hnew.
  destruct (decide (k = k0)) as [->|Hne].
  - by apply (key_settled_mono _ _ _ _ Hg H0).
  - apply Hn. rewrite Hk. set_solver.
Qed.

Lemma run_workers_loop_spec jobs fuel k m :
  in_job_outbox (mg_store m) = jobs → (length jobs < fuel)%nat →
  Forall (λ j, is_Some (in_sessions (mg_store m) !! jc_session_id j)) jobs →
  in_fault (mg_store m) ≠ Some BeforeWakePublish →
  ∃ s', run_workers_loop fuel k m = (Ok (foldl (λ k _, k +₆₄ 1) k jobs), m <| mg_store := s' |>) ∧
    in_job_outbox s' = [] ∧ recorded ((mg_store m) <| in_job_outbox := [] |>) s' ∧
    (length (in_wake_outbox s') ≤ length (in_wake_outbox (mg_store m)) + length jobs)%nat ∧
    Forall (λ j, key_settled (mg_store m) s' (job_key j)) jobs.
Proof.
  revert fuel k m. induction jobs as [|job jobs IH]; intros fuel k m Hj Hl Hs Hf;
    (destruct fuel as [|fuel]; [simpl in Hl; lia|]).
  { exists ((mg_store m) <| in_job_outbox := [] |>). split_and!; [|done..|simpl; lia|done].
    simpl. unfold mbind, M_bind, store_call, dequeue_job. rewrite Hj. destruct m as [s]. simpl in *.
    destruct s. simpl in *. by subst. }
  apply Forall_cons in Hs as [[r Hr] Hs]. simpl in Hl.
  set (s1 := (mg_store m) <| in_job_outbox := jobs |>).
  destruct (record_recorded (worker_completion job) r s1) as (s2 & Hrec & Hgrow & Hkey & Hset1 & Hlen);
    [done..|].
  destruct (IH fuel (k +₆₄ 1) (m <| mg_store := s2 |>)) as (s' & Hrun & Hout & Hgrow' & Hlen' & Hset).
  - simpl. by rewrite (rd_jobs _ _ Hgrow).
  - lia.
  - eapply Forall_impl; [exact Hs|]. intros j Hj'. apply (rd_sessions _ _ Hgrow). exact Hj'.
  - simpl. by rewrite (rd_fault _ _ Hgrow).
  - exists s'.
    assert (recorded (s2 <| in_job_outbox := [] |>) s') as G by exact Hgrow'.
    assert (recorded (s1 <| in_job_outbox := [] |>) (s2 <| in_job_outbox := [] |>)) as G1.
    { destruct Hgrow. by constructor. }
    split_and!.
    + cbn [run_workers_loop]. rewrite (M_bind_ok _ _ m (Some job) (m <| mg_store := s1 |>)).
      2: { unfold store_call, dequeue_job. by rewrite Hj. }
      cbv beta iota. rewrite (M_bind_ok _ _ _ tt (m <| mg_store := s2 |>)).
      2: { rewrite store_op_run. change (mg_store (m <| mg_store := s1 |>)) with s1. by rewrite Hrec. }
      etrans; [exact Hrun|]. done.
    + done.
    + by etrans; [|exact G].
    + simpl in *. lia.
    + constructor.
      * exact (key_settled_mono s1 (job_key job) _ s' G Hset1).
      * eapply Forall_impl; [exact Hset|]. intros j Hj'.
        refine (key_settled_later (job_key job) s1 _ s' (job_key j) _ _ G _); [exact Hkey|exact Hset1|exact Hj'].
Qed.

Lemma foldl_count {A} (l : list A) k :
  k + N.of_nat (length l) < u64_bound → foldl (λ k _, k +₆₄ 1) k l = k + N.of_nat (length l).
Proof.
  revert k. induction l as [|x l IH]; intros k Hk; simpl in *; [lia|].
  rewrite IH; rewrite wrap64_small by lia; lia.
Qed.

(** The worker drains the job outbox: it returns the number of jobs, the
    outbox is empty, and every job's completion is known; one not known before
    is filed with its session, which is [Ready] and has a wake queued. *)
Theorem run_workers_drains m :
  let s := mg_store m in
  let jobs := in_job_outbox s in
  N.of_nat (length jobs) < u64_bound →
  Forall (λ j, is_Some (in_sessions s !! jc_session_id j)) jobs →
  in_fault s ≠ Some BeforeWakePublish →
  ∃ s', run_workers m = (Ok (N.of_nat (length jobs)), m <| mg_store := s' |>) ∧
    in_job_outbox s' = [] ∧
    ∀ job, job ∈ jobs →
      let key := completion_key (worker_completion job) in
      key ∈ in_inbox_keys s' ∧
      (key ∉ in_inbox_keys s →
        status s' (jc_session_id job) = Some Ready ∧ jc_session_id job ∈ in_wake_outbox s' ∧
        key ∈ (completion_key <$> entry_vec (in_unapplied s') (jc_session_id job))).
Proof.
  intros s jobs Hb Hs Hf. unfold run_workers. fold s jobs.
  destruct (run_workers_loop_spec jobs (S (length jobs)) 0 m) as (s' & Hrun & Hout & _ & _ & Hset);
    [done|lia|done|done|].
  exists s'. split_and!; [|done|].
  - rewrite Hrun, foldl_count by lia. done.
  - rewrite Forall_forall in Hset. intros job Hin. exact (Hset job Hin).
Qed.

(** A store with two jobs of session ["s"] queued, the second a duplicate. *)
Definition demo_jobs : Manager :=
  manager_new (run_ops [OpEnqueueDetached (mkJobCommand "j" "s" 1 [] Ephemeral None);
                        OpEnqueueDetached (mkJobCommand "j" "s" 1 [] Ephemeral None)] demo_store) 0.

Lemma run_workers_drains_witness :
  ∃ s', run_workers demo_jobs = (Ok 2, demo_jobs <| mg_store := s' |>) ∧ in_job_outbox s' = [].
Proof.
  destruct (run_workers_drains demo_jobs) as (s' & Hrun & Hout & _).
  - vm_compute. reflexivity.
  - vm_compute. repeat constructor; eexists; reflexivity.
  - vm_compute. discriminate.
  - exists s'. split; [exact Hrun|exact Hout].
Defined.

(** ** A finished recovery *)

Lemma job_outbox_record c s :
  in_job_outbox (record_completion_and_wake c s).2 = in_job_outbox s.
Proof.
  change (wp (record_completion_and_wake c) (λ _ s', in_job_outbox s' = in_job_outbox s) s).
  unfold record_completion_and_wake. store_steps; try done.
  all: unfold apply_completion_locked; case_decide; [done|]; cbv zeta; by case_match.
Qed.

Lemma run_workers_loop_empty fuel k m n m' :
  (length (in_job_outbox (mg_store m)) < fuel)%nat →
  run_workers_loop fuel k m = (Ok n, m') → in_job_outbox (mg_store m') = [].
Proof.
  revert k m. induction fuel as [|fuel IH]; intros k m Hl; [lia|]. cbn [run_workers_loop].
  unfold mbind at 1, M_bind at 1, store_call, dequeue_job.
  destruct (in_job_outbox (mg_store m)) as [|job q] eqn:E; [intros [= _ <-]; exact E|].
  unfold mbind, M_bind. rewrite store_op_run.
  set (s1 := (mg_store m) <| in_job_outbox := q |>).
  change (mg_store (m <| mg_store := s1 |>)) with s1.
  pose proof (job_outbox_record (worker_completion job) s1) as Hout.
  destruct (record_completion_and_wake _ s1) as [[[]|e] s2]; [|done]. cbn [fst snd] in *.
  apply IH. simpl in *. rewrite Hout. simpl. lia.
Qed.

Section recovery.
Context `{Engine}.

Lemma dispatch_none oracle k m n m' :
  dispatch_wakes oracle k m = Some (Ok n, m') → k + N.of_nat (length oracle) < u64_bound → k ≤ n ∧
  (n = k → m' = m ∧ in_wake_outbox (mg_store m) = []).
Proof.
  revert k m. induction oracle as [|envs oracle IH]; intros k m; cbn [dispatch_wakes];
    unfold dequeue_wake; destruct (in_wake_outbox (mg_store m)) as [|id q] eqn:E.
  - intros [= <- <-] _. split; [lia|done].
  - done.
  - intros [= <- <-] _. split; [lia|done].
  - destruct (wake _ _ _) as [[[u|e] m1]|]; [|done..]. intros Hd Hb. simpl in Hb.
    rewrite wrap64_small in Hd by lia. destruct (IH _ _ Hd) as [Hle _]; [lia|]. split; [lia|]. lia.
Qed.

Lemma wake_all_none oracle ids k m n m' :
  wake_all oracle ids k m = Some (Ok n, m') → k + N.of_nat (length oracle) < u64_bound → k ≤ n ∧
  (n = k → m' = m ∧ ids = []).
Proof.
  revert ids k m. induction oracle as [|envs oracle IH]; intros [|id ids] k m; cbn [wake_all].
  - intros [= <- <-] _. split; [lia|done].
  - done.
  - intros [= <- <-] _. split; [lia|done].
  - destruct (wake _ _ _) as [[[u|e] m1]|]; [|done..]. intros Hd Hb. simpl in Hb.
    rewrite wrap64_small in Hd by lia. destruct (IH _ _ _ Hd) as [Hle _]; [lia|]. split; [lia|]. lia.
Qed.

(** A round is given fewer than [2^64] wakes. *)
Definition round_bounded (rd : Round) : Prop :=
  N.of_nat (length (rd_wakes rd)) < u64_bound ∧ N.of_nat (length (rd_scans rd)) < u64_bound.

(** Recovery stops only at rest: when the loop of a manager without
    lingering returns, for any engine and whatever it and other tasks did to
    the store during the turns, no job and no wake is queued and no session of
    the manager's partition is resumable. *)
Theorem recover_quiescent `{HashOrder} rounds m m' :
  mg_linger m = false → Forall round_bounded rounds → recover rounds m = Some (Ok tt, m') →
  in_job_outbox (mg_store m') = [] ∧ in_wake_outbox (mg_store m') = [] ∧
  scan_resumable (mg_store m') (mg_partition m') = [].
Proof.
  intros _ Hb. revert m. induction Hb as [|rd rounds [Hw Hs] _ IH]; intros m; cbn [recover]; [done|].
  destruct (run_workers m) as [[jobs|e] m1] eqn:Ej; [|done].
  destruct (dispatch_wakes _ _ m1) as [[[wakes|e] m2]|] eqn:Ew; [|done..].
  destruct (scan_once _ m2) as [[[scanned|e] m3]|] eqn:Es; [|done..].
  destruct ((jobs =? 0) && (wakes =? 0) && (scanned =? 0)) eqn:E; [|apply IH].
  apply andb_true_iff in E as [[_ ->%N.eqb_eq]%andb_true_iff ->%N.eqb_eq]. intros [= <-].
  destruct (dispatch_none _ _ _ _ _ Ew ltac:(lia)) as [_ Hd]. destruct (Hd eq_refl) as [-> Hwo].
  destruct (wake_all_none _ _ _ _ _ _ Es ltac:(lia)) as [_ Hsc]. destruct (Hsc eq_refl) as [-> Hids].
  split_and!; [|done|done]. eapply run_workers_loop_empty; [|exact Ej]. lia.
Qed.
End recovery.
