(* ===== verification/ActivationTermination.v ===== *)
(** * Recovery terminates

    With an engine that settles every session it is handed, and a store nobody
    else writes, the recovery loop returns: at most one round per delegation
    still owed, plus two. *)

From S2P Require Import Prelude Text Common Approval StoreTypes Store StoreInv Journal Registry.
From S2P Require Import StoreSteps StoreHistory StoreLease StoreCommit StoreInbox StoreWake.
From S2P Require Import Activation ActivationSlots ActivationTurns ActivationDrain.

#[local] Open Scope N_scope.
#[local] Open Scope daemon_scope.

(** An engine whose every turn ends the session. *)
Definition settling `{Engine} : Prop := ∀ snapshot unapplied splices ctx inc, ∃ i1 i2 b,
  hydrate snapshot unapplied splices ctx inc = (Ok tt, i1) ∧
  run i1 = (Ok StepCompleted, i2) ∧ checkpoint i2 = Ok b.

(** ** Delegations still owed *)

Definition owed_key (job : JobCommand) : SessionId * Epoch * JobId :=
  (jc_session_id job, jc_epoch job, jc_job_id job).

Definition owed (s : Inner) : gmap SessionId JobCommand :=
  filter (λ p, owed_key p.2 ∉ in_inbox_keys s) (in_delegations s).

Definition owed_count (s : Inner) : nat := size (owed s).

Lemma owed_mono s s' :
  in_delegations s' = in_delegations s → in_inbox_keys s ⊆ in_inbox_keys s' →
  (owed_count s' ≤ owed_count s)%nat.
Proof.
  intros Hd Hk. unfold owed_count, owed. rewrite Hd. apply map_subseteq_size.
  apply map_filter_subseteq_ext. intros i x _ Hn Hin. apply Hn. by apply Hk.
Qed.

Lemma owed_strict s s' id job :
  in_delegations s' = in_delegations s → in_inbox_keys s ⊆ in_inbox_keys s' →
  in_delegations s !! id = Some job → owed_key job ∉ in_inbox_keys s → owed_key job ∈ in_inbox_keys s' →
  (owed_count s' < owed_count s)%nat.
Proof.
  intros Hd Hk Hj Hn Hin. apply map_subset_size. split.
  - unfold owed. rewrite Hd. apply map_filter_subseteq_ext. intros i x _ Hx Hy. apply Hx. by apply Hk.
  - intros Hsub. assert (owed s !! id = Some job) as Ho by (by apply map_lookup_filter_Some).
    apply (lookup_weaken _ (owed s')) in Ho; [|done].
    apply map_lookup_filter_Some in Ho as [_ Ho]. by apply Ho.
Qed.

(** ** The effect of one wake *)

(** What no wake of a settling engine touches. *)
Record settle_frame (s s' : Inner) : Prop := {
  sf_jobs : in_job_outbox s' = in_job_outbox s;
  sf_fault : in_fault s' = in_fault s;
  sf_delegations : in_delegations s' = in_delegations s;
  sf_keys : in_inbox_keys s ⊆ in_inbox_keys s';
  sf_sessions : ∀ id, (sr_partition <$> in_sessions s' !! id) = (sr_partition <$> in_sessions s !! id)
}.

#[export] Instance settle_frame_preorder : PreOrder settle_frame.
Proof.
  split; [by intros s|]. intros a b c [] []. constructor; [congruence..|set_solver|].
  intros id. by rewrite sf_sessions1.
Qed.

(** Nothing was owed: only the session itself is settled, no wake is queued. *)
Record settled_quietly (ids : list SessionId) (s s' : Inner) : Prop := {
  sq_wakes : in_wake_outbox s' = in_wake_outbox s;
  sq_unapplied : in_unapplied s' = in_unapplied s;
  sq_rest : ∀ id, wakeable (status s' id) = true → in_sessions s' !! id = in_sessions s !! id;
  sq_done : ∀ id, id ∈ ids → wakeable (status s' id) = false
}.

(** Either way the wakes queued plus the delegations owed do not grow. *)
Definition wake_effect (ids : list SessionId) (s s' : Inner) : Prop :=
  settle_frame s s' ∧
  (length (in_wake_outbox s') + owed_count s' ≤ length (in_wake_outbox s) + owed_count s)%nat ∧
  (owed_count s' < owed_count s ∨ settled_quietly ids s s')%nat.

Lemma wakeable_sessions s id : wakeable (status s id) = true → is_Some (in_sessions s !! id).
Proof. unfold status. destruct (in_sessions s !! id); [eauto|done]. Qed.

Lemma wake_effect_refl s : wake_effect [] s s.
Proof.
  split_and!; [done|done|]. right. constructor; try done. intros id Hid. by apply not_elem_of_nil in Hid.
Qed.

Lemma wake_effect_trans l k s1 s2 s3 :
  wake_effect l s1 s2 → wake_effect k s2 s3 → wake_effect (l ++ k) s1 s3.
Proof.
  intros (F1 & B1 & C1) (F2 & B2 & C2). split_and!; [by etrans|lia|].
  assert (owed_count s2 ≤ owed_count s1 ∧ owed_count s3 ≤ owed_count s2)%nat as [? ?].
  { split; [destruct F1|destruct F2]; by apply owed_mono. }
  destruct C1 as [?|[W1 U1 R1 D1]]; [left; lia|]. destruct C2 as [?|[W2 U2 R2 D2]]; [left; lia|].
  right. constructor; [congruence..| |].
  - intros id Hid. rewrite (R2 id Hid). apply R1. unfold status in *. by rewrite <- (R2 id Hid).
  - intros id [Hid|Hid]%elem_of_app; [|by apply D2].
    destruct (wakeable (status s3 id)) eqn:E; [|done]. rewrite <- (D1 id Hid).
    unfold status in *. by rewrite <- (R2 id E).
Qed.

Lemma fire_notice_effect cp s : wake_effect [] s (fire_notice cp s).
Proof.
  assert (∃ x y, fire_notice cp s = s <| in_notices_fired := x |> <| in_notice_outbox := y |>) as (x & y & ->).
  { unfold fire_notice. destruct (in_completion_notices s !! _) as [[p i]|]; [case_decide|].
    - by exists (in_notices_fired s), (in_notice_outbox s); destruct s.
    - by eexists _, _.
    - by exists (in_notices_fired s), (in_notice_outbox s); destruct s. }
  split_and!; [done|done|]. right. constructor; try done. intros id Hid. by apply not_elem_of_nil in Hid.
Qed.

(** Settling the row itself. *)
Lemma settled_effect cp r now s :
  in_sessions s !! cp_session_id cp = Some r →
  wake_effect [cp_session_id cp] s (settled cp r now s) ∧
  in_delegations (settled cp r now s) = in_delegations s.
Proof.
  intros Hr. rewrite settled_eq. split; [|done]. split_and!.
  - constructor; try done. simpl. intros id.
    destruct (decide (cp_session_id cp = id)) as [<-|]; by simplify_map_eq.
  - done.
  - right. constructor; try done; simpl.
    + intros id. unfold status. simpl.
      destruct (decide (cp_session_id cp = id)) as [<-|]; by simplify_map_eq.
    + intros id ->%list_elem_of_singleton. unfold status. by simplify_map_eq.
Qed.

(** Delivering the completion a delegation owes: known, or one fewer owed. *)
Lemma delivered_effect cp job s s' :
  in_delegations s !! cp_session_id cp = Some job →
  delivered (owed_completion cp job) s s' → wake_effect [] s s'.
Proof.
  intros Hj. unfold delivered. change (completion_key (owed_completion cp job)) with (owed_key job).
  case_decide as Hk; [intros ->; apply wake_effect_refl|]. intros (rp & Hrp & Heq).
  assert (settle_frame s s') as HF.
  { rewrite Heq. constructor; try done; simpl; [set_solver|]. intros id.
    simpl in Hrp. destruct (decide (jc_session_id job = id)) as [<-|]; by simplify_map_eq. }
  assert (owed_count s' < owed_count s)%nat as Hlt.
  { eapply (owed_strict _ _ (cp_session_id cp) job); [apply (sf_delegations _ _ HF)|apply (sf_keys _ _ HF)|done..|].
    rewrite Heq. simpl. set_solver. }
  split_and!; [done| |by left]. assert (in_wake_outbox s' = in_wake_outbox s ++ [jc_session_id job]) as Hw
    by by rewrite Heq. rewrite Hw, length_app. simpl. lia.
Qed.

(** A terminal commit that passes its fence settles its session. *)
Lemma mark_completed_effect cp f now r s :
  in_sessions s !! cp_session_id cp = Some r → sr_fence r ≤ f →
  (mark_completed cp f now s).1 = Ok tt ∧
  wake_effect [cp_session_id cp] s (mark_completed cp f now s).2.
Proof.
  intros Hr Hf. destruct (settled_effect cp r now s Hr) as [H1 Hd].
  destruct (fulfil_delegation_effect cp (settled cp r now s)) as [Hok Hdel].
  rewrite (mark_completed_run cp f now r s Hr Hf). unfold mbind, M_bind.
  set (s1 := settled cp r now s) in *. destruct (fulfil_delegation cp s1) as [[[]|e] s2]; [|done].
  cbn [fst snd] in *. split; [done|]. unfold modify. cbn [snd].
  assert (wake_effect [] s1 s2) as H2.
  { destruct (in_delegations s1 !! cp_session_id cp) as [job|] eqn:Ej; [|rewrite Hdel; apply wake_effect_refl].
    case_decide; [by eapply delivered_effect|]. rewrite Hdel. apply wake_effect_refl. }
  exact (wake_effect_trans [cp_session_id cp] [] _ _ _ H1
    (wake_effect_trans [] [] _ _ _ H2 (fire_notice_effect cp s2))).
Qed.

(** Taking the lease and loading touch only the session's row and claims. *)
Lemma lease_effect id r s :
  in_sessions s !! id = Some r → wakeable (Some (sr_status r)) = true →
  let s' := run_op (OpLoad id (FenceToken_next (sr_fence r))) (run_op (OpAcquireLease id) s) in
  in_sessions s' !! id =
    Some (r <| sr_fence := FenceToken_next (sr_fence r) |> <| sr_status := Active |>) ∧
  ∃ x, s' = put_session id (r <| sr_fence := FenceToken_next (sr_fence r) |> <| sr_status := Active |>) s
         <| in_splices := x |>.
Proof.
  intros Hr Hw. cbn [run_op]. rewrite (acquire_spec id r s Hr). cbn [snd].
  erewrite load_run by (by simplify_map_eq). cbn [snd]. rewrite claim_locked_frame.
  split; [by simplify_map_eq|]. by eexists.
Qed.

(** The whole wake, as three operations on the store. *)
Lemma settle_effect cp r now s :
  let id := cp_session_id cp in
  let f := FenceToken_next (sr_fence r) in
  in_sessions s !! id = Some r → wakeable (Some (sr_status r)) = true →
  wake_effect [id] s (run_ops [OpAcquireLease id; OpLoad id f; OpMarkCompleted cp f now] s).
Proof.
  intros id f Hr Hw. destruct (lease_effect id r s Hr Hw) as [Hr' (x & Heq)]. fold f in Hr', Heq.
  cbn [run_ops foldl]. set (s2 := run_op (OpLoad id f) (run_op (OpAcquireLease id) s)) in *.
  destruct (mark_completed_effect cp f now _ s2 Hr') as [_ (HF & HB & HC)]; [simpl; lia|].
  change (run_op (OpMarkCompleted cp f now) s2) with (mark_completed cp f now s2).2.
  set (s3 := (mark_completed cp f now s2).2) in *.
  assert (settle_frame s s2) as HF2.
  { rewrite Heq. constructor; try done. cbn. intros j. destruct (decide (id = j)) as [<-|]; [by rewrite lookup_insert_eq, Hr|by rewrite lookup_insert_ne]. }
  assert (owed_count s2 = owed_count s ∧ in_wake_outbox s2 = in_wake_outbox s) as [Ho Hwk] by by rewrite Heq.
  split_and!; [by etrans|rewrite <- Ho, <- Hwk; lia|]. rewrite <- Ho.
  destruct HC as [?|[W U R D]]; [by left|right]. constructor; [by rewrite W|by rewrite U, Heq| |done].
  intros j Hj. rewrite (R j Hj), Heq. simpl. rewrite lookup_insert_ne; [done|]. intros <-.
  rewrite D in Hj; [done|by left].
Qed.

Section settling.
Context `{Engine} (Hsettle : settling).

(** The manager of a quiet process: no lingering, no slot held. *)
Definition at_baseline (m : Manager) : Prop := mg_linger m = false ∧ mg_directory m = ∅.

(** An environment in which nobody else writes while the engine runs. *)
Definition undisturbed (envs : list TurnEnv) : Prop :=
  ∃ env envs', envs = env :: envs' ∧ en_during env = [].

Lemma begin_turn_settles id f inc m r :
  in_sessions (mg_store m) !! id = Some r →
  ∃ i b keys, begin_turn id f inc None m =
      (Ok (i, StepCompleted, keys), m <| mg_store := run_op (OpLoad id f) (mg_store m) |>) ∧
    checkpoint i = Ok b.
Proof using Hsettle.
  intros Hr. pose proof (load_run id f r _ Hr) as Hload.
  destruct (Hsettle (sr_snapshot r) (entry_vec (in_unapplied (mg_store m)) id)
    (claim_splices_locked id f (mg_store m)).1
    (mkTurnCtx (in_execution_policy (mg_store m) !! id) (sr_turn_seq r) f) inc)
    as (i1 & i2 & b & Hh & Hrun & Hc).
  eexists i2, b, _. split; [|done]. unfold begin_turn. cbn [run_op]. rewrite Hload.
  unfold mbind at 1, M_bind at 1. rewrite store_op_run, Hload.
  cbn [fst snd ac_snapshot ac_unapplied ac_splices ac_policy ac_turn_seq]. rewrite Hh.
  erewrite M_bind_ok by reflexivity. rewrite Hrun. by erewrite M_bind_ok by reflexivity.
Qed.

Lemma run_turn_settles id f now inc m r :
  in_sessions (mg_store m) !! id = Some r → sr_fence r ≤ f →
  ∃ cp i, cp_session_id cp = id ∧
    run_turn id f now inc None [] m = (Ok (i, None),
      m <| mg_store := run_op (OpMarkCompleted cp f now) (run_op (OpLoad id f) (mg_store m)) |>).
Proof using Hsettle.
  intros Hr Hf. destruct (begin_turn_settles id f inc m r Hr) as (i & b & keys & Hb & Hc).
  set (s1 := run_op (OpLoad id f) (mg_store m)) in *.
  assert (in_sessions s1 !! id = Some r) as Hr1.
  { unfold s1. cbn [run_op]. rewrite (load_run id f r _ Hr). cbn [snd]. by autorewrite with tables. }
  set (cp := with_completion_payload (with_consumed_splices (Checkpoint_new id (epoch i) b)
    (consumed_splices i)) (completion_payload i)).
  destruct (mark_completed_effect cp f now r s1) as [Hok _]; [done..|].
  exists cp, i. split; [done|]. unfold run_turn. erewrite M_bind_ok by exact Hb. cbv beta iota.
  rewrite (M_bind_ok _ _ _ tt (m <| mg_store := s1 |>)) by done. unfold finish_turn. rewrite Hc.
  erewrite M_bind_ok by reflexivity. cbv beta iota zeta. fold cp.
  erewrite M_bind_ok; [reflexivity|]. rewrite store_op_run.
  change (mg_store (m <| mg_store := s1 |>)) with s1. by rewrite Hok.
Qed.

(** A wake of a settling engine returns, frees its slot and settles. *)
Lemma wake_settles envs id m :
  at_baseline m → undisturbed envs → rows_wf (mg_store m) →
  ∃ m', wake envs id m = Some (Ok tt, m') ∧ at_baseline m' ∧ mg_partition m' = mg_partition m ∧
    rows_wf (mg_store m') ∧ wake_effect [id] (mg_store m) (mg_store m').
Proof using Hsettle.
  intros [Hl Hd] (env & envs' & -> & Hq) Hw. unfold wake.
  destruct (wakeable (status (mg_store m) id)) eqn:E.
  2: { exists m. unfold wake_effect. split_and!; [done..|right]. constructor; [done..|].
       by intros j ->%list_elem_of_singleton. }
  unfold try_reserve. rewrite Hd, lookup_empty.
  destruct (wakeable_sessions _ _ E) as [r Hr].
  assert (wakeable (Some (sr_status r)) = true) as Er by (unfold status in E; by rewrite Hr in E).
  set (f := FenceToken_next (sr_fence r)).
  set (m1 := _ <| mg_directory := _ |>). rewrite store_op_run.
  change (mg_store m1) with (mg_store m). rewrite (acquire_spec id r _ Hr). cbn [fst snd]. fold f.
  set (m2 := m1 <| mg_store := _ |>). unfold run_reserved.
  rewrite run_cycle_single by done. rewrite Hq.
  destruct (run_turn_settles id f (en_now env) create m2 (r <| sr_fence := f |> <| sr_status := Active |>))
    as (cp & i & Hcp & ->); [unfold m2; simpl; by simplify_map_eq|simpl; lia|].
  cbv beta iota zeta. eexists. split; [reflexivity|].
  set (s' := run_op (OpMarkCompleted cp f (en_now env)) _).
  assert (s' = run_ops [OpAcquireLease id; OpLoad id f; OpMarkCompleted cp f (en_now env)] (mg_store m)) as Hs'.
  { unfold s'. cbn [run_ops foldl]. do 2 f_equal. cbn [run_op]. by rewrite (acquire_spec id r _ Hr). }
  assert (drop_slot (mkSlotGuard id (mg_generations m)) (m2 <| mg_store := s' |>) =
    m2 <| mg_store := s' |> <| mg_directory := ∅ |>) as ->.
  { unfold drop_slot, m2, m1. simpl. rewrite lookup_insert_eq, N.eqb_refl. simpl.
    by rewrite delete_insert_id by apply lookup_empty. }
  split; [done|]. split; [done|].
  change (mg_store (m2 <| mg_store := s' |> <| mg_directory := ∅ |>)) with s'. split.
  - rewrite Hs'. cbn [run_ops foldl]. by do 3 apply run_op_rows.
  - rewrite Hs'. subst id. by apply settle_effect.
Qed.

(** What each pass of the loop keeps. *)
Record pass_ok (m m' : Manager) : Prop := {
  po_baseline : at_baseline m';
  po_partition : mg_partition m' = mg_partition m;
  po_rows : rows_wf (mg_store m')
}.

Lemma wake_all_settles oracle ids k m :
  at_baseline m → rows_wf (mg_store m) → Forall undisturbed oracle → (length ids ≤ length oracle)%nat →
  ∃ n m', wake_all oracle ids k m = Some (Ok n, m') ∧ pass_ok m m' ∧
    wake_effect ids (mg_store m) (mg_store m').
Proof using Hsettle.
  intros Hb Hw Ho. revert ids k m Hb Hw.
  induction Ho as [|envs oracle Henv _ IH]; intros [|id ids] k m Hb Hw Hl; simpl in Hl; try lia; cbn [wake_all].
  1,2: by exists k, m; split; [done|]; split; [by constructor|apply wake_effect_refl].
  destruct (wake_settles envs id m Hb Henv Hw) as (m1 & -> & Hb1 & Hp1 & Hw1 & He1).
  destruct (IH ids (k +₆₄ 1) m1 Hb1 Hw1) as (n & m2 & -> & [Hb2 Hp2 Hw2] & He2); [lia|].
  exists n, m2. split; [done|]. split; [constructor; [done|congruence|done]|].
  by apply (wake_effect_trans [id] ids _ (mg_store m1)).
Qed.

Lemma dispatch_settles oracle k m :
  at_baseline m → rows_wf (mg_store m) → Forall undisturbed oracle →
  (length (in_wake_outbox (mg_store m)) + owed_count (mg_store m) ≤ length oracle)%nat →
  ∃ n m', dispatch_wakes oracle k m = Some (Ok n, m') ∧ pass_ok m m' ∧
    settle_frame (mg_store m) (mg_store m') ∧ in_wake_outbox (mg_store m') = [].
Proof using Hsettle.
  intros Hb Hw Ho. revert k m Hb Hw. induction Ho as [|envs oracle Henv _ IH]; intros k m Hb Hw Hl;
    cbn [dispatch_wakes]; unfold dequeue_wake;
    destruct (in_wake_outbox (mg_store m)) as [|id q] eqn:E; simpl in Hl; try lia.
  1,2: by exists k, m; split_and!; [done|constructor| |].
  set (m0 := m <| mg_store := _ |>).
  destruct (wake_settles envs id m0 Hb Henv Hw) as (m1 & -> & Hb1 & Hp1 & Hw1 & HF1 & Hlen & _).
  assert (owed_count (mg_store m0) = owed_count (mg_store m)) as Ho0 by done.
  assert (in_wake_outbox (mg_store m0) = q) as Hq by done. rewrite Ho0, Hq in Hlen.
  destruct (IH (k +₆₄ 1) m1 Hb1 Hw1) as (n & m2 & -> & [Hb2 Hp2 Hw2] & HF2 & Hempty); [lia|].
  exists n, m2. split_and!; [done|constructor; [done|etrans; [exact Hp2|exact Hp1]|done]| |done].
  trans (mg_store m1); [|done]. destruct HF1. by constructor.
Qed.

Lemma workers_settle m :
  at_baseline m → rows_wf (mg_store m) → in_fault (mg_store m) ≠ Some BeforeWakePublish →
  Forall (λ j, is_Some (in_sessions (mg_store m) !! jc_session_id j)) (in_job_outbox (mg_store m)) →
  ∃ n m', run_workers m = (Ok n, m') ∧ pass_ok m m' ∧ in_job_outbox (mg_store m') = [] ∧
    in_fault (mg_store m') = in_fault (mg_store m) ∧
    (owed_count (mg_store m') ≤ owed_count (mg_store m))%nat ∧
    (length (in_wake_outbox (mg_store m')) ≤
     length (in_wake_outbox (mg_store m)) + length (in_job_outbox (mg_store m)))%nat ∧
    (∀ id, (sr_partition <$> in_sessions (mg_store m') !! id) = (sr_partition <$> in_sessions (mg_store m) !! id)).
Proof.
  intros Hb Hw Hf Hj. unfold run_workers.
  destruct (run_workers_loop_spec (in_job_outbox (mg_store m)) (S (length (in_job_outbox (mg_store m)))) 0 m)
    as (s' & -> & Hout & Hrec & Hlen & _); [done|lia|done|done|].
  eexists _, _. split; [reflexivity|]. split_and!; [|done|..|done|].
  - constructor; [done..|]. by apply (rd_rows _ _ Hrec).
  - apply (rd_fault _ _ Hrec).
  - apply (owed_mono (mg_store m) s'); [apply (rd_delegations _ _ Hrec)|apply (rd_keys _ _ Hrec)].
  - apply (rd_partition _ _ Hrec).
Qed.

(** A store at rest: one round confirms it. *)
Lemma recover_at_rest `{HashOrder} rd rounds m :
  in_job_outbox (mg_store m) = [] → in_wake_outbox (mg_store m) = [] →
  scan_resumable (mg_store m) (mg_partition m) = [] →
  ∃ m', recover (rd :: rounds) m = Some (Ok tt, m').
Proof.
  intros Hj Hwk Hsc. cbn [recover]. unfold run_workers. rewrite Hj. cbn [length run_workers_loop].
  unfold mbind, M_bind, store_call, dequeue_job. rewrite Hj.
  assert (m <| mg_store := mg_store m |> = m) as -> by (by destruct m). cbn.
  assert (∀ oracle k, dispatch_wakes oracle k m = Some (Ok k, m)) as ->.
  { intros [|] k; cbn [dispatch_wakes]; unfold dequeue_wake; by rewrite Hwk. }
  unfold scan_once. rewrite Hsc.
  assert (∀ oracle k, wake_all oracle [] k m = Some (Ok k, m)) as -> by (by intros [|]).
  by eexists.
Qed.

(** A pass over the scan that owed nothing leaves nothing resumable. *)
Lemma scan_exhausts `{HashOrder} s s' p :
  rows_wf s → rows_wf s' → settled_quietly (scan_resumable s p) s s' → scan_resumable s' p = [].
Proof.
  intros Hw Hw' [_ U R D]. apply elem_of_nil_inv. intros id Hin. apply elem_of_scan in Hin; [|done].
  destruct Hin as (r & Hr & Hp & Hres).
  assert (wakeable (status s' id) = true) as Hwk.
  { unfold status. rewrite Hr. simpl. destruct Hres as [->|[->|[[j ->] _]]]; done. }
  rewrite D in Hwk; [done|]. apply elem_of_scan; [done|]. exists r. rewrite <- (R id Hwk).
  split_and!; [done..|]. unfold has_work_to_resume in *. by rewrite <- U.
Qed.

Lemma scan_length `{HashOrder} s p : (length (scan_resumable s p) ≤ size (in_sessions s))%nat.
Proof.
  unfold scan_resumable. rewrite length_fmap.
  etrans; [apply sublist_length, sublist_filter|]. rewrite length_fmap, hash_order_perm.
  by rewrite length_map_to_list.
Qed.

Lemma same_size (s s' : Inner) :
  (∀ id, (sr_partition <$> in_sessions s' !! id) = (sr_partition <$> in_sessions s !! id)) →
  size (in_sessions s') = size (in_sessions s).
Proof.
  intros Heq. rewrite <- (map_size_fmap sr_partition (in_sessions s')), <- (map_size_fmap sr_partition (in_sessions s)).
  f_equal. apply map_eq. intros id. by rewrite !lookup_fmap.
Qed.

(** A round that is undisturbed and may run [k] wakes in each pass. *)
Definition round_ready (k : nat) (rd : Round) : Prop :=
  Forall undisturbed (rd_wakes rd) ∧ Forall undisturbed (rd_scans rd) ∧
  (k ≤ length (rd_wakes rd))%nat ∧ (k ≤ length (rd_scans rd))%nat.

(** What a recovery starts from. *)
Record recoverable (k : nat) (m : Manager) : Prop := {
  re_baseline : at_baseline m;
  re_rows : rows_wf (mg_store m);
  re_fault : in_fault (mg_store m) ≠ Some BeforeWakePublish;
  re_jobs : Forall (λ j, is_Some (in_sessions (mg_store m) !! jc_session_id j)) (in_job_outbox (mg_store m));
  re_bound : (length (in_job_outbox (mg_store m)) + length (in_wake_outbox (mg_store m)) +
    owed_count (mg_store m) ≤ k)%nat;
  re_size : (size (in_sessions (mg_store m)) ≤ k)%nat
}.

Lemma recover_settles `{HashOrder} k p rounds m :
  recoverable k m → (owed_count (mg_store m) ≤ p)%nat → (p + 2 ≤ length rounds)%nat →
  Forall (round_ready k) rounds → ∃ m', recover rounds m = Some (Ok tt, m').
Proof using Hsettle.
  revert rounds m. induction (lt_wf p) as [p _ IH]. intros rounds m [Hb Hw Hf Hj Hk Hn] Hp Hl Hrs.
  destruct Hrs as [|rd rounds (Hu1 & Hu2 & Hl1 & Hl2) Hrs]; [simpl in Hl; lia|]. cbn [recover].
  destruct (workers_settle m Hb Hw Hf Hj) as (jobs & m1 & -> & [Hb1 Hp1 Hw1] & Hj1 & Hf1 & Ho1 & Hwk1 & Hs1).
  destruct (dispatch_settles (rd_wakes rd) 0 m1 Hb1 Hw1 Hu1) as (wakes & m2 & -> & [Hb2 Hp2 Hw2] & HF2 & Hwk2); [lia|].
  pose proof (owed_mono _ _ (sf_delegations _ _ HF2) (sf_keys _ _ HF2)) as Ho2.
  pose proof (same_size _ _ Hs1) as Hz1. pose proof (same_size _ _ (sf_sessions _ _ HF2)) as Hz2.
  pose proof (scan_length (mg_store m2) (mg_partition m2)) as Hsl. unfold scan_once.
  destruct (wake_all_settles (rd_scans rd) (scan_resumable (mg_store m2) (mg_partition m2)) 0 m2 Hb2 Hw2 Hu2)
    as (scanned & m3 & -> & [Hb3 Hp3 Hw3] & HF3 & Hlen3 & Hcase); [lia|].
  case_match; [by eexists|].
  assert (in_job_outbox (mg_store m3) = []) as Hj3
    by (by rewrite (sf_jobs _ _ HF3), (sf_jobs _ _ HF2)).
  pose proof (same_size _ _ (sf_sessions _ _ HF3)) as Hz3. rewrite Hwk2 in Hlen3. simpl in Hlen3, Hl.
  destruct Hcase as [Hlt|Hq].
  - apply (IH (p - 1)%nat); [lia| |lia|lia|done]. constructor; try done.
    + rewrite (sf_fault _ _ HF3), (sf_fault _ _ HF2). congruence.
    + by rewrite Hj3.
    + rewrite Hj3. simpl. lia.
    + lia.
  - destruct Hrs as [|rd' rounds' _ _]; [simpl in Hl; lia|]. apply recover_at_rest; [done| |].
    + by rewrite (sq_wakes _ _ _ Hq).
    + rewrite Hp3. by apply (scan_exhausts (mg_store m2)).
Qed.

(** C34. Recovery after a restart finishes: for a manager that does not linger and
    holds no incarnation, over a store without an armed fault before the wake and
    whose queued jobs all name sessions it has, with an engine that settles every
    session it is handed and nobody else writing, the loop returns success within
    as many rounds, each of as many wakes, as there are queued jobs, queued wakes,
    delegations still owed and sessions together, plus two, whatever order the
    session table is walked in.  ([dangling_job_stops_recovery] shows that a queued
    job for an unknown session makes it return that error instead.) *)
Theorem recover_terminates `{HashOrder} rounds m :
  let s := mg_store m in
  let k := (length (in_job_outbox s) + length (in_wake_outbox s) + owed_count s +
            size (in_sessions s) + 2)%nat in
  at_baseline m → rows_wf s → in_fault s ≠ Some BeforeWakePublish →
  Forall (λ j, is_Some (in_sessions s !! jc_session_id j)) (in_job_outbox s) →
  (k ≤ length rounds)%nat → Forall (round_ready k) rounds →
  ∃ m', recover rounds m = Some (Ok tt, m').
Proof using Hsettle.
  intros s k Hb Hw Hf Hj Hl Hrs.
  apply (recover_settles k (owed_count s)); [|done|unfold k in Hl; lia|done].
  constructor; try done; fold s; unfold k; lia.
Qed.
End settling.

(** An engine that ends every session at once. *)
Definition settle_engine : Engine := {|
  Incarnation := SnapshotBlob;
  create := [];
  hydrate snap _ _ _ _ := (Ok tt, snap);
  run inc := (Ok StepCompleted, inc);
  checkpoint inc := Ok inc;
  epoch _ := 1;
  consumed_splices _ := None;
  completion_payload _ := None;
  take_turn_seal inc := (None, inc)
|}.

(** ["p"] waits on ["c"], both ready; the parent was woken. *)
Definition demo_recovery : Manager :=
  manager_new (run_ops [OpCreateSession "p" 0 []; OpCreateSession "c" 0 [];
    OpBindDelegation "c" (mkJobCommand "job" "p" 3 [] Ephemeral None); OpEnqueueWake "p"]
    InMemoryStore_new) 0.

Definition ready_rounds (k : nat) : list Round :=
  replicate k (mkRound (replicate k [quiet]) (replicate k [quiet])).

Lemma recover_terminates_witness :
  ∃ m', recover (H := settle_engine) (H0 := canonical_order) (ready_rounds 6) demo_recovery = Some (Ok tt, m').
Proof.
  apply (recover_terminates (H := settle_engine)).
  - intros snap un sp ctx inc. by exists snap, snap, snap.
  - split; vm_compute; reflexivity.
  - exact (reachable_rows 4 _ (reachable_run_ops 0 InMemoryStore_new [_; _; _; _] reachable_new)).
  - vm_compute. discriminate.
  - constructor.
  - vm_compute. lia.
  - apply Forall_replicate. split_and!; try (vm_compute; lia); apply Forall_replicate; by exists quiet, [].
Defined.

Lemma recover_quiescent_witness :
  match recover (H := settle_engine) (H0 := canonical_order) (ready_rounds 6) demo_recovery with
  | Some (Ok _, m') => in_wake_outbox (mg_store m') = []
  | _ => False
  end.
Proof.
  destruct (recover (H := settle_engine) (H0 := canonical_order) (ready_rounds 6) demo_recovery)
    as [[[[]|e] m']|] eqn:E.
  - apply (recover_quiescent (H := settle_engine) (H0 := canonical_order) (ready_rounds 6) demo_recovery m'); [reflexivity| |exact E].
    apply Forall_replicate. split; vm_compute; reflexivity.
  - vm_compute in E. discriminate.
  - vm_compute in E. discriminate.
Defined.

(** A queued job for a session the store does not have: the worker fails to file
    its completion, and recovery returns that error. *)
Example dangling_job_stops_recovery :
  match recover (H := settle_engine) (H0 := canonical_order) (ready_rounds 6)
    (manager_new (run_ops [OpEnqueueDetached (mkJobCommand "j" "ghost" 0 [] Ephemeral None)] InMemoryStore_new) 0) with
  | Some (Err e, _) => e = SubStore (NotFound "ghost")
  | _ => False
  end.
Proof. vm_compute. reflexivity. Qed.
