(* ===== verification/Ring.v ===== *)
(** * The cursored ring ([crates/contracts/daemon-common/src/cursored.rs])

    The bounded buffer behind the live streams of the node: every item gets the
    next id, overflow evicts from the front and raises the floor, coalescing
    removes superseded items without raising it.  The abstract side is the
    unbounded log of everything pushed and not superseded; the ring is shown to
    be that log above its floor, so a reader is told that it lagged or misses
    nothing. *)

From S2P Require Import Prelude.

#[local] Open Scope N_scope.
#[local] Open Scope daemon_scope.

Section ring.
Context {T : Type}.

Inductive CursoredItem :=
| Item (t : T)
| Lagged (head : N).

(** [cap = 0] is unbounded; [floor] is the highest id evicted on overflow. *)
Record CursoredRing := mkCursoredRing {
  cr_ring : list (N * T);
  cr_next_id : N;
  cr_floor : N;
  cr_cap : N
}.

Definition ring_new (cap : N) : CursoredRing := mkCursoredRing [] 1 0 cap.

(** [while ring.len() > cap { if let Some((evicted, _)) = ring.pop_front() .. }]. *)
Fixpoint evict (cap : N) (ring : list (N * T)) (floor : N) : list (N * T) * N :=
  match ring with
  | [] => ([], floor)
  | (evicted, _) :: rest =>
      if cap <? N.of_nat (length ring) then evict cap rest (N.max floor evicted)
      else (ring, floor)
  end.

Definition push (item : T) (r : CursoredRing) : N * CursoredRing :=
  let id := cr_next_id r in
  let ring := cr_ring r ++ [(id, item)] in
  let '(ring, floor) := if negb (cr_cap r =? 0) then evict (cr_cap r) ring (cr_floor r)
                        else (ring, cr_floor r) in
  (id, mkCursoredRing ring (id +₆₄ 1) floor (cr_cap r)).

(** The floor stays: superseding is not eviction. *)
Definition coalesce (pred : T → bool) (r : CursoredRing) : N * CursoredRing :=
  let before := N.of_nat (length (cr_ring r)) in
  let ring := List.filter (λ e, negb (pred e.2)) (cr_ring r) in
  (before - N.of_nat (length ring), mkCursoredRing ring (cr_next_id r) (cr_floor r) (cr_cap r)).

(** [next_id - 1] on [u64]. *)
Definition head (r : CursoredRing) : N := wrap64 (cr_next_id r + (u64_bound - 1)).

Definition lagged (r : CursoredRing) (after : N) : bool := after <? cr_floor r.

(** The loop of [page]: collect past [after], stop at [max]. *)
Fixpoint page_loop (after max : N) (ring out : list (N * T)) : list (N * T) :=
  match ring with
  | [] => out
  | (id, item) :: rest =>
      if after <? id then
        let out := out ++ [(id, item)] in
        if negb (max =? 0) && (max <=? N.of_nat (length out)) then out
        else page_loop after max rest out
      else page_loop after max rest out
  end.

Definition page (r : CursoredRing) (after max : N) : list (N * T) :=
  page_loop after max (cr_ring r) [].

Definition backlog (r : CursoredRing) (after : N) : list CursoredItem :=
  if lagged r after then [Lagged (head r)]
  else (λ e, Item e.2) <$> page r after 0.

(** ** The abstract log *)

Inductive RingOp :=
| RPush (item : T)
| RCoalesce (pred : T → bool).

Definition ring_op (op : RingOp) (r : CursoredRing) : CursoredRing :=
  match op with RPush x => (push x r).2 | RCoalesce p => (coalesce p r).2 end.

Definition ring_run (cap : N) (ops : list RingOp) : CursoredRing :=
  foldl (λ r op, ring_op op r) (ring_new cap) ops.

(** The number of items pushed, and the log: every item pushed and not
    superseded since, under the id of its push. *)
Definition log_op (st : N * list (N * T)) (op : RingOp) : N * list (N * T) :=
  match op with
  | RPush x => (st.1 + 1, st.2 ++ [(st.1 + 1, x)])
  | RCoalesce p => (st.1, List.filter (λ e, negb (p e.2)) st.2)
  end.

Definition log_run (ops : list RingOp) : N * list (N * T) := foldl log_op (0, []) ops.

Abbreviation past c := (filter (λ e, c < e.1)).

(** The ring is the log above the floor. *)
Record ring_refines (cap : N) (r : CursoredRing) (st : N * list (N * T)) : Prop := {
  rr_cap : cr_cap r = cap;
  rr_next : cr_next_id r = st.1 + 1;
  rr_ring : cr_ring r = past (cr_floor r) st.2;
  rr_ids : Forall (λ e, 1 ≤ e.1 ≤ st.1) st.2;
  rr_sorted : StronglySorted (<) (st.2.*1);
  rr_floor : cr_floor r ≤ st.1;
  rr_bounded : cap ≠ 0 → N.of_nat (length (cr_ring r)) ≤ cap;
  rr_unbounded : cap = 0 → cr_floor r = 0;
  rr_near : cr_floor r = 0 ∨ cr_floor r + cap ≤ st.1
}.

Lemma past_all c (l : list (N * T)) : Forall (λ e, c < e.1) l → past c l = l.
Proof. induction 1 as [|e l He _ IH]; [done|]. by rewrite filter_cons_True, IH. Qed.

Lemma past_past c d (l : list (N * T)) : past c (past d l) = past (N.max c d) l.
Proof. rewrite list_filter_filter. apply list_filter_iff. intros e. lia. Qed.

Lemma StronglySorted_past c (l : list (N * T)) :
  StronglySorted (<) (l.*1) → StronglySorted (<) ((past c l).*1).
Proof. intros Hs. eapply StronglySorted_sublist; [|exact Hs]. apply sublist_fmap, sublist_filter. Qed.

Lemma increasing_length (a b : N) l :
  StronglySorted (<) l → Forall (λ x, a < x ≤ b) l → a ≤ b → a + N.of_nat (length l) ≤ b.
Proof.
  intros Hs. revert a. induction Hs as [|x l Hs IH Hx]; intros a Hf Hab; simpl; [lia|].
  apply Forall_cons in Hf as [? Hf]. specialize (IH x). lapply IH; [lia|].
  eapply Forall_impl; [apply Forall_and; split; [exact Hf|exact Hx]|]. simpl. lia.
Qed.

(** Eviction keeps what is above the new floor, and raises it to an evicted id. *)
Lemma evict_spec cap l floor :
  StronglySorted (<) (l.*1) → Forall (λ e, floor < e.1) l →
  let '(l', floor') := evict cap l floor in
  l' = past floor' l ∧ floor ≤ floor' ∧ N.of_nat (length l') ≤ cap ∧
  (floor' = floor ∨ (∃ e, e ∈ l ∧ floor' = e.1) ∧ N.of_nat (length l') = cap).
Proof.
  revert floor. induction l as [|[i x] l IH]; intros floor Hs Hf; [cbn; auto with lia|].
  apply Forall_cons in Hf as [Hi Hf]. cbn [evict]. inversion Hs as [|? ? Hs' Hlt]; subst.
  rewrite Forall_fmap in Hlt. destruct (cap <? _) eqn:E.
  - specialize (IH (N.max floor i) Hs'). destruct (evict cap l _) as [l' floor'].
    destruct IH as (-> & Hle & Hlen & Hor).
    { eapply Forall_impl; [apply Forall_and; split; [exact Hf|exact Hlt]|]. intros e [? ?]. simpl in *. lia. }
    split_and!; [|lia|done|].
    + rewrite filter_cons_False; [done|]. simpl. lia.
    + right. destruct Hor as [->|((e & He & ->) & Hcap)].
      * split; [exists (i, x); split; [left|simpl in *; lia]|].
        apply N.ltb_lt in E. rewrite past_all in Hlen |- *; [simpl in E; lia|..].
        all: eapply Forall_impl; [apply Forall_and; split; [exact Hf|exact Hlt]|]; intros e [? ?]; simpl in *; lia.
      * split; [exists e; by split; [right|]|done].
  - apply N.ltb_ge in E. split_and!; [|lia|done|by left].
    rewrite past_all; [done|]. by constructor.
Qed.

Lemma page_loop_spec after max ring out :
  (max = 0 ∨ N.of_nat (length out) < max) →
  page_loop after max ring out =
  out ++ (if max =? 0 then past after ring else take (N.to_nat max - length out) (past after ring)).
Proof.
  revert out. induction ring as [|[i x] ring IH]; intros out Hm; cbn [page_loop].
  { rewrite filter_nil, take_nil. by destruct (max =? 0); rewrite app_nil_r. }
  destruct (after <? i) eqn:E.
  - apply N.ltb_lt in E. rewrite filter_cons_True by done.
    destruct (max =? 0) eqn:E0; cbn [negb andb].
    + apply N.eqb_eq in E0 as ->. rewrite IH by auto. by rewrite <- app_assoc.
    + apply N.eqb_neq in E0. destruct Hm as [?|Hm]; [done|].
      rewrite length_app. simpl length. destruct (max <=? _) eqn:El.
      * apply N.leb_le in El. replace (N.to_nat max - length out)%nat with 1%nat by lia. done.
      * apply N.leb_gt in El. rewrite IH by (right; rewrite length_app; simpl; lia).
        rewrite <- app_assoc, length_app. simpl.
        replace (N.to_nat max - length out)%nat with (S (N.to_nat max - (length out + 1)))%nat by lia. done.
  - apply N.ltb_ge in E. rewrite filter_cons_False by (simpl; lia). by apply IH.
Qed.

Lemma page_spec r after max :
  page r after max = if max =? 0 then past after (cr_ring r) else take (N.to_nat max) (past after (cr_ring r)).
Proof.
  unfold page. rewrite page_loop_spec by (simpl; lia). simpl. by rewrite Nat.sub_0_r.
Qed.

Lemma refines_coalesce cap r st p :
  ring_refines cap r st → ring_refines cap (coalesce p r).2 (log_op st (RCoalesce p)).
Proof.
  intros [Hc Hn Hr Hi Hs Hf Hb Hu Hnear]. constructor; simpl; try done.
  - rewrite Hr. clear. induction st.2 as [|e l IH]; [done|]. simpl.
    rewrite filter_cons. case_decide; simpl; destruct (negb (p e.2)); rewrite ?filter_cons; simpl;
      try case_decide; try done; by rewrite IH.
  - eapply Forall_sublist; [apply sublist_filter_b|done].
  - eapply StronglySorted_sublist; [|exact Hs]. apply sublist_fmap, sublist_filter_b.
  - intros H0. specialize (Hb H0). pose proof (sublist_length _ _ (sublist_filter_b (λ e, negb (p e.2)) (cr_ring r))). lia.
Qed.

Lemma refines_push cap r st x :
  ring_refines cap r st → st.1 + 2 < u64_bound →
  ring_refines cap (push x r).2 (log_op st (RPush x)).
Proof.
  intros [Hc Hn Hr Hi Hs Hf Hb Hu Hnear] Hlt. unfold push. rewrite Hc, Hn, Hr.
  set (l := st.2 ++ [(st.1 + 1, x)]).
  assert (past (cr_floor r) st.2 ++ [(st.1 + 1, x)] = past (cr_floor r) l) as ->.
  { unfold l. rewrite filter_app, (past_all _ [_]); [done|]. constructor; [simpl; lia|done]. }
  assert (StronglySorted (<) (l.*1)) as Hsl.
  { unfold l. rewrite fmap_app. apply StronglySorted_snoc; [done|]. rewrite Forall_fmap.
    eapply Forall_impl; [exact Hi|]. simpl. intros. lia. }
  assert (Forall (λ e, 1 ≤ e.1 ≤ st.1 + 1) l) as Hil.
  { unfold l. apply Forall_app. split; [|constructor; [simpl; lia|done]].
    eapply Forall_impl; [exact Hi|]. simpl. intros. lia. }
  destruct (cap =? 0) eqn:E; cbn [negb].
  - apply N.eqb_eq in E. constructor; simpl; try done; [rewrite wrap64_small by lia; done|lia..].
  - pose proof (evict_spec cap (past (cr_floor r) l) (cr_floor r) (StronglySorted_past _ _ Hsl)) as He.
    destruct (evict cap _ _) as [l' floor']. apply N.eqb_neq in E.
    destruct He as (-> & Hle & Hlen & Hor).
    { apply Forall_forall. intros e [? _]%list_elem_of_filter. done. }
    constructor; simpl; try done.
    + by rewrite wrap64_small by (unfold u64_bound in *; lia).
    + by rewrite past_past, N.max_l by lia.
    + destruct Hor as [->|((e & He & ->) & _)]; [lia|]. apply list_elem_of_filter in He as [_ He].
      rewrite Forall_forall in Hil. specialize (Hil e He). lia.
    + destruct Hor as [->|((e & He & ->) & Hcap)]; [lia|right].
      rewrite <- Hcap, <- (length_fmap fst). apply increasing_length.
      * do 2 apply StronglySorted_past. done.
      * rewrite Forall_fmap, Forall_forall. intros e' [? [? He']%list_elem_of_filter]%list_elem_of_filter.
        rewrite Forall_forall in Hil. specialize (Hil e' He'). simpl. lia.
      * apply list_elem_of_filter in He as [_ He]. rewrite Forall_forall in Hil. specialize (Hil e He). lia.
Qed.

Lemma pushed_le ops st : (foldl log_op st ops).1 ≤ st.1 + N.of_nat (length ops).
Proof.
  revert st. induction ops as [|op ops IH]; intros st; simpl; [lia|].
  specialize (IH (log_op st op)). destruct op; simpl in *; lia.
Qed.

Lemma ring_run_refines cap ops :
  N.of_nat (length ops) + 2 < u64_bound → ring_refines cap (ring_run cap ops) (log_run ops).
Proof.
  unfold ring_run, log_run. induction ops as [|op ops IH] using rev_ind.
  { intros _. constructor; simpl; try done; try lia; constructor. }
  rewrite length_app. simpl. intros Hn. rewrite !foldl_app. simpl.
  pose proof (pushed_le ops (0, [])) as Hp. simpl in Hp.
  destruct op; [apply refines_push|apply refines_coalesce]; try apply IH; lia.
Qed.

(** A reader of a ring is told that it lagged or misses nothing: after any
    pushes and coalescings the ids count the pushes, at most [cap] items are
    kept, and a reader at a cursor that is not lagged gets, page by page or as
    backlog, exactly the items pushed after its cursor and not superseded since;
    a lagged reader gets only the marker with the live edge, which happens to no
    reader of an unbounded ring and to none within [cap] items of the edge. *)
Theorem ring_no_silent_gap cap ops after max :
  N.of_nat (length ops) + 2 < u64_bound →
  let r := ring_run cap ops in
  let '(pushed, log) := log_run ops in
  head r = pushed ∧ (∀ x, (push x r).1 = pushed + 1) ∧
  (cap ≠ 0 → N.of_nat (length (cr_ring r)) ≤ cap) ∧
  if lagged r after
  then cap ≠ 0 ∧ after + cap < pushed ∧ backlog r after = [Lagged pushed]
  else backlog r after = (λ e, Item e.2) <$> past after log ∧
    page r after max = if max =? 0 then past after log else take (N.to_nat max) (past after log).
Proof.
  intros Hn r. pose proof (ring_run_refines cap ops Hn) as [Hc Hnx Hr Hi Hs Hf Hb Hu Hnear].
  pose proof (pushed_le ops (0, [])) as Hp. fold (log_run ops) in Hp. fold r in Hc, Hnx, Hr, Hf, Hb, Hu, Hnear.
  destruct (log_run ops) as [pushed log]. simpl in *.
  assert (head r = pushed) as Hh.
  { unfold head. rewrite Hnx. replace (pushed + 1 + (u64_bound - 1)) with (pushed + 1 * u64_bound) by lia.
    unfold wrap64. rewrite N.Div0.mod_add. apply N.mod_small. lia. }
  split_and!; [done| |done|].
  { intros x. unfold push. destruct (if negb _ then _ else _). exact Hnx. }
  unfold backlog, lagged. destruct (after <? cr_floor r) eqn:E.
  - apply N.ltb_lt in E. split_and!; [|lia|by rewrite Hh]. intros ->. rewrite Hu in E; [lia|done].
  - apply N.ltb_ge in E. rewrite !page_spec, N.eqb_refl, Hr, past_past, N.max_l by lia. done.
Qed.
End ring.

Arguments CursoredItem : clear implicits.
Arguments CursoredRing : clear implicits.
Arguments RingOp : clear implicits.

Lemma ring_no_silent_gap_witness :
  let r := ring_run 2 [RPush "a"; RPush "b"; RPush "c"; RCoalesce (String.eqb "b")] in
  backlog r 1 = [Item "c"] ∧ backlog r 0 = [Lagged 3].
Proof.
  intros r.
  pose proof (ring_no_silent_gap 2 [RPush "a"; RPush "b"; RPush "c"; RCoalesce (String.eqb "b")] 1 0
    ltac:(vm_compute; reflexivity)) as H1.
  pose proof (ring_no_silent_gap 2 [RPush "a"; RPush "b"; RPush "c"; RCoalesce (String.eqb "b")] 0 0
    ltac:(vm_compute; reflexivity)) as H2.
  split; [exact (proj1 (proj2 (proj2 (proj2 H1))))|exact (proj2 (proj2 (proj2 (proj2 (proj2 H2)))))].
Defined.
