(* ===== verification/Custody.v ===== *)
(** * The disk custodian ([crates/vhc/host/daemon-vhc-custody/src/lib.rs])

    One custodian per file-system root: every durable write reserves its bytes
    first, against a global and a per-scope quota and a free-space floor, and
    commits or drops the reservation afterwards.  The free space is what the
    operating system reports when the code probes it, an argument [free] of the
    operations that do.

    The counters are atomics: a reservation reads them, decides, and adds its
    bytes in separate steps.  [custody_run] executes whole operations one after
    the other; [custody_step] interleaves the decision and the addition of
    concurrent reservations. *)

From S2P Require Import Prelude Text Common.

#[local] Open Scope N_scope.
#[local] Open Scope daemon_scope.

Definition MIB : N := 1024 * 1024.

Record CustodyConfig := mkCustodyConfig {
  cc_quota_bytes : option N;
  cc_scope_quota_bytes : option N;
  cc_reserve_bytes : N;
  cc_emergency_bytes : N
}.

Definition CustodyConfig_default : CustodyConfig :=
  mkCustodyConfig None None (2048 * MIB) (256 * MIB).

Definition DISK_RESERVE_MB_ENV : string := "DAEMON_VHC_DISK_RESERVE_MB".
Definition DISK_QUOTA_MB_ENV : string := "DAEMON_VHC_DISK_QUOTA_MB".
Definition DISK_RUN_QUOTA_MB_ENV : string := "DAEMON_VHC_DISK_RUN_QUOTA_MB".
Definition DISK_EMERGENCY_MB_ENV : string := "DAEMON_VHC_DISK_EMERGENCY_MB".
Definition DISK_PRUNE_HORIZON_ENV : string := "DAEMON_VHC_DISK_PRUNE_HORIZON_SEGMENTS".
Definition DEFAULT_PRUNE_HORIZON_SEGMENTS : N := 4.

(** The environment of the process: the bytes of a variable, if it is set. *)
Abbreviation Env := (string → option bytes).

Definition env_u64 (env : Env) (name : string) : option N :=
  v ← env name; parse_u64 (trim v).

Definition prune_horizon_from_env (env : Env) : N :=
  default DEFAULT_PRUNE_HORIZON_SEGMENTS (env_u64 env DISK_PRUNE_HORIZON_ENV).

(** The quotas are multiplied with wrap-around, the reserves saturate. *)
Definition quota_from_env (env : Env) (name : string) : option N :=
  match env_u64 env name with
  | Some v => if 0 <? v then Some (wrap64 (v * MIB)) else None
  | None => None
  end.

Definition from_env (env : Env) : CustodyConfig :=
  let cfg := CustodyConfig_default in
  let reserve := match env_u64 env DISK_RESERVE_MB_ENV with
                 | Some v => sat_mul v MIB | None => cc_reserve_bytes cfg end in
  let emergency := match env_u64 env DISK_EMERGENCY_MB_ENV with
                   | Some v => sat_mul v MIB | None => cc_emergency_bytes cfg end in
  mkCustodyConfig (quota_from_env env DISK_QUOTA_MB_ENV) (quota_from_env env DISK_RUN_QUOTA_MB_ENV)
    reserve emergency.

Inductive WriteClass := WNormal | WCritical.

Inductive Pressure := Nominal | Warn | RefuseNew.

Inductive CustodyRefusal :=
| QuotaExceeded (scope : string) (requested quota : N)
| FloorBreached (requested free floor : N).

(** The [io::ErrorKind] of [to_io]. *)
Inductive IoErrorKind := KindQuotaExceeded | KindStorageFull.

Definition to_io (e : CustodyRefusal) : IoErrorKind :=
  match e with
  | QuotaExceeded _ _ _ => KindQuotaExceeded
  | FloorBreached _ _ _ => KindStorageFull
  end.

Record DiskCustodian := mkDiskCustodian {
  dc_cfg : CustodyConfig;
  dc_used_total : N;
  dc_pending : N;
  dc_scopes : gmap string N
}.

#[export] Instance eta_DiskCustodian : Eta DiskCustodian := λ c,
  mkDiskCustodian (dc_cfg c) (dc_used_total c) (dc_pending c) (dc_scopes c).

Record Reservation := mkReservation {
  rv_scope : string;
  rv_bytes : N
}.

(** What [symlink_metadata] and [read_dir] find under a path. *)
Inductive Node :=
| NError
| NFile (len : N)
| NOther
| NDir (entries : option (list Node)).

Fixpoint walk_bytes (n : Node) : N :=
  match n with
  | NError => 0
  | NFile len => len
  | NOther => 0
  | NDir None => 0
  | NDir (Some entries) => foldl sat_add 0 (map walk_bytes entries)
  end.

(** [open]: the ledger is seeded from the entries of the root. *)
Definition custodian_open (entries : list (string * Node)) (cfg : CustodyConfig) : DiskCustodian :=
  let step st (e : string * Node) :=
    let bytes := walk_bytes e.2 in
    (sat_add st.1 bytes, <[e.1 := bytes]> st.2) in
  let '(total, scopes) := foldl step (0, ∅) entries in
  mkDiskCustodian cfg total 0 scopes.

Definition floor_of (cfg : CustodyConfig) (class : WriteClass) : N :=
  match class with
  | WNormal => sat_add (cc_reserve_bytes cfg) (cc_emergency_bytes cfg)
  | WCritical => cc_reserve_bytes cfg
  end.

(** The global quota counts what is outstanding. *)
Definition over_quota (c : DiskCustodian) (bytes : N) : option N :=
  match cc_quota_bytes (dc_cfg c) with
  | Some quota =>
      if quota <? sat_add (sat_add (dc_used_total c) (dc_pending c)) bytes then Some quota else None
  | None => None
  end.

(** The scope quota does not. *)
Definition over_scope_quota (c : DiskCustodian) (scope : string) (bytes : N) : option N :=
  match cc_scope_quota_bytes (dc_cfg c) with
  | Some quota =>
      if quota <? sat_add (default 0 (dc_scopes c !! scope)) bytes then Some quota else None
  | None => None
  end.

(** The checks of [reserve], up to the addition. *)
Definition reserve_check (free : N) (scope : string) (bytes : N) (class : WriteClass)
    (c : DiskCustodian) : option CustodyRefusal :=
  let over := match class with
              | WNormal => match over_quota c bytes with
                           | Some quota => Some quota
                           | None => over_scope_quota c scope bytes
                           end
              | WCritical => None
              end in
  match over with
  | Some quota => Some (QuotaExceeded scope bytes quota)
  | None =>
      let floor := floor_of (dc_cfg c) class in
      let free := sat_sub free (dc_pending c) in
      if sat_sub free bytes <? floor then Some (FloorBreached bytes free floor) else None
  end.

(** The addition: [pending.fetch_add(bytes)]. *)
Definition reserve_admit (scope : string) (bytes : N) (c : DiskCustodian) : Reservation * DiskCustodian :=
  (mkReservation scope bytes, c <| dc_pending := dc_pending c +₆₄ bytes |>).

Definition reserve (free : N) (scope : string) (bytes : N) (class : WriteClass) (c : DiskCustodian)
    : result CustodyRefusal Reservation * DiskCustodian :=
  match reserve_check free scope bytes class c with
  | Some e => (Err e, c)
  | None => let '(r, c') := reserve_admit scope bytes c in (Ok r, c')
  end.

(** [Reservation::commit] and the drop of an uncommitted reservation. *)
Definition commit (r : Reservation) (c : DiskCustodian) : DiskCustodian :=
  c <| dc_pending := wrap_sub (dc_pending c) (rv_bytes r) |>
    <| dc_used_total := dc_used_total c +₆₄ rv_bytes r |>
    <| dc_scopes := <[rv_scope r := default 0 (dc_scopes c !! rv_scope r) +₆₄ rv_bytes r]> (dc_scopes c) |>.

Definition drop_reservation (r : Reservation) (c : DiskCustodian) : DiskCustodian :=
  c <| dc_pending := wrap_sub (dc_pending c) (rv_bytes r) |>.

Definition discharge (scope : string) (bytes : N) (c : DiskCustodian) : DiskCustodian :=
  let scopes := match dc_scopes c !! scope with
                | Some v => <[scope := sat_sub v bytes]> (dc_scopes c)
                | None => dc_scopes c
                end in
  c <| dc_scopes := scopes |> <| dc_used_total := sat_sub (dc_used_total c) bytes |>.

Definition forget_scope (scope : string) (c : DiskCustodian) : DiskCustodian :=
  match dc_scopes c !! scope with
  | Some bytes => c <| dc_scopes := delete scope (dc_scopes c) |>
                    <| dc_used_total := sat_sub (dc_used_total c) bytes |>
  | None => c
  end.

Definition quota_exhausted (c : DiskCustodian) : bool :=
  match cc_quota_bytes (dc_cfg c) with
  | Some q => q <=? sat_add (dc_used_total c) (dc_pending c)
  | None => false
  end.

(** At seven eighths of the quota. *)
Definition quota_warns (c : DiskCustodian) : bool :=
  match cc_quota_bytes (dc_cfg c) with
  | Some q => sat_sub q (q / 8) <=? sat_add (dc_used_total c) (dc_pending c)
  | None => false
  end.

Definition pressure (free : N) (c : DiskCustodian) : Pressure :=
  let free := sat_sub free (dc_pending c) in
  let refuse_floor := floor_of (dc_cfg c) WNormal in
  if (free <=? refuse_floor) || quota_exhausted c then RefuseNew
  else if (free <? sat_mul refuse_floor 2) || quota_warns c then Warn
  else Nominal.

(** A dry run: the reservation is dropped at once. *)
Definition can_admit (free : N) (scope : string) (bytes : N) (c : DiskCustodian) : bool * DiskCustodian :=
  match reserve free scope bytes WNormal c with
  | (Ok r, c') => (true, drop_reservation r c')
  | (Err _, c') => (false, c')
  end.

(** ** Executions

    The reservations not yet committed or dropped are kept beside the
    custodian; [CCommit] and [CDrop] name one by its position. *)

Inductive CustodyOp :=
| CReserve (free : N) (scope : string) (bytes : N) (class : WriteClass)
| CCommit (i : nat)
| CDrop (i : nat)
| CDischarge (scope : string) (bytes : N)
| CForget (scope : string).

Abbreviation Custody := (DiskCustodian * list Reservation)%type.

Definition settle (f : Reservation → DiskCustodian → DiskCustodian) (i : nat) (st : Custody) : Custody :=
  match st.2 !! i with
  | Some r => (f r st.1, delete i st.2)
  | None => st
  end.

Definition custody_op (st : Custody) (op : CustodyOp) : Custody :=
  match op with
  | CReserve free scope bytes class =>
      match reserve free scope bytes class st.1 with
      | (Ok r, c) => (c, st.2 ++ [r])
      | (Err _, c) => (c, st.2)
      end
  | CCommit i => settle commit i st
  | CDrop i => settle drop_reservation i st
  | CDischarge scope bytes => (discharge scope bytes st.1, st.2)
  | CForget scope => (forget_scope scope st.1, st.2)
  end.

Definition custody_run (c : DiskCustodian) (ops : list CustodyOp) : Custody := foldl custody_op (c, []) ops.

(** Bytes outstanding, bytes asked for, and bytes asked for by critical writes. *)
Definition outstanding (rs : list Reservation) : N := foldr (λ r n, rv_bytes r + n) 0 rs.

Definition requested (op : CustodyOp) : N :=
  match op with CReserve _ _ bytes _ => bytes | _ => 0 end.

Definition requested_critical (op : CustodyOp) : N :=
  match op with CReserve _ _ bytes WCritical => bytes | _ => 0 end.

Definition total (f : CustodyOp → N) (ops : list CustodyOp) : N := foldr (λ op n, f op + n) 0 ops.

Lemma outstanding_app rs rs' : outstanding (rs ++ rs') = outstanding rs + outstanding rs'.
Proof. induction rs as [|r rs IH]; simpl; lia. Qed.

Lemma outstanding_delete i rs r :
  rs !! i = Some r → outstanding rs = rv_bytes r + outstanding (delete i rs).
Proof.
  revert i. induction rs as [|r' rs IH]; intros [|i] Hi; simplify_eq/=; [done|].
  rewrite (IH i Hi). lia.
Qed.

Lemma total_app f ops ops' : total f (ops ++ ops') = total f ops + total f ops'.
Proof. induction ops as [|op ops IH]; simpl; lia. Qed.

(** The ledger after the operations [ops] from a custodian whose root held
    [seed] bytes. *)
Record ledger_ok (cfg : CustodyConfig) (seed : N) (ops : list CustodyOp) (st : Custody) : Prop := {
  lk_cfg : dc_cfg st.1 = cfg;
  lk_pending : dc_pending st.1 = outstanding st.2;
  lk_total : dc_used_total st.1 + outstanding st.2 ≤ seed + total requested ops;
  lk_quota : ∀ q, cc_quota_bytes cfg = Some q →
    dc_used_total st.1 + outstanding st.2 ≤ N.max q seed + total requested_critical ops
}.

Lemma reserve_ok free scope bytes class c r c' :
  reserve free scope bytes class c = (Ok r, c') →
  reserve_check free scope bytes class c = None ∧ r = mkReservation scope bytes ∧
  c' = c <| dc_pending := dc_pending c +₆₄ bytes |>.
Proof. unfold reserve. destruct (reserve_check _ _ _ _ _); by intros [= <- <-]. Qed.

Lemma check_quota free scope bytes c q :
  reserve_check free scope bytes WNormal c = None → cc_quota_bytes (dc_cfg c) = Some q →
  dc_used_total c + dc_pending c + bytes < u64_bound →
  dc_used_total c + dc_pending c + bytes ≤ q.
Proof.
  unfold reserve_check, over_quota. intros Hc Hq Hb. rewrite Hq in Hc.
  destruct (q <? _) eqn:E; [done|]. apply N.ltb_ge in E. unfold sat_add in E. lia.
Qed.

Lemma check_floor free scope bytes class c :
  reserve_check free scope bytes class c = None → floor_of (dc_cfg c) class ≠ 0 →
  dc_pending c + bytes + floor_of (dc_cfg c) class ≤ free.
Proof.
  unfold reserve_check. intros Hc Hf. destruct (match class with WNormal => _ | _ => _ end); [done|].
  destruct (_ <? _) eqn:E; [done|]. apply N.ltb_ge in E. lia.
Qed.

Lemma used_discharge scope bytes c : dc_used_total (discharge scope bytes c) ≤ dc_used_total c.
Proof. simpl. lia. Qed.

Lemma used_forget scope c : dc_used_total (forget_scope scope c) ≤ dc_used_total c.
Proof. unfold forget_scope. destruct (dc_scopes c !! scope); simpl; lia. Qed.

(** An operation that admits nothing keeps the ledger, if it does not raise the
    sum of used and outstanding bytes. *)
Lemma ledger_shrink cfg seed ops op st st' :
  ledger_ok cfg seed ops st → dc_cfg st'.1 = dc_cfg st.1 → dc_pending st'.1 = outstanding st'.2 →
  dc_used_total st'.1 + outstanding st'.2 ≤ dc_used_total st.1 + outstanding st.2 →
  ledger_ok cfg seed (ops ++ [op]) st'.
Proof.
  intros [Hc Hp Ht Hq] Hc' Hp' Hle. constructor; rewrite ?total_app; [congruence|done|lia|].
  intros q Hq'. specialize (Hq q Hq'). lia.
Qed.

Lemma ledger_reserve cfg seed ops free scope bytes class st :
  let op := CReserve free scope bytes class in
  ledger_ok cfg seed ops st → seed + total requested (ops ++ [op]) < u64_bound →
  ledger_ok cfg seed (ops ++ [op]) (custody_op st op).
Proof.
  intros op Hl. rewrite total_app. simpl. intros Hb.
  destruct (reserve _ _ _ _ st.1) as [[r|e] c'] eqn:E.
  2: { unfold reserve in E. destruct (reserve_check _ _ _ _ _); simplify_eq.
       eapply ledger_shrink; [exact Hl|done|apply Hl|done]. }
  apply reserve_ok in E as (Hchk & -> & ->). destruct Hl as [Hc Hp Ht Hq].
  constructor; simpl; rewrite ?total_app, ?outstanding_app; simpl; [done| |lia|].
  - rewrite wrap64_small by lia. lia.
  - intros q Hq'. specialize (Hq q Hq'). destruct class; [|lia].
    pose proof (check_quota _ _ _ st.1 q Hchk ltac:(congruence) ltac:(lia)). lia.
Qed.

Lemma ledger_step cfg seed ops op st :
  ledger_ok cfg seed ops st → seed + total requested (ops ++ [op]) < u64_bound →
  ledger_ok cfg seed (ops ++ [op]) (custody_op st op).
Proof.
  intros Hl Hb. destruct op as [free scope bytes class|i|i|scope bytes|scope]; [by apply ledger_reserve|..].
  all: pose proof Hl as [Hc Hp Ht Hq]; rewrite total_app in Hb; destruct st as [c rs]; simpl in *.
  1,2: unfold settle; simpl; destruct (rs !! i) as [r|] eqn:E;
    [pose proof (outstanding_delete i rs r E)|by eapply ledger_shrink].
  all: (eapply ledger_shrink; [exact Hl|..]); simpl.
  all: rewrite ?wrap_sub_small, ?wrap64_small by lia; try done; try lia.
  all: pose proof (used_forget scope c); unfold forget_scope in *; destruct (dc_scopes c !! scope); done || lia.
Qed.

Lemma ledger_run cfg c ops :
  dc_cfg c = cfg → dc_pending c = 0 → dc_used_total c + total requested ops < u64_bound →
  ledger_ok cfg (dc_used_total c) ops (custody_run c ops).
Proof.
  intros Hc Hp. unfold custody_run. induction ops as [|op ops IH] using rev_ind.
  - intros _. constructor; simpl; [done|done|lia|]. intros. lia.
  - intros Hb. rewrite foldl_app. apply ledger_step; [apply IH|done]. rewrite total_app in Hb. lia.
Qed.

(** Operations that run one at a time keep the custodian's promise: from a
    freshly opened custodian, whatever is reserved, committed, dropped,
    discharged or forgotten, the pending counter is exactly the bytes of the
    reservations still open; what is used and open together exceeds neither the
    quota nor the bytes found at opening by more than critical writes asked for;
    and a reservation that is granted, of either class, fits above the floor of
    its class together with everything open (when that floor is not zero). *)
Theorem custody_sound entries cfg ops free scope bytes class r c' :
  let c0 := custodian_open entries cfg in
  let c := (custody_run c0 ops).1 in
  let open := outstanding (custody_run c0 ops).2 in
  dc_used_total c0 + total requested ops < u64_bound →
  dc_pending c = open ∧
  (∀ q, cc_quota_bytes cfg = Some q →
    dc_used_total c + open ≤ N.max q (dc_used_total c0) + total requested_critical ops) ∧
  (reserve free scope bytes class c = (Ok r, c') → floor_of cfg class ≠ 0 →
   open + bytes + floor_of cfg class ≤ free).
Proof.
  intros c0 c open Hb.
  assert (dc_cfg c0 = cfg ∧ dc_pending c0 = 0) as [Hc Hp].
  { unfold c0, custodian_open. by destruct (foldl _ _ _). }
  pose proof (ledger_run cfg c0 ops Hc Hp Hb) as [Hc' Hpend _ Hq].
  split_and!; [done|done|]. intros (Hchk & _)%reserve_ok Hf.
  unfold c, open in *. rewrite <- Hc', <- Hpend in *. by eapply check_floor.
Qed.

Definition demo_entries : list (string * Node) := [("run", NDir (Some [NFile 10; NOther; NError; NFile 20]))].
Definition demo_cfg : CustodyConfig := mkCustodyConfig (Some 100) None 5 5.

Lemma custody_sound_witness :
  let st := custody_run (custodian_open demo_entries demo_cfg)
    [CReserve 1000 "run" 60 WNormal; CReserve 1000 "run" 40 WNormal; CReserve 1000 "run" 25 WCritical; CCommit 1] in
  dc_used_total st.1 = 55 ∧ dc_pending st.1 = 60 ∧ dc_used_total st.1 + outstanding st.2 ≤ 125 ∧
  60 + 30 + 5 ≤ 95.
Proof.
  intros st. split; [vm_compute; reflexivity|].
  destruct (custody_sound demo_entries demo_cfg
    [CReserve 1000 "run" 60 WNormal; CReserve 1000 "run" 40 WNormal; CReserve 1000 "run" 25 WCritical; CCommit 1]
    95 "run" 30 WCritical (mkReservation "run" 30) (st.1 <| dc_pending := 90 |>)
    ltac:(vm_compute; reflexivity)) as (Hp & Hq & Hf).
  split; [exact Hp|]. split; [exact (Hq 100 eq_refl)|].
  apply Hf; vm_compute; [reflexivity|discriminate].
Defined.

(** ** Concurrent reservations

    The custodian, the reservations between their decision and their addition,
    and the open ones. *)

Abbreviation Racing := (DiskCustodian * list (string * N) * list Reservation)%type.

Inductive custody_step : Racing → Racing → Prop :=
| cstep_decide c fl rs free scope bytes class :
    reserve_check free scope bytes class c = None →
    custody_step (c, fl, rs) (c, fl ++ [(scope, bytes)], rs)
| cstep_admit c fl1 fl2 rs scope bytes :
    custody_step (c, fl1 ++ (scope, bytes) :: fl2, rs)
      ((reserve_admit scope bytes c).2, fl1 ++ fl2, rs ++ [(reserve_admit scope bytes c).1])
| cstep_commit c fl rs1 r rs2 : custody_step (c, fl, rs1 ++ r :: rs2) (commit r c, fl, rs1 ++ rs2)
| cstep_drop c fl rs1 r rs2 : custody_step (c, fl, rs1 ++ r :: rs2) (drop_reservation r c, fl, rs1 ++ rs2).

(** Reservation is not atomic: of two equal normal reservations of which
    only one fits in the quota, the second is refused when it runs after the
    first, but when both decide before either adds its bytes both are granted,
    and committing them leaves more bytes used than the quota allows. *)
Theorem custody_race free scope bytes c q :
  cc_quota_bytes (dc_cfg c) = Some q → reserve_check free scope bytes WNormal c = None →
  dc_used_total c + dc_pending c + 2 * bytes < u64_bound →
  q < dc_used_total c + dc_pending c + 2 * bytes →
  (reserve free scope bytes WNormal (reserve free scope bytes WNormal c).2).1 =
    Err (QuotaExceeded scope bytes q) ∧
  ∃ c', rtc custody_step (c, [], []) (c', [], []) ∧
    dc_pending c' = dc_pending c ∧ dc_used_total c' = dc_used_total c + 2 * bytes ∧
    q < dc_used_total c' + dc_pending c'.
Proof.
  intros Hq Hchk Hb Hover. split.
  { unfold reserve at 2. rewrite Hchk. unfold reserve, reserve_check, over_quota. simpl. rewrite Hq.
    rewrite (wrap64_small (dc_pending c + bytes)) by lia. unfold sat_add.
    rewrite (proj2 (N.ltb_lt q _)) by lia. done. }
  set (r := mkReservation scope bytes).
  exists (commit r (commit r (reserve_admit scope bytes (reserve_admit scope bytes c).2).2)).
  split.
  - eapply rtc_l; [by apply (cstep_decide c [] [] free scope bytes WNormal)|].
    eapply rtc_l; [by apply (cstep_decide c [(scope, bytes)] [] free scope bytes WNormal)|].
    eapply rtc_l; [apply (cstep_admit c [] [(scope, bytes)] [])|].
    eapply rtc_l; [apply (cstep_admit _ [] [] [r])|].
    eapply rtc_l; [apply (cstep_commit _ [] [] r [r])|].
    apply rtc_once. apply (cstep_commit _ [] [] r []).
  - assert (∀ x y, wrap64 (wrap64 (x + y) + y) = wrap64 (x + 2 * y)) as Hw.
    { intros x y. rewrite wrap64_add_l. f_equal. lia. }
    simpl. rewrite !Hw, !(wrap64_small (_ + 2 * _)) by lia.
    rewrite (wrap_sub_small (_ + 2 * _)), wrap_sub_small by lia. split_and!; lia.
Qed.

Lemma custody_race_witness :
  let c := custodian_open demo_entries demo_cfg in
  (reserve 1000 "run" 50 WNormal (reserve 1000 "run" 50 WNormal c).2).1 =
    Err (QuotaExceeded "run" 50 100) ∧
  ∃ c', rtc custody_step (c, [], []) (c', [], []) ∧
    dc_pending c' = 0 ∧ dc_used_total c' = 130 ∧ 100 < dc_used_total c' + dc_pending c'.
Proof.
  intros c. apply (custody_race 1000 "run" 50 c 100); vm_compute; reflexivity.
Defined.

(** The scope quota is checked against committed bytes only: open reservations
    of one scope can exceed it together, also when they run one at a time. *)
Lemma scope_quota_overrun free scope bytes c q :
  cc_quota_bytes (dc_cfg c) = None → cc_scope_quota_bytes (dc_cfg c) = Some q →
  let used := default 0 (dc_scopes c !! scope) in
  used + bytes ≤ q → q < used + 2 * bytes → used + 2 * bytes < u64_bound →
  dc_pending c + 2 * bytes < u64_bound →
  dc_pending c + 2 * bytes + floor_of (dc_cfg c) WNormal ≤ free →
  let c1 := (reserve free scope bytes WNormal c).2 in
  let c2 := (reserve free scope bytes WNormal c1).2 in
  let r := mkReservation scope bytes in
  (reserve free scope bytes WNormal c).1 = Ok r ∧ (reserve free scope bytes WNormal c1).1 = Ok r ∧
  q < default 0 (dc_scopes (commit r (commit r c2)) !! scope).
Proof.
  intros Hq Hsq used Hfit Hover Hb Hp Hfree c1 c2 r. simpl in Hfree.
  assert (∀ p, p + bytes ≤ dc_pending c + 2 * bytes →
    reserve free scope bytes WNormal (c <| dc_pending := p |>) =
      (Ok r, c <| dc_pending := p +₆₄ bytes |>)) as Hres.
  { intros p Hp'. unfold reserve, reserve_check, over_quota, over_scope_quota. simpl. rewrite Hq, Hsq.
    fold used. unfold sat_add at 1. rewrite (proj2 (N.ltb_ge q _)) by lia.
    rewrite (proj2 (N.ltb_ge _ _)) by lia. done. }
  assert (reserve free scope bytes WNormal c = (Ok r, c <| dc_pending := dc_pending c +₆₄ bytes |>)) as H1.
  { rewrite <- (Hres (dc_pending c)) by lia. by destruct c. }
  unfold c2, c1. rewrite H1. cbn [snd fst]. rewrite wrap64_small, Hres by lia. split_and!; [done..|].
  simpl. rewrite !lookup_insert_eq. simpl. fold used. rewrite wrap64_add_l, wrap64_small by lia. lia.
Qed.
