(* ===== verification/VhcProto.v ===== *)
(** * The wire mechanism of the training protocol ([crates/vhc/contracts/daemon-vhc-proto])

    Fixed-width byte newtypes, the cryptographic primitives the protocol calls,
    versions, capabilities, and the run-envelope values the coordinator reads.

    A fixed-width byte array ([PeerId], [Hash], [Root], [Seed], [Signature],
    [StateDigest]) is the number its bytes spell in big-endian order: arrays
    compare lexicographically, which for one width is the order of the numbers.
    blake3 and ed25519 are third-party code, the operations of the class
    [Crypto]. *)

From S2P Require Import Prelude Text.

#[local] Open Scope N_scope.
#[local] Open Scope daemon_scope.

Abbreviation PeerId := N.
Abbreviation Hash := N.
Abbreviation Root := N.
Abbreviation Seed := N.
Abbreviation Signature := N.
Abbreviation StateDigest := N.
Abbreviation IrohId := N.
Abbreviation SigningKey := N.

(** ** Bytes of numbers *)

(** [to_le_bytes] at [n] bytes, and the array a newtype wraps. *)
Fixpoint le_bytes (n : nat) (x : N) : bytes :=
  match n with
  | O => []
  | S n' => byte_of x :: le_bytes n' (x / 256)
  end.

Definition be_bytes (n : nat) (x : N) : bytes := rev (le_bytes n x).

(** [u64::from_le_bytes]. *)
Fixpoint le_value (b : bytes) : N :=
  match b with
  | [] => 0
  | d :: b' => Byte.to_N d + 256 * le_value b'
  end.

Lemma length_le_bytes n x : length (le_bytes n x) = n.
Proof. revert x. induction n as [|n IH]; intros x; simpl; [done|]. by rewrite IH. Qed.

Lemma length_be_bytes n x : length (be_bytes n x) = n.
Proof. unfold be_bytes. by rewrite length_rev, length_le_bytes. Qed.

Lemma le_value_le_bytes n x : le_value (le_bytes n x) = x mod 256 ^ N.of_nat n.
Proof.
  revert x. induction n as [|n IH]; intros x.
  { simpl. by rewrite N.mod_1_r. }
  cbn [le_bytes le_value]. rewrite byte_of_to_N, IH, Nat2N.inj_succ, N.pow_succ_r', N.Div0.mod_mul_r.
  done.
Qed.

Lemma be_bytes_inj n x y :
  x < 256 ^ N.of_nat n → y < 256 ^ N.of_nat n → be_bytes n x = be_bytes n y → x = y.
Proof.
  intros Hx Hy H. apply (f_equal (@rev _)) in H. unfold be_bytes in H. rewrite !rev_involutive in H.
  apply (f_equal le_value) in H. by rewrite !le_value_le_bytes, !N.mod_small in H.
Qed.

Lemma le8_inj x y : x < u64_bound → y < u64_bound → le_bytes 8 x = le_bytes 8 y → x = y.
Proof.
  intros Hx Hy Heq. apply (f_equal le_value) in Heq. rewrite !le_value_le_bytes in Heq.
  change (256 ^ N.of_nat 8) with u64_bound in Heq. by rewrite !N.mod_small in Heq.
Qed.

(** The arrays of a 32-byte newtype. *)
Definition bytes32 : N := 2 ^ 256.

Lemma bytes32_pow : bytes32 = 256 ^ N.of_nat 32.
Proof. by vm_compute. Qed.

(** ** Primitives *)

(** [VhcProtoError] without its diagnostic text. *)
Inductive VhcProtoError :=
| EValidation | ECodec | ESignature | EMerkle | ECapability | EVersion.

#[export] Instance VhcProtoError_eq_dec : EqDecision VhcProtoError.
Proof. solve_decision. Defined.

Inductive VerifyOutcome := VerifyValid | VerifyInvalid | VerifyMalformed.

#[export] Instance VerifyOutcome_eq_dec : EqDecision VerifyOutcome.
Proof. solve_decision. Defined.

(** blake3 with its 32-byte output; [VerifyingKey::from_bytes], [verify_strict]
    and signing of ed25519, where a signature of a key verifies under it. *)
Class Crypto := {
  blake3_hash : bytes → Hash;
  blake3_len : ∀ b, blake3_hash b < bytes32;
  verifying_key : PeerId → bool;
  verify_strict : PeerId → Signature → bytes → bool;
  peer_id : SigningKey → PeerId;
  ed25519_sign : SigningKey → bytes → Signature;
  ed25519_correct : ∀ k b,
    verifying_key (peer_id k) = true ∧ verify_strict (peer_id k) (ed25519_sign k b) b = true
}.

Section primitives.
Context `{Crypto}.

Definition verify_bytes (signer : PeerId) (sig : Signature) (b : bytes) : result VhcProtoError unit :=
  if negb (verifying_key signer) then Err ESignature
  else if verify_strict signer sig b then Ok tt else Err ESignature.

Lemma verify_bytes_sign k b : verify_bytes (peer_id k) (ed25519_sign k b) b = Ok tt.
Proof. unfold verify_bytes. by destruct (ed25519_correct k b) as [-> ->]. Qed.

Definition is_ok {E A} (r : result E A) : bool := match r with Ok _ => true | Err _ => false end.

(** The arrays have the right lengths by type. *)
Definition verify_sig (public_key : PeerId) (signature : Signature) (message : bytes) : VerifyOutcome :=
  if negb (verifying_key public_key) then VerifyMalformed
  else if is_ok (verify_bytes public_key signature message) then VerifyValid
  else VerifyInvalid.

(** Two different byte strings of [D] with one hash. Every hash with a bounded
    output has collisions somewhere, so statements name the finite list of byte
    strings that the computations at hand have hashed. *)
Definition collision_in (D : list bytes) : Prop :=
  Exists (λ x, Exists (λ y, x ≠ y ∧ blake3_hash x = blake3_hash y) D) D.

#[export] Instance collision_in_dec D : Decision (collision_in D).
Proof. unfold collision_in. apply _. Defined.

Section collisions.
Variable D : list bytes.

Lemma hash_inj x y : x ∈ D → y ∈ D → blake3_hash x = blake3_hash y → x = y ∨ collision_in D.
Proof.
  intros Hx Hy Hxy. destruct (decide (x = y)) as [->|Hne]; [by left|]. right.
  apply Exists_exists. exists x. split; [done|]. apply Exists_exists. by exists y.
Qed.

Lemma hashes_inj l k : l ⊆ D → k ⊆ D → blake3_hash <$> l = blake3_hash <$> k → l = k ∨ collision_in D.
Proof.
  revert k. induction l as [|x l IH]; intros [|y k] Hl Hk Heq; try done; [by left|].
  rewrite !fmap_cons in Heq. injection Heq as H1 H2.
  destruct (IH k) as [->|?]; [set_solver..|done| |by right].
  destruct (hash_inj x y) as [->|?]; [set_solver..|done|by left|by right].
Qed.

Lemma hashes_nodup l : l ⊆ D → NoDup l → NoDup (blake3_hash <$> l) ∨ collision_in D.
Proof.
  intros Hl Hn. induction Hn as [|x l Hx Hn IH]; [left; constructor|]. rewrite fmap_cons.
  destruct IH as [IH|?]; [set_solver| |by right].
  destruct (decide (blake3_hash x ∈ blake3_hash <$> l)) as [Hin|]; [|by left; constructor].
  apply list_elem_of_fmap in Hin as (y & Heq & Hy).
  destruct (hash_inj x y) as [->|?]; [set_solver..|done|done|by right].
Qed.

Lemma collision_mono D' : D ⊆ D' → collision_in D → collision_in D'.
Proof.
  unfold collision_in. setoid_rewrite Exists_exists. intros Hs (x & Hx & Hex). exists x. split; [by apply Hs|].
  apply Exists_exists in Hex as (y & Hy & Hxy). apply Exists_exists. exists y. split; [by apply Hs|done].
Qed.
End collisions.
End primitives.

(** ** Domains *)

Definition WITNESS_SALT : bytes := string_bytes "daemon-vhc/witness/1.0.0".
Definition ASSIGN_SALT : bytes := string_bytes "daemon-vhc/assign/1.0.0".
Definition VERIFIER_SALT : bytes := string_bytes "daemon-vhc/verifier/1.0.0".
Definition MERKLE_EMPTY_ROOT_LABEL : bytes := string_bytes "daemon-vhc/merkle-empty/1.0.0".
Definition CHECKPOINT_ATTESTATION_DOMAIN : string := "daemon-vhc/checkpoint-attestation/1.0.0".
Definition CHECKPOINTER_SALT : bytes := string_bytes "daemon-vhc/checkpointer/1.0.0".

(** ** Version *)

Record VhcProtoVersion := mkVhcProtoVersion { pv_version : N }.

#[export] Instance VhcProtoVersion_eq_dec : EqDecision VhcProtoVersion.
Proof. solve_decision. Defined.

Definition VHC_PROTO_VERSION : VhcProtoVersion := mkVhcProtoVersion 2.

Definition accepts (run peer : VhcProtoVersion) : bool := bool_decide (run = peer).

Definition check_join (run peer : VhcProtoVersion) : result VhcProtoError unit :=
  if accepts run peer then Ok tt else Err EVersion.

(** ** Capabilities *)

Record Capability := mkCapability {
  cap_name : string;
  cap_version : N
}.

#[export] Instance Capability_eq_dec : EqDecision Capability.
Proof. solve_decision. Defined.
#[export] Instance Capability_countable : Countable Capability.
Proof.
  refine (inj_countable' (λ c, (cap_name c, cap_version c)) (λ p, mkCapability p.1 p.2) _). by intros [].
Defined.

(** [str::rsplit_once]: split at the last occurrence of a byte. *)
Fixpoint split_at_byte (d : Byte.byte) (b : bytes) : option (bytes * bytes) :=
  match b with
  | [] => None
  | c :: b' =>
      match split_at_byte d b' with
      | Some (l, r) => Some (c :: l, r)
      | None => if decide (c = d) then Some ([], b') else None
      end
  end.

Definition Capability_parse (token : bytes) : result VhcProtoError Capability :=
  match split_at_byte Byte.x40 token with
  | None => Err ECapability
  | Some (name, version) =>
      if decide (name = []) then Err ECapability
      else match parse_u32 version with
           | Some v => Ok (mkCapability (String.string_of_list_byte name) v)
           | None => Err ECapability
           end
  end.

Definition Capability_token (c : Capability) : bytes :=
  string_bytes (cap_name c) ++ [Byte.x40] ++ decimal (cap_version c).

(** The [BTreeSet] of a [CapabilitySet], walked in order of name, then version. *)
Abbreviation CapabilitySet := (gset Capability).

Definition cap_leb (a b : Capability) : bool :=
  match String.compare (cap_name a) (cap_name b) with
  | Lt => true
  | Eq => cap_version a <=? cap_version b
  | Gt => false
  end.

Fixpoint from_tokens_go (tokens : list bytes) (set : CapabilitySet) : result VhcProtoError CapabilitySet :=
  match tokens with
  | [] => Ok set
  | t :: tokens' =>
      match Capability_parse t with
      | Ok c => from_tokens_go tokens' ({[c]} ∪ set)
      | Err e => Err e
      end
  end.

Definition from_tokens (tokens : list bytes) : result VhcProtoError CapabilitySet :=
  from_tokens_go tokens ∅.

Definition missing (advertised required : CapabilitySet) : list Capability :=
  sort_by cap_leb (elements (required ∖ advertised)).

Definition admits (advertised required : CapabilitySet) : result VhcProtoError unit :=
  match missing advertised required with
  | [] => Ok tt
  | _ :: _ => Err ECapability
  end.

Lemma elem_of_missing advertised required c :
  c ∈ missing advertised required ↔ c ∈ required ∧ c ∉ advertised.
Proof. unfold missing. rewrite sort_by_perm. set_solver. Qed.

(** Admission is subset inclusion. *)
Lemma admits_subset advertised required :
  admits advertised required = Ok tt ↔ required ⊆ advertised.
Proof.
  unfold admits. pose proof (elem_of_missing advertised required) as Hm.
  destruct (missing advertised required) as [|c l].
  - split; [|done]. intros _ c Hc. destruct (decide (c ∈ advertised)); [done|].
    destruct (not_elem_of_nil c). naive_solver.
  - split; [done|]. intros Hs. destruct (Hm c) as [Hc _]. destruct Hc; [by left|set_solver].
Qed.

Lemma split_at_byte_last d l r :
  d ∉ r → split_at_byte d (l ++ d :: r) = Some (l, r).
Proof.
  intros Hr. assert (split_at_byte d r = None) as Hn.
  { clear l. induction r as [|c r IH]; [done|]. simpl.
    apply not_elem_of_cons in Hr as [? ?]. rewrite IH by done. by rewrite decide_False. }
  induction l as [|c l IH]; simpl; [|by rewrite IH]. by rewrite Hn, decide_True.
Qed.

Lemma decimal_no_at x : Byte.x40 ∉ decimal x.
Proof.
  intros Hin. pose proof (decimal_digits x) as Hd. rewrite Forall_forall in Hd.
  apply Hd in Hin. unfold is_digit in Hin. simpl in Hin. lia.
Qed.

(** Every capability with a name and a [u32] version is read back from its
    token, also when the name itself contains an [@]. *)
Theorem capability_roundtrip c :
  cap_name c ≠ EmptyString → cap_version c < u32_bound →
  Capability_parse (Capability_token c) = Ok c.
Proof.
  intros Hn Hv. unfold Capability_parse, Capability_token. simpl app.
  rewrite split_at_byte_last by apply decimal_no_at. unfold string_bytes.
  rewrite decide_False, String.string_of_list_byte_of_string.
  - unfold parse_u32. rewrite parse_int_decimal by done. by destruct c.
  - intros H. apply Hn. rewrite <- (String.string_of_list_byte_of_string (cap_name c)).
    by rewrite H.
Qed.

Lemma capability_roundtrip_witness :
  Capability_parse (Capability_token (mkCapability "tensor@abi" 12)) = Ok (mkCapability "tensor@abi" 12).
Proof. apply (capability_roundtrip (mkCapability "tensor@abi" 12)); [done|by vm_compute]. Defined.

(** ** Run envelope *)

Record GlobalBatch := mkGlobalBatch {
  gb_start : N;
  gb_end : N;
  gb_ramp_rounds : N
}.

Inductive StopCondition :=
| StopTokens (tokens : N)
| StopRounds (rounds : N).

(** The rounds whose records stay replayable. *)
Definition RETAINED_RECORD_HORIZON_ROUNDS : N := 16.

(** ** A concrete instance, for evaluation *)

Definition toy_hash (b : bytes) : N := fold_left (λ acc d, acc * 257 + Byte.to_N d + 1) b 0 mod bytes32.

Lemma toy_hash_len b : toy_hash b < bytes32.
Proof. apply N.mod_lt. by vm_compute. Qed.

(** A signature is accepted when it is the hash of the message plus the key. *)
Lemma toy_correct (k : SigningKey) (b : bytes) :
  negb (N.succ k =? 0) = true ∧ (toy_hash b + N.succ k =? toy_hash b + N.succ k) = true.
Proof. split; [by destruct k|apply N.eqb_refl]. Qed.

Definition toy_crypto : Crypto := {|
  blake3_hash := toy_hash;
  blake3_len := toy_hash_len;
  verifying_key := λ k, negb (k =? 0);
  verify_strict := λ k s b, s =? toy_hash b + k;
  peer_id := N.succ;
  ed25519_sign := λ k b, toy_hash b + N.succ k;
  ed25519_correct := toy_correct
|}.
