(* ===== verification/VhcMerkle.v ===== *)
(** * Set commitments ([daemon-vhc-proto/src/merkle.rs])

    The merkle tree over a sorted set of (peer, payload hash) pairs, its
    membership proofs, and what a root pins.  A statement about what an
    adversary cannot do holds unless two of the byte strings that
    were actually hashed collide ([collision_in], a decidable property of a finite
    list, refuted by evaluation in the witnesses). *)

From S2P Require Import Prelude Text VhcProto.

#[local] Open Scope N_scope.
#[local] Open Scope daemon_scope.

(** The signed commitment to a set: its root and the number of its elements. *)
Record SetCommitment := mkSetCommitment {
  sc_root : Root;
  sc_count : N
}.

#[export] Instance SetCommitment_eq_dec : EqDecision SetCommitment.
Proof. solve_decision. Defined.

Record MembershipProof := mkMembershipProof {
  mp_leaf_index : N;
  mp_siblings : list Hash
}.

(** [levels] from the leaves to the root. *)
Record SetCommitmentTree := mkSetCommitmentTree {
  sct_entries : list (PeerId * Hash);
  sct_levels : list (list Hash)
}.

Definition LEAF_DOMAIN : Byte.byte := Byte.x00.
Definition NODE_DOMAIN : Byte.byte := Byte.x01.

(** [a.0.cmp(&b.0).then_with(|| a.1.cmp(&b.1))]: [a] sorts no later than [b]. *)
Definition entry_leb (a b : PeerId * Hash) : bool :=
  match a.1 ?= b.1 with
  | Lt => true
  | Eq => a.2 <=? b.2
  | Gt => false
  end.

(** [Vec::dedup]: drop an element equal to the one before it. *)
Fixpoint dedup {A} `{EqDecision A} (l : list A) : list A :=
  match l with
  | [] => []
  | x :: l' =>
      match dedup l' with
      | y :: k => if decide (x = y) then y :: k else x :: y :: k
      | [] => [x]
      end
  end.

(** The hashed byte strings. *)
Definition leaf_bytes (e : PeerId * Hash) : bytes := LEAF_DOMAIN :: be_bytes 32 e.1 ++ be_bytes 32 e.2.

Definition node_bytes (left right : Hash) : bytes := NODE_DOMAIN :: be_bytes 32 left ++ be_bytes 32 right.

Section merkle.
Context `{Crypto}.

Definition leaf_hash (e : PeerId * Hash) : Hash := blake3_hash (leaf_bytes e).

Definition node_hash (left right : Hash) : Hash := blake3_hash (node_bytes left right).

Definition empty_root : Hash := blake3_hash MERKLE_EMPTY_ROOT_LABEL.

(** One round of the [while] loop: the next level; the last node of an odd level
    is paired with itself. *)
Fixpoint next_level (cur : list Hash) : list Hash :=
  match cur with
  | [] => []
  | [x] => [node_hash x x]
  | x :: y :: cur' => node_hash x y :: next_level cur'
  end.

Fixpoint build_levels (fuel : nat) (cur : list Hash) : list (list Hash) :=
  match fuel, cur with
  | S fuel', _ :: _ :: _ => cur :: build_levels fuel' (next_level cur)
  | _, _ => [cur]
  end.

Definition commit_set (entries : list (PeerId * Hash)) : SetCommitmentTree :=
  let sorted := dedup (sort_by entry_leb entries) in
  let leaves := leaf_hash <$> sorted in
  mkSetCommitmentTree sorted
    (match leaves with
     | [] => [[]; [empty_root]]
     | _ :: _ => build_levels (length leaves) leaves
     end).

Definition levels_root (levels : list (list Hash)) : Root :=
  default 0 (last levels ≫= head).

Definition root (t : SetCommitmentTree) : Root := levels_root (sct_levels t).

Definition commitment (t : SetCommitmentTree) : SetCommitment :=
  mkSetCommitment (root t) (wrap32 (N.of_nat (length (sct_entries t)))).

(** Every level except the last contributes a sibling. *)
Fixpoint siblings_from (levels : list (list Hash)) (idx : nat) : list Hash :=
  match levels with
  | level :: ((_ :: _) as levels') =>
      let sibling_idx := Nat.lxor idx 1 in
      let sibling := match level !! sibling_idx with
                     | Some s => s
                     | None => default 0 (level !! idx)
                     end in
      sibling :: siblings_from levels' (Nat.div2 idx)
  | _ => []
  end.

Definition prove (t : SetCommitmentTree) (index : nat) : option MembershipProof :=
  if (length (sct_entries t) <=? index)%nat then None
  else Some (mkMembershipProof (wrap32 (N.of_nat index)) (siblings_from (sct_levels t) index)).

(** The fold of [verify_membership] over the siblings. *)
Fixpoint climb (cur : Hash) (idx : nat) (siblings : list Hash) : Hash :=
  match siblings with
  | [] => cur
  | s :: siblings' =>
      climb (if Nat.land idx 1 =? 0 then node_hash cur s else node_hash s cur)%nat
        (Nat.div2 idx) siblings'
  end.

Definition verify_membership (c : SetCommitment) (peer : PeerId) (hash : Hash) (proof : MembershipProof)
    : result VhcProtoError unit :=
  if sc_count c =? 0 then Err EMerkle
  else if sc_count c <=? mp_leaf_index proof then Err EMerkle
  else if climb (leaf_hash (peer, hash)) (N.to_nat (mp_leaf_index proof)) (mp_siblings proof) =? sc_root c
       then Ok tt else Err EMerkle.
End merkle.

(** ** The canonical order of the entries *)

Definition entry_le (a b : PeerId * Hash) : Prop := a.1 < b.1 ∨ (a.1 = b.1 ∧ a.2 ≤ b.2).

Lemma entry_leb_le a b : entry_leb a b = true ↔ entry_le a b.
Proof.
  unfold entry_leb, entry_le. destruct (N.compare_spec a.1 b.1) as [?|?|?]; rewrite ?N.leb_le;
    split; intros; try lia; done.
Qed.

#[export] Instance entry_le_trans : Transitive entry_le.
Proof. intros a b c. unfold entry_le. lia. Qed.

#[export] Instance entry_le_antisym : AntiSymm (=) entry_le.
Proof. intros [a a'] [b b']. unfold entry_le. simpl. intros. f_equal; lia. Qed.

Lemma sort_entries_sorted l : StronglySorted entry_le (sort_by entry_leb l).
Proof.
  apply sort_by_sorted; [apply _|by intros ?? ?%entry_leb_le|].
  intros x y Hxy. assert (¬ entry_le x y) as Hn by (rewrite <- entry_leb_le; congruence).
  unfold entry_le in *. lia.
Qed.

Lemma elem_of_dedup {A} `{EqDecision A} (x : A) l : x ∈ dedup l ↔ x ∈ l.
Proof.
  induction l as [|y l IH]; simpl; [done|]. rewrite (elem_of_cons l). rewrite <- IH.
  destruct (dedup l) as [|z k]; [by rewrite list_elem_of_singleton; set_solver|].
  case_decide; subst; set_solver.
Qed.

Section dedup.
Context {A : Type} `{EqDecision A} (R : relation A) `{!Transitive R} `{!AntiSymm (=) R}.

Lemma dedup_sorted l : StronglySorted R l → StronglySorted R (dedup l) ∧ NoDup (dedup l).
Proof using All.
  induction 1 as [|x l Hl IH Hx]; simpl; [by repeat constructor|]. destruct IH as [IH1 IH2].
  assert (Forall (R x) (dedup l)) as Hd.
  { rewrite Forall_forall in *. intros y Hy. apply Hx. by apply elem_of_dedup. }
  destruct (dedup l) as [|y k] eqn:E; [split; [by repeat constructor|apply NoDup_singleton]|].
  case_decide as Hxy; [done|]. split; [by constructor|]. constructor; [|done].
  intros [?|Hin]%elem_of_cons; [done|]. apply Forall_cons in Hd as [Hd _].
  inversion IH1 as [|? ? _ Hy]; subst. rewrite Forall_forall in Hy.
  apply Hxy. apply (anti_symm R); [done|by apply Hy].
Qed.

(** A sorted list without duplicates is determined by its elements. *)
Lemma sorted_nodup_ext l k :
  StronglySorted R l → StronglySorted R k → NoDup l → NoDup k → (∀ x, x ∈ l ↔ x ∈ k) → l = k.
Proof using All.
  intros Hl Hk Hnl Hnk Hext. apply (StronglySorted_unique R); try done. by apply NoDup_Permutation.
Qed.
End dedup.

Lemma dedup_sort_N (l : list N) :
  StronglySorted N.le (dedup (sort_by N.leb l)) ∧ NoDup (dedup (sort_by N.leb l)).
Proof.
  apply (dedup_sorted N.le). apply sort_by_sorted; [apply _|..]; intros x y; rewrite ?N.leb_le, ?N.leb_gt; lia.
Qed.

Section merkle_facts.
Context `{Crypto}.

Lemma entries_sorted l :
  StronglySorted entry_le (sct_entries (commit_set l)) ∧ NoDup (sct_entries (commit_set l)).
Proof. apply (dedup_sorted entry_le). apply sort_entries_sorted. Qed.

Lemma elem_of_entries e l : e ∈ sct_entries (commit_set l) ↔ e ∈ l.
Proof. simpl. rewrite elem_of_dedup. by rewrite sort_by_perm. Qed.

(** The tree depends on the set of entries only. *)
Lemma commit_set_ext l k : (∀ e, e ∈ l ↔ e ∈ k) → commit_set l = commit_set k.
Proof.
  intros Hext. unfold commit_set.
  assert (dedup (sort_by entry_leb l) = dedup (sort_by entry_leb k)) as ->; [|done].
  destruct (entries_sorted l) as [H1 H2], (entries_sorted k) as [H3 H4].
  apply (sorted_nodup_ext entry_le); try done. intros e.
  by rewrite !elem_of_dedup, !sort_by_perm.
Qed.
End merkle_facts.

(** ** Levels *)

Section levels.
Context `{Crypto}.

Lemma pair_ind {A} (P : list A → Prop) :
  P [] → (∀ x, P [x]) → (∀ x y l, P l → P (x :: y :: l)) → ∀ l, P l.
Proof.
  intros H0 H1 H2 l. enough (P l ∧ ∀ x, P (x :: l)) by naive_solver.
  induction l as [|x l [IH1 IH2]]; naive_solver.
Qed.

(** The byte strings hashed to make the next level. *)
Fixpoint level_inputs (cur : list Hash) : list bytes :=
  match cur with
  | [] => []
  | [x] => [node_bytes x x]
  | x :: y :: cur' => node_bytes x y :: level_inputs cur'
  end.

Lemma next_level_inputs l : next_level l = blake3_hash <$> level_inputs l.
Proof. induction l as [|x|x y l IH] using pair_ind; simpl; [done..|]. by rewrite IH. Qed.

Lemma next_level_length l : length (next_level l) = Nat.div2 (S (length l)).
Proof. induction l as [| |x y l IH] using pair_ind; simpl in *; congruence. Qed.

Lemma level_inputs_lookup l i a :
  l !! (2 * i)%nat = Some a →
  level_inputs l !! i = Some (node_bytes a (default a (l !! S (2 * i)%nat))).
Proof.
  revert i. induction l as [| |x y l IH] using pair_ind; intros i Ha.
  - done.
  - destruct i as [|i]; simpl in *; [by simplify_eq|]. by destruct (i + S (i + 0))%nat.
  - destruct i as [|i]; [simpl in *; by simplify_eq|].
    replace (2 * S i)%nat with (S (S (2 * i))) in * by lia. simpl in Ha. simpl lookup at 2.
    by apply IH.
Qed.

(** Induction over the levels of a tree with enough fuel. *)
Lemma levels_ind (P : list Hash → list (list Hash) → Prop) :
  (∀ x, P [x] [[x]]) →
  (∀ l levels, (2 ≤ length l)%nat → levels ≠ [] → P (next_level l) levels → P l (l :: levels)) →
  ∀ fuel l, (1 ≤ length l)%nat → (length l ≤ fuel)%nat → P l (build_levels fuel l).
Proof.
  intros H1 H2 fuel. induction fuel as [|fuel IH]; intros l Hl Hf; [lia|].
  destruct l as [|x [|y l]]; [simpl in Hl; lia|apply H1|]. simpl build_levels. apply H2.
  - simpl. lia.
  - by destruct fuel, (next_level l).
  - change (node_hash x y :: next_level l) with (next_level (x :: y :: l)). simpl in Hf.
    assert (length (next_level (x :: y :: l)) ≤ S (length l))%nat as Hlen.
    { rewrite next_level_length, Nat.div2_div. cbn [length]. apply Nat.lt_succ_r, Nat.Div0.div_lt_upper_bound. lia. }
    apply IH; [simpl; lia|lia].
Qed.

(** The node above position [idx], from the node and its sibling. *)
(** The node above [cur], and the byte string it hashes. *)
Definition parent_bytes (cur : Hash) (idx : nat) (s : Hash) : bytes :=
  if (Nat.land idx 1 =? 0)%nat then node_bytes cur s else node_bytes s cur.

Definition parent (cur : Hash) (idx : nat) (s : Hash) : Hash := blake3_hash (parent_bytes cur idx s).

Lemma land_1_even n : (Nat.land n 1 =? 0)%nat = Nat.even n.
Proof.
  pose proof (Nat.land_ones n 1) as Hl. change (Nat.ones 1) with 1%nat in Hl. rewrite Hl.
  change (2 ^ 1)%nat with 2%nat. rewrite <- Nat.bit0_mod, Nat.bit0_odd, <- Nat.negb_even.
  by destruct (Nat.even n).
Qed.

Lemma index_cases n :
  (n = 2 * Nat.div2 n ∧ Nat.even n = true ∧ Nat.lxor n 1 = S (2 * Nat.div2 n))%nat ∨
  (n = S (2 * Nat.div2 n) ∧ Nat.even n = false ∧ Nat.lxor n 1 = 2 * Nat.div2 n)%nat.
Proof.
  assert (∀ k, Nat.lxor (2 * k) 1 = S (2 * k) ∧ Nat.lxor (S (2 * k)) 1 = (2 * k))%nat as Hx.
  { intros k. replace (S (2 * k)) with (2 * k + 1)%nat by lia.
    rewrite <- (Nat.lxor_comm 1), <- (Nat.lxor_comm 1). split; apply Nat.bits_inj; intros [|i].
    all: rewrite Nat.lxor_spec.
    all: rewrite ?Nat.testbit_odd_0, ?Nat.testbit_even_0, ?Nat.testbit_odd_succ, ?Nat.testbit_even_succ by lia.
    all: simpl; by rewrite ?Nat.bits_0, ?xorb_false_l. }
  pose proof (Nat.div2_odd n) as Hn. rewrite <- Nat.negb_even in Hn.
  destruct (Hx (Nat.div2 n)) as [Hx1 Hx2].
  destruct (Nat.even n) eqn:He; simpl in Hn; [left|right]; (split; [lia|]); (split; [done|]).
  - rewrite <- Hx1. f_equal. lia.
  - rewrite <- Hx2. f_equal. lia.
Qed.

Lemma parent_input l idx h :
  l !! idx = Some h →
  level_inputs l !! Nat.div2 idx = Some (parent_bytes h idx (default h (l !! Nat.lxor idx 1))).
Proof.
  intros Hh. unfold parent_bytes. rewrite land_1_even.
  destruct (index_cases idx) as [(He & -> & ->)|(Ho & -> & ->)].
  - rewrite He in Hh. by apply level_inputs_lookup.
  - assert (∃ a, l !! (2 * Nat.div2 idx)%nat = Some a) as [a Ha].
    { apply lookup_lt_is_Some. apply lookup_lt_Some in Hh. lia. }
    rewrite (level_inputs_lookup _ _ _ Ha), Ha, <- Ho, Hh. done.
Qed.

Lemma parent_lookup l idx h :
  l !! idx = Some h →
  next_level l !! Nat.div2 idx = Some (parent h idx (default h (l !! Nat.lxor idx 1))).
Proof. intros Hh. by rewrite next_level_inputs, list_lookup_fmap, (parent_input l idx h Hh). Qed.

Lemma climb_cons cur idx s sibs :
  climb cur idx (s :: sibs) = climb (parent cur idx s) (Nat.div2 idx) sibs.
Proof. simpl climb. unfold parent, parent_bytes. by case_match. Qed.

Lemma siblings_from_cons l levels idx h :
  levels ≠ [] → l !! idx = Some h →
  siblings_from (l :: levels) idx =
    default h (l !! Nat.lxor idx 1) :: siblings_from levels (Nat.div2 idx).
Proof. intros Hl Hh. destruct levels; [done|]. simpl. rewrite Hh. by destruct (l !! _). Qed.

Lemma levels_root_cons l levels : levels ≠ [] → levels_root (l :: levels) = levels_root levels.
Proof. by destruct levels. Qed.

(** The proof built from the levels climbs to the root. *)
Lemma climb_complete fuel l idx h :
  (length l ≤ fuel)%nat → l !! idx = Some h →
  climb h idx (siblings_from (build_levels fuel l) idx) = levels_root (build_levels fuel l).
Proof.
  intros Hf Hh. assert (1 ≤ length l)%nat as Hl by (apply lookup_lt_Some in Hh; lia).
  revert idx h Hh. pattern l, (build_levels fuel l). apply levels_ind; [|clear..|done|done].
  - intros x [|idx] h Hh; [|done]. by simplify_eq/=.
  - intros l levels _ Hne IH idx h Hh. rewrite (siblings_from_cons _ _ _ h) by done.
    rewrite climb_cons, levels_root_cons by done. apply IH. by apply parent_lookup.
Qed.

(** ** What the hashes pin *)

Lemma be_app_inj a b c d :
  a < bytes32 → b < bytes32 → c < bytes32 → d < bytes32 →
  be_bytes 32 a ++ be_bytes 32 b = be_bytes 32 c ++ be_bytes 32 d → a = c ∧ b = d.
Proof.
  rewrite bytes32_pow. intros Ha Hb Hc Hd Heq. apply app_inj_1 in Heq as [H1 H2].
  - split; by eapply be_bytes_inj.
  - by rewrite !length_be_bytes.
Qed.

Lemma cons_inj {A} (x y : A) l k : x :: l = y :: k → x = y ∧ l = k.
Proof. intros [= -> ->]. done. Qed.

Definition entry_ok (e : PeerId * Hash) : Prop := e.1 < bytes32 ∧ e.2 < bytes32.

Lemma leaf_bytes_inj e e' : entry_ok e → entry_ok e' → leaf_bytes e = leaf_bytes e' → e = e'.
Proof.
  intros [H1 H2] [H3 H4] Heq. apply cons_inj in Heq as [_ [? ?]%be_app_inj]; [|done..].
  destruct e, e'. by simplify_eq/=.
Qed.

Lemma node_bytes_inj a b c d :
  a < bytes32 → b < bytes32 → c < bytes32 → d < bytes32 →
  node_bytes a b = node_bytes c d → a = c ∧ b = d.
Proof. intros Ha Hb Hc Hd Heq. by apply cons_inj in Heq as [_ ?%be_app_inj]. Qed.

(** The byte strings hashed to build a tree and to follow the path of a proof. *)
Fixpoint levels_inputs (levels : list (list Hash)) : list bytes :=
  match levels with
  | level :: ((_ :: _) as levels') => level_inputs level ++ levels_inputs levels'
  | _ => []
  end.

Definition tree_inputs (t : SetCommitmentTree) : list bytes :=
  match sct_entries t with
  | [] => [MERKLE_EMPTY_ROOT_LABEL]
  | es => (leaf_bytes <$> es) ++ levels_inputs (sct_levels t)
  end.

Fixpoint climb_inputs (cur : Hash) (idx : nat) (siblings : list Hash) : list bytes :=
  match siblings with
  | [] => []
  | s :: siblings' => parent_bytes cur idx s :: climb_inputs (parent cur idx s) (Nat.div2 idx) siblings'
  end.

Definition proof_inputs (peer : PeerId) (hash : Hash) (proof : MembershipProof) : list bytes :=
  leaf_bytes (peer, hash) ::
    climb_inputs (leaf_hash (peer, hash)) (N.to_nat (mp_leaf_index proof)) (mp_siblings proof).

Lemma levels_inputs_cons l levels : levels ≠ [] → levels_inputs (l :: levels) = level_inputs l ++ levels_inputs levels.
Proof. by destruct levels. Qed.

Section pinned.
Variable D : list bytes.

Lemma node_hash_inj a b c d :
  node_bytes a b ∈ D → node_bytes c d ∈ D →
  a < bytes32 → b < bytes32 → c < bytes32 → d < bytes32 →
  node_hash a b = node_hash c d → (a = c ∧ b = d) ∨ collision_in D.
Proof. intros HD HD' Ha Hb Hc Hd [Heq|?]%(hash_inj D); [|by right|done..]. left. by apply node_bytes_inj. Qed.

Lemma leaf_node_disjoint e a b :
  leaf_bytes e ∈ D → node_bytes a b ∈ D → leaf_hash e = node_hash a b → collision_in D.
Proof. by intros HD HD' [?|?]%(hash_inj D). Qed.

(** [h] is the root of a full tree of height [n] whose leaves hash entries. *)
Fixpoint built (n : nat) (h : Hash) : Prop :=
  match n with
  | O => ∃ e, h = leaf_hash e ∧ leaf_bytes e ∈ D
  | S n' => ∃ a b, h = node_hash a b ∧ node_bytes a b ∈ D ∧ a < bytes32 ∧ b < bytes32 ∧ built n' a ∧ built n' b
  end.

(** [h] lies [n] nodes above a leaf. *)
Fixpoint spine (n : nat) (h : Hash) : Prop :=
  match n with
  | O => ∃ e, h = leaf_hash e ∧ leaf_bytes e ∈ D
  | S n' => ∃ a b, h = node_hash a b ∧ node_bytes a b ∈ D ∧ a < bytes32 ∧ b < bytes32 ∧ (spine n' a ∨ spine n' b)
  end.

Lemma built_spine n h : built n h → spine n h.
Proof. revert h. induction n as [|n IH]; intros h; [done|]. simpl. naive_solver. Qed.

(** Leaves and interior nodes are separated, so a root has one height. *)
Lemma spine_built_height n k h : spine n h → built k h → n = k ∨ collision_in D.
Proof.
  revert k h. induction n as [|n IH]; intros [|k] h; simpl; [by left|..].
  - intros (e & -> & HD) (a & b & Heq & HD' & _). right. by eapply leaf_node_disjoint.
  - intros (a & b & -> & HD & _) (e & Heq & HD'). right. by eapply leaf_node_disjoint.
  - intros (a & b & -> & HD & Ha & Hb & Hs) (c & d & Heq & HD' & Hc & Hd & H1 & H2).
    apply node_hash_inj in Heq as [[-> ->]|?]; [|by right|done..].
    destruct Hs as [Hs|Hs]; (eapply IH in Hs as [->|?]; [by left|by right|done]).
Qed.

Abbreviation hashes := (Forall (λ h, h < bytes32)).

Lemma parent_lt cur idx s : parent cur idx s < bytes32.
Proof. apply blake3_len. Qed.

Lemma next_level_hashes l : hashes (next_level l).
Proof. rewrite next_level_inputs. apply Forall_fmap, Forall_true. intros b. apply blake3_len. Qed.

Lemma next_level_built n l :
  level_inputs l ⊆ D → Forall (built n) l → hashes l → Forall (built (S n)) (next_level l).
Proof.
  induction l as [|x|x y l IH] using pair_ind; simpl next_level; simpl level_inputs.
  - done.
  - intros HD [Hx _]%Forall_cons [Hx' _]%Forall_cons. repeat constructor. exists x, x. set_solver.
  - rewrite !Forall_cons. intros HD (Hx & Hy & Hl) (Hx' & Hy' & Hl').
    constructor; [exists x, y; set_solver|apply IH; set_solver].
Qed.

Lemma root_built fuel l n :
  (1 ≤ length l)%nat → (length l ≤ fuel)%nat → levels_inputs (build_levels fuel l) ⊆ D →
  Forall (built n) l → hashes l →
  built (n + pred (length (build_levels fuel l))) (levels_root (build_levels fuel l)).
Proof.
  intros Hl Hf. revert n. pattern l, (build_levels fuel l). apply levels_ind; [|clear -H..|done|done].
  - intros x n _ [Hx _]%Forall_cons _. simpl. by rewrite Nat.add_0_r.
  - intros l levels _ Hne IH n HD H1 H2. rewrite levels_inputs_cons in HD by done.
    rewrite levels_root_cons by done.
    specialize (IH _ ltac:(set_solver) (next_level_built n l ltac:(set_solver) H1 H2) (next_level_hashes l)).
    destruct levels as [|l' levels]; [done|]. simpl pred in *. by rewrite <- Nat.add_succ_comm.
Qed.

Lemma climb_spine n cur idx sibs :
  climb_inputs cur idx sibs ⊆ D → spine n cur → cur < bytes32 → hashes sibs →
  spine (n + length sibs) (climb cur idx sibs).
Proof.
  intros HD Hs Hc Hb. revert n cur idx HD Hs Hc.
  induction Hb as [|s sibs Hsib Hb IH]; intros n cur idx HD Hs Hc; simpl length; [by rewrite Nat.add_0_r|].
  simpl climb_inputs in HD. rewrite climb_cons, <- Nat.add_succ_comm. apply IH; [set_solver| |apply parent_lt].
  assert (parent_bytes cur idx s ∈ D) as HD1 by set_solver. unfold parent, parent_bytes in *.
  case_match; [exists cur, s|exists s, cur]; naive_solver.
Qed.

(** A climb of the right length that meets the root started at the node of its
    index. *)
Lemma climb_sound fuel l cur idx sibs :
  (length l ≤ fuel)%nat → (idx < length l)%nat → hashes l → cur < bytes32 → hashes sibs →
  levels_inputs (build_levels fuel l) ⊆ D → climb_inputs cur idx sibs ⊆ D →
  length sibs = pred (length (build_levels fuel l)) →
  climb cur idx sibs = levels_root (build_levels fuel l) →
  l !! idx = Some cur ∨ collision_in D.
Proof.
  intros Hf Hidx. assert (1 ≤ length l)%nat as Hl by lia. revert cur idx sibs Hidx.
  pattern l, (build_levels fuel l). apply levels_ind; [|clear..|done|done].
  - intros x cur [|idx] [|s sibs] Hidx _ _ _ _ _ Hlen Hc; simplify_eq/=; [by left|lia].
  - intros l levels _ Hne IH cur idx sibs Hidx Hl Hcur Hsibs HD1 HD2 Hlen Hc.
    rewrite levels_inputs_cons in HD1 by done.
    destruct levels as [|l' levels]; [done|]. destruct sibs as [|s sibs]; [done|]. simpl climb_inputs in HD2.
    apply Forall_cons in Hsibs as [Hs Hsibs]. destruct (lookup_lt_is_Some_2 l idx Hidx) as [h Hh].
    assert (∀ i h', l !! i = Some h' → h' < bytes32) as Hlb by (by apply Forall_lookup).
    assert (default h (l !! Nat.lxor idx 1) < bytes32) as Hsb by (destruct (l !! Nat.lxor idx 1) eqn:E; eauto).
    pose proof (Hlb _ _ Hh) as Hhb. pose proof (parent_lookup l idx h Hh) as Hp. rewrite climb_cons in Hc.
    pose proof (list_elem_of_lookup_2 _ _ _ (parent_input l idx h Hh)) as Hin.
    apply IH in Hc as [Hc|?]; [|by right|..|apply next_level_hashes|apply parent_lt|done|set_solver|set_solver|naive_solver].
    + rewrite Hp in Hc. apply (inj Some), (hash_inj D) in Hc as [Hc|?]; [|by right|set_solver|set_solver].
      left. rewrite Hh. unfold parent_bytes in Hc. case_match; apply node_bytes_inj in Hc; naive_solver.
    + by apply lookup_lt_Some in Hp.
Qed.

(** ** What a root pins *)

Lemma level_inputs_elem l z : z ∈ level_inputs l → ∃ a b, a ∈ l ∧ b ∈ l ∧ z = node_bytes a b.
Proof.
  induction l as [|x|x y l IH] using pair_ind; simpl level_inputs.
  - by intros ?%not_elem_of_nil.
  - intros ->%list_elem_of_singleton. exists x, x. set_solver.
  - intros [->|Hz]%elem_of_cons; [exists x, y; set_solver|].
    destruct (IH Hz) as (a & b & ? & ? & ?). exists a, b. rewrite !elem_of_cons. auto.
Qed.

Lemma level_inputs_nodup l : NoDup l → hashes l → NoDup (level_inputs l).
Proof.
  induction l as [|x|x y l IH] using pair_ind; simpl level_inputs; [constructor|intros; apply NoDup_singleton|].
  rewrite !NoDup_cons, !Forall_cons. intros (Hx & Hy & Hl) (Hbx & Hby & Hbl). split; [|by apply IH].
  intros (a & b & Ha & Hb & Heq)%level_inputs_elem. rewrite Forall_forall in Hbl.
  apply node_bytes_inj in Heq as [-> ->]; [set_solver|auto..].
Qed.

Lemma level_inputs_inj l k :
  NoDup l → NoDup k → hashes l → hashes k → level_inputs l = level_inputs k → l = k.
Proof.
  revert k. induction l as [|x|x y l IH] using pair_ind; intros [|a [|b k]]; simpl level_inputs;
    rewrite ?NoDup_cons, ?Forall_cons; intros Hl Hk Bl Bk Heq; try done.
  - apply cons_inj in Heq as [?%node_bytes_inj _]; naive_solver.
  - apply cons_inj in Heq as [[-> ->]%node_bytes_inj _]; [|naive_solver..]. by destruct Hk as [[]%not_elem_of_cons _].
  - apply cons_inj in Heq as [[-> ->]%node_bytes_inj _]; [|naive_solver..]. by destruct Hl as [[]%not_elem_of_cons _].
  - apply cons_inj in Heq as [[-> ->]%node_bytes_inj Heq]; [|naive_solver..]. by rewrite (IH k) by naive_solver.
Qed.

Lemma build_levels_cons fuel l :
  (2 ≤ length l)%nat → (length l ≤ fuel)%nat →
  ∃ fuel', build_levels fuel l = l :: build_levels fuel' (next_level l)
    ∧ (1 ≤ length (next_level l))%nat ∧ (length (next_level l) ≤ fuel')%nat.
Proof.
  intros H2 Hf. destruct l as [|x [|y l]]; simpl in H2; [lia..|].
  destruct fuel as [|fuel]; [simpl in Hf; lia|]. exists fuel. split; [done|].
  split; [simpl; lia|]. rewrite next_level_length, Nat.div2_div. cbn [length] in *.
  apply Nat.lt_succ_r, Nat.Div0.div_lt_upper_bound. lia.
Qed.

Lemma levels_inj fuel fuel' l l' :
  (1 ≤ length l)%nat → (length l ≤ fuel)%nat → (1 ≤ length l')%nat → (length l' ≤ fuel')%nat →
  NoDup l → NoDup l' → hashes l → hashes l' →
  levels_inputs (build_levels fuel l) ⊆ D → levels_inputs (build_levels fuel' l') ⊆ D →
  length (build_levels fuel l) = length (build_levels fuel' l') →
  levels_root (build_levels fuel l) = levels_root (build_levels fuel' l') →
  l = l' ∨ collision_in D.
Proof.
  intros Hl Hf. revert fuel' l'. pattern l, (build_levels fuel l).
  apply levels_ind; [|clear..|done|done].
  - intros x fuel' l' Hl' Hf' _ _ _ _ _ _ Hlen Hroot. left.
    destruct l' as [|y [|z l']]; simpl in Hl'; [lia| |].
    + destruct fuel' as [|fuel']; unfold levels_root in Hroot; simpl in Hroot; congruence.
    + destruct (build_levels_cons fuel' (y :: z :: l')) as (f & Hb & _); [simpl; lia|done|].
      rewrite Hb in Hlen. by destruct f, (next_level (y :: z :: l')) as [|? [|? ?]].
  - intros l levels Hl2 Hne IH fuel' l' Hl' Hf' Hn Hn' Hb Hb' HD HD' Hlen Hroot.
    assert (2 ≤ length l')%nat as Hl2'.
    { destruct l' as [|y [|z k]]; simpl in *; [lia| |lia]. destruct levels; [done|]. by destruct fuel'. }
    destruct (build_levels_cons fuel' l') as (f & Hbl & H1 & H2); [done|done|]. rewrite Hbl in Hlen, Hroot, HD'.
    assert (build_levels f (next_level l') ≠ []) as Hne' by by destruct f, (next_level l') as [|? [|? ?]].
    rewrite levels_root_cons in Hroot by done. rewrite levels_root_cons in Hroot by done.
    rewrite levels_inputs_cons in HD by done. rewrite levels_inputs_cons in HD' by done.
    assert (level_inputs l ⊆ D ∧ level_inputs l' ⊆ D) as [HDl HDl'] by set_solver.
    destruct (hashes_nodup D _ HDl (level_inputs_nodup l Hn Hb)) as [Hnl|?]; [|by right].
    destruct (hashes_nodup D _ HDl' (level_inputs_nodup l' Hn' Hb')) as [Hnl'|?]; [|by right].
    rewrite <- next_level_inputs in Hnl, Hnl'.
    destruct (IH f (next_level l')) as [Heq|?]; [done|done|done|done|apply next_level_hashes|apply next_level_hashes
      |set_solver|set_solver|naive_solver|done| |by right].
    rewrite !next_level_inputs in Heq. destruct (hashes_inj D _ _ HDl HDl' Heq) as [?|?]; [left|by right].
    by apply level_inputs_inj.
Qed.
End pinned.
End levels.

(** ** Membership and binding *)

Section membership.
Context `{Crypto}.
Implicit Types l k : list (PeerId * Hash).

Lemma commit_levels l :
  sct_entries (commit_set l) ≠ [] →
  sct_levels (commit_set l) =
    build_levels (length (sct_entries (commit_set l))) (leaf_hash <$> sct_entries (commit_set l)).
Proof. simpl. destruct (dedup _); [done|]. simpl. by rewrite length_fmap. Qed.

Lemma commit_entries_ok l : Forall entry_ok l → Forall entry_ok (sct_entries (commit_set l)).
Proof. rewrite !Forall_forall. intros Hl e He. by apply Hl, (elem_of_entries e l). Qed.

Lemma commit_inputs l :
  sct_entries (commit_set l) ≠ [] →
  tree_inputs (commit_set l) = (leaf_bytes <$> sct_entries (commit_set l)) ++
    levels_inputs (build_levels (length (sct_entries (commit_set l))) (leaf_hash <$> sct_entries (commit_set l))).
Proof. intros Hne. unfold tree_inputs. rewrite <- commit_levels by done. by destruct (sct_entries _). Qed.

(** [prove] succeeds at every index of the set, and [verify_membership]
    accepts its proof against the signed commitment. *)
Theorem membership_complete l i e :
  N.of_nat (length (sct_entries (commit_set l))) < u32_bound →
  sct_entries (commit_set l) !! i = Some e →
  ∃ proof, prove (commit_set l) i = Some proof ∧
    verify_membership (commitment (commit_set l)) e.1 e.2 proof = Ok tt.
Proof.
  intros Hlen He. pose proof (lookup_lt_Some _ _ _ He) as Hi. unfold prove.
  rewrite (proj2 (Nat.leb_gt _ _) Hi). eexists. split; [done|].
  unfold verify_membership, commitment. cbn [sc_count sc_root mp_leaf_index mp_siblings].
  rewrite (wrap32_small (N.of_nat i)), (wrap32_small (N.of_nat (length _))) by lia.
  rewrite (proj2 (N.eqb_neq _ _)), (proj2 (N.leb_gt _ _)) by lia.
  rewrite Nat2N.id. unfold root.
  rewrite commit_levels by (intros Heq; rewrite Heq in Hi; simpl in Hi; lia).
  rewrite <- surjective_pairing, climb_complete, N.eqb_refl; [done|by rewrite length_fmap|].
  by rewrite list_lookup_fmap, He.
Qed.

Section pinned_sets.
Variable D : list bytes.

Lemma leaves_built k :
  leaf_bytes <$> k ⊆ D → Forall (built D 0) (leaf_hash <$> k) ∧ Forall (λ h, h < bytes32) (leaf_hash <$> k).
Proof.
  intros HD. rewrite !Forall_fmap, !Forall_forall. split; intros e He; simpl; [|apply blake3_len].
  exists e. split; [done|]. apply HD. by apply list_elem_of_fmap_2.
Qed.

Lemma leaf_bytes_list_inj l k :
  Forall entry_ok l → Forall entry_ok k → leaf_bytes <$> l = leaf_bytes <$> k → l = k.
Proof.
  intros Hl. revert k. induction Hl as [|e l He Hl IH]; intros [|e' k] Hk Heq; try done.
  apply Forall_cons in Hk as [He' Hk]. rewrite !fmap_cons in Heq.
  apply cons_inj in Heq as [H1 Heq]. f_equal; [by apply leaf_bytes_inj|by apply IH].
Qed.

Lemma leaf_hashes k : leaf_hash <$> k = blake3_hash <$> (leaf_bytes <$> k).
Proof. by rewrite <- list_fmap_compose. Qed.

Lemma leaves_inj l k :
  leaf_bytes <$> l ⊆ D → leaf_bytes <$> k ⊆ D →
  Forall entry_ok l → Forall entry_ok k → leaf_hash <$> l = leaf_hash <$> k → l = k ∨ collision_in D.
Proof.
  rewrite !leaf_hashes. intros HD HD' Hl Hk [?|?]%(hashes_inj D); [left|by right|done..].
  by apply leaf_bytes_list_inj.
Qed.

Lemma leaves_nodup l :
  leaf_bytes <$> l ⊆ D → Forall entry_ok l → NoDup l → NoDup (leaf_hash <$> l) ∨ collision_in D.
Proof.
  intros HD Hl Hn. rewrite leaf_hashes. apply hashes_nodup; [done|]. clear HD.
  induction Hn as [|e l He Hn IH]; [constructor|]. apply Forall_cons in Hl as [Hok Hl]. rewrite fmap_cons.
  constructor; [|by apply IH]. intros (e' & Heq & He')%list_elem_of_fmap. rewrite Forall_forall in Hl.
  apply leaf_bytes_inj in Heq as ->; auto.
Qed.

Lemma empty_root_built n h :
  MERKLE_EMPTY_ROOT_LABEL ∈ D → built D n h → empty_root = h → collision_in D.
Proof.
  intros HD. destruct n as [|n]; simpl; [intros (e & -> & HD')|intros (a & b & -> & HD' & _)];
    by intros [?|?]%(hash_inj D).
Qed.

Lemma commit_root_built l :
  tree_inputs (commit_set l) ⊆ D → sct_entries (commit_set l) ≠ [] → ∃ n, built D n (root (commit_set l)).
Proof.
  intros HD Hne. rewrite commit_inputs in HD by done. unfold root. rewrite commit_levels by done.
  destruct (leaves_built (sct_entries (commit_set l))) as [Hb Hh]; [set_solver|]. eexists.
  apply (root_built D _ _ 0); rewrite ?length_fmap; try done; [|set_solver].
  destruct (sct_entries (commit_set l)); [done|simpl; lia].
Qed.

Lemma commit_root_empty l :
  sct_entries (commit_set l) = [] → root (commit_set l) = empty_root ∧
    MERKLE_EMPTY_ROOT_LABEL ∈ tree_inputs (commit_set l).
Proof. unfold root, tree_inputs. simpl. intros ->. split; [done|]. by left. Qed.

(** Two non-empty lists of leaves with one root coincide. *)
Lemma leaves_binding l k :
  l ≠ [] → k ≠ [] → Forall entry_ok l → Forall entry_ok k → NoDup l → NoDup k →
  leaf_bytes <$> l ⊆ D → leaf_bytes <$> k ⊆ D →
  levels_inputs (build_levels (length l) (leaf_hash <$> l)) ⊆ D →
  levels_inputs (build_levels (length k) (leaf_hash <$> k)) ⊆ D →
  levels_root (build_levels (length l) (leaf_hash <$> l)) =
    levels_root (build_levels (length k) (leaf_hash <$> k)) →
  l = k ∨ collision_in D.
Proof.
  intros Hl Hk Ol Ok Nl Nk Dl Dk Il Ik Hroot. destruct (leaves_built l Dl) as [Bl Sl], (leaves_built k Dk) as [Bk Sk].
  assert (1 ≤ length l)%nat as L1 by (destruct l; [done|simpl; lia]).
  assert (1 ≤ length k)%nat as L2 by (destruct k; [done|simpl; lia]).
  destruct (leaves_nodup l Dl Ol Nl) as [NDl|?]; [|by right].
  destruct (leaves_nodup k Dk Ok Nk) as [NDk|?]; [|by right].
  pose proof (root_built D (length l) (leaf_hash <$> l) 0) as Rl.
  pose proof (root_built D (length k) (leaf_hash <$> k) 0) as Rk. rewrite length_fmap in Rl, Rk.
  rewrite Hroot in Rl. destruct (spine_built_height D _ _ _ (built_spine _ _ _ (Rl L1 (Nat.le_refl _) Il Bl Sl))
    (Rk L2 (Nat.le_refl _) Ik Bk Sk)) as [Hh|?]; [|by right].
  destruct (levels_inj D (length l) (length k) (leaf_hash <$> l) (leaf_hash <$> k)) as [Heq|?];
    rewrite ?length_fmap; try done; [|by apply leaves_inj|by right].
  assert (∀ fuel (hs : list Hash), build_levels fuel hs ≠ []) as Hne by by intros [|?] [|? [|? ?]].
  destruct (build_levels (length l) _) eqn:E1, (build_levels (length k) _) eqn:E2; simpl in *;
    naive_solver.
Qed.
End pinned_sets.

(** C36. Whatever siblings a proof carries, if it is accepted against the
    commitment to a set then the pair is the element at the proof's index, unless
    building the tree and checking the proof have hashed two different byte
    strings to one value. *)
Theorem membership_sound l peer hash proof :
  Forall entry_ok l → entry_ok (peer, hash) → Forall (λ h, h < bytes32) (mp_siblings proof) →
  N.of_nat (length (sct_entries (commit_set l))) < u32_bound →
  verify_membership (commitment (commit_set l)) peer hash proof = Ok tt →
  sct_entries (commit_set l) !! N.to_nat (mp_leaf_index proof) = Some (peer, hash) ∨
  collision_in (tree_inputs (commit_set l) ++ proof_inputs peer hash proof).
Proof.
  intros Hl Hok Hsib Hlen Hv. unfold verify_membership, commitment in Hv. cbn [sc_count sc_root] in Hv.
  rewrite wrap32_small in Hv by done. destruct (N.eqb_spec (N.of_nat (length (sct_entries (commit_set l)))) 0);
    [done|]. destruct (N.leb_spec (N.of_nat (length (sct_entries (commit_set l)))) (mp_leaf_index proof)) as [|Hlt];
    [done|]. destruct (N.eqb_spec (climb (leaf_hash (peer, hash)) (N.to_nat (mp_leaf_index proof)) (mp_siblings proof))
    (root (commit_set l))) as [Hc|]; [|done]. clear Hv. unfold root in Hc.
  assert (sct_entries (commit_set l) ≠ []) as Hne by (by intros Heq; rewrite Heq in * ).
  rewrite commit_levels in Hc by done. rewrite commit_inputs by done. unfold proof_inputs.
  pose proof (commit_entries_ok l Hl) as Hes. set (es := sct_entries (commit_set l)) in *.
  set (D := _ ++ _). assert (leaf_bytes <$> es ⊆ D ∧ leaf_bytes (peer, hash) ∈ D) as [Dl Dp] by set_solver.
  destruct (leaves_built D es Dl) as [Hb Hh].
  assert (levels_inputs (build_levels (length es) (leaf_hash <$> es)) ⊆ D) as Dt by (apply list_subseteq_app_l, list_subseteq_app_r; done).
  assert (climb_inputs (leaf_hash (peer, hash)) (N.to_nat (mp_leaf_index proof)) (mp_siblings proof) ⊆ D) as Dc by (apply list_subseteq_app_r, list_subseteq_cons; done).
  assert (spine D (0 + length (mp_siblings proof)) (levels_root (build_levels (length es) (leaf_hash <$> es)))) as Hsp.
  { rewrite <- Hc. apply climb_spine; [done|by eexists|apply blake3_len|done]. }
  eapply spine_built_height in Hsp as [Hheight|?]; [|by right|apply (root_built D _ _ 0); rewrite ?length_fmap; try done; lia].
  eapply climb_sound in Hc as [Hc|?]; rewrite ?length_fmap; [|by right|done|lia|done|apply blake3_len|done|done|done|done].
  rewrite list_lookup_fmap in Hc. destruct (es !! N.to_nat (mp_leaf_index proof)) as [e|] eqn:He; [|done].
  simpl in Hc. apply (inj Some), (hash_inj D) in Hc as [Hc|?]; [left|by right| |done].
  - f_equal. apply leaf_bytes_inj; [|done|done]. rewrite Forall_forall in Hes. eapply Hes, list_elem_of_lookup_2, He.
  - apply Dl, list_elem_of_fmap_2, (list_elem_of_lookup_2 _ _ _ He).
Qed.

(** A root pins the set: two lists of pairs with the same merkle root
    contain the same pairs, whatever their lengths, order and repetitions, unless
    building the two trees has hashed two byte strings to one value. *)
Lemma root_binding l k :
  Forall entry_ok l → Forall entry_ok k → root (commit_set l) = root (commit_set k) →
  (∀ e, e ∈ l ↔ e ∈ k) ∨ collision_in (tree_inputs (commit_set l) ++ tree_inputs (commit_set k)).
Proof.
  intros Hl Hk Hroot. set (D := _ ++ _).
  assert (tree_inputs (commit_set l) ⊆ D ∧ tree_inputs (commit_set k) ⊆ D) as [Dl Dk] by set_solver.
  enough (sct_entries (commit_set l) = sct_entries (commit_set k) ∨ collision_in D) as [Heq|?]; [|by right|].
  { left. intros e. by rewrite <- (elem_of_entries e l), <- (elem_of_entries e k), Heq. }
  destruct (decide (sct_entries (commit_set l) = [])) as [El|El],
    (decide (sct_entries (commit_set k) = [])) as [Ek|Ek].
  - left. congruence.
  - right. destruct (commit_root_built D k Dk Ek) as [n Hn], (commit_root_empty l El) as [Hr Hin].
    apply (empty_root_built D _ _ (Dl _ Hin) Hn). congruence.
  - right. destruct (commit_root_built D l Dl El) as [n Hn], (commit_root_empty k Ek) as [Hr Hin].
    apply (empty_root_built D _ _ (Dk _ Hin) Hn). congruence.
  - unfold root in Hroot. rewrite !commit_levels in Hroot by done.
    rewrite commit_inputs in Dl, Dk by done.
    apply leaves_binding; auto using commit_entries_ok; try apply entries_sorted; set_solver.
Qed.
End membership.

Definition sample_set : list (PeerId * Hash) := [(7, 70); (3, 31); (5, 50); (3, 30); (7, 70)].

Lemma membership_complete_witness :
  N.of_nat (length (sct_entries (@commit_set toy_crypto sample_set))) < u32_bound ∧
  ∃ proof, @prove (@commit_set toy_crypto sample_set) 2 = Some proof ∧
    @verify_membership toy_crypto (commitment (@commit_set toy_crypto sample_set)) 5 50 proof = Ok tt.
Proof.
  split; [by vm_compute|]. apply (@membership_complete toy_crypto sample_set 2 (5, 50)); by vm_compute.
Defined.

Definition sample_proof : MembershipProof :=
  default (mkMembershipProof 0 []) (prove (@commit_set toy_crypto sample_set) 2).

Lemma membership_sound_witness : sct_entries (@commit_set toy_crypto sample_set) !! 2%nat = Some (5, 50).
Proof.
  destruct (@membership_sound toy_crypto sample_set 5 50 sample_proof) as [Hm|Hc].
  - by repeat constructor.
  - by split.
  - apply (bool_decide_unpack _). by vm_compute.
  - by vm_compute.
  - by vm_compute.
  - exact Hm.
  - apply (bool_decide_pack _) in Hc. exfalso. revert Hc. by vm_compute.
Defined.
