(* ===== verification/VhcMessages.v ===== *)
(** * Control-plane messages ([daemon-vhc-sdk-consensus/src/messages.rs])

    The messages of a training round and their signed frame.  The canonical CBOR
    encoder (serde over ciborium) is the parameter [to_canonical_vec]. *)

From S2P Require Import Prelude Text VhcProto VhcMerkle.

#[local] Open Scope N_scope.
#[local] Open Scope daemon_scope.

Inductive ThroughputClass := C1 | C2 | C3 | C4.

#[export] Instance ThroughputClass_eq_dec : EqDecision ThroughputClass.
Proof. solve_decision. Defined.

Definition classify (tokens_per_s : N) : ThroughputClass :=
  if tokens_per_s <=? 999 then C1
  else if tokens_per_s <=? 3999 then C2
  else if tokens_per_s <=? 15999 then C3
  else C4.

Inductive Locator :=
| StoreKey (key : string)
| BlobTicket (ticket : string).

#[export] Instance Locator_eq_dec : EqDecision Locator.
Proof. solve_decision. Defined.

(** [start] inclusive, [end] exclusive. *)
Record BatchWindow := mkBatchWindow { bw_start : N; bw_end : N }.

#[export] Instance BatchWindow_eq_dec : EqDecision BatchWindow.
Proof. solve_decision. Defined.

Record AttestEntry := mkAttestEntry { ae_peer : PeerId; ae_hash : Hash }.

#[export] Instance AttestEntry_eq_dec : EqDecision AttestEntry.
Proof. solve_decision. Defined.

Record RecordEntry := mkRecordEntry { re_peer : PeerId; re_hash : Hash; re_size : N }.

#[export] Instance RecordEntry_eq_dec : EqDecision RecordEntry.
Proof. solve_decision. Defined.

Record RoundOpen := mkRoundOpen {
  ro_round : N;
  ro_seed : Seed;
  ro_roster_digest : Hash;
  ro_batch : BatchWindow;
  ro_deadline_unix_s : N
}.

Record Commitment := mkCommitment {
  cm_round : N;
  cm_payload : Hash;
  cm_size : N;
  cm_locators : list Locator
}.

#[export] Instance Commitment_eq_dec : EqDecision Commitment.
Proof. solve_decision. Defined.

(** The signed field is [at_set]; [at_inline] is a transport optimisation. *)
Record Attestation := mkAttestation {
  at_round : N;
  at_set : SetCommitment;
  at_inline : option (list AttestEntry)
}.

#[export] Instance Attestation_eq_dec : EqDecision Attestation.
Proof. solve_decision. Defined.

Record StorageReceipt := mkStorageReceipt {
  sr_round : N;
  sr_verified : list RecordEntry
}.

Record RoundRecord := mkRoundRecord {
  rr_round : N;
  rr_set : SetCommitment;
  rr_drops : list PeerId;
  rr_next_seed : Seed;
  rr_set_locator : Locator;
  rr_inline : option (list RecordEntry)
}.

#[export] Instance RoundRecord_eq_dec : EqDecision RoundRecord.
Proof. solve_decision. Defined.

Record Digest := mkDigest { dg_round : N; dg_digest : StateDigest }.

Inductive StraggleStatus := Fetching | Stalled | CatchingUp.

#[export] Instance StraggleStatus_eq_dec : EqDecision StraggleStatus.
Proof. solve_decision. Defined.

Record Straggle := mkStraggle { sg_round : N; sg_status : StraggleStatus }.

Record Join := mkJoin {
  jn_run_id : string;
  jn_iroh_id : IrohId;
  jn_class : ThroughputClass;
  jn_capabilities : CapabilitySet;
  jn_envelope_hash : option Hash
}.

Record CheckpointAttestation := mkCheckpointAttestation {
  ca_tier : N;
  ca_run_id : Hash;
  ca_epoch : N;
  ca_round : N;
  ca_checkpoint : Hash;
  ca_digest : StateDigest;
  ca_signer : PeerId;
  ca_sig : Signature
}.

#[export] Instance CheckpointAttestation_eq_dec : EqDecision CheckpointAttestation.
Proof. solve_decision. Defined.

Record Heartbeat := mkHeartbeat { hb_round : N; hb_ready : option bool }.

Record Finished := mkFinished { fin_rounds : N }.

Inductive VhcMessage :=
| MRoundOpen (m : RoundOpen)
| MCommitment (m : Commitment)
| MAttestation (m : Attestation)
| MStorageReceipt (m : StorageReceipt)
| MRoundRecord (m : RoundRecord)
| MDigest (m : Digest)
| MStraggle (m : Straggle)
| MJoin (m : Join)
| MHeartbeat (m : Heartbeat)
| MCheckpointAttestation (m : CheckpointAttestation)
| MFinished (m : Finished).

Record SignedMessage := mkSignedMessage {
  sm_version : VhcProtoVersion;
  sm_payload : VhcMessage;
  sm_signer : PeerId;
  sm_sig : Signature
}.

(** The canonical encoding of the preimage [(version, payload)]; [None] is a
    codec error. *)
Class MessageCodec := {
  preimage_vec : VhcProtoVersion → VhcMessage → option bytes
}.

Section signed.
Context `{Crypto, MessageCodec}.

Definition preimage_bytes (m : SignedMessage) : result VhcProtoError bytes :=
  match preimage_vec (sm_version m) (sm_payload m) with
  | Some b => Ok b
  | None => Err ECodec
  end.

Definition SignedMessage_sign (key : SigningKey) (version : VhcProtoVersion) (payload : VhcMessage)
    : result VhcProtoError SignedMessage :=
  match preimage_vec version payload with
  | Some b => Ok (mkSignedMessage version payload (peer_id key) (ed25519_sign key b))
  | None => Err ECodec
  end.

Definition SignedMessage_verify (m : SignedMessage) : result VhcProtoError unit :=
  match preimage_vec (sm_version m) (sm_payload m) with
  | Some b => verify_bytes (sm_signer m) (sm_sig m) b
  | None => Err ECodec
  end.

Definition verify_for_run (m : SignedMessage) (expected : VhcProtoVersion) : result VhcProtoError unit :=
  match check_join expected (sm_version m) with
  | Ok _ => SignedMessage_verify m
  | Err e => Err e
  end.

(** A signed message verifies for a run of its version and for no other. *)
Lemma sign_verifies key version payload m expected :
  SignedMessage_sign key version payload = Ok m →
  verify_for_run m expected = if accepts expected version then Ok tt else Err EVersion.
Proof.
  unfold SignedMessage_sign, verify_for_run, SignedMessage_verify, check_join.
  destruct (preimage_vec version payload) eqn:E; intros ?; simplify_eq/=.
  rewrite E, verify_bytes_sign. by destruct (accepts expected version).
Qed.
End signed.
