(* ===== verification/VhcAuthority.v ===== *)
(** * Authority, record sets and the committed set
    ([daemon-vhc-sdk-consensus/src/{authority,record_set,committed}.rs])

    Who may sign a round record, the object that lists the set a record commits to,
    and the mint of the verified payloads in the order of that list.  The value
    type of the CBOR package is the class [CborValue]. *)

From S2P Require Import Prelude Text VhcProto VhcMerkle VhcMessages.

#[local] Open Scope N_scope.
#[local] Open Scope daemon_scope.

(** ** Contracts *)

Definition DEFAULT_RECORDS_CHANNEL : N := 0.

Inductive FaultThreshold := NoFaults | Threshold (n m : N).
Inductive Finality := Immediate.
Inductive Reconfiguration := SingleSigner | QuorumReconfigurable.

(** Without the two prose fields. *)
Record AuthorityContract := mkAuthorityContract {
  ac_name : string;
  ac_fault_threshold : FaultThreshold;
  ac_finality : Finality;
  ac_reconfiguration : Reconfiguration
}.

Record RecordSig := mkRecordSig { rsig_signer : PeerId; rsig_sig : Signature }.

(** One value per text of [AuthError::Config]. *)
Inductive ConfigReason :=
| ThresholdZero | ThresholdExceeds (m n : N) | DuplicateMembers | NotAMap | MissingTopology
| BadRecordsChannel | BadCoordinator | BadMember | MissingMembers | BadThreshold
| UnknownTopology (tag : bytes).

Inductive AuthError :=
| NotSigned
| WrongSigner (got : PeerId)
| BadSignature (signer : PeerId)
| UnknownSigner (signer : PeerId)
| DuplicateSigner (signer : PeerId)
| InsufficientSignatures (have need : N)
| AuthMalformed
| AuthConfig (reason : ConfigReason).

(** The token holds the channel the record is expected on. *)
Record Authorized := mkAuthorized { au_channel : N }.

Definition from_authoritative_channel (channel : N) : Authorized := mkAuthorized channel.

(** ** Topologies *)

Record SingleKey := mkSingleKey { sk_coordinator : PeerId }.

Record ThresholdKeys := mkThresholdKeys { tk_members : list PeerId; tk_threshold : N }.

Inductive Topology := TSingleKey (a : SingleKey) | TThresholdKeys (a : ThresholdKeys).

Record AuthorityConfig := mkAuthorityConfig { cfg_topology : Topology; cfg_records_channel : N }.

(** [u32::try_from(len).unwrap_or(u32::MAX)]. *)
Definition len32 {A} (l : list A) : N := N.min (N.of_nat (length l)) (u32_bound - 1).

Definition ThresholdKeys_new (members : list PeerId) (threshold : N) : result AuthError ThresholdKeys :=
  let n := len32 members in
  if threshold =? 0 then Err (AuthConfig ThresholdZero)
  else if n <? threshold then Err (AuthConfig (ThresholdExceeds threshold n))
  else if negb (length (dedup (sort_by N.leb members)) =? length members)%nat
       then Err (AuthConfig DuplicateMembers)
  else Ok (mkThresholdKeys members threshold).

Definition SingleKey_contract (a : SingleKey) : AuthorityContract :=
  mkAuthorityContract "single-key" NoFaults Immediate SingleSigner.

Definition ThresholdKeys_contract (a : ThresholdKeys) : AuthorityContract :=
  mkAuthorityContract "threshold-keys" (Threshold (len32 (tk_members a)) (tk_threshold a)) Immediate
    QuorumReconfigurable.

Definition config_contract (c : AuthorityConfig) : AuthorityContract :=
  match cfg_topology c with
  | TSingleKey a => SingleKey_contract a
  | TThresholdKeys a => ThresholdKeys_contract a
  end.

Section authorize.
Context `{Crypto}.

Definition SingleKey_authorize (a : SingleKey) (records_channel : N) (preimage : bytes) (sigs : list RecordSig)
    : result AuthError Authorized :=
  match sigs with
  | [] => Err NotSigned
  | first :: _ =>
      if negb (rsig_signer first =? sk_coordinator a) then Err (WrongSigner (rsig_signer first))
      else match verify_sig (rsig_signer first) (rsig_sig first) preimage with
           | VerifyValid => Ok (from_authoritative_channel records_channel)
           | VerifyInvalid => Err (BadSignature (rsig_signer first))
           | VerifyMalformed => Err AuthMalformed
           end
  end.

(** The loop over the signatures: the signers seen so far and the valid count. *)
Fixpoint count_valid (members : list PeerId) (preimage : bytes) (seen : list PeerId) (valid : N)
    (sigs : list RecordSig) : result AuthError N :=
  match sigs with
  | [] => Ok valid
  | rs :: sigs' =>
      if negb (bool_decide (rsig_signer rs ∈ members)) then Err (UnknownSigner (rsig_signer rs))
      else if bool_decide (rsig_signer rs ∈ seen) then Err (DuplicateSigner (rsig_signer rs))
      else match verify_sig (rsig_signer rs) (rsig_sig rs) preimage with
           | VerifyValid =>
               count_valid members preimage (seen ++ [rsig_signer rs]) (wrap32 (valid + 1)) sigs'
           | VerifyInvalid => Err (BadSignature (rsig_signer rs))
           | VerifyMalformed => Err AuthMalformed
           end
  end.

Definition ThresholdKeys_authorize (a : ThresholdKeys) (records_channel : N) (preimage : bytes)
    (sigs : list RecordSig) : result AuthError Authorized :=
  match sigs with
  | [] => Err NotSigned
  | _ :: _ =>
      match count_valid (tk_members a) preimage [] 0 sigs with
      | Err e => Err e
      | Ok valid =>
          if tk_threshold a <=? valid then Ok (from_authoritative_channel records_channel)
          else Err (InsufficientSignatures valid (tk_threshold a))
      end
  end.

Definition config_authorize (c : AuthorityConfig) (preimage : bytes) (sigs : list RecordSig)
    : result AuthError Authorized :=
  match cfg_topology c with
  | TSingleKey a => SingleKey_authorize a (cfg_records_channel c) preimage sigs
  | TThresholdKeys a => ThresholdKeys_authorize a (cfg_records_channel c) preimage sigs
  end.
End authorize.

(** ** The configuration on the wire *)

(** The value type of the CBOR package: its constructors and the views of a value
    that the decoder matches on. *)
Class CborValue := {
  Value : Type;
  v_text : bytes → Value;
  v_bytes : bytes → Value;
  v_uint : N → Value;
  v_array : list Value → Value;
  v_map : list (Value * Value) → Value;
  as_text : Value → option bytes;
  as_bytes : Value → option bytes;
  as_integer : Value → option Z;
  as_array : Value → option (list Value);
  as_map : Value → option (list (Value * Value));
  as_text_text : ∀ t, as_text (v_text t) = Some t;
  as_bytes_bytes : ∀ b, as_bytes (v_bytes b) = Some b;
  as_integer_uint : ∀ n, n < u64_bound → as_integer (v_uint n) = Some (Z.of_N n);
  as_array_array : ∀ l, as_array (v_array l) = Some l;
  as_map_map : ∀ m, as_map (v_map m) = Some m
}.

Section config.
Context `{CborValue}.

(** The first value under a text key. *)
Fixpoint map_get (entries : list (Value * Value)) (name : bytes) : option Value :=
  match entries with
  | [] => None
  | (k, v) :: entries' =>
      match as_text k with
      | Some t => if decide (t = name) then Some v else map_get entries' name
      | None => map_get entries' name
      end
  end.

(** A byte string of 32 bytes, read as the number its bytes spell. *)
Definition decode_peer (value : option Value) : option PeerId :=
  b ← value ≫= as_bytes;
  if (length b =? 32)%nat then Some (le_value (rev b)) else None.

Definition as_u32 (v : Value) : option N :=
  z ← as_integer v;
  if ((0 <=? z)%Z && (z <? Z.of_N u32_bound)%Z) then Some (Z.to_N z) else None.

Fixpoint decode_members (items : list Value) : result AuthError (list PeerId) :=
  match items with
  | [] => Ok []
  | it :: items' =>
      match decode_peer (Some it) with
      | None => Err (AuthConfig BadMember)
      | Some p => match decode_members items' with Ok ps => Ok (p :: ps) | Err e => Err e end
      end
  end.

Definition vkey (s : string) : bytes := string_bytes s.

Definition decode_single_key (entries : list (Value * Value)) : result AuthError Topology :=
  match decode_peer (map_get entries (vkey "coordinator")) with
  | None => Err (AuthConfig BadCoordinator)
  | Some c => Ok (TSingleKey (mkSingleKey c))
  end.

Definition decode_threshold_keys (entries : list (Value * Value)) : result AuthError Topology :=
  match map_get entries (vkey "members") ≫= as_array with
  | None => Err (AuthConfig MissingMembers)
  | Some items =>
      match decode_members items with
      | Err e => Err e
      | Ok members =>
          match map_get entries (vkey "threshold") ≫= as_u32 with
          | None => Err (AuthConfig BadThreshold)
          | Some threshold =>
              match ThresholdKeys_new members threshold with
              | Err e => Err e
              | Ok tk => Ok (TThresholdKeys tk)
              end
          end
      end
  end.

Definition decode_channel (entries : list (Value * Value)) : option N :=
  match map_get entries (vkey "records_channel") with
  | None => Some DEFAULT_RECORDS_CHANNEL
  | Some v => as_u32 v
  end.

Definition config_decode (value : Value) : result AuthError AuthorityConfig :=
  match as_map value with
  | None => Err (AuthConfig NotAMap)
  | Some entries =>
      match map_get entries (vkey "topology") ≫= as_text with
      | None => Err (AuthConfig MissingTopology)
      | Some tag =>
          match decode_channel entries with
          | None => Err (AuthConfig BadRecordsChannel)
          | Some records_channel =>
              let topology :=
                if decide (tag = vkey "single-key") then decode_single_key entries
                else if decide (tag = vkey "threshold-keys") then decode_threshold_keys entries
                else Err (AuthConfig (UnknownTopology tag)) in
              match topology with
              | Err e => Err e
              | Ok t => Ok (mkAuthorityConfig t records_channel)
              end
          end
      end
  end.

Definition topology_tag (c : AuthorityConfig) : bytes :=
  match cfg_topology c with
  | TSingleKey _ => vkey "single-key"
  | TThresholdKeys _ => vkey "threshold-keys"
  end.

Definition config_encode (c : AuthorityConfig) : Value :=
  v_map ([(v_text (vkey "topology"), v_text (topology_tag c))] ++
    match cfg_topology c with
    | TSingleKey sk => [(v_text (vkey "coordinator"), v_bytes (be_bytes 32 (sk_coordinator sk)))]
    | TThresholdKeys tk =>
        [(v_text (vkey "members"), v_array ((λ p, v_bytes (be_bytes 32 p)) <$> tk_members tk));
         (v_text (vkey "threshold"), v_uint (tk_threshold tk))]
    end ++
    [(v_text (vkey "records_channel"), v_uint (cfg_records_channel c))]).
End config.

(** ** Record sets *)

Definition record_entry_leb (a b : RecordEntry) : bool :=
  match re_peer a ?= re_peer b with
  | Lt => true
  | Gt => false
  | Eq =>
      match re_hash a ?= re_hash b with
      | Lt => true
      | Gt => false
      | Eq => re_size a <=? re_size b
      end
  end.

Record RecordSet := mkRecordSet { rset_entries : list RecordEntry }.

Definition RecordSet_new (entries : list RecordEntry) : RecordSet :=
  mkRecordSet (dedup (sort_by record_entry_leb entries)).

Definition record_pairs (entries : list RecordEntry) : list (PeerId * Hash) :=
  (λ e, (re_peer e, re_hash e)) <$> entries.

(** The encoding of the object; [None] is a codec error. *)
Class RecordSetCodec := { record_set_vec : RecordSet → option bytes }.

Section record_set.
Context `{Crypto}.

Definition content_hash `{RecordSetCodec} (s : RecordSet) : result VhcProtoError Hash :=
  match record_set_vec s with Some b => Ok (blake3_hash b) | None => Err ECodec end.

Definition RecordSet_commitment (s : RecordSet) : SetCommitment :=
  commitment (commit_set (record_pairs (rset_entries s))).

Definition verify_against (s : RecordSet) (c : SetCommitment) : result VhcProtoError unit :=
  if decide (RecordSet_commitment s = c) then Ok tt else Err EMerkle.

(** The inline set of a record, checked against its commitment and put in the
    order of the tree ([verify_record_set] of the session's engine); [None] is the
    lifecycle error of either check. *)
Definition verify_record_set (rr : RoundRecord) : option (list RecordEntry) :=
  inline ← rr_inline rr;
  let tree := commit_set (record_pairs inline) in
  let recomputed := commitment tree in
  if negb (sc_root recomputed =? sc_root (rr_set rr)) || negb (sc_count recomputed =? sc_count (rr_set rr))
  then None
  else Some (omap (λ e, List.find (λ r, (re_peer r =? e.1) && (re_hash r =? e.2)) inline) (sct_entries tree)).

(** [resolve_record_set] of the engine, given the object the store returned. *)
Definition resolve_record_set (rr : RoundRecord) (fetched : option RecordSet) : option (list RecordEntry) :=
  match rr_inline rr with
  | Some _ => verify_record_set rr
  | None =>
      set ← fetched;
      if is_ok (verify_against set (rr_set rr)) then Some (rset_entries set) else None
  end.
End record_set.

(** ** The mint *)

Inductive PayloadCheck := PVerified | PMismatch | PHostVerified.

#[export] Instance PayloadCheck_eq_dec : EqDecision PayloadCheck.
Proof. solve_decision. Defined.

Class PayloadRepr (P : Type) := { payload_check : P → Hash → PayloadCheck }.

(** [&mut impl PayloadSource]: asking may change the source. *)
Class PayloadSource (S P : Type) := { payload : S → N → PeerId → option P * S }.

#[export] Instance bytes_repr `{Crypto} : PayloadRepr bytes :=
  {| payload_check b expected := if blake3_hash b =? expected then PVerified else PMismatch |}.

Record HostStaged := mkHostStaged { hs_token : N }.

#[export] Instance host_staged_repr : PayloadRepr HostStaged :=
  {| payload_check _ _ := PHostVerified |}.

#[export] Instance map_source {P} : PayloadSource (gmap (N * PeerId) P) P :=
  {| payload m round peer := (m !! (round, peer), m) |}.

Record CommittedItem (P : Type) := mkCommittedItem { ci_peer : PeerId; ci_hash : Hash; ci_bytes : P }.
Arguments mkCommittedItem {P}.
Arguments ci_peer {P}.
Arguments ci_hash {P}.
Arguments ci_bytes {P}.

Inductive MintError := MissingPayload (peer : PeerId) | HashMismatch (peer : PeerId).

Record Committed (P : Type) := mkCommitted { com_items : list (CommittedItem P); com_channel : N }.
Arguments mkCommitted {P}.
Arguments com_items {P}.
Arguments com_channel {P}.

Section mint.
Context {S P : Type} `{PayloadRepr P, PayloadSource S P}.

Fixpoint mint_items (round : N) (entries : list RecordEntry) (src : S)
    : result MintError (list (CommittedItem P)) * S :=
  match entries with
  | [] => (Ok [], src)
  | e :: entries' =>
      match payload src round (re_peer e) with
      | (None, src') => (Err (MissingPayload (re_peer e)), src')
      | (Some b, src') =>
          if decide (payload_check b (re_hash e) = PMismatch) then (Err (HashMismatch (re_peer e)), src')
          else match mint_items round entries' src' with
               | (Ok items, src'') => (Ok (mkCommittedItem (re_peer e) (re_hash e) b :: items), src'')
               | (Err er, src'') => (Err er, src'')
               end
      end
  end.

Definition mint (authorized : Authorized) (round : N) (entries : list RecordEntry) (src : S)
    : result MintError (Committed P) * S :=
  match mint_items round entries src with
  | (Ok items, src') => (Ok (mkCommitted items (au_channel authorized)), src')
  | (Err e, src') => (Err e, src')
  end.
End mint.

(** ** What an authorization means *)

Section authority_facts.
Context `{Crypto}.

(** Distinct members, none of [seen], each with a valid signature. *)
Definition valid_sigs (members : list PeerId) (preimage : bytes) (seen : list PeerId) (sigs : list RecordSig) : Prop :=
  NoDup (rsig_signer <$> sigs) ∧
  Forall (λ rs, rsig_signer rs ∈ members ∧ rsig_signer rs ∉ seen ∧
    verify_sig (rsig_signer rs) (rsig_sig rs) preimage = VerifyValid) sigs.

Lemma valid_sigs_cons members preimage seen rs sigs :
  valid_sigs members preimage seen (rs :: sigs) ↔
    rsig_signer rs ∈ members ∧ rsig_signer rs ∉ seen ∧
    verify_sig (rsig_signer rs) (rsig_sig rs) preimage = VerifyValid ∧
    valid_sigs members preimage (seen ++ [rsig_signer rs]) sigs.
Proof.
  unfold valid_sigs. csimpl. rewrite NoDup_cons, Forall_cons, !Forall_forall.
  split.
  - intros ((Hni & Hnd) & (Hm & Hs & Hv) & Hf). split_and!; try done. intros r Hr.
    destruct (Hf r Hr) as (? & ? & ?). split_and!; [done| |done].
    rewrite elem_of_app, list_elem_of_singleton. intros [?|Heq]; [done|].
    apply Hni. rewrite <- Heq. by apply list_elem_of_fmap_2.
  - intros (Hm & Hs & Hv & Hnd & Hf). split_and!; try done.
    + intros (r & Heq & Hr)%list_elem_of_fmap. destruct (Hf r Hr) as (_ & Hn & _). apply Hn. set_solver.
    + intros r Hr. destruct (Hf r Hr) as (? & Hn & ?). split_and!; [done| |done]. set_solver.
Qed.

Lemma count_valid_spec members preimage seen valid sigs v :
  valid < u32_bound →
  count_valid members preimage seen valid sigs = Ok v ↔
    valid_sigs members preimage seen sigs ∧ v = wrap32 (valid + N.of_nat (length sigs)).
Proof.
  revert seen valid. induction sigs as [|rs sigs IH]; intros seen valid Hv.
  { simpl. rewrite N.add_0_r, wrap32_small by done. split.
    - intros [= ->]. repeat constructor.
    - by intros [_ ->]. }
  rewrite valid_sigs_cons. cbn [count_valid].
  destruct (bool_decide_reflect (rsig_signer rs ∈ members)); simpl; [|split; [done|naive_solver]].
  destruct (bool_decide_reflect (rsig_signer rs ∈ seen)); [split; [done|naive_solver]|].
  destruct (verify_sig _ _ _); [|split; [done|naive_solver]..].
  rewrite IH by (apply N.mod_lt; done).
  assert (wrap32 (wrap32 (valid + 1) + N.of_nat (length sigs)) =
    wrap32 (valid + N.pos (Pos.of_succ_nat (length sigs)))) as ->; [|naive_solver].
  unfold wrap32. rewrite N.Div0.add_mod_idemp_l. f_equal. lia.
Qed.

Lemma valid_sigs_length members preimage sigs :
  valid_sigs members preimage [] sigs → (length sigs ≤ length members)%nat.
Proof.
  intros [Hnd Hf]. rewrite <- (length_fmap rsig_signer sigs).
  apply submseteq_length, NoDup_submseteq; [done|].
  intros p (r & -> & Hr)%list_elem_of_fmap. rewrite Forall_forall in Hf. by apply (Hf r Hr).
Qed.

(** An [m]-of-[n] authority accepts exactly the signature lists whose signers are
    distinct members with valid signatures, at least the threshold of them. *)
Lemma threshold_authorize_iff a ch preimage sigs tok :
  N.of_nat (length (tk_members a)) < u32_bound → 0 < tk_threshold a →
  ThresholdKeys_authorize a ch preimage sigs = Ok tok ↔
    tok = mkAuthorized ch ∧ valid_sigs (tk_members a) preimage [] sigs ∧
    tk_threshold a ≤ N.of_nat (length sigs).
Proof.
  intros Hn Ht. unfold ThresholdKeys_authorize. destruct sigs as [|rs sigs].
  { simpl. split; [done|]. intros (_ & _ & Hle). lia. }
  remember (rs :: sigs) as l eqn:El. clear El rs sigs.
  destruct (count_valid (tk_members a) preimage [] 0 l) as [v|e] eqn:E.
  - apply count_valid_spec in E as [Hv ->]; [|done]. pose proof (valid_sigs_length _ _ _ Hv) as Hl.
    rewrite N.add_0_l, wrap32_small by lia. unfold from_authoritative_channel.
    destruct (N.leb_spec (tk_threshold a) (N.of_nat (length l))) as [Hle|Hlt]; split.
    + by intros [= <-].
    + by intros (-> & _).
    + done.
    + intros (_ & _ & Hle). lia.
  - split; [done|]. intros (_ & Hv & _).
    pose proof (proj2 (count_valid_spec (tk_members a) preimage [] 0 l _ eq_refl) (conj Hv eq_refl)). congruence.
Qed.

Lemma ThresholdKeys_new_ok members m tk :
  ThresholdKeys_new members m = Ok tk →
  tk = mkThresholdKeys members m ∧ 0 < m ∧ m ≤ N.of_nat (length members) ∧ m < u32_bound ∧ NoDup members.
Proof.
  unfold ThresholdKeys_new, len32. destruct (N.eqb_spec m 0); [done|].
  destruct (N.ltb_spec (N.min (N.of_nat (length members)) (u32_bound - 1)) m); [done|].
  destruct (Nat.eqb_spec (length (dedup (sort_by N.leb members))) (length members)) as [Hl|]; [|done].
  intros [= <-]. unfold u32_bound in *. split_and!; [done|lia..|].
  assert (dedup (sort_by N.leb members) ≡ₚ members) as <-.
  { apply submseteq_length_Permutation; [|by rewrite Hl].
    apply NoDup_submseteq; [apply dedup_sort_N|]. intros p. by rewrite elem_of_dedup, sort_by_perm. }
  apply dedup_sort_N.
Qed.
End authority_facts.

Section authority_claims.
Context `{Crypto}.

(** C13. Two records authorized by one [m]-of-[n] keyset share at least
    [2m - n] members: each of them has, among the signatures presented with the
    first record, one that verifies for it under its key, and likewise for the
    second.  With [2m > n], conflicting records need a member that signs both. *)
Theorem authority_quorum members m tk ch1 ch2 p1 p2 s1 s2 t1 t2 :
  N.of_nat (length members) < u32_bound →
  ThresholdKeys_new members m = Ok tk →
  ThresholdKeys_authorize tk ch1 p1 s1 = Ok t1 →
  ThresholdKeys_authorize tk ch2 p2 s2 = Ok t2 →
  ∃ common, NoDup common ∧ 2 * m ≤ N.of_nat (length members) + N.of_nat (length common) ∧
    Forall (λ p, p ∈ members ∧
      (∃ r, r ∈ s1 ∧ rsig_signer r = p ∧ verify_sig p (rsig_sig r) p1 = VerifyValid) ∧
      (∃ r, r ∈ s2 ∧ rsig_signer r = p ∧ verify_sig p (rsig_sig r) p2 = VerifyValid)) common.
Proof.
  intros Hn (-> & Hm & _ & _ & Hnd)%ThresholdKeys_new_ok H1 H2.
  apply threshold_authorize_iff in H1 as (_ & [N1 F1] & L1); [|done..].
  apply threshold_authorize_iff in H2 as (_ & [N2 F2] & L2); [|done..].
  simpl in *. set (A := list_to_set (rsig_signer <$> s1) : gset PeerId).
  set (B := list_to_set (rsig_signer <$> s2) : gset PeerId). set (C := list_to_set members : gset PeerId).
  rewrite Forall_forall in F1, F2.
  assert (A ∪ B ⊆ C) as Hsub.
  { intros p. unfold A, B, C. rewrite elem_of_union, !elem_of_list_to_set, !list_elem_of_fmap.
    intros [(r & -> & Hr)|(r & -> & Hr)]; [by apply (F1 r)|by apply (F2 r)]. }
  apply subseteq_size in Hsub. pose proof (size_union_inter A B) as Hs.
  assert (size A = length s1 ∧ size B = length s2 ∧ size C = length members) as (HA & HB & HC)
    by (unfold A, B, C; rewrite !size_list_to_set, !length_fmap by done; done).
  exists (elements (A ∩ B)). split_and!; [apply NoDup_elements| |].
  - change (length (elements (A ∩ B))) with (size (A ∩ B)). lia.
  - apply Forall_forall. intros p [HpA HpB]%elem_of_elements%elem_of_intersection.
    apply elem_of_list_to_set, list_elem_of_fmap in HpA as (r1 & -> & Hr1).
    apply elem_of_list_to_set, list_elem_of_fmap in HpB as (r2 & Heq & Hr2).
    destruct (F1 r1 Hr1) as (? & _ & ?), (F2 r2 Hr2) as (_ & _ & Hv2). split_and!; [done|by exists r1|]. exists r2. rewrite Heq. done.
Qed.
End authority_claims.

(** ** The configuration round trip *)

Lemma le_value_lt b : le_value b < 256 ^ N.of_nat (length b).
Proof.
  induction b as [|d b IH]; [simpl; lia|]. cbn [le_value length].
  rewrite Nat2N.inj_succ, N.pow_succ_r'. pose proof (Byte.to_N_bounded d) as Hd.
  generalize dependent (256 ^ N.of_nat (length b)). intros q Hq. lia.
Qed.

Definition topology_ok (t : Topology) : Prop :=
  match t with
  | TSingleKey a => sk_coordinator a < bytes32
  | TThresholdKeys a =>
      Forall (λ p, p < bytes32) (tk_members a) ∧ ThresholdKeys_new (tk_members a) (tk_threshold a) = Ok a
  end.

(** What the fields of a configuration hold by their types, and the keysets that
    [ThresholdKeys::new] accepts. *)
Definition config_ok (c : AuthorityConfig) : Prop :=
  cfg_records_channel c < u32_bound ∧ topology_ok (cfg_topology c).

Section config_facts.
Context `{CborValue}.

Lemma decode_peer_encode p : p < bytes32 → decode_peer (Some (v_bytes (be_bytes 32 p))) = Some p.
Proof.
  intros Hp. unfold decode_peer. cbn [mbind option_bind]. rewrite as_bytes_bytes. cbn [mbind option_bind]. unfold be_bytes.
  rewrite length_rev, length_le_bytes, rev_involutive, le_value_le_bytes, <- bytes32_pow, N.mod_small by done.
  done.
Qed.

Lemma decode_peer_lt v p : decode_peer v = Some p → p < bytes32.
Proof.
  unfold decode_peer. destruct (v ≫= as_bytes) as [b|]; simpl; [|done].
  destruct (Nat.eqb_spec (length b) 32) as [Hl|]; [|done]. intros [= <-].
  rewrite bytes32_pow, <- Hl, <- (length_rev b). apply le_value_lt.
Qed.

Lemma as_u32_uint n : n < u32_bound → as_u32 (v_uint n) = Some n.
Proof.
  intros Hn. unfold as_u32. rewrite as_integer_uint by (unfold u32_bound, u64_bound in *; lia).
  cbn [mbind option_bind].
  destruct (Z.leb_spec 0 (Z.of_N n)), (Z.ltb_spec (Z.of_N n) (Z.of_N u32_bound)); try lia.
  cbn [andb]. f_equal. apply N2Z.id.
Qed.

Lemma as_u32_lt v n : as_u32 v = Some n → n < u32_bound.
Proof.
  unfold as_u32. destruct (as_integer v) as [z|]; cbn [mbind option_bind]; [|done].
  destruct (Z.leb_spec 0 z), (Z.ltb_spec z (Z.of_N u32_bound)); cbn [andb]; try done. intros [= <-]. lia.
Qed.

Lemma decode_members_encode ps :
  Forall (λ p, p < bytes32) ps → decode_members ((λ p, v_bytes (be_bytes 32 p)) <$> ps) = Ok ps.
Proof.
  induction 1 as [|p ps Hp _ IH]; [done|]. csimpl. by rewrite decode_peer_encode, IH.
Qed.

Lemma decode_members_lt items ps : decode_members items = Ok ps → Forall (λ p, p < bytes32) ps.
Proof.
  revert ps. induction items as [|it items IH]; intros ps; cbn [decode_members]; [by intros [= <-]|].
  destruct (decode_peer (Some it)) as [p|] eqn:E; [|done].
  destruct (decode_members items) as [ps'|]; intros ?; simplify_eq. constructor; [by eapply decode_peer_lt|by apply IH].
Qed.

Lemma map_get_here entries t v : map_get ((v_text t, v) :: entries) t = Some v.
Proof. cbn [map_get]. by rewrite as_text_text, decide_True. Qed.

Lemma map_get_skip entries t t' v : t ≠ t' → map_get ((v_text t, v) :: entries) t' = map_get entries t'.
Proof. intros Ht. cbn [map_get]. by rewrite as_text_text, decide_False. Qed.

Ltac map_get := repeat (rewrite map_get_here || rewrite map_get_skip by done).

Lemma decode_encode c : config_ok c → config_decode (config_encode c) = Ok c.
Proof.
  destruct c as [[[p]|tk] ch]; intros [Hch Ht]; simpl in Hch, Ht;
    unfold config_decode, config_encode, topology_tag; cbn [cfg_topology app cfg_records_channel sk_coordinator];
    rewrite as_map_map; map_get; simpl; rewrite as_text_text; unfold decode_channel; map_get;
    rewrite as_u32_uint by done.
  - rewrite decide_True by done. unfold decode_single_key. map_get. by rewrite decode_peer_encode.
  - destruct Ht as [Hm Hnew]. rewrite decide_False, decide_True by done. unfold decode_threshold_keys. map_get.
    simpl. rewrite as_array_array, decode_members_encode by done. simpl.
    apply ThresholdKeys_new_ok in Hnew as Hok. rewrite as_u32_uint by apply Hok. by rewrite Hnew.
Qed.

Lemma decode_ok v c : config_decode v = Ok c → config_ok c.
Proof.
  unfold config_decode, config_ok. destruct (as_map v) as [entries|]; [|done].
  destruct (map_get entries (vkey "topology") ≫= as_text) as [tag|]; [|done].
  destruct (decode_channel entries) as [ch|] eqn:Ech; [|done].
  assert (ch < u32_bound) as Hch.
  { unfold decode_channel in Ech. destruct (map_get entries _); [by eapply as_u32_lt|by injection Ech as <-]. }
  cbv zeta. case_decide; [|case_decide; [|done]].
  - unfold decode_single_key. destruct (decode_peer _) as [p|] eqn:Ep; [|done]. intros [= <-]. simpl.
    split; [done|by eapply decode_peer_lt].
  - unfold decode_threshold_keys. destruct (map_get entries (vkey "members") ≫= as_array) as [items|]; [|done].
    destruct (decode_members items) as [ps|] eqn:Eps; [|done].
    destruct (map_get entries (vkey "threshold") ≫= as_u32) as [m|]; [|done].
    destruct (ThresholdKeys_new ps m) as [tk|] eqn:Etk; [|done]. intros [= <-]. simpl.
    split; [done|]. apply ThresholdKeys_new_ok in Etk as Hok. destruct Hok as [-> _].
    split; [by eapply decode_members_lt|done].
Qed.

(** C40. Decoding inverts encoding on every well-formed configuration, and
    every value that decodes gives a well-formed one: a channel of 32 bits, keys
    of 32 bytes, distinct members and a threshold between one and their number. *)
Theorem config_roundtrip :
  (∀ c, config_ok c → config_decode (config_encode c) = Ok c) ∧
  (∀ v c, config_decode v = Ok c →
    cfg_records_channel c < u32_bound ∧
    match cfg_topology c with
    | TSingleKey a => sk_coordinator a < bytes32
    | TThresholdKeys a =>
        Forall (λ p, p < bytes32) (tk_members a) ∧ NoDup (tk_members a) ∧
        0 < tk_threshold a ≤ N.of_nat (length (tk_members a))
    end).
Proof.
  split; [exact decode_encode|]. intros v c [Hch Ht]%decode_ok. split; [done|].
  destruct (cfg_topology c) as [a|a]; [done|]. destruct Ht as [Hm Hnew].
  apply ThresholdKeys_new_ok in Hnew as (_ & ? & ? & _ & ?). done.
Qed.
End config_facts.

(** ** Record sets and their order *)

Definition record_entry_le (a b : RecordEntry) : Prop :=
  re_peer a < re_peer b ∨ (re_peer a = re_peer b ∧
    (re_hash a < re_hash b ∨ (re_hash a = re_hash b ∧ re_size a ≤ re_size b))).

#[export] Instance record_entry_le_trans : Transitive record_entry_le.
Proof. intros a b c. unfold record_entry_le. lia. Qed.

#[export] Instance record_entry_le_antisym : AntiSymm (=) record_entry_le.
Proof. intros [a a' a''] [b b' b'']. unfold record_entry_le. simpl. intros. f_equal; lia. Qed.

Lemma record_entry_leb_spec a b : record_entry_leb a b = true ↔ record_entry_le a b.
Proof.
  unfold record_entry_leb, record_entry_le.
  destruct (N.compare_spec (re_peer a) (re_peer b)), (N.compare_spec (re_hash a) (re_hash b));
    rewrite ?N.leb_le; split; intros; try lia; done.
Qed.

(** The object depends on the set of entries only, so its address does too. *)
Lemma RecordSet_new_ext l k : (∀ e, e ∈ l ↔ e ∈ k) → RecordSet_new l = RecordSet_new k.
Proof.
  intros Hext. unfold RecordSet_new. f_equal.
  assert (∀ es, StronglySorted record_entry_le (sort_by record_entry_leb es)) as Hs.
  { intros es. apply sort_by_sorted; [apply _|by intros ?? ?%record_entry_leb_spec|].
    intros x y Hxy. assert (¬ record_entry_le x y) as Hn by (rewrite <- record_entry_leb_spec; congruence).
    unfold record_entry_le in *. lia. }
  destruct (dedup_sorted record_entry_le _ (Hs l)), (dedup_sorted record_entry_le _ (Hs k)).
  apply (sorted_nodup_ext record_entry_le); try done. intros e. by rewrite !elem_of_dedup, !sort_by_perm.
Qed.

Section record_facts.
Context `{Crypto}.

Definition record_ok (entries : list RecordEntry) : Prop := Forall entry_ok (record_pairs entries).

Lemma find_pair inline e :
  e ∈ record_pairs inline →
  ∃ r, List.find (λ r, (re_peer r =? e.1) && (re_hash r =? e.2)) inline = Some r ∧ (re_peer r, re_hash r) = e.
Proof.
  destruct e as [p h]. intros (r & Heq & Hr)%list_elem_of_fmap. simpl.
  destruct (List.find _ inline) as [r'|] eqn:E.
  - apply List.find_some in E as [_ [?%N.eqb_eq ?%N.eqb_eq]%andb_true_iff]. exists r'. simplify_eq. done.
  - apply List.find_none with (x := r) in E; [|by apply list_elem_of_In].
    injection Heq as -> ->. by rewrite !N.eqb_refl in E.
Qed.

Lemma verify_record_set_pairs rr es :
  verify_record_set rr = Some es →
  ∃ inline, rr_inline rr = Some inline ∧
    record_pairs es = sct_entries (commit_set (record_pairs inline)) ∧
    root (commit_set (record_pairs inline)) = sc_root (rr_set rr).
Proof.
  unfold verify_record_set. destruct (rr_inline rr) as [inline|]; cbn [mbind option_bind]; [|done]. cbv zeta.
  destruct (N.eqb_spec (sc_root (commitment (commit_set (record_pairs inline)))) (sc_root (rr_set rr))) as [Hr|];
    cbn [negb orb]; [|done].
  destruct (_ =? _); cbn [negb]; [|done]. intros [= <-]. exists inline. split_and!; [done| |done].
  assert (∀ l, (∀ e, e ∈ l → e ∈ record_pairs inline) →
    record_pairs (omap (λ e, List.find (λ r, (re_peer r =? e.1) && (re_hash r =? e.2)) inline) l) = l) as Hall.
  { induction l as [|e l IH]; intros Hl; csimpl; [done|].
    destruct (find_pair inline e) as (r & -> & Hr'); [apply Hl; by left|]. unfold record_pairs in *. csimpl.
    rewrite IH; [by rewrite Hr'|]. intros e' He'. apply Hl. by right. }
  apply Hall. intros e. by rewrite elem_of_entries.
Qed.

(** The byte strings hashed to commit to a list of entries. *)
Definition record_inputs (entries : list RecordEntry) : list bytes := tree_inputs (commit_set (record_pairs entries)).

(** Two records with one root resolve to one list of pairs. *)
Lemma verify_record_set_agree rr1 rr2 es1 es2 inline1 inline2 :
  verify_record_set rr1 = Some es1 → verify_record_set rr2 = Some es2 →
  rr_inline rr1 = Some inline1 → rr_inline rr2 = Some inline2 → record_ok inline1 → record_ok inline2 →
  sc_root (rr_set rr1) = sc_root (rr_set rr2) →
  record_pairs es1 = record_pairs es2 ∨ collision_in (record_inputs inline1 ++ record_inputs inline2).
Proof.
  intros (l1 & E1 & P1 & R1)%verify_record_set_pairs (l2 & E2 & P2 & R2)%verify_record_set_pairs ?? O1 O2 Hr.
  simplify_eq. destruct (root_binding _ _ O1 O2) as [Hext|?]; [congruence| |by right].
  left. by rewrite P1, P2, (commit_set_ext _ _ Hext).
Qed.

(** Two fetched record-set objects that verify against one signed
    commitment list the same (peer, payload) pairs, unless committing to the two
    lists has hashed two different byte strings to one value. *)
Theorem record_set_binding s1 s2 c :
  record_ok (rset_entries s1) → record_ok (rset_entries s2) →
  verify_against s1 c = Ok tt → verify_against s2 c = Ok tt →
  (∀ p, p ∈ record_pairs (rset_entries s1) ↔ p ∈ record_pairs (rset_entries s2)) ∨
  collision_in (record_inputs (rset_entries s1) ++ record_inputs (rset_entries s2)).
Proof.
  unfold verify_against. intros O1 O2 H1 H2. destruct (decide (RecordSet_commitment s1 = c)) as [<-|]; [|done].
  destruct (decide (RecordSet_commitment s2 = RecordSet_commitment s1)) as [Heq|]; [|done].
  apply root_binding; [done..|]. by injection Heq as -> _.
Qed.
End record_facts.

(** ** The mint *)

Section mint_facts.
Context `{Crypto}.

Lemma mint_items_pairs {T} `{PayloadSource T bytes} round entries (src src' : T) items :
  mint_items round entries src = (Ok items, src') →
  ((λ i, (ci_peer i, ci_hash i)) <$> items) = record_pairs entries ∧
  Forall (λ i, blake3_hash (ci_bytes i) = ci_hash i) items.
Proof.
  revert src items. induction entries as [|e entries IH]; intros src items; cbn [mint_items].
  { intros ?. simplify_eq. by split. }
  destruct (payload src round (re_peer e)) as [[b|] src1]; [|done].
  case_decide as Hc; [done|]. destruct (mint_items round entries src1) as [[its|er] src2] eqn:E; [|done].
  intros ?. simplify_eq. destruct (IH _ _ E) as [Hp Hf]. unfold record_pairs in *. csimpl. rewrite Hp.
  split; [done|]. constructor; [|done]. simpl in Hc. by destruct (N.eqb_spec (blake3_hash b) (re_hash e)).
Qed.

Lemma items_agree (l k : list (CommittedItem bytes)) :
  ((λ i, (ci_peer i, ci_hash i)) <$> l) = ((λ i, (ci_peer i, ci_hash i)) <$> k) →
  Forall (λ i, blake3_hash (ci_bytes i) = ci_hash i) l →
  Forall (λ i, blake3_hash (ci_bytes i) = ci_hash i) k →
  l = k ∨ collision_in ((ci_bytes <$> l) ++ (ci_bytes <$> k)).
Proof.
  intros Heq Hl Hk.
  assert (∀ its : list (CommittedItem bytes), Forall (λ i, blake3_hash (ci_bytes i) = ci_hash i) its →
    blake3_hash <$> (ci_bytes <$> its) = ((λ i, (ci_peer i, ci_hash i)) <$> its).*2) as Hb.
  { intros its Hi. induction Hi as [|i its Hi _ IH]; [done|]. csimpl. by rewrite Hi, IH. }
  destruct (hashes_inj ((ci_bytes <$> l) ++ (ci_bytes <$> k)) (ci_bytes <$> l) (ci_bytes <$> k)) as [Hbs|?];
    [set_solver|set_solver|by rewrite !Hb, Heq| |by right]. left. clear Hl Hk Hb.
  revert k Heq Hbs. induction l as [|i l IH]; intros [|j k] Heq Hbs; [done..|]. csimpl in *.
  apply cons_inj in Heq as [Hp Heq], Hbs as [Hb Hbs]. rewrite (IH k) by done.
  f_equal. destruct i, j. by simplify_eq/=.
Qed.

(** C22. Two nodes that mint the committed set of a round from records with one
    signed root obtain the same items in the same order, whatever the order of the
    inline lists and wherever the payloads came from, unless checking the records
    and payloads has hashed two different byte strings to one value. *)
Theorem committed_agreement {S1 S2} `{PayloadSource S1 bytes, PayloadSource S2 bytes} rr1 rr2 inline1 inline2
    es1 es2 a1 a2 round (src1 src1' : S1) (src2 src2' : S2) c1 c2 :
  sc_root (rr_set rr1) = sc_root (rr_set rr2) →
  rr_inline rr1 = Some inline1 → rr_inline rr2 = Some inline2 → record_ok inline1 → record_ok inline2 →
  verify_record_set rr1 = Some es1 → verify_record_set rr2 = Some es2 →
  mint a1 round es1 src1 = (Ok c1, src1') → mint a2 round es2 src2 = (Ok c2, src2') →
  com_items c1 = com_items c2 ∨
  collision_in (record_inputs inline1 ++ record_inputs inline2 ++
    (ci_bytes <$> com_items c1) ++ (ci_bytes <$> com_items c2)).
Proof.
  intros Hr I1 I2 O1 O2 V1 V2 M1 M2. unfold mint in M1, M2.
  destruct (mint_items round es1 src1) as [[l1|] ?] eqn:E1; [|done].
  destruct (mint_items round es2 src2) as [[l2|] ?] eqn:E2; [|done]. simplify_eq. simpl.
  apply mint_items_pairs in E1 as [P1 F1], E2 as [P2 F2].
  destruct (verify_record_set_agree rr1 rr2 es1 es2 inline1 inline2) as [Heq|?]; try done.
  - destruct (items_agree l1 l2) as [?|Hc]; [congruence|done|done|by left|right].
    eapply collision_mono; [|exact Hc]. set_solver.
  - right. eapply collision_mono; [|done]. set_solver.
Qed.
End mint_facts.

Section mint_map.
Context {P : Type} `{PayloadRepr P} (m : gmap (N * PeerId) P) (round : N).

(** The payload of an entry is at hand and not refuted by its hash. *)
Definition payload_good (e : RecordEntry) (b : P) : Prop :=
  m !! (round, re_peer e) = Some b ∧ payload_check b (re_hash e) ≠ PMismatch.

Definition mints (entries : list RecordEntry) (items : list (CommittedItem P)) : Prop :=
  Forall2 (λ e i, ci_peer i = re_peer e ∧ ci_hash i = re_hash e ∧ payload_good e (ci_bytes i)) entries items.

(** The first entry that fails: everything before it would have been minted. *)
Definition first_failure (entries : list RecordEntry) (p : PeerId) (fails : RecordEntry → Prop) : Prop :=
  ∃ pre e post, entries = pre ++ e :: post ∧ (∃ items, mints pre items) ∧ re_peer e = p ∧ fails e.

Lemma first_failure_cons e b entries p fails :
  payload_good e b → first_failure entries p fails → first_failure (e :: entries) p fails.
Proof.
  intros Hb (pre & e' & post & -> & (items & Hi) & Hp & Hf). exists (e :: pre), e', post.
  split_and!; [done| |done|done]. exists (mkCommittedItem (re_peer e) (re_hash e) b :: items). by constructor.
Qed.

Lemma first_failure_here e entries (fails : RecordEntry → Prop) :
  fails e → first_failure (e :: entries) (re_peer e) fails.
Proof. intros Hf. exists [], e, entries. split_and!; [done| |done|done]. exists []. constructor. Qed.

Lemma mint_items_map entries :
  match mint_items round entries m with
  | (Ok items, m') => mints entries items ∧ m' = m
  | (Err (MissingPayload p), m') => first_failure entries p (λ e, m !! (round, re_peer e) = None) ∧ m' = m
  | (Err (HashMismatch p), m') =>
      first_failure entries p (λ e, ∃ b, m !! (round, re_peer e) = Some b ∧ payload_check b (re_hash e) = PMismatch) ∧ m' = m
  end.
Proof.
  induction entries as [|e entries IH]; cbn [mint_items]; [by repeat constructor|].
  cbn [payload map_source]. destruct (m !! (round, re_peer e)) as [b|] eqn:Eb.
  2:{ split; [|done]. by apply first_failure_here. }
  case_decide as Hc; [split; [|done]; apply first_failure_here; eauto|].
  destruct (mint_items round entries m) as [[items|[p|p]] m'] eqn:E; destruct IH as [IH ->]; (split; [|done]).
  - constructor; [|done]. by split_and!.
  - by eapply first_failure_cons.
  - by eapply first_failure_cons.
Qed.

(** The mint is all or nothing: it returns one item per listed entry, in
    the listed order, with the payload at hand and not refuted, under the channel
    of the token; or it names the first entry whose payload is missing or does not
    hash to the listed value, everything before that entry being good. *)
Theorem mint_exact a entries :
  match mint a round entries m with
  | (Ok c, m') => mints entries (com_items c) ∧ com_channel c = au_channel a ∧ m' = m
  | (Err (MissingPayload p), m') => first_failure entries p (λ e, m !! (round, re_peer e) = None) ∧ m' = m
  | (Err (HashMismatch p), m') =>
      first_failure entries p (λ e, ∃ b, m !! (round, re_peer e) = Some b ∧ payload_check b (re_hash e) = PMismatch) ∧ m' = m
  end.
Proof.
  unfold mint. pose proof (mint_items_map entries) as Hm.
  destruct (mint_items round entries m) as [[items|[p|p]] m']; naive_solver.
Qed.
End mint_map.

(** ** Concrete instances *)

(** A value type with the constructors the codec uses. *)
Inductive ToyValue :=
| ToyText (t : bytes) | ToyBytes (b : bytes) | ToyInt (z : Z) | ToyArray (l : list ToyValue)
| ToyMap (m : list (ToyValue * ToyValue)).

Definition toy_value : CborValue.
Proof.
  refine {|
    Value := ToyValue;
    v_text := ToyText; v_bytes := ToyBytes; v_uint n := ToyInt (Z.of_N n); v_array := ToyArray; v_map := ToyMap;
    as_text v := match v with ToyText t => Some t | _ => None end;
    as_bytes v := match v with ToyBytes b => Some b | _ => None end;
    as_integer v := match v with ToyInt z => Some z | _ => None end;
    as_array v := match v with ToyArray l => Some l | _ => None end;
    as_map v := match v with ToyMap m => Some m | _ => None end
  |}; done.
Defined.

Definition toy_config : AuthorityConfig :=
  mkAuthorityConfig (TThresholdKeys (mkThresholdKeys [4; 2; 3] 2)) 7.

Lemma config_roundtrip_witness :
  @config_decode toy_value (@config_encode toy_value toy_config) = Ok toy_config.
Proof.
  apply (@config_roundtrip toy_value). split; [by vm_compute|]. split; [by repeat constructor|by vm_compute].
Defined.

(** Signatures of the members [k + 1], and two records. *)
Definition toy_rsig (k : SigningKey) (b : bytes) : RecordSig :=
  mkRecordSig (@peer_id toy_crypto k) (@ed25519_sign toy_crypto k b).

Definition toy_record_a : bytes := string_bytes "a".
Definition toy_record_b : bytes := string_bytes "b".

Lemma authority_quorum_witness :
  ∃ common, NoDup common ∧ 2 * 2 ≤ 3 + N.of_nat (length common) ∧
    Forall (λ p, p ∈ [4; 2; 3] ∧
      (∃ r, r ∈ [toy_rsig 1 toy_record_a; toy_rsig 2 toy_record_a] ∧ rsig_signer r = p ∧ @verify_sig toy_crypto p (rsig_sig r) toy_record_a = VerifyValid) ∧
      (∃ r, r ∈ [toy_rsig 2 toy_record_b; toy_rsig 3 toy_record_b] ∧ rsig_signer r = p ∧ @verify_sig toy_crypto p (rsig_sig r) toy_record_b = VerifyValid)) common.
Proof.
  eapply (@authority_quorum toy_crypto [4; 2; 3] 2 (mkThresholdKeys [4; 2; 3] 2) 0 0 toy_record_a toy_record_b
    [toy_rsig 1 toy_record_a; toy_rsig 2 toy_record_a] [toy_rsig 2 toy_record_b; toy_rsig 3 toy_record_b]);
    by vm_compute.
Defined.

(** One faulty signer of three, as many as [n - m], suffices for two conflicting
    authorized records under a 2-of-3 keyset. *)
Example one_fault_of_three :
  ThresholdKeys_new [4; 2; 3] 2 = Ok (mkThresholdKeys [4; 2; 3] 2) ∧
  @ThresholdKeys_authorize toy_crypto (mkThresholdKeys [4; 2; 3] 2) 0 toy_record_a
    [toy_rsig 1 toy_record_a; toy_rsig 2 toy_record_a] = Ok (mkAuthorized 0) ∧
  @ThresholdKeys_authorize toy_crypto (mkThresholdKeys [4; 2; 3] 2) 0 toy_record_b
    [toy_rsig 2 toy_record_b; toy_rsig 3 toy_record_b] = Ok (mkAuthorized 0).
Proof. by vm_compute. Qed.

(** A key given as an array of integers does not decode. *)
Example decode_peer_array (l : list ToyValue) : @decode_peer toy_value (Some (ToyArray l)) = None.
Proof. done. Qed.

Definition toy_entries : list RecordEntry :=
  [mkRecordEntry 3 (toy_hash toy_record_a) 1; mkRecordEntry 2 (toy_hash toy_record_b) 1].

Definition toy_record (inline : option (list RecordEntry)) : RoundRecord :=
  mkRoundRecord 5 (@RecordSet_commitment toy_crypto (mkRecordSet toy_entries)) [] 9 (StoreKey "set") inline.

Definition toy_payloads : gmap (N * PeerId) bytes := {[ (5, 3) := toy_record_a; (5, 2) := toy_record_b ]}.

Lemma record_set_binding_witness :
  ∀ p, p ∈ record_pairs toy_entries ↔ p ∈ record_pairs (rev toy_entries).
Proof.
  destruct (@record_set_binding toy_crypto (mkRecordSet toy_entries) (mkRecordSet (rev toy_entries))
    (@RecordSet_commitment toy_crypto (mkRecordSet toy_entries))) as [Heq|Hc];
    [by repeat constructor|by repeat constructor|by vm_compute|by vm_compute|exact Heq|].
  apply (bool_decide_pack _) in Hc. exfalso. revert Hc. by vm_compute.
Defined.

Lemma committed_agreement_witness :
  ∃ c1 c2 : Committed bytes,
    com_items c1 = com_items c2 ∧ length (com_items c1) = 2%nat.
Proof.
  eexists _, _. split; [|shelve].
  edestruct (@committed_agreement toy_crypto _ _ map_source map_source
    (toy_record (Some toy_entries)) (toy_record (Some (rev toy_entries)))
    toy_entries (rev toy_entries) (rev toy_entries) (rev toy_entries) (mkAuthorized 0) (mkAuthorized 1) 5
    toy_payloads toy_payloads toy_payloads toy_payloads) as [Heq|Hc];
    [done|done|done|by repeat constructor|by repeat constructor|by vm_compute|by vm_compute|by vm_compute|by vm_compute
    |exact Heq|]. apply (bool_decide_pack _) in Hc. exfalso. revert Hc. by vm_compute.
  Unshelve. done.
Defined.

(** Without an inline list the entries are used in the order of the fetched
    object, which [verify_against] does not constrain: two peers can resolve one
    record to different orders. *)
Example object_order_unchecked :
  @resolve_record_set toy_crypto (toy_record None) (Some (mkRecordSet toy_entries)) = Some toy_entries ∧
  @resolve_record_set toy_crypto (toy_record None) (Some (mkRecordSet (rev toy_entries))) = Some (rev toy_entries).
Proof. by vm_compute. Qed.
