(* ===== verification/VhcLcg.v ===== *)
(** * The generator has full period, so rejection sampling ends

    The state follows [x ↦ a x + c] modulo [2^64] with [c] odd and [a ≡ 1] modulo
    four.  After [n] steps the state has moved by [((a - 1) x + c) S_n], where
    [S_n] is the sum of the first [n] powers of [a]; the first factor is odd and
    [2^k] divides [S_n] only if it divides [n].  So no state repeats within
    [2^64] steps. *)

From Stdlib Require Import ZArith Znumtheory.
From S2P Require Import Prelude Text VhcProto VhcMerkle VhcMessages VhcAssignment.

#[local] Open Scope Z_scope.

(** ** Geometric sums *)

Fixpoint geo (a : Z) (n : nat) : Z :=
  match n with
  | O => 0
  | S n' => a * geo a n' + 1
  end.

Lemma geo_pow a n : (a - 1) * geo a n = a ^ Z.of_nat n - 1.
Proof.
  induction n as [|n IH]; [simpl; lia|]. rewrite Nat2Z.inj_succ, Z.pow_succ_r by lia.
  cbn [geo]. replace (a ^ Z.of_nat n) with ((a - 1) * geo a n + 1) by lia. ring.
Qed.

Lemma geo_add a n m : geo a (n + m) = geo a n * a ^ Z.of_nat m + geo a m.
Proof.
  induction n as [|n IH]; [simpl; lia|]. simpl Nat.add. cbn [geo]. rewrite IH. 
  pose proof (geo_pow a m) as Hm. replace (a ^ Z.of_nat m) with ((a - 1) * geo a m + 1) by lia. ring.
Qed.

Lemma pow_mod4 a n : a mod 4 = 1 → a ^ Z.of_nat n mod 4 = 1.
Proof.
  intros Ha. induction n as [|n IH]; [done|]. rewrite Nat2Z.inj_succ, Z.pow_succ_r by lia.
  by rewrite Z.mul_mod, Ha, IH by lia.
Qed.

Lemma geo_parity a n : a mod 4 = 1 → geo a n mod 2 = Z.of_nat n mod 2.
Proof.
  intros Ha. assert (a mod 2 = 1) as H2.
  { pose proof (Z.div_mod a 4 ltac:(lia)). rewrite Ha in *. symmetry. apply (Z.mod_unique _ _ (2 * (a / 4))); lia. }
  induction n as [|n IH]; [done|]. cbn [geo].
  rewrite Z.add_mod, Z.mul_mod, H2, IH, Nat2Z.inj_succ by lia. unfold Z.succ.
  rewrite (Z.add_mod (Z.of_nat n) 1 2), Z.mul_1_l, Z.mod_mod by lia. done.
Qed.

Lemma mod2_cases x : x mod 2 = 0 ∨ x mod 2 = 1.
Proof. pose proof (Z.mod_pos_bound x 2 ltac:(lia)). lia. Qed.

Lemma pow2_S k : 2 ^ Z.of_nat (S k) = 2 * 2 ^ Z.of_nat k.
Proof. rewrite Nat2Z.inj_succ. apply Z.pow_succ_r. lia. Qed.

(** A power of two divides a multiple by an odd number only if it divides the
    other factor. *)
Lemma pow2_divide_odd k x y : y mod 2 = 1 → (2 ^ Z.of_nat k | x * y) → (2 ^ Z.of_nat k | x).
Proof.
  intros Hy. revert x. induction k as [|k IH]; intros x Hd; [apply Z.divide_1_l|].
  assert (x mod 2 = 0) as Hx.
  { assert ((x * y) mod 2 = 0) as H0.
    { apply Z.mod_divide; [lia|]. etransitivity; [|exact Hd]. rewrite pow2_S. apply Z.divide_factor_l. }
    rewrite Z.mul_mod, Hy in H0 by lia. destruct (mod2_cases x) as [Hx|Hx]; rewrite Hx in H0; done. }
  pose proof (Z.div_mod x 2 ltac:(lia)) as Hxd. rewrite Hx, Z.add_0_r in Hxd.
  rewrite Hxd, pow2_S in *. apply Z.mul_divide_mono_l, IH.
  apply (Z.mul_divide_cancel_l _ _ 2); [lia|]. by rewrite Z.mul_assoc.
Qed.

Lemma geo_divide a k n :
  a mod 4 = 1 → (2 ^ Z.of_nat k | geo a n) → (2 ^ Z.of_nat k | Z.of_nat n).
Proof.
  intros Ha. revert n. induction k as [|k IH]; intros n Hd; [apply Z.divide_1_l|].
  assert (Z.of_nat n mod 2 = 0) as Hn.
  { rewrite <- (geo_parity a) by done.
    apply Z.mod_divide; [lia|]. etransitivity; [|exact Hd]. rewrite pow2_S. apply Z.divide_factor_l. }
  assert (∃ m, n = (m + m)%nat) as [m ->].
  { pose proof (Z.div_mod (Z.of_nat n) 2 ltac:(lia)) as Hd2. rewrite Hn in Hd2.
    exists (Z.to_nat (Z.of_nat n / 2)). generalize dependent (Z.of_nat n / 2). intros q Hq. lia. }
  rewrite geo_add in Hd. replace (geo a m * a ^ Z.of_nat m + geo a m) with (geo a m * (a ^ Z.of_nat m + 1)) in Hd by ring.
  pose proof (pow_mod4 a m Ha) as H4. pose proof (Z.div_mod (a ^ Z.of_nat m) 4 ltac:(lia)) as Hq.
  set (q := a ^ Z.of_nat m / 4) in *. rewrite H4 in Hq.
  replace (geo a m * (a ^ Z.of_nat m + 1)) with (2 * (geo a m * (2 * q + 1))) in Hd by (rewrite Hq; ring).
  rewrite pow2_S in *. apply Z.mul_divide_cancel_l in Hd; [|lia].
  apply pow2_divide_odd in Hd; [|by rewrite Z.add_comm, Z.mul_comm, Z_mod_plus_full].
  replace (Z.of_nat (m + m)) with (2 * Z.of_nat m) by lia. by apply Z.mul_divide_mono_l, IH.
Qed.

(** ** The orbit *)

Definition step64 (x : Z) : Z := (x * Z.of_N LCG_MULT + Z.of_N LCG_INCR) mod 2 ^ 64.

Lemma next_u64_step r : Z.of_N (next_u64 r).1 = step64 (Z.of_N (lcg_state r)).
Proof.
  unfold next_u64, step64, wrap64. simpl fst. rewrite N.Div0.add_mod_idemp_l.
  rewrite N2Z.inj_mod, N2Z.inj_add, N2Z.inj_mul. done.
Qed.

Lemma orbit_formula n x :
  Nat.iter n step64 x mod 2 ^ 64 =
    (Z.of_N LCG_MULT ^ Z.of_nat n * x + Z.of_N LCG_INCR * geo (Z.of_N LCG_MULT) n) mod 2 ^ 64.
Proof.
  induction n as [|n IH]; [simpl; f_equal; lia|].
  change (Nat.iter (S n) step64 x) with (step64 (Nat.iter n step64 x)). unfold step64 at 1.
  rewrite Z.mod_mod, Z.add_mod, Z.mul_mod, IH by lia.
  rewrite <- Z.mul_mod, <- Z.add_mod by lia. f_equal. cbn [geo].
  rewrite Nat2Z.inj_succ, Z.pow_succ_r by lia. ring.
Qed.

(** No state repeats within [2^64] steps. *)
Lemma orbit_no_return n x :
  (0 < n)%nat → Z.of_nat n < 2 ^ 64 → Nat.iter n step64 x mod 2 ^ 64 ≠ x mod 2 ^ 64.
Proof.
  intros Hn Hb Heq. rewrite orbit_formula in Heq.
  set (a := Z.of_N LCG_MULT) in *. set (c := Z.of_N LCG_INCR) in *.
  assert ((2 ^ 64 | geo a n * ((a - 1) * x + c))) as Hd.
  { apply Z.mod_divide; [lia|].
    replace (geo a n * ((a - 1) * x + c)) with (a ^ Z.of_nat n * x + c * geo a n - x)
      by (pose proof (geo_pow a n) as Hg; replace (a ^ Z.of_nat n) with ((a - 1) * geo a n + 1) by lia; ring).
    rewrite Zminus_mod, Heq, Z.sub_diag. done. }
  apply (pow2_divide_odd 64) in Hd.
  - apply (geo_divide a 64) in Hd; [|by vm_compute]. apply Z.divide_pos_le in Hd; simpl Z.of_nat in *; lia.
  - rewrite Z.add_mod, Z.mul_mod by lia. by vm_compute.
Qed.

Lemma step64_range x : 0 <= step64 x < 2 ^ 64.
Proof. apply Z.mod_pos_bound. lia. Qed.

Lemma iter_add {A} (f : A → A) n m x : Nat.iter (n + m) f x = Nat.iter n f (Nat.iter m f x).
Proof. induction n; simpl; congruence. Qed.

Lemma orbit_distinct i j x :
  (i < j)%nat → Z.of_nat j < 2 ^ 64 → Nat.iter (S i) step64 x ≠ Nat.iter (S j) step64 x.
Proof.
  intros Hij Hj Heq. apply (orbit_no_return (j - i) (Nat.iter (S i) step64 x)); [lia..|].
  rewrite <- iter_add. replace (j - i + S i)%nat with (S j) by lia. by rewrite Heq.
Qed.

(** A loop that runs out of fuel drew only rejected values. *)
Lemma below_loop_None fuel bound zone r :
  below_loop fuel bound zone r = None →
  ∀ i, (i < fuel)%nat → Z.of_N zone <= Nat.iter (S i) step64 (Z.of_N (lcg_state r)).
Proof.
  revert r. induction fuel as [|fuel IH]; intros r Hr i Hi; [lia|]. simpl in Hr.
  destruct (N.ltb_spec (wrap64 (wrap64 (lcg_state r * LCG_MULT) + LCG_INCR)) zone) as [|Hz]; [done|].
  pose proof (next_u64_step r) as Hn. simpl in Hn. destruct i as [|i].
  - simpl. rewrite <- Hn. lia.
  - specialize (IH _ Hr i ltac:(lia)). simpl lcg_state in IH. rewrite Hn in IH.
    by rewrite <- Nat.iter_succ_r in IH.
Qed.

Lemma below_loop_Some fuel bound zone r x r' :
  below_loop fuel bound zone r = Some (x, r') → (0 < bound)%N → (x < bound)%N ∧ (lcg_state r' < u64_bound)%N.
Proof.
  intros Hl Hb. revert r Hl. induction fuel as [|fuel IH]; intros r Hl; [done|]. simpl in Hl.
  case_match; [|eauto]. simplify_eq/=. split; [apply N.mod_lt; lia|apply wrap64_bound].
Qed.

Lemma below_loop_fuel fuel fuel' bound zone r v :
  below_loop fuel bound zone r = Some v → (fuel ≤ fuel')%nat → below_loop fuel' bound zone r = Some v.
Proof.
  revert fuel' r. induction fuel as [|fuel IH]; intros [|fuel'] r Hl Hf; try done; [lia|].
  simpl in *. case_match; [done|]. apply IH; [done|lia].
Qed.

Lemma zone_large bound : (0 < bound)%N → (u64_bound ≤ below_zone bound + bound)%N.
Proof.
  intros Hb. unfold below_zone. pose proof (N.mod_lt (u64_bound - 1) bound ltac:(lia)).
  pose proof (N.Div0.mod_le (u64_bound - 1) bound). unfold u64_bound in *.
  generalize dependent ((18446744073709551616 - 1) mod bound)%N. lia.
Qed.

Lemma below_loop_returns bound r :
  (0 < bound)%N → (bound < u64_bound)%N →
  is_Some (below_loop (S (N.to_nat bound)) bound (below_zone bound) r).
Proof.
  intros Hb Hlt. apply not_eq_None_Some. intros Hnone.
  pose proof (below_loop_None _ _ _ _ Hnone) as Hrej. set (x0 := Z.of_N (lcg_state r)) in *.
  set (draws := (λ i, Nat.iter (S i) step64 x0) <$> seq 0 (S (N.to_nat bound))).
  set (rejected := (λ i, Z.of_N (below_zone bound) + Z.of_nat i) <$> seq 0 (N.to_nat bound)).
  assert (NoDup draws) as Hnd.
  { apply NoDup_fmap_2_strong; [|apply NoDup_seq]. intros i j Hi Hj Heq.
    apply elem_of_seq in Hi, Hj. unfold u64_bound in Hlt.
    destruct (Nat.lt_trichotomy i j) as [Hij|[?|Hij]]; [|done|]; exfalso.
    - apply (orbit_distinct i j x0); [lia|lia|done].
    - apply (orbit_distinct j i x0); [lia|lia|done]. }
  assert (draws ⊆ rejected) as Hsub.
  { intros v Hv. apply list_elem_of_fmap in Hv as (i & -> & Hi). apply elem_of_seq in Hi.
    specialize (Hrej i ltac:(lia)). pose proof (step64_range (Nat.iter i step64 x0)) as Hr.
    change (Nat.iter (S i) step64 x0) with (step64 (Nat.iter i step64 x0)) in *.
    pose proof (zone_large bound Hb). unfold u64_bound in *.
    apply list_elem_of_fmap. exists (Z.to_nat (step64 (Nat.iter i step64 x0) - Z.of_N (below_zone bound))).
    rewrite elem_of_seq. lia. }
  apply (NoDup_submseteq draws) in Hsub; [|done]. apply submseteq_length in Hsub.
  unfold draws, rejected in Hsub. rewrite !length_fmap, !length_seq in Hsub. lia.
Qed.

(** From every generator state, rejection sampling below a positive [u64]
    bound accepts within [bound + 1] draws, whatever fuel above that it is
    given, and its result is below the bound. *)
Theorem below_terminates bound r :
  (0 < bound)%N → (bound < u64_bound)%N →
  ∃ x r', (x < bound)%N ∧ below r bound = (x, r') ∧
    ∀ fuel, (S (N.to_nat bound) ≤ fuel)%nat → below_loop fuel bound (below_zone bound) r = Some (x, r').
Proof.
  intros Hb Hlt. destruct (below_loop_returns bound r Hb Hlt) as [[x r'] Hl]. exists x, r'. split_and!.
  - by eapply below_loop_Some.
  - unfold below. by rewrite Hl.
  - intros fuel. by apply below_loop_fuel.
Qed.

(** The first draw from this state is [2^64 - 1], which is rejected. *)
Lemma below_terminates_witness :
  below_loop 1 6 (below_zone 6) (mkLcg 15635871386175874928) = None ∧ ((below (mkLcg 15635871386175874928) 6).1 < 6)%N.
Proof.
  split; [by vm_compute|].
  destruct (below_terminates 6 (mkLcg 15635871386175874928)) as (x & r' & Hx & Hb & _); [done|done|].
  by rewrite Hb.
Defined.

(** A draw below a positive bound. *)
Lemma below_lt bound r : (0 < bound)%N → (bound < u64_bound)%N → ((below r bound).1 < bound)%N.
Proof.
  intros Hb Hlt. destruct (below_loop_returns bound r Hb Hlt) as [[x r'] Hl].
  unfold below. rewrite Hl. by eapply below_loop_Some.
Qed.
