(* ===== verification/VhcCommittee.v ===== *)
(** * Committees, quorums and elections

    What every peer derives from a roster and a seed: the committee depends on
    the set of peers only, quorums of witnesses intersect, and the publisher of
    checkpoints changes from slot to slot. *)

From S2P Require Import Prelude Text VhcProto VhcMerkle VhcMessages VhcAssignment VhcLcg.

#[local] Open Scope N_scope.
#[local] Open Scope daemon_scope.

(** ** Canonical rosters *)

#[local] Instance N_le_trans : Transitive N.le.
Proof. intros x y z. lia. Qed.
#[local] Instance N_le_antisymm : AntiSymm (=) N.le.
Proof. intros x y. lia. Qed.

Lemma canonical_sorted l : StronglySorted N.le (canonical l) ∧ NoDup (canonical l).
Proof. apply dedup_sort_N. Qed.

Lemma elem_of_canonical x l : x ∈ canonical l ↔ x ∈ l.
Proof. unfold canonical. rewrite elem_of_dedup. by rewrite sort_by_perm. Qed.

Lemma canonical_ext l k : (∀ x, x ∈ l ↔ x ∈ k) → canonical l = canonical k.
Proof.
  intros Hext. destruct (canonical_sorted l) as [? ?], (canonical_sorted k) as [? ?].
  apply (sorted_nodup_ext N.le); try done. intros x. by rewrite !elem_of_canonical.
Qed.

Lemma canonical_length l : (length (canonical l) ≤ length l)%nat.
Proof.
  apply submseteq_length, NoDup_submseteq; [apply canonical_sorted|]. intros x. apply elem_of_canonical.
Qed.

Lemma canonical_nil l : canonical l = [] ↔ l = [].
Proof.
  split; [|by intros ->]. intros Hc. destruct l as [|x l]; [done|].
  assert (x ∈ canonical (x :: l)) as Hx by (apply elem_of_canonical; by left). by rewrite Hc in Hx; apply not_elem_of_nil in Hx.
Qed.

(** ** The shuffle *)

Definition swap_index (i j k : nat) : nat :=
  if decide (k = i) then j else if decide (k = j) then i else k.

Lemma swap_lookup {A} (l : list A) i j k :
  (i < length l)%nat → (j < length l)%nat → swap l i j !! k = l !! swap_index i j k.
Proof.
  intros Hi Hj. unfold swap, swap_index.
  destruct (lookup_lt_is_Some_2 l i Hi) as [a Ha], (lookup_lt_is_Some_2 l j Hj) as [b Hb].
  rewrite Ha, Hb. rewrite list_lookup_insert, list_lookup_insert, !length_insert.
  repeat case_decide; naive_solver.
Qed.

Lemma swap_perm {A} (l : list A) i j : swap l i j ≡ₚ l.
Proof.
  destruct (decide (i < length l ∧ j < length l)%nat) as [[Hi Hj]|Hn].
  - apply Permutation_inj. split.
    { unfold swap. repeat case_match; by rewrite ?length_insert. }
    exists (swap_index i j). split; [|intros k; by apply swap_lookup].
    intros x y. unfold swap_index. repeat case_decide; lia.
  - unfold swap. destruct (l !! i) eqn:Hi; [|done]. destruct (l !! j) eqn:Hj; [|done].
    apply lookup_lt_Some in Hi, Hj. tauto.
Qed.

Lemma shuffle_from_perm {A} i (items : list A) r : (shuffle_from i items r).1 ≡ₚ items.
Proof.
  revert items r. induction i as [|i IH]; intros items r; [done|]. cbn [shuffle_from].
  destruct (below r _) as [j r']. by rewrite IH, swap_perm.
Qed.

(** A shuffle rearranges. *)
Lemma deterministic_shuffle_perm {A} (items : list A) r : (deterministic_shuffle items r).1 ≡ₚ items.
Proof. apply shuffle_from_perm. Qed.

(** ** Committees *)

Section committee.
Context `{Crypto}.

Lemma committee_witnesses roster seed target :
  ∃ rest, witnesses (select_committee roster seed target) ++ rest ≡ₚ canonical roster.
Proof.
  unfold select_committee. cbv zeta. cbn [witnesses]. eexists (drop _ _).
  rewrite take_drop. apply deterministic_shuffle_perm.
Qed.

(** The committee depends on the seed, the target and the set of peers
    only, not on the order or repetitions in the caller's roster. *)
Theorem committee_agreement roster roster' seed target :
  (∀ p, p ∈ roster ↔ p ∈ roster') →
  select_committee roster seed target = select_committee roster' seed target.
Proof. intros Hext. unfold select_committee. by rewrite (canonical_ext _ _ Hext). Qed.

(** Every peer of the roster trains, once, in key order; the witnesses are
    distinct trainers, all of them for target zero and otherwise as many as the
    target asks for and the roster has. *)
Theorem committee_shape roster seed target :
  let c := select_committee roster seed target in
  StronglySorted N.le (trainers c) ∧ NoDup (trainers c) ∧ (∀ p, p ∈ trainers c ↔ p ∈ roster) ∧
  NoDup (witnesses c) ∧ (∀ p, p ∈ witnesses c → p ∈ roster) ∧
  N.of_nat (length (witnesses c)) =
    if target =? 0 then N.of_nat (length (trainers c)) else N.min target (N.of_nat (length (trainers c))).
Proof.
  cbv zeta. destruct (canonical_sorted roster) as [Hs Hn].
  destruct (committee_witnesses roster seed target) as [rest Hrest].
  split_and!; [done|done|intros p; apply elem_of_canonical|..].
  - rewrite <- Hrest in Hn. by apply NoDup_app in Hn as [? _].
  - intros p Hp. apply elem_of_canonical. rewrite <- Hrest. set_solver.
  - unfold select_committee. cbv zeta. cbn [witnesses trainers].
    rewrite length_take, (Permutation_length (deterministic_shuffle_perm _ _)).
    destruct (target =? 0); lia.
Qed.
End committee.

Lemma committee_agreement_witness :
  @select_committee toy_crypto [5; 9; 3; 5] 77 2 = @select_committee toy_crypto [3; 9; 9; 5] 77 2.
Proof. apply (@committee_agreement toy_crypto). intros p. set_solver. Defined.

(** ** Quorums *)

Lemma div_ceil_spec a b : 0 < b → a ≤ b * div_ceil a b ∧ b * div_ceil a b < a + b.
Proof.
  intros Hb. unfold div_ceil. pose proof (N.div_mod a b ltac:(lia)) as Hd.
  pose proof (N.mod_lt a b ltac:(lia)) as Hm.
  generalize dependent (a mod b). generalize dependent (a / b). intros q r Hd Hm.
  destruct (N.eqb_spec r 0); nia.
Qed.

Lemma witness_quorum_bounds n :
  n < u32_bound → 2 * n ≤ 3 * witness_quorum n ∧ 3 * witness_quorum n < 2 * n + 3 ∧ witness_quorum n ≤ n.
Proof.
  intros Hn. unfold witness_quorum.
  destruct n as [|[p|p|]]; try (vm_compute; done).
  all: try (destruct p as [p|p|]; try (vm_compute; done)).
  all: unfold u32_bound in *.
  all: match goal with |- context [wrap32 (div_ceil (2 * ?m) 3)] =>
    destruct (div_ceil_spec (2 * m) 3 ltac:(lia)) as [H1 H2];
    rewrite (wrap32_small (div_ceil (2 * m) 3)) by (unfold u32_bound; lia) end; lia.
Qed.

(** The witness quorum is two thirds of the committee rounded up, never
    more than the committee, and two quorums of one committee share at least a
    third of it. *)
Theorem quorum_intersection (committee a b : gset PeerId) :
  let n := N.of_nat (size committee) in
  n < u32_bound → a ⊆ committee → b ⊆ committee →
  witness_quorum n ≤ N.of_nat (size a) → witness_quorum n ≤ N.of_nat (size b) →
  (2 * n ≤ 3 * witness_quorum n ∧ 3 * witness_quorum n < 2 * n + 3 ∧ witness_quorum n ≤ n) ∧
  n ≤ 3 * N.of_nat (size (a ∩ b)).
Proof.
  cbv zeta. intros Hn Ha Hb Hqa Hqb. pose proof (witness_quorum_bounds _ Hn) as Hq. split; [done|].
  assert (size (a ∪ b) ≤ size committee)%nat as Hu by (apply subseteq_size; set_solver).
  pose proof (size_union_inter a b). lia.
Qed.

Lemma quorum_intersection_witness :
  N.of_nat (size ({[1; 2; 3; 4]} : gset PeerId)) ≤
    3 * N.of_nat (size (({[1; 2; 3]} : gset PeerId) ∩ {[2; 3; 4]})).
Proof.
  destruct (quorum_intersection {[1; 2; 3; 4]} {[1; 2; 3]} {[2; 3; 4]}) as [_ Hi];
    [by vm_compute|set_solver|set_solver|by vm_compute|by vm_compute|exact Hi].
Defined.

(** ** Elections *)

(** Equal residues lie a multiple of the modulus apart. *)
Lemma mod_eq_shift a d n : n ≠ 0 → a mod n = (a + d) mod n → d < n → d = 0.
Proof.
  intros Hn Heq Hd. pose proof (N.div_mod a n Hn) as H1. pose proof (N.div_mod (a + d) n Hn) as H2.
  rewrite <- Heq in H2. clear Heq. destruct (N.lt_trichotomy (a / n) ((a + d) / n)) as [Hq|[Hq|Hq]].
  - pose proof (N.mul_le_mono_l (N.succ (a / n)) ((a + d) / n) n ltac:(lia)) as Hm.
    rewrite N.mul_succ_r in Hm. generalize dependent (a mod n). generalize dependent (n * (a / n)).
    generalize dependent (n * ((a + d) / n)). intros. lia.
  - rewrite Hq in H1. generalize dependent (a mod n). generalize dependent (n * ((a + d) / n)). intros. lia.
  - pose proof (N.mul_le_mono_l ((a + d) / n) (a / n) n ltac:(lia)) as Hm.
    generalize dependent (a mod n). generalize dependent (n * (a / n)).
    generalize dependent (n * ((a + d) / n)). intros. lia.
Qed.

(** Every residue is met within one round of the modulus. *)
Lemma mod_reach x k n : k < n → ∃ d, d < n ∧ (x + d) mod n = k.
Proof.
  intros Hk. exists ((k + n - x mod n) mod n). split; [apply N.mod_lt; lia|].
  rewrite N.Div0.add_mod_idemp_r, <- N.Div0.add_mod_idemp_l.
  pose proof (N.mod_lt x n ltac:(lia)) as Hx. generalize dependent (x mod n). intros r Hr.
  replace (r + (k + n - r)) with (k + 1 * n) by lia. rewrite N.Div0.mod_add. by apply N.mod_small.
Qed.

Section publisher.
Context `{Crypto}.

Lemma canonical_pos roster : roster ≠ [] → (0 < length (canonical roster))%nat.
Proof. intros Hr. destruct (canonical roster) eqn:E; [by apply (canonical_nil roster) in E|simpl; lia]. Qed.

(** A slot of a non-empty roster has a publisher, one of the roster; with
    two or more peers, consecutive slots have different publishers; and over as
    many consecutive slots as there are peers every peer publishes. *)
Theorem publisher_rotation roster seed slot :
  let n := N.of_nat (length (canonical roster)) in
  let publisher := elect_checkpoint_publisher_for_slot roster seed in
  roster ≠ [] → N.of_nat (length roster) < u64_bound →
  (∃ p, publisher slot = Some p ∧ p ∈ roster) ∧
  (2 ≤ n → publisher slot ≠ publisher (slot + 1)) ∧
  (∀ p, p ∈ roster → ∃ d, d < n ∧ publisher (slot + d) = Some p).
Proof.
  cbv zeta. intros Hr Hlen. unfold elect_checkpoint_publisher_for_slot.
  rewrite bool_decide_eq_false_2 by done. pose proof (canonical_pos roster Hr) as Hpos.
  pose proof (canonical_length roster) as Hcl. set (pool := canonical roster) in *.
  set (n := N.of_nat (length pool)) in *. set (base := (below _ n).1).
  assert (base < n) as Hbase by (apply below_lt; lia).
  assert (∀ s, (base + s mod n) mod n = (base + s) mod n) as Hmod
    by (intros s; apply N.Div0.add_mod_idemp_r).
  assert (∀ s, ∃ p, pool !! N.to_nat ((base + s) mod n) = Some p) as Hsome.
  { intros s. apply lookup_lt_is_Some. pose proof (N.mod_lt (base + s) n ltac:(lia)). lia. }
  assert (NoDup pool) as Hnd by apply canonical_sorted.
  rewrite !Hmod. split_and!.
  - destruct (Hsome slot) as [p Hp]. exists p. split; [done|].
    by apply elem_of_canonical, (list_elem_of_lookup_2 _ _ _ Hp).
  - intros Hn2 Heq. destruct (Hsome slot) as [p Hp]. rewrite Hp in Heq. symmetry in Heq.
    rewrite N.add_assoc in Heq.
    pose proof (NoDup_lookup _ _ _ _ Hnd Hp Heq) as Hi. apply N2Nat.inj in Hi.
    apply mod_eq_shift in Hi; lia.
  - intros p Hp. apply elem_of_canonical, list_elem_of_lookup in Hp as [k Hk].
    destruct (mod_reach (base + slot) (N.of_nat k) n) as (d & Hd & Hmk).
    { apply lookup_lt_Some in Hk. unfold n, pool. lia. }
    exists d. split; [done|]. by rewrite Hmod, N.add_assoc, Hmk, Nat2N.id.
Qed.
End publisher.

Lemma publisher_rotation_witness :
  @elect_checkpoint_publisher_for_slot toy_crypto [5; 9; 3] 77 8 ≠
  @elect_checkpoint_publisher_for_slot toy_crypto [5; 9; 3] 77 9.
Proof.
  destruct (@publisher_rotation toy_crypto [5; 9; 3] 77 8) as (_ & Hne & _); [done|by vm_compute|].
  apply Hne. by vm_compute.
Defined.
