(* ===== verification/VhcBatches.v ===== *)
(** * Batch windows

    The ramp of the global batch and the weighted split of a round's window:
    without overlap the intervals partition the window exactly, each within one
    of its weighted share; with overlap they still cover it. *)

From S2P Require Import Prelude Text VhcProto VhcMerkle VhcMessages VhcAssignment VhcLcg VhcCommittee.

#[local] Open Scope N_scope.
#[local] Open Scope daemon_scope.

(** ** The ramp *)

Definition gb_ok (gb : GlobalBatch) : Prop :=
  gb_start gb < u32_bound ∧ gb_end gb < u32_bound ∧ gb_ramp_rounds gb < u32_bound.

Lemma ramp_step d round ramp :
  d < u32_bound → ramp < u32_bound → round < ramp →
  wrap64 (d * round) / ramp = d * round / ramp ∧ d * round / ramp ≤ d.
Proof.
  unfold u32_bound. intros Hd Hr Hlt.
  rewrite wrap64_small by (unfold u64_bound; nia). split; [done|].
  apply N.Div0.div_le_upper_bound. nia.
Qed.

(** The interpolation on unbounded numbers. *)
Definition ramp_value (gb : GlobalBatch) (round : N) : N :=
  if gb_ramp_rounds gb <=? round then gb_end gb
  else if gb_start gb <=? gb_end gb
       then gb_start gb + (gb_end gb - gb_start gb) * round / gb_ramp_rounds gb
       else gb_start gb - (gb_start gb - gb_end gb) * round / gb_ramp_rounds gb.

Lemma global_batch_at_value gb round : gb_ok gb → global_batch_at gb round = ramp_value gb round.
Proof.
  intros (Hs & He & Hr). unfold global_batch_at, ramp_value.
  destruct (N.eqb_spec (gb_ramp_rounds gb) 0) as [H0|H0]; simpl orb.
  { by rewrite H0, (proj2 (N.leb_le _ _)) by lia. }
  destruct (N.leb_spec (gb_ramp_rounds gb) round) as [|Hlt]; [done|].
  destruct (N.leb_spec (gb_start gb) (gb_end gb)) as [Hle|Hle].
  - destruct (ramp_step (gb_end gb - gb_start gb) round (gb_ramp_rounds gb)) as [-> Hb]; [lia..|].
    apply wrap64_small. unfold u32_bound, u64_bound in *. lia.
  - destruct (ramp_step (gb_start gb - gb_end gb) round (gb_ramp_rounds gb)) as [-> Hb]; [lia..|].
    apply wrap_sub_small; unfold u32_bound, u64_bound in *; lia.
Qed.

Lemma div_mono_num a b d : a ≤ b → a / d ≤ b / d.
Proof. apply N.Div0.div_le_mono. Qed.

(** Although the ramp multiplies and subtracts on [u64], it never wraps:
    the batch of a round lies between the two ends, starts at the first, stays
    at the last from the end of the ramp on, and moves monotonically. *)
Theorem ramp_bounds gb round round' :
  gb_ok gb → round ≤ round' →
  N.min (gb_start gb) (gb_end gb) ≤ global_batch_at gb round ≤ N.max (gb_start gb) (gb_end gb) ∧
  (gb_ramp_rounds gb ≤ round → global_batch_at gb round = gb_end gb) ∧
  (gb_ramp_rounds gb ≠ 0 → global_batch_at gb 0 = gb_start gb) ∧
  (gb_start gb ≤ gb_end gb → global_batch_at gb round ≤ global_batch_at gb round') ∧
  (gb_end gb ≤ gb_start gb → global_batch_at gb round' ≤ global_batch_at gb round).
Proof.
  intros Hok Hrr. rewrite !global_batch_at_value by done. destruct Hok as (Hs & He & Hr).
  assert (∀ r, r < gb_ramp_rounds gb →
    (gb_end gb - gb_start gb) * r / gb_ramp_rounds gb ≤ gb_end gb - gb_start gb ∧
    (gb_start gb - gb_end gb) * r / gb_ramp_rounds gb ≤ gb_start gb - gb_end gb) as Hb.
  { intros r Hlt. split; (apply ramp_step; lia). }
  pose proof (div_mono_num ((gb_end gb - gb_start gb) * round) ((gb_end gb - gb_start gb) * round')
    (gb_ramp_rounds gb) ltac:(nia)) as Hm1.
  pose proof (div_mono_num ((gb_start gb - gb_end gb) * round) ((gb_start gb - gb_end gb) * round')
    (gb_ramp_rounds gb) ltac:(nia)) as Hm2.
  pose proof (Hb round) as B1. pose proof (Hb round') as B2. clear Hb.
  unfold ramp_value. rewrite !N.mul_0_r, !N.Div0.div_0_l.
  generalize dependent ((gb_end gb - gb_start gb) * round / gb_ramp_rounds gb).
  generalize dependent ((gb_start gb - gb_end gb) * round / gb_ramp_rounds gb).
  generalize dependent ((gb_end gb - gb_start gb) * round' / gb_ramp_rounds gb).
  generalize dependent ((gb_start gb - gb_end gb) * round' / gb_ramp_rounds gb). intros.
  destruct (N.leb_spec (gb_ramp_rounds gb) round), (N.leb_spec (gb_ramp_rounds gb) round'),
    (N.leb_spec (gb_ramp_rounds gb) 0), (N.leb_spec (gb_start gb) (gb_end gb)); split_and!; lia.
Qed.

Lemma ramp_bounds_witness :
  8 ≤ global_batch_at (mkGlobalBatch 8 64 100) 30 ≤ 64 ∧
  global_batch_at (mkGlobalBatch 8 64 100) 30 ≤ global_batch_at (mkGlobalBatch 8 64 100) 31.
Proof.
  destruct (ramp_bounds (mkGlobalBatch 8 64 100) 30 31) as (Hb & _ & _ & Hm & _); [by repeat split|lia|].
  split; [exact Hb|]. apply Hm. simpl. lia.
Defined.

(** ** Apportionment *)

Lemma sum_N_alter l i : (i < length l)%nat → sum_N (alter N.succ i l) = sum_N l + 1.
Proof.
  revert i. induction l as [|x l IH]; intros [|i] Hi; simpl in Hi; [lia|lia| |].
  - change (alter N.succ 0%nat (x :: l)) with (N.succ x :: l). simpl. lia.
  - change (alter N.succ (S i) (x :: l)) with (x :: alter N.succ i l). simpl sum_N.
    rewrite IH by lia. lia.
Qed.

Lemma bump_sizes_length rs leftover sizes : length (bump_sizes rs leftover sizes) = length sizes.
Proof.
  revert leftover sizes. induction rs as [|[r i] rs IH]; intros leftover sizes; simpl; [done|].
  case_match; [done|]. by rewrite IH, length_alter.
Qed.

Lemma bump_sizes_sum rs leftover sizes :
  Forall (λ i, (i < length sizes)%nat) rs.*2 →
  sum_N (bump_sizes rs leftover sizes) = sum_N sizes + N.min leftover (N.of_nat (length rs)).
Proof.
  revert leftover sizes. induction rs as [|[r i] rs IH]; intros leftover sizes Hrs; simpl bump_sizes.
  { simpl. lia. }
  rewrite fmap_cons in Hrs. apply Forall_cons in Hrs as [Hi Hrs]. simpl in Hi.
  destruct (N.eqb_spec leftover 0) as [->|]; [lia|].
  rewrite IH, sum_N_alter by (by rewrite ?length_alter). simpl length. lia.
Qed.

(** Every size grows by at most one. *)
Lemma bump_sizes_lookup rs leftover sizes k s :
  NoDup rs.*2 → sizes !! k = Some s →
  ∃ s', bump_sizes rs leftover sizes !! k = Some s' ∧ s ≤ s' ≤ s + (if decide (k ∈ rs.*2) then 1 else 0).
Proof.
  revert leftover sizes s. induction rs as [|[r i] rs IH]; intros leftover sizes s Hnd Hk; simpl bump_sizes.
  { exists s. split; [done|]. case_decide; lia. }
  rewrite fmap_cons in *. apply NoDup_cons in Hnd as [Hi Hnd]. simpl in Hi.
  destruct (leftover =? 0); [exists s; split; [done|]; case_decide; lia|].
  destruct (decide (i = k)) as [->|Hne].
  - destruct (IH (leftover - 1) (alter N.succ k sizes) (N.succ s)) as (s' & Hs' & Hb); [done|by rewrite list_lookup_alter_eq, Hk|].
    rewrite decide_False in Hb by done. exists s'. split; [done|]. rewrite decide_True by (simpl; set_solver). lia.
  - destruct (IH (leftover - 1) (alter N.succ i sizes) s) as (s' & Hs' & Hb); [done|by rewrite list_lookup_alter_ne|].
    exists s'. split; [done|]. simpl. repeat case_decide; set_solver by lia.
Qed.

Definition base_sizes (total s : N) (ws : list N) : list N := (λ w, total * w / s) <$> ws.

Lemma base_sizes_sum total s ws :
  0 < s → s * sum_N (base_sizes total s ws) ≤ total * sum_N ws ∧
          total * sum_N ws ≤ s * (sum_N (base_sizes total s ws) + N.of_nat (length ws)).
Proof.
  intros Hs. induction ws as [|w ws [IH1 IH2]]; [simpl; lia|]. unfold base_sizes in *. rewrite fmap_cons.
  cbn [sum_N foldr length]. fold (sum_N ws). fold (sum_N ((λ w, total * w / s) <$> ws)).
  pose proof (N.div_mod (total * w) s ltac:(lia)) as Hd. pose proof (N.mod_lt (total * w) s ltac:(lia)) as Hm.
  generalize dependent (total * w mod s). generalize dependent (total * w / s). intros q r Hd Hm.
  rewrite Nat2N.inj_succ. split; nia.
Qed.

Lemma remainders_indices total s (ws : list N) :
  (sort_by remainder_leb (imap (λ i w, (total * w mod s, i)) ws)).*2 ≡ₚ seq 0 (length ws).
Proof.
  rewrite sort_by_perm. rewrite fmap_imap. simpl.
  change (λ n, snd ∘ (λ w : N, (total * w mod s, n))) with (λ (n : nat) (_ : N), n).
  by rewrite (imap_seq_0 ws (λ n, n)), list_fmap_id.
Qed.

(** The sizes sum to the total and each is its weighted share, rounded down or
    up by one. *)
Lemma apportion_spec total ws :
  0 < sum_N ws →
  length (apportion total ws) = length ws ∧
  sum_N (apportion total ws) = total ∧
  ∀ i w, ws !! i = Some w → ∃ size, apportion total ws !! i = Some size ∧
    total * w / sum_N ws ≤ size ≤ total * w / sum_N ws + 1.
Proof.
  intros Hs. pose proof (remainders_indices total (sum_N ws) ws) as Hp.
  unfold apportion. cbv zeta. fold (base_sizes total (sum_N ws) ws).
  assert (length (base_sizes total (sum_N ws) ws) = length ws) as Hl by apply length_fmap.
  split_and!.
  - by rewrite bump_sizes_length.
  - rewrite bump_sizes_sum.
    + rewrite (Permutation_length (sort_by_perm _ _)), length_imap.
      destruct (base_sizes_sum total (sum_N ws) ws Hs) as [H1 H2].
      assert (sum_N (base_sizes total (sum_N ws) ws) ≤ total) by nia.
      assert (total ≤ sum_N (base_sizes total (sum_N ws) ws) + N.of_nat (length ws)) by nia. lia.
    + rewrite Hp, Hl. apply Forall_forall. intros i Hi%elem_of_seq. lia.
  - intros i w Hw.
    destruct (bump_sizes_lookup (sort_by remainder_leb (imap (λ i w, (total * w mod sum_N ws, i)) ws))
      (total - sum_N (base_sizes total (sum_N ws) ws)) (base_sizes total (sum_N ws) ws) i (total * w / sum_N ws))
      as (size & Hsize & Hb).
    + rewrite Hp. apply NoDup_seq.
    + unfold base_sizes. by rewrite list_lookup_fmap, Hw.
    + exists size. split; [done|]. case_decide; lia.
Qed.

(** ** Layout *)

(** [peers] laid out end to end from [cursor]: the interval of a peer starts
    where the previous one's share ends and contains its own share. *)
Fixpoint covers (window_end cursor : N) (peers : list (PeerId * N)) (out : list (PeerId * BatchWindow)) : Prop :=
  match peers, out with
  | [], [] => cursor = window_end
  | (p, size) :: peers', (q, w) :: out' =>
      p = q ∧ bw_start w = cursor ∧ cursor + size ≤ bw_end w ≤ window_end ∧
      covers window_end (cursor + size) peers' out'
  | _, _ => False
  end.

(** The overlap of no interval leaves the [u64] range. *)
Definition overlap_fits (window_end overlap_bps : N) (peers : list (PeerId * N)) : Prop :=
  Forall (λ p, window_end + p.2 * overlap_bps / 10000 < u64_bound) peers.

Lemma layout_covers window_end overlap_bps cursor peers :
  cursor + sum_N peers.*2 = window_end → window_end < u64_bound →
  overlap_fits window_end overlap_bps peers →
  covers window_end cursor peers (layout window_end overlap_bps cursor peers).
Proof.
  intros Hsum Hlt Hfit. revert cursor Hsum. induction Hfit as [|[p size] peers Hp Hfit IH]; intros cursor Hsum.
  { simpl in *. lia. }
  csimpl in *. rewrite (wrap64_small (cursor + size)) by lia.
  set (overlap := size * overlap_bps / 10000) in *.
  rewrite (wrap64_small overlap) by lia. rewrite (wrap64_small (cursor + size + overlap)) by lia.
  split_and!; [done|done|lia|lia|]. apply IH. lia.
Qed.

(** Intervals in a row: each ends where the next begins. *)
Fixpoint contiguous (from to : N) (out : list BatchWindow) : Prop :=
  match out with
  | [] => from = to
  | w :: out' => bw_start w = from ∧ from ≤ bw_end w ∧ contiguous (bw_end w) to out'
  end.

Lemma layout_contiguous window_end cursor peers :
  cursor + sum_N peers.*2 = window_end → window_end < u64_bound →
  contiguous cursor window_end (layout window_end 0 cursor peers).*2.
Proof.
  intros Hsum Hlt. revert cursor Hsum. induction peers as [|[p size] peers IH]; intros cursor Hsum.
  { simpl in *. lia. }
  csimpl in *. rewrite N.mul_0_r. change (wrap64 (0 / 10000)) with 0. rewrite N.add_0_r.
  rewrite !(wrap64_small (cursor + size)) by lia.
  rewrite N.min_l by lia. split_and!; [done|lia|]. apply IH. lia.
Qed.

(** ** Members *)

Lemma dedup_members_sorted prev l :
  StronglySorted N.le l.*1 → (∀ p, prev = Some p → Forall (λ q, p ≤ q) l.*1) →
  StronglySorted N.lt (dedup_members prev l).*1 ∧
  (∀ p, prev = Some p → Forall (λ q, p < q) (dedup_members prev l).*1).
Proof.
  revert prev. induction l as [|[x c] l IH]; intros prev Hs Hp; simpl dedup_members; [by split; constructor|].
  rewrite fmap_cons in *. simpl in Hs. inversion Hs as [|? ? Hs' Hx]; subst.
  case_bool_decide as Hprev; simpl in Hprev.
  - apply IH; [done|]. intros p ->. specialize (Hp p eq_refl). by apply Forall_cons in Hp as [_ Hp].
  - destruct (IH (Some x)) as [IH1 IH2]; [done|by intros p [= <-]|]. rewrite fmap_cons. simpl.
    specialize (IH2 x eq_refl). split; [by constructor|].
    intros p ->. specialize (Hp p eq_refl). apply Forall_cons in Hp as [Hpx _].
    assert (p < x) as Hlt by (assert (p ≠ x) by congruence; simpl in Hpx; lia).
    constructor; [done|]. eapply Forall_impl; [exact IH2|]. simpl. lia.
Qed.

Lemma dedup_members_elem prev l p :
  p ∈ (dedup_members prev l).*1 ∨ prev = Some p ↔ p ∈ l.*1 ∨ prev = Some p.
Proof.
  revert prev. induction l as [|[x c] l IH]; intros prev; simpl dedup_members; [done|].
  rewrite fmap_cons, (elem_of_cons (fst <$> l)). simpl. case_bool_decide as Hp; simpl in Hp.
  - rewrite IH. naive_solver.
  - rewrite fmap_cons, elem_of_cons. simpl. specialize (IH (Some x)). naive_solver.
Qed.

Lemma canonical_members_spec roster :
  NoDup (canonical_members roster).*1 ∧ ∀ p, p ∈ (canonical_members roster).*1 ↔ p ∈ roster.*1.
Proof.
  unfold canonical_members. split.
  - assert (StronglySorted N.le (sort_by member_leb roster).*1) as Hs.
    { apply (StronglySorted_fmap _ (λ a b, a.1 ≤ b.1)); [done|]. apply sort_by_sorted.
      - intros x y z. simpl. lia.
      - intros x y. apply N.leb_le.
      - intros x y ?%N.leb_gt. lia. }
    destruct (dedup_members_sorted None (sort_by member_leb roster) Hs) as [Hd _]; [done|].
    eapply StronglySorted_lt_NoDup, Hd.
  - intros p. pose proof (dedup_members_elem None (sort_by member_leb roster) p) as He.
    assert (p ∈ (sort_by member_leb roster).*1 ↔ p ∈ roster.*1) by by rewrite sort_by_perm.
    naive_solver.
Qed.

(** ** The split of a window *)

Section assign.
Context `{Crypto}.

(** The peers of a round in layout order, with the sizes of their shares. *)
Definition shares (roster : list RosterEntry) (seed : Seed) (total : N) : list (PeerId * N) :=
  let peers := (deterministic_shuffle (canonical_members roster) (seeded_lcg seed ASSIGN_SALT)).1 in
  zip peers.*1 (apportion total ((λ m, class_weight m.2) <$> peers)).

Lemma weights_pos (ms : list RosterEntry) : ms ≠ [] → 0 < sum_N ((λ m, class_weight m.2) <$> ms).
Proof. destruct ms as [|[p []] ms]; intros H0; [done|..]; csimpl; lia. Qed.

Lemma shuffled_members_nonempty roster seed :
  roster ≠ [] → (deterministic_shuffle (canonical_members roster) (seeded_lcg seed ASSIGN_SALT)).1 ≠ [].
Proof.
  intros Hr Heq. pose proof (deterministic_shuffle_perm (canonical_members roster) (seeded_lcg seed ASSIGN_SALT)) as Hp.
  rewrite Heq in Hp. apply Permutation_nil_l in Hp.
  destruct (canonical_members_spec roster) as [_ Hc]. rewrite <- Hp in Hc.
  destruct roster as [|m roster]; [done|]. destruct (Hc m.1) as [_ Hm].
  apply (not_elem_of_nil m.1), Hm. by left.
Qed.

Lemma shares_spec roster seed total :
  roster ≠ [] →
  sum_N (shares roster seed total).*2 = total ∧
  (shares roster seed total).*1 ≡ₚ (canonical_members roster).*1.
Proof.
  intros Hr. unfold shares. cbv zeta. pose proof (shuffled_members_nonempty roster seed Hr) as Hne.
  pose proof (deterministic_shuffle_perm (canonical_members roster) (seeded_lcg seed ASSIGN_SALT)) as Hp.
  set (peers := (deterministic_shuffle _ _).1) in *.
  destruct (apportion_spec total ((λ m, class_weight m.2) <$> peers) (weights_pos peers Hne)) as (Hl & Hsum & _).
  rewrite length_fmap in Hl. split.
  - rewrite snd_zip; [done|]. rewrite length_fmap. lia.
  - rewrite fst_zip; [by rewrite Hp|]. rewrite length_fmap. lia.
Qed.

Lemma assign_batches_layout roster seed window overlap_bps :
  roster ≠ [] → bw_start window < bw_end window →
  assign_batches roster seed window overlap_bps =
    layout (bw_end window) overlap_bps (bw_start window)
      (shares roster seed (bw_end window - bw_start window)).
Proof.
  intros Hr Hw. unfold assign_batches. rewrite bool_decide_eq_false_2 by done.
  by rewrite (proj2 (N.eqb_neq _ _)) by lia.
Qed.

Lemma layout_peers window_end overlap_bps cursor peers :
  (layout window_end overlap_bps cursor peers).*1 = peers.*1.
Proof.
  revert cursor. induction peers as [|[p s] peers IH]; intros cursor; [done|]. csimpl. by rewrite IH.
Qed.

(** Without overlap the intervals of a round partition its window: laid
    out left to right each begins where the previous one ends, from the start to
    the end of the window, and every distinct peer of the roster has one. *)
Theorem batches_partition roster seed window :
  roster ≠ [] → bw_start window < bw_end window → bw_end window < u64_bound →
  contiguous (bw_start window) (bw_end window) (assign_batches roster seed window 0).*2 ∧
  NoDup (assign_batches roster seed window 0).*1 ∧
  ∀ p, p ∈ (assign_batches roster seed window 0).*1 ↔ p ∈ roster.*1.
Proof.
  intros Hr Hw Hlt. rewrite assign_batches_layout by done.
  destruct (shares_spec roster seed (bw_end window - bw_start window) Hr) as [Hsum Hp].
  destruct (canonical_members_spec roster) as [Hnd Hel]. rewrite layout_peers, Hp. split_and!.
  - apply layout_contiguous; [|done]. rewrite Hsum. lia.
  - done.
  - intros p. by rewrite Hp.
Qed.

Lemma dedup_members_id prev (l : list RosterEntry) :
  NoDup l.*1 → (∀ p, prev = Some p → p ∉ l.*1) → dedup_members prev l = l.
Proof.
  revert prev. induction l as [|[x c] l IH]; intros prev Hnd Hp; [done|]. simpl.
  rewrite fmap_cons in *. apply NoDup_cons in Hnd as [Hx Hnd]. simpl in Hx.
  rewrite bool_decide_eq_false_2.
  - f_equal. apply IH; [done|]. by intros p [= <-].
  - intros ->. apply (Hp x); [done|]. by left.
Qed.

(** With distinct peers only the order is normalised. *)
Lemma canonical_members_distinct roster : NoDup roster.*1 → canonical_members roster = sort_by member_leb roster.
Proof. intros Hnd. apply dedup_members_id; [by rewrite sort_by_perm|done]. Qed.

Lemma sort_members_sorted roster : StronglySorted (λ a b : RosterEntry, a.1 ≤ b.1) (sort_by member_leb roster).
Proof.
  apply sort_by_sorted.
  - intros x y z. simpl. lia.
  - intros x y. apply N.leb_le.
  - intros x y ?%N.leb_gt. lia.
Qed.

(** Peers that see the same members, in whatever order, derive the same
    intervals. *)
Theorem batches_agreement roster roster' seed window overlap_bps :
  roster ≡ₚ roster' → NoDup roster.*1 →
  assign_batches roster seed window overlap_bps = assign_batches roster' seed window overlap_bps.
Proof.
  intros Hp Hnd. assert (NoDup roster'.*1) as Hnd' by by rewrite <- Hp.
  assert (canonical_members roster = canonical_members roster') as Hc.
  { rewrite !canonical_members_distinct by done.
    apply (StronglySorted_unique_strong (λ a b : RosterEntry, a.1 ≤ b.1)); try apply sort_members_sorted.
    - intros x y Hx Hy H1 H2. apply (NoDup_fmap_key fst roster); try done.
      + by rewrite sort_by_perm in Hx.
      + rewrite sort_by_perm in Hy. by rewrite Hp.
      + lia.
    - by rewrite !sort_by_perm. }
  unfold assign_batches. rewrite Hc. assert (roster = [] ↔ roster' = []) as Hn.
  { split; intros ->; [by apply Permutation_nil_l in Hp|by apply Permutation_nil_r in Hp]. }
  by rewrite (bool_decide_ext _ _ Hn).
Qed.

Lemma sum_N_perm l k : l ≡ₚ k → sum_N l = sum_N k.
Proof. induction 1; simpl; lia. Qed.

Lemma shares_share roster seed total p c :
  NoDup roster.*1 → (p, c) ∈ roster →
  let share := total * class_weight c / sum_N ((λ m, class_weight m.2) <$> roster) in
  ∃ size, (p, size) ∈ shares roster seed total ∧ share ≤ size ≤ share + 1.
Proof.
  cbv zeta. intros Hnd Hin. assert (roster ≠ []) as Hr by (by intros ->; apply not_elem_of_nil in Hin).
  unfold shares. cbv zeta. pose proof (shuffled_members_nonempty roster seed Hr) as Hne.
  assert ((deterministic_shuffle (canonical_members roster) (seeded_lcg seed ASSIGN_SALT)).1 ≡ₚ roster) as Hp.
  { rewrite deterministic_shuffle_perm, canonical_members_distinct by done. apply sort_by_perm. }
  set (peers := (deterministic_shuffle _ _).1) in *.
  rewrite <- (sum_N_perm ((λ m, class_weight m.2) <$> peers)) by by rewrite Hp.
  destruct (apportion_spec total ((λ m, class_weight m.2) <$> peers) (weights_pos peers Hne)) as (_ & _ & Hsh).
  rewrite <- Hp in Hin. apply list_elem_of_lookup in Hin as [i Hi].
  destruct (Hsh i (class_weight c)) as (size & Hsize & Hb); [by rewrite list_lookup_fmap, Hi|].
  exists size. split; [|done]. apply (list_elem_of_lookup_2 _ i).
  apply lookup_zip_with_Some. exists p, size. split_and!; [done|by rewrite list_lookup_fmap, Hi|done].
Qed.

Lemma layout_elem window_end cursor peers p size :
  cursor + sum_N peers.*2 = window_end → window_end < u64_bound → (p, size) ∈ peers →
  ∃ w, (p, w) ∈ layout window_end 0 cursor peers ∧ bw_end w - bw_start w = size.
Proof.
  intros Hsum Hlt. revert cursor Hsum. induction peers as [|[q s] peers IH]; intros cursor Hsum Hin;
    [by apply not_elem_of_nil in Hin|].
  csimpl in *. rewrite N.mul_0_r. change (wrap64 (0 / 10000)) with 0. rewrite N.add_0_r.
  rewrite !(wrap64_small (cursor + s)) by lia. rewrite N.min_l by lia.
  apply elem_of_cons in Hin as [Heq|Hin].
  - simplify_eq. eexists. split; [by left|]. simpl. lia.
  - destruct (IH (cursor + s)) as (w & Hw & Hs); [lia|done|]. exists w. split; [by right|done].
Qed.

(** Without overlap the interval of a member is as long as its weighted
    share of the window, rounded down or one more. *)
Theorem batches_share roster seed window p c :
  bw_start window < bw_end window → bw_end window < u64_bound →
  NoDup roster.*1 → (p, c) ∈ roster →
  let share := (bw_end window - bw_start window) * class_weight c /
               sum_N ((λ m, class_weight m.2) <$> roster) in
  ∃ w, (p, w) ∈ assign_batches roster seed window 0 ∧
    share ≤ bw_end w - bw_start w ≤ share + 1.
Proof.
  cbv zeta. intros Hw Hlt Hnd Hin. assert (roster ≠ []) as Hr by (by intros ->; apply not_elem_of_nil in Hin).
  rewrite assign_batches_layout by done.
  destruct (shares_share roster seed (bw_end window - bw_start window) p c Hnd Hin) as (size & Hs & Hb).
  destruct (layout_elem (bw_end window) (bw_start window)
    (shares roster seed (bw_end window - bw_start window)) p size) as (w & Hin' & Heq); [|done|done|].
  - destruct (shares_spec roster seed (bw_end window - bw_start window) Hr) as [-> _]. lia.
  - exists w. by rewrite Heq.
Qed.

Lemma sum_N_elem l x : x ∈ l → x ≤ sum_N l.
Proof. induction 1; simpl; lia. Qed.

Lemma covers_elem window_end cursor peers out id :
  covers window_end cursor peers out → cursor ≤ id < window_end →
  ∃ p w, (p, w) ∈ out ∧ bw_start w ≤ id < bw_end w.
Proof.
  revert cursor out. induction peers as [|[p s] peers IH]; intros cursor [|[q w] out] Hc Hid; simpl in Hc; try done; [lia|].
  destruct Hc as (-> & Hs & He & Hc). destruct (decide (id < bw_end w)) as [Hlt|Hge].
  - exists q, w. split; [by left|]. lia.
  - destruct (IH _ _ Hc) as (p' & w' & Hin & Hw); [lia|]. exists p', w'. split; [by right|done].
Qed.

Lemma covers_within window_end cursor peers out p w :
  covers window_end cursor peers out → (p, w) ∈ out → cursor ≤ bw_start w ∧ bw_end w ≤ window_end.
Proof.
  revert cursor out. induction peers as [|[q s] peers IH]; intros cursor [|[q' w'] out] Hc Hin; simpl in Hc; try done;
    [by apply not_elem_of_nil in Hin|].
  destruct Hc as (-> & Hs & He & Hc). apply elem_of_cons in Hin as [Heq|Hin]; [simplify_eq; lia|].
  destruct (IH _ _ Hc Hin). lia.
Qed.

(** With any overlap whose sums stay in [u64], no sequence is lost: every
    batch of the window lies in some peer's interval, and no interval leaves the
    window. *)
Theorem batches_cover roster seed window overlap_bps :
  roster ≠ [] → bw_start window < bw_end window →
  bw_end window + (bw_end window - bw_start window) * overlap_bps / 10000 < u64_bound →
  (∀ id, bw_start window ≤ id < bw_end window →
    ∃ p w, (p, w) ∈ assign_batches roster seed window overlap_bps ∧ bw_start w ≤ id < bw_end w) ∧
  (∀ p w, (p, w) ∈ assign_batches roster seed window overlap_bps →
    bw_start window ≤ bw_start w ∧ bw_end w ≤ bw_end window).
Proof.
  intros Hr Hw Hlt. rewrite assign_batches_layout by done.
  destruct (shares_spec roster seed (bw_end window - bw_start window) Hr) as [Hsum _].
  assert (covers (bw_end window) (bw_start window) (shares roster seed (bw_end window - bw_start window))
    (layout (bw_end window) overlap_bps (bw_start window) (shares roster seed (bw_end window - bw_start window)))) as Hc.
  { apply layout_covers; [rewrite Hsum; lia|by eapply N.le_lt_trans; [apply N.le_add_r|exact Hlt]|]. apply Forall_forall. intros [p s] Hps. simpl.
    assert (s ≤ bw_end window - bw_start window) as Hs.
    { rewrite <- Hsum. apply sum_N_elem. by apply (list_elem_of_fmap_2 snd) in Hps. }
    pose proof (div_mono_num (s * overlap_bps) ((bw_end window - bw_start window) * overlap_bps) 10000 ltac:(nia)) as Hm.
    eapply N.le_lt_trans; [apply N.add_le_mono_l, Hm|exact Hlt]. }
  split; [intros id Hid; by eapply covers_elem|intros p w Hin; by eapply covers_within].
Qed.
End assign.

Definition sample_roster : list RosterEntry := [(5, C1); (9, C2); (3, C3)].
Definition sample_window : BatchWindow := mkBatchWindow 100 200.

Lemma batches_partition_witness :
  contiguous 100 200 (@assign_batches toy_crypto sample_roster 77 sample_window 0).*2.
Proof.
  destruct (@batches_partition toy_crypto sample_roster 77 sample_window) as [Hc _]; [done|by vm_compute|by vm_compute|].
  exact Hc.
Defined.

Lemma batches_agreement_witness :
  @assign_batches toy_crypto sample_roster 77 sample_window 500 =
  @assign_batches toy_crypto [(9, C2); (5, C1); (3, C3)] 77 sample_window 500.
Proof. apply (@batches_agreement toy_crypto); [constructor|apply (bool_decide_unpack _); by vm_compute]. Defined.

Lemma batches_share_witness :
  ∃ w, (9, w) ∈ @assign_batches toy_crypto sample_roster 77 sample_window 0 ∧ 19 ≤ bw_end w - bw_start w ≤ 20.
Proof.
  destruct (@batches_share toy_crypto sample_roster 77 sample_window 9 C2) as (w & Hw & Hb).
  - by vm_compute.
  - by vm_compute.
  - apply (bool_decide_unpack _). by vm_compute.
  - right. left.
  - exists w. split; [done|]. exact Hb.
Defined.

Lemma batches_cover_witness :
  ∃ p w, (p, w) ∈ @assign_batches toy_crypto sample_roster 77 sample_window 1000 ∧ bw_start w ≤ 150 < bw_end w.
Proof.
  destruct (@batches_cover toy_crypto sample_roster 77 sample_window 1000) as [Hc _]; [done|by vm_compute|by vm_compute|].
  apply Hc. simpl. lia.
Defined.
