(* ===== verification/VhcDetState.v ===== *)
(** * The chunk-addressed state contract ([daemon-vhc-proto/src/det_state.rs])

    A family of parameters is chunked parameter by parameter; its identity is the
    fold of the ordered chunk hashes with the geometry, and a fetched byte range is
    checked chunk by chunk.  The canonical encoder is a parameter ([StateCodec]). *)

From S2P Require Import Prelude Text VhcProto VhcMerkle VhcAssignment.

#[local] Open Scope N_scope.
#[local] Open Scope daemon_scope.

Definition DET_STATE_DOMAIN : bytes := string_bytes "daemon-vhc/det-state/1.0.0".
Definition DET_STATE_MANIFEST_FORMAT : N := 1.
Definition STATE_ELEM_BYTES : N := 4.
Definition STATE_CHUNK_SIZE_TARGET : N := N.shiftl 4 20.
Definition MASTER_FAMILY : string := "master".
Definition REPLICATED_FAMILY_PREFIX : bytes := string_bytes "replicated:".

(** ** Geometry *)

(** [Iterator::sum] of [u64]. *)
Definition sum64 (l : list N) : N := foldl (λ a x, wrap64 (a + x)) 0 l.

Definition elem_bytes (numel : N) : N := wrap64 (numel * STATE_ELEM_BYTES).

Definition param_chunk_count (numel chunk_size : N) : N :=
  if chunk_size =? 0 then 0 else div_ceil (elem_bytes numel) chunk_size.

Definition family_chunk_count (numels : list N) (chunk_size : N) : N :=
  sum64 ((λ n, param_chunk_count n chunk_size) <$> numels).

Definition family_byte_len (numels : list N) : N := sum64 (elem_bytes <$> numels).

(** The [while remaining > 0] loop of one parameter, at most one turn per chunk. *)
Fixpoint split_lens (fuel : nat) (remaining chunk_size : N) : list N :=
  match fuel with
  | O => []
  | S fuel' =>
      if 0 <? remaining then
        let take := N.min remaining chunk_size in
        take :: split_lens fuel' (remaining - take) chunk_size
      else []
  end.

Definition param_lens (byte_len chunk_size : N) : list N :=
  split_lens (N.to_nat (div_ceil byte_len chunk_size)) byte_len chunk_size.

(** [take as u32]. *)
Definition family_chunk_lens (numels : list N) (chunk_size : N) : list N :=
  if chunk_size =? 0 then []
  else wrap32 <$> (numels ≫= λ n, param_lens (elem_bytes n) chunk_size).

(** [slice::chunks]. *)
Fixpoint slice_chunks (fuel : nat) (step : nat) (b : bytes) : list bytes :=
  match fuel with
  | O => []
  | S fuel' =>
      match b with
      | [] => []
      | _ :: _ => take step b :: slice_chunks fuel' step (drop step b)
      end
  end.

Definition chunks_of (step : nat) (b : bytes) : list bytes := slice_chunks (length b) step b.

(** ** Chunk maps *)

Record DetStateChunkMap := mkChunkMap {
  cmap_chunk_size : N;
  cmap_byte_len : N;
  cmap_chunks : list (Hash * N)
}.

Section family.
Context `{Crypto}.

Definition fold_preimage (chunk_size byte_len : N) (chunks : list Hash) : bytes :=
  DET_STATE_DOMAIN ++ le_bytes 8 chunk_size ++ le_bytes 8 byte_len ++ (chunks ≫= be_bytes 32).

Definition family_fold (chunk_size byte_len : N) (chunks : list Hash) : Hash :=
  blake3_hash (fold_preimage chunk_size byte_len chunks).

Definition family_chunk_hashes (params : list bytes) (chunk_size : N) : list Hash :=
  if chunk_size =? 0 then []
  else blake3_hash <$> (params ≫= chunks_of (N.to_nat chunk_size)).

Definition cmap_derive (chunk_size : N) (numels : list N) (chunk_hashes : list Hash)
    : result VhcProtoError DetStateChunkMap :=
  let lens := family_chunk_lens numels chunk_size in
  if negb (length lens =? length chunk_hashes)%nat then Err EValidation
  else Ok (mkChunkMap chunk_size (family_byte_len numels) (zip chunk_hashes lens)).

Definition cmap_fold (m : DetStateChunkMap) : Hash :=
  family_fold (cmap_chunk_size m) (cmap_byte_len m) (cmap_chunks m).*1.

(** The length check of every chunk, with the running total. *)
Fixpoint total_lens (chunk_size total : N) (chunks : list (Hash * N)) : option N :=
  match chunks with
  | [] => Some total
  | (_, len) :: chunks' =>
      if (len =? 0) || (chunk_size <? len) then None
      else total_lens chunk_size (wrap64 (total + len)) chunks'
  end.

Definition cmap_validate (m : DetStateChunkMap) : result VhcProtoError unit :=
  if (cmap_chunk_size m =? 0) || (cmap_byte_len m =? 0) || bool_decide (cmap_chunks m = []) then Err EValidation
  else match total_lens (cmap_chunk_size m) 0 (cmap_chunks m) with
       | None => Err EValidation
       | Some total => if total =? cmap_byte_len m then Ok tt else Err EValidation
       end.

(** The loop of [covering_span]: the cursor and the span found so far. *)
Fixpoint span_loop (off end_ : N) (cursor : N) (span : option (N * N)) (chunks : list (Hash * N)) : option (N * N) :=
  match chunks with
  | [] => span
  | (_, len) :: chunks' =>
      let chunk_start := cursor in
      let chunk_end := wrap64 (cursor + len) in
      if chunk_end <=? off then span_loop off end_ chunk_end span chunks'
      else if end_ <=? chunk_start then span
      else
        let span_off := match span with Some (o, _) => o | None => chunk_start end in
        span_loop off end_ chunk_end (Some (span_off, chunk_end)) chunks'
  end.

Definition covering_span (m : DetStateChunkMap) (off end_ : N) : N * N :=
  if end_ <=? off then (off, 0)
  else match span_loop off end_ 0 None (cmap_chunks m) with
       | None => (off, 0)
       | Some (span_off, span_end) => (span_off, wrap_sub span_end span_off)
       end.

(** Skip chunks until the cursor reaches the offset. *)
Fixpoint seek (span_off cursor : N) (chunks : list (Hash * N)) : N * list (Hash * N) :=
  match chunks with
  | [] => (cursor, [])
  | (h, len) :: chunks' =>
      if cursor <? span_off then seek span_off (wrap64 (cursor + len)) chunks' else (cursor, chunks)
  end.

Fixpoint verify_chunks (chunks : list (Hash * N)) (b : bytes) : result VhcProtoError unit :=
  match b, chunks with
  | [], _ => Ok tt
  | _ :: _, [] => Err EValidation
  | _ :: _, (hash, len) :: chunks' =>
      if N.of_nat (length b) <? len then Err EValidation
      else if negb (blake3_hash (take (N.to_nat len) b) =? hash) then Err EValidation
      else verify_chunks chunks' (drop (N.to_nat len) b)
  end.

Definition verify_covering_span (m : DetStateChunkMap) (span_off : N) (b : bytes) : result VhcProtoError unit :=
  let '(cursor, rest) := seek span_off 0 (cmap_chunks m) in
  if negb (cursor =? span_off) then Err EValidation else verify_chunks rest b.

Fixpoint take_chunks (remaining : N) (chunks : list (Hash * N)) : result VhcProtoError (list (Hash * N)) :=
  if remaining =? 0 then Ok []
  else match chunks with
       | [] => Err EValidation
       | (hash, len) :: chunks' =>
           if remaining <? len then Err EValidation
           else match take_chunks (remaining - len) chunks' with
                | Ok out => Ok ((hash, len) :: out)
                | Err e => Err e
                end
       end.

Definition covering_chunks (m : DetStateChunkMap) (span_off span_len : N)
    : result VhcProtoError (list (Hash * N)) :=
  let '(cursor, rest) := seek span_off 0 (cmap_chunks m) in
  if negb (cursor =? span_off) then Err EValidation else take_chunks span_len rest.
End family.

(** ** Manifests *)

Record LayoutBinding := mkLayoutBinding { lb_params : N; lb_numels : Hash }.

#[export] Instance LayoutBinding_eq_dec : EqDecision LayoutBinding.
Proof. solve_decision. Defined.

Record FamilyEntry := mkFamilyEntry { fe_fold : Hash; fe_byte_len : N; fe_chunk_hashes : list Hash }.

(** A [BTreeMap] over the names of the families. *)
Record DetStateManifest := mkDetStateManifest {
  dm_format : N;
  dm_run_id : Hash;
  dm_round : N;
  dm_layout : LayoutBinding;
  dm_chunk_size : N;
  dm_families : gmap string FamilyEntry
}.

Record FamilyRef := mkFamilyRef { fr_fold : Hash; fr_byte_len : N; fr_chunk_size : N; fr_chunk_hashes : list Hash }.

(** The canonical encodings; [None] is a codec error. *)
Class StateCodec := {
  numels_vec : list N → option bytes;
  manifest_vec : DetStateManifest → option bytes
}.

Section manifest.
Context `{Crypto, StateCodec}.

Definition of_numels (numels : list N) : result VhcProtoError LayoutBinding :=
  match numels_vec numels with
  | None => Err ECodec
  | Some b => Ok (mkLayoutBinding (N.of_nat (length numels)) (blake3_hash b))
  end.

Definition FamilyEntry_author (params : list bytes) (chunk_size : N) : result VhcProtoError FamilyEntry :=
  if (chunk_size =? 0) || bool_decide (params = []) || existsb (λ p, bool_decide (p = [])) params
  then Err EValidation
  else
    let chunk_hashes := family_chunk_hashes params chunk_size in
    let byte_len := sum64 ((λ p, N.of_nat (length p)) <$> params) in
    Ok (mkFamilyEntry (family_fold chunk_size byte_len chunk_hashes) byte_len chunk_hashes).

(** The checks of one family of the map. *)
Definition family_check (params chunk_size : N) (name : string) (family : FamilyEntry) : bool :=
  (bool_decide (name = MASTER_FAMILY) || starts_with REPLICATED_FAMILY_PREFIX (string_bytes name)) &&
  negb (fe_byte_len family =? 0) &&
  (let floor := div_ceil (fe_byte_len family) chunk_size in
   let ceiling := sat_add (div_ceil (fe_byte_len family) chunk_size) params in
   let declared := N.of_nat (length (fe_chunk_hashes family)) in
   negb ((declared <? floor) || (ceiling <? declared))) &&
  (family_fold chunk_size (fe_byte_len family) (fe_chunk_hashes family) =? fe_fold family).

Definition dm_validate (m : DetStateManifest) : result VhcProtoError unit :=
  if negb (dm_format m =? DET_STATE_MANIFEST_FORMAT) then Err EValidation
  else if dm_chunk_size m =? 0 then Err EValidation
  else if lb_params (dm_layout m) =? 0 then Err EValidation
  else match dm_families m !! MASTER_FAMILY with
       | None => Err EValidation
       | Some _ =>
           if forallb (λ '(name, family), family_check (lb_params (dm_layout m)) (dm_chunk_size m) name family)
                (map_to_list (dm_families m))
           then Ok tt else Err EValidation
       end.

Definition validate_with_numels (m : DetStateManifest) (numels : list N) : result VhcProtoError unit :=
  match dm_validate m with
  | Err e => Err e
  | Ok _ =>
      match of_numels numels with
      | Err e => Err e
      | Ok binding =>
          if negb (bool_decide (binding = dm_layout m)) then Err EValidation
          else if forallb (λ '(_, family),
                 (fe_byte_len family =? family_byte_len numels) &&
                 (N.of_nat (length (fe_chunk_hashes family)) =? family_chunk_count numels (dm_chunk_size m)))
               (map_to_list (dm_families m))
          then Ok tt else Err EValidation
      end
  end.

Definition dm_to_canonical_bytes (m : DetStateManifest) : result VhcProtoError bytes :=
  match dm_validate m with
  | Err e => Err e
  | Ok _ => match manifest_vec m with Some b => Ok b | None => Err ECodec end
  end.

Definition state_root (m : DetStateManifest) : result VhcProtoError Hash :=
  match dm_to_canonical_bytes m with Err e => Err e | Ok b => Ok (blake3_hash b) end.

Definition FamilyRef_validate (f : FamilyRef) : result VhcProtoError unit :=
  if (fr_chunk_size f =? 0) || (fr_byte_len f =? 0) || bool_decide (fr_chunk_hashes f = []) then Err EValidation
  else if family_fold (fr_chunk_size f) (fr_byte_len f) (fr_chunk_hashes f) =? fr_fold f then Ok tt
  else Err EValidation.
End manifest.

(** ** Authoring rules *)

Definition is_multiple_of (x w : N) : bool := if w =? 0 then x =? 0 else x mod w =? 0.

Definition validate_profile_chunk (profile_chunk : N) (numels : list N) : result VhcProtoError unit :=
  if profile_chunk =? 0 then Err EValidation
  else if bool_decide (numels = []) then Err EValidation
  else if forallb (λ n, is_multiple_of n profile_chunk) numels then Ok tt else Err EValidation.

Definition validate_state_chunk_size (state_chunk_size profile_chunk : N) : result VhcProtoError unit :=
  if profile_chunk =? 0 then Err EValidation
  else
    let width := wrap64 (profile_chunk * STATE_ELEM_BYTES) in
    if (state_chunk_size =? 0) || negb (is_multiple_of state_chunk_size width) then Err EValidation else Ok tt.

(** [None] is the division by zero when the width wraps to zero. *)
Definition derive_state_chunk_size (profile_chunk : N) : option N :=
  let width := wrap64 (N.max profile_chunk 1 * STATE_ELEM_BYTES) in
  if width =? 0 then None
  else
    let multiples := N.max (STATE_CHUNK_SIZE_TARGET / width) 1 in
    Some (wrap64 (multiples * width)).

Definition validate_checkpoint_cadence (remote_cadence_rounds payload_retention_rounds : N)
    : result VhcProtoError unit :=
  if remote_cadence_rounds =? 0 then Ok tt
  else if RETAINED_RECORD_HORIZON_ROUNDS <? sat_mul remote_cadence_rounds 2 then Err EValidation
  else if payload_retention_rounds =? 0 then Ok tt
  else if payload_retention_rounds <? sat_mul remote_cadence_rounds 2 then Err EValidation
  else Ok tt.
