(* ===== verification/VhcDetCustody.v ===== *)
(** * The chain of custody of state bytes

    Chunk hashes, the family fold and the chunk map pin the bytes of a family: a
    byte range that verifies against a chunk map with the right fold is that range
    of the family. *)

From S2P Require Import Prelude Text VhcProto VhcMerkle VhcAssignment VhcCommittee VhcDetState.

#[local] Open Scope N_scope.
#[local] Open Scope daemon_scope.

(** ** Splitting *)

Definition len_N {A} (l : list A) : N := N.of_nat (length l).

Lemma len_N_app {A} (l k : list A) : len_N (l ++ k) = len_N l + len_N k.
Proof. unfold len_N. rewrite length_app. lia. Qed.

Lemma sum_N_app l k : sum_N (l ++ k) = sum_N l + sum_N k.
Proof. induction l as [|x l IH]; simpl; [done|]. unfold sum_N in *. simpl. lia. Qed.

Lemma sum_N_cons x l : sum_N (x :: l) = x + sum_N l.
Proof. done. Qed.

Lemma sum64_from a l : a + sum_N l < u64_bound → foldl (λ a x, wrap64 (a + x)) a l = a + sum_N l.
Proof.
  revert a. induction l as [|x l IH]; intros a Hb; cbn [foldl]; [unfold sum_N; simpl; lia|].
  rewrite sum_N_cons in *. rewrite wrap64_small, IH; lia.
Qed.

Lemma sum64_small l : sum_N l < u64_bound → sum64 l = sum_N l.
Proof. intros Hb. unfold sum64. by rewrite sum64_from. Qed.

Lemma slice_chunks_concat fuel step b :
  (0 < step)%nat → (length b ≤ fuel)%nat → mjoin (slice_chunks fuel step b) = b.
Proof.
  intros Hs. revert b. induction fuel as [|fuel IH]; intros b Hb; [by destruct b; simpl in *; [|lia]|].
  cbn [slice_chunks]. destruct b as [|x b]; [done|]. remember (x :: b) as l eqn:El.
  csimpl. rewrite IH; [apply take_drop|]. rewrite length_drop. subst. simpl in *. lia.
Qed.

Lemma chunks_of_concat step b : (0 < step)%nat → mjoin (chunks_of step b) = b.
Proof. intros. by apply slice_chunks_concat. Qed.

Lemma slice_chunks_lens fuel fuel' step b :
  (0 < step)%nat → (length b ≤ fuel)%nat → (length b ≤ fuel' * step)%nat →
  len_N <$> slice_chunks fuel step b = split_lens fuel' (len_N b) (N.of_nat step).
Proof.
  intros Hs. revert fuel' b. induction fuel as [|fuel IH]; intros fuel' b Hb Hb'.
  { destruct b; simpl in *; [|lia]. by destruct fuel'. }
  cbn [slice_chunks]. destruct b as [|x b]; [by destruct fuel'|]. remember (x :: b) as l eqn:El.
  assert (0 < length l)%nat as Hl by (subst; simpl; lia). clear El x b.
  destruct fuel' as [|fuel']; [lia|]. cbn [split_lens]. unfold len_N at 2.
  rewrite (proj2 (N.ltb_lt _ _)) by lia. csimpl.
  assert (len_N (take step l) = N.min (len_N l) (N.of_nat step)) as ->
    by (unfold len_N; rewrite length_take; lia).
  f_equal. rewrite (IH fuel'); [|rewrite length_drop; lia..]. f_equal. unfold len_N. rewrite length_drop. lia.
Qed.

Lemma chunks_of_lens chunk_size b :
  0 < chunk_size → len_N <$> chunks_of (N.to_nat chunk_size) b = param_lens (len_N b) chunk_size.
Proof.
  intros Hc. unfold chunks_of, param_lens. erewrite slice_chunks_lens; [by rewrite N2Nat.id|lia|done|].
  destruct (div_ceil_spec (len_N b) chunk_size Hc) as [Hd _]. unfold len_N in *. lia.
Qed.

Lemma split_lens_spec fuel remaining chunk_size :
  0 < chunk_size → remaining ≤ N.of_nat fuel * chunk_size →
  sum_N (split_lens fuel remaining chunk_size) = remaining ∧
  Forall (λ l, 0 < l ∧ l ≤ chunk_size) (split_lens fuel remaining chunk_size).
Proof.
  intros Hc. revert remaining. induction fuel as [|fuel IH]; intros r Hr.
  { simpl in *. split; [unfold sum_N; simpl; lia|constructor]. }
  cbn [split_lens]. destruct (N.ltb_spec 0 r); [|split; [unfold sum_N; simpl; lia|constructor]].
  destruct (IH (r - N.min r chunk_size)) as [Hs Hf]; [lia|]. rewrite sum_N_cons, Hs. split; [lia|].
  constructor; [lia|done].
Qed.

Lemma div_ceil_unique a b q : 0 < b → a ≤ b * q → b * q < a + b → div_ceil a b = q.
Proof.
  intros Hb H1 H2. destruct (div_ceil_spec a b Hb) as [H3 H4]. generalize dependent (div_ceil a b). intros k H3 H4.
  destruct (N.lt_trichotomy k q) as [Hlt|[->|Hlt]]; [|done|].
  - pose proof (N.mul_le_mono_l (k + 1) q b ltac:(lia)). lia.
  - pose proof (N.mul_le_mono_l (q + 1) k b ltac:(lia)). lia.
Qed.

Lemma split_lens_length fuel remaining chunk_size :
  0 < chunk_size → remaining ≤ N.of_nat fuel * chunk_size →
  N.of_nat (length (split_lens fuel remaining chunk_size)) = div_ceil remaining chunk_size.
Proof.
  intros Hc. revert remaining. induction fuel as [|fuel IH]; intros r Hr.
  { simpl in *. assert (r = 0) as -> by lia. destruct (div_ceil_spec 0 chunk_size Hc) as [_ Hd].
    destruct (div_ceil 0 chunk_size); [done|nia]. }
  cbn [split_lens]. destruct (div_ceil_spec r chunk_size Hc) as [H1 H2]. destruct (N.ltb_spec 0 r).
  - cbn [length]. rewrite Nat2N.inj_succ, IH by lia.
    symmetry. destruct (div_ceil_spec (r - N.min r chunk_size) chunk_size Hc) as [H3 H4].
    generalize dependent (div_ceil (r - N.min r chunk_size) chunk_size). intros q H3 H4.
    assert (r ≤ chunk_size → q = 0) as Hq by (intros; destruct q; [done|nia]).
    apply div_ceil_unique; [done|..]; rewrite N.mul_succ_r; destruct (N.le_gt_cases r chunk_size);
      rewrite ?Hq by done; lia.
  - simpl. assert (r = 0) as -> by lia. destruct (div_ceil 0 chunk_size); [done|nia].
Qed.

Lemma param_lens_fuel byte_len chunk_size :
  0 < chunk_size → byte_len ≤ N.of_nat (N.to_nat (div_ceil byte_len chunk_size)) * chunk_size.
Proof. intros Hc. rewrite N2Nat.id. pose proof (div_ceil_spec byte_len chunk_size Hc). lia. Qed.

(** ** Seeking *)

Definition lens_sum (chunks : list (Hash * N)) : N := sum_N chunks.*2.

Lemma lens_sum_app l k : lens_sum (l ++ k) = lens_sum l + lens_sum k.
Proof. unfold lens_sum. by rewrite fmap_app, sum_N_app. Qed.

Lemma lens_sum_cons h n l : lens_sum ((h, n) :: l) = n + lens_sum l.
Proof. done. Qed.

Lemma seek_spec off cur chunks cursor rest :
  cur + lens_sum chunks < u64_bound → seek off cur chunks = (cursor, rest) →
  ∃ pre, chunks = pre ++ rest ∧ cursor = cur + lens_sum pre.
Proof.
  revert cur. induction chunks as [|[h n] chunks IH]; intros cur Hb; cbn [seek].
  { intros [= <- <-]. exists []. unfold lens_sum, sum_N. simpl. split; [done|lia]. }
  rewrite lens_sum_cons in Hb. destruct (cur <? off).
  - rewrite wrap64_small by lia. intros (pre & -> & ->)%IH; [|lia].
    exists ((h, n) :: pre). rewrite lens_sum_cons. split; [done|lia].
  - intros [= <- <-]. exists []. unfold lens_sum, sum_N. simpl. split; [done|lia].
Qed.

(** Seeking to the start of a chunk finds it. *)
Lemma seek_boundary cur pre rest :
  Forall (λ c : Hash * N, 0 < c.2) pre → Forall (λ c : Hash * N, 0 < c.2) rest →
  cur + lens_sum (pre ++ rest) < u64_bound →
  seek (cur + lens_sum pre) cur (pre ++ rest) = (cur + lens_sum pre, rest).
Proof.
  intros Hp Hr. revert cur. induction Hp as [|[h n] pre Hn _ IH]; intros cur Hb; simpl in *.
  { unfold lens_sum, sum_N. simpl. rewrite N.add_0_r. destruct rest as [|[h n] rest]; cbn [seek]; [done|].
    by rewrite N.ltb_irrefl. }
  rewrite lens_sum_cons in *. cbn [seek]. rewrite (proj2 (N.ltb_lt _ _)), wrap64_small by lia.
  specialize (IH (cur + n) ltac:(lia)). by rewrite !N.add_assoc in *.
Qed.

(** ** Bytes and their chunks *)

Section custody.
Context `{Crypto}.

Definition chunkify (cs : list bytes) : list (Hash * N) := (λ c, (blake3_hash c, len_N c)) <$> cs.

Lemma chunkify_lens cs : (chunkify cs).*2 = len_N <$> cs.
Proof. unfold chunkify. by rewrite <- list_fmap_compose. Qed.

Lemma chunkify_sum cs : lens_sum (chunkify cs) = len_N (mjoin cs).
Proof.
  induction cs as [|c cs IH]; [done|]. csimpl. change (chunkify (c :: cs)) with ((blake3_hash c, len_N c) :: chunkify cs).
  by rewrite lens_sum_cons, len_N_app, IH.
Qed.

Lemma verify_chunks_cons h n chunks b :
  b ≠ [] → verify_chunks ((h, n) :: chunks) b =
    if N.of_nat (length b) <? n then Err EValidation
    else if negb (blake3_hash (take (N.to_nat n) b) =? h) then Err EValidation
    else verify_chunks chunks (drop (N.to_nat n) b).
Proof. by destruct b. Qed.

(** The byte strings hashed to check [b] against a list of chunks. *)
Fixpoint span_inputs (chunks : list (Hash * N)) (b : bytes) : list bytes :=
  match b, chunks with
  | _ :: _, (_, len) :: chunks' => take (N.to_nat len) b :: span_inputs chunks' (drop (N.to_nat len) b)
  | _, _ => []
  end.

Lemma verify_chunks_sound D cs b :
  cs ⊆ D → span_inputs (chunkify cs) b ⊆ D →
  verify_chunks (chunkify cs) b = Ok tt → b = take (length b) (mjoin cs) ∨ collision_in D.
Proof.
  revert b. induction cs as [|c cs IH]; intros b HD HD'; [destruct b; [by left|done]|].
  change (chunkify (c :: cs)) with ((blake3_hash c, len_N c) :: chunkify cs).
  change (chunkify (c :: cs)) with ((blake3_hash c, len_N c) :: chunkify cs) in HD'.
  destruct (decide (b = [])) as [->|Hb]; [by left|]. rewrite verify_chunks_cons by done.
  assert (take (N.to_nat (len_N c)) b ∈ D ∧ span_inputs (chunkify cs) (drop (N.to_nat (len_N c)) b) ⊆ D)
    as [HD1 HD2] by (destruct b; [done|]; simpl span_inputs in HD'; set_solver).
  destruct (N.ltb_spec (N.of_nat (length b)) (len_N c)) as [|Hle]; [done|].
  destruct (N.eqb_spec (blake3_hash (take (N.to_nat (len_N c)) b)) (blake3_hash c)) as [Heq|]; [|done]. cbn [negb].
  intros Hv. apply (hash_inj D) in Heq as [Heq|?]; [|by right|done|set_solver].
  destruct (IH _ ltac:(set_solver) HD2 Hv) as [Hd|?]; [|by right]. left.
  unfold len_N in *. rewrite Nat2N.id in *. csimpl. rewrite take_app_ge by lia.
  rewrite <- (take_drop (length c) b) at 1. rewrite Heq, Hd at 1. by rewrite length_drop.
Qed.

Lemma verify_chunks_complete cs pre post :
  cs = pre ++ post → Forall (λ c, c ≠ []) cs → verify_chunks (chunkify cs) (mjoin pre) = Ok tt.
Proof.
  revert cs. induction pre as [|c pre IH]; intros cs -> Hne; [by destruct post|].
  change (chunkify ((c :: pre) ++ post)) with ((blake3_hash c, len_N c) :: chunkify (pre ++ post)).
  change (mjoin (c :: pre)) with (c ++ mjoin pre). apply Forall_cons in Hne as [Hc Hne].
  rewrite verify_chunks_cons by (by destruct c). unfold len_N. rewrite Nat2N.id, length_app.
  rewrite (proj2 (N.ltb_ge _ _)), take_app_length, N.eqb_refl, drop_app_length by lia. by apply IH.
Qed.

(** ** Layouts *)

(** The parameter sizes of a layout are the byte lengths of the parameters. *)
Definition layout_of (numels : list N) (params : list bytes) : Prop := elem_bytes <$> numels = len_N <$> params.

Definition param_chunks (chunk_size : N) (params : list bytes) : list bytes :=
  params ≫= chunks_of (N.to_nat chunk_size).

Lemma layout_lens numels params chunk_size :
  0 < chunk_size → layout_of numels params →
  (numels ≫= λ n, param_lens (elem_bytes n) chunk_size) = len_N <$> param_chunks chunk_size params.
Proof.
  intros Hc. unfold layout_of. revert params. induction numels as [|n numels IH]; intros [|p params] Hl; try done.
  csimpl in *. injection Hl as Hn Hl. unfold param_chunks in *. csimpl.
  by rewrite fmap_app, chunks_of_lens, Hn, (IH params).
Qed.

Lemma param_chunks_lens chunk_size params :
  0 < chunk_size → Forall (λ c, 0 < len_N c ≤ chunk_size) (param_chunks chunk_size params).
Proof.
  intros Hc. apply Forall_forall. intros c (p & Hin & Hp)%list_elem_of_bind.
  assert (len_N c ∈ param_lens (len_N p) chunk_size) as Hl by (rewrite <- chunks_of_lens by done; by apply list_elem_of_fmap_2).
  unfold param_lens in Hl. destruct (split_lens_spec _ _ _ Hc (param_lens_fuel (len_N p) chunk_size Hc)) as [_ Hf].
  rewrite Forall_forall in Hf. by apply Hf.
Qed.

Lemma param_chunks_concat chunk_size params : 0 < chunk_size → mjoin (param_chunks chunk_size params) = mjoin params.
Proof.
  intros Hc. unfold param_chunks. induction params as [|p params IH]; [done|]. csimpl.
  rewrite join_app, IH, chunks_of_concat by lia. done.
Qed.

Lemma family_lens numels params chunk_size :
  0 < chunk_size → chunk_size < u32_bound → layout_of numels params →
  family_chunk_lens numels chunk_size = len_N <$> param_chunks chunk_size params.
Proof.
  intros Hc Hb Hl. unfold family_chunk_lens. destruct (N.eqb_spec chunk_size 0) as [|_]; [lia|].
  rewrite (layout_lens numels params) by done. rewrite <- list_fmap_compose. apply list_fmap_ext.
  intros i c Hi. simpl. apply wrap32_small. pose proof (param_chunks_lens chunk_size params Hc) as Hf.
  rewrite Forall_lookup in Hf. specialize (Hf i c Hi). lia.
Qed.
End custody.

(** ** The fold *)

Lemma be32_bind_inj (l k : list Hash) :
  Forall (λ h, h < bytes32) l → Forall (λ h, h < bytes32) k →
  (l ≫= be_bytes 32) = (k ≫= be_bytes 32) → l = k.
Proof.
  intros Hl. revert k. induction Hl as [|x l Hx _ IH]; intros [|y k] Hk Heq; [done| | |].
  - discriminate Heq.
  - discriminate Heq.
  - apply Forall_cons in Hk as [Hy Hk].
    change (be_bytes 32 x ++ (l ≫= be_bytes 32) = be_bytes 32 y ++ (k ≫= be_bytes 32)) in Heq.
    apply app_inj_1 in Heq as [Hxy Heq]; [|by rewrite !length_be_bytes].
    apply be_bytes_inj in Hxy; [|by rewrite <- bytes32_pow..]. subst. f_equal. by apply IH.
Qed.

Section fold.
Context `{Crypto}.

(** A fold pins the geometry and the ordered chunk hashes. *)
Lemma fold_binding D c c' b b' l l' :
  c < u64_bound → c' < u64_bound → b < u64_bound → b' < u64_bound →
  Forall (λ h, h < bytes32) l → Forall (λ h, h < bytes32) l' →
  fold_preimage c b l ∈ D → fold_preimage c' b' l' ∈ D →
  family_fold c b l = family_fold c' b' l' → (c = c' ∧ b = b' ∧ l = l') ∨ collision_in D.
Proof.
  intros Hc Hc' Hb Hb' Hl Hl' HD HD' [Heq|?]%(hash_inj D); [|by right|done..]. left. unfold fold_preimage in Heq.
  apply app_inv_head in Heq. apply app_inj_1 in Heq as [H1 Heq]; [|by rewrite !length_le_bytes].
  apply app_inj_1 in Heq as [H2 Heq]; [|by rewrite !length_le_bytes].
  split_and!; [by apply le8_inj|by apply le8_inj|by apply be32_bind_inj].
Qed.

Lemma author_ok params chunk_size entry :
  FamilyEntry_author params chunk_size = Ok entry →
  0 < chunk_size ∧ params ≠ [] ∧ Forall (λ p, p ≠ []) params ∧
  entry = mkFamilyEntry
    (family_fold chunk_size (sum64 (len_N <$> params)) (family_chunk_hashes params chunk_size))
    (sum64 (len_N <$> params)) (family_chunk_hashes params chunk_size).
Proof.
  unfold FamilyEntry_author. destruct (N.eqb_spec chunk_size 0); [done|]. cbn [orb].
  destruct (bool_decide_reflect (params = [])); [done|]. cbn [orb].
  destruct (existsb _ params) eqn:E; [done|]. intros [= <-]. split_and!; [lia|done| |done].
  apply existsb_false_Forall in E. eapply Forall_impl; [exact E|]. intros p Hp. by apply bool_decide_eq_false in Hp.
Qed.

Lemma author_hashes params chunk_size :
  0 < chunk_size → family_chunk_hashes params chunk_size = blake3_hash <$> param_chunks chunk_size params.
Proof. intros Hc. unfold family_chunk_hashes. by destruct (N.eqb_spec chunk_size 0); [lia|]. Qed.

Lemma hashes_lt params chunk_size : Forall (λ h, h < bytes32) (family_chunk_hashes params chunk_size).
Proof.
  unfold family_chunk_hashes. destruct (chunk_size =? 0); [constructor|].
  apply Forall_fmap, Forall_forall. intros c _. apply blake3_len.
Qed.

Lemma sum_join (params : list bytes) : sum_N (len_N <$> params) = len_N (mjoin params).
Proof.
  induction params as [|p params IH]; [done|].
  change (mjoin (p :: params)) with (p ++ mjoin params). by rewrite fmap_cons, sum_N_cons, len_N_app, IH.
Qed.

(** The map derived from the layout and the authored hashes lists the chunks. *)
Lemma derive_authored params numels chunk_size :
  0 < chunk_size → chunk_size < u32_bound → layout_of numels params →
  cmap_derive chunk_size numels (family_chunk_hashes params chunk_size) =
    Ok (mkChunkMap chunk_size (sum64 (len_N <$> params)) (chunkify (param_chunks chunk_size params))).
Proof.
  intros Hc Hb Hl. unfold cmap_derive. rewrite (family_lens numels params), author_hashes by done.
  rewrite !length_fmap, Nat.eqb_refl. cbn [negb]. unfold family_byte_len. rewrite Hl. f_equal. f_equal.
  unfold chunkify. rewrite zip_with_fmap_l, zip_with_fmap_r.
  induction (param_chunks chunk_size params) as [|c cs IH]; [done|]. csimpl. by f_equal.
Qed.

(** The byte strings hashed to author a family, and to check a chunk map and the
    bytes of a span against it. *)
Definition author_inputs (params : list bytes) (chunk_size : N) (entry : FamilyEntry) : list bytes :=
  fold_preimage chunk_size (fe_byte_len entry) (fe_chunk_hashes entry) :: param_chunks chunk_size params.

Definition check_inputs (m : DetStateChunkMap) (off : N) (b : bytes) : list bytes :=
  fold_preimage (cmap_chunk_size m) (cmap_byte_len m) (cmap_chunks m).*1 ::
    span_inputs (seek off 0 (cmap_chunks m)).2 b.

(** C18. The chain of custody: a chunk list whose map has the fold of an
    authored family, with the lengths derived from the layout, admits at an offset
    only the bytes the family has there, whoever served them, unless authoring the
    family and checking the bytes have hashed two different byte strings to one
    value. *)
Theorem custody_chain params numels chunk_size entry hashes m off b :
  chunk_size < u32_bound → len_N (mjoin params) < u64_bound → Forall (λ h, h < bytes32) hashes →
  FamilyEntry_author params chunk_size = Ok entry → layout_of numels params →
  cmap_derive chunk_size numels hashes = Ok m → cmap_fold m = fe_fold entry →
  verify_covering_span m off b = Ok tt →
  b = take (length b) (drop (N.to_nat off) (mjoin params)) ∨
  collision_in (author_inputs params chunk_size entry ++ check_inputs m off b).
Proof.
  intros Hc Hb Hh (Hc0 & _ & _ & ->)%author_ok Hl Hd Hf Hv.
  assert (sum64 (len_N <$> params) = len_N (mjoin params)) as Hs by (rewrite sum64_small; rewrite sum_join; done).
  set (D := _ ++ _). unfold author_inputs, check_inputs in D. cbn [fe_byte_len fe_chunk_hashes] in D.
  assert (hashes = family_chunk_hashes params chunk_size ∨ collision_in D) as [->|?]; [|idtac|by right].
  { unfold cmap_derive in Hd. destruct (Nat.eqb_spec (length (family_chunk_lens numels chunk_size)) (length hashes)) as [Hlen|];
      [|done]. cbn [negb] in Hd. injection Hd as <-. unfold cmap_fold in Hf. cbn [cmap_chunks cmap_chunk_size cmap_byte_len] in Hf.
    rewrite fst_zip in Hf by lia. apply (fold_binding D) in Hf as [(_ & _ & ?)|?];
      [by left|by right| | | | |done|apply hashes_lt|subst D; cbn [cmap_chunks cmap_chunk_size cmap_byte_len];
        rewrite fst_zip by lia; set_solver|set_solver].
    - unfold u32_bound, u64_bound in *. lia.
    - unfold u32_bound, u64_bound in *. lia.
    - unfold family_byte_len. by rewrite Hl, Hs.
    - by rewrite Hs. }
  rewrite (derive_authored params) in Hd by done. injection Hd as <-. unfold verify_covering_span in Hv.
  cbn [cmap_chunks] in *. destruct (seek off 0 _) as [cursor rest] eqn:E. cbn [snd] in D.
  assert (param_chunks chunk_size params ⊆ D ∧ span_inputs rest b ⊆ D) as [HD1 HD2] by set_solver. clearbody D.
  assert (0 + lens_sum (chunkify (param_chunks chunk_size params)) < u64_bound) as Hsum
    by (rewrite chunkify_sum, param_chunks_concat; done).
  apply seek_spec in E as (pre & Hpre & ->); [|done].
  destruct (N.eqb_spec (0 + lens_sum pre) off) as [<-|]; [|done]. cbn [negb] in Hv.
  unfold chunkify in Hpre. apply fmap_app_inv in Hpre as (cs1 & cs2 & -> & -> & Hcs).
  destruct (verify_chunks_sound D cs2 b ltac:(rewrite Hcs in HD1; set_solver) HD2 Hv) as [Hbytes|?]; [|by right]. left.
  rewrite <- (param_chunks_concat chunk_size) by done. rewrite Hcs, join_app.
  fold (chunkify cs1). rewrite chunkify_sum, N.add_0_l. unfold len_N. by rewrite Nat2N.id, drop_app_length.
Qed.
End fold.

(** ** Covering spans *)

Lemma total_lens_spec chunk_size total chunks t :
  total + lens_sum chunks < u64_bound → total_lens chunk_size total chunks = Some t →
  t = total + lens_sum chunks ∧ Forall (λ c : Hash * N, 0 < c.2 ∧ c.2 ≤ chunk_size) chunks.
Proof.
  revert total. induction chunks as [|[h n] chunks IH]; intros total Hb; cbn [total_lens].
  { intros [= <-]. unfold lens_sum, sum_N. simpl. split; [lia|constructor]. }
  rewrite lens_sum_cons in *. destruct (N.eqb_spec n 0); [done|]. destruct (N.ltb_spec chunk_size n); [done|].
  cbn [orb]. rewrite wrap64_small by lia. intros [-> Hf]%IH; [|lia]. split; [lia|]. constructor; [simpl; lia|done].
Qed.

Lemma total_lens_ok chunk_size total chunks :
  total + lens_sum chunks < u64_bound → Forall (λ c : Hash * N, 0 < c.2 ∧ c.2 ≤ chunk_size) chunks →
  total_lens chunk_size total chunks = Some (total + lens_sum chunks).
Proof.
  intros Hb Hf. revert total Hb. induction Hf as [|[h n] chunks [Hn Hle] _ IH]; intros total Hb.
  { unfold lens_sum, sum_N. simpl. f_equal. lia. }
  cbn [total_lens]. rewrite lens_sum_cons in *. simpl in Hn, Hle.
  destruct (N.eqb_spec n 0); [lia|]. destruct (N.ltb_spec chunk_size n); [lia|]. cbn [orb].
  rewrite wrap64_small by lia. rewrite IH by lia. f_equal. lia.
Qed.

(** What a span over [mid] after [cur] bytes satisfies at its far end. *)
Definition ends_at (end_ cur : N) (mid post : list (Hash * N)) : Prop :=
  (end_ ≤ cur + lens_sum mid ∨ post = []) ∧ (∀ mid' x, mid = mid' ++ [x] → cur + lens_sum mid' < end_).

Lemma span_loop_extend off end_ o cur chunks :
  off < cur → cur + lens_sum chunks < u64_bound → Forall (λ c : Hash * N, 0 < c.2) chunks →
  ∃ mid post, chunks = mid ++ post ∧ ends_at end_ cur mid post ∧
    span_loop off end_ cur (Some (o, cur)) chunks = Some (o, cur + lens_sum mid).
Proof.
  intros Hoff Hb Hf. revert cur Hoff Hb. induction Hf as [|[h n] chunks Hn Hf IH]; intros cur Hoff Hb.
  { exists [], []. split; [done|]. unfold lens_sum, sum_N. simpl. rewrite N.add_0_r. split; [|done].
    split; [by right|]. by intros [|??] ? ?. }
  rewrite lens_sum_cons in Hb. simpl in Hn. cbn [span_loop]. rewrite wrap64_small by lia.
  destruct (N.leb_spec (cur + n) off); [lia|]. destruct (N.leb_spec end_ cur).
  { exists [], ((h, n) :: chunks). split; [done|]. unfold ends_at, lens_sum, sum_N. simpl. rewrite N.add_0_r.
    split; [|done]. split; [left; lia|]. by intros [|??] ? ?. }
  destruct (IH (cur + n)) as (mid & post & -> & [He Hl] & ->); [lia..|].
  exists ((h, n) :: mid), post. rewrite lens_sum_cons, N.add_assoc. split; [done|]. split; [|done]. unfold ends_at.
  rewrite lens_sum_cons, N.add_assoc. split; [done|]. intros [|y mid'] x Heq; simplify_eq/=.
  - unfold lens_sum, sum_N. simpl. lia.
  - rewrite lens_sum_cons, N.add_assoc. by eapply Hl.
Qed.

Lemma span_loop_start off end_ cur chunks :
  off < end_ → cur ≤ off → off < cur + lens_sum chunks → cur + lens_sum chunks < u64_bound →
  Forall (λ c : Hash * N, 0 < c.2) chunks →
  ∃ pre x mid post, chunks = pre ++ (x :: mid) ++ post ∧ cur + lens_sum pre ≤ off ∧
    off < cur + lens_sum pre + x.2 ∧ ends_at end_ (cur + lens_sum pre) (x :: mid) post ∧
    span_loop off end_ cur None chunks = Some (cur + lens_sum pre, cur + lens_sum pre + lens_sum (x :: mid)).
Proof.
  intros Hoe Hco Hlt Hb Hf. revert cur Hco Hlt Hb. induction Hf as [|[h n] chunks Hn Hf IH]; intros cur Hco Hlt Hb.
  { unfold lens_sum, sum_N in Hlt. simpl in Hlt. lia. }
  rewrite lens_sum_cons in *. simpl in Hn. cbn [span_loop]. rewrite wrap64_small by lia.
  destruct (N.leb_spec (cur + n) off) as [Hs|Hs].
  - destruct (IH (cur + n)) as (pre & x & mid & post & -> & H1 & H2 & H3 & H4); [lia..|].
    exists ((h, n) :: pre), x, mid, post. rewrite lens_sum_cons, !N.add_assoc. by split_and!.
  - destruct (N.leb_spec end_ cur); [lia|].
    destruct (span_loop_extend off end_ cur (cur + n) chunks) as (mid & post & -> & [He Hl] & ->); [lia|lia|done|].
    exists [], (h, n), mid, post. unfold ends_at. rewrite lens_sum_cons. unfold lens_sum, sum_N at 1. simpl.
    rewrite !N.add_0_r, !N.add_assoc. split_and!; [done|lia|lia|done| |done].
    intros [|y mid'] x Heq; simplify_eq/=; [simpl; lia|]. change (foldr N.add 0 mid'.*2) with (lens_sum mid').
    rewrite N.add_assoc. by eapply Hl.
Qed.

Lemma take_chunks_exact mid post :
  Forall (λ c : Hash * N, 0 < c.2) mid → take_chunks (lens_sum mid) (mid ++ post) = Ok mid.
Proof.
  induction 1 as [|[h n] mid Hn _ IH]; [by destruct post|]. simpl in Hn. rewrite lens_sum_cons.
  cbn [app take_chunks]. destruct (N.eqb_spec (n + lens_sum mid) 0); [lia|].
  destruct (N.ltb_spec (n + lens_sum mid) n); [lia|].
  replace (n + lens_sum mid - n) with (lens_sum mid) by lia. by rewrite IH.
Qed.

(** The covering span of a range is the run of whole chunks from the one
    that holds its first byte to the one that holds its last byte, no wider, and
    [covering_chunks] lists exactly these chunks for it. *)
Theorem covering_span_exact m off end_ :
  cmap_validate m = Ok tt → lens_sum (cmap_chunks m) < u64_bound → off < end_ → end_ ≤ cmap_byte_len m →
  ∃ pre x mid post, cmap_chunks m = pre ++ (x :: mid) ++ post ∧
    covering_span m off end_ = (lens_sum pre, lens_sum (x :: mid)) ∧
    lens_sum pre ≤ off ∧ off < lens_sum pre + x.2 ∧ end_ ≤ lens_sum pre + lens_sum (x :: mid) ∧
    (∀ mid' y, x :: mid = mid' ++ [y] → lens_sum pre + lens_sum mid' < end_) ∧
    covering_chunks m (lens_sum pre) (lens_sum (x :: mid)) = Ok (x :: mid).
Proof.
  unfold cmap_validate. intros Hv Hb Hoe He. destruct (_ || _); [done|].
  destruct (total_lens _ 0 _) as [t|] eqn:Et; [|done]. destruct (N.eqb_spec t (cmap_byte_len m)) as [->|]; [|done].
  apply total_lens_spec in Et as [Ht Hf]; [|done].
  assert (Forall (λ c : Hash * N, 0 < c.2) (cmap_chunks m)) as Hpos by (eapply Forall_impl; [exact Hf|]; simpl; intros; lia).
  destruct (span_loop_start off end_ 0 (cmap_chunks m)) as (pre & x & mid & post & Hm & H1 & H2 & [H3 H4] & H5); [lia..|done|].
  rewrite N.add_0_l in *. exists pre, x, mid, post. split; [done|].
  assert (lens_sum (cmap_chunks m) = lens_sum pre + lens_sum (x :: mid) + lens_sum post) as Hs
    by (rewrite Hm, !lens_sum_app; lia).
  rewrite Hm, !Forall_app in Hpos. destruct Hpos as (Hpre & Hmid & Hpost).
  split_and!; [| lia | lia | | done |].
  - unfold covering_span. destruct (N.leb_spec end_ off); [lia|]. rewrite H5, wrap_sub_small by lia. f_equal. lia.
  - destruct H3 as [?| ->]; [done|]. change (lens_sum []) with 0 in Hs. lia.
  - unfold covering_chunks. rewrite Hm. pose proof (seek_boundary 0 pre ((x :: mid) ++ post)) as Hseek.
    rewrite !N.add_0_l in Hseek. rewrite Hseek; [|done|by apply Forall_app|by rewrite <- Hm].
    rewrite N.eqb_refl. by apply take_chunks_exact.
Qed.

(** ** Manifests *)

Section counts.
Context (chunk_size : N) (Hc : 0 < chunk_size).

Lemma counts_sum bs :
  sum_N bs ≤ chunk_size * sum_N ((λ b, div_ceil b chunk_size) <$> bs) ∧
  chunk_size * sum_N ((λ b, div_ceil b chunk_size) <$> bs) ≤ sum_N bs + chunk_size * len_N bs ∧
  sum_N ((λ b, div_ceil b chunk_size) <$> bs) ≤ sum_N bs.
Proof using Hc.
  induction bs as [|b bs (IH1 & IH2 & IH3)]; [unfold sum_N; simpl; lia|].
  rewrite fmap_cons, !sum_N_cons. destruct (div_ceil_spec b chunk_size Hc) as [H1 H2].
  assert (div_ceil b chunk_size ≤ b) as H3.
  { destruct (N.le_gt_cases (div_ceil b chunk_size) b) as [|Hgt]; [done|].
    pose proof (N.mul_le_mono_l (b + 1) (div_ceil b chunk_size) chunk_size ltac:(lia)).
    destruct b; nia. }
  unfold len_N in *. cbn [length]. rewrite Nat2N.inj_succ, N.mul_succ_r, N.mul_add_distr_l. lia.
Qed.

(** Chunking parameter by parameter costs at most one chunk per parameter. *)
Lemma counts_bounds bs :
  div_ceil (sum_N bs) chunk_size ≤ sum_N ((λ b, div_ceil b chunk_size) <$> bs) ∧
  sum_N ((λ b, div_ceil b chunk_size) <$> bs) ≤ div_ceil (sum_N bs) chunk_size + len_N bs.
Proof using Hc.
  destruct (counts_sum bs) as (H1 & H2 & _), (div_ceil_spec (sum_N bs) chunk_size Hc) as [H3 H4].
  generalize dependent (sum_N ((λ b, div_ceil b chunk_size) <$> bs)). generalize dependent (div_ceil (sum_N bs) chunk_size).
  intros d H3 H4 q H1 H2. split.
  - destruct (N.le_gt_cases d q) as [|Hgt]; [done|]. pose proof (N.mul_le_mono_l (q + 1) d chunk_size ltac:(lia)). lia.
  - destruct (N.le_gt_cases q (d + len_N bs)) as [|Hgt]; [done|].
    pose proof (N.mul_le_mono_l (d + len_N bs + 1) q chunk_size ltac:(lia)). lia.
Qed.

Lemma param_lens_length b : N.of_nat (length (param_lens b chunk_size)) = div_ceil b chunk_size.
Proof using Hc. by apply split_lens_length, param_lens_fuel. Qed.

Lemma family_lens_length numels :
  N.of_nat (length (family_chunk_lens numels chunk_size)) =
    sum_N ((λ b, div_ceil b chunk_size) <$> (elem_bytes <$> numels)).
Proof using Hc.
  unfold family_chunk_lens. destruct (N.eqb_spec chunk_size 0) as [|_]; [lia|]. rewrite length_fmap.
  induction numels as [|n numels IH]; [done|]. rewrite !fmap_cons, sum_N_cons.
  change ((n :: numels) ≫= λ n, param_lens (elem_bytes n) chunk_size)
    with (param_lens (elem_bytes n) chunk_size ++ (numels ≫= λ n, param_lens (elem_bytes n) chunk_size)).
  rewrite length_app, Nat2N.inj_add, param_lens_length, IH. done.
Qed.

Lemma family_count numels :
  sum_N (elem_bytes <$> numels) < u64_bound →
  family_chunk_count numels chunk_size = N.of_nat (length (family_chunk_lens numels chunk_size)).
Proof using Hc.
  intros Hb. rewrite family_lens_length. unfold family_chunk_count, param_chunk_count.
  assert (((λ n, if chunk_size =? 0 then 0 else div_ceil (elem_bytes n) chunk_size) <$> numels) =
    ((λ b, div_ceil b chunk_size) <$> (elem_bytes <$> numels))) as ->.
  { rewrite <- list_fmap_compose. apply list_fmap_ext. intros i n _. simpl.
    by destruct (N.eqb_spec chunk_size 0); [lia|]. }
  apply sum64_small. pose proof (counts_sum (elem_bytes <$> numels)). lia.
Qed.

Lemma family_lens_spec numels :
  chunk_size < u32_bound →
  sum_N (family_chunk_lens numels chunk_size) = sum_N (elem_bytes <$> numels) ∧
  Forall (λ l, 0 < l ∧ l ≤ chunk_size) (family_chunk_lens numels chunk_size).
Proof using Hc.
  intros Hu. unfold family_chunk_lens. destruct (N.eqb_spec chunk_size 0) as [|_]; [lia|].
  induction numels as [|n numels [IH1 IH2]]; [done|]. rewrite fmap_cons, sum_N_cons.
  change ((n :: numels) ≫= λ n, param_lens (elem_bytes n) chunk_size)
    with (param_lens (elem_bytes n) chunk_size ++ (numels ≫= λ n, param_lens (elem_bytes n) chunk_size)).
  destruct (split_lens_spec _ _ _ Hc (param_lens_fuel (elem_bytes n) chunk_size Hc)) as [H1 H2].
  fold (param_lens (elem_bytes n) chunk_size) in H1, H2.
  assert (wrap32 <$> param_lens (elem_bytes n) chunk_size = param_lens (elem_bytes n) chunk_size) as Hw.
  { rewrite <- (list_fmap_id (param_lens _ _)) at 2. apply list_fmap_ext. intros i l Hl.
    change (wrap32 l = l). rewrite Forall_lookup in H2. destruct (H2 i l Hl). apply wrap32_small. lia. }
  rewrite fmap_app, Hw, sum_N_app, H1, IH1. split; [done|]. by apply Forall_app.
Qed.
End counts.

Section manifests.
Context `{Crypto, StateCodec}.

Lemma dm_validate_inv m :
  dm_validate m = Ok tt →
  dm_chunk_size m ≠ 0 ∧ ∀ name family, dm_families m !! name = Some family →
    family_check (lb_params (dm_layout m)) (dm_chunk_size m) name family = true.
Proof.
  unfold dm_validate. destruct (negb _); [done|]. destruct (N.eqb_spec (dm_chunk_size m) 0); [done|].
  destruct (_ =? 0); [done|]. destruct (dm_families m !! MASTER_FAMILY); [|done].
  destruct (forallb _ _) eqn:E; [|done]. intros _. split; [done|]. intros name family Hf.
  rewrite forallb_forall in E. apply elem_of_map_to_list, list_elem_of_In in Hf. by apply (E (name, family)).
Qed.

(** A chunk list of the right length over a layout with bytes gives a valid map. *)
Lemma derived_map_valid chunk_size numels hashes :
  0 < chunk_size → chunk_size < u32_bound → 0 < sum_N (elem_bytes <$> numels) < u64_bound →
  length hashes = length (family_chunk_lens numels chunk_size) →
  ∃ map, cmap_derive chunk_size numels hashes = Ok map ∧ cmap_validate map = Ok tt ∧
    cmap_chunk_size map = chunk_size ∧ cmap_byte_len map = family_byte_len numels ∧ (cmap_chunks map).*1 = hashes.
Proof.
  intros Hpos Hu [Hz Hb] Hn. unfold cmap_derive. rewrite <- Hn, Nat.eqb_refl. cbn [negb]. eexists. split; [done|].
  destruct (family_lens_spec chunk_size Hpos numels Hu) as [Hs Hall].
  assert ((zip hashes (family_chunk_lens numels chunk_size)).*2 = family_chunk_lens numels chunk_size) as H2
    by (rewrite snd_zip; [done|lia]).
  assert (lens_sum (zip hashes (family_chunk_lens numels chunk_size)) = sum_N (elem_bytes <$> numels)) as Hls
    by (unfold lens_sum; by rewrite H2).
  split_and!; [|done|done|cbn [cmap_chunks]; rewrite fst_zip; [done|lia]].
  unfold cmap_validate, family_byte_len. cbn [cmap_chunk_size cmap_byte_len cmap_chunks].
  rewrite sum64_small, total_lens_ok, N.add_0_l, Hls, N.eqb_refl; [|lia| |done].
  - destruct (N.eqb_spec chunk_size 0); [lia|]. destruct (N.eqb_spec (sum_N (elem_bytes <$> numels)) 0); [lia|].
    cbn [orb]. rewrite bool_decide_false; [done|]. intros Hnil. rewrite Hnil in Hls. unfold lens_sum, sum_N in Hls.
    simpl in Hls. unfold sum_N in Hz. lia.
  - apply (Forall_fmap snd (λ l, 0 < l ∧ l ≤ chunk_size)). by rewrite H2.
Qed.

(** A manifest that validates against a layout gives, for each of its
    families, a valid chunk map with the family's fold: what the custody of its
    bytes starts from. *)
Theorem manifest_maps m numels name family :
  dm_chunk_size m < u32_bound → sum_N (elem_bytes <$> numels) < u64_bound →
  validate_with_numels m numels = Ok tt → dm_families m !! name = Some family →
  ∃ map, cmap_derive (dm_chunk_size m) numels (fe_chunk_hashes family) = Ok map ∧
    cmap_validate map = Ok tt ∧ cmap_fold map = fe_fold family ∧ cmap_byte_len map = fe_byte_len family.
Proof.
  intros Hu Hb Hv Hf. unfold validate_with_numels in Hv. destruct (dm_validate m) as [[]|] eqn:Ev; [|done].
  apply dm_validate_inv in Ev as [Hc Hfam]. specialize (Hfam name family Hf).
  destruct (of_numels numels) as [binding|]; [|done]. destruct (negb _); [done|].
  destruct (forallb _ _) eqn:E; [|done]. rewrite forallb_forall in E.
  apply elem_of_map_to_list, list_elem_of_In in Hf. specialize (E _ Hf). simpl in E.
  apply andb_true_iff in E as [Hbl%N.eqb_eq Hn%N.eqb_eq]. assert (0 < dm_chunk_size m) as Hpos by lia.
  rewrite family_count in Hn by done. apply Nat2N.inj in Hn.
  unfold family_check in Hfam. rewrite !andb_true_iff in Hfam. destruct Hfam as [[[_ Hz] _] Hfold%N.eqb_eq].
  assert (family_byte_len numels = sum_N (elem_bytes <$> numels)) as Hsum by (by apply sum64_small).
  destruct (N.eqb_spec (fe_byte_len family) 0) as [|Hnz]; [done|].
  destruct (derived_map_valid (dm_chunk_size m) numels (fe_chunk_hashes family))
    as (map & Hd & Hmv & H1 & H2 & H3); [done..|lia|done|].
  exists map. split_and!; [done|done| |congruence]. unfold cmap_fold. by rewrite H1, H2, H3, <- Hbl.
Qed.

Lemma authored_check params numels chunk_size name family :
  FamilyEntry_author params chunk_size = Ok family → layout_of numels params →
  len_N (mjoin params) < u64_bound → chunk_size < u32_bound →
  (name = MASTER_FAMILY ∨ starts_with REPLICATED_FAMILY_PREFIX (string_bytes name) = true) →
  family_check (N.of_nat (length numels)) chunk_size name family = true ∧
  fe_byte_len family = family_byte_len numels ∧
  N.of_nat (length (fe_chunk_hashes family)) = family_chunk_count numels chunk_size.
Proof.
  intros (Hc & Hne & Hpne & ->)%author_ok Hl Hb Hu Hname. cbn [fe_byte_len fe_chunk_hashes fe_fold].
  assert (sum_N (elem_bytes <$> numels) = len_N (mjoin params)) as Hsum by (rewrite Hl; apply sum_join).
  assert (N.of_nat (length (family_chunk_hashes params chunk_size)) = family_chunk_count numels chunk_size) as Hn.
  { rewrite family_count by (done || by rewrite Hsum). rewrite (family_lens numels params) by done.
    by rewrite author_hashes, !length_fmap. }
  split_and!; [|unfold family_byte_len; by rewrite Hl|done].
  unfold family_check. cbn [fe_byte_len fe_chunk_hashes fe_fold]. rewrite N.eqb_refl.
  rewrite (sum64_small (len_N <$> params)) by (rewrite sum_join; done). rewrite sum_join.
  assert (bool_decide (name = MASTER_FAMILY) || starts_with REPLICATED_FAMILY_PREFIX (string_bytes name) = true) as ->.
  { apply orb_true_iff. destruct Hname as [->|]; [left; by apply bool_decide_eq_true|by right]. }
  assert (0 < len_N (mjoin params)) as Hpos.
  { destruct params as [|p params]; [done|]. apply Forall_cons in Hpne as [Hp _].
    change (mjoin (p :: params)) with (p ++ mjoin params). rewrite len_N_app. destruct p; [done|]. unfold len_N. simpl. lia. }
  rewrite Hn, family_count, family_lens_length by (done || by rewrite Hsum).
  destruct (counts_bounds chunk_size Hc (elem_bytes <$> numels)) as [B1 B2].
  destruct (counts_sum chunk_size Hc (elem_bytes <$> numels)) as (_ & _ & B3). rewrite Hsum in *.
  unfold len_N at 2 in B2. rewrite length_fmap in B2.
  set (q := sum_N ((λ b, div_ceil b chunk_size) <$> (elem_bytes <$> numels))) in *.
  destruct (N.eqb_spec (len_N (mjoin params)) 0); [lia|]. cbn [negb andb].
  assert (q ≤ sat_add (div_ceil (len_N (mjoin params)) chunk_size) (N.of_nat (length numels))) as B4
    by (unfold sat_add; lia).
  destruct (N.ltb_spec q (div_ceil (len_N (mjoin params)) chunk_size)); [lia|].
  destruct (N.ltb_spec (sat_add (div_ceil (len_N (mjoin params)) chunk_size) (N.of_nat (length numels))) q); [lia|].
  done.
Qed.

(** A manifest whose families were all authored at its chunk size over one
    layout, the master family among them, validates against that layout. *)
Theorem authored_manifest_valid m numels :
  dm_format m = DET_STATE_MANIFEST_FORMAT → dm_chunk_size m < u32_bound → numels ≠ [] →
  of_numels numels = Ok (dm_layout m) → is_Some (dm_families m !! MASTER_FAMILY) →
  (∀ name family, dm_families m !! name = Some family →
    (name = MASTER_FAMILY ∨ starts_with REPLICATED_FAMILY_PREFIX (string_bytes name) = true) ∧
    ∃ params, FamilyEntry_author params (dm_chunk_size m) = Ok family ∧ layout_of numels params ∧
      len_N (mjoin params) < u64_bound) →
  validate_with_numels m numels = Ok tt.
Proof.
  intros Hf Hu Hne Hl [master Hmaster] Hall.
  assert (lb_params (dm_layout m) = N.of_nat (length numels)) as Hp.
  { unfold of_numels in Hl. destruct (numels_vec numels); [|done]. by injection Hl as <-. }
  assert (∀ name family, dm_families m !! name = Some family → 0 < dm_chunk_size m ∧
    family_check (lb_params (dm_layout m)) (dm_chunk_size m) name family = true ∧
    fe_byte_len family = family_byte_len numels ∧
    N.of_nat (length (fe_chunk_hashes family)) = family_chunk_count numels (dm_chunk_size m)) as Hchk.
  { intros name family Hfam. destruct (Hall name family Hfam) as (Hname & params & Ha & Hlay & Hb). rewrite Hp.
    split; [by apply author_ok in Ha as [? _]|]. by eapply authored_check. }
  destruct (Hchk _ _ Hmaster) as [Hc _]. unfold validate_with_numels, dm_validate.
  rewrite Hf, N.eqb_refl, Hmaster, Hl, Hp. cbn [negb]. destruct (N.eqb_spec (dm_chunk_size m) 0); [lia|].
  destruct (N.eqb_spec (N.of_nat (length numels)) 0); [destruct numels; [done|simpl in *; lia]|].
  rewrite (proj2 (forallb_forall _ _)), bool_decide_true, (proj2 (forallb_forall _ _)); [done| |done|].
  - intros [name family] Hin. apply list_elem_of_In, elem_of_map_to_list in Hin.
    destruct (Hchk _ _ Hin) as (_ & _ & -> & ->). by rewrite !N.eqb_refl.
  - intros [name family] Hin. apply list_elem_of_In, elem_of_map_to_list in Hin. rewrite <- Hp. by apply Hchk.
Qed.
End manifests.

(** The derived chunk size is valid for its profile and stays below the target,
    unless one profile chunk is larger. *)
Lemma derived_chunk_size profile_chunk c :
  0 < profile_chunk → profile_chunk * 4 < u64_bound → derive_state_chunk_size profile_chunk = Some c →
  validate_state_chunk_size c profile_chunk = Ok tt ∧ c ≤ N.max STATE_CHUNK_SIZE_TARGET (profile_chunk * 4).
Proof.
  intros Hp Hb. unfold derive_state_chunk_size, validate_state_chunk_size, STATE_ELEM_BYTES.
  rewrite N.max_l, wrap64_small by lia. destruct (N.eqb_spec (profile_chunk * 4) 0); [done|].
  set (w := profile_chunk * 4) in *. set (k := N.max (STATE_CHUNK_SIZE_TARGET / w) 1).
  assert (k * w ≤ N.max STATE_CHUNK_SIZE_TARGET w) as Hk.
  { unfold k. pose proof (N.Div0.mul_div_le STATE_CHUNK_SIZE_TARGET w) as Hd.
    generalize dependent (STATE_CHUNK_SIZE_TARGET / w). intros q _ Hq. destruct (N.max_spec q 1) as [[_ ->]|[_ ->]]; lia. }
  assert (STATE_CHUNK_SIZE_TARGET < u64_bound) as Ht by by vm_compute.
  rewrite wrap64_small by lia. intros [= <-]. destruct (N.eqb_spec profile_chunk 0); [lia|].
  split; [|done]. assert (0 < k * w) as Hkw by (unfold k; nia).
  destruct (N.eqb_spec (k * w) 0); [lia|]. unfold is_multiple_of. destruct (N.eqb_spec w 0); [lia|].
  by rewrite N.Div0.mod_mul.
Qed.

(** ** A family of two parameters *)

Definition toy_state_codec : StateCodec :=
  {| numels_vec ns := Some (ns ≫= le_bytes 8); manifest_vec m := Some (le_bytes 8 (dm_round m)) |}.

Definition toy_params : list bytes := [string_bytes "abcdefgh"; string_bytes "ijkl"].
Definition toy_numels : list N := [2; 1].
Definition toy_hashes : list Hash := @family_chunk_hashes toy_crypto toy_params 6.

Definition toy_family : FamilyEntry :=
  mkFamilyEntry (@family_fold toy_crypto 6 12 toy_hashes) 12 toy_hashes.

Definition toy_map : DetStateChunkMap := mkChunkMap 6 12 (zip toy_hashes [6; 2; 4]).

Lemma custody_chain_witness : string_bytes "ghijkl" = take 6 (drop 6 (mjoin toy_params)).
Proof.
  destruct (@custody_chain toy_crypto toy_params toy_numels 6 toy_family toy_hashes toy_map 6 (string_bytes "ghijkl")) as [Heq|Hc];
    [done|done|by repeat constructor|by vm_compute..|exact Heq|].
  apply (bool_decide_pack _) in Hc. exfalso. revert Hc. by vm_compute.
Defined.

Lemma covering_span_exact_witness : covering_span toy_map 7 9 = (6, 6).
Proof.
  destruct (covering_span_exact toy_map 7 9) as (pre & x & mid & post & _ & Hs & _);
    [by vm_compute|by vm_compute|done|by vm_compute|by vm_compute].
Defined.

Definition toy_manifest : DetStateManifest :=
  mkDetStateManifest 1 5 3 (mkLayoutBinding 2 (toy_hash (toy_numels ≫= le_bytes 8))) 6
    {[ MASTER_FAMILY := toy_family ]}.

Lemma manifest_maps_witness :
  ∃ map, @cmap_derive 6 toy_numels toy_hashes = Ok map ∧ cmap_validate map = Ok tt ∧
    @cmap_fold toy_crypto map = fe_fold toy_family ∧ cmap_byte_len map = 12.
Proof.
  eapply (@manifest_maps toy_crypto toy_state_codec toy_manifest toy_numels MASTER_FAMILY toy_family);
    by vm_compute.
Defined.

Lemma authored_manifest_valid_witness :
  @validate_with_numels toy_crypto toy_state_codec toy_manifest toy_numels = Ok tt.
Proof.
  apply (@authored_manifest_valid toy_crypto toy_state_codec); [done|done|done|by vm_compute|by eexists|].
  intros name family Hf. unfold toy_manifest in Hf. cbn [dm_families] in Hf.
  apply lookup_singleton_Some in Hf as [<- <-]. split; [by left|]. exists toy_params.
  split_and!; by vm_compute.
Defined.

(** The lengths are not pinned by the fold: with false lengths for the chunks
    before and after it, a chunk verifies at an offset it does not have. *)
Example lying_lengths_verify :
  let lying := mkChunkMap 6 12 (zip toy_hashes [4; 2; 6]) in
  cmap_validate lying = Ok tt ∧ @cmap_fold toy_crypto lying = fe_fold toy_family ∧
  @verify_covering_span toy_crypto lying 4 (string_bytes "gh") = Ok tt ∧
  take 2 (drop 4 (mjoin toy_params)) = string_bytes "ef".
Proof. by vm_compute. Qed.
