(* ===== verification/VhcFoldWalk.v ===== *)
(** * The fold walk ([daemon-vhc-sdk-consensus/src/fold_walk.rs])

    The windows of a parameter layout, and the state machine that issues window
    reads ahead and folds completed windows in ascending order, whatever the order
    of the completions. *)

From S2P Require Import Prelude Text VhcProto VhcMerkle VhcAssignment VhcCommittee VhcDetState VhcDetCustody.

#[local] Open Scope N_scope.
#[local] Open Scope daemon_scope.

(** ** Windows *)

Record Window := mkWindow { w_ordinal : N; w_param : N; w_param_off : N; w_len : N }.

(** The [while off < byte_len] loop of one parameter. *)
Fixpoint param_windows (fuel : nat) (window_size ordinal param off byte_len : N) : list Window :=
  match fuel with
  | O => []
  | S fuel' =>
      if off <? byte_len then
        let len := N.min (byte_len - off) window_size in
        mkWindow ordinal param off len :: param_windows fuel' window_size (ordinal + 1) param (off + len) byte_len
      else []
  end.

(** [None] is the panic on a parameter index of more than 32 bits. *)
Fixpoint windows_from (window_size ordinal param : N) (numels : list N) : option (list Window) :=
  match numels with
  | [] => Some []
  | numel :: numels' =>
      let byte_len := elem_bytes numel in
      if (0 <? byte_len) && (u32_bound <=? param) then None
      else
        let ws := param_windows (N.to_nat (div_ceil byte_len window_size)) window_size ordinal param 0 byte_len in
        rest ← windows_from window_size (ordinal + N.of_nat (length ws)) (param + 1) numels';
        Some (ws ++ rest)
  end.

Definition windows (numels : list N) (window_size : N) : option (list Window) :=
  if window_size =? 0 then Some [] else windows_from window_size 0 0 numels.

(** ** The walk *)

Record SliceActions := mkSliceActions { sa_fold : list N; sa_issue : list N; sa_seal : bool }.

Record FoldWalk := mkFoldWalk {
  fw_total : N;
  fw_in_flight : N;
  fw_next_issue : N;
  fw_next_fold : N;
  fw_pending : list N;
  fw_sealed : bool
}.

Definition FoldWalk_new (total in_flight : N) : FoldWalk :=
  mkFoldWalk total (N.max in_flight 1) 0 0 [] false.

(** The reads issued by [issue_up_to_limit]: at most [room], while windows remain. *)
Fixpoint issue_loop (fuel : nat) (total next_issue : N) : list N * N :=
  match fuel with
  | O => ([], next_issue)
  | S fuel' =>
      if next_issue <? total then
        let '(issued, next) := issue_loop fuel' total (next_issue + 1) in
        (next_issue :: issued, next)
      else ([], next_issue)
  end.

Definition outstanding (w : FoldWalk) : N :=
  wrap_sub (wrap_sub (fw_next_issue w) (fw_next_fold w)) (N.of_nat (length (fw_pending w))).

(** [saturating_sub], and a fuel that the number of windows left bounds. *)
Definition issue_up_to_limit (w : FoldWalk) : list N * FoldWalk :=
  let room := fw_in_flight w - outstanding w in
  let '(issued, next) :=
    issue_loop (N.to_nat (N.min room (fw_total w - fw_next_issue w))) (fw_total w) (fw_next_issue w) in
  (issued, mkFoldWalk (fw_total w) (fw_in_flight w) next (fw_next_fold w) (fw_pending w) (fw_sealed w)).

Definition walk_start (w : FoldWalk) : SliceActions * FoldWalk :=
  if (fw_total w =? 0) && negb (fw_sealed w) then
    (mkSliceActions [] [] true,
     mkFoldWalk (fw_total w) (fw_in_flight w) (fw_next_issue w) (fw_next_fold w) (fw_pending w) true)
  else
    let '(issued, w') := issue_up_to_limit w in
    (mkSliceActions [] issued false, w').

(** [partition_point] and [Vec::insert] on the sorted vector. *)
Fixpoint insert_pending (x : N) (l : list N) : list N :=
  match l with
  | [] => [x]
  | y :: l' => if y <? x then y :: insert_pending x l' else x :: l
  end.

(** The contiguous run folded from the cursor, the cursor and what stays pending. *)
Fixpoint fold_run (next_fold : N) (pending : list N) : list N * N * list N :=
  match pending with
  | [] => ([], next_fold, [])
  | p :: pending' =>
      if p =? next_fold then
        let '(folded, next, rest) := fold_run (next_fold + 1) pending' in
        (next_fold :: folded, next, rest)
      else ([], next_fold, pending)
  end.

(** [None] is [UnexpectedCompletion]. *)
Definition on_completion (w : FoldWalk) (ordinal : N) : option (SliceActions * FoldWalk) :=
  if (ordinal <? fw_next_fold w) || (fw_next_issue w <=? ordinal) || bool_decide (ordinal ∈ fw_pending w)
  then None
  else
    let '(folded, next_fold, pending) := fold_run (fw_next_fold w) (insert_pending ordinal (fw_pending w)) in
    let '(issued, w') :=
      issue_up_to_limit
        (mkFoldWalk (fw_total w) (fw_in_flight w) (fw_next_issue w) next_fold pending (fw_sealed w)) in
    let seal := (fw_next_fold w' =? fw_total w') && negb (fw_sealed w') in
    Some (mkSliceActions folded issued seal,
      mkFoldWalk (fw_total w') (fw_in_flight w') (fw_next_issue w') (fw_next_fold w') (fw_pending w')
        (fw_sealed w' || seal)).

(** A walk driven by a list of completions, with the slices it performed. *)
Fixpoint completions (w : FoldWalk) (os : list N) : option (list SliceActions * FoldWalk) :=
  match os with
  | [] => Some ([], w)
  | o :: os' =>
      '(a, w') ← on_completion w o;
      '(acts, w'') ← completions w' os';
      Some (a :: acts, w'')
  end.

Definition walk (total in_flight : N) (os : list N) : option (list SliceActions * FoldWalk) :=
  let '(a, w) := walk_start (FoldWalk_new total in_flight) in
  '(acts, w') ← completions w os;
  Some (a :: acts, w').

(** ** The steps of a slice *)

Lemma issue_loop_spec fuel total next_issue :
  next_issue + N.of_nat fuel ≤ total →
  issue_loop fuel total next_issue = (range next_issue (next_issue + N.of_nat fuel), next_issue + N.of_nat fuel).
Proof.
  revert next_issue. induction fuel as [|fuel IH]; intros ni Hb.
  { simpl. rewrite N.add_0_r, range_nil by lia. done. }
  cbn [issue_loop]. destruct (N.ltb_spec ni total); [|lia]. rewrite IH by lia.
  rewrite (range_cons ni) by lia. by replace (ni + 1 + N.of_nat fuel) with (ni + N.of_nat (S fuel)) by lia.
Qed.

Lemma insert_pending_perm x l : insert_pending x l ≡ₚ x :: l.
Proof.
  induction l as [|y l IH]; simpl; [done|]. destruct (y <? x); [|done]. rewrite IH. apply Permutation_swap.
Qed.

Lemma insert_pending_sorted x l :
  StronglySorted N.lt l → x ∉ l → StronglySorted N.lt (insert_pending x l).
Proof.
  induction 1 as [|y l Hl IH Hy]; intros Hx; simpl; [by repeat constructor|].
  apply not_elem_of_cons in Hx as [Hne Hx]. destruct (N.ltb_spec y x).
  - constructor; [by apply IH|]. rewrite insert_pending_perm. by constructor.
  - constructor; [by constructor|]. constructor; [lia|]. eapply Forall_impl; [exact Hy|]. simpl. intros. lia.
Qed.

Lemma fold_run_spec nf pending folded next rest :
  StronglySorted N.lt pending → Forall (λ p, nf ≤ p) pending → fold_run nf pending = (folded, next, rest) →
  nf ≤ next ∧ folded = range nf next ∧ pending = range nf next ++ rest ∧
  StronglySorted N.lt rest ∧ Forall (λ p, next < p) rest.
Proof.
  intros Hs. revert nf folded. induction Hs as [|p pending Hs IH Hp]; intros nf folded Hf; cbn [fold_run].
  { intros [= <- <- <-]. rewrite range_nil by lia. split_and!; [lia|done|done|constructor|constructor]. }
  apply Forall_cons in Hf as [Hle Hf]. destruct (N.eqb_spec p nf) as [->|Hne].
  - destruct (fold_run (nf + 1) pending) as [[folded' next'] rest'] eqn:E. intros [= <- <- <-].
    destruct (IH (nf + 1) folded') as (H1 & -> & -> & H3 & H4); [|done|].
    { eapply Forall_impl; [exact Hp|]. simpl. intros. lia. }
    rewrite (range_cons nf next') by lia. split_and!; [lia|done|done|done|done].
  - intros [= <- <- <-]. rewrite range_nil by lia. split_and!; [lia|done|done|by constructor|].
    constructor; [lia|]. eapply Forall_impl; [exact Hp|]. simpl. intros. lia.
Qed.

(** ** The invariant of a walk *)

Definition completed (w : FoldWalk) : N := fw_next_fold w + N.of_nat (length (fw_pending w)).

Record walk_inv (w : FoldWalk) : Prop := {
  wi_total : fw_total w < u64_bound;
  wi_issue : fw_next_fold w ≤ fw_next_issue w ≤ fw_total w;
  wi_flight : 1 ≤ fw_in_flight w;
  wi_sorted : StronglySorted N.lt (fw_pending w);
  wi_range : Forall (λ p, fw_next_fold w < p ∧ p < fw_next_issue w) (fw_pending w);
  wi_room : fw_next_issue w = N.min (fw_total w) (completed w + fw_in_flight w);
  wi_sealed : fw_sealed w = (fw_next_fold w =? fw_total w)
}.

(** The windows whose reads have completed. *)
Definition is_done (w : FoldWalk) (x : N) : Prop := x < fw_next_fold w ∨ x ∈ fw_pending w.

(** Refilling the read window keeps everything else and reaches its limit. *)
Lemma issue_spec w issued w' :
  fw_total w < u64_bound → completed w ≤ fw_next_issue w ≤ fw_total w →
  fw_next_issue w ≤ completed w + fw_in_flight w →
  issue_up_to_limit w = (issued, w') →
  issued = range (fw_next_issue w) (fw_next_issue w') ∧ fw_next_issue w ≤ fw_next_issue w' ∧
  fw_next_issue w' = N.min (fw_total w) (completed w + fw_in_flight w) ∧
  fw_total w' = fw_total w ∧ fw_in_flight w' = fw_in_flight w ∧ fw_next_fold w' = fw_next_fold w ∧
  fw_pending w' = fw_pending w ∧ fw_sealed w' = fw_sealed w.
Proof.
  intros Ht [Hc Hi] Hr. unfold issue_up_to_limit, outstanding. unfold completed in *.
  rewrite (wrap_sub_small (fw_next_issue w)), wrap_sub_small by lia.
  rewrite issue_loop_spec by lia. intros [= <- <-]. cbn [fw_next_issue fw_total fw_in_flight fw_next_fold fw_pending fw_sealed].
  rewrite N2Nat.id. split_and!; try done; lia.
Qed.

Lemma pending_length w : walk_inv w → fw_next_fold w < fw_total w → completed w < fw_next_issue w.
Proof.
  intros Hi Hlt. pose proof (wi_room _ Hi) as Hr. pose proof (wi_issue _ Hi). pose proof (wi_flight _ Hi).
  assert (N.of_nat (length (fw_pending w)) ≤ fw_next_issue w - (fw_next_fold w + 1)) as Hl.
  { apply sorted_interval_length; [apply Hi|]. eapply Forall_impl; [apply (wi_range _ Hi)|]. simpl. intros. lia. }
  unfold completed in *. destruct (fw_pending w); simpl in *; lia.
Qed.

Lemma start_spec total in_flight a w :
  total < u64_bound → walk_start (FoldWalk_new total in_flight) = (a, w) →
  walk_inv w ∧ fw_total w = total ∧ fw_in_flight w = N.max in_flight 1 ∧ completed w = 0 ∧ fw_next_fold w = 0 ∧
  sa_fold a = [] ∧ sa_issue a = range 0 (fw_next_issue w) ∧ sa_seal a = fw_sealed w.
Proof.
  intros Ht. unfold walk_start, FoldWalk_new. cbn [fw_total fw_sealed]. destruct (N.eqb_spec total 0) as [->|Hne]; cbn [andb negb].
  - intros [= <- <-]. simpl. split; [|done].
    split; simpl; done || lia || constructor.
  - destruct (issue_up_to_limit _) as [issued w'] eqn:E. intros [= <- <-].
    apply issue_spec in E; unfold completed in *; simpl in *; [|lia..].
    destruct E as (-> & _ & H2 & H3 & H4 & H5 & H6 & H7). rewrite H3, H4, H5, H6, H7. split_and!; try done.
    split; unfold completed; rewrite ?H3, ?H4, ?H5, ?H6, ?H7; simpl; try (done || lia || constructor).
    by destruct total.
Qed.

Lemma completion_spec w o a w' :
  walk_inv w → on_completion w o = Some (a, w') →
  walk_inv w' ∧ fw_total w' = fw_total w ∧ fw_in_flight w' = fw_in_flight w ∧
  fw_next_fold w ≤ o < fw_next_issue w ∧ o ∉ fw_pending w ∧ (∀ x, is_done w' x ↔ x = o ∨ is_done w x) ∧
  completed w' = completed w + 1 ∧ fw_next_fold w ≤ fw_next_fold w' ∧ fw_next_issue w ≤ fw_next_issue w' ∧
  sa_fold a = range (fw_next_fold w) (fw_next_fold w') ∧ sa_issue a = range (fw_next_issue w) (fw_next_issue w') ∧
  fw_sealed w = false ∧ sa_seal a = fw_sealed w'.
Proof.
  intros Hi. unfold on_completion. destruct (N.ltb_spec o (fw_next_fold w)) as [|Hlo]; [done|]. cbn [orb].
  destruct (N.leb_spec (fw_next_issue w) o) as [|Hhi]; [done|]. cbn [orb].
  destruct (bool_decide_reflect (o ∈ fw_pending w)) as [|Hni]; [done|].
  destruct (fold_run _ _) as [[folded nf'] rest] eqn:Ef. destruct (issue_up_to_limit _) as [issued w1] eqn:Ei.
  intros [= <- <-]. pose proof (wi_issue _ Hi) as [Hf Ht]. pose proof (wi_room _ Hi) as Hr.
  pose proof (wi_flight _ Hi) as Hfl. pose proof (wi_total _ Hi) as Htot.
  assert (Forall (λ p, fw_next_fold w ≤ p ∧ p < fw_next_issue w) (insert_pending o (fw_pending w))) as Hall.
  { rewrite insert_pending_perm. constructor; [lia|]. eapply Forall_impl; [apply (wi_range _ Hi)|]. simpl. intros. lia. }
  apply fold_run_spec in Ef as (H1 & -> & Hins & H3 & H4);
    [|by apply insert_pending_sorted; [apply Hi|]|eapply Forall_impl; [exact Hall|]; simpl; intros; lia].
  assert (N.of_nat (length (fw_pending w)) + 1 = nf' - fw_next_fold w + N.of_nat (length rest)) as Hlen.
  { apply (f_equal length) in Hins. rewrite insert_pending_perm, length_app, range_length in Hins. simpl in Hins. lia. }
  assert (∀ x, x = o ∨ x ∈ fw_pending w ↔ fw_next_fold w ≤ x < nf' ∨ x ∈ rest) as Hdone.
  { intros x. rewrite <- elem_of_cons, <- insert_pending_perm, Hins, elem_of_app, elem_of_range. done. }
  rewrite Hins, Forall_app in Hall. destruct Hall as [Hfold Hrest].
  assert (nf' ≤ fw_next_issue w) as Hnf.
  { destruct (N.le_gt_cases nf' (fw_next_fold w)); [lia|]. rewrite Forall_forall in Hfold.
    destruct (Hfold (nf' - 1)) as [_ ?]; [apply elem_of_range; lia|lia]. }
  assert (fw_next_fold w < fw_total w) as Hlt by lia. pose proof (pending_length w Hi Hlt) as Hpl.
  apply issue_spec in Ei; unfold completed in *; simpl in *; [|lia..].
  destruct Ei as (-> & E1 & E2 & E3 & E4 & E5 & E6 & E7). rewrite E3, E4, E5, E6, E7, (wi_sealed _ Hi).
  destruct (N.eqb_spec (fw_next_fold w) (fw_total w)); [lia|]. cbn [orb negb]. rewrite andb_true_r.
  split_and!; try done; try lia.
  2:{ intros x. specialize (Hdone x). unfold is_done. simpl.
      assert (x < nf' ↔ x < fw_next_fold w ∨ fw_next_fold w ≤ x < nf') as -> by lia. tauto. }
  split; unfold completed; simpl; try (done || lia).
  apply Forall_and in Hrest as [_ Hrest]. apply Forall_and. split; [done|].
  eapply Forall_impl; [exact Hrest|]. simpl. intros. lia.
Qed.

Lemma completions_spec w os acts w' :
  walk_inv w → completions w os = Some (acts, w') →
  walk_inv w' ∧ fw_total w' = fw_total w ∧ fw_in_flight w' = fw_in_flight w ∧
  completed w' = completed w + N.of_nat (length os) ∧
  (NoDup os ∧ (∀ x, x ∈ os → ¬ is_done w x) ∧ ∀ x, is_done w' x ↔ x ∈ os ∨ is_done w x) ∧
  fw_next_fold w ≤ fw_next_fold w' ∧ fw_next_issue w ≤ fw_next_issue w' ∧
  (acts ≫= sa_fold) = range (fw_next_fold w) (fw_next_fold w') ∧
  (acts ≫= sa_issue) = range (fw_next_issue w) (fw_next_issue w') ∧
  fw_sealed w :: (sa_seal <$> acts) = replicate (length os) false ++ [fw_sealed w'].
Proof.
  revert w acts. induction os as [|o os IH]; intros w acts Hi; cbn [completions].
  { intros [= <- <-]. rewrite !range_nil by lia. simpl. split_and!; try done; try lia; [constructor|set_solver|set_solver]. }
  destruct (on_completion w o) as [[a w1]|] eqn:Eo; cbn [mbind option_bind]; [|done].
  destruct (completions w1 os) as [[acts' w2]|] eqn:Ec; cbn [mbind option_bind]; [|done]. intros [= <- <-].
  apply completion_spec in Eo as (Hi1 & T1 & F1 & R1 & P1 & D1 & C1 & N1 & I1 & FO1 & IS1 & S1 & SE1); [|done].
  apply IH in Ec as (Hi2 & T2 & F2 & C2 & (ND & NO & D2) & N2 & I2 & FO2 & IS2 & SE2); [|done].
  change ((a :: acts') ≫= sa_fold) with (sa_fold a ++ (acts' ≫= sa_fold)).
  change ((a :: acts') ≫= sa_issue) with (sa_issue a ++ (acts' ≫= sa_issue)).
  rewrite FO1, FO2, IS1, IS2, !range_app by lia. cbn [length]. rewrite fmap_cons, SE1, SE2, S1.
  assert (¬ is_done w o) as Hnd by (unfold is_done; intros [?|?]; [lia|done]).
  split_and!; try done; try lia; try congruence.
  - constructor; [|done]. intros Hin. apply (NO o Hin). apply D1. by left.
  - intros x [->|Hx]%elem_of_cons; [done|]. intros Hd. apply (NO x Hx), D1. by right.
  - intros x. rewrite D2, D1. set_solver.
Qed.

Lemma sealed_iff w : walk_inv w → (fw_sealed w = true ↔ fw_next_fold w = fw_total w).
Proof. intros Hi. by rewrite (wi_sealed _ Hi), N.eqb_eq. Qed.

Lemma walk_spec total in_flight os acts w :
  total < u64_bound → walk total in_flight os = Some (acts, w) →
  walk_inv w ∧ fw_total w = total ∧ fw_in_flight w = N.max in_flight 1 ∧
  completed w = N.of_nat (length os) ∧ NoDup os ∧ (∀ x, is_done w x ↔ x ∈ os) ∧
  (acts ≫= sa_fold) = range 0 (fw_next_fold w) ∧ (acts ≫= sa_issue) = range 0 (fw_next_issue w) ∧
  sa_seal <$> acts = replicate (length os) false ++ [fw_sealed w].
Proof.
  intros Ht. unfold walk. destruct (walk_start _) as [a w0] eqn:Es.
  destruct (completions w0 os) as [[acts' w']|] eqn:Ec; cbn [mbind option_bind]; [|done]. intros [= <- <-].
  apply start_spec in Es as (Hi & HT & HF & HC & HN & FO & IS & SE); [|done].
  apply completions_spec in Ec as (Hi2 & T2 & F2 & C2 & (ND & NO & D2) & N2 & I2 & FO2 & IS2 & SE2); [|done].
  change ((a :: acts') ≫= sa_fold) with (sa_fold a ++ (acts' ≫= sa_fold)).
  change ((a :: acts') ≫= sa_issue) with (sa_issue a ++ (acts' ≫= sa_issue)).
  rewrite FO, FO2, IS, IS2, fmap_cons, SE, SE2, HN, range_app by lia.
  split_and!; try done; try congruence; [lia|]. intros x. rewrite D2.
  assert (¬ is_done w0 x) as Hx.
  { unfold is_done. rewrite HN. unfold completed in HC. destruct (fw_pending w0); [set_solver by lia|simpl in HC; lia]. }
  naive_solver.
Qed.

(** Whatever the order of the completions, the windows fold in ascending
    order without gaps, reads are issued in ascending order, at most [in_flight]
    of them are outstanding, and the walk seals exactly once, in the slice that
    folds the last window: when every window has completed. *)
Theorem fold_walk_order total in_flight os acts w :
  total < u64_bound → walk total in_flight os = Some (acts, w) →
  (acts ≫= sa_fold) = range 0 (fw_next_fold w) ∧ (acts ≫= sa_issue) = range 0 (fw_next_issue w) ∧
  fw_next_issue w ≤ N.of_nat (length os) + N.max in_flight 1 ∧
  sa_seal <$> acts = replicate (length os) false ++ [fw_sealed w] ∧
  (fw_sealed w = true ↔ fw_next_fold w = total) ∧ (fw_sealed w = true ↔ os ≡ₚ range 0 total).
Proof.
  intros Ht Hw. apply walk_spec in Hw as (Hi & HT & HF & HC & ND & HD & FO & IS & SE); [|done].
  pose proof (wi_room _ Hi) as Hr. pose proof (wi_issue _ Hi) as [Hf1 Hf2]. pose proof (sealed_iff w Hi) as Hse.
  rewrite HT, HF, HC in *. split_and!; try done; [lia|]. rewrite Hse. split.
  - intros Heq. apply NoDup_Permutation; [done| |].
    + apply NoDup_fmap_2_strong; [intros; lia|apply NoDup_seq].
    + intros x. rewrite <- HD, elem_of_range. unfold is_done. rewrite Heq.
      split; [intros [?|Hp]; [lia|]|lia]. pose proof (wi_range _ Hi) as Hrg. rewrite Forall_forall in Hrg.
      specialize (Hrg x Hp). simpl in Hrg. lia.
  - intros Hperm%Permutation_length. rewrite range_length in Hperm.
    destruct (N.eq_dec (fw_next_fold w) total) as [|Hne]; [done|].
    pose proof (pending_length w Hi ltac:(lia)). lia.
Qed.

(** A walk accepts exactly the completions of issued reads that have not
    completed yet, and never gets stuck: while it is not sealed, the read of the
    next window to fold is outstanding. *)
Theorem fold_walk_progress total in_flight os acts w :
  total < u64_bound → walk total in_flight os = Some (acts, w) →
  (∀ o, is_Some (on_completion w o) ↔ o < fw_next_issue w ∧ o ∉ os) ∧
  (fw_sealed w = false → fw_next_fold w < fw_next_issue w ∧ fw_next_fold w ∉ os).
Proof.
  intros Ht Hw. apply walk_spec in Hw as (Hi & HT & HF & HC & ND & HD & FO & IS & SE); [|done].
  split.
  - intros o. rewrite <- HD. unfold on_completion, is_done.
    destruct (N.ltb_spec o (fw_next_fold w)); cbn [orb]; [split; [by intros [? ?]|naive_solver]|].
    destruct (N.leb_spec (fw_next_issue w) o); cbn [orb]; [split; [by intros [? ?]|naive_solver lia]|].
    destruct (bool_decide_reflect (o ∈ fw_pending w)); [split; [by intros [? ?]|naive_solver]|].
    destruct (fold_run _ _) as [[? ?] ?], (issue_up_to_limit _) as [? ?]. split; [|by eexists].
    intros _. split; [done|]. intros [?|?]; [lia|done].
  - intros Hs. rewrite (wi_sealed _ Hi) in Hs. apply N.eqb_neq in Hs. pose proof (wi_issue _ Hi).
    pose proof (pending_length w Hi ltac:(lia)) as Hp. unfold completed in Hp. split; [lia|].
    rewrite <- HD. intros [?|Hin]; [lia|]. pose proof (wi_range _ Hi) as Hrg. rewrite Forall_forall in Hrg.
    specialize (Hrg _ Hin). simpl in Hrg. lia.
Qed.

(** ** The windows of a layout *)

(** The windows lie end to end from one offset to another. *)
Fixpoint tiles (off end_ : N) (ws : list Window) : Prop :=
  match ws with
  | [] => off = end_
  | w :: ws' => w_param_off w = off ∧ 0 < w_len w ∧ tiles (off + w_len w) end_ ws'
  end.

Lemma param_windows_spec fuel ws ordinal param off byte_len :
  0 < ws → off ≤ byte_len → byte_len - off ≤ N.of_nat fuel * ws →
  let l := param_windows fuel ws ordinal param off byte_len in
  w_len <$> l = split_lens fuel (byte_len - off) ws ∧
  w_ordinal <$> l = range ordinal (ordinal + len_N l) ∧ tiles off byte_len l ∧ Forall (λ w, w_param w = param) l.
Proof.
  intros Hws. revert ordinal off. induction fuel as [|fuel IH]; intros ordinal off Hoff Hb; cbv zeta.
  { cbn [param_windows split_lens fmap list_fmap]. unfold len_N. simpl. rewrite range_nil by lia.
    split_and!; [done|done|lia|constructor]. }
  cbn [param_windows split_lens]. destruct (N.ltb_spec off byte_len), (N.ltb_spec 0 (byte_len - off)); try lia.
  - destruct (IH (ordinal + 1) (off + N.min (byte_len - off) ws)) as (H1 & H2 & H3 & H4); [lia..|].
    rewrite !fmap_cons, H1, H2. cbn [w_len w_ordinal tiles w_param_off]. unfold len_N. cbn [length].
    rewrite (range_cons ordinal) by lia. split_and!; [|f_equal; f_equal; lia|done|lia|done|by constructor].
    f_equal. f_equal. lia.
  - unfold len_N. simpl. rewrite range_nil by lia. split_and!; [done|done|lia|constructor].
Qed.

Lemma filter_param_all (l : list Window) p : Forall (λ w, w_param w = p) l → List.filter (λ w, w_param w =? p) l = l.
Proof. induction 1 as [|w l Hw _ IH]; simpl; [done|]. by rewrite Hw, N.eqb_refl, IH. Qed.

Lemma filter_param_none (l : list Window) p : Forall (λ w, w_param w ≠ p) l → List.filter (λ w, w_param w =? p) l = [].
Proof. induction 1 as [|w l Hw _ IH]; simpl; [done|]. by rewrite (proj2 (N.eqb_neq _ _) Hw). Qed.

Lemma windows_from_spec ws ordinal param numels :
  0 < ws → param + len_N numels ≤ u32_bound →
  ∃ l, windows_from ws ordinal param numels = Some l ∧
    w_len <$> l = (numels ≫= λ n, param_lens (elem_bytes n) ws) ∧
    w_ordinal <$> l = range ordinal (ordinal + len_N l) ∧ Forall (λ w, param ≤ w_param w) l ∧
    ∀ i n, numels !! i = Some n → tiles 0 (elem_bytes n) (List.filter (λ w, w_param w =? param + N.of_nat i) l).
Proof.
  intros Hws. revert ordinal param. induction numels as [|n numels IH]; intros ordinal param Hb.
  { exists []. unfold len_N. simpl. rewrite range_nil by lia. by split_and!. }
  unfold len_N in Hb. cbn [length] in Hb. cbn [windows_from]. destruct (N.leb_spec u32_bound param); [lia|].
  rewrite andb_false_r. set (l1 := param_windows _ _ _ _ _ _).
  destruct (param_windows_spec (N.to_nat (div_ceil (elem_bytes n) ws)) ws ordinal param 0 (elem_bytes n))
    as (H1 & H2 & H3 & H4); [done|lia|rewrite N.sub_0_r; by apply param_lens_fuel|].
  fold l1 in H1, H2, H3, H4. rewrite N.sub_0_r in H1.
  destruct (IH (ordinal + N.of_nat (length l1)) (param + 1)) as (l2 & -> & L2 & O2 & P2 & T2); [unfold len_N; lia|].
  exists (l1 ++ l2). cbn [mbind option_bind]. split; [done|].
  change ((n :: numels) ≫= λ n, param_lens (elem_bytes n) ws)
    with (param_lens (elem_bytes n) ws ++ (numels ≫= λ n, param_lens (elem_bytes n) ws)).
  rewrite !fmap_app, H1, H2, L2, O2, len_N_app. unfold len_N at 1 3. split_and!; [done| |apply Forall_app; split|].
  - fold (len_N l2). rewrite range_app by lia. f_equal. unfold len_N. lia.
  - eapply Forall_impl; [exact H4|]. simpl. intros. lia.
  - eapply Forall_impl; [exact P2|]. simpl. intros. lia.
  - intros [|i] m Hm; rewrite List.filter_app; simpl in Hm.
    + injection Hm as <-. change (N.of_nat 0) with 0. rewrite N.add_0_r, filter_param_all, filter_param_none, app_nil_r; [done| |done].
      eapply Forall_impl; [exact P2|]. simpl. intros. lia.
    + rewrite filter_param_none by (eapply Forall_impl; [exact H4|]; simpl; intros; lia).
      specialize (T2 i m Hm). by replace (param + N.of_nat (S i)) with (param + 1 + N.of_nat i) by lia.
Qed.

(** The windows of a layout are the chunks of its families: as many as
    [family_chunk_count], numbered in order, of the lengths of
    [family_chunk_lens], and those of each parameter lie end to end over exactly
    its bytes. *)
Theorem windows_partition numels window_size :
  0 < window_size → window_size < u32_bound → sum_N (elem_bytes <$> numels) < u64_bound →
  len_N numels ≤ u32_bound →
  ∃ l, windows numels window_size = Some l ∧
    w_ordinal <$> l = range 0 (family_chunk_count numels window_size) ∧
    w_len <$> l = family_chunk_lens numels window_size ∧
    ∀ i n, numels !! i = Some n → tiles 0 (elem_bytes n) (List.filter (λ w, w_param w =? N.of_nat i) l).
Proof.
  intros Hws Hu Hb Hn. destruct (windows_from_spec window_size 0 0 numels Hws) as (l & Hl & H1 & H2 & _ & H4); [lia|].
  exists l. unfold windows. destruct (N.eqb_spec window_size 0); [lia|].
  assert (w_len <$> l = family_chunk_lens numels window_size) as Hlens.
  { rewrite H1. unfold family_chunk_lens. destruct (N.eqb_spec window_size 0); [lia|]. symmetry.
    rewrite <- (list_fmap_id (numels ≫= _)) at 2. apply list_fmap_ext. intros i x Hx. change (wrap32 x = x).
    apply wrap32_small. apply list_elem_of_lookup_2, list_elem_of_bind in Hx as (m & Hx & _).
    destruct (split_lens_spec _ _ _ Hws (param_lens_fuel (elem_bytes m) window_size Hws)) as [_ Hf].
    rewrite Forall_forall in Hf. specialize (Hf x Hx). lia. }
  split_and!; [done| |done|done].
  rewrite H2, family_count, <- Hlens, length_fmap by done. done.
Qed.

(** ** Concrete walks *)

Lemma fold_walk_order_witness :
  ∃ acts w, walk 4 2 [1; 0; 3; 2] = Some (acts, w) ∧ (acts ≫= sa_fold) = range 0 4 ∧
    sa_seal <$> acts = [false; false; false; false; true].
Proof.
  destruct (walk 4 2 [1; 0; 3; 2]) as [[acts w]|] eqn:E; [|by vm_compute in E].
  exists acts, w. split; [done|]. pose proof (fold_walk_order 4 2 [1; 0; 3; 2] acts w eq_refl E) as (H1 & _ & _ & H2 & _).
  vm_compute in E. injection E as <- <-. by split.
Defined.

Lemma fold_walk_progress_witness :
  ∃ acts w, walk 4 2 [1] = Some (acts, w) ∧ fw_next_fold w < fw_next_issue w ∧ fw_next_fold w ∉ [1].
Proof.
  destruct (walk 4 2 [1]) as [[acts w]|] eqn:E; [|by vm_compute in E].
  exists acts, w. split; [done|]. apply (fold_walk_progress 4 2 [1] acts w eq_refl E).
  vm_compute in E. by injection E as <- <-.
Defined.

Lemma windows_partition_witness :
  ∃ l, windows [2; 1] 6 = Some l ∧ w_ordinal <$> l = range 0 3 ∧ w_len <$> l = [6; 2; 4].
Proof.
  destruct (windows_partition [2; 1] 6) as (l & H1 & H2 & H3 & _); [done|done|by vm_compute|by vm_compute|].
  exists l. split_and!; [exact H1|exact H2|exact H3].
Defined.
