(* ===== verification/VhcDigest.v ===== *)
(** * The round state digest ([daemon-vhc-sdk-consensus/src/digest.rs])

    The sampling schedule drawn from the round seed, the digest of the sampled
    blocks, and the streaming carry that computes the full digest incrementally.
    xxh3 is third-party code, the class [Xxh3]. *)

From S2P Require Import Prelude Text VhcProto VhcMerkle VhcAssignment VhcCommittee VhcDetState VhcDetCustody.

#[local] Open Scope N_scope.
#[local] Open Scope daemon_scope.

(** The one-shot 64-bit hash, the streaming hasher, and its documented law: the
    digest is that of the concatenated input. *)
Class Xxh3 := {
  xxh3_64_with_seed : bytes → N → N;
  xxh3_64_lt : ∀ b s, xxh3_64_with_seed b s < u64_bound;
  Hasher : Type;
  hasher_with_seed : N → Hasher;
  hasher_update : Hasher → bytes → Hasher;
  digest128 : Hasher → N;
  xxh3_128_with_seed : bytes → N → N;
  xxh3_streaming : ∀ s us, digest128 (foldl hasher_update (hasher_with_seed s) us) = xxh3_128_with_seed (mjoin us) s
}.

Definition SCHEDULE_SALT : N := 6296439567916689508.
Definition DIGEST_SALT : N := 6296439567665424243.

Record StateLayout := mkStateLayout { sl_total_len : N; sl_block_size : N }.

Definition layout_of_state (state : bytes) (block_size : N) : StateLayout :=
  mkStateLayout (N.of_nat (length state)) block_size.

Definition num_blocks (l : StateLayout) : N :=
  if sl_block_size l =? 0 then 0 else div_ceil (sl_total_len l) (sl_block_size l).

(** [StateDigest(x.to_le_bytes())]. *)
Definition digest_of_u128 (x : N) : StateDigest := le_value (rev (le_bytes 16 x)).

Record DigestSchedule := mkDigestSchedule { ds_blocks : list N }.

(** ** The schedule *)

Definition SPLITMIX_GAMMA : N := 11400714819323198485.
Definition SPLITMIX_M1 : N := 13787848793156543929.
Definition SPLITMIX_M2 : N := 10723151780598845931.

Definition xorshift (k z : N) : N := N.lxor z (N.shiftr z k).

Definition mix (z : N) : N :=
  let z := wrap64 (xorshift 30 z * SPLITMIX_M1) in
  let z := wrap64 (xorshift 27 z * SPLITMIX_M2) in
  xorshift 31 z.

(** The new state and the output. *)
Definition splitmix64 (state : N) : N * N :=
  let state := wrap64 (state + SPLITMIX_GAMMA) in
  (state, mix state).

Definition chosen_enough (want : N) (st : N * gset N) : bool := want <=? N.of_nat (size st.2).

(** One test and body of the [while] loop. *)
Definition draw_step (want nb : N) (st : N * gset N) : N * gset N :=
  if chosen_enough want st then st
  else
    let '(prng, x) := splitmix64 st.1 in
    (prng, {[ x mod nb ]} ∪ st.2).

(** At most [2^k] turns, stopping early. *)
Fixpoint draw_loop (k : nat) (want nb : N) (st : N * gset N) : N * gset N :=
  match k with
  | O => draw_step want nb st
  | S k' =>
      let st' := draw_loop k' want nb st in
      if chosen_enough want st' then st' else draw_loop k' want nb st'
  end.

Section digest.
Context `{Xxh3}.

Definition derive_schedule (seed : Seed) (layout : StateLayout) (sample_count : N) : DigestSchedule :=
  let nb := num_blocks layout in
  if nb =? 0 then mkDigestSchedule []
  else
    let want := N.min sample_count nb in
    if want =? nb then mkDigestSchedule (range 0 nb)
    else
      let prng := xxh3_64_with_seed (be_bytes 32 seed) SCHEDULE_SALT in
      let '(_, chosen) := draw_loop 64 want nb (prng, ∅) in
      mkDigestSchedule (sort_by N.leb (elements chosen)).

Definition slice (b : bytes) (start end_ : N) : bytes :=
  take (N.to_nat (end_ - start)) (drop (N.to_nat start) b).

Definition block_updates (block_size : N) (state : bytes) (block : N) : list bytes :=
  let len := N.of_nat (length state) in
  let start := N.min (wrap64 (block * block_size)) len in
  let end_ := N.min (wrap64 (wrap64 (block + 1) * block_size)) len in
  [le_bytes 8 block; slice state start end_].

Definition digest_with_schedule (seed : Seed) (layout : StateLayout) (schedule : DigestSchedule) (state : bytes)
    : StateDigest :=
  let hash_seed := xxh3_64_with_seed (be_bytes 32 seed) DIGEST_SALT in
  digest_of_u128 (digest128 (foldl hasher_update (hasher_with_seed hash_seed)
    (ds_blocks schedule ≫= block_updates (sl_block_size layout) state))).

Definition digest_state (seed : Seed) (block_size sample_count : N) (state : bytes) : StateDigest :=
  let layout := layout_of_state state block_size in
  digest_with_schedule seed layout (derive_schedule seed layout sample_count) state.

(** ** The carry *)

Record DigestCarry := mkDigestCarry { dc_hasher : Hasher; dc_block_size : N; dc_offset : N }.

(** [None] is the panic on an empty block size. *)
Definition carry_new (seed : Seed) (block_size : N) : option DigestCarry :=
  if block_size =? 0 then None
  else Some (mkDigestCarry (hasher_with_seed (xxh3_64_with_seed (be_bytes 32 seed) DIGEST_SALT)) block_size 0).

(** The [while !bytes.is_empty()] loop; every turn consumes a byte. *)
Fixpoint carry_loop (fuel : nat) (c : DigestCarry) (b : bytes) : DigestCarry :=
  match fuel with
  | O => c
  | S fuel' =>
      match b with
      | [] => c
      | _ :: _ =>
          let within := dc_offset c mod dc_block_size c in
          let h := if within =? 0 then hasher_update (dc_hasher c) (le_bytes 8 (dc_offset c / dc_block_size c))
                   else dc_hasher c in
          let room := dc_block_size c - within in
          let n := N.to_nat (N.min room (N.of_nat (length b))) in
          carry_loop fuel'
            (mkDigestCarry (hasher_update h (take n b)) (dc_block_size c) (wrap64 (dc_offset c + N.of_nat n)))
            (drop n b)
      end
  end.

Definition carry_update (c : DigestCarry) (b : bytes) : DigestCarry := carry_loop (length b) c b.

Definition carry_finalize (c : DigestCarry) : StateDigest := digest_of_u128 (digest128 (dc_hasher c)).
End digest.

(** ** The carry computes the full digest *)

Section carry.
Context `{Xxh3} (bs : N) (Hbs : 0 < bs).

(** The bytes the hasher sees for the state bytes from an offset on: each block
    is preceded by its index. *)
Fixpoint framed (off : N) (b : bytes) : bytes :=
  match b with
  | [] => []
  | x :: b' => (if off mod bs =? 0 then le_bytes 8 (off / bs) else []) ++ x :: framed (off + 1) b'
  end.

Lemma framed_app off a b : framed off (a ++ b) = framed off a ++ framed (off + N.of_nat (length a)) b.
Proof using Hbs.
  revert off. induction a as [|x a IH]; intros off; cbn [framed app length].
  { by rewrite N.add_0_r. }
  rewrite IH, <- app_assoc. cbn [app].
  by replace (off + 1 + N.of_nat (length a)) with (off + N.of_nat (S (length a))) by lia.
Qed.

Lemma mod_succ off : off mod bs + 1 < bs → (off + 1) mod bs = off mod bs + 1.
Proof using Hbs.
  intros Hlt. pose proof (N.div_mod off bs ltac:(lia)) as Hd. symmetry. apply (N.mod_unique _ _ (off / bs)); [done|].
  generalize dependent (off mod bs). intros. lia.
Qed.

Lemma mod_succ_room off n :
  off mod bs + N.of_nat (S (S n)) ≤ bs → (off + 1) mod bs ≠ 0 ∧ (off + 1) mod bs + N.of_nat (S n) ≤ bs.
Proof using Hbs.
  pose proof (mod_succ off) as Hs. generalize dependent ((off + 1) mod bs). generalize dependent (off mod bs).
  intros r q Hs Hle. specialize (Hs ltac:(lia)). lia.
Qed.

(** Bytes inside a block are hashed as they are. *)
Lemma framed_within off b :
  off mod bs ≠ 0 → off mod bs + N.of_nat (length b) ≤ bs → framed off b = b.
Proof using Hbs.
  revert off. induction b as [|x b IH]; intros off Hne Hle; simpl; [done|].
  rewrite (proj2 (N.eqb_neq _ _) Hne). simpl. f_equal. cbn [length] in Hle. destruct b as [|y b]; [done|].
  cbn [length] in Hle. apply mod_succ_room in Hle as [H1 H2]. by apply IH.
Qed.

Lemma framed_block off b :
  b ≠ [] → off mod bs + N.of_nat (length b) ≤ bs →
  framed off b = (if off mod bs =? 0 then le_bytes 8 (off / bs) else []) ++ b.
Proof using Hbs.
  intros Hne Hle. destruct b as [|x b]; [done|]. cbn [framed]. f_equal. f_equal. cbn [length] in Hle.
  destruct b as [|y b]; [done|]. cbn [length] in Hle.
  apply mod_succ_room in Hle as [H1 H2]. by apply framed_within.
Qed.

(** The carry after a prefix of the state. *)
Definition carries (s : N) (prefix : bytes) (c : DigestCarry) : Prop :=
  dc_block_size c = bs ∧ dc_offset c = N.of_nat (length prefix) ∧
  ∃ us, dc_hasher c = foldl hasher_update (hasher_with_seed s) us ∧ mjoin us = framed 0 prefix.

Lemma carry_loop_step fuel c b :
  b ≠ [] → dc_block_size c = bs →
  let off := dc_offset c in
  let n := N.to_nat (N.min (bs - off mod bs) (N.of_nat (length b))) in
  let h := if off mod bs =? 0 then hasher_update (dc_hasher c) (le_bytes 8 (off / bs)) else dc_hasher c in
  carry_loop (S fuel) c b =
    carry_loop fuel (mkDigestCarry (hasher_update h (take n b)) bs (wrap64 (off + N.of_nat n))) (drop n b).
Proof using Hbs. intros Hne Hb. subst bs. by destruct b. Qed.

Lemma carry_loop_spec fuel s prefix c b :
  (length b ≤ fuel)%nat → N.of_nat (length (prefix ++ b)) < u64_bound →
  carries s prefix c → carries s (prefix ++ b) (carry_loop fuel c b).
Proof using Hbs.
  revert prefix c b. induction fuel as [|fuel IH]; intros prefix c b Hf Hb Hc.
  { destruct b; simpl in *; [by rewrite app_nil_r|lia]. }
  destruct (decide (b = [])) as [->|Hne]; [by rewrite app_nil_r|]. destruct Hc as (H1 & H2 & us & H3 & H4).
  rewrite carry_loop_step by done. cbv zeta. rewrite H2, H3. set (off := N.of_nat (length prefix)).
  pose proof (N.mod_lt off bs ltac:(lia)) as Hm. assert (0 < length b)%nat as Hl by (destruct b; [done|simpl; lia]).
  set (n := N.to_nat (N.min (bs - off mod bs) (N.of_nat (length b)))).
  assert ((0 < n)%nat ∧ (n ≤ length b)%nat ∧ off mod bs + N.of_nat n ≤ bs) as (Hn0 & Hnl & Hnb)
    by (unfold n; generalize dependent (off mod bs); intros; lia).
  replace (prefix ++ b) with ((prefix ++ take n b) ++ drop n b) by (by rewrite <- app_assoc, take_drop). apply IH.
  - rewrite length_drop. lia.
  - by rewrite <- app_assoc, take_drop.
  - rewrite length_app in Hb. split_and!; cbn [dc_block_size dc_offset dc_hasher]; [done| |].
    { rewrite wrap64_small, length_app, length_take by lia. unfold off. lia. }
    exists (us ++ (if off mod bs =? 0 then [le_bytes 8 (off / bs)] else []) ++ [take n b]). split.
    + rewrite !foldl_app. by destruct (off mod bs =? 0).
    + rewrite !join_app, H4, framed_app. f_equal. rewrite N.add_0_l. fold off. rewrite framed_block.
      * destruct (off mod bs =? 0); cbn [mjoin list_join app]; by rewrite ?app_nil_r.
      * intros Hnil%(f_equal length). rewrite length_take in Hnil. simpl in Hnil. lia.
      * rewrite length_take. replace (Nat.min n (length b)) with n by lia. done.
Qed.
End carry.

(** ** Blocks *)

Section blocks.
Context (bs : N) (Hbs : 0 < bs) (state : bytes).

Abbreviation len := (N.of_nat (length state)).

Lemma slice_all start end_ : start ≤ end_ → end_ ≤ len → N.of_nat (length (slice state start end_)) = end_ - start.
Proof using Hbs. intros H1 H2. unfold slice. rewrite length_take, length_drop. lia. Qed.

(** The blocks from an index on, as the schedule feeds them. *)
Lemma blocks_framed (Hb : len + bs < u64_bound) nb k :
  nb = div_ceil len bs → k ≤ nb →
  mjoin (range k nb ≫= block_updates bs state) = framed bs (k * bs) (drop (N.to_nat (k * bs)) state).
Proof using Hbs.
  intros Hnb. destruct (div_ceil_spec len bs Hbs) as [H1 H2]. rewrite <- Hnb in H1, H2. clear Hnb.
  apply (range_ind (λ k l, k ≤ nb → mjoin (l ≫= block_updates bs state) =
    framed bs (k * bs) (drop (N.to_nat (k * bs)) state))); clear k.
  - intros k Hk Hle. assert (k = nb) as -> by lia. rewrite drop_ge by lia. done.
  - intros k Hk IH _. specialize (IH ltac:(lia)).
    change ((k :: range (k + 1) nb) ≫= block_updates bs state)
      with (block_updates bs state k ++ (range (k + 1) nb ≫= block_updates bs state)).
    rewrite join_app, IH. clear IH. pose proof (N.mul_le_mono_r (k + 1) nb bs ltac:(lia)) as Hkb.
    unfold block_updates. rewrite (wrap64_small (k + 1)) by nia. rewrite !wrap64_small by lia.
    assert (k * bs < len) as Hin by lia. rewrite (N.min_l (k * bs)) by lia.
    set (e := N.min ((k + 1) * bs) len).
    assert (drop (N.to_nat (k * bs)) state = slice state (k * bs) e ++ drop (N.to_nat ((k + 1) * bs)) state) as ->.
    { unfold slice. rewrite <- (take_drop (N.to_nat (e - k * bs)) (drop (N.to_nat (k * bs)) state)) at 1. f_equal.
      rewrite drop_drop. destruct (N.le_gt_cases ((k + 1) * bs) len) as [Hle|Hgt].
      - f_equal. unfold e. lia.
      - rewrite !drop_ge by (unfold e; lia). done. }
    assert (N.of_nat (length (slice state (k * bs) e)) = e - k * bs) as Hl by (apply slice_all; unfold e; lia).
    rewrite framed_app, Hl, (framed_block bs Hbs (k * bs) (slice state (k * bs) e)).
    + rewrite N.Div0.mod_mul, N.div_mul by lia. cbn [N.eqb mjoin list_join]. rewrite app_nil_r, <- !app_assoc.
      destruct (N.le_gt_cases ((k + 1) * bs) len) as [Hle|Hgt]; [|by rewrite drop_ge by lia].
      by replace (k * bs + (e - k * bs)) with ((k + 1) * bs) by (unfold e; lia).
    + intros Hnil. rewrite Hnil in Hl. simpl in Hl. unfold e in Hl. lia.
    + rewrite N.Div0.mod_mul, Hl. unfold e. lia.
    + done.
Qed.
End blocks.

Section carry_equiv.
Context `{Xxh3}.

(** Feeding the state to the carry in any pieces gives the full digest of
    the state, as long as its blocks number at most [u32::MAX]. *)
Theorem carry_is_digest seed block_size parts c :
  N.of_nat (length (mjoin parts)) + block_size < u64_bound →
  div_ceil (N.of_nat (length (mjoin parts))) block_size < u32_bound →
  carry_new seed block_size = Some c →
  carry_finalize (foldl carry_update c parts) = digest_state seed block_size (u32_bound - 1) (mjoin parts).
Proof.
  intros Hb Hnb Hc. unfold carry_new in Hc. destruct (N.eqb_spec block_size 0) as [|Hne]; [done|]. injection Hc as <-.
  assert (0 < block_size) as Hbs by lia. set (s := xxh3_64_with_seed (be_bytes 32 seed) DIGEST_SALT).
  assert (∀ ps prefix c, N.of_nat (length (prefix ++ mjoin ps)) < u64_bound → carries block_size s prefix c →
    carries block_size s (prefix ++ mjoin ps) (foldl carry_update c ps)) as Hfold.
  { induction ps as [|p ps IH]; intros prefix c Hlt Hc; [by rewrite app_nil_r|].
    change (mjoin (p :: ps)) with (p ++ mjoin ps) in *. rewrite app_assoc in *. cbn [foldl]. apply IH; [done|].
    apply carry_loop_spec; [done|done| |done]. rewrite length_app in Hlt. lia. }
  destruct (Hfold parts [] (mkDigestCarry (hasher_with_seed s) block_size 0)) as (_ & _ & us & Hh & Hus).
  { rewrite app_nil_l. lia. }
  { split_and!; [done|done|]. by exists []. }
  rewrite app_nil_l in Hus. unfold carry_finalize, digest_state, digest_with_schedule. rewrite Hh, xxh3_streaming, Hus.
  fold s. rewrite xxh3_streaming. do 2 f_equal. unfold derive_schedule, layout_of_state, num_blocks.
  cbn [sl_block_size sl_total_len]. rewrite (proj2 (N.eqb_neq _ _) Hne).
  set (nb := div_ceil _ _) in *. destruct (N.eqb_spec nb 0) as [Hz|Hz].
  - destruct (div_ceil_spec (N.of_nat (length (mjoin parts))) block_size Hbs) as [Hd _]. fold nb in Hd. rewrite Hz, N.mul_0_r in Hd.
    by destruct (mjoin parts); [|simpl in Hd; lia].
  - rewrite N.min_r, N.eqb_refl by lia. cbn [ds_blocks].
    rewrite (blocks_framed block_size Hbs (mjoin parts) Hb nb 0) by lia. by rewrite N.mul_0_l, drop_0.
Qed.
End carry_equiv.

(** ** The generator reaches every block *)

Definition inj64 (f : N → N) : Prop :=
  ∀ x y, x < u64_bound → y < u64_bound → f x < u64_bound ∧ (f x = f y → x = y).

Lemma inj64_compose f g : inj64 f → inj64 g → inj64 (λ x, g (f x)).
Proof.
  intros Hf Hg x y Hx Hy. destruct (Hf x y Hx Hy) as [H1 H2], (Hf y x Hy Hx) as [H3 _].
  destruct (Hg (f x) (f y) H1 H3) as [H4 H5]. split; [done|]. intros Heq. auto.
Qed.

(** Multiplication by a number with an inverse modulo [2^64]. *)
Lemma inj64_mul c inv : (c * inv) mod u64_bound = 1 → inj64 (λ x, wrap64 (x * c)).
Proof.
  intros Hinv x y Hx Hy. split; [apply wrap64_bound|]. intros Heq.
  assert (∀ z, z < u64_bound → wrap64 (wrap64 (z * c) * inv) = z) as Hz.
  { intros z Hz. unfold wrap64. rewrite N.Div0.mul_mod_idemp_l, <- N.mul_assoc.
    rewrite <- N.Div0.mul_mod_idemp_r, Hinv, N.mul_1_r. by apply N.mod_small. }
  rewrite <- (Hz x Hx), <- (Hz y Hy). by rewrite Heq.
Qed.

Lemma shiftr_lt z k : N.shiftr z k ≤ z.
Proof. rewrite N.shiftr_div_pow2. apply N.Div0.div_le_upper_bound. pose proof (N.pow_nonzero 2 k ltac:(done)). nia. Qed.

Lemma lxor_lt x y : x < u64_bound → y < u64_bound → N.lxor x y < u64_bound.
Proof.
  intros Hx Hy. change u64_bound with (2 ^ 64) in *. destruct (N.eq_dec (N.lxor x y) 0) as [->|Hz]; [done|].
  apply N.log2_lt_pow2; [lia|]. apply N.le_lt_trans with (N.max (N.log2 x) (N.log2 y)); [apply N.log2_lxor|].
  apply N.max_lub_lt; [destruct (N.eq_dec x 0) as [->|]|destruct (N.eq_dec y 0) as [->|]]; try done; apply N.log2_lt_pow2; lia.
Qed.

(** A number is determined by its xor with a proper shift of itself. *)
Lemma xorshift_inj k : 0 < k → inj64 (xorshift k).
Proof.
  intros Hk x y Hx Hy. unfold xorshift. split.
  { apply lxor_lt; [done|]. pose proof (shiftr_lt x k). lia. }
  intros Heq. assert (N.lxor x y = N.shiftr (N.lxor x y) k) as Hd.
  { rewrite N.shiftr_lxor. apply N.bits_inj. intros n. apply (f_equal (λ z, N.testbit z n)) in Heq.
    rewrite !N.lxor_spec in *. revert Heq.
    by destruct (N.testbit x n), (N.testbit y n), (N.testbit (N.shiftr x k) n), (N.testbit (N.shiftr y k) n). }
  apply N.lxor_eq. rewrite N.shiftr_div_pow2 in Hd. destruct (N.eq_dec (N.lxor x y) 0) as [|Hz]; [done|].
  assert (2 ≤ 2 ^ k) as H2 by (change 2 with (2 ^ 1) at 1; apply N.pow_le_mono_r; lia).
  pose proof (N.div_lt (N.lxor x y) (2 ^ k) ltac:(lia) ltac:(lia)). lia.
Qed.

Lemma mix_inj : inj64 mix.
Proof.
  assert (inj64 (λ z, wrap64 (z * SPLITMIX_M1))) as H1 by (apply (inj64_mul _ 10871156337175269513); by vm_compute).
  assert (inj64 (λ z, wrap64 (z * SPLITMIX_M2))) as H2 by (apply (inj64_mul _ 3573116690164977347); by vm_compute).
  assert (∀ k, 0 < k → inj64 (xorshift k)) as Hx by exact xorshift_inj.
  exact (inj64_compose _ _ (inj64_compose _ _ (inj64_compose _ _ (inj64_compose _ _
    (Hx 30 eq_refl) H1) (Hx 27 eq_refl)) H2) (Hx 31 eq_refl)).
Qed.

(** An injection of an initial segment into itself reaches all of it. *)
Lemma segment_surjective (f : N → N) b :
  (∀ x, x < b → f x < b) → (∀ x y, x < b → y < b → f x = f y → x = y) → ∀ y, y < b → ∃ x, x < b ∧ f x = y.
Proof.
  intros Hb Hi y Hy. assert (f <$> range 0 b ≡ₚ range 0 b) as Hperm.
  { apply submseteq_length_Permutation; [|by rewrite length_fmap].
    apply NoDup_submseteq.
    - apply NoDup_fmap_2_strong; [|unfold range; apply NoDup_fmap_2_strong; [intros; lia|apply NoDup_seq]].
      intros x x' [_ ?]%elem_of_range [_ ?]%elem_of_range. by apply Hi.
    - intros z (x & -> & [_ Hx]%elem_of_range)%list_elem_of_fmap. apply elem_of_range. split; [lia|by apply Hb]. }
  assert (y ∈ f <$> range 0 b) as (x & -> & [_ Hx]%elem_of_range)%list_elem_of_fmap
    by (rewrite Hperm; apply elem_of_range; lia).
  by exists x.
Qed.

(** The generator after [i] draws from a state, and its [i]-th output. *)
Definition weyl (s i : N) : N := wrap64 (s + i * SPLITMIX_GAMMA).

Lemma weyl_step s i : wrap64 (weyl s i + SPLITMIX_GAMMA) = weyl s (i + 1).
Proof. unfold weyl, wrap64. rewrite N.Div0.add_mod_idemp_l. f_equal. lia. Qed.

Lemma draws_reach s y : y < u64_bound → ∃ i, i < u64_bound ∧ mix (weyl s (i + 1)) = y.
Proof.
  intros Hy. apply (segment_surjective (λ i, mix (weyl s (i + 1)))); [| |done].
  - intros i Hi. apply (mix_inj _ 0); [apply wrap64_bound|done].
  - intros i j Hi Hj Heq. apply mix_inj in Heq; [|apply wrap64_bound..]. unfold weyl in Heq.
    assert (inj64 (λ z, wrap64 (z * SPLITMIX_GAMMA))) as Hg by (apply (inj64_mul _ 17428512612931826493); by vm_compute).
    apply (Hg i j Hi Hj). unfold wrap64 in *.
    assert (∀ k, (s + (k + 1) * SPLITMIX_GAMMA + (u64_bound * (s + SPLITMIX_GAMMA) - (s + SPLITMIX_GAMMA))) mod u64_bound =
      (k * SPLITMIX_GAMMA) mod u64_bound) as Hk.
    { intros k. rewrite <- (N.Div0.mod_add (k * SPLITMIX_GAMMA) (s + SPLITMIX_GAMMA) u64_bound). f_equal.
      unfold u64_bound. lia. }
    rewrite <- (Hk i), <- (Hk j), <- N.Div0.add_mod_idemp_l, Heq, N.Div0.add_mod_idemp_l. done.
Qed.

Section schedule_loop.
Context (want nb s : N).

Lemma iter_done n st : chosen_enough want st = true → N.iter n (draw_step want nb) st = st.
Proof.
  intros Hd. induction n as [|n IH] using N.peano_ind; [done|]. rewrite N.iter_succ, IH. unfold draw_step. by rewrite Hd.
Qed.

Lemma draw_loop_iter k st : draw_loop k want nb st = N.iter (2 ^ N.of_nat k) (draw_step want nb) st.
Proof.
  revert st. induction k as [|k IH]; intros st; [done|]. cbn [draw_loop]. cbv zeta. rewrite !IH.
  rewrite Nat2N.inj_succ, N.pow_succ_r'. replace (2 * 2 ^ N.of_nat k) with (2 ^ N.of_nat k + 2 ^ N.of_nat k) by lia.
  rewrite N.iter_add. destruct (chosen_enough want _) eqn:E; [by rewrite (iter_done _ _ E)|done].
Qed.

(** While the loop runs, the set holds exactly the blocks drawn so far. *)
Definition drawing (n : N) (st : N * gset N) : Prop :=
  (∀ x, x ∈ st.2 → x < nb) ∧ N.of_nat (size st.2) ≤ want ∧
  (chosen_enough want st = true ∨
   (st.1 = weyl s n ∧ ∀ i, i < n → mix (weyl s (i + 1)) mod nb ∈ st.2)).

Lemma size_insert_le (x : N) (c : gset N) : (size ({[ x ]} ∪ c) ≤ S (size c))%nat.
Proof.
  pose proof (size_union_inter {[ x ]} c) as Hs. rewrite size_singleton in Hs. lia.
Qed.

Lemma drawing_iter n : want < nb → drawing n (N.iter n (draw_step want nb) (wrap64 s, ∅)).
Proof.
  intros Hwant. induction n as [|n (IH1 & IH2 & IH3)] using N.peano_ind.
  { cbn [N.iter]. unfold drawing. cbn [fst snd]. split_and!; [set_solver|rewrite size_empty; lia|].
    right. split; [|intros; lia]. unfold weyl. by rewrite N.mul_0_l, N.add_0_r. }
  rewrite N.iter_succ. set (st := N.iter n _ _) in *. unfold draw_step.
  destruct (chosen_enough want st) eqn:E.
  { split_and!; [done|done|by left]. }
  destruct IH3 as [|[Hs Hd]]; [done|]. unfold splitmix64. rewrite Hs, weyl_step. cbn [fst snd].
  unfold chosen_enough in E. apply N.leb_gt in E. rewrite <- N.add_1_r. split_and!; cbn [fst snd].
  - intros x [->%elem_of_singleton|Hx]%elem_of_union; [apply N.mod_lt; lia|by apply IH1].
  - pose proof (size_insert_le (mix (weyl s (n + 1)) mod nb) st.2). lia.
  - right. split; [done|]. intros i Hi. destruct (N.eq_dec i n) as [->|]; [set_solver|].
    apply elem_of_union_r, Hd. lia.
Qed.

(** [2^64] draws are enough. *)
Lemma draw_loop_done :
  want < nb → nb ≤ u64_bound →
  let st := draw_loop 64 want nb (wrap64 s, ∅) in
  N.of_nat (size st.2) = want ∧ ∀ x, x ∈ st.2 → x < nb.
Proof.
  intros Hwant Hnb. cbv zeta. rewrite draw_loop_iter. change (2 ^ N.of_nat 64) with u64_bound.
  destruct (drawing_iter u64_bound Hwant) as (H1 & H2 & H3). set (st := N.iter u64_bound _ _) in *. split; [|done].
  enough (want ≤ N.of_nat (size st.2)) by lia. destruct H3 as [H3|[_ Hall]]; [by apply N.leb_le|].
  assert ((list_to_set (range 0 nb) : gset N) ⊆ st.2) as Hsub.
  { intros y [_ Hy]%elem_of_list_to_set%elem_of_range. destruct (draws_reach s y ltac:(lia)) as (i & Hi & <-).
    specialize (Hall i Hi). by rewrite N.mod_small in Hall. }
  apply subseteq_size in Hsub. rewrite size_list_to_set, range_length in Hsub; [lia|].
  unfold range. apply NoDup_fmap_2_strong; [intros; lia|apply NoDup_seq].
Qed.
End schedule_loop.

Section schedule.
Context `{Xxh3}.

(** The schedule always comes out, within [2^64] draws of its rejection
    loop: it lists as many distinct blocks as asked for (all of them if there are
    no more), in ascending order, each inside the state. *)
Theorem schedule_exact seed layout sample_count :
  sl_total_len layout < u64_bound →
  let l := ds_blocks (derive_schedule seed layout sample_count) in
  len_N l = N.min sample_count (num_blocks layout) ∧ StronglySorted N.lt l ∧
  Forall (λ b, b < num_blocks layout) l.
Proof.
  intros Hlen. cbv zeta. unfold derive_schedule. set (nb := num_blocks layout).
  assert (nb < u64_bound) as Hnb.
  { unfold nb, num_blocks. destruct (N.eqb_spec (sl_block_size layout) 0); [done|].
    destruct (div_ceil_spec (sl_total_len layout) (sl_block_size layout)) as [_ Hd]; [lia|].
    generalize dependent (div_ceil (sl_total_len layout) (sl_block_size layout)). intros q Hq.
    destruct (N.le_gt_cases q (sl_total_len layout)); [lia|nia]. }
  destruct (N.eqb_spec nb 0) as [Hz|Hz].
  { rewrite Hz. split_and!; [unfold len_N; simpl; lia|constructor|constructor]. }
  destruct (N.eqb_spec (N.min sample_count nb) nb) as [He|He]; cbn [ds_blocks].
  - rewrite He. unfold len_N. rewrite range_length. split_and!; [lia| |].
    + apply StronglySorted_le_lt; [|unfold range; apply NoDup_fmap_2_strong; [intros; lia|apply NoDup_seq]].
      apply (range_ind (λ a l, StronglySorted N.le l)); [constructor|]. intros a Ha IH. constructor; [done|].
      apply Forall_forall. intros x [? _]%elem_of_range. lia.
    + apply Forall_forall. by intros x [_ ?]%elem_of_range.
  - destruct (draw_loop_done (N.min sample_count nb) nb (xxh3_64_with_seed (be_bytes 32 seed) SCHEDULE_SALT))
      as [Hs Hlt]; [lia|lia|]. rewrite wrap64_small in Hs, Hlt by apply xxh3_64_lt.
    destruct (draw_loop 64 _ _ _) as [prng chosen]. cbn [snd ds_blocks] in *.
    assert (sort_by N.leb (elements chosen) ≡ₚ elements chosen) as Hperm by apply sort_by_perm.
    split_and!.
    + unfold len_N. rewrite Hperm. exact Hs.
    + apply StronglySorted_le_lt; [|rewrite Hperm; apply NoDup_elements].
      apply sort_by_sorted; [apply _|..]; intros x y; rewrite ?N.leb_le, ?N.leb_gt; lia.
    + rewrite Hperm. apply Forall_forall. intros x ?%elem_of_elements. by apply Hlt.
Qed.
End schedule.

(** ** A concrete hash *)

Definition toy_xxh3 : Xxh3.
Proof.
  refine {|
    xxh3_64_with_seed b s := wrap64 (toy_hash b + s);
    Hasher := N * bytes;
    hasher_with_seed s := (s, []);
    hasher_update h b := (h.1, h.2 ++ b);
    digest128 h := toy_hash h.2 + h.1;
    xxh3_128_with_seed b s := toy_hash b + s
  |}.
  - intros. apply wrap64_bound.
  - intros s us. assert (∀ p, foldl (λ (h : N * bytes) b, (h.1, h.2 ++ b)) (s, p) us = (s, p ++ mjoin us)) as Hf.
    { induction us as [|u us IH]; intros p; cbn [foldl fst snd]; [by rewrite app_nil_r|].
      rewrite IH, <- app_assoc. done. }
    rewrite (Hf []). done.
Defined.

Definition toy_parts : list bytes := [string_bytes "abc"; []; string_bytes "defghij"; string_bytes "k"].

Lemma carry_is_digest_witness :
  ∃ c, @carry_new toy_xxh3 5 4 = Some c ∧
    carry_finalize (foldl carry_update c toy_parts) =
      @digest_state toy_xxh3 5 4 (u32_bound - 1) (string_bytes "abcdefghijk").
Proof.
  eexists. split; [reflexivity|]. apply (@carry_is_digest toy_xxh3 5 4 toy_parts); by vm_compute.
Defined.

Lemma schedule_exact_witness :
  let l := ds_blocks (@derive_schedule toy_xxh3 9 (mkStateLayout 100 7) 4) in
  len_N l = 4 ∧ StronglySorted N.lt l ∧ Forall (λ b, b < 15) l.
Proof. apply (@schedule_exact toy_xxh3 9 (mkStateLayout 100 7) 4). by vm_compute. Defined.
