(* ===== verification/VhcAttestation.v ===== *)
(** * Checkpoint attestations ([daemon-vhc-sdk-consensus/src/attestation.rs])

    Signed claims about a checkpoint in two tiers, the ledger that counts distinct
    signers, and the policy over it: the join gate and the preferred checkpoint. *)

From S2P Require Import Prelude Text VhcProto VhcMerkle VhcMessages VhcAssignment VhcLcg VhcCommittee.

#[local] Open Scope N_scope.
#[local] Open Scope daemon_scope.

Inductive AttestationTier := TierDigest | TierRestore.

#[export] Instance AttestationTier_eq_dec : EqDecision AttestationTier.
Proof. solve_decision. Defined.

Inductive AttestationError :=
| SignerMismatch | AttBadSignature | AttMalformed | UnknownTier (tag : N) | AttCodec.

Definition tier_tag (t : AttestationTier) : N :=
  match t with TierDigest => 0 | TierRestore => 1 end.

Definition tier_try_from (v : N) : result AttestationError AttestationTier :=
  match v with
  | 0 => Ok TierDigest
  | 1 => Ok TierRestore
  | other => Err (UnknownTier other)
  end.

Record AttestationBody := mkAttestationBody {
  ab_tier : AttestationTier;
  ab_run_id : Hash;
  ab_epoch : N;
  ab_round : N;
  ab_checkpoint : Hash;
  ab_digest : StateDigest;
  ab_signer : PeerId
}.

Record SignedAttestation := mkSignedAttestation {
  sa_body : AttestationBody;
  sa_sig : Signature
}.

Definition to_wire (a : SignedAttestation) : CheckpointAttestation :=
  let b := sa_body a in
  mkCheckpointAttestation (tier_tag (ab_tier b)) (ab_run_id b) (ab_epoch b) (ab_round b)
    (ab_checkpoint b) (ab_digest b) (ab_signer b) (sa_sig a).

Definition from_wire (w : CheckpointAttestation) : result AttestationError SignedAttestation :=
  match tier_try_from (ca_tier w) with
  | Ok tier => Ok (mkSignedAttestation
      (mkAttestationBody tier (ca_run_id w) (ca_epoch w) (ca_round w) (ca_checkpoint w)
        (ca_digest w) (ca_signer w)) (ca_sig w))
  | Err e => Err e
  end.

(** The [entries] of the ledger. *)
Record AttestationLedger := mkAttestationLedger { al_entries : list SignedAttestation }.

Definition AttestationLedger_new : AttestationLedger := mkAttestationLedger [].

(** [(checkpoint, tier, signer)]. *)
Definition att_key (a : SignedAttestation) : Hash * AttestationTier * PeerId :=
  (ab_checkpoint (sa_body a), ab_tier (sa_body a), ab_signer (sa_body a)).

Definition signers (l : AttestationLedger) (checkpoint : Hash) (tier : AttestationTier) : list PeerId :=
  canonical ((λ e, ab_signer (sa_body e)) <$>
    List.filter (λ e, (ab_checkpoint (sa_body e) =? checkpoint) && bool_decide (ab_tier (sa_body e) = tier))
      (al_entries l)).

(** [u32::try_from(..).unwrap_or(u32::MAX)]. *)
Definition att_count (l : AttestationLedger) (checkpoint : Hash) (tier : AttestationTier) : N :=
  N.min (N.of_nat (length (signers l checkpoint tier))) (u32_bound - 1).

Definition is_restore_attested (l : AttestationLedger) (checkpoint : Hash) : bool :=
  0 <? att_count l checkpoint TierRestore.

Record AttestationPolicy := mkAttestationPolicy { k_digest : N }.

Inductive JoinEligibility :=
| Eligible (digest_attestations : N)
| Ineligible (have need : N).

Definition is_eligible (j : JoinEligibility) : bool :=
  match j with Eligible _ => true | Ineligible _ _ => false end.

Definition join_eligibility (p : AttestationPolicy) (l : AttestationLedger) (checkpoint : Hash) : JoinEligibility :=
  let have := att_count l checkpoint TierDigest in
  if k_digest p <=? have then Eligible have else Ineligible have (k_digest p).

(** The key of [max_by], compared lexicographically: [a] is no greater than [b]. *)
Definition preference_leb (l : AttestationLedger) (a b : Hash) : bool :=
  match is_restore_attested l a, is_restore_attested l b with
  | false, true => true
  | true, false => false
  | _, _ =>
      match att_count l a TierDigest ?= att_count l b TierDigest with
      | Lt => true
      | Gt => false
      | Eq => a <=? b
      end
  end.

(** [Iterator::max_by]: of equal elements the last is kept. *)
Fixpoint max_by {A} (leb : A → A → bool) (best : A) (l : list A) : A :=
  match l with
  | [] => best
  | x :: l' => max_by leb (if leb best x then x else best) l'
  end.

Definition preferred_checkpoint (p : AttestationPolicy) (l : AttestationLedger) (candidates : list Hash)
    : option Hash :=
  match List.filter (λ c, is_eligible (join_eligibility p l c)) candidates with
  | [] => None
  | c :: cs => Some (max_by (preference_leb l) c cs)
  end.

(** The canonical encoding of [(ATTEST_DOMAIN, body)]. *)
Class AttestationCodec := { attestation_vec : AttestationBody → option bytes }.

Section attestation.
Context `{Crypto, AttestationCodec}.

Definition att_preimage (b : AttestationBody) : result AttestationError bytes :=
  match attestation_vec b with Some v => Ok v | None => Err AttCodec end.

Definition att_sign (b : AttestationBody) (sk : SigningKey) : result AttestationError SignedAttestation :=
  if negb (peer_id sk =? ab_signer b) then Err SignerMismatch
  else match attestation_vec b with
       | Some v => Ok (mkSignedAttestation b (ed25519_sign sk v))
       | None => Err AttCodec
       end.

Definition att_verify (a : SignedAttestation) : result AttestationError unit :=
  match att_preimage (sa_body a) with
  | Err e => Err e
  | Ok v =>
      match verify_sig (ab_signer (sa_body a)) (sa_sig a) v with
      | VerifyValid => Ok tt
      | VerifyInvalid => Err AttBadSignature
      | VerifyMalformed => Err AttMalformed
      end
  end.

Definition ledger_record (l : AttestationLedger) (att : SignedAttestation)
    : result AttestationError bool * AttestationLedger :=
  match att_verify att with
  | Err e => (Err e, l)
  | Ok _ =>
      if existsb (λ e, bool_decide (att_key e = att_key att)) (al_entries l) then (Ok false, l)
      else (Ok true, mkAttestationLedger (al_entries l ++ [att]))
  end.

(** Entries are verified, and no signer counts twice for one claim. *)
Definition ledger_ok (l : AttestationLedger) : Prop :=
  Forall (λ a, att_verify a = Ok tt) (al_entries l) ∧ NoDup (att_key <$> al_entries l).

Lemma ledger_record_ok l att r l' :
  ledger_ok l → ledger_record l att = (r, l') → ledger_ok l'.
Proof.
  intros [Hv Hn] Hr. unfold ledger_record in Hr. destruct (att_verify att) as [[]|e] eqn:E; [|by simplify_eq].
  destruct (existsb _ _) eqn:Hd; simplify_eq; [done|]. simpl. split; simpl.
  - apply Forall_app. by repeat constructor.
  - rewrite fmap_app. apply NoDup_app. split_and!; [done| |apply NoDup_singleton].
    intros k Hk Hin. apply list_elem_of_singleton in Hin. subst k.
    apply list_elem_of_fmap in Hk as (e & Hek & He). apply existsb_false_Forall in Hd.
    rewrite Forall_forall in Hd. apply Hd in He. by apply bool_decide_eq_false in He.
Qed.
End attestation.

(** ** Counting *)

Lemma elem_of_signers l checkpoint tier p :
  p ∈ signers l checkpoint tier ↔
    ∃ a, a ∈ al_entries l ∧ att_key a = (checkpoint, tier, p).
Proof.
  unfold signers. rewrite elem_of_canonical, list_elem_of_fmap. split.
  - intros (a & -> & Ha). apply list_elem_of_In, filter_In in Ha as [Ha Hp].
    apply andb_true_iff in Hp as [H1%N.eqb_eq H2%bool_decide_eq_true]. exists a.
    split; [by apply list_elem_of_In|]. unfold att_key. by rewrite H1, H2.
  - intros (a & Ha & Hk). unfold att_key in Hk. simplify_eq. exists a. split; [done|].
    apply list_elem_of_In, filter_In. split; [by apply list_elem_of_In|].
    by rewrite N.eqb_refl, bool_decide_eq_true_2.
Qed.

Lemma NoDup_signers l checkpoint tier : NoDup (signers l checkpoint tier).
Proof. apply canonical_sorted. Qed.

Lemma signers_snoc l att checkpoint tier :
  att_key att ∉ att_key <$> al_entries l →
  length (signers (mkAttestationLedger (al_entries l ++ [att])) checkpoint tier) =
    (length (signers l checkpoint tier) + if decide ((checkpoint, tier) = (att_key att).1) then 1 else 0)%nat.
Proof.
  intros Hnew. set (l' := mkAttestationLedger _).
  assert (∀ p, p ∈ signers l' checkpoint tier ↔
    p ∈ signers l checkpoint tier ∨ att_key att = (checkpoint, tier, p)) as Hel.
  { intros p. rewrite !elem_of_signers. unfold l'. simpl. split.
    - intros (a & Ha & Hk). apply elem_of_app in Ha as [Ha|Ha]; [by left; exists a|].
      apply list_elem_of_singleton in Ha. subst a. by right.
    - intros [(a & Ha & Hk)|Hk]; [exists a|exists att]; (split; [set_solver|done]). }
  case_decide as Hd.
  - assert (signers l' checkpoint tier ≡ₚ ab_signer (sa_body att) :: signers l checkpoint tier) as ->;
      [|simpl; lia]. unfold att_key in Hd. simplify_eq/=.
    apply NoDup_Permutation; [apply NoDup_signers| |].
    + constructor; [|apply NoDup_signers]. rewrite elem_of_signers. intros (a & Ha & Hk).
      apply Hnew. unfold att_key at 1. rewrite <- Hk. by apply list_elem_of_fmap_2.
    + intros p. rewrite Hel, elem_of_cons. unfold att_key. naive_solver.
  - assert (signers l' checkpoint tier ≡ₚ signers l checkpoint tier) as ->; [|lia].
    apply NoDup_Permutation; [apply NoDup_signers..|].
    intros p. rewrite Hel. split; [|by left]. intros [?|Hk]; [done|]. rewrite Hk in Hd. done.
Qed.

Section counting.
Context `{Crypto, AttestationCodec}.

(** A verified attestation raises the count of distinct signers of its
    checkpoint and tier by exactly one when its signer had not made that claim,
    and not at all when it had; no other count moves, and an attestation that
    does not verify changes nothing. *)
Theorem attestation_counts l att :
  let '(r, l') := ledger_record l att in
  match att_verify att with
  | Err e => r = Err e ∧ l' = l
  | Ok _ =>
      if decide (att_key att ∈ att_key <$> al_entries l) then r = Ok false ∧ l' = l
      else r = Ok true ∧ ∀ checkpoint tier,
        length (signers l' checkpoint tier) =
          (length (signers l checkpoint tier) +
           if decide ((checkpoint, tier) = (att_key att).1) then 1 else 0)%nat
  end.
Proof.
  unfold ledger_record. destruct (att_verify att) as [[]|e]; [|done].
  destruct (existsb _ _) eqn:Hd; case_decide as Hin.
  - done.
  - destruct Hin. apply existsb_true_Exists, Exists_exists in Hd as (a & Ha & Hk).
    apply bool_decide_eq_true in Hk. rewrite <- Hk. by apply list_elem_of_fmap_2.
  - apply list_elem_of_fmap in Hin as (a & Hk & Ha). apply existsb_false_Forall in Hd.
    rewrite Forall_forall in Hd. apply Hd, bool_decide_eq_false in Ha. congruence.
  - split; [done|]. intros c t. by apply signers_snoc.
Qed.
End counting.

(** ** The wire form *)

(** The wire form of an attestation is read back exactly, and only the two
    tags of the tiers are accepted. *)
Theorem attestation_wire_roundtrip a w :
  from_wire (to_wire a) = Ok a ∧
  (∀ a', from_wire w = Ok a' → to_wire a' = w) ∧
  (tier_tag TierRestore < ca_tier w → from_wire w = Err (UnknownTier (ca_tier w))).
Proof.
  split_and!.
  - by destruct a as [[[] ? ? ? ? ? ?] ?].
  - intros a'. unfold from_wire. destruct w as [[|[p|p|]] ? ? ? ? ? ? ?]; simpl; intros [= <-]; done.
  - intros Hw. unfold from_wire. destruct w as [[|[p|p|]] ? ? ? ? ? ? ?]; simpl in *; try done; lia.
Qed.

(** ** The preferred checkpoint *)

Lemma max_by_elem {A} (leb : A → A → bool) best l : max_by leb best l ∈ best :: l.
Proof.
  revert best. induction l as [|x l IH]; intros best; simpl; [by left|].
  specialize (IH (if leb best x then x else best)). case_match; set_solver.
Qed.

Lemma max_by_max {A} (leb : A → A → bool) best l :
  (∀ x y, leb x y = true ∨ leb y x = true) →
  (∀ x y z, leb x y = true → leb y z = true → leb x z = true) →
  Forall (λ x, leb x (max_by leb best l) = true) (best :: l).
Proof.
  intros Htot Htr. revert best. induction l as [|x l IH]; intros best; simpl.
  { constructor; [|done]. by destruct (Htot best best). }
  specialize (IH (if leb best x then x else best)). destruct (leb best x) eqn:E;
    apply Forall_cons in IH as [IH1 IH2]; repeat constructor; try done; [by eapply Htr|].
  destruct (Htot best x) as [?|H2]; [congruence|]. by eapply Htr.
Qed.

Section preference.
Context (l : AttestationLedger).

Definition preference_le (a b : Hash) : Prop := preference_leb l a b = true.

Lemma preference_cases a b :
  preference_le a b ↔
    (is_restore_attested l a = false ∧ is_restore_attested l b = true) ∨
    (is_restore_attested l a = is_restore_attested l b ∧
      (att_count l a TierDigest < att_count l b TierDigest ∨
       (att_count l a TierDigest = att_count l b TierDigest ∧ a ≤ b))).
Proof.
  unfold preference_le, preference_leb.
  destruct (is_restore_attested l a), (is_restore_attested l b);
    destruct (N.compare_spec (att_count l a TierDigest) (att_count l b TierDigest));
    rewrite ?N.leb_le; naive_solver lia.
Qed.

Lemma preference_total a b : preference_le a b ∨ preference_le b a.
Proof.
  rewrite !preference_cases. destruct (is_restore_attested l a), (is_restore_attested l b); naive_solver lia.
Qed.

Lemma preference_trans a b c : preference_le a b → preference_le b c → preference_le a c.
Proof.
  rewrite !preference_cases.
  destruct (is_restore_attested l a), (is_restore_attested l b), (is_restore_attested l c); naive_solver lia.
Qed.
End preference.

Lemma is_eligible_iff p l c : is_eligible (join_eligibility p l c) = true ↔ k_digest p ≤ att_count l c TierDigest.
Proof. unfold join_eligibility. destruct (N.leb_spec (k_digest p) (att_count l c TierDigest)); simpl; split; (done || lia). Qed.

Lemma preferred_spec p l candidates :
  match preferred_checkpoint p l candidates with
  | None => ∀ c, c ∈ candidates → att_count l c TierDigest < k_digest p
  | Some best =>
      (best ∈ candidates ∧ k_digest p ≤ att_count l best TierDigest) ∧
      ∀ c, c ∈ candidates → k_digest p ≤ att_count l c TierDigest → preference_le l c best
  end.
Proof.
  unfold preferred_checkpoint.
  assert (∀ c, c ∈ List.filter (λ c, is_eligible (join_eligibility p l c)) candidates ↔
    c ∈ candidates ∧ k_digest p ≤ att_count l c TierDigest) as Hf.
  { intros c. by rewrite list_elem_of_In, filter_In, is_eligible_iff, <- list_elem_of_In. }
  destruct (List.filter _ candidates) as [|c cs].
  - intros c Hc. destruct (decide (k_digest p ≤ att_count l c TierDigest)) as [Hk|]; [|lia].
    destruct (Hf c) as [_ H]. destruct (not_elem_of_nil c). auto.
  - split.
    + apply Hf, max_by_elem.
    + intros c' Hc' Hk. pose proof (max_by_max (preference_leb l) c cs (preference_total l) (preference_trans l)) as Hm.
      rewrite Forall_forall in Hm. apply Hm, Hf. done.
Qed.

(** The checkpoint a late joiner restores from is a join-eligible candidate,
    restore-attested whenever some eligible candidate is, and among those no
    candidate has more digest attestations; there is none only when no candidate
    is eligible; and the order of the candidates does not matter. *)
Theorem preferred_checkpoint_best p l candidates :
  match preferred_checkpoint p l candidates with
  | None => ∀ c, c ∈ candidates → att_count l c TierDigest < k_digest p
  | Some best =>
      best ∈ candidates ∧ k_digest p ≤ att_count l best TierDigest ∧
      ∀ c, c ∈ candidates → k_digest p ≤ att_count l c TierDigest →
        (is_restore_attested l c = true → is_restore_attested l best = true) ∧
        (is_restore_attested l c = is_restore_attested l best →
          att_count l c TierDigest ≤ att_count l best TierDigest)
  end ∧
  ∀ candidates', (∀ c, c ∈ candidates ↔ c ∈ candidates') →
    preferred_checkpoint p l candidates' = preferred_checkpoint p l candidates.
Proof.
  pose proof (preferred_spec p l candidates) as Hs. split.
  - destruct (preferred_checkpoint p l candidates) as [best|]; [|done].
    destruct Hs as ([H1 H2] & H3). split_and!; [done|done|]. intros c Hc Hk.
    specialize (H3 c Hc Hk). apply preference_cases in H3.
    destruct (is_restore_attested l c), (is_restore_attested l best); naive_solver lia.
  - intros candidates' Hext. pose proof (preferred_spec p l candidates') as Hs'.
    destruct (preferred_checkpoint p l candidates) as [b|], (preferred_checkpoint p l candidates') as [b'|]; try done.
    + destruct Hs as ([H1 H2] & H3), Hs' as ([H1' H2'] & H3'). f_equal.
      specialize (H3 b' ltac:(by apply Hext) H2'). specialize (H3' b ltac:(by apply Hext) H2).
      apply preference_cases in H3, H3'. destruct (is_restore_attested l b), (is_restore_attested l b'); naive_solver lia.
    + destruct Hs as ([H1 H2] & _). specialize (Hs' b ltac:(by apply Hext)). lia.
    + destruct Hs' as ([H1 H2] & _). specialize (Hs b' ltac:(by apply Hext)). lia.
Qed.
