(* ===== verification/VhcState.v ===== *)
(** * State, inputs and outputs of the coordinator

    [daemon-vhc-sdk-consensus/src/coordinator/{config,state,io,admission,epoch}.rs]:
    the value [tick] transforms, one field per field of the source.  A [BTreeMap]
    is a finite map, walked in key order by [btree_list]. *)

From S2P Require Import Prelude Text VhcProto VhcMerkle VhcMessages VhcAssignment VhcAttestation.

#[local] Open Scope N_scope.
#[local] Open Scope daemon_scope.

(** The entries of a [BTreeMap] with numeric keys, in key order. *)
Definition btree_list {A} (m : gmap N A) : list (N * A) :=
  sort_by (λ a b, a.1 <=? b.1) (map_to_list m).

(** ** Configuration *)

Definition K_ABSENCES_DEFAULT : N := 3.

Record CoordinatorParams := mkCoordinatorParams {
  cp_seq_len : N;
  cp_witness_target : N;
  cp_overlap_bps : N;
  cp_k_absences : N;
  cp_verification_percent : N;
  cp_authorized : list PeerId
}.

Definition CoordinatorParams_default : CoordinatorParams :=
  mkCoordinatorParams 1 WITNESS_TARGET_DEFAULT 0 K_ABSENCES_DEFAULT 0 [].

Record RunConfig := mkRunConfig {
  rc_run_id : string;
  rc_proto_version : VhcProtoVersion;
  rc_envelope_hash : Hash;
  rc_required_capabilities : CapabilitySet;
  rc_min_peers : N;
  rc_max_peers : N;
  rc_warmup_s : N;
  rc_round_train_max_s : N;
  rc_round_witness_s : N;
  rc_cooldown_s : N;
  rc_epoch_rounds : N;
  rc_stall_rounds_max : N;
  rc_global_batch : GlobalBatch;
  rc_stop : StopCondition;
  rc_steps_per_round : N;
  rc_seq_len : N;
  rc_witness_target : N;
  rc_overlap_bps : N;
  rc_k_absences : N;
  rc_verification_percent : N;
  rc_authorized : list PeerId
}.

(** ** State *)

Definition NUM_STORED_ROUNDS : N := RETAINED_RECORD_HORIZON_ROUNDS.

Inductive Phase :=
| Uninitialized | WaitingForMembers | Warmup | RoundTrain | RoundWitness | Cooldown | FinishedPhase | Paused.

#[export] Instance Phase_eq_dec : EqDecision Phase.
Proof. solve_decision. Defined.

Definition is_halted (p : Phase) : bool :=
  match p with Uninitialized | FinishedPhase | Paused => true | _ => false end.

Definition is_round_active (p : Phase) : bool :=
  match p with RoundTrain | RoundWitness => true | _ => false end.

Inductive ClientState := Healthy | DroppedState.

#[export] Instance ClientState_eq_dec : EqDecision ClientState.
Proof. solve_decision. Defined.

Record Member := mkMember {
  m_peer : PeerId;
  m_iroh_id : IrohId;
  m_class : ThroughputClass;
  m_state : ClientState;
  m_joined_epoch : N;
  m_absences : N;
  m_last_seen_round : N;
  m_last_straggle_round : option N;
  m_warmup_ready : bool;
  m_last_seen_s : N
}.

#[export] Instance eta_Member : Eta Member := λ m,
  mkMember (m_peer m) (m_iroh_id m) (m_class m) (m_state m) (m_joined_epoch m) (m_absences m)
    (m_last_seen_round m) (m_last_straggle_round m) (m_warmup_ready m) (m_last_seen_s m).

Definition Member_joining (peer : PeerId) (iroh_id : IrohId) (class : ThroughputClass) (epoch : N) : Member :=
  mkMember peer iroh_id class Healthy epoch 0 0 None false 0.

Definition is_healthy (m : Member) : bool := bool_decide (m_state m = Healthy).

Record RoundState := mkRoundState {
  rs_round : N;
  rs_seed : Seed;
  rs_data_index : N;
  rs_batch : BatchWindow;
  rs_witnesses : list PeerId;
  rs_commitments : gmap PeerId Commitment;
  rs_receipts : list RecordEntry;
  rs_attestations : gmap PeerId Attestation;
  rs_digests : gmap PeerId StateDigest;
  rs_record : option RoundRecord;
  rs_desync : bool;
  rs_open : option RoundOpen
}.

#[export] Instance eta_RoundState : Eta RoundState := λ r,
  mkRoundState (rs_round r) (rs_seed r) (rs_data_index r) (rs_batch r) (rs_witnesses r) (rs_commitments r)
    (rs_receipts r) (rs_attestations r) (rs_digests r) (rs_record r) (rs_desync r) (rs_open r).

Definition RoundState_empty : RoundState :=
  mkRoundState 0 0 0 (mkBatchWindow 0 0) [] ∅ [] ∅ ∅ None false None.

Definition RoundState_opened (round : N) (seed : Seed) (data_index : N) (batch : BatchWindow)
    (witnesses : list PeerId) : RoundState :=
  mkRoundState round seed data_index batch witnesses ∅ [] ∅ ∅ None false None.

Record RoundRing := mkRoundRing { slots : list RoundState }.

Definition RoundRing_new : RoundRing := mkRoundRing (replicate (N.to_nat NUM_STORED_ROUNDS) RoundState_empty).

Definition index_of (round : N) : nat := N.to_nat (round mod NUM_STORED_ROUNDS).

(** The slot of a round, if it still holds that round. *)
Definition ring_get (r : RoundRing) (round : N) : option RoundState :=
  s ← slots r !! index_of round;
  if rs_round s =? round then Some s else None.

(** [if let Some(s) = ring.get_mut(round) { *s = f(s) }]. *)
Definition ring_update (r : RoundRing) (round : N) (f : RoundState → RoundState) : RoundRing :=
  match ring_get r round with
  | Some s => mkRoundRing (<[index_of round := f s]> (slots r))
  | None => r
  end.

Definition ring_install (r : RoundRing) (rs : RoundState) : RoundRing :=
  mkRoundRing (<[index_of (rs_round rs) := rs]> (slots r)).

Record CoordinatorState := mkCoordinatorState {
  cs_config : RunConfig;
  cs_phase : Phase;
  cs_epoch : N;
  cs_round : N;
  cs_data_index : N;
  cs_seed : Seed;
  cs_roster : list Member;
  cs_pending : list Member;
  cs_rounds : RoundRing;
  cs_phase_start_s : N;
  cs_now_s : N;
  cs_epoch_start_round : N;
  cs_tokens_done : N;
  cs_rounds_done : N;
  cs_paused_from : option Phase;
  cs_max_reported_round : N;
  cs_attestations : AttestationLedger
}.

#[export] Instance eta_CoordinatorState : Eta CoordinatorState := λ s,
  mkCoordinatorState (cs_config s) (cs_phase s) (cs_epoch s) (cs_round s) (cs_data_index s) (cs_seed s)
    (cs_roster s) (cs_pending s) (cs_rounds s) (cs_phase_start_s s) (cs_now_s s) (cs_epoch_start_round s)
    (cs_tokens_done s) (cs_rounds_done s) (cs_paused_from s) (cs_max_reported_round s) (cs_attestations s).

Definition CoordinatorState_new (config : RunConfig) (initial_seed : Seed) (now_s : N) : CoordinatorState :=
  mkCoordinatorState config WaitingForMembers 0 0 0 initial_seed [] [] RoundRing_new now_s now_s 0 0 0 None 0
    AttestationLedger_new.

Definition healthy (s : CoordinatorState) : list Member := List.filter is_healthy (cs_roster s).

Definition healthy_count (s : CoordinatorState) : N := wrap32 (N.of_nat (length (healthy s))).

Definition healthy_peer_ids (s : CoordinatorState) : list PeerId := sort_by N.leb (m_peer <$> healthy s).

(** [if let Some(m) = state.member_mut(&peer) { *m = f(m) }]. *)
Definition member_update (s : CoordinatorState) (peer : PeerId) (f : Member → Member) : CoordinatorState :=
  s <| cs_roster := update_first (λ m, m_peer m =? peer) f (cs_roster s) |>.

Definition is_healthy_member (s : CoordinatorState) (peer : PeerId) : bool :=
  existsb (λ m, (m_peer m =? peer) && is_healthy m) (cs_roster s).

(** ** Inputs and outputs *)

Inductive ControlAction := Pause | Resume.

#[export] Instance ControlAction_eq_dec : EqDecision ControlAction.
Proof. solve_decision. Defined.

Record ControlRequest := mkControlRequest {
  cr_run_id : string;
  cr_action : ControlAction
}.

(** [Signed<T>]. *)
Record Signed (T : Type) := mkSigned {
  sgn_body : T;
  sgn_signer : PeerId;
  sgn_sig : Signature
}.
Arguments mkSigned {T} _ _ _.
Arguments sgn_body {T} _.
Arguments sgn_signer {T} _.
Arguments sgn_sig {T} _.

Inductive Input :=
| IClock (now : N)
| IMessage (m : SignedMessage)
| IControl (req : Signed ControlRequest).

Inductive Notice :=
| PhaseChanged (from to : Phase)
| JoinAdmitted (peer : PeerId)
| Dropped (peer : PeerId)
| DigestMismatch (round : N) (peers : PeerId * PeerId)
| NoticeFinished
| CheckpointAttested (checkpoint : Hash) (tier : N) (signer : PeerId) (digest_count : N).

Inductive AdmissionReject :=
| AdmitVersionMismatch (expected got : VhcProtoVersion)
| EnvelopeHashMismatch
| MissingCapabilities (missing : list Capability)
| RosterFull
| NotAccepting (phase : Phase)
| DuplicatePeer
| AdmitRunIdMismatch.

Inductive Rejection :=
| Halted (phase : Phase)
| BadSignature
| VersionMismatch (expected got : VhcProtoVersion)
| Unauthorized
| Admission (reason : AdmissionReject)
| UnexpectedMessage
| UnknownPeer
| NotWitness
| StaleRound (current got : N)
| RunIdMismatch.

Inductive Output :=
| Publish (m : VhcMessage)
| Note (n : Notice)
| Reject (r : Rejection).

(** ** Admission *)

Record JoinCandidate := mkJoinCandidate {
  jc_peer : PeerId;
  jc_version : VhcProtoVersion;
  jc_join : Join;
  jc_asserted_hash : option Hash
}.

Definition check_capabilities (advertised required : CapabilitySet) : result AdmissionReject unit :=
  match missing advertised required with
  | [] => Ok tt
  | ms => Err (MissingCapabilities ms)
  end.

Definition occupancy (roster pending : list Member) : N :=
  N.of_nat (length (List.filter is_healthy roster) + length pending).

Definition coordinator_admit (config : RunConfig) (phase : Phase) (roster pending : list Member) (cand : JoinCandidate)
    : result AdmissionReject unit :=
  if negb (String.eqb (jn_run_id (jc_join cand)) (rc_run_id config)) then Err AdmitRunIdMismatch
  else if negb (bool_decide (jc_version cand = rc_proto_version config))
  then Err (AdmitVersionMismatch (rc_proto_version config) (jc_version cand))
  else if (match jc_asserted_hash cand with Some h => negb (h =? rc_envelope_hash config) | None => false end)
  then Err EnvelopeHashMismatch
  else match check_capabilities (jn_capabilities (jc_join cand)) (rc_required_capabilities config) with
  | Err e => Err e
  | Ok _ =>
      if is_halted phase then Err (NotAccepting phase)
      else if existsb (λ m, (m_peer m =? jc_peer cand) && is_healthy m) roster
              || existsb (λ m, m_peer m =? jc_peer cand) pending
      then Err DuplicatePeer
      else if rc_max_peers config <=? occupancy roster pending then Err RosterFull
      else Ok tt
  end.

(** ** Epochs *)

Inductive EpochTrigger := BatchTarget | GlobalLead | Eta_ | NoTrigger.

Record EpochInputs := mkEpochInputs {
  ei_rounds_this_epoch : N;
  ei_epoch_rounds : N;
  ei_peer_epoch_lead : N;
  ei_eta_rounds_remaining : N
}.

Definition ready_to_update_epoch (i : EpochInputs) : EpochTrigger :=
  if (0 <? ei_epoch_rounds i) && (ei_epoch_rounds i <=? ei_rounds_this_epoch i) then BatchTarget
  else if 1 <=? ei_peer_epoch_lead i then GlobalLead
  else if ei_eta_rounds_remaining i =? 0 then Eta_
  else NoTrigger.
