(* ===== verification/VhcCommit.v ===== *)
(** * The commit rule ([daemon-vhc-sdk-consensus/src/coordinator/commit.rs])

    Which commitments of a round enter its record: those of healthy members with
    availability evidence, a storage receipt, a quorum of witnesses whose inline
    sets cover the pair, or a quorum on one root and an opening of that root
    that contains the pair. *)

From S2P Require Import Prelude Text VhcProto VhcMerkle VhcMessages VhcAssignment VhcLcg VhcCommittee VhcState.

#[local] Open Scope N_scope.
#[local] Open Scope daemon_scope.

(** [as u32]. *)
Definition count32 (n : nat) : N := wrap32 (N.of_nat n).

Definition covers_pair (set : list AttestEntry) (peer : PeerId) (hash : Hash) : bool :=
  existsb (λ ae, (ae_peer ae =? peer) && (ae_hash ae =? hash)) set.

Definition witness_inline_covers (rs : RoundState) (w peer : PeerId) (hash : Hash) : bool :=
  match rs_attestations rs !! w with
  | Some a => match at_inline a with Some set => covers_pair set peer hash | None => false end
  | None => false
  end.

(** [*counts.entry(root).or_insert(0) += 1] for each attesting witness. *)
Definition root_counts (rs : RoundState) : gmap Root N :=
  fold_left (λ counts w,
    match rs_attestations rs !! w with
    | Some a =>
        let root := sc_root (at_set a) in
        <[root := wrap32 (default 0 (counts !! root) + 1)]> counts
    | None => counts
    end) (rs_witnesses rs) ∅.

Definition quorum_root (rs : RoundState) : option Root :=
  let quorum := witness_quorum (count32 (length (rs_witnesses rs))) in
  if quorum =? 0 then None
  else fst <$> List.find (λ e, quorum <=? e.2) (btree_list (root_counts rs)).

Definition attest_pairs (set : list AttestEntry) : list (PeerId * Hash) :=
  (λ ae, (ae_peer ae, ae_hash ae)) <$> set.

Section commit.
Context `{Crypto}.

Definition opening_pins_membership (rs : RoundState) (agreed : Root) (peer : PeerId) (hash : Hash) : bool :=
  existsb (λ a,
    match at_inline a with
    | Some set => (sc_root (commitment (commit_set (attest_pairs set))) =? agreed) && covers_pair set peer hash
    | None => false
    end) (btree_list (rs_attestations rs)).*2.

Definition has_evidence (rs : RoundState) (peer : PeerId) (hash : Hash) : bool :=
  if existsb (λ e, (re_peer e =? peer) && (re_hash e =? hash)) (rs_receipts rs) then true
  else
    let quorum := witness_quorum (count32 (length (rs_witnesses rs))) in
    if quorum =? 0 then false
    else if quorum <=? count32 (length (List.filter (λ w, witness_inline_covers rs w peer hash) (rs_witnesses rs)))
    then true
    else match quorum_root rs with
         | Some root => opening_pins_membership rs root peer hash
         | None => false
         end.

(** The entry of one member, if it has an evidenced commitment. *)
Definition member_entry (rs : RoundState) (m : Member) : option RecordEntry :=
  c ← rs_commitments rs !! m_peer m;
  if has_evidence rs (m_peer m) (cm_payload c)
  then Some (mkRecordEntry (m_peer m) (cm_payload c) (cm_size c)) else None.

Definition record_leb (a b : RecordEntry) : bool := re_peer a <=? re_peer b.

Definition committed_entries (rs : RoundState) (roster : list Member) : list RecordEntry :=
  sort_by record_leb (omap (member_entry rs) (List.filter is_healthy roster)).

Definition all_committed (rs : RoundState) (roster : list Member) : bool :=
  match List.filter is_healthy roster with
  | [] => false
  | ms => forallb (λ m, bool_decide (is_Some (rs_commitments rs !! m_peer m))) ms
  end.

(** [any] accumulates over the healthy members with a commitment. *)
Fixpoint all_evidenced_from (rs : RoundState) (any : bool) (ms : list Member) : bool :=
  match ms with
  | [] => any
  | m :: ms' =>
      match rs_commitments rs !! m_peer m with
      | Some c => if has_evidence rs (m_peer m) (cm_payload c) then all_evidenced_from rs true ms' else false
      | None => all_evidenced_from rs any ms'
      end
  end.

Definition all_evidenced (rs : RoundState) (roster : list Member) : bool :=
  all_evidenced_from rs false (List.filter is_healthy roster).
End commit.

(** ** Maps in key order *)

Lemma elem_of_btree_list {A} (m : gmap N A) k x : (k, x) ∈ btree_list m ↔ m !! k = Some x.
Proof. unfold btree_list. rewrite sort_by_perm. apply elem_of_map_to_list. Qed.

Lemma btree_list_find {A} (m : gmap N A) (p : N * A → bool) k x :
  List.find p (btree_list m) = Some (k, x) → m !! k = Some x ∧ p (k, x) = true.
Proof.
  intros Hf. apply find_some in Hf as [Hin Hp]. split; [|done].
  by apply elem_of_btree_list, list_elem_of_In.
Qed.

(** ** Roots with a quorum *)

Section quorum_root.
Context (rs : RoundState).

Definition attests_root (r : Root) (w : PeerId) : bool :=
  match rs_attestations rs !! w with Some a => sc_root (at_set a) =? r | None => false end.

Definition root_step (counts : gmap Root N) (w : PeerId) : gmap Root N :=
  match rs_attestations rs !! w with
  | Some a => <[sc_root (at_set a) := wrap32 (default 0 (counts !! sc_root (at_set a)) + 1)]> counts
  | None => counts
  end.

Definition attesting (r : Root) : nat := length (List.filter (attests_root r) (rs_witnesses rs)).

Lemma root_fold_count ws counts r :
  (∀ r', default 0 (counts !! r') + N.of_nat (length ws) < u32_bound) →
  default 0 (fold_left root_step ws counts !! r) =
    default 0 (counts !! r) + N.of_nat (length (List.filter (attests_root r) ws)).
Proof.
  revert counts. induction ws as [|w ws IH]; intros counts Hb; [simpl; lia|].
  cbn [fold_left List.filter length] in *. unfold root_step at 2, attests_root at 1.
  destruct (rs_attestations rs !! w) as [a|]; [|rewrite IH; [done|]; intros r'; specialize (Hb r'); lia].
  assert (∀ r', default 0 (<[sc_root (at_set a) := wrap32 (default 0 (counts !! sc_root (at_set a)) + 1)]> counts !! r') =
    default 0 (counts !! r') + if sc_root (at_set a) =? r' then 1 else 0) as Hins.
  { intros r'. destruct (N.eqb_spec (sc_root (at_set a)) r') as [<-|Hne].
    - rewrite lookup_insert_eq. simpl. apply wrap32_small. specialize (Hb (sc_root (at_set a))). lia.
    - rewrite lookup_insert_ne by done. lia. }
  rewrite IH, Hins.
  - destruct (sc_root (at_set a) =? r); simpl; lia.
  - intros r'. rewrite Hins. specialize (Hb r'). destruct (sc_root (at_set a) =? r'); lia.
Qed.

Lemma root_counts_spec r :
  N.of_nat (length (rs_witnesses rs)) < u32_bound →
  default 0 (root_counts rs !! r) = N.of_nat (attesting r).
Proof.
  intros Hb. change (root_counts rs) with (fold_left root_step (rs_witnesses rs) ∅).
  rewrite root_fold_count; [by rewrite lookup_empty|]. intros r'. by rewrite lookup_empty.
Qed.

Lemma attesting_disjoint r r' :
  r ≠ r' → (attesting r + attesting r' ≤ length (rs_witnesses rs))%nat.
Proof.
  intros Hne. unfold attesting. induction (rs_witnesses rs) as [|w ws IH]; [simpl; lia|].
  cbn [List.filter]. destruct (attests_root r w) eqn:E1, (attests_root r' w) eqn:E2; simpl; try lia.
  unfold attests_root in *. destruct (rs_attestations rs !! w) as [a|]; [|done].
  apply N.eqb_eq in E1, E2. congruence.
Qed.

(** The agreed root is the one root that a quorum of the witnesses attests. *)
Lemma quorum_root_iff r :
  let n := N.of_nat (length (rs_witnesses rs)) in
  0 < n → n < u32_bound →
  quorum_root rs = Some r ↔ witness_quorum n ≤ N.of_nat (attesting r).
Proof.
  cbv zeta. set (n := N.of_nat (length (rs_witnesses rs))). intros Hpos Hb.
  pose proof (witness_quorum_bounds n Hb) as Hq. unfold quorum_root, count32. fold n.
  rewrite (wrap32_small n) by done. rewrite (proj2 (N.eqb_neq _ _)) by lia.
  assert (∀ r', witness_quorum n ≤ N.of_nat (attesting r') →
    witness_quorum n ≤ N.of_nat (attesting r) → r' = r) as Huniq.
  { intros r' H1 H2. destruct (decide (r' = r)) as [|Hne]; [done|].
    pose proof (attesting_disjoint r' r Hne). lia. }
  destruct (List.find (λ e, witness_quorum n <=? e.2) (btree_list (root_counts rs))) as [[r' k]|] eqn:E; simpl.
  - apply btree_list_find in E as [Hl Hk]. simpl in Hk. apply N.leb_le in Hk.
    pose proof (root_counts_spec r' Hb) as Hc. rewrite Hl in Hc. simpl in Hc. split.
    + intros [= ->]. lia.
    + intros Hr. f_equal. apply Huniq; [lia|done].
  - split; [done|]. intros Hr. pose proof (root_counts_spec r Hb) as Hc.
    destruct (root_counts rs !! r) as [k|] eqn:Hl; simpl in Hc; [|lia].
    pose proof (find_none _ _ E (r, k)) as Hn. simpl in Hn. rewrite N.leb_gt in Hn.
    assert (In (r, k) (btree_list (root_counts rs))) as Hin by by apply list_elem_of_In, elem_of_btree_list.
    specialize (Hn Hin). lia.
Qed.
End quorum_root.

(** ** What evidence means *)

Lemma covers_pair_iff set peer hash : covers_pair set peer hash = true ↔ (peer, hash) ∈ attest_pairs set.
Proof.
  unfold covers_pair, attest_pairs. rewrite existsb_exists, list_elem_of_fmap. split.
  - intros (ae & Hin & Hp). apply andb_true_iff in Hp as [H1%N.eqb_eq H2%N.eqb_eq]. subst.
    exists ae. split; [done|by apply list_elem_of_In].
  - intros (ae & Heq & Hin). simplify_eq. exists ae. split; [by apply list_elem_of_In|].
    by rewrite !N.eqb_refl.
Qed.

Section evidence.
Context `{Crypto}.

(** The three forms of evidence for a pair. *)
Definition receipt_evidence (rs : RoundState) (peer : PeerId) (hash : Hash) : Prop :=
  ∃ e, e ∈ rs_receipts rs ∧ re_peer e = peer ∧ re_hash e = hash.

Definition inline_evidence (rs : RoundState) (peer : PeerId) (hash : Hash) : Prop :=
  witness_quorum (N.of_nat (length (rs_witnesses rs))) ≤
    N.of_nat (length (List.filter (λ w, witness_inline_covers rs w peer hash) (rs_witnesses rs))).

Definition root_evidence (rs : RoundState) (peer : PeerId) (hash : Hash) : Prop :=
  ∃ agreed w a set,
    witness_quorum (N.of_nat (length (rs_witnesses rs))) ≤ N.of_nat (attesting rs agreed) ∧
    rs_attestations rs !! w = Some a ∧ at_inline a = Some set ∧
    root (commit_set (attest_pairs set)) = agreed ∧ (peer, hash) ∈ attest_pairs set.

Lemma opening_pins_iff rs agreed peer hash :
  opening_pins_membership rs agreed peer hash = true ↔
  ∃ w a set, rs_attestations rs !! w = Some a ∧ at_inline a = Some set ∧
    root (commit_set (attest_pairs set)) = agreed ∧ (peer, hash) ∈ attest_pairs set.
Proof.
  unfold opening_pins_membership. rewrite existsb_exists. split.
  - intros (a & Hin & Hp). apply list_elem_of_In, list_elem_of_fmap in Hin as ([w a'] & -> & Hin).
    apply elem_of_btree_list in Hin. simpl in *. destruct (at_inline a') as [set|] eqn:E; [|done].
    apply andb_true_iff in Hp as [H1%N.eqb_eq H2%covers_pair_iff]. by exists w, a', set.
  - intros (w & a & set & Hl & Hi & Hr & Hin). exists a. split.
    + apply list_elem_of_In, list_elem_of_fmap. exists (w, a). by rewrite elem_of_btree_list.
    + rewrite Hi. simpl. apply andb_true_iff. by rewrite N.eqb_eq, covers_pair_iff.
Qed.

Lemma has_evidence_iff rs peer hash :
  N.of_nat (length (rs_witnesses rs)) < u32_bound →
  has_evidence rs peer hash = true ↔
    receipt_evidence rs peer hash ∨
    (rs_witnesses rs ≠ [] ∧ (inline_evidence rs peer hash ∨ root_evidence rs peer hash)).
Proof.
  intros Hb. unfold has_evidence.
  assert (existsb (λ e, (re_peer e =? peer) && (re_hash e =? hash)) (rs_receipts rs) = true ↔
    receipt_evidence rs peer hash) as Hrec.
  { rewrite existsb_exists. unfold receipt_evidence. split; intros (e & Hin & Hp); exists e.
    - apply andb_true_iff in Hp as [?%N.eqb_eq ?%N.eqb_eq]. split; [by apply list_elem_of_In|done].
    - destruct Hp as [<- <-]. rewrite !N.eqb_refl. split; [by apply list_elem_of_In|done]. }
  destruct (existsb _ (rs_receipts rs)) eqn:Er; [naive_solver|].
  unfold count32. rewrite (wrap32_small (N.of_nat (length (rs_witnesses rs)))) by done.
  pose proof (witness_quorum_bounds _ Hb) as Hq.
  pose proof (filter_length_le (λ w, witness_inline_covers rs w peer hash) (rs_witnesses rs)) as Hfl.
  rewrite wrap32_small by lia. destruct (decide (rs_witnesses rs = [])) as [Hw|Hw].
  { rewrite Hw. simpl. naive_solver. }
  assert (0 < N.of_nat (length (rs_witnesses rs))) as Hpos by (destruct (rs_witnesses rs); [done|simpl; lia]).
  rewrite (proj2 (N.eqb_neq _ _)) by lia.
  assert (match quorum_root rs with Some root => opening_pins_membership rs root peer hash | None => false end = true
    ↔ root_evidence rs peer hash) as Hroot.
  { unfold root_evidence. split.
    - destruct (quorum_root rs) as [r|] eqn:Eq; [|done]. intros Ho%opening_pins_iff.
      apply quorum_root_iff in Eq; [|done..]. destruct Ho as (w & a & set & Ho). by exists r, w, a, set.
    - intros (r & w & a & set & Hr & Ho). apply (quorum_root_iff rs r Hpos Hb) in Hr as ->.
      apply opening_pins_iff. by exists w, a, set. }
  unfold inline_evidence. destruct (N.leb_spec (witness_quorum (N.of_nat (length (rs_witnesses rs))))
    (N.of_nat (length (List.filter (λ w, witness_inline_covers rs w peer hash) (rs_witnesses rs)))));
    rewrite ?Hroot; naive_solver lia.
Qed.

(** Every inline set consists of 32-byte peers and hashes. *)
Definition inline_ok (rs : RoundState) : Prop :=
  ∀ w a set, rs_attestations rs !! w = Some a → at_inline a = Some set → Forall entry_ok (attest_pairs set).

(** C11. A payload with evidence and no storage receipt is vouched for by a
    quorum of distinct witnesses of the round: each of them lists the pair, or
    all of them signed one root, one witness opened it, and then every set with
    that root contains the pair, unless building the trees of the two sets has
    hashed two different byte strings to one value. *)
Theorem evidence_pinned rs peer hash :
  NoDup (rs_witnesses rs) → N.of_nat (length (rs_witnesses rs)) < u32_bound → inline_ok rs →
  has_evidence rs peer hash = true → ¬ receipt_evidence rs peer hash →
  ∃ ws, NoDup ws ∧ ws ⊆ rs_witnesses rs ∧ ws ≠ [] ∧
    witness_quorum (N.of_nat (length (rs_witnesses rs))) ≤ N.of_nat (length ws) ∧
    (Forall (λ w, witness_inline_covers rs w peer hash = true) ws ∨
     ∃ agreed opener a set, Forall (λ w, attests_root rs agreed w = true) ws ∧
       rs_attestations rs !! opener = Some a ∧ at_inline a = Some set ∧
       ∀ pairs, Forall entry_ok pairs → root (commit_set pairs) = agreed →
         (peer, hash) ∈ pairs ∨
         collision_in (tree_inputs (commit_set (attest_pairs set)) ++ tree_inputs (commit_set pairs))).
Proof.
  intros Hnd Hb Hok He Hnr. apply has_evidence_iff in He as [?|[Hne He]]; [done| |done].
  pose proof (witness_quorum_bounds _ Hb) as Hq.
  assert (0 < length (rs_witnesses rs))%nat as Hpos by (destruct (rs_witnesses rs); [done|simpl; lia]).
  assert (∀ p, witness_quorum (N.of_nat (length (rs_witnesses rs))) ≤ N.of_nat (length (List.filter p (rs_witnesses rs))) →
    ∃ ws, NoDup ws ∧ ws ⊆ rs_witnesses rs ∧ ws ≠ [] ∧
      witness_quorum (N.of_nat (length (rs_witnesses rs))) ≤ N.of_nat (length ws) ∧ Forall (λ w, p w = true) ws) as Hws.
  { intros p Hp. exists (List.filter p (rs_witnesses rs)). split_and!; [| | |done|].
    - eapply sublist_NoDup; [exact Hnd|apply sublist_filter_b].
    - intros w Hw. apply list_elem_of_In, filter_In in Hw as [Hw _]. by apply list_elem_of_In.
    - intros Heq. rewrite Heq in Hp. simpl in Hp. lia.
    - apply Forall_forall. intros w Hw. by apply list_elem_of_In, filter_In in Hw as [_ Hw]. }
  destruct He as [Hi|(agreed & w & a & set & Hr & Ha & Hs & Hc & Hin)].
  - destruct (Hws _ Hi) as (ws & H1 & H2 & H3 & H4 & H5). exists ws. split_and!; auto.
  - destruct (Hws _ Hr) as (ws & H1 & H2 & H3 & H4 & H5). exists ws. split_and!; [done..|].
    right. exists agreed, w, a, set. split_and!; [done..|]. intros pairs Hp Heq.
    destruct (root_binding (attest_pairs set) pairs) as [Hext|?]; [by eapply Hok|done|congruence| |by right].
    left. by apply Hext.
Qed.

Lemma elem_of_committed rs roster e :
  e ∈ committed_entries rs roster ↔
    ∃ m c, m ∈ roster ∧ is_healthy m = true ∧ rs_commitments rs !! m_peer m = Some c ∧
      has_evidence rs (m_peer m) (cm_payload c) = true ∧
      e = mkRecordEntry (m_peer m) (cm_payload c) (cm_size c).
Proof.
  unfold committed_entries. rewrite sort_by_perm, list_elem_of_omap. split.
  - intros (m & Hm & He). apply list_elem_of_In, filter_In in Hm as [Hm Hh]. unfold member_entry in He.
    destruct (rs_commitments rs !! m_peer m) as [c|] eqn:E; [|done]. simpl in He.
    destruct (has_evidence _ _ _) eqn:Ev; simplify_eq. exists m, c. split_and!; try done. by apply list_elem_of_In.
  - intros (m & c & Hm & Hh & Hc & Hev & ->). exists m. split.
    + apply list_elem_of_In, filter_In. split; [by apply list_elem_of_In|done].
    + unfold member_entry. rewrite Hc. simpl. by rewrite Hev.
Qed.

Lemma member_entry_peer rs m e : member_entry rs m = Some e → re_peer e = m_peer m.
Proof.
  unfold member_entry. destruct (rs_commitments rs !! m_peer m); simpl; [|done].
  by case_match; intros; simplify_eq.
Qed.

Lemma omap_entry_peers rs ms : (re_peer <$> omap (member_entry rs) ms) `sublist_of` (m_peer <$> ms).
Proof.
  induction ms as [|m ms IH]; csimpl; [constructor|].
  destruct (member_entry rs m) as [e|] eqn:E; csimpl; [|by apply sublist_cons].
  rewrite (member_entry_peer _ _ _ E). by apply sublist_skip.
Qed.

(** The committed set of a round is exactly the evidenced commitments of its
    healthy members, one entry per member, in the order of their keys. *)
Theorem committed_exact rs roster :
  (∀ e, e ∈ committed_entries rs roster ↔
    ∃ m c, m ∈ roster ∧ is_healthy m = true ∧ rs_commitments rs !! m_peer m = Some c ∧
      has_evidence rs (m_peer m) (cm_payload c) = true ∧
      e = mkRecordEntry (m_peer m) (cm_payload c) (cm_size c)) ∧
  (NoDup (m_peer <$> roster) → StronglySorted N.lt (re_peer <$> committed_entries rs roster)).
Proof.
  split; [apply elem_of_committed|]. intros Hnd.
  assert (NoDup (re_peer <$> committed_entries rs roster)) as Hn.
  { unfold committed_entries. rewrite sort_by_perm. eapply sublist_NoDup; [|apply omap_entry_peers].
    eapply sublist_NoDup; [exact Hnd|]. apply sublist_fmap, sublist_filter_b. }
  assert (StronglySorted N.le (re_peer <$> committed_entries rs roster)) as Hs.
  { apply (StronglySorted_fmap _ (λ a b, re_peer a ≤ re_peer b)); [done|]. apply sort_by_sorted.
    - intros x y z. lia.
    - intros x y. apply N.leb_le.
    - intros x y ?%N.leb_gt. lia. }
  by apply StronglySorted_le_lt.
Qed.
End evidence.

(** ** A round whose witnesses agree on a root that one of them opens *)

Definition toy_set : list AttestEntry := [mkAttestEntry 7 70; mkAttestEntry 8 80].

Definition toy_attestation (inline : option (list AttestEntry)) : Attestation :=
  mkAttestation 1 (commitment (@commit_set toy_crypto (attest_pairs toy_set))) inline.

Definition toy_round : RoundState :=
  mkRoundState 1 0 0 (mkBatchWindow 0 4) [2; 3; 4] ∅ []
    {[ 2 := toy_attestation None; 3 := toy_attestation (Some toy_set) ]} ∅ None false None.

Lemma evidence_pinned_witness :
  ∃ ws, NoDup ws ∧ ws ⊆ [2; 3; 4] ∧ ws ≠ [] ∧ witness_quorum 3 ≤ N.of_nat (length ws) ∧
    (Forall (λ w, witness_inline_covers toy_round w 7 70 = true) ws ∨
     ∃ agreed opener a set, Forall (λ w, attests_root toy_round agreed w = true) ws ∧
       rs_attestations toy_round !! opener = Some a ∧ at_inline a = Some set ∧
       ∀ pairs, Forall entry_ok pairs → root (@commit_set toy_crypto pairs) = agreed →
         (7, 70) ∈ pairs ∨ @collision_in toy_crypto
           (tree_inputs (@commit_set toy_crypto (attest_pairs set)) ++ tree_inputs (@commit_set toy_crypto pairs))).
Proof.
  apply (@evidence_pinned toy_crypto toy_round 7 70).
  - by apply (bool_decide_unpack _).
  - done.
  - intros w a set Ha Hs. unfold toy_round in Ha. cbn [rs_attestations] in Ha.
    apply lookup_insert_Some in Ha as [[_ <-]|[_ [_ <-]%lookup_singleton_Some]]; [done|].
    injection Hs as <-. by repeat constructor.
  - by vm_compute.
  - intros (e & He & _). by apply not_elem_of_nil in He.
Defined.
