(* ===== verification/VhcCoordinator.v ===== *)
(** * The coordinator ([daemon-vhc-sdk-consensus/src/coordinator/tick.rs])

    [tick] transforms the state by one input and lists the outputs.  A function of
    the source that takes the state and the output vector by mutable reference is
    an [Act]: it maps a state to the new state and the outputs it appends. *)

From S2P Require Import Prelude Text VhcProto VhcMerkle VhcMessages VhcAuthority VhcAssignment VhcAttestation VhcState VhcCommit.

#[local] Open Scope N_scope.
#[local] Open Scope daemon_scope.

(** ** Actions *)

Definition Act : Type := CoordinatorState → CoordinatorState * list Output.

Definition skip : Act := λ s, (s, []).
Definition emit (o : Output) : Act := λ s, (s, [o]).
Definition emit_all (os : list Output) : Act := λ s, (s, os).
Definition upd (f : CoordinatorState → CoordinatorState) : Act := λ s, (f s, []).
Definition and_then (a b : Act) : Act := λ s,
  let '(s1, o1) := a s in
  let '(s2, o2) := b s1 in
  (s2, o1 ++ o2).
(** A block that reads the state first. *)
Definition with_state (f : CoordinatorState → Act) : Act := λ s, f s s.

Notation "a ;;; b" := (and_then a b) (at level 100, b at level 200, right associativity) : daemon_scope.

(** The encoding of the body of a control request. *)
Class ControlCodec := { control_vec : ControlRequest → option bytes }.

Section coordinator.
Context `{Crypto, MessageCodec, AttestationCodec, ControlCodec}.

(** ** Helpers *)

Definition change_phase (to : Phase) : Act := with_state (λ s,
  upd (λ s, (s <| cs_phase := to |>) <| cs_phase_start_s := cs_now_s s |>) ;;;
  emit (Note (PhaseChanged (cs_phase s) to))).

Definition upsert_member (m : Member) (s : CoordinatorState) : CoordinatorState :=
  if existsb (λ e, m_peer e =? m_peer m) (cs_roster s)
  then member_update s (m_peer m) (λ _, m)
  else s <| cs_roster := cs_roster s ++ [m] |>.

Definition current_slot (s : CoordinatorState) : option RoundState := ring_get (cs_rounds s) (cs_round s).

Definition slot_is (p : RoundState → list Member → bool) (s : CoordinatorState) : bool :=
  match current_slot s with Some rs => p rs (cs_roster s) | None => false end.

Definition stop_reached (s : CoordinatorState) : bool :=
  match rc_stop (cs_config s) with
  | StopTokens t => t <=? cs_tokens_done s
  | StopRounds r => r <=? cs_rounds_done s
  end.

Definition next_seed (seed : Seed) (round : N) : Seed :=
  blake3_hash (be_bytes 32 seed ++ le_bytes 8 round).

Definition roster_digest (peers : list PeerId) : Hash := blake3_hash (concat (be_bytes 32 <$> peers)).

(** [format!("runs/{}/rounds/{round}/record-set.cbor", run_id)]. *)
Definition record_set_key (run_id : string) (round : N) : string :=
  String.append "runs/" (String.append run_id (String.append "/rounds/"
    (String.append (String.string_of_list_byte (decimal round)) "/record-set.cbor"))).

(** Whether the phase began [secs] ago. *)
Definition elapsed (s : CoordinatorState) (secs : N) : bool := (cs_phase_start_s s +₆₄ secs) <=? cs_now_s s.

(** ** Rounds *)

(** Install the slot of [state.round], enter [RoundTrain], publish [RoundOpen]. *)
Definition open_round : Act := with_state (λ s,
  let peers := healthy_peer_ids s in
  let committee := select_committee peers (cs_seed s) (rc_witness_target (cs_config s)) in
  let gb := global_batch_at (rc_global_batch (cs_config s)) (cs_round s) in
  let batch := mkBatchWindow (cs_data_index s) (cs_data_index s +₆₄ gb) in
  let rs := RoundState_opened (cs_round s) (cs_seed s) (cs_data_index s) batch (witnesses committee) in
  let ro := mkRoundOpen (cs_round s) (cs_seed s) (roster_digest peers) batch
              (cs_now_s s +₆₄ rc_round_train_max_s (cs_config s)) in
  upd (λ s, s <| cs_rounds := ring_install (cs_rounds s) rs |>) ;;;
  upd (λ s, (s <| cs_phase := RoundTrain |>) <| cs_phase_start_s := cs_now_s s |>) ;;;
  emit (Note (PhaseChanged (cs_phase s) RoundTrain)) ;;;
  upd (λ s, s <| cs_rounds := ring_update (cs_rounds s) (cs_round s) (λ r, r <| rs_open := Some ro |>) |>) ;;;
  emit (Publish (MRoundOpen ro))).

Definition open_epoch_first_round : Act :=
  upd (λ s, s <| cs_epoch_start_round := cs_round s |>) ;;; open_round.

(** The absence accounting of one member: its new state, and whether it drops. *)
Definition account_member (config : RunConfig) (round : N) (present : list PeerId) (m : Member) : Member * bool :=
  if negb (is_healthy m) then (m, false)
  else if bool_decide (m_peer m ∈ present) then (m <| m_absences := 0 |>, false)
  else if match m_last_straggle_round m with
          | Some r => (r <=? round) && (round - r <=? rc_stall_rounds_max config)
          | None => false
          end then (m, false)
  else
    let absences := m_absences m +₃₂ 1 in
    if (0 <? rc_k_absences config) && (rc_k_absences config <=? absences)
    then ((m <| m_absences := absences |>) <| m_state := DroppedState |>, true)
    else (m <| m_absences := absences |>, false).

(** The peers that drop, in roster order. *)
Definition dropping {A} (f : A → Member * bool) (roster : list A) : list PeerId :=
  omap (λ m, if (f m).2 then Some (m_peer (f m).1) else None) roster.

Definition finalize_round : Act := with_state (λ s,
  let round := cs_round s in
  match current_slot s with
  | None => skip
  | Some slot =>
      let committed := committed_entries slot (cs_roster s) in
      let account := account_member (cs_config s) round (re_peer <$> committed) in
      let drops := dropping account (cs_roster s) in
      let set := commitment (commit_set ((λ e, (re_peer e, re_hash e)) <$> committed)) in
      let ns := next_seed (rs_seed slot) round in
      let record := mkRoundRecord round set drops ns
                      (StoreKey (record_set_key (rc_run_id (cs_config s)) round)) (Some committed) in
      let gb := global_batch_at (rc_global_batch (cs_config s)) round in
      upd (λ s, s <| cs_roster := (λ m, (account m).1) <$> cs_roster s |>) ;;;
      emit_all ((λ p, Note (Dropped p)) <$> drops) ;;;
      upd (λ s, s <| cs_rounds := ring_update (cs_rounds s) round (λ r, r <| rs_record := Some record |>) |>) ;;;
      emit (Publish (MRoundRecord record)) ;;;
      upd (λ s, s <| cs_rounds_done := cs_rounds_done s +₆₄ 1 |>) ;;;
      upd (λ s, s <| cs_tokens_done := sat_add (cs_tokens_done s) (sat_mul gb (rc_seq_len (cs_config s))) |>) ;;;
      upd (λ s, s <| cs_data_index := sat_add (cs_data_index s) gb |>) ;;;
      upd (λ s, (s <| cs_round := round +₆₄ 1 |>) <| cs_seed := ns |>) ;;;
      with_state (λ s,
        let rounds_this_epoch := (round +₆₄ 1) - cs_epoch_start_round s in
        if stop_reached s then change_phase Cooldown
        else if ((0 <? rc_epoch_rounds (cs_config s)) && (rc_epoch_rounds (cs_config s) <=? rounds_this_epoch))
                || (healthy_count s <? rc_min_peers (cs_config s))
        then change_phase Cooldown
        else open_round)
  end).

Definition maybe_finalize : Act := with_state (λ s,
  if bool_decide (cs_phase s = RoundWitness) && slot_is all_evidenced s then finalize_round else skip).

Definition maybe_advance : Act :=
  with_state (λ s,
    if bool_decide (cs_phase s = RoundTrain) && slot_is all_committed s then change_phase RoundWitness else skip) ;;;
  maybe_finalize.

(** ** Warmup, waiting, cooldown *)

Definition enter_warmup : Act :=
  upd (λ s, s <| cs_roster := (λ m, m <| m_warmup_ready := false |>) <$> cs_roster s |>) ;;;
  change_phase Warmup.

(** Some member is healthy and every healthy member is ready. *)
Definition all_warmup_ready (s : CoordinatorState) : bool :=
  match healthy s with
  | [] => false
  | ms => forallb m_warmup_ready ms
  end.

Definition maybe_exit_warmup : Act := with_state (λ s,
  if bool_decide (cs_phase s = Warmup) && (rc_min_peers (cs_config s) <=? healthy_count s) && all_warmup_ready s
  then open_epoch_first_round else skip).

Definition decay_member (window now phase_start : N) (m : Member) : Member * bool :=
  if is_healthy m && (window <=? now - N.max (m_last_seen_s m) phase_start)
  then (m <| m_state := DroppedState |>, true) else (m, false).

Definition decay_stale_members : Act := with_state (λ s,
  let k := rc_k_absences (cs_config s) in
  if k =? 0 then skip
  else
    let window := sat_mul k (rc_round_train_max_s (cs_config s) +₆₄ rc_round_witness_s (cs_config s)) in
    if window =? 0 then skip
    else
      let decay := decay_member window (cs_now_s s) (cs_phase_start_s s) in
      upd (λ s, s <| cs_roster := (λ m, (decay m).1) <$> cs_roster s |>) ;;;
      emit_all ((λ p, Note (Dropped p)) <$> dropping decay (cs_roster s))).

Definition exit_cooldown : Act := with_state (λ s,
  if stop_reached s then
    change_phase FinishedPhase ;;;
    emit (Publish (MFinished (mkFinished (cs_rounds_done s)))) ;;;
    emit (Note NoticeFinished)
  else
    upd (λ s, s <| cs_epoch := cs_epoch s +₆₄ 1 |>) ;;;
    upd (λ s, fold_left (λ s m, upsert_member (m <| m_joined_epoch := cs_epoch s |>) s) (cs_pending s)
                (s <| cs_pending := [] |>)) ;;;
    change_phase WaitingForMembers).

(** ** The clock *)

Definition drive_time : Act := with_state (λ s,
  let cfg := cs_config s in
  match cs_phase s with
  | WaitingForMembers =>
      decay_stale_members ;;;
      with_state (λ s, if rc_min_peers (cs_config s) <=? healthy_count s then enter_warmup else skip)
  | Warmup =>
      if healthy_count s <? rc_min_peers cfg then change_phase WaitingForMembers
      else if all_warmup_ready s || elapsed s (rc_warmup_s cfg) then open_epoch_first_round
      else skip
  | RoundTrain =>
      if slot_is all_committed s || elapsed s (rc_round_train_max_s cfg)
      then change_phase RoundWitness ;;; maybe_finalize
      else skip
  | RoundWitness =>
      if slot_is all_evidenced s || elapsed s (rc_round_witness_s cfg) then finalize_round else skip
  | Cooldown => if elapsed s (rc_cooldown_s cfg) then exit_cooldown else skip
  | Uninitialized | FinishedPhase | Paused => skip
  end).

Definition on_clock (now : N) : Act :=
  upd (λ s, if cs_now_s s <? now then s <| cs_now_s := now |> else s) ;;;
  with_state (λ s, if is_halted (cs_phase s) then emit (Reject (Halted (cs_phase s))) else drive_time).

(** ** Messages *)

Definition record_le (a b : RoundRecord) : bool := rr_round a <=? rr_round b.

(** The retained records in order of their rounds, then the standing open. *)
Definition replay_forward : Act := with_state (λ s,
  let retained := sort_by record_le (omap rs_record (slots (cs_rounds s))) in
  emit_all ((λ r, Publish (MRoundRecord r)) <$> retained) ;;;
  if is_round_active (cs_phase s) then
    match current_slot s ≫= rs_open with
    | Some ro => emit (Publish (MRoundOpen ro))
    | None => skip
    end
  else skip).

Definition on_join (signer : PeerId) (version : VhcProtoVersion) (j : Join) : Act := with_state (λ s,
  match coordinator_admit (cs_config s) (cs_phase s) (cs_roster s) (cs_pending s)
          (mkJoinCandidate signer version j (jn_envelope_hash j)) with
  | Err DuplicatePeer => emit (Note (JoinAdmitted signer)) ;;; replay_forward
  | Err reason => emit (Reject (Admission reason))
  | Ok _ =>
      let m := (Member_joining signer (jn_iroh_id j) (jn_class j) (cs_epoch s)) <| m_last_seen_s := cs_now_s s |> in
      upd (λ s, match cs_phase s with
                | WaitingForMembers | Warmup => upsert_member m s
                | _ => s <| cs_pending := cs_pending s ++ [m] |>
                end) ;;;
      emit (Note (JoinAdmitted signer)) ;;; replay_forward
  end).

(** The guards shared by the handlers of round evidence. *)
Definition round_evidence (round : N) (body : Act) : Act := with_state (λ s,
  if negb (is_round_active (cs_phase s)) then emit (Reject UnexpectedMessage)
  else if negb (round =? cs_round s) then emit (Reject (StaleRound (cs_round s) round))
  else body).

Definition update_slot (f : RoundState → RoundState) : Act :=
  upd (λ s, s <| cs_rounds := ring_update (cs_rounds s) (cs_round s) f |>).

Definition on_commitment (signer : PeerId) (c : Commitment) : Act := round_evidence (cm_round c) (with_state (λ s,
  if negb (is_healthy_member s signer) then emit (Reject UnknownPeer)
  else update_slot (λ rs, rs <| rs_commitments := <[signer := c]> (rs_commitments rs) |>) ;;; maybe_advance)).

Definition on_attestation (signer : PeerId) (a : Attestation) : Act := round_evidence (at_round a) (with_state (λ s,
  if negb (match current_slot s with Some rs => bool_decide (signer ∈ rs_witnesses rs) | None => false end)
  then emit (Reject NotWitness)
  else update_slot (λ rs, rs <| rs_attestations := <[signer := a]> (rs_attestations rs) |>) ;;; maybe_advance)).

(** Append the entries whose pair is not yet listed. *)
Definition add_receipts (verified receipts : list RecordEntry) : list RecordEntry :=
  fold_left (λ rs e,
    if existsb (λ x, (re_peer x =? re_peer e) && (re_hash x =? re_hash e)) rs then rs else rs ++ [e])
    verified receipts.

Definition on_receipt (sr : StorageReceipt) : Act := round_evidence (sr_round sr)
  (update_slot (λ rs, rs <| rs_receipts := add_receipts (sr_verified sr) (rs_receipts rs) |>) ;;; maybe_advance).

Definition on_digest (signer : PeerId) (d : Digest) : Act := with_state (λ s,
  if negb (is_round_active (cs_phase s)) then emit (Reject UnexpectedMessage)
  else match ring_get (cs_rounds s) (dg_round d) with
  | None => emit (Reject (StaleRound (cs_round s) (dg_round d)))
  | Some rs =>
      let mismatch := (λ e, (e.1, signer)) <$>
        List.find (λ e, negb (e.2 =? dg_digest d)) (btree_list (rs_digests rs)) in
      upd (λ s, s <| cs_rounds := ring_update (cs_rounds s) (dg_round d) (λ rs,
        let rs := rs <| rs_digests := <[signer := dg_digest d]> (rs_digests rs) |> in
        match mismatch with Some _ => rs <| rs_desync := true |> | None => rs end) |>) ;;;
      match mismatch with
      | Some peers => emit (Note (DigestMismatch (dg_round d) peers))
      | None => skip
      end
  end).

Definition on_straggle (signer : PeerId) (sg : Straggle) : Act :=
  upd (λ s, member_update s signer (λ m, m <| m_last_straggle_round := Some (sg_round sg) |>)).

Definition on_heartbeat (signer : PeerId) (h : Heartbeat) : Act :=
  upd (λ s, if cs_max_reported_round s <? hb_round h then s <| cs_max_reported_round := hb_round h |> else s) ;;;
  upd (λ s, member_update s signer (λ m,
    let m := if m_last_seen_round m <? hb_round h then m <| m_last_seen_round := hb_round h |> else m in
    if bool_decide (hb_ready h = Some true) then m <| m_warmup_ready := true |> else m)) ;;;
  maybe_exit_warmup.

Definition on_checkpoint_attestation (ca : CheckpointAttestation) : Act := with_state (λ s,
  match from_wire ca with
  | Err _ => emit (Reject UnexpectedMessage)
  | Ok att =>
      let b := sa_body att in
      match ledger_record (cs_attestations s) att with
      | (Ok true, ledger) =>
          upd (λ s, s <| cs_attestations := ledger |>) ;;;
          emit (Note (CheckpointAttested (ab_checkpoint b) (tier_tag (ab_tier b)) (ab_signer b)
                        (att_count ledger (ab_checkpoint b) TierDigest)))
      | (Ok false, _) => skip
      | (Err _, _) => emit (Reject BadSignature)
      end
  end).

Definition dispatch_payload (signer : PeerId) (version : VhcProtoVersion) (payload : VhcMessage) : Act :=
  upd (λ s, member_update s signer (λ m, m <| m_last_seen_s := cs_now_s s |>)) ;;;
  match payload with
  | MJoin j => on_join signer version j
  | MCommitment c => on_commitment signer c
  | MAttestation a => on_attestation signer a
  | MStorageReceipt sr => on_receipt sr
  | MDigest d => on_digest signer d
  | MStraggle sg => on_straggle signer sg
  | MHeartbeat h => on_heartbeat signer h
  | MCheckpointAttestation ca => on_checkpoint_attestation ca
  | MRoundOpen _ | MRoundRecord _ | MFinished _ => emit (Reject UnexpectedMessage)
  end.

Definition on_message (sm : SignedMessage) : Act := with_state (λ s,
  if negb (bool_decide (sm_version sm = rc_proto_version (cs_config s)))
  then emit (Reject (VersionMismatch (rc_proto_version (cs_config s)) (sm_version sm)))
  else if negb (is_ok (SignedMessage_verify sm)) then emit (Reject BadSignature)
  else if is_halted (cs_phase s) then emit (Reject (Halted (cs_phase s)))
  else dispatch_payload (sm_signer sm) (sm_version sm) (sm_payload sm)).

(** ** Control *)

Definition Signed_verify (req : Signed ControlRequest) : result VhcProtoError unit :=
  match control_vec (sgn_body req) with
  | Some b => verify_bytes (sgn_signer req) (sgn_sig req) b
  | None => Err ECodec
  end.

Definition on_control (req : Signed ControlRequest) : Act := with_state (λ s,
  if negb (is_ok (Signed_verify req)) then emit (Reject BadSignature)
  else if negb (String.eqb (cr_run_id (sgn_body req)) (rc_run_id (cs_config s))) then emit (Reject RunIdMismatch)
  else if negb (bool_decide (sgn_signer req ∈ rc_authorized (cs_config s))) then emit (Reject Unauthorized)
  else match cr_action (sgn_body req) with
  | Pause =>
      if is_halted (cs_phase s) then emit (Reject (Halted (cs_phase s)))
      else upd (λ s, s <| cs_paused_from := Some (cs_phase s) |>) ;;; change_phase Paused
  | Resume =>
      if bool_decide (cs_phase s = Paused)
      then upd (λ s, s <| cs_paused_from := None |>) ;;; change_phase WaitingForMembers
      else emit (Reject (Halted (cs_phase s)))
  end).

(** ** The two entry points *)

Definition tick (s : CoordinatorState) (input : Input) : CoordinatorState * list Output :=
  match input with
  | IClock now => on_clock now s
  | IMessage sm => on_message sm s
  | IControl req => on_control req s
  end.

Definition tick_authenticated (s : CoordinatorState) (signer : PeerId) (version : VhcProtoVersion)
    (payload : VhcMessage) (_ : Authorized) : CoordinatorState * list Output :=
  if negb (bool_decide (version = rc_proto_version (cs_config s)))
  then (s, [Reject (VersionMismatch (rc_proto_version (cs_config s)) version)])
  else if is_halted (cs_phase s) then (s, [Reject (Halted (cs_phase s))])
  else dispatch_payload signer version payload s.
End coordinator.

(** ** A concrete instance, for evaluation *)

Definition toy_message_codec : MessageCodec := {| preimage_vec := λ _ _, Some [] |}.
Definition toy_attestation_codec : AttestationCodec := {| attestation_vec := λ _, Some [] |}.
Definition toy_control_codec : ControlCodec := {| control_vec := λ _, Some [] |}.

Definition toy_tick : CoordinatorState → Input → CoordinatorState * list Output :=
  @tick toy_crypto toy_message_codec toy_attestation_codec toy_control_codec.

(** The signature a toy peer puts on a message. *)
Definition toy_message (p : PeerId) (m : VhcMessage) : Input :=
  IMessage (mkSignedMessage VHC_PROTO_VERSION m p p).

Definition toy_control (p : PeerId) (a : ControlAction) : Input :=
  IControl (mkSigned (mkControlRequest "run" a) p p).

Definition toy_config : RunConfig :=
  mkRunConfig "run" VHC_PROTO_VERSION 7 ∅ 2 3 30 60 20 10 0 2 (mkGlobalBatch 8 8 0) (StopRounds 2) 4 1 0 0 3 0 [9].

Definition toy_start : CoordinatorState := CoordinatorState_new toy_config 5 1000.

Definition toy_join (p : PeerId) : Input := toy_message p (MJoin (mkJoin "run" p C1 ∅ None)).

(** Feed inputs one after the other, collecting the outputs. *)
Fixpoint ticks (step : CoordinatorState → Input → CoordinatorState * list Output)
    (s : CoordinatorState) (inputs : list Input) : CoordinatorState * list Output :=
  match inputs with
  | [] => (s, [])
  | i :: inputs' =>
      let '(s1, o1) := step s i in
      let '(s2, o2) := ticks step s1 inputs' in
      (s2, o1 ++ o2)
  end.
