(* ===== verification/VhcCoordLog.v ===== *)
(** * What the coordinator publishes

    Every run of the coordinator from a fresh state, whatever inputs it receives in
    whatever order: the records it publishes are one per round and never differ
    between publications, the seed and the batch window of a round are functions
    of the genesis seed and the configuration, and the ring retains the records a
    rejoining peer needs. *)

From S2P Require Import Prelude Text VhcProto VhcMerkle VhcMessages VhcAssignment VhcAttestation VhcState VhcCommit VhcCoordinator.

#[local] Open Scope N_scope.
#[local] Open Scope daemon_scope.

(** ** Reasoning about actions *)

Definition awp (a : Act) (Q : CoordinatorState → list Output → Prop) (s : CoordinatorState) : Prop :=
  Q (a s).1 (a s).2.

Section awp.
Implicit Types (a b : Act) (Q : CoordinatorState → list Output → Prop).

Lemma awp_then a b Q s :
  awp a (λ s1 o1, awp b (λ s2 o2, Q s2 (o1 ++ o2)) s1) s → awp (a ;;; b) Q s.
Proof. unfold awp, and_then. destruct (a s) as [s1 o1]. simpl. by destruct (b s1) as [s2 o2]. Qed.

Lemma awp_with f Q s : awp (f s) Q s → awp (with_state f) Q s.
Proof. done. Qed.
Lemma awp_upd f Q s : Q (f s) [] → awp (upd f) Q s.
Proof. done. Qed.
Lemma awp_emit o Q s : Q s [o] → awp (emit o) Q s.
Proof. done. Qed.
Lemma awp_emit_all os Q s : Q s os → awp (emit_all os) Q s.
Proof. done. Qed.
Lemma awp_skip Q s : Q s [] → awp skip Q s.
Proof. done. Qed.
Lemma awp_mono a Q Q' s : awp a Q s → (∀ s' o, Q s' o → Q' s' o) → awp a Q' s.
Proof. unfold awp. auto. Qed.
Lemma awp_and a Q Q' s : awp a Q s → awp a Q' s → awp a (λ s' o, Q s' o ∧ Q' s' o) s.
Proof. done. Qed.
Lemma awp_run a Q s s' o : awp a Q s → a s = (s', o) → Q s' o.
Proof. unfold awp. intros HQ Ha. by rewrite Ha in HQ. Qed.
End awp.

(** One symbolic step through an action. *)
Ltac awp_step :=
  lazymatch goal with
  | |- awp (and_then _ _) _ _ => apply awp_then
  | |- awp (with_state _) _ _ => apply awp_with; cbv beta zeta
  | |- awp (upd _) _ _ => apply awp_upd
  | |- awp (emit _) _ _ => apply awp_emit
  | |- awp (emit_all _) _ _ => apply awp_emit_all
  | |- awp skip _ _ => apply awp_skip
  | |- awp (match ?x with _ => _ end) _ _ => destruct x eqn:?
  end.
Ltac awp_steps := repeat (awp_step; cbv beta iota).

(** ** What is published *)

Definition pub_record (o : Output) : option RoundRecord :=
  match o with Publish (MRoundRecord r) => Some r | _ => None end.
Definition pub_open (o : Output) : option RoundOpen :=
  match o with Publish (MRoundOpen ro) => Some ro | _ => None end.

Definition records (outs : list Output) : list RoundRecord := omap pub_record outs.
Definition opens (outs : list Output) : list RoundOpen := omap pub_open outs.

Lemma records_app o o' : records (o ++ o') = records o ++ records o'.
Proof. apply omap_app. Qed.
Lemma opens_app o o' : opens (o ++ o') = opens o ++ opens o'.
Proof. apply omap_app. Qed.

Lemma records_notes {A} (f : A → Notice) l : records ((λ x, Note (f x)) <$> l) = [].
Proof. induction l; csimpl; done. Qed.
Lemma opens_notes {A} (f : A → Notice) l : opens ((λ x, Note (f x)) <$> l) = [].
Proof. induction l; csimpl; done. Qed.
Lemma records_publish l : records ((λ r, Publish (MRoundRecord r)) <$> l) = l.
Proof. induction l as [|r l IH]; csimpl; [done|]. f_equal. exact IH. Qed.
Lemma opens_publish l : opens ((λ r, Publish (MRoundRecord r)) <$> l) = [].
Proof. induction l; csimpl; done. Qed.

(** ** The ring *)

Lemma index_of_lt round : (index_of round < N.to_nat NUM_STORED_ROUNDS)%nat.
Proof. unfold index_of. pose proof (N.mod_lt round NUM_STORED_ROUNDS ltac:(done)). lia. Qed.

Lemma ring_get_Some r round rs :
  ring_get r round = Some rs ↔ slots r !! index_of round = Some rs ∧ rs_round rs = round.
Proof.
  unfold ring_get. destruct (slots r !! index_of round) as [s|]; simpl; [|naive_solver].
  destruct (N.eqb_spec (rs_round s) round); naive_solver.
Qed.

(** An update that keeps the round of the slot. *)
Lemma slots_ring_update r round f i :
  slots (ring_update r round f) !! i =
    if decide (i = index_of round ∧ is_Some (ring_get r round)) then f <$> slots r !! i else slots r !! i.
Proof.
  unfold ring_update. destruct (ring_get r round) as [s|] eqn:E.
  - apply ring_get_Some in E as [E _]. destruct (decide (i = index_of round)) as [->|Hne].
    + rewrite decide_True by (split; [done|by eexists]). simpl.
      rewrite list_lookup_insert_eq by (by eapply lookup_lt_Some). by rewrite E.
    + rewrite decide_False by naive_solver. simpl. by rewrite list_lookup_insert_ne.
  - rewrite decide_False; [done|]. intros [_ [? ?]]. done.
Qed.

Lemma ring_get_update r round f k :
  (∀ rs, rs_round (f rs) = rs_round rs) →
  ring_get (ring_update r round f) k = if decide (k = round) then f <$> ring_get r k else ring_get r k.
Proof.
  intros Hf. unfold ring_get at 1. rewrite slots_ring_update.
  destruct (decide (index_of k = index_of round ∧ is_Some (ring_get r round))) as [[Hi [s Hs]]|Hn].
  - pose proof Hs as Hs'. apply ring_get_Some in Hs' as [Hl Hr]. case_decide as Hk.
    + subst k. rewrite Hl, Hs. simpl. by rewrite Hf, Hr, N.eqb_refl.
    + unfold ring_get. rewrite Hi, Hl. simpl. rewrite Hf.
      by rewrite (proj2 (N.eqb_neq _ _)) by congruence.
  - case_decide as Hk; [subst k|done].
    assert (ring_get r round = None) as Hg by (apply eq_None_not_Some; naive_solver).
    rewrite Hg. unfold ring_get in Hg. by rewrite Hg.
Qed.

Lemma length_ring_update r round f : length (slots (ring_update r round f)) = length (slots r).
Proof. unfold ring_update. destruct (ring_get r round); simpl; by rewrite ?length_insert. Qed.

Lemma ring_get_install r rs k :
  length (slots r) = N.to_nat NUM_STORED_ROUNDS →
  ring_get (ring_install r rs) k =
    if decide (index_of k = index_of (rs_round rs))
    then (if decide (k = rs_round rs) then Some rs else None) else ring_get r k.
Proof.
  intros Hl. unfold ring_get, ring_install. simpl. pose proof (index_of_lt (rs_round rs)) as Hi.
  case_decide as Hk.
  - rewrite Hk, list_lookup_insert_eq by lia. simpl. case_decide; subst.
    + by rewrite N.eqb_refl.
    + by rewrite (proj2 (N.eqb_neq _ _)) by congruence.
  - by rewrite list_lookup_insert_ne by done.
Qed.

(** Rounds closer than the size of the ring have different slots. *)
Lemma index_of_near k n : k < n → n < k + NUM_STORED_ROUNDS → index_of k ≠ index_of n.
Proof.
  intros Hlt Hnear Heq. unfold index_of in Heq. apply N2Nat.inj in Heq.
  change NUM_STORED_ROUNDS with 16 in *.
  pose proof (N.div_mod k 16 ltac:(done)) as H1. pose proof (N.div_mod n 16 ltac:(done)) as H2.
  rewrite <- Heq in H2. generalize dependent (k mod 16). generalize dependent (k / 16).
  generalize dependent (n / 16). intros; lia.
Qed.

Section log.
Context `{Crypto, MessageCodec, AttestationCodec, ControlCodec}.
Context (cfg : RunConfig) (seed0 : Seed).

(** The seed and the data cursor of a round, from the genesis seed and the
    configuration. *)
Fixpoint seed_at (n : nat) : Seed :=
  match n with
  | O => seed0
  | S n' => next_seed (seed_at n') (N.of_nat n')
  end.

Fixpoint cursor_at (n : nat) : N :=
  match n with
  | O => 0
  | S n' => advance_cursor (cursor_at n') (rc_global_batch cfg) (N.of_nat n')
  end.

Definition window_at (round : N) : BatchWindow :=
  let c := cursor_at (N.to_nat round) in
  mkBatchWindow c (c +₆₄ global_batch_at (rc_global_batch cfg) round).

Definition record_ok (r : RoundRecord) : Prop :=
  rr_next_seed r = seed_at (S (N.to_nat (rr_round r))) ∧
  rr_set_locator r = StoreKey (record_set_key (rc_run_id cfg) (rr_round r)) ∧
  ∃ entries, rr_inline r = Some entries ∧
    rr_set r = commitment (commit_set ((λ e, (re_peer e, re_hash e)) <$> entries)).

Definition open_ok (ro : RoundOpen) : Prop :=
  ro_seed ro = seed_at (N.to_nat (ro_round ro)) ∧ ro_batch ro = window_at (ro_round ro).

(** A slot holds what was published for its round. *)
Definition slot_ok (outs : list Output) (i : nat) (rs : RoundState) : Prop :=
  (∀ r, rs_record rs = Some r → r ∈ records outs ∧ rr_round r = rs_round rs ∧ index_of (rs_round rs) = i) ∧
  (∀ ro, rs_open rs = Some ro → ro ∈ opens outs ∧ ro_round ro = rs_round rs).

Record log_core (s : CoordinatorState) (outs : list Output) : Prop := mkLogCore {
  li_config : cs_config s = cfg;
  li_done : cs_rounds_done s = cs_round s;
  li_seed : cs_seed s = seed_at (N.to_nat (cs_round s));
  li_cursor : cs_data_index s = cursor_at (N.to_nat (cs_round s));
  li_below : ∀ r, r ∈ records outs → rr_round r < cs_round s ∧ record_ok r;
  li_unique : ∀ r r', r ∈ records outs → r' ∈ records outs → rr_round r = rr_round r' → r = r';
  li_all : ∀ k, k < cs_round s → ∃ r, r ∈ records outs ∧ rr_round r = k;
  li_opens : ∀ ro, ro ∈ opens outs → ro_round ro ≤ cs_round s ∧ open_ok ro;
  li_slots : length (slots (cs_rounds s)) = N.to_nat NUM_STORED_ROUNDS;
  li_slot : ∀ i rs, slots (cs_rounds s) !! i = Some rs → slot_ok outs i rs;
  li_retained : ∀ k, k < cs_round s → cs_round s < k + NUM_STORED_ROUNDS →
    ∃ rs r, ring_get (cs_rounds s) k = Some rs ∧ rs_record rs = Some r
}.

(** While a round is active its slot is the one [open_round] installed. *)
Definition active_ok (s : CoordinatorState) : Prop :=
  is_round_active (cs_phase s) = true →
  ∃ rs, current_slot s = Some rs ∧ rs_seed rs = cs_seed s ∧ is_Some (rs_open rs).

Definition log_inv (s : CoordinatorState) (outs : list Output) : Prop := log_core s outs ∧ active_ok s.

Abbreviation inv := log_inv.
Implicit Types (s : CoordinatorState) (outs o : list Output).

(** An action that leaves the rounds alone and publishes no record and no open. *)
Lemma log_core_quiet s s' outs o :
  log_core s outs →
  cs_config s' = cs_config s → cs_seed s' = cs_seed s → cs_data_index s' = cs_data_index s →
  cs_round s' = cs_round s → cs_rounds s' = cs_rounds s → cs_rounds_done s' = cs_rounds_done s →
  records o = [] → opens o = [] → log_core s' (outs ++ o).
Proof.
  intros [] Hc Hs Hd Hr Hrs Hrd Hro Hop.
  assert (records (outs ++ o) = records outs) as Er by by rewrite records_app, Hro, app_nil_r.
  assert (opens (outs ++ o) = opens outs) as Eo by by rewrite opens_app, Hop, app_nil_r.
  assert (∀ i rs, slot_ok outs i rs → slot_ok (outs ++ o) i rs) as Hsl
    by (unfold slot_ok; rewrite Er, Eo; done).
  constructor; rewrite ?Er, ?Eo, ?Hc, ?Hs, ?Hd, ?Hr, ?Hrs, ?Hrd; try done.
  intros i rs Hi. by apply Hsl, li_slot0.
Qed.

Lemma log_inv_quiet s s' outs o :
  inv s outs →
  cs_config s' = cs_config s → cs_seed s' = cs_seed s → cs_data_index s' = cs_data_index s →
  cs_round s' = cs_round s → cs_rounds s' = cs_rounds s → cs_rounds_done s' = cs_rounds_done s →
  (is_round_active (cs_phase s') = true → is_round_active (cs_phase s) = true) →
  records o = [] → opens o = [] → inv s' (outs ++ o).
Proof.
  intros [Hcore Hact] Hc Hs Hd Hr Hrs Hrd Hp Hro Hop. split; [by apply (log_core_quiet s)|].
  unfold active_ok, current_slot. rewrite Hrs, Hr, Hs. intros Ha. by apply Hact, Hp.
Qed.

(** An update of the slot of a round that keeps what was published for it. *)
Lemma log_inv_slot s outs k f :
  inv s outs →
  (∀ rs, rs_round (f rs) = rs_round rs ∧ rs_seed (f rs) = rs_seed rs ∧
         rs_record (f rs) = rs_record rs ∧ rs_open (f rs) = rs_open rs) →
  inv (s <| cs_rounds := ring_update (cs_rounds s) k f |>) outs.
Proof.
  intros [[] Hact] Hf. assert (∀ rs, rs_round (f rs) = rs_round rs) as Hfr by (intros rs; apply Hf).
  split; [constructor; simpl; try done|].
  - by rewrite length_ring_update.
  - intros i rs. rewrite slots_ring_update. case_decide as Hd; [|by apply li_slot0].
    destruct (slots (cs_rounds s) !! i) as [rs0|] eqn:E; [|done]. simpl. intros [= <-].
    apply li_slot0 in E. unfold slot_ok in *. destruct (Hf rs0) as (-> & _ & -> & ->). done.
  - intros j Hj1 Hj2. destruct (li_retained0 j Hj1 Hj2) as (rs & r & Hg & Hr).
    rewrite ring_get_update by done. case_decide; rewrite Hg; [exists (f rs), r|by exists rs, r].
    simpl. destruct (Hf rs) as (_ & _ & -> & _). done.
  - intros Ha. destruct (Hact Ha) as (rs & Hg & Hs & Ho). unfold current_slot in *. simpl.
    rewrite ring_get_update by done. destruct (Hf rs) as (_ & Hs' & _ & Ho').
    case_decide; rewrite Hg; [exists (f rs)|exists rs]; simpl; [|done]. by rewrite Hs', Ho'.
Qed.

Lemma slot_ok_mono outs o i rs : slot_ok outs i rs → slot_ok (outs ++ o) i rs.
Proof.
  intros [Ha Hb]. split; [intros r Hr|intros ro Hro]; rewrite ?records_app, ?opens_app.
  - destruct (Ha r Hr) as (? & ? & ?). split_and!; [apply elem_of_app; by left|done..].
  - destruct (Hb ro Hro) as (? & ?). split; [apply elem_of_app; by left|done].
Qed.

(** The state after [open_round] has installed the slot of the round. *)
Definition opened_slot s (ro : RoundOpen) (ws : list PeerId) : RoundState :=
  (RoundState_opened (cs_round s) (cs_seed s) (cs_data_index s) (ro_batch ro) ws) <| rs_open := Some ro |>.

Lemma log_inv_install s s' outs o ro ws :
  log_core s outs →
  cs_config s' = cs_config s → cs_seed s' = cs_seed s → cs_data_index s' = cs_data_index s →
  cs_round s' = cs_round s → cs_rounds_done s' = cs_rounds_done s →
  cs_rounds s' = ring_install (cs_rounds s) (opened_slot s ro ws) →
  ro_round ro = cs_round s → open_ok ro → records o = [] → opens o = [ro] → inv s' (outs ++ o).
Proof.
  intros [] Hc Hs Hd Hr Hrd Hrs Hround Hok Hro Hop.
  assert (records (outs ++ o) = records outs) as Er by by rewrite records_app, Hro, app_nil_r.
  assert (opens (outs ++ o) = opens outs ++ [ro]) as Eo by by rewrite opens_app, Hop.
  split; [constructor; rewrite ?Er, ?Eo, ?Hc, ?Hs, ?Hd, ?Hr, ?Hrs, ?Hrd; try done|].
  - intros ro' [Hin|Hin]%elem_of_app; [by apply li_opens0|].
    apply list_elem_of_singleton in Hin. subst ro'. split; [lia|done].
  - simpl. by rewrite length_insert.
  - intros i rs. simpl. rewrite list_lookup_insert. case_decide as Hi; [intros [= <-]|].
    + split; [done|]. simpl. intros ro' [= <-]. rewrite Eo. split; [apply elem_of_app; right; by left|done].
    + intros Hl. by apply slot_ok_mono, li_slot0.
  - intros k Hk1 Hk2. rewrite ring_get_install by done. rewrite decide_False by (simpl; by apply index_of_near).
    by apply li_retained0.
  - intros _. unfold current_slot. rewrite Hrs, Hr, ring_get_install by done. simpl.
    rewrite !decide_True by done. eexists. split; [done|]. simpl. by rewrite Hs.
Qed.

Lemma ring_install_open r rs f :
  length (slots r) = N.to_nat NUM_STORED_ROUNDS → rs_round (f rs) = rs_round rs →
  ring_update (ring_install r rs) (rs_round rs) f = ring_install r (f rs).
Proof.
  intros Hl Hf. unfold ring_update. rewrite ring_get_install by done. rewrite !decide_True by done.
  unfold ring_install. simpl. by rewrite Hf, list_insert_insert_eq.
Qed.

Lemma open_round_inv s outs :
  log_core s outs → awp open_round (λ s' o, inv s' (outs ++ o) ∧ cs_round s' = cs_round s) s.
Proof.
  intros Hinv. unfold open_round. awp_steps. split; [|done].
  eapply (log_inv_install s); try done; simpl.
  - apply (ring_install_open _ (RoundState_opened _ _ _ _ _)); [apply Hinv|done].
  - done.
  - unfold open_ok, window_at. simpl. destruct Hinv. by rewrite li_seed0, li_cursor0, li_config0.
Qed.

Lemma change_phase_halt_inv to s outs :
  log_core s outs → is_round_active to = false →
  awp (change_phase to) (λ s' o, inv s' (outs ++ o) ∧ cs_round s' = cs_round s) s.
Proof.
  intros Hcore Hto. unfold change_phase. awp_steps. split; [split|done].
  - by eapply (log_core_quiet s).
  - unfold active_ok. simpl. congruence.
Qed.

Lemma change_phase_inv to s outs :
  inv s outs → (is_round_active to = true → is_round_active (cs_phase s) = true) →
  awp (change_phase to) (λ s' o, inv s' (outs ++ o) ∧ cs_round s' = cs_round s) s.
Proof. intros Hinv Hto. unfold change_phase. awp_steps. split; [|done]. by eapply (log_inv_quiet s). Qed.

(** The state after a record was frozen and the cursor moved on. *)
Lemma log_core_commit s s' outs o r :
  log_core s outs → is_Some (current_slot s) → cs_round s + 1 < u64_bound →
  cs_config s' = cs_config s → cs_round s' = cs_round s + 1 → cs_rounds_done s' = cs_rounds_done s +₆₄ 1 →
  cs_seed s' = next_seed (cs_seed s) (cs_round s) →
  cs_data_index s' = advance_cursor (cs_data_index s) (rc_global_batch cfg) (cs_round s) →
  cs_rounds s' = ring_update (cs_rounds s) (cs_round s) (λ rs, rs <| rs_record := Some r |>) →
  rr_round r = cs_round s → record_ok r → records o = [r] → opens o = [] → log_core s' (outs ++ o).
Proof.
  intros [] [slot Hslot] Hb Hc Hr Hrd Hs Hd Hrs Hround Hok Hro Hop.
  assert (records (outs ++ o) = records outs ++ [r]) as Er by by rewrite records_app, Hro.
  assert (opens (outs ++ o) = opens outs) as Eo by by rewrite opens_app, Hop, app_nil_r.
  assert (N.to_nat (cs_round s + 1) = S (N.to_nat (cs_round s))) as En by lia.
  assert (∀ r', r' ∈ records outs ++ [r] → r' ∈ records outs ∨ r' = r) as Hel.
  { intros r' [?|Hin]%elem_of_app; [by left|right]. by apply list_elem_of_singleton in Hin. }
  constructor; rewrite ?Er, ?Eo, ?Hc, ?Hs, ?Hd, ?Hr, ?Hrs, ?Hrd, ?En; try done.
  - rewrite li_done0. by apply wrap64_small.
  - simpl. by rewrite li_seed0, N2Nat.id.
  - simpl. by rewrite li_cursor0, N2Nat.id.
  - intros r' [Hin| ->]%Hel; [|split; [lia|done]]. destruct (li_below0 r' Hin). split; [lia|done].
  - intros r1 r2 [Ha| ->]%Hel [Hb'| ->]%Hel Heq; [by apply li_unique0|..|done].
    + destruct (li_below0 r1 Ha). lia.
    + destruct (li_below0 r2 Hb'). lia.
  - intros k Hk. destruct (decide (k = cs_round s)) as [->|Hne].
    + exists r. split; [apply elem_of_app; right; by left|done].
    + destruct (li_all0 k) as (r' & Hin & Hr'); [lia|]. exists r'. split; [apply elem_of_app; by left|done].
  - intros ro Hin. destruct (li_opens0 ro Hin). split; [lia|done].
  - by rewrite length_ring_update.
  - intros i rs. rewrite slots_ring_update. case_decide as Hi.
    + destruct (slots (cs_rounds s) !! i) as [rs0|] eqn:E; [|done]. simpl. intros [= <-].
      destruct Hi as [-> _]. unfold current_slot in Hslot. apply ring_get_Some in Hslot as [Hl Hrr].
      assert (rs0 = slot) as -> by congruence. destruct (li_slot0 _ _ E) as [_ Ho]. split; simpl.
      * intros r' [= <-]. rewrite Er, Hrr. split_and!; [apply elem_of_app; right; by left|done|done].
      * rewrite Eo. done.
    + intros Hl. by apply slot_ok_mono, li_slot0.
  - intros k Hk1 Hk2. rewrite ring_get_update by done. case_decide as Hk.
    + subst k. unfold current_slot in Hslot. rewrite Hslot. simpl. by eexists _, r.
    + apply li_retained0; lia.
Qed.

Lemma advance_cursor_sat d gb round : sat_add d (global_batch_at gb round) = advance_cursor d gb round.
Proof. done. Qed.

Lemma finalize_round_inv s outs :
  log_inv s outs → is_round_active (cs_phase s) = true → cs_round s + 1 < u64_bound →
  awp finalize_round (λ s' o, log_inv s' (outs ++ o) ∧ cs_round s' = cs_round s + 1) s.
Proof.
  intros [Hcore Hact] Hp Hb. destruct (Hact Hp) as (slot & Hslot & Hseed & _).
  unfold finalize_round. apply awp_with. cbv beta zeta. rewrite Hslot.
  set (committed := committed_entries slot (cs_roster s)).
  set (account := account_member (cs_config s) (cs_round s) (re_peer <$> committed)).
  set (drops := dropping account (cs_roster s)).
  set (record := mkRoundRecord (cs_round s) _ drops _ _ _).
  repeat (lazymatch goal with |- awp (with_state _) _ _ => fail | _ => awp_step end; cbv beta iota).
  match goal with |- awp _ _ ?s1 => set (s' := s1) end.
  assert (log_core s' (outs ++ ((λ p, Note (Dropped p)) <$> drops) ++ [Publish (MRoundRecord record)])) as Hcore'.
  { apply (log_core_commit s s' outs _ record); try done.
    - unfold s'. simpl. by rewrite wrap64_small.
    - unfold s'. simpl. by rewrite Hseed.
    - unfold s'. simpl. by rewrite (li_config _ _ Hcore).
    - split_and!; simpl.
      + rewrite Hseed, (li_seed _ _ Hcore). by rewrite N2Nat.id.
      + by rewrite (li_config _ _ Hcore).
      + by exists committed.
    - rewrite records_app, records_notes. done.
    - rewrite opens_app, opens_notes. done. }
  assert (cs_round s' = cs_round s + 1) as Hr' by (unfold s'; simpl; by rewrite wrap64_small).
  eapply awp_mono.
  - apply awp_with. cbv beta zeta. repeat case_match.
    + by apply (change_phase_halt_inv Cooldown s' _ Hcore').
    + by apply (change_phase_halt_inv Cooldown s' _ Hcore').
    + by apply (open_round_inv s' _ Hcore').
  - cbv beta. intros s'' o [Hi Hr]. rewrite Hr, Hr'. split; [|done].
    rewrite <- !app_assoc in Hi. exact Hi.
Qed.

(** [quiet]: the invariant is kept and the round does not move.  [keeps]: the
    invariant is kept and the round moves by at most one. *)
Definition quiet (a : Act) : Prop := ∀ s outs,
  log_inv s outs → awp a (λ s' o, log_inv s' (outs ++ o) ∧ cs_round s' = cs_round s) s.
Definition keeps (a : Act) : Prop := ∀ s outs,
  log_inv s outs → cs_round s + 1 < u64_bound →
  awp a (λ s' o, log_inv s' (outs ++ o) ∧ cs_round s ≤ cs_round s' ≤ cs_round s + 1) s.

Lemma quiet_keeps a : quiet a → keeps a.
Proof.
  intros Ha s outs Hinv _. eapply awp_mono; [by apply Ha|]. simpl. intros s' o [Hi Hr]. split; [done|lia].
Qed.

Lemma quiet_then a b : quiet a → quiet b → quiet (a ;;; b).
Proof.
  intros Ha Hb s outs Hinv. apply awp_then. eapply awp_mono; [by apply Ha|]. intros s1 o1 [Hi Hr].
  eapply awp_mono; [by apply Hb|]. simpl. intros s2 o2 [Hi' Hr']. rewrite app_assoc. split; [done|congruence].
Qed.

Lemma keeps_quiet_then a b : quiet a → keeps b → keeps (a ;;; b).
Proof.
  intros Ha Hb s outs Hinv Hlt. apply awp_then. eapply awp_mono; [by apply Ha|]. intros s1 o1 [Hi Hr].
  eapply awp_mono; [apply Hb; [done|by rewrite Hr]|]. simpl. intros s2 o2 [Hi' Hr'].
  rewrite app_assoc, <- Hr. done.
Qed.

Lemma quiet_skip : quiet skip.
Proof. intros s outs Hinv. apply awp_skip. by rewrite app_nil_r. Qed.

Lemma quiet_emit (x : Output) : pub_record x = None → pub_open x = None → quiet (emit x).
Proof.
  intros Hr Ho s outs Hinv. apply awp_emit. split; [|done].
  eapply (log_inv_quiet s); try done; unfold records, opens; simpl; by rewrite ?Hr, ?Ho.
Qed.

Lemma quiet_notes {A} (f : A → Notice) l : quiet (emit_all ((λ x, Note (f x)) <$> l)).
Proof.
  intros s outs Hinv. apply awp_emit_all. split; [|done].
  eapply (log_inv_quiet s); try done; [apply records_notes|apply opens_notes].
Qed.

Lemma quiet_upd f :
  (∀ s, cs_config (f s) = cs_config s ∧ cs_seed (f s) = cs_seed s ∧ cs_data_index (f s) = cs_data_index s ∧
        cs_round (f s) = cs_round s ∧ cs_rounds (f s) = cs_rounds s ∧ cs_rounds_done (f s) = cs_rounds_done s ∧
        cs_phase (f s) = cs_phase s) →
  quiet (upd f).
Proof.
  intros Hf s outs Hinv. destruct (Hf s) as (? & ? & ? & ? & ? & ? & Hp). apply awp_upd. split; [|done].
  eapply (log_inv_quiet s); try done. by rewrite Hp.
Qed.

Lemma quiet_slot k f :
  (∀ rs, rs_round (f rs) = rs_round rs ∧ rs_seed (f rs) = rs_seed rs ∧
         rs_record (f rs) = rs_record rs ∧ rs_open (f rs) = rs_open rs) →
  quiet (upd (λ s, s <| cs_rounds := ring_update (cs_rounds s) (k s) f |>)).
Proof.
  intros Hf s outs Hinv. apply awp_upd. rewrite app_nil_r. split; [|done]. by apply log_inv_slot.
Qed.

Lemma quiet_phase to : is_round_active to = false → quiet (change_phase to).
Proof. intros Hto s outs [Hcore _]. by apply change_phase_halt_inv. Qed.

Lemma quiet_open : quiet open_round.
Proof. intros s outs [Hcore _]. by apply open_round_inv. Qed.

Lemma quiet_with f : (∀ s, quiet (f s)) → quiet (with_state f).
Proof. intros Hf s outs Hinv. apply awp_with. by apply Hf. Qed.

Lemma keeps_with f : (∀ s, keeps (f s)) → keeps (with_state f).
Proof. intros Hf s outs Hinv Hlt. apply awp_with. by apply Hf. Qed.

Lemma keeps_maybe_finalize : keeps maybe_finalize.
Proof.
  intros s outs Hinv Hlt. unfold maybe_finalize. apply awp_with.
  destruct (bool_decide_reflect (cs_phase s = RoundWitness)) as [Hp|]; simpl andb;
    [|by apply (quiet_keeps _ quiet_skip)].
  destruct (slot_is all_evidenced s); [|by apply (quiet_keeps _ quiet_skip)].
  eapply awp_mono; [apply finalize_round_inv; [done|by rewrite Hp|done]|].
  simpl. intros s' o [Hi Hr]. split; [done|lia].
Qed.

Lemma keeps_maybe_advance : keeps maybe_advance.
Proof.
  apply keeps_quiet_then; [|apply keeps_maybe_finalize]. intros s outs Hinv. apply awp_with.
  destruct (bool_decide_reflect (cs_phase s = RoundTrain)) as [Hp|]; simpl andb; [|by apply quiet_skip].
  destruct (slot_is all_committed s); [|by apply quiet_skip].
  apply change_phase_inv; [done|]. by rewrite Hp.
Qed.

Create HintDb coord.
#[local] Hint Resolve quiet_skip quiet_then quiet_with quiet_open quiet_notes quiet_keeps keeps_quiet_then keeps_with
  keeps_maybe_finalize keeps_maybe_advance : coord.
#[local] Hint Extern 1 (quiet (emit _)) => by apply quiet_emit : coord.
#[local] Hint Extern 1 (quiet (change_phase _)) => by apply quiet_phase : coord.
#[local] Hint Extern 1 (quiet (upd _)) =>
  first [apply quiet_slot; by intros []|apply quiet_upd; intros []; by split_and!] : coord.
#[local] Hint Extern 2 (quiet (match _ with _ => _ end)) => case_match : coord.
#[local] Hint Extern 2 (keeps (match _ with _ => _ end)) => case_match : coord.

Lemma upsert_member_quiet m s :
  cs_config (upsert_member m s) = cs_config s ∧ cs_seed (upsert_member m s) = cs_seed s ∧
  cs_data_index (upsert_member m s) = cs_data_index s ∧ cs_round (upsert_member m s) = cs_round s ∧
  cs_rounds (upsert_member m s) = cs_rounds s ∧ cs_rounds_done (upsert_member m s) = cs_rounds_done s ∧
  cs_phase (upsert_member m s) = cs_phase s.
Proof. unfold upsert_member. case_match; by destruct s. Qed.

Lemma fold_upsert_quiet (g : CoordinatorState → Member → Member) ms s :
  let s' := fold_left (λ s m, upsert_member (g s m) s) ms s in
  cs_config s' = cs_config s ∧ cs_seed s' = cs_seed s ∧ cs_data_index s' = cs_data_index s ∧
  cs_round s' = cs_round s ∧ cs_rounds s' = cs_rounds s ∧ cs_rounds_done s' = cs_rounds_done s ∧
  cs_phase s' = cs_phase s.
Proof.
  revert s. induction ms as [|m ms IH]; intros s; simpl; [done|].
  destruct (IH (upsert_member (g s m) s)) as (-> & -> & -> & -> & -> & -> & ->). apply upsert_member_quiet.
Qed.

Lemma quiet_exit_cooldown : quiet exit_cooldown.
Proof.
  unfold exit_cooldown. apply quiet_with. intros s. case_match; eauto 10 with coord.
  apply quiet_then; [eauto with coord|]. apply quiet_then; [|eauto with coord].
  apply quiet_upd. intros s'.
  exact (fold_upsert_quiet (λ s m, m <| m_joined_epoch := cs_epoch s |>) (cs_pending s') (s' <| cs_pending := [] |>)).
Qed.

(** Replaying publishes nothing new. *)
Lemma log_inv_replay s outs o :
  log_inv s outs → (∀ r, r ∈ records o → r ∈ records outs) → (∀ ro, ro ∈ opens o → ro ∈ opens outs) →
  log_inv s (outs ++ o).
Proof.
  intros [[] Hact] Hr Ho. split; [|done].
  assert (∀ r, r ∈ records (outs ++ o) → r ∈ records outs) as Er
    by (intros r; rewrite records_app, elem_of_app; naive_solver).
  assert (∀ ro, ro ∈ opens (outs ++ o) → ro ∈ opens outs) as Eo
    by (intros ro; rewrite opens_app, elem_of_app; naive_solver).
  constructor; eauto using slot_ok_mono.
  intros k Hk. destruct (li_all0 k Hk) as (r & Hin & Hrr). exists r.
  rewrite records_app, elem_of_app. auto.
Qed.

Lemma retained_published s outs r :
  log_inv s outs → r ∈ omap rs_record (slots (cs_rounds s)) → r ∈ records outs.
Proof.
  intros [[] _] Hr. apply list_elem_of_omap in Hr as (rs & Hin & Hrs).
  apply list_elem_of_lookup in Hin as [i Hi]. by apply (li_slot0 i rs Hi).
Qed.

Lemma standing_open_published s outs ro :
  log_inv s outs → current_slot s ≫= rs_open = Some ro → ro ∈ opens outs.
Proof.
  intros [[] _] Ho. destruct (current_slot s) as [rs|] eqn:E; [|done]. simpl in Ho.
  apply ring_get_Some in E as [E _]. by apply (li_slot0 _ _ E).
Qed.

Lemma quiet_replay_forward : quiet replay_forward.
Proof.
  intros s outs Hinv. unfold replay_forward. awp_steps; (split; [|done]).
  all: apply log_inv_replay; [done|intros rec Hr|intros ro Hro].
  all: rewrite ?records_app, ?opens_app, ?records_publish, ?opens_publish, ?app_nil_l, ?app_nil_r in *.
  all: try (apply elem_of_app in Hr as [Hr|Hr]; [|by apply not_elem_of_nil in Hr]).
  all: try (rewrite sort_by_perm in Hr; by eapply retained_published).
  all: try by apply not_elem_of_nil in Hro.
  apply list_elem_of_singleton in Hro. subst ro. by eapply standing_open_published.
Qed.
#[local] Hint Resolve quiet_replay_forward quiet_exit_cooldown : coord.

Lemma quiet_on_join signer version j : quiet (on_join signer version j).
Proof.
  unfold on_join. apply quiet_with. intros s. case_match; [|case_match; eauto 10 with coord].
  apply quiet_then; [|eauto with coord]. apply quiet_upd. intros s'.
  pose proof (upsert_member_quiet ((Member_joining signer (jn_iroh_id j) (jn_class j) (cs_epoch s))
    <| m_last_seen_s := cs_now_s s |>) s') as Hu.
  destruct (cs_phase s') eqn:E; first [exact Hu|by split_and!].
Qed.

Lemma keeps_round_evidence round body : keeps body → keeps (round_evidence round body).
Proof. intros Hb. unfold round_evidence. apply keeps_with. intros s. repeat case_match; eauto with coord. Qed.

Lemma quiet_on_digest signer d : quiet (on_digest signer d).
Proof.
  unfold on_digest. apply quiet_with. intros s. repeat case_match; eauto with coord.
Qed.

Lemma quiet_on_heartbeat signer h : quiet (on_heartbeat signer h).
Proof.
  unfold on_heartbeat. apply quiet_then; [apply quiet_upd; intros []; by case_match|].
  apply quiet_then; [eauto with coord|]. unfold maybe_exit_warmup, open_epoch_first_round. eauto 10 with coord.
Qed.

Lemma quiet_on_checkpoint_attestation ca : quiet (on_checkpoint_attestation ca).
Proof. unfold on_checkpoint_attestation. apply quiet_with. intros s. repeat case_match; eauto with coord. Qed.
#[local] Hint Resolve quiet_on_join quiet_on_digest quiet_on_heartbeat quiet_on_checkpoint_attestation
  keeps_round_evidence : coord.

Lemma keeps_dispatch signer version payload : keeps (dispatch_payload signer version payload).
Proof.
  unfold dispatch_payload. apply keeps_quiet_then; [eauto with coord|]. destruct payload; eauto with coord.
  - unfold on_commitment. apply keeps_round_evidence, keeps_with. intros s. case_match; [eauto with coord|].
    apply keeps_quiet_then; [|eauto with coord]. unfold update_slot. eauto with coord.
  - unfold on_attestation. apply keeps_round_evidence, keeps_with. intros s. case_match; [eauto with coord|].
    apply keeps_quiet_then; [|eauto with coord]. unfold update_slot. eauto with coord.
  - unfold on_receipt. apply keeps_round_evidence, keeps_quiet_then; [|eauto with coord]. unfold update_slot. eauto with coord.
  - unfold on_straggle. eauto with coord.
Qed.

Lemma keeps_drive_time : keeps drive_time.
Proof.
  intros s outs Hinv Hlt. unfold drive_time. apply awp_with. cbv zeta. destruct (cs_phase s) eqn:Hp.
  - by apply (quiet_keeps _ quiet_skip).
  - assert (keeps (decay_stale_members ;;;
      with_state (λ s, if rc_min_peers (cs_config s) <=? healthy_count s then enter_warmup else skip))) as Hk.
    { unfold decay_stale_members, enter_warmup. eauto 20 with coord. }
    by apply Hk.
  - assert (keeps open_epoch_first_round) as Hk by (unfold open_epoch_first_round; eauto with coord).
    repeat case_match; first [by apply (quiet_keeps _ (quiet_phase WaitingForMembers eq_refl))
      |by apply (quiet_keeps _ quiet_skip)|by apply Hk].
  - case_match; [|by apply (quiet_keeps _ quiet_skip)]. apply awp_then.
    eapply awp_mono; [apply change_phase_inv; [done|by rewrite Hp]|]. intros s1 o1 [Hi Hr].
    eapply awp_mono; [apply keeps_maybe_finalize; [exact Hi|by rewrite Hr]|]. simpl. intros s2 o2 [Hi2 Hr2].
    rewrite app_assoc, <- Hr. done.
  - case_match; [|by apply (quiet_keeps _ quiet_skip)].
    eapply awp_mono; [apply finalize_round_inv; [done|by rewrite Hp|done]|]. simpl. intros s' o [Hi Hr]. split; [done|lia].
  - case_match; [|by apply (quiet_keeps _ quiet_skip)]. by apply (quiet_keeps _ quiet_exit_cooldown).
  - by apply (quiet_keeps _ quiet_skip).
  - by apply (quiet_keeps _ quiet_skip).
Qed.

Lemma keeps_tick s outs input :
  log_inv s outs → cs_round s + 1 < u64_bound →
  let '(s', o) := tick s input in
  log_inv s' (outs ++ o) ∧ cs_round s ≤ cs_round s' ≤ cs_round s + 1.
Proof.
  intros Hinv Hlt. assert (∀ a, keeps a → let '(s', o) := a s in
    log_inv s' (outs ++ o) ∧ cs_round s ≤ cs_round s' ≤ cs_round s + 1) as Hk.
  { intros a Ha. specialize (Ha s outs Hinv Hlt). unfold awp in Ha. by destruct (a s). }
  destruct input as [now|sm|req]; simpl tick; apply Hk.
  - unfold on_clock. apply keeps_quiet_then; [apply quiet_upd; intros []; by case_match|].
    pose proof keeps_drive_time. eauto with coord.
  - unfold on_message. pose proof keeps_dispatch. eauto 10 with coord.
  - unfold on_control. eauto 15 with coord.
Qed.

(** [reachable n s outs]: [n] inputs, whatever they are, lead from a fresh state to
    [s], and [outs] is everything that was output. *)
Inductive reachable (now0 : N) : N → CoordinatorState → list Output → Prop :=
| reach_new : reachable now0 0 (CoordinatorState_new cfg seed0 now0) []
| reach_tick n s outs input s' o :
    reachable now0 n s outs → tick s input = (s', o) → reachable now0 (n + 1) s' (outs ++ o).

Lemma log_inv_new now0 : log_inv (CoordinatorState_new cfg seed0 now0) [].
Proof.
  split; [|done]. constructor; simpl; try done.
  - intros r Hr. by apply not_elem_of_nil in Hr.
  - intros r r' Hr. by apply not_elem_of_nil in Hr.
  - lia.
  - intros ro Hro. by apply not_elem_of_nil in Hro.
  - intros i rs Hi. apply (lookup_replicate_1 16) in Hi as [-> _]. by split.
  - lia.
Qed.

Lemma reachable_inv now0 n s outs :
  reachable now0 n s outs → n < u64_bound → log_inv s outs ∧ cs_round s ≤ n.
Proof.
  induction 1 as [|n s outs input s' o Hr IH Ht]; intros Hn.
  - split; [apply log_inv_new|simpl; lia].
  - destruct IH as [IH1 IH2]; [lia|]. pose proof (keeps_tick s outs input IH1 ltac:(lia)) as Hk.
    rewrite Ht in Hk. split; [apply Hk|lia].
Qed.

(** ** The theorems *)

(** C6. The coordinator never equivocates: whatever inputs it is fed, in
    whatever order, all publications of the record of a round are identical, and
    the rounds with a published record are exactly those below the current one. *)
Theorem one_record_per_round now0 n s outs :
  reachable now0 n s outs → n < u64_bound →
  (∀ r r', r ∈ records outs → r' ∈ records outs → rr_round r = rr_round r' → r = r') ∧
  (∀ k, k < cs_round s ↔ ∃ r, r ∈ records outs ∧ rr_round r = k).
Proof.
  intros Hr Hn. destruct (reachable_inv _ _ _ _ Hr Hn) as [[[] _] _]. split; [done|].
  intros k. split; [apply li_all0|]. intros (r & Hin & <-). by apply li_below0.
Qed.

(** Every publication of a round follows from the genesis seed and the
    configuration: an open carries the seed and the window of its round, a record
    carries the seed of the next round and commits to exactly the entries it
    lists. *)
Theorem rounds_determined now0 n s outs :
  reachable now0 n s outs → n < u64_bound →
  (∀ ro, ro ∈ opens outs → ro_round ro ≤ cs_round s ∧ ro_seed ro = seed_at (N.to_nat (ro_round ro)) ∧
    ro_batch ro = window_at (ro_round ro)) ∧
  (∀ r, r ∈ records outs → rr_next_seed r = seed_at (S (N.to_nat (rr_round r))) ∧
    ∃ entries, rr_inline r = Some entries ∧
      rr_set r = commitment (commit_set ((λ e, (re_peer e, re_hash e)) <$> entries))).
Proof.
  intros Hr Hn. destruct (reachable_inv _ _ _ _ Hr Hn) as [[[] _] _]. split.
  - intros ro Hin. destruct (li_opens0 ro Hin) as (? & ? & ?). done.
  - intros r Hin. destruct (li_below0 r Hin) as (_ & ? & _ & ?). done.
Qed.

(** The windows of consecutive rounds meet, as long as the cursor stays in [u64]. *)
Lemma window_at_contiguous k :
  cursor_at k + global_batch_at (rc_global_batch cfg) (N.of_nat k) < u64_bound →
  bw_start (window_at (N.of_nat (S k))) = bw_end (window_at (N.of_nat k)).
Proof.
  intros Hlt. unfold window_at. rewrite !Nat2N.id. simpl. rewrite wrap64_small by done.
  unfold advance_cursor, sat_add. lia.
Qed.

Lemma retained_rounds_nodup l off :
  (∀ i rs r, l !! i = Some rs → rs_record rs = Some r → index_of (rr_round r) = (off + i)%nat) →
  NoDup (rr_round <$> omap rs_record l).
Proof.
  revert off. induction l as [|rs l IH]; intros off Hl; [constructor|]. cbn [omap list_omap].
  assert (NoDup (rr_round <$> omap rs_record l)) as Hn.
  { apply (IH (S off)). intros i rs' r Hi Hr. rewrite (Hl (S i) rs' r) by done. lia. }
  destruct (rs_record rs) as [r|] eqn:E; [|done]. csimpl. constructor; [|done].
  intros Hin. apply list_elem_of_fmap in Hin as (r' & Heq & Hr').
  apply list_elem_of_omap in Hr' as (rs' & Hin & Hr'). apply list_elem_of_lookup in Hin as [i Hi].
  pose proof (Hl 0%nat rs r eq_refl E). pose proof (Hl (S i) rs' r' Hi Hr'). rewrite Heq in *. lia.
Qed.

(** While a round is open, no record older than fifteen rounds is left: the slot
    of the round sixteen back is the one the open round reuses. *)
Lemma retained_recent s outs r :
  log_inv s outs → is_round_active (cs_phase s) = true →
  r ∈ omap rs_record (slots (cs_rounds s)) → cs_round s ≤ rr_round r + 15.
Proof.
  intros [[] Hact] Ha Hin. apply list_elem_of_omap in Hin as (rs & Hin & Hrec).
  apply list_elem_of_lookup in Hin as [i Hi]. destruct (li_slot0 i rs Hi) as [Hs _].
  destruct (Hs r Hrec) as (Hpub & Hround & Hidx). destruct (li_below0 r Hpub) as [Hlt _].
  destruct (decide (cs_round s ≤ rr_round r + 15)) as [|Hold]; [done|exfalso].
  pose proof (N.div_mod (cs_round s - rr_round r) 16 ltac:(done)) as Hd.
  pose proof (N.mod_lt (cs_round s - rr_round r) 16 ltac:(done)) as Hm.
  set (q := (cs_round s - rr_round r) / 16) in *. set (d := (cs_round s - rr_round r) mod 16) in *.
  assert (index_of (rr_round r + q * 16) = i) as Hk.
  { rewrite <- Hidx, <- Hround. unfold index_of. change NUM_STORED_ROUNDS with 16. by rewrite N.Div0.mod_add. }
  assert (∃ rs', ring_get (cs_rounds s) (rr_round r + q * 16) = Some rs') as [rs' Hg].
  { destruct (decide (d = 0)) as [Hd0|Hd0].
    - destruct (Hact Ha) as (rs' & Hcur & _). exists rs'. rewrite <- Hcur. unfold current_slot. f_equal. lia.
    - destruct (li_retained0 (rr_round r + q * 16)) as (rs' & _ & Hg & _); [lia|change NUM_STORED_ROUNDS with 16; lia|].
      by exists rs'. }
  apply ring_get_Some in Hg as [Hl Hr']. rewrite Hk, Hi in Hl. simplify_eq. lia.
Qed.

Lemma replay_forward_eq s :
  replay_forward s =
    (s, ((λ r, Publish (MRoundRecord r)) <$> sort_by record_le (omap rs_record (slots (cs_rounds s)))) ++
        (if is_round_active (cs_phase s) then
           match current_slot s ≫= rs_open with Some ro => [Publish (MRoundOpen ro)] | None => [] end
         else [])).
Proof.
  unfold replay_forward, with_state, and_then, emit_all, emit, skip. by repeat case_match; simplify_eq.
Qed.

(** What a rejoining peer is sent: the retained records in strictly ascending
    order of rounds, each exactly as first published, among them those of the
    last fifteen committed rounds, and then the standing open of the active
    round; while a round is active no older record is left. *)
Theorem replay_complete now0 n s outs :
  reachable now0 n s outs → n < u64_bound →
  let '(s', o) := replay_forward s in
  s' = s ∧
  StronglySorted N.lt (rr_round <$> records o) ∧
  (∀ r, r ∈ records o → r ∈ records outs) ∧
  (∀ k, k < cs_round s → cs_round s ≤ k + 15 → ∃ r, r ∈ records o ∧ rr_round r = k) ∧
  (is_round_active (cs_phase s) = true →
    (∃ ro, opens o = [ro] ∧ ro ∈ opens outs ∧ ro_round ro = cs_round s) ∧
    (∀ r, r ∈ records o → cs_round s ≤ rr_round r + 15)).
Proof.
  intros Hr Hn. destruct (reachable_inv _ _ _ _ Hr Hn) as [Hinv _]. pose proof Hinv as [[] Hact].
  rewrite replay_forward_eq. set (retained := omap rs_record (slots (cs_rounds s))).
  assert (∀ x y : list Output, records (x ++ y) = records x ++ records y) as Happ by apply records_app.
  assert (records (if is_round_active (cs_phase s) then
    match current_slot s ≫= rs_open with Some ro => [Publish (MRoundOpen ro)] | None => [] end else []) = []) as Ho
    by by repeat case_match.
  rewrite Happ, records_publish, Ho, app_nil_r. split_and!; [done|..].
  - apply StronglySorted_le_lt.
    + apply (StronglySorted_fmap _ (λ a b, rr_round a ≤ rr_round b)); [done|]. apply sort_by_sorted.
      * intros x y z. lia.
      * intros x y. apply N.leb_le.
      * intros x y ?%N.leb_gt. lia.
    + rewrite sort_by_perm. apply (retained_rounds_nodup _ 0). intros i rs r Hi Hrec.
      destruct (li_slot0 i rs Hi) as [Hs _]. destruct (Hs r Hrec) as (_ & -> & ->). done.
  - intros r Hin. rewrite sort_by_perm in Hin. by eapply retained_published.
  - intros k Hk1 Hk2. destruct (li_retained0 k Hk1) as (rs & r & Hg & Hrec); [change NUM_STORED_ROUNDS with 16; lia|].
    apply ring_get_Some in Hg as [Hl Hround]. exists r. rewrite sort_by_perm. split.
    + apply list_elem_of_omap. exists rs. split; [by eapply list_elem_of_lookup_2|done].
    + destruct (li_slot0 _ rs Hl) as [Hs _]. destruct (Hs r Hrec) as (_ & -> & _). done.
  - intros Ha. split; [|intros r Hin; rewrite sort_by_perm in Hin; by eapply retained_recent].
    rewrite Ha, opens_app, opens_publish. destruct (Hact Ha) as (rs & Hcur & _ & [ro Hro]).
    rewrite Hcur. simpl. rewrite Hro. exists ro. split; [done|].
    apply ring_get_Some in Hcur as [Hl Hround]. destruct (li_slot0 _ rs Hl) as [_ Hs].
    destruct (Hs ro Hro) as (? & ->). done.
Qed.

Lemma reachable_ticks now0 inputs n s outs :
  reachable now0 n s outs →
  reachable now0 (n + N.of_nat (length inputs)) (ticks tick s inputs).1 (outs ++ (ticks tick s inputs).2).
Proof.
  revert n s outs. induction inputs as [|i inputs IH]; intros n s outs Hr; cbn [ticks length fst snd].
  { by rewrite N.add_0_r, app_nil_r. }
  destruct (tick s i) as [s1 o1] eqn:Et. specialize (IH _ _ _ (reach_tick _ _ _ _ _ _ _ Hr Et)).
  destruct (ticks tick s1 inputs) as [s2 o2]. cbn [fst snd] in *. rewrite <- app_assoc in IH.
  replace (n + N.of_nat (S (length inputs))) with (n + 1 + N.of_nat (length inputs)) by lia. exact IH.
Qed.
End log.

(** ** A run of two rounds *)

Definition toy_inputs : list Input :=
  [toy_join 1; toy_join 2; IClock 1001; IClock 1040;
   toy_message 1 (MCommitment (mkCommitment 0 11 100 [])); toy_message 2 (MCommitment (mkCommitment 0 22 100 []));
   toy_message 1 (MStorageReceipt (mkStorageReceipt 0 [mkRecordEntry 1 11 100; mkRecordEntry 2 22 100]));
   toy_join 3].

Definition toy_run : CoordinatorState * list Output := ticks toy_tick toy_start toy_inputs.

Lemma toy_run_reachable :
  @reachable toy_crypto toy_message_codec toy_attestation_codec toy_control_codec
    toy_config 5 1000 8 toy_run.1 toy_run.2.
Proof.
  apply (@reachable_ticks toy_crypto toy_message_codec toy_attestation_codec toy_control_codec toy_config 5 1000
    toy_inputs 0 toy_start []). constructor.
Defined.

Lemma one_record_per_round_witness : ∃ r, r ∈ records toy_run.2 ∧ rr_round r = 0.
Proof.
  destruct (@one_record_per_round toy_crypto toy_message_codec toy_attestation_codec toy_control_codec
    toy_config 5 1000 8 toy_run.1 toy_run.2 toy_run_reachable) as [_ Hk]; [by vm_compute|].
  apply Hk. by vm_compute.
Defined.

Lemma rounds_determined_witness :
  Forall (λ ro, ro_batch ro = @window_at toy_config (ro_round ro)) (opens toy_run.2) ∧ length (opens toy_run.2) = 3%nat.
Proof.
  destruct (@rounds_determined toy_crypto toy_message_codec toy_attestation_codec toy_control_codec
    toy_config 5 1000 8 toy_run.1 toy_run.2 toy_run_reachable) as [Ho _]; [by vm_compute|].
  split; [|by vm_compute]. apply Forall_forall. intros ro Hro. by apply Ho.
Defined.

Lemma replay_complete_witness :
  cs_round toy_run.1 = 1 ∧ ∃ r, r ∈ records (replay_forward toy_run.1).2 ∧ rr_round r = 0.
Proof.
  split; [by vm_compute|].
  pose proof (@replay_complete toy_crypto toy_message_codec toy_attestation_codec toy_control_codec
    toy_config 5 1000 8 toy_run.1 toy_run.2 toy_run_reachable ltac:(by vm_compute)) as Hr.
  destruct (replay_forward toy_run.1) as [s' o]. destruct Hr as (_ & _ & _ & Hk & _).
  apply Hk; by vm_compute.
Defined.
