(* ===== verification/VhcCoordRoster.v ===== *)
(** * The roster of the coordinator

    Who is a member: a peer has one roster entry, is active (healthy, or staged
    for the next epoch) at most once, and the active peers never exceed the
    configured maximum, whatever joins, drops, decays, pauses and epochs happen.
    With them: the exact conditions of admission. *)

From S2P Require Import Prelude Text VhcProto VhcMerkle VhcMessages VhcAssignment VhcAttestation VhcState VhcCommit VhcCoordinator VhcCoordLog.

#[local] Open Scope N_scope.
#[local] Open Scope daemon_scope.

(** ** Active peers *)

Definition healthy_peers (roster : list Member) : list PeerId := m_peer <$> List.filter is_healthy roster.

Definition active_peers (s : CoordinatorState) : list PeerId :=
  healthy_peers (cs_roster s) ++ (m_peer <$> cs_pending s).

Record roster_inv (s : CoordinatorState) : Prop := mkRosterInv {
  ri_nodup : NoDup (m_peer <$> cs_roster s);
  ri_active : NoDup (active_peers s);
  ri_pending : Forall (λ m, is_healthy m = true) (cs_pending s);
  ri_capacity : N.of_nat (length (active_peers s)) ≤ rc_max_peers (cs_config s)
}.

Lemma healthy_peers_app l k : healthy_peers (l ++ k) = healthy_peers l ++ healthy_peers k.
Proof. unfold healthy_peers. by rewrite List.filter_app, fmap_app. Qed.

Lemma healthy_peers_cons m l :
  healthy_peers (m :: l) = (if is_healthy m then [m_peer m] else []) ++ healthy_peers l.
Proof. unfold healthy_peers. simpl. by destruct (is_healthy m). Qed.

(** A change of the members that keeps peers and makes no one healthy. *)
Lemma healthy_peers_fmap g l :
  (∀ m, m_peer (g m) = m_peer m ∧ (is_healthy (g m) = true → is_healthy m = true)) →
  healthy_peers (g <$> l) `sublist_of` healthy_peers l.
Proof.
  intros Hg. induction l as [|m l IH]; [constructor|]. rewrite fmap_cons, !healthy_peers_cons.
  destruct (Hg m) as [Hp Hh]. destruct (is_healthy (g m)), (is_healthy m); simpl; try (by discriminate Hh).
  - rewrite Hp. by apply sublist_skip.
  - by apply sublist_cons.
  - done.
Qed.

Lemma update_first_split {A} (p : A → bool) f (l : list A) :
  (existsb p l = false ∧ update_first p f l = l) ∨
  ∃ l1 x l2, l = l1 ++ x :: l2 ∧ p x = true ∧ update_first p f l = l1 ++ f x :: l2.
Proof.
  induction l as [|y l IH]; simpl; [by left|]. destruct (p y) eqn:E; [by right; exists [], y, l|].
  destruct IH as [[-> ->]|(l1 & x & l2 & -> & Hx & ->)]; [by left|]. right. by exists (y :: l1), x, l2.
Qed.

Lemma healthy_peers_update p f l :
  (∀ m, m_peer (f m) = m_peer m ∧ is_healthy (f m) = is_healthy m) →
  healthy_peers (update_first p f l) = healthy_peers l.
Proof.
  intros Hf. destruct (update_first_split p f l) as [[_ ->]|(l1 & x & l2 & -> & _ & ->)]; [done|].
  rewrite !healthy_peers_app, !healthy_peers_cons. by destruct (Hf x) as [-> ->].
Qed.

(** Entering the roster: one more healthy peer, no second entry. *)
Lemma upsert_member_spec m s :
  NoDup (m_peer <$> cs_roster s) → is_healthy m = true → m_peer m ∉ healthy_peers (cs_roster s) →
  NoDup (m_peer <$> cs_roster (upsert_member m s)) ∧
  healthy_peers (cs_roster (upsert_member m s)) ≡ₚ m_peer m :: healthy_peers (cs_roster s) ∧
  cs_pending (upsert_member m s) = cs_pending s ∧ cs_config (upsert_member m s) = cs_config s.
Proof.
  intros Hnd Hm Hnot. unfold upsert_member. destruct (existsb _ _) eqn:E; simpl.
  - destruct (update_first_split (λ e, m_peer e =? m_peer m) (λ _, m) (cs_roster s))
      as [[? _]|(l1 & x & l2 & Hl & Hx & ->)]; [congruence|]. apply N.eqb_eq in Hx.
    rewrite Hl in *. rewrite fmap_app, fmap_cons in *. rewrite !healthy_peers_app, !healthy_peers_cons, Hm in *.
    rewrite Hx in Hnd. split_and!; [done| |done|done].
    destruct (is_healthy x) eqn:Ex; [|simpl; by rewrite Permutation_middle]. destruct Hnot. set_solver.
  - assert (m_peer m ∉ m_peer <$> cs_roster s) as Hni.
    { intros Hin. apply list_elem_of_fmap in Hin as (e & He & Hin). apply existsb_false_Forall in E.
      rewrite Forall_forall in E. apply E, N.eqb_neq in Hin. congruence. }
    rewrite fmap_app, healthy_peers_app, healthy_peers_cons, Hm. split_and!; [|simpl; by rewrite Permutation_app_comm|done|done].
    apply NoDup_app. split_and!; [done| |apply NoDup_singleton].
    intros p Hp Hp'. apply list_elem_of_singleton in Hp'. by subst p.
Qed.

(** Staged members enter the roster together. *)
Lemma fold_upsert_spec (g : CoordinatorState → Member → Member) ms s :
  (∀ s m, m_peer (g s m) = m_peer m ∧ is_healthy (g s m) = is_healthy m) →
  NoDup (m_peer <$> cs_roster s) → Forall (λ m, is_healthy m = true) ms →
  NoDup (healthy_peers (cs_roster s) ++ (m_peer <$> ms)) →
  let s' := fold_left (λ s m, upsert_member (g s m) s) ms s in
  NoDup (m_peer <$> cs_roster s') ∧
  healthy_peers (cs_roster s') ≡ₚ healthy_peers (cs_roster s) ++ (m_peer <$> ms) ∧
  cs_pending s' = cs_pending s ∧ cs_config s' = cs_config s.
Proof.
  intros Hg. revert s. induction ms as [|m ms IH]; intros s Hnd Hms Hact; cbn [fold_left].
  { simpl. by rewrite app_nil_r. }
  apply Forall_cons in Hms as [Hm Hms]. destruct (Hg s m) as [Hp Hh].
  rewrite fmap_cons in Hact. rewrite <- Permutation_middle in Hact. apply NoDup_cons in Hact as [Hnot Hact].
  destruct (upsert_member_spec (g s m) s) as (H1 & H2 & H3 & H4); [done|congruence|rewrite Hp; set_solver|].
  rewrite Hp in H2. destruct (IH (upsert_member (g s m) s)) as (I1 & I2 & I3 & I4).
  - done.
  - done.
  - rewrite H2. simpl. by constructor.
  - split_and!; [done| |congruence|congruence]. rewrite I2, H2, fmap_cons. simpl. by rewrite Permutation_middle.
Qed.

Section roster.
Context `{Crypto, MessageCodec, AttestationCodec, ControlCodec}.
Implicit Types s : CoordinatorState.

Definition rkeeps (a : Act) : Prop := ∀ s, roster_inv s → awp a (λ s' _, roster_inv s') s.

Lemma roster_inv_same s s' :
  roster_inv s → cs_roster s' = cs_roster s → cs_pending s' = cs_pending s → cs_config s' = cs_config s →
  roster_inv s'.
Proof. intros [] Hr Hp Hc. constructor; unfold active_peers in *; by rewrite ?Hr, ?Hp, ?Hc. Qed.

(** A change of the roster that keeps its peers and makes no one healthy. *)
Lemma roster_inv_shrink s s' :
  roster_inv s → m_peer <$> cs_roster s' = m_peer <$> cs_roster s →
  healthy_peers (cs_roster s') `sublist_of` healthy_peers (cs_roster s) →
  cs_pending s' = cs_pending s → cs_config s' = cs_config s → roster_inv s'.
Proof.
  intros [] Hr Hh Hp Hc.
  assert (active_peers s' `sublist_of` active_peers s) as Hs
    by (unfold active_peers; rewrite Hp; by apply sublist_app).
  constructor; rewrite ?Hr, ?Hp, ?Hc; try done.
  - by eapply sublist_NoDup.
  - apply sublist_length in Hs. lia.
Qed.

Lemma rkeeps_then a b : rkeeps a → rkeeps b → rkeeps (a ;;; b).
Proof. intros Ha Hb s Hs. apply awp_then. eapply awp_mono; [by apply Ha|]. intros s1 o1 Hs1. by apply Hb. Qed.
Lemma rkeeps_with f : (∀ s, rkeeps (f s)) → rkeeps (with_state f).
Proof. intros Hf s Hs. by apply Hf. Qed.
Lemma rkeeps_emit (x : Output) : rkeeps (emit x).
Proof. by intros s Hs. Qed.
Lemma rkeeps_emit_all xs : rkeeps (emit_all xs).
Proof. by intros s Hs. Qed.
Lemma rkeeps_skip : rkeeps skip.
Proof. by intros s Hs. Qed.
Lemma rkeeps_upd f :
  (∀ s, cs_roster (f s) = cs_roster s ∧ cs_pending (f s) = cs_pending s ∧ cs_config (f s) = cs_config s) →
  rkeeps (upd f).
Proof. intros Hf s Hs. apply awp_upd. destruct (Hf s) as (? & ? & ?). by apply (roster_inv_same s). Qed.

Lemma rkeeps_fmap (g : CoordinatorState → Member → Member) :
  (∀ s m, m_peer (g s m) = m_peer m ∧ (is_healthy (g s m) = true → is_healthy m = true)) →
  rkeeps (upd (λ s, s <| cs_roster := g s <$> cs_roster s |>)).
Proof.
  intros Hg s Hs. apply awp_upd. apply (roster_inv_shrink s); try done; simpl.
  - rewrite <- list_fmap_compose. apply list_fmap_ext. intros i m _. simpl. apply Hg.
  - apply healthy_peers_fmap. apply Hg.
Qed.

Lemma rkeeps_member_update p f :
  (∀ s m, m_peer (f s m) = m_peer m ∧ is_healthy (f s m) = is_healthy m) →
  rkeeps (upd (λ s, member_update s p (f s))).
Proof.
  intros Hf s Hs. apply awp_upd. apply (roster_inv_shrink s); try done; simpl.
  - apply fmap_update_first. intros m. apply Hf.
  - rewrite healthy_peers_update by apply Hf. done.
Qed.
End roster.

Create HintDb roster.
#[local] Hint Resolve rkeeps_emit rkeeps_emit_all rkeeps_skip : roster.
#[local] Hint Extern 1 (rkeeps (upd _)) => apply rkeeps_upd; intros ?; try case_match; by split_and! : roster.

(** Descends through an action to its elementary parts. *)
Ltac rkeeps_steps :=
  lazymatch goal with
  | |- rkeeps (and_then _ _) => apply rkeeps_then; rkeeps_steps
  | |- rkeeps (with_state _) => apply rkeeps_with; intros ?; cbv beta zeta; rkeeps_steps
  | |- rkeeps (match ?x with _ => _ end) => destruct x; rkeeps_steps
  | |- _ => try solve [auto 2 with roster]
  end.

Section roster_ops.
Context `{Crypto, MessageCodec, AttestationCodec, ControlCodec}.
Implicit Types s : CoordinatorState.

Lemma rkeeps_change_phase to : rkeeps (change_phase to).
Proof. unfold change_phase. rkeeps_steps. Qed.

Lemma rkeeps_open_round : rkeeps open_round.
Proof. unfold open_round. apply rkeeps_with. intros s. cbv zeta. rkeeps_steps. Qed.
#[local] Hint Resolve rkeeps_change_phase rkeeps_open_round : roster.

Lemma account_member_spec config round present m :
  m_peer (account_member config round present m).1 = m_peer m ∧
  (is_healthy (account_member config round present m).1 = true → is_healthy m = true).
Proof.
  unfold account_member. destruct (is_healthy m) eqn:E; simpl; [|by rewrite E].
  repeat case_match; simpl; done.
Qed.

Lemma rkeeps_finalize_round : rkeeps finalize_round.
Proof.
  unfold finalize_round. apply rkeeps_with. intros s. cbv zeta. case_match; [|rkeeps_steps].
  apply rkeeps_then; [|rkeeps_steps].
  apply (rkeeps_fmap (λ _ m, (account_member _ _ _ m).1)). intros _ m. apply account_member_spec.
Qed.
#[local] Hint Resolve rkeeps_finalize_round : roster.

Lemma rkeeps_maybe_advance : rkeeps maybe_advance.
Proof. unfold maybe_advance, maybe_finalize. rkeeps_steps. Qed.

Lemma rkeeps_enter_warmup : rkeeps enter_warmup.
Proof.
  unfold enter_warmup. apply rkeeps_then; [|rkeeps_steps].
  apply (rkeeps_fmap (λ _ m, m <| m_warmup_ready := false |>)). by intros _ [].
Qed.

Lemma rkeeps_decay : rkeeps decay_stale_members.
Proof.
  unfold decay_stale_members. apply rkeeps_with. intros s. cbv zeta. case_match; [rkeeps_steps|].
  case_match; [rkeeps_steps|]. apply rkeeps_then; [|rkeeps_steps].
  apply (rkeeps_fmap (λ _ m, (decay_member _ _ _ m).1)). intros _ m. unfold decay_member.
  case_match; simpl; done.
Qed.

Lemma rkeeps_exit_cooldown : rkeeps exit_cooldown.
Proof.
  unfold exit_cooldown. apply rkeeps_with. intros s0. case_match; [rkeeps_steps|].
  apply rkeeps_then; [rkeeps_steps|]. apply rkeeps_then; [|rkeeps_steps].
  intros s [Hn Ha Hp Hc]. apply awp_upd.
  destruct (fold_upsert_spec (λ s m, m <| m_joined_epoch := cs_epoch s |>) (cs_pending s) (s <| cs_pending := [] |>))
    as (H5 & H6 & H7 & H8); [by intros ? []|done|done|done|].
  constructor; unfold active_peers; rewrite ?H7, ?H8; simpl; rewrite ?app_nil_r, ?H6; try done.
Qed.
#[local] Hint Resolve rkeeps_maybe_advance rkeeps_enter_warmup rkeeps_decay rkeeps_exit_cooldown : roster.

Lemma rkeeps_replay_forward : rkeeps replay_forward.
Proof. intros s Hs. unfold awp. by rewrite replay_forward_eq. Qed.
#[local] Hint Resolve rkeeps_replay_forward : roster.

(** ** Admission *)

Lemma active_dup_iff s peer :
  existsb (λ m, (m_peer m =? peer) && is_healthy m) (cs_roster s) || existsb (λ m, m_peer m =? peer) (cs_pending s) = true
  ↔ peer ∈ active_peers s.
Proof.
  unfold active_peers, healthy_peers. rewrite orb_true_iff, !existsb_exists, elem_of_app, !list_elem_of_fmap.
  setoid_rewrite list_elem_of_In. setoid_rewrite filter_In. setoid_rewrite andb_true_iff.
  setoid_rewrite N.eqb_eq. naive_solver.
Qed.

Lemma occupancy_active s : occupancy (cs_roster s) (cs_pending s) = N.of_nat (length (active_peers s)).
Proof. unfold occupancy, active_peers, healthy_peers. by rewrite length_app, !length_fmap. Qed.

Lemma check_capabilities_ok advertised required :
  check_capabilities advertised required = Ok tt ↔ required ⊆ advertised.
Proof.
  rewrite <- admits_subset. unfold check_capabilities, admits. by destruct (missing advertised required).
Qed.

(** The conditions of admission. *)
Definition may_join s (peer : PeerId) (version : VhcProtoVersion) (j : Join) : Prop :=
  jn_run_id j = rc_run_id (cs_config s) ∧ version = rc_proto_version (cs_config s) ∧
  (∀ h, jn_envelope_hash j = Some h → h = rc_envelope_hash (cs_config s)) ∧
  rc_required_capabilities (cs_config s) ⊆ jn_capabilities j ∧
  is_halted (cs_phase s) = false ∧ peer ∉ active_peers s ∧
  N.of_nat (length (active_peers s)) < rc_max_peers (cs_config s).

Lemma coordinator_admit_ok s peer version j :
  coordinator_admit (cs_config s) (cs_phase s) (cs_roster s) (cs_pending s)
    (mkJoinCandidate peer version j (jn_envelope_hash j)) = Ok tt ↔ may_join s peer version j.
Proof.
  unfold coordinator_admit, may_join. cbn [jc_join jc_version jc_asserted_hash jc_peer]. rewrite occupancy_active.
  destruct (String.eqb_spec (jn_run_id j) (rc_run_id (cs_config s))) as [E1|E1]; cbn [negb]; [|naive_solver].
  destruct (bool_decide_reflect (version = rc_proto_version (cs_config s))) as [E2|E2]; cbn [negb]; [|naive_solver].
  assert ((match jn_envelope_hash j with Some h => negb (h =? rc_envelope_hash (cs_config s)) | None => false end) = false
    ↔ ∀ h, jn_envelope_hash j = Some h → h = rc_envelope_hash (cs_config s)) as E3.
  { destruct (jn_envelope_hash j) as [h|]; [|naive_solver]. rewrite negb_false_iff, N.eqb_eq. naive_solver. }
  destruct (match jn_envelope_hash j with Some h => _ | None => _ end); [naive_solver|].
  pose proof (check_capabilities_ok (jn_capabilities j) (rc_required_capabilities (cs_config s))) as E4.
  destruct (check_capabilities _ _) as [[]|e]; [|naive_solver].
  destruct (is_halted (cs_phase s)); [naive_solver|]. pose proof (active_dup_iff s peer) as E5.
  destruct (existsb _ (cs_roster s) || existsb _ (cs_pending s)); [naive_solver|].
  destruct (N.leb_spec (rc_max_peers (cs_config s)) (N.of_nat (length (active_peers s)))); [naive_solver lia|].
  split; [|done]. intros _. split_and!; try done; [by apply E3|by apply E4|naive_solver].
Qed.

Lemma coordinator_admit_duplicate s peer version j :
  coordinator_admit (cs_config s) (cs_phase s) (cs_roster s) (cs_pending s)
    (mkJoinCandidate peer version j (jn_envelope_hash j)) = Err DuplicatePeer → peer ∈ active_peers s.
Proof.
  unfold coordinator_admit. cbn [jc_join jc_version jc_asserted_hash jc_peer].
  pose proof (active_dup_iff s peer) as E5. unfold check_capabilities.
  repeat case_match; naive_solver.
Qed.

(** The state after an accepted join. *)
Definition joined s (signer : PeerId) (j : Join) : CoordinatorState :=
  let m := (Member_joining signer (jn_iroh_id j) (jn_class j) (cs_epoch s)) <| m_last_seen_s := cs_now_s s |> in
  match cs_phase s with
  | WaitingForMembers | Warmup => upsert_member m s
  | _ => s <| cs_pending := cs_pending s ++ [m] |>
  end.

Lemma joined_active s signer j :
  roster_inv s → signer ∉ active_peers s → N.of_nat (length (active_peers s)) < rc_max_peers (cs_config s) →
  roster_inv (joined s signer j) ∧ active_peers (joined s signer j) ≡ₚ signer :: active_peers s.
Proof.
  intros [Hn Ha Hp Hc] Hnot Hcap. unfold joined. cbv zeta. set (m := _ <| m_last_seen_s := _ |>).
  enough ((roster_inv (upsert_member m s) ∧ active_peers (upsert_member m s) ≡ₚ signer :: active_peers s) ∧
    roster_inv (s <| cs_pending := cs_pending s ++ [m] |>) ∧
    active_peers (s <| cs_pending := cs_pending s ++ [m] |>) ≡ₚ signer :: active_peers s) as [Hu Hq]
    by by destruct (cs_phase s).
  split.
  - destruct (upsert_member_spec m s) as (I1 & I2 & I3 & I4); [done|done|unfold active_peers in Hnot; set_solver|].
    assert (active_peers (upsert_member m s) ≡ₚ signer :: active_peers s) as I5
      by (unfold active_peers; by rewrite I2, I3).
    split; [|done]. constructor; [done|rewrite I5; by constructor|by rewrite I3|rewrite I4, I5; simpl; lia].
  - assert (active_peers (s <| cs_pending := cs_pending s ++ [m] |>) ≡ₚ signer :: active_peers s) as I5.
    { unfold active_peers. simpl. rewrite fmap_app, app_assoc. simpl. by rewrite Permutation_app_comm. }
    split; [|done]. constructor; [done|rewrite I5; by constructor| |rewrite I5; simpl; lia].
    simpl. apply Forall_app. by repeat constructor.
Qed.

Lemma on_join_eq signer version j s :
  on_join signer version j s =
    match coordinator_admit (cs_config s) (cs_phase s) (cs_roster s) (cs_pending s)
            (mkJoinCandidate signer version j (jn_envelope_hash j)) with
    | Err DuplicatePeer => (s, Note (JoinAdmitted signer) :: (replay_forward s).2)
    | Err reason => (s, [Reject (Admission reason)])
    | Ok _ => (joined s signer j, Note (JoinAdmitted signer) :: (replay_forward (joined s signer j)).2)
    end.
Proof.
  unfold on_join, with_state, and_then, upd, emit. cbv zeta beta. unfold joined.
  destruct (coordinator_admit _ _ _ _ _) as [u|e]; [|destruct e]; try done; by rewrite replay_forward_eq.
Qed.

Lemma rkeeps_on_join signer version j : rkeeps (on_join signer version j).
Proof.
  intros s Hs. unfold awp. rewrite on_join_eq.
  destruct (coordinator_admit _ _ _ _ _) as [[]|e] eqn:Ea; [|by destruct e].
  apply (coordinator_admit_ok s) in Ea as (_ & _ & _ & _ & _ & Hnot & Hcap). simpl. by apply joined_active.
Qed.
#[local] Hint Resolve rkeeps_on_join : roster.

Lemma rkeeps_tick s input : roster_inv s → roster_inv (tick s input).1.
Proof.
  intros Hs. assert (∀ a, rkeeps a → roster_inv (a s).1) as Hk by (intros a Ha; by apply Ha).
  destruct input as [now|sm|req]; simpl tick; apply Hk.
  - unfold on_clock, drive_time, open_epoch_first_round, maybe_finalize. rkeeps_steps.
  - unfold on_message. apply rkeeps_with. intros s0. repeat (case_match; [by auto with roster|]).
    unfold dispatch_payload. apply rkeeps_then.
    { apply (rkeeps_member_update (sm_signer sm) (λ s m, m <| m_last_seen_s := cs_now_s s |>)). by intros ? []. }
    unfold on_commitment, on_attestation, on_receipt, on_digest, on_checkpoint_attestation, round_evidence, update_slot.
    destruct (sm_payload sm) as [| | | | | |sg| |h| |]; rkeeps_steps.
    + apply (rkeeps_member_update _ (λ _ m, m <| m_last_straggle_round := Some (sg_round sg) |>)). by intros ? [].
    + unfold on_heartbeat, maybe_exit_warmup, open_epoch_first_round. rkeeps_steps.
      apply (rkeeps_member_update _ (λ _ m,
        let m := if m_last_seen_round m <? hb_round h then m <| m_last_seen_round := hb_round h |> else m in
        if bool_decide (hb_ready h = Some true) then m <| m_warmup_ready := true |> else m)).
      intros ? m. cbv zeta. by repeat case_match.
  - unfold on_control. rkeeps_steps.
Qed.

Lemma reachable_roster cfg seed0 now0 n s outs : reachable cfg seed0 now0 n s outs → roster_inv s.
Proof.
  induction 1 as [|n s outs input s' o Hr IH Ht].
  - constructor; simpl; try constructor; lia.
  - pose proof (rkeeps_tick s input IH) as Hk. by rewrite Ht in Hk.
Qed.

(** C37. In every reachable state a peer has at most one roster entry, is active
    (healthy, or staged for the next epoch) at most once, and the active peers
    are at most [max_peers]. *)
Theorem roster_bounded cfg seed0 now0 n s outs :
  reachable cfg seed0 now0 n s outs → n < u64_bound →
  NoDup (m_peer <$> cs_roster s) ∧ NoDup (active_peers s) ∧
  N.of_nat (length (active_peers s)) ≤ rc_max_peers cfg.
Proof.
  intros Hr Hn. destruct (reachable_roster _ _ _ _ _ _ Hr).
  destruct (reachable_inv _ _ _ _ _ _ Hr Hn) as [[Hl _] _]. by rewrite (li_config _ _ _ _ Hl) in *.
Qed.

(** What a join does in a reachable state: if the conditions of admission
    hold the peer becomes active and no one else changes; a peer that is active
    already keeps its entry and is sent the replay; every other join is refused
    with its reason and changes nothing. *)
Theorem join_effect cfg seed0 now0 n s outs peer version j :
  reachable cfg seed0 now0 n s outs →
  let '(s', o) := on_join peer version j s in
  (may_join s peer version j ∧ active_peers s' ≡ₚ peer :: active_peers s ∧
     o = Note (JoinAdmitted peer) :: (replay_forward s').2) ∨
  (¬ may_join s peer version j ∧ s' = s ∧ peer ∈ active_peers s ∧
     o = Note (JoinAdmitted peer) :: (replay_forward s).2) ∨
  (¬ may_join s peer version j ∧ s' = s ∧ ∃ reason, reason ≠ DuplicatePeer ∧ o = [Reject (Admission reason)]).
Proof.
  intros Hr. apply reachable_roster in Hr. rewrite on_join_eq.
  pose proof (coordinator_admit_ok s peer version j) as Hok.
  pose proof (coordinator_admit_duplicate s peer version j) as Hdup.
  destruct (coordinator_admit _ _ _ _ _) as [[]|e].
  - left. assert (may_join s peer version j) as Hm by by apply Hok. split; [done|]. split; [|done].
    destruct Hm as (_ & _ & _ & _ & _ & Hnot & Hcap). by apply joined_active.
  - assert (¬ may_join s peer version j) as Hm by (intros Hm; by apply Hok in Hm).
    destruct e; right; first
      [ left; split_and!; [done|done|by apply Hdup|done]
      | right; split; [done|]; split; [done|]; eexists; split; [|reflexivity]; discriminate ].
Qed.
End roster_ops.

Lemma roster_bounded_witness : N.of_nat (length (active_peers toy_run.1)) ≤ 3.
Proof.
  apply (@roster_bounded toy_crypto toy_message_codec toy_attestation_codec toy_control_codec
    toy_config 5 1000 8 toy_run.1 toy_run.2 toy_run_reachable). by vm_compute.
Defined.

Lemma join_effect_witness :
  (on_join 4 VHC_PROTO_VERSION (mkJoin "run" 4 C1 ∅ None) toy_run.1).2 = [Reject (Admission RosterFull)] ∧
  (on_join 4 VHC_PROTO_VERSION (mkJoin "run" 4 C1 ∅ None) toy_run.1).1 = toy_run.1.
Proof.
  split; [by vm_compute|].
  pose proof (@join_effect toy_crypto toy_message_codec toy_attestation_codec toy_control_codec
    toy_config 5 1000 8 toy_run.1 toy_run.2 4 VHC_PROTO_VERSION (mkJoin "run" 4 C1 ∅ None) toy_run_reachable) as Hj.
  destruct (on_join 4 VHC_PROTO_VERSION (mkJoin "run" 4 C1 ∅ None) toy_run.1) as [s' o] eqn:E.
  destruct Hj as [[Hm _]|[(_ & -> & _)|(_ & -> & _)]]; [|done|done].
  exfalso. destruct Hm as (_ & _ & _ & _ & _ & _ & Hcap). revert Hcap. by vm_compute.
Defined.
