(* ===== verification/VhcCoordLive.v ===== *)
(** * Halting and progress of the coordinator

    A halted run ignores everything but an authorised resume; the two entry points
    decide alike; and the clock alone drives a run with enough members to its
    end. *)

From S2P Require Import Prelude Text VhcProto VhcMerkle VhcMessages VhcAuthority VhcAssignment VhcAttestation VhcState VhcCommit VhcCoordinator VhcCoordLog VhcCoordRoster.

#[local] Open Scope N_scope.
#[local] Open Scope daemon_scope.

Section live.
Context `{Crypto, MessageCodec, AttestationCodec, ControlCodec}.
Implicit Types s : CoordinatorState.

(** ** The two entry points *)

(** The host-authenticated entry point takes exactly the decisions of the
    signed one on every message whose signature verifies. *)
Theorem tick_authenticated_equiv s sm token :
  SignedMessage_verify sm = Ok tt →
  tick_authenticated s (sm_signer sm) (sm_version sm) (sm_payload sm) token = tick s (IMessage sm).
Proof.
  intros Hv. unfold tick_authenticated. simpl. unfold on_message, with_state. rewrite Hv. simpl.
  by repeat case_match.
Qed.

(** ** Halted runs *)

(** The one input that a paused run acts on. *)
Definition resumes s (input : Input) : Prop :=
  ∃ req, input = IControl req ∧ Signed_verify req = Ok tt ∧
    cr_run_id (sgn_body req) = rc_run_id (cs_config s) ∧ sgn_signer req ∈ rc_authorized (cs_config s) ∧
    cr_action (sgn_body req) = Resume ∧ cs_phase s = Paused.

Lemma halted_step s input :
  is_halted (cs_phase s) = true →
  (resumes s input ∧ cs_phase (tick s input).1 = WaitingForMembers) ∨
  (¬ resumes s input ∧ ∃ now r, tick s input = (s <| cs_now_s := now |>, [Reject r])).
Proof.
  intros Hh. assert (∀ r, ∃ now r', (s, [Reject r]) = (s <| cs_now_s := now |>, [Reject r'])) as Hsame
    by (intros r; exists (cs_now_s s), r; by destruct s).
  destruct input as [now|sm|req].
  - right. split; [by intros (? & ? & _)|]. simpl. unfold on_clock, and_then, upd, with_state, emit.
    destruct (cs_now_s s <? now); simpl; rewrite Hh; [by exists now, (Halted (cs_phase s))|apply Hsame].
  - right. split; [by intros (? & ? & _)|]. simpl. unfold on_message, with_state, emit.
    repeat case_match; try apply Hsame; congruence.
  - simpl. unfold on_control, with_state, emit. destruct (Signed_verify req) as [[]|] eqn:Ev; simpl.
    2: { right. split; [intros (? & [= <-] & ? & _); congruence|apply Hsame]. }
    destruct (String.eqb_spec (cr_run_id (sgn_body req)) (rc_run_id (cs_config s))) as [Er|Er]; simpl.
    2: { right. split; [intros (? & [= <-] & _ & ? & _); congruence|apply Hsame]. }
    case_bool_decide as Ea; simpl.
    2: { right. split; [intros (? & [= <-] & _ & _ & ? & _); done|apply Hsame]. }
    destruct (cr_action (sgn_body req)) eqn:Ec; simpl; [rewrite Hh|].
    { right. split; [intros (? & [= <-] & _ & _ & _ & ? & _); congruence|apply Hsame]. }
    case_bool_decide as Ep; simpl.
    + left. split; [by exists req|done].
    + right. split; [intros (? & [= <-] & _ & _ & _ & _ & ?); done|apply Hsame].
Qed.

Lemma resumes_clock s now input : resumes (s <| cs_now_s := now |>) input ↔ resumes s input.
Proof. done. Qed.

(** In a halted phase, whatever inputs arrive, each is answered with one
    rejection and nothing but the clock changes, until an authorised principal
    resumes a paused run, which returns it to waiting for members; a finished run
    is never left. *)
Theorem halted_inert s inputs :
  is_halted (cs_phase s) = true →
  (Forall (λ i, ¬ resumes s i) inputs →
    ∃ now rs, ticks tick s inputs = (s <| cs_now_s := now |>, Reject <$> rs) ∧ length rs = length inputs) ∧
  (∀ i, resumes s i → cs_phase s = Paused ∧ cs_phase (tick s i).1 = WaitingForMembers).
Proof.
  intros Hh. split.
  - revert s Hh. induction inputs as [|i inputs IH]; intros s Hh Hi; simpl.
    { exists (cs_now_s s), []. by destruct s. }
    apply Forall_cons in Hi as [Hi His]. destruct (halted_step s i Hh) as [[? _]|(_ & now & r & ->)]; [done|].
    destruct (IH (s <| cs_now_s := now |>)) as (now' & rs & -> & Hl); [done|done|].
    exists now', (r :: rs). simpl. by rewrite Hl.
  - intros i Hi. pose proof Hi as (req & _ & _ & _ & _ & _ & Hp). split; [done|].
    by destruct (halted_step s i Hh) as [[_ ?]|[? _]].
Qed.

(** ** Progress *)

(** What the clock may change of who is there. *)
Definition calm s s' : Prop :=
  cs_config s' = cs_config s ∧ cs_now_s s' = cs_now_s s ∧
  (length (healthy_peers (cs_roster s)) ≤ length (healthy_peers (cs_roster s')))%nat.

(** [s'] is in phase [to] since now, with [done] rounds. *)
Definition entered s (to : Phase) (done : N) s' : Prop :=
  calm s s' ∧ cs_phase s' = to ∧ cs_phase_start_s s' = cs_now_s s ∧ cs_rounds_done s' = done.

Lemma calm_trans s1 s2 s3 : calm s1 s2 → calm s2 s3 → calm s1 s3.
Proof. intros (H3 & H4 & H5) (H6 & H7 & H8). split_and!; [congruence|congruence|lia]. Qed.

Lemma change_phase_entered to s : awp (change_phase to) (λ s' _, entered s to (cs_rounds_done s) s') s.
Proof. unfold change_phase. awp_steps. by split_and!. Qed.

Lemma open_round_entered s : awp open_round (λ s' _, entered s RoundTrain (cs_rounds_done s) s') s.
Proof. unfold open_round. awp_steps. by split_and!. Qed.

Lemma healthy_peers_same g l :
  (∀ m, m_peer (g m) = m_peer m ∧ is_healthy (g m) = is_healthy m) → healthy_peers (g <$> l) = healthy_peers l.
Proof.
  intros Hg. induction l as [|m l IH]; [done|]. rewrite fmap_cons, !healthy_peers_cons, IH.
  by destruct (Hg m) as [-> ->].
Qed.

(** Without absence dropping nobody leaves. *)
Lemma account_keeps_health config round present l :
  rc_k_absences config = 0 →
  healthy_peers ((λ m, (account_member config round present m).1) <$> l) = healthy_peers l.
Proof.
  intros Hk. apply healthy_peers_same. intros m. unfold account_member. rewrite Hk. simpl. by repeat case_match.
Qed.

Lemma finalize_round_entered s outs cfg seed0 R :
  log_inv cfg seed0 s outs → is_round_active (cs_phase s) = true →
  rc_k_absences (cs_config s) = 0 → rc_stop (cs_config s) = StopRounds R →
  awp finalize_round (λ s' _,
    let done := cs_rounds_done s +₆₄ 1 in
    entered s Cooldown done s' ∨ (entered s RoundTrain done s' ∧ done < R)) s.
Proof.
  intros [_ Hact] Hp Hk HR. destruct (Hact Hp) as (slot & Hslot & _).
  unfold finalize_round. apply awp_with. cbv beta zeta. rewrite Hslot.
  repeat (lazymatch goal with |- awp (with_state _) _ _ => fail | _ => awp_step end; cbv beta iota).
  match goal with |- awp _ _ ?s1 => set (s' := s1) end.
  assert (calm s s') as Hc by (split_and!; [done|done|]; unfold s'; simpl; by rewrite account_keeps_health).
  assert (cs_rounds_done s' = cs_rounds_done s +₆₄ 1) as Hd by done.
  assert (cs_now_s s' = cs_now_s s) as Hn by done. clearbody s'.
  assert (∀ to s'', entered s' to (cs_rounds_done s') s'' → entered s to (cs_rounds_done s +₆₄ 1) s'') as Htr.
  { intros to s'' (Hc' & ? & ? & ?). split_and!; [by eapply calm_trans|done|congruence|congruence]. }
  apply awp_with. cbv beta zeta. destruct (stop_reached s') eqn:Es.
  - eapply awp_mono; [apply change_phase_entered|]. cbv beta zeta. auto.
  - case_match; (eapply awp_mono; [first [apply change_phase_entered|apply open_round_entered]|]); cbv beta zeta; [by auto|].
    intros s'' o He. right. split; [by apply Htr|]. destruct Hc as (Hcf & _). unfold stop_reached in Es.
    rewrite Hcf, HR in Es. apply N.leb_gt in Es. by rewrite <- Hd.
Qed.

Lemma exit_cooldown_entered s R :
  roster_inv s → rc_stop (cs_config s) = StopRounds R →
  awp exit_cooldown (λ s' _,
    entered s (if R <=? cs_rounds_done s then FinishedPhase else WaitingForMembers) (cs_rounds_done s) s') s.
Proof.
  intros [Hn Ha Hp _] HR. unfold exit_cooldown. apply awp_with. unfold stop_reached. rewrite HR.
  destruct (R <=? cs_rounds_done s); [unfold change_phase; awp_steps; by split_and!|].
  apply awp_then, awp_upd, awp_then, awp_upd.
  match goal with |- awp _ _ ?s1 => set (s' := s1) end.
  assert (calm s s' ∧ cs_rounds_done s' = cs_rounds_done s) as [Hc Hd].
  { destruct (fold_upsert_spec (λ s m, m <| m_joined_epoch := cs_epoch s |>) (cs_pending s)
      ((s <| cs_epoch := cs_epoch s +₆₄ 1 |>) <| cs_pending := [] |>)) as (_ & Hh & _ & Hcf); [by intros ? []|done|done|done|].
    assert (∀ (g : CoordinatorState → Member → Member) ms s0,
      let s1 := fold_left (λ s m, upsert_member (g s m) s) ms s0 in
      cs_now_s s1 = cs_now_s s0 ∧ cs_rounds_done s1 = cs_rounds_done s0) as Hf.
    { intros g ms. induction ms as [|m ms IH]; intros s0; [done|]. cbn [fold_left].
      destruct (IH (upsert_member (g s0 m) s0)) as [-> ->]. unfold upsert_member. by case_match. }
    destruct (Hf (λ s m, m <| m_joined_epoch := cs_epoch s |>) (cs_pending s)
      ((s <| cs_epoch := cs_epoch s +₆₄ 1 |>) <| cs_pending := [] |>)) as [Hnow Hrd].
    split; [|exact Hrd]. split_and!; [exact Hcf|exact Hnow|]. unfold s'.
    apply Permutation_length in Hh. rewrite length_app in Hh. simpl cs_roster in Hh at 2.
    etransitivity; [|apply Nat.eq_le_incl; symmetry; exact Hh]. simpl. lia. }
  clearbody s'. eapply awp_mono; [apply change_phase_entered|]. cbv beta zeta.
  intros s'' o (Hc' & ? & ? & ?). split_and!; [by eapply calm_trans|done| |congruence].
  destruct Hc as (_ & ? & _). congruence.
Qed.

(** Longer than any phase of a configuration lasts. *)
Definition patience (cfg : RunConfig) : N :=
  rc_warmup_s cfg + rc_round_train_max_s cfg + rc_round_witness_s cfg + rc_cooldown_s cfg.

(** A run that only needs time: enough members, and none leaves for absence. *)
Record live (cfg : RunConfig) (R : N) s : Prop := mkLive {
  lv_config : cs_config s = cfg;
  lv_absences : rc_k_absences cfg = 0;
  lv_stop : rc_stop cfg = StopRounds R;
  lv_members : rc_min_peers cfg ≤ N.of_nat (length (healthy_peers (cs_roster s)));
  lv_max : rc_max_peers cfg < u32_bound;
  lv_roster : roster_inv s
}.

(** How much is left to do. *)
Definition remaining (R : N) s : N :=
  6 * (R - cs_rounds_done s) +
  match cs_phase s with
  | Cooldown => if R <=? cs_rounds_done s then 1 else 6
  | WaitingForMembers => 5
  | Warmup => 4
  | RoundTrain => 3
  | RoundWitness => 2
  | _ => 0
  end.

Lemma healthy_count_live cfg R s : live cfg R s → rc_min_peers cfg ≤ healthy_count s.
Proof.
  intros []. unfold healthy_count, healthy.
  assert (length (List.filter is_healthy (cs_roster s)) = length (healthy_peers (cs_roster s))) as ->
    by (unfold healthy_peers; by rewrite length_fmap).
  rewrite wrap32_small; [done|]. destruct lv_roster0. unfold active_peers in ri_capacity.
  rewrite length_app in ri_capacity. rewrite lv_config0 in ri_capacity. lia.
Qed.

Lemma elapsed_after s secs cfg :
  cs_phase_start_s s + patience cfg ≤ cs_now_s s → cs_now_s s < u64_bound → secs ≤ patience cfg →
  elapsed s secs = true.
Proof. intros Hp Hn Hs. unfold elapsed. rewrite wrap64_small by lia. apply N.leb_le. lia. Qed.

(** Entering [to] with [done] rounds leaves less to do. *)
Definition advances cfg (R : N) s s' : Prop :=
  cs_config s' = cfg ∧ cs_now_s s' = cs_now_s s ∧ cs_phase_start_s s' = cs_now_s s ∧
  (length (healthy_peers (cs_roster s)) ≤ length (healthy_peers (cs_roster s')))%nat ∧
  (is_halted (cs_phase s') = true → cs_phase s' = FinishedPhase) ∧
  cs_rounds_done s' ≤ cs_rounds_done s + 1 ∧
  remaining R s' < remaining R s.

Lemma drive_time_advances cfg seed0 outs R s :
  log_inv cfg seed0 s outs → live cfg R s → is_halted (cs_phase s) = false →
  cs_phase_start_s s + patience cfg ≤ cs_now_s s → cs_now_s s < u64_bound → cs_rounds_done s + 1 < u64_bound →
  awp drive_time (λ s' _, advances cfg R s s') s.
Proof.
  intros Hinv Hlive Hh Hp Hn Hd. pose proof Hlive as [Hcfg Hk HR Hm Hmax Hro].
  pose proof (healthy_count_live cfg R s Hlive) as Hhc.
  assert (∀ to s', entered s to (cs_rounds_done s) s' → is_halted to = false →
    remaining R s' < remaining R s → advances cfg R s s') as Hent.
  { intros to s' ((? & ? & ?) & Hph & ? & ?) Hto Hrem. split_and!; try done; [congruence|congruence|lia]. }
  assert (∀ s', (entered s Cooldown (cs_rounds_done s + 1) s' ∨
      (entered s RoundTrain (cs_rounds_done s + 1) s' ∧ cs_rounds_done s + 1 < R)) →
    2 ≤ remaining R s - 6 * (R - cs_rounds_done s) → advances cfg R s s') as Hfin.
  { intros s' He Hrank. unfold advances, remaining in *.
    destruct He as [((? & ? & ?) & -> & ? & ->)|[((? & ? & ?) & -> & ? & ->) ?]]; split_and!; try done; try congruence; try lia.
    destruct (N.leb_spec R (cs_rounds_done s + 1)); lia. }
  unfold drive_time. apply awp_with. cbv zeta. rewrite Hcfg. destruct (cs_phase s) eqn:Ep; try done.
  - apply awp_then. unfold decay_stale_members. apply awp_with. rewrite Hcfg, Hk. apply awp_skip, awp_with.
    rewrite Hcfg, (proj2 (N.leb_le _ _) Hhc). unfold enter_warmup. apply awp_then, awp_upd.
    eapply awp_mono; [apply change_phase_entered|]. intros s' o (Hc & He). apply (Hent Warmup); [|done|].
    + split; [|done]. destruct Hc as (? & ? & Hl). split_and!; [done|done|].
      simpl in Hl. by rewrite healthy_peers_same in Hl by by intros [].
    + unfold remaining. destruct He as (-> & _ & ->). rewrite Ep. simpl. lia.
  - rewrite (proj2 (N.ltb_ge _ _) Hhc). rewrite (elapsed_after s _ cfg) by (unfold patience in *; lia).
    rewrite orb_true_r. unfold open_epoch_first_round. apply awp_then, awp_upd.
    eapply awp_mono; [apply open_round_entered|]. intros s' o He. apply (Hent RoundTrain); [exact He|done|].
    unfold remaining. destruct He as (_ & -> & _ & ->). rewrite Ep. simpl. lia.
  - rewrite (elapsed_after s _ cfg) by (unfold patience in *; lia). rewrite orb_true_r.
    apply awp_then. eapply awp_mono.
    { apply awp_and; [apply (change_phase_entered RoundWitness)|].
      apply (change_phase_inv cfg seed0 RoundWitness s outs Hinv). by rewrite Ep. }
    intros s1 o1 [He [Hinv1 _]]. pose proof He as ((Hc1 & Hn1 & Hl1) & Hp1 & Hs1 & Hd1).
    unfold maybe_finalize. apply awp_with. rewrite Hp1, bool_decide_eq_true_2 by done. simpl andb.
    destruct (slot_is all_evidenced s1).
    + eapply awp_mono; [eapply (finalize_round_entered s1 _ cfg seed0 R); [done|by rewrite Hp1|congruence|congruence]|].
      cbv zeta. rewrite Hd1, wrap64_small by done. intros s' o Hf. apply Hfin; [|unfold remaining; rewrite Ep; lia].
      assert (∀ to, entered s1 to (cs_rounds_done s + 1) s' → entered s to (cs_rounds_done s + 1) s') as Htr.
      { intros to (Hc & ? & ? & ?). split_and!; [by eapply calm_trans; [exact (proj1 He)|]|done|congruence|done]. }
      destruct Hf as [Hf|[Hf ?]]; auto.
    + apply awp_skip. apply (Hent RoundWitness); [done|done|].
      unfold remaining. rewrite Hp1, Hd1, Ep. lia.
  - rewrite (elapsed_after s _ cfg) by (unfold patience in *; lia). rewrite orb_true_r.
    eapply awp_mono; [eapply (finalize_round_entered s outs cfg seed0 R); [done|by rewrite Ep|congruence|congruence]|].
    cbv zeta. rewrite wrap64_small by done. intros s' o Hf. apply Hfin; [done|]. unfold remaining. rewrite Ep. lia.
  - rewrite (elapsed_after s _ cfg) by (unfold patience in *; lia).
    eapply awp_mono; [apply (exit_cooldown_entered s R); [done|congruence]|].
    intros s' o ((? & ? & ?) & Hph & ? & Hrd). unfold advances, remaining. rewrite Hph, Hrd, Ep.
    destruct (R <=? cs_rounds_done s); split_and!; try done; try congruence; lia.
Qed.

(** [n] readings of the clock, each patient. *)
Fixpoint patient_clocks (cfg : RunConfig) (now : N) (n : nat) : list Input :=
  match n with
  | O => []
  | S n' => IClock (now + patience cfg) :: patient_clocks cfg (now + patience cfg) n'
  end.

(** One patient reading of the clock. *)
Lemma clock_advances cfg seed0 outs R s t :
  log_inv cfg seed0 s outs → live cfg R s → is_halted (cs_phase s) = false →
  cs_phase_start_s s + patience cfg ≤ t → cs_now_s s ≤ t → t < u64_bound → cs_rounds_done s + 1 < u64_bound →
  advances cfg R (s <| cs_now_s := t |>) (tick s (IClock t)).1.
Proof.
  intros Hinv Hlive Hh Hp Hn Ht Hd. change (awp (on_clock t) (λ s' _, advances cfg R (s <| cs_now_s := t |>) s') s).
  unfold on_clock. apply awp_then, awp_upd.
  replace (if cs_now_s s <? t then s <| cs_now_s := t |> else s) with (s <| cs_now_s := t |>).
  2: { destruct (N.ltb_spec (cs_now_s s) t); [done|]. replace t with (cs_now_s s) by lia. by destruct s. }
  apply awp_with. simpl. rewrite Hh. apply (drive_time_advances cfg seed0 outs); try done.
  - rewrite <- (app_nil_r outs). by apply (log_inv_quiet cfg seed0 s).
  - destruct Hlive. constructor; try done. by apply (roster_inv_same s).
Qed.

Lemma remaining_pos R s : is_halted (cs_phase s) = false → 0 < remaining R s.
Proof. intros Hh. unfold remaining. destruct (cs_phase s); try done; [lia..|]. case_match; lia. Qed.

Lemma patient_run cfg seed0 R (m : nat) : ∀ now0 n s outs start,
  reachable cfg seed0 now0 n s outs → live cfg R s → is_halted (cs_phase s) = false →
  cs_now_s s ≤ start → cs_phase_start_s s ≤ start → remaining R s ≤ N.of_nat m →
  n + N.of_nat m < u64_bound → start + N.of_nat m * patience cfg < u64_bound →
  ∃ k, (k ≤ m)%nat ∧ cs_phase (ticks tick s (patient_clocks cfg start k)).1 = FinishedPhase.
Proof.
  induction m as [|m IH]; intros now0 n s outs start Hr Hlive Hh Hnow Hst Hm Hn Ht.
  { pose proof (remaining_pos R s Hh). lia. }
  destruct (reachable_inv _ _ _ _ _ _ Hr) as [Hinv Hround]; [lia|].
  pose proof (li_done _ _ _ _ (proj1 Hinv)) as Hdone.
  pose proof (clock_advances cfg seed0 outs R s (start + patience cfg) Hinv Hlive Hh) as Hadv.
  destruct Hadv as (Hc' & Hn' & Hs' & Hl' & Hh' & Hd' & Hrem); [lia..|].
  destruct (tick s (IClock (start + patience cfg))) as [s1 o1] eqn:Et. simpl in Hc', Hn', Hs', Hl', Hh', Hd'.
  cbn [fst] in Hrem. change (remaining R (s <| cs_now_s := start + patience cfg |>)) with (remaining R s) in Hrem.
  assert (reachable cfg seed0 now0 (n + 1) s1 (outs ++ o1)) as Hr1 by by econstructor.
  destruct (is_halted (cs_phase s1)) eqn:Eh.
  { exists 1%nat. split; [lia|]. cbn [patient_clocks ticks]. rewrite Et. by apply Hh'. }
  destruct (IH now0 (n + 1) s1 (outs ++ o1) (start + patience cfg)) as (k & Hk & Hfin); [done| |done|lia|lia|lia|lia|lia|].
  - destruct Hlive. constructor; try done; [lia|]. by eapply reachable_roster.
  - exists (S k). split; [lia|]. cbn [patient_clocks ticks]. rewrite Et. cbv beta iota.
    by destruct (ticks tick s1 _).
Qed.

(** C21. The clock alone finishes a run that stops after a number of rounds: if
    no member leaves for absence ([k_absences] is zero), at least [min_peers]
    members are healthy, the run is not halted and the counters stay below their
    widths, then reading the clock at most [remaining] times, each time one
    [patience] later, ends in the finished phase, whatever messages did or did not
    arrive before.  (A run that stops after a number of tokens may need rounds
    that commit some.) *)
Theorem run_finishes cfg seed0 now0 n s outs R :
  reachable cfg seed0 now0 n s outs →
  rc_k_absences cfg = 0 → rc_stop cfg = StopRounds R → rc_max_peers cfg < u32_bound →
  rc_min_peers cfg ≤ N.of_nat (length (healthy_peers (cs_roster s))) → is_halted (cs_phase s) = false →
  let start := N.max (cs_now_s s) (cs_phase_start_s s) in
  n + remaining R s < u64_bound → start + remaining R s * patience cfg < u64_bound →
  ∃ k, N.of_nat k ≤ remaining R s ∧
    cs_phase (ticks tick s (patient_clocks cfg start k)).1 = FinishedPhase.
Proof.
  cbv zeta. intros Hr Hk HR Hmax Hmin Hh Hn Ht.
  destruct (reachable_inv _ _ _ _ _ _ Hr) as [Hinv _]; [lia|].
  destruct (patient_run cfg seed0 R (N.to_nat (remaining R s)) now0 n s outs
    (N.max (cs_now_s s) (cs_phase_start_s s))) as (k & Hle & Hfin); try done; try (rewrite ?N2Nat.id; lia).
  - constructor; try done; [apply (proj1 Hinv)|by eapply reachable_roster].
  - exists k. split; [lia|done].
Qed.
End live.

Lemma tick_authenticated_equiv_witness :
  @tick_authenticated toy_crypto toy_attestation_codec toy_run.1 1 VHC_PROTO_VERSION
    (MHeartbeat (mkHeartbeat 1 None)) (mkAuthorized 0) =
  toy_tick toy_run.1 (toy_message 1 (MHeartbeat (mkHeartbeat 1 None))).
Proof.
  apply (@tick_authenticated_equiv toy_crypto toy_message_codec toy_attestation_codec toy_control_codec toy_run.1
    (mkSignedMessage VHC_PROTO_VERSION (MHeartbeat (mkHeartbeat 1 None)) 1 1) (mkAuthorized 0)). by vm_compute.
Defined.


(** ** Concrete runs *)

Definition patient_config : RunConfig :=
  mkRunConfig "run" VHC_PROTO_VERSION 7 ∅ 2 3 30 60 20 10 0 2 (mkGlobalBatch 8 8 0) (StopRounds 2) 4 1 0 0 0 0 [9].

Definition patient_start : CoordinatorState * list Output :=
  ticks toy_tick (CoordinatorState_new patient_config 5 1000) [toy_join 1; toy_join 2].

Lemma patient_start_reachable :
  @reachable toy_crypto toy_message_codec toy_attestation_codec toy_control_codec
    patient_config 5 1000 2 patient_start.1 patient_start.2.
Proof.
  apply (@reachable_ticks toy_crypto toy_message_codec toy_attestation_codec toy_control_codec patient_config 5 1000
    [toy_join 1; toy_join 2] 0 (CoordinatorState_new patient_config 5 1000) []). constructor.
Defined.

Lemma run_finishes_witness :
  ∃ k, N.of_nat k ≤ 17 ∧
    cs_phase (ticks toy_tick patient_start.1 (patient_clocks patient_config 1000 k)).1 = FinishedPhase.
Proof.
  destruct (@run_finishes toy_crypto toy_message_codec toy_attestation_codec toy_control_codec patient_config 5 1000 2
    patient_start.1 patient_start.2 2 patient_start_reachable) as (k & Hk & Hf).
  - done.
  - done.
  - done.
  - by vm_compute.
  - by vm_compute.
  - by vm_compute.
  - by vm_compute.
  - exists k. split; [exact Hk|exact Hf].
Defined.

Definition finished_run : CoordinatorState * list Output :=
  ticks toy_tick patient_start.1 (patient_clocks patient_config 1000 7).

Lemma halted_inert_witness :
  cs_phase finished_run.1 = FinishedPhase ∧
  ∃ now rs, ticks toy_tick finished_run.1 [IClock 9000; toy_control 9 Resume; toy_join 5] =
    (finished_run.1 <| cs_now_s := now |>, Reject <$> rs) ∧ length rs = 3%nat.
Proof.
  assert (cs_phase finished_run.1 = FinishedPhase) as Hp by by vm_compute. split; [done|].
  destruct (@halted_inert toy_crypto toy_message_codec toy_attestation_codec toy_control_codec finished_run.1
    [IClock 9000; toy_control 9 Resume; toy_join 5]) as [Hi _]; [by rewrite Hp|].
  apply Hi. apply Forall_forall. intros i _ (req & _ & _ & _ & _ & _ & Hpaused). rewrite Hp in Hpaused. done.
Defined.

(** A storage receipt is taken from anyone: here peer 4, which is in no roster,
    makes the payloads of both members count as available, and the round commits
    on its word. *)
Example receipt_from_stranger :
  let before := (ticks toy_tick toy_start (take 6 toy_inputs)).1 in
  let after := toy_tick before (toy_message 4 (MStorageReceipt
    (mkStorageReceipt 0 [mkRecordEntry 1 11 100; mkRecordEntry 2 22 100]))) in
  4 ∉ active_peers before ∧ cs_round before = 0 ∧ cs_round after.1 = 1.
Proof. cbv zeta. split_and!; [apply (bool_decide_unpack _)|..]; by vm_compute. Qed.

(** A member staged during a round is still staged after a pause and a resume have
    led back to waiting for members.  Its renewed joins count as duplicates, so
    when the others fell silent and only one of them has returned, the run waits
    although enough peers have joined. *)
Example resume_strands_pending :
  let resumed := (ticks toy_tick toy_start (toy_inputs ++ [toy_control 9 Pause; toy_control 9 Resume])).1 in
  let later := (ticks toy_tick resumed [IClock 1281; toy_join 2; toy_join 3; IClock 1290]).1 in
  cs_phase resumed = WaitingForMembers ∧ (m_peer <$> cs_pending resumed) = [3] ∧ 3 ∉ (m_peer <$> cs_roster resumed) ∧
  cs_phase later = WaitingForMembers ∧ healthy_peers (cs_roster later) = [2] ∧ (m_peer <$> cs_pending later) = [3] ∧
  rc_min_peers (cs_config later) = 2.
Proof. cbv zeta. split_and!; try (apply (bool_decide_unpack _)); by vm_compute. Qed.
