(* ===== verification/VhcRounds.v ===== *)
(** * The round barrier of a peer ([daemon-vhc-sdk-rounds/src/lib.rs])

    What a training peer does with the coordinator's messages: train and commit
    when a round opens, ingest the committed sets of the records in ascending
    order, and fall back to the stall ladder when a payload cannot be fetched.
    The experiment is the class [RoundExperiment], the payloads come from a
    [PayloadSource]. *)

From S2P Require Import Prelude Text VhcProto VhcMerkle VhcMessages VhcAuthority VhcAssignment VhcState.

#[local] Open Scope N_scope.
#[local] Open Scope daemon_scope.

(** ** Data *)

Record MicroWindow := mkMicroWindow { mw_start : N; mw_end : N }.

Record StepCtx := mkStepCtx {
  ctx_round : N;
  ctx_inner_step : N;
  ctx_micro : MicroWindow;
  ctx_mb_index : N;
  ctx_mb_count : N
}.

Inductive IngestOutcome := Ready (digest : StateDigest) | Deferred.

(** The math points the barrier calls; [begin_ingest] defaults to [ingest_ready]. *)
Class RoundExperiment (E P : Type) := {
  train_step : E → StepCtx → E;
  inner_update : E → N → E;
  make_update : E → N → bytes * E;
  ingest : E → N → Committed P → StateDigest * E;
  begin_ingest : E → N → Committed P → IngestOutcome * E
}.

Definition ingest_ready {E P : Type} (ingest : E → N → Committed P → StateDigest * E) (e : E) (round : N)
    (c : Committed P) : IngestOutcome * E :=
  let '(d, e') := ingest e round c in (Ready d, e').

Record RoundCfg := mkRoundCfg {
  rcfg_peer : PeerId;
  rcfg_roster : list PeerId;
  rcfg_steps_per_round : N;
  rcfg_micro_batch : N;
  rcfg_stall_rounds_max : N
}.

Inductive Outbound :=
| OCommit (commitment : Commitment) (payload : bytes)
| OStraggle (round : N) (fetching : bool)
| ORoundComplete (round : N) (digest : StateDigest)
| OCaughtUp (round : N) (digest : StateDigest)
| OLeft (round : N)
| OGapRefused (restored head : N).

Record DeferredIngest := mkDeferredIngest { di_round : N; di_on_time : bool }.

Record BarrierRound (E : Type) := mkBarrierRound {
  br_experiment : E;
  br_cfg : RoundCfg;
  br_pending : gmap N (list RecordEntry);
  br_straggling : bool;
  br_stalled_rounds : N;
  br_last_ingested : option N;
  br_deferred : option DeferredIngest
}.
Arguments mkBarrierRound {E}.
Arguments br_experiment {E}.
Arguments br_cfg {E}.
Arguments br_pending {E}.
Arguments br_straggling {E}.
Arguments br_stalled_rounds {E}.
Arguments br_last_ingested {E}.
Arguments br_deferred {E}.

(** ** Assignment *)

Record InnerStep := mkInnerStep { is_index : N; is_micro : list MicroWindow }.

Definition interval_for `{Crypto} (window : BatchWindow) (seed : Seed) (roster : list PeerId) (peer : PeerId)
    : MicroWindow :=
  let weighted := (λ p, (p, C1)) <$> roster in
  match List.find (λ e, e.1 =? peer) (assign_batches weighted seed window 0) with
  | None => mkMicroWindow (bw_start window) (bw_start window)
  | Some (_, w) => mkMicroWindow (bw_start w) (bw_end w)
  end.

(** The [while cursor < step_end] loop of one inner step. *)
Fixpoint micro_loop (fuel : nat) (mb cursor step_end : N) : list MicroWindow :=
  match fuel with
  | O => []
  | S fuel' =>
      if cursor <? step_end then
        let end_ := N.min (wrap64 (cursor + mb)) step_end in
        mkMicroWindow cursor end_ :: micro_loop fuel' mb end_ step_end
      else []
  end.

Definition inner_step (start per_step mb h : N) : InnerStep :=
  let step_start := wrap64 (start + wrap64 (h * per_step)) in
  let step_end := wrap64 (step_start + per_step) in
  mkInnerStep h (micro_loop (N.to_nat per_step) mb step_start step_end).

Definition slice_interval (interval : MicroWindow) (steps_per_round micro_batch : N) : list InnerStep :=
  let len := mw_end interval - mw_start interval in
  if (len =? 0) || (steps_per_round =? 0) || (micro_batch =? 0) then []
  else if negb (len mod steps_per_round =? 0) then []
  else
    let per_step := len / steps_per_round in
    inner_step (mw_start interval) per_step micro_batch <$> range 0 steps_per_round.

Definition BarrierRound_new {E} (experiment : E) (cfg : RoundCfg) : BarrierRound E :=
  mkBarrierRound experiment cfg ∅ false 0 None None.

Definition resume_from {E} (w : option N) (b : BarrierRound E) : BarrierRound E :=
  mkBarrierRound (br_experiment b) (br_cfg b) (br_pending b) (br_straggling b) (br_stalled_rounds b) w (br_deferred b).

Definition set_experiment {E} (e : E) (b : BarrierRound E) : BarrierRound E :=
  mkBarrierRound e (br_cfg b) (br_pending b) (br_straggling b) (br_stalled_rounds b) (br_last_ingested b) (br_deferred b).

Definition set_stall {E} (straggling : bool) (stalled : N) (b : BarrierRound E) : BarrierRound E :=
  mkBarrierRound (br_experiment b) (br_cfg b) (br_pending b) straggling stalled (br_last_ingested b) (br_deferred b).

Definition set_pending {E} (p : gmap N (list RecordEntry)) (b : BarrierRound E) : BarrierRound E :=
  mkBarrierRound (br_experiment b) (br_cfg b) p (br_straggling b) (br_stalled_rounds b) (br_last_ingested b) (br_deferred b).

Definition set_deferred {E} (d : option DeferredIngest) (b : BarrierRound E) : BarrierRound E :=
  mkBarrierRound (br_experiment b) (br_cfg b) (br_pending b) (br_straggling b) (br_stalled_rounds b) (br_last_ingested b) d.

(** [pending.keys().next()]. *)
Definition first_pending {E} (b : BarrierRound E) : option (N * list RecordEntry) := head (btree_list (br_pending b)).

Definition ingest_in_flight {E} (b : BarrierRound E) : bool := bool_decide (is_Some (br_deferred b)).

(** ** The barrier *)

Section barrier.
Context {E P T : Type} `{Crypto, RoundExperiment E P, PayloadRepr P, PayloadSource T P}.

Definition voice (on_time : bool) (round : N) (digest : StateDigest) : Outbound :=
  if on_time then ORoundComplete round digest else OCaughtUp round digest.

(** Ingest the head of the queue; [None] when nothing was ingested. *)
Definition ingest_head (trigger : option N) (b : BarrierRound E) (src : T)
    : option (BarrierRound E * list Outbound) * T :=
  match br_deferred b, first_pending b with
  | Some _, _ | None, None => (None, src)
  | None, Some (round, entries) =>
      match mint (from_authoritative_channel DEFAULT_RECORDS_CHANNEL) round entries src with
      | (Err _, src') => (None, src')
      | (Ok committed, src') =>
          let on_time := negb (br_straggling b) && bool_decide (trigger = Some round) in
          let '(outcome, e) := begin_ingest (br_experiment b) round committed in
          let b1 := resume_from (Some round) (set_pending (delete round (br_pending b)) (set_experiment e b)) in
          match outcome with
          | Ready digest => (Some (b1, [voice on_time round digest]), src')
          | Deferred => (Some (set_deferred (Some (mkDeferredIngest round on_time)) b1, []), src')
          end
      end
  end.

(** The [while] loop: every turn but the last removes a record from the queue. *)
Fixpoint advance_loop (fuel : nat) (trigger : option N) (b : BarrierRound E) (src : T)
    : BarrierRound E * T * list Outbound :=
  match fuel with
  | O => (b, src, [])
  | S fuel' =>
      match ingest_head trigger b src with
      | (None, src') => (b, src', [])
      | (Some (b', out), src') =>
          let '(b'', src'', out') := advance_loop fuel' trigger b' src' in
          (b'', src'', out ++ out')
      end
  end.

Definition advance (trigger : option N) (b : BarrierRound E) (src : T) : BarrierRound E * T * list Outbound :=
  let '(b', src', out) := advance_loop (S (size (br_pending b))) trigger b src in
  if bool_decide (br_pending b' = ∅) && negb (ingest_in_flight b')
  then (set_stall false 0 b', src', out)
  else (b', src', out).

Definition train_step_of (round : N) (e : E) (s : InnerStep) : E :=
  let mb_count := wrap32 (N.of_nat (length (is_micro s))) in
  let e := foldl (λ e '(i, mb), train_step e (mkStepCtx round (is_index s) mb (wrap32 i) mb_count)) e
             (zip (range 0 (N.of_nat (length (is_micro s)))) (is_micro s)) in
  inner_update e (is_index s).

Definition train_and_commit (ro : RoundOpen) (b : BarrierRound E) : BarrierRound E * list Outbound :=
  let cfg := br_cfg b in
  let interval := interval_for (ro_batch ro) (ro_seed ro) (rcfg_roster cfg) (rcfg_peer cfg) in
  let steps := slice_interval interval (rcfg_steps_per_round cfg) (rcfg_micro_batch cfg) in
  let e := foldl (train_step_of (ro_round ro)) (br_experiment b) steps in
  let '(pl, e) := make_update e (ro_round ro) in
  (set_experiment e b,
   [OCommit (mkCommitment (ro_round ro) (blake3_hash pl) (N.of_nat (length pl)) []) pl]).

Definition on_round_open (ro : RoundOpen) (b : BarrierRound E) (src : T) : BarrierRound E * T * list Outbound :=
  let '(b1, src1, out) := advance None b src in
  if br_straggling b1 then
    let b2 := set_stall true (wrap32 (br_stalled_rounds b1 + 1)) b1 in
    let round := match first_pending b2 with Some (r, _) => r | None => ro_round ro end in
    (b2, src1, out ++ [OStraggle (ro_round ro) false] ++
      if rcfg_stall_rounds_max (br_cfg b2) <? br_stalled_rounds b2 then [OLeft round] else [])
  else
    let '(b2, out') := train_and_commit ro b1 in
    (b2, src1, out ++ out').

(** The gap test of a record handler. *)
Definition gap (b : BarrierRound E) : option (N * N) :=
  match br_last_ingested b, first_pending b with
  | Some last, Some (head, _) => if wrap64 (last + 1) <? head then Some (last, head) else None
  | _, _ => None
  end.

Definition on_round_record (rr : RoundRecord) (entries : list RecordEntry) (b : BarrierRound E) (src : T)
    : BarrierRound E * T * list Outbound :=
  if match br_last_ingested b with Some last => rr_round rr <=? last | None => false end then (b, src, [])
  else
    let b1 := set_pending (<[rr_round rr := entries]> (br_pending b)) b in
    match gap b1 with
    | Some (restored, head) => (b1, src, [OGapRefused restored head])
    | None =>
        let '(b2, src1, out) := advance (Some (rr_round rr)) b1 src in
        if bool_decide (is_Some (br_pending b2 !! rr_round rr))
        then (set_stall true (br_stalled_rounds b2) b2, src1, out ++ [OStraggle (rr_round rr) true])
        else (b2, src1, out)
    end.

Definition finish_ingest (round : N) (digest : StateDigest) (b : BarrierRound E) (src : T)
    : BarrierRound E * T * list Outbound :=
  match br_deferred b with
  | None => (b, src, [])
  | Some d =>
      if negb (di_round d =? round) then (b, src, [])
      else
        let b1 := resume_from (Some round) (set_deferred None b) in
        let '(b2, src1, out) := advance None b1 src in
        (b2, src1, [voice (di_on_time d) round digest] ++ out)
  end.
End barrier.
