(* ===== verification/VhcBarrier.v ===== *)
(** * The barrier ingests in order, and the stall ladder ends *)

From S2P Require Import Prelude Text VhcProto VhcMerkle VhcMessages VhcAuthority VhcAssignment VhcCommittee VhcBatches VhcState VhcCommit VhcRounds.

#[local] Open Scope N_scope.
#[local] Open Scope daemon_scope.

Section barrier_facts.
Context {E P T : Type} `{HC : Crypto, HX : RoundExperiment E P, HR : PayloadRepr P, HS : PayloadSource T P}.

(** ** Voiced rounds *)

Definition voiced_round (o : Outbound) : option N :=
  match o with ORoundComplete r _ | OCaughtUp r _ => Some r | _ => None end.

Definition voiced (out : list Outbound) : list N := omap voiced_round out.

Lemma voiced_app l k : voiced (l ++ k) = voiced l ++ voiced k.
Proof using Type. apply omap_app. Qed.

(** The least round whose digest may still be voiced. *)
Definition next_voice (b : BarrierRound E) : N :=
  match br_deferred b with
  | Some d => di_round d
  | None => match br_last_ingested b with Some l => l + 1 | None => 0 end
  end.

(** The queue lies above the watermark, and a fold in flight is the watermark. *)
Definition barrier_ok (b : BarrierRound E) : Prop :=
  (∀ k l, is_Some (br_pending b !! k) → br_last_ingested b = Some l → l < k) ∧
  (∀ d, br_deferred b = Some d → br_last_ingested b = Some (di_round d)).

(** What a handler voices between two states. *)
Definition segment (a b : BarrierRound E) (out : list Outbound) : Prop :=
  next_voice a ≤ next_voice b ∧ StronglySorted N.lt (voiced out) ∧
  Forall (λ r, next_voice a ≤ r ∧ r < next_voice b) (voiced out).

Lemma segment_silent a b out : next_voice a ≤ next_voice b → voiced out = [] → segment a b out.
Proof using Type. intros Hn Hv. unfold segment. rewrite Hv. by repeat constructor. Qed.

Lemma segment_app a b c l k : segment a b l → segment b c k → segment a c (l ++ k).
Proof using Type.
  intros (H1 & S1 & F1) (H2 & S2 & F2). unfold segment. rewrite voiced_app. split_and!; [lia| |].
  - rewrite Forall_forall in F1, F2. clear H1 H2. induction S1 as [|x xs S1 IH Hx]; [done|]. cbn [app].
    constructor; [apply IH; intros y Hy; apply F1; by right|]. apply Forall_app. split; [done|].
    apply Forall_forall. intros y Hy. destruct (F1 x ltac:(by left)), (F2 y Hy). lia.
  - apply Forall_app. split; eapply Forall_impl; [exact F1| |exact F2|]; simpl; intros; lia.
Qed.

(** ** The head of the queue *)

Lemma first_pending_spec (b : BarrierRound E) r es :
  first_pending b = Some (r, es) →
  br_pending b !! r = Some es ∧ ∀ k, is_Some (br_pending b !! k) → r ≤ k.
Proof using Type.
  unfold first_pending. intros Hh.
  assert (StronglySorted (λ a b : N * list RecordEntry, a.1 ≤ b.1) (btree_list (br_pending b))) as Hs.
  { apply sort_by_sorted; [intros ???; lia|intros x y; apply N.leb_le|intros x y ?%N.leb_gt; lia]. }
  destruct (btree_list (br_pending b)) as [|e l] eqn:El; [done|].
  simpl in Hh. injection Hh as ->. split; [apply elem_of_btree_list; rewrite El; by left|].
  intros k [x Hx]. apply elem_of_btree_list in Hx. rewrite El in Hx. inversion Hs as [|? ? _ Hall]; subst.
  apply elem_of_cons in Hx as [Heq|Hx]; [by simplify_eq|]. rewrite Forall_forall in Hall. by apply (Hall (k, x)).
Qed.

Lemma first_pending_None (b : BarrierRound E) : first_pending b = None ↔ br_pending b = ∅.
Proof using Type.
  unfold first_pending. split.
  - intros Hh. apply map_eq. intros k. rewrite lookup_empty. destruct (br_pending b !! k) as [x|] eqn:Ek; [|done].
    apply elem_of_btree_list in Ek. destruct (btree_list (br_pending b)); [by apply not_elem_of_nil in Ek|done].
  - intros ->. unfold btree_list. by rewrite map_to_list_empty.
Qed.

(** One turn of the loop that ingests: the head was minted and left the queue. *)
Lemma ingest_head_inv trigger b src b' out src' :
  ingest_head trigger b src = (Some (b', out), src') →
  ∃ r es c, br_deferred b = None ∧ first_pending b = Some (r, es) ∧
    mint (from_authoritative_channel DEFAULT_RECORDS_CHANNEL) r es src = (Ok c, src') ∧
    br_pending b' = delete r (br_pending b) ∧ br_last_ingested b' = Some r ∧
    br_straggling b' = br_straggling b ∧ br_stalled_rounds b' = br_stalled_rounds b ∧ br_cfg b' = br_cfg b ∧
    (br_deferred b' = None ∧ voiced out = [r] ∨
     ∃ t, br_deferred b' = Some (mkDeferredIngest r t) ∧ voiced out = []) ∧
    ((begin_ingest (br_experiment b) r c).1 ≠ Deferred → br_deferred b' = None).
Proof using Type.
  unfold ingest_head. destruct (br_deferred b) eqn:Ed; [done|]. destruct (first_pending b) as [[r es]|]; [|done].
  destruct (mint _ r es src) as [[c|] src1] eqn:Em; [|done].
  destruct (begin_ingest (br_experiment b) r c) as [[d|] e] eqn:Eb; intros ?; simplify_eq;
    exists r, es, c; cbn [br_pending br_last_ingested br_straggling br_stalled_rounds br_cfg br_deferred resume_from set_pending set_experiment set_deferred].
  - split_and!; try done. left. split; [done|]. unfold voice. by destruct (_ && _).
  - rewrite Eb. split_and!; try done. right. by eexists.
Qed.

Lemma ingest_head_ok trigger b src b' out src' :
  barrier_ok b → ingest_head trigger b src = (Some (b', out), src') → barrier_ok b' ∧ segment b b' out.
Proof using Type.
  intros [Hq Hd] (r & es & c & Hdef & Hf & _ & Hp & Hl & _ & _ & _ & Hv & _)%ingest_head_inv.
  apply first_pending_spec in Hf as [Hr Hmin].
  assert (next_voice b ≤ r) as Hle.
  { unfold next_voice. rewrite Hdef. destruct (br_last_ingested b) as [l|] eqn:El; [|lia].
    specialize (Hq r l ltac:(by eexists) eq_refl). lia. }
  split.
  - split.
    + intros k l Hk Hl'. rewrite Hl in Hl'. injection Hl' as <-. rewrite Hp in Hk.
      destruct (decide (k = r)) as [->|Hne]; [rewrite lookup_delete_eq in Hk; by destruct Hk|].
      rewrite lookup_delete_ne in Hk by done. specialize (Hmin k Hk). lia.
    + intros d Hd'. destruct Hv as [[Hn _]|(t & Hn & _)]; rewrite Hn in Hd'; [done|]. by injection Hd' as <-.
  - destruct Hv as [[Hn Hv]|(t & Hn & Hv)]; unfold segment; rewrite Hv.
    + assert (next_voice b' = r + 1) as -> by (unfold next_voice; by rewrite Hn, Hl).
      split_and!; [lia|by repeat constructor|]. constructor; [lia|constructor].
    + assert (next_voice b' = r) as -> by (unfold next_voice; by rewrite Hn).
      split_and!; [lia|constructor|constructor].
Qed.

Lemma advance_loop_ok fuel trigger b src b' src' out :
  barrier_ok b → advance_loop fuel trigger b src = (b', src', out) → barrier_ok b' ∧ segment b b' out.
Proof using Type.
  revert b src out. induction fuel as [|fuel IH]; intros b src out Hok; cbn [advance_loop].
  { intros [= <- <- <-]. split; [done|]. by apply segment_silent. }
  destruct (ingest_head trigger b src) as [[[b1 out1]|] src1] eqn:Eh.
  - destruct (advance_loop fuel trigger b1 src1) as [[b2 src2] out2] eqn:El. intros [= <- <- <-].
    apply ingest_head_ok in Eh as [Hok1 S1]; [|done]. apply IH in El as [Hok2 S2]; [|done].
    split; [done|]. by eapply segment_app.
  - intros [= <- <- <-]. split; [done|]. by apply segment_silent.
Qed.

Lemma advance_ok trigger b src b' src' out :
  barrier_ok b → advance trigger b src = (b', src', out) → barrier_ok b' ∧ segment b b' out.
Proof using Type.
  intros Hok. unfold advance. destruct (advance_loop _ trigger b src) as [[b1 src1] out1] eqn:El.
  apply advance_loop_ok in El as [Hok1 S1]; [|done]. destruct (_ && _); intros [= <- <- <-]; by split.
Qed.

Lemma on_round_open_ok ro b src b' src' out :
  barrier_ok b → on_round_open ro b src = (b', src', out) → barrier_ok b' ∧ segment b b' out.
Proof using Type.
  intros Hok. unfold on_round_open. destruct (advance None b src) as [[b1 src1] out1] eqn:Ea.
  apply advance_ok in Ea as [Hok1 S1]; [|done]. destruct (br_straggling b1).
  - intros [= <- <- <-]. split; [done|]. eapply segment_app; [exact S1|]. apply segment_silent; [done|].
    by destruct (_ <? _).
  - unfold train_and_commit. destruct (make_update _ _) as [pl e]. intros [= <- <- <-]. split; [done|].
    eapply segment_app; [exact S1|]. by apply segment_silent.
Qed.

Lemma on_round_record_ok rr entries b src b' src' out :
  barrier_ok b → on_round_record rr entries b src = (b', src', out) → barrier_ok b' ∧ segment b b' out.
Proof using Type.
  intros Hok. unfold on_round_record. destruct (match br_last_ingested b with Some _ => _ | None => _ end) eqn:Ew.
  { intros [= <- <- <-]. split; [done|]. by apply segment_silent. }
  set (b1 := set_pending _ b).
  assert (barrier_ok b1) as Hok1.
  { destruct Hok as [Hq Hd]. split; [|exact Hd]. intros k l Hk Hl.
    cbn [b1 br_pending br_last_ingested set_pending] in Hk, Hl. rewrite Hl in Ew. apply N.leb_gt in Ew.
    destruct (decide (k = rr_round rr)) as [->|Hne]; [done|]. rewrite lookup_insert_ne in Hk by done. by eapply Hq. }
  destruct (gap b1) as [[restored h]|].
  { intros [= <- <- <-]. split; [done|]. by apply segment_silent. }
  destruct (advance (Some (rr_round rr)) b1 src) as [[b2 src2] out2] eqn:Ea.
  apply advance_ok in Ea as [Hok2 S2]; [|done]. case_bool_decide; intros [= <- <- <-]; split; try done.
  eapply segment_app; [exact S2|]. by apply segment_silent.
Qed.

Lemma finish_ingest_ok round digest b src b' src' out :
  barrier_ok b → finish_ingest round digest b src = (b', src', out) → barrier_ok b' ∧ segment b b' out.
Proof using Type.
  intros [Hq Hd]. unfold finish_ingest. destruct (br_deferred b) as [d|] eqn:Ed.
  2:{ intros [= <- <- <-]. split; [by split; [|rewrite Ed]|]. by apply segment_silent. }
  destruct (N.eqb_spec (di_round d) round) as [Heq|]; cbn [negb].
  2:{ intros [= <- <- <-]. split; [by split; [|rewrite Ed]|]. by apply segment_silent. }
  set (b1 := resume_from _ _). assert (barrier_ok b1) as Hok1.
  { split; [|done]. intros k l Hk Hl. cbn [b1 br_pending br_last_ingested resume_from set_deferred] in Hk, Hl.
    apply Hq; [done|]. rewrite (Hd d eq_refl), Heq. done. }
  destruct (advance None b1 src) as [[b2 src2] out2] eqn:Ea. apply advance_ok in Ea as [Hok2 S2]; [|done].
  intros [= <- <- <-]. split; [done|]. change (segment b b2 ([voice (di_on_time d) round digest] ++ out2)). eapply (segment_app b b1); [|exact S2].
  assert (next_voice b = round ∧ next_voice b1 = round + 1) as [H1 H2] by (unfold next_voice, b1; simpl; by rewrite Ed).
  assert (voiced [voice (di_on_time d) round digest] = [round]) as Hv by (by destruct (di_on_time d)).
  unfold segment. rewrite Hv, H1, H2. split_and!; [lia|by repeat constructor|]. constructor; [lia|constructor].
Qed.

(** ** Runs *)

(** A message, a sealed fold, or payloads becoming available. *)
Inductive Event :=
| EvOpen (ro : RoundOpen)
| EvRecord (rr : RoundRecord) (entries : list RecordEntry)
| EvFinish (round : N) (digest : StateDigest)
| EvSource (src : T).

Definition handle (ev : Event) (b : BarrierRound E) (src : T) : BarrierRound E * T * list Outbound :=
  match ev with
  | EvOpen ro => on_round_open ro b src
  | EvRecord rr entries => on_round_record rr entries b src
  | EvFinish round digest => finish_ingest round digest b src
  | EvSource src' => (b, src', [])
  end.

Fixpoint handle_all (evs : list Event) (b : BarrierRound E) (src : T) : BarrierRound E * T * list Outbound :=
  match evs with
  | [] => (b, src, [])
  | ev :: evs' =>
      let '(b1, src1, out1) := handle ev b src in
      let '(b2, src2, out2) := handle_all evs' b1 src1 in
      (b2, src2, out1 ++ out2)
  end.

Lemma handle_ok ev b src b' src' out :
  barrier_ok b → handle ev b src = (b', src', out) → barrier_ok b' ∧ segment b b' out.
Proof using Type.
  destruct ev; cbn [handle]; intros Hok.
  - by apply on_round_open_ok.
  - by apply on_round_record_ok.
  - by apply finish_ingest_ok.
  - intros [= <- <- <-]. split; [done|]. by apply segment_silent.
Qed.

Lemma handle_all_ok evs b src b' src' out :
  barrier_ok b → handle_all evs b src = (b', src', out) → barrier_ok b' ∧ segment b b' out.
Proof using Type.
  revert b src out. induction evs as [|ev evs IH]; intros b src out Hok; cbn [handle_all].
  { intros [= <- <- <-]. split; [done|]. by apply segment_silent. }
  destruct (handle ev b src) as [[b1 src1] out1] eqn:E1. destruct (handle_all evs b1 src1) as [[b2 src2] out2] eqn:E2.
  intros [= <- <- <-]. apply handle_ok in E1 as [Hok1 S1]; [|done]. apply IH in E2 as [Hok2 S2]; [|done].
  split; [done|]. by eapply segment_app.
Qed.

(** C27. Whatever messages, sealed folds and payloads arrive, in any order, a
    peer voices the digests of its rounds in strictly ascending order, each at
    most once, and none at or below the watermark it resumed from. *)
Theorem rounds_voiced_ascending e cfg w evs src b' src' out :
  handle_all evs (resume_from w (BarrierRound_new e cfg)) src = (b', src', out) →
  StronglySorted N.lt (voiced out) ∧ ∀ r l, r ∈ voiced out → w = Some l → l < r.
Proof using Type.
  intros Hrun. apply handle_all_ok in Hrun as [_ (_ & Hs & Hf)].
  - split; [done|]. intros r l Hr ->. rewrite Forall_forall in Hf. destruct (Hf r Hr) as [Hle _].
    unfold next_voice in Hle. simpl in Hle. lia.
  - split; [|done]. intros k l Hk. cbn in Hk. rewrite lookup_empty in Hk. by destruct Hk.
Qed.

(** ** Training only when caught up *)

Definition is_commit (o : Outbound) : bool := match o with OCommit _ _ => true | _ => false end.
Definition is_gap (o : Outbound) : bool := match o with OGapRefused _ _ => true | _ => false end.

(** The experiment folds in place. *)
Definition synchronous : Prop := ∀ e r c, (begin_ingest (RoundExperiment := HX) e r c).1 ≠ Deferred.

(** Outside the stall ladder nothing is queued. *)
Definition caught (b : BarrierRound E) : Prop :=
  br_deferred b = None ∧ (br_straggling b = false → br_pending b = ∅).

Lemma submap_empty {A} (m : gmap N A) : m ⊆ ∅ → m = ∅.
Proof using Type. intros Hm. apply (anti_symm (⊆)); [done|apply map_empty_subseteq]. Qed.

Lemma advance_loop_flags fuel trigger b src b' src' out :
  synchronous → br_deferred b = None → advance_loop fuel trigger b src = (b', src', out) →
  br_deferred b' = None ∧ br_straggling b' = br_straggling b ∧ br_stalled_rounds b' = br_stalled_rounds b ∧
  br_cfg b' = br_cfg b ∧ br_pending b' ⊆ br_pending b ∧ existsb is_commit out = false ∧ existsb is_gap out = false.
Proof using Type.
  intros Hsync. revert b src out. induction fuel as [|fuel IH]; intros b src out Hd; cbn [advance_loop].
  { by intros [= <- <- <-]. }
  destruct (ingest_head trigger b src) as [[[b1 out1]|] src1] eqn:Eh; [|by intros [= <- <- <-]].
  destruct (advance_loop fuel trigger b1 src1) as [[b2 src2] out2] eqn:El. intros [= <- <- <-].
  assert (existsb is_commit out1 = false ∧ existsb is_gap out1 = false) as [C1 G1].
  { unfold ingest_head in Eh. rewrite Hd in Eh. destruct (first_pending b) as [[r es]|]; [|done].
    destruct (mint _ r es src) as [[c|] ?]; [|done]. destruct (begin_ingest _ _ _) as [[d|] e]; simplify_eq; [|done].
    unfold voice. by destruct (_ && _). }
  apply ingest_head_inv in Eh as (r & es & c & _ & _ & _ & Hp & _ & Hs & Hst & Hcfg & _ & Hdef).
  specialize (Hdef (Hsync _ _ _)). apply IH in El as (D2 & S2 & T2 & F2 & P2 & C2 & G2); [|done].
  rewrite !existsb_app, C1, C2, G1, G2. split_and!; try done; try congruence.
  rewrite P2, Hp. apply delete_subseteq.
Qed.

Lemma advance_caught trigger b src b' src' out :
  synchronous → br_deferred b = None → advance trigger b src = (b', src', out) →
  br_deferred b' = None ∧ br_pending b' ⊆ br_pending b ∧
  (br_pending b' = ∅ → br_straggling b' = false) ∧ (br_pending b' ≠ ∅ → br_straggling b' = br_straggling b) ∧
  existsb is_commit out = false ∧ existsb is_gap out = false.
Proof using Type.
  intros Hsync Hd. unfold advance. destruct (advance_loop _ trigger b src) as [[b1 src1] out1] eqn:El.
  apply advance_loop_flags in El as (D1 & S1 & _ & _ & P1 & C1 & G1); [|done..].
  unfold ingest_in_flight. rewrite D1, (bool_decide_false (is_Some None)) by (by intros []). cbn [negb].
  rewrite andb_true_r. case_bool_decide as Hp; intros [= <- <- <-]; split_and!; try done; cbn; naive_solver.
Qed.

Lemma handle_caught ev b src b' src' out :
  synchronous → caught b → handle ev b src = (b', src', out) → existsb is_gap out = false → caught b'.
Proof using Type.
  intros Hsync [Hd Hc]. destruct ev as [ro|rr entries|r d|s]; cbn [handle].
  - unfold on_round_open. destruct (advance None b src) as [[b1 src1] out1] eqn:Ea.
    apply advance_caught in Ea as (D1 & P1 & E1 & N1 & _ & _); [|done..].
    destruct (br_straggling b1) eqn:Es.
    + intros [= <- <- <-] _. by split.
    + unfold train_and_commit. destruct (make_update _ _) as [pl e]. intros [= <- <- <-] _. split; [done|]. intros _.
      cbn [set_experiment br_pending]. destruct (decide (br_pending b1 = ∅)) as [|Hne]; [done|].
      rewrite Hc in P1 by (by rewrite <- N1). by apply submap_empty.
  - unfold on_round_record. destruct (match br_last_ingested b with Some _ => _ | None => _ end); [by intros [= <- <- <-]|].
    set (b1 := set_pending _ b). destruct (gap b1) as [[? ?]|]; [intros [= <- <- <-]; done|].
    destruct (advance (Some (rr_round rr)) b1 src) as [[b2 src2] out2] eqn:Ea.
    apply advance_caught in Ea as (D2 & P2 & E2 & N2 & _ & _); [|done..].
    case_bool_decide as Hin; intros [= <- <- <-] _; [by split|]. split; [done|]. intros Hs.
    destruct (decide (br_pending b2 = ∅)) as [|Hne]; [done|]. rewrite N2 in Hs by done. cbn in Hs.
    exfalso. apply Hne. apply map_eq. intros k. rewrite lookup_empty.
    destruct (br_pending b2 !! k) as [x|] eqn:Ek; [|done]. pose proof (lookup_weaken _ _ _ _ Ek P2) as Hk.
    cbn [b1 set_pending br_pending] in Hk. rewrite Hc in Hk by done.
    destruct (decide (k = rr_round rr)) as [->|Hkr]; [by destruct Hin; eexists|].
    by rewrite lookup_insert_ne in Hk.
  - unfold finish_ingest. rewrite Hd. by intros [= <- <- <-].
  - by intros [= <- <- <-].
Qed.

Lemma handle_all_caught evs b src b' src' out :
  synchronous → caught b → handle_all evs b src = (b', src', out) → existsb is_gap out = false → caught b'.
Proof using Type.
  intros Hsync. revert b src out. induction evs as [|ev evs IH]; intros b src out Hc; cbn [handle_all].
  { by intros [= <- <- <-]. }
  destruct (handle ev b src) as [[b1 src1] out1] eqn:E1. destruct (handle_all evs b1 src1) as [[b2 src2] out2] eqn:E2.
  intros [= <- <- <-]. rewrite existsb_app. intros [G1 G2]%orb_false_iff.
  eapply IH; [|exact E2|done]. by eapply handle_caught.
Qed.

(** With an experiment that folds in place, and as long as no gap was
    refused, a peer trains and commits an opened round exactly when it has
    ingested every record it received: it never trains on a stale base. *)
Theorem commit_caught_up e cfg w evs src b src1 out ro b' src2 out' :
  synchronous → handle_all evs (resume_from w (BarrierRound_new e cfg)) src = (b, src1, out) →
  existsb is_gap out = false → on_round_open ro b src1 = (b', src2, out') →
  existsb is_commit out' = true ↔ br_pending b' = ∅.
Proof using Type.
  intros Hsync Hrun Hg Hopen. apply handle_all_caught in Hrun as [Hd Hc]; [|done|by split|done].
  unfold on_round_open in Hopen. destruct (advance None b src1) as [[b1 src3] out1] eqn:Ea.
  apply advance_caught in Ea as (D1 & P1 & E1 & N1 & C1 & _); [|done..].
  destruct (br_straggling b1) eqn:Es.
  - injection Hopen as <- <- <-. rewrite !existsb_app, C1. cbn [set_stall br_pending]. split.
    + by destruct (_ <? _).
    + intros Hp. by specialize (E1 Hp).
  - unfold train_and_commit in Hopen. destruct (make_update _ _) as [pl ex]. injection Hopen as <- <- <-.
    rewrite existsb_app, C1. cbn [set_experiment br_pending]. split; [|done]. intros _.
    destruct (decide (br_pending b1 = ∅)) as [|Hne]; [done|].
    rewrite Hc in P1 by (by rewrite <- N1). by apply submap_empty.
Qed.

(** ** The stall ladder *)

(** The head of the queue cannot be minted from the source. *)
Definition stuck (b : BarrierRound E) (src : T) (r : N) : Prop :=
  ∃ es, br_deferred b = None ∧ first_pending b = Some (r, es) ∧
    ∃ er, mint (P := P) (from_authoritative_channel DEFAULT_RECORDS_CHANNEL) r es src = (Err er, src).

Lemma stuck_advance trigger b src r : stuck b src r → advance trigger b src = (b, src, []).
Proof using Type.
  intros (es & Hd & Hf & er & Hm). unfold advance. cbn [advance_loop]. unfold ingest_head. rewrite Hd, Hf, Hm.
  rewrite bool_decide_false; [done|]. intros Hp. apply first_pending_None in Hp. congruence.
Qed.

Lemma stuck_open ro b src r :
  stuck b src r → br_straggling b = true →
  let b' := set_stall true (wrap32 (br_stalled_rounds b + 1)) b in
  on_round_open ro b src = (b', src, OStraggle (ro_round ro) false ::
    if rcfg_stall_rounds_max (br_cfg b) <? br_stalled_rounds b' then [OLeft r] else []).
Proof using Type.
  intros Hs Hst. cbv zeta. unfold on_round_open. rewrite (stuck_advance _ _ _ _ Hs), Hst.
  destruct Hs as (es & _ & Hf & _). unfold first_pending in *. cbn [set_stall br_pending br_cfg br_stalled_rounds].
  by rewrite Hf.
Qed.

Lemma stall_run ros b src r b' src' out :
  stuck b src r → br_straggling b = true → br_stalled_rounds b + N.of_nat (length ros) < u32_bound →
  handle_all (EvOpen <$> ros) b src = (b', src', out) →
  existsb is_commit out = false ∧ (∀ ro, ro ∈ ros → OStraggle (ro_round ro) false ∈ out) ∧
  ∀ x, OLeft x ∈ out ↔
    x = r ∧ ros ≠ [] ∧ rcfg_stall_rounds_max (br_cfg b) < br_stalled_rounds b + N.of_nat (length ros).
Proof using Type.
  revert b out. induction ros as [|ro ros IH]; intros b out Hs Hst Hlen; csimpl.
  { intros [= <- <- <-]. split_and!; [done|set_solver|]. intros x. rewrite elem_of_nil. naive_solver. }
  cbn [handle_all handle]. rewrite (stuck_open ro b src r) by done.
  rewrite (wrap32_small (br_stalled_rounds b + 1)) by (simpl in Hlen; lia). set (b1 := set_stall _ _ b).
  assert (br_stalled_rounds b1 = br_stalled_rounds b + 1) as Hb1 by done.
  destruct (handle_all (EvOpen <$> ros) b1 src) as [[b2 src2] out2] eqn:E2. intros [= <- <- <-].
  destruct (IH b1 out2) as (C2 & S2 & L2); [done|done|rewrite Hb1; simpl in Hlen; lia|done|].
  rewrite Hb1 in *. change (br_cfg b1) with (br_cfg b) in *. clear IH E2.
  destruct (N.ltb_spec (rcfg_stall_rounds_max (br_cfg b)) (br_stalled_rounds b + 1)) as [Hlt|Hge]; cbn [app];
    (split_and!; [exact C2|set_solver|]; intros x; rewrite !elem_of_cons, L2; simpl length).
  - split; [intros [?|[?|(-> & _ & ?)]]; simplify_eq; split_and!; try done; lia|]. intros (-> & _). right. by left.
  - split; [intros [?|(-> & _ & ?)]; simplify_eq; split_and!; try done; lia|]. intros (-> & _ & Hn). right.
    split_and!; [done| |lia]. intros ->. simpl in Hn. lia.
Qed.

(** A peer stuck on a round heartbeats at every round opened and trains on
    none; it leaves the epoch, naming the round it is stuck on, exactly when the
    opened rounds exceed its stall budget. *)
Theorem stall_ladder ros b src r b' src' out :
  stuck b src r → br_straggling b = true → br_stalled_rounds b ≤ rcfg_stall_rounds_max (br_cfg b) →
  br_stalled_rounds b + N.of_nat (length ros) < u32_bound →
  handle_all (EvOpen <$> ros) b src = (b', src', out) →
  existsb is_commit out = false ∧ (∀ ro, ro ∈ ros → OStraggle (ro_round ro) false ∈ out) ∧
  ∀ x, OLeft x ∈ out ↔ x = r ∧ rcfg_stall_rounds_max (br_cfg b) < br_stalled_rounds b + N.of_nat (length ros).
Proof using Type.
  intros Hs Hst Hmax Hlen Hrun. destruct (stall_run ros b src r b' src' out) as (C & S & L); [done..|].
  split_and!; [done|done|]. intros x. rewrite L. split; [naive_solver|]. intros (-> & Hlt). split_and!; try done.
  intros ->. simpl in Hlt. lia.
Qed.
End barrier_facts.

(** ** Slices *)

(** Windows end to end, none empty, none longer than a bound. *)
Fixpoint micro_tiles (mb from to : N) (ws : list MicroWindow) : Prop :=
  match ws with
  | [] => from = to
  | w :: ws' => mw_start w = from ∧ from < mw_end w ∧ mw_end w ≤ from + mb ∧ micro_tiles mb (mw_end w) to ws'
  end.

Lemma micro_tiles_app mb a b c l k : micro_tiles mb a b l → micro_tiles mb b c k → micro_tiles mb a c (l ++ k).
Proof. revert a. induction l as [|w l IH]; intros a; simpl; [by intros ->|]. naive_solver. Qed.

Lemma micro_loop_tiles fuel mb cursor step_end :
  0 < mb → cursor ≤ step_end → step_end + mb < u64_bound → step_end - cursor ≤ N.of_nat fuel →
  micro_tiles mb cursor step_end (micro_loop fuel mb cursor step_end).
Proof.
  intros Hmb. revert cursor. induction fuel as [|fuel IH]; intros cursor Hc Hb Hf; [simpl; lia|].
  cbn [micro_loop]. destruct (N.ltb_spec cursor step_end); [|simpl; lia].
  rewrite wrap64_small by lia. cbn [micro_tiles mw_start mw_end]. split_and!; [done|lia|lia|]. apply IH; lia.
Qed.

(** The inner steps of a round cut the peer's interval into equal parts,
    one per step and in order, and the micro-windows of the steps lie end to end
    over the whole interval, none empty and none longer than the micro-batch. *)
Theorem slice_interval_tiles iv steps mb :
  0 < steps → 0 < mb → mw_start iv < mw_end iv → mw_end iv + mb < u64_bound →
  (mw_end iv - mw_start iv) mod steps = 0 →
  let per := (mw_end iv - mw_start iv) / steps in
  let out := slice_interval iv steps mb in
  is_index <$> out = range 0 steps ∧ micro_tiles mb (mw_start iv) (mw_end iv) (out ≫= is_micro) ∧
  ∀ s, s ∈ out → micro_tiles mb (mw_start iv + is_index s * per) (mw_start iv + (is_index s + 1) * per) (is_micro s).
Proof.
  intros Hs Hmb Hlt Hb Hmod. cbv zeta. unfold slice_interval.
  destruct (N.eqb_spec (mw_end iv - mw_start iv) 0), (N.eqb_spec steps 0), (N.eqb_spec mb 0); try lia. cbn [orb].
  rewrite Hmod. cbn [negb N.eqb]. pose proof (N.div_mod (mw_end iv - mw_start iv) steps ltac:(lia)) as Hd.
  rewrite Hmod, N.add_0_r in Hd. set (per := (mw_end iv - mw_start iv) / steps) in *. clearbody per.
  assert (∀ h, h < steps → mw_start iv + (h + 1) * per ≤ mw_end iv) as Hin.
  { intros h Hh. pose proof (N.mul_le_mono_r (h + 1) steps per ltac:(lia)). lia. }
  assert (∀ h, h < steps → micro_tiles mb (mw_start iv + h * per) (mw_start iv + (h + 1) * per)
    (is_micro (inner_step (mw_start iv) per mb h))) as Hstep.
  { intros h Hh. specialize (Hin h Hh). unfold inner_step. cbn [is_micro].
    rewrite (wrap64_small (h * per)) by lia. rewrite (wrap64_small (mw_start iv + h * per)) by lia.
    replace (mw_start iv + (h + 1) * per) with (mw_start iv + h * per + per) in * by lia.
    rewrite wrap64_small by lia. apply micro_loop_tiles; lia. }
  split_and!.
  - rewrite <- list_fmap_compose. rewrite <- (list_fmap_id (range 0 steps)) at 2. by apply list_fmap_ext.
  - enough (∀ a, a ≤ steps → micro_tiles mb (mw_start iv + a * per) (mw_end iv)
      ((inner_step (mw_start iv) per mb <$> range a steps) ≫= is_micro)) as Hall.
    { specialize (Hall 0 ltac:(lia)). by rewrite N.mul_0_l, N.add_0_r in Hall. }
    apply (range_ind (λ a l, a ≤ steps → micro_tiles mb (mw_start iv + a * per) (mw_end iv)
      ((inner_step (mw_start iv) per mb <$> l) ≫= is_micro))).
    + intros a Ha Hle. assert (a = steps) as -> by lia. simpl. lia.
    + intros a Ha IH _. eapply micro_tiles_app; [by apply Hstep|]. apply IH. lia.
  - intros s (h & -> & [_ Hh]%elem_of_range)%list_elem_of_fmap. cbn [is_index inner_step]. by apply Hstep.
Qed.

(** ** Every batch has one trainer *)

Definition in_window (x : N) (w : BatchWindow) : Prop := bw_start w ≤ x < bw_end w.
Definition in_micro (x : N) (w : MicroWindow) : Prop := mw_start w ≤ x < mw_end w.

Lemma contiguous_within a b ws w x : contiguous a b ws → w ∈ ws → in_window x w → a ≤ x < b.
Proof.
  revert a. induction ws as [|v ws IH]; intros a Hc Hw Hx; [by apply not_elem_of_nil in Hw|].
  destruct Hc as (Hs & Hle & Hc). assert (bw_end v ≤ b) as Hb.
  { clear -Hc. revert Hc. generalize (bw_end v). induction ws as [|u ws IH]; intros c; simpl; [lia|].
    intros (_ & ? & Hc). specialize (IH _ Hc). lia. }
  apply elem_of_cons in Hw as [->|Hw]; [unfold in_window in Hx; lia|].
  specialize (IH _ Hc Hw Hx). lia.
Qed.

(** An id of a contiguous run lies in exactly one of its intervals. *)
Lemma contiguous_unique {K} a b (ws : list (K * BatchWindow)) x :
  contiguous a b ws.*2 → NoDup ws.*1 → a ≤ x < b →
  ∃ k w, (k, w) ∈ ws ∧ in_window x w ∧ ∀ k' w', (k', w') ∈ ws → in_window x w' → k' = k.
Proof.
  revert a. induction ws as [|[k w] ws IH]; intros a Hc Hnd Hx; csimpl in *; [lia|].
  destruct Hc as (Hs & Hle & Hc). apply NoDup_cons in Hnd as [Hni Hnd].
  destruct (N.lt_ge_cases x (bw_end w)) as [Hlt|Hge].
  - exists k, w. split_and!; [by left|unfold in_window; lia|]. intros k' w' [?|Hin]%elem_of_cons Hw'; [by simplify_eq|].
    apply list_elem_of_fmap_2 with (f := snd) in Hin. pose proof (contiguous_within _ _ _ _ _ Hc Hin Hw'). lia.
  - destruct (IH (bw_end w) Hc Hnd ltac:(lia)) as (k1 & w1 & Hin & Hw1 & Hun). exists k1, w1.
    split_and!; [by right|done|]. intros k' w' [?|Hin']%elem_of_cons Hw'; [|by eapply Hun].
    simplify_eq. unfold in_window in Hw'. lia.
Qed.

Section coverage.
Context `{HC : Crypto}.

Lemma interval_for_elem window seed roster p w :
  NoDup (assign_batches ((λ p, (p, C1)) <$> roster) seed window 0).*1 →
  (p, w) ∈ assign_batches ((λ p, (p, C1)) <$> roster) seed window 0 →
  interval_for window seed roster p = mkMicroWindow (bw_start w) (bw_end w).
Proof.
  intros Hnd Hin. unfold interval_for. destruct (List.find _ _) as [[q v]|] eqn:Ef.
  - apply List.find_some in Ef as [Hq Heq%N.eqb_eq]. apply list_elem_of_In in Hq. simpl in Heq. subst q.
    pose proof (NoDup_fmap_key fst _ (p, w) (p, v) Hnd Hin Hq eq_refl). by simplify_eq.
  - apply List.find_none with (x := (p, w)) in Ef; [|by apply list_elem_of_In]. simpl in Ef. by rewrite N.eqb_refl in Ef.
Qed.

(** Every batch of a round's window is trained by exactly one peer of the
    roster: the one whose interval contains it. *)
Theorem batch_has_one_trainer window seed roster x :
  roster ≠ [] → bw_end window < u64_bound → in_window x window →
  ∃ p, p ∈ roster ∧ in_micro x (interval_for window seed roster p) ∧
    ∀ q, q ∈ roster → in_micro x (interval_for window seed roster q) → q = p.
Proof.
  intros Hr Hb Hx. unfold in_window in Hx. set (weighted := (λ p, (p, C1)) <$> roster).
  assert (weighted ≠ []) as Hw by (unfold weighted; by destruct roster).
  assert (weighted.*1 = roster) as Hwr by (unfold weighted; rewrite <- list_fmap_compose; apply list_fmap_id).
  destruct (shares_spec weighted seed (bw_end window - bw_start window) Hw) as [Hsum Hp].
  destruct (canonical_members_spec weighted) as [Hnd Hel].
  pose proof (assign_batches_layout weighted seed window 0 Hw ltac:(lia)) as Hlay.
  assert (NoDup (assign_batches weighted seed window 0).*1) as Hnd' by (by rewrite Hlay, layout_peers, Hp).
  assert (∀ p, p ∈ (assign_batches weighted seed window 0).*1 ↔ p ∈ roster) as Hel'
    by (intros p; rewrite Hlay, layout_peers, Hp, Hel, Hwr; done).
  destruct (contiguous_unique (bw_start window) (bw_end window) (assign_batches weighted seed window 0) x)
    as (p & w & Hin & Hxw & Hun); [|done|done|].
  { rewrite Hlay. apply layout_contiguous; [|done]. rewrite Hsum. lia. }
  exists p. split_and!.
  - apply Hel'. by apply (list_elem_of_fmap_2 fst) in Hin.
  - by rewrite (interval_for_elem _ _ _ _ _ Hnd' Hin).
  - intros q Hq Hxq. apply Hel' in Hq. apply list_elem_of_fmap in Hq as ([q' v] & -> & Hqv). simpl in *.
    rewrite (interval_for_elem _ _ _ _ _ Hnd' Hqv) in Hxq. by eapply Hun.
Qed.
End coverage.

(** ** A concrete peer *)

Definition toy_ingest (e r : N) (c : Committed bytes) : StateDigest * N :=
  (r + N.of_nat (length (com_items c)), e + 1).

(** Counts its training steps and folds in place. *)
Definition toy_experiment : RoundExperiment N bytes := {|
  train_step e _ := e + 1;
  inner_update e _ := e;
  make_update e r := (le_bytes 8 (e + r), e);
  ingest := toy_ingest;
  begin_ingest := ingest_ready toy_ingest
|}.

Definition toy_peer : BarrierRound N := BarrierRound_new 0 (mkRoundCfg 2 [2; 3] 2 2 1).

Definition toy_open (r : N) : RoundOpen := mkRoundOpen r 7 0 (mkBatchWindow 0 16) 0.
Definition toy_rr (r : N) : RoundRecord := mkRoundRecord r (mkSetCommitment 0 0) [] 0 (StoreKey "s") None.
Definition toy_pay : bytes := string_bytes "x".
Definition toy_list : list RecordEntry := [mkRecordEntry 3 (toy_hash toy_pay) 1].
Definition no_payloads : gmap (N * PeerId) bytes := ∅.
Definition some_payloads : gmap (N * PeerId) bytes := {[ (1, 3) := toy_pay; (2, 3) := toy_pay ]}.

(** Two records whose payloads arrive late. *)
Definition toy_events : list (@Event (gmap (N * PeerId) bytes)) :=
  [EvOpen (toy_open 1); EvRecord (toy_rr 1) toy_list; EvRecord (toy_rr 2) toy_list;
   EvSource some_payloads; EvRecord (toy_rr 1) toy_list; EvOpen (toy_open 3)].

Abbreviation toy_handle_all := (@handle_all N bytes _ toy_crypto toy_experiment (@bytes_repr toy_crypto) map_source).

Lemma rounds_voiced_ascending_witness :
  ∃ b src out, toy_handle_all toy_events (resume_from (Some 0) toy_peer) no_payloads = (b, src, out) ∧
    voiced out = [1; 2] ∧ StronglySorted N.lt (voiced out).
Proof.
  destruct (toy_handle_all toy_events (resume_from (Some 0) toy_peer) no_payloads) as [[b src] out] eqn:E.
  exists b, src, out. split; [done|].
  pose proof (@rounds_voiced_ascending N bytes _ toy_crypto toy_experiment (@bytes_repr toy_crypto) map_source
    0 (mkRoundCfg 2 [2; 3] 2 2 1) (Some 0) toy_events no_payloads b src out E) as [Hs _].
  split; [|done]. vm_compute in E. by injection E as _ _ <-.
Defined.

Lemma toy_synchronous : @synchronous N bytes toy_experiment.
Proof. by intros e r c. Qed.

Lemma commit_caught_up_witness :
  ∃ b src out, @on_round_open N bytes _ toy_crypto toy_experiment (@bytes_repr toy_crypto) map_source
      (toy_open 1) toy_peer no_payloads = (b, src, out) ∧
    (existsb is_commit out = true ↔ br_pending b = ∅).
Proof.
  destruct (@on_round_open N bytes _ toy_crypto toy_experiment (@bytes_repr toy_crypto) map_source
    (toy_open 1) toy_peer no_payloads) as [[b src] out] eqn:E.
  exists b, src, out. split; [done|].
  apply (@commit_caught_up N bytes _ toy_crypto toy_experiment (@bytes_repr toy_crypto) map_source
    0 (mkRoundCfg 2 [2; 3] 2 2 1) None [] no_payloads toy_peer no_payloads [] (toy_open 1) b src out
    toy_synchronous eq_refl eq_refl E).
Defined.

Definition toy_stuck : BarrierRound N := set_stall true 0 (set_pending {[ 1 := toy_list ]} toy_peer).

Lemma stall_ladder_witness :
  ∃ b src out, toy_handle_all (EvOpen <$> [toy_open 2; toy_open 3]) toy_stuck no_payloads = (b, src, out) ∧
    OLeft 1 ∈ out ∧ existsb is_commit out = false.
Proof.
  destruct (toy_handle_all (EvOpen <$> [toy_open 2; toy_open 3]) toy_stuck no_payloads) as [[b src] out] eqn:E.
  exists b, src, out. split; [done|].
  destruct (@stall_ladder N bytes _ toy_crypto toy_experiment (@bytes_repr toy_crypto) map_source
    [toy_open 2; toy_open 3] toy_stuck no_payloads 1 b src out) as (Hc & _ & Hl);
    [|done|by vm_compute|by vm_compute|done|].
  - exists toy_list. split_and!; [done|by vm_compute|]. exists (MissingPayload 3). by vm_compute.
  - split; [|done]. apply Hl. split; [done|by vm_compute].
Defined.

Lemma slice_interval_tiles_witness :
  micro_tiles 3 4 12 (slice_interval (mkMicroWindow 4 12) 2 3 ≫= is_micro).
Proof. by apply (slice_interval_tiles (mkMicroWindow 4 12) 2 3). Defined.

Lemma batch_has_one_trainer_witness :
  ∃ p, p ∈ [2; 3; 9] ∧ in_micro 5 (@interval_for toy_crypto (mkBatchWindow 0 16) 7 [2; 3; 9] p) ∧
    ∀ q, q ∈ [2; 3; 9] → in_micro 5 (@interval_for toy_crypto (mkBatchWindow 0 16) 7 [2; 3; 9] q) → q = p.
Proof. by apply (@batch_has_one_trainer toy_crypto). Defined.

(** A refused record stays queued: the next opened round ingests it across the
    gap, here round 5 on a base restored at round 1. *)
Example gap_refused_then_ingested :
  let '(_, _, out) := toy_handle_all
    [EvRecord (toy_rr 5) toy_list; EvOpen (toy_open 6)] (resume_from (Some 1) toy_peer)
    {[ (5, 3) := toy_pay ]} in
  take 2 out = [OGapRefused 1 5; OCaughtUp 5 6].
Proof. by vm_compute. Qed.
