(* ===== verification/VhcCheckpoint.v ===== *)
(** * Checkpoint manifests ([daemon-vhc-sdk-consensus/src/checkpoint.rs])

    The typed, content-addressed list of the sections of a checkpoint.  The
    canonical encoder is the parameter [CheckpointCodec]. *)

From S2P Require Import Prelude Text VhcProto.

#[local] Open Scope N_scope.
#[local] Open Scope daemon_scope.

Definition CHECKPOINT_MANIFEST_SCHEMA : N := 1.

Inductive SectionKind := KConsensus | KModule | KWorkerLocal | KDataCursor | KJournalPosition.

#[export] Instance SectionKind_eq_dec : EqDecision SectionKind.
Proof. solve_decision. Defined.

Inductive SectionClass := ConsensusCanonical | RoleLocal.

Inductive CheckpointError :=
| UnsupportedSchema (v : N)
| DuplicateSectionName (name : string)
| DuplicateSectionKind (kind : SectionKind)
| UnknownSectionKind (tag : N)
| UnknownSectionClass (tag : N)
| CheckpointCodecError.

Definition kind_tag (k : SectionKind) : N :=
  match k with
  | KConsensus => 0 | KModule => 1 | KWorkerLocal => 2 | KDataCursor => 3 | KJournalPosition => 4
  end.

Definition kind_of_tag (v : N) : result CheckpointError SectionKind :=
  match v with
  | 0 => Ok KConsensus
  | 1 => Ok KModule
  | 2 => Ok KWorkerLocal
  | 3 => Ok KDataCursor
  | 4 => Ok KJournalPosition
  | other => Err (UnknownSectionKind other)
  end.

Definition default_class (k : SectionKind) : SectionClass :=
  match k with KConsensus => ConsensusCanonical | _ => RoleLocal end.

Definition class_tag (c : SectionClass) : N := match c with ConsensusCanonical => 0 | RoleLocal => 1 end.

Definition class_of_tag (v : N) : result CheckpointError SectionClass :=
  match v with
  | 0 => Ok ConsensusCanonical
  | 1 => Ok RoleLocal
  | other => Err (UnknownSectionClass other)
  end.

Record CheckpointSection := mkCheckpointSection {
  cks_name : string;
  cks_kind : SectionKind;
  cks_schema : N;
  cks_hash : Hash;
  cks_size : N;
  cks_class : SectionClass
}.

Record CheckpointManifest := mkCheckpointManifest {
  ckm_schema : N;
  ckm_run_id : Hash;
  ckm_epoch : N;
  ckm_round : N;
  ckm_module : Hash;
  ckm_digest : StateDigest;
  ckm_sections : list CheckpointSection
}.

(** The canonical encoding; [None] is a codec error. *)
Class CheckpointCodec := { checkpoint_vec : CheckpointManifest → option bytes }.

Section checkpoint.
Context `{Crypto}.

Definition section_from_bytes (name : string) (kind : SectionKind) (schema : N) (b : bytes) : CheckpointSection :=
  mkCheckpointSection name kind schema (blake3_hash b) (N.of_nat (length b)) (default_class kind).

Definition with_class (class : SectionClass) (s : CheckpointSection) : CheckpointSection :=
  mkCheckpointSection (cks_name s) (cks_kind s) (cks_schema s) (cks_hash s) (cks_size s) class.

(** The builder is the manifest under construction. *)
Definition checkpoint_builder (run_id : Hash) (epoch round : N) (module_ : Hash) (digest : StateDigest)
    : CheckpointManifest :=
  mkCheckpointManifest CHECKPOINT_MANIFEST_SCHEMA run_id epoch round module_ digest [].

Definition push_section (s : CheckpointSection) (m : CheckpointManifest) : CheckpointManifest :=
  mkCheckpointManifest (ckm_schema m) (ckm_run_id m) (ckm_epoch m) (ckm_round m) (ckm_module m) (ckm_digest m)
    (ckm_sections m ++ [s]).

Definition add_section (name : string) (kind : SectionKind) (schema : N) (b : bytes) (m : CheckpointManifest)
    : CheckpointManifest :=
  push_section (section_from_bytes name kind schema b) m.

Definition find_section (m : CheckpointManifest) (kind : SectionKind) : option CheckpointSection :=
  List.find (λ s, bool_decide (cks_kind s = kind)) (ckm_sections m).

(** The loop of [validate] over the sections, with those before. *)
Fixpoint check_sections (before sections : list CheckpointSection) : result CheckpointError unit :=
  match sections with
  | [] => Ok tt
  | s :: sections' =>
      if existsb (λ p, bool_decide (cks_name p = cks_name s)) before then Err (DuplicateSectionName (cks_name s))
      else if existsb (λ p, bool_decide (cks_kind p = cks_kind s)) before then Err (DuplicateSectionKind (cks_kind s))
      else check_sections (before ++ [s]) sections'
  end.

Definition checkpoint_validate (m : CheckpointManifest) : result CheckpointError unit :=
  if negb (ckm_schema m =? CHECKPOINT_MANIFEST_SCHEMA) then Err (UnsupportedSchema (ckm_schema m))
  else check_sections [] (ckm_sections m).

Definition checkpoint_build (m : CheckpointManifest) : result CheckpointError CheckpointManifest :=
  match checkpoint_validate m with Ok _ => Ok m | Err e => Err e end.

Definition checkpoint_content_hash `{CheckpointCodec} (m : CheckpointManifest) : result CheckpointError Hash :=
  match checkpoint_vec m with Some b => Ok (blake3_hash b) | None => Err CheckpointCodecError end.
End checkpoint.

(** ** Tags and structure *)

Lemma kind_tag_roundtrip k : kind_of_tag (kind_tag k) = Ok k.
Proof. by destruct k. Qed.

Lemma class_tag_roundtrip c : class_of_tag (class_tag c) = Ok c.
Proof. by destruct c. Qed.

Lemma kind_of_tag_ok v k : kind_of_tag v = Ok k → kind_tag k = v.
Proof. unfold kind_of_tag. repeat case_match; intros; simplify_eq; done. Qed.

Lemma check_sections_ok before sections :
  NoDup (cks_name <$> before) → NoDup (cks_kind <$> before) →
  check_sections before sections = Ok tt ↔
    NoDup (cks_name <$> (before ++ sections)) ∧ NoDup (cks_kind <$> (before ++ sections)).
Proof.
  revert before. induction sections as [|s sections IH]; intros before Hn Hk.
  { rewrite app_nil_r. by cbn. }
  cbn [check_sections]. rewrite (cons_middle s before sections), app_assoc.
  assert (∀ A (f : CheckpointSection → A) `{EqDecision A},
    existsb (λ p, bool_decide (f p = f s)) before = true ↔ f s ∈ (f <$> before)) as Hex.
  { intros A f ?. rewrite existsb_exists, list_elem_of_fmap. setoid_rewrite <- list_elem_of_In.
    setoid_rewrite bool_decide_eq_true. naive_solver. }
  assert (∀ A (f : CheckpointSection → A), NoDup (f <$> before) →
    f s ∉ (f <$> before) → NoDup (f <$> (before ++ [s]))) as Hsnoc.
  { intros A f Hf Hni. rewrite fmap_app. apply NoDup_app. split_and!; [done| |apply NoDup_singleton].
    intros x Hx ->%list_elem_of_singleton. done. }
  assert (∀ A (f : CheckpointSection → A), NoDup (f <$> ((before ++ [s]) ++ sections)) → f s ∉ (f <$> before)) as Hin.
  { intros A f Hf. rewrite !fmap_app in Hf. apply NoDup_app in Hf as [Hf _]. apply NoDup_app in Hf as (_ & Hf & _).
    intros Hx. apply (Hf _ Hx). by left. }
  destruct (existsb (λ p, bool_decide (cks_name p = cks_name s)) before) eqn:En.
  { apply Hex in En. split; [done|]. intros [H1 _]. by apply Hin in H1. }
  destruct (existsb (λ p, bool_decide (cks_kind p = cks_kind s)) before) eqn:Ek.
  { apply Hex in Ek. split; [done|]. intros [_ H2]. by apply Hin in H2. }
  apply IH; apply Hsnoc; try done.
  - intros Hx. apply (Hex _ cks_name _) in Hx. congruence.
  - intros Hx. apply (Hex _ cks_kind _) in Hx. congruence.
Qed.

(** A manifest builds exactly when its schema is the known one and no two
    sections share a name or a kind, and then each section is found by its kind. *)
Lemma checkpoint_build_iff m :
  checkpoint_build m = Ok m ↔
    ckm_schema m = CHECKPOINT_MANIFEST_SCHEMA ∧
    NoDup (cks_name <$> ckm_sections m) ∧ NoDup (cks_kind <$> ckm_sections m).
Proof.
  unfold checkpoint_build, checkpoint_validate. destruct (N.eqb_spec (ckm_schema m) CHECKPOINT_MANIFEST_SCHEMA) as [He|He];
    cbn [negb]; [|split; [done|naive_solver]].
  destruct (check_sections [] (ckm_sections m)) as [[]|e] eqn:E.
  - apply check_sections_ok in E; [|by constructor..]. naive_solver.
  - split; [done|]. intros (_ & H1 & H2).
    assert (check_sections [] (ckm_sections m) = Ok tt) by (apply check_sections_ok; [constructor|constructor|done]). congruence.
Qed.

Lemma find_section_unique m s :
  checkpoint_build m = Ok m → s ∈ ckm_sections m → find_section m (cks_kind s) = Some s.
Proof.
  intros (_ & _ & Hk)%checkpoint_build_iff Hs. unfold find_section.
  destruct (List.find _ _) as [s'|] eqn:Ef.
  - apply List.find_some in Ef as [Hs' Hkk%bool_decide_eq_true]. apply list_elem_of_In in Hs'.
    f_equal. by apply (NoDup_fmap_key cks_kind (ckm_sections m)).
  - apply List.find_none with (x := s) in Ef; [|by apply list_elem_of_In]. by apply bool_decide_eq_false in Ef.
Qed.
