(* ===== verification/Auth.v ===== *)
(** * Identities, credentials and roles ([crates/substrate/daemon-auth])

    The capability vocabulary, and the identity store over its SQL tables.  A
    table is the list of its rows in insertion order, or a finite map where the
    rows have one key; a statement checks the constraints of the schema
    ([PRIMARY KEY], [UNIQUE], [REFERENCES users(id)]) and reports the violated one.
    Statements outside a transaction keep what earlier statements of the method
    wrote; a transaction that is dropped restores the tables.

    The tables [api_keys] and [resource_grants] are reserved by the schema and
    have no operation.  Randomness, the clock, Argon2id, SHA-256, HMAC, PBKDF2 and
    SASLprep are parameters. *)

From S2P Require Import Prelude Text.
From Stdlib Require Import ZArith.

(** ** Capabilities and roles *)

Definition SYSTEM_USERNAME : string := "system".
Definition INTERNAL_USERNAME : string := "internal".
Definition RESERVED_USERNAMES : list string := [SYSTEM_USERNAME; INTERNAL_USERNAME].

(** [u8::to_ascii_lowercase]. *)
Definition ascii_lower (b : Byte.byte) : Byte.byte :=
  let v := Byte.to_N b in
  if ((65 <=? v) && (v <=? 90))%N then byte_of (v + 32) else b.

Definition eq_ignore_ascii_case (a b : string) : bool :=
  bool_decide (ascii_lower <$> string_bytes a = ascii_lower <$> string_bytes b).

Definition is_reserved_username (name : string) : bool :=
  existsb (λ r, eq_ignore_ascii_case r name) RESERVED_USERNAMES.

Inductive Capability :=
| SessionRead | SessionWrite | SessionSeeAll | SessionControlAny
| ControlRead | ControlWrite | FleetRead | FleetWrite | ModelsRead | ModelsWrite
| ProfileRead | ProfileWrite | CredentialRead | CredentialWrite | CronRead | CronWrite
| RoutingRead | RoutingWrite | MessagingRead | MessagingWrite | RegistryRead | RegistryWrite
| FsRead | FsWrite | AccessAdmin.

#[export] Instance Capability_eq_dec : EqDecision Capability.
Proof. solve_decision. Defined.

(** The derived [Ord] is the order of declaration. *)
Definition all_capabilities : list Capability :=
  [SessionRead; SessionWrite; SessionSeeAll; SessionControlAny; ControlRead; ControlWrite;
   FleetRead; FleetWrite; ModelsRead; ModelsWrite; ProfileRead; ProfileWrite; CredentialRead;
   CredentialWrite; CronRead; CronWrite; RoutingRead; RoutingWrite; MessagingRead; MessagingWrite;
   RegistryRead; RegistryWrite; FsRead; FsWrite; AccessAdmin].

Inductive Role := Viewer | User | Operator | Admin.

#[export] Instance Role_eq_dec : EqDecision Role.
Proof. solve_decision. Defined.

Definition Role_ALL : list Role := [Viewer; User; Operator; Admin].

Definition as_str (r : Role) : string :=
  match r with Viewer => "viewer" | User => "user" | Operator => "operator" | Admin => "admin" end.

Definition from_wire (s : string) : option Role :=
  if decide (s = "viewer") then Some Viewer
  else if decide (s = "user") then Some User
  else if decide (s = "operator") then Some Operator
  else if decide (s = "admin") then Some Admin
  else None.

Definition viewer_caps : list Capability :=
  [SessionRead; ControlRead; FleetRead; ModelsRead; ProfileRead; CredentialRead; CronRead;
   RoutingRead; MessagingRead; RegistryRead; FsRead].

Definition user_extra : list Capability :=
  [SessionWrite; ProfileWrite; CredentialWrite; CronWrite; MessagingWrite; FsWrite].

Definition operator_extra : list Capability :=
  [SessionSeeAll; SessionControlAny; ControlWrite; FleetWrite; ModelsWrite; RoutingWrite; RegistryWrite].

Definition capabilities (r : Role) : list Capability :=
  match r with
  | Viewer => viewer_caps
  | User => viewer_caps ++ user_extra
  | Operator => viewer_caps ++ user_extra ++ operator_extra
  | Admin => (viewer_caps ++ user_extra ++ operator_extra) ++ [AccessAdmin]
  end.

(** A [BTreeSet] of capabilities: its elements in ascending order. *)
Definition cap_set (l : list Capability) : list Capability :=
  List.filter (λ c, bool_decide (c ∈ l)) all_capabilities.

Record Principal := mkPrincipal {
  p_user_id : string;
  p_username : string;
  p_roles : list Role;
  p_capabilities : list Capability
}.

Definition from_roles (user_id username : string) (roles : list Role) : Principal :=
  mkPrincipal user_id username roles (cap_set (roles ≫= capabilities)).

Definition has (p : Principal) (c : Capability) : bool := bool_decide (c ∈ p_capabilities p).

Definition can_see_all_sessions (p : Principal) : bool := has p SessionSeeAll.

(** ** Tables *)

Inductive SqlConstraint := PrimaryKey | Unique | ForeignKey.

Inductive Error :=
| Sqlite (violated : SqlConstraint)
| PasswordHash
| Entropy
| NotFound
| InvalidCredentials
| Disabled
| LastAdmin
| ReservedUsername.

Record UserRecord := mkUserRecord {
  ur_id : string;
  ur_username : string;
  ur_disabled : bool;
  ur_created_at : Z
}.

#[export] Instance eta_UserRecord : Eta UserRecord := λ r,
  mkUserRecord (ur_id r) (ur_username r) (ur_disabled r) (ur_created_at r).

Record PasswordCredential := mkPasswordCredential { pc_phc_hash : string; pc_updated_at : Z }.

Record ScramMaterial := mkScramMaterial {
  sm_salt : bytes;
  sm_iterations : N;
  sm_stored_key : bytes;
  sm_server_key : bytes
}.

Record AuthSession := mkAuthSession {
  as_user_id : string;
  as_created_at : Z;
  as_expires_at : Z;
  as_auth_method : string
}.

(** The columns of [external_identities] besides the fingerprint. *)
Record ExternalIdentity := mkExternalIdentity {
  ei_user_id : string;
  ei_created_at : Z;
  ei_display_name : option string;
  ei_last_seen_at : option Z
}.

#[export] Instance eta_ExternalIdentity : Eta ExternalIdentity := λ r,
  mkExternalIdentity (ei_user_id r) (ei_created_at r) (ei_display_name r) (ei_last_seen_at r).

#[export] Instance byte_countable : Countable Byte.byte := inj_countable Byte.to_N Byte.of_N Byte.of_to_N.

Record AuthStore := mkAuthStore {
  st_users : list UserRecord;
  st_passwords : gmap string PasswordCredential;
  st_scram : gmap (string * string) ScramMaterial;
  st_sessions : gmap bytes AuthSession;
  st_roles : list (string * string);
  st_externals : gmap string ExternalIdentity
}.

#[export] Instance eta_AuthStore : Eta AuthStore := λ s,
  mkAuthStore (st_users s) (st_passwords s) (st_scram s) (st_sessions s) (st_roles s) (st_externals s).

(** [open_in_memory]: the schema with no row. *)
Definition open_in_memory : AuthStore := mkAuthStore [] ∅ ∅ ∅ [] ∅.

Abbreviation AuthM := (M AuthStore Error).

(** A transaction that is not committed is rolled back when it is dropped. *)
Definition transaction {A} (m : AuthM A) : AuthM A := λ s,
  match m s with
  | (Ok a, s') => (Ok a, s')
  | (Err e, _) => (Err e, s)
  end.

Definition user_by_id (s : AuthStore) (id : string) : option UserRecord :=
  List.find (λ u, bool_decide (ur_id u = id)) (st_users s).

Definition user_by_name (s : AuthStore) (username : string) : option UserRecord :=
  List.find (λ u, bool_decide (ur_username u = username)) (st_users s).

(** ** Statements *)

(** [INSERT INTO users]. *)
Definition insert_user (u : UserRecord) : AuthM unit := λ s,
  if bool_decide (is_Some (user_by_id s (ur_id u))) then (Err (Sqlite PrimaryKey), s)
  else if bool_decide (is_Some (user_by_name s (ur_username u))) then (Err (Sqlite Unique), s)
  else (Ok tt, s <| st_users := st_users s ++ [u] |>).

(** The check of [REFERENCES users(id)]. *)
Definition references_user (id : string) : AuthM unit := λ s,
  match user_by_id s id with
  | Some _ => (Ok tt, s)
  | None => (Err (Sqlite ForeignKey), s)
  end.

Definition insert_password (id : string) (pc : PasswordCredential) : AuthM unit :=
  s ← get;
  match st_passwords s !! id with
  | Some _ => throw (Sqlite PrimaryKey)
  | None => _ ← references_user id; modify (λ s, s <| st_passwords := <[id := pc]> (st_passwords s) |>)
  end.

Definition upsert_password (id : string) (pc : PasswordCredential) : AuthM unit :=
  _ ← references_user id; modify (λ s, s <| st_passwords := <[id := pc]> (st_passwords s) |>).

(** [INSERT OR IGNORE INTO user_roles]. *)
Definition insert_role (id : string) (role : Role) : AuthM unit :=
  s ← get;
  if bool_decide ((id, as_str role) ∈ st_roles s) then mret tt
  else _ ← references_user id; modify (λ s, s <| st_roles := st_roles s ++ [(id, as_str role)] |>).

Fixpoint insert_roles (id : string) (roles : list Role) : AuthM unit :=
  match roles with
  | [] => mret tt
  | r :: roles' => _ ← insert_role id r; insert_roles id roles'
  end.

Definition delete_roles (id : string) : AuthM unit :=
  modify (λ s, s <| st_roles := List.filter (λ row, negb (bool_decide (row.1 = id))) (st_roles s) |>).

Definition delete_sessions_of (id : string) : AuthM unit :=
  modify (λ s, s <| st_sessions := filter (λ row, as_user_id row.2 ≠ id) (st_sessions s) |>).

(** [UPDATE users SET disabled = ?2 WHERE id = ?1], with the number of rows. *)
Definition update_disabled (id : string) (disabled : bool) : AuthM nat := λ s,
  (Ok (length (List.filter (λ u, bool_decide (ur_id u = id)) (st_users s))),
   s <| st_users := (λ u, if decide (ur_id u = id) then u <| ur_disabled := disabled |> else u) <$> st_users s |>).

(** [INSERT INTO external_identities .. ON CONFLICT(fingerprint) DO UPDATE]: the
    last login of a mapping that is moved is kept. *)
Definition upsert_external (fingerprint user_id : string) (now : Z) (display_name : option string) : AuthM unit :=
  _ ← references_user user_id;
  modify (λ s, s <| st_externals := <[fingerprint := mkExternalIdentity user_id now display_name
    (st_externals s !! fingerprint ≫= ei_last_seen_at)]> (st_externals s) |>).

(** ** Third-party primitives *)

(** [password_auth], whose random salt is an argument of the hash; SHA-256, HMAC
    and PBKDF2 over it; [stringprep::saslprep], which rejects some passwords. *)
Class AuthCrypto := {
  generate_hash : bytes → string → string;
  verify_password : string → string → bool;
  sha256 : bytes → bytes;
  hmac_sha256 : bytes → bytes → bytes;
  pbkdf2_sha256 : bytes → bytes → N → bytes;
  stringprep_saslprep : string → option string;
  verify_generated : ∀ salt password, verify_password password (generate_hash salt password) = true
}.

(** The order in which SQLite returns the rows of a query without [ORDER BY]. *)
Class RowOrder := {
  row_order : list string → list string;
  row_order_perm : ∀ l, row_order l ≡ₚ l
}.

Definition SCRAM_SHA_256 : string := "SCRAM-SHA-256".
Definition SCRAM_DEFAULT_ITERATIONS : N := 4096.
Definition SCRAM_SALT_LEN : nat := 16.
Definition DEFAULT_SESSION_TTL_SECS : Z := 7 * 24 * 60 * 60.

(** What one call draws from the outside: the bytes of each [getrandom] (or its
    failure) and the clock. *)
Abbreviation Random := (option bytes).

Definition hex_digit (n : N) : Byte.byte := byte_of (if (n <? 10)%N then 48 + n else 87 + n)%N.

Definition hex (b : bytes) : string :=
  String.string_of_list_byte (b ≫= λ x, [hex_digit (Byte.to_N x / 16); hex_digit (Byte.to_N x mod 16)]).

(** [getrandom] into a buffer, then [hex]: [generate_secret_hex] and [random_hex]. *)
Definition random_hex (r : Random) : AuthM string :=
  match r with Some b => mret (hex b) | None => throw Entropy end.

(** [i64] addition of the release build. *)
Definition i64_bound : Z := 9223372036854775808.
Definition i64_add (x y : Z) : Z := (x + y + i64_bound) `mod` (2 * i64_bound) - i64_bound.

Section store.
Context {HC : AuthCrypto} {HR : RowOrder}.

Definition token_hash (token : string) : bytes := sha256 (string_bytes token).

(** ** SCRAM material *)

Definition salted_password (prepped : string) (salt : bytes) (iterations : N) : bytes :=
  pbkdf2_sha256 (string_bytes prepped) salt iterations.

Definition keys_from_salted_password (salted : bytes) : bytes * bytes :=
  let client_key := hmac_sha256 salted (string_bytes "Client Key") in
  (sha256 client_key, hmac_sha256 salted (string_bytes "Server Key")).

Definition derive_with_salt (password : string) (salt : bytes) (iterations : N) : result Error ScramMaterial :=
  match stringprep_saslprep password with
  | None => Err PasswordHash
  | Some prepped =>
      let '(stored_key, server_key) := keys_from_salted_password (salted_password prepped salt iterations) in
      Ok (mkScramMaterial salt iterations stored_key server_key)
  end.

Definition derive_scram_material (password : string) (r : Random) : result Error ScramMaterial :=
  match r with
  | None => Err Entropy
  | Some salt => derive_with_salt password salt SCRAM_DEFAULT_ITERATIONS
  end.

Definition upsert_scram (user_id password : string) (r : Random) : AuthM unit :=
  match derive_scram_material password r with
  | Err e => throw e
  | Ok m =>
      _ ← references_user user_id;
      modify (λ s, s <| st_scram := <[(user_id, SCRAM_SHA_256) := m]> (st_scram s) |>)
  end.

(** ** Users *)

Definition create_user (username password : string) (roles : list Role)
    (id_bytes : Random) (phc_salt : bytes) (scram_salt : Random) (now : Z) : AuthM UserRecord :=
  if is_reserved_username username then throw ReservedUsername
  else
    id ← random_hex id_bytes;
    if is_reserved_username id then throw ReservedUsername
    else
      let phc := generate_hash phc_salt password in
      let user := mkUserRecord id username false now in
      _ ← insert_user user;
      _ ← insert_password id (mkPasswordCredential phc now);
      _ ← upsert_scram id password scram_salt;
      _ ← insert_roles id roles;
      mret user.

Definition create_external_user (username : string) (roles : list Role) (id_bytes : Random) (now : Z)
    : AuthM UserRecord :=
  if is_reserved_username username then throw ReservedUsername
  else
    id ← random_hex id_bytes;
    if is_reserved_username id then throw ReservedUsername
    else
      let user := mkUserRecord id username false now in
      _ ← insert_user user;
      _ ← insert_roles id roles;
      mret user.

Definition enroll_paired_device (username fingerprint : string) (display_name : option string)
    (id_bytes : Random) (now : Z) : AuthM UserRecord :=
  if is_reserved_username username then throw ReservedUsername
  else
    minted_id ← random_hex id_bytes;
    if is_reserved_username minted_id then throw ReservedUsername
    else transaction (
      existing ← gets (λ s, user_by_name s username);
      '(user_id, created_at) ←
        match existing with
        | Some u => _ ← update_disabled (ur_id u) false; mret (ur_id u, ur_created_at u)
        | None =>
            _ ← insert_user (mkUserRecord minted_id username false now);
            _ ← insert_role minted_id User;
            mret (minted_id, now)
        end;
      _ ← upsert_external fingerprint user_id now display_name;
      mret (mkUserRecord user_id username false created_at)).

Definition find_user (username : string) : AuthM (option UserRecord) := gets (λ s, user_by_name s username).

(** [ORDER BY username], by the bytes of the names. *)
Definition list_users : AuthM (list UserRecord) :=
  gets (λ s, sort_by (λ a b, negb (string_ltb (ur_username b) (ur_username a))) (st_users s)).

Definition user_count : AuthM nat := gets (λ s, length (st_users s)).

Definition set_password (user_id password : string) (phc_salt : bytes) (scram_salt : Random) (now : Z) : AuthM unit :=
  _ ← upsert_password user_id (mkPasswordCredential (generate_hash phc_salt password) now);
  upsert_scram user_id password scram_salt.

Definition set_disabled (user_id : string) (disabled : bool) : AuthM unit :=
  n ← update_disabled user_id disabled;
  if (n =? 0)%nat then throw NotFound
  else if disabled then delete_sessions_of user_id else mret tt.

(** ** Roles *)

Definition roles_of (user_id : string) : AuthM (list Role) :=
  gets (λ s, omap from_wire (row_order (snd <$> List.filter (λ row, bool_decide (row.1 = user_id)) (st_roles s)))).

Definition set_roles (user_id : string) (roles : list Role) : AuthM unit :=
  _ ← delete_roles user_id; insert_roles user_id roles.

(** ** Authentication *)

Definition principal_for_user (user_id username : string) : AuthM Principal :=
  roles ← roles_of user_id; mret (from_roles user_id username roles).

Definition authenticate_password (username password : string) : AuthM Principal :=
  found ← find_user username;
  user ← ok_or found InvalidCredentials;
  if ur_disabled user then throw Disabled
  else
    row ← gets (λ s, st_passwords s !! ur_id user);
    pc ← ok_or row InvalidCredentials;
    if verify_password password (pc_phc_hash pc) then principal_for_user (ur_id user) (ur_username user)
    else throw InvalidCredentials.

Definition set_scram_credentials (user_id password : string) (scram_salt : Random) : AuthM unit :=
  found ← gets (λ s, user_by_id s user_id);
  match found with
  | None => throw NotFound
  | Some _ => upsert_scram user_id password scram_salt
  end.

Definition scram_credentials_for (user_id mechanism : string) : AuthM (option ScramMaterial) :=
  gets (λ s, st_scram s !! (user_id, mechanism)).

(** ** Session tokens *)

Definition mint_session (user_id : string) (ttl_secs : Z) (method : string) (token_bytes : Random) (now : Z)
    : AuthM string :=
  token ← random_hex token_bytes;
  s ← get;
  match st_sessions s !! token_hash token with
  | Some _ => throw (Sqlite PrimaryKey)
  | None =>
      _ ← references_user user_id;
      _ ← modify (λ s, s <| st_sessions :=
             <[token_hash token := mkAuthSession user_id now (i64_add now ttl_secs) method]> (st_sessions s) |>);
      mret token
  end.

Definition delete_session (hash : bytes) : AuthM unit :=
  modify (λ s, s <| st_sessions := delete hash (st_sessions s) |>).

Definition principal_for_token (token : string) (now : Z) : AuthM Principal :=
  found ← gets (λ s, st_sessions s !! token_hash token);
  row ← ok_or found NotFound;
  if (as_expires_at row <=? now)%Z then _ ← delete_session (token_hash token); throw NotFound
  else
    found_user ← gets (λ s, user_by_id s (as_user_id row));
    user ← ok_or found_user NotFound;
    if ur_disabled user then throw Disabled
    else principal_for_user (as_user_id row) (ur_username user).

Definition revoke_token (token : string) : AuthM unit := delete_session (token_hash token).

Definition session_count : AuthM nat := gets (λ s, size (st_sessions s)).

Definition revoke_user_sessions (user_id : string) : AuthM unit := delete_sessions_of user_id.

(** ** External identities *)

Definition set_external_identity (user_id fingerprint : string) (display_name : option string) (now : Z) : AuthM unit :=
  found ← gets (λ s, user_by_id s user_id);
  match found with
  | None => throw NotFound
  | Some _ => upsert_external fingerprint user_id now display_name
  end.

Definition touch_external_identity (fingerprint : string) (now : Z) : AuthM unit :=
  modify (λ s, s <| st_externals :=
    alter (λ row, row <| ei_last_seen_at := Some now |>) fingerprint (st_externals s) |>).

Definition remove_external_identity (fingerprint : string) : AuthM bool := λ s,
  (Ok (bool_decide (is_Some (st_externals s !! fingerprint))),
   s <| st_externals := delete fingerprint (st_externals s) |>).

Record ExternalIdentityRecord := mkExternalIdentityRecord {
  er_fingerprint : string;
  er_user_id : string;
  er_username : string;
  er_display_name : option string;
  er_created_at : Z;
  er_last_seen_at : option Z;
  er_disabled : bool
}.

(** The join with [users]; [ORDER BY e.created_at DESC, e.fingerprint]. *)
Definition external_record (s : AuthStore) (row : string * ExternalIdentity) : option ExternalIdentityRecord :=
  u ← user_by_id s (ei_user_id row.2);
  Some (mkExternalIdentityRecord row.1 (ei_user_id row.2) (ur_username u) (ei_display_name row.2)
    (ei_created_at row.2) (ei_last_seen_at row.2) (ur_disabled u)).

Definition external_leb (a b : ExternalIdentityRecord) : bool :=
  match (er_created_at b ?= er_created_at a)%Z with
  | Lt => true
  | Gt => false
  | Eq => negb (string_ltb (er_fingerprint b) (er_fingerprint a))
  end.

Definition list_external_identities : AuthM (list ExternalIdentityRecord) :=
  gets (λ s, sort_by external_leb (omap (external_record s) (map_to_list (st_externals s)))).

Definition external_identity (fingerprint : string) : AuthM (option (string * string)) :=
  gets (λ s,
    row ← st_externals s !! fingerprint;
    u ← user_by_id s (ei_user_id row);
    if ur_disabled u then None else Some (ur_id u, ur_username u)).

(** ** The last administrator *)

(** A row of [users JOIN user_roles] with the role [admin], enabled. *)
Definition enabled_admin (s : AuthStore) (u : UserRecord) : bool :=
  negb (ur_disabled u) && bool_decide ((ur_id u, as_str Admin) ∈ st_roles s).

Definition other_enabled_admins (exclude_user_id : string) : AuthM nat :=
  gets (λ s, length (List.filter (λ u, enabled_admin s u && negb (bool_decide (ur_id u = exclude_user_id))) (st_users s))).

Definition is_enabled_admin (user_id : string) : AuthM bool :=
  gets (λ s, existsb (λ u, enabled_admin s u && bool_decide (ur_id u = user_id)) (st_users s)).

(** The lockout condition both guarded operations test. *)
Definition last_admin (user_id : string) : AuthM bool :=
  is_enabled_admin user_id ≫= λ adm : bool,
  if adm then other_enabled_admins user_id ≫= λ others, mret (others =? 0)%nat else mret false.

Definition set_disabled_guarded (user_id : string) (disabled : bool) : AuthM unit :=
  transaction (
    (if disabled then last_admin user_id else mret false) ≫= λ locked : bool,
    if locked then throw LastAdmin
    else
      n ← update_disabled user_id disabled;
      if (n =? 0)%nat then throw NotFound
      else if disabled then delete_sessions_of user_id else mret tt).

Definition set_roles_guarded (user_id : string) (roles : list Role) : AuthM unit :=
  transaction (
    (if bool_decide (Admin ∈ roles) then mret false else last_admin user_id) ≫= λ locked : bool,
    if locked then throw LastAdmin
    else _ ← delete_roles user_id; insert_roles user_id roles).

(** ** The first administrator ([bootstrap.rs]) *)

Inductive AdminSeed :=
| Explicit (username password : string)
| Generate.

Record SeededAdmin := mkSeededAdmin { sa_username : string; sa_generated_password : option string }.

Definition seed_identity (seed : AdminSeed) (name_bytes password_bytes : Random)
    : AuthM (string * string * option string) :=
  match seed with
  | Explicit username password => mret (username, password, None)
  | Generate =>
      suffix ← random_hex name_bytes;
      password ← random_hex password_bytes;
      mret (String.append "admin-" suffix, password, Some password)
  end.

Definition seed_first_admin_if_empty (seed : AdminSeed) (name_bytes password_bytes id_bytes : Random)
    (phc_salt : bytes) (scram_salt : Random) (now : Z) : AuthM (option SeededAdmin) :=
  n ← user_count;
  if (0 <? n)%nat then mret None
  else
    '(username, password, generated) ← seed_identity seed name_bytes password_bytes;
    _ ← create_user username password [Admin] id_bytes phc_salt scram_salt now;
    mret (Some (mkSeededAdmin username generated)).
End store.
