(* ===== verification/AuthFacts.v ===== *)
(** * What the identity store guarantees

    The operations as steps, the well-formedness of the tables, the administrator
    that guarded changes cannot remove, and the life of a session token. *)

From S2P Require Import Prelude Text Auth.
From Stdlib Require Import ZArith Strings.Byte.

Create HintDb auth.

(** ** Roles *)

Lemma elem_of_cap_set c l : c ∈ cap_set l ↔ c ∈ l.
Proof.
  unfold cap_set. rewrite list_elem_of_In, filter_In, <- list_elem_of_In, bool_decide_eq_true.
  split; [by intros [_ ?]|]. intros Hc. split; [|done]. destruct c; apply (bool_decide_unpack _); by vm_compute.
Qed.

Lemma has_from_roles id name roles c :
  has (from_roles id name roles) c = true ↔ ∃ r, r ∈ roles ∧ c ∈ capabilities r.
Proof.
  unfold has, from_roles. simpl. rewrite bool_decide_eq_true, elem_of_cap_set, list_elem_of_bind. naive_solver.
Qed.

Lemma from_wire_as_str r : from_wire (as_str r) = Some r.
Proof. by destruct r. Qed.

Lemma as_str_from_wire s r : from_wire s = Some r → s = as_str r.
Proof. unfold from_wire. repeat case_decide; intros; by simplify_eq. Qed.

Lemma as_str_inj r r' : as_str r = as_str r' → r = r'.
Proof. by destruct r, r'. Qed.

(** Each role has the capabilities of the one below it and more. *)
Definition role_leb (a b : Role) : bool :=
  match a, b with
  | Viewer, _ | _, Admin | User, User | User, Operator | Operator, Operator => true
  | _, _ => false
  end.

Lemma capabilities_ladder a b : role_leb a b = true ↔ capabilities a ⊆ capabilities b.
Proof.
  assert (∀ l k : list Capability, Forall (λ c, c ∈ k) l ↔ l ⊆ k) as Hf by (intros; apply Forall_forall).
  rewrite <- Hf. split.
  - intros Hr. apply (bool_decide_unpack _). revert Hr. by destruct a, b; vm_compute.
  - intros Hs. apply (bool_decide_pack _) in Hs. revert Hs. by destruct a, b; vm_compute.
Qed.

(** ** Properties kept by code *)

Section keeps.
Variable P : AuthStore → Prop.

Definition keeps {A} (m : AuthM A) : Prop := ∀ s, P s → P (m s).2.

Lemma keeps_ret {A} (a : A) : keeps (mret a).
Proof. by intros s. Qed.

Lemma keeps_throw {A} e : keeps (throw (A := A) e).
Proof. by intros s. Qed.

Lemma keeps_gets {A} (f : AuthStore → A) : keeps (gets f).
Proof. by intros s. Qed.

Lemma keeps_get : keeps get.
Proof. by intros s. Qed.

Lemma keeps_ok_or {A} (o : option A) e : keeps (ok_or o e).
Proof. by destruct o; intros s. Qed.

Lemma keeps_bind {A B} (m : AuthM A) (f : A → AuthM B) : keeps m → (∀ a, keeps (f a)) → keeps (m ≫= f).
Proof.
  intros Hm Hf s Hs. unfold mbind, M_bind. specialize (Hm s Hs). destruct (m s) as [[a|e] s']; [|done]. by apply Hf.
Qed.

Lemma keeps_transaction {A} (m : AuthM A) : keeps m → keeps (transaction m).
Proof. intros Hm s Hs. specialize (Hm s Hs). unfold transaction. by destruct (m s) as [[a|e] s']. Qed.

(** Only a committed transaction matters. *)
Lemma keeps_committed {A} (m : AuthM A) : (∀ s a s', P s → m s = (Ok a, s') → P s') → keeps (transaction m).
Proof. intros Hm s Hs. unfold transaction. destruct (m s) as [[a|e] s'] eqn:E; [|done]. by eapply Hm. Qed.

Lemma keeps_random r : keeps (random_hex r).
Proof. destruct r; by intros s. Qed.

Lemma keeps_references id : keeps (references_user id).
Proof. intros s. unfold references_user. by destruct (user_by_id s id). Qed.

Lemma keeps_insert_roles id roles : (∀ r, keeps (insert_role id r)) → keeps (insert_roles id roles).
Proof.
  intros Hr. induction roles as [|r roles IH]; simpl; [apply keeps_ret|].
  apply keeps_bind; [apply Hr|intros _; exact IH].
Qed.
End keeps.

(** Peels the control structure of an operation off, down to its statements. *)
Ltac keeps_steps :=
  repeat first
    [ apply keeps_ret | apply keeps_throw | apply keeps_gets | apply keeps_get | apply keeps_ok_or
    | apply keeps_random | apply keeps_references | apply keeps_insert_roles | (by auto with auth)
    | progress (intros)
    | apply keeps_bind | apply keeps_transaction
    | match goal with
      | |- keeps _ (if ?b then _ else _) => destruct b
      | |- keeps _ (match ?x with _ => _ end) => destruct x
      end ].

Ltac keeps_ops :=
  intros; unfold set_disabled_guarded, set_roles_guarded, last_admin, is_enabled_admin, other_enabled_admins, set_disabled,
    set_roles, set_password, set_scram_credentials, set_external_identity, principal_for_token, principal_for_user,
    roles_of, revoke_token, revoke_user_sessions, find_user, user_count; keeps_steps.

(** ** Operations as steps *)

Section ops.
Context {HC : AuthCrypto} {HR : RowOrder}.

Inductive AuthOp :=
| OpCreateUser (username password : string) (roles : list Role) (id_bytes : Random) (phc_salt : bytes)
    (scram_salt : Random) (now : Z)
| OpCreateExternalUser (username : string) (roles : list Role) (id_bytes : Random) (now : Z)
| OpEnroll (username fingerprint : string) (display_name : option string) (id_bytes : Random) (now : Z)
| OpSetPassword (user_id password : string) (phc_salt : bytes) (scram_salt : Random) (now : Z)
| OpSetDisabled (user_id : string) (disabled : bool)
| OpSetRoles (user_id : string) (roles : list Role)
| OpSetScram (user_id password : string) (scram_salt : Random)
| OpMint (user_id : string) (ttl_secs : Z) (method : string) (token_bytes : Random) (now : Z)
| OpResolve (token : string) (now : Z)
| OpRevokeToken (token : string)
| OpRevokeUser (user_id : string)
| OpSetExternal (user_id fingerprint : string) (display_name : option string) (now : Z)
| OpTouch (fingerprint : string) (now : Z)
| OpRemoveExternal (fingerprint : string)
| OpSetDisabledGuarded (user_id : string) (disabled : bool)
| OpSetRolesGuarded (user_id : string) (roles : list Role)
| OpSeed (seed : AdminSeed) (name_bytes password_bytes id_bytes : Random) (phc_salt : bytes)
    (scram_salt : Random) (now : Z).

Definition run_op (op : AuthOp) (s : AuthStore) : AuthStore :=
  match op with
  | OpCreateUser u p r i ps ss n => (create_user u p r i ps ss n s).2
  | OpCreateExternalUser u r i n => (create_external_user u r i n s).2
  | OpEnroll u f d i n => (enroll_paired_device u f d i n s).2
  | OpSetPassword u p ps ss n => (set_password u p ps ss n s).2
  | OpSetDisabled u d => (set_disabled u d s).2
  | OpSetRoles u r => (set_roles u r s).2
  | OpSetScram u p ss => (set_scram_credentials u p ss s).2
  | OpMint u t m b n => (mint_session u t m b n s).2
  | OpResolve t n => (principal_for_token t n s).2
  | OpRevokeToken t => (revoke_token t s).2
  | OpRevokeUser u => (revoke_user_sessions u s).2
  | OpSetExternal u f d n => (set_external_identity u f d n s).2
  | OpTouch f n => (touch_external_identity f n s).2
  | OpRemoveExternal f => (remove_external_identity f s).2
  | OpSetDisabledGuarded u d => (set_disabled_guarded u d s).2
  | OpSetRolesGuarded u r => (set_roles_guarded u r s).2
  | OpSeed sd nb pb i ps ss n => (seed_first_admin_if_empty sd nb pb i ps ss n s).2
  end.

Definition run_ops (ops : list AuthOp) (s : AuthStore) : AuthStore := foldl (λ s op, run_op op s) s ops.

(** ** Well-formed tables *)

Definition user_ids (s : AuthStore) : list string := ur_id <$> st_users s.

(** The constraints of the schema, and no reserved name. *)
Record auth_wf (s : AuthStore) : Prop := {
  wf_ids : NoDup (user_ids s);
  wf_names : NoDup (ur_username <$> st_users s);
  wf_roles : NoDup (st_roles s);
  wf_reserved : Forall (λ u, is_reserved_username (ur_username u) = false ∧
    is_reserved_username (ur_id u) = false) (st_users s);
  wf_password_users : ∀ id pc, st_passwords s !! id = Some pc → id ∈ user_ids s;
  wf_scram_users : ∀ id m sm, st_scram s !! (id, m) = Some sm → id ∈ user_ids s;
  wf_session_users : ∀ h row, st_sessions s !! h = Some row → as_user_id row ∈ user_ids s;
  wf_role_users : ∀ row, row ∈ st_roles s → row.1 ∈ user_ids s;
  wf_external_users : ∀ f row, st_externals s !! f = Some row → ei_user_id row ∈ user_ids s
}.

Lemma find_user_spec {B} `{EqDecision B} (f : UserRecord → B) (b : B) l u :
  List.find (λ u, bool_decide (f u = b)) l = Some u → u ∈ l ∧ f u = b.
Proof. intros [Hin Hb]%find_some. apply bool_decide_eq_true in Hb. split; [by apply list_elem_of_In|done]. Qed.

Lemma find_user_none {B} `{EqDecision B} (f : UserRecord → B) (b : B) l :
  List.find (λ u, bool_decide (f u = b)) l = None ↔ b ∉ f <$> l.
Proof.
  split.
  - intros Hn (u & -> & Hu%list_elem_of_In)%list_elem_of_fmap. eapply find_none in Hn; [|exact Hu].
    by apply bool_decide_eq_false in Hn.
  - intros Hn. destruct (List.find _ l) as [u|] eqn:E; [|done]. apply find_user_spec in E as [Hin <-].
    destruct Hn. by apply list_elem_of_fmap_2.
Qed.

Lemma user_by_id_Some s id u : user_by_id s id = Some u → u ∈ st_users s ∧ ur_id u = id.
Proof. apply find_user_spec. Qed.

Lemma user_by_id_ids s id : is_Some (user_by_id s id) ↔ id ∈ user_ids s.
Proof.
  unfold user_by_id. pose proof (find_user_none ur_id id (st_users s)) as Hn.
  destruct (List.find _ _) as [u|] eqn:E; split; intros Hi; [|eauto|by destruct Hi|].
  - apply find_user_spec in E as [Hin <-]. by apply list_elem_of_fmap_2.
  - by destruct (proj1 Hn).
Qed.

Lemma NoDup_fmap_inj {B} (f : UserRecord → B) l u v : NoDup (f <$> l) → u ∈ l → v ∈ l → f u = f v → u = v.
Proof.
  intros Hn Hu Hv Hf. apply list_elem_of_lookup in Hu as [i Hi], Hv as [j Hj].
  assert (i = j) as ->; [|congruence]. apply (NoDup_lookup (f <$> l) i j (f u) Hn);
    rewrite list_lookup_fmap, ?Hi, ?Hj; simpl; congruence.
Qed.

(** Under unique ids the lookup finds every row. *)
Lemma user_by_id_unique s u : NoDup (user_ids s) → u ∈ st_users s → user_by_id s (ur_id u) = Some u.
Proof.
  intros Hn Hu. destruct (user_by_id s (ur_id u)) as [v|] eqn:E.
  - apply user_by_id_Some in E as [Hv Heq]. f_equal. by apply (NoDup_fmap_inj ur_id (st_users s)).
  - exfalso. apply find_user_none in E. apply E. by apply list_elem_of_fmap_2.
Qed.

Lemma user_by_name_unique s u :
  NoDup (ur_username <$> st_users s) → u ∈ st_users s → user_by_name s (ur_username u) = Some u.
Proof.
  intros Hn Hu. destruct (user_by_name s (ur_username u)) as [v|] eqn:E.
  - apply find_user_spec in E as [Hv Heq]. f_equal. by apply (NoDup_fmap_inj ur_username (st_users s)).
  - exfalso. apply find_user_none in E. apply E. by apply list_elem_of_fmap_2.
Qed.

Lemma update_ids id d s : user_ids (update_disabled id d s).2 = user_ids s.
Proof.
  unfold user_ids, update_disabled. simpl. rewrite <- list_fmap_compose. apply list_fmap_ext.
  intros i u _. simpl. by case_decide.
Qed.

(** *** The statements *)

Lemma wf_insert_user u :
  is_reserved_username (ur_username u) = false → is_reserved_username (ur_id u) = false →
  keeps auth_wf (insert_user u).
Proof.
  intros H1 H2 s [Hi Hn Hro Hr Hp Hsc Hse Hru He]. unfold insert_user.
  case_bool_decide as E1; [done|]. case_bool_decide as E2; [done|]. simpl.
  assert (ur_id u ∉ user_ids s) as E1' by (by rewrite <- user_by_id_ids).
  assert (user_by_name s (ur_username u) = None) as E2'%find_user_none by (by apply eq_None_not_Some).
  assert (∀ x, x ∈ user_ids s → x ∈ user_ids (s <| st_users := st_users s ++ [u] |>)) as Hsub.
  { intros x Hx. unfold user_ids. simpl. rewrite fmap_app. by apply elem_of_app; left. }
  constructor; simpl; try (by eauto).
  - unfold user_ids. simpl. rewrite fmap_app. apply NoDup_app. split_and!; [done| |apply NoDup_singleton].
    intros x Hx ->%list_elem_of_singleton. done.
  - rewrite fmap_app. apply NoDup_app. split_and!; [done| |apply NoDup_singleton].
    intros x Hx ->%list_elem_of_singleton. done.
  - apply Forall_app. split; [done|]. by constructor.
Qed.

(** A statement that writes after the reference check keeps a property if the
    write keeps it where the user exists. *)
Lemma keeps_referencing {A} (P : AuthStore → Prop) id (m : AuthM A) :
  (∀ s, P s → id ∈ user_ids s → P (m s).2) → keeps P (_ ← references_user id; m).
Proof.
  intros Hm s Hs. unfold mbind, M_bind, references_user.
  destruct (user_by_id s id) as [u|] eqn:E; [|done]. apply Hm; [done|]. apply user_by_id_ids. eauto.
Qed.

Lemma wf_modify_passwords id pc s :
  auth_wf s → id ∈ user_ids s → auth_wf (s <| st_passwords := <[id := pc]> (st_passwords s) |>).
Proof.
  intros [] Hid. constructor; simpl; try done. intros id' pc'. rewrite lookup_insert_Some. naive_solver.
Qed.

Lemma wf_insert_password id pc : keeps auth_wf (insert_password id pc).
Proof.
  unfold insert_password. apply keeps_bind; [apply keeps_get|intros s0].
  destruct (st_passwords s0 !! id); [apply keeps_throw|].
  apply keeps_referencing. intros s Hs Hid. by apply wf_modify_passwords.
Qed.

Lemma wf_upsert_password id pc : keeps auth_wf (upsert_password id pc).
Proof. apply keeps_referencing. intros s Hs Hid. by apply wf_modify_passwords. Qed.

Lemma wf_insert_role id r : keeps auth_wf (insert_role id r).
Proof.
  intros s Hs. unfold insert_role. unfold mbind at 1, M_bind at 1, get. case_bool_decide as E; [done|].
  revert s Hs E. intros s Hs E. unfold mbind, M_bind, references_user.
  destruct (user_by_id s id) as [u|] eqn:Eu; [|done]. assert (id ∈ user_ids s) as Hid by (apply user_by_id_ids; eauto).
  destruct Hs. simpl. constructor; simpl; try done.
  - apply NoDup_app. split_and!; [done| |apply NoDup_singleton]. by intros x Hx ->%list_elem_of_singleton.
  - intros row [Hr|Hr]%elem_of_app; [by auto|]. by apply list_elem_of_singleton in Hr as ->.
Qed.

Lemma wf_delete_roles id : keeps auth_wf (delete_roles id).
Proof.
  intros s []. simpl. constructor; simpl; try done.
  - eapply sublist_NoDup; [|apply sublist_filter_b]. done.
  - intros row Hr. apply list_elem_of_In, filter_In in Hr as [Hr _]. by apply wf_role_users0, list_elem_of_In.
Qed.

Lemma wf_sessions (f : gmap bytes AuthSession → gmap bytes AuthSession) s :
  (∀ m h row, f m !! h = Some row → m !! h = Some row) → auth_wf s → auth_wf (s <| st_sessions := f (st_sessions s) |>).
Proof. intros Hf []. constructor; simpl; try done. intros h row Hr%Hf. eauto. Qed.

Lemma wf_delete_sessions id : keeps auth_wf (delete_sessions_of id).
Proof. intros s Hs. apply (wf_sessions (filter _)); [|done]. intros m h row Hr. by apply map_lookup_filter_Some in Hr as [? _]. Qed.

Lemma wf_delete_session h : keeps auth_wf (delete_session h).
Proof. intros s Hs. apply (wf_sessions (delete h)); [|done]. intros m h' row Hr. by apply lookup_delete_Some in Hr as [_ ?]. Qed.

Lemma wf_update_disabled id d : keeps auth_wf (update_disabled id d).
Proof.
  intros s Hs. pose proof (update_ids id d s) as Hid. destruct Hs. constructor; rewrite ?Hid; simpl; try done.
  - rewrite <- list_fmap_compose. erewrite list_fmap_ext; [done|]. intros i u _. simpl. by case_decide.
  - apply Forall_fmap. eapply Forall_impl; [done|]. intros u Hu. simpl. by case_decide.
Qed.

Lemma wf_upsert_external f id now d : keeps auth_wf (upsert_external f id now d).
Proof.
  apply keeps_referencing. intros s [] Hid. constructor; simpl; try done.
  intros f' row. rewrite lookup_insert_Some. naive_solver.
Qed.

Lemma wf_upsert_scram id p r : keeps auth_wf (upsert_scram id p r).
Proof.
  unfold upsert_scram. destruct (derive_scram_material p r) as [m|e]; [|apply keeps_throw].
  apply keeps_referencing. intros s [] Hid. constructor; simpl; try done.
  intros id' m' sm. rewrite lookup_insert_Some. naive_solver.
Qed.

Lemma wf_mint id ttl m b now : keeps auth_wf (mint_session id ttl m b now).
Proof.
  unfold mint_session. apply keeps_bind; [apply keeps_random|intros token]. apply keeps_bind; [apply keeps_get|].
  intros s0. destruct (st_sessions s0 !! token_hash token); [apply keeps_throw|]. apply keeps_referencing.
  intros s [] Hid. constructor; simpl; try done. intros h row. rewrite lookup_insert_Some. naive_solver.
Qed.

Lemma wf_touch f now : keeps auth_wf (touch_external_identity f now).
Proof.
  intros s []. constructor; simpl; try done. intros f' row. rewrite lookup_alter_Some.
  intros [(_ & r & Hr & ->)|[_ Hr]]; simpl; eauto.
Qed.

Lemma wf_remove_external f : keeps auth_wf (remove_external_identity f).
Proof. intros s []. constructor; simpl; try done. intros f' row [_ ?]%lookup_delete_Some. eauto. Qed.

#[local] Hint Resolve wf_insert_user wf_insert_password wf_upsert_password wf_insert_role wf_delete_roles
  wf_delete_sessions wf_delete_session wf_update_disabled wf_upsert_external wf_upsert_scram wf_mint
  wf_touch wf_remove_external : auth.

Lemma wf_create_user u p r i ps ss now : keeps auth_wf (create_user u p r i ps ss now).
Proof.
  unfold create_user. destruct (is_reserved_username u) eqn:E1; [apply keeps_throw|].
  apply keeps_bind; [apply keeps_random|intros id].
  destruct (is_reserved_username id) eqn:E2; [apply keeps_throw|]. keeps_steps.
Qed.

Lemma wf_create_external u r i now : keeps auth_wf (create_external_user u r i now).
Proof.
  unfold create_external_user. destruct (is_reserved_username u) eqn:E1; [apply keeps_throw|].
  apply keeps_bind; [apply keeps_random|intros id].
  destruct (is_reserved_username id) eqn:E2; [apply keeps_throw|]. keeps_steps.
Qed.

Lemma wf_enroll u f d i now : keeps auth_wf (enroll_paired_device u f d i now).
Proof.
  unfold enroll_paired_device. destruct (is_reserved_username u) eqn:E1; [apply keeps_throw|].
  apply keeps_bind; [apply keeps_random|intros id].
  destruct (is_reserved_username id) eqn:E2; [apply keeps_throw|]. keeps_steps.
Qed.

(** A property kept by the operations is kept by a step. *)
Lemma keeps_after {A} P (m : AuthM A) s : keeps P m → P s → P (m s).2.
Proof. auto. Qed.

Lemma wf_seed sd nb pb i ps ss now : keeps auth_wf (seed_first_admin_if_empty sd nb pb i ps ss now).
Proof.
  unfold seed_first_admin_if_empty, user_count, seed_identity. keeps_steps; apply wf_create_user.
Qed.

Lemma wf_run_op op s : auth_wf s → auth_wf (run_op op s).
Proof.
  destruct op; cbn [run_op]; apply keeps_after;
    first [by auto using wf_create_user, wf_create_external, wf_enroll, wf_seed | keeps_ops].
Qed.

(** In every store that operations can make of an empty one, whatever they are
    given, ids and names of users are unique, no user has a reserved name, and
    every password, SCRAM key, session, role and device belongs to a user. *)
Theorem auth_store_wf ops : auth_wf (run_ops ops open_in_memory).
Proof.
  unfold run_ops. assert (auth_wf open_in_memory) as H0.
  { constructor; [apply NoDup_nil_2..|constructor| | | | |]; simpl; try done. by intros row ?%elem_of_nil. }
  revert H0. generalize open_in_memory. induction ops as [|op ops IH]; intros s Hs; simpl; [done|].
  by apply IH, wf_run_op.
Qed.

(** ** The last administrator *)

Definition has_admin (s : AuthStore) : Prop := ∃ u, u ∈ st_users s ∧ enabled_admin s u = true.

Lemma enabled_admin_iff s u :
  enabled_admin s u = true ↔ ur_disabled u = false ∧ (ur_id u, as_str Admin) ∈ st_roles s.
Proof. unfold enabled_admin. rewrite andb_true_iff, negb_true_iff, bool_decide_eq_true. done. Qed.

(** Growing the tables of users and roles keeps an administrator. *)
Lemma has_admin_mono s s' :
  (∀ u, u ∈ st_users s → u ∈ st_users s') → (∀ r, r ∈ st_roles s → r ∈ st_roles s') → has_admin s → has_admin s'.
Proof. intros Hu Hr (u & Hin & [? ?]%enabled_admin_iff). exists u. rewrite enabled_admin_iff. auto. Qed.

Lemma admin_same {A} (m : AuthM A) :
  (∀ s, st_users (m s).2 = st_users s ∧ st_roles (m s).2 = st_roles s) → keeps has_admin m.
Proof. intros Hm s. destruct (Hm s) as [Hu Hr]. apply has_admin_mono; by rewrite ?Hu, ?Hr. Qed.

Lemma admin_insert_user u : keeps has_admin (insert_user u).
Proof.
  intros s. unfold insert_user. repeat case_bool_decide; simpl; try done. apply has_admin_mono; simpl; [|done].
  intros v Hv. by apply elem_of_app; left.
Qed.

Lemma admin_insert_role id r : keeps has_admin (insert_role id r).
Proof.
  intros s Hs. unfold insert_role. unfold mbind at 1, M_bind at 1, get. case_bool_decide; [done|].
  unfold mbind, M_bind, references_user. destruct (user_by_id s id); [|done].
  revert Hs. apply has_admin_mono; simpl; [done|]. intros row Hr. by apply elem_of_app; left.
Qed.

Lemma admin_enable id : keeps has_admin (update_disabled id false).
Proof.
  intros s (u & Hu & [Hd Hr]%enabled_admin_iff). exists (if decide (ur_id u = id) then u <| ur_disabled := false |> else u).
  split; [apply list_elem_of_fmap; by exists u|]. apply enabled_admin_iff. by case_decide.
Qed.

(** Whoever is excluded, an administrator that is not excluded is counted. *)
Lemma last_admin_spec id s b s' :
  last_admin id s = (Ok b, s') → s' = s ∧ (b = false → has_admin s →
    ∃ u, u ∈ st_users s ∧ enabled_admin s u = true ∧ ur_id u ≠ id).
Proof.
  unfold last_admin, is_enabled_admin, other_enabled_admins, mbind, M_bind, gets, mret, M_ret.
  destruct (existsb _ _) eqn:E; intros; simplify_eq; (split; [done|]).
  - intros Hn%Nat.eqb_neq _. destruct (List.filter _ _) as [|u l] eqn:Ef; [done|].
    assert (In u (List.filter (λ u, enabled_admin s' u && negb (bool_decide (ur_id u = id))) (st_users s'))) as Hin
      by (rewrite Ef; by left).
    apply filter_In in Hin as [Hin [Ha Hne]%andb_true_iff]. apply negb_true_iff, bool_decide_eq_false in Hne.
    exists u. by rewrite list_elem_of_In.
  - intros _ (u & Hu & Ha). exists u. split_and!; [done..|]. intros Heq. apply existsb_false_Forall in E.
    rewrite Forall_forall in E. specialize (E u Hu). rewrite Ha, bool_decide_eq_true_2 in E by done. done.
Qed.

Lemma admin_disabled_guarded id d : keeps has_admin (set_disabled_guarded id d).
Proof.
  apply keeps_committed. intros s [] s' Hs E.
  apply M_bind_inv in E as [(? & _ & ?)|(locked & s1 & Hl & E)]; [done|]. destruct locked; [done|].
  apply M_bind_inv in E as [(? & _ & ?)|(n & s2 & Hu & E)]; [done|]. destruct (n =? 0)%nat; [done|].
  destruct d.
  - apply last_admin_spec in Hl as [-> Hl]. destruct (Hl eq_refl Hs) as (u & Hin & [Hd Hr]%enabled_admin_iff & Hne).
    injection Hu as _ <-. injection E as <-. exists u. split; [|by apply enabled_admin_iff].
    simpl. apply list_elem_of_fmap. exists u. by rewrite decide_False.
  - injection Hl as <-. injection E as <-. pose proof (admin_enable id s Hs) as Hk. by rewrite Hu in Hk.
Qed.

Lemma insert_role_present id r s s' : insert_role id r s = (Ok tt, s') →
  st_users s' = st_users s ∧ (∀ row, row ∈ st_roles s → row ∈ st_roles s') ∧ (id, as_str r) ∈ st_roles s'.
Proof.
  unfold insert_role. unfold mbind at 1, M_bind at 1, get. case_bool_decide as E.
  - intros [= <-]. done.
  - unfold mbind, M_bind, references_user. destruct (user_by_id s id); [|done]. intros [= <-]. simpl. set_solver.
Qed.

Lemma insert_roles_present id rs s s' : insert_roles id rs s = (Ok tt, s') →
  st_users s' = st_users s ∧ (∀ row, row ∈ st_roles s → row ∈ st_roles s') ∧
  (∀ r, r ∈ rs → (id, as_str r) ∈ st_roles s').
Proof.
  revert s. induction rs as [|r rs IH]; intros s; simpl.
  { intros [= <-]. split_and!; [done..|]. intros r. by rewrite elem_of_nil. }
  intros [(? & _ & ?)|([] & s1 & H1 & H2)]%M_bind_inv; [done|].
  apply insert_role_present in H1 as (U1 & R1 & P1). apply IH in H2 as (U2 & R2 & P2).
  split_and!; [congruence|auto|]. intros r' [->|Hr]%elem_of_cons; auto.
Qed.

Lemma admin_roles_guarded id rs : keeps has_admin (set_roles_guarded id rs).
Proof.
  apply keeps_committed. intros s [] s' Hs E.
  apply M_bind_inv in E as [(? & _ & ?)|(locked & s1 & Hl & E)]; [done|]. destruct locked; [done|].
  apply M_bind_inv in E as [(? & _ & ?)|([] & s2 & Hd & E)]; [done|]. injection Hd as <-.
  apply insert_roles_present in E as (U & R & Pr). simpl in U, R.
  assert (∀ u, u ∈ st_users s1 → (ur_id u, as_str Admin) ∈ st_roles s1 → ur_id u ≠ id →
    (ur_id u, as_str Admin) ∈ st_roles s') as Hother.
  { intros u _ Hin Hne. apply R, list_elem_of_In, filter_In. split; [by apply list_elem_of_In|].
    simpl. by rewrite bool_decide_eq_false_2. }
  case_bool_decide as Hadm.
  - injection Hl as <-. destruct Hs as (u & Hin & [Hdis Hr]%enabled_admin_iff). exists u. rewrite U.
    split; [done|]. apply enabled_admin_iff. split; [done|]. destruct (decide (ur_id u = id)) as [->|]; auto.
  - apply last_admin_spec in Hl as [-> Hl]. destruct (Hl eq_refl Hs) as (u & Hin & [Hdis Hr]%enabled_admin_iff & Hne).
    exists u. rewrite U. split; [done|]. apply enabled_admin_iff. auto.
Qed.

#[local] Hint Resolve admin_insert_user admin_insert_role admin_enable : auth.

Lemma admin_upsert_scram id p r : keeps has_admin (upsert_scram id p r).
Proof.
  unfold upsert_scram. destruct (derive_scram_material p r); [|apply keeps_throw].
  apply keeps_bind; [apply keeps_references|intros _]. by apply admin_same.
Qed.

Lemma admin_insert_password id pc : keeps has_admin (insert_password id pc).
Proof.
  unfold insert_password. apply keeps_bind; [apply keeps_get|intros s0]. destruct (st_passwords s0 !! id); [apply keeps_throw|].
  apply keeps_bind; [apply keeps_references|intros _]. by apply admin_same.
Qed.

Lemma admin_upsert_password id pc : keeps has_admin (upsert_password id pc).
Proof. apply keeps_bind; [apply keeps_references|intros _]. by apply admin_same. Qed.

Lemma admin_upsert_external f id now d : keeps has_admin (upsert_external f id now d).
Proof. apply keeps_bind; [apply keeps_references|intros _]. by apply admin_same. Qed.

Lemma admin_delete_sessions id : keeps has_admin (delete_sessions_of id).
Proof. by apply admin_same. Qed.

Lemma admin_delete_session h : keeps has_admin (delete_session h).
Proof. by apply admin_same. Qed.

Lemma admin_mint id ttl m b now : keeps has_admin (mint_session id ttl m b now).
Proof.
  unfold mint_session. apply keeps_bind; [apply keeps_random|intros token]. apply keeps_bind; [apply keeps_get|].
  intros s0. destruct (st_sessions s0 !! token_hash token); [apply keeps_throw|].
  apply keeps_bind; [apply keeps_references|intros _]. apply keeps_bind; [by apply admin_same|intros _; apply keeps_ret].
Qed.

#[local] Hint Resolve admin_upsert_scram admin_insert_password admin_upsert_password admin_upsert_external
  admin_delete_sessions admin_delete_session admin_mint admin_disabled_guarded admin_roles_guarded : auth.

Lemma admin_create_user u p r i ps ss now : keeps has_admin (create_user u p r i ps ss now).
Proof. unfold create_user. keeps_steps. Qed.

(** Operations of the store that look after the last administrator: all except
    the unguarded disabling and role change. *)
Definition guards_admin (op : AuthOp) : bool :=
  match op with
  | OpSetDisabled _ disabled => negb disabled
  | OpSetRoles _ _ => false
  | _ => true
  end.

Lemma admin_run_op op s : guards_admin op = true → has_admin s → has_admin (run_op op s).
Proof.
  intros Hg. destruct op; try done; cbn [run_op]; apply keeps_after;
    try (by auto using admin_create_user with auth); try (by apply admin_same).
  - unfold create_external_user. keeps_steps.
  - unfold enroll_paired_device. keeps_steps.
  - unfold set_password. keeps_steps.
  - destruct disabled; [done|]. unfold set_disabled. keeps_steps.
  - unfold set_scram_credentials. keeps_steps.
  - keeps_ops.
  - unfold set_external_identity. keeps_steps.
  - unfold seed_first_admin_if_empty, user_count, seed_identity. keeps_steps; apply admin_create_user.
Qed.

(** The node is never left without an administrator: once an enabled user
    with the role admin exists, one exists after any sequence of operations other
    than the unguarded disabling and role change, whatever they are given and
    however they fail. *)
Theorem last_admin_kept ops s :
  Forall (λ op, guards_admin op = true) ops → has_admin s → has_admin (run_ops ops s).
Proof.
  intros Hops. unfold run_ops. revert s. induction Hops as [|op ops Hop _ IH]; intros s Hs; simpl; [done|].
  apply IH. by apply admin_run_op.
Qed.

(** ** Resolving a session token *)

Definition principal_of (s : AuthStore) (id name : string) : Principal :=
  from_roles id name (omap from_wire (row_order (snd <$> List.filter (λ row, bool_decide (row.1 = id)) (st_roles s)))).

Lemma principal_of_caps s id name c :
  has (principal_of s id name) c = true ↔ ∃ r, (id, as_str r) ∈ st_roles s ∧ c ∈ capabilities r.
Proof.
  unfold principal_of. rewrite has_from_roles. setoid_rewrite list_elem_of_omap.
  assert (∀ x, x ∈ row_order (snd <$> List.filter (λ row, bool_decide (row.1 = id)) (st_roles s)) ↔
    (id, x) ∈ st_roles s) as Hx.
  { intros x. rewrite row_order_perm, list_elem_of_fmap. split.
    - intros ([i y] & -> & Hin). apply list_elem_of_In, filter_In in Hin as [Hin Hi].
      apply bool_decide_eq_true in Hi. simpl in Hi. subst. by apply list_elem_of_In.
    - intros Hin. exists (id, x). split; [done|]. apply list_elem_of_In, filter_In.
      split; [by apply list_elem_of_In|]. by apply bool_decide_eq_true. }
  split.
  - intros (r & (x & Hin & Hr) & Hc). apply Hx in Hin. apply as_str_from_wire in Hr as ->. eauto.
  - intros (r & Hin & Hc). exists r. split; [|done]. exists (as_str r). by rewrite Hx, from_wire_as_str.
Qed.

Definition resolves (s : AuthStore) (token : string) (now : Z) (row : AuthSession) (u : UserRecord) : Prop :=
  st_sessions s !! token_hash token = Some row ∧ (now < as_expires_at row)%Z ∧
  user_by_id s (as_user_id row) = Some u ∧ ur_disabled u = false.

Lemma principal_for_token_ok token now s p :
  (principal_for_token token now s).1 = Ok p ↔
  ∃ row u, resolves s token now row u ∧ p = principal_of s (as_user_id row) (ur_username u).
Proof.
  unfold principal_for_token, resolves, mbind, M_bind, gets, ok_or, mret, M_ret, throw.
  destruct (st_sessions s !! token_hash token) as [row|] eqn:Er; simpl; [|naive_solver].
  destruct (Z.leb_spec (as_expires_at row) now) as [Hle|Hlt]; simpl.
  { split; [done|]. intros (? & ? & (? & ? & _) & _). simplify_eq. lia. }
  destruct (user_by_id s (as_user_id row)) as [u|] eqn:Eu; simpl; [|naive_solver].
  destruct (ur_disabled u) eqn:Ed; simpl; [naive_solver congruence|]. split.
  - intros [= <-]. by exists row, u.
  - intros (? & ? & (? & ? & ? & ?) & ->). by simplify_eq.
Qed.

(** A session token resolves exactly when it is stored, not expired, and
    belongs to an enabled user, and the principal it resolves to is that user with
    the capabilities of the roles the user has at that moment, neither more nor
    less. *)
Theorem token_resolution token now s :
  (∀ p, (principal_for_token token now s).1 = Ok p →
    ∃ row u, resolves s token now row u ∧ p_user_id p = as_user_id row ∧ p_username p = ur_username u ∧
      ∀ c, has p c = true ↔ ∃ r, (as_user_id row, as_str r) ∈ st_roles s ∧ c ∈ capabilities r) ∧
  (∀ row u, resolves s token now row u → ∃ p, (principal_for_token token now s).1 = Ok p) ∧
  (∀ h, h ≠ token_hash token → st_sessions (principal_for_token token now s).2 !! h = st_sessions s !! h).
Proof.
  split_and!.
  - intros p (row & u & Hres & ->)%principal_for_token_ok. exists row, u. split_and!; [done..|].
    intros c. apply principal_of_caps.
  - intros row u Hres. eexists. apply principal_for_token_ok. by exists row, u.
  - intros h Hh. unfold principal_for_token, mbind, M_bind, gets, ok_or, mret, M_ret, throw.
    destruct (st_sessions s !! token_hash token) as [row|] eqn:Er; simpl; [|done].
    destruct (as_expires_at row <=? now)%Z; simpl; [by rewrite lookup_delete_ne|].
    destruct (user_by_id s (as_user_id row)) as [u|]; simpl; [|done]. by destruct (ur_disabled u).
Qed.

(** *** Revocation *)

(** The operation stores a session under the hash [h]. *)
Definition mints (h : bytes) (op : AuthOp) : Prop :=
  match op with
  | OpMint _ _ _ (Some b) _ => token_hash (hex b) = h
  | _ => False
  end.

Section gone.
Variable h : bytes.
Definition gone (s : AuthStore) : Prop := st_sessions s !! h = None.

Lemma gone_same {A} (m : AuthM A) : (∀ s, st_sessions (m s).2 = st_sessions s) → keeps gone m.
Proof. intros Hm s. unfold gone. by rewrite Hm. Qed.

Lemma gone_insert_user u : keeps gone (insert_user u).
Proof. apply gone_same. intros s. unfold insert_user. by repeat case_bool_decide. Qed.

Lemma gone_insert_role id r : keeps gone (insert_role id r).
Proof.
  apply gone_same. intros s. unfold insert_role. unfold mbind at 1, M_bind at 1, get. case_bool_decide; [done|].
  unfold mbind, M_bind, references_user. by destruct (user_by_id s id).
Qed.

Lemma gone_referencing id (f : AuthStore → AuthStore) :
  (∀ s, st_sessions (f s) = st_sessions s) → keeps gone (_ ← references_user id; modify f).
Proof. intros Hf. apply keeps_bind; [apply keeps_references|intros _]. by apply gone_same. Qed.

Lemma gone_insert_password id pc : keeps gone (insert_password id pc).
Proof.
  unfold insert_password. apply keeps_bind; [apply keeps_get|intros s0].
  destruct (st_passwords s0 !! id); [apply keeps_throw|]. by apply gone_referencing.
Qed.

Lemma gone_upsert_scram id p r : keeps gone (upsert_scram id p r).
Proof. unfold upsert_scram. destruct (derive_scram_material p r); [|apply keeps_throw]. by apply gone_referencing. Qed.

Lemma gone_upsert_external f id now d : keeps gone (upsert_external f id now d).
Proof. by apply gone_referencing. Qed.

Lemma gone_upsert_password id pc : keeps gone (upsert_password id pc).
Proof. by apply gone_referencing. Qed.

Lemma gone_delete_roles id : keeps gone (delete_roles id).
Proof. by apply gone_same. Qed.

Lemma gone_update_disabled id d : keeps gone (update_disabled id d).
Proof. by apply gone_same. Qed.

Lemma gone_delete_sessions id : keeps gone (delete_sessions_of id).
Proof. intros s Hs. by apply map_lookup_filter_None_2; left. Qed.

Lemma gone_delete_session h' : keeps gone (delete_session h').
Proof. intros s Hs. apply lookup_delete_None. by right. Qed.

#[local] Hint Resolve gone_insert_user gone_insert_role gone_insert_password gone_upsert_scram gone_upsert_external
  gone_upsert_password gone_delete_roles gone_update_disabled gone_delete_sessions gone_delete_session : auth.

Lemma gone_create_user u p r i ps ss now : keeps gone (create_user u p r i ps ss now).
Proof. unfold create_user. keeps_steps. Qed.

Lemma gone_mint id ttl m b now : ¬ mints h (OpMint id ttl m b now) → keeps gone (mint_session id ttl m b now).
Proof.
  intros Hm s Hs. unfold mint_session. destruct b as [b|]; [|done]. simpl in Hm.
  unfold mbind, M_bind, random_hex, get, mret, M_ret, references_user, modify.
  destruct (st_sessions s !! token_hash (hex b)); [done|]. destruct (user_by_id s id); [|done].
  unfold gone. simpl. by rewrite lookup_insert_ne.
Qed.

Lemma gone_run_op op s : ¬ mints h op → gone s → gone (run_op op s).
Proof.
  intros Hm. destruct op; cbn [run_op]; apply keeps_after; try (by apply gone_same);
    first [by auto using gone_create_user, gone_mint with auth
      | unfold create_external_user; by keeps_ops | unfold enroll_paired_device; by keeps_ops
      | unfold seed_first_admin_if_empty, user_count, seed_identity; keeps_steps; apply gone_create_user
      | by keeps_ops].
Qed.

Lemma gone_run_ops ops s : Forall (λ op, ¬ mints h op) ops → gone s → gone (run_ops ops s).
Proof.
  intros Hops. unfold run_ops. revert s. induction Hops as [|op ops Hop _ IH]; intros s Hs; simpl; [done|].
  apply IH. by apply gone_run_op.
Qed.
End gone.

Lemma transaction_ok {A} (m : AuthM A) s a s' : transaction m s = (Ok a, s') → m s = (Ok a, s').
Proof. unfold transaction. destruct (m s) as [[?|?] ?]; naive_solver. Qed.

(** A guarded change that commits is the unguarded one. *)
Lemma set_disabled_guarded_ok id d s s' :
  set_disabled_guarded id d s = (Ok tt, s') → set_disabled id d s = (Ok tt, s').
Proof.
  intros E%transaction_ok. apply M_bind_inv in E as [(? & _ & ?)|(locked & s1 & Hl & E)]; [done|].
  destruct locked; [done|]. destruct d; [apply last_admin_spec in Hl as [-> _]|injection Hl as <-]; done.
Qed.

(** An operation that ends the session of [token]: its own revocation, or the
    revocation of the sessions of its user, or the disabling of the user. *)
Definition ends_session (op : AuthOp) (token id : string) : Prop :=
  op = OpRevokeToken token ∨ op = OpRevokeUser id ∨ op = OpSetDisabled id true ∨ op = OpSetDisabledGuarded id true.

Lemma delete_sessions_gone id h s :
  (∀ row, st_sessions s !! h = Some row → as_user_id row = id) → gone h (delete_sessions_of id s).2.
Proof. intros Hrow. apply map_lookup_filter_None. right. intros row Hr Hne. by apply Hne, Hrow. Qed.

Lemma set_disabled_gone id h s :
  auth_wf s → (∀ row, st_sessions s !! h = Some row → as_user_id row = id) → is_Some (st_sessions s !! h) →
  gone h (set_disabled id true s).2.
Proof.
  intros Hwf Hrow [row Hr]. assert (id ∈ user_ids s) as Hid by (rewrite <- (Hrow row Hr); by eapply wf_session_users).
  unfold set_disabled, update_disabled, mbind, M_bind. apply list_elem_of_fmap in Hid as (u & -> & Hu).
  destruct (List.filter _ (st_users s)) as [|v l] eqn:E.
  - exfalso. assert (In u (List.filter (λ u0, bool_decide (ur_id u0 = ur_id u)) (st_users s))) as Hin; [|by rewrite E in Hin].
    apply filter_In. split; [by apply list_elem_of_In|]. by apply bool_decide_eq_true.
  - cbn [length Nat.eqb]. by apply delete_sessions_gone.
Qed.

(** C35. Revocation is final: once the session of a token is ended, by revoking
    the token, revoking the sessions of its user or disabling the user, the token
    is unknown forever, unless a later login draws a token with the same hash; an
    administrator kept by the lockout guard keeps its sessions. *)
Theorem revoked_for_good s token id row op ops now :
  auth_wf s → st_sessions s !! token_hash token = Some row → as_user_id row = id → ends_session op token id →
  (op = OpSetDisabledGuarded id true → (set_disabled_guarded id true s).1 = Ok tt) →
  Forall (λ op, ¬ mints (token_hash token) op) ops →
  (principal_for_token token now (run_ops ops (run_op op s))).1 = Err NotFound.
Proof.
  intros Hwf Hr Hid Hend Hok Hops. assert (gone (token_hash token) (run_op op s)) as Hg.
  { assert (∀ row', st_sessions s !! token_hash token = Some row' → as_user_id row' = id) as Hrow by naive_solver.
    destruct Hend as [->|[->|[->| ->]]]; cbn [run_op].
    - unfold revoke_token, delete_session, gone. simpl. by rewrite lookup_delete_eq.
    - by apply delete_sessions_gone.
    - apply set_disabled_gone; eauto.
    - specialize (Hok eq_refl). destruct (set_disabled_guarded id true s) as [r s'] eqn:E. simpl in Hok. subst r.
      apply set_disabled_guarded_ok in E. pose proof (set_disabled_gone id (token_hash token) s) as Hg.
      rewrite E in Hg. eauto. }
  apply (gone_run_ops _ ops) in Hg; [|done]. unfold principal_for_token, mbind, M_bind, gets. by rewrite Hg.
Qed.

(** ** A disabled user is locked out *)

(** The operation can enable the user [id] named [name] again. *)
Definition reenables (id name : string) (op : AuthOp) : Prop :=
  match op with
  | OpSetDisabled id' false | OpSetDisabledGuarded id' false => id' = id
  | OpEnroll name' _ _ _ _ => name' = name
  | _ => False
  end.

(** Some way of logging in gives the identity of [id]. *)
Definition authenticates (s : AuthStore) (id : string) : Prop :=
  (∃ token now p, (principal_for_token token now s).1 = Ok p ∧ p_user_id p = id) ∨
  (∃ name password p, (authenticate_password name password s).1 = Ok p ∧ p_user_id p = id) ∨
  (∃ fingerprint name, (external_identity fingerprint s).1 = Ok (Some (id, name))).

Section locked.
Variables id name : string.

Record locked_out (s : AuthStore) : Prop := {
  lo_exists : id ∈ user_ids s;
  lo_disabled : ∀ u, u ∈ st_users s → ur_id u = id → ur_disabled u = true ∧ ur_username u = name
}.

Lemma locked_not_authenticates s : locked_out s → ¬ authenticates s id.
Proof.
  intros [_ Hd] [(t & now & p & Hp & Hid)|[(n & pw & p & Hp & Hid)|(f & n & Hf)]].
  - apply principal_for_token_ok in Hp as (row & u & (_ & _ & [Hin Hu]%user_by_id_Some & Hdis) & ->).
    simpl in Hid. destruct (Hd u Hin) as [? _]; congruence.
  - unfold authenticate_password, find_user, mbind, M_bind, gets, ok_or, mret, M_ret, throw in Hp.
    destruct (user_by_name s n) as [u|] eqn:Eu; simpl in Hp; [|done]. apply find_user_spec in Eu as [Hin _].
    destruct (ur_disabled u) eqn:Edis; [done|]. destruct (st_passwords s !! ur_id u) as [pc|]; simpl in Hp; [|done].
    destruct (verify_password _ _); [|done]. injection Hp as <-. simpl in Hid. destruct (Hd u Hin Hid). congruence.
  - unfold external_identity, gets in Hf. simpl in Hf. injection Hf as Hf.
    destruct (st_externals s !! f) as [row|]; simpl in Hf; [|done].
    destruct (user_by_id s (ei_user_id row)) as [u|] eqn:Eu; simpl in Hf; [|done].
    apply user_by_id_Some in Eu as [Hin _]. destruct (ur_disabled u) eqn:Edis; [done|]. simplify_eq.
    destruct (Hd u Hin) as [? _]; congruence.
Qed.

Lemma locked_same {A} (m : AuthM A) : (∀ s, st_users (m s).2 = st_users s) → keeps locked_out m.
Proof. intros Hm s [H1 H2]. constructor; unfold user_ids in *; rewrite Hm; auto. Qed.

Lemma locked_insert_user u : keeps locked_out (insert_user u).
Proof.
  intros s [H1 H2]. unfold insert_user. case_bool_decide as E; [done|]. case_bool_decide; [done|].
  rewrite user_by_id_ids in E. constructor; simpl.
  - unfold user_ids in *. simpl. rewrite fmap_app. apply elem_of_app. by left.
  - intros v [Hv|Hv]%elem_of_app Hid; [by apply H2|]. apply list_elem_of_singleton in Hv as ->. congruence.
Qed.

Lemma locked_update id' d : (d = false → id' ≠ id) → keeps locked_out (update_disabled id' d).
Proof.
  intros Hne s [H1 H2]. constructor; [by rewrite update_ids|]. simpl. intros v (u & -> & Hu)%list_elem_of_fmap Hid.
  case_decide as E; [|by apply H2]. simpl in *. destruct (H2 u Hu Hid) as [_ ?]. destruct d; [done|]. naive_solver.
Qed.

Lemma locked_insert_role id' r : keeps locked_out (insert_role id' r).
Proof.
  apply locked_same. intros s. unfold insert_role. unfold mbind at 1, M_bind at 1, get. case_bool_decide; [done|].
  unfold mbind, M_bind, references_user. by destruct (user_by_id s id').
Qed.

Lemma locked_referencing id' (f : AuthStore → AuthStore) :
  (∀ s, st_users (f s) = st_users s) → keeps locked_out (_ ← references_user id'; modify f).
Proof. intros Hf. apply keeps_bind; [apply keeps_references|intros _]. by apply locked_same. Qed.

Lemma locked_insert_password id' pc : keeps locked_out (insert_password id' pc).
Proof.
  unfold insert_password. apply keeps_bind; [apply keeps_get|intros s0].
  destruct (st_passwords s0 !! id'); [apply keeps_throw|]. by apply locked_referencing.
Qed.

Lemma locked_upsert_scram id' p r : keeps locked_out (upsert_scram id' p r).
Proof. unfold upsert_scram. destruct (derive_scram_material p r); [|apply keeps_throw]. by apply locked_referencing. Qed.

Lemma locked_upsert_password id' pc : keeps locked_out (upsert_password id' pc).
Proof. by apply locked_referencing. Qed.

Lemma locked_upsert_external f id' now d : keeps locked_out (upsert_external f id' now d).
Proof. by apply locked_referencing. Qed.

Lemma locked_delete_roles id' : keeps locked_out (delete_roles id').
Proof. by apply locked_same. Qed.

Lemma locked_delete_sessions id' : keeps locked_out (delete_sessions_of id').
Proof. by apply locked_same. Qed.

Lemma locked_delete_session h : keeps locked_out (delete_session h).
Proof. by apply locked_same. Qed.

Lemma locked_disable id' : keeps locked_out (update_disabled id' true).
Proof. by apply locked_update. Qed.

#[local] Hint Resolve locked_insert_user locked_insert_role locked_insert_password locked_upsert_scram
  locked_upsert_password locked_upsert_external locked_delete_roles locked_delete_sessions locked_delete_session
  locked_disable : auth.

Lemma locked_create_user u p r i ps ss now : keeps locked_out (create_user u p r i ps ss now).
Proof. unfold create_user. keeps_steps. Qed.

Lemma locked_enroll u f d i now : u ≠ name → keeps locked_out (enroll_paired_device u f d i now).
Proof.
  intros Hne. unfold enroll_paired_device. destruct (is_reserved_username u); [apply keeps_throw|].
  apply keeps_bind; [apply keeps_random|intros mid]. destruct (is_reserved_username mid); [apply keeps_throw|].
  apply keeps_transaction. intros s Hs. unfold mbind at 1, M_bind at 1, gets.
  destruct (user_by_name s u) as [v|] eqn:Ev; revert s Hs Ev; intros s Hs Ev.
  - apply find_user_spec in Ev as [Hin Hv]. assert (ur_id v ≠ id) as Hid.
    { intros Heq. destruct Hs as [_ Hd]. destruct (Hd v Hin Heq). congruence. }
    apply (keeps_after locked_out); [|done]. keeps_steps. by apply locked_update.
  - apply (keeps_after locked_out); [|done]. keeps_steps.
Qed.

Lemma locked_run_op op s : ¬ reenables id name op → locked_out s → locked_out (run_op op s).
Proof.
  intros Hre. destruct op as [| |u f d i now| |id' d| | | | | | | | | |id' d| | ]; cbn [run_op]; apply (keeps_after locked_out);
    try (by apply locked_same); try destruct d; simpl in Hre;
    first [by auto using locked_create_user, locked_enroll with auth
      | unfold create_external_user; by keeps_ops
      | unfold seed_first_admin_if_empty, user_count, seed_identity; keeps_steps; apply locked_create_user
      | by keeps_ops | unfold mint_session; keeps_steps; by apply locked_same
      | keeps_ops; apply locked_update; congruence].
Qed.
End locked.

(** Disabling a user locks it out: after the guarded disabling succeeded,
    no session token, password or device certificate gives its identity, in any
    sequence of operations that does not enable it again, be it by its id or by
    pairing a device under its name. *)
Theorem disabled_locked_out s id u s1 ops :
  auth_wf s → user_by_id s id = Some u → set_disabled_guarded id true s = (Ok tt, s1) →
  Forall (λ op, ¬ reenables id (ur_username u) op) ops → ¬ authenticates (run_ops ops s1) id.
Proof.
  intros Hwf Hu Hset Hops. apply (locked_not_authenticates id (ur_username u)).
  assert (locked_out id (ur_username u) s1) as Hl.
  { apply set_disabled_guarded_ok, M_bind_inv in Hset as [(? & _ & ?)|(n & s2 & H2 & E)]; [done|].
    destruct (n =? 0)%nat; [done|]. injection H2 as _ <-. injection E as <-. constructor; simpl.
    - pose proof (update_ids id true s) as Hids. unfold user_ids in *. simpl in *. rewrite Hids.
      apply user_by_id_ids. eauto.
    - intros v (w & -> & Hw)%list_elem_of_fmap Hid. case_decide as Ew; [|done]. simpl in *. split; [done|].
      apply user_by_id_Some in Hu as [Hin Hu]. f_equal. by apply (NoDup_fmap_inj ur_id (st_users s) w u (wf_ids s Hwf)); [..|congruence]. }
  clear Hset. unfold run_ops. revert s1 Hl. induction Hops as [|op ops Hop _ IH]; intros s1 Hl; simpl; [done|].
  apply IH. by apply locked_run_op.
Qed.

(** ** Creating a user and logging in *)

Lemma insert_role_rows id r s s' : insert_role id r s = (Ok tt, s') →
  s' = s <| st_roles := st_roles s' |> ∧ ∀ row, row ∈ st_roles s' → row ∈ st_roles s ∨ row = (id, as_str r).
Proof.
  unfold insert_role. unfold mbind at 1, M_bind at 1, get. case_bool_decide as E.
  - intros [= <-]. split; [by destruct s|]. by left.
  - unfold mbind, M_bind, references_user. destruct (user_by_id s id); [|done]. intros [= <-]. split; [done|].
    simpl. intros row [Hr|Hr]%elem_of_app; [by left|]. right. by apply list_elem_of_singleton.
Qed.

Lemma insert_roles_rows id rs s s' : insert_roles id rs s = (Ok tt, s') →
  s' = s <| st_roles := st_roles s' |> ∧
  ∀ row, row ∈ st_roles s' → row ∈ st_roles s ∨ ∃ r, r ∈ rs ∧ row = (id, as_str r).
Proof.
  revert s. induction rs as [|r rs IH]; intros s; simpl.
  { intros [= <-]. split; [by destruct s|]. by left. }
  intros [(? & _ & ?)|([] & s1 & H1 & H2)]%M_bind_inv; [done|].
  apply insert_role_rows in H1 as [E1 R1]. apply IH in H2 as [E2 R2]. split.
  { rewrite E2, E1. done. }
  intros row [Hr|(r' & Hr & ->)]%R2; [|right; exists r'; set_solver].
  destruct (R1 row Hr) as [?| ->]; [by left|right; exists r; set_solver].
Qed.

Lemma user_by_name_snoc s u :
  user_by_name s (ur_username u) = None →
  List.find (λ v, bool_decide (ur_username v = ur_username u)) (st_users s ++ [u]) = Some u.
Proof.
  unfold user_by_name. intros Hn. induction (st_users s) as [|v l IH]; simpl in *.
  - by rewrite bool_decide_eq_true_2.
  - case_bool_decide; [done|]. by apply IH.
Qed.

(** A created user can log in with its password, under exactly the roles it was
    given. *)
Theorem create_then_login s name password roles id_bytes phc_salt scram_salt now u s1 :
  auth_wf s → create_user name password roles id_bytes phc_salt scram_salt now s = (Ok u, s1) →
  ∃ p, (authenticate_password name password s1).1 = Ok p ∧ p_user_id p = ur_id u ∧ p_username p = name ∧
    ∀ c, has p c = true ↔ ∃ r, r ∈ roles ∧ c ∈ capabilities r.
Proof.
  intros Hwf. unfold create_user. destruct (is_reserved_username name); [done|]. destruct id_bytes as [b|]; [|done].
  unfold mbind at 1, M_bind at 1, random_hex, mret at 1, M_ret at 1.
  destruct (is_reserved_username (hex b)); [done|]. set (id := hex b). set (u0 := mkUserRecord id name false now).
  intros [(? & _ & ?)|([] & t1 & H1 & H)]%M_bind_inv; [done|].
  apply M_bind_inv in H as [(? & _ & ?)|([] & t2 & H2 & H)]; [done|].
  apply M_bind_inv in H as [(? & _ & ?)|([] & t3 & H3 & H)]; [done|].
  apply M_bind_inv in H as [(? & _ & ?)|([] & t4 & H4 & H)]; [done|]. injection H as <- <-.
  unfold insert_user in H1. case_bool_decide as E1; [done|]. case_bool_decide as E2; [done|].
  injection H1 as <-. rewrite user_by_id_ids in E1. apply eq_None_not_Some in E2.
  unfold insert_password, mbind, M_bind, get, references_user, modify in H2. simpl in H2.
  destruct (st_passwords s !! id); [done|]. destruct (user_by_id _ id) as [v|] eqn:Ev; [|done]. injection H2 as <-.
  unfold upsert_scram, mbind, M_bind, references_user, modify in H3.
  destruct (derive_scram_material password scram_salt) as [m|]; [|done]. destruct (user_by_id _ id) as [v'|] eqn:Ev'; [|done].
  injection H3 as <-. pose proof (insert_roles_present _ _ _ _ H4) as (_ & Hold & Hnew).
  apply insert_roles_rows in H4 as [E4 Hrows]. simpl in *.
  assert (user_by_name t4 name = Some u0) as Hfind.
  { rewrite E4. unfold user_by_name. simpl. by apply (user_by_name_snoc s u0). }
  eexists. split.
  { unfold authenticate_password, find_user, mbind, M_bind, gets, ok_or, mret, M_ret. rewrite Hfind. simpl.
    replace (st_passwords t4) with (<[id := mkPasswordCredential (generate_hash phc_salt password) now]> (st_passwords s))
      by (by rewrite E4). rewrite lookup_insert_eq. simpl. by rewrite verify_generated. }
  split_and!; [done..|]. intros c. change (from_roles _ _ _) with (principal_of t4 id name). rewrite principal_of_caps.
  split; intros (r & Hr & Hc); exists r; (split; [|done]); [|by apply Hnew].
  destruct (Hrows _ Hr) as [Hin|(r' & Hr' & Heq)].
  - destruct E1. by apply (wf_role_users s Hwf _ Hin).
  - injection Heq as Heq. apply as_str_inj in Heq as ->. done.
Qed.
End ops.

(** ** A store with toy primitives *)

Definition toy_auth_crypto : AuthCrypto := {|
  generate_hash := λ _ password, password;
  verify_password := λ password phc, bool_decide (password = phc);
  sha256 := λ b, b;
  hmac_sha256 := λ k m, k ++ m;
  pbkdf2_sha256 := λ p s _, p ++ s;
  stringprep_saslprep := λ p, if decide (p = "bad") then None else Some p;
  verify_generated := λ _ p, bool_decide_eq_true_2 (p = p) eq_refl
|}.

Definition toy_row_order : RowOrder.
Proof. by refine {| row_order l := l |}. Defined.

#[local] Existing Instance toy_auth_crypto.
#[local] Existing Instance toy_row_order.

Definition toy_ops : list AuthOp :=
  [OpSeed (Explicit "root" "pw") None None (Some [Byte.x01]) [] (Some []) 100;
   OpCreateUser "bob" "pw2" [User] (Some [Byte.x02]) [] (Some []) 101;
   OpMint "02" 50 "plain" (Some [Byte.x09]) 102].

Definition toy_store : AuthStore := run_ops toy_ops open_in_memory.

Lemma last_admin_kept_witness :
  has_admin (run_ops [OpSetDisabledGuarded "01" true; OpSetRolesGuarded "01" [Viewer]] toy_store).
Proof.
  apply last_admin_kept; [by repeat constructor|]. exists (mkUserRecord "01" "root" false 100).
  split; [left|by vm_compute].
Defined.

Lemma revoked_for_good_witness :
  (principal_for_token "09" 103 toy_store).1 = Ok (from_roles "02" "bob" [User]) ∧
  (principal_for_token "09" 104 (run_ops [OpMint "02" 50 "plain" (Some [Byte.x0a]) 103]
    (run_op (OpSetDisabledGuarded "02" true) toy_store))).1 = Err NotFound.
Proof.
  split; [by vm_compute|].
  apply (revoked_for_good toy_store "09" "02" (mkAuthSession "02" 102 152 "plain")).
  - apply auth_store_wf.
  - by vm_compute.
  - done.
  - right. right. by right.
  - by vm_compute.
  - repeat constructor. by vm_compute.
Defined.

Lemma disabled_locked_out_witness :
  ¬ authenticates (run_ops [OpSetDisabledGuarded "01" false; OpSetPassword "02" "new" [] (Some []) 110]
    (set_disabled_guarded "02" true toy_store).2) "02".
Proof.
  apply (disabled_locked_out toy_store "02" (mkUserRecord "02" "bob" false 101)).
  - apply auth_store_wf.
  - by vm_compute.
  - by vm_compute.
  - repeat constructor; by vm_compute.
Defined.

Lemma create_then_login_witness :
  ∃ p, (authenticate_password "eve" "pw3" (create_user "eve" "pw3" [Operator] (Some [Byte.x05]) [] (Some []) 7 toy_store).2).1
    = Ok p ∧ p_user_id p = "05" ∧ p_username p = "eve" ∧
    ∀ c, has p c = true ↔ ∃ r, r ∈ [Operator] ∧ c ∈ capabilities r.
Proof.
  apply (create_then_login toy_store "eve" "pw3" [Operator] (Some [Byte.x05]) [] (Some []) 7
    (mkUserRecord "05" "eve" false 7)); [apply auth_store_wf|by vm_compute].
Defined.

(** Creating a user is not a transaction: when the SCRAM material cannot be
    derived, the call fails but the user stays, with a password that logs in and
    without its roles. *)
Example create_user_partial :
  let '(r, s) := create_user "eve" "bad" [Operator] (Some [Byte.x05]) [] (Some []) 7 toy_store in
  r = Err PasswordHash ∧ (authenticate_password "eve" "bad" s).1 = Ok (from_roles "05" "eve" []) ∧
  (create_user "eve" "good" [Operator] (Some [Byte.x06]) [] (Some []) 8 s).1 = Err (Sqlite Unique).
Proof. by vm_compute. Qed.

(** So the first boot can leave a store whose only user is no administrator, and
    no later boot seeds one. *)
Example seed_partial :
  let '(r, s) := seed_first_admin_if_empty (Explicit "root" "bad") None None (Some [Byte.x01]) [] (Some []) 100 open_in_memory in
  r = Err PasswordHash ∧
  (seed_first_admin_if_empty (Explicit "root" "good") None None (Some [Byte.x02]) [] (Some []) 101 s).1 = Ok None ∧
  existsb (enabled_admin s) (st_users s) = false.
Proof. by vm_compute. Qed.

(** The unguarded disabling removes the last administrator. *)
Example unguarded_orphans :
  existsb (enabled_admin toy_store) (st_users toy_store) = true ∧
  existsb (enabled_admin (set_disabled "01" true toy_store).2) (st_users (set_disabled "01" true toy_store).2) = false.
Proof. by vm_compute. Qed.
