(* ===== verification/Authz.v ===== *)
(** * The authorization gate ([daemon-host/src/authz.rs], [request_context.rs])

    Every request of the node's API names the access it requires; the gate compares
    it with the principal bound to the request.  A request is represented by its
    variant ([daemon-api/src/wire.rs]); the gate never looks at its arguments. *)

From S2P Require Import Prelude Text Auth AuthFacts.

(** ** Requests *)

Inductive ApiRequest :=
| ReqSubmit | ReqSubmitRouted | ReqPoll | ReqRespond | ReqHealth | ReqStats | ReqTelemetry
| ReqSessions | ReqAssign | ReqSessionCreate | ReqCancel | ReqFleet | ReqTree | ReqUnit
| ReqUnitEvents | ReqUnitOutbound | ReqSessionHistory | ReqSubscribe | ReqEventsSince
| ReqDeliveryTargets | ReqDeliverySessions | ReqHandover | ReqRecordMeta | ReqUnitHistory | ReqPause
| ReqResume | ReqScale | ReqVerifyingKey | ReqModelSearch | ReqModelFiles | ReqModelDownload
| ReqModelInstallFromUrl | ReqModelDownloads | ReqModelCancel | ReqModelPause | ReqModelResume
| ReqModelCatalog | ReqModelDelete | ReqModelActivate | ReqModelRecommend | ReqModelQuantize
| ReqModelQuantizes | ReqModelInspect | ReqVhcRunList | ReqVhcRunDetail | ReqVhcJoin | ReqVhcLeave
| ReqVhcPause | ReqVhcResume | ReqVhcSwitchModule | ReqVhcSetPolicy | ReqVhcHardwareReport
| ReqVhcDiskUsage | ReqVhcDiskWipe | ReqProfileList | ReqProfileGet | ReqProfileCreate
| ReqProfileUpdate | ReqProfileDelete | ReqProfileSelect | ReqProfileCommission | ReqProfileClone
| ReqProfileExport | ReqProfileImport | ReqProfileHistory | ReqProfileAt | ReqProfileRevert
| ReqSoulGet | ReqSoulSet | ReqSkillHistory | ReqSkillAt | ReqSkillRevert | ReqCuratorList
| ReqCuratorPin | ReqCuratorUnpin | ReqCuratorArchive | ReqCuratorRestore | ReqCuratorRun
| ReqCredentialSet | ReqCredentialList | ReqCredentialRemove | ReqCredentialSetLabel | ReqAuthBegin
| ReqAuthStep | ReqAuthComplete | ReqAuthCancel | ReqAuthProviders | ReqModels | ReqModelCurrent
| ReqProviderCatalog | ReqProviderModels | ReqCustomProviderList | ReqCustomProviderSet
| ReqCustomProviderRemove | ReqSetSessionModel | ReqSetSessionMode | ReqSetSessionOverlay
| ReqApprovalsPending | ReqApprovalDecide | ReqFingerprintList | ReqFingerprintRevoke
| ReqCheckpointList | ReqCheckpointRewind | ReqSessionsQuery | ReqSessionGet | ReqSessionSearch
| ReqSessionRecap | ReqSessionUpdateMeta | ReqRewind | ReqAgentDiscover | ReqAgentCatalog
| ReqAgentRegister | ReqAgentRemove | ReqSkillGet | ReqSkillPut | ReqProviderList
| ReqProviderRegister | ReqToolList | ReqToolRegister | ReqToolSetEnabled | ReqCommandList
| ReqCommandInvoke | ReqCaps | ReqConfigGet | ReqConfigSet | ReqGatewayGet | ReqGatewaySet
| ReqCronList | ReqCronCreate | ReqCronUpdate | ReqCronDelete | ReqCronTrigger | ReqCronRuns
| ReqCronPause | ReqCronSuggestions | ReqCronAcceptSuggestion | ReqCronDismissSuggestion
| ReqRoutingListChats | ReqRoutingGet | ReqRoutingSet | ReqRoutingBindChat | ReqRoutingUnbindChat
| ReqTransportRooms | ReqTransportAdapters | ReqTransportInstances | ReqTransportDisconnect
| ReqTransportRemove | ReqTransportConnect | ReqTransportSetEnabled | ReqTransportSetLabel
| ReqConvList | ReqConvGet | ReqConvCreateDetails | ReqConvCreate | ReqConvJoinDetails | ReqConvJoin
| ReqConvLeave | ReqConvSend | ReqConvSetTopic | ReqConvSetTitle | ReqConvSetDescription
| ReqConvDelete | ReqConvHistory | ReqMemberInvite | ReqMemberRemove | ReqMemberBan
| ReqMemberSetRole | ReqContactGetProfile | ReqContactSetAlias | ReqContactActionMenu
| ReqDirectorySearch | ReqRosterList | ReqRosterAdd | ReqRosterUpdate | ReqRosterRemove | ReqFsRoots
| ReqFsList | ReqFsStat | ReqFsRead | ReqFsWrite | ReqFsSearch | ReqFsWatchPoll | ReqBlobPut
| ReqBlobGet | ReqBlobStat | ReqFsWriteFromBlob | ReqUserCreate | ReqUserList | ReqUserDisable
| ReqUserSetRoles | ReqUserSetPassword | ReqRoleList | ReqWhoAmI | ReqSessionRevoke
| ReqResourceGrantCreate | ReqResourceGrantList | ReqResourceGrantRevoke | ReqPairingBegin
| ReqPairingCancel | ReqPairingStatus | ReqPairedDeviceList | ReqPairedDeviceRevoke
| ReqFeedbackSubmit | ReqTelemetryConsentGet | ReqTelemetryConsentSet | ReqCrashConsentGet
| ReqCrashConsentSet | ReqPresenceList | ReqPresenceSave | ReqPresenceDelete | ReqPresenceSetActive
| ReqNotificationList | ReqFtSend | ReqFtReceive | ReqPersonList | ReqTransportSettings
| ReqTransportConfigure | ReqBootstrap.

(** What a request requires. *)
Inductive RequiredAccess :=
| Authenticated
| Cap (c : Capability)
| AllCaps (cs : list Capability).

Definition required_capability (req : ApiRequest) : RequiredAccess :=
  match req with
  | ReqSubmit | ReqSubmitRouted | ReqSessionCreate | ReqRespond | ReqHandover | ReqRecordMeta |
    ReqSetSessionModel | ReqSetSessionMode | ReqSetSessionOverlay => Cap SessionWrite
  | ReqPoll | ReqSessionHistory | ReqSubscribe | ReqDeliveryTargets | ReqDeliverySessions => Cap SessionRead
  | ReqHealth | ReqStats | ReqTelemetry | ReqVerifyingKey | ReqApprovalsPending |
    ReqCheckpointList | ReqEventsSince | ReqBootstrap | ReqNotificationList | ReqPersonList => Cap ControlRead
  | ReqAssign => Cap ControlWrite
  | ReqSessions | ReqSessionsQuery | ReqSessionGet | ReqSessionSearch | ReqSessionRecap |
    ReqFingerprintList => Cap SessionRead
  | ReqCancel | ReqRewind | ReqCheckpointRewind | ReqApprovalDecide | ReqFingerprintRevoke |
    ReqSessionUpdateMeta => Cap SessionWrite
  | ReqFeedbackSubmit => Cap SessionWrite
  | ReqTelemetryConsentGet => Cap ControlRead
  | ReqTelemetryConsentSet => Cap ControlWrite
  | ReqCrashConsentGet => Cap ControlRead
  | ReqCrashConsentSet => Cap ControlWrite
  | ReqGatewayGet => Cap ControlRead
  | ReqGatewaySet => Cap ControlWrite
  | ReqPresenceList => Cap ControlRead
  | ReqPresenceSave | ReqPresenceDelete | ReqPresenceSetActive => Cap ControlWrite
  | ReqFleet | ReqTree | ReqUnit | ReqUnitEvents | ReqUnitOutbound | ReqUnitHistory => Cap FleetRead
  | ReqPause | ReqResume | ReqScale => Cap FleetWrite
  | ReqModelSearch | ReqModelFiles | ReqModelDownloads | ReqModelCatalog | ReqModelRecommend |
    ReqModelQuantizes | ReqModelInspect | ReqModels | ReqModelCurrent | ReqProviderCatalog |
    ReqProviderModels | ReqCustomProviderList => Cap ModelsRead
  | ReqModelDownload | ReqModelInstallFromUrl | ReqModelCancel | ReqModelPause | ReqModelResume |
    ReqModelDelete | ReqModelActivate | ReqModelQuantize | ReqCustomProviderSet |
    ReqCustomProviderRemove => Cap ModelsWrite
  | ReqVhcRunList | ReqVhcRunDetail | ReqVhcHardwareReport | ReqVhcDiskUsage => Cap ControlRead
  | ReqVhcJoin | ReqVhcLeave | ReqVhcPause | ReqVhcResume | ReqVhcSwitchModule | ReqVhcSetPolicy |
    ReqVhcDiskWipe => Cap ControlWrite
  | ReqProfileList | ReqProfileGet | ReqProfileExport | ReqProfileHistory | ReqProfileAt |
    ReqSoulGet | ReqSkillHistory | ReqSkillAt | ReqSkillGet => Cap ProfileRead
  | ReqProfileCreate | ReqProfileUpdate | ReqProfileDelete | ReqProfileSelect | ReqProfileClone |
    ReqProfileImport | ReqProfileRevert | ReqSoulSet | ReqSkillRevert | ReqSkillPut => Cap ProfileWrite
  | ReqProfileCommission => AllCaps [ProfileWrite; CredentialWrite]
  | ReqCuratorList => Cap ProfileRead
  | ReqCuratorPin | ReqCuratorUnpin | ReqCuratorArchive | ReqCuratorRestore | ReqCuratorRun => Cap ProfileWrite
  | ReqAuthProviders | ReqCredentialList => Cap CredentialRead
  | ReqAuthBegin | ReqAuthStep | ReqAuthComplete | ReqAuthCancel | ReqCredentialSet |
    ReqCredentialRemove | ReqCredentialSetLabel => Cap CredentialWrite
  | ReqCronList | ReqCronRuns | ReqCronSuggestions => Cap CronRead
  | ReqCronCreate | ReqCronUpdate | ReqCronDelete | ReqCronTrigger | ReqCronPause |
    ReqCronAcceptSuggestion | ReqCronDismissSuggestion => Cap CronWrite
  | ReqRoutingListChats | ReqRoutingGet | ReqTransportRooms | ReqTransportAdapters |
    ReqTransportInstances | ReqTransportSettings => Cap RoutingRead
  | ReqRoutingSet | ReqRoutingBindChat | ReqRoutingUnbindChat | ReqTransportDisconnect |
    ReqTransportRemove | ReqTransportConnect | ReqTransportSetEnabled | ReqTransportSetLabel |
    ReqTransportConfigure => Cap RoutingWrite
  | ReqConvList | ReqConvGet | ReqConvCreateDetails | ReqConvJoinDetails | ReqConvHistory |
    ReqContactGetProfile | ReqContactActionMenu | ReqDirectorySearch | ReqRosterList => Cap MessagingRead
  | ReqConvCreate | ReqConvJoin | ReqConvLeave | ReqConvSend | ReqConvSetTopic | ReqConvSetTitle |
    ReqConvSetDescription | ReqConvDelete | ReqMemberInvite | ReqMemberRemove | ReqMemberBan |
    ReqMemberSetRole | ReqContactSetAlias | ReqRosterAdd | ReqRosterUpdate | ReqRosterRemove |
    ReqFtSend | ReqFtReceive => Cap MessagingWrite
  | ReqAgentDiscover | ReqAgentCatalog | ReqProviderList | ReqToolList | ReqCommandList |
    ReqConfigGet | ReqCaps => Cap RegistryRead
  | ReqCommandInvoke => Cap RegistryRead
  | ReqAgentRegister | ReqAgentRemove | ReqProviderRegister | ReqToolRegister | ReqToolSetEnabled |
    ReqConfigSet => Cap RegistryWrite
  | ReqFsRoots | ReqFsList | ReqFsStat | ReqFsRead | ReqFsSearch | ReqFsWatchPoll | ReqBlobGet |
    ReqBlobStat => Cap FsRead
  | ReqFsWrite | ReqBlobPut | ReqFsWriteFromBlob => Cap FsWrite
  | ReqWhoAmI => Authenticated
  | ReqUserCreate | ReqUserList | ReqUserDisable | ReqUserSetRoles | ReqUserSetPassword |
    ReqRoleList | ReqSessionRevoke | ReqResourceGrantCreate | ReqResourceGrantList |
    ReqResourceGrantRevoke => Cap AccessAdmin
  | ReqPairingBegin | ReqPairingCancel | ReqPairingStatus | ReqPairedDeviceList |
    ReqPairedDeviceRevoke => Cap AccessAdmin
  end.

(** The [Debug] name of a capability, in the text of a refusal. *)
Definition cap_debug (c : Capability) : string :=
  match c with
  | SessionRead => "SessionRead"
  | SessionWrite => "SessionWrite"
  | SessionSeeAll => "SessionSeeAll"
  | SessionControlAny => "SessionControlAny"
  | ControlRead => "ControlRead"
  | ControlWrite => "ControlWrite"
  | FleetRead => "FleetRead"
  | FleetWrite => "FleetWrite"
  | ModelsRead => "ModelsRead"
  | ModelsWrite => "ModelsWrite"
  | ProfileRead => "ProfileRead"
  | ProfileWrite => "ProfileWrite"
  | CredentialRead => "CredentialRead"
  | CredentialWrite => "CredentialWrite"
  | CronRead => "CronRead"
  | CronWrite => "CronWrite"
  | RoutingRead => "RoutingRead"
  | RoutingWrite => "RoutingWrite"
  | MessagingRead => "MessagingRead"
  | MessagingWrite => "MessagingWrite"
  | RegistryRead => "RegistryRead"
  | RegistryWrite => "RegistryWrite"
  | FsRead => "FsRead"
  | FsWrite => "FsWrite"
  | AccessAdmin => "AccessAdmin"
  end.

(** The serialised name of a capability. *)
Definition capability_wire_name (c : Capability) : string :=
  match c with
  | SessionRead => "session_read"
  | SessionWrite => "session_write"
  | SessionSeeAll => "session_see_all"
  | SessionControlAny => "session_control_any"
  | ControlRead => "control_read"
  | ControlWrite => "control_write"
  | FleetRead => "fleet_read"
  | FleetWrite => "fleet_write"
  | ModelsRead => "models_read"
  | ModelsWrite => "models_write"
  | ProfileRead => "profile_read"
  | ProfileWrite => "profile_write"
  | CredentialRead => "credential_read"
  | CredentialWrite => "credential_write"
  | CronRead => "cron_read"
  | CronWrite => "cron_write"
  | RoutingRead => "routing_read"
  | RoutingWrite => "routing_write"
  | MessagingRead => "messaging_read"
  | MessagingWrite => "messaging_write"
  | RegistryRead => "registry_read"
  | RegistryWrite => "registry_write"
  | FsRead => "fs_read"
  | FsWrite => "fs_write"
  | AccessAdmin => "access_admin"
  end.

(** ** The request context *)

Inductive AuthMethod := LocalTrust | Scram | Plain | External | Token | PairingMethod.

(** The inbound attribution of adapters ([origin]) is carried for audit only and
    left out. *)
Record RequestContext := mkRequestContext {
  rc_principal : Principal;
  rc_conn_id : option N;
  rc_auth_method : option AuthMethod
}.

Definition context_authenticated (p : Principal) : RequestContext := mkRequestContext p None None.

Definition context_system : RequestContext :=
  mkRequestContext (from_roles "system" SYSTEM_USERNAME [Admin]) None (Some LocalTrust).

Definition context_internal : RequestContext :=
  mkRequestContext (from_roles "internal" INTERNAL_USERNAME [Operator]) None (Some LocalTrust).

(** The task-local context: absent outside of a scope. *)
Definition current_principal (ctx : option RequestContext) : option Principal := rc_principal <$> ctx.

(** ** The gate *)

Inductive ApiError :=
| UnknownSession (session : string)
| Unsupported (reason : string)
| Conflict (reason : string)
| Unauthenticated (reason : string)
| Forbidden (reason : string)
| Other (reason : string).

Definition requires (c : Capability) : ApiError := Forbidden (String.append "operation requires capability " (cap_debug c)).

Definition authorize (ctx : option RequestContext) (req : ApiRequest) : result ApiError unit :=
  match current_principal ctx with
  | None => Err (Unauthenticated "no authenticated principal bound to this request")
  | Some p =>
      match required_capability req with
      | Authenticated => Ok tt
      | Cap c => if has p c then Ok tt else Err (requires c)
      | AllCaps cs =>
          match List.find (λ c, negb (has p c)) cs with
          | None => Ok tt
          | Some missing => Err (requires missing)
          end
      end
  end.

(** ** The gate and the ladder of roles *)

(** The lowest role with a capability. *)
Definition least_role (c : Capability) : Role :=
  if bool_decide (c ∈ viewer_caps) then Viewer
  else if bool_decide (c ∈ user_extra) then User
  else if bool_decide (c ∈ operator_extra) then Operator
  else Admin.

Lemma least_role_spec c r : c ∈ capabilities r ↔ role_leb (least_role c) r = true.
Proof.
  rewrite <- (bool_decide_spec (c ∈ capabilities r)). by destruct c, r; vm_compute.
Qed.

Definition role_max (a b : Role) : Role := if role_leb a b then b else a.

Lemma role_max_spec a b r : role_leb (role_max a b) r = true ↔ role_leb a r = true ∧ role_leb b r = true.
Proof. by destruct a, b, r; vm_compute; naive_solver. Qed.

Lemma role_total a b : role_leb a b = true ∨ role_leb b a = true.
Proof. destruct a, b; simpl; auto. Qed.

Lemma role_trans a b c : role_leb a b = true → role_leb b c = true → role_leb a c = true.
Proof. by destruct a, b, c. Qed.

(** The lowest role that may make a request; [None] for any principal at all. *)
Definition role_needed (req : ApiRequest) : option Role :=
  match required_capability req with
  | Authenticated => None
  | Cap c => Some (least_role c)
  | AllCaps cs => Some (foldr (λ c, role_max (least_role c)) Viewer cs)
  end.

Lemma has_role id name roles c :
  has (from_roles id name roles) c = true ↔ ∃ r, r ∈ roles ∧ role_leb (least_role c) r = true.
Proof. rewrite has_from_roles. by setoid_rewrite least_role_spec. Qed.

(** Of several capabilities, some single role has them all. *)
Lemma has_all_roles id name roles cs :
  cs ≠ [] → Forall (λ c, has (from_roles id name roles) c = true) cs ↔
    ∃ r, r ∈ roles ∧ role_leb (foldr (λ c, role_max (least_role c)) Viewer cs) r = true.
Proof.
  intros Hne. split.
  - destruct cs as [|c0 cs]; [done|]. clear Hne. rewrite Forall_cons. intros [H0 Hcs].
    simpl. induction Hcs as [|c cs Hc _ IH]; simpl.
    + apply has_role in H0 as (r & ? & ?). exists r. split; [done|]. by apply role_max_spec.
    + destruct IH as (r & Hr & [Ha Hb]%role_max_spec), (proj1 (has_role _ _ _ _) Hc) as (r' & Hr' & Hc').
      destruct (role_total r r') as [Hle|Hle]; [exists r'|exists r]; (split; [done|]); rewrite !role_max_spec;
        eauto using role_trans.
  - intros (r & Hr & Hall). apply Forall_forall. intros c Hc. apply has_role. exists r. split; [done|]. clear Hne.
    induction cs as [|c' cs IH]; simpl in *; [by apply not_elem_of_nil in Hc|].
    apply role_max_spec in Hall as [H1 H2]. apply elem_of_cons in Hc as [->|Hc]; auto.
Qed.

(** The gate is the ladder of roles: without a principal every request is
    refused as unauthenticated, and a principal may make a request exactly when
    one of its roles is at least the lowest role the request needs; roles together
    never allow more than the highest of them. *)
Theorem authorize_ladder req :
  (authorize None req = Err (Unauthenticated "no authenticated principal bound to this request")) ∧
  ∀ ctx id name roles, rc_principal ctx = from_roles id name roles →
    authorize (Some ctx) req = Ok tt ↔
      match role_needed req with
      | None => True
      | Some need => ∃ r, r ∈ roles ∧ role_leb need r = true
      end.
Proof.
  split; [done|]. intros ctx id name roles Hp. unfold authorize, role_needed. simpl. rewrite Hp.
  destruct (required_capability req) as [|c|cs] eqn:Er; [done| |].
  - rewrite <- (has_role id name). by destruct (has _ c).
  - assert (cs ≠ []) as Hne by (by destruct req; simplify_eq/=). rewrite <- (has_all_roles id name roles cs Hne).
    destruct (List.find _ cs) as [c|] eqn:Ef.
    + apply find_some in Ef as [Hin Hc]. split; [done|]. rewrite Forall_forall. intros Hall.
      rewrite Hall in Hc by (by apply list_elem_of_In). done.
    + split; [intros _|done]. apply Forall_forall. intros c Hc%list_elem_of_In.
      apply (find_none _ _ Ef) in Hc. by apply negb_false_iff in Hc.
Qed.
