(* ===== verification/Pairing.v ===== *)
(** * Device pairing ([daemon-host/src/pairing.rs])

    The manager of the armed pairing code, shared by the admin surface and the
    exchanges of many connections.  A method that takes one lock is one step of the
    state.  Arming takes two in turn, one for the generation and one for the state,
    and an exchange holds none between its admission, the end of its start and its
    outcome: these are separate steps, and [arm] and [begin_exchange] run them one
    after the other.
    SPAKE2 ([daemon-pake]) and the CBOR payloads are parameters; [Instant]s are
    milliseconds of the monotonic clock. *)

From S2P Require Import Prelude Text Auth.
#[local] Open Scope N_scope.
#[local] Open Scope daemon_scope.

Definition MECH_PAIRING : string := "X-DAEMON-PAIR-1".
Definition PAIRING_TTL : N := 120000.
Definition PAIRING_ATTEMPTS : N := 5.
Definition CODE_LEN : nat := 10.
Definition CROCKFORD : bytes := string_bytes "0123456789ABCDEFGHJKMNPQRSTVWXYZ".
Definition SHARE_LEN : nat := 65.

Inductive PairingRefusal := NotArmed | NoClientCert | RefusedLocked | Failed.

#[export] Instance PairingRefusal_eq_dec : EqDecision PairingRefusal.
Proof. solve_decision. Defined.

Definition refusal_reason (r : PairingRefusal) : string :=
  match r with
  | NotArmed => "pairing-not-armed"
  | NoClientCert => "pairing-no-client-cert"
  | RefusedLocked => "pairing-locked"
  | Failed => "pairing-failed"
  end.

(** ** Text of the exchange *)

(** The characters of a UTF-8 string: a byte and the continuation bytes after it. *)
Fixpoint utf8_chars (b : bytes) : list bytes :=
  match b with
  | [] => []
  | x :: b' =>
      match utf8_chars b' with
      | (y :: c) :: cs => if is_cont y then (x :: y :: c) :: cs else [x] :: (y :: c) :: cs
      | cs => [x] :: cs
      end
  end.

(** [char::is_control]: U+0000 to U+001F and U+007F to U+009F. *)
Definition is_control (c : bytes) : bool :=
  match c with
  | [x] => (Byte.to_N x <? 32) || (Byte.to_N x =? 127)
  | [x; y] => (Byte.to_N x =? 194) && (128 <=? Byte.to_N y) && (Byte.to_N y <=? 159)
  | _ => false
  end.

Definition sanitize_device_name (raw : bytes) : bytes :=
  let cleaned := trim (mjoin (take 64 (List.filter (λ c, negb (is_control c)) (utf8_chars raw)))) in
  if bool_decide (cleaned = []) then string_bytes "device" else cleaned.

Definition generate_code (r : Random) : option bytes :=
  match r with
  | None => None
  | Some b => Some ((λ x, default Byte.x00 (CROCKFORD !! N.to_nat (Byte.to_N x mod 32))) <$> b)
  end.

Definition group_code (code : bytes) : bytes :=
  if (length code =? CODE_LEN)%nat then take 5 code ++ string_bytes "-" ++ drop 5 code else code.

Definition is_ascii_alphanumeric (b : Byte.byte) : bool :=
  let v := Byte.to_N b in
  ((48 <=? v) && (v <=? 57)) || ((65 <=? v) && (v <=? 90)) || ((97 <=? v) && (v <=? 122)).

Definition ascii_upper (b : Byte.byte) : Byte.byte :=
  let v := Byte.to_N b in if (97 <=? v) && (v <=? 122) then byte_of (v - 32) else b.

(** [I] and [L] are read as [1], [O] as [0]. *)
Definition fold_confusable (b : Byte.byte) : Byte.byte :=
  let v := Byte.to_N b in
  if (v =? 73) || (v =? 76) then byte_of 49 else if v =? 79 then byte_of 48 else b.

(** Only ASCII characters pass the filter, so working by bytes is exact. *)
Definition canonicalize_code (input : bytes) : bytes :=
  (λ b, fold_confusable (ascii_upper b)) <$> List.filter is_ascii_alphanumeric input.

Definition hex_value (b : Byte.byte) : option N :=
  let v := Byte.to_N b in
  if (48 <=? v) && (v <=? 57) then Some (v - 48)
  else if (97 <=? v) && (v <=? 102) then Some (v - 87)
  else if (65 <=? v) && (v <=? 70) then Some (v - 55)
  else None.

Fixpoint hex_pairs (b : bytes) : option bytes :=
  match b with
  | x :: y :: b' =>
      hi ← hex_value x; lo ← hex_value y; rest ← hex_pairs b'; Some (byte_of (N.lor (N.shiftl hi 4) lo) :: rest)
  | _ => Some []
  end.

Definition hex_decode32 (h : bytes) : option bytes :=
  if (length h =? 64)%nat then hex_pairs h else None.

Definition compose_aad (server_fp_hex client_fp_hex device_name : bytes) : option bytes :=
  server ← hex_decode32 server_fp_hex; client ← hex_decode32 client_fp_hex; Some (server ++ client ++ device_name).

(** RFC 3986 unreserved bytes pass, others are written as two capital hex digits. *)
Definition unreserved (b : Byte.byte) : bool :=
  is_ascii_alphanumeric b || bool_decide (b ∈ string_bytes "-._~").

Definition upper_hex_digit (n : N) : Byte.byte := byte_of (if n <? 10 then 48 + n else 55 + n).

Definition percent_encode (value : bytes) : bytes :=
  value ≫= λ b, if unreserved b then [b]
    else [byte_of 37; upper_hex_digit (Byte.to_N b / 16); upper_hex_digit (Byte.to_N b mod 16)].

(** ** The exchange *)

(** Payloads of the exchange. *)
Record PairStart := mkPairStart { ps_v : N; ps_pa : bytes; ps_name : bytes }.

Class Pake := {
  PasswordScalar : Type;
  Finished : Type;
  scalar_derive : bytes → PasswordScalar;
  (** [Exchange::new_b] with its random scalar, then [finish]: the node's share,
      its confirmation and the state that checks the peer's. *)
  exchange_b : PasswordScalar → Random → bytes → bytes → option (bytes * bytes * Finished);
  verify_peer_confirmation : Finished → bytes → bool;
  decode_pair_start : bytes → option PairStart;
  encode_pair_challenge : bytes → bytes → bytes;
  decode_pair_confirm : bytes → option bytes
}.

Section manager.
Context {HP : Pake}.

Definition decode_start (initial : bytes) : option PairStart :=
  start ← decode_pair_start initial;
  if (ps_v start =? 1) && (length (ps_pa start) =? SHARE_LEN)%nat && (length (ps_name start) <=? 256)%nat
  then Some start else None.

Definition run_spake2 (w : PasswordScalar) (server_fp_hex client_fp_hex initial : bytes) (r : Random)
    : result PairingRefusal (bytes * Finished * bytes) :=
  match decode_start initial with
  | None => Err Failed
  | Some start =>
      let device_name := sanitize_device_name (ps_name start) in
      match compose_aad server_fp_hex client_fp_hex device_name with
      | None => Err Failed
      | Some aad =>
          match exchange_b w r (ps_pa start) aad with
          | None => Err Failed
          | Some (pb, cb, finished) => Ok (encode_pair_challenge pb cb, finished, device_name)
          end
      end
  end.

(** ** The manager *)

Record Armed := mkArmed {
  ar_w : PasswordScalar;
  ar_deadline : N;
  ar_expires_at_ms : N;
  ar_attempts_remaining : N;
  ar_in_flight : bool;
  ar_generation : N
}.

Inductive State := Disarmed | Locked | ArmedState (a : Armed).

Record PairingManager := mkPairingManager { pm_state : State; pm_generations : N }.

Definition PairingManager_new : PairingManager := mkPairingManager Disarmed 0.

Definition expire_if_stale (now : N) (st : State) : State :=
  match st with
  | ArmedState a => if ar_deadline a <=? now then Disarmed else st
  | _ => st
  end.

(** A code about to be armed, with its generation. *)
Record Arming := mkArming { am_code : bytes; am_expires_at_ms : N; am_generation : N }.

Definition arm_begin (wall_ms : N) (r : Random) (m : PairingManager) : option Arming * PairingManager :=
  match generate_code r with
  | None => (None, m)
  | Some code =>
      let expires_at_ms := N.min (wall_ms + PAIRING_TTL) (u64_bound - 1) in
      let generation := pm_generations m +₆₄ 1 in
      (Some (mkArming code expires_at_ms generation), mkPairingManager (pm_state m) generation)
  end.

Definition arm_finish (now : N) (am : Arming) (m : PairingManager) : (bytes * N) * PairingManager :=
  ((am_code am, am_expires_at_ms am),
   mkPairingManager
     (ArmedState (mkArmed (scalar_derive (am_code am)) (now + PAIRING_TTL) (am_expires_at_ms am) PAIRING_ATTEMPTS false (am_generation am)))
     (pm_generations m)).

Definition arm (now wall_ms : N) (r : Random) (m : PairingManager) : option (bytes * N) * PairingManager :=
  match arm_begin wall_ms r m with
  | (None, m') => (None, m')
  | (Some am, m') => let '(out, m'') := arm_finish now am m' in (Some out, m'')
  end.

Definition cancel (m : PairingManager) : PairingManager := mkPairingManager Disarmed (pm_generations m).

Record PairingStatusView := mkPairingStatusView {
  pv_armed : bool;
  pv_expires_at_ms : option N;
  pv_attempts_remaining : option N;
  pv_locked : bool
}.

Definition observe (now : N) (m : PairingManager) : PairingManager :=
  mkPairingManager (expire_if_stale now (pm_state m)) (pm_generations m).

Definition status (now : N) (m : PairingManager) : PairingStatusView * PairingManager :=
  let m' := observe now m in
  (match pm_state m' with
   | Disarmed => mkPairingStatusView false None None false
   | Locked => mkPairingStatusView false None None true
   | ArmedState a => mkPairingStatusView true (Some (ar_expires_at_ms a)) (Some (ar_attempts_remaining a)) false
   end, m').

Definition is_armed (now : N) (m : PairingManager) : bool * PairingManager :=
  let m' := observe now m in (match pm_state m' with ArmedState _ => true | _ => false end, m').

(** The admission of [begin_exchange], under the lock. *)
Definition admit_exchange (now : N) (m : PairingManager)
    : result PairingRefusal (PasswordScalar * N) * PairingManager :=
  let m' := observe now m in
  match pm_state m' with
  | Disarmed => (Err NotArmed, m')
  | Locked => (Err RefusedLocked, m')
  | ArmedState a =>
      if ar_in_flight a then (Err Failed, m')
      else (Ok (ar_w a, ar_generation a),
            mkPairingManager
              (ArmedState (mkArmed (ar_w a) (ar_deadline a) (ar_expires_at_ms a) (ar_attempts_remaining a) true (ar_generation a)))
              (pm_generations m'))
  end.

Definition fail_attempt (generation : N) (m : PairingManager) : PairingManager :=
  match pm_state m with
  | ArmedState a =>
      if ar_generation a =? generation then
        let remaining := ar_attempts_remaining a - 1 in
        mkPairingManager
          (if remaining =? 0 then Locked
           else ArmedState (mkArmed (ar_w a) (ar_deadline a) (ar_expires_at_ms a) remaining false (ar_generation a)))
          (pm_generations m)
      else m
  | _ => m
  end.

Definition succeed (generation : N) (m : PairingManager) : PairingManager :=
  match pm_state m with
  | ArmedState a => if ar_generation a =? generation then mkPairingManager Disarmed (pm_generations m) else m
  | _ => m
  end.

Record PendingPairing := mkPendingPairing {
  pp_finished : Finished;
  pp_generation : N;
  pp_client_fp : bytes;
  pp_display_name : bytes
}.

(** After the admission: the exchange proper, outside the lock, and the attempt it
    costs when it fails. *)
Definition start_exchange (w : PasswordScalar) (generation : N) (server_fp_hex client_fp_hex initial : bytes) (r : Random) (m : PairingManager)
    : result PairingRefusal (bytes * PendingPairing) * PairingManager :=
  match run_spake2 w server_fp_hex client_fp_hex initial r with
  | Ok (challenge, finished, display_name) =>
      (Ok (challenge, mkPendingPairing finished generation client_fp_hex display_name), m)
  | Err refusal => (Err refusal, fail_attempt generation m)
  end.

Definition begin_exchange (now : N) (server_fp_hex client_fp_hex initial : bytes) (r : Random) (m : PairingManager)
    : result PairingRefusal (bytes * PendingPairing) * PairingManager :=
  match admit_exchange now m with
  | (Err refusal, m') => (Err refusal, m')
  | (Ok (w, generation), m') => start_exchange w generation server_fp_hex client_fp_hex initial r m'
  end.

Definition verified (p : PendingPairing) (step_payload : bytes) : bool :=
  match decode_pair_confirm step_payload with
  | Some ca => verify_peer_confirmation (pp_finished p) ca
  | None => false
  end.

Definition complete (p : PendingPairing) (step_payload : bytes) (m : PairingManager)
    : result PairingRefusal (bytes * bytes) * PairingManager :=
  if verified p step_payload
  then (Ok (pp_client_fp p, pp_display_name p), succeed (pp_generation p) m)
  else (Err Failed, fail_attempt (pp_generation p) m).

(** [Drop]: an abandoned exchange. *)
Definition drop_pending (p : PendingPairing) (m : PairingManager) : PairingManager := fail_attempt (pp_generation p) m.
End manager.

(** ** The manager and its exchanges *)

Section budget.
Context {HP : Pake}.

(** The manager, the codes being armed, the exchanges admitted and not yet started,
    those that wait for the confirmation, and the outcomes of the finished ones:
    [true] for an enrollment. *)
Record Pairings := mkPairings {
  py_manager : PairingManager;
  py_arming : list Arming;
  py_starting : list (PasswordScalar * N);
  py_pending : list PendingPairing;
  py_log : list (N * bool)
}.

Definition is_ok {E A} (r : result E A) : bool := match r with Ok _ => true | Err _ => false end.

(** One step of some connection or administrator, between two locks. *)
Inductive pstep : Pairings → Pairings → Prop :=
| step_arm_begin wall_ms r m m' am arming starting pend log : arm_begin wall_ms r m = (am, m') →
    pstep (mkPairings m arming starting pend log) (mkPairings m' (option_list am ++ arming) starting pend log)
| step_arm_finish now m out m' am pre post starting pend log : arm_finish now am m = (out, m') →
    pstep (mkPairings m (pre ++ am :: post) starting pend log) (mkPairings m' (pre ++ post) starting pend log)
| step_cancel m arming starting pend log :
    pstep (mkPairings m arming starting pend log) (mkPairings (cancel m) arming starting pend log)
| step_status now m view m' arming starting pend log : status now m = (view, m') →
    pstep (mkPairings m arming starting pend log) (mkPairings m' arming starting pend log)
| step_is_armed now m b m' arming starting pend log : is_armed now m = (b, m') →
    pstep (mkPairings m arming starting pend log) (mkPairings m' arming starting pend log)
| step_refused now m m' e arming starting pend log : admit_exchange now m = (Err e, m') →
    pstep (mkPairings m arming starting pend log) (mkPairings m' arming starting pend log)
| step_admitted now m m' x arming starting pend log : admit_exchange now m = (Ok x, m') →
    pstep (mkPairings m arming starting pend log) (mkPairings m' arming (x :: starting) pend log)
| step_started server client initial r m m' w g challenge p arming pre post pend log :
    start_exchange w g server client initial r m = (Ok (challenge, p), m') →
    pstep (mkPairings m arming (pre ++ (w, g) :: post) pend log) (mkPairings m' arming (pre ++ post) (p :: pend) log)
| step_not_started server client initial r m m' w g e arming pre post pend log :
    start_exchange w g server client initial r m = (Err e, m') →
    pstep (mkPairings m arming (pre ++ (w, g) :: post) pend log) (mkPairings m' arming (pre ++ post) pend ((g, false) :: log))
| step_completed payload m m' res p arming starting pre post log : complete p payload m = (res, m') →
    pstep (mkPairings m arming starting (pre ++ p :: post) log)
      (mkPairings m' arming starting (pre ++ post) ((pp_generation p, is_ok res) :: log))
| step_dropped m p arming starting pre post log :
    pstep (mkPairings m arming starting (pre ++ p :: post) log)
      (mkPairings (drop_pending p m) arming starting (pre ++ post) ((pp_generation p, false) :: log)).

Inductive preach : N → Pairings → Prop :=
| preach_init : preach 0 (mkPairings PairingManager_new [] [] [] [])
| preach_step n s s' : preach n s → pstep s s' → preach (n + 1) s'.

Definition count {A} `{EqDecision A} (x : A) (l : list A) : nat := length (List.filter (λ y, bool_decide (y = x)) l).

Lemma count_cons {A} `{EqDecision A} (x y : A) l :
  count x (y :: l) = ((if decide (y = x) then 1 else 0) + count x l)%nat.
Proof. unfold count. simpl. case_bool_decide; by case_decide. Qed.

Lemma count_middle {A} `{EqDecision A} (x y : A) l k :
  count x (l ++ y :: k) = ((if decide (y = x) then 1 else 0) + count x (l ++ k))%nat.
Proof.
  unfold count. rewrite !List.filter_app, !length_app. simpl. case_bool_decide; case_decide; simpl; try done; lia.
Qed.

Definition fails (s : Pairings) (g : N) : nat := count (g, false) (py_log s).
Definition wins (s : Pairings) (g : N) : nat := count (g, true) (py_log s).
Definition in_flight (s : Pairings) (g : N) : nat := (count g (snd <$> py_starting s) + count g (pp_generation <$> py_pending s))%nat.

Definition budget (f w p : nat) : Prop := (f + w + p ≤ 5 ∧ w + p ≤ 1)%nat.

(** Per generation [f] failures, [w] enrollments and [p] exchanges in flight: those
    of the armed code agree with the manager, other codes have kept within the
    budget, and a generation above the counter, or still being armed, is unused. *)
Record pairing_inv (n : N) (m : PairingManager) (arming : list N) (f w p : N → nat) : Prop := {
  pi_bound : pm_generations m ≤ n;
  pi_fresh : ∀ g, pm_generations m < g ∨ g ∈ arming → f g = 0%nat ∧ w g = 0%nat ∧ p g = 0%nat;
  pi_arming : NoDup arming ∧ ∀ g, g ∈ arming → g ≤ pm_generations m;
  pi_budget : ∀ g, budget (f g) (w g) (p g);
  pi_armed : ∀ a, pm_state m = ArmedState a →
    ar_generation a ≤ pm_generations m ∧ ar_generation a ∉ arming ∧ 0 < ar_attempts_remaining a ∧
    (N.of_nat (f (ar_generation a)) + ar_attempts_remaining a = PAIRING_ATTEMPTS) ∧
    w (ar_generation a) = 0%nat ∧ p (ar_generation a) = (if ar_in_flight a then 1 else 0)%nat
}.

(** One more, one less at [g]. *)
Definition bump (g : N) (f : N → nat) : N → nat := λ x, ((if decide (g = x) then 1 else 0) + f x)%nat.

Section steps.
Variables (n : N) (m : PairingManager) (arming : list N) (f w p : N → nat).
Hypothesis Hinv : pairing_inv n m arming f w p.

Lemma inv_later : pairing_inv (n + 1) m arming f w p.
Proof using Hinv. destruct Hinv. constructor; [lia|done..]. Qed.

Lemma inv_arm_begin wall_ms r am m' : n + 1 < u64_bound → arm_begin wall_ms r m = (am, m') →
  pairing_inv (n + 1) m' ((am_generation <$> option_list am) ++ arming) f w p.
Proof using Hinv.
  intros Hn. unfold arm_begin. destruct (generate_code r); intros [= <- <-]; [|apply inv_later].
  destruct Hinv as [Hb Hf [Hnd Hle] Hbu Ha]. rewrite wrap64_small by lia. constructor; simpl; [lia| | |done|].
  - intros g [Hg|[->|Hg]%elem_of_cons]; apply Hf; [left; lia|left; lia|by right].
  - split; [constructor; [intros ?%Hle; lia|done]|]. intros g [->|Hg%Hle]%elem_of_cons; lia.
  - intros a Hs. destruct (Ha a Hs) as (H1 & H2 & H3). split_and!; [lia| |by apply H3..].
    rewrite not_elem_of_cons. split; [lia|done].
Qed.

Lemma inv_cancel : pairing_inv (n + 1) (cancel m) arming f w p.
Proof using Hinv. destruct Hinv. constructor; simpl; [lia|done..]. Qed.

Lemma inv_observe now : pairing_inv (n + 1) (observe now m) arming f w p.
Proof using Hinv.
  destruct Hinv as [Hb Hf Hg Hbu Ha]. constructor; simpl; [lia|done|done|done|].
  intros a. unfold expire_if_stale. destruct (pm_state m) as [| |a']; [done|done|].
  case_match; [done|]. by intros ?; apply Ha.
Qed.

Lemma inv_refused now e m' : admit_exchange now m = (Err e, m') → pairing_inv (n + 1) m' arming f w p.
Proof using Hinv.
  intros Had. assert (m' = observe now m) as ->; [|apply inv_observe]. unfold admit_exchange in Had.
  repeat case_match; by simplify_eq.
Qed.

Lemma inv_admitted now x m' :
  admit_exchange now m = (Ok x, m') → pairing_inv (n + 1) m' arming f w (bump x.2 p).
Proof using Hinv.
  intros Had. pose proof (inv_observe now) as [Hb Hf Hg Hbu Ha]. unfold admit_exchange in Had. simpl in *.
  destruct (expire_if_stale now (pm_state m)) as [| |a]; simplify_eq.
  destruct (Ha a eq_refl) as (Hle & Hna & H0 & H1 & H2 & H3). destruct (ar_in_flight a); simplify_eq.
  constructor; simpl; [done| |done| |].
  - intros g' Hlt. unfold bump. rewrite decide_False; [by apply Hf|]. intros <-. destruct Hlt; [lia|done].
  - intros g'. specialize (Hbu g'). unfold budget, bump in *. case_decide; [subst g'|done].
    rewrite H3. unfold PAIRING_ATTEMPTS in *. lia.
  - intros a' [= <-]. simpl. unfold bump. by rewrite decide_True, H3.
Qed.
End steps.

(** A code being armed replaces the state. *)
Lemma inv_arm_finish n m g arming f w p now am out m' : am_generation am = g → arm_finish now am m = (out, m') →
  pairing_inv n m (g :: arming) f w p → pairing_inv (n + 1) m' arming f w p.
Proof.
  intros Hg [= _ <-] [Hb Hf [Hnd Hle] Hbu Ha]. apply NoDup_cons in Hnd as [Hni Hnd]. constructor; simpl; [lia| | |done|].
  - intros g' [Hg'|Hg']; apply Hf; [by left|right; by right].
  - split; [done|]. intros g' Hg'. apply Hle. by right.
  - intros a [= <-]. simpl. rewrite Hg. destruct (Hf g) as (-> & -> & ->); [right; by left|]. split_and!; [apply Hle; by left|done..].
Qed.

(** An exchange in flight ends. *)
Lemma inv_failed n m arming f w p g :
  pairing_inv n m arming f w (bump g p) → pairing_inv (n + 1) (fail_attempt g m) arming (bump g f) w p.
Proof.
  intros [Hb Hf Har Hbu Ha]. unfold bump in *.
  assert (pm_generations (fail_attempt g m) = pm_generations m) as Hgen by (unfold fail_attempt; by repeat case_match).
  constructor; rewrite ?Hgen; [lia| |done| |].
  - intros g' Hlt. specialize (Hf g' Hlt). case_decide; simpl in *; lia.
  - intros g'. specialize (Hbu g'). unfold budget in *. case_decide; simpl in *; lia.
  - intros a. unfold fail_attempt. destruct (pm_state m) as [| |a'] eqn:Em; rewrite ?Em; [done|done|].
    destruct (Ha a' eq_refl) as (Hg & Hni & H0 & H1 & H2 & H3).
    destruct (N.eqb_spec (ar_generation a') g) as [<-|Hne].
    + destruct (N.eqb_spec (ar_attempts_remaining a' - 1) 0); [done|]. intros [= <-]. simpl.
      rewrite decide_True in * by done. destruct (ar_in_flight a'); (split_and!; [done|done|lia|lia|done|lia]).
    + rewrite Em. intros [= <-]. by rewrite decide_False in * by done.
Qed.

Lemma inv_succeeded n m arming f w p g :
  pairing_inv n m arming f w (bump g p) → pairing_inv (n + 1) (succeed g m) arming f (bump g w) p.
Proof.
  intros [Hb Hf Har Hbu Ha]. unfold bump in *.
  assert (pm_generations (succeed g m) = pm_generations m) as Hgen by (unfold succeed; by repeat case_match).
  constructor; rewrite ?Hgen; [lia| |done| |].
  - intros g' Hlt. specialize (Hf g' Hlt). case_decide; simpl in *; lia.
  - intros g'. specialize (Hbu g'). unfold budget in *. case_decide; simpl in *; lia.
  - intros a. unfold succeed. destruct (pm_state m) as [| |a'] eqn:Em; rewrite ?Em; [done|done|].
    destruct (Ha a' eq_refl) as (Hg & Hni & H0 & H1 & H2 & H3).
    destruct (N.eqb_spec (ar_generation a') g) as [<-|Hne]; [done|].
    rewrite Em. intros [= <-]. by rewrite decide_False in * by done.
Qed.

(** The counts of a step are the bumped ones. *)
Lemma pairing_inv_ext n m arming f w p f' w' p' :
  (∀ g, f g = f' g) → (∀ g, w g = w' g) → (∀ g, p g = p' g) → pairing_inv n m arming f w p → pairing_inv n m arming f' w' p'.
Proof.
  intros Ef Ew Ep [Hb Hf Hg Hbu Ha]. constructor; [done| |done| |]; intros; rewrite <- ?Ef, <- ?Ew, <- ?Ep; auto.
Qed.

Lemma pairing_inv_perm n m l k f w p : l ≡ₚ k → pairing_inv n m l f w p → pairing_inv n m k f w p.
Proof.
  intros Hp [Hb Hf [Hnd Hle] Hbu Ha]. constructor; [done|intros g; rewrite <- Hp; apply Hf| |done|intros a; rewrite <- Hp; apply Ha].
  split; [by rewrite <- Hp|intros g; rewrite <- Hp; apply Hle].
Qed.

(** Counting after a step. *)
Ltac count_step :=
  intros ?; unfold bump, in_flight, fails, wins; cbn [py_log py_starting py_pending];
  rewrite ?fmap_app, ?fmap_cons; cbn [snd pp_generation]; rewrite ?count_cons, ?count_middle; repeat case_decide; simplify_eq; try done; lia.

Lemma preach_inv n s : preach n s → n < u64_bound →
  pairing_inv n (py_manager s) (am_generation <$> py_arming s) (fails s) (wins s) (in_flight s).
Proof.
  induction 1 as [|n s s' Hr IH Hst]; intros Hn.
  { constructor; simpl; [done|done|split; [constructor|by intros g ?%elem_of_nil]|intros g; unfold budget, in_flight; cbn; lia|done]. }
  specialize (IH ltac:(lia)).
  destruct Hst as [wall_ms r m m' am arming starting pend log Hs|now m out m' am pre post starting pend log Hs| |now m view m' ? ? ? ? [= _ <-]
    |now m b m' ? ? ? ? [= _ <-]|? ? ? ? ? ? ? ? Hs|now m m' x arming starting pend log Hs
    |server client initial r m m' w g challenge p arming pre post pend log Hs|server client initial r m m' w g e arming pre post pend log Hs
    |payload m m' res p arming starting pre post log Hs|m p arming starting pre post log]; simpl in *.
  - rewrite fmap_app. by eapply inv_arm_begin.
  - rewrite fmap_app. eapply inv_arm_finish; [done|exact Hs|]. eapply pairing_inv_perm; [|exact IH]. rewrite fmap_app, fmap_cons. symmetry. apply Permutation_middle.
  - by apply inv_cancel.
  - by apply inv_observe.
  - by apply inv_observe.
  - by eapply inv_refused.
  - eapply pairing_inv_ext; [..|by eapply inv_admitted]; try done. count_step.
  - unfold start_exchange in Hs. destruct (run_spake2 _ _ _ _ _) as [[[ch fin] name]|e]; simplify_eq.
    eapply pairing_inv_ext; [..|exact (inv_later _ _ _ _ _ _ IH)]; try done. count_step.
  - unfold start_exchange in Hs. destruct (run_spake2 _ _ _ _ _) as [[[ch fin] name]|e']; simplify_eq.
    eapply pairing_inv_ext; [..|apply inv_failed; eapply pairing_inv_ext; [..|exact IH]]; try done; count_step.
  - unfold complete in Hs. destruct (verified p payload); simplify_eq; simpl.
    + eapply pairing_inv_ext; [..|apply inv_succeeded; eapply pairing_inv_ext; [..|exact IH]]; try done; count_step.
    + eapply pairing_inv_ext; [..|apply inv_failed; eapply pairing_inv_ext; [..|exact IH]]; try done; count_step.
  - eapply pairing_inv_ext; [..|apply inv_failed; eapply pairing_inv_ext; [..|exact IH]]; try done; count_step.
Qed.

(** C20. The budget of a pairing code: however arming, cancelling, observing and
    the starts, confirmations and abandonments of the exchanges of any number of
    connections interleave, one code is tried at most five times, by one exchange
    at a time, and enrolls at most one device.  While a code is armed its record is
    exact: the attempts it has left are five less the exchanges that failed, it has
    enrolled nobody, and it is closed to other exchanges just while one is under
    way. *)
Theorem pairing_budget n s g :
  preach n s → n < u64_bound →
  (fails s g + wins s g + in_flight s g ≤ 5)%nat ∧ (wins s g + in_flight s g ≤ 1)%nat ∧
  ∀ a, pm_state (py_manager s) = ArmedState a → ar_generation a = g →
    0 < ar_attempts_remaining a ∧ N.of_nat (fails s g) + ar_attempts_remaining a = 5 ∧ wins s g = 0%nat ∧
    in_flight s g = (if ar_in_flight a then 1 else 0)%nat.
Proof.
  intros Hr Hn. pose proof (preach_inv n s Hr Hn) as Hi. destruct (pi_budget _ _ _ _ _ _ Hi g) as [H1 H2]. split_and!; [done|done|].
  intros a Ha <-. by destruct (pi_armed _ _ _ _ _ _ Hi a Ha) as (_ & _ & H3).
Qed.
End budget.

(** ** Codes and fingerprints *)

Lemma crockford_canonical b :
  b ∈ CROCKFORD → is_ascii_alphanumeric b = true ∧ fold_confusable (ascii_upper b) = b.
Proof.
  intros Hb. assert (Forall (λ b, is_ascii_alphanumeric b = true ∧ fold_confusable (ascii_upper b) = b) CROCKFORD) as Hf.
  { apply (bool_decide_unpack _). by vm_compute. }
  rewrite Forall_forall in Hf. by apply Hf.
Qed.

Lemma canonicalize_crockford l : Forall (λ b, b ∈ CROCKFORD) l → canonicalize_code l = l.
Proof.
  induction 1 as [|b l [Ha Hu]%crockford_canonical _ IH]; [done|]. unfold canonicalize_code in *.
  cbn [List.filter]. rewrite Ha, fmap_cons. by rewrite Hu, IH.
Qed.

Lemma canonicalize_app l k : canonicalize_code (l ++ k) = canonicalize_code l ++ canonicalize_code k.
Proof. unfold canonicalize_code. by rewrite List.filter_app, fmap_app. Qed.

(** Typing the displayed form of a generated code gives the code back. *)
Theorem code_roundtrip r code : generate_code r = Some code → canonicalize_code (group_code code) = code.
Proof.
  unfold generate_code. destruct r as [b|]; [|done]. intros [= <-].
  set (code := _ <$> b). assert (Forall (λ b, b ∈ CROCKFORD) code) as Hc.
  { apply Forall_fmap, Forall_forall. intros x _. simpl.
    assert (N.to_nat (Byte.to_N x mod 32) < length CROCKFORD)%nat as Hlt.
    { change (length CROCKFORD) with 32%nat. pose proof (N.mod_lt (Byte.to_N x) 32 ltac:(done)). lia. }
    destruct (lookup_lt_is_Some_2 _ _ Hlt) as [y Hy]. rewrite Hy. simpl. by eapply list_elem_of_lookup_2. }
  unfold group_code. case_match; [|by apply canonicalize_crockford]. rewrite !canonicalize_app.
  change (canonicalize_code (string_bytes "-")) with (@nil Byte.byte). simpl.
  rewrite !canonicalize_crockford; [apply take_drop|by apply Forall_drop|by apply Forall_take].
Qed.

Lemma hex_pair x : hex_value (hex_digit (Byte.to_N x / 16)) = Some (Byte.to_N x / 16) ∧
  hex_value (hex_digit (Byte.to_N x mod 16)) = Some (Byte.to_N x mod 16) ∧
  byte_of (N.lor (N.shiftl (Byte.to_N x / 16) 4) (Byte.to_N x mod 16)) = x.
Proof. by destruct x. Qed.

Lemma hex_pairs_hex b :
  hex_pairs (b ≫= λ x, [hex_digit (Byte.to_N x / 16); hex_digit (Byte.to_N x mod 16)]) = Some b.
Proof.
  induction b as [|x b IH]; [done|]. csimpl. destruct (hex_pair x) as (-> & -> & Hx). simpl.
  rewrite IH. simpl. by rewrite Hx.
Qed.

(** A fingerprint of 32 bytes survives its hexadecimal form. *)
Lemma hex_decode32_hex b : length b = 32%nat → hex_decode32 (string_bytes (hex b)) = Some b.
Proof.
  intros Hl. unfold hex_decode32, hex, string_bytes. rewrite String.list_byte_of_string_of_list_byte.
  assert (length (b ≫= λ x, [hex_digit (Byte.to_N x / 16); hex_digit (Byte.to_N x mod 16)]) = 2 * length b)%nat as ->.
  { clear. induction b as [|x b IH]; [done|]. csimpl. rewrite IH. lia. }
  rewrite Hl. simpl. apply hex_pairs_hex.
Qed.

(** ** A pairing with a toy exchange *)

Definition toy_pake : Pake := {|
  PasswordScalar := bytes;
  Finished := bytes;
  scalar_derive := λ code, code;
  exchange_b := λ w r pa aad, Some (pa, w ++ pa, w ++ aad);
  verify_peer_confirmation := λ f ca, bool_decide (ca = f);
  decode_pair_start := λ b, Some (mkPairStart 1 (take SHARE_LEN b) (drop SHARE_LEN b));
  encode_pair_challenge := λ pb cb, pb ++ cb;
  decode_pair_confirm := λ b, Some b
|}.

Definition toy_armed : PairingManager := (@arm toy_pake 0 1000 (Some (string_bytes "0123456789")) (@PairingManager_new toy_pake)).2.
Definition toy_fp : bytes := string_bytes (hex (replicate 32 Byte.xab)).
Definition toy_start : bytes := replicate 65 Byte.x04 ++ string_bytes "phone".

Definition toy_begin : result PairingRefusal (bytes * @PendingPairing toy_pake) * @PairingManager toy_pake :=
  @begin_exchange toy_pake 10 toy_fp toy_fp toy_start None toy_armed.

(** The payload with which the peer of the started exchange confirms. *)
Definition toy_confirmation : bytes :=
  match toy_begin.1 with Ok (_, p) => pp_finished p | Err _ => [] end.

(** A code is armed, one exchange is abandoned, the next enrolls. *)
Definition toy_admitted (m : @PairingManager toy_pake) : @PairingManager toy_pake := (@admit_exchange toy_pake 10 m).2.
Definition toy_pending : @PendingPairing toy_pake :=
  @mkPendingPairing toy_pake toy_confirmation 1 toy_fp (string_bytes "phone").
Definition toy_retry : @PairingManager toy_pake := toy_admitted (@drop_pending toy_pake toy_pending (toy_admitted toy_armed)).
Definition toy_enrolled : @Pairings toy_pake :=
  @mkPairings toy_pake (@complete toy_pake toy_pending toy_confirmation toy_retry).2 [] [] [] [(1, true); (1, false)].

Lemma toy_enrolled_reachable : @preach toy_pake 8 toy_enrolled.
Proof.
  pose (code := string_bytes "0123456789"). pose (w := (string_bytes "0123456789") : @PasswordScalar toy_pake).
  assert (Hsteps : ∃ am m0, @arm_begin toy_pake 1000 (Some code) (@PairingManager_new toy_pake) = (Some am, m0) ∧
    (@arm_finish toy_pake 0 am m0).2 = toy_armed ∧
    (∃ x, @admit_exchange toy_pake 10 toy_armed = (Ok x, toy_admitted toy_armed) ∧
       ∃ ch, @start_exchange toy_pake x.1 x.2 toy_fp toy_fp toy_start None (toy_admitted toy_armed) = (Ok (ch, toy_pending), toy_admitted toy_armed)) ∧
    ∃ x, @admit_exchange toy_pake 10 (@drop_pending toy_pake toy_pending (toy_admitted toy_armed)) = (Ok x, toy_retry) ∧
       ∃ ch, @start_exchange toy_pake x.1 x.2 toy_fp toy_fp toy_start None toy_retry = (Ok (ch, toy_pending), toy_retry)).
  { do 2 eexists. split; [reflexivity|]. split; [reflexivity|]. split; eexists; (split; [reflexivity|]); eexists; vm_compute; reflexivity. }
  destruct Hsteps as (am & m0 & H1 & H2 & ([w1 g1] & H3 & c1 & H4) & ([w2 g2] & H5 & c2 & H6)).
  assert (Hc : @complete toy_pake toy_pending toy_confirmation toy_retry =
    (Ok (toy_fp, string_bytes "phone"), (@complete toy_pake toy_pending toy_confirmation toy_retry).2)) by (vm_compute; reflexivity).
  change 8 with (0 + 1 + 1 + 1 + 1 + 1 + 1 + 1 + 1).
  eapply preach_step; [|exact (@step_completed toy_pake toy_confirmation _ _ _ toy_pending [] [] [] [] [(1, false)] Hc)].
  eapply preach_step; [|exact (@step_started toy_pake toy_fp toy_fp toy_start None _ _ w2 g2 c2 toy_pending [] [] [] [] [(1, false)] H6)].
  eapply preach_step; [|exact (@step_admitted toy_pake 10 _ _ _ [] [] [] [(1, false)] H5)].
  eapply preach_step; [|exact (@step_dropped toy_pake (toy_admitted toy_armed) toy_pending [] [] [] [] [])].
  eapply preach_step; [|exact (@step_started toy_pake toy_fp toy_fp toy_start None _ _ w1 g1 c1 toy_pending [] [] [] [] [] H4)].
  eapply preach_step; [|exact (@step_admitted toy_pake 10 _ _ _ [] [] [] [] H3)].
  rewrite <- H2.
  eapply preach_step; [|exact (@step_arm_finish toy_pake 0 m0 _ _ am [] [] [] [] [] (surjective_pairing _))].
  eapply preach_step; [apply preach_init|]. exact (@step_arm_begin toy_pake 1000 (Some code) _ _ (Some am) [] [] [] [] H1).
Qed.

Lemma pairing_budget_witness :
  @fails toy_pake toy_enrolled 1 = 1%nat ∧ @wins toy_pake toy_enrolled 1 = 1%nat ∧
  (@fails toy_pake toy_enrolled 1 + @wins toy_pake toy_enrolled 1 + @in_flight toy_pake toy_enrolled 1 ≤ 5)%nat ∧
  (@wins toy_pake toy_enrolled 1 + @in_flight toy_pake toy_enrolled 1 ≤ 1)%nat.
Proof.
  split; [by vm_compute|]. split; [by vm_compute|].
  destruct (@pairing_budget toy_pake 8 toy_enrolled 1 toy_enrolled_reachable) as (H1 & H2 & _); [done|]. split; [exact H1|exact H2].
Defined.

Lemma code_roundtrip_witness :
  canonicalize_code (group_code (string_bytes "GHJKMNPQRS")) = string_bytes "GHJKMNPQRS".
Proof. apply (code_roundtrip (Some (string_bytes "0123456789"))). by vm_compute. Defined.

(** A code that the administrator cancelled, or replaced by a new one, or whose
    time has run out, still enrolls the device of an exchange that had started:
    completing an exchange looks at the confirmation only. *)
Example cancelled_code_enrolls :
  match toy_begin with
  | (Ok (_, p), m) =>
      (@complete toy_pake p toy_confirmation (cancel m)).1 = Ok (toy_fp, string_bytes "phone") ∧
      (@complete toy_pake p toy_confirmation (@arm toy_pake 20 1020 (Some (replicate 10 Byte.x07)) m).2).1
        = Ok (toy_fp, string_bytes "phone") ∧
      (@is_armed toy_pake 500000 m).1 = false ∧
      (@complete toy_pake p toy_confirmation (observe 500000 m)).1 = Ok (toy_fp, string_bytes "phone")
  | _ => False
  end.
Proof. by vm_compute. Qed.
