(* ===== verification/Access.v ===== *)
(** * The access-control surface and live connections

    [daemon-host/src/node_api/access.rs]: the handlers of user, role, session and
    device administration over the identity store.  [revocation.rs]: the epochs
    that cut live connections.  [authn.rs]: from a mechanism's outcome to a
    principal and a session token.  The audit journal and the change notices the
    handlers send are left out; rsasl is represented by the outcome of its step.
    The handlers are those of a node that carries an identity store, a pairing surface
    and a registry of revocations; [run_access_on] is what they do when one is missing. *)

From S2P Require Import Prelude Text Auth AuthFacts Authz Pairing.
From Stdlib Require Import ZArith Strings.Byte.
#[local] Open Scope daemon_scope.

Section access.
Context {HC : AuthCrypto} {HR : RowOrder} {HP : Pake}.

(** The text of an SQLite error. *)
Context (sqlite_message : SqlConstraint → string).

(** The parts of the node the surface works on. *)
Record Node := mkNode {
  nd_store : AuthStore;
  nd_epochs : gmap string N;
  nd_pairing : PairingManager
}.

#[local] Instance eta_Node : Eta Node := λ n, mkNode (nd_store n) (nd_epochs n) (nd_pairing n).

Abbreviation NodeM := (M Node ApiError).

(** ** Live-connection revocation *)

Definition epoch (n : Node) (user_id : string) : N := default 0%N (nd_epochs n !! user_id).

(** [cell]: created at zero when it is first asked for. *)
Definition cell (user_id : string) (n : Node) : Node :=
  match nd_epochs n !! user_id with
  | Some _ => n
  | None => n <| nd_epochs := <[user_id := 0%N]> (nd_epochs n) |>
  end.

Record RevocationGuard := mkRevocationGuard { rg_user_id : string; rg_at : N }.

Definition guard (user_id : string) (n : Node) : RevocationGuard * Node :=
  let n' := cell user_id n in (mkRevocationGuard user_id (epoch n' user_id), n').

Definition revoke (user_id : string) (n : Node) : Node :=
  let n' := cell user_id n in n' <| nd_epochs := <[user_id := epoch n' user_id +₆₄ 1]> (nd_epochs n') |>.

Definition is_revoked (n : Node) (g : RevocationGuard) : bool := negb (epoch n (rg_user_id g) =? rg_at g)%N.

(** ** Errors and views *)

Definition error_display (e : Error) : string :=
  match e with
  | Sqlite v => String.append "sqlite: " (sqlite_message v)
  | PasswordHash => "password hash: saslprep"
  | Entropy => "entropy: "
  | NotFound => "not found"
  | InvalidCredentials => "invalid credentials"
  | Disabled => "account disabled"
  | LastAdmin => "refusing to remove the last administrator"
  | ReservedUsername => "username is reserved"
  end.

Definition auth_err (e : Error) : ApiError :=
  match e with
  | LastAdmin => Forbidden "refusing to remove the last administrator"
  | NotFound => Other "unknown user"
  | Disabled => Other "account disabled"
  | other => Other (String.append "access control: " (error_display other))
  end.

(** A call of the store with its error mapped. *)
Definition on_store {A} (m : AuthM A) : NodeM A := λ n,
  let '(r, s) := m (nd_store n) in
  (match r with Ok a => Ok a | Err e => Err (auth_err e) end, n <| nd_store := s |>).

Fixpoint parse_roles (roles : list string) : NodeM (list Role) :=
  match roles with
  | [] => mret []
  | r :: roles' =>
      match from_wire r with
      | None => throw (Other (String.append "unknown role: " r))
      | Some role => rest ← parse_roles roles'; mret (role :: rest)
      end
  end.

Definition require_admin (ctx : option RequestContext) : NodeM unit :=
  match current_principal ctx with
  | None => throw (Unauthenticated "no authenticated principal bound to this request")
  | Some p => if has p AccessAdmin then mret tt else throw (Forbidden "operation requires capability AccessAdmin")
  end.

Record PrincipalView := mkPrincipalView {
  pv_user_id : string; pv_username : string; pv_roles : list string; pv_capabilities : list string
}.

Definition principal_view (p : Principal) : PrincipalView :=
  mkPrincipalView (p_user_id p) (p_username p) (as_str <$> p_roles p) (capability_wire_name <$> p_capabilities p).

Record AccessUser := mkAccessUser {
  au_user_id : string; au_username : string; au_disabled : bool; au_created_at : Z; au_roles : list string
}.

Definition access_user (rec : UserRecord) : NodeM AccessUser :=
  roles ← on_store (roles_of (ur_id rec));
  mret (mkAccessUser (ur_id rec) (ur_username rec) (ur_disabled rec) (ur_created_at rec) (as_str <$> roles)).

Definition revoke_principal (user_id : string) : NodeM unit := modify (revoke user_id).

(** ** Handlers *)

Definition user_create (ctx : option RequestContext) (username password : string) (roles : list string)
    (id_bytes : Random) (phc_salt : bytes) (scram_salt : Random) (now : Z) : NodeM AccessUser :=
  _ ← require_admin ctx;
  parsed ← parse_roles roles;
  rec ← on_store (create_user username password parsed id_bytes phc_salt scram_salt now);
  access_user rec.

Fixpoint access_users (recs : list UserRecord) : NodeM (list AccessUser) :=
  match recs with
  | [] => mret []
  | rec :: recs' => u ← access_user rec; us ← access_users recs'; mret (u :: us)
  end.

Definition user_list (ctx : option RequestContext) : NodeM (list AccessUser) :=
  _ ← require_admin ctx; recs ← on_store list_users; access_users recs.

Definition user_disable (ctx : option RequestContext) (user_id : string) (disabled : bool) : NodeM unit :=
  _ ← require_admin ctx;
  _ ← on_store (set_disabled_guarded user_id disabled);
  if disabled then revoke_principal user_id else mret tt.

Definition user_set_roles (ctx : option RequestContext) (user_id : string) (roles : list string) : NodeM unit :=
  _ ← require_admin ctx;
  parsed ← parse_roles roles;
  _ ← on_store (set_roles_guarded user_id parsed);
  revoke_principal user_id.

Definition user_set_password (ctx : option RequestContext) (user_id password : string)
    (phc_salt : bytes) (scram_salt : Random) (now : Z) : NodeM unit :=
  _ ← require_admin ctx;
  _ ← on_store (set_password user_id password phc_salt scram_salt now);
  _ ← on_store (revoke_user_sessions user_id);
  revoke_principal user_id.

Definition role_list (ctx : option RequestContext) : NodeM (list (string * list string)) :=
  _ ← require_admin ctx;
  mret ((λ r, (as_str r, capability_wire_name <$> capabilities r)) <$> Role_ALL).

Definition who_am_i (ctx : option RequestContext) : NodeM PrincipalView :=
  match current_principal ctx with
  | None => throw (Unauthenticated "no authenticated principal bound to this request")
  | Some p => mret (principal_view p)
  end.

Definition session_revoke (ctx : option RequestContext) (user_id : string) : NodeM unit :=
  _ ← require_admin ctx;
  _ ← on_store (revoke_user_sessions user_id);
  revoke_principal user_id.

(** The join facts of the surface ([PairingSurface]) that do not depend on the
    manager are left to the caller. *)
Definition pairing_begin (ctx : option RequestContext) (now wall_ms : N) (r : Random) : NodeM (bytes * N) :=
  _ ← require_admin ctx;
  n ← get;
  match arm now wall_ms r (nd_pairing n) with
  | (None, m) => throw (Other "pairing: no OS randomness for the pairing code")
  | (Some armed, m) => _ ← modify (λ n, n <| nd_pairing := m |>); mret armed
  end.

Definition pairing_cancel (ctx : option RequestContext) : NodeM unit :=
  _ ← require_admin ctx; modify (λ n, n <| nd_pairing := cancel (nd_pairing n) |>).

Definition pairing_status (ctx : option RequestContext) (now : N) : NodeM PairingStatusView :=
  _ ← require_admin ctx;
  n ← get;
  let '(view, m) := status now (nd_pairing n) in
  _ ← modify (λ n, n <| nd_pairing := m |>); mret view.

Record PairedDevice := mkPairedDevice {
  pd_user_id : string; pd_username : string; pd_display_name : option string; pd_fingerprint : string;
  pd_created_at : Z; pd_last_seen_at : option Z; pd_enabled : bool
}.

Definition paired_device_list (ctx : option RequestContext) : NodeM (list PairedDevice) :=
  _ ← require_admin ctx;
  rows ← on_store list_external_identities;
  mret ((λ r, mkPairedDevice (er_user_id r) (er_username r) (er_display_name r) (er_fingerprint r)
    (er_created_at r) (er_last_seen_at r) (negb (er_disabled r))) <$> rows).

Definition paired_device_revoke (ctx : option RequestContext) (fingerprint : string) : NodeM unit :=
  _ ← require_admin ctx;
  rows ← on_store list_external_identities;
  row ← ok_or (List.find (λ r, bool_decide (er_fingerprint r = fingerprint)) rows) (Other "unknown device fingerprint");
  _ ← on_store (remove_external_identity fingerprint);
  _ ← on_store (set_disabled (er_user_id row) true);
  revoke_principal (er_user_id row).

(** ** Requests as steps *)

Inductive AccessOp :=
| AUserCreate (username password : string) (roles : list string) (id_bytes : Random) (phc_salt : bytes)
    (scram_salt : Random) (now : Z)
| AUserList
| AUserDisable (user_id : string) (disabled : bool)
| AUserSetRoles (user_id : string) (roles : list string)
| AUserSetPassword (user_id password : string) (phc_salt : bytes) (scram_salt : Random) (now : Z)
| ARoleList
| AWhoAmI
| ASessionRevoke (user_id : string)
| APairingBegin (now wall_ms : N) (r : Random)
| APairingCancel
| APairingStatus (now : N)
| APairedDeviceList
| APairedDeviceRevoke (fingerprint : string).

Definition run_access (ctx : option RequestContext) (op : AccessOp) : NodeM unit :=
  match op with
  | AUserCreate u p rs ib ps ss now => _ ← user_create ctx u p rs ib ps ss now; mret tt
  | AUserList => _ ← user_list ctx; mret tt
  | AUserDisable id d => user_disable ctx id d
  | AUserSetRoles id rs => user_set_roles ctx id rs
  | AUserSetPassword id p ps ss now => user_set_password ctx id p ps ss now
  | ARoleList => _ ← role_list ctx; mret tt
  | AWhoAmI => _ ← who_am_i ctx; mret tt
  | ASessionRevoke id => session_revoke ctx id
  | APairingBegin now wall_ms r => _ ← pairing_begin ctx now wall_ms r; mret tt
  | APairingCancel => pairing_cancel ctx
  | APairingStatus now => _ ← pairing_status ctx now; mret tt
  | APairedDeviceList => _ ← paired_device_list ctx; mret tt
  | APairedDeviceRevoke fp => paired_device_revoke ctx fp
  end.

(** What a node carries, and the refusal of a handler that needs what it does not. *)
Record Wiring := mkWiring { wi_auth_store : bool; wi_pairing : bool; wi_revocations : bool }.

Definition unsupported (w : Wiring) (op : AccessOp) : option string :=
  match op with
  | ARoleList | AWhoAmI => None
  | APairingBegin _ _ _ | APairingCancel | APairingStatus _ =>
      if wi_pairing w then None
      else Some "pairing not available: it requires the TLS api listener and [api.pairing] enabled = true"
  | _ => if wi_auth_store w then None else Some "access control not available"
  end.

(** The handler on such a node: the administrator is asked for first, and without a registry
    no epoch moves. *)
Definition run_access_on (w : Wiring) (ctx : option RequestContext) (op : AccessOp) : NodeM unit := λ n,
  match unsupported w op with
  | Some reason => (_ ← require_admin ctx; throw (Unsupported reason)) n
  | None => let '(r, n') := run_access ctx op n in (r, if wi_revocations w then n' else n' <| nd_epochs := nd_epochs n |>)
  end.

(** A node that carries everything runs the handlers; one that lacks something changes its
    stores only as they do, and cuts no connection without a registry. *)
Lemma run_access_on_spec w ctx op n :
  (w = mkWiring true true true → run_access_on w ctx op n = run_access ctx op n) ∧
  (unsupported w op ≠ None → ∃ e, run_access_on w ctx op n = (Err e, n)) ∧
  (wi_revocations w = false → nd_epochs (run_access_on w ctx op n).2 = nd_epochs n).
Proof.
  unfold run_access_on. split_and!.
  - intros ->. assert (unsupported (mkWiring true true true) op = None) as -> by (by destruct op). cbn. by destruct (run_access ctx op n).
  - intros Hu. destruct (unsupported w op) as [reason|]; [|done]. unfold require_admin, mbind, M_bind.
    destruct (current_principal ctx) as [p|]; [destruct (has p AccessAdmin)|]; by eexists.
  - intros Hr. destruct (unsupported w op) as [reason|].
    + unfold require_admin, mbind, M_bind. destruct (current_principal ctx) as [p|]; [by destruct (has p AccessAdmin)|done].
    + rewrite Hr. by destruct (run_access ctx op n).
Qed.

(** The request of the wire an operation serves. *)
Definition access_request (op : AccessOp) : ApiRequest :=
  match op with
  | AUserCreate _ _ _ _ _ _ _ => ReqUserCreate
  | AUserList => ReqUserList
  | AUserDisable _ _ => ReqUserDisable
  | AUserSetRoles _ _ => ReqUserSetRoles
  | AUserSetPassword _ _ _ _ _ => ReqUserSetPassword
  | ARoleList => ReqRoleList
  | AWhoAmI => ReqWhoAmI
  | ASessionRevoke _ => ReqSessionRevoke
  | APairingBegin _ _ _ => ReqPairingBegin
  | APairingCancel => ReqPairingCancel
  | APairingStatus _ => ReqPairingStatus
  | APairedDeviceList => ReqPairedDeviceList
  | APairedDeviceRevoke _ => ReqPairedDeviceRevoke
  end.

Lemma require_admin_denied {A} ctx (f : unit → NodeM A) n :
  (∀ p, current_principal ctx = Some p → has p AccessAdmin = false) →
  ∃ e, (require_admin ctx ≫= f) n = (Err e, n).
Proof.
  intros Hp. unfold require_admin, mbind, M_bind. destruct (current_principal ctx) as [p|]; [|by eexists].
  rewrite Hp by done. by eexists.
Qed.

Lemma require_admin_allowed {A} ctx p (f : unit → NodeM A) n :
  current_principal ctx = Some p → has p AccessAdmin = true → (require_admin ctx ≫= f) n = f tt n.
Proof. intros Hp Ha. unfold require_admin, mbind, M_bind. by rewrite Hp, Ha. Qed.

Lemma denied_bind {A B} (m : NodeM A) (f : A → NodeM B) n :
  (∃ e, m n = (Err e, n)) → ∃ e, (m ≫= f) n = (Err e, n).
Proof. intros [e He]. exists e. unfold mbind, M_bind. by rewrite He. Qed.

(** C39. The administration of users and devices is closed without the gate too:
    a request of it refused by the gate is also refused by its handler, which
    leaves users, roles, sessions, live connections and pairing as they were; so
    no transport can reach it by leaving the gate out. *)
Theorem admin_gate ctx op n e :
  authorize ctx (access_request op) = Err e → ∃ e', run_access ctx op n = (Err e', n).
Proof.
  intros Hgate. destruct op; simpl in Hgate |- *;
    repeat first [apply require_admin_denied | apply denied_bind];
    try (intros p Hp; destruct ctx as [c|]; [|done]; injection Hp as <-;
      unfold authorize in Hgate; simpl in Hgate; by destruct (has (rc_principal c) AccessAdmin)).
  destruct ctx; [done|]. by eexists.
Qed.

(** ** The standing of a user *)

Definition role_rows (s : AuthStore) (id : string) : list (string * string) :=
  List.filter (λ row, bool_decide (row.1 = id)) (st_roles s).

Section standing.
Variables (id name : string) (rows : list (string * string)).

(** The user is enabled and has these roles. *)
Record standing (s : AuthStore) : Prop := {
  sg_user : ∃ u, user_by_id s id = Some u ∧ ur_disabled u = false ∧ ur_username u = name;
  sg_rows : role_rows s id = rows
}.

Lemma standing_principal s : standing s → principal_of s id name = from_roles id name (omap from_wire (row_order (snd <$> rows))).
Proof. intros [_ Hr]. unfold principal_of. by rewrite <- Hr. Qed.

Lemma standing_same {A} (m : AuthM A) :
  (∀ s, st_users (m s).2 = st_users s ∧ st_roles (m s).2 = st_roles s) → keeps standing m.
Proof.
  intros Hm s [H1 H2]. destruct (Hm s) as [Hu Hr].
  constructor; unfold user_by_id, role_rows in *; [by rewrite Hu|by rewrite Hr].
Qed.

Lemma find_snoc l u w :
  List.find (λ v : UserRecord, bool_decide (ur_id v = id)) l = Some w →
  List.find (λ v, bool_decide (ur_id v = id)) (l ++ [u]) = Some w.
Proof. induction l as [|v l IH]; simpl; [done|]. case_bool_decide; auto. Qed.

Lemma standing_insert_user u : keeps standing (insert_user u).
Proof.
  intros s [(w & H1 & H2 & H3) Hr]. unfold insert_user. case_bool_decide; [by constructor; eauto|].
  case_bool_decide; [by constructor; eauto|]. constructor; [|done]. exists w. split; [|done]. by apply find_snoc.
Qed.

Lemma standing_update id' d : (d = true → id' ≠ id) → keeps standing (update_disabled id' d).
Proof.
  intros Hd s [(w & H1 & H2 & H3) Hr]. constructor; [|done]. unfold user_by_id in *. simpl.
  induction (st_users s) as [|v l IH]; simpl in *; [done|].
  destruct (decide (ur_id v = id')) as [E|E]; simpl; case_bool_decide; auto; simplify_eq.
  - destruct d; [naive_solver|]. eauto.
  - eauto.
Qed.

Lemma role_rows_other s id' r : id' ≠ id → role_rows (s <| st_roles := st_roles s ++ [(id', r)] |>) id = role_rows s id.
Proof.
  intros Hne. unfold role_rows. simpl. rewrite List.filter_app. simpl. rewrite bool_decide_eq_false_2 by done. apply app_nil_r.
Qed.

Lemma standing_insert_role id' r : id' ≠ id → keeps standing (insert_role id' r).
Proof.
  intros Hne s Hs. unfold insert_role. unfold mbind at 1, M_bind at 1, get. case_bool_decide; [done|].
  unfold mbind, M_bind, references_user. destruct (user_by_id s id'); [|done]. destruct Hs as [H1 H2].
  constructor; [done|]. rewrite <- H2. by apply role_rows_other.
Qed.

Lemma standing_delete_roles id' : id' ≠ id → keeps standing (delete_roles id').
Proof.
  intros Hne s [H1 H2]. constructor; [done|]. rewrite <- H2. unfold role_rows, delete_roles, modify. simpl.
  induction (st_roles s) as [|row l IH]; simpl; [done|].
  destruct (decide (row.1 = id')) as [E|E].
  - rewrite !(bool_decide_eq_true_2 (row.1 = id')), (bool_decide_eq_false_2 (row.1 = id)) by congruence. exact IH.
  - rewrite (bool_decide_eq_false_2 (row.1 = id')) by done. simpl. case_bool_decide; [by f_equal|exact IH].
Qed.

Lemma standing_referencing id' (f : AuthStore → AuthStore) :
  (∀ s, st_users (f s) = st_users s ∧ st_roles (f s) = st_roles s) → keeps standing (_ ← references_user id'; modify f).
Proof. intros Hf. apply keeps_bind; [apply keeps_references|intros _]. by apply standing_same. Qed.

Lemma standing_insert_password id' pc : keeps standing (insert_password id' pc).
Proof.
  unfold insert_password. apply keeps_bind; [apply keeps_get|intros s0].
  destruct (st_passwords s0 !! id'); [apply keeps_throw|]. by apply standing_referencing.
Qed.

Lemma standing_upsert_password id' pc : keeps standing (upsert_password id' pc).
Proof. by apply standing_referencing. Qed.

Lemma standing_upsert_scram id' p r : keeps standing (upsert_scram id' p r).
Proof. unfold upsert_scram. destruct (derive_scram_material p r); [|apply keeps_throw]. by apply standing_referencing. Qed.

Lemma standing_upsert_external f id' now d : keeps standing (upsert_external f id' now d).
Proof. by apply standing_referencing. Qed.

Lemma standing_delete_sessions id' : keeps standing (delete_sessions_of id').
Proof. by apply standing_same. Qed.

Lemma standing_delete_session h : keeps standing (delete_session h).
Proof. by apply standing_same. Qed.

Lemma standing_remove_external f : keeps standing (remove_external_identity f).
Proof. by apply standing_same. Qed.

Lemma standing_touch f now : keeps standing (touch_external_identity f now).
Proof. by apply standing_same. Qed.

Lemma standing_enable id' : keeps standing (update_disabled id' false).
Proof. by apply standing_update. Qed.

#[local] Hint Resolve standing_insert_user standing_insert_password standing_upsert_password standing_upsert_scram
  standing_upsert_external standing_delete_sessions standing_delete_session standing_remove_external standing_touch
  standing_enable : auth.

(** The row of a new user is not that of a user with a standing. *)
Lemma standing_new_user {A} u (f : unit → AuthM A) :
  (ur_id u ≠ id → ∀ a, keeps standing (f a)) → keeps standing (insert_user u ≫= f).
Proof.
  intros Hf s Hs. pose proof (standing_insert_user u s Hs) as Hu. unfold mbind, M_bind.
  destruct (decide (ur_id u = id)) as [E|E].
  - unfold insert_user in *. destruct Hs as [(w & H1 & ?) ?]. rewrite E. rewrite bool_decide_eq_true_2 by eauto.
    by constructor; eauto.
  - destruct (insert_user u s) as [[[]|e] s']; [|done]. by apply Hf.
Qed.

Lemma standing_create_user u p r i ps ss now : keeps standing (create_user u p r i ps ss now).
Proof.
  unfold create_user. destruct (is_reserved_username u); [apply keeps_throw|].
  apply keeps_bind; [apply keeps_random|intros mid]. destruct (is_reserved_username mid); [apply keeps_throw|].
  apply standing_new_user. intros Hne _. pose proof (λ r, standing_insert_role mid r Hne). keeps_steps.
Qed.

Lemma standing_enroll u f d i now : keeps standing (enroll_paired_device u f d i now).
Proof.
  unfold enroll_paired_device. destruct (is_reserved_username u); [apply keeps_throw|].
  apply keeps_bind; [apply keeps_random|intros mid]. destruct (is_reserved_username mid); [apply keeps_throw|].
  apply keeps_transaction. apply keeps_bind; [apply keeps_gets|intros [v|]].
  - apply keeps_bind; [keeps_steps|]. intros [uid at_]. keeps_steps.
  - apply keeps_bind; [|intros [uid at_]; keeps_steps]. apply standing_new_user. intros Hne _. simpl in Hne.
    apply keeps_bind; [by apply standing_insert_role|]. keeps_steps.
Qed.

Lemma standing_mint id' ttl m b now : keeps standing (mint_session id' ttl m b now).
Proof. unfold mint_session. keeps_steps. by apply standing_same. Qed.
End standing.

(** ** Handlers and the standing of a user *)

Lemma epoch_cell id' n id : epoch (cell id' n) id = epoch n id.
Proof.
  unfold epoch, cell. destruct (nd_epochs n !! id') eqn:E; [done|]. simpl.
  destruct (decide (id' = id)) as [->|Hne]; [by rewrite lookup_insert_eq, E|by rewrite lookup_insert_ne].
Qed.

Lemma epoch_revoke id' n id :
  epoch (revoke id' n) id = if decide (id' = id) then epoch n id +₆₄ 1 else epoch n id.
Proof.
  unfold revoke. case_decide as E.
  - subst. unfold epoch at 1. simpl. rewrite lookup_insert_eq. simpl. by rewrite epoch_cell.
  - unfold epoch at 1. simpl. rewrite lookup_insert_ne by done. apply epoch_cell.
Qed.

Section live.
Variables (id name : string) (rows : list (string * string)).

Definition stands (n : Node) : Prop := standing id name rows (nd_store n).

(** The code neither touches the user nor its live connections. *)
Definition quiet {A} (m : NodeM A) : Prop := ∀ n, epoch (m n).2 id = epoch n id ∧ (stands n → stands (m n).2).

(** The code cuts the user's live connections whenever it touches the user. *)
Definition careful {A} (m : NodeM A) : Prop := ∀ n,
  epoch (m n).2 id = epoch n id +₆₄ 1 ∨ (epoch (m n).2 id = epoch n id ∧ (stands n → stands (m n).2)).

Lemma quiet_careful {A} (m : NodeM A) : quiet m → careful m.
Proof. intros Hm n. right. by apply Hm. Qed.

Lemma quiet_bind {A B} (m : NodeM A) (f : A → NodeM B) : quiet m → (∀ a, quiet (f a)) → quiet (m ≫= f).
Proof.
  intros Hm Hf n. destruct (Hm n) as [H1 H2]. unfold mbind, M_bind. destruct (m n) as [[a|e] n']; [|done].
  destruct (Hf a n') as [H3 H4]. simpl in *. split; [congruence|auto].
Qed.

Lemma careful_bind {A B} (m : NodeM A) (f : A → NodeM B) : quiet m → (∀ a, careful (f a)) → careful (m ≫= f).
Proof.
  intros Hm Hf n. destruct (Hm n) as [H1 H2]. unfold mbind, M_bind.
  destruct (m n) as [[a|e] n']; simpl in *; [|by right].
  destruct (Hf a n') as [H3|[H3 H4]]; simpl in *; [left; by rewrite H3, H1|right]. split; [congruence|auto].
Qed.

Lemma quiet_pure {A} (r : result ApiError A) : quiet (λ n, (r, n)).
Proof. by intros n. Qed.

Lemma quiet_ret {A} (a : A) : quiet (mret a).
Proof. apply quiet_pure. Qed.

Lemma quiet_throw {A} e : quiet (throw (A := A) e).
Proof. apply quiet_pure. Qed.

Lemma quiet_ok_or {A} (o : option A) e : quiet (ok_or o e).
Proof. destruct o; apply quiet_pure. Qed.

Lemma quiet_store {A} (m : AuthM A) : keeps (standing id name rows) m → quiet (on_store m).
Proof.
  intros Hm n. unfold on_store. specialize (Hm (nd_store n)). by destruct (m (nd_store n)) as [[a|e] s].
Qed.

Lemma quiet_gets {A} (f : AuthStore → A) : quiet (on_store (gets f)).
Proof. apply quiet_store, keeps_gets. Qed.

Lemma quiet_pairing (f : PairingManager → PairingManager) : quiet (modify (λ n, n <| nd_pairing := f (nd_pairing n) |>)).
Proof. by intros n. Qed.

Lemma quiet_require_admin ctx : quiet (require_admin ctx).
Proof. unfold require_admin. destruct (current_principal ctx) as [p|]; [destruct (has p AccessAdmin)|]; apply quiet_pure. Qed.

Lemma quiet_parse_roles roles : quiet (parse_roles roles).
Proof.
  induction roles as [|r roles IH]; simpl; [apply quiet_ret|]. destruct (from_wire r); [|apply quiet_throw].
  apply quiet_bind; [exact IH|intros rest; apply quiet_ret].
Qed.

Lemma quiet_access_user rec : quiet (access_user rec).
Proof. apply quiet_bind; [apply quiet_gets|intros roles; apply quiet_ret]. Qed.

Lemma quiet_access_users recs : quiet (access_users recs).
Proof.
  induction recs as [|rec recs IH]; simpl; [apply quiet_ret|].
  apply quiet_bind; [apply quiet_access_user|intros u]. apply quiet_bind; [exact IH|intros us; apply quiet_ret].
Qed.

(** A change of the store followed by the cut. *)
Lemma careful_cut (m : AuthM unit) id' :
  (∀ s, standing id name rows s → (∃ e, (m s).1 = Err e) → standing id name rows (m s).2) →
  (id' ≠ id → keeps (standing id name rows) m) → careful (_ ← on_store m; revoke_principal id').
Proof.
  intros Herr Hne n. specialize (Herr (nd_store n)). unfold on_store, mbind, M_bind, revoke_principal, modify.
  destruct (m (nd_store n)) as [[[]|e] s] eqn:E; simpl in *.
  - rewrite epoch_revoke. case_decide as Ei; [by left|right]. split; [done|]. intros Hn.
    specialize (Hne Ei _ Hn). rewrite E in Hne. unfold stands, revoke, cell. simpl.
    by destruct (nd_epochs n !! id').
  - right. split; [done|]. intros Hn. apply Herr; [done|]. by eexists.
Qed.

Lemma transaction_error {A} (P : AuthStore → Prop) (m : AuthM A) s :
  P s → (∃ e, (transaction m s).1 = Err e) → P (transaction m s).2.
Proof. intros Hs [e He]. unfold transaction in *. by destruct (m s) as [[a|e'] s']. Qed.

#[local] Hint Resolve standing_insert_user standing_insert_password standing_upsert_password standing_upsert_scram
  standing_upsert_external standing_delete_sessions standing_delete_session standing_remove_external standing_touch
  standing_enable : auth.

Lemma careful_disable id' : careful (_ ← on_store (set_disabled_guarded id' true); revoke_principal id').
Proof.
  apply careful_cut; [intros s Hs; by apply transaction_error|]. intros Hne.
  assert (keeps (standing id name rows) (update_disabled id' true)) by (by apply standing_update). keeps_ops.
Qed.

Lemma careful_set_roles id' roles : careful (_ ← on_store (set_roles_guarded id' roles); revoke_principal id').
Proof.
  apply careful_cut; [intros s Hs; by apply transaction_error|]. intros Hne.
  pose proof (λ r, standing_insert_role id name rows id' r Hne). pose proof (standing_delete_roles id name rows id' Hne). keeps_ops.
Qed.

Lemma careful_device_disable id' : careful (_ ← on_store (set_disabled id' true); revoke_principal id').
Proof.
  apply careful_cut.
  - intros s [(u & Hu & Hen & Hnm) Hr] [e He]. destruct (decide (id' = id)) as [->|Hne].
    + exfalso. revert He. unfold set_disabled, mbind, M_bind, update_disabled. simpl.
      unfold user_by_id in Hu. apply find_some in Hu as [Hin Hid].
      destruct (List.filter (λ u, bool_decide (ur_id u = id)) (st_users s)) as [|v l] eqn:E; [|done].
      assert (In u (List.filter (λ u, bool_decide (ur_id u = id)) (st_users s))) as Hf by (by apply filter_In).
      by rewrite E in Hf.
    + assert (keeps (standing id name rows) (update_disabled id' true)) by (by apply standing_update).
      apply (keeps_after (standing id name rows)); [keeps_ops|]. by constructor; eauto.
  - intros Hne. assert (keeps (standing id name rows) (update_disabled id' true)) by (by apply standing_update). keeps_ops.
Qed.

Lemma careful_revoke id' : careful (revoke_principal id').
Proof.
  intros n. unfold revoke_principal, modify. simpl. rewrite epoch_revoke. case_decide; [by left|right].
  split; [done|]. intros Hn. unfold stands, revoke, cell. simpl. by destruct (nd_epochs n !! id').
Qed.

Lemma careful_set_password ctx id' p ps ss now : careful (user_set_password ctx id' p ps ss now).
Proof.
  apply careful_bind; [apply quiet_require_admin|intros _].
  apply careful_bind; [apply quiet_store; keeps_ops|intros _].
  apply careful_bind; [apply quiet_store; keeps_ops|intros _]. apply careful_revoke.
Qed.

Lemma quiet_pairing_status ctx now : quiet (pairing_status ctx now).
Proof.
  apply quiet_bind; [apply quiet_require_admin|intros _]. apply quiet_bind; [by intros n|intros n].
  destruct (status now (nd_pairing n)) as [view m]. apply quiet_bind; [by intros n'|intros _; apply quiet_ret].
Qed.

Lemma quiet_pairing_begin ctx now w r : quiet (pairing_begin ctx now w r).
Proof.
  apply quiet_bind; [apply quiet_require_admin|intros _]. apply quiet_bind; [by intros n|intros n].
  destruct (arm now w r (nd_pairing n)) as [[armed|] m]; [|apply quiet_throw].
  apply quiet_bind; [by intros n'|intros _; apply quiet_ret].
Qed.

Lemma careful_device_revoke ctx fp : careful (paired_device_revoke ctx fp).
Proof.
  apply careful_bind; [apply quiet_require_admin|intros _]. apply careful_bind; [apply quiet_gets|intros l].
  apply careful_bind; [apply quiet_ok_or|intros row].
  apply careful_bind; [apply quiet_store, standing_remove_external|intros _]. apply careful_device_disable.
Qed.

Lemma careful_access ctx op : careful (run_access ctx op).
Proof.
  destruct op as [u p rs ib ps ss now| |id' d|id' rs|id' p ps ss now| | |id'|now w r| |now| |fp]; cbn [run_access];
    try (apply quiet_careful, quiet_bind; [|intros ?; apply quiet_ret]).
  - apply quiet_bind; [apply quiet_require_admin|intros _]. apply quiet_bind; [apply quiet_parse_roles|intros roles].
    apply quiet_bind; [apply quiet_store, standing_create_user|intros rec; apply quiet_access_user].
  - apply quiet_bind; [apply quiet_require_admin|intros _]. apply quiet_bind; [apply quiet_gets|apply quiet_access_users].
  - apply careful_bind; [apply quiet_require_admin|intros _]. destruct d; [apply careful_disable|].
    apply quiet_careful, quiet_bind; [apply quiet_store; keeps_ops|intros _; apply quiet_ret].
  - apply careful_bind; [apply quiet_require_admin|intros _]. apply careful_bind; [apply quiet_parse_roles|intros parsed].
    apply careful_set_roles.
  - apply careful_set_password.
  - apply quiet_bind; [apply quiet_require_admin|intros _; apply quiet_ret].
  - unfold who_am_i. destruct (current_principal ctx); apply quiet_pure.
  - apply careful_bind; [apply quiet_require_admin|intros _].
    apply careful_bind; [apply quiet_store, standing_delete_sessions|intros _]. apply careful_revoke.
  - apply quiet_pairing_begin.
  - apply quiet_careful, quiet_bind; [apply quiet_require_admin|intros _; apply quiet_pairing].
  - apply quiet_pairing_status.
  - apply quiet_bind; [apply quiet_require_admin|intros _]. apply quiet_bind; [apply quiet_gets|intros l; apply quiet_ret].
  - apply careful_device_revoke.
Qed.
End live.

(** ** Properties of the store kept by the handlers *)

Section node_keeps.
Variable P : AuthStore → Prop.

Definition node_keeps {A} (m : NodeM A) : Prop := ∀ n, P (nd_store n) → P (nd_store (m n).2).

Lemma node_keeps_bind {A B} (m : NodeM A) (f : A → NodeM B) : node_keeps m → (∀ a, node_keeps (f a)) → node_keeps (m ≫= f).
Proof.
  intros Hm Hf n Hn. specialize (Hm n Hn). unfold mbind, M_bind. destruct (m n) as [[a|e] n']; [|done]. by apply Hf.
Qed.

Lemma node_keeps_same {A} (m : NodeM A) : (∀ n, nd_store (m n).2 = nd_store n) → node_keeps m.
Proof. intros Hm n Hn. by rewrite Hm. Qed.

Lemma node_keeps_store {A} (m : AuthM A) : keeps P m → node_keeps (on_store m).
Proof. intros Hm n Hn. specialize (Hm _ Hn). unfold on_store. by destruct (m (nd_store n)) as [[a|e] s]. Qed.

Lemma same_require_admin ctx n : nd_store (require_admin ctx n).2 = nd_store n.
Proof. unfold require_admin. destruct (current_principal ctx) as [p|]; [destruct (has p AccessAdmin)|]; done. Qed.

Lemma same_parse_roles roles n : (parse_roles roles n).2 = n.
Proof.
  induction roles as [|r roles IH]; simpl; [done|]. destruct (from_wire r); [|done]. unfold mbind, M_bind.
  destruct (parse_roles roles n) as [[rest|e] n']; done.
Qed.

Lemma node_keeps_access_user rec : node_keeps (access_user rec).
Proof. apply node_keeps_bind; [apply node_keeps_store, keeps_gets|intros roles]. by apply node_keeps_same. Qed.

Lemma node_keeps_access_users recs : node_keeps (access_users recs).
Proof.
  induction recs as [|rec recs IH]; simpl; [by apply node_keeps_same|].
  apply node_keeps_bind; [apply node_keeps_access_user|intros u]. apply node_keeps_bind; [exact IH|intros us].
  by apply node_keeps_same.
Qed.

Lemma node_keeps_cut id : node_keeps (revoke_principal id).
Proof. apply node_keeps_same. intros n. unfold revoke_principal, modify, revoke, cell. simpl. by destruct (nd_epochs n !! id). Qed.

Lemma node_keeps_admin {A} ctx (f : unit → NodeM A) : (∀ a, node_keeps (f a)) → node_keeps (require_admin ctx ≫= f).
Proof. intros Hf. apply node_keeps_bind; [|exact Hf]. apply node_keeps_same, same_require_admin. Qed.

Lemma node_keeps_parsed {A} roles (f : list Role → NodeM A) : (∀ a, node_keeps (f a)) → node_keeps (parse_roles roles ≫= f).
Proof. intros Hf. apply node_keeps_bind; [|exact Hf]. apply node_keeps_same. intros n. by rewrite same_parse_roles. Qed.

(** A property every guarded operation of the store keeps is kept by every handler
    that only makes those; the revocation of a device makes an unguarded one. *)
Lemma node_keeps_access ctx op :
  (∀ o s, guards_admin o = true ∨ (∃ fp, op = APairedDeviceRevoke fp) → P s → P (run_op o s)) →
  node_keeps (run_access ctx op).
Proof.
  intros Hop. assert (∀ {A} o (m : AuthM A), guards_admin o = true ∨ (∃ fp, op = APairedDeviceRevoke fp) →
    (∀ s, (m s).2 = run_op o s) → node_keeps (on_store m)) as Hstore.
  { intros A o m Ho Hm. apply node_keeps_store. intros s Hs. rewrite Hm. by apply Hop. } clear Hop.
  destruct op as [u p rs ib ps ss now| |id' d|id' rs|id' p ps ss now| | |id'|now w r| |now| |fp]; cbn [run_access];
    try (apply node_keeps_bind; [|by intros ?; apply node_keeps_same]).
  - apply node_keeps_admin. intros _. apply node_keeps_parsed. intros roles.
    apply node_keeps_bind; [|apply node_keeps_access_user].
    apply (Hstore _ (OpCreateUser u p roles ib ps ss now)); [by left|done].
  - apply node_keeps_admin. intros _. apply node_keeps_bind; [apply node_keeps_store, keeps_gets|apply node_keeps_access_users].
  - apply node_keeps_admin. intros _. apply node_keeps_bind.
    + apply (Hstore _ (OpSetDisabledGuarded id' d)); [by left|done].
    + intros _. destruct d; [apply node_keeps_cut|by apply node_keeps_same].
  - apply node_keeps_admin. intros _. apply node_keeps_parsed. intros roles. apply node_keeps_bind; [|intros _; apply node_keeps_cut].
    apply (Hstore _ (OpSetRolesGuarded id' roles)); [by left|done].
  - apply node_keeps_admin. intros _. apply node_keeps_bind; [apply (Hstore _ (OpSetPassword id' p ps ss now)); [by left|done]|intros _].
    apply node_keeps_bind; [apply (Hstore _ (OpRevokeUser id')); [by left|done]|intros _]. apply node_keeps_cut.
  - apply node_keeps_admin. intros _. by apply node_keeps_same.
  - apply node_keeps_same. intros n. unfold who_am_i. by destruct (current_principal ctx).
  - apply node_keeps_admin. intros _.
    apply node_keeps_bind; [apply (Hstore _ (OpRevokeUser id')); [by left|done]|intros _]. apply node_keeps_cut.
  - apply node_keeps_admin. intros _. apply node_keeps_same. intros n. unfold mbind, M_bind, get.
    by destruct (arm now w r (nd_pairing n)) as [[armed|] m].
  - apply node_keeps_same, same_require_admin.
  - apply node_keeps_admin. intros _. apply node_keeps_same. intros n. unfold mbind, M_bind, get.
    by destruct (status now (nd_pairing n)) as [view m].
  - apply node_keeps_admin. intros _. apply node_keeps_bind; [apply node_keeps_store, keeps_gets|]. intros l.
    by apply node_keeps_same.
  - apply node_keeps_admin. intros _. apply node_keeps_bind; [apply node_keeps_store, keeps_gets|intros l].
    apply node_keeps_bind; [apply node_keeps_same; by destruct (List.find _ l)|intros row].
    apply node_keeps_bind; [apply (Hstore _ (OpRemoveExternal fp)); [by left|done]|intros _].
    apply node_keeps_bind; [|intros _; apply node_keeps_cut].
    apply (Hstore _ (OpSetDisabled (er_user_id row) true)); [right; eauto|done].
Qed.
End node_keeps.
End access.

Lemma admin_gate_witness :
  let ctx := Some (context_authenticated (@from_roles "02" "bob" [Operator])) in
  let n := mkNode (HP := toy_pake) (toy_store) ∅ (@PairingManager_new toy_pake) in
  ∃ e, run_access (HC := toy_auth_crypto) (HR := toy_row_order) (λ _, "") ctx (AUserSetRoles "02" ["admin"]) n = (Err e, n).
Proof. by eapply admin_gate. Defined.
