(* ===== verification/Authn.v ===== *)
(** * Logging in, and the connections of the socket

    [daemon-host/src/authn.rs]: from a mechanism's outcome to a principal and a
    session token.  [socket.rs]: what a connection may do as it authenticates.
    [rsasl] is a parameter: a step of a mechanism asks for SCRAM material, may ask
    to validate, and runs on, finishes or fails.  The randomness and the clocks a
    call reads are its arguments. *)

From S2P Require Import Prelude Text Auth AuthFacts Authz Pairing Access.
From Stdlib Require Import ZArith Strings.Byte.
#[local] Open Scope daemon_scope.

Definition MECH_PLAIN : string := "PLAIN".
Definition MECH_EXTERNAL : string := "EXTERNAL".

Record TlsState := mkTlsState { tls_is_tls : bool; tls_peer_cert_fingerprint : option string }.

Definition plaintext : TlsState := mkTlsState false None.

Record ValidatedIdentity := mkValidatedIdentity { vi_user_id : string; vi_username : string }.

Inductive SaslState (S : Type) :=
| Running (out : bytes) (session : S)
| SaslFinished (out : bytes)
| SaslError.
Arguments Running {S}.
Arguments SaslFinished {S}.
Arguments SaslError {S}.

(** A step: what the context held when the mechanism asked to validate ([AuthId],
    [Password]), and the state it returned.  A mechanism validates in its last
    step. *)
Class Rsasl := {
  SaslSession : Type;
  start_suggested : string → option SaslSession;
  sasl_step : (string → ScramMaterial) → SaslSession → bytes → option (option string * option bytes) * SaslState SaslSession;
  validates_last : ∀ f s b v out s', sasl_step f s b = (v, Running out s') → v = None
}.

(** What a call reads: Unix seconds, the monotonic clock and random bytes. *)
Record Env := mkEnv {
  ev_now : Z; ev_mono : N; ev_token_bytes : Random; ev_id_bytes : Random; ev_scalar : Random
}.

Section authn.
Context {HC : AuthCrypto} {HR : RowOrder} {HP : Pake} {HS : Rsasl}.
Context (sqlite_message : SqlConstraint → string).

Record AuthSuccess := mkAuthSuccess { ax_principal : Principal; ax_token : string; ax_view : PrincipalView }.

(** [server_fp] is that of the pairing hook, when one is attached. *)
Record Authenticator := mkAuthenticator { at_decoy_secret : bytes; at_server_fp : option string }.

Inductive AuthExchange :=
| Sasl (session : SaslSession) (captured : option ValidatedIdentity) (method : string)
| PairingExchange (pending : option PendingPairing).

Inductive BeginOutcome :=
| Challenge (data : bytes) (exchange : AuthExchange)
| Success (final_data : option bytes) (success : AuthSuccess)
| Refused (reason : string).

Definition failed : BeginOutcome := Refused "authentication failed".
Definition unsupported_mechanism : BeginOutcome := Refused "unsupported mechanism".

Variables (auth : Authenticator) (tls : TlsState).

Definition advertised_mechanisms (mono : N) (n : Node) : list string * Node :=
  if tls_is_tls tls then
    match at_server_fp auth, tls_peer_cert_fingerprint tls with
    | Some _, Some _ =>
        let '(armed, m) := is_armed mono (nd_pairing n) in
        ([SCRAM_SHA_256; MECH_EXTERNAL; MECH_PLAIN] ++ (if armed : bool then [MECH_PAIRING] else []),
         mkNode (nd_store n) (nd_epochs n) m)
    | _, _ => ([SCRAM_SHA_256; MECH_EXTERNAL; MECH_PLAIN], n)
    end
  else ([SCRAM_SHA_256], n).

(** ** The callback *)

Definition decoy_mac (tag username : string) : bytes :=
  hmac_sha256 (at_decoy_secret auth) (string_bytes tag ++ [Byte.x00] ++ string_bytes username).

Definition decoy_material (username : string) : ScramMaterial :=
  mkScramMaterial (take 16 (decoy_mac "salt" username)) SCRAM_DEFAULT_ITERATIONS
    (decoy_mac "stored" username) (decoy_mac "server" username).

Definition scram_material_for (s : AuthStore) (username : string) : ScramMaterial :=
  match user_by_name s username with
  | Some u =>
      if ur_disabled u then decoy_material username
      else default (decoy_material username) (st_scram s !! (ur_id u, SCRAM_SHA_256))
  | None => decoy_material username
  end.

(** [str::from_utf8]. *)
Definition from_utf8 (b : bytes) : option string :=
  if bool_decide (from_utf8_lossy b = b) then Some (String.string_of_list_byte b) else None.

Definition validate_scram (s : AuthStore) (authid : option string) : option ValidatedIdentity :=
  username ← authid;
  u ← user_by_name s username;
  if ur_disabled u then None else Some (mkValidatedIdentity (ur_id u) (ur_username u)).

Definition validate_plain (s : AuthStore) (authid : option string) (password : option bytes) : option ValidatedIdentity :=
  if tls_is_tls tls then
    id ← authid;
    raw ← password;
    pw ← from_utf8 raw;
    match (authenticate_password id pw s).1 with
    | Ok p => Some (mkValidatedIdentity (p_user_id p) (p_username p))
    | Err _ => None
    end
  else None.

Definition validate_external (now : Z) (s : AuthStore) : option ValidatedIdentity * AuthStore :=
  match tls_peer_cert_fingerprint tls with
  | None => (None, s)
  | Some fingerprint =>
      match external_identity fingerprint s with
      | (Ok (Some (id, name)), _) =>
          (Some (mkValidatedIdentity id name), (touch_external_identity fingerprint now s).2)
      | _ => (None, s)
      end
  end.

(** [validate]: what is captured before stays when the credential is bad. *)
Definition validate (mechanism : string) (now : Z) (ctx : option string * option bytes)
    (captured : option ValidatedIdentity) (s : AuthStore) : option ValidatedIdentity * AuthStore :=
  let keep (v : option ValidatedIdentity) := match v with Some id => Some id | None => captured end in
  if bool_decide (mechanism = MECH_PLAIN) then (keep (validate_plain s ctx.1 ctx.2), s)
  else if bool_decide (mechanism = MECH_EXTERNAL) then let '(v, s') := validate_external now s in (keep v, s')
  else if bool_decide (mechanism = SCRAM_SHA_256) then (keep (validate_scram s ctx.1), s)
  else (captured, s).

(** ** Exchanges *)

Definition with_store (n : Node) (s : AuthStore) : Node := mkNode s (nd_epochs n) (nd_pairing n).

(** The principal and the session token of an identity. *)
Definition grant (id name method : string) (env : Env) : AuthM AuthSuccess :=
  principal ← principal_for_user id name;
  token ← mint_session id DEFAULT_SESSION_TTL_SECS method (ev_token_bytes env) (ev_now env);
  mret (mkAuthSuccess principal token (principal_view principal)).

Definition finish (id : ValidatedIdentity) (method : string) (final_data : bytes) (env : Env) (n : Node) : BeginOutcome * Node :=
  let '(r, s) := grant (vi_user_id id) (vi_username id) method env (nd_store n) in
  (match r with
   | Err _ => failed
   | Ok success => Success (match final_data with [] => None | _ => Some final_data end) success
   end, with_store n s).

Definition drive (session : SaslSession) (captured : option ValidatedIdentity) (method : string) (input : bytes)
    (env : Env) (n : Node) : BeginOutcome * Node :=
  let '(asked, state) := sasl_step (scram_material_for (nd_store n)) session input in
  let '(captured', s) :=
    match asked with
    | Some ctx => validate method (ev_now env) ctx captured (nd_store n)
    | None => (captured, nd_store n)
    end in
  let n' := with_store n s in
  match state with
  | Running out session' => (Challenge out (Sasl session' captured' method), n')
  | SaslFinished out =>
      match captured' with
      | Some id => finish id method out env n'
      | None => (failed, n')
      end
  | SaslError => (failed, n')
  end.

Definition with_pairing (n : Node) (m : PairingManager) : Node := mkNode (nd_store n) (nd_epochs n) m.

Definition begin_pairing (initial : bytes) (env : Env) (n : Node) : BeginOutcome * Node :=
  match at_server_fp auth with
  | None => (unsupported_mechanism, n)
  | Some server_fp =>
      if negb (tls_is_tls tls) then (Refused (refusal_reason NotArmed), n)
      else
        match tls_peer_cert_fingerprint tls with
        | None => (Refused (refusal_reason NoClientCert), n)
        | Some client_fp =>
            match begin_exchange (ev_mono env) (string_bytes server_fp) (string_bytes client_fp) initial
                    (ev_scalar env) (nd_pairing n) with
            | (Ok (challenge, pending), m) => (Challenge challenge (PairingExchange (Some pending)), with_pairing n m)
            | (Err refusal, m) => (Refused (refusal_reason refusal), with_pairing n m)
            end
        end
  end.

Definition begin (mechanism : string) (initial : bytes) (env : Env) (n : Node) : BeginOutcome * Node :=
  if bool_decide (mechanism = MECH_PAIRING) then begin_pairing initial env n
  else
    let '(mechs, n') := advertised_mechanisms (ev_mono env) n in
    if bool_decide (mechanism ∈ mechs) then
      match start_suggested mechanism with
      | None => (unsupported_mechanism, n')
      | Some session => drive session None mechanism initial env n'
      end
    else (unsupported_mechanism, n').

Definition resume (token : string) (env : Env) (n : Node) : BeginOutcome * Node :=
  let '(r, s) := principal_for_token token (ev_now env) (nd_store n) in
  (match r with
   | Ok principal => Success None (mkAuthSuccess principal token (principal_view principal))
   | Err _ => Refused "session invalid"
   end, with_store n s).

(** The name of a paired device: the slice is within the hexadecimal fingerprint. *)
Definition device_username (client_fp : bytes) : string := String.append "device-" (String.string_of_list_byte (take 12 client_fp)).

Definition step_pairing (pending : option PendingPairing) (data : bytes) (env : Env) (n : Node) : BeginOutcome * Node :=
  match pending with
  | None => (Refused (refusal_reason Failed), n)
  | Some p =>
      match complete p data (nd_pairing n) with
      | (Err refusal, m) => (Refused (refusal_reason refusal), with_pairing n m)
      | (Ok (client_fp, display_name), m) =>
          let n' := with_pairing n m in
          match enroll_paired_device (device_username client_fp) (String.string_of_list_byte client_fp)
                  (Some (String.string_of_list_byte display_name)) (ev_id_bytes env) (ev_now env) (nd_store n') with
          | (Err _, s) => (Refused (refusal_reason Failed), with_store n' s)
          | (Ok user, s) =>
              let '(r, s') := grant (ur_id user) (ur_username user) "pairing" env s in
              (match r with Ok success => Success None success | Err _ => failed end, with_store n' s')
          end
      end
  end.

(** [AuthExchange::step]; the exchange it leaves is in its challenge, and a pairing
    exchange leaves none. *)
Definition step (exchange : AuthExchange) (data : bytes) (env : Env) (n : Node) : BeginOutcome * Node :=
  match exchange with
  | Sasl session captured method => drive session captured method data env n
  | PairingExchange pending => step_pairing pending data env n
  end.

(** ** Connections *)

(** [Completing] is an authenticated connection before [capture_guard]: between
    the two the code awaits the socket and the audit journal. *)
Inductive ConnAuth :=
| Unauthenticated
| InProgress (exchange : AuthExchange) (method : AuthMethod)
| Completing (principal : Principal) (method : AuthMethod)
| AuthenticatedAs (principal : Principal) (method : AuthMethod) (guard : option RevocationGuard).

(** Whether a transport requires authentication, and whether its authenticator then carries
    a registry of revocations. *)
Inductive AuthMode := LocalSystem | Required (revocations : bool).

Definition auth_method_for (mechanism : string) : AuthMethod :=
  if bool_decide (mechanism = SCRAM_SHA_256) then Scram
  else if bool_decide (mechanism = MECH_PLAIN) then Plain
  else if bool_decide (mechanism = MECH_EXTERNAL) then External
  else if bool_decide (mechanism = MECH_PAIRING) then PairingMethod
  else Scram.

(** An exchange that is replaced is dropped. *)
Definition drop_conn (conn : ConnAuth) (n : Node) : Node :=
  match conn with
  | InProgress (PairingExchange (Some p)) _ => with_pairing n (drop_pending p (nd_pairing n))
  | _ => n
  end.

Inductive AuthReply :=
| AuthChallenge (data : bytes)
| AuthOk (final_data : option bytes) (token : string) (view : PrincipalView)
| AuthError (reason : string).

Definition after_outcome (method : AuthMethod) (o : BeginOutcome) : AuthReply * ConnAuth :=
  match o with
  | Challenge data exchange => (AuthChallenge data, InProgress exchange method)
  | Success final_data x => (AuthOk final_data (ax_token x) (ax_view x), Completing (ax_principal x) method)
  | Refused reason => (AuthError reason, Unauthenticated)
  end.

Definition is_authenticated (conn : ConnAuth) : bool :=
  match conn with Completing _ _ | AuthenticatedAs _ _ _ => true | _ => false end.

Definition on_auth_start (mechanism : string) (initial : bytes) (env : Env) (conn : ConnAuth) (n : Node)
    : AuthReply * ConnAuth * Node :=
  if is_authenticated conn then (AuthError "already authenticated", conn, n)
  else let '(o, n') := begin mechanism initial env n in (after_outcome (auth_method_for mechanism) o, drop_conn conn n').

Definition on_auth_step (data : bytes) (env : Env) (conn : ConnAuth) (n : Node) : AuthReply * ConnAuth * Node :=
  match conn with
  | InProgress exchange method => let '(o, n') := step exchange data env n in (after_outcome method o, n')
  | _ => (AuthError "no authentication in progress", conn, n)
  end.

Definition on_auth_resume (token : string) (env : Env) (conn : ConnAuth) (n : Node) : AuthReply * ConnAuth * Node :=
  if is_authenticated conn then (AuthError "already authenticated", conn, n)
  else let '(o, n') := resume token env n in (after_outcome Token o, drop_conn conn n').

(** A connection captures a guard only when there is a registry; without one it cannot be
    revoked. *)
Definition capture_guard (mode : AuthMode) (conn : ConnAuth) (n : Node) : ConnAuth * Node :=
  match conn with
  | Completing p m =>
      match mode with
      | Required true => let '(g, n') := guard (p_user_id p) n in (AuthenticatedAs p m (Some g), n')
      | Required false | LocalSystem => (AuthenticatedAs p m None, n)
      end
  | _ => (conn, n)
  end.

(** A connection as it is opened: local trust is the system's, and cannot be revoked. *)
Definition open_conn (mode : AuthMode) : ConnAuth :=
  match mode with
  | LocalSystem => AuthenticatedAs (rc_principal context_system) LocalTrust None
  | Required _ => Unauthenticated
  end.

(** The context under which a [Call] is dispatched; [None] when it is refused. *)
Definition on_call (conn_id : N) (conn : ConnAuth) (n : Node) : option RequestContext :=
  match conn with
  | AuthenticatedAs p m g =>
      if match g with Some g => is_revoked n g | None => false end then None
      else Some (mkRequestContext p (Some conn_id) (Some m))
  | _ => None
  end.

Definition authorize_and_dispatch (ctx : RequestContext) (op : AccessOp) (n : Node) : result ApiError unit * Node :=
  match authorize (Some ctx) (access_request op) with
  | Err e => (Err e, n)
  | Ok _ => run_access sqlite_message (Some ctx) op n
  end.

Inductive AuthFrame :=
| FStart (mechanism : string) (initial : bytes)
| FStep (data : bytes)
| FResume (token : string).

Definition on_frame (f : AuthFrame) (env : Env) (conn : ConnAuth) (n : Node) : AuthReply * ConnAuth * Node :=
  match f with
  | FStart mechanism initial => on_auth_start mechanism initial env conn n
  | FStep data => on_auth_step data env conn n
  | FResume token => on_auth_resume token env conn n
  end.

(** ** What logging in does to the store *)

(** The operations of the store that logging in makes. *)
Definition login_op (o : AuthOp) : bool :=
  match o with
  | OpMint _ _ _ _ _ | OpTouch _ _ | OpEnroll _ _ _ _ _ | OpResolve _ _ => true
  | _ => false
  end.

Definition store_path (s s' : AuthStore) : Prop := ∃ ops, Forall (λ o, login_op o = true) ops ∧ s' = run_ops ops s.

Lemma store_path_refl s : store_path s s.
Proof. by exists []. Qed.

Lemma store_path_op o s s' : login_op o = true → s' = run_op o s → store_path s s'.
Proof. intros Ho ->. exists [o]. split; [by constructor|done]. Qed.

Lemma store_path_trans s1 s2 s3 : store_path s1 s2 → store_path s2 s3 → store_path s1 s3.
Proof.
  intros (o1 & H1 & ->) (o2 & H2 & ->). exists (o1 ++ o2). split; [by apply Forall_app|].
  unfold run_ops. by rewrite foldl_app.
Qed.

Lemma grant_path id name method env s : store_path s (grant id name method env s).2.
Proof.
  unfold grant. unfold mbind at 1, M_bind at 1. unfold principal_for_user, mbind at 1, M_bind at 1, roles_of, gets. simpl.
  unfold mbind, M_bind. eapply (store_path_op (OpMint id DEFAULT_SESSION_TTL_SECS method (ev_token_bytes env) (ev_now env)));
    [done|]. simpl. by destruct (mint_session _ _ _ _ _ s) as [[t|e] s'].
Qed.

Lemma validate_path mech now ctx captured s : store_path s (validate mech now ctx captured s).2.
Proof.
  unfold validate. case_bool_decide; [apply store_path_refl|].
  case_bool_decide; [|case_bool_decide; apply store_path_refl].
  unfold validate_external. destruct (tls_peer_cert_fingerprint tls) as [fp|]; [|apply store_path_refl].
  destruct (external_identity fp s) as [[[[id name]|]|e] s'] eqn:E; simpl; try apply store_path_refl.
  by apply (store_path_op (OpTouch fp now)).
Qed.

Lemma finish_path id m out env n : store_path (nd_store n) (nd_store (finish id m out env n).2).
Proof.
  unfold finish. pose proof (grant_path (vi_user_id id) (vi_username id) m env (nd_store n)) as Hg.
  by destruct (grant _ _ _ _ _) as [r s].
Qed.

Lemma drive_path session captured m input env n : store_path (nd_store n) (nd_store (drive session captured m input env n).2).
Proof.
  unfold drive. destruct (sasl_step _ _ _) as [asked state].
  set (cs := match asked with Some ctx => _ | None => _ end).
  assert (store_path (nd_store n) cs.2) as Hs
    by (subst cs; destruct asked; [apply validate_path|apply store_path_refl]).
  destruct cs as [captured' s]. simpl in Hs. destruct state as [out s'|out|]; [done| |done].
  destruct captured' as [id|]; [|done]. eapply store_path_trans; [exact Hs|]. apply (finish_path _ _ _ _ (with_store n s)).
Qed.

Lemma step_pairing_path p data env n : store_path (nd_store n) (nd_store (step_pairing p data env n).2).
Proof.
  unfold step_pairing. destruct p as [p|]; [|apply store_path_refl].
  destruct (complete p data (nd_pairing n)) as [[[fp name]|e] m]; [|apply store_path_refl]. simpl.
  set (o := OpEnroll (device_username fp) (String.string_of_list_byte fp) (Some (String.string_of_list_byte name))
    (ev_id_bytes env) (ev_now env)).
  assert (store_path (nd_store n) (run_op o (nd_store n))) as Ho by (by apply (store_path_op o)). simpl in Ho.
  destruct (enroll_paired_device _ _ _ _ _ _) as [[user|e] s]; [|done]. simpl in Ho.
  pose proof (grant_path (ur_id user) (ur_username user) "pairing" env s) as Hg.
  destruct (grant _ _ _ _ _) as [r s']. simpl. by eapply store_path_trans.
Qed.

Lemma begin_path mech initial env n : store_path (nd_store n) (nd_store (begin mech initial env n).2).
Proof.
  unfold begin. case_bool_decide.
  - unfold begin_pairing. destruct (at_server_fp auth); [|apply store_path_refl].
    destruct (tls_is_tls tls); [|apply store_path_refl]. destruct (tls_peer_cert_fingerprint tls); [|apply store_path_refl].
    simpl. destruct (begin_exchange _ _ _ _ _ _) as [[[c p]|e] m]; apply store_path_refl.
  - assert (nd_store (advertised_mechanisms (ev_mono env) n).2 = nd_store n) as Ha.
    { unfold advertised_mechanisms. destruct (tls_is_tls tls); [|done].
      destruct (at_server_fp auth), (tls_peer_cert_fingerprint tls); done. }
    destruct (advertised_mechanisms (ev_mono env) n) as [mechs n']. simpl in Ha. rewrite <- Ha.
    case_bool_decide; [|apply store_path_refl]. destruct (start_suggested mech); [|apply store_path_refl]. apply drive_path.
Qed.

Lemma resume_path token env n : store_path (nd_store n) (nd_store (resume token env n).2).
Proof.
  unfold resume. apply (store_path_op (OpResolve token (ev_now env))); [done|]. simpl.
  by destruct (principal_for_token _ _ _) as [r s].
Qed.

Lemma drop_conn_store conn n : nd_store (drop_conn conn n) = nd_store n.
Proof. by destruct conn as [|[s c m|[p|]] m'| |]. Qed.

Lemma on_frame_path f env conn n : store_path (nd_store n) (nd_store (on_frame f env conn n).2).
Proof.
  destruct f as [mech initial|data|token]; simpl.
  - unfold on_auth_start. destruct (is_authenticated conn); [apply store_path_refl|].
    pose proof (begin_path mech initial env n) as H. destruct (begin mech initial env n) as [o n']. simpl in *.
    by rewrite drop_conn_store.
  - unfold on_auth_step. destruct conn as [|ex m| |]; try apply store_path_refl.
    assert (store_path (nd_store n) (nd_store (step ex data env n).2)) as H
      by (destruct ex; [apply drive_path|apply step_pairing_path]).
    by destruct (step ex data env n) as [o n'].
  - unfold on_auth_resume. destruct (is_authenticated conn); [apply store_path_refl|].
    pose proof (resume_path token env n) as H. destruct (resume token env n) as [o n']. simpl in *. by rewrite drop_conn_store.
Qed.

(** ** Soundness of logging in *)

(** The principal is what the store says of an enabled user. *)
Definition current (s : AuthStore) (p : Principal) : Prop :=
  ∃ u, user_by_id s (p_user_id p) = Some u ∧ ur_disabled u = false ∧ p = principal_of s (p_user_id p) (ur_username u).

(** An identity of an enabled user. *)
Definition enabled_identity (s : AuthStore) (id : ValidatedIdentity) : Prop :=
  ∃ u, user_by_id s (vi_user_id id) = Some u ∧ ur_disabled u = false ∧ ur_username u = vi_username id.

(** No identity is captured in an exchange that runs on. *)
Definition conn_ok (conn : ConnAuth) : Prop :=
  match conn with
  | InProgress (Sasl _ captured _) _ => captured = None
  | _ => True
  end.

Lemma grant_ok id name method env s x s' :
  grant id name method env s = (Ok x, s') →
  ax_principal x = principal_of s id name ∧
  s' = s <| st_sessions := <[token_hash (ax_token x) :=
    mkAuthSession id (ev_now env) (i64_add (ev_now env) DEFAULT_SESSION_TTL_SECS) method]> (st_sessions s) |>.
Proof.
  unfold grant. intros [(? & _ & ?)|(p & s1 & H1 & H)]%M_bind_inv; [done|]. injection H1 as <- <-.
  apply M_bind_inv in H as [(? & _ & ?)|(t & s2 & H2 & H)]; [done|]. injection H as <- <-. split; [done|].
  unfold mint_session in H2. apply M_bind_inv in H2 as [(? & _ & ?)|(t' & s3 & H3 & H2)]; [done|].
  destruct (ev_token_bytes env); [|done]. injection H3 as <- <-. unfold mbind at 1, M_bind at 1, get in H2.
  destruct (st_sessions s !! _); [done|]. unfold mbind, M_bind, references_user in H2.
  destruct (user_by_id s id); [|done]. by injection H2 as <- <-.
Qed.

(** The lifetime of a token does not overflow. *)
Definition clock_ok (env : Env) : Prop := (- i64_bound ≤ ev_now env < i64_bound - DEFAULT_SESSION_TTL_SECS)%Z.

Lemma clock_ttl env : clock_ok env → (ev_now env < i64_add (ev_now env) DEFAULT_SESSION_TTL_SECS)%Z.
Proof. unfold clock_ok, i64_add, i64_bound, DEFAULT_SESSION_TTL_SECS. intros H. rewrite Z.mod_small; lia. Qed.

Lemma grant_resolves id method env s x s' :
  clock_ok env → enabled_identity s id → grant (vi_user_id id) (vi_username id) method env s = (Ok x, s') →
  (principal_for_token (ax_token x) (ev_now env) s').1 = Ok (ax_principal x).
Proof.
  intros Hclock (u & Hu & Hen & Hname) [Hp Hs]%grant_ok. apply principal_for_token_ok.
  eexists _, u. split.
  - unfold resolves. rewrite Hs. simpl. split_and!; [by rewrite lookup_insert_eq|simpl; by apply clock_ttl|done|done].
  - rewrite Hp, Hs, Hname. done.
Qed.

Lemma by_name_enabled s name u :
  auth_wf s → user_by_name s name = Some u → ur_disabled u = false →
  enabled_identity s (mkValidatedIdentity (ur_id u) (ur_username u)).
Proof.
  intros Hwf [Hin _]%find_user_spec Hen. exists u. split_and!; [|done|done].
  apply user_by_id_unique; [apply (wf_ids s Hwf)|done].
Qed.

Lemma validate_enabled mech now ctx s id s' :
  auth_wf s → validate mech now ctx None s = (Some id, s') → enabled_identity s' id.
Proof.
  intros Hwf. unfold validate. case_bool_decide as Em1; [|case_bool_decide as Em2; [|case_bool_decide as Em3; [|done]]].
  - intros [= H <-]. unfold validate_plain in H. destruct (tls_is_tls tls), ctx as [[name|] [raw|]]; simplify_eq/=.
    destruct (from_utf8 raw) as [pw|]; [|done]. simpl in H.
    unfold authenticate_password, find_user, mbind, M_bind, gets, ok_or, mret, M_ret, throw in H.
    destruct (user_by_name s name) as [u|] eqn:Eu; [|done]. destruct (ur_disabled u) eqn:Edis; [done|].
    destruct (st_passwords s !! ur_id u) as [pc|]; [|done]. destruct (verify_password _ _); [|done].
    simplify_eq/=. by eapply by_name_enabled.
  - unfold validate_external. destruct (tls_peer_cert_fingerprint tls) as [fp|]; [|done].
    unfold external_identity, gets. destruct (st_externals s !! fp) as [row|]; [|done]. simpl.
    destruct (user_by_id s (ei_user_id row)) as [u|] eqn:Eu; [|done]. simpl.
    destruct (ur_disabled u) eqn:Edis; [done|]. intros [= <- <-]. exists u. split_and!; [|done|done]. simpl.
    apply user_by_id_Some in Eu as [Hin _]. apply user_by_id_unique; [apply (wf_ids s Hwf)|done].
  - intros [= H <-]. unfold validate_scram in H. destruct ctx.1 as [name|]; [|done]. simpl in H.
    destruct (user_by_name s name) as [u|] eqn:Eu; [|done]. simpl in H. destruct (ur_disabled u) eqn:Edis; [done|].
    injection H as <-. by eapply by_name_enabled.
Qed.

(** What an outcome may say of the store it leaves. *)
Definition outcome_ok (env : Env) (o : BeginOutcome) (s : AuthStore) : Prop :=
  match o with
  | Challenge _ ex => conn_ok (InProgress ex Scram)
  | Success _ x => (principal_for_token (ax_token x) (ev_now env) s).1 = Ok (ax_principal x)
  | Refused _ => True
  end.

Lemma drive_ok session m input env n o n' :
  auth_wf (nd_store n) → clock_ok env → drive session None m input env n = (o, n') → outcome_ok env o (nd_store n').
Proof.
  intros Hwf Hclock. unfold drive. destruct (sasl_step _ _ _) as [asked state] eqn:Est.
  destruct state as [out s'|out|].
  - apply validates_last in Est as ->. intros [= <- <-]. done.
  - destruct asked as [ctx|]; [|by intros [= <- <-]].
    destruct (validate m (ev_now env) ctx None (nd_store n)) as [[id|] s] eqn:Ev; [|by intros [= <- <-]].
    apply validate_enabled in Ev; [|done]. unfold finish. simpl.
    destruct (grant _ _ _ _ _) as [[x|e] s'] eqn:Eg; intros [= <- <-]; [|done]. simpl. by eapply grant_resolves.
  - destruct asked as [ctx|]; [destruct (validate _ _ _ _ _)|]; by intros [= <- <-].
Qed.

Lemma enroll_enabled name fp d ib now s u s' :
  auth_wf s → enroll_paired_device name fp d ib now s = (Ok u, s') →
  enabled_identity s' (mkValidatedIdentity (ur_id u) (ur_username u)).
Proof.
  intros Hwf He. assert (auth_wf s') as Hwf'.
  { replace s' with (enroll_paired_device name fp d ib now s).2 by (by rewrite He). by apply wf_enroll. }
  revert He. unfold enroll_paired_device. destruct (is_reserved_username name); [done|].
  intros [(? & _ & ?)|(mid & s0 & H0 & H)]%M_bind_inv; [done|]. destruct ib as [b|]; [|done]. injection H0 as <- <-.
  destruct (is_reserved_username _); [done|]. apply transaction_ok in H. unfold mbind at 1, M_bind at 1, gets in H.
  apply M_bind_inv in H as [(? & _ & ?)|([uid at_] & s1 & H1 & H)]; [done|].
  apply M_bind_inv in H as [(? & _ & ?)|([] & s2 & H2 & H)]; [done|]. injection H as <- <-. simpl.
  assert (st_users s2 = st_users s1) as Hus.
  { unfold upsert_external, mbind, M_bind, references_user in H2. destruct (user_by_id s1 uid); [|done]. by injection H2 as <-. }
  assert (∃ w, w ∈ st_users s1 ∧ ur_id w = uid ∧ ur_username w = name ∧ ur_disabled w = false) as (w & Hw & Hid & Hname & Hen).
  { destruct (user_by_name s name) as [v|] eqn:Ev.
    - apply find_user_spec in Ev as [Hin Hv]. unfold mbind, M_bind, update_disabled in H1. simpl in H1. injection H1 as <- <- <-.
      exists (v <| ur_disabled := false |>). simpl. split_and!; [|done..]. apply list_elem_of_fmap. exists v.
      by rewrite decide_True.
    - apply M_bind_inv in H1 as [(? & _ & ?)|([] & t1 & G1 & H1)]; [done|].
      apply M_bind_inv in H1 as [(? & _ & ?)|([] & t2 & G2 & H1)]; [done|]. injection H1 as <- <- <-.
      apply insert_role_rows in G2 as [-> _]. unfold insert_user in G1. case_bool_decide; [done|]. case_bool_decide; [done|].
      injection G1 as <-. exists (mkUserRecord (hex b) name false now). simpl. split_and!; [|done..]. set_solver. }
  exists w. simpl. rewrite <- Hid. split_and!; [|done|done]. apply user_by_id_unique; [apply (wf_ids s2 Hwf')|]. by rewrite Hus.
Qed.

Lemma step_pairing_ok p data env n o n' :
  auth_wf (nd_store n) → clock_ok env → step_pairing p data env n = (o, n') → outcome_ok env o (nd_store n').
Proof.
  intros Hwf Hclock. unfold step_pairing. destruct p as [p|]; [|by intros [= <- <-]].
  destruct (complete p data (nd_pairing n)) as [[[fp name]|e] m]; [|by intros [= <- <-]]. simpl.
  destruct (enroll_paired_device _ _ _ _ _ _) as [[u|e] s] eqn:Ee; [|by intros [= <- <-]].
  apply enroll_enabled in Ee; [|done]. destruct (grant _ _ _ _ _) as [[x|e] s'] eqn:Eg; intros [= <- <-]; [|done].
  by eapply (grant_resolves (mkValidatedIdentity (ur_id u) (ur_username u))).
Qed.

Lemma begin_ok mech initial env n o n' :
  auth_wf (nd_store n) → clock_ok env → begin mech initial env n = (o, n') → outcome_ok env o (nd_store n').
Proof.
  intros Hwf Hclock. unfold begin. case_bool_decide.
  - unfold begin_pairing. destruct (at_server_fp auth); [|by intros [= <- <-]].
    destruct (tls_is_tls tls); [|by intros [= <- <-]]. destruct (tls_peer_cert_fingerprint tls); [|by intros [= <- <-]].
    simpl. destruct (begin_exchange _ _ _ _ _ _) as [[[c p]|e] m]; by intros [= <- <-].
  - assert (nd_store (advertised_mechanisms (ev_mono env) n).2 = nd_store n) as Ha.
    { unfold advertised_mechanisms. destruct (tls_is_tls tls); [|done].
      destruct (at_server_fp auth), (tls_peer_cert_fingerprint tls); done. }
    destruct (advertised_mechanisms (ev_mono env) n) as [mechs n1]. simpl in Ha.
    case_bool_decide; [|by intros [= <- <-]]. destruct (start_suggested mech); [|by intros [= <- <-]].
    apply drive_ok; [by rewrite Ha|done].
Qed.

Lemma resume_ok token env n o n' : resume token env n = (o, n') → outcome_ok env o (nd_store n').
Proof.
  unfold resume. destruct (principal_for_token token (ev_now env) (nd_store n)) as [[p|e] s] eqn:E; intros [= <- <-]; [|done].
  simpl. assert (s = nd_store n) as ->; [|by rewrite E].
  revert E. unfold principal_for_token, mbind, M_bind, gets, ok_or, mret, M_ret, throw.
  destruct (st_sessions (nd_store n) !! token_hash token) as [row|]; [|done].
  destruct (as_expires_at row <=? ev_now env)%Z; [done|].
  destruct (user_by_id (nd_store n) (as_user_id row)) as [u|]; [|done]. destruct (ur_disabled u); [done|].
  by intros [= _ <-].
Qed.

Lemma after_outcome_ok method env o s :
  outcome_ok env o s →
  conn_ok (after_outcome method o).2 ∧
  ∀ p m, (after_outcome method o).2 = Completing p m →
    ∃ fd token view, (after_outcome method o).1 = AuthOk fd token view ∧ (principal_for_token token (ev_now env) s).1 = Ok p.
Proof.
  destruct o as [data ex|fd x|reason]; simpl; intros Ho; (split; [done|]); intros p m Heq; simplify_eq. eauto.
Qed.

(** C23. Logging in is sound, by every mechanism and in every state of the
    connection: when a frame makes a connection authenticated, the reply carries a
    session token that resolves, in the store as it then is, to the very principal
    the connection is bound to, so the user exists, is enabled and has exactly the
    roles bound.  Tables stay well formed, and an exchange that runs on has no
    identity yet. *)
Theorem login_sound f env conn n reply conn' n' :
  auth_wf (nd_store n) → clock_ok env → conn_ok conn → on_frame f env conn n = (reply, conn', n') →
  auth_wf (nd_store n') ∧ conn_ok conn' ∧
  ∀ p m, conn' = Completing p m → conn = conn' ∨
    ∃ fd token view, reply = AuthOk fd token view ∧
      (principal_for_token token (ev_now env) (nd_store n')).1 = Ok p.
Proof.
  intros Hwf Hclock Hok Hf. split.
  { pose proof (on_frame_path f env conn n) as (ops & _ & Hs). rewrite Hf in Hs. simpl in Hs. rewrite Hs.
    clear Hs Hf. unfold run_ops. revert Hwf. generalize (nd_store n). induction ops as [|o ops IH]; intros s Hs; [done|].
    apply IH, wf_run_op, Hs. }
  destruct f as [mech initial|data|token]; simpl in Hf.
  - unfold on_auth_start in Hf. destruct (is_authenticated conn) eqn:Ea; [simplify_eq; eauto|].
    destruct (begin mech initial env n) as [o n1] eqn:Eb. apply begin_ok in Eb; [|done..].
    apply (after_outcome_ok (auth_method_for mech)) in Eb as [H1 H2]. destruct (after_outcome _ o) as [r c].
    simplify_eq. rewrite drop_conn_store. eauto.
  - unfold on_auth_step in Hf. destruct conn as [|ex m| |]; simplify_eq; eauto.
    destruct (step ex data env n) as [o n1] eqn:Eb.
    assert (outcome_ok env o (nd_store n1)) as Ho.
    { destruct ex as [session captured method|p]; simpl in *; [subst captured; by eapply drive_ok|by eapply step_pairing_ok]. }
    apply (after_outcome_ok m) in Ho as [H1 H2]. destruct (after_outcome _ o) as [r c]. simplify_eq. eauto.
  - unfold on_auth_resume in Hf. destruct (is_authenticated conn) eqn:Ea; [simplify_eq; eauto|].
    destruct (resume token env n) as [o n1] eqn:Eb. apply resume_ok in Eb.
    apply (after_outcome_ok Token) in Eb as [H1 H2]. destruct (after_outcome _ o) as [r c].
    simplify_eq. rewrite drop_conn_store. eauto.
Qed.
End authn.

(** ** Live connections *)

Section live.
Context {HC : AuthCrypto} {HR : RowOrder} {HP : Pake} {HS : Rsasl}.
Context (sqlite_message : SqlConstraint → string) (auth : Authenticator).

(** What happens on the node: administration, frames of other connections in any
    state, their capture and their end. *)
Inductive NodeEvent :=
| EAdmin (ctx : option RequestContext) (op : AccessOp)
| EFrame (tls : TlsState) (f : AuthFrame) (env : Env) (conn : ConnAuth)
| ECapture (mode : AuthMode) (conn : ConnAuth)
| EDrop (conn : ConnAuth).

Definition run_event (n : Node) (e : NodeEvent) : Node :=
  match e with
  | EAdmin ctx op => (run_access sqlite_message ctx op n).2
  | EFrame tls f env conn => (on_frame auth tls f env conn n).2
  | ECapture mode conn => (capture_guard mode conn n).2
  | EDrop conn => drop_conn conn n
  end.

Definition run_events (evs : list NodeEvent) (n : Node) : Node := foldl run_event n evs.

Lemma on_frame_epochs tls f env conn n : nd_epochs (on_frame auth tls f env conn n).2 = nd_epochs n.
Proof.
  assert (∀ c m, nd_epochs (drop_conn c m) = nd_epochs m) as Hd by (by intros [|[s c m|[p|]] m'| |]).
  assert (∀ s c m i m0, nd_epochs (drive auth tls s c m i env m0).2 = nd_epochs m0) as Hdr.
  { intros s c m i m0. unfold drive. destruct (sasl_step _ _ _) as [asked state].
    destruct (match asked with Some ctx => _ | None => _ end) as [cap s'].
    destruct state; [done| |done]. destruct cap; [|done]. unfold finish. by destruct (grant _ _ _ _ _). }
  destruct f as [mech initial|data|token]; simpl.
  - unfold on_auth_start. destruct (is_authenticated conn); [done|].
    assert (nd_epochs (begin auth tls mech initial env n).2 = nd_epochs n) as Hb.
    { unfold begin. case_bool_decide.
      - unfold begin_pairing. destruct (at_server_fp auth); [|done]. destruct (tls_is_tls tls); [|done].
        destruct (tls_peer_cert_fingerprint tls); [|done]. simpl. by destruct (begin_exchange _ _ _ _ _ _) as [[[c p]|e] m].
      - assert (nd_epochs (advertised_mechanisms auth tls (ev_mono env) n).2 = nd_epochs n) as Ha.
        { unfold advertised_mechanisms. destruct (tls_is_tls tls); [|done].
          destruct (at_server_fp auth), (tls_peer_cert_fingerprint tls); done. }
        destruct (advertised_mechanisms _ _ _ _) as [mechs n1]. simpl in Ha. case_bool_decide; [|done].
        destruct (start_suggested mech); [|done]. by rewrite Hdr. }
    destruct (begin _ _ _ _ _ _) as [o n1]. simpl in *. by rewrite Hd.
  - unfold on_auth_step. destruct conn as [|ex m| |]; try done.
    assert (nd_epochs (step auth tls ex data env n).2 = nd_epochs n) as Hs.
    { destruct ex as [s c m'|p]; simpl; [apply Hdr|]. unfold step_pairing. destruct p as [p|]; [|done].
      destruct (complete p data (nd_pairing n)) as [[[fp name]|e] pm]; [|done]. simpl.
      destruct (enroll_paired_device _ _ _ _ _ _) as [[u|e] s]; [|done]. by destruct (grant _ _ _ _ _). }
    by destruct (step _ _ _ _ _ _) as [o n1].
  - unfold on_auth_resume. destruct (is_authenticated conn); [done|]. unfold resume.
    destruct (principal_for_token _ _ _). simpl. by rewrite Hd.
Qed.

Lemma run_ops_keeps (P : AuthStore → Prop) s s' :
  (∀ o s, login_op o = true → P s → P (run_op o s)) → store_path s s' → P s → P s'.
Proof.
  intros Hop (ops & Hops & ->). unfold run_ops. revert s. induction Hops as [|o ops Ho _ IH]; intros s Hs; [done|].
  apply IH. by apply Hop.
Qed.

(** The operations a frame makes leave the standing of every user. *)
Lemma standing_login id name rows o s :
  login_op o = true → standing id name rows s → standing id name rows (run_op o s).
Proof.
  intros Ho. destruct o; try done; cbn [run_op]; apply (keeps_after (standing id name rows)).
  - apply standing_enroll.
  - apply standing_mint.
  - pose proof (standing_delete_session id name rows). unfold principal_for_token, principal_for_user, roles_of.
    keeps_steps; by apply standing_delete_session.
  - apply standing_touch.
Qed.

(** An event either cuts the connections of a user or leaves its standing. *)
Lemma event_careful id name rows n e :
  epoch (run_event n e) id = epoch n id +₆₄ 1 ∨
  (epoch (run_event n e) id = epoch n id ∧ (stands id name rows n → stands id name rows (run_event n e))).
Proof.
  destruct e as [ctx op|tls f env conn|mode conn|conn]; simpl.
  - apply (careful_access sqlite_message id name rows ctx op).
  - right. split; [unfold epoch; by rewrite on_frame_epochs|].
    apply run_ops_keeps; [intros o s; apply standing_login|apply on_frame_path].
  - right. destruct conn as [| |p m|]; try done. destruct mode as [|[|]]; try done. simpl. split; [apply epoch_cell|]. unfold stands, cell.
    by destruct (nd_epochs n !! p_user_id p).
  - right. by destruct conn as [|[s c m|[p|]] m'| |].
Qed.

Fixpoint bumped (j : nat) (e : N) : N :=
  match j with
  | O => e
  | S j' => bumped j' (e +₆₄ 1)
  end.

Lemma bumped_value j e : (0 < j)%nat → bumped j e = wrap64 (e + N.of_nat j).
Proof.
  revert e. induction j as [|j IH]; intros e Hj; [lia|]. simpl. destruct j as [|j]; [simpl; f_equal; lia|].
  rewrite IH by lia. unfold wrap64. rewrite N.Div0.add_mod_idemp_l. f_equal. lia.
Qed.

Lemma bumped_back j e : (N.of_nat j < u64_bound)%N → bumped j e = e → j = O.
Proof.
  intros Hj Heq. destruct j as [|j]; [done|]. exfalso. rewrite bumped_value in Heq by lia.
  pose proof (wrap64_bound (e + N.of_nat (S j))) as Hb. rewrite Heq in Hb. unfold wrap64, u64_bound in *.
  pose proof (N.div_mod (e + N.of_nat (S j)) 18446744073709551616). lia.
Qed.

Lemma bumped_add j k e : bumped (j + k) e = bumped k (bumped j e).
Proof. revert e. induction j as [|j IH]; intros e; [done|]. apply IH. Qed.

(** Over a run of events the epoch of a user counts the cuts, and without one its
    standing is what it was. *)
Lemma events_careful id name rows evs n :
  ∃ j, (j ≤ length evs)%nat ∧ epoch (run_events evs n) id = bumped j (epoch n id) ∧
    (j = O → stands id name rows n → stands id name rows (run_events evs n)).
Proof.
  revert n. induction evs as [|e evs IH]; intros n; [by exists O|]. simpl.
  destruct (IH (run_event n e)) as (j & Hj & He & Hs). destruct (event_careful id name rows n e) as [H1|[H1 H2]].
  - exists (S j). split_and!; [lia| |done]. rewrite He, H1. done.
  - exists j. split_and!; [lia|by rewrite He, H1|auto].
Qed.

Lemma current_stands n p : current (nd_store n) p →
  ∃ u, stands (p_user_id p) (ur_username u) (role_rows (nd_store n) (p_user_id p)) n ∧
    p = principal_of (nd_store n) (p_user_id p) (ur_username u).
Proof. intros (u & H1 & H2 & H3). exists u. split; [|done]. by constructor; eauto. Qed.

(** C8. A live connection never acts on stale authority: on a node that carries the registry
    of revocations, when its principal was current at the capture of its guard, every call it may still make, after any
    administration and any other logins, is dispatched under a principal that is
    still what the store says, of a user that is enabled and has just these roles.
    The counter of cuts has 64 bits, so the bound on the events is no
    restriction. *)
Theorem live_connection n p m conn n1 evs conn_id ctx :
  current (nd_store n) p → capture_guard (Required true) (Completing p m) n = (conn, n1) →
  (N.of_nat (length evs) < u64_bound)%N → on_call conn_id conn (run_events evs n1) = Some ctx →
  rc_principal ctx = p ∧ current (nd_store (run_events evs n1)) p.
Proof.
  intros (u & Hst & Hp)%current_stands Hcap Hlen Hcall. simpl in Hcap. unfold guard in Hcap. injection Hcap as <- <-.
  simpl in Hcall. set (n1 := cell (p_user_id p) n) in *. unfold is_revoked in Hcall. simpl in Hcall.
  destruct (N.eqb_spec (epoch (run_events evs n1) (p_user_id p)) (epoch n1 (p_user_id p))) as [He|He]; [|done].
  injection Hcall as <-. split; [done|].
  destruct (events_careful (p_user_id p) (ur_username u) (role_rows (nd_store n) (p_user_id p)) evs n1) as (j & Hj & Hb & Hs).
  rewrite He in Hb. symmetry in Hb. apply bumped_back in Hb as ->; [|lia].
  assert (stands (p_user_id p) (ur_username u) (role_rows (nd_store n) (p_user_id p)) n1) as Hst1
    by (subst n1; unfold stands, cell in *; by destruct (nd_epochs n !! p_user_id p)).
  specialize (Hs eq_refl Hst1). pose proof (standing_principal _ _ _ _ Hs) as Hp2.
  pose proof (standing_principal _ _ _ _ Hst) as Hp1. destruct Hs as [(u' & H1 & H2 & H3) _].
  exists u'. split_and!; [done|done|]. rewrite H3, Hp2, <- Hp1. exact Hp.
Qed.

(** The administrative request cuts the connections of the user. *)
Definition cuts (op : AccessOp) (id : string) (n : Node) : Prop :=
  match op with
  | AUserDisable id' true | AUserSetRoles id' _ | AUserSetPassword id' _ _ _ _ | ASessionRevoke id' => id' = id
  | APairedDeviceRevoke fp => ∃ row, st_externals (nd_store n) !! fp = Some row ∧ ei_user_id row = id
  | _ => False
  end.

Lemma cut_epoch id (n n' : Node) e :
  epoch n id = e → revoke_principal id n = (Ok tt, n') → epoch n' id = e +₆₄ 1.
Proof. intros <- [= <-]. rewrite epoch_revoke. by rewrite decide_True. Qed.

Lemma on_store_epoch {A} (m : AuthM A) (n n' : Node) r id : on_store sqlite_message m n = (r, n') → epoch n' id = epoch n id.
Proof. unfold on_store. destruct (m (nd_store n)). by intros [= _ <-]. Qed.

Lemma require_admin_ok ctx (n n' : Node) r : require_admin ctx n = (r, n') → n' = n.
Proof. unfold require_admin. destruct (current_principal ctx) as [p|]; [destruct (has p AccessAdmin)|]; by intros [= _ <-]. Qed.

Lemma listed_external s fp row l :
  (list_external_identities s).1 = Ok l → List.find (λ r, bool_decide (er_fingerprint r = fp)) l = Some row →
  ∃ ei, st_externals s !! fp = Some ei ∧ ei_user_id ei = er_user_id row.
Proof.
  unfold list_external_identities, gets. simpl. intros [= <-] [Hin Hfp%bool_decide_eq_true]%find_some.
  apply list_elem_of_In in Hin. rewrite sort_by_perm in Hin. apply list_elem_of_omap in Hin as ([f ei] & Hm & Hr).
  apply elem_of_map_to_list in Hm. unfold external_record in Hr. simpl in Hr.
  destruct (user_by_id s (ei_user_id ei)); [|done]. simplify_eq/=. eauto.
Qed.

Lemma cuts_epoch ctx op id n n' :
  cuts op id n → run_access sqlite_message ctx op n = (Ok tt, n') → epoch n' id = epoch n id +₆₄ 1.
Proof.
  intros Hc. destruct op as [| |id' d|id' rs|id' p ps ss now| | |id'| | | | |fp]; simpl in Hc; try done; cbn [run_access];
    intros [(? & _ & ?)|([] & n0 & ->%require_admin_ok & H)]%M_bind_inv; try done.
  - destruct d; [subst|done]. apply M_bind_inv in H as [(? & _ & ?)|([] & n1 & H1 & H)]; [done|].
    eapply cut_epoch; [by eapply on_store_epoch|done].
  - subst. apply M_bind_inv in H as [(? & _ & ?)|(parsed & n1 & H1 & H)]; [done|].
    assert (n1 = n) as -> by (pose proof (same_parse_roles rs n) as Hp; rewrite H1 in Hp; done).
    apply M_bind_inv in H as [(? & _ & ?)|([] & n2 & H2 & H)]; [done|]. eapply cut_epoch; [by eapply on_store_epoch|done].
  - subst. apply M_bind_inv in H as [(? & _ & ?)|([] & n1 & H1 & H)]; [done|].
    apply M_bind_inv in H as [(? & _ & ?)|([] & n2 & H2 & H)]; [done|]. eapply cut_epoch; [|done].
    by rewrite (on_store_epoch _ _ _ _ id H2), (on_store_epoch _ _ _ _ id H1).
  - subst. apply M_bind_inv in H as [(? & _ & ?)|([] & n1 & H1 & H)]; [done|].
    eapply cut_epoch; [by eapply on_store_epoch|done].
  - apply M_bind_inv in H as [(? & _ & ?)|(l & n1 & H1 & H)]; [done|].
    apply M_bind_inv in H as [(? & _ & ?)|(row & n2 & H2 & H)]; [done|].
    apply M_bind_inv in H as [(? & _ & ?)|(b & n3 & H3 & H)]; [done|].
    apply M_bind_inv in H as [(? & _ & ?)|([] & n4 & H4 & H)]; [done|].
    assert (n1 = n ∧ (list_external_identities (nd_store n)).1 = Ok l) as [-> Hl].
    { unfold on_store, list_external_identities, gets in H1. injection H1 as <- <-. by destruct n. }
    destruct (List.find _ l) as [row'|] eqn:Ef; [|done]. injection H2 as <- <-.
    apply (listed_external _ _ _ _ Hl) in Ef as (ei & He & Hid). destruct Hc as (ei' & He' & <-). simplify_eq. rewrite Hid.
    eapply cut_epoch; [|done]. by rewrite (on_store_epoch _ _ _ _ _ H4), (on_store_epoch _ _ _ _ _ H3).
Qed.

(** C26. Revocation reaches live connections: on a node that carries the registry of
    revocations, once an administrator disabled the user, changed its roles or password, revoked its sessions or its device, no
    connection of that user captured before makes another call, whatever happens
    around it. *)
Theorem connection_cut n p m conn n1 evs1 ctx op n2 evs2 conn_id :
  capture_guard (Required true) (Completing p m) n = (conn, n1) → cuts op (p_user_id p) (run_events evs1 n1) →
  run_access sqlite_message ctx op (run_events evs1 n1) = (Ok tt, n2) →
  (N.of_nat (length evs1 + length evs2) + 1 < u64_bound)%N →
  on_call conn_id conn (run_events evs2 n2) = None.
Proof.
  intros Hcap Hc Hrun Hlen. simpl in Hcap. unfold guard in Hcap. injection Hcap as <- <-. simpl. unfold is_revoked. simpl.
  apply (cuts_epoch ctx op (p_user_id p)) in Hrun; [|done]. set (n1 := cell (p_user_id p) n) in *.
  destruct (events_careful (p_user_id p) "" [] evs1 n1) as (j & Hj & Hb & _).
  destruct (events_careful (p_user_id p) "" [] evs2 n2) as (k & Hk & Hb2 & _).
  destruct (N.eqb_spec (epoch (run_events evs2 n2) (p_user_id p)) (epoch n1 (p_user_id p))) as [He|He]; [exfalso|done].
  rewrite Hb2, Hrun, Hb in He. change (bumped j _ +₆₄ 1) with (bumped 1 (bumped j (epoch n1 (p_user_id p)))) in He.
  rewrite <- !bumped_add in He. apply bumped_back in He; lia.
Qed.

(** The event is not the revocation of a device. *)
Definition spares_admin (e : NodeEvent) : Prop :=
  match e with EAdmin _ (APairedDeviceRevoke _) => False | _ => True end.

(** C16. Administration never locks itself out: on a node with an enabled
    administrator one remains through every administrative request, login and
    pairing but the revocation of a device. *)
Theorem node_admin_kept evs n :
  Forall spares_admin evs → has_admin (nd_store n) → has_admin (nd_store (run_events evs n)).
Proof.
  unfold run_events. intros Hevs. revert n. induction Hevs as [|e evs He _ IH]; intros n Hn; [done|]. simpl. apply IH.
  destruct e as [ctx op|tls f env conn|mode conn|conn]; simpl.
  - apply (node_keeps_access sqlite_message has_admin ctx op); [|done]. intros o s [Ho|[fp ->]]; [by apply admin_run_op|done].
  - eapply run_ops_keeps; [|apply on_frame_path|done]. intros o s Ho. apply admin_run_op. by destruct o.
  - destruct conn as [| |p m|]; try done. destruct mode as [|[|]]; try done. simpl. unfold cell. by destruct (nd_epochs n !! p_user_id p).
  - by rewrite drop_conn_store.
Qed.
End live.

(** ** A node with toy primitives *)

(** One step of PLAIN and EXTERNAL; SCRAM takes the user name, then the stored key
    as its proof. *)
#[program] Definition toy_rsasl : Rsasl := {|
  SaslSession := option string;
  start_suggested mech := Some None;
  sasl_step f s b :=
    match s, b with
    | None, x :: name => if bool_decide (x = Byte.x73) then (None, Running (sm_salt (f (String.string_of_list_byte name))) (Some (String.string_of_list_byte name)))
                         else (Some (Some (String.string_of_list_byte name), Some [x]), SaslFinished [])
    | None, [] => (Some (None, None), SaslFinished [])
    | Some name, proof => if bool_decide (proof = sm_stored_key (f name)) then (Some (Some name, None), SaslFinished [Byte.x01])
                          else (None, SaslError)
    end
|}.
Next Obligation.
  intros f [name|] [|x b] v out s' H; simpl in H; repeat case_match; simplify_eq; done.
Qed.

#[local] Existing Instance toy_auth_crypto.
#[local] Existing Instance toy_row_order.
#[local] Existing Instance toy_pake.
#[local] Existing Instance toy_rsasl.

Definition toy_node : Node := mkNode toy_store ∅ PairingManager_new.
Definition toy_authenticator : Authenticator := mkAuthenticator [Byte.x2a] None.
Definition toy_env (t : Byte.byte) : Env := mkEnv 200 0 (Some [t]) None None.
Definition toy_message (c : SqlConstraint) : string := "".

(** Bob's first SCRAM step, then its proof. *)
Definition toy_challenged := on_frame toy_authenticator plaintext (FStart "SCRAM-SHA-256" (string_bytes "sbob")) (toy_env Byte.x20)
  Unauthenticated toy_node.

Definition toy_proved := on_frame toy_authenticator plaintext
  (FStep (sm_stored_key (scram_material_for toy_authenticator toy_store "bob"))) (toy_env Byte.x21)
  toy_challenged.1.2 toy_challenged.2.

Definition toy_bob : Principal := from_roles "02" "bob" [User].

Lemma login_sound_witness :
  toy_proved.1.2 = Completing toy_bob Scram ∧
  auth_wf (nd_store toy_proved.2) ∧ conn_ok toy_proved.1.2 ∧
  ∀ p m, toy_proved.1.2 = Completing p m → toy_challenged.1.2 = toy_proved.1.2 ∨
    ∃ fd token view, toy_proved.1.1 = AuthOk fd token view ∧
      (principal_for_token token 200 (nd_store toy_proved.2)).1 = Ok p.
Proof.
  split; [by vm_compute|].
  apply (login_sound toy_authenticator plaintext (FStep (sm_stored_key (scram_material_for toy_authenticator toy_store "bob")))
    (toy_env Byte.x21) toy_challenged.1.2 toy_challenged.2).
  - replace (nd_store toy_challenged.2) with toy_store by (by vm_compute). apply auth_store_wf.
  - by vm_compute.
  - by vm_compute.
  - unfold toy_proved. by destruct (on_frame _ _ _ _ _) as [[r c] n].
Defined.

Definition toy_root_ctx : RequestContext := context_authenticated (from_roles "01" "root" [Admin]).
Definition toy_connected := capture_guard (Required true) toy_proved.1.2 toy_proved.2.

Lemma live_connection_witness :
  ∃ ctx, on_call 7 toy_connected.1 (run_events toy_message toy_authenticator [EAdmin (Some toy_root_ctx) AUserList] toy_connected.2) = Some ctx ∧
    rc_principal ctx = toy_bob ∧
    current (nd_store (run_events toy_message toy_authenticator [EAdmin (Some toy_root_ctx) AUserList] toy_connected.2)) toy_bob.
Proof.
  exists (mkRequestContext toy_bob (Some 7%N) (Some Scram)). split; [by vm_compute|].
  apply (live_connection toy_message toy_authenticator toy_proved.2 toy_bob Scram toy_connected.1 toy_connected.2
    [EAdmin (Some toy_root_ctx) AUserList] 7).
  - exists (mkUserRecord "02" "bob" false 101). by vm_compute.
  - by vm_compute.
  - by vm_compute.
  - by vm_compute.
Defined.

Definition toy_demoted := run_access toy_message (Some toy_root_ctx) (AUserSetRoles "02" ["viewer"])
  (run_events toy_message toy_authenticator [] toy_connected.2).

Lemma connection_cut_witness :
  on_call 7 toy_connected.1 toy_connected.2 = Some (mkRequestContext toy_bob (Some 7%N) (Some Scram)) ∧
  on_call 7 toy_connected.1 (run_events toy_message toy_authenticator [] toy_demoted.2) = None.
Proof.
  split; [by vm_compute|].
  apply (connection_cut toy_message toy_authenticator toy_proved.2 toy_bob Scram toy_connected.1 toy_connected.2 []
    (Some toy_root_ctx) (AUserSetRoles "02" ["viewer"]) toy_demoted.2 []).
  - by vm_compute.
  - reflexivity.
  - by vm_compute.
  - by vm_compute.
Defined.

Lemma node_admin_kept_witness :
  has_admin (nd_store (run_events toy_message toy_authenticator
    [EAdmin (Some toy_root_ctx) (AUserDisable "01" true); EAdmin (Some toy_root_ctx) (AUserSetRoles "01" ["viewer"])] toy_node)).
Proof.
  apply node_admin_kept; [by repeat constructor|]. exists (mkUserRecord "01" "root" false 100).
  split; [left|by vm_compute].
Defined.

(** The guard is captured after the principal is resolved, and the connection
    awaits between the two.  A demotion in that window is missed: the guard is
    captured at the new epoch, and the connection keeps the old roles. *)
Example guard_race :
  let demoted := (run_access toy_message (Some toy_root_ctx) (AUserSetRoles "02" ["viewer"]) toy_proved.2).2 in
  let '(conn, n) := capture_guard (Required true) toy_proved.1.2 demoted in
  on_call 7 conn n = Some (mkRequestContext toy_bob (Some 7%N) (Some Scram)) ∧
  has toy_bob SessionWrite = true ∧
  has (principal_of (nd_store n) "02" "bob") SessionWrite = false.
Proof. by vm_compute. Qed.

(** Without a registry the demoted user goes on as it was, and so does local trust. *)
Example unguarded_connection :
  let n := (run_access toy_message (Some toy_root_ctx) (AUserSetRoles "02" ["viewer"]) toy_proved.2).2 in
  on_call 7 (capture_guard (Required false) toy_proved.1.2 toy_proved.2).1 n = Some (mkRequestContext toy_bob (Some 7%N) (Some Scram)) ∧
  rc_principal <$> on_call 7 (open_conn LocalSystem) n = Some (rc_principal context_system).
Proof. by vm_compute. Qed.

(** The revocation of a device disables its user unguarded: the device of the only
    administrator takes the administration with it. *)
Example device_revoke_orphans :
  let bound := with_store toy_node (set_external_identity "01" "ff" None 150 toy_store).2 in
  let '(r, n) := run_access toy_message (Some toy_root_ctx) (APairedDeviceRevoke "ff") bound in
  r = Ok tt ∧ existsb (enabled_admin (nd_store bound)) (st_users (nd_store bound)) = true ∧
  existsb (enabled_admin (nd_store n)) (st_users (nd_store n)) = false.
Proof. by vm_compute. Qed.
