(* ===== verification/CoreConversation.v ===== *)
(** * The conversation and the request built from it

    [daemon-core]: the typed conversation ([conversation.rs]), its flattening into
    the messages of a provider request ([provider.rs], [build_context]), the repair
    of that sequence ([repair/message_sequence.rs]), the injection of a turn, the
    token estimate and the default compaction ([context.rs]).  Texts are the bytes
    of Rust strings; sums of lengths stay below the size of memory. *)

From S2P Require Import Prelude Text Common.
#[local] Open Scope N_scope.

(** ** The conversation *)

Definition blank_line : bytes := string_bytes "

".

(** Attachments and the notice of a message are ignored by the engine. *)
Record UserMsg := mkUserMsg { um_text : bytes }.
Record AssistantMsg := mkAssistantMsg { am_text : bytes; am_reasoning : option bytes }.
Record ToolCall := mkToolCall { tc_call_id : string; tc_name : string; tc_args : bytes }.
Record ToolResult := mkToolResult { tr_call_id : string; tr_ok : bool; tr_content : bytes }.
Record ToolTurn := mkToolTurn { tt_assistant : AssistantMsg; tt_calls : list (ToolCall * ToolResult) }.

Inductive Turn :=
| TUser (u : UserMsg)
| TAssistant (a : AssistantMsg)
| TTool (t : ToolTurn).

Record Conversation := mkConversation { cv_system : bytes; cv_turns : list Turn }.

#[export] Instance eta_Conversation : Eta Conversation := λ c, mkConversation (cv_system c) (cv_turns c).

Definition push_turn (t : Turn) (c : Conversation) : Conversation := c <| cv_turns := cv_turns c ++ [t] |>.
Definition push_user (u : UserMsg) : Conversation → Conversation := push_turn (TUser u).
Definition push_assistant (a : AssistantMsg) : Conversation → Conversation := push_turn (TAssistant a).

(** ** Wire messages *)

Record RequestMsg := mkRequestMsg {
  rm_role : string;
  rm_content : bytes;
  rm_tool_calls : list ToolCall;
  rm_tool_call_id : option string;
  rm_cache_breakpoint : bool;
  rm_images : list (string * string)
}.

#[export] Instance eta_RequestMsg : Eta RequestMsg := λ m,
  mkRequestMsg (rm_role m) (rm_content m) (rm_tool_calls m) (rm_tool_call_id m) (rm_cache_breakpoint m) (rm_images m).

Definition msg (role : string) (content : bytes) : RequestMsg := mkRequestMsg role content [] None false [].

Definition tool_msg (id : string) (content : bytes) : RequestMsg := mkRequestMsg "tool" content [] (Some id) false [].

(** The messages of one turn. *)
Definition turn_messages (t : Turn) : list RequestMsg :=
  match t with
  | TUser u => [msg "user" (um_text u)]
  | TAssistant a => [msg "assistant" (am_text a)]
  | TTool t =>
      (msg "assistant" (am_text (tt_assistant t))) <| rm_tool_calls := (tt_calls t).*1 |>
        :: ((λ cr, tool_msg (tr_call_id cr.2) (tr_content cr.2)) <$> tt_calls t)
  end.

(** ** The repair of a sequence *)

Definition MISSING_RESULT : bytes := string_bytes "[tool result unavailable: the call did not complete]".

(** [content.trim().is_empty()]. *)
Definition blank (b : bytes) : bool := match trim b with [] => true | _ => false end.

Definition is_role (r : string) (m : RequestMsg) : bool := bool_decide (rm_role m = r).

(** (1): everything before the first user message goes, when there is one. *)
Definition trim_leading (l : list RequestMsg) : list RequestMsg :=
  match list_find (λ m, rm_role m = "user") l with
  | Some (i, _) => drop i l
  | None => l
  end.

Definition coerce_result (m : RequestMsg) : RequestMsg :=
  if blank (rm_content m) then m <| rm_content := MISSING_RESULT |> else m.

(** The run of results after an assistant's calls: the kept ones, the answered ids
    and what follows the run. *)
Fixpoint reconcile (expected answered : list string) (l : list RequestMsg)
    : list RequestMsg * list string * list RequestMsg :=
  match l with
  | m :: l' =>
      if is_role "tool" m then
        let id := default EmptyString (rm_tool_call_id m) in
        if bool_decide (id ∈ expected) && negb (bool_decide (id ∈ answered)) then
          let '(kept, answered', rest) := reconcile expected (answered ++ [id]) l' in
          (coerce_result m :: kept, answered', rest)
        else reconcile expected answered l'
      else ([], answered, l)
  | [] => ([], answered, [])
  end.

Definition backfill (expected answered : list string) : list RequestMsg :=
  (λ id, tool_msg id MISSING_RESULT) <$> List.filter (λ id, negb (bool_decide (id ∈ answered))) expected.

Definition plain_user (m : RequestMsg) : bool := is_role "user" m && bool_decide (rm_images m = []).

(** (3) and (4): a plain message. *)
Definition push_plain (m : RequestMsg) (out : list RequestMsg) : list RequestMsg :=
  if blank (rm_content m) then out
  else
    match last out with
    | Some prev =>
        if plain_user m && plain_user prev then
          removelast out ++ [prev <| rm_content :=
            match rm_content prev with [] => rm_content m | _ => rm_content prev ++ blank_line ++ rm_content m end |>]
        else out ++ [m]
    | None => out ++ [m]
    end.

(** The main loop; the fuel is the number of messages left. *)
Fixpoint repair_loop (fuel : nat) (l out : list RequestMsg) : list RequestMsg :=
  match fuel, l with
  | S fuel', m :: l' =>
      if is_role "assistant" m && negb (bool_decide (rm_tool_calls m = [])) then
        let expected := tc_call_id <$> rm_tool_calls m in
        let '(kept, answered, rest) := reconcile expected [] l' in
        repair_loop fuel' rest (out ++ [m] ++ kept ++ backfill expected answered)
      else if is_role "tool" m then repair_loop fuel' l' out
      else if is_role "assistant" m || is_role "user" m then repair_loop fuel' l' (push_plain m out)
      else repair_loop fuel' l' (out ++ [m])
  | _, _ => out
  end.

Definition repair_message_sequence (messages : list RequestMsg) : list RequestMsg :=
  let l := trim_leading messages in repair_loop (length l) l [].

(** ** The request *)

Record ToolDef := mkToolDef { td_name : string; td_schema : string }.
Inductive CacheTtl := FiveMin | OneHour.

#[export] Instance ToolCall_eq_dec : EqDecision ToolCall.
Proof. solve_decision. Defined.

(** The constraint, the sampling parameters and the task label stay at their
    defaults in a turn of the engine. *)
Record Request := mkRequest {
  rq_system : bytes;
  rq_messages : list RequestMsg;
  rq_tools : list ToolDef;
  rq_auth : option string;
  rq_cache_system : bool;
  rq_cache_ttl : CacheTtl
}.

#[export] Instance eta_Request : Eta Request := λ r,
  mkRequest (rq_system r) (rq_messages r) (rq_tools r) (rq_auth r) (rq_cache_system r) (rq_cache_ttl r).

Definition build_context (conv : Conversation) (tools : list ToolDef) : Request :=
  mkRequest (cv_system conv) (repair_message_sequence (cv_turns conv ≫= turn_messages)) tools None false FiveMin.

Definition mark_cache_breakpoints (req : Request) : Request :=
  let cache := negb (bool_decide (rq_system req = [])) in
  let remaining := (if cache then 3 else 4)%nat in
  let skip := (length (rq_messages req) - remaining)%nat in
  req <| rq_cache_system := cache |>
      <| rq_messages := take skip (rq_messages req) ++
           ((λ m, m <| rm_cache_breakpoint := true |>) <$> drop skip (rq_messages req)) |>.

(** *** The composed system prompt *)

Inductive SlotKind := Identity | Guidance | ContextFiles | SkillsIndex | MemoryBlock | UserProfile | Stamp.

#[export] Instance SlotKind_eq_dec : EqDecision SlotKind.
Proof. solve_decision. Defined.

Definition ORDER : list SlotKind := [Identity; Guidance; ContextFiles; SkillsIndex; MemoryBlock; UserProfile; Stamp].

Record Slot := mkSlot { sl_kind : SlotKind; sl_text : bytes }.

#[export] Instance Slot_eq_dec : EqDecision Slot.
Proof. solve_decision. Defined.

Definition ComposedPrompt : Type := list Slot.
Definition ComposedPromptBuilder : Type := list (SlotKind * bytes).

Definition nonempty (b : bytes) : bool := match b with [] => false | _ => true end.

(** [join] with a blank line. *)
Fixpoint join_blank (l : list bytes) : bytes :=
  match l with
  | [] => []
  | [x] => x
  | x :: l' => x ++ blank_line ++ join_blank l'
  end.

Definition composed_push (kind : SlotKind) (text : bytes) (b : ComposedPromptBuilder) : ComposedPromptBuilder :=
  if nonempty text then b ++ [(kind, text)] else b.

Definition slot_text (b : ComposedPromptBuilder) (kind : SlotKind) : bytes :=
  join_blank (List.filter (λ c, bool_decide (c.1 = kind)) b).*2.

Definition composed_build (b : ComposedPromptBuilder) : ComposedPrompt :=
  ORDER ≫= λ kind, if nonempty (slot_text b kind) then [mkSlot kind (slot_text b kind)] else [].

Definition composed_render (p : ComposedPrompt) : bytes :=
  foldl (λ out s, if nonempty (sl_text s) then (if nonempty out then out ++ blank_line else out) ++ sl_text s else out)
    [] p.

(** *** The injection of a turn *)

Record TurnInjection := mkTurnInjection { ti_recalled : list bytes; ti_nudges : list bytes }.

Definition injection_is_empty (i : TurnInjection) : bool :=
  forallb (λ b, negb (nonempty b)) (ti_recalled i) && forallb (λ b, negb (nonempty b)) (ti_nudges i).

Definition injection_render (i : TurnInjection) : bytes := join_blank (List.filter nonempty (ti_recalled i ++ ti_nudges i)).

(** The last message of a role is changed in place. *)
Fixpoint update_last_user (f : RequestMsg → RequestMsg) (l : list RequestMsg) : list RequestMsg :=
  match l with
  | [] => []
  | m :: l' =>
      if is_role "user" m && negb (existsb (is_role "user") l') then f m :: l'
      else m :: update_last_user f l'
  end.

Definition apply_to_last_user (i : TurnInjection) (req : Request) : Request :=
  if injection_is_empty i then req
  else req <| rq_messages := update_last_user (λ m, m <| rm_content :=
         (if nonempty (rm_content m) then rm_content m ++ blank_line else rm_content m) ++ injection_render i |>)
       (rq_messages req) |>.

(** ** The token estimate and the default compaction *)

Definition blen (b : bytes) : N := N.of_nat (length b).
Definition slen (s : string) : N := N.of_nat (String.length s).
Definition OVERHEAD : N := 16.

Definition estimate_turn_chars (t : Turn) : N :=
  match t with
  | TUser u => blen (um_text u) + OVERHEAD
  | TAssistant a => blen (am_text a) + default 0 (blen <$> am_reasoning a) + OVERHEAD
  | TTool t =>
      foldl (λ n cr, n + (slen (tc_name cr.1) + blen (tc_args cr.1) + blen (tr_content cr.2) + OVERHEAD))
        (blen (am_text (tt_assistant t)) + OVERHEAD) (tt_calls t)
  end.

Definition estimate_tokens (c : Conversation) : N :=
  foldl (λ n t, n + estimate_turn_chars t) (blen (cv_system c)) (cv_turns c) / 4.

Record Pressure := mkPressure { pr_used_tokens : N; pr_budget_tokens : option N }.

Definition over_budget (p : Pressure) : bool :=
  match pr_budget_tokens p with Some b => b <? pr_used_tokens p | None => false end.

(** [plan_drop]: turns before the last are dropped while the estimate is over. *)
Fixpoint plan_drop_loop (budget : N) (turns : list Turn) (dropped : nat) (used : N) : nat * N :=
  match turns with
  | [] => (dropped, used)
  | t :: rest =>
      match rest with
      | [] => (dropped, used)
      | _ :: _ =>
          if budget <? used then plan_drop_loop budget rest (S dropped) (used - estimate_turn_chars t / 4)
          else (dropped, used)
      end
  end.

Definition plan_drop (c : Conversation) (budget : N) : nat * N :=
  plan_drop_loop budget (cv_turns c) 0 (estimate_tokens c).

Definition thrashes (used_before : N) (plan : nat * N) : bool :=
  (plan.1 =? 0)%nat || ((used_before - plan.2) * 10 <? used_before).

Definition drop_oldest (c : Conversation) (budget : N) : Conversation :=
  let plan := plan_drop c budget in
  if thrashes (estimate_tokens c) plan then c else c <| cv_turns := drop plan.1 (cv_turns c) |>.

(** [ContextStrategy::Summarize] with the auxiliary provider's answer to the
    dropped prefix; [None] for a failure. *)
Definition compact_summarize (aux : list Turn → option bytes) (c : Conversation) (budget : N) : Conversation :=
  let plan := plan_drop c budget in
  if thrashes (estimate_tokens c) plan then c
  else
    match aux (take plan.1 (cv_turns c)) with
    | Some (b :: text) =>
        c <| cv_turns := TAssistant (mkAssistantMsg (string_bytes "[summary of " ++ decimal (N.of_nat plan.1) ++
               string_bytes " earlier turns]
" ++ b :: text) None) :: drop plan.1 (cv_turns c) |>
    | _ => drop_oldest c budget
    end.
