(* ===== verification/CoreWire.v ===== *)
(** * The repaired message sequence and the compacted conversation

    What [repair_message_sequence] promises a provider (every call answered, no
    blank message, no two user messages in a row), that it loses no user input, and
    that the sequences it leaves alone are exactly the well-formed ones; what the
    default compaction keeps. *)

From S2P Require Import Prelude Text Common CoreConversation.
#[local] Open Scope N_scope.

(** ** Well-formed sequences *)

Definition result_id (m : RequestMsg) : string := default EmptyString (rm_tool_call_id m).
Definition call_ids (m : RequestMsg) : list string := tc_call_id <$> rm_tool_calls m.
Definition has_calls (m : RequestMsg) : bool := is_role "assistant" m && negb (bool_decide (rm_tool_calls m = [])).

Definition speaks (m : RequestMsg) : bool := is_role "assistant" m || is_role "user" m.

(** A message on its own: no result, no calls, not blank if it is spoken. *)
Definition plain_ok (m : RequestMsg) : Prop :=
  is_role "tool" m = false ∧ has_calls m = false ∧ (speaks m = true → blank (rm_content m) = false).

Definition answer_ok (m : RequestMsg) : Prop := is_role "tool" m = true ∧ blank (rm_content m) = false.

(** An assistant's calls followed by their results. *)
Record exchange_ok (m : RequestMsg) (results : list RequestMsg) : Prop := {
  ex_calls : has_calls m = true;
  ex_answers : Forall answer_ok results;
  ex_once : NoDup (call_ids m) → NoDup (result_id <$> results);
  ex_all : ∀ id, id ∈ (result_id <$> results) ↔ id ∈ call_ids m
}.

Inductive segment : list RequestMsg → Prop :=
| seg_plain m : plain_ok m → segment [m]
| seg_exchange m results : exchange_ok m results → segment (m :: results).

Definition paired (l : list RequestMsg) : Prop := ∃ segs, l = concat segs ∧ Forall segment segs.

Definition apart (a b : RequestMsg) : Prop := plain_user a && plain_user b = false.

Fixpoint alternates (l : list RequestMsg) : Prop :=
  match l with
  | a :: l' => match l' with b :: _ => apart a b | [] => True end ∧ alternates l'
  | [] => True
  end.

Definition opens_with_user (l : list RequestMsg) : Prop := trim_leading l = l.

Definition well_formed (l : list RequestMsg) : Prop := paired l ∧ alternates l ∧ opens_with_user l.

Definition distinct_calls (l : list RequestMsg) : Prop := Forall (λ m, NoDup (call_ids m)) l.

(** What the users said. *)
Definition user_texts (l : list RequestMsg) : list bytes := rm_content <$> List.filter (is_role "user") l.

(** ** Roles *)

Lemma is_role_true r m : is_role r m = true ↔ rm_role m = r.
Proof. apply bool_decide_eq_true. Qed.
Lemma is_role_other r r' m : rm_role m = r → r ≠ r' → is_role r' m = false.
Proof. intros H ?. apply bool_decide_eq_false. congruence. Qed.

Lemma role_excl r r' m : is_role r m = true → r ≠ r' → is_role r' m = false.
Proof. intros H%is_role_true. by apply is_role_other. Qed.

Lemma plain_user_role m : plain_user m = true → is_role "user" m = true.
Proof. by intros [H _]%andb_true_iff. Qed.

Lemma apart_l a b : is_role "user" a = false → apart a b.
Proof. unfold apart, plain_user. by intros ->. Qed.
Lemma apart_r a b : is_role "user" b = false → apart a b.
Proof. unfold apart, plain_user. intros ->. by rewrite andb_false_r. Qed.

Lemma has_calls_role m : has_calls m = true → is_role "assistant" m = true ∧ rm_tool_calls m ≠ [].
Proof. intros [H H']%andb_true_iff. split; [done|]. by apply negb_true_iff, bool_decide_eq_false in H'. Qed.

Lemma blank_nil : blank [] = true.
Proof. done. Qed.

Lemma coerce_ok m : is_role "tool" m = true → answer_ok (coerce_result m).
Proof. intros H. unfold coerce_result. destruct (blank (rm_content m)) eqn:Hb; split; done. Qed.

Lemma coerce_id m : result_id (coerce_result m) = result_id m.
Proof. unfold coerce_result. by destruct (blank (rm_content m)). Qed.

(** ** The reconciliation of one run of results *)

Lemma reconcile_spec expected answered l kept ans rest :
  reconcile expected answered l = (kept, ans, rest) →
  ans = answered ++ (result_id <$> kept) ∧ Forall answer_ok kept ∧
  (NoDup answered → NoDup ans) ∧ (∀ id, id ∈ (result_id <$> kept) → id ∈ expected) ∧
  ∃ run, l = run ++ rest ∧ Forall (λ m, is_role "tool" m = true) run.
Proof.
  revert answered kept ans. induction l as [|m l IH]; intros answered kept ans; cbn [reconcile].
  - intros [= <- <- <-]. rewrite app_nil_r. repeat split; [done|auto|by intros id ?%elem_of_nil|by exists []].
  - destruct (is_role "tool" m) eqn:Hr.
    2:{ intros [= <- <- <-]. rewrite app_nil_r. repeat split; [done|auto|by intros id ?%elem_of_nil|by exists []]. }
    fold (result_id m).
    destruct (bool_decide _ && _) eqn:Hc.
    + destruct (reconcile expected (answered ++ [result_id m]) l) as [[k a] r] eqn:Hl. intros [= <- <- <-].
      apply andb_true_iff in Hc as [He%bool_decide_eq_true Ha%negb_true_iff%bool_decide_eq_false].
      destruct (IH _ _ _ Hl) as (-> & Hk & Hn & Hs & run & -> & Hrun).
      rewrite fmap_cons, coerce_id, <- app_assoc. repeat split.
      * constructor; [by apply coerce_ok|done].
      * intros Hnd. rewrite <- app_assoc in Hn. apply Hn, NoDup_app. repeat split; [done| |apply NoDup_singleton].
        intros x Hx ->%list_elem_of_singleton. done.
      * intros id [->|H]%elem_of_cons; [done|by apply Hs].
      * exists (m :: run). split; [done|by constructor].
    + intros Hl. destruct (IH _ _ _ Hl) as (-> & Hk & Hn & Hs & run & -> & Hrun). repeat split; try done.
      exists (m :: run). split; [done|by constructor].
Qed.

Lemma reconcile_shorter expected answered l kept ans rest :
  reconcile expected answered l = (kept, ans, rest) → (length rest <= length l)%nat.
Proof. intros (_ & _ & _ & _ & run & -> & _)%reconcile_spec. rewrite length_app. lia. Qed.

Lemma backfill_ids expected ans :
  result_id <$> backfill expected ans = List.filter (λ id, negb (bool_decide (id ∈ ans))) expected.
Proof. unfold backfill. rewrite <- list_fmap_compose. apply list_fmap_id. Qed.

Lemma NoDup_List_filter {A} (f : A → bool) l : NoDup l → NoDup (List.filter f l).
Proof. intros H. apply NoDup_ListNoDup, List.NoDup_filter, NoDup_ListNoDup, H. Qed.

(** The reconciled run with its fillers answers every call. *)
Lemma exchange_repaired m l kept ans rest :
  has_calls m = true → reconcile (call_ids m) [] l = (kept, ans, rest) →
  exchange_ok m (kept ++ backfill (call_ids m) ans).
Proof.
  intros Hc Hl. destruct (reconcile_spec _ _ _ _ _ _ Hl) as (-> & Hk & Hn & Hs & _). cbn [app] in *.
  assert (∀ id, id ∈ List.filter (λ i, negb (bool_decide (i ∈ result_id <$> kept))) (call_ids m) ↔
                id ∈ call_ids m ∧ id ∉ (result_id <$> kept)) as Hf.
  { intros id. rewrite !list_elem_of_In, filter_In, negb_true_iff, bool_decide_eq_false. by rewrite list_elem_of_In. }
  split; [done|..].
  - apply Forall_app. split; [done|]. unfold backfill. apply Forall_fmap, Forall_forall. intros id _. by split.
  - intros Hd. rewrite fmap_app, backfill_ids. apply NoDup_app. repeat split; [apply Hn; constructor| |by apply NoDup_List_filter].
    intros id H [_ H']%Hf. done.
  - intros id. rewrite fmap_app, backfill_ids, elem_of_app, Hf. split; [intros [H|[H _]]; auto|].
    intros H. destruct (decide (id ∈ (result_id <$> kept))); auto.
Qed.

(** ** Segments *)

Lemma paired_app a b : paired a → paired b → paired (a ++ b).
Proof. intros (sa & -> & Ha) (sb & -> & Hb). exists (sa ++ sb). rewrite concat_app. split; [done|by apply Forall_app]. Qed.

Lemma paired_segment s : segment s → paired s.
Proof. intros H. exists [s]. cbn. rewrite app_nil_r. split; [done|by constructor]. Qed.

Lemma exchange_last m results : exchange_ok m results → ∃ x, last (m :: results) = Some x ∧ is_role "tool" x = true.
Proof.
  intros [Hc Ha _ Hall]. destruct results as [|r rs].
  - exfalso. apply has_calls_role in Hc as [_ Hc]. unfold call_ids in Hall. destruct (rm_tool_calls m) as [|c cs]; [done|].
    cbn in Hall. specialize (proj2 (Hall (tc_call_id c)) (list_elem_of_here _ _)). apply not_elem_of_nil.
  - destruct (last (r :: rs)) as [x|] eqn:Hx; [|by apply last_None in Hx]. exists x. split; [done|].
    apply last_Some_elem_of in Hx. rewrite Forall_forall in Ha. by destruct (Ha x Hx).
Qed.

(** A user message at the end is a segment of its own. *)
Lemma paired_user_last l u : paired l → last l = Some u → is_role "user" u = true →
  paired (removelast l) ∧ l = removelast l ++ [u] ∧ plain_ok u.
Proof.
  intros (segs & -> & Hs) Hl Hu. induction segs as [|s segs _] using rev_ind; [done|].
  apply Forall_app in Hs as [Hs Hx]. apply Forall_cons_1 in Hx as [Hx _]. rewrite concat_app in *. cbn in *. rewrite app_nil_r in *.
  destruct Hx as [m Hm|m rs Hm].
  - rewrite last_snoc in Hl. injection Hl as ->. rewrite removelast_last. repeat split; try apply Hm. by exists segs.
  - exfalso. destruct (exchange_last _ _ Hm) as (x & Hx & Hr). rewrite last_app, Hx in Hl. injection Hl as ->.
    by rewrite (role_excl _ "user" _ Hr) in Hu.
Qed.

Lemma alternates_snoc l m : alternates l → (∀ u, last l = Some u → apart u m) → alternates (l ++ [m]).
Proof.
  induction l as [|a l IH]; [done|]. intros [Ha Hl] Hm. destruct l as [|b l]; [split; [by apply Hm|done]|].
  split; [done|]. apply IH; [done|]. intros u Hu. apply Hm. by rewrite last_cons_cons.
Qed.

Lemma alternates_app_tools l rs : alternates l → Forall (λ m, is_role "user" m = false) rs → alternates (l ++ rs).
Proof.
  intros Hl Hr. revert l Hl. induction Hr as [|m rs Hm _ IH]; intros l Hl; [by rewrite app_nil_r|].
  rewrite cons_middle, app_assoc. apply IH, alternates_snoc; [done|]. intros u _. by apply apart_r.
Qed.

Lemma alternates_removelast l m : alternates (l ++ [m]) → alternates l ∧ (∀ u, last l = Some u → apart u m).
Proof.
  induction l as [|a l IH]; [done|]. cbn [app alternates]. intros [Ha Hl]. specialize (IH Hl) as [IH1 IH2].
  destruct l as [|b l]; cbn [app] in *; [split; [done|]; by intros u [= <-]|].
  split; [by split|]. intros u. rewrite last_cons_cons. apply IH2.
Qed.

(** ** One plain message *)

Lemma push_plain_fresh m out :
  blank (rm_content m) = false → (∀ u, last out = Some u → apart u m) → push_plain m out = out ++ [m].
Proof.
  intros Hb Ha. unfold push_plain. rewrite Hb. destruct (last out) as [u|]; [|done].
  specialize (Ha u eq_refl). unfold apart in Ha. rewrite andb_comm in Ha. by rewrite Ha.
Qed.

(** The three ways a plain message is taken. *)
Lemma push_plain_cases m out : speaks m = true → has_calls m = false → paired out →
  (blank (rm_content m) = true ∧ push_plain m out = out) ∨
  (blank (rm_content m) = false ∧ plain_ok m ∧ (∀ u, last out = Some u → apart u m) ∧ push_plain m out = out ++ [m]) ∨
  (∃ pre u, out = pre ++ [u] ∧ paired pre ∧ plain_ok u ∧ blank (rm_content m) = false ∧ plain_user u = true ∧
     plain_user m = true ∧
     push_plain m out = pre ++ [u <| rm_content := rm_content u ++ blank_line ++ rm_content m |>]).
Proof.
  intros Hs Hc Hp. destruct (blank (rm_content m)) eqn:Hb; [left; split; [done|]; unfold push_plain; by rewrite Hb|].
  right. assert (plain_ok m) as Hm.
  { repeat split; [|done|done]. apply orb_true_iff in Hs as [H|H]; by apply (role_excl _ "tool" _ H). }
  destruct (last out) as [u|] eqn:Hl.
  2:{ left. assert (∀ u, last out = Some u → apart u m) by (intros u; by rewrite Hl). repeat split; try apply Hm; try done.
      by apply push_plain_fresh. }
  destruct (plain_user u && plain_user m) eqn:Hu.
  - right. apply andb_true_iff in Hu as [Hu Hu'].
    destruct (paired_user_last _ _ Hp Hl (plain_user_role _ Hu)) as (Hpre & Hout & Hok).
    exists (removelast out), u. repeat split; try done; try apply Hok. unfold push_plain. rewrite Hb, Hl, Hu, Hu'. cbn [andb].
    destruct Hok as (_ & _ & Hok). destruct (rm_content u) as [|b t] eqn:Hcu; [|done].
    exfalso. rewrite blank_nil in Hok. assert (speaks u = true) as H; [|by specialize (Hok H)].
    unfold speaks. rewrite (plain_user_role _ Hu). apply orb_true_r.
  - left. assert (∀ v, last out = Some v → apart v m) as Ha by (intros v [= <-]%(eq_trans (eq_sym Hl)); done).
    split; [done|]. split; [done|]. split; [|by apply push_plain_fresh]. intros v. rewrite <- Hl. apply Ha.
Qed.

(** ** Blank texts

    A text is blank when it is a sequence of white-space characters; appending after a
    line break cannot make a text blank, whatever the bytes. *)

Definition spaces (l : bytes) : Prop := ∃ xs, Forall (.∈ white_space) xs ∧ l = concat xs.

Lemma drop_all_concat ws fuel l : ∃ xs, Forall (.∈ ws) xs ∧ l = concat xs ++ drop_all ws fuel l.
Proof.
  revert l. induction fuel as [|fuel IH]; intros l; cbn [drop_all]; [by exists []|].
  destruct (drop_one ws l) as [k|] eqn:E; [|by exists []].
  apply drop_one_Some in E as (w & Hw & ->). destruct (IH k) as (xs & Hxs & Hk).
  exists (w :: xs). split; [by constructor|]. cbn. by rewrite <- app_assoc, <- Hk.
Qed.

Lemma blank_spaces_1 l : blank l = true → spaces l.
Proof.
  unfold blank. destruct (trim l) as [|] eqn:Ht; [|done]. intros _.
  destruct (drop_all_concat white_space (length l) l) as (xs & Hxs & Hl). fold (trim_start l) in Hl.
  unfold trim, trim_end in Ht. apply (f_equal (@rev _)) in Ht. rewrite rev_involutive in Ht. change (rev (@nil Byte.byte)) with (@nil Byte.byte) in Ht.
  destruct (drop_all_concat (@rev _ <$> white_space) (length (trim_start l)) (rev (trim_start l))) as (ys & Hys & Hy).
  rewrite Ht, app_nil_r in Hy. apply (f_equal (@rev _)) in Hy. rewrite rev_involutive in Hy.
  assert (∃ zs, Forall (.∈ white_space) zs ∧ rev (concat ys) = concat zs) as (zs & Hzs & Hz).
  { clear Hy. induction Hys as [|y ys Hin _ (zs & Hzs & Hz)]; [by exists []|].
    apply list_elem_of_fmap in Hin as (w & -> & Hw). exists (zs ++ [w]). split; [by apply Forall_app; split; [|constructor]|].
    cbn. by rewrite rev_app_distr, rev_involutive, Hz, concat_app; cbn; rewrite app_nil_r. }
  exists (xs ++ zs). split; [by apply Forall_app|]. by rewrite concat_app, <- Hz, <- Hy, <- Hl.
Qed.

(** The encodings form a prefix code. *)
Lemma white_space_prefix_free w w' : w ∈ white_space → w' ∈ white_space → (∃ k, strip_prefix w w' = Some k) → w = w'.
Proof.
  assert (forallb (λ w, forallb (λ w', match strip_prefix w w' with Some _ => bool_decide (w = w') | None => true end)
            white_space) white_space = true) as H by (vm_compute; reflexivity).
  intros Hw Hw' [k Hk]. rewrite forallb_forall in H. apply list_elem_of_In in Hw, Hw'. specialize (H w Hw).
  rewrite forallb_forall in H. specialize (H w' Hw'). rewrite Hk in H. by apply bool_decide_eq_true in H.
Qed.

Lemma app_split {A} (a b c d : list A) : a ++ b = c ++ d →
  (∃ k, a = c ++ k ∧ d = k ++ b) ∨ (∃ k, c = a ++ k ∧ b = k ++ d).
Proof.
  revert c. induction a as [|x a IH]; intros c; [cbn; intros ->; right; by exists c|].
  destruct c as [|y c]; cbn; [intros <-; left; by exists (x :: a)|].
  intros [= -> H]. destruct (IH c H) as [(k & -> & ->)|(k & -> & ->)]; [left|right]; by exists k.
Qed.

Lemma drop_one_space w l : w ∈ white_space → drop_one white_space (w ++ l) = Some l.
Proof.
  intros Hw. destruct (drop_one white_space (w ++ l)) as [k|] eqn:E.
  - apply drop_one_Some in E as (w' & Hw' & Heq).
    enough (w = w') as -> by (apply app_inv_head in Heq; by subst). destruct (app_split _ _ _ _ Heq) as [(k' & -> & _)|(k' & -> & _)].
    + symmetry. apply white_space_prefix_free; [done..|]. exists k'. apply strip_prefix_app.
    + apply white_space_prefix_free; [done..|]. exists k'. apply strip_prefix_app.
  - exfalso. apply drop_one_None in E. rewrite Forall_forall in E. specialize (E w Hw). by rewrite strip_prefix_app in E.
Qed.

Lemma blank_spaces_2 l : spaces l → blank l = true.
Proof.
  intros (xs & Hxs & ->). unfold blank, trim. enough (trim_start (concat xs) = []) as -> by done. unfold trim_start.
  generalize (le_n (length (concat xs))). generalize (length (concat xs)) at 2 3 as n.
  induction Hxs as [|w xs Hw _ IH]; intros n Hn; [by destruct n|].
  pose proof white_space_nonempty as Hne. rewrite Forall_forall in Hne. specialize (Hne w Hw).
  cbn [concat] in *. rewrite length_app in Hn. destruct w as [|b w]; [done|]. destruct n as [|n]; [cbn in Hn; lia|].
  cbn [drop_all]. rewrite drop_one_space by done. apply IH. cbn in Hn. lia.
Qed.

Lemma blank_app_line a b : blank (a ++ blank_line ++ b) = true → blank a = true.
Proof.
  intros (xs & Hxs & H)%blank_spaces_1. apply blank_spaces_2. revert a H.
  induction Hxs as [|w xs Hw _ IH]; intros a H; [by destruct a|].
  destruct a as [|c a]; [by exists []|]. cbn [concat] in H.
  assert (forallb (λ w, negb (existsb (λ x, bool_decide (x = Byte.x0a)) (tail w))) white_space = true) as Hn by (vm_compute; reflexivity).
  destruct (app_split _ _ _ _ H) as [(k & Hk & Hd)|(k & Hk & Hd)].
  - rewrite Hk. destruct (IH k) as (ys & Hys & ->); [by rewrite Hd|]. exists (w :: ys). by split; [constructor|].
  - destruct k as [|d k]; [rewrite app_nil_r in Hk; exists [w]; split; [by apply Forall_singleton|by rewrite Hk; cbn; rewrite app_nil_r]|].
    exfalso. rewrite forallb_forall in Hn. apply list_elem_of_In in Hw. specialize (Hn w Hw). rewrite Hk in Hn.
    cbn in Hd. injection Hd as <- _. cbn in Hn. rewrite existsb_app in Hn. cbn in Hn. by rewrite orb_true_r in Hn.
Qed.

(** ** The whole loop *)

Definition tidy (out : list RequestMsg) : Prop := paired out ∧ alternates out.

Lemma tidy_exchange out m rs : tidy out → exchange_ok m rs → tidy (out ++ m :: rs).
Proof.
  intros [Hp Ha] Hx. split; [by apply paired_app, paired_segment, seg_exchange|].
  apply alternates_app_tools; [done|]. constructor.
  - apply (role_excl "assistant"); [by apply has_calls_role, (ex_calls m rs)|done].
  - eapply Forall_impl; [apply (ex_answers m rs Hx)|]. intros r [Hr _]. by apply (role_excl _ _ _ Hr).
Qed.

Lemma tidy_snoc out m : tidy out → plain_ok m → (∀ u, last out = Some u → apart u m) → tidy (out ++ [m]).
Proof. intros [Hp Ha] Hm Hu. split; [by apply paired_app, paired_segment, seg_plain|by apply alternates_snoc]. Qed.

(** What the users said that is not blank. *)
Definition said (l : list RequestMsg) : list bytes := List.filter (λ t, negb (blank t)) (user_texts l).

Lemma user_texts_app a b : user_texts (a ++ b) = user_texts a ++ user_texts b.
Proof. unfold user_texts. by rewrite List.filter_app, fmap_app. Qed.

Lemma said_app a b : said (a ++ b) = said a ++ said b.
Proof. unfold said. by rewrite user_texts_app, List.filter_app. Qed.

Lemma user_texts_none l : Forall (λ m, is_role "user" m = false) l → user_texts l = [].
Proof. unfold user_texts. induction 1 as [|m l Hm _ IH]; [done|]. cbn. by rewrite Hm. Qed.

Lemma join_merge xs a b : join_blank (xs ++ [a ++ blank_line ++ b]) = join_blank (xs ++ [a; b]).
Proof.
  induction xs as [|x xs IH]; [done|]. cbn [app]. destruct xs as [|y xs]; [done|].
  cbn [app join_blank] in *. by rewrite IH.
Qed.

Lemma join_app_congr xs ys zs : join_blank xs = join_blank ys → length xs = 0%nat ∧ length ys = 0%nat ∨ xs ≠ [] ∧ ys ≠ [] →
  join_blank (xs ++ zs) = join_blank (ys ++ zs).
Proof.
  assert (∀ l l', l ≠ [] → l' ≠ [] → join_blank (l ++ l') = join_blank l ++ blank_line ++ join_blank l') as J.
  { induction l as [|x l IH]; [done|]. intros l' _ Hl'. destruct l as [|y l]; [by destruct l'|].
    cbn [app] in *. change (join_blank (x :: y :: l ++ l')) with (x ++ blank_line ++ join_blank (y :: l ++ l')).
    rewrite IH by done. cbn [join_blank]. by rewrite <- !app_assoc. }
  intros H [[Hx%length_zero_iff_nil Hy%length_zero_iff_nil]|[Hx Hy]]; [by subst|].
  destruct zs as [|z zs]; [by rewrite !app_nil_r|]. by rewrite !J, H.
Qed.

(** The same words, and both or neither silent. *)
Definition same_words (xs ys : list bytes) : Prop :=
  join_blank xs = join_blank ys ∧ (xs = [] ↔ ys = []).

#[export] Instance same_words_equiv : Equivalence same_words.
Proof. split; unfold same_words; [by intros x|by intros x y [-> ->]|intros x y z [-> ->] [-> ->]; done]. Qed.

Lemma same_words_app xs ys zs : same_words xs ys → same_words (xs ++ zs) (ys ++ zs).
Proof.
  intros [H Hn]. split.
  - apply join_app_congr; [done|]. destruct xs, ys; cbn; [by left|by destruct Hn as [Hn _]; specialize (Hn eq_refl)|by destruct Hn as [_ Hn]; specialize (Hn eq_refl)|by right].
  - rewrite !app_nil. tauto.
Qed.

(** One plain message keeps the sequence tidy and the words. *)
Lemma push_plain_ok m out : tidy out → speaks m = true → has_calls m = false →
  tidy (push_plain m out) ∧ same_words (user_texts (push_plain m out)) (user_texts out ++ said [m]).
Proof.
  intros [Hp Ha] Hs Hc. unfold said.
  destruct (push_plain_cases m out Hs Hc Hp) as [[Hb ->]|[(Hb & Hm & Hu & ->)|(pre & u & -> & Hpre & Hu & Hb & Hpu & Hpm & ->)]].
  - split; [done|]. unfold user_texts. cbn. destruct (is_role "user" m); cbn; [rewrite Hb; cbn|]; by rewrite app_nil_r.
  - split; [by apply tidy_snoc|]. rewrite user_texts_app. unfold user_texts. cbn. destruct (is_role "user" m); cbn; [by rewrite Hb|done].
  - apply alternates_removelast in Ha as [Ha Hl]. set (u' := u <| rm_content := _ |>).
    split.
    + apply tidy_snoc; [done| |done]. destruct Hu as (Hu1 & Hu2 & Hu3). repeat split; [done|done|]. intros Hsp.
      destruct (blank (rm_content u')) eqn:Hbl; [|done]. apply blank_app_line in Hbl. by rewrite Hu3 in Hbl.
    + rewrite !user_texts_app. unfold user_texts at 2 4 5. cbn.
      change (is_role "user" u') with (is_role "user" u). rewrite !plain_user_role by done. cbn. rewrite Hb. cbn.
      rewrite <- app_assoc. split; [apply join_merge|]. by destruct (user_texts pre).
Qed.

Lemma answers_silent rs : Forall answer_ok rs → user_texts rs = [].
Proof. intros H. apply user_texts_none. eapply Forall_impl; [exact H|]. intros r [Hr _]. by apply (role_excl _ _ _ Hr). Qed.

(** The loop, with fuel for every message. *)
Lemma repair_loop_ok fuel l out : (length l <= fuel)%nat → tidy out →
  tidy (repair_loop fuel l out) ∧ same_words (user_texts (repair_loop fuel l out)) (user_texts out ++ said l).
Proof.
  revert l out. induction fuel as [|fuel IH]; intros l out Hf Ht.
  { destruct l; [|cbn in Hf; lia]. cbn. by rewrite app_nil_r. }
  destruct l as [|m l]; cbn [repair_loop]; [by rewrite app_nil_r|]. cbn [length] in Hf.
  change (m :: l) with ([m] ++ l). rewrite said_app, app_assoc. fold (has_calls m).
  destruct (has_calls m) eqn:Hc.
  - destruct (reconcile (tc_call_id <$> rm_tool_calls m) [] l) as [[kept ans] rest] eqn:Hl.
    pose proof (exchange_repaired _ _ _ _ _ Hc Hl) as Hx. pose proof (reconcile_shorter _ _ _ _ _ _ Hl) as Hlen.
    destruct (reconcile_spec _ _ _ _ _ _ Hl) as (_ & _ & _ & _ & run & -> & Hrun).
    destruct (IH rest (out ++ [m] ++ kept ++ backfill (call_ids m) ans)) as [H1 H2]; [lia|by apply tidy_exchange|].
    split; [done|]. etransitivity; [exact H2|]. pose proof (has_calls_role _ Hc) as [Hr _].
    assert (Forall (λ m, is_role "user" m = false) [m]) as Hm by (constructor; [by apply (role_excl _ _ _ Hr)|constructor]).
    assert (Forall (λ m, is_role "user" m = false) run) as Hr'.
    { eapply Forall_impl; [exact Hrun|]. intros r Hr'. by apply (role_excl _ _ _ Hr'). }
    rewrite said_app. unfold said at 2 3. rewrite !user_texts_app, (user_texts_none _ Hm), (user_texts_none _ Hr').
    cbn [List.filter app]. rewrite <- user_texts_app, (answers_silent _ (ex_answers _ _ Hx)). by rewrite !app_nil_r.
  - destruct (is_role "tool" m) eqn:Hr; [|fold (speaks m); destruct (speaks m) eqn:Hs].
    + destruct (IH l out) as [H1 H2]; [lia|done|]. split; [done|]. unfold said at 1. rewrite (user_texts_none [m]).
      * by rewrite app_nil_r.
      * constructor; [by apply (role_excl _ _ _ Hr)|constructor].
    + destruct (push_plain_ok m out Ht Hs Hc) as [Ht' Hw]. destruct (IH l _ ltac:(lia) Ht') as [H1 H2].
      split; [done|]. etransitivity; [exact H2|]. by apply same_words_app.
    + apply orb_false_iff in Hs as [Hs1 Hs2].
      destruct (IH l (out ++ [m])) as [H1 H2]; [lia| |].
      { apply tidy_snoc; [done| |intros u _; by apply apart_r]. repeat split; [done|done|].
        unfold speaks. by rewrite Hs1, Hs2. }
      split; [done|]. etransitivity; [exact H2|]. rewrite user_texts_app. unfold said at 2.
      by rewrite (user_texts_none [m]); [|constructor; [done|constructor]].
Qed.

(** ** The opening message *)

Definition user_first (l : list RequestMsg) : Prop := match l with m :: _ => is_role "user" m = true | [] => False end.

Lemma user_first_app l k : user_first l → user_first (l ++ k).
Proof. by destruct l. Qed.

Lemma user_first_opens l : user_first l → opens_with_user l.
Proof.
  destruct l as [|m l]; [done|]. intros H%is_role_true. unfold opens_with_user, trim_leading. cbn.
  by rewrite decide_True.
Qed.

Lemma push_plain_first m out : user_first out → user_first (push_plain m out).
Proof.
  intros H. unfold push_plain. destruct (blank (rm_content m)); [done|].
  destruct (last out) as [p|] eqn:Hl; [|by apply user_first_app].
  destruct (_ && _); [|by apply user_first_app].
  apply last_Some in Hl as [pre ->]. rewrite removelast_last. by destruct pre.
Qed.

Lemma repair_loop_first fuel l out : user_first out → user_first (repair_loop fuel l out).
Proof.
  revert l out. induction fuel as [|fuel IH]; intros l out H; [done|]. destruct l as [|m l]; [done|]. cbn [repair_loop].
  repeat case_match; try (apply IH); try done; first [by apply user_first_app|by apply push_plain_first].
Qed.

Lemma find_user_drop l i u : list_find (λ m, rm_role m = "user") l = Some (i, u) →
  drop i l = u :: drop (S i) l ∧ is_role "user" u = true ∧ Forall (λ m, is_role "user" m = false) (take i l).
Proof.
  intros (Hi & Hu & Hb)%list_find_Some. split; [by apply drop_S|]. split; [by apply is_role_true|].
  apply Forall_lookup. intros j m [Hj Hlt]%lookup_take_Some. apply bool_decide_eq_false. by apply (Hb j m).
Qed.

Lemma repair_opens l i u : list_find (λ m, rm_role m = "user") l = Some (i, u) → blank (rm_content u) = false →
  user_first (repair_message_sequence l).
Proof.
  intros Hf Hb. unfold repair_message_sequence, trim_leading. rewrite Hf.
  destruct (find_user_drop _ _ _ Hf) as (-> & Hu & _). cbn [length repair_loop].
  rewrite (role_excl _ "assistant" _ Hu), (role_excl _ "tool" _ Hu), Hu by done. cbn [andb orb].
  apply repair_loop_first. unfold push_plain. rewrite Hb. done.
Qed.

Lemma trim_leading_said l : said (trim_leading l) = said l.
Proof.
  unfold trim_leading. destruct (list_find _ l) as [[i u]|] eqn:Hf; [|done].
  destruct (find_user_drop _ _ _ Hf) as (_ & _ & Ht). rewrite <- (take_drop i l) at 2. rewrite said_app.
  unfold said at 2. by rewrite (user_texts_none _ Ht).
Qed.

Lemma repair_tidy l :
  tidy (repair_message_sequence l) ∧ same_words (user_texts (repair_message_sequence l)) (said l).
Proof.
  rewrite <- (trim_leading_said l). apply (repair_loop_ok _ _ []); [lia|]. split; [by exists []|done].
Qed.

(** C14. Whatever the flattened conversation, the sequence handed to a provider is a
    sequence of plain messages and of calls followed by their results: every call id is
    answered (once, when the ids of the message are distinct), no result stands without
    its call, no plain message and no result is blank, no two text-only user messages are
    adjacent, and the words of the users are those of the input, in order.  When the
    first user message is not blank the sequence opens with a user message. *)
Theorem repair_sound l :
  paired (repair_message_sequence l) ∧ alternates (repair_message_sequence l) ∧
  join_blank (user_texts (repair_message_sequence l)) = join_blank (said l) ∧
  (∀ i u, list_find (λ m, rm_role m = "user") l = Some (i, u) → blank (rm_content u) = false →
     user_first (repair_message_sequence l)).
Proof.
  destruct (repair_tidy l) as [[Hp Ha] [Hw _]]. split; [done|]. split; [done|]. split; [done|].
  intros i u. apply repair_opens.
Qed.

(** ** Well-formed sequences are left alone *)

Lemma coerce_clean m : blank (rm_content m) = false → coerce_result m = m.
Proof. unfold coerce_result. by intros ->. Qed.

Definition no_tool_first (l : list RequestMsg) : Prop := match l with m :: _ => is_role "tool" m = false | [] => True end.

Lemma reconcile_clean expected answered rs rest :
  Forall answer_ok rs → (∀ id, id ∈ (result_id <$> rs) → id ∈ expected) → NoDup (answered ++ (result_id <$> rs)) →
  no_tool_first rest → reconcile expected answered (rs ++ rest) = (rs, answered ++ (result_id <$> rs), rest).
Proof.
  intros Hok. revert answered. induction Hok as [|r rs [Hr Hb] _ IH]; intros answered Hin Hnd Hrest.
  { cbn. rewrite app_nil_r. destruct rest as [|m rest]; [done|]. cbn in *. by rewrite Hrest. }
  cbn [app reconcile fmap list_fmap] in *. rewrite Hr. fold (result_id r). rewrite bool_decide_true by (apply Hin; left).
  assert (result_id r ∉ answered) as Hna.
  { apply NoDup_app in Hnd as (_ & H & _). intros H'. apply (H _ H'). left. }
  rewrite bool_decide_false by done. cbn [negb andb].
  rewrite IH; [|by intros id Hid; apply Hin; right|by rewrite <- app_assoc|done].
  rewrite coerce_clean by done. by rewrite <- app_assoc.
Qed.

Lemma segment_no_tool_first s : segment s → no_tool_first s ∧ s ≠ [].
Proof.
  intros [m Hm|m rs Hm]; (split; [|done]); [by apply Hm|].
  apply (role_excl "assistant"); [by apply has_calls_role, (ex_calls m rs)|done].
Qed.

Lemma segments_no_tool_first segs : Forall segment segs → no_tool_first (concat segs).
Proof. intros [|s ss Hs _]; [done|]. apply segment_no_tool_first in Hs as [Hs Hn]. by destruct s. Qed.

Lemma backfill_clean expected ans : (∀ id, id ∈ expected → id ∈ ans) → backfill expected ans = [].
Proof.
  intros H. unfold backfill. induction expected as [|e l IH]; [done|]. cbn.
  rewrite bool_decide_true by (apply H; left). apply IH. intros id Hid. apply H. by right.
Qed.

Lemma alternates_middle out m l : alternates (out ++ m :: l) → ∀ u, last out = Some u → apart u m.
Proof.
  induction out as [|a out IH]; [done|]. cbn [app alternates]. intros [Ha Hl] u.
  destruct out as [|b out]; [by intros [= <-]|]. rewrite last_cons_cons. by apply IH.
Qed.

Lemma repair_loop_clean fuel segs out :
  Forall segment segs → distinct_calls (concat segs) → alternates (out ++ concat segs) →
  (length (concat segs) <= fuel)%nat → repair_loop fuel (concat segs) out = out ++ concat segs.
Proof.
  intros Hs. revert fuel out. induction Hs as [|s segs Hs Hss IH]; intros fuel out Hd Ha Hf.
  { destruct fuel; cbn; by rewrite app_nil_r. }
  destruct Hs as [m (Ht & Hc & Hb)|m rs Hx]; cbn [concat app length] in *; (destruct fuel as [|fuel]; [lia|]).
  - apply Forall_cons in Hd as [_ Hd]. cbn [repair_loop]. fold (has_calls m) (speaks m). rewrite Hc, Ht.
    assert (out ++ m :: concat segs = (out ++ [m]) ++ concat segs) as Happ by by rewrite <- app_assoc.
    destruct (speaks m) eqn:Hsp.
    + rewrite push_plain_fresh; [|by apply Hb|by apply (alternates_middle _ _ _ Ha)].
      rewrite Happ in Ha |- *. apply IH; [done|done|lia].
    + rewrite Happ in Ha |- *. apply IH; [done|done|lia].
  - apply Forall_cons in Hd as [Hd' Hd]. apply Forall_app in Hd as [_ Hd]. cbn [repair_loop]. fold (has_calls m) (call_ids m).
    rewrite (ex_calls _ _ Hx). rewrite length_app in Hf.
    rewrite reconcile_clean; [|by apply (ex_answers _ _ Hx)|by intros id; apply (ex_all _ _ Hx)|by apply (ex_once _ _ Hx)|by apply segments_no_tool_first].
    cbn [app]. rewrite backfill_clean, app_nil_r by (intros id; apply (ex_all _ _ Hx)).
    assert (out ++ m :: rs ++ concat segs = (out ++ m :: rs) ++ concat segs) as Happ by by rewrite <- app_assoc.
    rewrite Happ in Ha |- *. apply IH; [done|done|lia].
Qed.

Lemma paired_user_speaks l u : paired l → u ∈ l → is_role "user" u = true → blank (rm_content u) = false.
Proof.
  intros (segs & -> & Hs) (s & Hin & Hu)%list_elem_of_In%in_concat Hr.
  rewrite Forall_forall in Hs. specialize (Hs s (proj2 (list_elem_of_In _ _) Hin)). apply list_elem_of_In in Hu.
  destruct Hs as [m (_ & _ & Hb)|m rs Hx].
  - apply list_elem_of_singleton in Hu as ->. apply Hb. unfold speaks. by rewrite Hr, orb_true_r.
  - exfalso. apply elem_of_cons in Hu as [->|Hu].
    + pose proof (has_calls_role _ (ex_calls _ _ Hx)) as [H _]. by rewrite (role_excl _ "user" _ H) in Hr.
    + pose proof (ex_answers _ _ Hx) as H. rewrite Forall_forall in H. destruct (H u Hu) as [H' _].
      by rewrite (role_excl _ "user" _ H') in Hr.
Qed.

(** Among the sequences whose call ids are distinct within a message, the repair
    leaves alone exactly the well-formed ones. *)
Theorem repair_fixpoints l : distinct_calls l → repair_message_sequence l = l ↔ well_formed l.
Proof.
  intros Hd. split.
  - intros Heq. destruct (repair_tidy l) as [[Hp Ha] _]. pose proof (repair_opens l) as Ho. rewrite Heq in *. split; [done|]. split; [done|].
    destruct (list_find (λ m, rm_role m = "user") l) as [[i u]|] eqn:Hf.
    + apply user_first_opens, (Ho i u eq_refl). destruct (find_user_drop _ _ _ Hf) as (_ & Hu & _).
      apply list_find_Some in Hf as (Hi & _ & _). by apply (paired_user_speaks l u Hp); [apply list_elem_of_lookup_2 in Hi|].
    + unfold opens_with_user, trim_leading. by rewrite Hf.
  - intros ((segs & -> & Hs) & Ha & Ho). unfold repair_message_sequence. rewrite Ho. by apply repair_loop_clean.
Qed.

(** A tool exchange is a fixed point. *)
Definition toy_exchange : list RequestMsg :=
  [msg "user" (string_bytes "hi"); (msg "assistant" []) <| rm_tool_calls := [mkToolCall "a" "fs" []] |>;
   tool_msg "a" (string_bytes "ok"); msg "assistant" (string_bytes "done")].

Lemma repair_fixpoints_witness : repair_message_sequence toy_exchange = toy_exchange ↔ well_formed toy_exchange.
Proof. apply (repair_fixpoints toy_exchange). by apply (bool_decide_unpack _). Defined.

(** A blank first user message leaves a leading assistant message, and the repair of
    the result drops that message: the pass is not idempotent, and the sequence a
    provider gets does not open with a user message. *)
Definition blank_opening : list RequestMsg :=
  [msg "user" (string_bytes " "); msg "assistant" (string_bytes "a"); msg "user" (string_bytes "b")].

Example blank_opening_not_repaired :
  repair_message_sequence blank_opening = [msg "assistant" (string_bytes "a"); msg "user" (string_bytes "b")] ∧
  repair_message_sequence (repair_message_sequence blank_opening) = [msg "user" (string_bytes "b")].
Proof. split; vm_compute; reflexivity. Qed.

(** Two unanswered calls with one id get two synthetic results. *)
Example duplicate_ids_filled_twice :
  length (repair_message_sequence
    [msg "user" (string_bytes "u"); (msg "assistant" []) <| rm_tool_calls := [mkToolCall "a" "x" []; mkToolCall "a" "y" []] |>]) = 4%nat.
Proof. vm_compute. reflexivity. Qed.

(** ** The default compaction *)

Definition turns_chars (l : list Turn) : N := foldr (λ t n, estimate_turn_chars t + n) 0 l.

Lemma estimate_tokens_sum c : estimate_tokens c = (blen (cv_system c) + turns_chars (cv_turns c)) / 4.
Proof.
  unfold estimate_tokens. f_equal. generalize (blen (cv_system c)) as n. unfold turns_chars.
  induction (cv_turns c) as [|t l IH]; intros n; cbn; [lia|]. rewrite IH. lia.
Qed.

Lemma turns_chars_cons t l : turns_chars (t :: l) = estimate_turn_chars t + turns_chars l.
Proof. done. Qed.

Lemma turns_chars_drop k l : turns_chars (drop k l) <= turns_chars l.
Proof.
  revert l. induction k as [|k IH]; intros l; [by rewrite drop_0|]. destruct l as [|t l]; [done|].
  rewrite turns_chars_cons. cbn [drop]. specialize (IH l). lia.
Qed.

Lemma div4_add a b : a / 4 + b / 4 <= (a + b) / 4.
Proof.
  apply N.div_le_lower_bound; [done|]. pose proof (N.Div0.mul_div_le a 4). pose proof (N.Div0.mul_div_le b 4). lia.
Qed.

(** The plan: the last turn stays, the running estimate bounds that of what is kept,
    and the loop stops within the budget or at one turn. *)
Lemma plan_drop_loop_spec budget sys turns d used :
  (sys + turns_chars turns) / 4 <= used →
  ∃ k, (plan_drop_loop budget turns d used).1 = (d + k)%nat ∧ (k <= length turns - 1)%nat ∧
    (sys + turns_chars (drop k turns)) / 4 <= (plan_drop_loop budget turns d used).2 ∧
    ((plan_drop_loop budget turns d used).2 <= budget ∨ (length (drop k turns) <= 1)%nat).
Proof.
  revert d used. induction turns as [|t rest IH]; intros d used Hu; cbn [plan_drop_loop].
  { exists 0%nat. cbn. repeat split; [lia..|done|by right; lia]. }
  destruct rest as [|t' rest]; [exists 0%nat; cbn; repeat split; [lia..|done|by right; lia]|].
  destruct (budget <? used) eqn:Hb.
  - apply N.ltb_lt in Hb. rewrite turns_chars_cons in Hu.
    destruct (IH (S d) (used - estimate_turn_chars t / 4)) as (k & Hk & Hl & He & Hs).
    + pose proof (div4_add (estimate_turn_chars t) (sys + turns_chars (t' :: rest))) as H.
      replace (sys + (estimate_turn_chars t + turns_chars (t' :: rest))) with
        (estimate_turn_chars t + (sys + turns_chars (t' :: rest))) in Hu by lia. lia.
    + exists (S k). cbn [drop length] in *. rewrite Hk. repeat split; [lia|lia|done|done].
  - apply N.ltb_ge in Hb. exists 0%nat. rewrite drop_0. cbn [fst snd]. repeat split; [lia|lia|done|by left].
Qed.

Lemma drop_keeps_last {A} k (l : list A) : (k <= length l - 1)%nat → last (drop k l) = last l.
Proof.
  intros Hk. destruct l as [|x l] using rev_ind; [by rewrite drop_nil|]. rewrite length_app in Hk. cbn in Hk.
  rewrite drop_app_le by lia. by rewrite !last_snoc.
Qed.

(** The default compaction keeps the system prompt and a suffix of the turns that
    contains the last one, so no call is separated from its results; when it drops
    anything it frees a tenth of the estimate at least, and what is left fits the budget
    unless it is a single turn. *)
Theorem drop_oldest_sound c budget :
  cv_system (drop_oldest c budget) = cv_system c ∧
  last (cv_turns (drop_oldest c budget)) = last (cv_turns c) ∧
  ∃ k, cv_turns (drop_oldest c budget) = drop k (cv_turns c) ∧
    (k ≠ 0%nat → estimate_tokens c <= (estimate_tokens c - estimate_tokens (drop_oldest c budget)) * 10 ∧
      (estimate_tokens (drop_oldest c budget) <= budget ∨ (length (cv_turns (drop_oldest c budget)) <= 1)%nat)).
Proof.
  unfold drop_oldest. destruct (thrashes _ _) eqn:Ht; [repeat split; by exists 0%nat|].
  unfold thrashes in Ht. apply orb_false_iff in Ht as [_ Ht%N.ltb_ge]. unfold plan_drop in *.
  destruct (plan_drop_loop_spec budget (blen (cv_system c)) (cv_turns c) 0 (estimate_tokens c)) as (k & Hk & Hl & He & Hs).
  { by rewrite estimate_tokens_sum. }
  set (plan := plan_drop_loop _ _ _ _) in *. cbn [Nat.add] in Hk. cbn. rewrite Hk. split; [done|]. split; [by apply drop_keeps_last|].
  exists k. split; [done|]. intros _. rewrite (estimate_tokens_sum (mkConversation _ _)). cbn [cv_system cv_turns].
  split; [lia|]. destruct Hs; [left; lia|by right].
Qed.
