(* ===== verification/Guardrail.v ===== *)
(** * The tool-call loop guardrail

    [daemon-core/src/guardrail.rs] and its thresholds in [config.rs]: the controller a
    turn consults before and after every tool call.  The reading of JSON ([serde_json]
    and the argument repair before it) and the hasher are parameters; the canonical
    form of a value and the controller are the code's. *)

From S2P Require Import Prelude Text Common CoreConversation.
#[local] Open Scope daemon_scope.
#[local] Open Scope N_scope.

(** ** The canonical form of arguments and results *)

(** A JSON value; a scalar is its compact serialization. *)
Inductive json :=
| JObject (fields : list (bytes * json))
| JArray (items : list json)
| JScalar (text : bytes).

Class Json := {
  json_from_str : bytes → option json;
  json_string : bytes → bytes;
  repair_args : bytes → bytes;
  default_hash : bytes → N
}.

Section canonical.
Context `{Json}.

Fixpoint join_with (sep : bytes) (l : list bytes) : bytes :=
  match l with
  | [] => []
  | [x] => x
  | x :: l' => x ++ sep ++ join_with sep l'
  end.

Fixpoint bytes_leb (a b : bytes) : bool :=
  match a, b with
  | [], _ => true
  | _ :: _, [] => false
  | x :: a', y :: b' =>
      if Byte.to_N x <? Byte.to_N y then true else if Byte.to_N y <? Byte.to_N x then false else bytes_leb a' b'
  end.

(** Keys sorted, compactly. *)
Fixpoint canonicalize (v : json) : bytes :=
  match v with
  | JObject fields =>
      string_bytes "{" ++
      join_with (string_bytes ",")
        ((λ kc, json_string kc.1 ++ string_bytes ":" ++ kc.2) <$>
           sort_by (λ a b, bytes_leb a.1 b.1) (List.map (λ kv, (kv.1, canonicalize kv.2)) fields)) ++
      string_bytes "}"
  | JArray items => string_bytes "[" ++ join_with (string_bytes ",") (List.map canonicalize items) ++ string_bytes "]"
  | JScalar text => text
  end.

Definition hash_canonical_json (raw : bytes) : N :=
  let raw_is_json := match json_from_str (trim raw) with Some _ => true | None => false end in
  let repaired := repair_args raw in
  default_hash
    match json_from_str repaired with
    | Some value => if raw_is_json || negb (bool_decide (repaired = string_bytes "{}")) then canonicalize value else raw
    | None => raw
    end.
End canonical.

(** ** The controller *)

Record GuardrailConfig := mkGuardrailConfig {
  gc_warnings_enabled : bool;
  gc_hard_stop_enabled : bool;
  gc_exact_failure_warn_after : N;
  gc_exact_failure_block_after : N;
  gc_same_tool_failure_warn_after : N;
  gc_same_tool_failure_halt_after : N;
  gc_no_progress_warn_after : N;
  gc_no_progress_block_after : N
}.

Definition GuardrailConfig_default : GuardrailConfig := mkGuardrailConfig true false 2 5 3 8 2 5.

Inductive GuardrailAction := GAllow | GWarn | GBlock | GHalt.

#[export] Instance GuardrailAction_eq_dec : EqDecision GuardrailAction.
Proof. solve_decision. Defined.

Record GuardrailDecision := mkGuardrailDecision {
  gd_action : GuardrailAction;
  gd_code : string;
  gd_message : bytes;
  gd_count : N
}.

Definition decision_allow : GuardrailDecision := mkGuardrailDecision GAllow "allow" [] 0.

Definition allows_execution (d : GuardrailDecision) : bool :=
  match gd_action d with GAllow | GWarn => true | _ => false end.
Definition should_halt (d : GuardrailDecision) : bool :=
  match gd_action d with GBlock | GHalt => true | _ => false end.

(** A tool's name with the hash of its arguments. *)
Definition CallSignature : Type := string * N.

Record ToolGuardrail := mkToolGuardrail {
  tg_config : GuardrailConfig;
  tg_exact_failure : gmap CallSignature N;
  tg_same_tool_failure : gmap string N;
  tg_no_progress : gmap CallSignature (N * N);
  tg_halted : option GuardrailDecision
}.

#[export] Instance eta_ToolGuardrail : Eta ToolGuardrail := λ g,
  mkToolGuardrail (tg_config g) (tg_exact_failure g) (tg_same_tool_failure g) (tg_no_progress g) (tg_halted g).

Definition ToolGuardrail_new (config : GuardrailConfig) : ToolGuardrail := mkToolGuardrail config ∅ ∅ ∅ None.

Definition halt_decision (g : ToolGuardrail) : option GuardrailDecision := tg_halted g.

Definition record_halt (d : GuardrailDecision) (g : ToolGuardrail) : ToolGuardrail :=
  match tg_halted g with None => g <| tg_halted := Some d |> | Some _ => g end.

Section controller.
Context `{Json}.

Definition from_call (tool_name : string) (args : bytes) : CallSignature := (tool_name, hash_canonical_json args).

Definition before_call (name : string) (args : bytes) (idempotent : bool) (g : ToolGuardrail)
    : GuardrailDecision * ToolGuardrail :=
  let signature := from_call name args in
  let block code before count after :=
    let d := mkGuardrailDecision GBlock code (string_bytes before ++ decimal count ++ string_bytes after) count in
    (d, record_halt d g) in
  let no_progress :=
    if idempotent then
      match tg_no_progress g !! signature with
      | Some (_, repeat_count) =>
          if gc_no_progress_block_after (tg_config g) <=? repeat_count then
            block "idempotent_no_progress_block" ("Blocked " +:+ name +:+ ": this read-only call returned the same result ") repeat_count
              " times. Stop repeating it unchanged; use the result already provided or try a different query."
          else (decision_allow, g)
      | None => (decision_allow, g)
      end
    else (decision_allow, g) in
  if negb (gc_hard_stop_enabled (tg_config g)) then (decision_allow, g)
  else
    let exact_count := default 0 (tg_exact_failure g !! signature) in
    if gc_exact_failure_block_after (tg_config g) <=? exact_count then
      block "repeated_exact_failure_block" ("Blocked " +:+ name +:+ ": the same tool call failed ") exact_count
        " times with identical arguments. Stop retrying it unchanged; change strategy or explain the blocker."
    else no_progress.

Definition tool_failure_recovery_hint (name : string) (count : N) : bytes :=
  string_bytes name ++ string_bytes " has failed " ++ decimal count ++
  string_bytes " times this turn. This looks like a loop. Do not switch to text-only replies; keep using tools, but diagnose before retrying. First inspect the latest error/output and verify your assumptions. " ++
  string_bytes (if bool_decide (name = "shell")
    then "For command failures, run a small diagnostic (e.g. `pwd && ls -la`) in the same tool, then try an absolute path, a simpler command, a different working directory, or a different tool such as fs read/write/edit."
    else "Try different arguments, a narrower query/path, an absolute path when relevant, or a different tool that can make progress. If the blocker is external, report it after one diagnostic attempt instead of repeating the same failing path.").

Definition after_call (name : string) (args : bytes) (result : ToolResult) (idempotent : bool) (g : ToolGuardrail)
    : GuardrailDecision * ToolGuardrail :=
  let signature := from_call name args in
  let config := tg_config g in
  if negb (tr_ok result) then
    let exact_count := default 0 (tg_exact_failure g !! signature) +₃₂ 1 in
    let same_count := default 0 (tg_same_tool_failure g !! name) +₃₂ 1 in
    let g := g <| tg_exact_failure := <[signature := exact_count]> (tg_exact_failure g) |>
               <| tg_no_progress := delete signature (tg_no_progress g) |>
               <| tg_same_tool_failure := <[name := same_count]> (tg_same_tool_failure g) |> in
    if gc_hard_stop_enabled config && (gc_same_tool_failure_halt_after config <=? same_count) then
      let d := mkGuardrailDecision GHalt "same_tool_failure_halt"
        (string_bytes ("Stopped " +:+ name +:+ ": it failed ") ++ decimal same_count ++
         string_bytes " times this turn. Stop retrying the same failing tool path and choose a different approach.") same_count in
      (d, record_halt d g)
    else if gc_warnings_enabled config && (gc_exact_failure_warn_after config <=? exact_count) then
      (mkGuardrailDecision GWarn "repeated_exact_failure_warning"
        (string_bytes name ++ string_bytes " has failed " ++ decimal exact_count ++
         string_bytes " times with identical arguments. This looks like a loop; inspect the error and change strategy instead of retrying it unchanged.")
        exact_count, g)
    else if gc_warnings_enabled config && (gc_same_tool_failure_warn_after config <=? same_count) then
      (mkGuardrailDecision GWarn "same_tool_failure_warning" (tool_failure_recovery_hint name same_count) same_count, g)
    else (mkGuardrailDecision GAllow "allow" [] exact_count, g)
  else
    let g := g <| tg_exact_failure := delete signature (tg_exact_failure g) |>
               <| tg_same_tool_failure := delete name (tg_same_tool_failure g) |> in
    if negb idempotent then (decision_allow, g <| tg_no_progress := delete signature (tg_no_progress g) |>)
    else
      let result_hash := hash_canonical_json (tr_content result) in
      let repeat_count :=
        match tg_no_progress g !! signature with
        | Some (prev_hash, prev_count) => if prev_hash =? result_hash then prev_count +₃₂ 1 else 1
        | None => 1
        end in
      let g := g <| tg_no_progress := <[signature := (result_hash, repeat_count)]> (tg_no_progress g) |> in
      if gc_warnings_enabled config && (gc_no_progress_warn_after config <=? repeat_count) then
        (mkGuardrailDecision GWarn "idempotent_no_progress_warning"
          (string_bytes name ++ string_bytes " returned the same result " ++ decimal repeat_count ++
           string_bytes " times. Use the result already provided or change the query instead of repeating it unchanged.")
          repeat_count, g)
      else (mkGuardrailDecision GAllow "allow" [] repeat_count, g).

(** The error envelope of a blocked call. *)
Definition block_result_content (d : GuardrailDecision) : bytes :=
  canonicalize (JObject
    [(string_bytes "error", JScalar (json_string (gd_message d)));
     (string_bytes "guardrail", JObject [(string_bytes "code", JScalar (json_string (string_bytes (gd_code d))));
                                         (string_bytes "count", JScalar (decimal (gd_count d)))])]).

Definition append_guidance (content : bytes) (d : GuardrailDecision) : bytes :=
  match gd_action d, gd_message d with
  | GWarn, b :: m => content ++ blank_line ++ string_bytes ("[Tool loop warning: " +:+ gd_code d +:+ "; count=") ++
      decimal (gd_count d) ++ string_bytes "; " ++ (b :: m) ++ string_bytes "]"
  | GHalt, b :: m => content ++ blank_line ++ string_bytes ("[Tool loop hard stop: " +:+ gd_code d +:+ "; count=") ++
      decimal (gd_count d) ++ string_bytes "; " ++ (b :: m) ++ string_bytes "]"
  | _, _ => content
  end.
End controller.

(** ** What the controller counts and when it blocks *)

Section counts.
Context `{Json}.

Definition signature_of (c : ToolCall) : CallSignature := from_call (tc_name c) (tc_args c).

(** The failures of a signature since it last succeeded, as the controller has them. *)
Definition failures (σ : CallSignature) (g : ToolGuardrail) : N := default 0 (tg_exact_failure g !! σ).

(** The calls the controller refuses: hard stops are enabled, and the call failed too often,
    or it only reads and returned the same result too often. *)
Definition stopped (idem : bool) (c : ToolCall) (g : ToolGuardrail) : bool :=
  gc_hard_stop_enabled (tg_config g) &&
  ((gc_exact_failure_block_after (tg_config g) <=? failures (signature_of c) g) ||
   idem && match tg_no_progress g !! signature_of c with
           | Some (_, repeats) => gc_no_progress_block_after (tg_config g) <=? repeats
           | None => false
           end).

Lemma record_halt_fields d g :
  tg_config (record_halt d g) = tg_config g ∧ tg_exact_failure (record_halt d g) = tg_exact_failure g ∧
  tg_no_progress (record_halt d g) = tg_no_progress g ∧ tg_halted (record_halt d g) = Some (default d (tg_halted g)).
Proof. unfold record_halt. destruct (tg_halted g) eqn:Hh; by rewrite ?Hh. Qed.

(** Latching a halt changes no decision. *)
Lemma stopped_halted idem c d g : stopped idem c (record_halt d g) = stopped idem c g.
Proof. unfold stopped, failures. by destruct (record_halt_fields d g) as (-> & -> & -> & _). Qed.

(** The preflight blocks exactly those calls, and only latches, when it blocks. *)
Lemma before_call_stops c idem g :
  let '(d, g') := before_call (tc_name c) (tc_args c) idem g in
  allows_execution d = negb (stopped idem c g) ∧
  g' = (if stopped idem c g then record_halt d g else g).
Proof.
  unfold before_call, stopped, failures, signature_of. destruct (gc_hard_stop_enabled (tg_config g)); [|done]. cbn [negb andb].
  destruct (_ <=? default 0 _); [done|]. cbn [orb]. destruct idem; [|done]. cbn [andb].
  destruct (tg_no_progress g !! _) as [[h n]|]; [|done]. by destruct (_ <=? n).
Qed.

Lemma after_call_exact name args r idem g :
  tg_config (after_call name args r idem g).2 = tg_config g ∧
  tg_exact_failure (after_call name args r idem g).2 =
    (if tr_ok r then delete (from_call name args) (tg_exact_failure g)
     else <[from_call name args := default 0 (tg_exact_failure g !! from_call name args) +₃₂ 1]> (tg_exact_failure g)) ∧
  (gc_hard_stop_enabled (tg_config g) = false → tg_halted (after_call name args r idem g).2 = tg_halted g) ∧
  (is_Some (tg_halted g) → is_Some (tg_halted (after_call name args r idem g).2)).
Proof.
  unfold after_call. destruct (tr_ok r); cbn [negb].
  - repeat case_match; by repeat split.
  - destruct (gc_hard_stop_enabled (tg_config g) && _) eqn:Hh; [|repeat case_match; by repeat split].
    cbn [snd]. match goal with |- context [record_halt ?d ?k] => destruct (record_halt_fields d k) as (-> & -> & _ & ->) end.
    repeat split; [intros Hf; by rewrite Hf in Hh|by eexists].
Qed.

(** The failures of a signature after the results of some calls. *)
Definition tally (σ : CallSignature) (k : N) (l : list (ToolCall * ToolResult)) : N :=
  foldl (λ k cr, if bool_decide (signature_of cr.1 = σ) then (if tr_ok cr.2 then 0 else k + 1) else k) k l.

Definition calls_of (σ : CallSignature) (l : list ToolCall) : nat :=
  length (List.filter (λ c, bool_decide (signature_of c = σ)) l).

Lemma tally_le σ l : ∀ k, tally σ k l <= k + N.of_nat (calls_of σ l.*1).
Proof.
  unfold tally, calls_of. induction l as [|[c r] l IH]; intros k; cbn [foldl fmap list_fmap List.filter fst snd length]; [lia|].
  etransitivity; [apply IH|]. case_bool_decide; [destruct (tr_ok r)|]; cbn [length]; lia.
Qed.

Lemma tally_none σ k l : calls_of σ l.*1 = 0%nat → tally σ k l = k.
Proof.
  unfold tally, calls_of. induction l as [|[c r] l IH]; [done|]. cbn [foldl fmap list_fmap List.filter fst snd].
  case_bool_decide; [done|]. apply IH.
Qed.

Lemma after_call_failures c r idem g σ : failures (signature_of c) g + 1 < u32_bound →
  failures σ (after_call (tc_name c) (tc_args c) r idem g).2 = tally σ (failures σ g) [(c, r)].
Proof.
  intros Hb. unfold failures, tally, signature_of in *. destruct (after_call_exact (tc_name c) (tc_args c) r idem g) as (_ & -> & _).
  cbn [foldl fst snd]. case_bool_decide as Hs; [subst σ; destruct (tr_ok r)|destruct (tr_ok r)].
  - by rewrite lookup_delete_eq.
  - rewrite lookup_insert_eq. cbn [default from_option id] in *. by apply wrap32_small.
  - by rewrite lookup_delete_ne.
  - by rewrite lookup_insert_ne.
Qed.
End counts.
