(* ===== verification/ModelCall.v ===== *)
(** * One model call and its recovery policy

    [daemon-core]: the failure taxonomy ([provider.rs]), the tunables ([config.rs]),
    the events of a turn ([daemon-protocol]), the recovery policy, the classification
    of HTTP errors and the stream driver ([recovery.rs]).  A duration is a number of
    nanoseconds; the wall clock that seeds the jitter and the items of a stream are
    arguments. *)

From S2P Require Import Prelude Text Common Approval CoreConversation Guardrail.
#[local] Open Scope daemon_scope.
#[local] Open Scope N_scope.

(** ** Texts *)

(** [str::contains]. *)
Fixpoint contains (needle hay : bytes) : bool :=
  starts_with needle hay || match hay with [] => false | _ :: hay' => contains needle hay' end.

(** [str::split_whitespace]: the runs between white-space characters; the fuel is the
    number of bytes. *)
Fixpoint split_words (fuel : nat) (word l : bytes) : list bytes :=
  let flush := match word with [] => [] | _ => [rev word] end in
  match fuel, l with
  | S fuel', b :: l' =>
      match drop_one white_space l with
      | Some rest => flush ++ split_words fuel' [] rest
      | None => split_words fuel' (b :: word) l'
      end
  | _, _ => flush
  end.

Definition split_whitespace (l : bytes) : list bytes := split_words (length l) [] l.

Definition to_ascii_lowercase (l : bytes) : bytes :=
  (λ b, let x := Byte.to_N b in if (65 <=? x) && (x <=? 90) then byte_of (x + 32) else b) <$> l.

(** ** Durations *)

Definition Duration := N.
Definition from_millis (ms : N) : Duration := ms * 1000000.
Definition from_secs (s : N) : Duration := s * 1000000000.
Definition as_millis (d : Duration) : N := d / 1000000.

(** ** Failures *)

Inductive Failure :=
| FProvider (m : bytes)
| FRotatable (m : bytes)
| FRateLimit (retry_after : option Duration) (m : bytes)
| FBilling (m : bytes)
| FAuth (m : bytes)
| FContextOverflow (m : bytes)
| FPayloadTooLarge (m : bytes)
| FContentPolicy (m : bytes)
| FFormatError (m : bytes)
| FInvalidRequest (m : bytes)
| FTransientTransport (m : bytes)
| FProviderOverloaded (m : bytes)
| FFatal (m : bytes)
| FCancelled
| FOther (m : bytes).

(** The [Display] of a failure. *)
Definition failure_text (f : Failure) : bytes :=
  match f with
  | FProvider m => string_bytes "provider: " ++ m
  | FRotatable m => string_bytes "rotatable: " ++ m
  | FRateLimit _ _ => string_bytes "rate limited"
  | FBilling m => string_bytes "billing: " ++ m
  | FAuth m => string_bytes "auth: " ++ m
  | FContextOverflow m => string_bytes "context overflow: " ++ m
  | FPayloadTooLarge m => string_bytes "payload too large: " ++ m
  | FContentPolicy m => string_bytes "content policy: " ++ m
  | FFormatError m => string_bytes "format error: " ++ m
  | FInvalidRequest m => string_bytes "invalid request: " ++ m
  | FTransientTransport m => string_bytes "transient transport: " ++ m
  | FProviderOverloaded m => string_bytes "provider overloaded: " ++ m
  | FFatal m => string_bytes "fatal: " ++ m
  | FCancelled => string_bytes "cancelled"
  | FOther m => m
  end.

Inductive Recovery := RRetry (after : option Duration) | RRotate | RCompact | RFallback | RAbort.

Definition recovery (f : Failure) : Recovery :=
  match f with
  | FRateLimit retry_after _ => RRetry retry_after
  | FTransientTransport _ | FProviderOverloaded _ => RRetry None
  | FFormatError _ => RRetry None
  | FRotatable _ | FAuth _ => RRotate
  | FBilling _ | FContentPolicy _ => RFallback
  | FContextOverflow _ | FPayloadTooLarge _ => RCompact
  | FInvalidRequest _ => RAbort
  | FProvider _ | FOther _ | FFatal _ | FCancelled => RAbort
  end.

Definition is_rotatable (f : Failure) : bool :=
  match f with FRotatable _ | FAuth _ | FBilling _ | FRateLimit _ _ => true | _ => false end.

(** ** Tunables *)

Inductive ApprovalPolicy := Ask | AcceptEdits | AutoAllow | Deny.

Record Config := mkConfig {
  cf_model_retry_attempts : N;
  cf_context_budget_tokens : option N;
  cf_max_iterations : N;
  cf_max_repeated_rounds : N;
  cf_tool_result_budget : N;
  cf_max_parallel_tools : N;
  cf_tool_timeout_ms : N;
  cf_guardrail : GuardrailConfig;
  cf_tool_search_threshold_bytes : N;
  cf_model_max_retries : N;
  cf_model_backoff_base_ms : N;
  cf_model_backoff_max_ms : N;
  cf_model_stream_watchdog_ms : N;
  cf_skill_review_interval : N;
  cf_memory_review_interval : N;
  cf_approval_policy : ApprovalPolicy;
  cf_cache_ttl : CacheTtl
}.

Definition Config_default : Config :=
  mkConfig 1 None 90 3 (64 * 1024) 8 0 GuardrailConfig_default (16 * 1024) 3 2000 120000 180000 0 0 Ask FiveMin.

(** ** The policy *)

Inductive RecoveryStep := StRetry (after : Duration) | StRotate | StCompact | StFallback | StAbort.

Record ModelCallPolicy := mkModelCallPolicy {
  mp_max_retries : N;
  mp_backoff_base : Duration;
  mp_backoff_max : Duration;
  mp_watchdog : Duration
}.

Definition from_config (c : Config) : ModelCallPolicy :=
  mkModelCallPolicy (cf_model_max_retries c) (from_millis (cf_model_backoff_base_ms c))
    (from_millis (cf_model_backoff_max_ms c)) (from_millis (cf_model_stream_watchdog_ms c)).

(** [nanos]: the sub-second part of the clock. *)
Definition jitter_ms (nanos ceiling_ms : N) : N :=
  if ceiling_ms =? 0 then 0 else nanos mod N.max (ceiling_ms / 4) 1.

(** [1u64.checked_shl]. *)
Definition checked_shl_one (n : N) : option N := if n <? 64 then Some (2 ^ n) else None.

Definition backoff (p : ModelCallPolicy) (nanos attempt : N) (retry_after : option Duration) : Duration :=
  let base := wrap64 (as_millis (mp_backoff_base p)) in
  let cap := wrap64 (as_millis (mp_backoff_max p)) in
  let exp := sat_mul base (default (u64_bound - 1) (checked_shl_one attempt)) in
  let capped := N.max (N.min exp cap) 1 in
  let computed := from_millis (sat_add capped (jitter_ms nanos capped)) in
  match retry_after with
  | Some ra => if computed <? ra then N.min ra (N.max (mp_backoff_max p) ra) else computed
  | None => computed
  end.

Definition decide_step (p : ModelCallPolicy) (nanos : N) (f : Failure) (attempt : N) : RecoveryStep :=
  let exhausted := mp_max_retries p <=? attempt in
  match recovery f with
  | RRetry after => if exhausted then StAbort else StRetry (backoff p nanos attempt after)
  | RRotate => if exhausted then StFallback else StRotate
  | RCompact => if exhausted then StAbort else StCompact
  | RFallback => StFallback
  | RAbort => StAbort
  end.

(** ** The classification of HTTP errors *)

Definition parse_retry_after (value : bytes) : option Duration := from_secs <$> parse_u64 (trim value).

Definition mentions_context_overflow (lower : bytes) : bool :=
  contains (string_bytes "context length") lower || contains (string_bytes "maximum context") lower ||
  contains (string_bytes "context_length_exceeded") lower || contains (string_bytes "too many tokens") lower ||
  contains (string_bytes "prompt is too long") lower || contains (string_bytes "reduce the length") lower.

Definition mentions_content_policy (lower : bytes) : bool :=
  contains (string_bytes "content_policy") lower || contains (string_bytes "content policy") lower ||
  contains (string_bytes "content_filter") lower || contains (string_bytes "safety") lower.

(** [s[..n]]: a panic, [None], when byte [n] is inside a character. *)
Definition slice_to (n : nat) (s : bytes) : option bytes :=
  match s !! n with
  | Some b => if is_cont b then None else Some (take n s)
  | None => if (length s =? n)%nat then Some s else None
  end.

Definition ellipsis : bytes := [Byte.xe2; Byte.x80; Byte.xa6].

Definition snippet (body : bytes) : option bytes :=
  let one_line := join_with (string_bytes " ") (split_whitespace body) in
  if (200 <? length one_line)%nat then (λ s, s ++ ellipsis) <$> slice_to 200 one_line else Some one_line.

Definition classify_api_error (status : N) (header : string → option bytes) (body : bytes) : option Failure :=
  let retry_after := header "retry-after" ≫= parse_retry_after in
  let lower := to_ascii_lowercase body in
  s ← snippet body;
  Some
    (if status =? 429 then FRateLimit retry_after s
     else if (status =? 401) || (status =? 403) then FAuth s
     else if status =? 402 then FBilling s
     else if status =? 413 then FPayloadTooLarge s
     else if (status =? 400) || (status =? 422) then
       if mentions_context_overflow lower then FContextOverflow s
       else if mentions_content_policy lower then FContentPolicy s
       else FInvalidRequest s
     else if (status =? 408) || (status =? 409) || (status =? 425) then FTransientTransport s
     else if (status =? 503) || (status =? 529) then FProviderOverloaded s
     else if (status =? 500) || (status =? 502) || (status =? 504) then FTransientTransport s
     else if (500 <=? status) && (status <? 600) then FProviderOverloaded s
     else FProvider (string_bytes "http " ++ decimal status ++ string_bytes ": " ++ s)).

(** ** The events of a turn

    The sequence number of an event is its position.  A turn of the native engine never
    sends a [ContentDelta]; its rate limits carry a reset only, its errors a text. *)

Inductive CompletionSource := CsProcess (j : JobId) | CsDelegation (j : JobId).
Inductive TurnTrigger := TrUser | TrSteer | TrBackgroundCompletion (source : CompletionSource) | TrScheduled (job : JobId).
Inductive EndReason := Completed | Suspended | Interrupted | BudgetExhausted | NoProgress | Failed.

(** The foreign-agent failure of a summary is always absent on a native turn. *)
Record TurnSummary := mkTurnSummary { ts_end_reason : EndReason; ts_final_text : option bytes; ts_usage : UsageDelta }.

Definition summary_ended (r : EndReason) : TurnSummary := mkTurnSummary r None UsageDelta_default.

Record ToolDetail := mkToolDetail { dt_kind : string; dt_body : bytes }.
Record ToolCallView := mkToolCallView {
  vc_call_id : string; vc_name : string; vc_args_summary : bytes; vc_detail : option ToolDetail }.
Record ToolResultView := mkToolResultView {
  vr_call_id : string; vr_ok : bool; vr_summary : bytes; vr_detail : option ToolDetail }.
Record ConvTurnView := mkConvTurnView { ct_role : string; ct_text : bytes; ct_tools : list string }.
Record ConvView := mkConvView { vw_epoch : N; vw_turns : list ConvTurnView; vw_waiting_for : list JobId }.
Record ContextStatus := mkContextStatus {
  cs_used_tokens : N; cs_max_tokens : option N; cs_budget_tokens : option N; cs_compacted : bool; cs_dropped_turns : N }.

Inductive AgentEvent :=
| TurnStarted (t : TurnTrigger)
| TextDelta (t : bytes)
| ReasoningDelta (t : bytes)
| Usage (u : UsageDelta)
| RateLimited (reset_ms : option N)
| ContextChanged (s : ContextStatus)
| ToolStarted (v : ToolCallView)
| ToolFinished (v : ToolResultView)
| SnapshotServed (request : N) (v : ConvView)
| Steered (request : N) (accepted : bool)
| ErrorRaised (t : bytes)
| TurnFinished (s : TurnSummary)
| Rewound (request to_cursor epoch : N).

(** ** The stream of a call *)

(** The response metadata serves observability only. *)
Record ModelOutput := mkModelOutput {
  mo_text : bytes; mo_reasoning : option bytes; mo_tool_calls : list ToolCall; mo_usage : UsageDelta }.

#[export] Instance eta_ModelOutput : Eta ModelOutput := λ o,
  mkModelOutput (mo_text o) (mo_reasoning o) (mo_tool_calls o) (mo_usage o).

Definition ModelOutput_default : ModelOutput := mkModelOutput [] None [] UsageDelta_default.

Inductive StreamEvent := SeText (t : bytes) | SeReasoning (t : bytes) | SeUsage (u : UsageDelta) | SeDone (o : ModelOutput).

(** What the driver sees when it waits: an event, a failure, silence for the length of
    the watchdog, or the cancellation; the list ends when the stream closes. *)
Inductive StreamItem := SiEvent (e : StreamEvent) | SiFailure (f : Failure) | SiSilence | SiCancel.

Record Streamed := mkStreamed { sd_text : bool; sd_reasoning : bool; sd_usage : UsageDelta; sd_done : option ModelOutput }.

#[export] Instance eta_Streamed : Eta Streamed := λ s, mkStreamed (sd_text s) (sd_reasoning s) (sd_usage s) (sd_done s).

#[export] Instance UsageDelta_eq_dec : EqDecision UsageDelta.
Proof. solve_decision. Defined.

Definition stream_close (st : Streamed) : ModelOutput * list AgentEvent :=
  let out := default ModelOutput_default (sd_done st) in
  let out := if bool_decide (mo_usage out = UsageDelta_default) && negb (bool_decide (sd_usage st = UsageDelta_default))
             then out <| mo_usage := sd_usage st |> else out in
  (out,
   (if negb (sd_text st) && nonempty (mo_text out) then [TextDelta (mo_text out)] else []) ++
   (match mo_reasoning out with
    | Some r => if negb (sd_reasoning st) && nonempty r then [ReasoningDelta r] else []
    | None => []
    end) ++ [Usage (mo_usage out)]).

Fixpoint drive_loop (watchdog : Duration) (items : list StreamItem) (st : Streamed)
    : result Failure ModelOutput * list AgentEvent :=
  match items with
  | [] => let '(out, evs) := stream_close st in (Ok out, evs)
  | SiCancel :: _ => (Err FCancelled, [])
  | SiFailure f :: _ => (Err f, [])
  | SiSilence :: rest =>
      if watchdog =? 0 then drive_loop watchdog rest st
      else (Err (FTransientTransport (string_bytes "model stream stalled (watchdog elapsed)")), [])
  | SiEvent e :: rest =>
      let '(st, evs) :=
        match e with
        | SeText t => if nonempty t then (st <| sd_text := true |>, [TextDelta t]) else (st, [])
        | SeReasoning t => if nonempty t then (st <| sd_reasoning := true |>, [ReasoningDelta t]) else (st, [])
        | SeUsage u => (st <| sd_usage := UsageDelta_add (sd_usage st) u |>, [])
        | SeDone o => (st <| sd_done := Some o |>, [])
        end in
      let '(r, evs') := drive_loop watchdog rest st in (r, evs ++ evs')
  end.

Definition drive_model_call (watchdog : Duration) (items : list StreamItem) : result Failure ModelOutput * list AgentEvent :=
  drive_loop watchdog items (mkStreamed false false UsageDelta_default None).

(** ** The backoff *)

Lemma as_from_millis ms : as_millis (from_millis ms) = ms.
Proof. unfold as_millis, from_millis. by rewrite N.div_mul. Qed.

(** The saturating, shifted product under a cap is the cap of the exact product. *)
Lemma capped_exponential base cap attempt : cap < u64_bound →
  N.min (sat_mul base (default (u64_bound - 1) (checked_shl_one attempt))) cap = N.min (base * 2 ^ attempt) cap.
Proof.
  intros Hc. unfold sat_mul, checked_shl_one. destruct (N.ltb_spec attempt 64) as [Ha|Ha]; cbn [from_option id]; unfold id; [lia|].
  assert (u64_bound <= 2 ^ attempt) as Hp by (change u64_bound with (2 ^ 64); by apply N.pow_le_mono_r).
  destruct (N.eq_0_gt_0_cases base) as [->|Hb]; [lia|]. nia.
Qed.

Lemma jitter_le nanos c : jitter_ms nanos c <= c / 4.
Proof.
  unfold jitter_ms. destruct (N.eqb_spec c 0) as [->|Hc]; [done|].
  pose proof (N.mod_lt nanos (N.max (c / 4) 1) ltac:(lia)) as Hl. revert Hl. generalize (nanos mod N.max (c / 4) 1), (c / 4). lia.
Qed.

(** The wait before a retry: for tunables in milliseconds below [2^63], the policy
    of a configuration waits [min (base * 2^attempt) max] milliseconds (at least one)
    plus a jitter of at most a quarter of that, or the server's [Retry-After] when it is
    longer; nothing overflows and nothing is cut short. *)
Theorem backoff_exact (c : Config) nanos attempt retry_after :
  cf_model_backoff_base_ms c < 2 ^ 63 → cf_model_backoff_max_ms c < 2 ^ 63 →
  let capped := N.max (N.min (cf_model_backoff_base_ms c * 2 ^ attempt) (cf_model_backoff_max_ms c)) 1 in
  ∃ jitter, jitter <= capped / 4 ∧
    backoff (from_config c) nanos attempt retry_after = N.max (from_millis (capped + jitter)) (default 0 retry_after).
Proof.
  intros Hb Hm capped. exists (jitter_ms nanos capped). split; [apply jitter_le|].
  unfold backoff, from_config. cbn [mp_backoff_base mp_backoff_max]. rewrite !as_from_millis.
  change (2 ^ 63) with 9223372036854775808 in *. assert (u64_bound = 18446744073709551616) as Hu by done.
  rewrite !wrap64_small, capped_exponential by lia. fold capped.
  assert (capped < 9223372036854775809) by (unfold capped; lia). pose proof (jitter_le nanos capped) as Hj.
  assert (capped / 4 <= capped / 2) by (apply N.div_le_compat_l; lia).
  assert (capped / 2 <= 4611686018427387905) by (apply N.Div0.div_le_upper_bound; lia).
  unfold sat_add. rewrite N.min_l by lia.
  destruct retry_after as [ra|]; cbn [from_option id]; unfold id; [|lia].
  destruct (N.ltb_spec (from_millis (capped + jitter_ms nanos capped)) ra); lia.
Qed.

Lemma backoff_exact_witness :
  ∃ jitter, jitter <= 16000 / 4 ∧
    backoff (from_config Config_default) 123456789 3 (Some (from_secs 5)) = N.max (from_millis (16000 + jitter)) (from_secs 5).
Proof. apply (backoff_exact Config_default 123456789 3 (Some (from_secs 5))); reflexivity. Defined.

(** ** The stream driver *)

Definition is_usage (e : AgentEvent) : bool := match e with Usage _ => true | _ => false end.
Definition texts (l : list AgentEvent) : bytes := l ≫= λ e, match e with TextDelta t => t | _ => [] end.

(** The text the provider streamed. *)
Definition streamed_text (items : list StreamItem) : bytes :=
  items ≫= λ i, match i with SiEvent (SeText t) => t | _ => [] end.

(** The events of a stream that closes. *)
Lemma drive_loop_ok watchdog items st out evs :
  drive_loop watchdog items st = (Ok out, evs) →
  ∃ deltas, evs = deltas ++ [Usage (mo_usage out)] ∧ Forall (λ e, is_usage e = false) deltas ∧
    texts deltas = (if sd_text st || nonempty (streamed_text items) then streamed_text items else mo_text out).
Proof.
  revert st evs. induction items as [|i items IH]; intros st evs; cbn [drive_loop].
  { unfold stream_close. intros [= <- <-]. rewrite app_assoc. eexists. split; [done|]. split.
    - apply Forall_app. split; repeat case_match; by repeat constructor.
    - rewrite orb_false_r. unfold texts. rewrite bind_app.
      destruct (sd_text st); cbn [negb andb]; repeat case_match; cbn; rewrite ?app_nil_r; try done;
        by destruct (mo_text _). }
  destruct i as [e|f| |]; [|done| |done].
  2:{ destruct (watchdog =? 0); [|done]. apply IH. }
  destruct e as [t|t|u|o].
  - destruct (nonempty t) eqn:Ht; [|destruct t; [|done]]; destruct (drive_loop watchdog items _) as [r evs'] eqn:Hl; intros [= -> <-].
    + destruct (IH _ _ Hl) as (ds & -> & Hu & Htx). exists (TextDelta t :: ds). split; [done|]. split; [by constructor|].
      change (texts (TextDelta t :: ds)) with (t ++ texts ds). rewrite Htx. change (streamed_text (SiEvent (SeText t) :: items)) with (t ++ streamed_text items).
      cbn [sd_text update Updater]. destruct t as [|b t]; [done|]. cbn. by rewrite orb_true_r.
    + apply (IH _ _ Hl).
  - destruct (nonempty t) eqn:Ht; destruct (drive_loop watchdog items _) as [r evs'] eqn:Hl; intros [= -> <-]; [|apply (IH _ _ Hl)].
    destruct (IH _ _ Hl) as (ds & -> & Hu & Htx). exists (ReasoningDelta t :: ds). split; [done|]. split; [by constructor|]. done.
  - destruct (drive_loop watchdog items _) as [r evs'] eqn:Hl; intros [= -> <-]. apply (IH _ _ Hl).
  - destruct (drive_loop watchdog items _) as [r evs'] eqn:Hl; intros [= -> <-]. apply (IH _ _ Hl).
Qed.

Lemma drive_loop_err watchdog items st f evs :
  drive_loop watchdog items st = (Err f, evs) → Forall (λ e, is_usage e = false) evs.
Proof.
  revert st evs. induction items as [|i items IH]; intros st evs; cbn [drive_loop]; [done|].
  destruct i as [e|g| |]; [|by intros [= <- <-]| |by intros [= <- <-]].
  2:{ destruct (watchdog =? 0); [apply IH|by intros [= <- <-]]. }
  destruct e as [t|t|u|o]; try (destruct (nonempty t)); destruct (drive_loop watchdog items _) as [res evs'] eqn:Hl;
    intros [= -> <-]; try (constructor; [done|]); by apply (IH _ _ Hl).
Qed.

(** The stream driver: a call that succeeds reports exactly one usage event, last,
    with the usage of its output, and the text the host saw is the text streamed or, when
    nothing was streamed, the text of the output; a call that fails reports no usage. *)
Theorem stream_contract watchdog items :
  match drive_model_call watchdog items with
  | (Ok out, evs) => ∃ deltas, evs = deltas ++ [Usage (mo_usage out)] ∧ Forall (λ e, is_usage e = false) deltas ∧
      texts deltas = (if nonempty (streamed_text items) then streamed_text items else mo_text out)
  | (Err _, evs) => Forall (λ e, is_usage e = false) evs
  end.
Proof.
  destruct (drive_model_call watchdog items) as [[out|f] evs] eqn:Hd.
  - apply drive_loop_ok in Hd as (ds & Hevs & Hu & Ht). by exists ds.
  - by apply drive_loop_err in Hd.
Qed.

(** ** A response body that stops the client

    The snippet of an error body is cut at byte 200, wherever a character ends there or
    not: a body with a two-byte character across that byte panics in the
    classification of the error. *)
Definition long_body : bytes := replicate 199 Byte.x61 ++ [Byte.xc3; Byte.xa9] ++ replicate 10 Byte.x61.

Example snippet_panics : from_utf8_lossy long_body = long_body ∧ classify_api_error 500 (λ _, None) long_body = None.
Proof. split; vm_compute; reflexivity. Qed.
