(* ===== verification/Engine.v ===== *)
(** * The agent engine: one turn

    [daemon-core/src/engine.rs] with [engine/views.rs], [engine/rewind.rs],
    [snapshot.rs], [turn.rs] (effects) and [control.rs].  What the engine talks to (the
    provider's stream, the credential pool, the host, the tools, the context engine, the
    memory providers, the control queues the actor fills while a turn runs) is a class of
    operations on an abstract world: every theorem holds for all of them.  A computation
    runs on the engine, the world and the log of what the engine did: the events it
    emitted and its calls to the outside, in order.  Its only error is running out of
    fuel in the recovery loop, which never happens. *)

From S2P Require Import Prelude Text Common Approval CoreConversation Guardrail ModelCall.
#[local] Open Scope daemon_scope.
#[local] Open Scope N_scope.

(** ** The durable state *)

Definition CommandFingerprint := string.

Record PendingApproval := mkPendingApproval {
  pa_job_id : JobId;
  pa_call : ToolCall;
  pa_prompt : bytes;
  pa_path : option string;
  pa_fingerprint : option CommandFingerprint
}.

#[export] Instance eta_PendingApproval : Eta PendingApproval := λ a,
  mkPendingApproval (pa_job_id a) (pa_call a) (pa_prompt a) (pa_path a) (pa_fingerprint a).

Record RememberedApproval := mkRememberedApproval {
  ra_fingerprint : CommandFingerprint; ra_remembered_at_ms : N; ra_label : option string }.

Record References := mkReferences {
  rf_children : list SessionId; rf_processes : list string; rf_tools : list (string * string) }.

Record Snapshot := mkSnapshot {
  sn_session_id : SessionId;
  sn_epoch : Epoch;
  sn_conversation : Conversation;
  sn_references : References;
  sn_waiting_for : list JobId;
  sn_iters_since_skill : N;
  sn_turns_since_memory : N;
  sn_approval_policy : option ApprovalPolicy;
  sn_pending_approvals : list PendingApproval;
  sn_session_allow_fingerprints : list RememberedApproval;
  sn_writer_version : string;
  sn_composed_prompt : option ComposedPrompt;
  sn_composed_model : string;
  sn_consumed_splice_seq : N
}.

#[export] Instance eta_Snapshot : Eta Snapshot := λ s,
  mkSnapshot (sn_session_id s) (sn_epoch s) (sn_conversation s) (sn_references s) (sn_waiting_for s)
    (sn_iters_since_skill s) (sn_turns_since_memory s) (sn_approval_policy s) (sn_pending_approvals s)
    (sn_session_allow_fingerprints s) (sn_writer_version s) (sn_composed_prompt s) (sn_composed_model s)
    (sn_consumed_splice_seq s).

Definition Snapshot_fresh (id : SessionId) : Snapshot :=
  mkSnapshot id Epoch_ZERO (mkConversation [] []) (mkReferences [] [] []) [] 0 0 None [] [] EmptyString None EmptyString 0.

Record Completion := mkCompletion { co_job_id : JobId; co_payload : bytes }.

(** ** Effects and outcomes *)

Inductive SpawnSeed := FromConversation | SeedText (t : bytes).
Record SpawnSpec := mkSpawnSpec { ss_kind : string; ss_seed : SpawnSeed }.

Inductive Effect :=
| Persist (t : Turn)
| Delegate (job : JobId) (payload : bytes)
| Spawn (spec : SpawnSpec)
| AwaitDecision (job_id : JobId) (call : ToolCall) (prompt : bytes) (path : option string)
| RememberApproval (fp : CommandFingerprint).

Record ToolOutcome := mkToolOutcome { to_result : ToolResult; to_detail : option ToolDetail; to_effects : list Effect }.

Record Suspension := mkSuspension { su_job_id : JobId; su_epoch : Epoch; su_payload : bytes }.

Inductive TurnOutcome := TCompleted (s : TurnSummary) | TSuspended (s : Suspension).

Definition APPROVAL_SUSPEND_PAYLOAD : bytes := string_bytes "await-approval".

Record PartitionedEffects := mkPartitionedEffects {
  pe_persists : list Turn;
  pe_delegated : option (JobId * bytes);
  pe_spawns : list SpawnSpec;
  pe_awaiting : list PendingApproval;
  pe_remember : list CommandFingerprint
}.

#[export] Instance eta_PartitionedEffects : Eta PartitionedEffects := λ p,
  mkPartitionedEffects (pe_persists p) (pe_delegated p) (pe_spawns p) (pe_awaiting p) (pe_remember p).

Definition partition_tool_effects (effects : list Effect) : PartitionedEffects :=
  foldl (λ p e,
    match e with
    | Persist t => p <| pe_persists := pe_persists p ++ [t] |>
    | Delegate job payload => p <| pe_delegated := Some (job, payload) |>
    | Spawn spec => p <| pe_spawns := pe_spawns p ++ [spec] |>
    | RememberApproval fp => p <| pe_remember := pe_remember p ++ [fp] |>
    | AwaitDecision job call prompt path =>
        p <| pe_awaiting := pe_awaiting p ++ [mkPendingApproval job call prompt path None] |>
    end) (mkPartitionedEffects [] None [] [] []) effects.

(** ** Views *)

Definition tool_call_view (c : ToolCall) : ToolCallView :=
  mkToolCallView (tc_call_id c) (tc_name c) (tc_args c) (Some (mkToolDetail (tc_name c) (tc_args c))).
Definition tool_result_view (o : ToolOutcome) : ToolResultView :=
  mkToolResultView (tr_call_id (to_result o)) (tr_ok (to_result o)) (tr_content (to_result o)) (to_detail o).
Definition tool_result_view_of (r : ToolResult) : ToolResultView :=
  mkToolResultView (tr_call_id r) (tr_ok r) (tr_content r) None.

Definition turn_view (t : Turn) : ConvTurnView :=
  match t with
  | TUser u => mkConvTurnView "user" (um_text u) []
  | TAssistant a => mkConvTurnView "assistant" (am_text a) []
  | TTool t => mkConvTurnView "tool" (am_text (tt_assistant t)) ((λ cr, tc_name cr.1) <$> tt_calls t)
  end.

Definition WIRE_PAGE_MAX : nat := 64.

Definition conv_view_of (s : Snapshot) : ConvView :=
  let all := cv_turns (sn_conversation s) in
  mkConvView (sn_epoch s) (turn_view <$> drop (length all - WIRE_PAGE_MAX) all) (take WIRE_PAGE_MAX (sn_waiting_for s)).

Definition timeout_from_ms (ms : N) : option Duration := if 0 <? ms then Some (from_millis ms) else None.

(** [deduplicate_tool_calls]: the first call of each name and arguments. *)
Fixpoint dedup_from (seen : list (string * bytes)) (calls : list ToolCall) : list ToolCall :=
  match calls with
  | [] => []
  | c :: rest =>
      if bool_decide ((tc_name c, tc_args c) ∈ seen) then dedup_from seen rest
      else c :: dedup_from ((tc_name c, tc_args c) :: seen) rest
  end.
Definition deduplicate_tool_calls : list ToolCall → list ToolCall := dedup_from [].

(** ** Concurrency of a batch *)

Inductive ToolConcurrency := Parallel | Exclusive.

#[export] Instance ToolConcurrency_eq_dec : EqDecision ToolConcurrency.
Proof. solve_decision. Defined.

(** What the registered tool of a call declares about it; a path is its components. *)
Record ToolClass := mkToolClass {
  cl_mutates : bool;
  cl_concurrency : ToolConcurrency;
  cl_paths : option (list (list string));
  cl_rememberable : bool
}.

Definition paths_overlap (left right : list string) : bool :=
  match left, right with
  | [], _ | _, [] => false
  | _, _ => let common := min (length left) (length right) in bool_decide (take common left = take common right)
  end.

Fixpoint reserve (reserved : list (list string)) (paths : list (list string)) : option (list (list string)) :=
  match paths with
  | [] => Some reserved
  | p :: rest => if existsb (λ other, paths_overlap other p) reserved then None else reserve (reserved ++ [p]) rest
  end.

Fixpoint parallel_from (class : ToolCall → option ToolClass) (reserved : list (list string)) (calls : list ToolCall) : bool :=
  match calls with
  | [] => true
  | c :: rest =>
      match class c with
      | None => false
      | Some t =>
          if negb (bool_decide (cl_concurrency t = Parallel)) then false
          else
            match cl_paths t with
            | None => parallel_from class reserved rest
            | Some paths =>
                match reserve reserved paths with
                | None => false
                | Some reserved' => parallel_from class reserved' rest
                end
            end
      end
  end.
Definition batch_is_parallelizable (class : ToolCall → option ToolClass) : list ToolCall → bool := parallel_from class [].

(** ** The engine *)

Record Engine := mkEngine {
  en_snapshot : Snapshot;
  en_pending : list Completion;
  en_budget_tokens : option N;
  en_profile : string;
  en_fallback_profile : option string;
  en_subsystem_profile : option string;
  en_config : Config;
  en_composed : option ComposedPrompt;
  en_composed_dirty : bool;
  en_turn_injection : TurnInjection;
  en_memory : nat;
  en_prompt_sources : nat;
  en_async_sources : nat;
  en_model_sources : nat;
  en_model_id : option string;
  en_nudge_sources : nat;
  en_tool_observers : nat;
  en_next_trigger : option TurnTrigger;
  en_next_origin : option string;
  en_lifecycle_started : bool
}.

#[export] Instance eta_Engine : Eta Engine := λ e,
  mkEngine (en_snapshot e) (en_pending e) (en_budget_tokens e) (en_profile e) (en_fallback_profile e)
    (en_subsystem_profile e) (en_config e) (en_composed e) (en_composed_dirty e) (en_turn_injection e) (en_memory e)
    (en_prompt_sources e) (en_async_sources e) (en_model_sources e) (en_model_id e) (en_nudge_sources e)
    (en_tool_observers e) (en_next_trigger e) (en_next_origin e) (en_lifecycle_started e).

Definition on_snapshot (f : Snapshot → Snapshot) (e : Engine) : Engine := e <| en_snapshot := f (en_snapshot e) |>.
Definition on_conversation (f : Conversation → Conversation) : Engine → Engine :=
  on_snapshot (λ s, s <| sn_conversation := f (sn_conversation s) |>).

(** ** The world *)

Record SteerReq := mkSteerReq { sr_request_id : N; sr_text : bytes }.
Record Lease := mkLease { le_cap_id : string; le_secret : option string }.
Record CredScope := mkCredScope { sc_profiles : list string; sc_actions : list string; sc_tokens : option N }.

(** The data of the context a tool runs with; its handles (the cancellation, the event
    sink, the host, the execution environment, the stores) belong to the world. *)
Record RunCx := mkRunCx {
  rc_session_id : SessionId;
  rc_profile : option string;
  rc_budget_tokens : option N;
  rc_tool_result_budget : N;
  rc_approval_policy : ApprovalPolicy;
  rc_pre_approved : bool;
  rc_tool_timeout : option Duration;
  rc_session_allow : list CommandFingerprint
}.

Inductive SwitchReason := SwStart | SwResume | SwCompaction | SwHandoff | SwEnd.

(** Notifications; a number is the position of a memory provider. *)
Inductive Hook :=
| HOnModel (model : string)
| HSessionStart (id : SessionId)
| HSessionEnd (id : SessionId) (c : Conversation)
| HSessionReset (id : SessionId)
| HAfterResponse (u : UsageDelta)
| HSwitch (i : nat) (r : SwitchReason)
| HBeforeCompact (i : nat) (c : Conversation)
| HAfterTurn (i : nat) (t : Turn) (c : Conversation).

Class World (W : Type) := {
  w_cancelled : W → bool * W;
  w_drain_snapshot : W → list N * W;
  w_drain_observe : W → list UserMsg * W;
  w_drain_steer : W → list SteerReq * W;
  w_nanos : W → N * W;
  w_now_ms : W → N * W;
  (* the backoff: whether the cancellation cut it short *)
  w_sleep : Duration → W → bool * W;
  w_acquire : string → CredScope → W → result bytes Lease * W;
  w_release : Lease → W → W;
  w_rotate : string → string → W → W;
  w_stream : Request → W → list StreamItem * W;
  w_max_context : W → option N;
  w_before_turn : Conversation → option N → W → (Conversation * Pressure) * W;
  w_compact : Conversation → N → W → Conversation * W;
  w_tool_defs : N → W → list ToolDef;
  w_class : W → ToolCall → option ToolClass;
  w_fingerprint : RunCx → ToolCall → W → option CommandFingerprint * W;
  w_run_tool : RunCx → ToolCall → W → ToolOutcome * W;
  w_on_tool_call : nat → ToolCall → W → option bytes * W;
  w_spawn : SpawnSpec → W → W;
  w_recall : nat → bytes → W → option bytes * W;
  w_nudge : nat → N → option string → W → option bytes * W;
  w_guidance : W → option bytes;
  w_prompt_source : nat → W → option (SlotKind * bytes);
  w_model_source : nat → string → W → option (SlotKind * bytes);
  w_async_source : nat → W → option (SlotKind * bytes) * W;
  w_prompt_block : nat → W → option bytes;
  w_hook : Hook → W → W;
  (* [DefaultHasher] over the calls of a round without their ids *)
  w_round_hash : list (string * bytes * bool * bytes) → N;
  (* the summary of a decoded [DelegationResult] *)
  w_delegation_summary : bytes → option bytes
}.

(** What the engine did. *)
Inductive Obs :=
| OEvent (e : AgentEvent)
| OAcquire (l : Lease)
| OStream (r : Request)
| ORelease (l : Lease)
| OFingerprint (c : ToolCall) (fp : option CommandFingerprint)
| ORun (cx : RunCx) (c : ToolCall)
| OSpawn (s : SpawnSpec).

Section engine.
Context {W : Type} `{World W} `{Json}.

Record St := mkSt { st_engine : Engine; st_world : W; st_log : list Obs }.

#[export] Instance eta_St : Eta St := λ s, mkSt (st_engine s) (st_world s) (st_log s).

Definition E A := M St unit A.

Definition engine : E Engine := gets st_engine.
Definition world : E W := gets st_world.
Definition modify_engine (f : Engine → Engine) : E unit := modify (λ s, s <| st_engine := f (st_engine s) |>).
Definition poll {A} (f : W → A * W) : E A := λ s, (Ok (f (st_world s)).1, s <| st_world := (f (st_world s)).2 |>).
Definition tell (f : W → W) : E unit := modify (λ s, s <| st_world := f (st_world s) |>).
Definition note (o : Obs) : E unit := modify (λ s, s <| st_log := st_log s ++ [o] |>).
Definition emit (e : AgentEvent) : E unit := note (OEvent e).

Fixpoint for_each {A} (l : list A) (f : A → E unit) : E unit :=
  match l with [] => mret tt | x :: l' => f x ;; for_each l' f end.

(** *** Hooks *)

Definition memory_hook (f : nat → Hook) : E unit :=
  e ← engine; for_each (seq 0 (en_memory e)) (λ i, tell (w_hook (f i))).

Definition notify_session_switch (r : SwitchReason) : E unit := memory_hook (λ i, HSwitch i r).

Definition before_compact_memory : E unit :=
  e ← engine; memory_hook (λ i, HBeforeCompact i (sn_conversation (en_snapshot e))).

Definition after_turn_memory : E unit :=
  e ← engine;
  match last (cv_turns (sn_conversation (en_snapshot e))) with
  | Some t => memory_hook (λ i, HAfterTurn i t (sn_conversation (en_snapshot e)))
  | None => mret tt
  end.

Definition after_response (u : UsageDelta) : E unit := tell (w_hook (HAfterResponse u)).

(** *** Input and control *)

Definition push_steer_marker (s : SteerReq) : E unit :=
  modify_engine (λ e, (on_conversation (push_user (mkUserMsg (string_bytes "[steer] " ++ sr_text s))) e)
    <| en_next_trigger := Some TrSteer |>).

Definition serve_snapshots : E unit :=
  ids ← poll w_drain_snapshot;
  for_each ids (λ id, e ← engine; emit (SnapshotServed id (conv_view_of (en_snapshot e)))).

Definition boundary : E bool :=
  serve_snapshots ;;
  cancelling ← poll w_cancelled;
  observed ← poll w_drain_observe;
  for_each observed (λ u, modify_engine (on_conversation (push_user u))) ;;
  steers ← poll w_drain_steer;
  for_each steers (λ s,
    if (cancelling : bool) then emit (Steered (sr_request_id s) false)
    else push_steer_marker s ;; emit (Steered (sr_request_id s) true)) ;;
  poll w_cancelled.

Definition boundary_readonly : E bool := serve_snapshots ;; poll w_cancelled.

(** *** The ends of a turn *)

Definition finish (summary : TurnSummary) : E TurnOutcome := emit (TurnFinished summary) ;; mret (TCompleted summary).

Definition finish_interrupted : E TurnOutcome := finish (summary_ended Interrupted).

Definition finish_failed (f : Failure) : E TurnOutcome :=
  match f with
  | FCancelled => finish_interrupted
  | _ => emit (ErrorRaised (failure_text f)) ;; finish (summary_ended Failed)
  end.

Definition complete (out : ModelOutput) (usage : UsageDelta) : E TurnOutcome :=
  finish (mkTurnSummary Completed (Some (mo_text out)) usage).

Definition bump_epoch (s : Snapshot) : Snapshot := s <| sn_epoch := Epoch_next (sn_epoch s) |>.

Definition suspend (job : JobId) (payload : bytes) (bump : bool) : E TurnOutcome :=
  (if bump then modify_engine (on_snapshot bump_epoch) else mret tt) ;;
  emit (TurnFinished (summary_ended Suspended)) ;;
  e ← engine;
  mret (TSuspended (mkSuspension job (sn_epoch (en_snapshot e)) payload)).

Definition suspend_for_approval (job : JobId) (bump : bool) : E TurnOutcome := suspend job APPROVAL_SUSPEND_PAYLOAD bump.

(** *** Composition *)

Definition model_info (e : Engine) : string := default (en_profile e) (en_model_id e).

Definition push_slot (b : ComposedPromptBuilder) (o : option (SlotKind * bytes)) : ComposedPromptBuilder :=
  match o with Some (k, t) => composed_push k t b | None => b end.

Definition compose : E ComposedPrompt :=
  e ← engine;
  w ← world;
  let b := composed_push Identity (cv_system (sn_conversation (en_snapshot e))) [] in
  let b := push_slot b (pair Guidance <$> w_guidance w) in
  let b := foldl (λ b i, push_slot b (w_prompt_source i w)) b (seq 0 (en_prompt_sources e)) in
  let b := foldl (λ b i, push_slot b (w_model_source i (model_info e) w)) b (seq 0 (en_model_sources e)) in
  blocks ← mapM (λ i, poll (w_async_source i)) (seq 0 (en_async_sources e));
  let b := foldl push_slot b blocks in
  w ← world;
  let b := foldl (λ b i, push_slot b (pair MemoryBlock <$> w_prompt_block i w)) b (seq 0 (en_memory e)) in
  mret (composed_build b).

Definition recompose (model : string) : E unit :=
  composed ← compose;
  modify_engine (λ e, (on_snapshot (λ s, s <| sn_composed_prompt := Some composed |> <| sn_composed_model := model |>) e)
    <| en_composed := Some composed |>).

Definition restore_or_compose : E unit :=
  e ← engine;
  let model := model_info e in
  (match sn_composed_prompt (en_snapshot e) with
   | Some stored =>
       if bool_decide (sn_composed_model (en_snapshot e) = model)
       then modify_engine (λ e, e <| en_composed := Some stored |>)
       else recompose model
   | None => recompose model
   end) ;;
  modify_engine (λ e, e <| en_composed_dirty := false |>).

Definition ensure_session_started (resuming : bool) : E unit :=
  e ← engine;
  if en_lifecycle_started e then mret tt
  else
    modify_engine (λ e, e <| en_lifecycle_started := true |>) ;;
    tell (w_hook (HOnModel (model_info e))) ;;
    tell (w_hook (HSessionStart (sn_session_id (en_snapshot e)))) ;;
    notify_session_switch (if resuming then SwResume else SwStart) ;;
    restore_or_compose.

Definition end_session : E unit :=
  e ← engine;
  if negb (en_lifecycle_started e) then mret tt
  else
    modify_engine (λ e, e <| en_lifecycle_started := false |>) ;;
    tell (w_hook (HSessionEnd (sn_session_id (en_snapshot e)) (sn_conversation (en_snapshot e)))) ;;
    notify_session_switch SwEnd.

(** *** The context of a turn *)

Definition latest_user_text (c : Conversation) : bytes :=
  default [] (head (rev (cv_turns c) ≫= λ t, match t with TUser u => [um_text u] | _ => [] end)).

Definition gather_recall : E (list bytes) :=
  e ← engine;
  blocks ← mapM (λ i, poll (w_recall i (latest_user_text (sn_conversation (en_snapshot e))))) (seq 0 (en_memory e));
  mret (blocks ≫= λ o : option bytes, match o with Some b => [b] | None => [] end).

Definition user_turn_count (c : Conversation) : N :=
  N.of_nat (length (List.filter (λ t, match t with TUser _ => true | _ => false end) (cv_turns c))).

Definition gather_nudges (user_turn : bool) (origin : option string) : E (list bytes) :=
  e ← engine;
  if user_turn then
    blocks ← mapM (λ i, poll (w_nudge i (user_turn_count (sn_conversation (en_snapshot e))) origin)) (seq 0 (en_nudge_sources e));
    mret (blocks ≫= λ o : option bytes, match o with Some b => [b] | None => [] end)
  else mret [].

(** The hard cap: the oldest turns go while the estimate is over and two are left. *)
Fixpoint hard_cap (system : bytes) (target : N) (turns : list Turn) : list Turn :=
  match turns with
  | [] => []
  | t :: rest =>
      match rest with
      | [] => turns
      | _ :: _ => if target <? estimate_tokens (mkConversation system turns) then hard_cap system target rest else turns
      end
  end.

Definition cap_conversation (target : N) (c : Conversation) : Conversation :=
  c <| cv_turns := hard_cap (cv_system c) target (cv_turns c) |>.

Definition compact_to (target : N) : E unit :=
  e ← engine;
  c ← poll (w_compact (sn_conversation (en_snapshot e)) target);
  modify_engine (on_conversation (λ _, c)).

Definition turn_count (e : Engine) : N := N.of_nat (length (cv_turns (sn_conversation (en_snapshot e)))).

(** Compaction before a turn: whether turns went, and how many. *)
Definition compact_before_turn (target : N) : E N :=
  before_compact_memory ;;
  before ← gets (λ s, turn_count (st_engine s));
  compact_to target ;;
  modify_engine (on_conversation (cap_conversation target)) ;;
  after ← gets (λ s, turn_count (st_engine s));
  notify_session_switch SwCompaction ;;
  mret (wrap32 (before - after)).

Definition prepare_turn_context (user_turn : bool) (origin : option string) : E unit :=
  e ← engine;
  (if en_composed_dirty e
   then recompose (model_info e) ;; modify_engine (λ e, e <| en_composed_dirty := false |>)
   else mret tt) ;;
  nudges ← gather_nudges user_turn origin;
  recalled ← gather_recall;
  modify_engine (λ e, e <| en_turn_injection := mkTurnInjection recalled nudges |>) ;;
  e ← engine;
  cp ← poll (w_before_turn (sn_conversation (en_snapshot e)) (cf_context_budget_tokens (en_config e)));
  modify_engine (on_conversation (λ _, cp.1)) ;;
  max_context ← gets (λ s, w_max_context (st_world s));
  dropped ← match over_budget cp.2, pr_budget_tokens cp.2 with
            | true, Some target => compact_before_turn target
            | _, _ => mret 0
            end;
  used ← gets (λ s, estimate_tokens (sn_conversation (en_snapshot (st_engine s))));
  emit (ContextChanged (mkContextStatus used max_context (pr_budget_tokens cp.2) (0 <? dropped) dropped)).

Definition compact_context : E bool :=
  e ← engine;
  let target := default (estimate_tokens (sn_conversation (en_snapshot e)) / 2) (cf_context_budget_tokens (en_config e)) in
  let before := turn_count e in
  compact_to target ;;
  e' ← engine;
  let after := turn_count e' in
  if after <? before then
    notify_session_switch SwCompaction ;;
    max_context ← gets (λ s, w_max_context (st_world s));
    emit (ContextChanged (mkContextStatus (estimate_tokens (sn_conversation (en_snapshot e'))) max_context
      (cf_context_budget_tokens (en_config e)) true (wrap32 (before - after)))) ;;
    mret true
  else mret false.

(** *** The model call *)

(** The request digest of the code only checks this function against itself. *)
Definition assemble (tools : list ToolDef) (e : Engine) : Request :=
  let req := build_context (sn_conversation (en_snapshot e)) tools in
  let req := req <| rq_system := default [] (composed_render <$> en_composed e) |> in
  let req := apply_to_last_user (en_turn_injection e) req in
  mark_cache_breakpoints (req <| rq_cache_ttl := cf_cache_ttl (en_config e) |>).

(** One attempt: a lease, the stream under it, the release. *)
Definition attempt_call (tools : list ToolDef) : E (result Failure (result Failure ModelOutput * Lease)) :=
  e ← engine;
  let req := assemble tools e in
  acquired ← poll (w_acquire (en_profile e) (mkCredScope [en_profile e] ["chat"] (en_budget_tokens e)));
  match acquired with
  | Err msg => mret (Err (FProvider (string_bytes "credential acquire: " ++ msg)))
  | Ok lease =>
      note (OAcquire lease) ;;
      let req := req <| rq_auth := le_secret lease |> in
      note (OStream req) ;;
      items ← poll (w_stream req);
      let '(r, evs) := drive_model_call (mp_watchdog (from_config (en_config e))) items in
      for_each evs emit ;;
      tell (w_release lease) ;;
      note (ORelease lease) ;;
      mret (Ok (r, lease))
  end.

Fixpoint call_model_loop (fuel : nat) (tools : list ToolDef) (attempt : N) (compacted : bool) : E (result Failure ModelOutput) :=
  match fuel with
  | O => throw tt
  | S fuel' =>
      cancelled ← poll w_cancelled;
      if (cancelled : bool) then mret (Err FCancelled)
      else
        tried ← attempt_call tools;
        match tried with
        | Err f => mret (Err f)
        | Ok (Ok out, _) => mret (Ok out)
        | Ok (Err failure, lease) =>
            e ← engine;
            nanos ← poll w_nanos;
            match decide_step (from_config (en_config e)) nanos failure attempt with
            | StRetry after =>
                (match failure with
                 | FRateLimit retry_after _ => emit (RateLimited ((λ d, wrap64 (as_millis d)) <$> retry_after))
                 | _ => mret tt
                 end) ;;
                cut ← poll (w_sleep after);
                if (cut : bool) then mret (Err FCancelled) else call_model_loop fuel' tools (attempt +₃₂ 1) compacted
            | StRotate =>
                tell (w_rotate (en_profile e) (le_cap_id lease)) ;; call_model_loop fuel' tools (attempt +₃₂ 1) compacted
            | StCompact =>
                if compacted then mret (Err failure)
                else
                  dropped ← compact_context;
                  if (dropped : bool) then call_model_loop fuel' tools attempt true else mret (Err failure)
            | StFallback =>
                match en_fallback_profile e with
                | Some fb =>
                    if bool_decide (fb = en_profile e) then mret (Err failure)
                    else modify_engine (λ e, e <| en_profile := fb |>) ;; call_model_loop fuel' tools 0 compacted
                | None => mret (Err failure)
                end
            | StAbort => mret (Err failure)
            end
        end
  end.

(** Enough attempts: the retries of the profile, one fallback with its own retries, one
    compaction. *)
Definition call_fuel (c : Config) : nat := N.to_nat (2 * cf_model_max_retries c + 3).

Definition call_model (offer_tools : bool) : E (result Failure ModelOutput) :=
  e ← engine;
  w ← world;
  let tools := if offer_tools then w_tool_defs (cf_tool_search_threshold_bytes (en_config e)) w else [] in
  call_model_loop (call_fuel (en_config e)) tools 0 false.

Definition finalize_text (out : ModelOutput) : E unit :=
  modify_engine (on_conversation (push_assistant (mkAssistantMsg (mo_text out) (mo_reasoning out)))).

Definition finish_with_final_summary (reason : EndReason) (usage : UsageDelta) : E TurnOutcome :=
  r ← call_model false;
  match r with
  | Err f => finish_failed f
  | Ok out =>
      finalize_text out ;;
      finish (mkTurnSummary reason (Some (mo_text out)) (UsageDelta_add usage (mo_usage out)))
  end.

Definition finish_budget_exhausted : UsageDelta → E TurnOutcome := finish_with_final_summary BudgetExhausted.
Definition finish_no_progress : UsageDelta → E TurnOutcome := finish_with_final_summary NoProgress.

(** *** Tools *)

Definition run_tool (cx : RunCx) (call : ToolCall) : E ToolOutcome := note (ORun cx call) ;; poll (w_run_tool cx call).

Definition append_hint (content hint : bytes) : bytes := (if nonempty content then content ++ blank_line else content) ++ hint.

Fixpoint observe_from (observers : list nat) (call : ToolCall) (content : bytes) : E bytes :=
  match observers with
  | [] => mret content
  | i :: rest =>
      hint ← poll (w_on_tool_call i call);
      observe_from rest call (match hint with Some h => append_hint content h | None => content end)
  end.

Definition observe_tool_call (call : ToolCall) (content : bytes) : E bytes :=
  e ← engine; observe_from (seq 0 (en_tool_observers e)) call content.

Definition with_content (o : ToolOutcome) (content : bytes) : ToolOutcome :=
  mkToolOutcome (mkToolResult (tr_call_id (to_result o)) (tr_ok (to_result o)) content) (to_detail o) (to_effects o).

(** A blocked call. *)
Definition refuse_call (call : ToolCall) (d : GuardrailDecision) : E ToolResult :=
  let r := mkToolResult (tc_call_id call) false (block_result_content d) in
  emit (ToolFinished (tool_result_view_of r)) ;; mret r.

(** A call that ran: guidance, hints, the event. *)
Definition settle_call (call : ToolCall) (idem : bool) (g : ToolGuardrail) (o : ToolOutcome)
    : E (ToolOutcome * ToolGuardrail) :=
  let '(d, g') := after_call (tc_name call) (tc_args call) (to_result o) idem g in
  content ← observe_tool_call call (append_guidance (tr_content (to_result o)) d);
  let o' := with_content o content in
  emit (ToolFinished (tool_result_view o')) ;;
  mret (o', g').

(** A call with its classification and the preflight's block. *)
Record Checked := mkChecked { ck_call : ToolCall; ck_idempotent : bool; ck_blocked : option GuardrailDecision }.

Definition idempotent_call (class : ToolCall → option ToolClass) (c : ToolCall) : bool :=
  match class c with
  | Some t => negb (cl_mutates t) && bool_decide (cl_concurrency t = Parallel)
  | None => false
  end.

Fixpoint preflight (class : ToolCall → option ToolClass) (calls : list ToolCall) (g : ToolGuardrail)
    : list Checked * ToolGuardrail :=
  match calls with
  | [] => ([], g)
  | c :: rest =>
      let idem := idempotent_call class c in
      let '(d, g) := before_call (tc_name c) (tc_args c) idem g in
      let '(l, g) := preflight class rest g in
      (mkChecked c idem (if allows_execution d then None else Some d) :: l, g)
  end.

Record BatchOut := mkBatchOut {
  bo_calls : list (ToolCall * ToolResult);
  bo_effects : list Effect;
  bo_guardrail : ToolGuardrail
}.

Definition push_call (b : BatchOut) (c : ToolCall) (r : ToolResult) (effects : list Effect) (g : ToolGuardrail) : BatchOut :=
  mkBatchOut (bo_calls b ++ [(c, r)]) (bo_effects b ++ effects) g.

(** The outcomes of a concurrent batch, drained in call order. *)
Fixpoint drain_batch (l : list (Checked * option ToolOutcome)) (b : BatchOut) : E BatchOut :=
  match l with
  | [] => mret b
  | (k, ran) :: rest =>
      match ck_blocked k with
      | Some d =>
          r ← refuse_call (ck_call k) d;
          drain_batch rest (push_call b (ck_call k) r [] (bo_guardrail b))
      | None =>
          let o := default (mkToolOutcome (mkToolResult (tc_call_id (ck_call k)) false (string_bytes "missing tool outcome")) None []) ran in
          og ← settle_call (ck_call k) (ck_idempotent k) (bo_guardrail b) o;
          drain_batch rest (push_call b (ck_call k) (to_result og.1) (to_effects og.1) og.2)
      end
  end.

Fixpoint run_serial (cx : RunCx) (l : list Checked) (b : BatchOut) : E (BatchOut * bool) :=
  match l with
  | [] => mret (b, false)
  | k :: rest =>
      emit (ToolStarted (tool_call_view (ck_call k))) ;;
      b' ← match ck_blocked k with
           | Some d => r ← refuse_call (ck_call k) d; mret (push_call b (ck_call k) r [] (bo_guardrail b))
           | None =>
               o ← run_tool cx (ck_call k);
               og ← settle_call (ck_call k) (ck_idempotent k) (bo_guardrail b) o;
               mret (push_call b (ck_call k) (to_result og.1) (to_effects og.1) og.2)
           end;
      interrupted ← boundary_readonly;
      if (interrupted : bool) then mret (b', true) else run_serial cx rest b'
  end.

(** The calls of a concurrent chunk interleave; their outcomes are taken in index
    order, so the batch is the sequence of its runs. *)
Definition run_parallel (cx : RunCx) (l : list Checked) (b : BatchOut) : E (BatchOut * bool) :=
  for_each l (λ k, emit (ToolStarted (tool_call_view (ck_call k)))) ;;
  ran ← mapM (λ k, match ck_blocked k with
                   | Some _ => mret (k, None)
                   | None => o ← run_tool cx (ck_call k); mret (k, Some o)
                   end) l;
  b' ← drain_batch ran b;
  interrupted ← boundary_readonly;
  mret (b', interrupted).

Definition execute_tool_batch (cx : RunCx) (calls : list ToolCall) (g : ToolGuardrail) : E (BatchOut * bool) :=
  w ← world;
  let '(checked, g) := preflight (w_class w) calls g in
  let b := mkBatchOut [] [] g in
  if (1 <? length calls)%nat && batch_is_parallelizable (w_class w) calls
  then run_parallel cx checked b
  else run_serial cx checked b.

(** *** Completions and approvals *)

Definition update_results (f : ToolResult → ToolResult) (c : Conversation) : Conversation :=
  c <| cv_turns := (λ t, match t with
                         | TTool k => TTool (mkToolTurn (tt_assistant k) ((λ cr, (cr.1, f cr.2)) <$> tt_calls k))
                         | t => t
                         end) <$> cv_turns c |>.

Definition resolve_one (co : Completion) (r : ToolResult) : ToolResult :=
  let summary := default (from_utf8_lossy (co_payload co)) (w_delegation_summary (co_payload co)) in
  if contains (string_bytes (co_job_id co)) (tr_content r)
  then mkToolResult (tr_call_id r) true (string_bytes "completed:" ++ string_bytes (co_job_id co) ++ string_bytes ":" ++ summary)
  else r.

Definition resolve_pending : E unit :=
  e ← engine;
  modify_engine (λ e, (on_conversation (λ c, foldl (λ c co, update_results (resolve_one co) c) c (en_pending e)) e)
    <| en_pending := [] |>).

(** The first result that holds the marker of the parked call. *)
Fixpoint replace_first (f : ToolResult → option ToolResult) (l : list (ToolCall * ToolResult)) : option (list (ToolCall * ToolResult)) :=
  match l with
  | [] => None
  | (c, r) :: rest =>
      match f r with
      | Some r' => Some ((c, r') :: rest)
      | None => (λ rest', (c, r) :: rest') <$> replace_first f rest
      end
  end.

Fixpoint replace_in_turns (f : ToolResult → option ToolResult) (l : list Turn) : list Turn :=
  match l with
  | [] => []
  | TTool k :: rest =>
      match replace_first f (tt_calls k) with
      | Some calls => TTool (mkToolTurn (tt_assistant k) calls) :: rest
      | None => TTool k :: replace_in_turns f rest
      end
  | t :: rest => t :: replace_in_turns f rest
  end.

Definition awaiting_marker (job : JobId) : bytes := string_bytes ("awaiting-approval:" +:+ job).

Definition replace_awaiting_result (job : JobId) (ok : bool) (content : bytes) : E unit :=
  modify_engine (on_conversation (λ c, c <| cv_turns :=
    replace_in_turns (λ r, if contains (awaiting_marker job) (tr_content r) then Some (mkToolResult (tr_call_id r) ok content) else None)
      (cv_turns c) |>)).

Definition remember_session_allow (fp : CommandFingerprint) : E unit :=
  e ← engine;
  if existsb (λ r, bool_decide (ra_fingerprint r = fp)) (sn_session_allow_fingerprints (en_snapshot e)) then mret tt
  else
    now ← poll w_now_ms;
    modify_engine (on_snapshot (λ s, s <| sn_session_allow_fingerprints :=
      sn_session_allow_fingerprints s ++ [mkRememberedApproval fp now None] |>)).

Definition effective_policy (e : Engine) : ApprovalPolicy :=
  default (cf_approval_policy (en_config e)) (sn_approval_policy (en_snapshot e)).

Definition turn_cx (pre_approved : bool) (policy : ApprovalPolicy) (e : Engine) : RunCx :=
  mkRunCx (sn_session_id (en_snapshot e)) (en_subsystem_profile e) (en_budget_tokens e)
    (cf_tool_result_budget (en_config e)) policy pre_approved (timeout_from_ms (cf_tool_timeout_ms (en_config e)))
    (ra_fingerprint <$> sn_session_allow_fingerprints (en_snapshot e)).

Definition refused_content (job : JobId) : bytes :=
  string_bytes ("refused: the resolved command or target state no longer matches what was approved (request " +:+ job +:+
    ")") ++ string_bytes " — it changed while the approval was pending. Re-read the target and retry with a fresh call.".

Definition resolved_fingerprint (cx : RunCx) (c : ToolCall) : E (option CommandFingerprint) :=
  fp ← poll (w_fingerprint cx c); note (OFingerprint c fp) ;; mret fp.

(** Whether what would run now is what was approved. *)
Definition verify_approval (cx : RunCx) (a : PendingApproval) : E bool :=
  match pa_fingerprint a with
  | None => mret true
  | Some expected =>
      w ← world;
      match w_class w (pa_call a) with
      | Some _ => now ← resolved_fingerprint cx (pa_call a); mret (bool_decide (now = Some expected))
      | None => mret false
      end
  end.

Definition answer_parked (cx : RunCx) (a : PendingApproval) (payload : bytes) : E (bool * bytes) :=
  if decision_allows payload then
    verified ← verify_approval cx a;
    if (verified : bool) then
      o ← run_tool cx (pa_call a);
      (match decision_permanent payload, pa_fingerprint a with
       | true, Some fp =>
           w ← world;
           match w_class w (pa_call a) with
           | Some t => if cl_rememberable t then remember_session_allow fp else mret tt
           | None => mret tt
           end
       | _, _ => mret tt
       end) ;;
      mret (tr_ok (to_result o), tr_content (to_result o))
    else mret (false, refused_content (pa_job_id a))
  else mret (false, denial_content (pa_job_id a) payload).

(** [position] and [remove]. *)
Fixpoint take_approval (job : JobId) (l : list PendingApproval) : option (PendingApproval * list PendingApproval) :=
  match l with
  | [] => None
  | a :: rest =>
      if bool_decide (pa_job_id a = job) then Some (a, rest)
      else (λ ar, (ar.1, a :: ar.2)) <$> take_approval job rest
  end.

Fixpoint resolve_each (cx : RunCx) (pending : list Completion) : E (list Completion) :=
  match pending with
  | [] => mret []
  | co :: rest =>
      e ← engine;
      match take_approval (co_job_id co) (sn_pending_approvals (en_snapshot e)) with
      | Some (a, others) =>
          modify_engine (on_snapshot (λ s, s <| sn_pending_approvals := others |>)) ;;
          r ← answer_parked cx a (co_payload co);
          replace_awaiting_result (pa_job_id a) r.1 r.2 ;;
          resolve_each cx rest
      | None => unresolved ← resolve_each cx rest; mret (co :: unresolved)
      end
  end.

Definition resolve_approvals : E unit :=
  e ← engine;
  modify_engine (λ e, e <| en_pending := [] |>) ;;
  rest ← resolve_each (turn_cx true (effective_policy e) e) (en_pending e);
  modify_engine (λ e, e <| en_pending := rest |>).

(** *** Reviews *)

Definition issue_spawn (spec : SpawnSpec) : E unit := note (OSpawn spec) ;; tell (w_spawn spec).

Definition sat_add32 (a b : N) : N := N.min (a + b) (u32_bound - 1).

(** One cadence: the new counter, and whether its review is due. *)
Definition cadence (counter step interval : N) (reset : bool) : N * bool :=
  let n := sat_add32 counter step in
  if reset then (0, false)
  else if (0 <? interval) && (interval <=? n) then (0, true)
  else (n, false).

Record ReviewSignals := mkReviewSignals { rs_tool_rounds : N; rs_used_skill_tool : bool; rs_used_memory_tool : bool }.

Definition maybe_emit_reviews (sig : ReviewSignals) : E unit :=
  e ← engine;
  let skill := cadence (sn_iters_since_skill (en_snapshot e)) (rs_tool_rounds sig)
    (cf_skill_review_interval (en_config e)) (rs_used_skill_tool sig) in
  let memory := cadence (sn_turns_since_memory (en_snapshot e)) 1
    (cf_memory_review_interval (en_config e)) (rs_used_memory_tool sig) in
  modify_engine (on_snapshot (λ s, s <| sn_iters_since_skill := skill.1 |> <| sn_turns_since_memory := memory.1 |>)) ;;
  for_each ((if skill.2 then [mkSpawnSpec "skill_review" FromConversation] else []) ++
            (if memory.2 then [mkSpawnSpec "memory_review" FromConversation] else [])) issue_spawn.

(** *** The turn *)

Definition round_signature (calls : list (ToolCall * ToolResult)) : N :=
  w_round_hash ((λ cr, (tc_name cr.1, tc_args cr.1, tr_ok cr.2, tr_content cr.2)) <$> calls).

(** What a turn carries from round to round. *)
Record Rounds := mkRounds {
  ro_usage : UsageDelta;
  ro_tool_rounds : N;
  ro_used_skill : bool;
  ro_used_memory : bool;
  ro_last_sig : option N;
  ro_repeated : N;
  ro_guardrail : ToolGuardrail
}.

Definition name_starts (p : string) (c : ToolCall) : bool := starts_with (string_bytes p) (string_bytes (tc_name c)).

(** The skill and memory tools of a batch. *)
Definition note_tools (calls : list ToolCall) (r : Rounds) : Rounds :=
  mkRounds (ro_usage r) (sat_add32 (ro_tool_rounds r) 1)
    (ro_used_skill r || existsb (name_starts "skill_manage") calls)
    (ro_used_memory r || existsb (λ c, negb (name_starts "skill_manage" c) && name_starts "mnemosyne_" c) calls)
    (ro_last_sig r) (ro_repeated r) (ro_guardrail r).

Definition add_usage (u : UsageDelta) (r : Rounds) : Rounds :=
  mkRounds (UsageDelta_add (ro_usage r) u) (ro_tool_rounds r) (ro_used_skill r) (ro_used_memory r) (ro_last_sig r)
    (ro_repeated r) (ro_guardrail r).

Definition next_round (sig : N) (g : ToolGuardrail) (r : Rounds) : Rounds :=
  mkRounds (ro_usage r) (ro_tool_rounds r) (ro_used_skill r) (ro_used_memory r) (Some sig)
    (if bool_decide (ro_last_sig r = Some sig) then ro_repeated r +₃₂ 1 else 0) g.

(** The fingerprints of the parked calls. *)
Definition stamp_approval (cx : RunCx) (a : PendingApproval) : E PendingApproval :=
  w ← world;
  match w_class w (pa_call a) with
  | Some _ => fp ← resolved_fingerprint cx (pa_call a); mret (a <| pa_fingerprint := fp |>)
  | None => mret a
  end.

Definition park (cx : RunCx) (awaiting : list PendingApproval) : E (list PendingApproval) :=
  stamped ← mapM (stamp_approval cx) awaiting;
  notify_session_switch SwHandoff ;;
  modify_engine (on_snapshot (λ s,
    s <| sn_waiting_for := sn_waiting_for s ++ (pa_job_id <$> stamped) |>
      <| sn_pending_approvals := sn_pending_approvals s ++ stamped |>)) ;;
  mret stamped.

(** The applier: the tool turn and the effects of its batch, up to the suspension. *)
Definition apply_batch (out : ModelOutput) (b : BatchOut) : E PartitionedEffects :=
  let p := partition_tool_effects (bo_effects b) in
  modify_engine (on_conversation (push_turn (TTool (mkToolTurn (mkAssistantMsg (mo_text out) (mo_reasoning out)) (bo_calls b))))) ;;
  for_each (pe_persists p) (λ t, modify_engine (on_conversation (push_turn t))) ;;
  for_each (pe_remember p) remember_session_allow ;;
  for_each (pe_spawns p) issue_spawn ;;
  mret p.

(** A round that ends the turn, or the state of the next one. *)
Definition tool_round (policy : ApprovalPolicy) (out : ModelOutput) (calls : list ToolCall) (r : Rounds)
    : E (TurnOutcome + Rounds) :=
  e ← engine;
  let cx := turn_cx false policy e in
  let r := note_tools calls r in
  bi ← execute_tool_batch cx calls (ro_guardrail r);
  let sig := round_signature (bo_calls bi.1) in
  p ← apply_batch out bi.1;
  if (bi.2 : bool) then o ← finish_interrupted; mret (inl o)
  else
    match pe_awaiting p, pe_delegated p with
    | a :: rest, _ =>
        _ ← park cx (a :: rest);
        o ← suspend_for_approval (pa_job_id a) true; mret (inl o)
    | [], Some (job, payload) =>
        notify_session_switch SwHandoff ;;
        modify_engine (on_snapshot (λ s, s <| sn_waiting_for := sn_waiting_for s ++ [job] |>)) ;;
        o ← suspend job payload true; mret (inl o)
    | [], None =>
        let r' := next_round sig (bo_guardrail bi.1) r in
        let stuck := match halt_decision (bo_guardrail bi.1) with
          | Some _ => true
          | None => (0 <? cf_max_repeated_rounds (en_config e)) && (cf_max_repeated_rounds (en_config e) <=? ro_repeated r' +₃₂ 1)
          end in
        after_turn_memory ;;
        after_response (mo_usage out) ;;
        if stuck then o ← finish_no_progress (ro_usage r'); mret (inl o) else mret (inr r')
    end.

Fixpoint react_loop (rounds : nat) (policy : ApprovalPolicy) (r : Rounds) : E TurnOutcome :=
  match rounds with
  | O => finish_budget_exhausted (ro_usage r)
  | S rounds' =>
      res ← call_model true;
      match res with
      | Err f => finish_failed f
      | Ok out =>
          let r := add_usage (mo_usage out) r in
          interrupted ← boundary;
          if (interrupted : bool) then finish_interrupted
          else
            match deduplicate_tool_calls (mo_tool_calls out) with
            | [] =>
                finalize_text out ;;
                after_turn_memory ;;
                after_response (mo_usage out) ;;
                maybe_emit_reviews (mkReviewSignals (ro_tool_rounds r) (ro_used_skill r) (ro_used_memory r)) ;;
                complete out (ro_usage r)
            | calls =>
                next ← tool_round policy out calls r;
                match next with inl o => mret o | inr r' => react_loop rounds' policy r' end
            end
      end
  end.

(** The part of a turn after its resumption is settled. *)
Definition run_rounds (resuming user_turn : bool) (origin : option string) : E TurnOutcome :=
  ensure_session_started resuming ;;
  prepare_turn_context user_turn origin ;;
  e ← engine;
  react_loop (N.to_nat (cf_max_iterations (en_config e))) (effective_policy e)
    (mkRounds UsageDelta_default 0 false false None 0 (ToolGuardrail_new (cf_guardrail (en_config e)))).

Definition nil_b {A} (l : list A) : bool := match l with [] => true | _ => false end.

(** The resumption: a new suspension, or the turn goes on. *)
Definition resume_turn (resuming : bool) : E (option TurnOutcome) :=
  e ← engine;
  if resuming then
    (if nil_b (sn_pending_approvals (en_snapshot e)) then mret tt else resolve_approvals) ;;
    resolve_pending ;;
    e ← engine;
    match sn_pending_approvals (en_snapshot e) with
    | a :: _ =>
        modify_engine (on_snapshot (λ s, s <| sn_waiting_for := pa_job_id <$> sn_pending_approvals s |>)) ;;
        o ← suspend_for_approval (pa_job_id a) false; mret (Some o)
    | [] => modify_engine (on_snapshot (λ s, bump_epoch (s <| sn_waiting_for := [] |>))) ;; mret None
    end
  else
    match sn_waiting_for (en_snapshot e) with
    | [] => mret None
    | job :: _ =>
        o ← (if nil_b (sn_pending_approvals (en_snapshot e)) then suspend job (string_bytes "delegated-work") false
             else suspend_for_approval job false);
        mret (Some o)
    end.

Definition turn_trigger (e : Engine) : TurnTrigger :=
  default (match en_pending e with
           | co :: _ => TrBackgroundCompletion (CsDelegation (co_job_id co))
           | [] => TrUser
           end) (en_next_trigger e).

Definition run_turn : E TurnOutcome :=
  e ← engine;
  let resuming := negb (nil_b (en_pending e)) in
  let trigger := turn_trigger e in
  let user_turn := match trigger with TrUser | TrSteer => true | _ => false end in
  modify_engine (λ e, e <| en_next_origin := None |> <| en_next_trigger := None |>) ;;
  emit (TurnStarted trigger) ;;
  interrupted ← boundary;
  if (interrupted : bool) then finish_interrupted
  else
    resumed ← resume_turn resuming;
    match resumed with
    | Some o => mret o
    | None => run_rounds resuming user_turn (en_next_origin e)
    end.
End engine.

(** ** Completions, input and rewind *)

(** The completions of a job that is still awaited are stashed, the others dropped. *)
Definition apply_completions (completions : list Completion) (e : Engine) : Engine :=
  foldl (λ e co, if bool_decide (co_job_id co ∈ sn_waiting_for (en_snapshot e))
                 then e <| en_pending := en_pending e ++ [co] |> else e) e completions.

Definition note_consumed_splice (seq : N) : Engine → Engine :=
  on_snapshot (λ s, s <| sn_consumed_splice_seq := N.max (sn_consumed_splice_seq s) seq |>).

Definition set_approval_policy (p : ApprovalPolicy) : Engine → Engine := on_snapshot (λ s, s <| sn_approval_policy := Some p |>).

Inductive RewindAnchor := AnchorUserTurn (ordinal : N) | AnchorReplyAfter (ordinal : N) | AnchorCursor (seq : N).
Inductive RewindError := OutOfRange | NotAUserTurn.

Record RewindOutcome := mkRewindOutcome { ro_retained_turns : nat; ro_epoch : Epoch; ro_dropped_call_ids : list string }.

Definition is_user_turn (t : option Turn) : bool := match t with Some (TUser _) => true | _ => false end.

Definition resolve_anchor (turns : list Turn) (anchor : RewindAnchor) (len : nat) : result RewindError nat :=
  let user o keep :=
    if (len <=? o)%nat then Err OutOfRange else if is_user_turn (turns !! o) then Ok keep else Err NotAUserTurn in
  match anchor with
  | AnchorUserTurn ordinal => user (N.to_nat ordinal) (N.to_nat ordinal)
  | AnchorReplyAfter ordinal => user (N.to_nat ordinal) (S (N.to_nat ordinal))
  | AnchorCursor seq => if (len <? N.to_nat seq)%nat then Err OutOfRange else Ok (N.to_nat seq)
  end.

Definition turn_call_ids (t : Turn) : list string :=
  match t with TTool k => (λ cr, tc_call_id cr.1) <$> tt_calls k | _ => [] end.

Definition rewind_snapshot (s : Snapshot) (anchor : RewindAnchor) : result RewindError (RewindOutcome * Snapshot) :=
  let turns := cv_turns (sn_conversation s) in
  match resolve_anchor turns anchor (length turns) with
  | Err e => Err e
  | Ok retained =>
      let s' := bump_epoch (s <| sn_conversation := (sn_conversation s) <| cv_turns := take retained turns |> |>
        <| sn_waiting_for := [] |> <| sn_pending_approvals := [] |>
        <| sn_iters_since_skill := 0 |> <| sn_turns_since_memory := 0 |>) in
      Ok (mkRewindOutcome retained (sn_epoch s') (drop retained turns ≫= turn_call_ids), s')
  end.

Definition rewind_to {W} `{World W} (anchor : RewindAnchor) (request : N) : @E W (result RewindError RewindOutcome) :=
  e ← engine;
  match rewind_snapshot (en_snapshot e) anchor with
  | Err err => mret (Err err)
  | Ok (outcome, s') =>
      modify_engine (λ e, e <| en_snapshot := s' |> <| en_pending := [] |> <| en_next_trigger := None |> <| en_next_origin := None |>) ;;
      (if (ro_retained_turns outcome =? 0)%nat then tell (w_hook (HSessionReset (sn_session_id s'))) else mret tt) ;;
      emit (Rewound request (N.of_nat (ro_retained_turns outcome)) (ro_epoch outcome)) ;;
      mret (Ok outcome)
  end.
