(* ===== verification/EngineLog.v ===== *)
(** * The log of a turn

    Total-correctness triples for the engine over its log, the frame of the operations
    that leave the suspension state alone, and what they give: the bracketing of a turn's
    events, the pairing of tool events, the discipline of leases, and the bound on the
    number of model calls. *)

From S2P Require Import Prelude Text Common Approval CoreConversation Guardrail ModelCall Engine.
#[local] Open Scope daemon_scope.
#[local] Open Scope N_scope.

Section triples.
Context {W : Type} `{World W} `{Json}.
Implicit Types e : Engine.

(** From an engine satisfying [Pre] the computation returns, appends to the log, and
    relates the two engines, the value and what it appended by [Q]. *)
Definition runs {A} (Pre : Engine → Prop) (m : @E W A) (Q : Engine → A → Engine → list Obs → Prop) : Prop :=
  ∀ s, Pre (st_engine s) → ∃ a s' new,
    m s = (Ok a, s') ∧ st_log s' = st_log s ++ new ∧ Q (st_engine s) a (st_engine s') new.

Lemma runs_ret {A} Pre (a : A) Q : (∀ e, Pre e → Q e a e []) → runs Pre (mret a) Q.
Proof. intros HQ s Hs. exists a, s, []. rewrite app_nil_r. auto. Qed.

Lemma runs_bind {A B} Pre (m : @E W A) (f : A → @E W B) Q1 (Q : Engine → B → Engine → list Obs → Prop) :
  runs Pre m Q1 →
  (∀ e a e1 n1, Pre e → Q1 e a e1 n1 → runs (eq e1) (f a) (λ _ b e2 n2, Q e b e2 (n1 ++ n2))) →
  runs Pre (m ≫= f) Q.
Proof.
  intros Hm Hf s Hs. destruct (Hm s Hs) as (a & s1 & n1 & Hr & Hl & Hq).
  destruct (Hf _ _ _ _ Hs Hq s1 eq_refl) as (b & s2 & n2 & Hr2 & Hl2 & Hq2).
  exists b, s2, (n1 ++ n2). rewrite (M_bind_ok _ _ _ _ _ Hr), Hr2, Hl2, Hl, app_assoc. auto.
Qed.

Lemma runs_conseq {A} (Pre Pre' : Engine → Prop) (m : @E W A) (Q Q' : Engine → A → Engine → list Obs → Prop) :
  runs Pre m Q → (∀ e, Pre' e → Pre e) → (∀ e a e' n, Pre' e → Q e a e' n → Q' e a e' n) → runs Pre' m Q'.
Proof.
  intros Hm HP HQ s Hs. destruct (Hm s (HP _ Hs)) as (a & s' & n & Hr & Hl & Hq). exists a, s', n. auto.
Qed.

Lemma runs_pre {A} Pre (m : @E W A) Q : runs (λ _, True) m Q → runs Pre m Q.
Proof. intros Hm. by eapply runs_conseq. Qed.

Lemma runs_gets {A} Pre (f : @St W → A) Q : (∀ s, Pre (st_engine s) → Q (st_engine s) (f s) (st_engine s) []) → runs Pre (gets f) Q.
Proof. intros HQ s Hs. exists (f s), s, []. rewrite app_nil_r. auto. Qed.

Lemma runs_poll {A} Pre (f : W → A * W) Q : (∀ e a, Pre e → Q e a e []) → runs Pre (poll f) Q.
Proof. intros HQ s Hs. do 2 eexists. exists []. rewrite app_nil_r. split; [done|]. split; [done|]. by apply HQ. Qed.

Lemma runs_tell Pre (f : W → W) (Q : Engine → unit → Engine → list Obs → Prop) : (∀ e, Pre e → Q e () e []) → runs Pre (tell f) Q.
Proof. intros HQ s Hs. do 2 eexists. exists []. rewrite app_nil_r. split; [done|]. split; [done|]. by apply HQ. Qed.

Lemma runs_modify Pre f (Q : Engine → unit → Engine → list Obs → Prop) : (∀ e, Pre e → Q e () (f e) []) → runs Pre (modify_engine f) Q.
Proof. intros HQ s Hs. do 2 eexists. exists []. rewrite app_nil_r. split; [done|]. split; [done|]. by apply HQ. Qed.

Lemma runs_note Pre o (Q : Engine → unit → Engine → list Obs → Prop) : (∀ e, Pre e → Q e () e [o]) → runs Pre (note o) Q.
Proof. intros HQ s Hs. do 2 eexists. exists [o]. split; [done|]. split; [done|]. by apply HQ. Qed.

Lemma runs_note_exact Pre o : runs Pre (note o) (λ e _ e' n, e' = e ∧ n = [o]).
Proof. by apply runs_note. Qed.
Lemma runs_poll_exact {A} Pre (f : W → A * W) : runs Pre (poll f) (λ e _ e' n, e' = e ∧ n = []).
Proof. by apply runs_poll. Qed.

Lemma runs_assoc {A B C} Pre (m : @E W A) (f : A → @E W B) (g : B → @E W C) Q :
  runs Pre ((m ≫= f) ≫= g) Q → runs Pre (m ≫= λ x, f x ≫= g) Q.
Proof.
  intros Hr s Hs. destruct (Hr s Hs) as (a & s' & n & Heq & Hrest). exists a, s', n. split; [|done].
  rewrite <- Heq. unfold mbind, M_bind. by destruct (m s) as [[x|u] s1].
Qed.

(** Starting from one engine. *)
Lemma runs_from {A} (Pre : Engine → Prop) (m : @E W A) Q : (∀ e, Pre e → runs (eq e) m Q) → runs Pre m Q.
Proof. intros Hm s Hs. by apply (Hm _ Hs s). Qed.

(** ** Operations that leave the suspension state alone *)

Record frame e e' : Prop := {
  fr_config : en_config e' = en_config e;
  fr_profile : en_profile e' = en_profile e;
  fr_fallback : en_fallback_profile e' = en_fallback_profile e;
  fr_pending : en_pending e' = en_pending e;
  fr_epoch : sn_epoch (en_snapshot e') = sn_epoch (en_snapshot e);
  fr_waiting : sn_waiting_for (en_snapshot e') = sn_waiting_for (en_snapshot e);
  fr_approvals : sn_pending_approvals (en_snapshot e') = sn_pending_approvals (en_snapshot e)
}.

Lemma frame_refl e : frame e e.
Proof. by split. Qed.
Lemma frame_trans e1 e2 e3 : frame e1 e2 → frame e2 e3 → frame e1 e3.
Proof. intros [] []. split; congruence. Qed.

Definition Keeps {A} (P : list Obs → Prop) (m : @E W A) : Prop := runs (λ _, True) m (λ e _ e' n, frame e e' ∧ P n).

(** A property of logs closed under concatenation. *)
Class LogProp (P : list Obs → Prop) := { lp_nil : P []; lp_app : ∀ a b, P a → P b → P (a ++ b) }.

Section keeps.
Context (P : list Obs → Prop) `{!LogProp P}.

Lemma Keeps_pre {A} Pre (m : @E W A) : Keeps P m → runs Pre m (λ e _ e' n, frame e e' ∧ P n).
Proof. intros Hm. eapply runs_conseq; [exact Hm|done|done]. Qed.

Lemma Keeps_ret {A} (a : A) : Keeps P (mret a).
Proof. apply runs_ret. intros e _. split; [apply frame_refl|apply lp_nil]. Qed.

Lemma Keeps_bind {A B} (m : @E W A) (f : A → @E W B) : Keeps P m → (∀ a, Keeps P (f a)) → Keeps P (m ≫= f).
Proof.
  intros Hm Hf. eapply runs_bind; [exact Hm|]. intros e a e1 n1 _ [Hfr Hp].
  eapply runs_conseq; [apply (Keeps_pre (eq e1)), Hf|done|]. intros ? b e2 n2 <- [Hfr2 Hp2].
  split; [by eapply frame_trans|by apply lp_app].
Qed.

Lemma Keeps_gets {A} (f : @St W → A) : Keeps P (gets f).
Proof. apply runs_gets. intros s _. split; [apply frame_refl|apply lp_nil]. Qed.
Lemma Keeps_engine : Keeps P engine.
Proof. apply Keeps_gets. Qed.
Lemma Keeps_world : Keeps P world.
Proof. apply Keeps_gets. Qed.
Lemma Keeps_poll {A} (f : W → A * W) : Keeps P (poll f).
Proof. apply runs_poll. intros e a _. split; [apply frame_refl|apply lp_nil]. Qed.
Lemma Keeps_tell f : Keeps P (tell f).
Proof. apply runs_tell. intros e _. split; [apply frame_refl|apply lp_nil]. Qed.
Lemma Keeps_modify f : (∀ e, frame e (f e)) → Keeps P (modify_engine f).
Proof. intros Hf. apply runs_modify. intros e _. split; [apply Hf|apply lp_nil]. Qed.
Lemma Keeps_note o : P [o] → Keeps P (note o).
Proof. intros Ho. apply runs_note. intros e _. split; [apply frame_refl|done]. Qed.
Lemma Keeps_emit ev : P [OEvent ev] → Keeps P (emit ev).
Proof. apply Keeps_note. Qed.

Lemma Keeps_for_each {A} (l : list A) f : (∀ x, Keeps P (f x)) → Keeps P (for_each l f).
Proof. intros Hf. induction l as [|x l IH]; cbn [for_each]; [apply Keeps_ret|]. by apply Keeps_bind. Qed.

Lemma Keeps_mapM {A B} (f : A → @E W B) l : (∀ x, Keeps P (f x)) → Keeps P (mapM f l).
Proof.
  intros Hf. induction l as [|x l IH]; cbn; [apply Keeps_ret|]. apply Keeps_bind; [done|]. intros y.
  apply Keeps_bind; [done|]. intros k. apply Keeps_ret.
Qed.
End keeps.
End triples.

(** ** Symbolic execution

    [from e n m Q]: with engine [e] and [n] logged so far, [m] returns and the value, the
    engine and the whole log satisfy [Q]. *)
Section from.
Context {W : Type} `{World W} `{Json}.
Implicit Types e : Engine.

Definition from {A} e (n : list Obs) (m : @E W A) (Q : A → Engine → list Obs → Prop) : Prop :=
  runs (eq e) m (λ _ a e2 n2, Q a e2 (n ++ n2)).

Lemma runs_of_from {A} Pre (m : @E W A) Q : (∀ e, Pre e → from e [] m (Q e)) → runs Pre m Q.
Proof. intros Hm. apply runs_from. intros e He. eapply runs_conseq; [apply (Hm e He)|done|]. by intros ? ? ? ? <-. Qed.

Lemma from_ret {A} e n (a : A) (Q : A → Engine → list Obs → Prop) : Q a e n → from e n (mret a) Q.
Proof. intros HQ. apply runs_ret. intros ? <-. by rewrite app_nil_r. Qed.

Lemma from_bind {A B} Pre e n (m : @E W A) (f : A → @E W B) Q1 Q :
  runs Pre m Q1 → Pre e → (∀ a e2 n1, Q1 e a e2 n1 → from e2 (n ++ n1) (f a) Q) → from e n (m ≫= f) Q.
Proof.
  intros Hm He Hf. eapply runs_bind; [eapply (runs_conseq _ (eq e)); [exact Hm|by intros ? <-|done]|].
  intros ? a e1 n1 <- Hq. eapply runs_conseq; [apply (Hf _ _ _ Hq)|done|]. intros ? b e2 n2 <-. by rewrite app_assoc.
Qed.

Lemma from_conseq {A} e n (m : @E W A) (Q Q' : A → Engine → list Obs → Prop) :
  from e n m Q → (∀ a e2 n2, Q a e2 n2 → Q' a e2 n2) → from e n m Q'.
Proof. intros Hm HQ. eapply runs_conseq; [exact Hm|done|]. intros ? ? ? ? _. apply HQ. Qed.

(** Going on with a specification. *)
Lemma from_spec {A} (Pre : Engine → Prop) e n (m : @E W A) Q1 (Q : A → Engine → list Obs → Prop) :
  runs Pre m Q1 → Pre e → (∀ a e2 n1, Q1 e a e2 n1 → Q a e2 (n ++ n1)) → from e n m Q.
Proof.
  intros Hm He HQ. eapply runs_conseq; [exact Hm|by intros ? <-|]. intros ? a e2 n1 <-. apply HQ.
Qed.

Lemma from_poll {A B} e n (g : W → A * W) (f : A → @E W B) Q : (∀ a, from e n (f a) Q) → from e n (poll g ≫= f) Q.
Proof.
  intros Hf. eapply (from_bind (eq e)); [apply runs_poll_exact|done|]. intros a ? ? [-> ->]. by rewrite app_nil_r.
Qed.
(** The same, knowing that a world answered. *)
Lemma from_poll_at {A B} e n (g : W → A * W) (f : A → @E W B) Q : (∀ w, from e n (f (g w).1) Q) → from e n (poll g ≫= f) Q.
Proof.
  intros Hf [e' w l] Hs. destruct (Hf w (mkSt e' (g w).2 l) Hs) as (b & s' & n' & Hr). by exists b, s', n'.
Qed.
Lemma from_gets {A B} e n (g : @St W → A) (f : A → @E W B) Q : (∀ a, from e n (f a) Q) → from e n (gets g ≫= f) Q.
Proof.
  intros Hf. eapply (from_bind (eq e)); [by apply (runs_gets _ _ (λ e a e' n, e' = e ∧ n = []))|done|].
  intros a ? ? [-> ->]. by rewrite app_nil_r.
Qed.
Lemma from_world {B} e n (f : W → @E W B) Q : (∀ w, from e n (f w) Q) → from e n (world ≫= f) Q.
Proof. apply from_gets. Qed.
Lemma from_engine {B} e n (f : Engine → @E W B) Q : from e n (f e) Q → from e n (engine ≫= f) Q.
Proof.
  intros Hf. eapply (from_bind (eq e)); [by apply (runs_gets _ _ (λ e a e' n, a = e ∧ e' = e ∧ n = []))|done|].
  intros a ? ? (-> & -> & ->). by rewrite app_nil_r.
Qed.
Lemma from_ret_bind {A B} e n (a : A) (f : A → @E W B) Q : from e n (f a) Q → from e n (mret a ≫= f) Q.
Proof. intros Hf s Hs. destruct (Hf s Hs) as (b & s' & n' & Hr). by exists b, s', n'. Qed.
Lemma from_tell {B} e n g (f : unit → @E W B) Q : from e n (f ()) Q → from e n (tell g ≫= f) Q.
Proof.
  intros Hf. eapply (from_bind (eq e)); [by apply (runs_tell _ _ (λ e _ e' n, e' = e ∧ n = []))|done|].
  intros [] ? ? [-> ->]. by rewrite app_nil_r.
Qed.
Lemma from_modify {B} e n g (f : unit → @E W B) Q : from (g e) n (f ()) Q → from e n (modify_engine g ≫= f) Q.
Proof.
  intros Hf. eapply (from_bind (eq e)); [by apply (runs_modify _ _ (λ e _ e' n, e' = g e ∧ n = []))|done|].
  intros [] ? ? [-> ->]. by rewrite app_nil_r.
Qed.
Lemma from_note {B} e n o (f : unit → @E W B) Q : from e (n ++ [o]) (f ()) Q → from e n (note o ≫= f) Q.
Proof. intros Hf. eapply (from_bind (eq e)); [apply runs_note_exact|done|]. by intros [] ? ? [-> ->]. Qed.
Lemma from_emit {B} e n ev (f : unit → @E W B) Q : from e (n ++ [OEvent ev]) (f ()) Q → from e n (emit ev ≫= f) Q.
Proof. apply from_note. Qed.
Lemma from_keeps {A B} P e n (m : @E W A) (f : A → @E W B) Q :
  Keeps P m → (∀ a e2 n1, frame e e2 → P n1 → from e2 (n ++ n1) (f a) Q) → from e n (m ≫= f) Q.
Proof. intros Hm Hf. eapply (from_bind (λ _, True)); [exact Hm|done|]. intros a e2 n1 []. by apply Hf. Qed.
End from.

Ltac from_step :=
  lazymatch goal with
  | |- from _ _ (mret _) _ => apply from_ret
  | |- from _ _ (mret _ ≫= _) _ => apply from_ret_bind
  | |- from _ _ (poll _ ≫= _) _ => apply from_poll; intros ?
  | |- from _ _ (engine ≫= _) _ => apply from_engine
  | |- from _ _ (world ≫= _) _ => apply from_world; intros ?
  | |- from _ _ (gets _ ≫= _) _ => apply from_gets; intros ?
  | |- from _ _ (tell _ ≫= _) _ => apply from_tell
  | |- from _ _ (modify_engine _ ≫= _) _ => apply from_modify
  | |- from _ _ (note _ ≫= _) _ => apply from_note
  | |- from _ _ (emit _ ≫= _) _ => apply from_emit
  end.

Lemma frame_conversation f e : frame e (on_conversation f e).
Proof. by split. Qed.

Create HintDb engine.
#[export] Hint Resolve Keeps_engine Keeps_world Keeps_poll Keeps_tell Keeps_gets Keeps_ret : engine.
#[export] Hint Resolve frame_refl frame_conversation : engine.
#[export] Hint Extern 2 (frame _ _) => (by split) : engine.

Ltac keeps_step :=
  lazymatch goal with
  | |- Keeps _ (mbind _ _) => apply Keeps_bind; [try apply _| |intros ?]
  | |- Keeps _ (if ?b then _ else _) => destruct b
  | |- Keeps _ (match ?x with _ => _ end) => destruct x
  | |- Keeps _ (for_each _ _) => apply Keeps_for_each; [try apply _|intros ?]
  | |- Keeps _ (mapM _ _) => apply Keeps_mapM; [try apply _|intros ?]
  | |- Keeps _ (modify_engine _) => apply Keeps_modify; [try apply _|intros ?; auto with engine]
  | |- Keeps _ (mret _) => apply Keeps_ret; try apply _
  end.
Ltac keeps := repeat (first [solve [eauto with engine typeclass_instances]|keeps_step]).

#[export] Instance LogProp_Forall (ok : Obs → Prop) : LogProp (Forall ok).
Proof. split; [constructor|]. intros a b Ha Hb. by apply Forall_app. Qed.

#[export] Instance LogProp_nil : LogProp (λ n, n = []).
Proof. split; [done|]. by intros a b -> ->. Qed.

Lemma observe_from_keeps {W : Type} `{World W} P `{!LogProp P} l c content : Keeps (W := W) P (observe_from l c content).
Proof. revert content. induction l as [|i l IH]; intros content; cbn; keeps. Qed.
Lemma observe_keeps {W : Type} `{World W} P `{!LogProp P} c content : Keeps (W := W) P (observe_tool_call c content).
Proof. unfold observe_tool_call. apply Keeps_bind; [done|keeps|]. intros e. by apply observe_from_keeps. Qed.

(** ** What the engine does between the brackets of a turn *)

Definition quiet_event (e : AgentEvent) : bool :=
  match e with RateLimited _ | ContextChanged _ | SnapshotServed _ _ | Steered _ _ | ErrorRaised _ => true | _ => false end.

(** A run of a tool that no operator was asked about. *)
Definition is_run (o : Obs) : bool := match o with ORun cx _ => negb (rc_pre_approved cx) | _ => false end.

Definition started (v : ToolCallView) : Obs := OEvent (ToolStarted v).
Definition finished (v : ToolResultView) : Obs := OEvent (ToolFinished v).

(** The end of a call carries the id of its start, if tools keep ids ([K]). *)
Definition answers (K : Prop) (v : ToolCallView) (v' : ToolResultView) : Prop := K → vr_call_id v' = vc_call_id v.

(** A log property that holds of the small things the engine does: quiet events,
    spawns, runs of tools, and batches that finish what they start, in order. *)
Class TurnLog (K : Prop) (P : list Obs → Prop) := {
  tl_closed :: LogProp P;
  tl_quiet e : quiet_event e = true → P [OEvent e];
  tl_spawn s : P [OSpawn s];
  tl_fingerprint c fp : P [OFingerprint c fp];
  tl_batch vs rs vs' : Forall2 (answers K) vs vs' → Forall (λ o, is_run o = true) rs →
    P ((started <$> vs) ++ rs ++ (finished <$> vs'))
}.

(** A tool answers under the id of the call it is run for. *)
Definition tools_keep_ids {W : Type} `{World W} : Prop := ∀ cx c (w : W), tr_call_id (to_result (w_run_tool cx c w).1) = tc_call_id c.

Section ambient.
Context {W : Type} `{World W} `{Json} (P : list Obs → Prop) `{!TurnLog (tools_keep_ids (W := W)) P}.
#[local] Abbreviation K := (tools_keep_ids (W := W)).

Lemma emit_quiet ev : quiet_event ev = true → Keeps (W := W) P (emit ev).
Proof. intros He. apply Keeps_emit, tl_quiet, He. Qed.

Lemma memory_hook_keeps f : Keeps (W := W) P (memory_hook f).
Proof. unfold memory_hook. keeps. Qed.
Hint Resolve memory_hook_keeps : engine.
Hint Extern 1 (Keeps _ (emit _)) => (apply emit_quiet; reflexivity) : engine.

Lemma notify_keeps r : Keeps (W := W) P (notify_session_switch r).
Proof. apply memory_hook_keeps. Qed.
Lemma before_compact_keeps : Keeps (W := W) P before_compact_memory.
Proof. unfold before_compact_memory. keeps. Qed.
Lemma after_turn_keeps : Keeps (W := W) P after_turn_memory.
Proof. unfold after_turn_memory. keeps. Qed.
Lemma after_response_keeps u : Keeps (W := W) P (after_response u).
Proof. unfold after_response. keeps. Qed.
Lemma serve_snapshots_keeps : Keeps (W := W) P serve_snapshots.
Proof. unfold serve_snapshots. keeps. Qed.
Hint Resolve notify_keeps before_compact_keeps after_turn_keeps after_response_keeps serve_snapshots_keeps : engine.

Lemma boundary_keeps : Keeps (W := W) P boundary.
Proof. unfold boundary, push_steer_marker. keeps. Qed.
Lemma boundary_readonly_keeps : Keeps (W := W) P boundary_readonly.
Proof. unfold boundary_readonly. keeps. Qed.
Lemma compose_keeps : Keeps (W := W) P compose.
Proof. unfold compose. keeps. Qed.
Hint Resolve boundary_keeps boundary_readonly_keeps compose_keeps : engine.
Lemma recompose_keeps m : Keeps (W := W) P (recompose m).
Proof. unfold recompose. keeps. Qed.
Hint Resolve recompose_keeps : engine.
Lemma restore_or_compose_keeps : Keeps (W := W) P restore_or_compose.
Proof. unfold restore_or_compose. keeps. Qed.
Hint Resolve restore_or_compose_keeps : engine.
Lemma ensure_session_started_keeps b : Keeps (W := W) P (ensure_session_started b).
Proof. unfold ensure_session_started. keeps. Qed.
Lemma gather_recall_keeps : Keeps (W := W) P gather_recall.
Proof. unfold gather_recall. keeps. Qed.
Lemma gather_nudges_keeps u o : Keeps (W := W) P (gather_nudges u o).
Proof. unfold gather_nudges. keeps. Qed.
Lemma compact_to_keeps t : Keeps (W := W) P (compact_to t).
Proof. unfold compact_to. keeps. Qed.
Hint Resolve ensure_session_started_keeps gather_recall_keeps gather_nudges_keeps compact_to_keeps : engine.
Lemma compact_before_turn_keeps t : Keeps (W := W) P (compact_before_turn t).
Proof. unfold compact_before_turn. keeps. Qed.
Hint Resolve compact_before_turn_keeps : engine.
Lemma prepare_turn_context_keeps u o : Keeps (W := W) P (prepare_turn_context u o).
Proof. unfold prepare_turn_context. keeps. Qed.
Lemma compact_context_keeps : Keeps (W := W) P compact_context.
Proof. unfold compact_context. keeps. Qed.
Lemma finalize_text_keeps out : Keeps (W := W) P (finalize_text out).
Proof. unfold finalize_text. keeps. Qed.
Lemma remember_keeps fp : Keeps (W := W) P (remember_session_allow fp).
Proof. unfold remember_session_allow. keeps. Qed.
Lemma issue_spawn_keeps s : Keeps (W := W) P (issue_spawn s).
Proof. unfold issue_spawn. apply Keeps_bind; [apply _|apply Keeps_note, tl_spawn|]. intros _. keeps. Qed.
Hint Resolve prepare_turn_context_keeps compact_context_keeps finalize_text_keeps remember_keeps issue_spawn_keeps : engine.
Lemma reviews_keeps s : Keeps (W := W) P (maybe_emit_reviews s).
Proof. unfold maybe_emit_reviews. keeps. Qed.
Lemma apply_batch_keeps out b : Keeps (W := W) P (apply_batch out b).
Proof. unfold apply_batch. keeps. Qed.
Lemma resolved_fingerprint_keeps cx c : Keeps (W := W) P (resolved_fingerprint cx c).
Proof.
  unfold resolved_fingerprint. apply Keeps_bind; [apply _|keeps|]. intros fp.
  apply Keeps_bind; [apply _|apply Keeps_note, tl_fingerprint|]. intros _. keeps.
Qed.
Hint Resolve resolved_fingerprint_keeps : engine.
Lemma stamp_keeps cx a : Keeps (W := W) P (stamp_approval cx a).
Proof. unfold stamp_approval. keeps. Qed.

(** *** Batches *)

Lemma run_tool_spec cx c :
  runs (W := W) (λ _, True) (run_tool cx c) (λ e o e' n, e' = e ∧ n = [ORun cx c] ∧ (K → tr_call_id (to_result o) = tc_call_id c)).
Proof.
  unfold run_tool. eapply runs_bind; [apply runs_note_exact|]. intros e _ ? ? _ [-> ->] [e' w l] Hs. cbn in Hs. subst e'.
  do 2 eexists. exists []. split; [done|]. cbn. rewrite app_nil_r. split; [done|]. split; [done|]. split; [done|]. intros Hk. apply Hk.
Qed.

Lemma refuse_call_spec c d :
  runs (W := W) (λ _, True) (refuse_call c d) (λ e _ e' n, frame e e' ∧ ∃ v, n = [finished v] ∧ vr_call_id v = tc_call_id c).
Proof.
  unfold refuse_call, emit. eapply runs_bind; [apply runs_note_exact|].
  intros e _ ? ? _ [-> ->]. apply runs_ret. intros ? <-. split; [apply frame_refl|by eexists].
Qed.

Lemma settle_call_spec c idem g o :
  runs (W := W) (λ _, True) (settle_call c idem g o)
    (λ e _ e' n, frame e e' ∧ ∃ v, n = [finished v] ∧ vr_call_id v = tr_call_id (to_result o)).
Proof.
  unfold settle_call. destruct (after_call _ _ _ _ _) as [d g'].
  eapply runs_bind; [apply (observe_keeps (λ n, n = []))|]. intros e content e1 n1 _ [Hf ->].
  unfold emit. eapply runs_bind; [apply runs_note_exact|].
  intros ? _ ? ? <- [-> ->]. apply runs_ret. intros ? <-. split; [done|by eexists].
Qed.

(** The outcome taken for a call answers it. *)
Definition outcome_of_call (k : Checked) (x : Checked * option ToolOutcome) : Prop :=
  x.1 = k ∧ ∀ o, x.2 = Some o → K → tr_call_id (to_result o) = tc_call_id (ck_call k).

Definition call_views (l : list Checked) : list ToolCallView := (λ k, tool_call_view (ck_call k)) <$> l.

Lemma finished_first (m : @E W BatchOut) e e1 u v us :
  frame e e1 → answers K u v →
  runs (λ _, True) m (λ e _ e' n, frame e e' ∧ ∃ vs, n = finished <$> vs ∧ Forall2 (answers K) us vs) →
  runs (eq e1) m (λ _ _ e2 n2, frame e e2 ∧ ∃ vs, [finished v] ++ n2 = finished <$> vs ∧ Forall2 (answers K) (u :: us) vs).
Proof.
  intros Hf Hv Hm. eapply runs_conseq; [exact Hm|done|]. intros ? ? e2 n <- [Hf2 (vs & -> & Hlen)].
  split; [by eapply frame_trans|]. exists (v :: vs). split; [done|by constructor].
Qed.

Lemma drain_batch_spec l ran b : Forall2 outcome_of_call l ran →
  runs (W := W) (λ _, True) (drain_batch ran b)
    (λ e _ e' n, frame e e' ∧ ∃ vs, n = finished <$> vs ∧ Forall2 (answers K) (call_views l) vs).
Proof.
  intros Hl. revert b. induction Hl as [|k [k' o] l ran [Hk Ho] _ IH]; intros b; cbn [drain_batch].
  { apply runs_ret. intros e _. split; [apply frame_refl|by exists []]. }
  cbn in Hk, Ho. subst k'. destruct (ck_blocked k) as [d|].
  - eapply runs_bind; [apply refuse_call_spec|]. intros e r e1 n1 _ [Hf (v & -> & Hv)]. by apply finished_first; [|intros _|].
  - eapply runs_bind; [apply settle_call_spec|]. intros e r e1 n1 _ [Hf (v & -> & Hv)]. apply finished_first; [done| |apply IH].
    intros HK. rewrite Hv. destruct o as [o|]; [by apply Ho|done].
Qed.

Lemma starts_spec l :
  runs (W := W) (λ _, True) (for_each l (λ k, emit (ToolStarted (tool_call_view (ck_call k)))))
    (λ e _ e' n, frame e e' ∧ n = started <$> ((λ k, tool_call_view (ck_call k)) <$> l)).
Proof.
  induction l as [|k l IH]; cbn [for_each fmap list_fmap]; [apply runs_ret; intros e _; split; [apply frame_refl|done]|].
  unfold emit at 1. eapply runs_bind; [apply runs_note_exact|].
  intros e _ ? ? _ [-> ->]. eapply runs_conseq; [exact IH|done|]. intros ? ? e2 n <- [Hf ->]. done.
Qed.

Lemma mapM_outcomes cx l s ran s' :
  mapM (λ k, match ck_blocked k with
             | Some _ => mret (k, None)
             | None => o ← run_tool cx (ck_call k); mret (k, Some o)
             end) l s = (Ok ran, s') → Forall2 outcome_of_call l ran.
Proof.
  revert s ran s'. induction l as [|k l IH]; intros s ran s'; cbn.
  { by intros [= <- <-]. }
  intros Hm. apply M_bind_inv in Hm as [(? & ? & ?)|(y & s1 & Hy & Hm)]; [done|].
  apply M_bind_inv in Hm as [(? & ? & ?)|(ys & s2 & Hys & Hm)]; [done|].
  injection Hm as <- <-. constructor; [|by eapply IH]. destruct (ck_blocked k); [by injection Hy as <- <-|].
  apply M_bind_inv in Hy as [(? & ? & ?)|(o & s3 & Ho & Hy)]; [done|]. injection Hy as <- <-. split; [done|]. cbn. intros o' [= <-].
  destruct (run_tool_spec cx (ck_call k) s I) as (o' & s4 & n & Hr & _ & _ & _ & Hid). rewrite Ho in Hr. by injection Hr as <- _.
Qed.

Lemma batch_runs_spec cx l : rc_pre_approved cx = false →
  runs (W := W) (λ _, True)
    (mapM (λ k, match ck_blocked k with
                | Some _ => mret (k, None)
                | None => o ← run_tool cx (ck_call k); mret (k, Some o)
                end) l)
    (λ e ran e' n, frame e e' ∧ Forall (λ o, is_run o = true) n ∧ Forall2 outcome_of_call l ran).
Proof.
  intros Hcx. set (f := λ k : Checked, _). assert (Keeps (Forall (λ o, is_run o = true)) (mapM f l)) as Hk.
  { apply Keeps_mapM; [apply _|]. intros k. unfold f. destruct (ck_blocked k); [apply Keeps_ret; apply _|].
    unfold run_tool. repeat apply Keeps_bind; try apply _; [apply Keeps_note; constructor; [cbn; by rewrite Hcx|constructor]|intros; keeps..]. }
  intros s Hs. destruct (Hk s Hs) as (a & s' & n & Hr & Hl & Hf & Hn). exists a, s', n.
  repeat split; try done; try apply Hf. by eapply mapM_outcomes.
Qed.

Lemma run_parallel_keeps cx l b : rc_pre_approved cx = false → Keeps (W := W) P (run_parallel cx l b).
Proof using Type*.
  intros Hcx. unfold run_parallel, Keeps. eapply runs_bind; [apply starts_spec|]. intros e _ e1 n1 _ [Hf1 ->].
  eapply runs_bind; [by apply runs_pre, batch_runs_spec|].
  intros ? ran e2 n2 <- (Hf2 & Hn2 & Hlen).
  eapply runs_bind; [by apply runs_pre, drain_batch_spec|].
  intros ? b' e3 n3 <- (Hf3 & vs & -> & Hvs).
  eapply runs_bind; [apply (Keeps_pre P (eq e3)), boundary_readonly_keeps|].
  intros ? i e4 n4 <- [Hf4 Hp]. apply runs_ret. intros ? <-. split; [by repeat (eapply frame_trans; [eassumption|])|].
  rewrite app_nil_r, !app_assoc. apply lp_app; [|done]. rewrite <- app_assoc. by apply tl_batch.
Qed.

(** One serial call: its start, its run unless it is blocked, its end. *)
Lemma serial_call_keeps cx k b : rc_pre_approved cx = false →
  Keeps (W := W) P
    (emit (ToolStarted (tool_call_view (ck_call k))) ;;
     match ck_blocked k with
     | Some d => r ← refuse_call (ck_call k) d; mret (push_call b (ck_call k) r [] (bo_guardrail b))
     | None =>
         o ← run_tool cx (ck_call k);
         og ← settle_call (ck_call k) (ck_idempotent k) (bo_guardrail b) o;
         mret (push_call b (ck_call k) (to_result og.1) (to_effects og.1) og.2)
     end).
Proof using Type*.
  intros Hcx. unfold Keeps, emit.
  eapply runs_bind; [apply runs_note_exact|].
  intros e _ ? ? _ [-> ->]. destruct (ck_blocked k) as [d|].
  - eapply runs_bind; [apply runs_pre, refuse_call_spec|].
    intros ? r e2 ? <- (Hf & v & -> & Hv). apply runs_ret. intros ? <-. split; [done|]. apply (tl_batch [_] [] [v]); [constructor; [by intros _|constructor]|done].
  - eapply runs_bind; [apply runs_pre, run_tool_spec|]. intros ? o ? ? <- (-> & -> & Ho).
    eapply runs_bind; [apply runs_pre, settle_call_spec|].
    intros ? r e2 ? <- (Hf & v & -> & Hv). apply runs_ret. intros ? <-. split; [done|].
    apply (tl_batch [_] [ORun cx (ck_call k)] [v]); [constructor; [intros HK; rewrite Hv; by apply Ho|constructor]|]. constructor; [cbn; by rewrite Hcx|constructor].
Qed.

Lemma run_serial_keeps cx l b : rc_pre_approved cx = false → Keeps (W := W) P (run_serial cx l b).
Proof using Type*.
  intros Hcx. revert b. induction l as [|k l IH]; intros b; cbn [run_serial]; [apply Keeps_ret; apply _|].
  apply runs_assoc. apply Keeps_bind; [apply _|by apply serial_call_keeps|]. intros b'.
  apply Keeps_bind; [apply _|apply boundary_readonly_keeps|]. intros [|]; [apply Keeps_ret; apply _|apply IH].
Qed.

Lemma execute_tool_batch_keeps cx calls g : rc_pre_approved cx = false → Keeps (W := W) P (execute_tool_batch cx calls g).
Proof using Type*.
  intros Hcx. unfold execute_tool_batch. apply Keeps_bind; [apply _|keeps|]. intros w.
  destruct (preflight _ calls g) as [checked g']. destruct (_ && _); [by apply run_parallel_keeps|by apply run_serial_keeps].
Qed.
End ambient.

#[export] Hint Resolve memory_hook_keeps notify_keeps before_compact_keeps after_turn_keeps after_response_keeps
  serve_snapshots_keeps boundary_keeps boundary_readonly_keeps ensure_session_started_keeps prepare_turn_context_keeps
  compact_context_keeps finalize_text_keeps remember_keeps issue_spawn_keeps reviews_keeps apply_batch_keeps
  resolved_fingerprint_keeps stamp_keeps execute_tool_batch_keeps : engine.
#[export] Hint Extern 1 (Keeps _ (emit _)) => (apply emit_quiet; [apply _|reflexivity]) : engine.


(** ** The model call *)

Definition stream_event (e : AgentEvent) : bool :=
  match e with TextDelta _ | ReasoningDelta _ | Usage _ => true | _ => false end.

(** The log of one attempt: the lease, the call, the streamed events, the release. *)
Definition attempt_log (n : list Obs) : Prop :=
  ∃ lease req evs, n = [OAcquire lease; OStream req] ++ (OEvent <$> evs) ++ [ORelease lease] ∧
    Forall (λ e, stream_event e = true) evs.

Lemma drive_stream_events watchdog items : Forall (λ e, stream_event e = true) (drive_model_call watchdog items).2.
Proof.
  unfold drive_model_call. generalize (mkStreamed false false UsageDelta_default None).
  induction items as [|i items IH]; intros st; cbn [drive_loop].
  - destruct (stream_close st) as [out evs] eqn:Hc. unfold stream_close in Hc. injection Hc as <- <-. cbn [snd].
    apply Forall_app; split; [|apply Forall_app; split].
    + destruct (_ && _); by repeat constructor.
    + destruct (mo_reasoning _) as [r|]; [|constructor]. destruct (_ && _); by repeat constructor.
    + by repeat constructor.
  - destruct i as [e|f| |]; [|constructor| |constructor].
    2:{ destruct (watchdog =? 0); [apply IH|constructor]. }
    destruct e as [t|t|u|o]; try destruct (nonempty t); match goal with |- context [drive_loop _ _ ?st'] => specialize (IH st'); destruct (drive_loop watchdog items st') end;
      cbn in *; try (constructor; [done|]); done.
Qed.

(** The operations of a call may also hop to the fallback profile. *)
Record loose (e e' : Engine) : Prop := {
  lo_config : en_config e' = en_config e;
  lo_fallback : en_fallback_profile e' = en_fallback_profile e;
  lo_pending : en_pending e' = en_pending e;
  lo_epoch : sn_epoch (en_snapshot e') = sn_epoch (en_snapshot e);
  lo_waiting : sn_waiting_for (en_snapshot e') = sn_waiting_for (en_snapshot e);
  lo_approvals : sn_pending_approvals (en_snapshot e') = sn_pending_approvals (en_snapshot e)
}.

Lemma frame_loose e e' : frame e e' → loose e e'.
Proof. by intros []. Qed.
Lemma loose_refl e : loose e e.
Proof. by split. Qed.
Lemma loose_trans e1 e2 e3 : loose e1 e2 → loose e2 e3 → loose e1 e3.
Proof. intros [] []. split; congruence. Qed.

Definition is_stream (o : Obs) : bool := match o with OStream _ => true | _ => false end.
Definition streams (n : list Obs) : nat := length (List.filter is_stream n).

Lemma streams_app a b : streams (a ++ b) = (streams a + streams b)%nat.
Proof. unfold streams. by rewrite List.filter_app, length_app. Qed.

Lemma streams_none n : Forall (λ o, is_stream o = false) n → streams n = 0%nat.
Proof. unfold streams. induction 1 as [|o n Ho _ IH]; [done|]. cbn. by rewrite Ho. Qed.

Lemma attempt_streams n : attempt_log n → streams n = 1%nat.
Proof.
  intros (l & r & evs & -> & _). rewrite !streams_app, (streams_none (OEvent <$> evs)); [done|].
  apply Forall_fmap, Forall_forall. done.
Qed.

(** The usage events of a log. *)
Definition usage_of (o : Obs) : list UsageDelta := match o with OEvent (Usage u) => [u] | _ => [] end.
Definition usages (n : list Obs) : list UsageDelta := n ≫= usage_of.

Lemma usages_app a b : usages (a ++ b) = usages a ++ usages b.
Proof. apply bind_app. Qed.

Lemma usages_none n : Forall (λ o, usage_of o = []) n → usages n = [].
Proof. unfold usages. induction 1 as [|o n Ho _ IH]; [done|]. cbn. by rewrite Ho. Qed.

(** No call to the model, no usage. *)
Definition calm (n : list Obs) : Prop := streams n = 0%nat ∧ usages n = [].

Lemma drive_usages watchdog items :
  usages (OEvent <$> (drive_model_call watchdog items).2) =
  match (drive_model_call watchdog items).1 with Ok out => [mo_usage out] | Err _ => [] end.
Proof.
  assert (∀ evs, Forall (λ e, is_usage e = false) evs → usages (OEvent <$> evs) = []) as Hn.
  { intros evs Hev. apply usages_none, Forall_fmap. eapply Forall_impl; [exact Hev|]. by intros []. }
  destruct (drive_model_call watchdog items) as [[out|f] evs] eqn:Hd; cbn [fst snd].
  - apply drive_loop_ok in Hd as (ds & -> & Hu & _). by rewrite fmap_app, usages_app, Hn.
  - apply Hn. by apply drive_loop_err in Hd.
Qed.

Class CallLog (K : Prop) (P : list Obs → Prop) := { cl_turn :: TurnLog K P; cl_attempt n : attempt_log n → P n }.

#[export] Instance LogProp_calm : LogProp calm.
Proof. split; [done|intros a b [] []; split; rewrite ?streams_app, ?usages_app; [lia|by apply app_nil]]. Qed.

#[export] Instance TurnLog_calm K : TurnLog K calm.
Proof.
  split; [apply _|by intros []|done|done|].
  intros vs rs vs' _ Hrs. split.
  - rewrite !streams_app, (streams_none (started <$> vs)), (streams_none (finished <$> vs')), (streams_none rs); [done|..];
      [by eapply Forall_impl; [exact Hrs|]; intros []|by apply Forall_fmap, Forall_forall..].
  - rewrite !usages_app, (usages_none (started <$> vs)), (usages_none (finished <$> vs')), (usages_none rs); [done|..];
      [by eapply Forall_impl; [exact Hrs|]; intros []|by apply Forall_fmap, Forall_forall..].
Qed.

#[export] Instance LogProp_and P Q `{!LogProp P, !LogProp Q} : LogProp (λ n, P n ∧ Q n).
Proof. split; [split; apply lp_nil|]. intros a b [] []. split; by apply lp_app. Qed.

#[export] Instance TurnLog_and K P Q `{!TurnLog K P, !TurnLog K Q} : TurnLog K (λ n, P n ∧ Q n).
Proof.
  split; [apply _|..].
  - intros e He. split; by apply tl_quiet.
  - intros s. split; apply tl_spawn.
  - intros c fp. split; apply tl_fingerprint.
  - intros vs rs vs' Hl Hr. split; by apply tl_batch.
Qed.

Section call.
Context {W : Type} `{World W} `{Json} (P : list Obs → Prop) `{!CallLog (tools_keep_ids (W := W)) P}.

Lemma for_each_emit evs : runs (W := W) (λ _, True) (for_each evs emit) (λ e _ e' n, e' = e ∧ n = OEvent <$> evs).
Proof.
  induction evs as [|ev evs IH]; cbn [for_each]; [by apply runs_ret|].
  eapply runs_bind; [apply runs_note_exact|]. intros e _ ? ? _ [-> ->].
  eapply runs_conseq; [exact IH|done|]. by intros ? ? ? ? <- [-> ->].
Qed.

Lemma attempt_call_spec tools :
  runs (W := W) (λ _, True) (attempt_call tools) (λ e r e' n, e' = e ∧
    match r with
    | Err _ => n = []
    | Ok (r, _) => attempt_log n ∧ usages n = match r with Ok out => [mo_usage out] | Err _ => [] end
    end).
Proof.
  unfold attempt_call. eapply runs_bind; [by apply (runs_gets _ _ (λ e a e' n, a = e ∧ e' = e ∧ n = []))|].
  intros e ? ? ? _ (-> & -> & ->). eapply runs_bind; [apply runs_poll_exact|]. intros ? [lease|msg] ? ? <- [-> ->].
  2:{ apply runs_ret. by intros ? <-. }
  eapply runs_bind; [apply runs_note_exact|]. intros ? _ ? ? <- [-> ->].
  eapply runs_bind; [apply runs_note_exact|]. intros ? _ ? ? <- [-> ->].
  eapply runs_bind; [apply runs_poll_exact|]. intros ? items ? ? <- [-> ->].
  pose proof (drive_stream_events (mp_watchdog (from_config (en_config e))) items) as Hev.
  pose proof (drive_usages (mp_watchdog (from_config (en_config e))) items) as Hus.
  destruct (drive_model_call _ items) as [r evs]. cbn [fst snd] in Hev, Hus.
  eapply runs_bind; [apply runs_pre, for_each_emit|]. intros ? _ ? ? <- [-> ->].
  eapply runs_bind; [by apply (runs_tell _ _ (λ e _ e' n, e' = e ∧ n = []))|]. intros ? _ ? ? <- [-> ->].
  eapply runs_bind; [apply runs_note_exact|]. intros ? _ ? ? <- [-> ->].
  apply runs_ret. intros ? <-. split; [done|]. split.
  - exists lease. eexists _, evs. split; [|done]. by rewrite !app_nil_r.
  - match goal with |- usages ?l = _ => change (usages l) with (usages ((OEvent <$> evs) ++ [ORelease lease])) end.
    rewrite usages_app, Hus. cbn. by rewrite app_nil_r.
Qed.

(** The attempts a call has left: one compaction, one hop with its own retries, the
    retries of the profile. *)
Definition attempts_left (e : Engine) (attempt : N) (compacted : bool) : N :=
  (if compacted then 0 else 1) +
  match en_fallback_profile e with
  | Some fb => if bool_decide (fb = en_profile e) then 0 else cf_model_max_retries (en_config e) + 1
  | None => 0
  end + (cf_model_max_retries (en_config e) - attempt).

Definition call_post (k : nat) (e : Engine) (r : result Failure ModelOutput) (e' : Engine) (n : list Obs) : Prop :=
  loose e e' ∧ P n ∧ (streams n <= k)%nat ∧ usages n = match r with Ok out => [mo_usage out] | Err _ => [] end.


Lemma call_post_again k e e1 n (m : @E W (result Failure ModelOutput)) :
  loose e e1 → P n → (streams n <= 1)%nat → usages n = [] →
  runs (eq e1) m (λ e r e' n, call_post k e r e' n) → from e1 n m (call_post (S k) e).
Proof using Type*.
  intros Hl Hp Hs Hu Hm. eapply from_spec; [exact Hm|done|]. intros r e2 n2 (Hl2 & Hp2 & Hs2 & Hu2).
  split; [by eapply loose_trans|]. split; [by apply lp_app|]. rewrite streams_app, usages_app, Hu, Hu2. split; [lia|done].
Qed.

(** The decisions that go on, and what they leave. *)
Lemma decide_step_retry p nanos f attempt after : decide_step p nanos f attempt = StRetry after → attempt < mp_max_retries p.
Proof. unfold decide_step. destruct (N.leb_spec (mp_max_retries p) attempt); destruct (recovery f); done. Qed.
Lemma decide_step_rotate p nanos f attempt : decide_step p nanos f attempt = StRotate → attempt < mp_max_retries p.
Proof. unfold decide_step. destruct (N.leb_spec (mp_max_retries p) attempt); destruct (recovery f); done. Qed.

Lemma call_model_loop_spec fuel tools attempt compacted :
  runs (W := W) (λ e, cf_model_max_retries (en_config e) < u32_bound ∧ attempt <= cf_model_max_retries (en_config e) ∧
                      attempts_left e attempt compacted < N.of_nat fuel)
    (call_model_loop fuel tools attempt compacted) (λ e r e' n, call_post fuel e r e' n).
Proof using Type*.
  revert attempt compacted. induction fuel as [|fuel IH]; intros attempt compacted; [intros s (_ & _ & Hf); lia|].
  cbn [call_model_loop]. apply runs_of_from. intros e (Hu & Ha & Hm).
  assert (∀ f, call_post (S fuel) e (Err f) e []) as Hidle.
  { intros f. split; [apply loose_refl|]. split; [apply lp_nil|]. cbn. split; [lia|done]. }
  apply from_poll. intros [|]; [by apply from_ret|].
  eapply (from_bind (λ _, True)); [apply attempt_call_spec|done|]. intros tried ? n [-> Htried]. cbn [app].
  destruct tried as [[r lease]|f]; [|subst n; by apply from_ret].
  destruct Htried as [Htried Hus]. pose proof (attempt_streams _ Htried) as Hs. apply cl_attempt in Htried.
  assert (call_post (S fuel) e r e n) as Hstop by (split; [apply loose_refl|]; split; [done|]; split; [lia|done]).
  destruct r as [out|failure]; [by apply from_ret|].
  assert (∀ f e1 n1, frame e e1 → P n1 ∧ calm n1 → call_post (S fuel) e (Err f) e1 (n ++ n1)) as Hend.
  { intros f e1 n1 Hf [Hp [Hs1 Hu1]]. split; [by apply frame_loose|]. split; [by apply lp_app|].
    rewrite streams_app, usages_app, Hus, Hu1. split; [lia|done]. }
  repeat from_step. destruct (decide_step _ _ failure attempt) as [after| | | |] eqn:Hd.
  - apply decide_step_retry in Hd. cbn in Hd.
    eapply (from_keeps (λ k, P k ∧ calm k)); [destruct failure; keeps|]. intros _ e1 n1 Hf1 Hn1.
    apply from_poll. intros [|]; [by apply from_ret, Hend|]. destruct Hn1 as [Hp1 [Hs1 Hu1]].
    apply call_post_again; [by apply frame_loose|by apply lp_app|rewrite streams_app; lia|by rewrite usages_app, Hus, Hu1|].
    eapply runs_conseq; [apply IH| |done]. intros ? <-. rewrite wrap32_small by lia.
    destruct Hf1 as [Hc Hp Hfb _ _ _ _]. unfold attempts_left in *. rewrite Hc, Hp, Hfb. split; [done|]. lia.
  - apply decide_step_rotate in Hd. cbn in Hd. from_step.
    apply call_post_again; [apply loose_refl|done|lia|done|]. eapply runs_conseq; [apply IH| |done]. intros ? <-.
    rewrite wrap32_small by lia. unfold attempts_left in *. split; [done|]. lia.
  - destruct compacted; [by apply from_ret|].
    eapply (from_keeps (λ k, P k ∧ calm k)); [keeps|]. intros [|] e1 n1 Hf1 Hn1; [|by apply from_ret, Hend].
    destruct Hn1 as [Hp1 [Hs1 Hu1]].
    apply call_post_again; [by apply frame_loose|by apply lp_app|rewrite streams_app; lia|by rewrite usages_app, Hus, Hu1|].
    eapply runs_conseq; [apply IH| |done]. intros ? <-. destruct Hf1 as [Hc Hp Hfb _ _ _ _].
    unfold attempts_left in *. rewrite Hc, Hp, Hfb. split; [done|]. lia.
  - destruct (en_fallback_profile e) as [fb|] eqn:Hfb; [|by apply from_ret].
    case_bool_decide as Heq; [by apply from_ret|]. from_step.
    apply call_post_again; [by split|done|lia|done|].
    eapply runs_conseq; [apply IH| |done]. intros ? <-. unfold attempts_left in *. cbn. rewrite Hfb in *.
    rewrite bool_decide_true by done. rewrite bool_decide_false in Hm by done. split; [done|]. lia.
  - by apply from_ret.
Qed.

(** A call always returns, within its attempts. *)
Lemma call_model_spec offer :
  runs (W := W) (λ e, cf_model_max_retries (en_config e) < u32_bound) (call_model offer)
    (λ e r e' n, call_post (call_fuel (en_config e)) e r e' n).
Proof using Type*.
  unfold call_model. apply runs_of_from. intros e Hu. repeat from_step.
  eapply from_spec; [apply call_model_loop_spec| |done].
  unfold attempts_left, call_fuel. repeat case_match; lia.
Qed.
End call.
