(* ===== verification/EngineTurn.v ===== *)
(** * The turn of the engine

    [run_turn] always returns, brackets its events, pairs its tool events and its
    leases, makes a bounded number of model calls, accounts for their usage, and leaves
    the suspension state consistent. *)

From S2P Require Import Prelude Text Common Approval CoreConversation Guardrail ModelCall Engine EngineLog.
#[local] Open Scope daemon_scope.
#[local] Open Scope N_scope.

(** ** The suspension state *)

(** At most one delegation is awaited, or exactly the parked approvals. *)
Definition parked_ok (e : Engine) : Prop :=
  match sn_pending_approvals (en_snapshot e) with
  | [] => (length (sn_waiting_for (en_snapshot e)) <= 1)%nat
  | _ => sn_waiting_for (en_snapshot e) = pa_job_id <$> sn_pending_approvals (en_snapshot e)
  end.

Definition idle (e : Engine) : Prop := sn_waiting_for (en_snapshot e) = [] ∧ sn_pending_approvals (en_snapshot e) = [].

Definition suspended_at (su : Suspension) (e : Engine) : Prop :=
  head (sn_waiting_for (en_snapshot e)) = Some (su_job_id su) ∧ su_epoch su = sn_epoch (en_snapshot e) ∧ parked_ok e.

Lemma idle_parked e : idle e → parked_ok e.
Proof. intros [Hw Ha]. unfold parked_ok. rewrite Ha, Hw. cbn. lia. Qed.

(** ** Usage *)

Definition usage_sum (n : list Obs) : UsageDelta := foldl UsageDelta_add UsageDelta_default (usages n).

Definition outcome_summary (o : TurnOutcome) : TurnSummary :=
  match o with TCompleted s => s | TSuspended _ => summary_ended Suspended end.

(** The reasons whose summary carries the usage of the turn. *)
Definition accounted (r : EndReason) : bool := match r with Completed | BudgetExhausted | NoProgress => true | _ => false end.

(** What answering a parked approval may log: nothing, a fingerprint, or the run of the
    call once it is allowed and its fingerprint, if it has one, is the approved one. *)
Definition answered_log (cx : RunCx) (a : PendingApproval) (payload : bytes) (n : list Obs) : Prop :=
  n = [] ∨ (∃ fp, n = [OFingerprint (pa_call a) fp]) ∨
  decision_allows payload = true ∧
    (pa_fingerprint a = None ∧ n = [ORun cx (pa_call a)] ∨
     ∃ fp, pa_fingerprint a = Some fp ∧ n = [OFingerprint (pa_call a) (Some fp); ORun cx (pa_call a)]).

Lemma answered_calm cx a payload n : answered_log cx a payload n → calm n.
Proof. intros [->|[[fp ->]|[_ [[_ ->]|(fp & _ & ->)]]]]; done. Qed.

Section turn.
Context {W : Type} `{World W} `{Json} (P : list Obs → Prop) `{!CallLog (tools_keep_ids (W := W)) P}.
(** The approvals an operator answered, and the logs answering them may leave. *)
Context (Good : PendingApproval → bytes → Prop)
  (Hans : ∀ cx a payload n, rc_pre_approved cx = true → Good a payload → answered_log cx a payload n → P n).
Implicit Types e : Engine.

(** A turn under way: nothing awaited, the log so far, its calls, its usage. *)
Record turn_open (k : nat) (u : UsageDelta) (e0 e : Engine) (n : list Obs) : Prop := {
  to_idle : idle e;
  to_config : en_config e = en_config e0;
  to_epoch : sn_epoch (en_snapshot e) = sn_epoch (en_snapshot e0);
  to_log : P n;
  to_streams : (streams n <= k)%nat;
  to_usage : usage_sum n = u
}.

(** A turn that ended. *)
Record turn_closed (k : nat) (e0 : Engine) (o : TurnOutcome) (e : Engine) (n : list Obs) : Prop := {
  td_log : ∃ mid, n = mid ++ [OEvent (TurnFinished (outcome_summary o))] ∧ P mid ∧ (streams mid <= k)%nat ∧
    (accounted (ts_end_reason (outcome_summary o)) = true → ts_usage (outcome_summary o) = usage_sum mid);
  td_config : en_config e = en_config e0;
  td_parked : match o with
              | TCompleted s => ts_end_reason s ≠ Suspended ∧ idle e ∧ sn_epoch (en_snapshot e) = sn_epoch (en_snapshot e0)
              | TSuspended su => suspended_at su e ∧ sn_epoch (en_snapshot e) = Epoch_next (sn_epoch (en_snapshot e0))
              end
}.

Lemma turn_closed_mono k k' e0 o e n : (k <= k')%nat → turn_closed k e0 o e n → turn_closed k' e0 o e n.
Proof. intros Hk [(mid & ? & ? & ? & ?) ? ?]. split; [|done|done]. exists mid. repeat split; try done. lia. Qed.

Lemma usage_sum_app a b : usages b = [] → usage_sum (a ++ b) = usage_sum a.
Proof. intros Hb. unfold usage_sum. by rewrite usages_app, Hb, app_nil_r. Qed.

Lemma usage_sum_call a b u : usages b = [u] → usage_sum (a ++ b) = UsageDelta_add (usage_sum a) u.
Proof. intros Hb. unfold usage_sum. rewrite usages_app, Hb, foldl_app. done. Qed.

(** Ambient steps of an open turn. *)
Lemma turn_open_keeps {A B} k u e0 e n (m : @E W A) (f : A → @E W B) Q :
  turn_open k u e0 e n → Keeps (λ n, P n ∧ calm n) m →
  (∀ a e2 n2, turn_open k u e0 e2 n2 → from e2 n2 (f a) Q) → from e n (m ≫= f) Q.
Proof using Type*.
  intros [[Hw Ha] Hc He Hp Hs Hu] Hm Hf. eapply from_keeps; [exact Hm|]. intros a e2 n1 Hfr [Hp1 [Hs1 Hu1]]. apply Hf.
  destruct Hfr. repeat split; [congruence..|by apply lp_app|rewrite streams_app; lia|by rewrite usage_sum_app].
Qed.

(** A model call in an open turn. *)
Lemma turn_open_call {B} offer k u e0 e n (f : result Failure ModelOutput → @E W B) Q :
  turn_open k u e0 e n → cf_model_max_retries (en_config e0) < u32_bound →
  (∀ r e2 n2, turn_open (k + call_fuel (en_config e0)) (match r with Ok out => UsageDelta_add u (mo_usage out) | Err _ => u end) e0 e2 n2 →
     from e2 n2 (f r) Q) →
  from e n (call_model offer ≫= f) Q.
Proof using Type*.
  intros [[Hw Ha] Hc He Hp Hs Hu] Hb Hf. eapply from_bind; [apply (call_model_spec P)|cbn; by rewrite Hc|].
  intros r e2 n1 (Hl & Hp1 & Hs1 & Hu1). apply Hf. rewrite Hc in Hs1. destruct Hl.
  repeat split; [congruence..|by apply lp_app|rewrite streams_app; lia|].
  destruct r; [by rewrite (usage_sum_call _ _ _ Hu1), Hu|by rewrite usage_sum_app].
Qed.

Lemma finish_closed k u e0 e n s :
  turn_open k u e0 e n → ts_end_reason s ≠ Suspended → (accounted (ts_end_reason s) = true → ts_usage s = u) →
  from (W := W) e n (finish s) (turn_closed k e0).
Proof using Type*.
  intros [Hi Hc He Hp Hs Hu] Hr Ha. unfold finish. repeat from_step.
  split; [|done|done]. exists n. repeat split; [done|done|]. intros Hacc. rewrite Hu. by apply Ha.
Qed.

Lemma finish_interrupted_closed k u e0 e n : turn_open k u e0 e n → from (W := W) e n finish_interrupted (turn_closed k e0).
Proof using Type*. intros Ho. by eapply finish_closed. Qed.

Lemma finish_failed_closed k u e0 e n f : turn_open k u e0 e n → from (W := W) e n (finish_failed f) (turn_closed k e0).
Proof using Type*.
  intros Ho. unfold finish_failed. destruct f; try (eapply turn_open_keeps; [exact Ho|keeps|]; intros _ e2 n2 Ho2; by eapply finish_closed).
  by eapply finish_interrupted_closed.
Qed.

Lemma final_summary_closed k u e0 e n reason :
  turn_open k u e0 e n → cf_model_max_retries (en_config e0) < u32_bound → reason ≠ Suspended →
  from (W := W) e n (finish_with_final_summary reason u) (turn_closed (k + call_fuel (en_config e0)) e0).
Proof using Type*.
  intros Ho Hb Hr. unfold finish_with_final_summary. eapply turn_open_call; [exact Ho|done|].
  intros [out|f] e2 n2 Ho2; [|by eapply finish_failed_closed].
  eapply turn_open_keeps; [exact Ho2|keeps|]. intros _ e3 n3 Ho3. by eapply finish_closed.
Qed.

(** Suspending with what is awaited already in place. *)
Lemma suspend_closed k e0 e n job payload :
  P n → (streams n <= k)%nat → en_config e = en_config e0 → sn_epoch (en_snapshot e) = sn_epoch (en_snapshot e0) →
  head (sn_waiting_for (en_snapshot e)) = Some job → parked_ok e →
  from (W := W) e n (suspend job payload true) (turn_closed k e0).
Proof using Type*.
  intros Hp Hs Hc He Hh Hk. unfold suspend. repeat from_step.
  split; [by exists n|done|]. split; [by repeat split|]. cbn. by rewrite He.
Qed.

Lemma resolved_fingerprint_spec cx c :
  runs (W := W) (λ _, True) (resolved_fingerprint cx c) (λ e fp e' n, e' = e ∧ n = [OFingerprint c fp]).
Proof. apply runs_of_from. intros e _. unfold resolved_fingerprint. by repeat from_step. Qed.

Lemma stamp_approval_job cx a :
  runs (W := W) (λ _, True) (stamp_approval cx a) (λ e a' e' n, e' = e ∧ (P n ∧ calm n) ∧ pa_job_id a' = pa_job_id a).
Proof using Type*.
  apply runs_of_from. intros e _. unfold stamp_approval. from_step. case_match; [|apply from_ret; split; [done|]; split; [apply (lp_nil (P := λ n, P n ∧ calm n))|done]].
  eapply from_bind; [apply resolved_fingerprint_spec|done|]. intros fp ? ? [-> ->]. apply from_ret. split; [done|].
  split; [|done]. split; apply (tl_fingerprint (K := tools_keep_ids (W := W))).
Qed.

Lemma stamp_approvals cx l :
  runs (W := W) (λ _, True) (mapM (stamp_approval cx) l) (λ e l' e' n, e' = e ∧ (P n ∧ calm n) ∧ (pa_job_id <$> l') = (pa_job_id <$> l)).
Proof using Type*.
  induction l as [|a l IH]; [apply runs_ret; intros e _; split; [done|]; split; [apply (lp_nil (P := λ n, P n ∧ calm n))|done]|].
  apply runs_of_from. intros e _. cbn [mapM].
  eapply from_bind; [apply stamp_approval_job|done|]. intros a' ? n1 (-> & Hn1 & Ha).
  eapply from_bind; [apply IH|done|]. intros l' ? n2 (-> & Hn2 & Hl). apply from_ret. split; [done|].
  split; [by apply (lp_app (P := λ n, P n ∧ calm n))|]. cbn. by rewrite Ha, Hl.
Qed.

Lemma park_spec cx l :
  runs (W := W) (λ _, True) (park cx l) (λ e stamped e' n, P n ∧ streams n = 0%nat ∧ en_config e' = en_config e ∧
    sn_epoch (en_snapshot e') = sn_epoch (en_snapshot e) ∧
    sn_waiting_for (en_snapshot e') = sn_waiting_for (en_snapshot e) ++ (pa_job_id <$> l) ∧
    sn_pending_approvals (en_snapshot e') = sn_pending_approvals (en_snapshot e) ++ stamped ∧
    (pa_job_id <$> stamped) = (pa_job_id <$> l)).
Proof using Type*.
  apply runs_of_from. intros e _. unfold park.
  eapply from_bind; [apply stamp_approvals|done|]. intros stamped ? n0 (-> & [Hp0 [Hs0 _]] & Hst). cbn [app].
  eapply (from_keeps (λ n, P n ∧ calm n)); [keeps|]. intros _ e2 n1 [] [Hp [Hs _]]. repeat from_step.
  repeat split; [by apply lp_app|rewrite streams_app; lia|done|done|cbn; congruence|cbn; congruence|done].
Qed.

Lemma tool_round_spec policy out calls r k e0 e n :
  turn_open k (ro_usage r) e0 e n → cf_model_max_retries (en_config e0) < u32_bound →
  from (W := W) e n (tool_round policy out calls r) (λ x e' n',
    match x with inl o => turn_closed (k + call_fuel (en_config e0)) e0 o e' n' | inr r' => turn_open k (ro_usage r') e0 e' n' end).
Proof using Type*.
  intros Ho Hb. unfold tool_round. from_step.
  eapply turn_open_keeps; [exact Ho|by apply execute_tool_batch_keeps; [apply _|]|]. intros [b interrupted] e1 n1 Ho1.
  eapply turn_open_keeps; [exact Ho1|keeps|]. intros p e2 n2 Ho2. cbn [fst snd].
  assert (∀ (m : @E W TurnOutcome) e' n', from e' n' m (turn_closed (k + call_fuel (en_config e0)) e0) →
    from e' n' (o ← m; mret (inl o)) (λ (x : TurnOutcome + Rounds) e'' n'',
      match x with inl o => turn_closed (k + call_fuel (en_config e0)) e0 o e'' n'' | inr r' => turn_open k (ro_usage r') e0 e'' n'' end)) as Hinl.
  { intros m e' n' Hm. eapply (from_bind (eq e')); [exact Hm|done|]. intros o e'' n'' Hq. by apply from_ret. }
  destruct interrupted.
  { apply Hinl. eapply from_conseq; [by eapply finish_interrupted_closed|]. intros o e' n'. apply turn_closed_mono. lia. }
  destruct (pe_awaiting p) as [|a awaiting]; [destruct (pe_delegated p) as [[job payload]|]|].
  - eapply turn_open_keeps; [exact Ho2|keeps|]. intros _ e3 n3 Ho3. from_step. apply Hinl.
    destruct Ho3 as [[Hw Ha] Hc He Hp Hs Hu]. apply suspend_closed; try done; [lia|cbn; by rewrite Hw|].
    unfold parked_ok. cbn. rewrite Hw, Ha. cbn. lia.
  - eapply turn_open_keeps; [exact Ho2|keeps|]. intros _ e3 n3 Ho3.
    eapply turn_open_keeps; [exact Ho3|keeps|]. intros _ e4 n4 Ho4.
    destruct (match halt_decision _ with Some _ => true | None => _ end); [|by apply from_ret].
    apply Hinl. by apply final_summary_closed.
  - eapply from_bind; [apply park_spec|done|]. intros stamped e3 n3 (Hp3 & Hs3 & Hc3 & He3 & Hw3 & Ha3 & Hj).
    destruct Ho2 as [[Hw Ha] Hc He Hp Hs Hu]. rewrite Hw in Hw3. rewrite Ha in Ha3. cbn [app] in *.
    apply Hinl, suspend_closed; [by apply lp_app|rewrite streams_app; lia|congruence|congruence|by rewrite Hw3|].
    unfold parked_ok. rewrite Ha3, Hw3. destruct stamped; [done|]. by rewrite Hj.
Qed.

Lemma react_loop_spec rounds policy r k e0 e n :
  turn_open k (ro_usage r) e0 e n → cf_model_max_retries (en_config e0) < u32_bound →
  from (W := W) e n (react_loop rounds policy r) (turn_closed (k + S rounds * call_fuel (en_config e0)) e0).
Proof using Type*.
  revert r k e n. induction rounds as [|rounds IH]; intros r k e n Ho Hb; cbn [react_loop].
  { rewrite Nat.mul_1_l. by apply final_summary_closed. }
  set (F := call_fuel (en_config e0)) in *.
  eapply turn_open_call; [exact Ho|done|]. fold F. intros [out|f] e1 n1 Ho1.
  2:{ eapply from_conseq; [by eapply finish_failed_closed|]. intros o e' n'. apply turn_closed_mono. lia. }
  eapply turn_open_keeps; [exact Ho1|keeps|]. intros [|] e2 n2 Ho2.
  { eapply from_conseq; [by eapply finish_interrupted_closed|]. intros o e' n'. apply turn_closed_mono. lia. }
  destruct (deduplicate_tool_calls (mo_tool_calls out)) as [|c calls].
  - eapply turn_open_keeps; [exact Ho2|keeps|]. intros _ e3 n3 Ho3.
    eapply turn_open_keeps; [exact Ho3|keeps|]. intros _ e4 n4 Ho4.
    eapply turn_open_keeps; [exact Ho4|keeps|]. intros _ e5 n5 Ho5.
    eapply turn_open_keeps; [exact Ho5|keeps|]. intros _ e6 n6 Ho6.
    eapply from_conseq; [by eapply finish_closed|]. intros o e' n'. apply turn_closed_mono. lia.
  - eapply (from_bind (eq e2)); [apply tool_round_spec; [exact Ho2|done]|done|].
    intros [o|r'] e3 n3 Hx; cbn in Hx.
    + apply from_ret. eapply turn_closed_mono; [|exact Hx]. fold F. lia.
    + eapply from_conseq; [apply IH; [exact Hx|done]|]. intros o e' n'. apply turn_closed_mono. fold F. lia.
Qed.

Definition turn_calls (c : Config) : nat := S (N.to_nat (cf_max_iterations c)) * call_fuel c.

Lemma run_rounds_spec resuming user_turn origin e n :
  idle e → cf_model_max_retries (en_config e) < u32_bound → P n → calm n →
  from (W := W) e n (run_rounds resuming user_turn origin) (turn_closed (turn_calls (en_config e)) e).
Proof using Type*.
  intros Hi Hb Hp [Hs Hu]. unfold run_rounds.
  assert (turn_open 0 UsageDelta_default e e n) as Ho.
  { repeat split; try apply Hi; [done|lia|]. unfold usage_sum. by rewrite Hu. }
  eapply turn_open_keeps; [exact Ho|keeps|]. intros _ e1 n1 Ho1.
  eapply turn_open_keeps; [exact Ho1|keeps|]. intros _ e2 n2 Ho2. from_step.
  eapply from_conseq; [apply react_loop_spec; [exact Ho2|done]|]. intros o e' n'.
  rewrite (to_config _ _ _ _ _ Ho2). apply turn_closed_mono. unfold turn_calls. lia.
Qed.

(** *** Resumption *)

Lemma remember_spec fp : runs (W := W) (λ _, True) (remember_session_allow fp) (λ e _ e' n, frame e e' ∧ n = []).
Proof.
  apply runs_of_from. intros e _. unfold remember_session_allow. from_step. destruct (existsb _ _).
  - apply from_ret. split; [apply frame_refl|done].
  - from_step. apply runs_modify. intros ? <-. split; [by split|done].
Qed.

Lemma answer_parked_spec cx a payload :
  runs (W := W) (λ _, True) (answer_parked cx a payload) (λ e _ e' n, frame e e' ∧ answered_log cx a payload n).
Proof.
  apply runs_of_from. intros e _. unfold answer_parked.
  destruct (decision_allows payload) eqn:Hal; [|apply from_ret; split; [apply frame_refl|by left]].
  eapply (from_bind (λ _, True) _ _ _ _ (λ e (v : bool) e' n, e' = e ∧
    (v = true → (pa_fingerprint a = None ∧ n = [] ∨ ∃ fp, pa_fingerprint a = Some fp ∧ n = [OFingerprint (pa_call a) (Some fp)])) ∧
    (v = false → n = [] ∨ ∃ fp, n = [OFingerprint (pa_call a) fp]))).
  { apply runs_of_from. intros e1 _. unfold verify_approval. destruct (pa_fingerprint a) as [fp|]; [|apply from_ret; split; [done|]; split; [by left|done]].
    from_step. case_match; [|apply from_ret; split; [done|]; split; [done|by left]].
    eapply from_bind; [apply resolved_fingerprint_spec|done|]. intros now ? ? [-> ->]. apply from_ret. cbn. split; [done|].
    split; intros Hb; [apply bool_decide_eq_true in Hb as ->; right; by exists fp|right; by exists now]. }
  { done. }
  intros [|] ? n1 (-> & Hv & Hr); cbn [app].
  2:{ apply from_ret. split; [apply frame_refl|]. destruct (Hr eq_refl) as [->|[fp ->]]; [by left|right; left; by exists fp]. }
  eapply from_bind; [apply run_tool_spec|done|]. intros o ? ? (-> & -> & _).
  eapply (from_bind (λ _, True) _ _ _ _ (λ e _ e' n, frame e e' ∧ n = [])); [|done|].
  { apply runs_of_from. intros e1 _. destruct (decision_permanent payload), (pa_fingerprint a) as [fp|];
      try (apply from_ret; split; [apply frame_refl|done]).
    from_step. case_match; [|apply from_ret; split; [apply frame_refl|done]].
    case_match; [eapply from_spec; [apply remember_spec|done|done]|apply from_ret; split; [apply frame_refl|done]]. }
  intros _ e2 n2 [Hf ->]. apply from_ret. split; [done|]. rewrite app_nil_r. right. right. split; [done|].
  destruct (Hv eq_refl) as [[Hn ->]|(fp & Hfp & ->)]; [by left|right; by exists fp].
Qed.

Lemma take_approval_spec job l a others :
  take_approval job l = Some (a, others) → a ∈ l ∧ pa_job_id a = job ∧ ∀ x, x ∈ others → x ∈ l.
Proof.
  revert others. induction l as [|y l IH]; intros others; cbn; [done|]. case_bool_decide as Hy.
  - intros [= <- <-]. split; [left|]. split; [done|]. intros x Hx. by right.
  - destruct (take_approval job l) as [[b o]|] eqn:Ht; [|done]. intros [= <- <-].
    destruct (IH o eq_refl) as (Hin & Hj & Hsub). split; [by right|]. split; [done|].
    intros x [->|Hx]%elem_of_cons; [left|right; auto].
Qed.

Definition all_good (approvals : list PendingApproval) (pending : list Completion) : Prop :=
  ∀ a co, a ∈ approvals → co ∈ pending → pa_job_id a = co_job_id co → Good a (co_payload co).

Lemma resolve_each_spec cx pending : rc_pre_approved cx = true →
  runs (W := W) (λ e, all_good (sn_pending_approvals (en_snapshot e)) pending) (resolve_each cx pending)
    (λ e _ e' n, en_config e' = en_config e ∧ P n ∧ calm n).
Proof using Type*.
  intros Hcx. induction pending as [|co pending IH]; cbn [resolve_each].
  { apply runs_ret. intros e _. repeat split; apply lp_nil. }
  apply runs_of_from. intros e Hg. from_step. destruct (take_approval _ _) as [[a others]|] eqn:Ht.
  - destruct (take_approval_spec _ _ _ _ Ht) as (Hin & Hj & Hsub). from_step.
    eapply from_bind; [apply answer_parked_spec|done|]. intros r e1 n1 [Hf Hl].
    pose proof (answered_calm _ _ _ _ Hl) as Hc.
    apply Hans in Hl; [|done|by apply Hg; [|left|]].
    unfold replace_awaiting_result. from_step. eapply from_spec; [apply IH| |].
    { intros b co' Hb Hco. cbn in Hb. rewrite (fr_approvals _ _ Hf) in Hb. cbn in Hb. apply Hg; [auto|by right]. }
    intros ? e2 n2 (Hc2 & Hp2 & Hcm). split; [rewrite Hc2; cbn; by rewrite (fr_config _ _ Hf)|]. split; by apply lp_app.
  - eapply from_bind; [apply IH| |].
    { intros b co' Hb Hco. apply Hg; [done|by right]. }
    intros l e2 n2 Hq. by apply from_ret.
Qed.

Lemma resolve_approvals_spec :
  runs (W := W) (λ e, all_good (sn_pending_approvals (en_snapshot e)) (en_pending e)) resolve_approvals
    (λ e _ e' n, en_config e' = en_config e ∧ P n ∧ calm n).
Proof using Type*.
  apply runs_of_from. intros e Hg. unfold resolve_approvals. repeat from_step.
  eapply from_bind; [by apply resolve_each_spec|exact Hg|]. intros rest e1 n1 Hq.
  eapply from_spec; [by apply (runs_modify (λ _, True) _ (λ e _ e' n, en_config e' = en_config e ∧ n = []))|done|].
  intros _ e2 n2 [Hc ->]. rewrite app_nil_r, Hc. exact Hq.
Qed.

(** A suspension that bumps nothing. *)
Definition resuspended (o : TurnOutcome) (e : Engine) (n : list Obs) : Prop :=
  ∃ su mid, o = TSuspended su ∧ n = mid ++ [OEvent (TurnFinished (summary_ended Suspended))] ∧ P mid ∧ calm mid ∧ suspended_at su e.

Lemma suspend_again e n job payload :
  P n → calm n → head (sn_waiting_for (en_snapshot e)) = Some job → parked_ok e →
  from (W := W) e n (suspend job payload false) (λ o e' n', en_config e' = en_config e ∧ resuspended o e' n').
Proof using Type*.
  intros Hp Hc Hh Hk. unfold suspend. repeat from_step. split; [done|]. eexists _, n.
  split; [done|]. split; [done|]. split; [done|]. split; [done|]. split; [done|]. by split.
Qed.

Lemma resolve_pending_spec :
  runs (W := W) (λ _, True) resolve_pending (λ e _ e' n, en_config e' = en_config e ∧ n = []).
Proof. apply runs_of_from. intros e _. unfold resolve_pending. from_step. apply runs_modify. by intros ? <-. Qed.

Lemma resume_turn_spec resuming :
  runs (W := W) (λ e, parked_ok e ∧ all_good (sn_pending_approvals (en_snapshot e)) (en_pending e)) (resume_turn resuming) (λ e r e' n, en_config e' = en_config e ∧
    match r with Some o => resuspended o e' n | None => idle e' ∧ P n ∧ calm n end).
Proof using Type*.
  assert (∀ (m : @E W TurnOutcome) e0 e n, from e n m (λ o e' n', en_config e' = en_config e0 ∧ resuspended o e' n') →
    from e n (o ← m; mret (Some o)) (λ r e' n', en_config e' = en_config e0 ∧
      match r with Some o => resuspended o e' n' | None => idle e' ∧ P n' ∧ calm n' end)) as Hsome.
  { intros m e0 e n Hm. eapply (from_bind (eq e)); [exact Hm|done|]. intros o e' n' Hq. by apply from_ret. }
  apply runs_of_from. intros e [Hk Hg]. unfold resume_turn. from_step. destruct resuming.
  - assert (runs (W := W) (λ e, all_good (sn_pending_approvals (en_snapshot e)) (en_pending e)) (if nil_b (sn_pending_approvals (en_snapshot e)) then mret tt else resolve_approvals)
      (λ e _ e' n, en_config e' = en_config e ∧ P n ∧ calm n)) as Hres.
    { destruct (nil_b _); [|apply resolve_approvals_spec]. apply runs_ret. intros ? _. repeat split; apply lp_nil. }
    eapply from_bind; [exact Hres|exact Hg|]. intros _ e1 n1 (Hc1 & Hp1 & Hm1). 
    eapply from_bind; [apply resolve_pending_spec|done|]. intros _ e2 n2 [Hc2 ->]. rewrite app_nil_r. from_step.
    destruct (sn_pending_approvals (en_snapshot e2)) as [|a l] eqn:Ha.
    + repeat from_step. split; [cbn; congruence|]. split; [by split|]. done.
    + from_step. apply Hsome. eapply from_conseq; [apply suspend_again; [done|done|cbn; by rewrite Ha|]|].
      { unfold parked_ok. cbn. by rewrite Ha. }
      intros o e' n' [Hc' Hr]. split; [rewrite Hc'; cbn; congruence|done].
  - unfold parked_ok in Hk. destruct (sn_waiting_for (en_snapshot e)) as [|job rest] eqn:Hw.
    + apply from_ret. split; [done|]. destruct (sn_pending_approvals (en_snapshot e)) eqn:Ha; [|done].
      split; [by split|]. split; apply lp_nil.
    + apply Hsome. destruct (sn_pending_approvals (en_snapshot e)) as [|a l] eqn:Ha; cbn [nil_b].
      * apply suspend_again; [apply lp_nil|done|by rewrite Hw|]. unfold parked_ok. by rewrite Ha, Hw.
      * apply suspend_again; [apply lp_nil|done|by rewrite Hw|]. unfold parked_ok. by rewrite Ha, Hw.
Qed.

(** *** The whole turn *)

Record turn_result (e : Engine) (o : TurnOutcome) (e' : Engine) (n : list Obs) : Prop := {
  rs_log : ∃ mid, n = OEvent (TurnStarted (turn_trigger e)) :: mid ++ [OEvent (TurnFinished (outcome_summary o))] ∧
    P mid ∧ (streams mid <= turn_calls (en_config e))%nat ∧
    (accounted (ts_end_reason (outcome_summary o)) = true → ts_usage (outcome_summary o) = usage_sum mid);
  rs_parked : parked_ok e';
  rs_outcome : match o with
               | TCompleted s => ts_end_reason s ≠ Suspended ∧
                   (idle e' ∨ ts_end_reason s = Interrupted ∧
                      sn_waiting_for (en_snapshot e') = sn_waiting_for (en_snapshot e) ∧
                      sn_pending_approvals (en_snapshot e') = sn_pending_approvals (en_snapshot e))
               | TSuspended su => suspended_at su e'
               end
}.

Lemma run_turn_result :
  runs (W := W) (λ e, parked_ok e ∧ cf_model_max_retries (en_config e) < u32_bound ∧
      all_good (sn_pending_approvals (en_snapshot e)) (en_pending e)) run_turn turn_result.
Proof using Type*.
  apply runs_of_from. intros e (Hk & Hb & Hg). unfold run_turn. repeat from_step. cbn [app].
  set (t := OEvent (TurnStarted (turn_trigger e))).
  eapply (from_keeps (λ n, P n ∧ calm n)); [keeps|]. intros interrupted e1 n1 Hf [Hp Hc].
  assert (parked_ok e1) as Hk1 by (destruct Hf as [_ _ _ _ _ Hw Ha]; unfold parked_ok in *; by rewrite Ha, Hw).
  pose proof (fr_config _ _ Hf) as Hc1. cbn in Hc1. destruct interrupted.
  - unfold finish_interrupted, finish. repeat from_step. split; [|done|].
    + exists n1. destruct Hc as [-> _]. repeat split; [done|lia|done].
    + split; [done|]. right. by destruct Hf.
  - eapply from_bind; [apply resume_turn_spec|split; [done|]; by destruct Hf as [_ _ _ -> _ _ ->]|]. intros [o|] e2 n2 [Hc2 Hr].
    + apply from_ret. destruct Hr as (su & mid & -> & -> & Hpm & [Hsm Hum] & Hsu).
      split; [|by destruct Hsu as (_ & _ & ?)|done]. exists (n1 ++ mid). destruct Hc as [Hs1 _].
      rewrite app_assoc. repeat split; [by apply lp_app|rewrite streams_app; lia|done].
    + destruct Hr as (Hi & Hp2 & Hcm).
      assert (from (W := W) e2 (n1 ++ n2) (run_rounds (negb (nil_b (en_pending e)))
        (match turn_trigger e with TrUser | TrSteer => true | _ => false end) (en_next_origin e))
        (turn_closed (turn_calls (en_config e2)) e2)) as Hrr.
      { apply run_rounds_spec; [done|by rewrite Hc2, Hc1|by apply lp_app|by apply lp_app]. }
      eapply runs_conseq; [exact Hrr|done|]. intros ? o e' n' <- [(mid & Hn & Hpm & Hsm & Hum) _ Hpk].
      rewrite Hc2, Hc1 in Hsm. split.
      * exists mid. split; [|done]. cbn [app]. by rewrite Hn.
      * destruct o; [by apply idle_parked, Hpk|by apply Hpk].
      * destruct o as [s|su]; [|by apply Hpk]. destruct Hpk as (Hne & Hid & _). split; [done|by left].
Qed.
End turn.

(** ** The logs of a turn *)

Definition turn_marker (o : Obs) : bool :=
  match o with OEvent (TurnStarted _) | OEvent (TurnFinished _) => true | _ => false end.

Definition is_start (o : Obs) : bool := match o with OEvent (ToolStarted _) => true | _ => false end.
Definition is_finish (o : Obs) : bool := match o with OEvent (ToolFinished _) => true | _ => false end.
Definition count (f : Obs → bool) (n : list Obs) : nat := length (List.filter f n).

Lemma count_app f a b : count f (a ++ b) = (count f a + count f b)%nat.
Proof. unfold count. by rewrite List.filter_app, length_app. Qed.

Lemma count_none f n : Forall (λ o, f o = false) n → count f n = 0%nat.
Proof. unfold count. induction 1 as [|o n Ho _ IH]; [done|]. cbn. by rewrite Ho. Qed.

Lemma count_all {A} f (g : A → Obs) l : (∀ x, f (g x) = true) → count f (g <$> l) = length l.
Proof. intros Hf. unfold count. induction l as [|x l IH]; [done|]. cbn. rewrite Hf. cbn. by rewrite IH. Qed.

Lemma fmap_all {A} (ok : Obs → Prop) (g : A → Obs) l : (∀ x, ok (g x)) → Forall ok (g <$> l).
Proof. intros Hg. apply Forall_fmap, Forall_forall. auto. Qed.

Lemma runs_all (ok : Obs → Prop) rs : (∀ o, is_run o = true → ok o) → Forall (λ o, is_run o = true) rs → Forall ok rs.
Proof. intros Hok Hrs. eapply Forall_impl; [exact Hrs|]. apply Hok. Qed.

Lemma stream_all (ok : Obs → Prop) evs : (∀ e, stream_event e = true → ok (OEvent e)) →
  Forall (λ e, stream_event e = true) evs → Forall ok (OEvent <$> evs).
Proof. intros Hok Hev. apply Forall_fmap. eapply Forall_impl; [exact Hev|]. apply Hok. Qed.

(** Nothing starts or finishes a turn inside it. *)
#[export] Instance CallLog_unmarked K : CallLog K (Forall (λ o, turn_marker o = false)).
Proof.
  split; [split; [apply _|by intros []; repeat constructor|by repeat constructor|by repeat constructor|]|].
  - intros vs rs vs' _ Hrs. repeat apply Forall_app_2; [by apply fmap_all|by apply runs_all; [intros []|]|by apply fmap_all].
  - intros n (l & r & evs & -> & Hev). repeat apply Forall_app_2; [by repeat constructor|by apply stream_all; [intros []|]|by repeat constructor].
Qed.

(** Every tool event that opens is closed. *)
Definition tools_paired (n : list Obs) : Prop := count is_start n = count is_finish n.

#[export] Instance CallLog_paired K : CallLog K tools_paired.
Proof.
  split; [split; [split; [done|]|by intros []|done|done|]|]; unfold tools_paired.
  - intros a b. rewrite !count_app. lia.
  - intros vs rs vs' Hl%Forall2_length Hrs. rewrite !count_app, !(count_none _ rs) by (by apply runs_all; [intros []|]).
    rewrite (count_all is_start started), (count_all is_finish finished) by done.
    rewrite (count_none is_start (finished <$> vs')), (count_none is_finish (started <$> vs)) by by apply fmap_all. lia.
  - intros n (l & r & evs & -> & Hev). rewrite !count_app, !(count_none _ (OEvent <$> evs)) by (by apply stream_all; [intros []|]). done.
Qed.

(** The ids of the calls under way after a log, oldest first, if every end carries the id
    of the oldest call under way. *)
Fixpoint open_calls (q : list string) (n : list Obs) : option (list string) :=
  match n with
  | [] => Some q
  | OEvent (ToolStarted v) :: n => open_calls (q ++ [vc_call_id v]) n
  | OEvent (ToolFinished v) :: n =>
      match q with
      | id :: q' => if bool_decide (vr_call_id v = id) then open_calls q' n else None
      | [] => None
      end
  | _ :: n => open_calls q n
  end.

Lemma open_calls_app a : ∀ q b, open_calls q (a ++ b) = open_calls q a ≫= λ q', open_calls q' b.
Proof.
  induction a as [|o a IH]; intros q b; [done|]. cbn [app open_calls].
  destruct o as [ev| | | | | |]; try apply IH. destruct ev; try apply IH.
  destruct q as [|id q]; [done|]. case_bool_decide; [apply IH|done].
Qed.

Lemma open_calls_none n q : Forall (λ o, is_start o = false ∧ is_finish o = false) n → open_calls q n = Some q.
Proof. induction 1 as [|o n [Hs Hf] _ IH]; [done|]. destruct o as [ev| | | | | |]; try done. by destruct ev. Qed.

Lemma open_calls_started vs : ∀ q, open_calls q (started <$> vs) = Some (q ++ (vc_call_id <$> vs)).
Proof. induction vs as [|v vs IH]; intros q; [by rewrite app_nil_r|]. cbn. rewrite IH, <- app_assoc. done. Qed.

Lemma open_calls_finished (K : Prop) vs vs' : K → Forall2 (answers K) vs vs' → open_calls (vc_call_id <$> vs) (finished <$> vs') = Some [].
Proof. intros HK. induction 1 as [|v v' vs vs' Hv _ IH]; [done|]. cbn. by rewrite bool_decide_eq_true_2 by by apply Hv. Qed.

(** Every tool event that opens is closed under its id. *)
Definition calls_closed (K : Prop) (n : list Obs) : Prop := K → open_calls [] n = Some [].

#[export] Instance CallLog_closed K : CallLog K (calls_closed K).
Proof.
  split; [split; [split; [done|]|by intros []|done|done|]|]; unfold calls_closed.
  - intros a b Ha Hb HK. rewrite open_calls_app, Ha by done. by apply Hb.
  - intros vs rs vs' Hv Hrs HK. rewrite !open_calls_app, open_calls_started. cbn [mbind option_bind app].
    rewrite open_calls_app, (open_calls_none rs) by (by apply runs_all; [intros []|]). by eapply open_calls_finished.
  - intros n (l & r & evs & -> & Hev) _. apply open_calls_none. repeat apply Forall_app_2; [by repeat constructor|by apply stream_all; [intros []|]|by repeat constructor].
Qed.

(** Every lease is released after the one call it was acquired for. *)
Definition lease_obs (o : Obs) : bool := match o with OAcquire _ | OStream _ | ORelease _ => true | _ => false end.

Inductive leased : list Obs → Prop :=
| leased_nil : leased []
| leased_other o n : lease_obs o = false → leased n → leased (o :: n)
| leased_call lease req evs n : Forall (λ o, lease_obs o = false) evs → leased n →
    leased (OAcquire lease :: OStream req :: evs ++ ORelease lease :: n).

Lemma leased_app a b : leased a → leased b → leased (a ++ b).
Proof.
  intros Ha Hb. induction Ha as [|o n Ho _ IH|l r evs n He _ IH]; [done|by constructor|].
  cbn. rewrite <- app_assoc. cbn. by constructor.
Qed.

Lemma leased_none n : Forall (λ o, lease_obs o = false) n → leased n.
Proof. induction 1; by constructor. Qed.

#[export] Instance CallLog_leased K : CallLog K leased.
Proof.
  split; [split; [split; [constructor|apply leased_app]|by intros []; repeat constructor|by repeat constructor|by repeat constructor|]|].
  - intros vs rs vs' _ Hrs. apply leased_none.
    repeat apply Forall_app_2; [by apply fmap_all|by apply runs_all; [intros []|]|by apply fmap_all].
  - intros n (l & r & evs & -> & Hev). cbn. constructor; [by apply stream_all; [intros []|]|constructor].
Qed.

#[export] Instance CallLog_and K P Q `{!CallLog K P, !CallLog K Q} : CallLog K (λ n, P n ∧ Q n).
Proof. split; [apply _|]. intros n Hn. split; by apply cl_attempt. Qed.

(** Answering an approval neither opens nor closes anything. *)
Lemma answered_leased cx a payload n : answered_log cx a payload n →
  leased n ∧ tools_paired n ∧ open_calls [] n = Some [] ∧ Forall (λ o, turn_marker o = false) n.
Proof. intros [->|[[fp ->]|[_ [[_ ->]|(fp & _ & ->)]]]]; repeat split; repeat constructor. Qed.

Section claims.
Context {W : Type} `{World W} `{Json}.

Lemma run_turn_from P `{!CallLog (tools_keep_ids (W := W)) P} (Good : PendingApproval → bytes → Prop) (e : Engine) (w : W) log :
  (∀ cx a payload n, rc_pre_approved cx = true → Good a payload → answered_log cx a payload n → P n) →
  parked_ok e → cf_model_max_retries (en_config e) < u32_bound →
  all_good Good (sn_pending_approvals (en_snapshot e)) (en_pending e) →
  ∃ o e' w' n, run_turn (mkSt e w log) = (Ok o, mkSt e' w' (log ++ n)) ∧ turn_result P e o e' n.
Proof.
  intros Hans Hk Hb Hg. destruct (run_turn_result P Good Hans (mkSt e w log)) as (o & [e' w' l] & n & Hr & Hl & Hres); [done|].
  cbn in Hl, Hres. subst l. by exists o, e', w', n.
Qed.

(** C2. A turn always ends: from any engine whose suspension state is consistent and
    whose retry limit fits its machine word, and against any provider, host, tools and
    interrupts, [run_turn] returns an outcome; its events open with [TurnStarted] and close
    with the one [TurnFinished] that carries the summary of that outcome. In between as many
    tool calls finish as start, and when every tool answers under the id of the call it is
    run for, each end carries the id of the oldest call still under way and no call is left
    under way: every started call is finished, once, in order. *)
Theorem turn_protocol (e : Engine) (w : W) log :
  parked_ok e → cf_model_max_retries (en_config e) < u32_bound →
  ∃ o e' w' mid,
    run_turn (mkSt e w log) = (Ok o, mkSt e' w' (log ++ OEvent (TurnStarted (turn_trigger e)) :: mid ++
                                              [OEvent (TurnFinished (outcome_summary o))])) ∧
    Forall (λ o, turn_marker o = false) mid ∧ count is_start mid = count is_finish mid ∧
    (tools_keep_ids (W := W) → open_calls [] mid = Some []).
Proof.
  intros Hk Hb.
  destruct (run_turn_from (λ n, Forall (λ o, turn_marker o = false) n ∧ tools_paired n ∧ calls_closed (tools_keep_ids (W := W)) n) (λ _ _, True) e w log)
    as (o & e' & w' & n & Hr & [(mid & -> & (Hm & Hp & Hc) & _) _ _]); [|done|done|by intros ? ?|].
  { intros cx a payload n _ _ (_ & ? & Hc & ?)%answered_leased. split; [done|]. split; [done|]. by intros _. }
  by exists o, e', w', mid.
Qed.

(** C24. The resources of a turn: every capability lease is released after the one model
    call it was acquired for, the model is called at most [(max_iterations + 1) * (2 *
    max_retries + 3)] times, and the summary of a turn that ran to its end reports the sum
    of the usage events of the turn. *)
Theorem turn_resources (e : Engine) (w : W) log :
  parked_ok e → cf_model_max_retries (en_config e) < u32_bound →
  ∃ o e' w' n, run_turn (mkSt e w log) = (Ok o, mkSt e' w' (log ++ n)) ∧ leased n ∧
    N.of_nat (streams n) <= (cf_max_iterations (en_config e) + 1) * (2 * cf_model_max_retries (en_config e) + 3) ∧
    (accounted (ts_end_reason (outcome_summary o)) = true →
       ts_usage (outcome_summary o) = foldl UsageDelta_add UsageDelta_default (usages n)).
Proof.
  intros Hk Hb. destruct (run_turn_from leased (λ _ _, True) e w log)
    as (o & e' & w' & n & Hr & [(mid & -> & Hm & Hs & Hu) _ _]); [|done|done|by intros ? ?|].
  { intros cx a payload n _ _ (? & _)%answered_leased. done. }
  exists o, e', w'. eexists. split; [exact Hr|]. split; [constructor; [done|]; apply leased_app; [done|by repeat constructor]|]. split.
  - change (?t :: mid ++ ?f) with ([t] ++ mid ++ f). rewrite !streams_app. cbn.
    unfold turn_calls, call_fuel in Hs. lia.
  - intros Ha. rewrite (Hu Ha). unfold usage_sum. change (?t :: mid ++ ?f) with ([t] ++ mid ++ f).
    by rewrite !usages_app, app_nil_r.
Qed.

(** C15. Suspension stays consistent: a turn leaves either nothing awaited, or one
    delegated job, or exactly the parked approvals; a suspended turn hands the host the
    first awaited job under the epoch of the snapshot it leaves; a turn that ends any other
    way awaits nothing, unless an interrupt ended it before it did anything. *)
Theorem turn_suspension (e : Engine) (w : W) log :
  parked_ok e → cf_model_max_retries (en_config e) < u32_bound →
  ∃ o e' w' log', run_turn (mkSt e w log) = (Ok o, mkSt e' w' log') ∧ parked_ok e' ∧
    match o with
    | TSuspended su => head (sn_waiting_for (en_snapshot e')) = Some (su_job_id su) ∧ su_epoch su = sn_epoch (en_snapshot e')
    | TCompleted s => ts_end_reason s ≠ Suspended ∧
        (idle e' ∨ ts_end_reason s = Interrupted ∧ sn_waiting_for (en_snapshot e') = sn_waiting_for (en_snapshot e) ∧
           sn_pending_approvals (en_snapshot e') = sn_pending_approvals (en_snapshot e))
    end.
Proof.
  intros Hk Hb. destruct (run_turn_from leased (λ _ _, True) e w log)
    as (o & e' & w' & n & Hr & [_ Hk' Ho]); [|done|done|by intros ? ?|].
  { intros cx a payload n _ _ (? & _)%answered_leased. done. }
  exists o, e', w'. eexists. split; [exact Hr|]. split; [done|]. destruct o as [s|su]; [done|]. by destruct Ho as (? & ? & _).
Qed.
End claims.

(** ** A scripted world *)

(** A tool that parks, one that delegates, one that fails, and others that answer. *)
Definition toy_tools (cx : RunCx) (c : ToolCall) : ToolOutcome :=
  let answer ok content effects := mkToolOutcome (mkToolResult (tc_call_id c) ok (string_bytes content)) None effects in
  if bool_decide (tc_name c = "gate") && negb (rc_pre_approved cx)
  then answer true "awaiting-approval:job-1" [AwaitDecision "job-1" c [] None]
  else if bool_decide (tc_name c = "delegate") then answer true "delegated:job-2" [Delegate "job-2" []]
  else if bool_decide (tc_name c = "broken") then answer false "failed" []
  else answer true "ok" [].

Record Toy := mkToy {
  ty_streams : list (list StreamItem);
  ty_cancels : list bool;
  ty_fingerprint : option CommandFingerprint;
  ty_compact : Conversation → N → Conversation
}.

Definition toy_cancelled (w : Toy) : bool * Toy :=
  (default false (head (ty_cancels w)), mkToy (ty_streams w) (tail (ty_cancels w)) (ty_fingerprint w) (ty_compact w)).
Definition toy_stream (w : Toy) : list StreamItem * Toy :=
  (default [] (head (ty_streams w)), mkToy (tail (ty_streams w)) (ty_cancels w) (ty_fingerprint w) (ty_compact w)).

#[export] Instance toy_world : World Toy := {|
  w_cancelled := toy_cancelled;
  w_drain_snapshot w := ([], w);
  w_drain_observe w := ([], w);
  w_drain_steer w := ([], w);
  w_nanos w := (0, w);
  w_now_ms w := (0, w);
  w_sleep _ w := (false, w);
  w_acquire p _ w := (Ok (mkLease p None), w);
  w_release _ w := w;
  w_rotate _ _ w := w;
  w_stream _ := toy_stream;
  w_max_context _ := None;
  w_before_turn c b w := ((c, mkPressure (estimate_tokens c) b), w);
  w_compact c b w := (ty_compact w c b, w);
  w_tool_defs _ _ := [];
  w_class _ _ := Some (mkToolClass true Exclusive None true);
  w_fingerprint _ _ w := (ty_fingerprint w, w);
  w_run_tool cx c w := (toy_tools cx c, w);
  w_on_tool_call _ _ w := (None, w);
  w_spawn _ w := w;
  w_recall _ _ w := (None, w);
  w_nudge _ _ _ w := (None, w);
  w_guidance _ := None;
  w_prompt_source _ _ := None;
  w_model_source _ _ _ := None;
  w_async_source _ w := (None, w);
  w_prompt_block _ _ := None;
  w_hook _ w := w;
  w_round_hash l := N.of_nat (length l);
  w_delegation_summary _ := None
|}.

Lemma toy_keep_ids : tools_keep_ids (W := Toy).
Proof. intros cx c w. cbn. unfold toy_tools. by repeat case_match. Qed.

#[local] Instance toy_json : Json := {|
  json_from_str b := Some (JScalar b); json_string b := b; repair_args b := b; default_hash b := N.of_nat (length b) |}.

Definition toy_done (text : string) (calls : list ToolCall) : list StreamItem :=
  [SiEvent (SeDone (mkModelOutput (string_bytes text) None calls (mkUsageDelta 10 2 1 0 0 0 0)))].

Definition toy_call (id name : string) : ToolCall := mkToolCall id name (string_bytes "{}").

Definition toy (streams : list (list StreamItem)) (cancels : list bool) : Toy := mkToy streams cancels (Some "fp") drop_oldest.

Definition toy_engine (turns : list Turn) : Engine :=
  mkEngine ((Snapshot_fresh "s") <| sn_conversation := mkConversation [] turns |>) [] None "p" None None Config_default None false
    (mkTurnInjection [] []) 0 0 0 0 None 0 0 None None false.

Definition hello : Engine := toy_engine [TUser (mkUserMsg (string_bytes "hi"))].

(** A retried rate limit, one tool, then the answer. *)
Definition toy_script : Toy :=
  toy [[SiFailure (FRateLimit None [])]; toy_done "calling" [toy_call "c1" "fs"]; toy_done "done" []] [].

Lemma turn_protocol_witness : ∃ o e' w' mid,
  run_turn (mkSt hello toy_script []) = (Ok o, mkSt e' w' ([] ++ OEvent (TurnStarted (turn_trigger hello)) :: mid ++
                                              [OEvent (TurnFinished (outcome_summary o))])) ∧
  Forall (λ o, turn_marker o = false) mid ∧ count is_start mid = count is_finish mid ∧ open_calls [] mid = Some [].
Proof.
  destruct (turn_protocol hello toy_script []) as (o & e' & w' & mid & Hr & Hm & Hc & Ho); [vm_compute; lia|reflexivity|].
  exists o, e', w', mid. split; [exact Hr|]. split; [exact Hm|]. split; [exact Hc|]. apply Ho, toy_keep_ids.
Defined.

Lemma turn_resources_witness : ∃ o e' w' n, run_turn (mkSt hello toy_script []) = (Ok o, mkSt e' w' ([] ++ n)) ∧ leased n ∧
    N.of_nat (streams n) <= (cf_max_iterations (en_config hello) + 1) * (2 * cf_model_max_retries (en_config hello) + 3) ∧
    (accounted (ts_end_reason (outcome_summary o)) = true →
       ts_usage (outcome_summary o) = foldl UsageDelta_add UsageDelta_default (usages n)).
Proof. apply (turn_resources hello toy_script []); [vm_compute; lia|reflexivity]. Defined.

(** A gated call parks, and the host gets its job. *)
Definition toy_gate : Toy := toy [toy_done "gate" [toy_call "c1" "gate"]] [].

Lemma turn_suspension_witness : ∃ o e' w' log', run_turn (mkSt hello toy_gate []) = (Ok o, mkSt e' w' log') ∧ parked_ok e' ∧
    match o with
    | TSuspended su => head (sn_waiting_for (en_snapshot e')) = Some (su_job_id su) ∧ su_epoch su = sn_epoch (en_snapshot e')
    | TCompleted s => ts_end_reason s ≠ Suspended ∧
        (idle e' ∨ ts_end_reason s = Interrupted ∧ sn_waiting_for (en_snapshot e') = sn_waiting_for (en_snapshot hello) ∧
           sn_pending_approvals (en_snapshot e') = sn_pending_approvals (en_snapshot hello))
    end.
Proof. apply (turn_suspension hello toy_gate []); [vm_compute; lia|reflexivity]. Defined.

(** The scripted turns end as the code has it. *)
Definition outcome_of (e : Engine) (w : Toy) : option TurnOutcome :=
  match (run_turn (mkSt e w [])).1 with Ok o => Some o | Err _ => None end.

Example toy_turns :
  outcome_of hello toy_script = Some (TCompleted (mkTurnSummary Completed (Some (string_bytes "done")) (mkUsageDelta 20 4 2 0 0 0 0))) ∧
  outcome_of hello toy_gate = Some (TSuspended (mkSuspension "job-1" 1 APPROVAL_SUSPEND_PAYLOAD)).
Proof. split; vm_compute; reflexivity. Qed.

(** ** What the turn does that its comments do not say *)

(** A batch that parks an approval and delegates: the turn suspends for the approval, and
    the delegated job is neither awaited nor handed to the host. *)
Definition toy_both : Toy := toy [toy_done "both" [toy_call "c1" "gate"; toy_call "c2" "delegate"]] [].

Example delegation_dropped :
  outcome_of hello toy_both = Some (TSuspended (mkSuspension "job-1" 1 APPROVAL_SUSPEND_PAYLOAD)) ∧
  sn_waiting_for (en_snapshot (st_engine (run_turn (mkSt hello toy_both [])).2)) = ["job-1"] ∧
  sn_pending_approvals (en_snapshot (st_engine (run_turn (mkSt hello toy_both [])).2)) =
    [mkPendingApproval "job-1" (toy_call "c1" "gate") [] None (Some "fp")].
Proof. split; [|split]; vm_compute; reflexivity. Qed.

(** An interrupted turn reports no usage, although its model call consumed tokens. *)
Definition toy_interrupt : Toy := toy [toy_done "calling" [toy_call "c1" "fs"]] [false; false; false; false; true; true].

Example interrupted_usage_lost :
  outcome_of hello toy_interrupt = Some (TCompleted (summary_ended Interrupted)) ∧
  usages (st_log (run_turn (mkSt hello toy_interrupt [])).2) = [mkUsageDelta 10 2 1 0 0 0 0].
Proof. split; vm_compute; reflexivity. Qed.
