(* ===== verification/EngineSafety.v ===== *)
(** * Approvals, the guardrail, the context cap and rewind

    What the engine runs on an operator's word, what the guardrail lets through in a batch
    of calls, what is dropped to fit the context, what a rewind leaves, and where
    completions are matched too loosely. *)

From S2P Require Import Prelude Text Common Approval CoreConversation CoreWire Guardrail ModelCall Engine EngineLog EngineTurn.
#[local] Open Scope daemon_scope.
#[local] Open Scope N_scope.

(** ** Pre-approved runs *)

Definition pre_run (o : Obs) : bool := match o with ORun cx _ => rc_pre_approved cx | _ => false end.

(** Every pre-approved run in a log is that of an approval the operator allowed, and
    follows the check that found its fingerprint unchanged. *)
Definition approved_runs (answered : PendingApproval → bytes → Prop) (n : list Obs) : Prop :=
  ∀ pre cx c post, n = pre ++ ORun cx c :: post → rc_pre_approved cx = true →
    ∃ a payload, answered a payload ∧ pa_call a = c ∧ decision_allows payload = true ∧
      (∀ fp, pa_fingerprint a = Some fp → last pre = Some (OFingerprint c (Some fp))).

Lemma approved_none answered n : Forall (λ o, pre_run o = false) n → approved_runs answered n.
Proof.
  intros Hn pre cx c post -> Hcx. apply Forall_app in Hn as [_ Hn]. apply Forall_cons in Hn as [Ho _]. cbn in Ho. congruence.
Qed.

Lemma approved_app answered a b : approved_runs answered a → approved_runs answered b → approved_runs answered (a ++ b).
Proof.
  intros Ha Hb pre cx c post Heq Hcx. destruct (app_split _ _ _ _ Heq) as [(k & -> & Hk)|(k & -> & ->)].
  - destruct k as [|o k]; cbn in Hk; [|injection Hk as <- ->; by apply (Ha pre cx c k)].
    subst b. destruct (Hb [] cx c post eq_refl Hcx) as (p & payload & Hp & Hc & Hd & Hf). exists p, payload.
    repeat split; try done. intros fp Hfp. by specialize (Hf fp Hfp).
  - destruct (Hb k cx c post eq_refl Hcx) as (p & payload & Hp & Hc & Hd & Hf). exists p, payload.
    repeat split; try done. intros fp Hfp. specialize (Hf fp Hfp). by rewrite last_app, Hf.
Qed.

#[export] Instance CallLog_approved K answered : CallLog K (approved_runs answered).
Proof.
  split; [split; [split; [by apply approved_none; constructor|apply approved_app]|..]|].
  - intros e _. by apply approved_none; repeat constructor.
  - intros s. by apply approved_none; repeat constructor.
  - intros c fp. by apply approved_none; repeat constructor.
  - intros vs rs vs' _ Hrs. apply approved_none. repeat apply Forall_app_2; [by apply fmap_all| |by apply fmap_all].
    apply runs_all; [|done]. intros []; try done. cbn. by intros ?%negb_true_iff.
  - intros n (l & r & evs & -> & Hev). apply approved_none.
    repeat apply Forall_app_2; [by repeat constructor|by apply stream_all; [intros []|]|by repeat constructor].
Qed.

Lemma answered_approved (answered : PendingApproval → bytes → Prop) cx a payload n :
  answered a payload → answered_log cx a payload n → approved_runs answered n.
Proof.
  intros Ha [->|[[fp ->]|[Hd [[Hn ->]|(fp & Hfp & ->)]]]]; [by apply approved_none; repeat constructor..| |];
    intros pre cx' c post Heq Hcx; exists a, payload.
  - destruct pre as [|o [|]]; cbn in Heq; simplify_eq. repeat split; try done. intros fp. by rewrite Hn.
  - destruct pre as [|o [|o' [|]]]; cbn in Heq; simplify_eq. repeat split; try done. intros fp'. by rewrite Hfp; intros [= ->].
Qed.

(** C9. Nothing runs pre-approved without the operator: every tool run of a turn with the
    approval gate lifted is the call of an approval parked in the snapshot whose decision,
    delivered by a completion of that job, allows it; and when the approval carries a
    fingerprint, the run comes right after the tool resolved the call to the same one. *)
Theorem approvals_honoured {W} `{World W} `{Json} (e : Engine) (w : W) log :
  parked_ok e → cf_model_max_retries (en_config e) < u32_bound →
  ∃ o e' w' n, run_turn (mkSt e w log) = (Ok o, mkSt e' w' (log ++ n)) ∧
    approved_runs (λ a payload, a ∈ sn_pending_approvals (en_snapshot e) ∧ mkCompletion (pa_job_id a) payload ∈ en_pending e) n.
Proof.
  intros Hk Hb. set (answered := λ a payload, _ ∧ _).
  destruct (run_turn_from (approved_runs answered) answered e w log)
    as (o & e' & w' & n & Hr & [(mid & -> & Hm & _) _ _]); [|done|done| |].
  - intros cx a payload n _. apply answered_approved.
  - intros a [job payload] Ha Hco Hj. cbn in *. subst job. by split.
  - exists o, e', w'. eexists. split; [exact Hr|]. change (?t :: mid ++ ?f) with ([t] ++ mid ++ f).
    repeat apply approved_app; [by apply approved_none; repeat constructor|done|by apply approved_none; repeat constructor].
Qed.

(** An allowed call runs on resumption; one whose fingerprint moved does not. *)
Definition toy_parked (fp : string) : Engine :=
  (on_snapshot (λ s, s <| sn_waiting_for := ["job-1"] |>
     <| sn_pending_approvals := [mkPendingApproval "job-1" (toy_call "c1" "gate") [] None (Some fp)] |>) hello)
  <| en_pending := [mkCompletion "job-1" (string_bytes "allow")] |>.

Definition toy_resumed : Toy := toy [toy_done "done" []] [].

#[local] Instance plain_json_engine : Json := {|
  json_from_str b := Some (JScalar b); json_string b := b; repair_args b := b; default_hash b := N.of_nat (length b) |}.

Definition pre_runs (e : Engine) : nat := count pre_run (st_log (run_turn (mkSt e toy_resumed [])).2).

Lemma approvals_honoured_witness :
  (∃ o e' w' n, run_turn (mkSt (toy_parked "fp") toy_resumed []) = (Ok o, mkSt e' w' ([] ++ n)) ∧
    approved_runs (λ a payload, a ∈ sn_pending_approvals (en_snapshot (toy_parked "fp")) ∧
      mkCompletion (pa_job_id a) payload ∈ en_pending (toy_parked "fp")) n) ∧
  pre_runs (toy_parked "fp") = 1%nat ∧ pre_runs (toy_parked "moved") = 0%nat.
Proof.
  split; [|split; vm_compute; reflexivity].
  apply (approvals_honoured (toy_parked "fp") toy_resumed []); [vm_compute; reflexivity|reflexivity].
Defined.

(** ** The guardrail over a batch *)

Definition calls_run (n : list Obs) : list ToolCall := omap (λ o, match o with ORun _ c => Some c | _ => None end) n.

Lemma calls_run_app a b : calls_run (a ++ b) = calls_run a ++ calls_run b.
Proof. apply omap_app. Qed.

#[local] Instance LogProp_runless : LogProp (λ n, calls_run n = []).
Proof. split; [done|]. intros a b Ha Hb. by rewrite calls_run_app, Ha, Hb. Qed.



Section guardrail.
Context {W : Type} `{World W} `{Json}.
Implicit Types (g : ToolGuardrail) (b : BatchOut) (l : list Checked).






























End guardrail.

(** Three spellings of the same failing call, under a threshold of two. *)
Definition two_strikes : GuardrailConfig := mkGuardrailConfig true true 2 2 3 8 2 5.
Definition broken_call (args : string) : ToolCall := mkToolCall args "broken" (string_bytes args).
Definition spellings : list ToolCall := deduplicate_tool_calls (broken_call <$> ["{}"; "{ }"; "{  }"; "{}"]).
Definition strict_guardrail : ToolGuardrail := ToolGuardrail_new two_strikes.
Definition strict_cx : RunCx := turn_cx false (effective_policy hello) hello.
Definition strict_state : @St Toy := mkSt hello toy_resumed [].

(** A reader of JSON that skips blanks. *)
#[local] Instance blank_json : Json := {|
  json_from_str b := Some (JScalar (List.filter (λ x, negb (bool_decide (x = Byte.x20))) b));
  json_string b := b; repair_args b := b; default_hash b := N.of_nat (length b) |}.


(** All of them run, and the count passes the threshold; the next such call is refused, and
    halts the turn. *)
Definition after_batch (calls : list ToolCall) (g : ToolGuardrail) : option (ToolGuardrail * nat) :=
  match execute_tool_batch strict_cx calls g strict_state with
  | (Ok (b, _), s') => Some (bo_guardrail b, length (calls_run (st_log s')))
  | (Err _, _) => None
  end.

Example spellings_pass_the_threshold :
  match after_batch spellings strict_guardrail with
  | Some (g, runs) => (runs, failures (signature_of (broken_call "{}")) g, halt_decision g,
      (λ gr, (gr.2, gd_code <$> halt_decision gr.1)) <$> after_batch [broken_call "{}"] g)
  | None => (0%nat, 0, None, None)
  end = (3%nat, 3, None, Some (0%nat, Some "repeated_exact_failure_block")).
Proof. vm_compute. reflexivity. Qed.

(** ** The context cap *)

Lemma hard_cap_spec system target turns :
  last (hard_cap system target turns) = last turns ∧ (∃ k, hard_cap system target turns = drop k turns) ∧
  (estimate_tokens (mkConversation system (hard_cap system target turns)) <= target ∨
   (length (hard_cap system target turns) <= 1)%nat).
Proof.
  induction turns as [|t turns IH]; cbn [hard_cap]; [split; [done|]; split; [by exists 0%nat|right; cbn; lia]|].
  destruct turns as [|t' turns]; [split; [done|]; split; [by exists 0%nat|right; cbn; lia]|].
  destruct (N.ltb_spec target (estimate_tokens (mkConversation system (t :: t' :: turns)))) as [Ht|Ht].
  - destruct IH as (Hl & [k Hk] & He). split; [by rewrite Hl|]. split; [by exists (S k)|done].
  - split; [done|]. split; [by exists 0%nat|by left].
Qed.

Lemma memory_hook_still {W} `{World W} f : runs (W := W) (λ _, True) (memory_hook f) (λ e _ e' n, e' = e ∧ n = []).
Proof.
  apply runs_of_from. intros e _. unfold memory_hook. from_step.
  generalize (seq 0 (en_memory e)) as l. induction l as [|i l IH]; cbn [for_each]; [by apply from_ret|]. by from_step.
Qed.
Lemma before_compact_still {W} `{World W} : runs (W := W) (λ _, True) before_compact_memory (λ e _ e' n, e' = e ∧ n = []).
Proof. apply runs_of_from. intros e _. unfold before_compact_memory. from_step. eapply from_spec; [apply memory_hook_still|done|done]. Qed.
Lemma notify_still {W} `{World W} r : runs (W := W) (λ _, True) (notify_session_switch r) (λ e _ e' n, e' = e ∧ n = []).
Proof. apply memory_hook_still. Qed.

(** Whatever the context engine's compaction returns, a turn that starts over its
    budget proceeds within it, or with a single turn; the hard cap drops whole turns from
    the front and keeps the last. *)
Theorem context_capped {W} `{World W} (target : N) (s : @St W) :
  ∃ dropped s', compact_before_turn target s = (Ok dropped, s') ∧
    let c := sn_conversation (en_snapshot (st_engine s')) in
    (estimate_tokens c <= target ∨ (length (cv_turns c) <= 1)%nat) ∧
    ∃ w k, let compacted := (w_compact (sn_conversation (en_snapshot (st_engine s))) target w).1 in
      cv_turns c = drop k (cv_turns compacted) ∧ last (cv_turns c) = last (cv_turns compacted).
Proof.
  enough (runs (W := W) (λ _, True) (compact_before_turn target) (λ e _ e' _,
    let c := sn_conversation (en_snapshot e') in
    (estimate_tokens c <= target ∨ (length (cv_turns c) <= 1)%nat) ∧
    ∃ w k, let compacted := (w_compact (sn_conversation (en_snapshot e)) target w).1 in
      cv_turns c = drop k (cv_turns compacted) ∧ last (cv_turns c) = last (cv_turns compacted))) as Hr.
  { destruct (Hr s I) as (d & s' & n & Hrun & _ & Hq). by exists d, s'. }
  apply runs_of_from. intros e _. unfold compact_before_turn.
  eapply from_bind; [apply before_compact_still|done|]. intros _ ? ? [-> ->]. repeat from_step. unfold compact_to.
  eapply (from_bind (eq e) _ _ _ _ (λ _ _ e' n, (∃ w, e' = on_conversation (λ _, (w_compact (sn_conversation (en_snapshot e)) target w).1) e) ∧ n = [])).
  { apply runs_of_from. intros ? <-. from_step. apply from_poll_at. intros w. apply runs_modify. intros ? <-. split; [by exists w|done]. }
  { done. }
  intros _ ? ? [[w ->] ->]. repeat from_step. eapply from_bind; [apply notify_still|done|]. intros _ ? ? [-> ->]. apply from_ret.
  destruct (hard_cap_spec (cv_system (w_compact (sn_conversation (en_snapshot e)) target w).1) target
    (cv_turns (w_compact (sn_conversation (en_snapshot e)) target w).1)) as (Hlast & [k Hk] & Hle).
  split; [exact Hle|]. exists w, k. split; [exact Hk|exact Hlast].
Qed.

(** ** Rewind *)

(** What an anchor keeps. *)
Definition anchored (anchor : RewindAnchor) (turns : list Turn) (retained : nat) : Prop :=
  match anchor with
  | AnchorUserTurn o => retained = N.to_nat o ∧ ∃ u, turns !! retained = Some (TUser u)
  | AnchorReplyAfter o => retained = S (N.to_nat o) ∧ ∃ u, last (take retained turns) = Some (TUser u)
  | AnchorCursor c => retained = N.to_nat c ∧ (retained <= length turns)%nat
  end.

Lemma is_user_turn_spec t : is_user_turn t = true → ∃ u, t = Some (TUser u).
Proof. destruct t as [[u| |]|]; try done. by exists u. Qed.

Lemma resolve_anchor_spec anchor turns retained :
  resolve_anchor turns anchor (length turns) = Ok retained → anchored anchor turns retained ∧ (retained <= length turns)%nat.
Proof.
  unfold resolve_anchor. destruct anchor as [o|o|c]; cbn zeta beta.
  - destruct (Nat.leb_spec (length turns) (N.to_nat o)) as [Hl|Hl]; [done|].
    destruct (is_user_turn _) eqn:Hu; [|done]. intros [= <-]. split; [|lia]. split; [done|]. by apply is_user_turn_spec.
  - destruct (Nat.leb_spec (length turns) (N.to_nat o)) as [Hl|Hl]; [done|].
    destruct (is_user_turn _) eqn:Hu; [|done]. intros [= <-]. split; [|lia]. split; [done|].
    apply is_user_turn_spec in Hu as [u Hu]. exists u. by rewrite (take_S_r _ _ _ Hu), last_snoc.
  - destruct (Nat.ltb_spec (length turns) (N.to_nat c)) as [Hl|Hl]; [done|]. intros [= <-]. split; [split; [done|lia]|lia].
Qed.

Lemma apply_completions_unawaited cs e : sn_waiting_for (en_snapshot e) = [] → apply_completions cs e = e.
Proof.
  intros Hw. unfold apply_completions. induction cs as [|co cs IH]; [done|]. cbn.
  rewrite bool_decide_false; [done|]. rewrite Hw. apply not_elem_of_nil.
Qed.

(** C32. A rewind either refuses and changes nothing, or keeps exactly the turns up to its
    anchor (ending before the user turn, or with it, or at the cursor), reports the call
    ids of the turns it drops and of no other, bumps the epoch, and fences what is left of
    the abandoned turns: nothing is awaited, and no later completion is stashed. *)
Theorem rewind_fences {W} `{World W} (anchor : RewindAnchor) (request : N) (s : @St W) :
  let turns := cv_turns (sn_conversation (en_snapshot (st_engine s))) in
  match rewind_to anchor request s with
  | (Ok (Ok out), s') =>
      let e' := st_engine s' in
      anchored anchor turns (ro_retained_turns out) ∧
      cv_turns (sn_conversation (en_snapshot e')) = take (ro_retained_turns out) turns ∧
      (cv_turns (sn_conversation (en_snapshot e')) ≫= turn_call_ids) ++ ro_dropped_call_ids out = turns ≫= turn_call_ids ∧
      ro_epoch out = Epoch_next (sn_epoch (en_snapshot (st_engine s))) ∧ sn_epoch (en_snapshot e') = ro_epoch out ∧
      idle e' ∧ en_pending e' = [] ∧ (∀ cs, apply_completions cs e' = e') ∧
      st_log s' = st_log s ++ [OEvent (Rewound request (N.of_nat (ro_retained_turns out)) (ro_epoch out))]
  | (Ok (Err _), s') => s' = s
  | (Err _, _) => False
  end.
Proof.
  destruct s as [e w log]. cbn [st_engine st_log]. set (turns := cv_turns (sn_conversation (en_snapshot e))). cbn zeta.
  assert (∀ k, (take k turns ≫= turn_call_ids) ++ (drop k turns ≫= turn_call_ids) = turns ≫= turn_call_ids) as Hids.
  { intros k. by rewrite <- bind_app, take_drop. }
  assert (rewind_to anchor request (mkSt e w log) = match rewind_snapshot (en_snapshot e) anchor with
    | Err err => (Ok (Err err), mkSt e w log)
    | Ok (outcome, s') => (Ok (Ok outcome),
        mkSt (e <| en_snapshot := s' |> <| en_pending := [] |> <| en_next_trigger := None |> <| en_next_origin := None |>)
          (if (ro_retained_turns outcome =? 0)%nat then w_hook (HSessionReset (sn_session_id s')) w else w)
          (log ++ [OEvent (Rewound request (N.of_nat (ro_retained_turns outcome)) (ro_epoch outcome))]))
    end) as ->.
  { unfold rewind_to, mbind, M_bind, engine, gets. cbn [st_engine]. destruct (rewind_snapshot _ _) as [[out s']|err]; [|done].
    by destruct (ro_retained_turns out =? 0)%nat. }
  unfold rewind_snapshot. fold turns. destruct (resolve_anchor turns anchor (length turns)) as [retained|err] eqn:Hr; [|done].
  apply resolve_anchor_spec in Hr as [Ha _]. cbn zeta. repeat split; [done|apply Hids|intros cs; by apply apply_completions_unawaited].
Qed.

(** ** Completions matched too loosely *)

(** The result of another call that quotes the job is overwritten by its completion. *)
Definition quoting : Engine :=
  (toy_engine [TUser (mkUserMsg (string_bytes "hi"));
     TTool (mkToolTurn (mkAssistantMsg [] None)
       [(toy_call "c1" "delegate", mkToolResult "c1" true (string_bytes "delegated:job-2"));
        (toy_call "c2" "fs", mkToolResult "c2" false (string_bytes "no such file: job-21.txt"))])])
  <| en_pending := [mkCompletion "job-2" (string_bytes "child:2")] |>.

Example completion_overwrites_other_results :
  cv_turns (sn_conversation (en_snapshot (st_engine (resolve_pending (mkSt quoting toy_resumed [])).2))) =
    [TUser (mkUserMsg (string_bytes "hi"));
     TTool (mkToolTurn (mkAssistantMsg [] None)
       [(toy_call "c1" "delegate", mkToolResult "c1" true (string_bytes "completed:job-2:child:2"));
        (toy_call "c2" "fs", mkToolResult "c2" true (string_bytes "completed:job-2:child:2"))])].
Proof. vm_compute. reflexivity. Qed.

(** ** A compaction that is not counted *)

(** Summarizing one turn replaces it by another: the context shrinks, but the number of
    turns does not, and the recovery from an overflow gives up. *)
Definition summarizing : Toy :=
  mkToy [] [] None (compact_summarize (λ _, Some (string_bytes "short"))).
Definition long_talk : Engine :=
  toy_engine [TUser (mkUserMsg (replicate 400 Byte.x61)); TUser (mkUserMsg (string_bytes "hi"))].

Example summary_not_counted :
  let r := compact_context (mkSt long_talk summarizing []) in
  r.1 = Ok false ∧
  estimate_tokens (sn_conversation (en_snapshot (st_engine r.2))) < estimate_tokens (sn_conversation (en_snapshot long_talk)).
Proof. split; vm_compute; reflexivity. Qed.
