(* ===== verification/CoreIncarnation.v ===== *)
(** * The engine behind the activation seam ([daemon-host/src/engine_incarnation.rs])

    [CoreIncarnation] is the [Incarnation] the activation substrate drives: it decodes the
    durable snapshot, folds the completions and the claimed splices into the engine, runs
    one turn, and maps the outcome to the commit the manager makes.  With it
    [daemon-core/src/profile.rs], from which an engine is built.  The CBOR codecs, the
    session's metadata, the profiles a resolver yields, the artifact directories and the
    journal sink are the class [Host]; its hub and host handler act through the world of
    the engine. *)

From S2P Require Import Prelude Text Common Approval StoreTypes Store StoreInv Journal Registry StoreSteps Activation CoreConversation Guardrail ModelCall Engine.
#[local] Open Scope daemon_scope.
#[local] Open Scope N_scope.

(** ** Building an engine *)

(** The data of an [EngineProfile]; its builders and sources belong to the world, which
    keeps how many of them there are. *)
Record EngineProfile := mkEngineProfile {
  ep_credentials : option string;
  ep_fallback_profile : option string;
  ep_profile : option string;
  ep_budget_tokens : option N;
  ep_config : Config;
  ep_memory : SessionId → nat;
  ep_prompt_sources : nat;
  ep_async_sources : nat;
  ep_model_sources : nat;
  ep_model_id : option string;
  ep_nudge_sources : nat;
  ep_tool_observers : SessionId → nat
}.

(** [Engine::from_snapshot]. *)
Definition engine_from_snapshot (sn : Snapshot) : Engine.Engine :=
  mkEngine sn [] None "default" None None Config_default None false (mkTurnInjection [] []) 0 0 0 0 None 0 0 None None false.

Definition dress (p : EngineProfile) (e : Engine.Engine) : Engine.Engine :=
  let id := sn_session_id (en_snapshot e) in
  e <| en_profile := default (en_profile e) (ep_credentials p) |>
    <| en_fallback_profile := match ep_fallback_profile p with Some f => Some f | None => en_fallback_profile e end |>
    <| en_subsystem_profile := ep_profile p |>
    <| en_memory := ep_memory p id |>
    <| en_prompt_sources := ep_prompt_sources p |>
    <| en_async_sources := ep_async_sources p |>
    <| en_model_sources := ep_model_sources p |>
    <| en_model_id := match ep_model_id p with Some m => Some m | None => en_model_id e end |>
    <| en_nudge_sources := ep_nudge_sources p |>
    <| en_tool_observers := ep_tool_observers p id |>
    <| en_budget_tokens := ep_budget_tokens p |>
    <| en_config := ep_config p |>.

(** [EngineProfile::from_snapshot]. *)
Definition profile_from_snapshot (p : EngineProfile) (sn : Snapshot) : Engine.Engine := dress p (engine_from_snapshot sn).

(** ** The host around an incarnation *)

Class Host (W : Type) := {
  h_session_meta : SessionId → W → option SessionMeta * W;
  h_background_profile : SessionId → W → option EngineProfile;
  h_resolver : SessionId → SessionMeta → W → option EngineProfile;
  h_materialize : SessionId → bytes → W → W;
  h_capture_outbox : SessionId → W → option bytes * W;
  (* usage, search index and journal of a turn; the deferred seal *)
  h_journal : TurnCtx → SessionId → list bytes → list AgentEvent → Conversation → W → option TurnSeal * W;
  h_decode : SnapshotBlob → result DaemonError Snapshot;
  h_encode : Snapshot → result DaemonError SnapshotBlob;
  h_user_msg : bytes → UserMsg;
  h_lifetime : bytes → ChildLifetime
}.

(** Bound profile, inline specification, overlay, cron stamp. *)
Definition ProfileKey : Type := option ProfileRef * bytes * bytes * option JobId.
Definition profile_inputs (m : SessionMeta) : ProfileKey :=
  (sm_bound_profile m, sm_inline_profile m, sm_overlay m, sm_scheduled_job m).

(** [CoreEngineFactory]; [fa_journal]: whether a store and a signer are wired. *)
Record CoreEngineFactory := mkCoreEngineFactory {
  fa_profile : EngineProfile;
  fa_journal : bool;
  fa_cron_profile : option EngineProfile;
  fa_interactive_profile : option EngineProfile
}.

Section incarnation.
Context {W : Type} `{World W} `{Json} `{Host W}.

Record CoreIncarnation := mkCoreIncarnation {
  ci_factory : CoreEngineFactory;
  ci_world : W;
  ci_engine : option Engine.Engine;
  ci_fold_only : bool;
  ci_completion_payload : option bytes;
  ci_ctx : option TurnCtx;
  ci_turn_seal : option TurnSeal;
  ci_hydrated_key : option ProfileKey;
  ci_turn_inputs : list bytes
}.

#[export] Instance eta_CoreIncarnation : Eta CoreIncarnation := λ i,
  mkCoreIncarnation (ci_factory i) (ci_world i) (ci_engine i) (ci_fold_only i) (ci_completion_payload i) (ci_ctx i)
    (ci_turn_seal i) (ci_hydrated_key i) (ci_turn_inputs i).

Definition core_create (fa : CoreEngineFactory) (w : W) : CoreIncarnation :=
  mkCoreIncarnation fa w None false None None None None [].

(** *** Hydration *)

Definition load_meta (fa : CoreEngineFactory) (id : SessionId) (w : W) : SessionMeta * W :=
  if fa_journal fa then let '(m, w) := h_session_meta id w in (default SessionMeta_default m, w)
  else (SessionMeta_default, w).

Definition is_interactive (ctx : TurnCtx) : bool :=
  match tx_policy ctx with Some InteractiveRoot => true | _ => false end.

(** The profile a session is built under. *)
Definition select_profile (fa : CoreEngineFactory) (ctx : TurnCtx) (id : SessionId) (meta : SessionMeta) (w : W)
    : EngineProfile :=
  match h_background_profile id w, sm_scheduled_job meta, h_resolver id meta w with
  | Some background, _, _ => background
  | None, _, Some resolved => resolved
  | None, Some _, None => default (fa_profile fa) (fa_cron_profile fa)
  | None, None, None => if is_interactive ctx then default (fa_profile fa) (fa_interactive_profile fa) else fa_profile fa
  end.

Definition decode_snapshot (blob : SnapshotBlob) : result EngineError Snapshot :=
  match blob with
  | [] => Err (EngineOther "core incarnation hydrated from an empty snapshot")
  | _ => match h_decode blob with Ok sn => Ok sn | Err e => Err (EngineCommon e) end
  end.

(** The fold of the claimed splices. *)
Record Folded := mkFolded {
  fo_engine : Engine.Engine; fo_observed : bool; fo_opened : bool; fo_inputs : list bytes }.

Definition fold_splice (cursor : N) (f : Folded) (sp : InboxSplice) : Folded :=
  if is_splice_seq sp <=? cursor then f
  else
    let m := h_user_msg (is_payload sp) in
    let e := on_conversation (push_user m) (fo_engine f) in
    let note := note_consumed_splice (is_splice_seq sp) in
    match is_kind sp with
    | Observe => mkFolded (note e) true (fo_opened f) (fo_inputs f)
    | StartTurn => mkFolded (note (e <| en_next_origin := Some (is_origin sp) |>)) (fo_observed f) true (fo_inputs f ++ [um_text m])
    | Steer => mkFolded (note e) (fo_observed f) true (fo_inputs f ++ [um_text m])
    end.

Definition fold_splices (e : Engine.Engine) (opened : bool) (splices : list InboxSplice) : Folded :=
  foldl (fold_splice (sn_consumed_splice_seq (en_snapshot e))) (mkFolded e false opened []) splices.

(** The engine of this activation: the resident one while the inputs of its profile are
    unchanged, otherwise one built from the snapshot. *)
Definition build_engine (i : CoreIncarnation) (ctx : TurnCtx) (blob : SnapshotBlob)
    : result EngineError (Engine.Engine * ProfileKey * SessionMeta * W) :=
  let fa := ci_factory i in
  let fresh sn meta w := (profile_from_snapshot (select_profile fa ctx (sn_session_id sn) meta w) sn, profile_inputs meta, meta, w) in
  match ci_engine i with
  | Some e =>
      let '(meta, w) := load_meta fa (sn_session_id (en_snapshot e)) (ci_world i) in
      if bool_decide (ci_hydrated_key i = Some (profile_inputs meta)) then Ok (e, profile_inputs meta, meta, w)
      else
        match decode_snapshot blob with
        | Err err => Err err
        | Ok sn =>
            Ok (profile_from_snapshot (select_profile fa ctx (sn_session_id (en_snapshot e)) meta w) sn, profile_inputs meta, meta, w)
        end
  | None =>
      match decode_snapshot blob with
      | Err err => Err err
      | Ok sn => let '(meta, w) := load_meta fa (sn_session_id sn) (ci_world i) in Ok (fresh sn meta w)
      end
  end.

Definition core_hydrate (blob : SnapshotBlob) (unapplied : list JobCompletion) (splices : list InboxSplice) (ctx : TurnCtx)
    (i : CoreIncarnation) : result EngineError unit * CoreIncarnation :=
  match build_engine i ctx blob with
  | Err err => (Err err, i <| ci_ctx := Some ctx |> <| ci_engine := None |>)
  | Ok (e, key, meta, w) =>
      let id := sn_session_id (en_snapshot e) in
      let w := foldl (λ w c, h_materialize id (jp_payload c) w) w unapplied in
      let e := apply_completions ((λ c, mkCompletion (jp_job_id c) (jp_payload c)) <$> unapplied) e in
      let f := fold_splices e (negb (nil_b unapplied)) splices in
      let scheduled := sm_scheduled_job meta in
      let fold_only := fo_observed f && negb (fo_opened f) && bool_decide (scheduled = None) &&
        nil_b (sn_waiting_for (en_snapshot (fo_engine f))) in
      let e := match scheduled with
               | Some job => (fo_engine f) <| en_next_trigger := Some (TrScheduled job) |>
               | None => fo_engine f
               end in
      (Ok tt, mkCoreIncarnation (ci_factory i) w (Some e) fold_only (ci_completion_payload i) (Some ctx) (ci_turn_seal i)
                (Some key) (fo_inputs f))
  end.

(** *** The turn *)

Definition parked_row (id : SessionId) (at_epoch : Epoch) (p : PendingApproval) : ParkedApproval :=
  mkParkedApproval id (Engine.pa_job_id p) at_epoch (String.string_of_list_byte (Engine.pa_prompt p)) (Engine.pa_path p)
    (Engine.pa_fingerprint p) None.

Definition event_of (o : Obs) : option AgentEvent := match o with OEvent e => Some e | _ => None end.

(** The commit a turn's outcome asks for; a terminal one ends the session first. *)
Definition verdict (interactive : bool) (outcome : TurnOutcome) (i : CoreIncarnation) (e : Engine.Engine) : Step * CoreIncarnation :=
  let id := sn_session_id (en_snapshot e) in
  match outcome with
  | TCompleted _ =>
      if interactive then (StepTurnCommitted, i)
      else
        let st := (end_session (mkSt e (ci_world i) [])).2 in
        let '(payload, w) := h_capture_outbox id (st_world st) in
        (StepCompleted, i <| ci_engine := Some (st_engine st) |> <| ci_world := w |> <| ci_completion_payload := payload |>)
  | TSuspended su =>
      if bool_decide (su_payload su = APPROVAL_SUSPEND_PAYLOAD)
      then (StepParkApproval (parked_row id (su_epoch su) <$> sn_pending_approvals (en_snapshot e)), i)
      else (StepSuspended (mkJobCommand (su_job_id su) id (su_epoch su) (su_payload su) (h_lifetime (su_payload su)) None), i)
  end.

Definition core_run (i : CoreIncarnation) : result EngineError Step * CoreIncarnation :=
  match ci_engine i, ci_ctx i with
  | Some e, Some ctx =>
      if ci_fold_only i then (Ok StepTurnCommitted, i)
      else
        let '(r, st) := Engine.run_turn (mkSt e (ci_world i) []) in
        let e' := st_engine st in
        let i := i <| ci_engine := Some e' |> <| ci_world := st_world st |> in
        match r with
        | Err _ => (Err (EngineOther "turn"), i)
        | Ok outcome =>
            let i :=
              if fa_journal (ci_factory i) then
                let '(seal, w) := h_journal ctx (sn_session_id (en_snapshot e')) (ci_turn_inputs i) (omap event_of (st_log st))
                                    (sn_conversation (en_snapshot e')) (ci_world i) in
                i <| ci_world := w |> <| ci_turn_inputs := [] |>
                  <| ci_turn_seal := if is_interactive ctx then seal else ci_turn_seal i |>
              else i in
            let '(step, i) := verdict (is_interactive ctx) outcome i e' in (Ok step, i)
        end
  | _, _ => (Err (EngineOther "run before hydrate"), i)
  end.

(** *** The rest of the seam *)

Definition core_checkpoint (i : CoreIncarnation) : result EngineError SnapshotBlob :=
  match ci_engine i with
  | None => Err (EngineOther "checkpoint before hydrate")
  | Some e => match h_encode (en_snapshot e) with Ok b => Ok b | Err err => Err (EngineCommon err) end
  end.

Definition core_epoch (i : CoreIncarnation) : Epoch := default Epoch_ZERO ((λ e, sn_epoch (en_snapshot e)) <$> ci_engine i).

Definition core_consumed_splices (i : CoreIncarnation) : option N :=
  match ci_engine i with
  | Some e => let seq := sn_consumed_splice_seq (en_snapshot e) in if 0 <? seq then Some seq else None
  | None => None
  end.

Definition core_take_turn_seal (i : CoreIncarnation) : option TurnSeal * CoreIncarnation :=
  (ci_turn_seal i, i <| ci_turn_seal := None |>).

#[export] Instance core_engine (fa : CoreEngineFactory) (w : W) : Activation.Engine := {|
  Incarnation := CoreIncarnation;
  create := core_create fa w;
  hydrate := core_hydrate;
  run := core_run;
  checkpoint := core_checkpoint;
  epoch := core_epoch;
  consumed_splices := core_consumed_splices;
  completion_payload := ci_completion_payload;
  take_turn_seal := core_take_turn_seal
|}.
End incarnation.
