(* ===== verification/Folding.v ===== *)
(** * What an activation folds into the engine

    A turn leaves the inbox cursor of its snapshot alone; hydrating folds exactly the
    claimed splices above the cursor, in order, and moves the cursor over them. *)

From S2P Require Import Prelude Text Common Approval StoreTypes Store StoreInv Journal Registry StoreSteps Activation CoreConversation Guardrail ModelCall Engine CoreIncarnation.
#[local] Open Scope daemon_scope.
#[local] Open Scope N_scope.

(** ** A turn leaves the inbox cursor to the host *)

Section steady.
Context {W : Type} `{World W} `{Json}.

(** What no turn changes: whose engine it is, and how far its inbox is captured. *)
Definition stamp (e : Engine.Engine) : SessionId * N := (sn_session_id (en_snapshot e), sn_consumed_splice_seq (en_snapshot e)).

Definition Steady {A} (m : @E W A) : Prop := ∀ s, stamp (st_engine (m s).2) = stamp (st_engine s).

Lemma Steady_bind {A B} (m : @E W A) (f : A → @E W B) : Steady m → (∀ a, Steady (f a)) → Steady (m ≫= f).
Proof.
  intros Hm Hf s. unfold mbind, M_bind. specialize (Hm s). destruct (m s) as [[a|u] s1]; [|done].
  rewrite Hf. exact Hm.
Qed.
Lemma Steady_modify f : (∀ e, stamp (f e) = stamp e) → Steady (modify_engine f).
Proof. intros Hf s. apply Hf. Qed.
Lemma Steady_for_each {A} (l : list A) f : (∀ x, Steady (f x)) → Steady (for_each l f).
Proof. intros Hf. induction l as [|x l IH]; [done|]. by apply Steady_bind. Qed.
Lemma Steady_mapM {A B} (f : A → @E W B) l : (∀ x, Steady (f x)) → Steady (mapM f l).
Proof.
  intros Hf. induction l as [|x l IH]; cbn; [done|].
  apply Steady_bind; [done|]. intros y. apply Steady_bind; [done|]. done.
Qed.
End steady.

(** Symbolic execution of a body; a definition it meets is unfolded. *)
Ltac steady_step :=
  lazymatch goal with
  | |- Steady (mbind _ _) => apply Steady_bind; [|intros ?]
  | |- Steady (mret _) => intros ?; reflexivity
  | |- Steady (throw _) => intros ?; reflexivity
  | |- Steady (gets _) => intros ?; reflexivity
  | |- Steady engine => intros ?; reflexivity
  | |- Steady world => intros ?; reflexivity
  | |- Steady (poll _) => intros ?; reflexivity
  | |- Steady (tell _) => intros ?; reflexivity
  | |- Steady (note _) => intros ?; reflexivity
  | |- Steady (emit _) => intros ?; reflexivity
  | |- Steady (modify_engine _) => apply Steady_modify; intros ?; try reflexivity
  | |- Steady (for_each _ _) => apply Steady_for_each; intros ?
  | |- Steady (mapM _ _) => apply Steady_mapM; intros ?
  | |- Steady (if ?b then _ else _) => destruct b
  | |- Steady (match ?x with _ => _ end) => destruct x
  | |- Steady (let _ := _ in _) => intros ?
  | |- Steady ?t => let h := head_of t in progress unfold h
  end
with head_of t := lazymatch t with ?f _ => head_of f | _ => t end.
Ltac steady := repeat (first [solve [auto with steady] | steady_step]; cbv beta zeta).
Create HintDb steady.

Section steady_turn.
Context {W : Type} `{World W} `{Json}.

Lemma observe_from_steady l c content : Steady (W := W) (observe_from l c content).
Proof. revert content. induction l as [|i l IH]; intros content; cbn [observe_from]; steady. Qed.

Lemma call_model_loop_steady fuel tools attempt compacted : Steady (W := W) (call_model_loop fuel tools attempt compacted).
Proof.
  revert attempt compacted. induction fuel as [|fuel IH]; intros attempt compacted; cbn [call_model_loop]; steady.
Qed.

Lemma drain_batch_steady l b : Steady (W := W) (drain_batch l b).
Proof.
  revert b. induction l as [|[k ran] l IH]; intros b; cbn [drain_batch]; [steady|].
  destruct (ck_blocked k); steady. apply observe_from_steady.
Qed.

Lemma run_serial_steady cx l b : Steady (W := W) (run_serial cx l b).
Proof.
  revert b. induction l as [|k l IH]; intros b; cbn [run_serial]; steady. apply observe_from_steady.
Qed.

Lemma resolve_each_steady cx l : Steady (W := W) (resolve_each cx l).
Proof. induction l as [|co l IH]; cbn [resolve_each]; steady. Qed.
#[local] Hint Resolve observe_from_steady call_model_loop_steady drain_batch_steady run_serial_steady resolve_each_steady : steady.

Lemma react_loop_steady rounds policy r : Steady (W := W) (react_loop rounds policy r).
Proof. revert r. induction rounds as [|n IH]; intros r; cbn [react_loop]; steady. Qed.
#[local] Hint Resolve react_loop_steady : steady.

Lemma run_turn_steady : Steady (W := W) Engine.run_turn.
Proof. steady. Qed.

Lemma end_session_steady : Steady (W := W) end_session.
Proof. steady. Qed.
End steady_turn.

(** ** What an activation folds *)

(** Decoding inverts encoding, up to the version stamp of the writer. *)
Class LosslessCodec (W : Type) `{Host W} : Prop :=
  decode_encode sn b : h_encode sn = Ok b → ∃ v, h_decode b = Ok (sn <| sn_writer_version := v |>).

Section folding.
Context {W : Type} `{World W} `{Json} `{Host W}.
Implicit Types e : Engine.Engine.

Definition cursor (e : Engine.Engine) : N := sn_consumed_splice_seq (en_snapshot e).
Definition turns_of (e : Engine.Engine) : list Turn := cv_turns (sn_conversation (en_snapshot e)).

(** The user turn a splice becomes. *)
Definition message_of (sp : InboxSplice) : Turn := TUser (h_user_msg (is_payload sp)).

Lemma fold_splice_spec c f sp :
  turns_of (fo_engine (fold_splice c f sp)) =
    turns_of (fo_engine f) ++ (if is_splice_seq sp <=? c then [] else [message_of sp]) ∧
  cursor (fo_engine (fold_splice c f sp)) =
    (if is_splice_seq sp <=? c then cursor (fo_engine f) else N.max (cursor (fo_engine f)) (is_splice_seq sp)).
Proof. unfold fold_splice. destruct (is_splice_seq sp <=? c); [by rewrite app_nil_r|]. by destruct (is_kind sp). Qed.

Lemma fold_from c f l : c <= cursor (fo_engine f) →
  let f' := foldl (fold_splice c) f l in
  turns_of (fo_engine f') = turns_of (fo_engine f) ++ (message_of <$> filter (λ sp, c < is_splice_seq sp) l) ∧
  cursor (fo_engine f) <= cursor (fo_engine f') ∧ Forall (λ sp, is_splice_seq sp <= cursor (fo_engine f')) l ∧
  (cursor (fo_engine f') = cursor (fo_engine f) ∨ Exists (λ sp, is_splice_seq sp = cursor (fo_engine f')) l).
Proof.
  revert f. induction l as [|sp l IH]; intros f Hc; cbn [foldl]; [rewrite filter_nil, app_nil_r; split_and!; auto; lia|].
  destruct (fold_splice_spec c f sp) as [Ht Hk]. rewrite filter_cons.
  destruct (IH (fold_splice c f sp)) as (Ht' & Hle & Hall & Hex); [rewrite Hk; case_match; lia|].
  rewrite Ht', Ht, Hk in *. destruct (N.leb_spec (is_splice_seq sp) c) as [Hsp|Hsp].
  - rewrite decide_False by lia. rewrite app_nil_r. split_and!; [done|lia|constructor; [lia|done]|].
    destruct Hex; [by left|right; by constructor].
  - rewrite decide_True by lia. rewrite <- app_assoc. split_and!; [done|lia|constructor; [lia|done]|].
    destruct Hex as [Hex|Hex]; [|right; by constructor]. destruct (N.max_spec (cursor (fo_engine f)) (is_splice_seq sp)) as [[? Hm]|[? Hm]].
    + right. constructor. lia.
    + left. lia.
Qed.

Lemma apply_completions_snapshot cs e : en_snapshot (apply_completions cs e) = en_snapshot e.
Proof.
  unfold apply_completions. revert e. induction cs as [|c cs IH]; intros e; [done|]. cbn [foldl]. rewrite IH. by case_match.
Qed.

(** An incarnation a manager may hand the stored blob: a fresh one, or the resident of
    the commit that wrote it. *)
Definition usable (i : @CoreIncarnation W) (b : SnapshotBlob) : Prop :=
  ∀ e, ci_engine i = Some e → h_encode (en_snapshot e) = Ok b.

Context `{!LosslessCodec W}.

Lemma build_engine_snapshot i ctx b e key meta w :
  usable i b → build_engine i ctx b = Ok (e, key, meta, w) →
  ∃ sn, h_decode b = Ok sn ∧ cursor e = sn_consumed_splice_seq sn ∧ turns_of e = cv_turns (sn_conversation sn).
Proof.
  intros Hu. unfold build_engine. assert (∀ sn, decode_snapshot b = Ok sn → h_decode b = Ok sn) as Hd.
  { intros sn. unfold decode_snapshot. destruct b; [done|]. by destruct (h_decode _); intros ?; simplify_eq. }
  destruct (ci_engine i) as [e0|] eqn:He.
  - destruct (load_meta _ _ _) as [meta0 w0]. case_bool_decide.
    + intros [= <- _ _ _]. destruct (decode_encode _ _ (Hu e0 He)) as [v Hv]. by eexists.
    + destruct (decode_snapshot b) as [sn|] eqn:Hs; [|done]. intros [= <- _ _ _]. exists sn. by rewrite (Hd sn).
  - destruct (decode_snapshot b) as [sn|] eqn:Hs; [|done]. destruct (load_meta _ _ _) as [meta0 w0].
    intros [= <- _ _ _]. exists sn. by rewrite (Hd sn).
Qed.

Lemma core_hydrate_spec b u l ctx i i' :
  usable i b → core_hydrate b u l ctx i = (Ok tt, i') →
  ∃ sn e, h_decode b = Ok sn ∧ ci_engine i' = Some e ∧
    turns_of e = cv_turns (sn_conversation sn) ++ (message_of <$> filter (λ sp, sn_consumed_splice_seq sn < is_splice_seq sp) l) ∧
    sn_consumed_splice_seq sn <= cursor e ∧ Forall (λ sp, is_splice_seq sp <= cursor e) l ∧
    (cursor e = sn_consumed_splice_seq sn ∨ Exists (λ sp, is_splice_seq sp = cursor e) l).
Proof.
  intros Hu. unfold core_hydrate. destruct (build_engine i ctx b) as [[[[e key] meta] w]|] eqn:Hb; [|done].
  destruct (build_engine_snapshot _ _ _ _ _ _ _ Hu Hb) as (sn & Hsn & Hc & Ht). intros [= <-].
  set (e0 := apply_completions _ e). assert (en_snapshot e0 = en_snapshot e) as He0 by apply apply_completions_snapshot.
  assert (cursor e0 = sn_consumed_splice_seq sn) as Hc0 by (unfold cursor in *; by rewrite He0).
  assert (turns_of e0 = cv_turns (sn_conversation sn)) as Ht0 by (unfold turns_of in *; by rewrite He0).
  unfold fold_splices. fold (cursor e0). rewrite Hc0.
  destruct (fold_from (sn_consumed_splice_seq sn) (mkFolded e0 false (negb (nil_b u)) []) l) as (Hft & Hfc & Hall & Hex);
    [cbn; by rewrite Hc0|]. cbn [fo_engine] in Hft, Hfc, Hex. rewrite Ht0 in Hft. rewrite Hc0 in Hfc, Hex.
  eexists sn, _. split_and!; [done|reflexivity|..]; destruct (sm_scheduled_job meta); done.
Qed.

Lemma core_run_stamp i st i' : core_run i = (Ok st, i') →
  ∃ e e', ci_engine i = Some e ∧ ci_engine i' = Some e' ∧ stamp e' = stamp e.
Proof.
  unfold core_run. destruct (ci_engine i) as [e|] eqn:He; [|done]. destruct (ci_ctx i) as [ctx|]; [|done].
  destruct (ci_fold_only i); [intros [= _ <-]; by eauto|].
  pose proof (run_turn_steady (mkSt e (ci_world i) [])) as Hs. destruct (Engine.run_turn _) as [[o|] s1]; [|done].
  cbn [snd st_engine] in Hs. set (i1 := if fa_journal _ then _ else _).
  assert (ci_engine i1 = Some (st_engine s1)) as Hi1 by (unfold i1; case_match; [by case_match|done]). clearbody i1.
  unfold verdict. destruct o as [sm|su].
  - destruct (is_interactive ctx); [intros [= _ <-]; by eauto|].
    pose proof (end_session_steady (mkSt (st_engine s1) (ci_world i1) [])) as Hend.
    destruct (end_session _) as [r2 s2]. cbn [snd st_engine] in Hend. destruct (h_capture_outbox _ _).
    intros [= _ <-]. exists e, (st_engine s2). split_and!; [done..|by rewrite Hend].
  - case_bool_decide; intros [= _ <-]; by eauto.
Qed.
End folding.
