(* ===== verification/Capture.v ===== *)
(** * How store operations move the captured prefix of an inbox

    The consumed rows of an inbox are a prefix of its sequence numbers, up to a watermark.
    Every operation keeps the watermarks and the snapshots of all sessions, but a
    creation, which adds a snapshot, and a commit, which replaces one snapshot and moves
    the watermark of that session to the number the commit names. *)

From S2P Require Import Prelude Text Common Approval StoreTypes Store StoreInv Journal Registry StoreSteps StoreHistory StoreCommit StoreInbox.
#[local] Open Scope daemon_scope.
#[local] Open Scope N_scope.

(** The consumed rows are those up to the watermark [w], the claims those of tokens up
    to [g]. *)
Record tracks (g : SessionId → FenceToken) (w : SessionId → N) (splices : gmap SessionId (list InboxSplice)) (seqs : gmap SessionId N) : Prop := {
  tr_rows id row : row ∈ entry_vec splices id → unconsumed row = false ↔ is_splice_seq row <= w id;
  tr_counter id : w id <= default 0 (seqs !! id);
  tr_claims id : claims_upto (g id) (entry_vec splices id)
}.

Definition snapshots (s : Inner) : gmap SessionId SnapshotBlob := sr_snapshot <$> in_sessions s.

Definition captured (g : SessionId → FenceToken) (w : SessionId → N) (m : gmap SessionId SnapshotBlob) (s : Inner) : Prop :=
  tracks g w (in_splices s) (in_splice_seq s) ∧ sr_snapshot <$> in_sessions s = m.

Definition moved (w : SessionId → N) (id : SessionId) (c : N) : SessionId → N := λ j, if decide (j = id) then c else w j.

(** No inbox counter is about to wrap. *)
Definition roomy (s : Inner) : Prop := ∀ id, default 0 (in_splice_seq s !! id) + 1 < u64_bound.

(** ** Elementary writes *)

Lemma entry_vec_insert' {A} (m : gmap SessionId (list A)) id l j :
  entry_vec (<[id := l]> m) j = if decide (j = id) then l else entry_vec m j.
Proof. unfold entry_vec. case_decide; simplify_map_eq; done. Qed.

Lemma captured_put g w m s id r r' :
  in_sessions s !! id = Some r → sr_snapshot r' = sr_snapshot r → captured g w m s → captured g w m (put_session id r' s).
Proof.
  intros Hr Hs [Ht Hm]. split; [done|]. cbn. rewrite fmap_insert, Hs, <- Hm. apply insert_id. by rewrite lookup_fmap, Hr.
Qed.

Lemma captured_write g w m s id r b : sr_snapshot r = b → captured g w m s → captured g w (<[id := b]> m) (put_session id r s).
Proof. intros <- [Ht Hm]. split; [done|]. cbn. by rewrite fmap_insert, Hm. Qed.

Lemma tracks_map g w splices seqs id rows f :
  (∀ row, row ∈ rows → is_splice_seq (f row) = is_splice_seq row ∧ unconsumed (f row) = unconsumed row ∧
     ((∀ h, is_claim row = Claimed h → h <= g id) → ∀ h, is_claim (f row) = Claimed h → h <= g id)) →
  splices !! id = Some rows → tracks g w splices seqs → tracks g w (<[id := f <$> rows]> splices) seqs.
Proof.
  intros Hf Hi [Hr Hc Hg]. assert (rows = entry_vec splices id) as -> by (unfold entry_vec; by rewrite Hi). split; [|done|].
  - intros j row. rewrite entry_vec_insert'. case_decide; [|by apply Hr]. subst j.
    intros (row0 & -> & Hin)%list_elem_of_fmap. destruct (Hf _ Hin) as (-> & -> & _). by apply Hr.
  - intros j. rewrite entry_vec_insert'. case_decide; [|by apply Hg]. subst j. specialize (Hg id).
    unfold claims_upto in *. rewrite Forall_fmap. rewrite !Forall_forall in *. intros row Hin. destruct (Hf row Hin) as (_ & _ & Hk). exact (Hk (Hg row Hin)).
Qed.

Lemma captured_claim g w m s id f : f <= g id → captured g w m s → captured g w m (claim_splices_locked id f s).2.
Proof.
  intros Hf [Ht Hm]. unfold claim_splices_locked. destruct (in_splices s !! id) as [rows|] eqn:Hi; [|done].
  split; [|done]. cbn. apply tracks_map; [|done..]. intros row _. unfold claim_row, unconsumed.
  destruct (is_claim row) eqn:Hk; repeat case_match; cbn; rewrite ?Hk; split_and!; try done.
  all: by intros _ h [= <-].
Qed.

Lemma captured_prune g w m s cutoff : captured g w m s → captured g w m (prune_consumed_splices cutoff s).2.
Proof.
  intros [[Hr Hc Hg] Hm]. split; [|done].
  assert (∀ id row, row ∈ entry_vec (in_splices (prune_consumed_splices cutoff s).2) id → row ∈ entry_vec (in_splices s) id) as Hsub.
  { intros id row. cbn. unfold entry_vec. rewrite lookup_fmap. destruct (in_splices s !! id); [|done]. cbn.
    intros [Hin _]%list_elem_of_In%List.filter_In. by apply list_elem_of_In. }
  split; [intros id row Hin; apply Hr, Hsub, Hin|done|].
  intros id. specialize (Hg id). unfold claims_upto in *. rewrite Forall_forall in *. intros row Hin. by apply Hg, Hsub.
Qed.

Lemma captured_push g w m s id row :
  roomy s → (∀ seq, is_splice_seq (row seq) = seq ∧ is_claim (row seq) = Pending) →
  captured g w m s → captured g w m (push_splice id row s).
Proof.
  intros Hroom Hrow [[Hr Hc Hg] Hm]. split; [|done]. unfold push_splice, next_splice_seq. cbn.
  assert (default 0 (in_splice_seq s !! id) +₆₄ 1 = default 0 (in_splice_seq s !! id) + 1) as -> by (apply N.mod_small, Hroom).
  split.
  - intros j r. unfold entry_push. rewrite entry_vec_insert'. case_decide; [subst j|by apply Hr].
    rewrite elem_of_app, list_elem_of_singleton. intros [Hin| ->]; [by apply Hr|].
    destruct (Hrow (default 0 (in_splice_seq s !! id) + 1)) as [-> Hp]. unfold unconsumed. rewrite Hp. cbn.
    specialize (Hc id). split; [done|lia].
  - intros j. destruct (decide (j = id)) as [->|]; simplify_map_eq; [|done]. cbn. specialize (Hc id). lia.
  - intros j. unfold entry_push. rewrite entry_vec_insert'. case_decide; [subst j|by apply Hg].
    apply Forall_app. split; [by apply Hg|]. repeat constructor. intros h. destruct (Hrow (default 0 (in_splice_seq s !! id) + 1)) as [_ ->]. done.
Qed.

Lemma captured_apply g w m s c : captured g w m s → captured g w m (apply_completion_locked c s).2.
Proof.
  intros Hs. unfold apply_completion_locked. case_decide; [done|]. cbv zeta.
  set (s1 := update _ _). assert (captured g w m s1) as H1 by exact Hs.
  destruct (in_sessions s1 !! jp_session_id c) eqn:E; [|done]. by eapply captured_put.
Qed.

Lemma captured_consume g w m s id c turn :
  w id <= c → c <= default 0 (in_splice_seq s !! id) →
  captured g w m s → captured g (moved w id c) m (consume_splices_locked id c turn s).
Proof.
  intros Hle Hc [[Hr Hk Hg] Hm]. unfold consume_splices_locked.
  assert (∀ j, moved w id c j <= default 0 (in_splice_seq s !! j)) as Hk' by (intros j; unfold moved; case_decide; subst; auto).
  destruct (in_splices s !! id) as [rows|] eqn:Hi.
  - split; [|done]. cbn. split; [|done|].
    2: { intros j. rewrite entry_vec_insert'. case_decide; [subst j|by apply Hg]. specialize (Hg id). unfold claims_upto, entry_vec in *.
         rewrite Hi in Hg. rewrite Forall_fmap. eapply Forall_impl; [exact Hg|]. intros row Hrow h. unfold consume_row.
         destruct (_ && _); [done|]. apply Hrow. }
    intros j row. rewrite entry_vec_insert'. unfold moved. case_decide; [subst j|by apply Hr].
    intros (row0 & -> & Hin)%list_elem_of_fmap.
    assert (unconsumed row0 = false ↔ is_splice_seq row0 <= w id) as H0 by (apply Hr; unfold entry_vec; by rewrite Hi).
    unfold consume_row. destruct (N.leb_spec (is_splice_seq row0) c); cbn.
    + destruct (is_consumed (is_claim row0)) eqn:Hcl; cbn; unfold unconsumed; [rewrite Hcl|]; done.
    + rewrite H0. lia.
  - split; [|done]. split; [|done..]. intros j row Hin. unfold moved. case_decide; [|by apply Hr]. subst j.
    unfold entry_vec in Hin. rewrite Hi in Hin. by apply not_elem_of_nil in Hin.
Qed.

Lemma captured_fire g w m s cp : captured g w m s → captured g w m (fire_notice cp s).
Proof. intros Hs. unfold fire_notice. by repeat case_match. Qed.
Lemma captured_drop g w m s id keys : captured g w m s → captured g w m (drop_applied id keys s).
Proof. intros Hs. unfold drop_applied. by repeat case_match. Qed.
Lemma captured_seal g w m s id seal : captured g w m s → captured g w m (seal_turn id seal s).
Proof. by destruct seal. Qed.
Lemma captured_job g w m s job : captured g w m s → captured g w m (enqueue_job job s).
Proof. intros Hs. unfold enqueue_job. by case_decide. Qed.
Lemma captured_edge g w m s id e : captured g w m s → captured g w m (bind_edge id e s).
Proof. by destruct e as [[]|]. Qed.

(** ** Operations *)

(** Decompose the state an operation reached, last write first. *)
Ltac capture_one :=
  lazymatch goal with
  | |- captured _ _ _ (put_session _ _ _) => eapply captured_put; [autorewrite with tables; by simplify_map_eq|done|]
  | |- captured _ _ _ (push_splice _ _ _) => apply captured_push; [try done|by intros|]
  | |- captured _ _ _ (claim_splices_locked _ _ _).2 => apply captured_claim; [by auto|]
  | |- captured _ _ _ (apply_completion_locked _ _).2 => apply captured_apply
  | |- captured _ _ _ (fire_notice _ _) => apply captured_fire
  | |- captured _ _ _ (drop_applied _ _ _) => apply captured_drop
  | |- captured _ _ _ (seal_turn _ _ _) => apply captured_seal
  | |- captured _ _ _ (enqueue_job _ _) => apply captured_job
  | |- captured _ _ _ (bind_edge _ _ _) => apply captured_edge
  | |- captured ?g ?w ?m (enqueue_wake _ ?x) => change (captured g w m x)
  | |- captured ?g ?w ?m (stamp_terminal _ _ ?x) => change (captured g w m x)
  | |- captured ?g ?w ?m (update _ ?x) => change (captured g w m x)
  end.
Ltac capture := repeat capture_one; try done.

(** The session an operation creates, with its snapshot. *)
Definition created (op : StoreOp) : option (SessionId * SnapshotBlob) :=
  match op with
  | OpCreateSession id _ b | OpCreateIdle id _ b => Some (id, b)
  | OpCreateRunnable spec _ => Some (rs_id spec, rs_snapshot spec)
  | _ => None
  end.

(** The operations that write snapshots of existing sessions. *)
Definition commits (op : StoreOp) : bool :=
  match op with
  | OpCheckpoint _ _ _ | OpMarkCompleted _ _ _ | OpCommitTurn _ _ _ | OpParkApproval _ _ _ | OpSwapSnapshot _ _ _ => true
  | _ => false
  end.

(** The token an operation claims an inbox under. *)
Definition claims (op : StoreOp) : option (SessionId * FenceToken) :=
  match op with OpClaimSplices id f | OpLoad id f => Some (id, f) | _ => None end.

Section ops.
Context (g : SessionId → FenceToken) (w : SessionId → N) (m : gmap SessionId SnapshotBlob).

Lemma insert_fresh_captured id part b st s : captured g w m s →
  wp (insert_fresh id part b st) (λ _ s', captured g w m s' ∨ m !! id = None ∧ captured g w (<[id := b]> m) s') s.
Proof.
  intros Hs. store_steps; [by left|]. right. split.
  - destruct Hs as [_ <-]. by rewrite lookup_fmap, fmap_None.
  - by apply captured_write.
Qed.

Lemma creation_captured op s id b : created op = Some (id, b) → roomy s → captured g w m s →
  captured g w m (run_op op s) ∨ m !! id = None ∧ captured g w (<[id := b]> m) (run_op op s).
Proof.
  intros Hop Hroom Hs. destruct op; cbn in Hop; simplify_eq; cbn [run_op].
  - by apply (insert_fresh_captured id partition b Ready s).
  - cut (wp (create_idle id partition b) (λ _ s', captured g w m s' ∨ m !! id = None ∧ captured g w (<[id := b]> m) s') s); [done|].
    unfold create_idle. apply wp_bind. eapply wp_mono; [|by apply insert_fresh_captured]. intros [[]|] s' H'; done.
  - cut (wp (create_runnable spec now) (λ _ s', captured g w m s' ∨ m !! rs_id spec = None ∧ captured g w (<[rs_id spec := rs_snapshot spec]> m) s') s);
      [done|].
    unfold create_runnable. store_steps; try by left.
    all: right; split; [destruct Hs as [_ <-]; by rewrite lookup_fmap, fmap_None|].
    all: capture.
    all: try by apply captured_write.
    all: try (destruct (rs_edge spec) as [[]|]; exact Hroom).
Qed.

Lemma run_op_captured op s :
  created op = None → commits op = false → (∀ id f, claims op = Some (id, f) → f <= g id) → roomy s → captured g w m s →
  captured g w m (run_op op s).
Proof.
  intros Hcr Hco Hcl Hroom Hs. destruct op; try discriminate Hcr; try discriminate Hco; cbn [run_op]; try exact Hs.
  all: try (by apply captured_prune).
  all: try (match goal with |- captured ?g ?w ?m (?c ?x).2 => change (wp c (λ _, captured g w m) x) end).
  - unfold reopen_if_settled. store_steps; capture.
  - unfold mark_ready_if_idle. store_steps; capture.
  - unfold append_splice. store_steps; capture.
  - unfold claim_splices. store_steps; capture.
  - unfold acquire_activation_lease. store_steps; capture.
  - unfold load_for_activation. store_steps; capture.
  - unfold record_completion_and_wake. store_steps; capture.
  - unfold dequeue_completion_notice. by case_match.
  - unfold answer_approval. store_steps; capture.
  - unfold dequeue_job. by case_match.
  - unfold dequeue_wake. by case_match.
  - unfold append_trace, check_stream_fence. store_steps; capture.
  - unfold commit_trace_segment, check_stream_fence. store_steps; capture.
  - apply wp_modify. by case_match.
  - unfold command_dedup_get. by repeat case_match.
Qed.

(** A dormant edit replaces the snapshot it expects. *)
Lemma swap_captured id expected new s : captured g w m s →
  captured g w m (run_op (OpSwapSnapshot id expected new) s) ∨
  m !! id = Some expected ∧ captured g w (<[id := new]> m) (run_op (OpSwapSnapshot id expected new) s).
Proof.
  intros Hs. cbn [run_op].
  cut (wp (swap_snapshot_if_dormant id expected new) (λ _ s', captured g w m s' ∨ m !! id = Some expected ∧ captured g w (<[id := new]> m) s') s); [done|].
  unfold swap_snapshot_if_dormant. store_steps; try by left.
  right. split; [|by apply captured_write].
  destruct Hs as [_ <-]. rewrite lookup_fmap. simplify_map_eq. f_equal. apply dec_stable. intros Hne. by apply n; right.
Qed.

(** *** Commits *)

Lemma tracks_ext w' splices seqs : (∀ j, w j = w' j) → tracks g w splices seqs → tracks g w' splices seqs.
Proof. intros Hw [Hr Hc Hg]. split; [intros id row; rewrite <- Hw; apply Hr|intros id; by rewrite <- Hw|done]. Qed.

(** The watermark a checkpoint names: none for zero. *)
Definition names (cp : Checkpoint) (c : N) : Prop := cp_consumed_splices cp = if 0 <? c then Some c else None.

(** What a commit of [b] with watermark [c] leaves. *)
Definition settled_at (id : SessionId) (c : N) (b : SnapshotBlob) (s : Inner) : Prop :=
  captured g w m s ∨ captured g (moved w id c) (<[id := b]> m) s.

Lemma checkpoint_captured cp c turn s :
  names cp c → w (cp_session_id cp) <= c → c <= default 0 (in_splice_seq s !! cp_session_id cp) →
  captured g w (<[cp_session_id cp := cp_snapshot cp]> m) s →
  captured g (moved w (cp_session_id cp) c) (<[cp_session_id cp := cp_snapshot cp]> m) (consume_checkpoint_state cp turn s).
Proof.
  intros Hn Hle Hc Hs. unfold consume_checkpoint_state. rewrite consume_checkpoint_run, Hn. destruct (N.ltb_spec 0 c); cbn [snd].
  - by apply captured_consume.
  - destruct Hs as [Ht Hm]. split; [|done]. eapply tracks_ext, Ht. intros j. unfold moved. case_decide; [subst|done]. lia.
Qed.

Lemma wp_consume_checkpoint cp turn (Q : result StoreError unit → Inner → Prop) s :
  Q (Ok tt) (consume_checkpoint_state cp turn s) → wp (consume_checkpoint cp turn) Q s.
Proof. unfold wp, consume_checkpoint_state. rewrite consume_checkpoint_run. by destruct (cp_consumed_splices cp). Qed.

Lemma sessions_consume_checkpoint cp turn s : in_sessions (consume_checkpoint_state cp turn s) = in_sessions s.
Proof. unfold consume_checkpoint_state. rewrite consume_checkpoint_run. destruct (cp_consumed_splices cp); [apply sessions_consume|done]. Qed.
#[local] Hint Rewrite sessions_consume_checkpoint : tables.

(** The checkpoint a commit writes. *)
Definition checkpoint_of (op : StoreOp) : option Checkpoint :=
  match op with
  | OpCheckpoint cp _ _ | OpMarkCompleted cp _ _ | OpCommitTurn cp _ _ | OpParkApproval cp _ _ => Some cp
  | _ => None
  end.

Lemma commit_captured op cp c s :
  checkpoint_of op = Some cp → names cp c → w (cp_session_id cp) <= c → c <= default 0 (in_splice_seq s !! cp_session_id cp) →
  captured g w m s → settled_at (cp_session_id cp) c (cp_snapshot cp) (run_op op s).
Proof.
  intros Hop Hn Hle Hc Hs. unfold settled_at. destruct op; try discriminate Hop; cbn in Hop; simplify_eq; cbn [run_op].
  all: match goal with |- captured ?g ?w ?m (?o ?x).2 ∨ captured ?g ?w' ?m' _ =>
    change (wp o (λ _ s', captured g w m s' ∨ captured g w' m' s') x) end.
  1: unfold checkpoint_and_enqueue. 2: unfold mark_completed. 3: unfold commit_turn. 4: unfold park_approval.
  all: repeat (first [apply wp_consume_checkpoint | store_step]; cbv beta iota); try by left.
  all: right; capture; apply checkpoint_captured; [done|done| |].
  all: try (unfold enqueue_job; try case_decide; exact Hc).
  all: try apply captured_job; apply captured_write; [|done]; try done.
  all: by destruct (head approvals).
Qed.
End ops.
