(* ===== verification/Durable.v ===== *)
(** * The engine over the durable store

    The activation substrate, the core engine and the store together: clients use the
    store, operators edit dormant snapshots, turns begin and finish under their tokens,
    processes crash.  Every inbox row enters the transcript once: the cursor of the
    stored snapshot separates the rows that were folded from the ones that wait. *)

From S2P Require Import Prelude Text Common Approval StoreTypes Store StoreInv Journal Registry StoreSteps StoreHistory StoreLease StoreCommit StoreInbox Activation ActivationSlots ActivationTurns CoreConversation Guardrail ModelCall Engine EngineTurn CoreIncarnation Folding Capture.
#[local] Open Scope daemon_scope.
#[local] Open Scope N_scope.

(** ** Edits of a dormant snapshot *)

Inductive SnapshotEdit :=
| EditRewind (anchor : RewindAnchor)
| EditRevoke (fingerprint : string).

(** [fingerprint_revoke]: refused when the fingerprint is not remembered. *)
Definition revoke_fingerprint (fp : string) (sn : Snapshot) : option Snapshot :=
  let kept := List.filter (λ r, negb (bool_decide (ra_fingerprint r = fp))) (sn_session_allow_fingerprints sn) in
  if (length kept =? length (sn_session_allow_fingerprints sn))%nat then None
  else Some (sn <| sn_session_allow_fingerprints := kept |>).

Definition edit_snapshot (ed : SnapshotEdit) (sn : Snapshot) : option Snapshot :=
  match ed with
  | EditRewind anchor => match rewind_snapshot sn anchor with Ok (_, sn') => Some sn' | Err _ => None end
  | EditRevoke fp => revoke_fingerprint fp sn
  end.

Lemma edit_snapshot_cursor ed sn sn' : edit_snapshot ed sn = Some sn' → sn_consumed_splice_seq sn' = sn_consumed_splice_seq sn.
Proof.
  destruct ed as [anchor|fp]; cbn.
  - unfold rewind_snapshot. destruct (resolve_anchor _ _ _); [|done]. intros [= <-]. done.
  - unfold revoke_fingerprint. case_match; [done|]. intros [= <-]. done.
Qed.

(** ** One turn, opened *)

Section turn.
Context `{Activation.Engine}.

(** The incarnation a turn runs on: a resident that did not write the stored snapshot
    gives way to a fresh one. *)
Definition chosen (lc : option SnapshotBlob) (b : SnapshotBlob) (inc : Incarnation) : Incarnation :=
  match lc with Some committed => if decide (committed = b) then inc else create | None => inc end.

Lemma begin_turn_inv id f inc lc m i st keys m' :
  begin_turn id f inc lc m = (Ok (i, st, keys), m') →
  ∃ r ctx i1, in_sessions (mg_store m) !! id = Some r ∧
    hydrate (sr_snapshot r) (entry_vec (in_unapplied (mg_store m)) id) (claim_splices_locked id f (mg_store m)).1 ctx
      (chosen lc (sr_snapshot r) inc) = (Ok tt, i1) ∧
    run i1 = (Ok st, i).
Proof.
  unfold begin_turn, mbind, M_bind. rewrite store_op_run. destruct (in_sessions (mg_store m) !! id) as [r|] eqn:Hr.
  2: { unfold load_for_activation. by erewrite M_bind_err by (by apply find_session_None). }
  rewrite (load_run id f r _ Hr). cbn [fst snd ac_snapshot ac_unapplied ac_splices ac_policy ac_turn_seq]. cbv zeta.
  fold (chosen lc (sr_snapshot r) inc). destruct (hydrate _ _ _ _ _) as [[[]|e1] i1] eqn:Hh; [|done].
  unfold engine_result at 1, mret, M_ret. destruct (run i1) as [[st'|e2] i2] eqn:Hrun; [|done]. intros [= <- <- _ _].
  by eexists r, _, i1.
Qed.

Ltac open_commit H := unfold mbind, M_bind in H; rewrite store_op_run in H; cbn [run_op].
Ltac close_commit := cbn [fst snd] in *; unfold mret, M_ret in *; simplify_eq; split_and!; try done; intros; by simplify_eq.

(** A turn ends with at most one store operation, the commit of its checkpoint; the
    incarnation that goes on is the one that was encoded. *)
Lemma finish_turn_inv id f now inc st keys m res m' :
  finish_turn id f now inc st keys m = (res, m') →
  mg_store m' = mg_store m ∧ (∀ i c b, res ≠ Ok (i, Some (c, b))) ∨
  ∃ op cp, checkpoint_of op = Some cp ∧ cp_session_id cp = id ∧ checkpoint inc = Ok (cp_snapshot cp) ∧
    cp_consumed_splices cp = consumed_splices inc ∧ mg_store m' = run_op op (mg_store m) ∧
    (∀ i c b, res = Ok (i, Some (c, b)) → b = cp_snapshot cp ∧ i = (take_turn_seal inc).2).
Proof.
  unfold finish_turn. destruct (checkpoint inc) as [b|e]; [|intros [= <- <-]; left; by split; [|intros ? ? ?]].
  erewrite M_bind_ok by reflexivity. cbv zeta. set (base := with_consumed_splices _ _). intros Hf. right.
  destruct st as [| |job|approvals]; [..|].
  - exists (OpMarkCompleted (with_completion_payload base (completion_payload inc)) f now), (with_completion_payload base (completion_payload inc)).
    open_commit Hf.
    destruct (mark_completed _ _ _ _) as [[]]; close_commit.
  - destruct (take_turn_seal inc) as [seal inc'] eqn:Hseal.
    exists (OpCommitTurn (with_applied_completions base keys) seal f), (with_applied_completions base keys).
    open_commit Hf.
    destruct (commit_turn _ _ _ _) as [[]]; close_commit.
  - exists (OpCheckpoint base job f), base. open_commit Hf.
    destruct (checkpoint_and_enqueue _ _ _ _) as [[]]; close_commit.
  - exists (OpParkApproval base approvals f), base. open_commit Hf.
    destruct (park_approval _ _ _ _) as [[]]; close_commit.
Qed.
End turn.

Section system.
Context {W : Type} `{World W} `{Json} `{Host W}.
Abbreviation Core := (@CoreIncarnation W).

(** The blob an editor swaps in for the one it read. *)
Definition edited (ed : SnapshotEdit) (blob : SnapshotBlob) : option SnapshotBlob :=
  match h_decode (W := W) blob with
  | Err _ => None
  | Ok sn =>
      match edit_snapshot ed sn with
      | None => None
      | Some sn' => match h_encode (W := W) sn' with Ok b => Some b | Err _ => None end
      end
  end.

(** ** The system *)

(** A turn between its load and its commit. *)
Record Flight := mkFlight { fl_inc : Core; fl_step : Step; fl_keys : list (Epoch * JobId) }.

(** The store, the turns in flight by session and token, and the incarnations that linger
    after a commit with the snapshot they committed. *)
Record Sys := mkSys {
  sy_store : Inner;
  sy_flights : gmap (SessionId * FenceToken) Flight;
  sy_residents : list (SessionId * Core * SnapshotBlob)
}.

(** What runs beside the turns: no commits and no claims, and sessions start with
    snapshots that captured nothing. *)
Definition client_op (op : StoreOp) : Prop :=
  commits op = false ∧ claims op = None ∧
  ∀ id b sn, created op = Some (id, b) → h_decode (W := W) b = Ok sn → sn_consumed_splice_seq sn = 0.

(** The incarnation a turn starts with: a fresh one, or a resident in the world of now. *)
Definition incarnation_for (s : Sys) (id : SessionId) (inc : Core) (lc : option SnapshotBlob) : Prop :=
  (lc = None ∧ ∃ fa w, inc = core_create fa w) ∨
  ∃ i b w, (id, i, b) ∈ sy_residents s ∧ inc = i <| ci_world := w |> ∧ lc = Some b.

Definition fence_of (s : Inner) (id : SessionId) : FenceToken := default 0 (sr_fence <$> in_sessions s !! id).

Inductive sys_step : Sys → Sys → Prop :=
| sys_client s op : client_op op → sys_step s (mkSys (run_op op (sy_store s)) (sy_flights s) (sy_residents s))
| sys_edit s id ed expected new :
    edited ed expected = Some new →
    sys_step s (mkSys (run_op (OpSwapSnapshot id expected new) (sy_store s)) (sy_flights s) (sy_residents s))
| sys_begin s id f fa w inc lc m res m' :
    f <= fence_of (sy_store s) id → sy_flights s !! (id, f) = None → incarnation_for s id inc lc →
    mg_store m = sy_store s → begin_turn (H := core_engine fa w) id f inc lc m = (res, m') →
    sys_step s (mkSys (mg_store m')
      (match res with Ok (i, st, keys) => <[(id, f) := mkFlight i st keys]> (sy_flights s) | Err _ => sy_flights s end)
      (sy_residents s))
| sys_finish s id f fl fa w now m res m' :
    sy_flights s !! (id, f) = Some fl → mg_store m = sy_store s →
    finish_turn (H := core_engine fa w) id f now (fl_inc fl) (fl_step fl) (fl_keys fl) m = (res, m') →
    sys_step s (mkSys (mg_store m') (delete (id, f) (sy_flights s))
      (match res with Ok (i, Some (_, b)) => (id, i, b) :: sy_residents s | _ => sy_residents s end))
| sys_crash s fls rs : fls ⊆ sy_flights s → rs ⊆ sy_residents s → sys_step s (mkSys (sy_store s) fls rs).

Inductive sys_reach : nat → Sys → Prop :=
| sys_init : sys_reach 0 (mkSys InMemoryStore_new ∅ [])
| sys_next n s s' : sys_reach n s → sys_step s s' → sys_reach (S n) s'.

(** ** The invariant *)

(** The snapshots that decode name the watermarks; a session without one has none. *)
Record reads (w : SessionId → N) (m : gmap SessionId SnapshotBlob) : Prop := {
  rd_absent id : m !! id = None → w id = 0;
  rd_cursor id b sn : m !! id = Some b → h_decode (W := W) b = Ok sn → sn_consumed_splice_seq sn = w id
}.

Lemma reads_insert w w' m id b :
  reads w m → (∀ j, j ≠ id → w' j = w j) → (∀ sn, h_decode (W := W) b = Ok sn → sn_consumed_splice_seq sn = w' id) →
  reads w' (<[id := b]> m).
Proof.
  intros [Ha Hc] Hw Hb. split; intros j; destruct (decide (j = id)) as [->|Hne]; simplify_map_eq; rewrite ?Hw by done; try by eauto.
  all: intros; simplify_eq; eauto.
Qed.

(** [g] bounds the claims on each inbox, [w] is how far it was captured. *)
Record consistent (g : SessionId → FenceToken) (w : SessionId → N) (s : Sys) : Prop := {
  co_captured : captured g w (snapshots (sy_store s)) (sy_store s);
  co_claims id : g id <= fence_of (sy_store s) id;
  co_reads : reads w (snapshots (sy_store s));
  co_flights id f fl : sy_flights s !! (id, f) = Some fl →
    f <= fence_of (sy_store s) id ∧ ∃ e, ci_engine (fl_inc fl) = Some e ∧
      (f = fence_of (sy_store s) id → w id <= cursor e ∧ cursor e <= default 0 (in_splice_seq (sy_store s) !! id));
  co_residents id i b : (id, i, b) ∈ sy_residents s → usable i b
}.

Lemma captured_weaken g g' w m s : (∀ id, g id <= g' id) → captured g w m s → captured g' w m s.
Proof.
  intros Hg [[Hr Hc Hcl] Hm]. split; [|done]. split; [done..|]. intros id. specialize (Hcl id). specialize (Hg id).
  unfold claims_upto in *. eapply Forall_impl; [exact Hcl|]. cbn. intros row Hrow h Hh. specialize (Hrow h Hh). lia.
Qed.

Lemma fence_of_evolves s s' id : evolves s s' → fence_of s id <= fence_of s' id.
Proof.
  intros He. unfold fence_of. destruct (in_sessions s !! id) as [r|] eqn:Hr; cbn; [|lia].
  destruct (ev_rows _ _ He _ _ Hr) as (r' & -> & _ & Hf & _). exact Hf.
Qed.

(** What an operation that leaves the engines alone has to keep. *)
Lemma consistent_store g w w' m s st' fls rs :
  consistent g w s → evolves (sy_store s) st' → captured g w' m st' → reads w' m →
  (∀ id f fl, fls !! (id, f) = Some fl → sy_flights s !! (id, f) = Some fl ∧ (w' id = w id ∨ f < fence_of (sy_store s) id)) →
  (∀ id i b, (id, i, b) ∈ rs → usable i b) →
  consistent g w' (mkSys st' fls rs).
Proof.
  intros Hs He Hc Hm Hf Hr. assert (m = snapshots st') as -> by (symmetry; exact (proj2 Hc)).
  split; cbn [sy_store sy_flights sy_residents]; try done.
  - intros id. etrans; [apply (co_claims _ _ _ Hs)|by apply fence_of_evolves].
  - intros id f fl [Hfl Hw]%Hf. destruct (co_flights _ _ _ Hs _ _ _ Hfl) as (Hle & e & Hen & Hcur).
    pose proof (fence_of_evolves _ _ id He) as Hfe. pose proof (ev_counter _ _ He id) as Hct.
    split; [by etrans|]. exists e. split; [done|]. intros Heq. destruct Hw as [->|Hlt]; [|lia].
    destruct Hcur as [Hlo Hhi]; [lia|]. split; [done|]. by etrans.
Qed.

Section steps.
Context `{!LosslessCodec W} (k : nat) (g : SessionId → FenceToken) (w : SessionId → N) (s : Sys).
Context (Hk : reachable k (sy_store s)) (Hrange : in_range (S k)) (Hs : consistent g w s).

#[local] Lemma store_roomy : roomy (sy_store s).
Proof.
  intros id. pose proof (ctr_splice _ _ (reachable_counters k _ Hk ltac:(unfold in_range in *; lia)) id) as Hc.
  unfold in_range, u64_bound in *. lia.
Qed.

#[local] Lemma same_flights id f fl : sy_flights s !! (id, f) = Some fl →
  sy_flights s !! (id, f) = Some fl ∧ (w id = w id ∨ f < fence_of (sy_store s) id).
Proof. auto. Qed.

#[local] Hint Resolve same_flights store_roomy : core.

Lemma client_consistent op : client_op op →
  consistent g w (mkSys (run_op op (sy_store s)) (sy_flights s) (sy_residents s)).
Proof.
  intros (Hco & Hcl & Hcr). pose proof (run_op_evolves k _ op Hk Hrange) as Hev.
  pose proof (co_captured _ _ _ Hs) as Hcap. pose proof (co_reads _ _ _ Hs) as Hrd. pose proof (co_residents _ _ _ Hs) as Hres.
  destruct (created op) as [[id b]|] eqn:Hop.
  - destruct (creation_captured g w _ op _ id b Hop store_roomy Hcap) as [Hc|[Hnone Hc]].
    + by apply (consistent_store g w w _ s _ _ _ Hs Hev Hc); auto.
    + apply (consistent_store g w w _ s _ _ _ Hs Hev Hc); auto.
      apply (reads_insert w); [done..|]. intros sn Hsn. rewrite (rd_absent _ _ Hrd _ Hnone). by eapply Hcr.
  - apply (consistent_store g w w (snapshots (sy_store s)) s); auto.
    apply run_op_captured; auto. by rewrite Hcl.
Qed.

Lemma edit_consistent id ed expected new : edited ed expected = Some new →
  consistent g w (mkSys (run_op (OpSwapSnapshot id expected new) (sy_store s)) (sy_flights s) (sy_residents s)).
Proof.
  intros Hed. pose proof (run_op_evolves k _ (OpSwapSnapshot id expected new) Hk Hrange) as Hev.
  pose proof (co_reads _ _ _ Hs) as Hrd. pose proof (co_residents _ _ _ Hs) as Hres.
  destruct (swap_captured g w _ id expected new _ (co_captured _ _ _ Hs)) as [Hc|[Hin Hc]].
  - by apply (consistent_store g w w _ s _ _ _ Hs Hev Hc); auto.
  - apply (consistent_store g w w _ s _ _ _ Hs Hev Hc); auto. apply (reads_insert w); [done..|]. intros sn Hsn.
    unfold edited in Hed. destruct (h_decode expected) as [sn0|] eqn:Hd; [|done].
    destruct (edit_snapshot ed sn0) as [sn'|] eqn:He; [|done]. destruct (h_encode sn') as [b|] eqn:Hen; [|done]. simplify_eq.
    destruct (decode_encode _ _ Hen) as [v Hv]. rewrite Hv in Hsn. simplify_eq. cbn.
    rewrite (edit_snapshot_cursor _ _ _ He). by eapply rd_cursor.
Qed.
(** A chosen incarnation may be handed the stored snapshot. *)
Lemma chosen_usable fa w0 id inc lc b : incarnation_for s id inc lc → usable (chosen (H := core_engine fa w0) lc b inc) b.
Proof.
  intros [(-> & fa' & w' & ->)|(i & b' & w' & Hin & -> & ->)]; unfold chosen; [by intros e|].
  case_decide; [subst b'|by intros e]. intros e He. by eapply (co_residents _ _ _ Hs).
Qed.

(** What the engine of a load under the current token holds. *)
Lemma hydrate_current fa w0 id r inc lc u ctx i1 :
  in_sessions (sy_store s) !! id = Some r → incarnation_for s id inc lc →
  let rows := entry_vec (in_splices (sy_store s)) id in
  core_hydrate (sr_snapshot r) u (claim_splices_locked id (sr_fence r) (sy_store s)).1 ctx
    (chosen (H := core_engine fa w0) lc (sr_snapshot r) inc) = (Ok tt, i1) →
  ∃ sn e, h_decode (W := W) (sr_snapshot r) = Ok sn ∧ ci_engine i1 = Some e ∧
    turns_of e = cv_turns (sn_conversation sn) ++ (message_of (W := W) <$> List.filter unconsumed rows) ∧
    w id <= cursor e ∧ cursor e <= default 0 (in_splice_seq (sy_store s) !! id) ∧
    Forall (λ row, is_splice_seq row <= cursor e) rows.
Proof.
  intros Hr Hinc rows Hh. pose proof (co_captured _ _ _ Hs) as [[Hrow Hct Hcl] _].
  destruct (core_hydrate_spec _ _ _ _ _ _ (chosen_usable fa w0 id inc lc _ Hinc) Hh) as (sn & e & Hsn & He & Ht & Hlo & Hall & Hex).
  assert (snapshots (sy_store s) !! id = Some (sr_snapshot r)) as Hsnap by (unfold snapshots; by rewrite lookup_fmap, Hr).
  pose proof (rd_cursor _ _ (co_reads _ _ _ Hs) _ _ _ Hsnap Hsn) as Hcur.
  assert (claims_upto (sr_fence r) rows) as Hup.
  { pose proof (co_claims _ _ _ Hs id) as Hg. unfold fence_of in Hg. rewrite Hr in Hg. cbn in Hg. specialize (Hcl id).
    unfold claims_upto in *. eapply Forall_impl; [exact Hcl|]. cbn. intros row Hrow' h Hh'. specialize (Hrow' h Hh'). lia. }
  destruct (claim_locked_spec id (sr_fence r) _ Hup) as [Hclaim _]. rewrite Hclaim in Ht, Hall, Hex. fold rows in Ht, Hall, Hex.
  assert (∀ row, row ∈ rows → unconsumed row = true ↔ w id < is_splice_seq row) as Hun.
  { intros row Hin. specialize (Hrow id row Hin). destruct (unconsumed row); split; intros; try done.
    - apply N.nle_gt. intros Hle. by apply Hrow in Hle.
    - exfalso. pose proof (proj1 Hrow eq_refl). lia. }
  rewrite Hcur in *. exists sn, e. split_and!; try done.
  - rewrite Ht. f_equal. clear -Hun. induction rows as [|row rows IH]; [done|].
    assert (unconsumed row = true ↔ w id < is_splice_seq row) as Hrow by (apply Hun; left).
    cbn [List.filter]. destruct (unconsumed row) eqn:Hu; [|apply IH; intros; apply Hun; by right].
    rewrite fmap_cons, filter_cons, decide_True by (apply Hrow; done). rewrite !fmap_cons. f_equal.
    apply IH. intros; apply Hun; by right.
  - destruct Hex as [->|Hex]; [apply Hct|]. apply Exists_exists in Hex as (row & Hin & <-).
    apply list_elem_of_fmap in Hin as (row0 & -> & [Hin _]%list_elem_of_In%List.filter_In). apply list_elem_of_In in Hin.
    destruct (wf_inbox _ (reachable_wf k _ Hk ltac:(unfold in_range in *; lia)) id) as (_ & Hok & _).
    rewrite Forall_forall in Hok. destruct (Hok _ Hin) as (_ & _ & Hle). exact Hle.
  - apply Forall_forall. intros row Hin. destruct (unconsumed row) eqn:Hu.
    + rewrite Forall_fmap, Forall_forall in Hall. apply (Hall row), list_elem_of_In, List.filter_In. split; [|done].
      by apply list_elem_of_In.
    + apply (Hrow id row Hin) in Hu. lia.
Qed.

Lemma begin_consistent id f fa w0 inc lc m res m' :
  f <= fence_of (sy_store s) id → sy_flights s !! (id, f) = None → incarnation_for s id inc lc → mg_store m = sy_store s →
  begin_turn (H := core_engine fa w0) id f inc lc m = (res, m') →
  consistent (λ j, if decide (j = id) then N.max (g j) f else g j) w (mkSys (mg_store m')
    (match res with Ok (i, st, keys) => <[(id, f) := mkFlight i st keys]> (sy_flights s) | Err _ => sy_flights s end)
    (sy_residents s)).
Proof.
  intros Hf Hnone Hinc Hm Hb. set (g' := λ j, _).
  assert (∀ j, g j <= g' j) as Hg by (intros j; unfold g'; case_decide; lia).
  pose proof (begin_turn_store (H := core_engine fa w0) id f inc lc m) as Hst. rewrite Hb, Hm in Hst. cbn [snd] in Hst. rewrite Hst.
  pose proof (run_op_evolves k _ (OpLoad id f) Hk Hrange) as Hev.
  assert (captured g' w (snapshots (sy_store s)) (run_op (OpLoad id f) (sy_store s))) as Hcap.
  { apply run_op_captured; auto; [|by eapply captured_weaken, co_captured]. intros id' f' [= <- <-]. unfold g'.
    rewrite decide_True by done. lia. }
  assert (consistent g' w s) as Hs'.
  { destruct Hs. split; try done; [by eapply captured_weaken|]. intros j. unfold g'. case_decide; [subst j|done]. specialize (co_claims0 id). lia. }
  assert (consistent g' w (mkSys (run_op (OpLoad id f) (sy_store s)) (sy_flights s) (sy_residents s))) as Hload.
  { apply (consistent_store g' w w _ s _ _ _ Hs' Hev Hcap); auto; apply Hs. }
  destruct res as [[[i st] keys]|]; [|done].
  destruct (begin_turn_inv (H := core_engine fa w0) _ _ _ _ _ _ _ _ _ Hb) as (r & ctx & i1 & Hr & Hh & Hrun). rewrite Hm in Hr, Hh.
  destruct Hload as [? ? ? Hfl ?]. cbn [sy_store sy_flights sy_residents] in *. split; try done. cbn [sy_store sy_flights].
  intros id' f' fl. destruct (decide ((id', f') = (id, f))) as [[= -> ->]|Hne]; [|rewrite lookup_insert_ne by done; apply Hfl].
  rewrite lookup_insert_eq. intros [= <-]. pose proof (fence_of_evolves _ _ id Hev) as Hfe. split; [by etrans|]. cbn [fl_inc].
  destruct (core_run_stamp _ _ _ Hrun) as (e & e' & He & He' & Hstamp). exists e'. split; [done|]. intros Heq.
  assert (f = sr_fence r) as -> by (unfold fence_of in Hf, Hfe, Heq; rewrite Hr in Hf, Hfe; cbn in *; lia).
  destruct (hydrate_current fa w0 id r inc lc _ _ _ Hr Hinc Hh) as (sn & e0 & _ & He0 & _ & Hlo & Hhi & _).
  rewrite He in He0. injection He0 as <-. injection Hstamp as _ Hc. unfold cursor in *. rewrite Hc. split; [done|].
  etrans; [exact Hhi|]. apply Hev.
Qed.

(** The flights left when [(id, f)] lands: those of the session hold older tokens. *)
Lemma rest_flights w' id f id' f' fl' :
  (∀ j, j ≠ id → w' j = w j) → f = fence_of (sy_store s) id ∨ w' id = w id →
  delete (id, f) (sy_flights s) !! (id', f') = Some fl' →
  sy_flights s !! (id', f') = Some fl' ∧ (w' id' = w id' ∨ f' < fence_of (sy_store s) id').
Proof.
  intros Hw Hor [Hne Hl]%lookup_delete_Some. split; [done|]. destruct (decide (id' = id)) as [->|]; [|auto].
  destruct Hor as [-> |]; [|auto]. right. destruct (co_flights _ _ _ Hs _ _ _ Hl) as [Hle' _].
  assert (f' ≠ fence_of (sy_store s) id) by congruence. lia.
Qed.

(** A flight that lands without a commit. *)
Lemma lost_consistent id f st' rs :
  evolves (sy_store s) st' → captured g w (snapshots (sy_store s)) st' → (∀ id' i b, (id', i, b) ∈ rs → usable i b) →
  consistent g w (mkSys st' (delete (id, f) (sy_flights s)) rs).
Proof.
  intros Hev Hcap Hrs. apply (consistent_store g w w _ s _ _ _ Hs Hev Hcap); [apply Hs| |done].
  intros id' f' fl' Hl. eapply rest_flights; eauto.
Qed.

(** A flight that commits its snapshot. *)
Lemma landed_consistent id f e b st' rs :
  f = fence_of (sy_store s) id → h_encode (en_snapshot e) = Ok b → evolves (sy_store s) st' →
  captured g (moved w id (cursor e)) (<[id := b]> (snapshots (sy_store s))) st' → (∀ id' i b, (id', i, b) ∈ rs → usable i b) →
  consistent g (moved w id (cursor e)) (mkSys st' (delete (id, f) (sy_flights s)) rs).
Proof.
  intros Hf Henc Hev Hcap Hrs. assert (∀ j, j ≠ id → moved w id (cursor e) j = w j) as Hw.
  { intros j Hj. unfold moved. by rewrite decide_False. }
  apply (consistent_store g w _ _ s _ _ _ Hs Hev Hcap); [| |done].
  - apply (reads_insert w); [apply Hs|done|]. intros sn Hsn. destruct (decode_encode _ _ Henc) as [v Hv]. rewrite Hv in Hsn. simplify_eq.
    cbn. unfold moved. by rewrite decide_True.
  - intros id' f' fl' Hl. eapply rest_flights; eauto.
Qed.

Lemma finish_consistent id f fl fa w0 now m res m' :
  sy_flights s !! (id, f) = Some fl → mg_store m = sy_store s →
  finish_turn (H := core_engine fa w0) id f now (fl_inc fl) (fl_step fl) (fl_keys fl) m = (res, m') →
  ∃ w', consistent g w' (mkSys (mg_store m') (delete (id, f) (sy_flights s))
    (match res with Ok (i, Some (_, b)) => (id, i, b) :: sy_residents s | _ => sy_residents s end)).
Proof.
  intros Hfl Hm Hfin. destruct (co_flights _ _ _ Hs _ _ _ Hfl) as (Hle & e & He & Hcur).
  pose proof (co_captured _ _ _ Hs) as Hcap. pose proof (co_residents _ _ _ Hs) as Hres.
  destruct (decide (f < fence_of (sy_store s) id)) as [Hlt|Hge].
  - destruct (in_sessions (sy_store s) !! id) as [r|] eqn:Hr; unfold fence_of in Hlt; rewrite Hr in Hlt; cbn in Hlt; [|lia].
    rewrite <- Hm in Hr.
    destruct (finish_turn_stale (H := core_engine fa w0) id f now (fl_inc fl) (fl_step fl) (fl_keys fl) r m Hr Hlt) as (er & Hst & _).
    rewrite Hst in Hfin. injection Hfin as <- <-. rewrite Hm. exists w. by apply lost_consistent.
  - assert (f = fence_of (sy_store s) id) as Hf by lia. specialize (Hcur Hf) as [Hlo Hhi].
    destruct (finish_turn_inv (H := core_engine fa w0) _ _ _ _ _ _ _ _ _ Hfin) as [[Hst Hno]|(op & cp & Hop & Hid & Hcp & Hcs & Hst & Hok)].
    { exists w. rewrite Hst, Hm. apply lost_consistent; [done..|]. destruct res as [[i [[c b]|]]|]; try done. by destruct (Hno i c b). }
    cbn in Hcp, Hcs, Hok. unfold core_checkpoint in Hcp. unfold core_consumed_splices in Hcs. rewrite He in Hcp, Hcs.
    destruct (h_encode (en_snapshot e)) as [b|] eqn:Henc; [|done]. injection Hcp as ->. rewrite Hm in Hst.
    pose proof (run_op_evolves k _ op Hk Hrange) as Hev. rewrite <- Hst in Hev.
    assert (∀ id' i b, (id', i, b) ∈ match res with Ok (i, Some (_, b)) => (id, i, b) :: sy_residents s | _ => sy_residents s end → usable i b) as Hres'.
    { destruct res as [[i [[c b]|]]|]; try done. intros id' i' b' [[= -> -> ->]|Hin]%elem_of_cons; [|by eapply Hres].
      destruct (Hok i c b eq_refl) as [-> ->]. intros e'. cbn. rewrite He. intros [= <-]. exact Henc. }
    destruct (commit_captured g w (snapshots (sy_store s)) op cp (cursor e) (sy_store s)) as [Hc|Hc]; rewrite ?Hid; try done;
      rewrite <- Hst in Hc; [exists w; by apply lost_consistent|].
    rewrite Hid in Hc. eexists. by eapply landed_consistent.
Qed.
End steps.

Context `{!LosslessCodec W}.

Lemma sys_reach_consistent n s : sys_reach n s → in_range n →
  ∃ k g w, (k <= n)%nat ∧ reachable k (sy_store s) ∧ consistent g w s.
Proof.
  intros Hn. induction Hn as [|n s s' _ IH Hstep]; intros Hrange.
  - exists 0%nat, (λ _, 0), (λ _, 0). split_and!; [lia|constructor|]. split; cbn; try done.
    + split; [|done]. split; [by intros ? ? ?%not_elem_of_nil|cbn; lia|by constructor].
    + by intros id i b ?%not_elem_of_nil.
  - destruct IH as (k & g & w & Hle & Hk & Hs); [unfold in_range in *; lia|].
    assert (in_range (S k)) as Hr by (unfold in_range in *; lia).
    destruct Hstep as [s op Hop|s id ed b b' Hed|s id f fa w0 inc lc m res m' Hf Hno Hinc Hm Hb|s id f fl fa w0 now m res m' Hfl Hm Hfin|s fls rs Hfls Hrs].
    + exists (S k), g, w. split_and!; [lia|by constructor|by eapply client_consistent].
    + exists (S k), g, w. split_and!; [lia|by constructor|by eapply edit_consistent].
    + eexists (S k), _, w. split_and!; [lia| |by eapply begin_consistent].
      cbn. pose proof (begin_turn_store (H := core_engine fa w0) id f inc lc m) as Hst. rewrite Hb, Hm in Hst. cbn [snd] in Hst.
      rewrite Hst. by constructor.
    + destruct (finish_consistent k g w s Hk Hr Hs id f fl fa w0 now m res m' Hfl Hm Hfin) as [w' Hw'].
      destruct (finish_turn_inv (H := core_engine fa w0) _ _ _ _ _ _ _ _ _ Hfin) as [[Hst _]|(op & cp & _ & _ & _ & _ & Hst & _)]; rewrite Hm in Hst.
      * exists k, g, w'. split_and!; [lia|by cbn; rewrite Hst|done].
      * exists (S k), g, w'. split_and!; [lia|cbn; rewrite Hst; by constructor|done].
    + exists k, g, w. split_and!; [lia|done|].
      apply (consistent_store g w w (snapshots (sy_store s)) s); try done; [apply Hs|apply Hs| |].
      * intros id f fl Hl. split; [by eapply lookup_weaken|by left].
      * intros id i b Hin. by eapply (co_residents _ _ _ Hs), Hrs.
Qed.

(** A whole turn of the activation substrate, with clients beside it, is steps of the system. *)
Lemma run_turn_reach n s id f fa w0 now inc lc during m res m' :
  sys_reach n s → f <= fence_of (sy_store s) id → sy_flights s !! (id, f) = None → incarnation_for s id inc lc →
  mg_store m = sy_store s → Forall client_op during →
  Activation.run_turn (H := core_engine fa w0) id f now inc lc during m = (res, m') →
  ∃ k s', sys_reach k s' ∧ (k <= n + length during + 2)%nat ∧ sy_store s' = mg_store m'.
Proof.
  intros Hn Hf Hno Hinc Hm Hduring. unfold Activation.run_turn, mbind, M_bind.
  destruct (begin_turn _ _ _ _ m) as [rb m1] eqn:Hb. pose proof (sys_begin s id f fa w0 inc lc m rb m1 Hf Hno Hinc Hm Hb) as Hstep.
  destruct rb as [[[i st] keys]|e]; [|intros [= _ <-]; eexists _, _; split_and!; [by eapply sys_next| |]; cbn; [lia|done]].
  unfold interference, modify. set (m2 := update _ m1).
  assert (∀ ops k st1 fls rs, Forall client_op ops → sys_reach k (mkSys st1 fls rs) →
    sys_reach (k + length ops) (mkSys (run_ops ops st1) fls rs)) as Hops.
  { clear. intros ops. induction ops as [|op ops IH]; intros k st1 fls rs Hops Hk; cbn; [by rewrite Nat.add_0_r|].
    inversion_clear Hops as [|? ? Hop Hrest]. rewrite Nat.add_succ_r. apply (IH (S k)); [done|].
    eapply sys_next; [exact Hk|]. by apply (sys_client (mkSys st1 fls rs)). }
  specialize (Hops during _ _ _ _ Hduring (sys_next _ _ _ Hn Hstep)).
  destruct (finish_turn _ _ _ _ _ _ m2) as [rf m3] eqn:Hfin. intros [= _ <-].
  eexists _, _. split_and!; [eapply sys_next; [exact Hops|]| |].
  - eapply (sys_finish _ id f (mkFlight i st keys) fa w0 now m2 rf m3); [apply lookup_insert_eq|done|exact Hfin].
  - lia.
  - done.
Qed.

(** C3. Every inbox row enters the transcript once.  Whatever clients, operators,
    turns, superseded turns and crashes did to the system, the cursor in a session's
    stored snapshot is exactly the boundary of its consumed rows; and an activation that
    loads the session under its current token, on a fresh incarnation or on the one that
    lingered, continues the stored transcript with one user message for each row beyond
    the cursor, in their order, and none for a row before it, and moves its cursor over
    all of them. *)
Theorem inbox_folded_once n s id r sn :
  sys_reach n s → in_range (S n) → in_sessions (sy_store s) !! id = Some r → h_decode (W := W) (sr_snapshot r) = Ok sn →
  let rows := entry_vec (in_splices (sy_store s)) id in
  (∀ row, row ∈ rows → unconsumed row = false ↔ is_splice_seq row <= sn_consumed_splice_seq sn) ∧
  ∀ fa w0 inc lc ctx i', incarnation_for s id inc lc →
    core_hydrate (sr_snapshot r) (entry_vec (in_unapplied (sy_store s)) id) (claim_splices_locked id (sr_fence r) (sy_store s)).1 ctx
      (chosen (H := core_engine fa w0) lc (sr_snapshot r) inc) = (Ok tt, i') →
    ∃ e, ci_engine i' = Some e ∧
      turns_of e = cv_turns (sn_conversation sn) ++
        (message_of (W := W) <$> List.filter (λ row, sn_consumed_splice_seq sn <? is_splice_seq row) rows) ∧
      Forall (λ row, is_splice_seq row <= cursor e) rows.
Proof.
  intros Hn Hr Hrow Hsn rows. destruct (sys_reach_consistent n s Hn ltac:(unfold in_range in *; lia)) as (k & g & w & Hle & Hk & Hs).
  assert (sn_consumed_splice_seq sn = w id) as Hcur.
  { eapply (rd_cursor _ _ (co_reads _ _ _ Hs)); [|exact Hsn]. unfold snapshots. by rewrite lookup_fmap, Hrow. }
  assert (∀ row, row ∈ rows → unconsumed row = false ↔ is_splice_seq row <= sn_consumed_splice_seq sn) as Hrows.
  { intros row Hin. rewrite Hcur. by apply (co_captured _ _ _ Hs). }
  split; [done|]. intros fa w0 inc lc ctx i' Hinc Hh.
  destruct (hydrate_current k g w s Hk ltac:(unfold in_range in *; lia) Hs fa w0 id r inc lc _ _ _ Hrow Hinc Hh)
    as (sn' & e & Hsn' & He & Ht & _ & _ & Hall).
  rewrite Hsn in Hsn'. injection Hsn' as <-. exists e. split_and!; [done| |done]. rewrite Ht. fold rows. do 2 f_equal.
  clear -Hrows. induction rows as [|row rows IH]; [done|]. cbn [List.filter].
  rewrite IH by (intros; apply Hrows; by right). specialize (Hrows row ltac:(left)).
  destruct (unconsumed row), (N.ltb_spec (sn_consumed_splice_seq sn) (is_splice_seq row)) as [Hlt|Hge]; try done; exfalso.
  - by apply Hrows in Hge.
  - pose proof (proj1 Hrows eq_refl). lia.
Qed.

End system.

(** ** A run of the system *)

#[export] Instance UserMsg_eq_dec : EqDecision UserMsg.
Proof. solve_decision. Defined.
#[export] Instance AssistantMsg_eq_dec : EqDecision AssistantMsg.
Proof. solve_decision. Defined.
#[export] Instance ToolResult_eq_dec : EqDecision ToolResult.
Proof. solve_decision. Defined.
#[export] Instance ToolTurn_eq_dec : EqDecision ToolTurn.
Proof. solve_decision. Defined.
#[export] Instance Turn_eq_dec : EqDecision Turn.
Proof. solve_decision. Defined.
#[export] Instance Conversation_eq_dec : EqDecision Conversation.
Proof. solve_decision. Defined.
#[export] Instance References_eq_dec : EqDecision References.
Proof. solve_decision. Defined.
#[export] Instance PendingApproval_eq_dec : EqDecision PendingApproval.
Proof. solve_decision. Defined.
#[export] Instance RememberedApproval_eq_dec : EqDecision RememberedApproval.
Proof. solve_decision. Defined.
#[export] Instance ApprovalPolicy_eq_dec : EqDecision ApprovalPolicy.
Proof. solve_decision. Defined.
#[export] Instance Snapshot_eq_dec : EqDecision Snapshot.
Proof. solve_decision. Defined.

#[local] Instance echo_json : Json := {|
  json_from_str b := Some (JScalar b); json_string b := b; repair_args b := b; default_hash b := N.of_nat (length b) |}.

(** A codec for the snapshots of a table. *)
Definition blob (i : nat) : SnapshotBlob := replicate (S i) Byte.x00.

Definition toy_host (table : list Snapshot) : Host Toy := {|
  h_session_meta _ w := (None, w);
  h_background_profile _ _ := None;
  h_resolver _ _ _ := None;
  h_materialize _ _ w := w;
  h_capture_outbox _ w := (None, w);
  h_journal _ _ _ _ _ w := (None, w);
  h_decode b := match table !! pred (length b) with Some sn => Ok sn | None => Err (DE_Codec "blob") end;
  h_encode sn := match list_find (λ x, x = sn) table with Some (i, _) => Ok (blob i) | None => Err (DE_Codec "snapshot") end;
  h_user_msg := mkUserMsg;
  h_lifetime _ := Persistent
|}.

Lemma toy_lossless table : LosslessCodec Toy (H := toy_host table).
Proof.
  intros sn b Hb. exists (sn_writer_version sn). assert (sn <| sn_writer_version := sn_writer_version sn |> = sn) as -> by by destruct sn.
  revert Hb. cbn. destruct (list_find _ table) as [[i x]|] eqn:Hf; [|done]. apply list_find_Some in Hf as (Hi & -> & _).
  intros [= <-]. cbn. by rewrite length_replicate, Hi.
Qed.

Definition toy_profile : EngineProfile :=
  mkEngineProfile None None None None Config_default (λ _, 0%nat) 0 0 0 None 0 (λ _, 0%nat).
Definition toy_factory : CoreEngineFactory := mkCoreEngineFactory toy_profile false None None.

(** The turn that answers, and the snapshot it leaves. *)
Definition toy_answer : Toy := toy [toy_done "done" []] [].

Section demo.
Context (table : list Snapshot).
#[local] Instance demo_host : Host Toy := toy_host table.

Definition client (op : StoreOp) (s : Sys (W := Toy)) : Sys (W := Toy) := mkSys (run_op op (sy_store s)) (sy_flights s) (sy_residents s).
Definition beginning (id : SessionId) (f : FenceToken) (s : Sys (W := Toy)) : Sys (W := Toy) :=
  let '(res, m') := begin_turn (H := core_engine toy_factory toy_answer) id f (core_create toy_factory toy_answer) None (manager_new (sy_store s) 0) in
  mkSys (mg_store m')
    (match res with Ok (i, st, keys) => <[(id, f) := mkFlight i st keys]> (sy_flights s) | Err _ => sy_flights s end)
    (sy_residents s).
Definition finishing (id : SessionId) (f : FenceToken) (s : Sys (W := Toy)) : Sys (W := Toy) :=
  match sy_flights s !! (id, f) with
  | None => s
  | Some fl =>
      let '(res, m') := finish_turn (H := core_engine toy_factory toy_answer) id f 7 (fl_inc fl) (fl_step fl) (fl_keys fl) (manager_new (sy_store s) 0) in
      mkSys (mg_store m') (delete (id, f) (sy_flights s))
        (match res with Ok (i, Some (_, b)) => (id, i, b) :: sy_residents s | _ => sy_residents s end)
  end.

(** A session with one message, whose turn commits after a second one arrived. *)
Definition splice (text op : string) : StoreOp := OpAppendSplice (mkNewSplice "s" StartTurn (string_bytes text) op "user") 5.
Definition demo_flight : Sys (W := Toy) :=
  client (splice "again" "op2") (beginning "s" 1 (client (OpAcquireLease "s") (client (splice "hello" "op1")
    (client (OpCreateIdle "s" 0 (blob 0)) (mkSys InMemoryStore_new ∅ []))))).
Definition demo_sys : Sys (W := Toy) := finishing "s" 1 demo_flight.
End demo.

Definition toy_next : Snapshot :=
  match sy_flights (demo_flight [Snapshot_fresh "s"]) !! ("s", 1) with
  | Some fl => default (Snapshot_fresh "s") (en_snapshot <$> ci_engine (fl_inc fl))
  | None => Snapshot_fresh "s"
  end.

Definition demo_table : list Snapshot := [Snapshot_fresh "s"; toy_next].

Section demo_reach.
Context (table : list Snapshot).
#[local] Instance reach_host : Host Toy := toy_host table.

Lemma client_reach n op s : client_op (W := Toy) op → sys_reach n s → sys_reach (S n) (client op s).
Proof. intros Hop Hs. eapply sys_next; [exact Hs|]. by apply sys_client. Qed.

Lemma begin_reach n id f s : f <= fence_of (sy_store s) id → sy_flights s !! (id, f) = None →
  sys_reach n s → sys_reach (S n) (beginning table id f s).
Proof.
  intros Hf Hno Hs. eapply sys_next; [exact Hs|]. unfold beginning. destruct (begin_turn _ _ _ _ _) as [res m'] eqn:Hb.
  eapply sys_begin; [exact Hf|exact Hno| | |exact Hb]; [left; by eauto|reflexivity].
Qed.

Lemma finish_reach n id f s fl : sy_flights s !! (id, f) = Some fl → sys_reach n s → sys_reach (S n) (finishing table id f s).
Proof.
  intros Hfl Hs. eapply sys_next; [exact Hs|]. unfold finishing. rewrite Hfl.
  destruct (finish_turn _ _ _ _ _ _ _) as [res m'] eqn:Hb. eapply sys_finish; [exact Hfl| |exact Hb]. reflexivity.
Qed.

Lemma plain_op op : commits op = false → claims op = None → created op = None → client_op (W := Toy) op.
Proof. intros Hco Hcl Hcr. split_and!; [done..|]. by rewrite Hcr. Qed.
End demo_reach.

Lemma demo_flight_reach : sys_reach (H1 := toy_host demo_table) 5 (demo_flight demo_table).
Proof.
  unfold demo_flight. apply (client_reach demo_table); [by apply plain_op|]. apply begin_reach; [vm_compute; discriminate|reflexivity|].
  do 2 (apply (client_reach demo_table); [by apply plain_op|]). apply (client_reach demo_table); [|constructor].
  split_and!; [done..|]. intros id b sn [= <- <-]. cbn. intros [= <-]. done.
Qed.

Lemma demo_reach : sys_reach (H1 := toy_host demo_table) 6 (demo_sys demo_table).
Proof.
  destruct (sy_flights (demo_flight demo_table) !! ("s", 1)) as [fl|] eqn:Hfl; [|exfalso; vm_compute in Hfl; discriminate].
  exact (finish_reach demo_table 5 "s" 1 (demo_flight demo_table) fl Hfl demo_flight_reach).
Qed.

Lemma inbox_folded_once_witness :
  let host := toy_host demo_table in
  let st := sy_store (demo_sys demo_table) in
  (∀ row, row ∈ entry_vec (in_splices st) "s" → unconsumed row = false ↔ is_splice_seq row <= 1) ∧
  ∃ i' e, core_hydrate (H1 := host) (blob 1) [] (claim_splices_locked "s" 1 st).1 (mkTurnCtx None 1 1) (core_create toy_factory toy_answer) = (Ok tt, i') ∧
    ci_engine i' = Some e ∧
    turns_of e = cv_turns (sn_conversation toy_next) ++ [TUser (mkUserMsg (string_bytes "again"))].
Proof.
  cbv zeta.
  destruct (inbox_folded_once (H1 := toy_host demo_table) (LosslessCodec0 := toy_lossless demo_table) 6 (demo_sys demo_table) "s"
    (mkSessionRecord "s" 0 0 Ready (blob 1) 1 1) toy_next demo_reach) as [Hrows Hfold].
  - vm_compute. reflexivity.
  - vm_compute. reflexivity.
  - vm_compute. reflexivity.
  - split; [exact Hrows|].
    destruct (core_hydrate (H1 := toy_host demo_table) (blob 1) [] (claim_splices_locked "s" 1 (sy_store (demo_sys demo_table))).1
      (mkTurnCtx None 1 1) (core_create toy_factory toy_answer)) as [r i'] eqn:Hh.
    assert (r = Ok tt) as -> by (apply (f_equal fst) in Hh; vm_compute in Hh; by rewrite <- Hh).
    destruct (Hfold toy_factory toy_answer (core_create toy_factory toy_answer) None (mkTurnCtx None 1 1) i') as (e & He & Ht & _);
      [left; by eauto|exact Hh|].
    exists i', e. split_and!; [done..|]. rewrite Ht. vm_compute. reflexivity.
Defined.

(** ** An interrupted resumption *)

Section interrupted.
(** A turn of a fresh incarnation under [f] in the world [w]. *)
Definition turn_of (table : list Snapshot) (w : Toy) (f : FenceToken) (m : Manager) : Manager :=
  (Activation.run_turn (H := core_engine (H1 := toy_host table) toy_factory w) "s" f 7 (core_create toy_factory w) None [] m).2.
(** The table with the snapshot of that turn. *)
Definition learn (table : list Snapshot) (w : Toy) (f : FenceToken) (m : Manager) : list Snapshot :=
  match (begin_turn (H := core_engine (H1 := toy_host table) toy_factory w) "s" f (core_create toy_factory w) None m).1 with
  | Ok (i, _, _) => table ++ option_list (en_snapshot <$> ci_engine i)
  | Err _ => table
  end.
Definition traffic (l : list StoreOp) (m : Manager) : Manager := m <| mg_store := run_ops l (mg_store m) |>.

(** The first turn delegates, the job completes, the second turn is interrupted before it
    does any work, and a new message opens the third. *)
Definition delegating_world : Toy := toy [toy_done "x" [toy_call "c1" "delegate"]] [].
Definition interrupted_world : Toy := toy [] [true; true].
Definition before_first : Manager :=
  traffic [OpCreateIdle "s" 0 (blob 0); splice "go" "op1"; OpAcquireLease "s"] (manager_new InMemoryStore_new 0).
Definition table1 : list Snapshot := learn [Snapshot_fresh "s"] delegating_world 1 before_first.
Definition before_second : Manager := traffic [OpAcquireLease "s"] (run_workers (turn_of table1 delegating_world 1 before_first)).2.
Definition table2 : list Snapshot := learn table1 interrupted_world 2 before_second.
Definition before_third : Manager := traffic [splice "more" "op2"; OpAcquireLease "s"] (turn_of table2 interrupted_world 2 before_second).
Definition table3 : list Snapshot := learn table2 toy_answer 3 before_third.
Definition after_third : Manager := (run_workers (turn_of table3 toy_answer 3 before_third)).2.

(** The interrupted turn commits the completion as applied without having resolved it; the
    third turn suspends on the same job again, whose command is not enqueued a second
    time: the session waits for good. *)
Example interrupt_loses_completion :
  entry_vec (in_unapplied (mg_store before_second)) "s" = [mkJobCompletion "s" 1 "job-2" []] ∧
  entry_vec (in_unapplied (mg_store before_third)) "s" = [] ∧
  (sn_waiting_for <$> table2 !! 2%nat) = Some ["job-2"] ∧
  status (mg_store after_third) "s" = Some (StoreTypes.Suspended "job-2") ∧
  entry_vec (in_unapplied (mg_store after_third)) "s" = [] ∧ in_job_outbox (mg_store after_third) = [].
Proof. split_and!; vm_compute; reflexivity. Qed.
End interrupted.
