(* ===== verification/UrlSafety.v ===== *)
(** * URL safety ([daemon-core/src/safety/url.rs])

    The egress guard of the network tools: a URL passes when its scheme is http or https
    and its host is neither [localhost] nor a literal of an internal address.  Addresses
    are parsed as [std::net] parses them; UTS #46 ([idna::domain_to_ascii]) and the
    resolver are parameters. *)

From S2P Require Import Prelude Text ModelCall.
From Stdlib Require Import Strings.Byte.
#[local] Open Scope daemon_scope.
#[local] Open Scope N_scope.

(** ** String operations *)

(** [str::split_once]: at the first occurrence of a non-empty pattern. *)
Fixpoint split_once (pat l : bytes) : option (bytes * bytes) :=
  match strip_prefix pat l with
  | Some rest => Some ([], rest)
  | None =>
      match l with
      | [] => None
      | b :: l' => match split_once pat l' with Some (x, y) => Some (b :: x, y) | None => None end
      end
  end.

(** [str::rsplit_once] for one ASCII character. *)
Definition rsplit_once (c : byte) (l : bytes) : option (bytes * bytes) :=
  match split_once [c] (rev l) with Some (x, y) => Some (rev y, rev x) | None => None end.

(** The first item of [str::split] on a set of ASCII characters. *)
Fixpoint until (cs : bytes) (l : bytes) : bytes :=
  match l with
  | [] => []
  | b :: l' => if bool_decide (b ∈ cs) then [] else b :: until cs l'
  end.

Definition strip_suffix (p l : bytes) : option bytes := @rev _ <$> strip_prefix (rev p) (rev l).
Definition ends_with (p l : bytes) : bool := match strip_suffix p l with Some _ => true | None => false end.

(** [str::trim_end_matches('.')]. *)
Definition trim_dots (l : bytes) : bytes := rev (drop_all [[x2e]] (length l) (rev l)).

(** ** [std::net]: addresses and their parser *)

Inductive IpAddr :=
| V4 (a b c d : N)
| V6 (segments : list N).

(** [char::to_digit]. *)
Definition to_digit (radix : N) (b : byte) : option N :=
  let x := Byte.to_N b in
  let v := if (48 <=? x) && (x <=? 57) then Some (x - 48)
           else if (97 <=? x) && (x <=? 122) then Some (x - 87)
           else if (65 <=? x) && (x <=? 90) then Some (x - 55) else None in
  match v with Some v => if v <? radix then Some v else None | None => None end.

Fixpoint read_digits (radix acc : N) (count : nat) (l : bytes) : N * nat * bytes :=
  match l with
  | [] => (acc, count, l)
  | b :: l' =>
      match to_digit radix b with
      | Some v => read_digits radix (acc * radix + v) (S count) l'
      | None => (acc, count, l)
      end
  end.

Definition read_number (radix : N) (max_digits : nat) (bound : N) (allow_zero_prefix : bool) (l : bytes) : option (N * bytes) :=
  let '(v, n, rest) := read_digits radix 0 0 l in
  let has_leading_zero := bool_decide (head l = Some x30) in
  if (max_digits <? n)%nat || (n =? 0)%nat || (negb allow_zero_prefix && has_leading_zero && (1 <? n)%nat) || (bound <=? v)
  then None else Some (v, rest).

(** [read_separator]: the separator before every item but the first. *)
Definition read_separator {A} (sep : byte) (first : bool) (inner : bytes → option (A * bytes)) (l : bytes) : option (A * bytes) :=
  if first then inner l else match l with b :: l' => if bool_decide (b = sep) then inner l' else None | [] => None end.

Definition read_octet (first : bool) : bytes → option (N * bytes) := read_separator x2e first (read_number 10 3 256 false).

Definition read_ipv4 (l : bytes) : option (N * N * N * N * bytes) :=
  '(a, l) ← read_octet true l; '(b, l) ← read_octet false l; '(c, l) ← read_octet false l; '(d, l) ← read_octet false l;
  Some (a, b, c, d, l).

(** Up to [left] groups; a dotted address may stand for the last two. *)
Fixpoint read_groups (left : nat) (first : bool) (l : bytes) : list N * bool * bytes :=
  match left with
  | O => ([], false, l)
  | S left' =>
      let ipv4 := if (1 <? left)%nat then read_separator x3a first (λ l, '(v, l) ← read_ipv4 l; Some (v, l)) l else None in
      match ipv4 with
      | Some ((a, b, c, d), rest) => ([a * 256 + b; c * 256 + d], true, rest)
      | None =>
          match read_separator x3a first (read_number 16 4 65536 true) l with
          | Some (g, rest) => let '(gs, v4, rest') := read_groups left' false rest in (g :: gs, v4, rest')
          | None => ([], false, l)
          end
      end
  end.

Definition read_ipv6 (l : bytes) : option (list N * bytes) :=
  let '(head, head_ipv4, rest) := read_groups 8 true l in
  if (length head =? 8)%nat then Some (head, rest)
  else if head_ipv4 then None
  else
    match rest with
    | x3a :: x3a :: rest =>
        let '(tail, _, rest') := read_groups (8 - (length head + 1)) true rest in
        Some (head ++ replicate (8 - length head - length tail) 0 ++ tail, rest')
    | _ => None
    end.

(** [str::parse::<IpAddr>]. *)
Definition parse_ip (l : bytes) : option IpAddr :=
  match read_ipv4 l with
  | Some (a, b, c, d, rest) => if bool_decide (rest = []) then Some (V4 a b c d) else None
  | None =>
      match read_ipv6 l with
      | Some (segs, rest) => if bool_decide (rest = []) then Some (V6 segs) else None
      | None => None
      end
  end.

Definition is_blocked_v4 (a b c d : N) : bool :=
  (a =? 127) ||
  ((a =? 0) && (b =? 0) && (c =? 0) && (d =? 0)) ||
  ((a =? 10) || ((a =? 172) && (16 <=? b) && (b <=? 31)) || ((a =? 192) && (b =? 168))) ||
  ((a =? 169) && (b =? 254)) ||
  ((a =? 255) && (b =? 255) && (c =? 255) && (d =? 255)) ||
  (((a =? 192) && (b =? 0) && (c =? 2)) || ((a =? 198) && (b =? 51) && (c =? 100)) || ((a =? 203) && (b =? 0) && (c =? 113))) ||
  ((a =? 100) && (64 <=? b) && (b <=? 127)).

Definition is_blocked_v6 (segs : list N) : bool :=
  if bool_decide (segs = [0; 0; 0; 0; 0; 0; 0; 1]) || bool_decide (segs = [0; 0; 0; 0; 0; 0; 0; 0]) then true
  else let seg0 := default 0 (head segs) in (N.land seg0 0xfe00 =? 0xfc00) || (N.land seg0 0xffc0 =? 0xfe80).

Definition ip_is_blocked (ip : IpAddr) : bool :=
  match ip with V4 a b c d => is_blocked_v4 a b c d | V6 segs => is_blocked_v6 segs end.

(** ** The guard *)

Inductive UrlReject :=
| Malformed (raw : bytes)
| Scheme (scheme : bytes)
| EmptyHost
| PrivateHost (host : bytes)
| ResolvedPrivate (host : bytes).

Record CheckedUrl := mkCheckedUrl { cu_scheme : bytes; cu_host : bytes; cu_url : bytes }.

Class Idna := domain_to_ascii : bytes → option bytes.

(** The literal inside brackets, if any. *)
Definition unbracket (host : bytes) : bytes :=
  default host (h ← strip_prefix [x5b] host; strip_suffix [x5d] h).

Definition is_blocked_host (host : bytes) : bool :=
  if bool_decide (host = string_bytes "localhost") || ends_with (string_bytes ".localhost") host then true
  else match parse_ip (unbracket host) with Some ip => ip_is_blocked ip | None => false end.

Definition is_digit_b (b : byte) : bool := let x := Byte.to_N b in (48 <=? x) && (x <=? 57).

Definition strip_port (host_port : bytes) : bytes :=
  match strip_prefix [x5b] host_port with
  | Some rest =>
      match split_once [x5d] rest with
      | Some (inner, _) => take (length inner + 2) host_port
      | None => host_port
      end
  | None =>
      match rsplit_once x3a host_port with
      | Some (h, p) => if negb (bool_decide (p = [])) && forallb is_digit_b p then h else host_port
      | None => host_port
      end
  end.

Section guard.
Context `{Idna}.

Definition normalize_host (host : bytes) : bytes :=
  let lowered := to_ascii_lowercase host in
  if bool_decide (head lowered = Some x5b) then lowered
  else
    let trimmed := trim_dots lowered in
    match domain_to_ascii trimmed with Some ascii => trim_dots ascii | None => trimmed end.

Definition check_url (raw : bytes) : result UrlReject CheckedUrl :=
  let trimmed := trim raw in
  match split_once (string_bytes "://") trimmed with
  | None => Err (Malformed raw)
  | Some (scheme, rest) =>
      let scheme := to_ascii_lowercase scheme in
      if negb (bool_decide (scheme = string_bytes "http")) && negb (bool_decide (scheme = string_bytes "https")) then Err (Scheme scheme)
      else
        let authority := until [x2f; x3f; x23] rest in
        let host_port := match rsplit_once x40 authority with Some (_, h) => h | None => authority end in
        let host := normalize_host (strip_port host_port) in
        if bool_decide (host = []) then Err EmptyHost
        else if is_blocked_host host then Err (PrivateHost host)
        else Ok (mkCheckedUrl scheme host trimmed)
  end.

(** [resolve]: [None] is an error of the resolver. *)
Definition check_url_resolved_with (raw : bytes) (resolve : bytes → option (list IpAddr)) : result UrlReject CheckedUrl :=
  match check_url raw with
  | Err e => Err e
  | Ok checked =>
      match parse_ip (unbracket (cu_host checked)) with
      | Some _ => Ok checked
      | None =>
          match resolve (cu_host checked) with
          | Some addrs => if existsb ip_is_blocked addrs then Err (ResolvedPrivate (cu_host checked)) else Ok checked
          | None => Ok checked
          end
      end
  end.
End guard.


(** ** Addresses as numbers, and the internal blocks *)

Definition v4_number (a b c d : N) : N := ((a * 256 + b) * 256 + c) * 256 + d.
Definition v6_number (segs : list N) : N := foldl (λ acc x, acc * 65536 + x) 0 segs.

(** [x] lies in the block of [base] with a prefix of [p] of [w] bits. *)
Definition in_block (w : N) (x : N) (block : N * N) : Prop := x / 2 ^ (w - block.2) = block.1 / 2 ^ (w - block.2).
#[export] Instance in_block_dec w x block : Decision (in_block w x block).
Proof. unfold in_block. apply _. Defined.

(** Loopback, unspecified, RFC 1918, link-local, broadcast, documentation, CGNAT. *)
Definition v4_blocks : list (N * N) :=
  [(v4_number 127 0 0 0, 8); (0, 32); (v4_number 10 0 0 0, 8); (v4_number 172 16 0 0, 12); (v4_number 192 168 0 0, 16);
   (v4_number 169 254 0 0, 16); (v4_number 255 255 255 255, 32); (v4_number 192 0 2 0, 24); (v4_number 198 51 100 0, 24);
   (v4_number 203 0 113 0, 24); (v4_number 100 64 0 0, 10)].

(** Loopback, unspecified, unique-local, link-local. *)
Definition v6_blocks : list (N * N) :=
  [(1, 128); (0, 128); (v6_number [0xfc00; 0; 0; 0; 0; 0; 0; 0], 7); (v6_number [0xfe80; 0; 0; 0; 0; 0; 0; 0], 10)].

Definition internal (ip : IpAddr) : Prop :=
  match ip with
  | V4 a b c d => Exists (in_block 32 (v4_number a b c d)) v4_blocks
  | V6 segs => Exists (in_block 128 (v6_number segs)) v6_blocks
  end.

Definition wf_ip (ip : IpAddr) : Prop :=
  match ip with
  | V4 a b c d => a < 256 ∧ b < 256 ∧ c < 256 ∧ d < 256
  | V6 segs => length segs = 8%nat ∧ Forall (λ x, x < 65536) segs
  end.

Ltac Zify.zify_post_hook ::= Z.to_euclidean_division_equations.

(** The leading bits of an IPv4 number, by octets. *)
Lemma v4_prefixes a b c d : wf_ip (V4 a b c d) →
  let x := v4_number a b c d in
  x / 2 ^ (32 - 8) = a ∧ x / 2 ^ (32 - 10) = a * 4 + b / 64 ∧ x / 2 ^ (32 - 12) = a * 16 + b / 16 ∧
  x / 2 ^ (32 - 16) = a * 256 + b ∧ x / 2 ^ (32 - 24) = (a * 256 + b) * 256 + c ∧ x / 2 ^ (32 - 32) = x.
Proof.
  intros (Ha & Hb & Hc & Hd) x. unfold x, v4_number.
  repeat match goal with |- context [2 ^ ?k] => let v := eval vm_compute in (2 ^ k) in change (2 ^ k) with v end.
  split_and!; lia.
Qed.

(** One of several linear facts. *)
Ltac solve_or := lazymatch goal with |- _ ∨ _ => first [left; solve_or | right; solve_or] | |- _ => lia end.

Lemma blocked_v4_internal a b c d : wf_ip (V4 a b c d) → is_blocked_v4 a b c d = true ↔ internal (V4 a b c d).
Proof.
  intros Hwf. pose proof Hwf as (Ha & Hb & Hc & Hd). destruct (v4_prefixes a b c d Hwf) as (H8 & H10 & H12 & H16 & H24 & H32).
  cbn [internal]. unfold v4_blocks. rewrite !Exists_cons, Exists_nil. unfold in_block. cbn [fst snd].
  rewrite H8, H10, H12, H16, H24, H32. clear H8 H10 H12 H16 H24 H32 Hwf. unfold is_blocked_v4.
  rewrite !orb_true_iff, !andb_true_iff, !N.eqb_eq, !N.leb_le.
  repeat match goal with |- context [v4_number ?p ?q ?r ?s / ?k] =>
    let v := eval vm_compute in (v4_number p q r s / k) in change (v4_number p q r s / k) with v end.
  change (0 / 2 ^ (32 - 32)) with 0. unfold v4_number.
  split; intros Hor; repeat match goal with H : _ ∨ _ |- _ => destruct H end; solve_or.
Qed.

(** A test on every number from [x] on. *)
Fixpoint check_from (k : nat) (x : N) (f : N → bool) : bool := match k with O => true | S k' => f x && check_from k' (x + 1) f end.

Lemma check_from_spec k x f : check_from k x f = true → ∀ y, x <= y → y < x + N.of_nat k → f y = true.
Proof.
  revert x. induction k as [|k IH]; intros x Hc y Hlo Hhi; cbn in Hc; [lia|]. apply andb_true_iff in Hc as [Hx Hc].
  destruct (decide (x = y)) as [->|]; [done|]. apply (IH (x + 1) Hc y); lia.
Qed.

Lemma mask_blocks x : x < 65536 → ((N.land x 0xfe00 =? 0xfc00) = (x / 512 =? 126)) ∧ ((N.land x 0xffc0 =? 0xfe80) = (x / 64 =? 1018)).
Proof.
  intros Hx.
  assert (check_from (N.to_nat 65536) 0 (λ x, Bool.eqb (N.land x 0xfe00 =? 0xfc00) (x / 512 =? 126) && Bool.eqb (N.land x 0xffc0 =? 0xfe80) (x / 64 =? 1018)) = true) as Hc
    by (vm_compute; reflexivity).
  pose proof (check_from_spec _ _ _ Hc x ltac:(lia) ltac:(rewrite N2Nat.id; lia)) as Hf. apply andb_true_iff in Hf as [H1 H2].
  split; by apply Bool.eqb_prop.
Qed.

Lemma v6_prefixes s0 s1 s2 s3 s4 s5 s6 s7 : wf_ip (V6 [s0; s1; s2; s3; s4; s5; s6; s7]) →
  let x := v6_number [s0; s1; s2; s3; s4; s5; s6; s7] in
  x / 2 ^ (128 - 7) = s0 / 512 ∧ x / 2 ^ (128 - 10) = s0 / 64 ∧ x / 2 ^ (128 - 128) = x ∧
  (x = 1 ↔ [s0; s1; s2; s3; s4; s5; s6; s7] = [0; 0; 0; 0; 0; 0; 0; 1]) ∧
  (x = 0 ↔ [s0; s1; s2; s3; s4; s5; s6; s7] = [0; 0; 0; 0; 0; 0; 0; 0]).
Proof.
  intros [_ Hall] x. repeat match goal with H : Forall _ (_ :: _) |- _ => apply Forall_cons in H as [? H] end.
  assert (∃ r, x = s0 * 2 ^ 112 + r ∧ r < 2 ^ 112 ∧ (r = 0 ↔ s1 = 0 ∧ s2 = 0 ∧ s3 = 0 ∧ s4 = 0 ∧ s5 = 0 ∧ s6 = 0 ∧ s7 = 0) ∧
    (r = 1 ↔ s1 = 0 ∧ s2 = 0 ∧ s3 = 0 ∧ s4 = 0 ∧ s5 = 0 ∧ s6 = 0 ∧ s7 = 1)) as (r & Hx & Hr & Hr0 & Hr1).
  { exists (v6_number [s1; s2; s3; s4; s5; s6; s7]). unfold x, v6_number. cbn [foldl]. change (2 ^ 112) with 5192296858534827628530496329220096.
    split_and!; [lia|lia|split; lia|split; lia]. }
  rewrite Hx. clearbody x. clear Hall. change (128 - 7) with (112 + 9). change (128 - 10) with (112 + 6). change (128 - 128) with 0.
  rewrite !N.pow_add_r, <- !N.Div0.div_div, N.div_add_l by done. rewrite (N.div_small r), N.add_0_r by done.
  change (2 ^ 9) with 512. change (2 ^ 6) with 64. change (2 ^ 0) with 1. rewrite N.div_1_r. split_and!; [done..| |].
  - split.
    + intros Hone. assert (s0 = 0 ∧ r = 1) as [-> Hz] by (change (2 ^ 112) with 5192296858534827628530496329220096 in *; lia).
      apply Hr1 in Hz as (-> & -> & -> & -> & -> & -> & ->). done.
    + intros [= -> -> -> -> -> -> -> ->]. assert (r = 1) as -> by (by apply Hr1). done.
  - split.
    + intros Hone. assert (s0 = 0 ∧ r = 0) as [-> Hz] by (change (2 ^ 112) with 5192296858534827628530496329220096 in *; lia).
      apply Hr0 in Hz as (-> & -> & -> & -> & -> & -> & ->). done.
    + intros [= -> -> -> -> -> -> -> ->]. assert (r = 0) as -> by (by apply Hr0). done.
Qed.

Lemma blocked_v6_internal segs : wf_ip (V6 segs) → is_blocked_v6 segs = true ↔ internal (V6 segs).
Proof.
  intros Hwf. pose proof Hwf as [Hlen Hall]. destruct segs as [|s0 [|s1 [|s2 [|s3 [|s4 [|s5 [|s6 [|s7 [|]]]]]]]]]; try done.
  destruct (v6_prefixes _ _ _ _ _ _ _ _ Hwf) as (H7 & H10 & H128 & Hone & Hzero). apply Forall_cons in Hall as [Hs0 _].
  destruct (mask_blocks s0 Hs0) as [Hm1 Hm2].
  cbn [internal]. unfold v6_blocks. rewrite !Exists_cons, Exists_nil. unfold in_block. cbn [fst snd]. rewrite H7, H10, H128.
  change (1 / 2 ^ (128 - 128)) with 1. change (0 / 2 ^ (128 - 128)) with 0.
  change (v6_number [0xfc00; 0; 0; 0; 0; 0; 0; 0] / 2 ^ (128 - 7)) with 126.
  change (v6_number [0xfe80; 0; 0; 0; 0; 0; 0; 0] / 2 ^ (128 - 10)) with 1018.
  rewrite Hone, Hzero. unfold is_blocked_v6. change (default 0 (head [s0; s1; s2; s3; s4; s5; s6; s7])) with s0. rewrite Hm1, Hm2.
  rewrite <- (N.eqb_eq (s0 / 512)), <- (N.eqb_eq (s0 / 64)).
  repeat case_bool_decide; cbn [orb]; rewrite ?orb_true_iff; tauto.
Qed.

Lemma ip_is_blocked_internal ip : wf_ip ip → ip_is_blocked ip = true ↔ internal ip.
Proof. destruct ip; [apply blocked_v4_internal|apply blocked_v6_internal]. Qed.

(** ** What the parser yields *)

Lemma read_number_bound radix k bound z l v rest : read_number radix k bound z l = Some (v, rest) → v < bound.
Proof.
  unfold read_number. destruct (read_digits radix 0 0 l) as [[v' n] rest']. case_match eqn:Hc; [done|]. intros [= <- _].
  apply orb_false_iff in Hc as [_ Hc]. by apply N.leb_gt.
Qed.

Lemma read_separator_inv {A} sep first (inner : bytes → option (A * bytes)) l x :
  read_separator sep first inner l = Some x → ∃ l', inner l' = Some x.
Proof. unfold read_separator. destruct first; [by eauto|]. destruct l as [|b l]; [done|]. case_bool_decide; [by eauto|done]. Qed.

Lemma read_ipv4_wf l a b c d rest : read_ipv4 l = Some (a, b, c, d, rest) → wf_ip (V4 a b c d).
Proof.
  assert (∀ first l v rest, read_octet first l = Some (v, rest) → v < 256) as Ho.
  { intros first l0 v r [l' Hl]%read_separator_inv. by eapply read_number_bound. }
  unfold read_ipv4. intros Hr. repeat (apply bind_Some in Hr as ([] & ?%Ho & Hr)). by simplify_eq.
Qed.

Lemma read_groups_wf left first l gs v4 rest : read_groups left first l = (gs, v4, rest) →
  Forall (λ x, x < 65536) gs ∧ (length gs <= left)%nat.
Proof.
  revert first l gs v4 rest. induction left as [|left IH]; intros first l gs v4 rest; cbn [read_groups]; [by intros [= <- _ _]|].
  destruct (if (1 <? S left)%nat then _ else _) as [[[[[a b] c] d] rest4]|] eqn:H4.
  - intros [= <- _ _]. destruct (Nat.ltb_spec 1 (S left)); [|done].
    apply read_separator_inv in H4 as (l' & ([[[[a' b'] c'] d'] r] & Hv4 & Heq)%bind_Some). cbn in Heq. simplify_eq.
    apply read_ipv4_wf in Hv4 as (? & ? & ? & ?). split; [|cbn; lia]. repeat constructor; lia.
  - destruct (read_separator x3a first (read_number 16 4 65536 true) l) as [[g rest1]|] eqn:Hg.
    2: { intros Heq. simplify_eq. split; [constructor|cbn; lia]. }
    destruct (read_groups left false rest1) as [[gs' v4'] rest'] eqn:Hrec. intros [= <- _ _].
    apply IH in Hrec as [Hall Hlen]. apply read_separator_inv in Hg as (l' & Hnum%read_number_bound). split; [by constructor|cbn; lia].
Qed.

Lemma read_ipv6_wf l segs rest : read_ipv6 l = Some (segs, rest) → wf_ip (V6 segs).
Proof.
  unfold read_ipv6. destruct (read_groups 8 true l) as [[hd v4] r1] eqn:Hh. apply read_groups_wf in Hh as [Hall Hlen].
  destruct (Nat.eqb_spec (length hd) 8) as [Heq|Hne]; [intros [= <- _]; by split|]. destruct v4; [done|].
  destruct r1 as [|b1 r1]; [done|]. destruct b1; try done. destruct r1 as [|b2 r2]; [done|]. destruct b2; try done. destruct (read_groups _ true r2) as [[tl v4'] r3] eqn:Ht.
  apply read_groups_wf in Ht as [Hall' Hlen']. intros [= <- _]. split.
  - rewrite !length_app, length_replicate. lia.
  - rewrite !Forall_app. split_and!; [done| |done]. by apply Forall_replicate.
Qed.

Lemma parse_ip_wf l ip : parse_ip l = Some ip → wf_ip ip.
Proof.
  unfold parse_ip. destruct (read_ipv4 l) as [[[[[a b] c] d] rest]|] eqn:H4.
  - case_bool_decide; [|done]. intros [= <-]. by eapply read_ipv4_wf.
  - destruct (read_ipv6 l) as [[segs rest]|] eqn:H6; [|done]. case_bool_decide; [|done]. intros [= <-]. by eapply read_ipv6_wf.
Qed.

(** ** The guard lets public hosts through *)

Section theorems.
Context `{Idna}.

(** A host a URL may name: no local name and no internal literal. *)
Definition public_host (host : bytes) : Prop :=
  host ≠ [] ∧ host ≠ string_bytes "localhost" ∧ (∀ p, host ≠ p ++ string_bytes ".localhost") ∧
  ∀ ip, parse_ip (unbracket host) = Some ip → ¬ internal ip.

Lemma ends_with_false p l : ends_with p l = false → ∀ k, l ≠ k ++ p.
Proof.
  unfold ends_with, strip_suffix. intros He k ->. rewrite rev_app_distr, strip_prefix_app in He. done.
Qed.

Lemma is_blocked_host_false host : is_blocked_host host = false → host ≠ [] → public_host host.
Proof.
  unfold is_blocked_host. destruct (bool_decide (host = string_bytes "localhost")) eqn:Hl; [done|]. apply bool_decide_eq_false in Hl.
  destruct (ends_with _ host) eqn:He; [done|]. cbn [orb]. intros Hb Hne. split_and!; [done|done|by apply ends_with_false|].
  intros ip Hip. rewrite Hip in Hb. rewrite <- ip_is_blocked_internal by by eapply parse_ip_wf. by rewrite Hb.
Qed.

Lemma check_url_public raw c : check_url raw = Ok c →
  (cu_scheme c = string_bytes "http" ∨ cu_scheme c = string_bytes "https") ∧ public_host (cu_host c) ∧ cu_url c = trim raw.
Proof.
  unfold check_url. destruct (split_once _ _) as [[scheme rest]|]; [|done].
  destruct (bool_decide (to_ascii_lowercase scheme = string_bytes "http")) eqn:H1;
    destruct (bool_decide (to_ascii_lowercase scheme = string_bytes "https")) eqn:H2; cbn [negb andb]; try done.
  all: destruct (bool_decide (normalize_host _ = [])) eqn:Hn; [done|]; apply bool_decide_eq_false in Hn; destruct (is_blocked_host _) eqn:Hb; [done|]; intros [= <-]; cbn [cu_scheme cu_host cu_url].
  all: split_and!; [|by apply is_blocked_host_false|done].
  all: try apply bool_decide_eq_true in H1; try apply bool_decide_eq_true in H2; auto.
Qed.

Theorem resolved_hosts_public raw resolve c :
  check_url_resolved_with raw resolve = Ok c →
  (cu_scheme c = string_bytes "http" ∨ cu_scheme c = string_bytes "https") ∧ public_host (cu_host c) ∧
  (parse_ip (unbracket (cu_host c)) = None → ∀ addrs ip, resolve (cu_host c) = Some addrs → ip ∈ addrs → wf_ip ip → ¬ internal ip).
Proof.
  unfold check_url_resolved_with. destruct (check_url raw) as [c'|] eqn:Hc; [|done]. apply check_url_public in Hc as (Hs & Hp & _).
  destruct (parse_ip _) as [ip|] eqn:Hip; [intros [= <-]; by rewrite Hip|].
  destruct (resolve (cu_host c')) as [addrs|] eqn:Hr; [|intros [= <-]; by rewrite Hr].
  destruct (existsb ip_is_blocked addrs) eqn:Hex; [done|]. intros [= <-]. split_and!; [done|done|].
  intros _ addrs' ip Ha Hin Hwf. rewrite Hr in Ha. injection Ha as <-. rewrite <- ip_is_blocked_internal by done. intros Hb.
  enough (existsb ip_is_blocked addrs = true) by congruence. apply existsb_exists. exists ip. split; [by apply list_elem_of_In|done].
Qed.
End theorems.

(** ** Literals and spellings the guard does not see

    The HTTP client reads a URL by the WHATWG rules, which take a backslash for a slash,
    an empty port for none, a number for an address, and decode percent signs in a host. *)

Section spellings.
#[local] Instance ascii_idna : Idna := Some.
Definition host_passed (url : string) : option string :=
  match check_url (string_bytes url) with Ok c => Some (String.string_of_list_byte (cu_host c)) | Err _ => None end.

Example mapped_loopback_passes :
  host_passed "http://[::ffff:127.0.0.1]/" = Some "[::ffff:127.0.0.1]" ∧
  host_passed "http://[::ffff:a9fe:a9fe]/latest/meta-data/" = Some "[::ffff:a9fe:a9fe]".
Proof. split; vm_compute; reflexivity. Qed.

Example client_spellings_pass :
  host_passed "http://127.0.0.1\@example.com/" = Some "example.com" ∧
  host_passed "http://127.0.0.1:/" = Some "127.0.0.1:" ∧
  host_passed "http://2130706433/" = Some "2130706433" ∧
  host_passed "http://0x7f.1/" = Some "0x7f.1" ∧
  host_passed "http://%6cocalhost/" = Some "%6cocalhost".
Proof. split_and!; vm_compute; reflexivity. Qed.

Example benchmarking_passes : host_passed "http://198.18.0.1/" = Some "198.18.0.1".
Proof. vm_compute. reflexivity. Qed.

Example literals_stopped :
  host_passed "http://169.254.169.254/latest/meta-data/" = None ∧ host_passed "http://[fe80::1]/" = None ∧
  host_passed "http://LOCALHOST.:80/" = None ∧ host_passed "http://user@10.0.0.5:8080/" = None.
Proof. split_and!; vm_compute; reflexivity. Qed.

Lemma resolved_hosts_public_witness :
  public_host (string_bytes "example.com") ∧ ¬ internal (V4 93 184 216 34).
Proof.
  destruct (resolved_hosts_public (string_bytes "https://example.com:8443/x") (λ _, Some [V4 93 184 216 34])
    (mkCheckedUrl (string_bytes "https") (string_bytes "example.com") (string_bytes "https://example.com:8443/x"))) as (_ & Hp & Hr).
  - vm_compute. reflexivity.
  - split; [exact Hp|]. apply (Hr ltac:(vm_compute; reflexivity) [V4 93 184 216 34]); [done|left|cbn; lia].
Defined.
End spellings.
