(* ===== verification/Egress.v ===== *)
(** * The outbound HTTP client ([daemon-egress/src/lib.rs])

    Requests follow redirects by hand: every hop passes the URL guard, credentials do not
    cross an origin, and the number of hops is capped.  The [url] crate is the class
    [UrlLib], the HTTP client without redirects the function [send]. *)

From S2P Require Import Prelude Text ModelCall UrlSafety.
#[local] Open Scope daemon_scope.
#[local] Open Scope N_scope.

Inductive Redirects := NoRedirects | FollowValidated (max_hops : nat).
Definition Redirects_DEFAULT : Redirects := FollowValidated 5.

Inductive TransportFaultKind := FaultConnect | FaultTimeout | FaultReset | FaultOther.

Inductive EgressError :=
| Blocked (reject : UrlReject)
| BadRedirect (status : N)
| TooManyRedirects (limit : nat)
| InvalidUrl (detail : bytes)
| Encode (detail : bytes)
| Transport (kind : TransportFaultKind) (detail : bytes).

(** What [reqwest::Error] tells of itself: its predicates, and the kinds of the I/O errors
    in its chain of sources, the first of which decides. *)
Record SendError := mkSendError {
  se_timeout : bool; se_connect : bool; se_io_resets : list bool; se_text : bytes }.

Definition io_reset (e : SendError) : bool := default false (head (se_io_resets e)).

Definition transport_fault (e : SendError) : EgressError :=
  Transport (if se_timeout e then FaultTimeout else if se_connect e then FaultConnect else if io_reset e then FaultReset else FaultOther)
    (se_text e).

Inductive Method := GET | POST | PUT | DELETE.
#[export] Instance Method_eq_dec : EqDecision Method.
Proof. solve_decision. Defined.

(** A header map holds one value per lower-case name. *)
Abbreviation HeaderMap := (gmap string bytes).
Definition CREDENTIAL_HEADERS : list string := ["authorization"; "cookie"; "proxy-authorization"].

Record EgressRequest := mkEgressRequest {
  er_method : Method; er_url : bytes; er_headers : HeaderMap; er_body : option bytes }.

Definition EgressRequest_get (url : bytes) : EgressRequest := mkEgressRequest GET url ∅ None.
Definition EgressRequest_put (url body : bytes) : EgressRequest := mkEgressRequest PUT url ∅ (Some body).
Definition EgressRequest_post (url body : bytes) : EgressRequest := mkEgressRequest POST url ∅ (Some body).
Definition EgressRequest_delete (url body : bytes) : EgressRequest := mkEgressRequest DELETE url ∅ (Some body).

(** [name_of]: the lower-case form of a well-formed header name; [valid]: a header value of
    visible bytes. *)
Definition set_header (name_of : bytes → option string) (valid : bytes → bool) (name value : bytes) (r : EgressRequest) : EgressRequest :=
  match name_of name with
  | Some n => if valid value then mkEgressRequest (er_method r) (er_url r) (<[n := value]> (er_headers r)) (er_body r) else r
  | None => r
  end.

Definition bearer_auth (valid : bytes → bool) (token : bytes) (r : EgressRequest) : EgressRequest :=
  let v := string_bytes "Bearer " ++ token in
  if valid v then mkEgressRequest (er_method r) (er_url r) (<["authorization" := v]> (er_headers r)) (er_body r) else r.

Class UrlLib := {
  Url : Type;
  url_parse : bytes → result bytes Url;
  url_join : Url → bytes → result bytes Url;
  url_str : Url → bytes;
  url_scheme : Url → bytes;
  url_host : Url → option bytes;
  url_port : Url → option N
}.

Record Response := mkResponse { rp_status : N; rp_location : option bytes; rp_body : bytes }.

Definition is_redirection (status : N) : bool := (300 <=? status) && (status <? 400).

Definition strip_credentials (headers : HeaderMap) : HeaderMap := foldl (λ h name, delete name h) headers CREDENTIAL_HEADERS.

Definition rewrite_method_for_redirect (status : N) (method : Method) (body : option bytes) : Method * option bytes :=
  if ((status =? 301) || (status =? 302) || (status =? 303)) && bool_decide (method = POST) then (GET, None) else (method, body).

Section client.
Context `{Idna} `{UrlLib}.

(** A request as it leaves the node. *)
Record Sent := mkSent { st_method : Method; st_url : Url; st_headers : HeaderMap; st_body : option bytes }.

Definition same_origin (a b : Url) : bool :=
  bool_decide (url_scheme a = url_scheme b) && bool_decide (url_host a = url_host b) && bool_decide (url_port a = url_port b).

Definition resolve_next_hop (current : Url) (location : bytes) : result EgressError Url :=
  match url_join current location with
  | Err e => Err (InvalidUrl (string_bytes "invalid redirect location: " ++ e))
  | Ok next => match check_url (url_str next) with Err reject => Err (Blocked reject) | Ok _ => Ok next end
  end.

Context {W : Type} (send : Sent → W → result SendError Response * W).

(** The loop from the hop with [left] more hops allowed; also the requests it sent. *)
Fixpoint follow (left : nat) (redirects : Redirects) (max_hops : nat) (rq : Sent) (w : W)
    : result EgressError Response * list Sent * W :=
  let '(r, w) := send rq w in
  match r with
  | Err e => (Err (transport_fault e), [rq], w)
  | Ok resp =>
      if negb (is_redirection (rp_status resp)) then (Ok resp, [rq], w)
      else
        match redirects, left with
        | NoRedirects, _ => (Ok resp, [rq], w)
        | _, O => (Err (TooManyRedirects max_hops), [rq], w)
        | _, S left' =>
            match rp_location resp with
            | None => (Err (BadRedirect (rp_status resp)), [rq], w)
            | Some location =>
                match resolve_next_hop (st_url rq) location with
                | Err e => (Err e, [rq], w)
                | Ok next =>
                    let headers := if same_origin (st_url rq) next then st_headers rq else strip_credentials (st_headers rq) in
                    let '(method, body) := rewrite_method_for_redirect (rp_status resp) (st_method rq) (st_body rq) in
                    let '(res, log, w) := follow left' redirects max_hops (mkSent method next headers body) w in
                    (res, rq :: log, w)
                end
            end
        end
  end.

Definition execute (req : EgressRequest) (redirects : Redirects) (w : W) : result EgressError Response * list Sent * W :=
  let max_hops := match redirects with NoRedirects => O | FollowValidated max_hops => max_hops end in
  match url_parse (er_url req) with
  | Err e => (Err (InvalidUrl e), [], w)
  | Ok url => follow max_hops redirects max_hops (mkSent (er_method req) url (er_headers req) (er_body req)) w
  end.

Definition client_get (url : bytes) (redirects : Redirects) : W → result EgressError Response * list Sent * W :=
  execute (EgressRequest_get url) redirects.
Definition client_put (url body : bytes) (redirects : Redirects) : W → result EgressError Response * list Sent * W :=
  execute (EgressRequest_put url body) redirects.

(** ** What leaves the node *)

Definition carries_credentials (h : HeaderMap) : Prop := Exists (λ name, is_Some (h !! name)) CREDENTIAL_HEADERS.

Lemma strip_credentials_none h : ¬ carries_credentials (strip_credentials h).
Proof.
  unfold carries_credentials, strip_credentials, CREDENTIAL_HEADERS. cbn [foldl]. rewrite !Exists_cons, Exists_nil.
  intros [[v Hv]|[[v Hv]|[[v Hv]|[]]]].
  all: repeat (rewrite lookup_delete_eq in Hv || rewrite lookup_delete_ne in Hv by done); done.
Qed.

Lemma strip_credentials_sub h : strip_credentials h ⊆ h.
Proof. unfold strip_credentials. cbn [CREDENTIAL_HEADERS foldl]. etrans; [apply delete_subseteq|]. etrans; apply delete_subseteq. Qed.

Lemma same_origin_spec a b : same_origin a b = true ↔ url_scheme a = url_scheme b ∧ url_host a = url_host b ∧ url_port a = url_port b.
Proof. unfold same_origin. rewrite !andb_true_iff, !bool_decide_eq_true. tauto. Qed.

(** A chain of requests from [rq]: each later one goes to a checked URL, with no header
    its predecessor did not have, and with credentials only while the origin stays. *)
Inductive chain : list Sent → Prop :=
| chain_one rq : chain [rq]
| chain_next rq rq' log :
    chain (rq' :: log) → (∃ c, check_url (url_str (st_url rq')) = Ok c) → st_headers rq' ⊆ st_headers rq →
    (carries_credentials (st_headers rq') → same_origin (st_url rq) (st_url rq') = true) →
    chain (rq :: rq' :: log).

Lemma follow_chain left redirects max_hops rq w res log w' :
  follow left redirects max_hops rq w = (res, log, w') →
  ∃ rest, log = rq :: rest ∧ chain log ∧ (length rest <= left)%nat ∧ (redirects = NoRedirects → rest = []).
Proof.
  revert rq w res log w'. induction left as [|left IH]; intros rq w res log w'; cbn [follow].
  all: destruct (send rq w) as [[resp|e] w1]; [|intros [= _ <- _]; exists []; split_and!; [done|constructor|cbn; lia|done]].
  all: destruct (negb _); [intros [= _ <- _]; exists []; split_and!; [done|constructor|cbn; lia|done]|].
  all: destruct redirects as [|hops]; [intros [= _ <- _]; exists []; split_and!; [done|constructor|cbn; lia|done]|].
  { intros [= _ <- _]; exists []; split_and!; [done|constructor|cbn; lia|done]. }
  destruct (rp_location resp) as [loc|]; [|intros [= _ <- _]; exists []; split_and!; [done|constructor|cbn; lia|done]].
  destruct (resolve_next_hop _ _) as [next|e] eqn:Hnext; [|intros [= _ <- _]; exists []; split_and!; [done|constructor|cbn; lia|done]].
  destruct (rewrite_method_for_redirect _ _ _) as [method body]. set (rq' := mkSent _ _ _ _).
  destruct (follow left _ _ rq' w1) as [[res1 log1] w2] eqn:Hf. intros [= _ <- _].
  destruct (IH _ _ _ _ _ Hf) as (rest & -> & Hchain & Hlen & _). exists (rq' :: rest). split_and!; [done| |cbn; lia|done].
  constructor; [done|..]; unfold rq'; cbn.
  - unfold resolve_next_hop in Hnext. destruct (url_join _ _); [|done]. destruct (check_url _) eqn:Hc; [|done]. simplify_eq. by eexists.
  - destruct (same_origin _ _); [done|apply strip_credentials_sub].
  - destruct (same_origin _ _); [done|]. by intros ?%strip_credentials_none.
Qed.

Lemma carries_sub h h' : h ⊆ h' → carries_credentials h → carries_credentials h'.
Proof.
  intros Hs. unfold carries_credentials. rewrite !Exists_exists. intros (name & Hin & v & Hv). exists name. split; [done|]. exists v.
  by eapply lookup_weaken.
Qed.

Lemma chain_spec log first i rq : chain log → head log = Some first → log !! i = Some rq →
  ((0 < i)%nat → ∃ c, check_url (url_str (st_url rq)) = Ok c) ∧ st_headers rq ⊆ st_headers first ∧
  (carries_credentials (st_headers rq) → same_origin (st_url first) (st_url rq) = true).
Proof.
  intros Hc. revert first i. induction Hc as [rq0|rq0 rq1 log Hc IH Hurl Hsub Hcred]; intros first i [= ->] Hi.
  - destruct i; [|done]. injection Hi as ->. split_and!; [lia|done|]. intros _. by apply same_origin_spec.
  - destruct i as [|i]; [injection Hi as ->; split_and!; [lia|done|intros _; by apply same_origin_spec]|].
    destruct (IH rq1 i eq_refl Hi) as (Hu & Hs & Hd). split_and!; [|by etrans|].
    + intros _. destruct i; [|by apply Hu; lia]. injection Hi as ->. exact Hurl.
    + intros Hcar. specialize (Hcred (carries_sub _ _ Hs Hcar)). specialize (Hd Hcar).
      apply same_origin_spec in Hcred as (? & ? & ?), Hd as (? & ? & ?). apply same_origin_spec. split_and!; congruence.
Qed.

(** C30. What leaves the node.  Whatever the servers answer, a request is sent at most
    [max_hops] times more than once, and only once when redirects are off; the first goes
    to the URL of the caller with its headers, every other one to a URL that passed the
    guard, whose host is no name of the local host and no literal of an internal block; no
    request has a header the caller did not give, and one
    that carries an [Authorization], [Cookie] or [Proxy-Authorization] header goes to the
    origin of the first. *)
Theorem redirects_confined req redirects w res log w' :
  execute req redirects w = (res, log, w') →
  (length log <= S (match redirects with NoRedirects => 0 | FollowValidated max_hops => max_hops end))%nat ∧
  ∀ i rq, log !! i = Some rq →
    ∃ first, url_parse (er_url req) = Ok first ∧ st_headers rq ⊆ er_headers req ∧
      (i = 0%nat → st_url rq = first ∧ st_headers rq = er_headers req ∧ st_method rq = er_method req ∧ st_body rq = er_body req) ∧
      ((0 < i)%nat → ∃ c, check_url (url_str (st_url rq)) = Ok c ∧ public_host (cu_host c)) ∧
      (carries_credentials (st_headers rq) → same_origin first (st_url rq) = true).
Proof.
  unfold execute. destruct (url_parse _) as [first|]; [|intros [= _ <- _]; split; [cbn; lia|by intros ? ? ?]].
  intros Hf. destruct (follow_chain _ _ _ _ _ _ _ _ Hf) as (rest & -> & Hchain & Hlen & _). split; [by cbn; lia|].
  intros i rq Hi. exists first. destruct (chain_spec _ _ _ _ Hchain eq_refl Hi) as (Hurl & Hsub & Hcred). split_and!; [done..| | |done].
  - intros ->. by injection Hi as <-.
  - intros Hpos. destruct (Hurl Hpos) as [c Hc]. exists c. split; [done|]. by apply check_url_public in Hc as (_ & ? & _).
Qed.
End client.

(** ** A run *)

Section run.
#[local] Instance plain_idna : Idna := Some.
(** Absolute URLs with their text. *)
#[local] Instance toy_urls : UrlLib := {|
  Url := bytes;
  url_parse := Ok;
  url_join _ l := Ok l;
  url_str u := u;
  url_scheme u := match split_once (string_bytes "://") u with Some (s, _) => s | None => [] end;
  url_host u := match split_once (string_bytes "://") u with Some (_, r) => Some (until (string_bytes "/") r) | None => None end;
  url_port _ := None
|}.

(** A server that answers every request but the last with the next redirect. *)
Definition scripted (_ : Sent) (script : list (N * string)) : result SendError Response * list (N * string) :=
  match script with
  | (status, loc) :: script => (Ok (mkResponse status (Some (string_bytes loc)) []), script)
  | [] => (Ok (mkResponse 200 None []), [])
  end.

Definition toy_request : EgressRequest :=
  bearer_auth (λ _, true) (string_bytes "token") (EgressRequest_post (string_bytes "https://api.example.com/a") (string_bytes "body")).

Definition toy_run (script : list (N * string)) : result EgressError Response * list Sent * list (N * string) :=
  execute scripted toy_request Redirects_DEFAULT script.

(** The token stays with its origin; the internal address is refused. *)
Example toy_runs :
  (λ s, (st_url s, st_headers s !! "authorization", st_body s)) <$> (toy_run [(307, "https://api.example.com/b"); (302, "https://cdn.example.net/c")]).1.2 =
    [(string_bytes "https://api.example.com/a", Some (string_bytes "Bearer token"), Some (string_bytes "body"));
     (string_bytes "https://api.example.com/b", Some (string_bytes "Bearer token"), Some (string_bytes "body"));
     (string_bytes "https://cdn.example.net/c", None, None)] ∧
  (toy_run [(302, "http://169.254.169.254/")]).1.1 = Err (Blocked (PrivateHost (string_bytes "169.254.169.254"))).
Proof. split; vm_compute; reflexivity. Qed.

(** A [303] answer to a [PUT] does not demote it: the upload is sent again, here to
    another host. *)
Example put_not_demoted :
  (λ s, (st_url s, st_method s, st_body s)) <$>
    (execute scripted (EgressRequest_put (string_bytes "https://store.example.com/o") (string_bytes "data")) Redirects_DEFAULT
      [(303, "https://cdn.example.net/o")]).1.2 =
  [(string_bytes "https://store.example.com/o", PUT, Some (string_bytes "data"));
   (string_bytes "https://cdn.example.net/o", PUT, Some (string_bytes "data"))].
Proof. vm_compute. reflexivity. Qed.

Lemma redirects_confined_witness :
  let log := (toy_run [(302, "https://cdn.example.net/c")]).1.2 in
  (length log <= 6)%nat ∧ ∃ rq, log !! 1%nat = Some rq ∧ ∃ c, check_url (url_str (st_url rq)) = Ok c ∧ public_host (cu_host c).
Proof.
  cbv zeta. destruct (toy_run [(302, "https://cdn.example.net/c")]) as [[res log] w'] eqn:Hrun. cbn [fst snd].
  destruct (redirects_confined scripted toy_request Redirects_DEFAULT [(302, "https://cdn.example.net/c")] res log w' Hrun) as [Hlen Hall]. split; [exact Hlen|].
  destruct (log !! 1%nat) as [rq|] eqn:Hrq.
  - exists rq. split; [done|]. destruct (Hall 1%nat rq Hrq) as (first & _ & _ & _ & Hpub & _). apply Hpub. lia.
  - exfalso. vm_compute in Hrun. injection Hrun as <- <- <-. done.
Defined.
End run.
