(* ===== verification/Gates.v ===== *)
(** * Approval gates and the host's answers

    [daemon-core/src/approval.rs] and the gates of [daemon-core/src/turn.rs], through which
    a tool asks before it edits a file or runs a command; and the handlers of
    [daemon-host/src/engine_incarnation.rs] that answer: the headless one, which parks
    every approval for an operator, and the one of an attached client. *)

From S2P Require Import Prelude Text Common ModelCall Engine.
From Stdlib Require Import Strings.Byte.
#[local] Open Scope daemon_scope.
#[local] Open Scope N_scope.

(** ** Policies *)

Inductive Decision := DAllow | DDeny | DAsk.

(** The names of [Path::components] on Unix: empty parts and dots are dropped. *)
Fixpoint split_slash (part l : bytes) : list bytes :=
  match l with
  | [] => [rev part]
  | b :: l' => if bool_decide (b = x2f) then rev part :: split_slash [] l' else split_slash (b :: part) l'
  end.
Definition components (path : bytes) : list bytes :=
  List.filter (λ c, negb (bool_decide (c = [])) && negb (bool_decide (c = [x2e]))) (split_slash [] path).

(** [Path::file_name]: the last component unless it is a parent. *)
Definition file_name (path : bytes) : option bytes :=
  match last (components path) with
  | Some c => if bool_decide (c = [x2e; x2e]) then None else Some c
  | None => None
  end.

Definition SENSITIVE_NAMES : list bytes :=
  string_bytes <$> [".env"; ".env.local"; ".env.production"; "id_rsa"; "id_ed25519"].

(** No character outside ASCII has a lower-case form with which a name could equal one of
    these, so [str::to_lowercase] is taken on ASCII. *)
Definition is_sensitive_path (path : bytes) : bool :=
  if existsb (λ c, let part := to_ascii_lowercase c in
                   bool_decide (part = string_bytes ".git") || bool_decide (part = string_bytes ".ssh")) (components path) then true
  else match file_name path with Some name => bool_decide (to_ascii_lowercase name ∈ SENSITIVE_NAMES) | None => false end.

Definition decide_edit (policy : ApprovalPolicy) (path : bytes) : Decision :=
  match policy with
  | Deny => DDeny
  | Ask => DAsk
  | AcceptEdits | AutoAllow => if is_sensitive_path path then DAsk else DAllow
  end.

Definition decide_command (policy : ApprovalPolicy) : Decision :=
  match policy with Deny => DDeny | Ask | AcceptEdits => DAsk | AutoAllow => DAllow end.

(** ** Requests to the host *)

Record Budget := mkBudget { bu_tokens : option N; bu_wall_ms : option N }.
Definition Budget_unlimited : Budget := mkBudget None None.

Inductive HostRequestKind :=
| ReqApproval (prompt : bytes) (allow_permanent_offered : bool)
| ReqInput (prompt : bytes)
| ReqChoice (prompt : bytes) (options : list bytes)
| ReqDelegate (label : bytes) (budget : Budget)
| ReqSpawn (spec : SpawnSpec).

Inductive HostResponseBody :=
| RespApproved (approved allow_permanent : bool) (reason : option bytes)
| RespInput (text : bytes)
| RespChosen (index : N)
| RespDelegated (job : JobId)
| RespSpawned (child : SessionId)
| RespDeferred (job : JobId).

Inductive Gate := Proceed (permanent : bool) | Reject (reason : bytes) | Defer (job : JobId).

Definition deny_reason (reason : option bytes) : bytes :=
  match reason with
  | Some r => if bool_decide (trim r = []) then string_bytes "denied by operator" else string_bytes "denied by operator: " ++ r
  | None => string_bytes "denied by operator"
  end.

Section gates.
(** A host with its state. *)
Context {H : Type} (request : HostRequestKind → H → HostResponseBody * H).

Definition ask_host (cx : RunCx) (prompt : bytes) (fingerprint : option CommandFingerprint) (h : H) : Gate * H :=
  let offered := match fingerprint with Some _ => true | None => false end in
  if match fingerprint with Some fp => bool_decide (fp ∈ rc_session_allow cx) | None => false end then (Proceed false, h)
  else
    let '(resp, h) := request (ReqApproval prompt offered) h in
    (match resp with
     | RespApproved true allow_permanent _ => Proceed (allow_permanent && offered)
     | RespApproved false _ reason => Reject (deny_reason reason)
     | RespDeferred job => Defer job
     | _ => Reject (string_bytes "approval not granted")
     end, h).

Definition by_policy (cx : RunCx) (d : Decision) (prompt : bytes) (fingerprint : option CommandFingerprint) (h : H) : Gate * H :=
  if rc_pre_approved cx then (Proceed false, h)
  else match d with
       | DAllow => (Proceed false, h)
       | DDeny => (Reject (string_bytes "denied by approval policy"), h)
       | DAsk => ask_host cx prompt fingerprint h
       end.

Definition approve_path (cx : RunCx) (path prompt : bytes) : H → Gate * H :=
  by_policy cx (decide_edit (rc_approval_policy cx) path) prompt None.

Definition approve_command (cx : RunCx) (prompt : bytes) (fingerprint : option CommandFingerprint) : H → Gate * H :=
  by_policy cx (decide_command (rc_approval_policy cx)) prompt fingerprint.

Definition approve_shell_command (cx : RunCx) (prompt : bytes) (fingerprint : option CommandFingerprint) : H → Gate * H :=
  by_policy cx (match rc_approval_policy cx with Deny => DDeny | _ => DAsk end) prompt fingerprint.
End gates.

(** ** The headless handler *)

(** [DelegateResolver]; the spawner's child, if it makes one, is a function. *)
Record DelegateResolver := mkDelegateResolver {
  dr_session_id : SessionId;
  dr_epoch : Epoch;
  dr_spawn : option (SpawnSpec → option SessionId);
  dr_approval_seq : N
}.

#[export] Instance eta_DelegateResolver : Eta DelegateResolver := λ d,
  mkDelegateResolver (dr_session_id d) (dr_epoch d) (dr_spawn d) (dr_approval_seq d).

Definition decimal_string (x : N) : string := String.string_of_list_byte (decimal x).

Definition delegate_job (d : DelegateResolver) : JobId :=
  (dr_session_id d +:+ ":" +:+ decimal_string (Epoch_next (dr_epoch d)) +:+ ":job")%string.
Definition approval_job (d : DelegateResolver) (seq : N) : JobId :=
  (dr_session_id d +:+ ":" +:+ decimal_string (Epoch_next (dr_epoch d)) +:+ ":approval:" +:+ decimal_string seq)%string.

Definition delegate_request (req : HostRequestKind) (d : DelegateResolver) : HostResponseBody * DelegateResolver :=
  match req with
  | ReqDelegate _ _ => (RespDelegated (delegate_job d), d)
  | ReqSpawn spec =>
      (RespSpawned (match dr_spawn d with Some spawn => default (dr_session_id d) (spawn spec) | None => dr_session_id d end), d)
  | ReqApproval _ _ => (RespDeferred (approval_job d (dr_approval_seq d)), d <| dr_approval_seq := wrap32 (dr_approval_seq d + 1) |>)
  | ReqInput _ => (RespInput [], d)
  | ReqChoice _ _ => (RespChosen 0, d)
  end.

(** [HubParkingResolver]: what blocks parks on the hub of the attached client. *)
Definition parking_request {H} (park : HostRequestKind → H → HostResponseBody * H) (req : HostRequestKind)
    (s : H * DelegateResolver) : HostResponseBody * (H * DelegateResolver) :=
  match req with
  | ReqInput _ | ReqChoice _ _ | ReqApproval _ _ => let '(r, h) := park req s.1 in (r, (h, s.2))
  | _ => let '(r, d) := delegate_request req s.2 in (r, (s.1, d))
  end.

(** ** What a gate lets through *)

Inductive Gated :=
| EditAt (path : bytes)
| RunCommand (fingerprint : option CommandFingerprint)
| RunShell (fingerprint : option CommandFingerprint).

Definition key_of (g : Gated) : option CommandFingerprint := match g with EditAt _ => None | RunCommand fp | RunShell fp => fp end.

Section verdicts.
Context {H : Type} (request : HostRequestKind → H → HostResponseBody * H).

Definition gate (cx : RunCx) (g : Gated) (prompt : bytes) : H → Gate * H :=
  match g with
  | EditAt path => approve_path request cx path prompt
  | RunCommand fp => approve_command request cx prompt fp
  | RunShell fp => approve_shell_command request cx prompt fp
  end.

(** Actions a policy allows without asking: no sensitive path, no shell string. *)
Definition waved (policy : ApprovalPolicy) (g : Gated) : Prop :=
  match g with
  | EditAt path => (policy = AcceptEdits ∨ policy = AutoAllow) ∧ is_sensitive_path path = false
  | RunCommand _ => policy = AutoAllow
  | RunShell _ => False
  end.

(** The operator allowed the command of this fingerprint for the session. *)
Definition remembered (cx : RunCx) (g : Gated) : Prop := ∃ fp, key_of g = Some fp ∧ fp ∈ rc_session_allow cx.

(** The host granted this very request. *)
Definition granted (g : Gated) (prompt : bytes) (h : H) (permanent : bool) (h' : H) : Prop :=
  ∃ offered perm reason, offered = bool_decide (is_Some (key_of g)) ∧
    request (ReqApproval prompt offered) h = (RespApproved true perm reason, h') ∧ permanent = perm && offered.

Lemma ask_host_proceed cx prompt g permanent h h' :
  ask_host request cx prompt (key_of g) h = (Proceed permanent, h') →
  (permanent = false ∧ h' = h ∧ remembered cx g) ∨ granted g prompt h permanent h'.
Proof.
  unfold ask_host, granted, remembered. destruct (key_of g) as [fp|].
  - case_bool_decide; [intros [= <- <-]; left; by eauto|].
    destruct (request _ h) as [[[] perm reason| | | | |] h1] eqn:Hr; try done. intros [= <- <-]. right. by eexists _, _, _.
  - destruct (request _ h) as [[[] perm reason| | | | |] h1] eqn:Hr; try done. intros [= <- <-]. right. by eexists _, _, _.
Qed.

(** The gate as one cascade. *)
Lemma gate_cases cx g prompt h :
  gate cx g prompt h =
    if rc_pre_approved cx then (Proceed false, h)
    else match rc_approval_policy cx, g with
         | Deny, _ => (Reject (string_bytes "denied by approval policy"), h)
         | AcceptEdits, EditAt path | AutoAllow, EditAt path =>
             if is_sensitive_path path then ask_host request cx prompt None h else (Proceed false, h)
         | AutoAllow, RunCommand _ => (Proceed false, h)
         | _, _ => ask_host request cx prompt (key_of g) h
         end.
Proof.
  destruct g; cbn [gate]; unfold approve_path, approve_command, approve_shell_command, by_policy, decide_edit, decide_command.
  all: destruct (rc_pre_approved cx); [done|]; destruct (rc_approval_policy cx); try done; by destruct (is_sensitive_path _).
Qed.

Lemma gate_proceed cx g prompt permanent h h' :
  gate cx g prompt h = (Proceed permanent, h') →
  permanent = false ∧ h' = h ∧ rc_pre_approved cx = true ∨
  rc_approval_policy cx ≠ Deny ∧
    (permanent = false ∧ h' = h ∧ (waved (rc_approval_policy cx) g ∨ remembered cx g) ∨ granted g prompt h permanent h').
Proof.
  rewrite gate_cases. destruct (rc_pre_approved cx); [intros [= <- <-]; by left|].
  destruct (rc_approval_policy cx), g; try done; try (destruct (is_sensitive_path path) eqn:Hs).
  all: first [intros Ha; eapply (ask_host_proceed _ _ (EditAt _)) in Ha | intros Ha; eapply (ask_host_proceed _ _ (RunCommand _)) in Ha
             | intros Ha; eapply (ask_host_proceed _ _ (RunShell _)) in Ha | intros [= <- <-]].
  all: right; split; [done|]; cbn; naive_solver.
Qed.
End verdicts.

(** ** The headless handler grants nothing *)

Lemma decimal_string_inj m n : decimal_string m = decimal_string n → m = n.
Proof.
  intros Heq. apply (f_equal String.list_byte_of_string) in Heq. unfold decimal_string in Heq.
  rewrite !String.list_byte_of_string_of_list_byte in Heq.
  assert (parse_int (N.succ (N.max m n)) (decimal m) = parse_int (N.succ (N.max m n)) (decimal n)) as Hp by by rewrite Heq.
  rewrite !parse_int_decimal in Hp by lia. by injection Hp.
Qed.

Lemma approval_job_inj d m n : approval_job d m = approval_job d n → m = n.
Proof. unfold approval_job. intros Heq. repeat apply (inj (String.append _)) in Heq. by apply decimal_string_inj. Qed.

Lemma approval_not_delegate d n : approval_job d n ≠ delegate_job d.
Proof. unfold approval_job, delegate_job. intros Heq. repeat apply (inj (String.append _)) in Heq. discriminate. Qed.

Definition headless_gate : RunCx → Gated → bytes → DelegateResolver → Gate * DelegateResolver := gate delegate_request.

Lemma headless_step cx g prompt d :
  let '(v, d') := headless_gate cx g prompt d in
  d' = d ∧ (∀ job, v ≠ Defer job) ∨
  v = Defer (approval_job d (dr_approval_seq d)) ∧ d' = d <| dr_approval_seq := dr_approval_seq d +₃₂ 1 |>.
Proof.
  unfold headless_gate. rewrite gate_cases. destruct (rc_pre_approved cx); [by left|].
  assert (∀ fp, let '(v, d') := ask_host delegate_request cx prompt fp d in d' = d ∧ (∀ job, v ≠ Defer job) ∨
    v = Defer (approval_job d (dr_approval_seq d)) ∧ d' = d <| dr_approval_seq := dr_approval_seq d +₃₂ 1 |>) as Hask.
  { intros [fp|]; unfold ask_host; [case_bool_decide; [by left|]|]; by right. }
  destruct (rc_approval_policy cx), g; try apply Hask; try (by left); destruct (is_sensitive_path path); try apply Hask; by left.
Qed.

(** The gates of one run, in order. *)
Fixpoint headless_run (asks : list (RunCx * Gated * bytes)) (d : DelegateResolver) : list Gate * DelegateResolver :=
  match asks with
  | [] => ([], d)
  | (cx, g, prompt) :: asks =>
      let '(v, d) := headless_gate cx g prompt d in
      let '(vs, d) := headless_run asks d in (v :: vs, d)
  end.

Definition parked (v : Gate) : option JobId := match v with Defer job => Some job | _ => None end.

Lemma headless_ids asks d : dr_approval_seq d + N.of_nat (length asks) < u32_bound →
  let '(vs, _) := headless_run asks d in
  ∃ seqs, omap parked vs = approval_job d <$> seqs ∧ NoDup seqs ∧ Forall (λ n, dr_approval_seq d <= n) seqs.
Proof.
  revert d. induction asks as [|[[cx g] prompt] asks IH]; intros d Hlen; cbn [headless_run]; [by exists []; split_and!; constructor|].
  pose proof (headless_step cx g prompt d) as Hstep. destruct (headless_gate cx g prompt d) as [v d1]. cbn [length] in Hlen.
  assert (dr_approval_seq d +₃₂ 1 = dr_approval_seq d + 1) as Hw by (apply wrap32_small; lia).
  destruct Hstep as [[-> Hv]|[-> ->]].
  - specialize (IH d ltac:(lia)). destruct (headless_run asks d) as [vs d2]. destruct IH as (seqs & Heq & Hnd & Hge). exists seqs.
    split_and!; [|done..]. cbn [omap list_omap]. destruct v as [| |job]; try done. by destruct (Hv job).
  - rewrite Hw. set (d1 := d <| dr_approval_seq := _ |>). specialize (IH d1 ltac:(cbn; lia)).
    destruct (headless_run asks d1) as [vs d2]. destruct IH as (seqs & Heq & Hnd & Hge). exists (dr_approval_seq d :: seqs).
    split_and!.
    + cbn [omap list_omap parked]. rewrite fmap_cons. f_equal. exact Heq.
    + constructor; [|done]. intros Hin. rewrite Forall_forall in Hge. specialize (Hge _ Hin). cbn in Hge. lia.
    + constructor; [lia|]. eapply Forall_impl; [exact Hge|]. cbn. lia.
Qed.

Lemma headless_proceeds asks d i permanent : (headless_run asks d).1 !! i = Some (Proceed permanent) →
  permanent = false ∧ ∃ cx g prompt, asks !! i = Some (cx, g, prompt) ∧
    (rc_pre_approved cx = true ∨ rc_approval_policy cx ≠ Deny ∧ (waved (rc_approval_policy cx) g ∨ remembered cx g)).
Proof.
  revert d i. induction asks as [|[[cx g] prompt] asks IH]; intros d i; cbn [headless_run]; [by intros ?|].
  destruct (headless_gate cx g prompt d) as [v d1] eqn:Hg. destruct (headless_run asks d1) as [vs d2] eqn:Hrun.
  destruct i as [|i]; cbn [fst lookup list_lookup].
  - intros [= ->]. apply gate_proceed in Hg as [(-> & _ & Hp)|(Hd & [(-> & _ & Hw)|Hgr])].
    + split; [done|]. eexists _, _, _. split; [done|]. by left.
    + split; [done|]. eexists _, _, _. split; [done|]. by right.
    + by destruct Hgr as (? & ? & ? & _ & ? & _).
  - intros Hi. apply (IH d1 i). by rewrite Hrun.
Qed.

(** C28. Without an operator nothing is approved.  Whatever a turn asks of the headless
    handler, in whatever order, an action proceeds only when it is the re-run of an
    approved call, or the policy is not [Deny] and either waves it through (an edit of a
    path that is not sensitive under [AcceptEdits] or [AutoAllow], a command under
    [AutoAllow], never a shell string) or the operator has allowed its command for the
    session; no approval becomes permanent.  Every other action is refused or parked, and
    the parked ones of a turn have distinct job ids, none of them that of a delegation. *)
Theorem headless_gates asks d : dr_approval_seq d + N.of_nat (length asks) < u32_bound →
  let '(vs, _) := headless_run asks d in
  (∀ i permanent, vs !! i = Some (Proceed permanent) →
     permanent = false ∧ ∃ cx g prompt, asks !! i = Some (cx, g, prompt) ∧
       (rc_pre_approved cx = true ∨ rc_approval_policy cx ≠ Deny ∧ (waved (rc_approval_policy cx) g ∨ remembered cx g))) ∧
  NoDup (omap parked vs) ∧ delegate_job d ∉ omap parked vs.
Proof.
  intros Hlen. pose proof (headless_ids asks d Hlen) as Hids. pose proof (headless_proceeds asks d) as Hpro.
  destruct (headless_run asks d) as [vs d']. destruct Hids as (seqs & -> & Hnd & _). split_and!; [exact Hpro| |].
  - apply NoDup_fmap_2_strong; [|done]. intros m n _ _. apply approval_job_inj.
  - intros (n & Heq & _)%list_elem_of_fmap. by apply (approval_not_delegate d n).
Qed.

(** ** Runs *)

Definition toy_cx (policy : ApprovalPolicy) : RunCx := mkRunCx "s" None None 0 policy false None ["fp"].
Definition toy_resolver : DelegateResolver := mkDelegateResolver "s" 0 None 0.
Definition toy_asks : list (RunCx * Gated * bytes) :=
  [(toy_cx AutoAllow, EditAt (string_bytes "src/main.rs"), []); (toy_cx AutoAllow, EditAt (string_bytes "app/./.ENV"), []);
   (toy_cx AutoAllow, RunShell None, []); (toy_cx Ask, RunCommand (Some "fp"), []); (toy_cx Deny, RunCommand (Some "fp"), [])].

Example toy_verdicts : (headless_run toy_asks toy_resolver).1 =
  [Proceed false; Defer "s:1:approval:0"; Defer "s:1:approval:1"; Proceed false; Reject (string_bytes "denied by approval policy")].
Proof. vm_compute. reflexivity. Qed.

Lemma headless_gates_witness :
  NoDup (omap parked (headless_run toy_asks toy_resolver).1) ∧ omap parked (headless_run toy_asks toy_resolver).1 ≠ [].
Proof.
  pose proof (headless_gates toy_asks toy_resolver ltac:(vm_compute; reflexivity)) as Hg.
  destruct (headless_run toy_asks toy_resolver) as [vs d'] eqn:Hrun. destruct Hg as (_ & Hnd & _). split; [exact Hnd|].
  vm_compute in Hrun. injection Hrun as <- <-. discriminate.
Defined.

(** All delegations a turn asks for get one job id, and of those a batch of calls makes
    only the last is kept: two joining children of one batch become one job. *)
Example delegations_collapse :
  let '(r1, d1) := delegate_request (ReqDelegate (string_bytes "first") Budget_unlimited) toy_resolver in
  let '(r2, _) := delegate_request (ReqDelegate (string_bytes "second") Budget_unlimited) d1 in
  r1 = RespDelegated "s:1:job" ∧ r2 = r1 ∧
  pe_delegated (partition_tool_effects [Delegate "s:1:job" (string_bytes "first"); Delegate "s:1:job" (string_bytes "second")]) =
    Some ("s:1:job", string_bytes "second").
Proof. by vm_compute. Qed.
