(* ===== verification/Sqlite.v ===== *)
(** * The SQLite store ([crates/substrate/daemon-store/src/sqlite.rs])

    The durable implementation of the store: the tables of the schema and, for
    each method of the session lifecycle, its SQL statements as functions on
    them.  A table with a primary key is a map, one ordered by [rowseq] a list.
    Every method holds the one connection; those that open a transaction lose
    their writes when they return an error, while an armed fault, which lives
    outside the database, is consumed.  [record_completion_and_wake] releases
    the connection between its two halves.

    The journal, the host tables, search and rooms are not here. *)

From S2P Require Import Prelude Text Common Approval StoreTypes Store.

#[local] Open Scope N_scope.
#[local] Open Scope daemon_scope.

(** ** Columns

    An [INTEGER] column holds a signed 64-bit number; Rust casts with [as]. *)

Definition i64_bound : N := 9223372036854775808.
Definition as_i64 (x : N) : Z :=
  if x <? i64_bound then Z.of_N x else (Z.of_N x - Z.of_N u64_bound)%Z.
Definition as_u64 (z : Z) : N := Z.to_N (z mod Z.of_N u64_bound)%Z.
Definition bool_i64 (b : bool) : Z := if b then 1%Z else 0%Z.

Definition splice_kind_to_str (kind : SpliceKind) : string :=
  match kind with StartTurn => "start_turn" | Steer => "steer" | Observe => "observe" end.
Definition splice_kind_from_str (s : string) : option SpliceKind :=
  if decide (s = "start_turn") then Some StartTurn
  else if decide (s = "steer") then Some Steer
  else if decide (s = "observe") then Some Observe
  else None.

Definition role_to_str (role : SessionRole) : string :=
  match role with
  | Primary => "primary" | ManagedChild => "managed_child" | EphemeralSubagent => "ephemeral_subagent"
  end.
Definition role_from_str (s : string) : option SessionRole :=
  if decide (s = "primary") then Some Primary
  else if decide (s = "managed_child") then Some ManagedChild
  else if decide (s = "ephemeral_subagent") then Some EphemeralSubagent
  else None.

Definition lifetime_to_str (lifetime : ChildLifetime) : string :=
  match lifetime with Persistent => "persistent" | Ephemeral => "ephemeral" end.
Definition lifetime_from_str (s : option string) : ChildLifetime :=
  if decide (s = Some "ephemeral") then Ephemeral else Persistent.

Definition status_from_row (kind : string) (job : option string) : SessionStatus :=
  if decide (kind = "active") then Active
  else if decide (kind = "suspended") then Suspended (default "" job)
  else if decide (kind = "ready") then Ready
  else if decide (kind = "idle") then Idle
  else Completed.

Definition policy_to_str (policy : ExecutionPolicy) : string :=
  match policy with
  | InteractiveRoot => "interactive_root" | JoiningChild => "joining_child"
  | DetachedChild => "detached_child" | BackgroundChild => "background_child" | CronRun => "cron_run"
  end.
Definition policy_from_str (s : string) : option ExecutionPolicy :=
  if decide (s = "interactive_root") then Some InteractiveRoot
  else if decide (s = "joining_child") then Some JoiningChild
  else if decide (s = "detached_child") then Some DetachedChild
  else if decide (s = "background_child") then Some BackgroundChild
  else if decide (s = "cron_run") then Some CronRun
  else None.

(** ** Tables *)

Record SessionRow := mkSessionRow {
  ro_partition : Z; ro_epoch : Z; ro_status_kind : string; ro_status_job : option string;
  ro_snapshot : bytes; ro_fence : Z; ro_execution_policy : option string; ro_turn_seq : Z }.
#[export] Instance eta_SessionRow : Eta SessionRow := λ r,
  mkSessionRow (ro_partition r) (ro_epoch r) (ro_status_kind r) (ro_status_job r)
    (ro_snapshot r) (ro_fence r) (ro_execution_policy r) (ro_turn_seq r).

(** [UNIQUE(session_id, epoch, job_id)]. *)
Record CompletionRow := mkCompletionRow {
  cr_session_id : SessionId; cr_epoch : Z; cr_job_id : string; cr_payload : bytes }.

Record JobRow := mkJobRow {
  jr_job_id : string; jr_session_id : SessionId; jr_epoch : Z; jr_payload : bytes;
  jr_lifetime : option string; jr_child : option string }.

(** [child UNIQUE]. *)
Record DelegationRow := mkDelegationRow {
  dl_child : SessionId; dl_parent_session : SessionId; dl_parent_epoch : Z; dl_job_id : string;
  dl_payload : bytes }.

(** [UNIQUE(session_id, job_id)]. *)
Record ApprovalRow := mkApprovalRow {
  ap_session_id : SessionId; ap_job_id : string; ap_epoch : Z; ap_prompt : string;
  ap_path : option string; ap_fingerprint : option string; ap_decision : option Z }.
#[export] Instance eta_ApprovalRow : Eta ApprovalRow := λ r,
  mkApprovalRow (ap_session_id r) (ap_job_id r) (ap_epoch r) (ap_prompt r) (ap_path r)
    (ap_fingerprint r) (ap_decision r).

(** [child UNIQUE]. *)
Record EdgeRow := mkEdgeRow {
  ed_child : SessionId; ed_parent_session : SessionId; ed_work_label : string }.

Record MetaRow := mkMetaRow {
  me_bound_profile : option string; me_overlay : option bytes; me_title : option string;
  me_last_activity_ms : option Z; me_role : option string; me_parent : option string;
  me_pinned : Z; me_archived : Z; me_scheduled_job : option string; me_activation_epoch : Z;
  me_owner : option string; me_terminal_ms : option Z; me_inline_profile : option bytes }.
#[export] Instance eta_MetaRow : Eta MetaRow := λ m,
  mkMetaRow (me_bound_profile m) (me_overlay m) (me_title m) (me_last_activity_ms m) (me_role m)
    (me_parent m) (me_pinned m) (me_archived m) (me_scheduled_job m) (me_activation_epoch m)
    (me_owner m) (me_terminal_ms m) (me_inline_profile m).

(** [PRIMARY KEY (session_id, splice_seq)], [UNIQUE (session_id, origin_op)]. *)
Record SpliceRow := mkSpliceRow {
  sp_session_id : SessionId; sp_splice_seq : Z; sp_kind : string; sp_payload : bytes;
  sp_origin_op : string; sp_origin : string; sp_received_at_ms : Z; sp_claim_kind : string;
  sp_claim_fence : option Z; sp_consumed_turn : option Z }.
#[export] Instance eta_SpliceRow : Eta SpliceRow := λ r,
  mkSpliceRow (sp_session_id r) (sp_splice_seq r) (sp_kind r) (sp_payload r) (sp_origin_op r)
    (sp_origin r) (sp_received_at_ms r) (sp_claim_kind r) (sp_claim_fence r) (sp_consumed_turn r).

Record NoticeRow := mkNoticeRow {
  nt_parent_session : SessionId; nt_notified : Z; nt_call_id : option string }.
#[export] Instance eta_NoticeRow : Eta NoticeRow := λ r,
  mkNoticeRow (nt_parent_session r) (nt_notified r) (nt_call_id r).

(** The database behind the connection, and the armed fault. *)
Record SqliteStore := mkSqliteStore {
  tb_session_record : gmap SessionId SessionRow;
  tb_completion_inbox : list CompletionRow;
  tb_job_outbox : list JobRow;
  tb_enqueued_jobs : gset string;
  tb_wake_outbox : list SessionId;
  tb_delegations : list DelegationRow;
  tb_pending_approvals : list ApprovalRow;
  tb_background_edges : list EdgeRow;
  tb_session_meta : gmap SessionId MetaRow;
  tb_journal_roots : gmap (JournalStreamId * Z) (bytes * bytes);
  tb_inbox_splice : list SpliceRow;
  tb_splice_seq : gmap SessionId Z;
  tb_completion_notices : gmap SessionId NoticeRow;
  tb_notice_outbox : list CompletionNotice;
  tb_detached_seq : gmap SessionId Z;
  sq_fault : option FaultPoint
}.

#[export] Instance eta_SqliteStore : Eta SqliteStore := λ t,
  mkSqliteStore (tb_session_record t) (tb_completion_inbox t) (tb_job_outbox t) (tb_enqueued_jobs t)
    (tb_wake_outbox t) (tb_delegations t) (tb_pending_approvals t) (tb_background_edges t)
    (tb_session_meta t) (tb_journal_roots t) (tb_inbox_splice t) (tb_splice_seq t)
    (tb_completion_notices t) (tb_notice_outbox t) (tb_detached_seq t) (sq_fault t).

(** A database the migrations just created. *)
Definition sqlite_new : SqliteStore := mkSqliteStore ∅ [] [] ∅ [] [] [] [] ∅ ∅ [] ∅ ∅ [] ∅ None.

Abbreviation Sql := (M SqliteStore StoreError).

Definition sql_err (e : string) : StoreError := CommonErr (DE_Other ("sqlite: " +:+ e)).

(** [conn.transaction()], with the rollback of a transaction that is dropped. *)
Definition transaction {A} (m : Sql A) : Sql A := λ t,
  match m t with
  | (Ok a, t') => (Ok a, t')
  | (Err e, t') => (Err e, t <| sq_fault := sq_fault t' |>)
  end.

Definition sql_set_fault (fault : option FaultPoint) (t : SqliteStore) : SqliteStore :=
  t <| sq_fault := fault |>.

Definition sql_take_fault (point : FaultPoint) : Sql unit := λ t,
  if decide (sq_fault t = Some point) then (Err (Fault point), t <| sq_fault := None |>) else (Ok tt, t).

(** [INSERT OR IGNORE] into a table with a unique key; [true] when inserted. *)
Definition insert_or_ignore {R} (same : R → bool) (row : R) (rows : list R) : bool * list R :=
  if existsb same rows then (false, rows) else (true, rows ++ [row]).

(** [UPDATE .. SET f WHERE p]. *)
Definition update_where {R} (p : R → bool) (f : R → R) (rows : list R) : list R :=
  (λ r, if p r then f r else r) <$> rows.

Definition row_of (id : SessionId) : Sql SessionRow :=
  t ← get; ok_or (tb_session_record t !! id) (NotFound id).

(** [UPDATE session_record SET f WHERE session_id = id]. *)
Definition update_session (id : SessionId) (f : SessionRow → SessionRow) (t : SqliteStore) : SqliteStore :=
  t <| tb_session_record := alter f id (tb_session_record t) |>.

Definition fence_of (id : SessionId) : Sql FenceToken := row ← row_of id; mret (as_u64 (ro_fence row)).
Definition turn_seq_of (id : SessionId) : Sql N := row ← row_of id; mret (as_u64 (ro_turn_seq row)).

(** [if fence < current { return Err(Fenced) }]. *)
Definition sql_check_fence (id : SessionId) (fence : FenceToken) : Sql unit :=
  current ← fence_of id;
  if fence <? current then throw (Fenced fence current) else mret tt.

Definition sql_insert_fresh (id : SessionId) (partition : PartitionId) (snapshot : SnapshotBlob)
    (status_kind : string) (policy : option ExecutionPolicy) : Sql unit :=
  t ← get;
  match tb_session_record t !! id with
  | Some _ => throw (AlreadyExists id)
  | None =>
      modify (λ t, t <| tb_session_record :=
        <[id := mkSessionRow (as_i64 partition) 0 status_kind None snapshot 0 (policy_to_str <$> policy) 0]>
          (tb_session_record t) |>)
  end.

Definition meta_to_row (meta : SessionMeta) : MetaRow :=
  mkMetaRow (sm_bound_profile meta) (Some (sm_overlay meta)) (sm_title meta) (as_i64 <$> sm_last_activity_ms meta)
    (role_to_str <$> sm_role meta) (sm_parent meta) (bool_i64 (sm_pinned meta)) (bool_i64 (sm_archived meta))
    (sm_scheduled_job meta) (as_i64 (sm_activation_epoch meta)) (sm_owner meta) (as_i64 <$> sm_terminal_ms meta)
    (Some (sm_inline_profile meta)).

(** A row without overlay does not read back. *)
Definition meta_from_row (row : MetaRow) : option SessionMeta :=
  overlay ← me_overlay row;
  Some (mkSessionMeta (me_bound_profile row) overlay (me_title row) (as_u64 <$> me_last_activity_ms row)
    (me_role row ≫= role_from_str) (me_parent row) (negb (me_pinned row =? 0)%Z) (negb (me_archived row =? 0)%Z)
    (me_scheduled_job row) (as_u64 (me_activation_epoch row)) (me_owner row) (as_u64 <$> me_terminal_ms row)
    (default [] (me_inline_profile row))).

Definition upsert_meta (id : SessionId) (meta : SessionMeta) (t : SqliteStore) : SqliteStore :=
  t <| tb_session_meta := <[id := meta_to_row meta]> (tb_session_meta t) |>.

(** ** The inbox *)

(** [NULL] where a number is expected is an error of the row. *)
Definition splice_from_row (row : SpliceRow) : result string InboxSplice :=
  let splice claim :=
    Ok (mkInboxSplice (sp_session_id row) (as_u64 (sp_splice_seq row)) (default Steer (splice_kind_from_str (sp_kind row)))
          (sp_payload row) (sp_origin_op row) (sp_origin row) (as_u64 (sp_received_at_ms row)) claim) in
  if decide (sp_claim_kind row = "claimed") then
    match sp_claim_fence row with
    | Some f => splice (Claimed (as_u64 f))
    | None => Err "Invalid column type Null at index: 8, name: claim_fence"
    end
  else if decide (sp_claim_kind row = "consumed") then
    match sp_consumed_turn row with
    | Some n => splice (Consumed (as_u64 n))
    | None => Err "Invalid column type Null at index: 9, name: consumed_turn"
    end
  else splice Pending.

(** [collect::<Result<Vec<_>, _>>()]. *)
Fixpoint collect_rows (rows : list SpliceRow) : result string (list InboxSplice) :=
  match rows with
  | [] => Ok []
  | row :: rows =>
      match splice_from_row row with
      | Err e => Err e
      | Ok r => match collect_rows rows with Err e => Err e | Ok rs => Ok (r :: rs) end
      end
  end.

(** [SELECT .. FROM inbox_splice WHERE p ORDER BY splice_seq]. *)
Definition select_splices (p : SpliceRow → bool) (t : SqliteStore) : result string (list InboxSplice) :=
  collect_rows (sort_by (λ a b, (sp_splice_seq a <=? sp_splice_seq b)%Z) (List.filter p (tb_inbox_splice t))).

Definition of_session (id : SessionId) (row : SpliceRow) : bool := bool_decide (sp_session_id row = id).

(** [claim_kind = 'pending' OR (claim_kind = 'claimed' AND claim_fence < ?)]. *)
Definition claimable (fence : Z) (row : SpliceRow) : bool :=
  bool_decide (sp_claim_kind row = "pending") ||
  bool_decide (sp_claim_kind row = "claimed") && match sp_claim_fence row with Some f => (f <? fence)%Z | None => false end.

Definition claim_splices_conn (id : SessionId) (fence : FenceToken) : Sql (list InboxSplice) :=
  _ ← modify (λ t, t <| tb_inbox_splice :=
        update_where (λ r, of_session id r && claimable (as_i64 fence) r)
          (λ r, r <| sp_claim_kind := "claimed" |> <| sp_claim_fence := Some (as_i64 fence) |>) (tb_inbox_splice t) |>);
  t ← get;
  match select_splices (λ r, of_session id r && bool_decide (sp_claim_kind r = "claimed") &&
                             bool_decide (sp_claim_fence r = Some (as_i64 fence))) t with
  | Ok rows => mret rows
  | Err e => throw (sql_err e)
  end.

Definition not_consumed (r : SpliceRow) : bool := negb (bool_decide (sp_claim_kind r = "consumed")).

Definition consume_splices_conn (id : SessionId) (up_to turn_seq : N) (t : SqliteStore) : SqliteStore :=
  t <| tb_inbox_splice :=
    update_where (λ r, of_session id r && (sp_splice_seq r <=? as_i64 up_to)%Z && not_consumed r)
      (λ r, r <| sp_claim_kind := "consumed" |> <| sp_claim_fence := None |> <| sp_consumed_turn := Some (as_i64 turn_seq) |>)
      (tb_inbox_splice t) |>.

(** [if let Some(up_to) = checkpoint.consumed_splices { consume_splices_conn(..)? }]. *)
Definition sql_consume_checkpoint (cp : Checkpoint) (turn : N) : Sql unit :=
  match cp_consumed_splices cp with
  | Some up_to => modify (consume_splices_conn (cp_session_id cp) up_to turn)
  | None => mret tt
  end.

(** The same in the middle of a turn, whose number is read then. *)
Definition consume_in_flight (cp : Checkpoint) : Sql unit :=
  match cp_consumed_splices cp with
  | Some up_to =>
      turn ← turn_seq_of (cp_session_id cp);
      modify (consume_splices_conn (cp_session_id cp) up_to turn)
  | None => mret tt
  end.

(** The counter is [n + 1] in SQL; it stays far below the end of the column. *)
Definition bump (m : gmap SessionId Z) (id : SessionId) : Z := (default 0 (m !! id) + 1)%Z.

Definition insert_splice_conn (id : SessionId) (kind : SpliceKind) (payload : bytes) (origin_op origin : string) (now : N) : Sql N :=
  t ← get;
  let seq := bump (tb_splice_seq t) id in
  _ ← modify (λ t, t <| tb_splice_seq := <[id := seq]> (tb_splice_seq t) |>);
  if existsb (λ r, of_session id r && (sp_splice_seq r =? seq)%Z) (tb_inbox_splice t) then
    throw (sql_err "UNIQUE constraint failed: inbox_splice.session_id, inbox_splice.splice_seq")
  else if existsb (λ r, of_session id r && bool_decide (sp_origin_op r = origin_op)) (tb_inbox_splice t) then
    throw (sql_err "UNIQUE constraint failed: inbox_splice.session_id, inbox_splice.origin_op")
  else
    _ ← modify (λ t, t <| tb_inbox_splice := tb_inbox_splice t ++
          [mkSpliceRow id seq (splice_kind_to_str kind) payload origin_op origin (as_i64 now) "pending" None None] |>);
    mret (as_u64 seq).

(** ** Creation *)

Definition sql_create_session (id : SessionId) (partition : PartitionId) (snapshot : SnapshotBlob) : Sql unit :=
  sql_insert_fresh id partition snapshot "ready" None.

Definition sql_create_idle (id : SessionId) (partition : PartitionId) (snapshot : SnapshotBlob) : Sql unit :=
  sql_insert_fresh id partition snapshot "idle" (Some InteractiveRoot).

Definition insert_delegation (child : SessionId) (job : JobCommand) (t : SqliteStore) : SqliteStore :=
  t <| tb_delegations :=
    (insert_or_ignore (λ r, bool_decide (dl_child r = child))
      (mkDelegationRow child (jc_session_id job) (as_i64 (jc_epoch job)) (jc_job_id job) (jc_payload job)) (tb_delegations t)).2 |>.

Definition insert_notice (child parent : SessionId) (call_id : option string) (t : SqliteStore) : SqliteStore :=
  match tb_completion_notices t !! child with
  | Some _ => t
  | None => t <| tb_completion_notices := <[child := mkNoticeRow parent 0 call_id]> (tb_completion_notices t) |>
  end.

Definition insert_edge (child parent : SessionId) (work_label : string) (t : SqliteStore) : SqliteStore :=
  t <| tb_background_edges :=
    (insert_or_ignore (λ r, bool_decide (ed_child r = child)) (mkEdgeRow child parent work_label) (tb_background_edges t)).2 |>.

Definition sql_bind_edge (id : SessionId) (edge : option RunnableEdge) (t : SqliteStore) : SqliteStore :=
  match edge with
  | Some (Delegation job) => insert_delegation id job t
  | Some (CompletionNoticeEdge parent call_id) => insert_notice id parent call_id t
  | Some (ChildEdge parent work_label) => insert_edge id parent work_label t
  | None => t
  end.

Definition sql_create_runnable (spec : RunnableSession) (now : N) : Sql bool :=
  transaction (
    t ← get;
    match tb_session_record t !! rs_id spec with
    | Some _ => mret false
    | None =>
        _ ← modify (λ t, t <| tb_session_record :=
              <[rs_id spec := mkSessionRow (as_i64 (rs_partition spec)) 0 "ready" None (rs_snapshot spec) 0
                                (Some (policy_to_str (rs_policy spec))) 0]> (tb_session_record t) |>);
        _ ← sql_take_fault MidRunnableConstruction;
        _ ← (match rs_meta spec with Some meta => modify (upsert_meta (rs_id spec) meta) | None => mret tt end);
        _ ← modify (sql_bind_edge (rs_id spec) (rs_edge spec));
        _ ← (match rs_first_input spec with
             | Some input => _ ← insert_splice_conn (rs_id spec) StartTurn input "first-input" "factory" now; mret tt
             | None => mret tt
             end);
        mret true
    end).

Definition sql_execution_policy (t : SqliteStore) (id : SessionId) : option ExecutionPolicy :=
  row ← tb_session_record t !! id; ro_execution_policy row ≫= policy_from_str.

Definition sql_reopen_if_settled (id : SessionId) : Sql bool :=
  row ← row_of id;
  if decide (ro_status_kind row = "completed") then
    _ ← modify (update_session id (λ r, r <| ro_status_kind := "ready" |> <| ro_status_job := None |>)); mret true
  else mret false.

Definition sql_mark_ready_if_idle (id : SessionId) : Sql bool :=
  row ← row_of id;
  if decide (ro_status_kind row = "idle") then
    _ ← modify (update_session id (λ r, r <| ro_status_kind := "ready" |>)); mret true
  else mret false.

Definition sql_append_splice (n : NewSplice) (now : N) : Sql N :=
  transaction (
    _ ← row_of (ns_session_id n);
    t ← get;
    match List.find (λ r, of_session (ns_session_id n) r && bool_decide (sp_origin_op r = ns_origin_op n)) (tb_inbox_splice t) with
    | Some existing => mret (as_u64 (sp_splice_seq existing))
    | None =>
        seq ← insert_splice_conn (ns_session_id n) (ns_kind n) (ns_payload n) (ns_origin_op n) (ns_origin n) now;
        _ ← modify (update_session (ns_session_id n)
              (λ r, if decide (ro_status_kind r = "idle") then r <| ro_status_kind := "ready" |> else r));
        mret seq
    end).

(** An error of a row reads as the empty list. *)
Definition sql_splices_after (t : SqliteStore) (id : SessionId) (after_seq : N) : list InboxSplice :=
  match select_splices (λ r, of_session id r && (as_i64 after_seq <? sp_splice_seq r)%Z && not_consumed r) t with
  | Ok rows => rows
  | Err _ => []
  end.

Definition sql_claim_splices (id : SessionId) (fence : FenceToken) : Sql (list InboxSplice) :=
  transaction (_ ← sql_check_fence id fence; claim_splices_conn id fence).

Definition sql_prune_consumed_splices (cutoff_ms : N) (t : SqliteStore) : N * SqliteStore :=
  let gone r := bool_decide (sp_claim_kind r = "consumed") && (sp_received_at_ms r <? as_i64 cutoff_ms)%Z in
  (N.of_nat (length (List.filter gone (tb_inbox_splice t))),
   t <| tb_inbox_splice := List.filter (λ r, negb (gone r)) (tb_inbox_splice t) |>).

(** ** Leases, loads and commits *)

Definition sql_acquire_activation_lease (id : SessionId) : Sql FenceToken :=
  current ← fence_of id;
  let next := FenceToken_next current in
  _ ← modify (update_session id (λ r, r <| ro_fence := as_i64 next |> <| ro_status_kind := "active" |>));
  mret next.

Definition completion_from_row (row : CompletionRow) : JobCompletion :=
  mkJobCompletion (cr_session_id row) (as_u64 (cr_epoch row)) (cr_job_id row) (cr_payload row).

Definition completions_of (id : SessionId) (t : SqliteStore) : list CompletionRow :=
  List.filter (λ r, bool_decide (cr_session_id r = id)) (tb_completion_inbox t).

Definition sql_load_for_activation (id : SessionId) (fence : FenceToken) : Sql Activation :=
  transaction (
    row ← row_of id;
    t ← get;
    splices ← claim_splices_conn id fence;
    mret (mkActivation (ro_snapshot row) (completion_from_row <$> completions_of id t) fence splices
            (ro_execution_policy row ≫= policy_from_str) (as_u64 (ro_turn_seq row)))).

Definition job_to_row (job : JobCommand) (child : option string) : JobRow :=
  mkJobRow (jc_job_id job) (jc_session_id job) (as_i64 (jc_epoch job)) (jc_payload job)
    (Some (lifetime_to_str (jc_lifetime job))) child.

Definition job_from_row (row : JobRow) : JobCommand :=
  mkJobCommand (jr_job_id row) (jr_session_id row) (as_u64 (jr_epoch row)) (jr_payload row)
    (lifetime_from_str (jr_lifetime row)) (jr_child row).

(** The [child] column is left [NULL]. *)
Definition sql_enqueue_job (job : JobCommand) (t : SqliteStore) : SqliteStore :=
  if decide (jc_job_id job ∈ tb_enqueued_jobs t) then t
  else t <| tb_enqueued_jobs := {[jc_job_id job]} ∪ tb_enqueued_jobs t |>
         <| tb_job_outbox := tb_job_outbox t ++ [job_to_row job None] |>.

Definition sql_checkpoint_and_enqueue (cp : Checkpoint) (job : JobCommand) (fence : FenceToken) : Sql unit :=
  _ ← transaction (
    _ ← sql_check_fence (cp_session_id cp) fence;
    _ ← sql_take_fault BeforeSnapshot;
    _ ← modify (update_session (cp_session_id cp) (λ r,
          r <| ro_snapshot := cp_snapshot cp |> <| ro_epoch := as_i64 (cp_epoch cp) |>
            <| ro_status_kind := "suspended" |> <| ro_status_job := Some (jc_job_id job) |>));
    _ ← consume_in_flight cp;
    modify (sql_enqueue_job job));
  _ ← sql_take_fault AfterSnapshot;
  sql_take_fault AfterJobOutbox.

(** [INSERT INTO wake_outbox]. *)
Definition sql_enqueue_wake (id : SessionId) (t : SqliteStore) : SqliteStore :=
  t <| tb_wake_outbox := tb_wake_outbox t ++ [id] |>.

Definition same_completion (c : CompletionRow) (r : CompletionRow) : bool :=
  bool_decide (cr_session_id r = cr_session_id c) && (cr_epoch r =? cr_epoch c)%Z && bool_decide (cr_job_id r = cr_job_id c).

(** [INSERT OR IGNORE INTO completion_inbox], and [Ready] when it was fresh. *)
Definition insert_completion (c : CompletionRow) : Sql bool := λ t,
  let '(fresh, rows) := insert_or_ignore (same_completion c) c (tb_completion_inbox t) in
  let t := t <| tb_completion_inbox := rows |> in
  (Ok fresh, if fresh then update_session (cr_session_id c) (λ r, r <| ro_status_kind := "ready" |>) t else t).

Definition insert_completion_and_wake (c : CompletionRow) : Sql unit :=
  fresh ← insert_completion c;
  if fresh : bool then modify (sql_enqueue_wake (cr_session_id c)) else mret tt.

(** [INSERT INTO session_meta .. ON CONFLICT DO UPDATE SET terminal_ms]. *)
Definition sql_stamp_terminal (id : SessionId) (now : N) (t : SqliteStore) : SqliteStore :=
  t <| tb_session_meta :=
    <[id := match tb_session_meta t !! id with
            | Some row => row <| me_terminal_ms := Some (as_i64 now) |>
            | None => mkMetaRow None (Some []) None None None None 0 0 None 0 None (Some (as_i64 now)) None
            end]> (tb_session_meta t) |>.

Definition sql_fulfil_delegation (cp : Checkpoint) : Sql unit :=
  t ← get;
  match List.find (λ r, bool_decide (dl_child r = cp_session_id cp)) (tb_delegations t) with
  | Some row =>
      insert_completion_and_wake
        (mkCompletionRow (dl_parent_session row) (dl_parent_epoch row) (dl_job_id row) (terminal_payload cp))
  | None => mret tt
  end.

Definition sql_fire_notice (cp : Checkpoint) (t : SqliteStore) : SqliteStore :=
  match tb_completion_notices t !! cp_session_id cp with
  | Some row =>
      if (nt_notified row =? 0)%Z then
        t <| tb_completion_notices := <[cp_session_id cp := row <| nt_notified := 1%Z |>]> (tb_completion_notices t) |>
          <| tb_notice_outbox := tb_notice_outbox t ++
               [mkCompletionNotice (nt_parent_session row) (cp_session_id cp) (nt_call_id row) (terminal_payload cp)] |>
      else t
  | None => t
  end.

Definition sql_mark_completed (cp : Checkpoint) (fence : FenceToken) (now : N) : Sql unit :=
  _ ← sql_check_fence (cp_session_id cp) fence;
  transaction (
    committed_turn ← turn_seq_of (cp_session_id cp);
    _ ← modify (update_session (cp_session_id cp) (λ r,
          r <| ro_snapshot := cp_snapshot cp |> <| ro_epoch := as_i64 (cp_epoch cp) |>
            <| ro_turn_seq := (ro_turn_seq r + 1)%Z |> <| ro_status_kind := "completed" |> <| ro_status_job := None |>));
    _ ← sql_consume_checkpoint cp committed_turn;
    _ ← modify (sql_stamp_terminal (cp_session_id cp) now);
    _ ← sql_fulfil_delegation cp;
    modify (sql_fire_notice cp)).

(** [DELETE FROM completion_inbox WHERE session_id, epoch, job_id], for each key. *)
Definition delete_completion (id : SessionId) (key : Epoch * JobId) (rows : list CompletionRow) : list CompletionRow :=
  List.filter (λ r, negb (bool_decide (cr_session_id r = id) && (cr_epoch r =? as_i64 key.1)%Z && bool_decide (cr_job_id r = key.2))) rows.

Definition delete_applied (id : SessionId) (keys : list (Epoch * JobId)) (t : SqliteStore) : SqliteStore :=
  t <| tb_completion_inbox := foldl (λ rows key, delete_completion id key rows) (tb_completion_inbox t) keys |>.

Definition sql_seal_turn (id : SessionId) (seal : option TurnSeal) (t : SqliteStore) : SqliteStore :=
  match seal with
  | Some sl =>
      t <| tb_journal_roots := <[(JournalStreamId_session id, as_i64 (ts_segment sl)) := (ts_root sl, ts_signature sl)]> (tb_journal_roots t) |>
  | None => t
  end.

Definition sql_check_seal (seal : option TurnSeal) (turn_seq : N) : Sql unit :=
  match seal_mismatch seal turn_seq with
  | Some segment =>
      throw (CommonErr (DE_Other ("commit_turn: seal segment " +:+ pretty segment +:+
               " != in-flight turn " +:+ pretty turn_seq +:+ " (incarnation bug)")))
  | None => mret tt
  end.

(** [EXISTS (unconsumed splice) OR EXISTS (completion)]. *)
Definition sql_unconsumed (t : SqliteStore) (id : SessionId) : bool :=
  existsb (λ r, of_session id r && not_consumed r) (tb_inbox_splice t) ||
  existsb (λ r, bool_decide (cr_session_id r = id)) (tb_completion_inbox t).

Definition sql_commit_turn (cp : Checkpoint) (seal : option TurnSeal) (fence : FenceToken) : Sql TurnCommit :=
  let id := cp_session_id cp in
  transaction (
    _ ← sql_check_fence id fence;
    committed_turn ← turn_seq_of id;
    _ ← sql_check_seal seal committed_turn;
    _ ← sql_take_fault BeforeSnapshot;
    _ ← modify (update_session id (λ r,
          r <| ro_snapshot := cp_snapshot cp |> <| ro_epoch := as_i64 (cp_epoch cp) |>
            <| ro_turn_seq := (ro_turn_seq r + 1)%Z |> <| ro_status_job := None |>));
    _ ← sql_consume_checkpoint cp committed_turn;
    _ ← modify (delete_applied id (cp_applied_completions cp));
    _ ← modify (sql_seal_turn id seal);
    t ← get;
    let more := sql_unconsumed t id in
    _ ← modify (update_session id (λ r, r <| ro_status_kind := if more then "ready" else "idle" |>));
    _ ← (if more then modify (sql_enqueue_wake id) else mret tt);
    mret (mkTurnCommit committed_turn (if more then Ready else Idle))).

Definition completion_to_row (c : JobCompletion) : CompletionRow :=
  mkCompletionRow (jp_session_id c) (as_i64 (jp_epoch c)) (jp_job_id c) (jp_payload c).

Definition sql_record_completion_and_wake (c : JobCompletion) : Sql unit :=
  _ ← row_of (jp_session_id c);
  fresh ← insert_completion (completion_to_row c);
  if fresh : bool then
    _ ← sql_take_fault BeforeWakePublish;
    modify (sql_enqueue_wake (jp_session_id c))
  else mret tt.

(** ** Delegation edges and detached children *)

Definition sql_bind_delegation (child : SessionId) (job : JobCommand) : Sql unit := modify (insert_delegation child job).
Definition sql_record_child_edge (parent child : SessionId) (work_label : string) : Sql unit :=
  modify (insert_edge child parent work_label).
Definition sql_bind_completion_notice (child parent : SessionId) (call_id : option string) : Sql unit :=
  modify (insert_notice child parent call_id).

Definition sql_enqueue_detached_job (job : JobCommand) : Sql SessionId :=
  transaction (
    t ← get;
    let parent := jc_session_id job in
    let n := bump (tb_detached_seq t) parent in
    let child := detached_child_id parent (Z.to_N n) in
    _ ← modify (λ t, t <| tb_detached_seq := <[parent := n]> (tb_detached_seq t) |>
                       <| tb_job_outbox := tb_job_outbox t ++ [job_to_row job (Some child)] |>);
    mret child).

Definition sql_dequeue_completion_notice (t : SqliteStore) : option CompletionNotice * SqliteStore :=
  match tb_notice_outbox t with
  | n :: q => (Some n, t <| tb_notice_outbox := q |>)
  | [] => (None, t)
  end.

(** Joining children, then background ones, then detached ones by name. *)
Definition sql_children_of (t : SqliteStore) (parent : SessionId) : list SessionId :=
  (dl_child <$> List.filter (λ r, bool_decide (dl_parent_session r = parent)) (tb_delegations t)) ++
  (ed_child <$> List.filter (λ r, bool_decide (ed_parent_session r = parent)) (tb_background_edges t)) ++
  sort_by String.leb (map_to_list (filter (λ kv, nt_parent_session kv.2 = parent) (tb_completion_notices t))).*1.

(** ** Parked approvals *)

Definition approval_to_row (a : ParkedApproval) : ApprovalRow :=
  mkApprovalRow (pa_session_id a) (pa_job_id a) (as_i64 (pa_epoch a)) (pa_prompt a) (pa_path a) (pa_fingerprint a) None.

Definition same_approval (session : SessionId) (job : JobId) (r : ApprovalRow) : bool :=
  bool_decide (ap_session_id r = session) && bool_decide (ap_job_id r = job).

Definition insert_approvals (approvals : list ParkedApproval) (rows : list ApprovalRow) : list ApprovalRow :=
  foldl (λ rows a, (insert_or_ignore (same_approval (pa_session_id a) (pa_job_id a)) (approval_to_row a) rows).2) rows approvals.

(** The session row is written only when there is an approval. *)
Definition sql_park_approval (cp : Checkpoint) (approvals : list ParkedApproval) (fence : FenceToken) : Sql unit :=
  _ ← transaction (
    _ ← sql_check_fence (cp_session_id cp) fence;
    _ ← sql_take_fault BeforeSnapshot;
    _ ← (match head approvals with
         | Some first => modify (update_session (cp_session_id cp) (λ r,
             r <| ro_snapshot := cp_snapshot cp |> <| ro_epoch := as_i64 (cp_epoch cp) |>
               <| ro_status_kind := "suspended" |> <| ro_status_job := Some (pa_job_id first) |>))
         | None => mret tt
         end);
    _ ← consume_in_flight cp;
    modify (λ t, t <| tb_pending_approvals := insert_approvals approvals (tb_pending_approvals t) |>));
  sql_take_fault AfterSnapshot.

Definition sql_answer_approval (session : SessionId) (job_id : JobId) (allow allow_permanent : bool) (reason : option string) : Sql bool :=
  transaction (
    t ← get;
    match List.find (same_approval session job_id) (tb_pending_approvals t) with
    | None => mret false
    | Some row =>
        match ap_decision row with
        | Some _ => mret true
        | None =>
            _ ← modify (λ t, t <| tb_pending_approvals :=
                  update_where (same_approval session job_id) (λ r, r <| ap_decision := Some (bool_i64 allow) |>) (tb_pending_approvals t) |>);
            _ ← insert_completion_and_wake
                  (mkCompletionRow session (ap_epoch row) job_id (approval_completion_payload allow allow_permanent reason));
            mret true
        end
    end).

Definition approval_from_row (r : ApprovalRow) : ParkedApproval :=
  mkParkedApproval (ap_session_id r) (ap_job_id r) (as_u64 (ap_epoch r)) (ap_prompt r) (ap_path r) (ap_fingerprint r) None.

Definition sql_pending_approvals_of (t : SqliteStore) (session : option SessionId) : list ParkedApproval :=
  let open r := match ap_decision r with None => true | Some _ => false end in
  approval_from_row <$>
  match session with
  | Some id => List.filter (λ r, bool_decide (ap_session_id r = id) && open r) (tb_pending_approvals t)
  | None => List.filter open (tb_pending_approvals t)
  end.

(** ** Reads and queues *)

Definition sql_delegation_work (t : SqliteStore) (child : SessionId) : option bytes :=
  match List.find (λ r, bool_decide (dl_child r = child)) (tb_delegations t) with
  | Some row => Some (from_utf8_lossy (dl_payload row))
  | None => string_bytes ∘ ed_work_label <$> List.find (λ r, bool_decide (ed_child r = child)) (tb_background_edges t)
  end.

(** Without [ORDER BY] the rows come in an order of the database. *)
Definition sql_scan_resumable `{HashOrder} (t : SqliteStore) (partition : PartitionId) : list SessionId :=
  (List.filter (λ kv : SessionId * SessionRow, (ro_partition kv.2 =? as_i64 partition)%Z &&
      (bool_decide (ro_status_kind kv.2 ∈ ["ready"; "active"]) ||
       bool_decide (ro_status_kind kv.2 = "suspended") &&
         existsb (λ r, bool_decide (cr_session_id r = kv.1)) (tb_completion_inbox t))) (hash_order (tb_session_record t))).*1.

Definition sql_dequeue_job (t : SqliteStore) : option JobCommand * SqliteStore :=
  match tb_job_outbox t with
  | j :: q => (Some (job_from_row j), t <| tb_job_outbox := q |>)
  | [] => (None, t)
  end.

Definition sql_dequeue_wake (t : SqliteStore) : option SessionId * SqliteStore :=
  match tb_wake_outbox t with
  | w :: q => (Some w, t <| tb_wake_outbox := q |>)
  | [] => (None, t)
  end.

Definition sql_peek_snapshot (t : SqliteStore) (id : SessionId) : option SnapshotBlob := ro_snapshot <$> tb_session_record t !! id.

Definition sql_swap_snapshot_if_dormant (id : SessionId) (expected new : SnapshotBlob) : Sql bool :=
  row ← row_of id;
  if decide (ro_status_kind row ≠ "active" ∧ ro_snapshot row = expected) then
    _ ← modify (update_session id (λ r, r <| ro_snapshot := new |>)); mret true
  else mret false.

Definition sql_set_session_meta (id : SessionId) (meta : SessionMeta) : Sql unit := modify (upsert_meta id meta).
Definition sql_session_meta (t : SqliteStore) (id : SessionId) : option SessionMeta := tb_session_meta t !! id ≫= meta_from_row.

Definition sql_status (t : SqliteStore) (id : SessionId) : option SessionStatus :=
  (λ row, status_from_row (ro_status_kind row) (ro_status_job row)) <$> tb_session_record t !! id.

Definition sql_stats (t : SqliteStore) : StoreStats :=
  mkStoreStats (length (tb_job_outbox t)) (length (tb_wake_outbox t)) (size (tb_session_record t)).
