(* ===== verification/SqliteRel.v ===== *)
(** * A database and the in-memory state it stands for

    [sim n t s] relates a database [t] of [Sqlite] to a state [s] of [Store] in
    which no counter exceeds [n], table by table, and is kept by the elementary
    writes of the two stores. *)

From S2P Require Import Prelude Text Common Approval StoreTypes Store StoreInv Journal Registry StoreSteps Sqlite.

#[local] Open Scope N_scope.
#[local] Open Scope daemon_scope.

(** ** Numbers and texts *)

Lemma as_u64_as_i64 x : x < u64_bound → as_u64 (as_i64 x) = x.
Proof.
  intros Hx. unfold as_u64, as_i64. destruct (N.ltb_spec x i64_bound).
  - rewrite Z.mod_small by (unfold u64_bound in *; lia). by rewrite N2Z.id.
  - rewrite <- (Z.mod_add _ 1) by done. rewrite Z.mul_1_l, Z.sub_add, Z.mod_small by (unfold u64_bound in *; lia).
    by rewrite N2Z.id.
Qed.

Lemma as_i64_small x : x < i64_bound → as_i64 x = Z.of_N x.
Proof. intros Hx. unfold as_i64. by rewrite (proj2 (N.ltb_lt _ _) Hx). Qed.

Lemma small_u64 x : x < i64_bound → x < u64_bound.
Proof. unfold i64_bound, u64_bound. lia. Qed.

Lemma as_u64_of_N x : x < u64_bound → as_u64 (Z.of_N x) = x.
Proof. intros Hx. unfold as_u64. rewrite Z.mod_small by (unfold u64_bound in *; lia). apply N2Z.id. Qed.

Lemma as_i64_inj x y : x < u64_bound → y < u64_bound → as_i64 x = as_i64 y → x = y.
Proof. intros Hx Hy Heq. by rewrite <- (as_u64_as_i64 x), Heq, as_u64_as_i64. Qed.

Lemma Z_leb_of_N x y : (Z.of_N x <=? Z.of_N y)%Z = (x <=? y).
Proof. destruct (Z.leb_spec (Z.of_N x) (Z.of_N y)), (N.leb_spec x y); try done; lia. Qed.
Lemma Z_ltb_of_N x y : (Z.of_N x <? Z.of_N y)%Z = (x <? y).
Proof. destruct (Z.ltb_spec (Z.of_N x) (Z.of_N y)), (N.ltb_spec x y); try done; lia. Qed.

Lemma splice_kind_str k : splice_kind_from_str (splice_kind_to_str k) = Some k.
Proof. by destruct k. Qed.
Lemma policy_str p : policy_from_str (policy_to_str p) = Some p.
Proof. by destruct p. Qed.
Lemma lifetime_str l : lifetime_from_str (Some (lifetime_to_str l)) = l.
Proof. by destruct l. Qed.

Definition small (x : N) : bool := x <? i64_bound.

Lemma small_spec x : small x = true ↔ x < i64_bound.
Proof. apply N.ltb_lt. Qed.

Definition small_option (x : option N) : bool := match x with Some x => small x | None => true end.

Definition small_meta (m : SessionMeta) : bool :=
  small_option (sm_last_activity_ms m) && small (sm_activation_epoch m) && small_option (sm_terminal_ms m).

Lemma small_option_roundtrip x : small_option x = true → as_u64 <$> (as_i64 <$> x) = x.
Proof. destruct x as [x|]; [|done]. cbn. intros Hx%small_spec. by rewrite as_u64_as_i64 by by apply small_u64. Qed.

Lemma meta_roundtrip m : small_meta m = true → meta_from_row (meta_to_row m) = Some m.
Proof.
  unfold small_meta. rewrite !andb_true_iff. intros [[H1 H2] H3]. unfold meta_from_row, meta_to_row. cbn.
  rewrite !small_option_roundtrip by done. rewrite as_u64_as_i64 by by apply small_u64, small_spec.
  destruct m as [? ? ? ? [[]|] ? [] [] ? ? ? ? ?]; reflexivity.
Qed.

(** ** Rows of the inbox, as the statements leave them *)

Definition claim_columns (c : SpliceClaim) : string * option Z * option Z :=
  match c with
  | Pending => ("pending", None, None)
  | Claimed f => ("claimed", Some (as_i64 f), None)
  | Consumed n => ("consumed", None, Some (as_i64 n))
  end.

Definition splice_to_row (r : InboxSplice) : SpliceRow :=
  let '(kind, fence, turn) := claim_columns (is_claim r) in
  mkSpliceRow (is_session_id r) (as_i64 (is_splice_seq r)) (splice_kind_to_str (is_kind r)) (is_payload r)
    (is_origin_op r) (is_origin r) (as_i64 (is_received_at_ms r)) kind fence turn.

Definition small_claim (c : SpliceClaim) : Prop :=
  match c with Pending => True | Claimed x | Consumed x => x < i64_bound end.

Definition small_splice (r : InboxSplice) : Prop :=
  is_splice_seq r < i64_bound ∧ is_received_at_ms r < i64_bound ∧ small_claim (is_claim r).

Lemma splice_roundtrip r : small_splice r → splice_from_row (splice_to_row r) = Ok r.
Proof.
  intros (Hseq & Hms & Hclaim). destruct r as [id seq kind payload op origin ms claim]. cbn in *.
  unfold splice_from_row, splice_to_row. cbn. destruct claim as [|f|k]; cbn in *.
  all: rewrite splice_kind_str, !as_u64_as_i64 by by apply small_u64.
  all: done.
Qed.

Lemma collect_roundtrip rows : Forall small_splice rows → collect_rows (splice_to_row <$> rows) = Ok rows.
Proof. induction 1 as [|r rows Hr _ IH]; [done|]. rewrite fmap_cons. cbn [collect_rows]. by rewrite splice_roundtrip, IH. Qed.


(** ** The relation, table by table *)

Definition session_from_row (id : SessionId) (row : SessionRow) : SessionRecord :=
  mkSessionRecord id (as_u64 (ro_partition row)) (as_u64 (ro_epoch row))
    (status_from_row (ro_status_kind row) (ro_status_job row)) (ro_snapshot row) (as_u64 (ro_fence row))
    (as_u64 (ro_turn_seq row)).

Definition status_kinds : list string := ["active"; "suspended"; "ready"; "idle"; "completed"].

Lemma status_kind_known kind job : kind ∈ status_kinds →
  (status_from_row kind job = Completed ↔ kind = "completed") ∧ (status_from_row kind job = Idle ↔ kind = "idle") ∧
  (status_from_row kind job = Active ↔ kind = "active").
Proof.
  unfold status_kinds. rewrite !elem_of_cons, elem_of_nil. intros [->|[->|[->|[->|[->|[]]]]]]; vm_compute; split_and!; congruence.
Qed.

(** A literal is one of the kinds. *)
Ltac in_kinds := apply (bool_decide_unpack _); vm_compute; exact I.

Record sessions_rel (n : N) (rows : gmap SessionId SessionRow) (sessions : gmap SessionId SessionRecord)
    (policies : gmap SessionId ExecutionPolicy) : Prop := {
  rel_session : ∀ id, sessions !! id = session_from_row id <$> rows !! id;
  rel_policy : ∀ id, policies !! id = rows !! id ≫= λ row, ro_execution_policy row ≫= policy_from_str;
  rel_counters : ∀ id row, rows !! id = Some row →
    (0 ≤ ro_fence row ≤ Z.of_N n)%Z ∧ (0 ≤ ro_turn_seq row ≤ Z.of_N n)%Z;
  rel_kind : ∀ id row, rows !! id = Some row → ro_status_kind row ∈ status_kinds;
  rel_partition : ∀ id row, rows !! id = Some row → ∃ p, p < i64_bound ∧ ro_partition row = as_i64 p
}.

Record inbox_rel (n : N) (rows : list SpliceRow) (seqs : gmap SessionId Z)
    (splices : gmap SessionId (list InboxSplice)) (mseqs : gmap SessionId N) : Prop := {
  rel_rows : ∀ id, List.filter (of_session id) rows = splice_to_row <$> entry_vec splices id;
  rel_small : ∀ id, Forall small_splice (entry_vec splices id);
  rel_sorted : ∀ id, StronglySorted N.lt (is_splice_seq <$> entry_vec splices id);
  rel_below : ∀ id, Forall (λ r, is_splice_seq r ≤ default 0 (mseqs !! id)) (entry_vec splices id);
  rel_seq : ∀ id, default 0%Z (seqs !! id) = Z.of_N (default 0 (mseqs !! id)) ∧ default 0 (mseqs !! id) ≤ n
}.

Definition in_session (id : SessionId) (r : CompletionRow) : bool := bool_decide (cr_session_id r = id).
Definition completion_key (c : JobCompletion) : SessionId * Epoch * JobId := (jp_session_id c, jp_epoch c, jp_job_id c).

(** A key outlives its row. *)
Record completions_rel (rows : list CompletionRow) (unapplied : gmap SessionId (list JobCompletion))
    (keys : gset (SessionId * Epoch * JobId)) : Prop := {
  rel_completions : ∀ id, List.filter (in_session id) rows = completion_to_row <$> entry_vec unapplied id;
  rel_keys : ∀ id, Forall (λ c, jp_epoch c < i64_bound ∧ completion_key c ∈ keys) (entry_vec unapplied id)
}.

Definition approval_row (a : ParkedApproval) : ApprovalRow :=
  (approval_to_row a) <| ap_decision := bool_i64 <$> pa_decision a |>.
Definition approval_in (id : SessionId) (r : ApprovalRow) : bool := bool_decide (ap_session_id r = id).

Record approvals_rel (rows : list ApprovalRow) (pending : gmap SessionId (list ParkedApproval)) : Prop := {
  rel_approvals : ∀ id, List.filter (approval_in id) rows = approval_row <$> entry_vec pending id;
  rel_epochs : ∀ id, Forall (λ a, pa_epoch a < i64_bound) (entry_vec pending id);
  rel_jobs : ∀ id, NoDup (pa_job_id <$> entry_vec pending id)
}.

Definition delegation_row (child : SessionId) (job : JobCommand) : DelegationRow :=
  mkDelegationRow child (jc_session_id job) (as_i64 (jc_epoch job)) (jc_job_id job) (jc_payload job).
Definition find_delegation (rows : list DelegationRow) (child : SessionId) : option DelegationRow :=
  List.find (λ r, bool_decide (dl_child r = child)) rows.
Definition find_edge (rows : list EdgeRow) (child : SessionId) : option EdgeRow :=
  List.find (λ r, bool_decide (ed_child r = child)) rows.

Record edges_rel (joining : list DelegationRow) (detached : gmap SessionId NoticeRow) (background : list EdgeRow)
    (delegations : gmap SessionId JobCommand) (notices : gmap SessionId (SessionId * option string))
    (fired : gset SessionId) (labels : gmap SessionId string) (children : gmap SessionId (list SessionId)) : Prop := {
  rel_delegation : ∀ child, find_delegation joining child = delegation_row child <$> delegations !! child;
  rel_unique : NoDup (dl_child <$> joining) ∧ NoDup (ed_child <$> background);
  rel_delegation_epoch : ∀ child job, delegations !! child = Some job → jc_epoch job < i64_bound;
  rel_notice : ∀ child, notices !! child = (λ r, (nt_parent_session r, nt_call_id r)) <$> detached !! child;
  rel_fired : ∀ child, child ∈ fired ↔ ∃ row, detached !! child = Some row ∧ nt_notified row ≠ 0%Z;
  rel_edge : ∀ child, labels !! child = ed_work_label <$> find_edge background child;
  rel_children : ∀ parent child, child ∈ entry_vec children parent ↔
    (∃ row, find_delegation joining child = Some row ∧ dl_parent_session row = parent) ∨
    (∃ row, find_edge background child = Some row ∧ ed_parent_session row = parent) ∨
    (∃ row, detached !! child = Some row ∧ nt_parent_session row = parent)
}.

Record sim (n : N) (t : SqliteStore) (s : Inner) : Prop := {
  sim_fault : sq_fault t = in_fault s;
  sim_sessions : sessions_rel n (tb_session_record t) (in_sessions s) (in_execution_policy s);
  sim_inbox : inbox_rel n (tb_inbox_splice t) (tb_splice_seq t) (in_splices s) (in_splice_seq s);
  sim_completions : completions_rel (tb_completion_inbox t) (in_unapplied s) (in_inbox_keys s);
  sim_approvals : approvals_rel (tb_pending_approvals t) (in_pending_approvals s);
  sim_edges : edges_rel (tb_delegations t) (tb_completion_notices t) (tb_background_edges t) (in_delegations s)
    (in_completion_notices s) (in_notices_fired s) (in_background_edges s) (in_child_index s);
  sim_jobs : in_job_outbox s = job_from_row <$> tb_job_outbox t;
  sim_enqueued : in_enqueued_jobs s = tb_enqueued_jobs t;
  sim_wakes : in_wake_outbox s = tb_wake_outbox t;
  sim_notices : in_notice_outbox s = tb_notice_outbox t;
  sim_detached : ∀ parent, default 0%Z (tb_detached_seq t !! parent) = Z.of_N (default 0 (in_detached_seq s !! parent)) ∧
    default 0 (in_detached_seq s !! parent) ≤ n;
  sim_meta : ∀ id, Some <$> in_session_meta s !! id = meta_from_row <$> tb_session_meta t !! id;
  sim_roots : ∀ stream segment, segment < i64_bound → in_journal_roots s !! (stream, segment) =
    (λ r, mkCommittedRoot r.1 r.2) <$> tb_journal_roots t !! (stream, as_i64 segment)
}.

Lemma sim_new : sim 0 sqlite_new InMemoryStore_new.
Proof.
  constructor; cbn; try done; constructor; unfold entry_vec; try done.
  all: try by (intros id; rewrite lookup_empty; constructor).
  all: try by (split; constructor).
  - intros child. split; [by intros ?%elem_of_empty|by intros (? & ?%lookup_empty_Some & _)].
  - intros parent child. rewrite lookup_empty. cbn. split; [by intros ?%elem_of_nil|].
    by intros [(? & ? & _)|[(? & ? & _)|(? & ?%lookup_empty_Some & _)]].
Qed.

Lemma sim_mono n m t s : n ≤ m → sim n t s → sim m t s.
Proof.
  intros Hnm []. constructor; try done.
  - destruct sim_sessions0. constructor; [done..| |done|done]. intros id row Hrow. specialize (rel_counters0 id row Hrow). lia.
  - destruct sim_inbox0. constructor; [done..|]. intros id. specialize (rel_seq0 id). split; [apply rel_seq0|lia].
  - intros parent. specialize (sim_detached0 parent). split; [apply sim_detached0|lia].
Qed.

(** Running code whose branches are known. *)
Ltac run_code := cbv beta iota zeta delta [mbind M_bind get modify throw mret M_ret ok_or].

(** ** Statements on lists of rows *)

Lemma filter_update_where {R} (q p : R → bool) (f : R → R) rows :
  (∀ r, q (f r) = q r) → List.filter q (update_where p f rows) = update_where p f (List.filter q rows).
Proof.
  intros Hq. induction rows as [|r rows IH]; [done|]. unfold update_where in *. cbn. destruct (p r) eqn:Hp.
  - rewrite Hq. destruct (q r); cbn; rewrite ?Hp; by rewrite <- IH.
  - destruct (q r); cbn; rewrite ?Hp; by rewrite <- IH.
Qed.

Lemma update_where_id {R} (p : R → bool) (f : R → R) rows : Forall (λ r, p r = false) rows → update_where p f rows = rows.
Proof. induction 1 as [|r rows Hr _ IH]; [done|]. unfold update_where in *. cbn. by rewrite Hr, IH. Qed.

Lemma update_where_encode {A R} (enc : A → R) (p : R → bool) f (g : A → A) l :
  Forall (λ x, (if p (enc x) then f (enc x) else enc x) = enc (g x)) l → update_where p f (enc <$> l) = enc <$> (g <$> l).
Proof. induction 1 as [|x l Hx _ IH]; [done|]. unfold update_where in *. cbn. by rewrite Hx, IH. Qed.

Lemma update_where_ext {R} (p q : R → bool) (f : R → R) rows : Forall (λ r, p r = q r) rows → update_where p f rows = update_where q f rows.
Proof. induction 1 as [|r rows Hr _ IH]; [done|]. unfold update_where in *. cbn. by rewrite Hr, IH. Qed.

Lemma filter_b_all {A} (p : A → bool) l : Forall (λ x, p x = true) l → List.filter p l = l.
Proof. induction 1 as [|x l Hx _ IH]; [done|]. cbn. by rewrite Hx, IH. Qed.

Lemma filter_none {A} (p : A → bool) l : Forall (λ x, p x = false) l → List.filter p l = [].
Proof. induction 1 as [|x l Hx _ IH]; [done|]. cbn. by rewrite Hx. Qed.

Lemma Forall_filter_b {A} (p : A → bool) l : Forall (λ x, p x = true) (List.filter p l).
Proof. induction l as [|x l IH]; [constructor|]. cbn. destruct (p x) eqn:Hp; [by constructor|done]. Qed.

Lemma filter_and {A} (p q : A → bool) l : List.filter (λ x, p x && q x) l = List.filter q (List.filter p l).
Proof. induction l as [|x l IH]; [done|]. cbn. destruct (p x); cbn; [destruct (q x)|]; by rewrite IH. Qed.

Lemma filter_swap {A} (p q : A → bool) l : List.filter p (List.filter q l) = List.filter q (List.filter p l).
Proof. rewrite <- !filter_and. apply List.filter_ext. intros x. apply andb_comm. Qed.

Lemma filter_encode {A R} (enc : A → R) (p : R → bool) (q : A → bool) l :
  Forall (λ x, p (enc x) = q x) l → List.filter p (enc <$> l) = enc <$> List.filter q l.
Proof. induction 1 as [|x l Hx _ IH]; [done|]. cbn. rewrite Hx. destruct (q x); cbn; by rewrite IH. Qed.

Lemma existsb_ext {A} (p q : A → bool) l : (∀ x, p x = q x) → existsb p l = existsb q l.
Proof. intros Hpq. induction l as [|x l IH]; [done|]. cbn. by rewrite Hpq, IH. Qed.

Lemma existsb_filter_b {A} (p q : A → bool) l : existsb (λ x, p x && q x) l = existsb q (List.filter p l).
Proof. induction l as [|x l IH]; [done|]. cbn. rewrite IH. by destruct (p x). Qed.

Lemma existsb_encode {A R} (enc : A → R) (p : R → bool) (q : A → bool) l :
  Forall (λ x, p (enc x) = q x) l → existsb p (enc <$> l) = existsb q l.
Proof. induction 1 as [|x l Hx _ IH]; [done|]. cbn. by rewrite Hx, IH. Qed.

Lemma find_filter_b {A} (p q : A → bool) l : List.find (λ x, p x && q x) l = List.find q (List.filter p l).
Proof. induction l as [|x l IH]; [done|]. cbn. destruct (p x); cbn; [destruct (q x)|]; by rewrite ?IH. Qed.

Lemma find_encode {A R} (enc : A → R) (p : R → bool) (q : A → bool) l :
  Forall (λ x, p (enc x) = q x) l → List.find p (enc <$> l) = enc <$> List.find q l.
Proof. induction 1 as [|x l Hx _ IH]; [done|]. cbn. rewrite Hx. by destruct (q x). Qed.

(** ** The inbox *)

Lemma of_session_spec id r : of_session id r = true ↔ sp_session_id r = id.
Proof. apply bool_decide_eq_true. Qed.

(** An update of the rows of one session. *)
Lemma inbox_update n rows seqs splices splices' mseqs id (p : SpliceRow → bool) (f : SpliceRow → SpliceRow) g :
  inbox_rel n rows seqs splices mseqs → (∀ r, sp_session_id (f r) = sp_session_id r) →
  Forall (λ r, (if p (splice_to_row r) then f (splice_to_row r) else splice_to_row r) = splice_to_row (g r) ∧
               small_splice (g r) ∧ is_splice_seq (g r) = is_splice_seq r) (entry_vec splices id) →
  (∀ j, entry_vec splices' j = if decide (id = j) then g <$> entry_vec splices id else entry_vec splices j) →
  inbox_rel n (update_where (λ r, of_session id r && p r) f rows) seqs splices' mseqs.
Proof.
  intros [] Hf Hg Hsp. constructor; [| | | |done].
  - intros j. rewrite filter_update_where by (intros r; unfold of_session; by rewrite Hf). rewrite Hsp, rel_rows0. case_decide as Hj.
    + subst j. rewrite <- rel_rows0. rewrite (update_where_ext _ p).
      2:{ eapply Forall_impl; [apply Forall_filter_b|]. intros r Hr. cbn in Hr. by rewrite Hr. }
      rewrite rel_rows0. apply update_where_encode. eapply Forall_impl; [exact Hg|]. by intros r (? & _).
    + apply update_where_id. rewrite <- rel_rows0. eapply Forall_impl; [apply Forall_filter_b|].
      intros r Hr%of_session_spec. unfold of_session. rewrite bool_decide_eq_false_2 by congruence. done.
  - intros j. rewrite Hsp. case_decide; [|done]. apply Forall_fmap. eapply Forall_impl; [exact Hg|]. by intros r (_ & ? & _).
  - intros j. rewrite Hsp. case_decide as Hj; [|done]. subst j.
    assert (is_splice_seq <$> (g <$> entry_vec splices id) = is_splice_seq <$> entry_vec splices id) as ->; [|done].
    rewrite <- list_fmap_compose. apply Forall_fmap_ext_1. eapply Forall_impl; [exact Hg|]. by intros r (_ & _ & ?).
  - intros j. rewrite Hsp. case_decide as Hj; [|done]. subst j. apply Forall_fmap.
    eapply Forall_impl; [apply Forall_and; split; [exact Hg|apply rel_below0]|]. cbn. intros r [(_ & _ & ->) ?]. done.
Qed.

Lemma entry_vec_splices_update s id (g : InboxSplice → InboxSplice) j :
  entry_vec (match in_splices s !! id with
             | Some rows => <[id := g <$> rows]> (in_splices s)
             | None => in_splices s
             end) j = if decide (id = j) then g <$> entry_vec (in_splices s) id else entry_vec (in_splices s) j.
Proof.
  destruct (in_splices s !! id) as [rows|] eqn:Hrows; [rewrite entry_vec_insert; unfold entry_vec; by rewrite Hrows|].
  case_decide as Hj; [|done]. subst j. unfold entry_vec. by rewrite Hrows.
Qed.

Lemma sim_consume n t s id up_to turn : sim n t s → up_to < i64_bound → turn < i64_bound →
  sim n (consume_splices_conn id up_to turn t) (consume_splices_locked id up_to turn s).
Proof.
  intros [] Hup Hturn.
  assert (consume_splices_locked id up_to turn s = s <| in_splices := match in_splices s !! id with
    | Some rows => <[id := consume_row up_to turn <$> rows]> (in_splices s) | None => in_splices s end |>) as ->.
  { unfold consume_splices_locked. destruct (in_splices s !! id); [done|]. by destruct s. }
  constructor; cbn; try done.
  rewrite (update_where_ext _ (λ r, of_session id r && ((sp_splice_seq r <=? as_i64 up_to)%Z && not_consumed r))).
  2:{ apply Forall_forall. intros r _. by rewrite andb_assoc. }
  eapply (inbox_update _ _ _ _ _ _ id _ _ (consume_row up_to turn)); [done|done| |apply entry_vec_splices_update].
  eapply Forall_impl; [apply sim_inbox0|]. intros r (Hseq & Hms & Hclaim). unfold consume_row.
  assert ((sp_splice_seq (splice_to_row r) <=? as_i64 up_to)%Z = (is_splice_seq r <=? up_to)) as Hle.
  { unfold splice_to_row. destruct (claim_columns (is_claim r)) as [[? ?] ?]. cbn. rewrite !as_i64_small by done. apply Z_leb_of_N. }
  assert (not_consumed (splice_to_row r) = negb (is_consumed (is_claim r))) as Hnc.
  { unfold not_consumed, splice_to_row. by destruct (is_claim r). }
  rewrite Hle, Hnc. destruct (_ && _); [|done]. split_and!; [|by split_and!|done].
  unfold splice_to_row. destruct r as [? ? ? ? ? ? ? claim]. cbn. by destruct claim.
Qed.

Lemma select_sorted n rows seqs splices mseqs id p q : inbox_rel n rows seqs splices mseqs →
  Forall (λ r, p (splice_to_row r) = q r) (entry_vec splices id) →
  collect_rows (sort_by (λ a b, (sp_splice_seq a <=? sp_splice_seq b)%Z) (List.filter (λ r, of_session id r && p r) rows)) =
    Ok (List.filter q (entry_vec splices id)).
Proof.
  intros [] Hpq. rewrite filter_and, rel_rows0, (filter_encode _ _ q) by done. set (l := List.filter q _).
  assert (Forall small_splice l) as Hsmall by (eapply Forall_sublist; [apply sublist_filter_b|done]).
  rewrite sort_by_id, collect_roundtrip; [done|done|].
  assert (StronglySorted N.lt (is_splice_seq <$> l)) as Hs.
  { eapply StronglySorted_sublist; [apply sublist_fmap, sublist_filter_b|done]. }
  clearbody l. clear -Hsmall Hs. induction Hsmall as [|r l Hr Hl IH]; [constructor|]. cbn in Hs. inversion Hs as [|? ? Hs' Hlt]; subst.
  constructor; [by apply IH|]. apply Forall_fmap. rewrite Forall_fmap in Hlt.
  eapply Forall_impl; [apply Forall_and; split; [exact Hlt|exact Hl]|]. cbn. intros r' [Hlt' (Hs2 & _)].
  unfold splice_to_row. destruct (claim_columns (is_claim r)) as [[? ?] ?], (claim_columns (is_claim r')) as [[? ?] ?]. cbn.
  destruct Hr as (Hs1 & _). rewrite !as_i64_small by done. apply Z.leb_le. lia.
Qed.

Lemma claimable_row fence r : small_splice r → fence < i64_bound →
  (if claimable (as_i64 fence) (splice_to_row r)
   then (splice_to_row r) <| sp_claim_kind := "claimed" |> <| sp_claim_fence := Some (as_i64 fence) |>
   else splice_to_row r) = splice_to_row (default r (claim_row fence r)).
Proof.
  intros (_ & _ & Hclaim) Hf. destruct r as [? ? ? ? ? ? ? claim]. unfold claimable, splice_to_row, claim_row. cbn in *.
  destruct claim as [|old|k]; cbn; [done| |done].
  assert ((as_i64 old <? as_i64 fence)%Z = (old <? fence)) as -> by (rewrite !as_i64_small by done; apply Z_ltb_of_N).
  destruct (N.ltb_spec old fence); cbn; [done|]. by destruct (N.eqb_spec old fence).
Qed.

Lemma claimed_filter fence l : Forall small_splice l → fence < i64_bound →
  List.filter (λ r, match is_claim r with Claimed f => f =? fence | _ => false end) ((λ r, default r (claim_row fence r)) <$> l) =
  omap (claim_row fence) l.
Proof.
  intros Hl Hf. induction Hl as [|r l Hr _ IH]; [done|]. rewrite fmap_cons. cbn [omap list_omap]. unfold claim_row at 1 3.
  destruct (is_claim r) as [|old|k] eqn:Hc; cbn [default List.filter]; rewrite ?Hc; cbn.
  - by rewrite N.eqb_refl, IH.
  - destruct (N.ltb_spec old fence); cbn; [by rewrite N.eqb_refl, IH|].
    destruct (N.eqb_spec old fence) as [->|Hne]; cbn; rewrite Hc; [by rewrite N.eqb_refl, IH|].
    by rewrite (proj2 (N.eqb_neq _ _) Hne), IH.
  - done.
Qed.

Lemma sim_claim n t s id fence : sim n t s → fence < i64_bound →
  ∃ t', claim_splices_conn id fence t = (Ok (claim_splices_locked id fence s).1, t') ∧ sim n t' (claim_splices_locked id fence s).2.
Proof.
  intros Hsim Hf. set (g := λ r, default r (claim_row fence r)).
  set (splices := match in_splices s !! id with Some rows => <[id := g <$> rows]> (in_splices s) | None => in_splices s end).
  assert (claim_splices_locked id fence s = (omap (claim_row fence) (entry_vec (in_splices s) id), s <| in_splices := splices |>)) as ->.
  { unfold claim_splices_locked, splices, entry_vec. destruct (in_splices s !! id); [done|]. by destruct s. }
  cbn [fst snd]. set (rows := update_where (λ r, of_session id r && claimable (as_i64 fence) r)
    (λ r, r <| sp_claim_kind := "claimed" |> <| sp_claim_fence := Some (as_i64 fence) |>) (tb_inbox_splice t)).
  pose proof (rel_small _ _ _ _ _ (sim_inbox _ _ _ Hsim) id) as Hsmall.
  assert (inbox_rel n rows (tb_splice_seq t) splices (in_splice_seq s)) as Hinbox.
  { eapply (inbox_update _ _ _ _ _ _ id _ _ g); [apply Hsim|done| |apply entry_vec_splices_update].
    eapply Forall_impl; [exact Hsmall|]. intros r Hr. split; [by apply claimable_row|]. destruct Hr as (Hseq & Hms & Hc). unfold g, claim_row.
    destruct r as [? ? ? ? ? ? ? claim]. cbn in *. destruct claim as [|old|k]; cbn; [done| |done]. repeat case_match; done. }
  exists (t <| tb_inbox_splice := rows |>). split; [|by destruct Hsim; constructor].
  unfold claim_splices_conn. run_code. cbn. fold rows. unfold select_splices. cbn [tb_inbox_splice].
  assert (entry_vec splices id = g <$> entry_vec (in_splices s) id) as Hvec.
  { unfold splices. rewrite entry_vec_splices_update. by rewrite decide_True. }
  rewrite (List.filter_ext _ (λ r, of_session id r && (bool_decide (sp_claim_kind r = "claimed") && bool_decide (sp_claim_fence r = Some (as_i64 fence))))).
  2:{ intros r. by rewrite andb_assoc. }
  rewrite (select_sorted _ _ _ _ _ id _ (λ r, match is_claim r with Claimed f => f =? fence | _ => false end) Hinbox).
  - by rewrite Hvec, claimed_filter.
  - eapply Forall_impl; [apply (rel_small _ _ _ _ _ Hinbox)|]. intros r (_ & _ & Hc). unfold splice_to_row.
    destruct (is_claim r) as [|f|k]; cbn in *; [done| |done]. destruct (N.eqb_spec f fence) as [->|Hne]; [by apply bool_decide_eq_true_2|].
    apply bool_decide_eq_false_2. intros [= Heq%as_i64_inj]; [done|by apply small_u64..].
Qed.

(** ** Appending to the inbox *)

Definition pending_row (id : SessionId) (kind : SpliceKind) (payload : bytes) (op origin : string) (now seq : N) : InboxSplice :=
  mkInboxSplice id seq kind payload op origin now Pending.

Lemma sim_insert_splice n t s id kind payload op origin now :
  sim n t s → n + 1 < i64_bound → now < i64_bound →
  Forall (λ r, is_origin_op r ≠ op) (entry_vec (in_splices s) id) →
  ∃ t', insert_splice_conn id kind payload op origin now t = (Ok (next_splice_seq s id), t') ∧
    tb_session_record t' = tb_session_record t ∧
    sim (n + 1) t' (push_splice id (pending_row id kind payload op origin now) s).
Proof.
  intros Hsim Hn Hnow Hop. destruct (sim_inbox _ _ _ Hsim). destruct (rel_seq0 id) as [Hseq Hle].
  assert (next_splice_seq s id = default 0 (in_splice_seq s !! id) + 1) as Hnext.
  { unfold next_splice_seq. apply wrap64_small. unfold i64_bound, u64_bound in *. lia. }
  assert (bump (tb_splice_seq t) id = Z.of_N (next_splice_seq s id)) as Hbump by (unfold bump; rewrite Hseq, Hnext; lia).
  assert (next_splice_seq s id < i64_bound) as Hsm by lia.
  unfold insert_splice_conn. run_code. rewrite Hbump.
  rewrite existsb_filter_b, rel_rows0, (existsb_encode _ _ (λ r, is_splice_seq r =? next_splice_seq s id)).
  2:{ eapply Forall_impl; [apply rel_small0|]. intros r (Hs & _). unfold splice_to_row. destruct (claim_columns _) as [[? ?] ?]. cbn.
      rewrite as_i64_small by done. destruct (Z.eqb_spec (Z.of_N (is_splice_seq r)) (Z.of_N (next_splice_seq s id))), (N.eqb_spec (is_splice_seq r) (next_splice_seq s id)); try done; lia. }
  assert (existsb (λ r, is_splice_seq r =? next_splice_seq s id) (entry_vec (in_splices s) id) = false) as ->.
  { apply not_true_iff_false. intros (r & Hr%list_elem_of_In & Heq%N.eqb_eq)%existsb_exists. specialize (rel_below0 id). rewrite Forall_forall in rel_below0.
    specialize (rel_below0 r Hr). lia. }
  rewrite existsb_filter_b, rel_rows0, (existsb_encode _ _ (λ r, bool_decide (is_origin_op r = op))).
  2:{ apply Forall_forall. intros r _. unfold splice_to_row. by destruct (claim_columns _) as [[? ?] ?]. }
  assert (existsb (λ r, bool_decide (is_origin_op r = op)) (entry_vec (in_splices s) id) = false) as ->.
  { apply not_true_iff_false. intros (r & Hr%list_elem_of_In & Heq%bool_decide_eq_true)%existsb_exists. rewrite Forall_forall in Hop. by apply (Hop r). }
  rewrite as_u64_of_N by (apply small_u64; lia). eexists. split; [done|]. split; [done|].
  unfold push_splice. apply (sim_mono n (n + 1)) in Hsim; [|lia]. destruct Hsim; constructor; cbn; try done.
  assert (∀ j, entry_vec (entry_push (in_splices s) id (pending_row id kind payload op origin now (next_splice_seq s id))) j =
    if decide (id = j) then entry_vec (in_splices s) id ++ [pending_row id kind payload op origin now (next_splice_seq s id)] else entry_vec (in_splices s) j) as Hvec.
  { intros j. unfold entry_push. by rewrite entry_vec_insert. }
  constructor; intros j; rewrite ?Hvec.
  - rewrite List.filter_app, rel_rows0. cbn. unfold of_session at 1. cbn. case_decide as Hj.
    + rewrite bool_decide_eq_true_2, fmap_app, <- (as_i64_small (next_splice_seq s id)) by done. by subst j.
    + rewrite bool_decide_eq_false_2 by done. by rewrite app_nil_r.
  - case_decide; [|done]. apply Forall_app. split; [done|]. by repeat constructor.
  - case_decide; [|done]. subst j. rewrite fmap_app. apply StronglySorted_snoc; [done|]. apply Forall_fmap.
    eapply Forall_impl; [apply rel_below0|]. cbn. intros r Hr. lia.
  - case_decide as Hj; [subst j|by rewrite lookup_insert_ne]. rewrite lookup_insert_eq. cbn. apply Forall_app. split; [|by repeat constructor].
    eapply Forall_impl; [apply rel_below0|]. cbn. lia.
  - destruct (decide (id = j)) as [<-|Hj]; [rewrite !lookup_insert_eq; cbn; lia|].
    rewrite !lookup_insert_ne by done. destruct (rel_seq0 j). split; [done|lia].
Qed.

Lemma sim_prune n t s cutoff : sim n t s → cutoff < i64_bound →
  sim n (sql_prune_consumed_splices cutoff t).2 (prune_consumed_splices cutoff s).2.
Proof.
  intros Hsim Hc. destruct (sim_inbox _ _ _ Hsim). destruct Hsim; constructor; cbn; try done.
  assert (∀ id, entry_vec (List.filter (retained cutoff) <$> in_splices s) id = List.filter (retained cutoff) (entry_vec (in_splices s) id)) as Hvec.
  { intros id. unfold entry_vec. rewrite lookup_fmap. by destruct (in_splices s !! id). }
  constructor; try (intros id; rewrite Hvec).
  - rewrite filter_swap, rel_rows0. apply filter_encode. eapply Forall_impl; [apply rel_small0|]. intros r (_ & Hms & _).
    unfold retained, splice_to_row. destruct (is_claim r); cbn; [done..|]. by rewrite !as_i64_small, Z_ltb_of_N by done.
  - eapply Forall_sublist; [apply sublist_filter_b|done].
  - eapply StronglySorted_sublist; [apply sublist_fmap, sublist_filter_b|done].
  - eapply Forall_sublist; [apply sublist_filter_b|done].
  - done.
Qed.

(** ** Session rows *)

Lemma sim_row n t s id : sim n t s → in_sessions s !! id = session_from_row id <$> tb_session_record t !! id.
Proof. intros []. apply sim_sessions0. Qed.

Lemma sim_update_session n t s id row (f : SessionRow → SessionRow) rec : sim n t s → tb_session_record t !! id = Some row →
  session_from_row id (f row) = rec → (ro_execution_policy (f row), ro_partition (f row)) = (ro_execution_policy row, ro_partition row) →
  (0 ≤ ro_fence (f row) ≤ Z.of_N n)%Z → (0 ≤ ro_turn_seq (f row) ≤ Z.of_N n)%Z → ro_status_kind (f row) ∈ status_kinds →
  sim n (update_session id f t) (put_session id rec s).
Proof.
  intros [] Hrow Hrec [= Hpol Hpart] Hfence Hturn Hkind. constructor; cbn; try done. destruct sim_sessions0. constructor.
  - intros j. rewrite lookup_alter. case_decide as Hj; [subst j; rewrite lookup_insert_eq, Hrow; cbn; by rewrite Hrec|by rewrite lookup_insert_ne].
  - intros j. rewrite lookup_alter, rel_policy0. case_decide as Hj; [subst j; rewrite Hrow; cbn; by rewrite Hpol|done].
  - intros j row'. rewrite lookup_alter. case_decide as Hj; [subst j; rewrite Hrow; cbn; by intros [= <-]|apply rel_counters0].
  - intros j row'. rewrite lookup_alter. case_decide as Hj; [subst j; rewrite Hrow; cbn; by intros [= <-]|apply rel_kind0].
  - intros j row'. rewrite lookup_alter. case_decide as Hj; [subst j; rewrite Hrow; cbn; intros [= <-]; rewrite Hpart; by apply (rel_partition0 id)|apply rel_partition0].
Qed.

(** An [UPDATE] that finds no row. *)
Lemma sim_update_absent n t s id f : sim n t s → tb_session_record t !! id = None → sim n (update_session id f t) s.
Proof. intros [] Hid. constructor; cbn; try done. by rewrite alter_id'. Qed.

Lemma sim_fresh_session n t s id partition kind snapshot policy policies : sim n t s → tb_session_record t !! id = None → partition < i64_bound → kind ∈ status_kinds →
  (∀ j, policies !! j = if decide (id = j) then policy else in_execution_policy s !! j) →
  sim n (t <| tb_session_record := <[id := mkSessionRow (as_i64 partition) 0 kind None snapshot 0 (policy_to_str <$> policy) 0]> (tb_session_record t) |>)
    (put_session id (mkSessionRecord id partition Epoch_ZERO (status_from_row kind None) snapshot FenceToken_ZERO 0) s
       <| in_execution_policy := policies |>).
Proof.
  intros [] Hrow Hp Hkind Hpol. constructor; cbn; try done. destruct sim_sessions0. constructor.
  - intros j. rewrite !lookup_insert. case_decide; [subst j|done]. unfold session_from_row. cbn. by rewrite as_u64_as_i64 by by apply small_u64.
  - intros j. rewrite Hpol, lookup_insert. case_decide; [|done]. cbn. by destruct policy as [[]|].
  - intros j row'. rewrite lookup_insert. case_decide; [intros [= <-]; cbn; lia|apply rel_counters0].
  - intros j row'. rewrite lookup_insert. case_decide; [by intros [= <-]|apply rel_kind0].
  - intros j row'. rewrite lookup_insert. case_decide; [intros [= <-]; by exists partition|apply rel_partition0].
Qed.

(** ** Completions *)

Definition same_key (epoch : Epoch) (job : JobId) (c : JobCompletion) : bool := (jp_epoch c =? epoch) && bool_decide (jp_job_id c = job).

(** The completion was never recorded, or still waits to be folded. *)
Definition fresh_or_open (s : Inner) (session : SessionId) (epoch : Epoch) (job : JobId) : bool :=
  negb (bool_decide ((session, epoch, job) ∈ in_inbox_keys s)) || existsb (same_key epoch job) (entry_vec (in_unapplied s) session).

Lemma unapplied_session n t s id : sim n t s → Forall (λ c, jp_session_id c = id) (entry_vec (in_unapplied s) id).
Proof.
  intros []. destruct sim_completions0. pose proof (Forall_filter_b (in_session id) (tb_completion_inbox t)) as Hall.
  rewrite rel_completions0, Forall_fmap in Hall. eapply Forall_impl; [exact Hall|]. by intros c ?%bool_decide_eq_true.
Qed.

Lemma Z_eqb_as_i64 x y : x < i64_bound → y < i64_bound → (as_i64 x =? as_i64 y)%Z = (x =? y).
Proof. intros Hx Hy. rewrite !as_i64_small by done. destruct (Z.eqb_spec (Z.of_N x) (Z.of_N y)), (N.eqb_spec x y); try done; lia. Qed.

Lemma same_completion_rows n t s c : sim n t s → jp_epoch c < i64_bound →
  existsb (same_completion (completion_to_row c)) (tb_completion_inbox t) =
  existsb (same_key (jp_epoch c) (jp_job_id c)) (entry_vec (in_unapplied s) (jp_session_id c)).
Proof.
  intros [] Hc. destruct sim_completions0.
  trans (existsb (λ r, in_session (jp_session_id c) r && ((cr_epoch r =? as_i64 (jp_epoch c))%Z && bool_decide (cr_job_id r = jp_job_id c))) (tb_completion_inbox t)).
  { apply existsb_ext. intros r. unfold same_completion. by rewrite <- andb_assoc. }
  rewrite existsb_filter_b, rel_completions0. apply existsb_encode. eapply Forall_impl; [apply rel_keys0|]. intros d [Hd _]. cbn.
  by rewrite Z_eqb_as_i64.
Qed.

Lemma sim_apply_completion n t s c : sim n t s → jp_epoch c < i64_bound → fresh_or_open s (jp_session_id c) (jp_epoch c) (jp_job_id c) = true →
  ∃ t', insert_completion (completion_to_row c) t = (Ok (apply_completion_locked c s).1, t') ∧ sim n t' (apply_completion_locked c s).2 ∧
    tb_wake_outbox t' = tb_wake_outbox t.
Proof.
  intros Hsim Hc Hfresh. unfold insert_completion, insert_or_ignore. rewrite (same_completion_rows n t s c) by done.
  unfold apply_completion_locked, fresh_or_open in *. case_decide as Hkey.
  { rewrite bool_decide_eq_true_2 in Hfresh by done. cbn in Hfresh. rewrite Hfresh. eexists. split_and!; [done| |done]. by destruct t. }
  assert (existsb (same_key (jp_epoch c) (jp_job_id c)) (entry_vec (in_unapplied s) (jp_session_id c)) = false) as ->.
  { apply not_true_iff_false. intros (d & Hd%list_elem_of_In & Heq)%existsb_exists. apply Hkey.
    pose proof (unapplied_session _ _ _ (jp_session_id c) Hsim) as Hses. destruct (sim_completions _ _ _ Hsim). specialize (rel_keys0 (jp_session_id c)).
    rewrite Forall_forall in Hses, rel_keys0. apply andb_true_iff in Heq as [He%N.eqb_eq Hj%bool_decide_eq_true].
    destruct (rel_keys0 d Hd) as [_ Hin]. unfold completion_key in Hin. by rewrite Hses, He, Hj in Hin. }
  set (s1 := s <| in_inbox_keys := _ |> <| in_unapplied := _ |>).
  set (t1 := t <| tb_completion_inbox := tb_completion_inbox t ++ [completion_to_row c] |>).
  assert (sim n t1 s1) as Hsim1.
  { destruct Hsim. constructor; cbn; try done. destruct sim_completions0. constructor; intros id; unfold entry_push; rewrite entry_vec_insert.
    - rewrite List.filter_app, rel_completions0. cbn. unfold in_session at 1. cbn. case_decide as Hid.
      + rewrite bool_decide_eq_true_2, fmap_app by done. by subst id.
      + rewrite bool_decide_eq_false_2 by done. by rewrite app_nil_r.
    - case_decide; [|eapply Forall_impl; [apply rel_keys0|]; intros d [? ?]; split; [done|set_solver]].
      apply Forall_app. split; [eapply Forall_impl; [apply rel_keys0|]; intros d [? ?]; split; [done|set_solver]|].
      constructor; [|constructor]. split; [done|]. unfold completion_key. set_solver. }
  pose proof (sim_row n t1 s1 (jp_session_id c) Hsim1) as Hrow. cbn [in_sessions] in *. rewrite Hrow.
  destruct (tb_session_record t1 !! jp_session_id c) as [row|] eqn:Ht; cbn [fmap option_fmap option_map]; eexists; (split; [done|]); (split; [|done]).
  - cbn [snd]. destruct (sim_sessions _ _ _ Hsim1). destruct (rel_counters0 _ _ Ht). eapply sim_update_session; [done..|in_kinds].
  - by apply sim_update_absent.
Qed.

Lemma delete_keys id keys rows :
  foldl (λ rows key, delete_completion id key rows) rows keys =
  List.filter (λ r, negb (in_session id r && existsb (λ key : Epoch * JobId, (cr_epoch r =? as_i64 key.1)%Z && bool_decide (cr_job_id r = key.2)) keys)) rows.
Proof.
  revert rows. induction keys as [|key keys IH]; intros rows.
  - cbn. symmetry. apply filter_b_all, Forall_forall. intros r _. by rewrite andb_false_r.
  - cbn [foldl]. rewrite IH. unfold delete_completion. rewrite <- filter_and. apply List.filter_ext. intros r. cbn.
    unfold in_session. destruct (bool_decide (cr_session_id r = id)); cbn; [|done]. by rewrite negb_orb.
Qed.

Lemma sim_delete_applied n t s id keys : sim n t s → Forall (λ key : Epoch * JobId, key.1 < i64_bound) keys →
  sim n (delete_applied id keys t) (drop_applied id keys s).
Proof.
  intros Hsim Hkeys. pose proof Hsim as []. destruct sim_completions0.
  assert (∃ unapplied, drop_applied id keys s = s <| in_unapplied := unapplied |> ∧
    ∀ j, entry_vec unapplied j = if decide (id = j) then List.filter (λ c, negb (is_applied keys c)) (entry_vec (in_unapplied s) id) else entry_vec (in_unapplied s) j)
    as (unapplied & -> & Hvec).
  { destruct keys as [|key keys]; [|destruct (in_unapplied s !! id) as [rows|] eqn:Hrows].
    - exists (in_unapplied s). split; [by destruct s|]. intros j. case_decide; [subst j|done]. symmetry. apply filter_b_all, Forall_forall. done.
    - eexists. split; [unfold drop_applied; by rewrite Hrows|]. intros j. rewrite entry_vec_insert. unfold entry_vec. by rewrite Hrows.
    - exists (in_unapplied s). split; [unfold drop_applied; rewrite Hrows; by destruct s|]. intros j. case_decide; [subst j|done]. unfold entry_vec. by rewrite Hrows. }
  constructor; cbn; try done. rewrite delete_keys. constructor; intros j; rewrite Hvec.
  - rewrite filter_swap, rel_completions0. case_decide as Hj.
    + subst j. apply filter_encode. pose proof (unapplied_session _ _ _ id Hsim) as Hses.
      eapply Forall_impl; [apply Forall_and; split; [exact Hses|apply rel_keys0]|]. cbn. intros c [Hid [Hc _]]. unfold in_session. cbn.
      rewrite bool_decide_eq_true_2 by done. cbn. f_equal. unfold is_applied.
      clear -Hkeys Hc. induction Hkeys as [|key keys Hkey _ IH]; [done|]. cbn. rewrite IH. by rewrite Z_eqb_as_i64.
    + apply filter_b_all. rewrite <- rel_completions0. eapply Forall_impl; [apply Forall_filter_b|]. intros r Hr%bool_decide_eq_true. unfold in_session.
      by rewrite bool_decide_eq_false_2 by congruence.
  - case_decide; [|done]. eapply Forall_sublist; [apply sublist_filter_b|done].
Qed.

(** ** Queues *)

Lemma sim_enqueue_wake n t s id : sim n t s → sim n (sql_enqueue_wake id t) (enqueue_wake id s).
Proof. intros []. constructor; cbn; try done. by rewrite sim_wakes0. Qed.

Lemma job_roundtrip job child : jc_epoch job < i64_bound → job_from_row (job_to_row job child) = job <| jc_child := child |>.
Proof. intros Hj. unfold job_from_row, job_to_row. cbn. by rewrite as_u64_as_i64, lifetime_str by by apply small_u64. Qed.

Lemma sim_enqueue_job n t s job : sim n t s → jc_epoch job < i64_bound → jc_child job = None → sim n (sql_enqueue_job job t) (enqueue_job job s).
Proof.
  intros Hsim Hj Hchild. pose proof Hsim as []. unfold sql_enqueue_job, enqueue_job. rewrite sim_enqueued0. case_decide; [done|].
  constructor; cbn; try done. rewrite sim_jobs0, fmap_app. cbn. rewrite job_roundtrip by done. destruct job; cbn in *. by subst.
Qed.

Lemma sim_fault_cleared n t s : sim n t s → sim n (t <| sq_fault := None |>) (s <| in_fault := None |>).
Proof. intros []. by constructor. Qed.

(** ** Metadata and roots *)

Lemma sim_upsert_meta n t s id meta : sim n t s → small_meta meta = true →
  sim n (upsert_meta id meta t) (s <| in_session_meta := <[id := meta]> (in_session_meta s) |>).
Proof.
  intros [] Hm. constructor; cbn; try done. intros j. rewrite !lookup_insert. case_decide; [|done]. by rewrite <- (meta_roundtrip meta).
Qed.

Lemma sim_stamp_terminal n t s id now : sim n t s → now < i64_bound → sim n (sql_stamp_terminal id now t) (stamp_terminal id now s).
Proof.
  intros [] Hnow. constructor; cbn; try done. intros j. rewrite !lookup_insert. case_decide as Hj; [|done]. specialize (sim_meta0 id).
  destruct (in_session_meta s !! id) as [meta|], (tb_session_meta t !! id) as [row|]; cbn in *; try done.
  - injection sim_meta0 as Hmeta. symmetry in Hmeta. unfold meta_from_row in *. cbn in *. destruct (me_overlay row); cbn in *; [|done].
    injection Hmeta as <-. cbn. by rewrite as_u64_as_i64 by by apply small_u64.
  - unfold meta_from_row. cbn. by rewrite as_u64_as_i64 by by apply small_u64.
Qed.

Lemma sim_seal_turn n t s id seal : sim n t s → match seal with Some sl => ts_segment sl < i64_bound | None => True end →
  sim n (sql_seal_turn id seal t) (seal_turn id seal s).
Proof.
  intros Hsim Hs. destruct seal as [sl|]; [|done]. destruct Hsim. constructor; cbn; try done. intros stream segment Hseg.
  destruct (decide ((JournalStreamId_session id, ts_segment sl) = (stream, segment))) as [Heq|Hne].
  - injection Heq as <- <-. by rewrite !lookup_insert_eq.
  - rewrite lookup_insert_ne by done. rewrite lookup_insert_ne; [by apply sim_roots0|]. intros [= Hst Hsg%as_i64_inj]; [by rewrite Hst, Hsg in Hne|by apply small_u64..].
Qed.

(** ** Edges to children *)

(** The child has no edge of any kind. *)
Definition unbound (s : Inner) (child : SessionId) : bool :=
  bool_decide (in_delegations s !! child = None) && bool_decide (in_completion_notices s !! child = None) &&
  bool_decide (in_background_edges s !! child = None).

Lemma find_app_one {A} (p : A → bool) l x : List.find p (l ++ [x]) = match List.find p l with Some y => Some y | None => if p x then Some x else None end.
Proof. induction l as [|y l IH]; [done|]. cbn. by destruct (p y). Qed.

Lemma existsb_find {A} (p : A → bool) l : List.find p l = None → existsb p l = false.
Proof. induction l as [|y l IH]; [done|]. cbn. by destruct (p y). Qed.

Lemma find_delegation_snoc rows row child : find_delegation rows (dl_child row) = None →
  find_delegation (rows ++ [row]) child = if decide (dl_child row = child) then Some row else find_delegation rows child.
Proof.
  intros Hnone. unfold find_delegation in *. rewrite find_app_one. cbv beta. case_decide as Hc.
  - subst child. rewrite Hnone. by rewrite bool_decide_eq_true_2.
  - clear Hnone. rewrite (bool_decide_eq_false_2 _ Hc). by destruct (List.find _ _).
Qed.

Lemma find_delegation_absent rows child : find_delegation rows child = None → child ∉ dl_child <$> rows.
Proof. intros Hf (r & -> & Hr)%list_elem_of_fmap. eapply List.find_none in Hf; [|by apply list_elem_of_In]. by apply bool_decide_eq_false in Hf. Qed.

Lemma find_edge_absent rows child : find_edge rows child = None → child ∉ ed_child <$> rows.
Proof. intros Hf (r & -> & Hr)%list_elem_of_fmap. eapply List.find_none in Hf; [|by apply list_elem_of_In]. by apply bool_decide_eq_false in Hf. Qed.

Lemma NoDup_snoc_fmap {A B} (f : A → B) l x : NoDup (f <$> l) → f x ∉ f <$> l → NoDup (f <$> l ++ [x]).
Proof.
  intros Hl Hx. rewrite fmap_app. apply NoDup_app. split; [done|]. split; [|apply NoDup_singleton]. by intros y Hy ->%list_elem_of_singleton.
Qed.

Lemma find_edge_snoc rows row child : find_edge rows (ed_child row) = None →
  find_edge (rows ++ [row]) child = if decide (ed_child row = child) then Some row else find_edge rows child.
Proof.
  intros Hnone. unfold find_edge in *. rewrite find_app_one. cbv beta. case_decide as Hc.
  - subst child. rewrite Hnone. by rewrite bool_decide_eq_true_2.
  - clear Hnone. rewrite (bool_decide_eq_false_2 _ Hc). by destruct (List.find _ _).
Qed.

(** [children'] has one edge more. *)
Definition one_more (children children' : gmap SessionId (list SessionId)) (parent child : SessionId) : Prop :=
  ∀ p c, c ∈ entry_vec children' p ↔ c ∈ entry_vec children p ∨ p = parent ∧ c = child.

Lemma one_more_push m parent child : one_more m (entry_push m parent child) parent child.
Proof.
  intros p c. unfold entry_push. rewrite entry_vec_insert. case_decide as Hp; [subst p|naive_solver].
  rewrite elem_of_app, list_elem_of_singleton. naive_solver.
Qed.

Lemma one_more_add m parent child : one_more m (add_child parent child m) parent child.
Proof.
  intros p c. unfold add_child. rewrite entry_vec_insert. case_decide as Hp; [subst p|naive_solver].
  case_decide; [naive_solver|]. rewrite elem_of_app, list_elem_of_singleton. naive_solver.
Qed.

Lemma unbound_rows n t s child : sim n t s → unbound s child = true →
  find_delegation (tb_delegations t) child = None ∧ find_edge (tb_background_edges t) child = None ∧ tb_completion_notices t !! child = None.
Proof.
  intros [] Hu. destruct sim_edges0. unfold unbound in Hu. rewrite !andb_true_iff, !bool_decide_eq_true in Hu. destruct Hu as [[Hd Hn] He].
  rewrite rel_delegation0, Hd. rewrite rel_notice0 in Hn. rewrite rel_edge0 in He. split; [done|].
  split; [by destruct (find_edge _ _)|by destruct (tb_completion_notices t !! child)].
Qed.

Lemma sim_insert_delegation n t s child job children' : sim n t s → unbound s child = true → jc_epoch job < i64_bound →
  one_more (in_child_index s) children' (jc_session_id job) child →
  sim n (insert_delegation child job t) (s <| in_child_index := children' |> <| in_delegations := <[child := job]> (in_delegations s) |>).
Proof.
  intros Hsim Hu Hj Hch. destruct (unbound_rows _ _ _ _ Hsim Hu) as (Hd & He & Hn). destruct Hsim. unfold insert_delegation, insert_or_ignore.
  rewrite (existsb_find _ _ Hd). cbn [snd]. constructor; cbn; try done. destruct sim_edges0.
  pose proof (λ c, find_delegation_snoc (tb_delegations t) (delegation_row child job) c Hd) as Hfind. constructor; try done.
  - intros c. etrans; [apply Hfind|]. rewrite lookup_insert, rel_delegation0. cbn. by case_decide; [subst c|].
  - destruct rel_unique0. split; [|done]. apply NoDup_snoc_fmap; [done|]. by apply find_delegation_absent.
  - intros c job'. rewrite lookup_insert. case_decide; [by intros [= <-]|apply rel_delegation_epoch0].
  - intros p c. rewrite (Hch p c), rel_children0. setoid_rewrite Hfind. cbn. destruct (decide (child = c)) as [<-|Hc]; [|naive_solver].
    rewrite Hd, He, Hn. naive_solver.
Qed.

Lemma sim_insert_edge n t s child parent label children' : sim n t s → unbound s child = true →
  one_more (in_child_index s) children' parent child →
  sim n (insert_edge child parent label t) (s <| in_child_index := children' |> <| in_background_edges := <[child := label]> (in_background_edges s) |>).
Proof.
  intros Hsim Hu Hch. destruct (unbound_rows _ _ _ _ Hsim Hu) as (Hd & He & Hn). destruct Hsim. unfold insert_edge, insert_or_ignore.
  rewrite (existsb_find _ _ He). cbn [snd]. constructor; cbn; try done. destruct sim_edges0.
  pose proof (λ c, find_edge_snoc (tb_background_edges t) (mkEdgeRow child parent label) c He) as Hfind. constructor; try done.
  - destruct rel_unique0. split; [done|]. apply NoDup_snoc_fmap; [done|]. by apply find_edge_absent.
  - intros c. rewrite lookup_insert, Hfind, rel_edge0. cbn. by case_decide.
  - intros p c. rewrite (Hch p c), rel_children0. setoid_rewrite Hfind. cbn. destruct (decide (child = c)) as [<-|Hc]; [|naive_solver].
    rewrite Hd, He, Hn. naive_solver.
Qed.

Lemma sim_insert_notice n t s child parent call_id children' : sim n t s → unbound s child = true →
  one_more (in_child_index s) children' parent child →
  sim n (insert_notice child parent call_id t)
    (s <| in_child_index := children' |> <| in_completion_notices := or_insert (in_completion_notices s) child (parent, call_id) |>).
Proof.
  intros Hsim Hu Hch. destruct (unbound_rows _ _ _ _ Hsim Hu) as (Hd & He & Hn). destruct Hsim. unfold insert_notice, or_insert.
  destruct sim_edges0. rewrite (rel_notice0 child), Hn. cbn [fmap option_fmap option_map]. constructor; cbn; try done. constructor; try done.
  - intros c. rewrite !lookup_insert, rel_notice0. by case_decide.
  - intros c. rewrite rel_fired0. setoid_rewrite lookup_insert. case_decide as Hc; [|done]. subst c. rewrite Hn. naive_solver.
  - intros p c. rewrite (Hch p c), rel_children0. setoid_rewrite lookup_insert. destruct (decide (child = c)) as [<-|Hc]; [|naive_solver].
    rewrite Hd, He, Hn. naive_solver.
Qed.

Lemma sim_bind_edge n t s id edge : sim n t s → match edge with None => True | _ => unbound s id = true end →
  match edge with Some (Delegation job) => jc_epoch job < i64_bound | _ => True end → sim n (sql_bind_edge id edge t) (bind_edge id edge s).
Proof.
  intros Hsim Hu Hj. destruct edge as [[job|parent call_id|parent label]|]; [..|done].
  - by apply sim_insert_delegation; [..|apply one_more_add].
  - by apply sim_insert_notice; [..|apply one_more_add].
  - by apply sim_insert_edge; [..|apply one_more_add].
Qed.

Lemma sim_fire_notice n t s cp : sim n t s → sim n (sql_fire_notice cp t) (fire_notice cp s).
Proof.
  intros Hsim. pose proof Hsim as []. destruct sim_edges0. unfold sql_fire_notice, fire_notice. rewrite rel_notice0.
  destruct (tb_completion_notices t !! cp_session_id cp) as [row|] eqn:Hrow; cbn [fmap option_fmap option_map]; [|done].
  assert (cp_session_id cp ∈ in_notices_fired s ↔ nt_notified row ≠ 0%Z) as Hfired by (rewrite rel_fired0; naive_solver).
  destruct (Z.eqb_spec (nt_notified row) 0) as [Hz|Hz]; [rewrite decide_False by tauto|by rewrite decide_True by tauto].
  constructor; cbn; try done; [|by rewrite sim_notices0]. constructor; try done.
  - intros c. rewrite rel_notice0, lookup_insert. case_decide as Hc; [subst c; by rewrite Hrow|done].
  - intros c. rewrite elem_of_union, elem_of_singleton, rel_fired0. setoid_rewrite lookup_insert. destruct (decide (cp_session_id cp = c)) as [<-|Hc]; [|naive_solver].
    split; [|by left]. intros _. eexists. by split.
  - intros p c. rewrite rel_children0. setoid_rewrite lookup_insert. destruct (decide (cp_session_id cp = c)) as [<-|Hc]; [|done]. rewrite Hrow. naive_solver.
Qed.

(** ** Parked approvals *)

Lemma park_rows_snoc rows approvals a : park_rows rows (approvals ++ [a]) =
  let rows := park_rows rows approvals in if existsb (same_job (pa_job_id a)) rows then rows else rows ++ [a].
Proof. unfold park_rows. rewrite foldl_app. cbn. done. Qed.

Lemma same_job_absent job rows : existsb (same_job job) rows = false → job ∉ pa_job_id <$> rows.
Proof.
  intros Hex (a & -> & Ha)%list_elem_of_fmap. apply not_true_iff_false in Hex. apply Hex, existsb_exists. exists a.
  split; [by apply list_elem_of_In|by apply bool_decide_eq_true].
Qed.

Lemma same_approval_row job l : Forall (λ a, (λ r, bool_decide (ap_job_id r = job)) (approval_row a) = same_job job a) l.
Proof. apply Forall_forall. done. Qed.

Lemma sim_park_rows n t s id approvals : sim n t s → Forall (λ a, pa_session_id a = id ∧ pa_decision a = None ∧ pa_epoch a < i64_bound) approvals →
  sim n (t <| tb_pending_approvals := insert_approvals approvals (tb_pending_approvals t) |>)
    (s <| in_pending_approvals := <[id := park_rows (entry_vec (in_pending_approvals s) id) approvals]> (in_pending_approvals s) |>).
Proof.
  intros [] Happ. constructor; cbn; try done. revert Happ. induction approvals as [|a approvals IH] using rev_ind; intros Happ.
  - cbn. destruct sim_approvals0. constructor; intros j; rewrite entry_vec_insert; case_decide; try subst j; done.
  - apply Forall_app in Happ as [Happ Ha]. apply Forall_singleton in Ha as (Hid & Hdec & He). specialize (IH Happ). destruct IH as [Hrows Hep Hnd].
    unfold insert_approvals in *. rewrite foldl_app, park_rows_snoc. cbn zeta. cbn [foldl]. set (tb := foldl _ _ approvals) in *. set (mem := park_rows _ approvals) in *.
    assert (existsb (same_approval (pa_session_id a) (pa_job_id a)) tb = existsb (same_job (pa_job_id a)) mem) as Hex.
    { unfold same_approval. rewrite existsb_filter_b, Hid. fold (approval_in id). rewrite Hrows, entry_vec_insert, decide_True by done.
      apply existsb_encode, same_approval_row. }
    unfold insert_or_ignore. rewrite Hex. destruct (existsb (same_job (pa_job_id a)) mem) eqn:Hm; cbn [snd]; [by constructor|].
    constructor; intros j; specialize (Hrows j); specialize (Hep j); specialize (Hnd j); rewrite entry_vec_insert in *; case_decide as Hj.
    + subst j. rewrite List.filter_app, Hrows, fmap_app. f_equal. cbn. unfold approval_in at 1. cbn. rewrite bool_decide_eq_true_2 by done.
      unfold approval_row. cbn. by rewrite Hdec.
    + rewrite List.filter_app, Hrows. cbn. unfold approval_in at 1. cbn. rewrite bool_decide_eq_false_2 by congruence. by rewrite app_nil_r.
    + apply Forall_app. split; [done|]. by constructor.
    + done.
    + rewrite fmap_app. apply NoDup_app. split; [done|]. split; [|apply NoDup_singleton]. intros job Hin ->%list_elem_of_singleton. by apply (same_job_absent _ _ Hm).
    + done.
Qed.

Lemma find_approval n t s id job : sim n t s →
  List.find (same_approval id job) (tb_pending_approvals t) = approval_row <$> List.find (same_job job) (entry_vec (in_pending_approvals s) id).
Proof.
  intros []. destruct sim_approvals0. unfold same_approval. rewrite find_filter_b. fold (approval_in id). rewrite rel_approvals0.
  apply find_encode, same_approval_row.
Qed.

Lemma update_first_unique (f : ParkedApproval → ParkedApproval) job l : NoDup (pa_job_id <$> l) →
  update_first (same_job job) f l = update_where (same_job job) f l.
Proof.
  induction l as [|a l IH]; [done|]. rewrite fmap_cons, NoDup_cons. intros [Ha Hl]. unfold update_where in *. cbn.
  destruct (same_job job a) eqn:Hs; [|by rewrite IH]. f_equal. apply bool_decide_eq_true in Hs. symmetry. apply update_where_id, Forall_forall.
  intros b Hb. apply bool_decide_eq_false. intros Hj. apply Ha. rewrite Hs, <- Hj. by apply list_elem_of_fmap_2.
Qed.

Lemma sim_answer_row n t s id job allow : sim n t s →
  sim n (t <| tb_pending_approvals := update_where (same_approval id job) (λ r, r <| ap_decision := Some (bool_i64 allow) |>) (tb_pending_approvals t) |>)
    (s <| in_pending_approvals := <[id := update_first (same_job job) (λ r, r <| pa_decision := Some allow |>) (entry_vec (in_pending_approvals s) id)]>
            (in_pending_approvals s) |>).
Proof.
  intros []. constructor; cbn; try done. destruct sim_approvals0. rewrite update_first_unique by done.
  assert (∀ (P : ParkedApproval → Prop) l, (∀ a, P a → P (a <| pa_decision := Some allow |>)) → Forall P l →
    Forall P (update_where (same_job job) (λ r, r <| pa_decision := Some allow |>) l)) as Hfor.
  { intros P l HP Hl. apply Forall_fmap. eapply Forall_impl; [exact Hl|]. intros a Ha. unfold compose. destruct (same_job job a); [by apply HP|done]. }
  constructor; intros j; rewrite entry_vec_insert.
  - rewrite filter_update_where by done. case_decide as Hj.
    + subst j. rewrite rel_approvals0. apply update_where_encode. pose proof (Forall_filter_b (approval_in id) (tb_pending_approvals t)) as Hall.
      rewrite rel_approvals0, Forall_fmap in Hall. eapply Forall_impl; [exact Hall|]. intros a Ha. cbn in Ha. unfold same_approval, approval_in in *. rewrite Ha.
      change (bool_decide (ap_job_id (approval_row a) = job)) with (same_job job a). by destruct (same_job job a).
    + rewrite rel_approvals0. apply update_where_id. rewrite <- rel_approvals0. eapply Forall_impl; [apply Forall_filter_b|]. intros r Hr%bool_decide_eq_true.
      unfold same_approval. by rewrite bool_decide_eq_false_2 by congruence.
  - case_decide; [|done]. by apply Hfor.
  - case_decide as Hj; [|done]. subst j.
    assert (pa_job_id <$> update_where (same_job job) (λ r, r <| pa_decision := Some allow |>) (entry_vec (in_pending_approvals s) id) =
            pa_job_id <$> entry_vec (in_pending_approvals s) id) as Hjobs.
    { unfold update_where. rewrite <- list_fmap_compose. apply list_fmap_ext. intros ? a _. cbn. by case_match. }
    specialize (rel_jobs0 id). rewrite <- Hjobs in rel_jobs0. exact rel_jobs0.
Qed.
