(* ===== verification/SqliteSim.v ===== *)
(** * The SQLite store behaves as the in-memory one

    Run side by side from fresh stores, the two implementations of the session
    lifecycle answer alike for as long as the calls are [legal], and end
    related ([sqlite_refines]).  What [legal] leaves out is where they part;
    the examples show each case. *)

From S2P Require Import Prelude Text Common Approval StoreTypes Store StoreInv Journal Registry StoreSteps Sqlite SqliteRel.

#[local] Open Scope N_scope.
#[local] Open Scope daemon_scope.

(** ** Calls and replies *)

Inductive Reply :=
| RUnit (r : result StoreError unit)
| RBool (r : result StoreError bool)
| RSeq (r : result StoreError N)
| RRows (r : result StoreError (list InboxSplice))
| RActivation (r : result StoreError Activation)
| RCommit (r : result StoreError TurnCommit)
| RChild (r : result StoreError SessionId)
| RJob (job : option JobCommand)
| RWake (id : option SessionId)
| RNotice (notice : option CompletionNotice).

Definition reply {A S} (con : result StoreError A → Reply) (m : M S StoreError A) (s : S) : Reply * S := (con (m s).1, (m s).2).
Definition silent {S} (f : S → S) (s : S) : Reply * S := (RUnit (Ok tt), f s).
Definition popped {A S} (con : option A → Reply) (p : option A * S) : Reply * S := (con p.1, p.2).

(** The count a pruning returns is not compared. *)
Definition mem_step (op : StoreOp) : Inner → Reply * Inner :=
  match op with
  | OpSetFault f => silent (set_fault f)
  | OpCreateSession id p b => reply RUnit (create_session id p b)
  | OpCreateIdle id p b => reply RUnit (create_idle id p b)
  | OpCreateRunnable spec now => reply RBool (create_runnable spec now)
  | OpReopenIfSettled id => reply RBool (reopen_if_settled id)
  | OpMarkReadyIfIdle id => reply RBool (mark_ready_if_idle id)
  | OpAppendSplice n now => reply RSeq (append_splice n now)
  | OpClaimSplices id f => reply RRows (claim_splices id f)
  | OpPruneConsumed c => silent (λ s, (prune_consumed_splices c s).2)
  | OpAcquireLease id => reply RSeq (acquire_activation_lease id)
  | OpLoad id f => reply RActivation (load_for_activation id f)
  | OpCheckpoint cp job f => reply RUnit (checkpoint_and_enqueue cp job f)
  | OpMarkCompleted cp f now => reply RUnit (mark_completed cp f now)
  | OpCommitTurn cp seal f => reply RCommit (commit_turn cp seal f)
  | OpRecordCompletion c => reply RUnit (record_completion_and_wake c)
  | OpBindDelegation child job => reply RUnit (bind_delegation child job)
  | OpEnqueueDetached job => reply RChild (enqueue_detached_job job)
  | OpBindNotice c p i => reply RUnit (bind_completion_notice c p i)
  | OpDequeueNotice => λ s, popped RNotice (dequeue_completion_notice s)
  | OpRecordChildEdge p c l => reply RUnit (record_child_edge p c l)
  | OpEnqueueWake id => silent (enqueue_wake id)
  | OpParkApproval cp a f => reply RUnit (park_approval cp a f)
  | OpAnswerApproval id j a p r => reply RBool (answer_approval id j a p r)
  | OpDequeueJob => λ s, popped RJob (dequeue_job s)
  | OpDequeueWake => λ s, popped RWake (dequeue_wake s)
  | OpSwapSnapshot id e n => reply RBool (swap_snapshot_if_dormant id e n)
  | OpSetMeta id m => reply RUnit (set_session_meta id m)
  | op => silent (run_op op)
  end.

Definition sql_step (op : StoreOp) : SqliteStore → Reply * SqliteStore :=
  match op with
  | OpSetFault f => silent (sql_set_fault f)
  | OpCreateSession id p b => reply RUnit (sql_create_session id p b)
  | OpCreateIdle id p b => reply RUnit (sql_create_idle id p b)
  | OpCreateRunnable spec now => reply RBool (sql_create_runnable spec now)
  | OpReopenIfSettled id => reply RBool (sql_reopen_if_settled id)
  | OpMarkReadyIfIdle id => reply RBool (sql_mark_ready_if_idle id)
  | OpAppendSplice n now => reply RSeq (sql_append_splice n now)
  | OpClaimSplices id f => reply RRows (sql_claim_splices id f)
  | OpPruneConsumed c => silent (λ t, (sql_prune_consumed_splices c t).2)
  | OpAcquireLease id => reply RSeq (sql_acquire_activation_lease id)
  | OpLoad id f => reply RActivation (sql_load_for_activation id f)
  | OpCheckpoint cp job f => reply RUnit (sql_checkpoint_and_enqueue cp job f)
  | OpMarkCompleted cp f now => reply RUnit (sql_mark_completed cp f now)
  | OpCommitTurn cp seal f => reply RCommit (sql_commit_turn cp seal f)
  | OpRecordCompletion c => reply RUnit (sql_record_completion_and_wake c)
  | OpBindDelegation child job => reply RUnit (sql_bind_delegation child job)
  | OpEnqueueDetached job => reply RChild (sql_enqueue_detached_job job)
  | OpBindNotice c p i => reply RUnit (sql_bind_completion_notice c p i)
  | OpDequeueNotice => λ t, popped RNotice (sql_dequeue_completion_notice t)
  | OpRecordChildEdge p c l => reply RUnit (sql_record_child_edge p c l)
  | OpEnqueueWake id => silent (sql_enqueue_wake id)
  | OpParkApproval cp a f => reply RUnit (sql_park_approval cp a f)
  | OpAnswerApproval id j a p r => reply RBool (sql_answer_approval id j a p r)
  | OpDequeueJob => λ t, popped RJob (sql_dequeue_job t)
  | OpDequeueWake => λ t, popped RWake (sql_dequeue_wake t)
  | OpSwapSnapshot id e n => reply RBool (sql_swap_snapshot_if_dormant id e n)
  | OpSetMeta id m => reply RUnit (sql_set_session_meta id m)
  | _ => silent id
  end.

Lemma mem_step_run_op op s : (mem_step op s).2 = run_op op s.
Proof. by destruct op. Qed.

(** ** Where the two agree *)

Definition small_checkpoint (cp : Checkpoint) : bool :=
  small (cp_epoch cp) && small_option (cp_consumed_splices cp) && forallb (λ key : Epoch * JobId, small key.1) (cp_applied_completions cp).

Definition known (s : Inner) (id : SessionId) : bool := bool_decide (is_Some (in_sessions s !! id)).

(** Numbers fit the columns; a completion is not delivered again once a commit
    folded it; a child is bound once and its parent exists when it completes; a
    park is for some approvals of its own session. *)
Definition legal (s : Inner) (op : StoreOp) : bool :=
  match op with
  | OpSetFault _ | OpReopenIfSettled _ | OpMarkReadyIfIdle _ | OpAcquireLease _ | OpDequeueNotice | OpEnqueueWake _
  | OpDequeueJob | OpDequeueWake | OpSwapSnapshot _ _ _ => true
  | OpCreateSession _ p _ | OpCreateIdle _ p _ => small p
  | OpCreateRunnable spec now =>
      small (rs_partition spec) && small now &&
      match rs_meta spec with Some meta => small_meta meta | None => true end &&
      match rs_edge spec with Some (Delegation job) => small (jc_epoch job) | _ => true end &&
      match rs_edge spec with None => true | _ => known s (rs_id spec) || unbound s (rs_id spec) end
  | OpAppendSplice _ now => small now
  | OpClaimSplices _ f | OpLoad _ f => small f
  | OpPruneConsumed c => small c
  | OpCheckpoint cp job _ => small_checkpoint cp && small (jc_epoch job) && bool_decide (jc_child job = None)
  | OpMarkCompleted cp _ now =>
      small_checkpoint cp && small now &&
      match in_delegations s !! cp_session_id cp with
      | Some job => known s (jc_session_id job) && fresh_or_open s (jc_session_id job) (jc_epoch job) (jc_job_id job)
      | None => true
      end
  | OpCommitTurn cp seal _ => small_checkpoint cp && match seal with Some sl => small (ts_segment sl) | None => true end
  | OpRecordCompletion c => small (jp_epoch c) && fresh_or_open s (jp_session_id c) (jp_epoch c) (jp_job_id c)
  | OpBindDelegation child job => small (jc_epoch job) && unbound s child
  | OpEnqueueDetached job => small (jc_epoch job)
  | OpBindNotice child _ _ | OpRecordChildEdge _ child _ => unbound s child
  | OpParkApproval cp approvals _ =>
      small_checkpoint cp && bool_decide (approvals ≠ []) && bool_decide (in_fault s ≠ Some AfterSnapshot) &&
      forallb (λ a, bool_decide (pa_session_id a = cp_session_id cp) && bool_decide (pa_decision a = None) && small (pa_epoch a)) approvals
  | OpAnswerApproval id job _ _ _ =>
      match List.find (same_job job) (entry_vec (in_pending_approvals s) id) with
      | Some row => fresh_or_open s id (pa_epoch row) job
      | None => true
      end
  | OpSetMeta _ meta => small_meta meta
  | _ => false
  end.

Definition is_Ok {E A} (r : result E A) : Prop := ∃ a, r = Ok a.

(** The same answer, and related states. *)
Definition agree {A} (n : N) (m1 : Sql A) (m2 : Store A) (t : SqliteStore) (s : Inner) : Prop :=
  (m1 t).1 = (m2 s).1 ∧ sim n (m1 t).2 (m2 s).2.

Lemma agree_bind {A B} n (m1 : Sql A) m2 (f : A → Sql B) (g : A → Store B) t s : agree n m1 m2 t s →
  (∀ a t' s', m1 t = (Ok a, t') → m2 s = (Ok a, s') → sim n t' s' → agree n (f a) (g a) t' s') → agree n (m1 ≫= f) (m2 ≫= g) t s.
Proof.
  unfold agree, mbind, M_bind. destruct (m1 t) as [[a|e] t'], (m2 s) as [[b|e'] s']; intros [Heq Hsim] Hk; cbn in *; simplify_eq; [|done].
  by apply Hk.
Qed.

Lemma agree_modify n f g t s : sim n (f t) (g s) → agree n (modify f) (modify g) t s.
Proof. done. Qed.

Lemma agree_ret {A} n (a : A) t s : sim n t s → agree n (mret a) (mret a) t s.
Proof. done. Qed.

Lemma agree_take_fault n p t s : sim n t s → agree n (sql_take_fault p) (take_fault p) t s.
Proof.
  intros Hsim. unfold agree, sql_take_fault, take_fault. rewrite (sim_fault _ _ _ Hsim). case_decide; [|done].
  split; [done|]. by apply sim_fault_cleared.
Qed.

(** A transaction that commits, and one that only looked. *)
Lemma agree_transaction {A} n (m1 : Sql A) m2 t s : agree n m1 m2 t s →
  (∀ e t', m1 t = (Err e, t') → t' = t <| sq_fault := sq_fault t' |>) → agree n (transaction m1) m2 t s.
Proof. intros Ha Hclean. unfold agree, transaction in *. destruct (m1 t) as [[a|e] t'] eqn:Hm; [done|]. by rewrite <- (Hclean e t'). Qed.

Lemma transaction_guard {A} id fence (m : Sql A) t :
  transaction (_ ← sql_check_fence id fence; m) t = (_ ← sql_check_fence id fence; transaction m) t.
Proof.
  unfold transaction, sql_check_fence, fence_of, row_of. run_code. destruct (tb_session_record t !! id) as [row|]; [|by destruct t].
  destruct (_ <? _); [by destruct t|done].
Qed.

Lemma transaction_fault {A} p (m : Sql A) t : transaction (_ ← sql_take_fault p; m) t = (_ ← sql_take_fault p; transaction m) t.
Proof. unfold transaction, sql_take_fault. run_code. by case_decide. Qed.

Lemma transaction_total {A} n (m1 : Sql A) m2 t s : is_Ok (m2 s).1 → agree n m1 m2 t s → agree n (transaction m1) m2 t s.
Proof. intros [a Ha] Hag. apply agree_transaction; [done|]. intros e t' Hm. destruct Hag as [Hr _]. rewrite Hm, Ha in Hr. done. Qed.

(** The row of the session on both sides; [cbn] keeps the tables abstract. *)
Ltac sql_unfold := unfold transaction, sql_check_fence, fence_of, turn_seq_of, row_of, sql_take_fault, find_session, check_fence, take_fault, write_session.
Ltac at_row Hsim id row Hrow Hmem :=
  pose proof (sim_row _ _ _ id Hsim) as Hmem; lazymatch type of Hmem with _ = _ <$> ?o => destruct o as [row|] eqn:Hrow end; cbn [fmap option_fmap option_map] in Hmem.

Section steps.
Context (n : N) (t : SqliteStore) (s : Inner) (Hsim : sim n t s) (Hrows : rows_wf s) (Hn : n + 1 < i64_bound).

Let Hsim' : sim (n + 1) t s.
Proof. eapply sim_mono; [|done]. lia. Qed.

Lemma agree_create_session id p b : p < i64_bound → agree (n + 1) (sql_create_session id p b) (create_session id p b) t s.
Proof.
  intros Hp. unfold sql_create_session, create_session, sql_insert_fresh, insert_fresh, agree. sql_unfold. run_code.
  at_row Hsim' id row Hrow Hmem; rewrite Hmem; [done|]. split; [done|].
  pose proof (sim_fresh_session _ t s id p "ready" b None (in_execution_policy s) Hsim' Hrow Hp ltac:(in_kinds)) as Hins. apply Hins.
  intros j. case_decide as Hj; [|done]. subst j. destruct (sim_sessions _ _ _ Hsim'). by rewrite rel_policy, Hrow.
Qed.

Lemma agree_create_idle id p b : p < i64_bound → agree (n + 1) (sql_create_idle id p b) (create_idle id p b) t s.
Proof.
  intros Hp. unfold sql_create_idle, create_idle, sql_insert_fresh, insert_fresh, agree. sql_unfold. run_code.
  at_row Hsim' id row Hrow Hmem; rewrite Hmem; [done|]. split; [done|].
  apply (sim_fresh_session _ t s id p "idle" b (Some InteractiveRoot) (<[id := InteractiveRoot]> (in_execution_policy s))); [done..|in_kinds|].
  intros j. by rewrite lookup_insert.
Qed.

(** The token is current on both sides or on neither. *)
Lemma agree_guard {A} k id fence (m1 : Sql A) (m2 : SessionRecord → Store A) : sim k t s →
  (∀ row, tb_session_record t !! id = Some row → as_u64 (ro_fence row) ≤ fence → agree k m1 (m2 (session_from_row id row)) t s) →
  agree k (_ ← sql_check_fence id fence; m1) (rec ← find_session id; _ ← check_fence rec fence; m2 rec) t s.
Proof.
  intros Hk Hag. unfold agree, sql_check_fence, fence_of, row_of, find_session, check_fence in *. run_code.
  at_row Hk id row Hrow Hmem; rewrite Hmem; [|done]. cbn [sr_fence session_from_row].
  destruct (N.ltb_spec fence (as_u64 (ro_fence row))); [done|]. by apply Hag.
Qed.

Lemma agree_fault_then {A} k p (m1 : Sql A) (m2 : Store A) : sim k t s → agree k m1 m2 t s →
  agree k (_ ← sql_take_fault p; m1) (_ ← take_fault p; m2) t s.
Proof.
  intros Hk Hag. unfold agree, sql_take_fault, take_fault in *. run_code. rewrite (sim_fault _ _ _ Hk). case_decide; [|done].
  split; [done|]. by apply sim_fault_cleared.
Qed.

Lemma row_facts k id row : sim k t s → tb_session_record t !! id = Some row →
  (0 ≤ ro_fence row ≤ Z.of_N k)%Z ∧ (0 ≤ ro_turn_seq row ≤ Z.of_N k)%Z ∧ ro_status_kind row ∈ status_kinds.
Proof. intros [] Hrow. destruct sim_sessions. destruct (rel_counters _ _ Hrow). split_and!; try lia. by apply (rel_kind _ _ Hrow). Qed.

Lemma agree_reopen id : agree (n + 1) (sql_reopen_if_settled id) (reopen_if_settled id) t s.
Proof.
  unfold sql_reopen_if_settled, reopen_if_settled, agree. sql_unfold. run_code. at_row Hsim' id row Hrow Hmem; rewrite Hmem; [|done].
  destruct (row_facts _ _ _ Hsim' Hrow) as (Hf & Ht & Hkind). destruct (status_kind_known _ (ro_status_job row) Hkind) as (Hc & _).
  cbn [sr_status session_from_row]. destruct (decide (ro_status_kind row = "completed")) as [Hk|Hk].
  - rewrite (proj2 Hc Hk). split; [done|]. by eapply sim_update_session; [..|in_kinds].
  - destruct (status_from_row _ _); try done. by destruct Hk; apply Hc.
Qed.

Lemma agree_mark_ready id : agree (n + 1) (sql_mark_ready_if_idle id) (mark_ready_if_idle id) t s.
Proof.
  unfold sql_mark_ready_if_idle, mark_ready_if_idle, agree. sql_unfold. run_code. at_row Hsim' id row Hrow Hmem; rewrite Hmem; [|done].
  destruct (row_facts _ _ _ Hsim' Hrow) as (Hf & Ht & Hkind). destruct (status_kind_known _ (ro_status_job row) Hkind) as (_ & Hi & _).
  cbn [sr_status session_from_row]. destruct (decide (ro_status_kind row = "idle")) as [Hk|Hk].
  - rewrite (proj2 Hi Hk). split; [done|]. by eapply sim_update_session; [..|in_kinds].
  - destruct (status_from_row _ _); try done. by destruct Hk; apply Hi.
Qed.

Lemma agree_swap id expected new : agree (n + 1) (sql_swap_snapshot_if_dormant id expected new) (swap_snapshot_if_dormant id expected new) t s.
Proof.
  unfold sql_swap_snapshot_if_dormant, swap_snapshot_if_dormant, agree. sql_unfold. run_code. at_row Hsim' id row Hrow Hmem; rewrite Hmem; [|done].
  destruct (row_facts _ _ _ Hsim' Hrow) as (Hf & Ht & Hkind). destruct (status_kind_known _ (ro_status_job row) Hkind) as (_ & _ & Ha).
  cbn [sr_status sr_snapshot session_from_row]. destruct (decide (ro_status_kind row ≠ "active" ∧ ro_snapshot row = expected)) as [[Hk He]|Hne].
  - rewrite decide_False by (rewrite Ha; tauto). split; [done|]. by eapply sim_update_session.
  - rewrite decide_True; [done|]. rewrite Ha. destruct (decide (ro_status_kind row = "active")); [by left|]. right. tauto.
Qed.

Lemma agree_acquire id : agree (n + 1) (sql_acquire_activation_lease id) (acquire_activation_lease id) t s.
Proof.
  unfold sql_acquire_activation_lease, acquire_activation_lease, agree. sql_unfold. run_code. at_row Hsim' id row Hrow Hmem; rewrite Hmem; [|done].
  destruct (row_facts _ _ _ Hsim Hrow) as (Hf & Ht & Hkind). cbn [sr_fence session_from_row]. split; [done|].
  assert (as_u64 (ro_fence row) = Z.to_N (ro_fence row)) as Hold by (unfold as_u64; rewrite Z.mod_small by (unfold i64_bound, u64_bound in *; lia); done).
  assert (FenceToken_next (as_u64 (ro_fence row)) = Z.to_N (ro_fence row) + 1) as Hnext.
  { unfold FenceToken_next. rewrite Hold. apply wrap64_small. unfold i64_bound, u64_bound in *. lia. }
  eapply sim_update_session; [done|done| |done| |cbn; lia|in_kinds]; cbn.
  - unfold session_from_row. cbn. by rewrite as_u64_as_i64 by (rewrite Hnext; unfold i64_bound, u64_bound in *; lia).
  - rewrite Hnext, as_i64_small by lia. lia.
Qed.

Lemma agree_append m now : now < i64_bound → agree (n + 1) (sql_append_splice m now) (append_splice m now) t s.
Proof.
  intros Hnow. unfold sql_append_splice, append_splice, agree, transaction. sql_unfold. run_code.
  at_row Hsim' (ns_session_id m) row Hrow Hmem; rewrite Hmem; [|by destruct t].
  destruct (sim_inbox _ _ _ Hsim). rewrite find_filter_b, rel_rows, (find_encode _ _ (λ r, bool_decide (is_origin_op r = ns_origin_op m))).
  2:{ apply Forall_forall. intros r _. unfold splice_to_row. by destruct (claim_columns _) as [[? ?] ?]. }
  destruct (List.find _ _) as [r|] eqn:Hfind; cbn [fmap option_fmap option_map].
  { split; [|done]. cbn. apply List.find_some in Hfind as [Hin%list_elem_of_In _]. specialize (rel_small (ns_session_id m)). rewrite Forall_forall in rel_small.
    destruct (rel_small r Hin) as (Hseq & _). unfold splice_to_row. destruct (claim_columns _) as [[? ?] ?]. cbn. by rewrite as_u64_as_i64 by by apply small_u64. }
  destruct (sim_insert_splice n t s (ns_session_id m) (ns_kind m) (ns_payload m) (ns_origin_op m) (ns_origin m) now Hsim Hn Hnow) as (t1 & Hins & Hrec & Hsim1).
  { apply Forall_forall. intros r Hr Heq. eapply List.find_none in Hfind; [|by apply list_elem_of_In]. by apply bool_decide_eq_false in Hfind. }
  rewrite Hins. set (s1 := push_splice _ _ s) in *. change (push_splice (ns_session_id m) (new_row m now) s) with s1.
  assert (tb_session_record t1 !! ns_session_id m = Some row) as Hrow1 by by rewrite Hrec.
  destruct (row_facts _ _ _ Hsim' Hrow) as (Hf & Ht & Hkind). destruct (status_kind_known _ (ro_status_job row) Hkind) as (_ & Hi & _).
  cbn [sr_status session_from_row fst snd].
  destruct (decide (ro_status_kind row = "idle")) as [Hk|Hk].
  - rewrite (proj2 Hi Hk). split; [done|]. eapply sim_update_session; [done|done|..]; rewrite decide_True by done; [done..|in_kinds].
  - assert (sim (n + 1) (update_session (ns_session_id m) (λ r, if decide (ro_status_kind r = "idle") then r <| ro_status_kind := "ready" |> else r) t1) s1) as Hend.
    { unfold update_session. rewrite alter_id; [by destruct t1|]. intros row'. rewrite Hrow1. intros [= <-]. by rewrite decide_False. }
    destruct (status_from_row _ _); try done. by destruct Hk; apply Hi.
Qed.

Lemma agree_claim id fence : fence < i64_bound → agree (n + 1) (sql_claim_splices id fence) (claim_splices id fence) t s.
Proof.
  intros Hf. unfold agree, sql_claim_splices. rewrite transaction_guard. apply agree_guard; [done|]. intros row Hrow _.
  destruct (sim_claim _ _ _ id fence Hsim' Hf) as (t' & Hc & Hs). unfold agree, transaction, claim_inbox. rewrite Hc.
  destruct (claim_splices_locked id fence s). by cbn in *.
Qed.

Lemma agree_load id fence : fence < i64_bound → agree (n + 1) (sql_load_for_activation id fence) (load_for_activation id fence) t s.
Proof.
  intros Hf. unfold agree, sql_load_for_activation, load_for_activation, transaction. sql_unfold. run_code.
  at_row Hsim' id row Hrow Hmem; rewrite Hmem; [|by destruct t].
  destruct (sim_claim _ _ _ id fence Hsim' Hf) as (t' & Hc & Hs). unfold claim_inbox. rewrite Hc.
  destruct (claim_splices_locked id fence s) as [rows s']. cbn in *. split; [|done]. do 2 f_equal.
  - destruct (sim_completions _ _ _ Hsim'). unfold completions_of. fold (in_session id). rewrite rel_completions, <- list_fmap_compose.
    rewrite <- (list_fmap_id (entry_vec (in_unapplied s) id)) at 2. apply Forall_fmap_ext_1. eapply Forall_impl; [apply rel_keys|].
    intros c [Hc' _]. unfold completion_from_row. cbn. rewrite as_u64_as_i64 by by apply small_u64. by destruct c.
  - destruct (sim_sessions _ _ _ Hsim'). by rewrite rel_policy, Hrow.
Qed.
(** ** Creation of a runnable session *)

Lemma unbound_frame s' id : in_delegations s' = in_delegations s → in_completion_notices s' = in_completion_notices s →
  in_background_edges s' = in_background_edges s → unbound s' id = unbound s id.
Proof. unfold unbound. by intros -> -> ->. Qed.

(** The session row with its policy, before metadata, edge and input. *)
Definition with_row (spec : RunnableSession) : SqliteStore :=
  t <| tb_session_record := <[rs_id spec := mkSessionRow (as_i64 (rs_partition spec)) 0 "ready" None (rs_snapshot spec) 0
                                              (Some (policy_to_str (rs_policy spec))) 0]> (tb_session_record t) |>.
Definition with_record (spec : RunnableSession) : Inner :=
  put_session (rs_id spec) (mkSessionRecord (rs_id spec) (rs_partition spec) Epoch_ZERO Ready (rs_snapshot spec) FenceToken_ZERO 0) s
    <| in_execution_policy := <[rs_id spec := rs_policy spec]> (in_execution_policy s) |>.

Definition sql_rest (spec : RunnableSession) (now : N) : Sql bool :=
  _ ← (match rs_meta spec with Some meta => modify (upsert_meta (rs_id spec) meta) | None => mret tt end);
  _ ← modify (sql_bind_edge (rs_id spec) (rs_edge spec));
  _ ← (match rs_first_input spec with
       | Some input => _ ← insert_splice_conn (rs_id spec) StartTurn input "first-input" "factory" now; mret tt
       | None => mret tt
       end);
  mret true.
Definition mem_rest (spec : RunnableSession) (now : N) : Store bool :=
  _ ← (match rs_meta spec with
       | Some meta => modify (λ s, s <| in_session_meta := <[rs_id spec := meta]> (in_session_meta s) |>)
       | None => mret tt
       end);
  _ ← modify (bind_edge (rs_id spec) (rs_edge spec));
  _ ← (match rs_first_input spec with
       | Some input => modify (push_splice (rs_id spec) (first_input_row (rs_id spec) now input))
       | None => mret tt
       end);
  mret true.

Lemma bind_edge_splices id edge s' : in_splices (bind_edge id edge s') = in_splices s'.
Proof. by destruct edge as [[]|]. Qed.

Lemma agree_rest spec now : small (rs_partition spec) = true → small now = true → in_sessions s !! rs_id spec = None → tb_session_record t !! rs_id spec = None →
  match rs_meta spec with Some meta => small_meta meta | None => true end = true →
  match rs_edge spec with Some (Delegation job) => small (jc_epoch job) | _ => true end = true →
  match rs_edge spec with None => true | _ => unbound s (rs_id spec) end = true →
  (sql_rest spec now (with_row spec)).1 = Ok true ∧ (mem_rest spec now (with_record spec)).1 = Ok true ∧
  sim (n + 1) (sql_rest spec now (with_row spec)).2 (mem_rest spec now (with_record spec)).2.
Proof.
  intros Hp%small_spec Hnow%small_spec Hmem Hrow Hmeta Hjob Hedge.
  assert (sim n (with_row spec) (with_record spec)) as H1.
  { apply (sim_fresh_session _ t s (rs_id spec) (rs_partition spec) "ready" (rs_snapshot spec) (Some (rs_policy spec))); [done..|in_kinds|].
    intros j. by rewrite lookup_insert. }
  set (t2 := match rs_meta spec with Some meta => upsert_meta (rs_id spec) meta (with_row spec) | None => with_row spec end).
  set (s2 := match rs_meta spec with Some meta => (with_record spec) <| in_session_meta := <[rs_id spec := meta]> (in_session_meta s) |> | None => with_record spec end).
  assert (sim n t2 s2) as H2 by (unfold t2, s2; destruct (rs_meta spec) as [meta|]; [exact (sim_upsert_meta _ _ _ (rs_id spec) meta H1 Hmeta)|done]).
  set (t3 := sql_bind_edge (rs_id spec) (rs_edge spec) t2). set (s3 := bind_edge (rs_id spec) (rs_edge spec) s2).
  assert (sim n t3 s3) as H3.
  { assert (unbound s2 (rs_id spec) = unbound s (rs_id spec)) as Hs2 by (apply unbound_frame; unfold s2; by destruct (rs_meta spec)).
    apply sim_bind_edge; [done| |]; rewrite ?Hs2; revert Hjob Hedge; destruct (rs_edge spec) as [[]|]; try done. by intros ?%small_spec. }
  assert (entry_vec (in_splices s3) (rs_id spec) = []) as Hnone.
  { unfold s3. rewrite bind_edge_splices. assert (in_splices s2 = in_splices s) as -> by (unfold s2; by destruct (rs_meta spec)).
    unfold entry_vec. destruct (in_splices s !! rs_id spec) eqn:Hs; [|done]. destruct (rows_splices _ _ _ _ Hrows (rs_id spec)); [by eexists|congruence]. }
  assert (sql_rest spec now (with_row spec) = (_ ← (match rs_first_input spec with
    | Some input => _ ← insert_splice_conn (rs_id spec) StartTurn input "first-input" "factory" now; mret tt | None => mret tt end); mret true) t3) as ->
    by (unfold sql_rest, t3, t2; run_code; by destruct (rs_meta spec)).
  assert (mem_rest spec now (with_record spec) = (Ok true, match rs_first_input spec with
    | Some input => push_splice (rs_id spec) (first_input_row (rs_id spec) now input) s3 | None => s3 end)) as ->
    by (unfold mem_rest, s3, s2; run_code; destruct (rs_meta spec), (rs_first_input spec); reflexivity).
  run_code. destruct (rs_first_input spec) as [input|]; [|split_and!; [done..|]; cbn; eapply sim_mono; [|done]; lia].
  destruct (sim_insert_splice n t3 s3 (rs_id spec) StartTurn input "first-input" "factory" now H3 Hn Hnow) as (t4 & Hins & _ & H4); [by rewrite Hnone|].
  rewrite Hins. by split_and!.
Qed.

Lemma agree_create_runnable spec now : legal s (OpCreateRunnable spec now) = true →
  agree (n + 1) (sql_create_runnable spec now) (create_runnable spec now) t s.
Proof.
  cbn [legal]. rewrite !andb_true_iff. intros [[[[Hp Hnow] Hmeta] Hjob] Hedge].
  unfold agree. at_row Hsim (rs_id spec) row Hrow Hmem.
  { unfold sql_create_runnable, create_runnable, transaction. run_code. by rewrite Hrow, Hmem. }
  assert (match rs_edge spec with None => true | _ => unbound s (rs_id spec) end = true) as Hun.
  { destruct (rs_edge spec); [|done]. unfold known in Hedge. rewrite Hmem in Hedge. done. }
  destruct (agree_rest spec now Hp Hnow Hmem Hrow Hmeta Hjob Hun) as (Hok1 & Hok2 & Hend).
  assert (sql_create_runnable spec now t = if decide (sq_fault t = Some MidRunnableConstruction) then (Err (Fault MidRunnableConstruction), t <| sq_fault := None |>)
    else sql_rest spec now (with_row spec)) as ->.
  { unfold sql_create_runnable, transaction. destruct (sql_rest spec now (with_row spec)) as [r t'] eqn:Hrest. cbn in Hok1. subst r. revert Hrest.
    unfold sql_rest, with_row, sql_take_fault. run_code. rewrite Hrow. cbn [sq_fault update]. case_decide; [done|]. by intros ->. }
  assert (create_runnable spec now s = if decide (in_fault s = Some MidRunnableConstruction) then (Err (Fault MidRunnableConstruction), s <| in_fault := None |>)
    else mem_rest spec now (with_record spec)) as ->.
  { unfold create_runnable, mem_rest, take_fault, insert_fresh, with_record. run_code. rewrite Hmem. case_decide; [done|]. by rewrite Hmem. }
  rewrite (sim_fault _ _ _ Hsim). case_decide; [split; [done|]; by apply (sim_fault_cleared _ _ _ Hsim')|]. by rewrite Hok1, Hok2.
Qed.
(** ** Commits *)

Lemma small_checkpoint_spec cp : small_checkpoint cp = true → cp_epoch cp < i64_bound ∧
  (∀ up_to, cp_consumed_splices cp = Some up_to → up_to < i64_bound) ∧ Forall (λ key : Epoch * JobId, key.1 < i64_bound) (cp_applied_completions cp).
Proof.
  unfold small_checkpoint. rewrite !andb_true_iff. intros [[He Hc] Ha]. split; [by apply small_spec|]. split.
  - intros up_to Hup. rewrite Hup in Hc. by apply small_spec.
  - rewrite forallb_forall in Ha. apply Forall_forall. intros key Hk. apply small_spec, Ha. by apply list_elem_of_In.
Qed.

Definition sql_consumed (cp : Checkpoint) (turn : N) (t' : SqliteStore) : SqliteStore :=
  match cp_consumed_splices cp with Some up_to => consume_splices_conn (cp_session_id cp) up_to turn t' | None => t' end.
Definition mem_consumed (cp : Checkpoint) (turn : N) (s' : Inner) : Inner :=
  match cp_consumed_splices cp with Some up_to => consume_splices_locked (cp_session_id cp) up_to turn s' | None => s' end.

Lemma sim_consumed k cp turn t' s' : sim k t' s' → small_checkpoint cp = true → turn < i64_bound → sim k (sql_consumed cp turn t') (mem_consumed cp turn s').
Proof.
  intros Hk (_ & Hup & _)%small_checkpoint_spec Hturn. unfold sql_consumed, mem_consumed. destruct (cp_consumed_splices cp); [|done].
  apply sim_consume; auto.
Qed.

Lemma turn_small id row : tb_session_record t !! id = Some row → as_u64 (ro_turn_seq row) = Z.to_N (ro_turn_seq row) ∧ as_u64 (ro_turn_seq row) ≤ n.
Proof.
  intros Hrow. destruct (row_facts _ _ _ Hsim Hrow) as (_ & Ht & _).
  assert (as_u64 (ro_turn_seq row) = Z.to_N (ro_turn_seq row)) as Heq by (unfold as_u64; rewrite Z.mod_small by (unfold i64_bound, u64_bound in *; lia); done).
  split; [done|]. lia.
Qed.

Lemma next_turn id row : tb_session_record t !! id = Some row → as_u64 (ro_turn_seq row + 1) = as_u64 (ro_turn_seq row) +₆₄ 1.
Proof.
  intros Hrow. destruct (row_facts _ _ _ Hsim Hrow) as (_ & Ht & _). destruct (turn_small id row Hrow) as [-> _]. unfold as_u64.
  rewrite Z.mod_small, wrap64_small by (unfold i64_bound, u64_bound in *; lia). lia.
Qed.

Lemma agree_checkpoint cp job fence : legal s (OpCheckpoint cp job fence) = true →
  agree (n + 1) (sql_checkpoint_and_enqueue cp job fence) (checkpoint_and_enqueue cp job fence) t s.
Proof.
  cbn [legal]. rewrite !andb_true_iff. intros [[Hcp Hj%small_spec] Hchild%bool_decide_eq_true]. destruct (small_checkpoint_spec _ Hcp) as (He & _).
  unfold agree. set (id := cp_session_id cp). at_row Hsim' id row Hrow Hmem.
  2:{ unfold sql_checkpoint_and_enqueue, checkpoint_and_enqueue. sql_unfold. run_code. fold id. rewrite Hrow, Hmem. by destruct t. }
  destruct (turn_small id row Hrow) as [_ Hturn]. destruct (row_facts _ _ _ Hsim' Hrow) as (Hf & Ht & _).
  set (suspend r := r <| ro_snapshot := cp_snapshot cp |> <| ro_epoch := as_i64 (cp_epoch cp) |> <| ro_status_kind := "suspended" |> <| ro_status_job := Some (jc_job_id job) |>).
  set (rec' := (session_from_row id row) <| sr_snapshot := cp_snapshot cp |> <| sr_epoch := cp_epoch cp |> <| sr_status := Suspended (jc_job_id job) |>).
  set (t1 := sql_enqueue_job job (sql_consumed cp (as_u64 (ro_turn_seq row)) (update_session id suspend t))).
  set (s1 := mem_consumed cp (as_u64 (ro_turn_seq row)) (enqueue_job job (put_session id rec' s))).
  assert (sim (n + 1) (update_session id suspend t) (put_session id rec' s)) as H0.
  { eapply sim_update_session; [done|done| |done|done|done|in_kinds]. unfold session_from_row, rec'. cbn. by rewrite as_u64_as_i64 by by apply small_u64. }
  assert (sim (n + 1) t1 s1) as H1.
  { assert (s1 = enqueue_job job (mem_consumed cp (as_u64 (ro_turn_seq row)) (put_session id rec' s))) as ->.
    { unfold s1, mem_consumed, enqueue_job, consume_splices_locked. destruct (cp_consumed_splices cp); [|done]. cbn.
      case_decide; cbn; destruct (in_splices s !! cp_session_id cp); cbn; rewrite ?decide_True, ?decide_False by done; done. }
    apply sim_enqueue_job; [|done|done]. apply sim_consumed; [done|done|lia]. }
  assert (checkpoint_and_enqueue cp job fence s =
    (if fence <? as_u64 (ro_fence row) then (Err (Fenced fence (as_u64 (ro_fence row))), s)
     else if decide (in_fault s = Some BeforeSnapshot) then (Err (Fault BeforeSnapshot), s <| in_fault := None |>)
     else (_ ← take_fault AfterSnapshot; take_fault AfterJobOutbox) s1)) as Hm.
  { unfold checkpoint_and_enqueue, consume_checkpoint, s1, mem_consumed. sql_unfold. run_code. fold id. rewrite Hmem. cbn [sr_fence session_from_row].
    destruct (_ <? _); [done|]. case_decide; [done|]. by destruct (cp_consumed_splices cp). }
  assert (sql_checkpoint_and_enqueue cp job fence t =
    (if fence <? as_u64 (ro_fence row) then (Err (Fenced fence (as_u64 (ro_fence row))), t)
     else if decide (sq_fault t = Some BeforeSnapshot) then (Err (Fault BeforeSnapshot), t <| sq_fault := None |>)
     else (_ ← sql_take_fault AfterSnapshot; sql_take_fault AfterJobOutbox) t1)) as Hs.
  { unfold sql_checkpoint_and_enqueue, consume_in_flight, t1, sql_consumed. sql_unfold. run_code. fold id. rewrite Hrow.
    destruct (_ <? _); [by destruct t|]. destruct (decide (sq_fault t = Some BeforeSnapshot)); [done|]. destruct (cp_consumed_splices cp); [|done].
    fold suspend. unfold update_session at 1. cbn [tb_session_record update]. by rewrite lookup_alter_eq, Hrow. }
  rewrite Hm, Hs, (sim_fault _ _ _ Hsim). destruct (_ <? _); [done|]. destruct (decide (in_fault s = Some BeforeSnapshot)); [split; [done|]; by apply (sim_fault_cleared _ _ _ Hsim')|].
  apply agree_bind; [by apply agree_take_fault|]. intros _ t2 s2 _ _ H2. by apply agree_take_fault.
Qed.
Lemma fresh_frame s' id epoch job : in_inbox_keys s' = in_inbox_keys s → in_unapplied s' = in_unapplied s → fresh_or_open s' id epoch job = fresh_or_open s id epoch job.
Proof. unfold fresh_or_open. by intros -> ->. Qed.

Lemma agree_record c : legal s (OpRecordCompletion c) = true → agree (n + 1) (sql_record_completion_and_wake c) (record_completion_and_wake c) t s.
Proof.
  cbn [legal]. rewrite andb_true_iff. intros [Hc%small_spec Hfresh]. unfold agree, sql_record_completion_and_wake, record_completion_and_wake, apply_completion.
  sql_unfold. run_code. at_row Hsim' (jp_session_id c) row Hrow Hmem; rewrite Hmem; [|done].
  destruct (sim_apply_completion _ _ _ c Hsim' Hc Hfresh) as (t1 & Hins & H1 & _). rewrite Hins. destruct (apply_completion_locked c s) as [fresh s1]. cbn [fst snd] in *.
  destruct fresh; [|done]. rewrite (sim_fault _ _ _ H1). case_decide; [split; [done|]; by apply sim_fault_cleared|]. split; [done|]. by apply sim_enqueue_wake.
Qed.

(** A completion and the wake it causes, in any related pair of states. *)
Lemma agree_apply_and_wake k t' s' c : sim k t' s' → jp_epoch c < i64_bound → fresh_or_open s' (jp_session_id c) (jp_epoch c) (jp_job_id c) = true →
  (insert_completion_and_wake (completion_to_row c) t').1 = Ok tt ∧ (apply_and_wake c s').1 = Ok tt ∧
  sim k (insert_completion_and_wake (completion_to_row c) t').2 (apply_and_wake c s').2.
Proof.
  intros Hk Hc Hfresh. unfold insert_completion_and_wake, apply_and_wake, apply_completion. run_code.
  destruct (sim_apply_completion _ _ _ c Hk Hc Hfresh) as (t1 & Hins & H1 & _). rewrite Hins. destruct (apply_completion_locked c s') as [[] s1]; cbn [fst snd] in *.
  - split_and!; [done..|]. by apply sim_enqueue_wake.
  - by split_and!.
Qed.

Lemma agree_answer id job allow perm reason : legal s (OpAnswerApproval id job allow perm reason) = true →
  agree (n + 1) (sql_answer_approval id job allow perm reason) (answer_approval id job allow perm reason) t s.
Proof.
  cbn [legal]. intros Hlegal. unfold agree, sql_answer_approval, answer_approval, transaction. run_code. rewrite (find_approval _ _ _ id job Hsim').
  destruct (List.find _ _) as [row|] eqn:Hfind; cbn [fmap option_fmap option_map]; [|done]. cbn [ap_decision approval_row].
  assert (ap_decision (approval_row row) = bool_i64 <$> pa_decision row) as -> by done. destruct (pa_decision row); cbn [fmap option_fmap option_map]; [done|].
  pose proof (sim_answer_row _ _ _ id job allow Hsim') as H1. set (t1 := t <| tb_pending_approvals := _ |>) in *. set (s1 := s <| in_pending_approvals := _ |>) in *.
  assert (pa_epoch row < i64_bound) as He.
  { destruct (sim_approvals _ _ _ Hsim). specialize (rel_epochs id). rewrite Forall_forall in rel_epochs. apply rel_epochs.
    apply List.find_some in Hfind as [Hin _]. by apply list_elem_of_In. }
  destruct (agree_apply_and_wake _ t1 s1 (mkJobCompletion id (pa_epoch row) job (approval_completion_payload allow perm reason)) H1 He) as (Hr1 & Hr2 & H2).
  { cbn. by rewrite (fresh_frame s1). }
  change (mkCompletionRow id (ap_epoch (approval_row row)) job (approval_completion_payload allow perm reason))
    with (completion_to_row (mkJobCompletion id (pa_epoch row) job (approval_completion_payload allow perm reason))).
  destruct (insert_completion_and_wake _ t1) as [r1 t2], (apply_and_wake _ s1) as [r2 s2]. cbn [fst snd] in *. by subst.
Qed.

Lemma agree_park cp approvals fence : legal s (OpParkApproval cp approvals fence) = true →
  agree (n + 1) (sql_park_approval cp approvals fence) (park_approval cp approvals fence) t s.
Proof.
  cbn [legal]. rewrite !andb_true_iff. intros [[[Hcp Hne%bool_decide_eq_true] Hfault%bool_decide_eq_true] Hall]. destruct (small_checkpoint_spec _ Hcp) as (He & _).
  assert (Forall (λ a, pa_session_id a = cp_session_id cp ∧ pa_decision a = None ∧ pa_epoch a < i64_bound) approvals) as Happ.
  { apply Forall_forall. intros a Ha%list_elem_of_In. rewrite forallb_forall in Hall. specialize (Hall a Ha). rewrite !andb_true_iff, !bool_decide_eq_true, small_spec in Hall. tauto. }
  destruct approvals as [|a approvals]; [done|]. clear Hall Hne. unfold agree. set (id := cp_session_id cp). at_row Hsim' id row Hrow Hmem.
  2:{ unfold sql_park_approval, park_approval. sql_unfold. run_code. fold id. rewrite Hrow, Hmem. by destruct t. }
  destruct (turn_small id row Hrow) as [_ Hturn]. destruct (row_facts _ _ _ Hsim' Hrow) as (Hf & Ht & _).
  set (suspend r := r <| ro_snapshot := cp_snapshot cp |> <| ro_epoch := as_i64 (cp_epoch cp) |> <| ro_status_kind := "suspended" |> <| ro_status_job := Some (pa_job_id a) |>).
  set (rec' := (session_from_row id row) <| sr_snapshot := cp_snapshot cp |> <| sr_epoch := cp_epoch cp |> <| sr_status := Suspended (pa_job_id a) |>).
  set (t1 := sql_consumed cp (as_u64 (ro_turn_seq row)) (update_session id suspend t)). set (s1 := mem_consumed cp (as_u64 (ro_turn_seq row)) (put_session id rec' s)).
  assert (sim (n + 1) t1 s1) as H1.
  { apply sim_consumed; [|done|lia]. eapply sim_update_session; [done|done| |done|done|done|in_kinds]. unfold session_from_row, rec'. cbn. by rewrite as_u64_as_i64 by by apply small_u64. }
  pose proof (sim_park_rows _ _ _ id (a :: approvals) H1 Happ) as H2. set (t2 := t1 <| tb_pending_approvals := _ |>) in *. set (s2 := s1 <| in_pending_approvals := _ |>) in *.
  assert (park_approval cp (a :: approvals) fence s =
    (if fence <? as_u64 (ro_fence row) then (Err (Fenced fence (as_u64 (ro_fence row))), s)
     else if decide (in_fault s = Some BeforeSnapshot) then (Err (Fault BeforeSnapshot), s <| in_fault := None |>) else (Ok tt, s2))) as ->.
  { unfold park_approval, consume_checkpoint, s2, s1, mem_consumed. sql_unfold. run_code. fold id. rewrite Hmem. cbn [sr_fence session_from_row].
    destruct (_ <? _); [done|]. destruct (decide (in_fault s = Some BeforeSnapshot)); [done|]. by destruct (cp_consumed_splices cp). }
  assert (sql_park_approval cp (a :: approvals) fence t =
    (if fence <? as_u64 (ro_fence row) then (Err (Fenced fence (as_u64 (ro_fence row))), t)
     else if decide (sq_fault t = Some BeforeSnapshot) then (Err (Fault BeforeSnapshot), t <| sq_fault := None |>) else sql_take_fault AfterSnapshot t2)) as ->.
  { unfold sql_park_approval, consume_in_flight, t2, t1, sql_consumed. sql_unfold. run_code. fold id. rewrite Hrow. cbn [head].
    destruct (_ <? _); [by destruct t|]. destruct (decide (sq_fault t = Some BeforeSnapshot)); [done|]. destruct (cp_consumed_splices cp); [|done].
    fold suspend. unfold update_session at 1. cbn [tb_session_record update]. by rewrite lookup_alter_eq, Hrow. }
  rewrite (sim_fault _ _ _ Hsim). destruct (_ <? _); [done|]. destruct (decide (in_fault s = Some BeforeSnapshot)); [split; [done|]; by apply (sim_fault_cleared _ _ _ Hsim')|].
  assert (in_fault s2 = in_fault s) as Hf2 by (unfold s2, s1, mem_consumed, consume_splices_locked; destruct (cp_consumed_splices cp); cbn; [by case_match|done]).
  unfold sql_take_fault. by rewrite (sim_fault _ _ _ H2), Hf2, decide_False.
Qed.
(** The delegation of a completed child, in any related pair of states. *)
Lemma agree_fulfil k t' s' cp : sim k t' s' →
  match in_delegations s' !! cp_session_id cp with
  | Some job => is_Some (in_sessions s' !! jc_session_id job) ∧ fresh_or_open s' (jc_session_id job) (jc_epoch job) (jc_job_id job) = true
  | None => True
  end →
  (sql_fulfil_delegation cp t').1 = Ok tt ∧ (fulfil_delegation cp s').1 = Ok tt ∧ sim k (sql_fulfil_delegation cp t').2 (fulfil_delegation cp s').2.
Proof.
  intros Hk Hjob. unfold sql_fulfil_delegation, fulfil_delegation. run_code. destruct (sim_edges _ _ _ Hk). fold (find_delegation (tb_delegations t') (cp_session_id cp)).
  rewrite rel_delegation. destruct (in_delegations s' !! cp_session_id cp) as [job|] eqn:Hd; cbn [fmap option_fmap option_map]; [|done].
  destruct Hjob as [[rec Hrec] Hfresh]. rewrite Hrec.
  exact (agree_apply_and_wake k t' s' (mkJobCompletion (jc_session_id job) (jc_epoch job) (jc_job_id job) (terminal_payload cp)) Hk (rel_delegation_epoch _ _ Hd) Hfresh).
Qed.

Lemma mem_consumed_frame cp turn s' : in_delegations (mem_consumed cp turn s') = in_delegations s' ∧ in_sessions (mem_consumed cp turn s') = in_sessions s' ∧
  in_inbox_keys (mem_consumed cp turn s') = in_inbox_keys s' ∧ in_unapplied (mem_consumed cp turn s') = in_unapplied s'.
Proof. unfold mem_consumed, consume_splices_locked. destruct (cp_consumed_splices cp); [case_match|]; done. Qed.

Lemma agree_mark_completed cp fence now : legal s (OpMarkCompleted cp fence now) = true →
  agree (n + 1) (sql_mark_completed cp fence now) (mark_completed cp fence now) t s.
Proof.
  cbn [legal]. rewrite !andb_true_iff. intros [[Hcp Hnow%small_spec] Hlegal]. destruct (small_checkpoint_spec _ Hcp) as (He & _).
  unfold agree, sql_mark_completed, mark_completed. apply agree_guard; [done|]. intros row Hrow _. set (id := cp_session_id cp) in *.
  destruct (turn_small id row Hrow) as [_ Hturn]. destruct (row_facts _ _ _ Hsim Hrow) as (Hf & Ht & _).
  set (done r := r <| ro_snapshot := cp_snapshot cp |> <| ro_epoch := as_i64 (cp_epoch cp) |> <| ro_turn_seq := (ro_turn_seq r + 1)%Z |>
                   <| ro_status_kind := "completed" |> <| ro_status_job := None |>).
  set (rec' := (session_from_row id row) <| sr_snapshot := cp_snapshot cp |> <| sr_epoch := cp_epoch cp |> <| sr_status := Completed |>
                 <| sr_turn_seq := as_u64 (ro_turn_seq row) +₆₄ 1 |>).
  set (t1 := sql_stamp_terminal id now (sql_consumed cp (as_u64 (ro_turn_seq row)) (update_session id done t))).
  set (s1 := stamp_terminal id now (mem_consumed cp (as_u64 (ro_turn_seq row)) (put_session id rec' s))).
  assert (sim (n + 1) t1 s1) as H1.
  { apply sim_stamp_terminal; [|done]. apply sim_consumed; [|done|lia]. eapply sim_update_session; [done|done| |done|cbn; lia|cbn; lia|in_kinds].
    unfold session_from_row, rec'. cbn. by rewrite as_u64_as_i64, (next_turn id) by (done || by apply small_u64). }
  destruct (agree_fulfil _ t1 s1 cp H1) as (Hr1 & Hr2 & H2).
  { destruct (mem_consumed_frame cp (as_u64 (ro_turn_seq row)) (put_session id rec' s)) as (Hd & Hs & Hkeys & Hun). unfold s1. cbn. rewrite Hd. cbn. fold id.
    destruct (in_delegations s !! id) as [job|]; [|done]. apply andb_true_iff in Hlegal as [Hkn%bool_decide_eq_true Hfresh].
    split; [|by rewrite (fresh_frame _); [..|apply Hkeys|apply Hun]]. rewrite Hs. cbn. destruct (decide (id = jc_session_id job)) as [<-|]; [by rewrite lookup_insert_eq|by rewrite lookup_insert_ne]. }
  pose proof (sim_fire_notice _ _ _ cp H2) as H3.
  assert (transaction (committed_turn ← turn_seq_of id;
    _ ← modify (update_session id done); _ ← sql_consume_checkpoint cp committed_turn; _ ← modify (sql_stamp_terminal id now); _ ← sql_fulfil_delegation cp; modify (sql_fire_notice cp)) t =
    (Ok tt, sql_fire_notice cp (sql_fulfil_delegation cp t1).2)) as Htx.
  { unfold transaction, turn_seq_of, row_of, sql_consume_checkpoint. run_code. rewrite Hrow. unfold t1, sql_consumed in *.
    destruct (cp_consumed_splices cp); destruct (sql_fulfil_delegation cp _) as [[]]; by cbn in *. }
  assert ((_ ← write_session id rec'; _ ← consume_checkpoint cp (as_u64 (ro_turn_seq row)); _ ← modify (stamp_terminal id now); _ ← fulfil_delegation cp; modify (fire_notice cp)) s =
    (Ok tt, fire_notice cp (fulfil_delegation cp s1).2)) as Hmx.
  { unfold write_session, consume_checkpoint. run_code. unfold s1, mem_consumed in *. destruct (cp_consumed_splices cp); destruct (fulfil_delegation cp _) as [[]]; by cbn in *. }
  unfold agree. cbn zeta. cbn [sr_turn_seq session_from_row]. fold id. fold rec' done. rewrite Htx, Hmx. by split.
Qed.

Lemma sim_unconsumed k t' s' id : sim k t' s' → sql_unconsumed t' id = has_pending_splices s' id || has_unapplied s' id.
Proof.
  intros []. unfold sql_unconsumed, has_pending_splices, has_unapplied. destruct sim_inbox, sim_completions. f_equal.
  - rewrite existsb_filter_b, rel_rows. apply existsb_encode, Forall_forall. intros r _. unfold not_consumed, splice_to_row, unconsumed. by destruct (is_claim r).
  - transitivity (existsb (λ _ : CompletionRow, true) (List.filter (in_session id) (tb_completion_inbox t'))).
    { rewrite <- existsb_filter_b. apply existsb_ext. intros r. by rewrite andb_true_r. }
    rewrite rel_completions. by destruct (entry_vec (in_unapplied s') id).
Qed.

(** What a turn commit writes beside the session row. *)
Definition sql_settle (cp : Checkpoint) (seal : option TurnSeal) (turn : N) (t' : SqliteStore) : SqliteStore :=
  sql_seal_turn (cp_session_id cp) seal (delete_applied (cp_session_id cp) (cp_applied_completions cp) (sql_consumed cp turn t')).
Definition mem_settle (cp : Checkpoint) (seal : option TurnSeal) (turn : N) (s' : Inner) : Inner :=
  seal_turn (cp_session_id cp) seal (drop_applied (cp_session_id cp) (cp_applied_completions cp) (mem_consumed cp turn s')).

Lemma sim_settle k cp seal turn t' s' : sim k t' s' → small_checkpoint cp = true → turn < i64_bound →
  match seal with Some sl => small (ts_segment sl) | None => true end = true → sim k (sql_settle cp seal turn t') (mem_settle cp seal turn s').
Proof.
  intros Hk Hcp Hturn Hseal. destruct (small_checkpoint_spec _ Hcp) as (_ & _ & Hkeys). apply sim_seal_turn; [|destruct seal; [by apply small_spec|done]].
  apply sim_delete_applied; [|done]. by apply sim_consumed.
Qed.

(** It does not look at the session row. *)
Lemma sql_settle_row cp seal turn t' (f g : SessionRow → SessionRow) : let id := cp_session_id cp in
  update_session id g (sql_settle cp seal turn (update_session id f t')) = sql_settle cp seal turn (update_session id (g ∘ f) t') ∧
  sql_unconsumed (sql_settle cp seal turn (update_session id f t')) id = sql_unconsumed (sql_settle cp seal turn (update_session id (g ∘ f) t')) id.
Proof.
  cbn zeta. unfold sql_settle, sql_seal_turn, sql_consumed. destruct seal, (cp_consumed_splices cp); (split; [|reflexivity]).
  all: unfold update_session, delete_applied, consume_splices_conn; cbn; by rewrite alter_alter_eq.
Qed.

Lemma mem_settle_fields cp seal turn s' : ∃ splices unapplied roots, ∀ sessions,
  mem_settle cp seal turn (s' <| in_sessions := sessions |>) =
  s' <| in_sessions := sessions |> <| in_splices := splices |> <| in_unapplied := unapplied |> <| in_journal_roots := roots |>.
Proof.
  unfold mem_settle, seal_turn, drop_applied, mem_consumed, consume_splices_locked.
  destruct s'; destruct seal, (cp_consumed_splices cp), (cp_applied_completions cp); cbn; repeat (case_match; cbn); by eexists _, _, _.
Qed.

Lemma mem_settle_row cp seal turn s' r r' : let id := cp_session_id cp in
  put_session id r' (mem_settle cp seal turn (put_session id r s')) = mem_settle cp seal turn (put_session id r' s') ∧
  has_pending_splices (mem_settle cp seal turn (put_session id r s')) id = has_pending_splices (mem_settle cp seal turn (put_session id r' s')) id ∧
  has_unapplied (mem_settle cp seal turn (put_session id r s')) id = has_unapplied (mem_settle cp seal turn (put_session id r' s')) id.
Proof.
  cbn zeta. destruct (mem_settle_fields cp seal turn s') as (splices & unapplied & roots & Heq). unfold put_session. rewrite !Heq.
  split_and!; [|done..]. cbn. by rewrite insert_insert_eq.
Qed.

Lemma agree_commit cp seal fence : legal s (OpCommitTurn cp seal fence) = true → agree (n + 1) (sql_commit_turn cp seal fence) (commit_turn cp seal fence) t s.
Proof.
  cbn [legal]. rewrite !andb_true_iff. intros [Hcp Hseal]. destruct (small_checkpoint_spec _ Hcp) as (He & _ & _).
  unfold agree, sql_commit_turn, commit_turn. cbn zeta. rewrite transaction_guard. apply agree_guard; [done|]. intros row Hrow _. set (id := cp_session_id cp) in *.
  destruct (turn_small id row Hrow) as [_ Hturn]. destruct (row_facts _ _ _ Hsim Hrow) as (Hf & Ht & _). set (turn := as_u64 (ro_turn_seq row)) in *.
  set (write r := r <| ro_snapshot := cp_snapshot cp |> <| ro_epoch := as_i64 (cp_epoch cp) |> <| ro_turn_seq := (ro_turn_seq r + 1)%Z |> <| ro_status_job := None |>).
  set (rec1 := (session_from_row id row) <| sr_snapshot := cp_snapshot cp |> <| sr_epoch := cp_epoch cp |> <| sr_turn_seq := turn +₆₄ 1 |>).
  set (t3 := sql_settle cp seal turn (update_session id write t)). set (s3 := mem_settle cp seal turn (put_session id rec1 s)).
  assert (∀ more : bool, sim (n + 1) (update_session id (λ r, r <| ro_status_kind := if more then "ready" else "idle" |>) t3)
    (put_session id (rec1 <| sr_status := if more then Ready else Idle |>) s3)) as H3.
  { intros more. unfold t3, s3, id. rewrite (proj1 (sql_settle_row _ _ _ _ _ _)), (proj1 (mem_settle_row _ _ _ _ _ _)).
    apply sim_settle; [|done|lia|done]. eapply sim_update_session; [done|done| |done|cbn; lia|cbn; lia|destruct more; in_kinds].
    unfold session_from_row, rec1. cbn. rewrite as_u64_as_i64, (next_turn id) by (done || by apply small_u64). by destruct more. }
  assert (sql_unconsumed t3 id = has_pending_splices s3 id || has_unapplied s3 id) as Hmore.
  { specialize (H3 true). revert H3. unfold t3, s3, id. rewrite (proj1 (sql_settle_row _ _ _ _ _ _)), (proj1 (mem_settle_row _ _ _ _ _ _)). intros H3.
    rewrite (proj2 (sql_settle_row _ _ _ _ _ (λ r, r <| ro_status_kind := "ready" |>))).
    destruct (mem_settle_row cp seal turn s rec1 (rec1 <| sr_status := Ready |>)) as (_ & -> & ->). exact (sim_unconsumed _ _ _ (cp_session_id cp) H3). }
  unfold agree, transaction, turn_seq_of, row_of, sql_check_seal, check_seal, sql_take_fault, take_fault, write_session, sql_consume_checkpoint, consume_checkpoint.
  run_code. rewrite Hrow. cbn [sr_turn_seq session_from_row]. fold turn. destruct (seal_mismatch seal turn); [by destruct t|].
  rewrite (sim_fault _ _ _ Hsim). destruct (decide (in_fault s = Some BeforeSnapshot)); [split; [done|]; by apply (sim_fault_cleared _ _ _ Hsim')|].
  revert H3 Hmore. unfold t3, s3, sql_settle, mem_settle, sql_consumed, mem_consumed. destruct (cp_consumed_splices cp) as [up_to|]; intros H3 Hmore.
  all: fold id in H3, Hmore |- *; fold write; fold rec1; rewrite Hmore; destruct (_ || _); (split; [done|]).
  all: first [by apply sim_enqueue_wake, (H3 true)|apply (H3 false)].
Qed.
(** ** Queues and edges *)

Lemma agree_detached job : jc_epoch job < i64_bound → agree (n + 1) (sql_enqueue_detached_job job) (enqueue_detached_job job) t s.
Proof.
  intros Hj. destruct (sim_detached _ _ _ Hsim (jc_session_id job)) as [Hseq Hle].
  assert (default 0 (in_detached_seq s !! jc_session_id job) +₆₄ 1 = default 0 (in_detached_seq s !! jc_session_id job) + 1) as Hnext.
  { apply wrap64_small. unfold i64_bound, u64_bound in *. lia. }
  assert (bump (tb_detached_seq t) (jc_session_id job) = Z.of_N (default 0 (in_detached_seq s !! jc_session_id job) + 1)) as Hbump by (unfold bump; rewrite Hseq; lia).
  unfold agree, sql_enqueue_detached_job, enqueue_detached_job, transaction. run_code. rewrite Hbump, Hnext, N2Z.id. split; [done|].
  destruct Hsim'. constructor; cbn; try done.
  - rewrite sim_jobs, fmap_app. cbn. by rewrite job_roundtrip.
  - intros parent. destruct (decide (jc_session_id job = parent)) as [<-|Hne]; [rewrite !lookup_insert_eq; cbn; lia|]. by rewrite !lookup_insert_ne.
Qed.

Lemma sim_pop_job : popped RJob (sql_dequeue_job t) = (RJob (dequeue_job s).1, (sql_dequeue_job t).2) ∧ sim (n + 1) (sql_dequeue_job t).2 (dequeue_job s).2.
Proof.
  unfold sql_dequeue_job, dequeue_job, popped. pose proof Hsim' as []. rewrite sim_jobs. destruct (tb_job_outbox t) as [|j q] eqn:Hq; cbn; [done|].
  split; [done|]. by constructor.
Qed.

Lemma sim_pop_wake : popped RWake (sql_dequeue_wake t) = (RWake (dequeue_wake s).1, (sql_dequeue_wake t).2) ∧ sim (n + 1) (sql_dequeue_wake t).2 (dequeue_wake s).2.
Proof.
  unfold sql_dequeue_wake, dequeue_wake, popped. pose proof Hsim' as []. rewrite sim_wakes. destruct (tb_wake_outbox t) as [|j q] eqn:Hq; cbn; [done|].
  split; [done|]. by constructor.
Qed.

Lemma sim_pop_notice : popped RNotice (sql_dequeue_completion_notice t) = (RNotice (dequeue_completion_notice s).1, (sql_dequeue_completion_notice t).2) ∧
  sim (n + 1) (sql_dequeue_completion_notice t).2 (dequeue_completion_notice s).2.
Proof.
  unfold sql_dequeue_completion_notice, dequeue_completion_notice, popped. pose proof Hsim' as []. rewrite sim_notices. destruct (tb_notice_outbox t) as [|j q] eqn:Hq; cbn; [done|].
  split; [done|]. by constructor.
Qed.

Lemma agree_reply {A} (con : result StoreError A → Reply) (m1 : Sql A) (m2 : Store A) : agree (n + 1) m1 m2 t s →
  (reply con m1 t).1 = (reply con m2 s).1 ∧ sim (n + 1) (reply con m1 t).2 (reply con m2 s).2.
Proof. intros [Heq Hend]. unfold reply. cbn. by rewrite Heq. Qed.

Lemma step_agrees op : legal s op = true → (sql_step op t).1 = (mem_step op s).1 ∧ sim (n + 1) (sql_step op t).2 (mem_step op s).2.
Proof.
  intros Hl. destruct op; try discriminate Hl; cbn [sql_step mem_step].
  all: try (apply agree_reply).
  - split; [done|]. destruct Hsim'. by constructor.
  - apply agree_create_session. by apply small_spec.
  - apply agree_create_idle. by apply small_spec.
  - by apply agree_create_runnable.
  - by apply agree_reopen.
  - by apply agree_mark_ready.
  - apply agree_append. by apply small_spec.
  - apply agree_claim. by apply small_spec.
  - split; [done|]. apply sim_prune; [done|by apply small_spec].
  - by apply agree_acquire.
  - apply agree_load. by apply small_spec.
  - by apply agree_checkpoint.
  - by apply agree_mark_completed.
  - by apply agree_commit.
  - by apply agree_record.
  - apply andb_true_iff in Hl as [Hj%small_spec Hu]. apply agree_modify. apply sim_insert_delegation; [done..|apply one_more_push].
  - apply agree_detached. by apply small_spec.
  - apply agree_modify. apply sim_insert_notice; [done..|apply one_more_add].
  - destruct sim_pop_notice as [-> ?]. done.
  - apply agree_modify. apply sim_insert_edge; [done..|apply one_more_push].
  - split; [done|]. by apply sim_enqueue_wake.
  - by apply agree_park.
  - by apply agree_answer.
  - destruct sim_pop_job as [-> ?]. done.
  - destruct sim_pop_wake as [-> ?]. done.
  - by apply agree_swap.
  - apply agree_modify. by apply sim_upsert_meta.
Qed.
End steps.

(** ** Runs *)

Fixpoint legal_run (ops : list StoreOp) (s : Inner) : bool :=
  match ops with [] => true | op :: ops => legal s op && legal_run ops (run_op op s) end.

Fixpoint run_with {S} (step : StoreOp → S → Reply * S) (ops : list StoreOp) (s : S) : list Reply * S :=
  match ops with
  | [] => ([], s)
  | op :: ops => let '(r, s) := step op s in let '(rs, s) := run_with step ops s in (r :: rs, s)
  end.

Lemma run_agrees n ops t s : sim n t s → rows_wf s → n + N.of_nat (length ops) < i64_bound → legal_run ops s = true →
  (run_with sql_step ops t).1 = (run_with mem_step ops s).1 ∧ sim (n + N.of_nat (length ops)) (run_with sql_step ops t).2 (run_with mem_step ops s).2 ∧
  rows_wf (run_with mem_step ops s).2.
Proof.
  revert n t s. induction ops as [|op ops IH]; intros n t s Hsim Hrows Hn Hl; cbn [run_with].
  { rewrite N.add_0_r. done. }
  cbn in Hl, Hn. apply andb_true_iff in Hl as [Hop Hl]. destruct (step_agrees n t s Hsim Hrows ltac:(lia) op Hop) as [Hr H1].
  pose proof (mem_step_run_op op s) as Hrun. destruct (sql_step op t) as [r1 t1], (mem_step op s) as [r2 s1]. cbn [fst snd] in *. subst r2 s1.
  destruct (IH (n + 1) t1 (run_op op s) H1 (run_op_rows _ _ Hrows) ltac:(lia) Hl) as (Hrs & Hend & Hwf).
  destruct (run_with sql_step ops t1) as [rs1 t2], (run_with mem_step ops (run_op op s)) as [rs2 s2]. cbn [fst snd length] in *. subst rs2.
  replace (n + N.of_nat (S (length ops))) with (n + 1 + N.of_nat (length ops)) by lia. done.
Qed.

(** ** Reads *)

Record same_reads `{HashOrder} (t : SqliteStore) (s : Inner) : Prop := {
  reads_status : ∀ id, sql_status t id = status s id;
  reads_snapshot : ∀ id, sql_peek_snapshot t id = peek_snapshot s id;
  reads_policy : ∀ id, sql_execution_policy t id = execution_policy s id;
  reads_meta : ∀ id, sql_session_meta t id = session_meta s id;
  reads_splices : ∀ id after, after < i64_bound → sql_splices_after t id after = splices_after s id after;
  reads_approvals : ∀ id, sql_pending_approvals_of t (Some id) = pending_approvals_of s (Some id);
  reads_work : ∀ child, sql_delegation_work t child = delegation_work s child;
  reads_children : ∀ parent child, child ∈ sql_children_of t parent ↔ child ∈ children_of s parent;
  reads_scan : ∀ partition, partition < i64_bound → sql_scan_resumable t partition ≡ₚ scan_resumable s partition;
  reads_stats : sql_stats t = stats s
}.

Lemma filter_bool_filter {A} (P : A → Prop) `{∀ x, Decision (P x)} (p : A → bool) l : (∀ x, p x = true ↔ P x) → List.filter p l = filter P l.
Proof.
  intros Hp. induction l as [|x l IH]; [done|]. cbn [List.filter]. rewrite filter_cons. destruct (p x) eqn:Hx.
  - rewrite decide_True by by apply Hp. by rewrite IH.
  - rewrite decide_False; [done|]. rewrite <- Hp. congruence.
Qed.

Lemma sim_splices_after n t s id after : sim n t s → after < i64_bound → sql_splices_after t id after = splices_after s id after.
Proof.
  intros [] Ha. unfold sql_splices_after, select_splices. destruct sim_inbox as [] eqn:Hib. pose proof sim_inbox as Hinbox.
  rewrite (List.filter_ext _ (λ r, of_session id r && ((as_i64 after <? sp_splice_seq r)%Z && not_consumed r))) by (intros r; by rewrite andb_assoc).
  rewrite (select_sorted _ _ _ _ _ id _ (λ r, (after <? is_splice_seq r) && negb (is_consumed (is_claim r))) Hinbox).
  - apply filter_bool_filter. intros r. by rewrite andb_true_iff, N.ltb_lt, negb_true_iff.
  - eapply Forall_impl; [apply rel_small|]. intros r (Hs & _ & _). unfold not_consumed, splice_to_row.
    destruct (is_claim r); cbn; by rewrite !as_i64_small, Z_ltb_of_N.
Qed.

Lemma sim_pending n t s id : sim n t s →
  approval_from_row <$> List.filter (λ r, bool_decide (ap_session_id r = id) && match ap_decision r with None => true | Some _ => false end) (tb_pending_approvals t) =
  unanswered (entry_vec (in_pending_approvals s) id).
Proof.
  intros []. destruct sim_approvals. rewrite filter_and. fold (approval_in id). rewrite rel_approvals.
  rewrite (filter_encode _ _ (λ a, match pa_decision a with None => true | Some _ => false end)).
  2:{ apply Forall_forall. intros a _. cbn. by destruct (pa_decision a). }
  unfold unanswered. rewrite (filter_bool_filter (λ r, pa_decision r = None)) by (intros a; by destruct (pa_decision a)).
  rewrite <- list_fmap_compose. rewrite <- (list_fmap_id (filter _ _)) at 2. apply Forall_fmap_ext_1, Forall_forall. intros a [Hdec Ha]%list_elem_of_filter.
  specialize (rel_epochs id). rewrite Forall_forall in rel_epochs. unfold approval_from_row. cbn. rewrite as_u64_as_i64 by by apply small_u64, rel_epochs.
  destruct a. cbn in *. by subst.
Qed.

Lemma NoDup_find {A} (f : A → string) x l : NoDup (f <$> l) → x ∈ l → List.find (λ r, bool_decide (f r = f x)) l = Some x.
Proof.
  induction l as [|y l IH]; [by intros _ ?%elem_of_nil|]. rewrite fmap_cons, NoDup_cons, elem_of_cons. cbn. intros [Hy Hl] [->|Hx].
  - by rewrite bool_decide_eq_true_2.
  - rewrite bool_decide_eq_false_2; [by apply IH|]. intros Heq. apply Hy. rewrite Heq. by apply list_elem_of_fmap_2.
Qed.

Lemma elem_of_selected {A} (f g : A → string) l x parent : NoDup (f <$> l) →
  x ∈ f <$> List.filter (λ r, bool_decide (g r = parent)) l ↔ ∃ row, List.find (λ r, bool_decide (f r = x)) l = Some row ∧ g row = parent.
Proof.
  intros Hl. rewrite list_elem_of_fmap. split.
  - intros (r & -> & [Hr Hg%bool_decide_eq_true]%list_elem_of_In%List.filter_In). exists r. split; [|done]. apply NoDup_find; [done|]. by apply list_elem_of_In.
  - intros (r & [Hr Hx%bool_decide_eq_true]%List.find_some & Hg). exists r. split; [done|]. apply list_elem_of_In, List.filter_In. split; [done|]. by apply bool_decide_eq_true.
Qed.

Lemma sim_children n t s parent child : sim n t s → child ∈ sql_children_of t parent ↔ child ∈ children_of s parent.
Proof.
  intros []. destruct sim_edges. destruct rel_unique as [Hd He]. unfold sql_children_of, children_of. rewrite rel_children, !elem_of_app, !elem_of_selected by done.
  rewrite sort_by_perm. unfold find_delegation, find_edge. do 2 (apply or_iff_compat_l). rewrite list_elem_of_fmap. split.
  - intros ([c row] & -> & Hin). apply elem_of_map_to_list, map_lookup_filter_Some in Hin. by exists row.
  - intros (row & Hrow & Hp). exists (child, row). split; [done|]. by apply elem_of_map_to_list, map_lookup_filter_Some.
Qed.

Lemma sim_resumable n t s id row partition : sim n t s → tb_session_record t !! id = Some row → partition < i64_bound →
  resumable s partition (session_from_row id row) =
  (ro_partition row =? as_i64 partition)%Z && (bool_decide (ro_status_kind row ∈ ["ready"; "active"]) ||
     bool_decide (ro_status_kind row = "suspended") && existsb (λ r, bool_decide (cr_session_id r = id)) (tb_completion_inbox t)).
Proof.
  intros Hsim Hrow Hp. pose proof Hsim as []. destruct sim_sessions. destruct (rel_partition _ _ Hrow) as (q & Hq & Hro).
  unfold resumable. cbn [sr_partition sr_status sr_session_id session_from_row]. rewrite Hro, Z_eqb_as_i64, as_u64_as_i64 by (done || by apply small_u64). f_equal.
  assert (existsb (λ r, bool_decide (cr_session_id r = id)) (tb_completion_inbox t) = has_unapplied s id) as ->.
  { transitivity (existsb (λ _ : CompletionRow, true) (List.filter (in_session id) (tb_completion_inbox t))).
    { rewrite <- existsb_filter_b. apply existsb_ext. intros r. by rewrite andb_true_r. }
    destruct sim_completions. rewrite rel_completions. unfold has_unapplied. by destruct (entry_vec (in_unapplied s) id). }
  specialize (rel_kind _ _ Hrow). unfold status_kinds in rel_kind. rewrite !elem_of_cons, elem_of_nil in rel_kind.
  destruct rel_kind as [->|[->|[->|[->|[->|[]]]]]]; vm_compute; done.
Qed.

Lemma sim_scan `{HashOrder} n t s partition : sim n t s → rows_wf s → partition < i64_bound → sql_scan_resumable t partition ≡ₚ scan_resumable s partition.
Proof.
  intros Hsim Hwf Hp. pose proof (sim_row n t s) as Hrow. unfold sql_scan_resumable, scan_resumable.
  assert (sr_session_id <$> (hash_order (in_sessions s)).*2 = (hash_order (in_sessions s)).*1) as Hkeyed.
  { rewrite <- list_fmap_compose. apply Forall_fmap_ext_1, Forall_forall. intros [k r] Hin%elem_of_hash_order. by apply (rows_keyed _ _ _ _ Hwf). }
  apply NoDup_Permutation.
  - eapply sublist_NoDup; [|apply sublist_fmap, sublist_filter_b]. apply NoDup_fst_hash_order.
  - eapply sublist_NoDup; [|apply sublist_fmap, sublist_filter]. rewrite Hkeyed. apply NoDup_fst_hash_order.
  - intros id. rewrite !list_elem_of_fmap. split.
    + intros ([k row] & -> & [Hin HP]%list_elem_of_In%List.filter_In). apply list_elem_of_In, elem_of_hash_order in Hin. exists (session_from_row k row). split; [done|].
      apply list_elem_of_filter. rewrite (sim_resumable n t s k row) by done. split; [exact HP|]. apply elem_of_hash_values. exists k. by rewrite Hrow, Hin.
    + intros (r & -> & [HP Hin]%list_elem_of_filter). apply elem_of_hash_values in Hin as [k Hk]. pose proof (rows_keyed _ _ _ _ Hwf _ _ Hk) as Hid. rewrite Hid.
      rewrite Hrow in Hk by done. destruct (tb_session_record t !! k) as [row|] eqn:Hr; [|done]. injection Hk as <-. exists (k, row). split; [done|].
      apply list_elem_of_In, List.filter_In. split; [by apply list_elem_of_In, elem_of_hash_order|]. by rewrite (sim_resumable n t s k row) in HP.
Qed.

Lemma sim_same_reads `{HashOrder} n t s : sim n t s → rows_wf s → same_reads t s.
Proof.
  intros Hsim Hwf. pose proof (sim_row n t s) as Hrow. pose proof Hsim as []. constructor.
  - intros id. unfold sql_status, status. rewrite Hrow by done. by destruct (tb_session_record t !! id).
  - intros id. unfold sql_peek_snapshot, peek_snapshot. rewrite Hrow by done. by destruct (tb_session_record t !! id).
  - intros id. destruct sim_sessions. unfold execution_policy. by rewrite rel_policy.
  - intros id. unfold sql_session_meta, session_meta. specialize (sim_meta id). destruct (in_session_meta s !! id), (tb_session_meta t !! id); cbn in *; congruence.
  - intros id after. by apply sim_splices_after with n.
  - intros id. by apply sim_pending with n.
  - intros child. unfold sql_delegation_work, delegation_work. destruct sim_edges. fold (find_delegation (tb_delegations t) child). rewrite rel_delegation, rel_edge.
    destruct (in_delegations s !! child); [done|]. cbn. fold (find_edge (tb_background_edges t) child). by destruct (find_edge _ _).
  - intros parent child. by apply sim_children with n.
  - intros partition. by apply sim_scan with n.
  - unfold sql_stats, stats. rewrite sim_jobs, sim_wakes, length_fmap. f_equal.
    assert (in_sessions s = map_imap (λ id row, Some (session_from_row id row)) (tb_session_record t)) as ->.
    { apply map_eq. intros id. rewrite Hrow, map_lookup_imap by done. by destruct (tb_session_record t !! id). }
    rewrite <- !(size_dom (D := gset string)). f_equal. symmetry. apply dom_imap_L. intros id. rewrite elem_of_dom. split; [intros [row ?]; eauto|naive_solver].
Qed.

(** C5. The SQLite store implements the in-memory one: run the same calls on
    a fresh database and on a fresh in-memory store, each call [legal] where it
    is made (numbers below 2^63, no completion delivered again after a commit
    folded it, no child bound twice, a completing child's parent known, a park
    with approvals of its own session).  Every reply is the same, errors and
    injected faults included, and afterwards every read of the lifecycle is the
    same too (the children of a parent as a set, the resumable sessions up to
    their order). *)
Theorem sqlite_refines `{HashOrder} ops : legal_run ops InMemoryStore_new = true → N.of_nat (length ops) < i64_bound →
  (run_with sql_step ops sqlite_new).1 = (run_with mem_step ops InMemoryStore_new).1 ∧
  same_reads (run_with sql_step ops sqlite_new).2 (run_with mem_step ops InMemoryStore_new).2.
Proof.
  intros Hl Hn. destruct (run_agrees 0 ops sqlite_new InMemoryStore_new sim_new (reachable_rows 0 _ reachable_new) Hn Hl) as (Hr & Hsim & Hwf).
  split; [done|]. by eapply sim_same_reads.
Qed.

(** A parent delegates and suspends; the child runs its turn, is fed while it
    runs, completes and wakes the parent, which folds the completion. *)
Definition demo_job : JobCommand := mkJobCommand "job" "parent" 1 (string_bytes "work") Persistent None.
Definition demo_commit (id : SessionId) (up_to : option N) (keys : list (Epoch * JobId)) : Checkpoint :=
  mkCheckpoint id 1 (string_bytes id) None up_to keys.
Definition demo_ops : list StoreOp := [
  OpCreateIdle "parent" 0 [];
  OpAppendSplice (mkNewSplice "parent" StartTurn (string_bytes "hello") "op-1" "user") 10;
  OpAcquireLease "parent"; OpLoad "parent" 1;
  OpCheckpoint (demo_commit "parent" (Some 1) []) demo_job 1; OpDequeueJob;
  OpCreateRunnable (mkRunnableSession "child" 0 [] JoiningChild None (Some (Delegation demo_job)) (Some (string_bytes "work"))) 20;
  OpAcquireLease "child"; OpLoad "child" 1;
  OpAppendSplice (mkNewSplice "child" Steer (string_bytes "more") "op-2" "user") 30;
  OpCommitTurn (demo_commit "child" (Some 1) []) None 1;
  OpAcquireLease "child"; OpLoad "child" 1; OpLoad "child" 2;
  OpSetFault (Some BeforeSnapshot); OpCommitTurn (demo_commit "child" (Some 2) []) None 2;
  OpCommitTurn (demo_commit "child" (Some 2) []) None 1;
  OpMarkCompleted (demo_commit "child" (Some 2) []) 2 40;
  OpDequeueWake; OpDequeueWake; OpAcquireLease "parent"; OpLoad "parent" 2;
  OpCommitTurn (demo_commit "parent" None [(1, "job")]) None 2; OpPruneConsumed 25 ].

Lemma sqlite_refines_witness :
  (run_with sql_step demo_ops sqlite_new).1 = (run_with mem_step demo_ops InMemoryStore_new).1 ∧
  same_reads (H := canonical_order) (run_with sql_step demo_ops sqlite_new).2 (run_with mem_step demo_ops InMemoryStore_new).2.
Proof. apply (sqlite_refines (H := canonical_order)); vm_compute; reflexivity. Defined.

(** ** Where the two part

    Each history differs from a legal one in its last call only. *)

Definition sql_end (ops : list StoreOp) : SqliteStore := (run_with sql_step ops sqlite_new).2.
Definition mem_end (ops : list StoreOp) : Inner := (run_with mem_step ops InMemoryStore_new).2.

(** A completion delivered again after the commit that folded it: the commit
    deleted the row whose key would have refused it, so SQLite takes it a second
    time and makes the session ready; the in-memory store still knows the key. *)
Example folded_completion_returns :
  let ops := [OpCreateSession "s" 0 []; OpAcquireLease "s"; OpRecordCompletion (mkJobCompletion "s" 1 "job" []);
              OpCommitTurn (demo_commit "s" None [(1, "job")]) None 1; OpRecordCompletion (mkJobCompletion "s" 1 "job" [])] in
  sql_status (sql_end ops) "s" = Some Ready ∧ status (mem_end ops) "s" = Some Idle.
Proof. split; vm_compute; reflexivity. Qed.

(** A child bound a second time: the first binding stays in SQLite, the last in
    memory. *)
Example rebinding_differs :
  let job w := mkJobCommand "job" "p" 1 (string_bytes w) Persistent None in
  let ops := [OpBindDelegation "c" (job "first"); OpBindDelegation "c" (job "second")] in
  sql_delegation_work (sql_end ops) "c" = Some (string_bytes "first") ∧
  delegation_work (mem_end ops) "c" = Some (string_bytes "second").
Proof. split; vm_compute; reflexivity. Qed.

(** A child completes whose parent has no row: SQLite queues the completion and
    a wake for the parent all the same. *)
Example orphan_completion_wakes :
  let ops := [OpCreateSession "c" 0 []; OpAcquireLease "c"; OpBindDelegation "c" demo_job; OpMarkCompleted (demo_commit "c" None []) 1 5] in
  tb_wake_outbox (sql_end ops) = ["parent"] ∧ in_wake_outbox (mem_end ops) = [].
Proof. split; vm_compute; reflexivity. Qed.

(** A park for no approval: SQLite leaves the snapshot and the status as they
    were but consumes the splices, so the turn that folded them is lost; the
    in-memory store writes the snapshot. *)
Example empty_park_loses_turn :
  let ops := [OpCreateIdle "s" 0 []; OpAppendSplice (mkNewSplice "s" StartTurn (string_bytes "hello") "op-1" "user") 10;
              OpAcquireLease "s"; OpLoad "s" 1; OpParkApproval (demo_commit "s" (Some 1) []) [] 1] in
  sql_peek_snapshot (sql_end ops) "s" = Some [] ∧ sql_splices_after (sql_end ops) "s" 0 = [] ∧
  peek_snapshot (mem_end ops) "s" = Some (string_bytes "s") ∧ splices_after (mem_end ops) "s" 0 = [].
Proof. split_and!; vm_compute; reflexivity. Qed.

(** A suspension whose job names its child: the column is not written. *)
Example suspended_job_loses_child :
  let job := mkJobCommand "job" "s" 1 [] Persistent (Some "c") in
  let ops := [OpCreateSession "s" 0 []; OpAcquireLease "s"; OpCheckpoint (demo_commit "s" None []) job 1] in
  (jc_child <$> (sql_dequeue_job (sql_end ops)).1) = Some None ∧ (jc_child <$> (dequeue_job (mem_end ops)).1) = Some (Some "c").
Proof. split; vm_compute; reflexivity. Qed.

(** An armed [AfterSnapshot] fails a park in SQLite, after the commit. *)
Example park_takes_the_fault :
  let approval := mkParkedApproval "s" "job" 1 "run?" None None None in
  let ops := [OpCreateSession "s" 0 []; OpAcquireLease "s"; OpSetFault (Some AfterSnapshot); OpParkApproval (demo_commit "s" None []) [approval] 1] in
  last (run_with sql_step ops sqlite_new).1 = Some (RUnit (Err (Fault AfterSnapshot))) ∧
  last (run_with mem_step ops InMemoryStore_new).1 = Some (RUnit (Ok tt)).
Proof. split; vm_compute; reflexivity. Qed.
