(* ===== verification/Exec.v ===== *)
(** * Paths and command fingerprints ([crates/engine/daemon-core/src/exec/mod.rs])

    [contain], the lexical floor of every execution environment, and the
    fingerprint an approval of a command is bound to.

    A path is the list of its components, which is what Rust compares paths by;
    [Path_new] parses a Unix path.  SHA-256 is a parameter. *)

From S2P Require Import Prelude Text VhcProto.
From Stdlib Require Import Strings.Byte Strings.Ascii.

#[local] Open Scope N_scope.
#[local] Open Scope daemon_scope.

(** ** Unix paths of the standard library *)

(** No [Prefix]: it exists on Windows only. *)
Inductive Component := RootDir | CurDir | ParentDir | Normal (seg : string).
#[export] Instance Component_eq_dec : EqDecision Component.
Proof. solve_decision. Defined.

#[export] Instance Normal_inj : Inj (=) (=) Normal.
Proof. by intros x y [= ->]. Qed.

Abbreviation Path := (list Component).

Fixpoint split_on (c : ascii) (s : string) : list string :=
  match s with
  | EmptyString => [EmptyString]
  | String a s' =>
      if decide (a = c) then EmptyString :: split_on c s'
      else match split_on c s' with w :: ws => String a w :: ws | [] => [String a EmptyString] end
  end.

(** A segment of the body of a path: empty ones and [.] leave no component. *)
Definition segment_component (w : string) : option Component :=
  if decide (w = "" ∨ w = ".") then None
  else if decide (w = "..") then Some ParentDir
  else Some (Normal w).

(** [Path::new(s).components()]: a leading [.] of a relative path is kept. *)
Definition Path_new (s : string) : Path :=
  match split_on "/"%char s with
  | [] => []
  | w :: ws =>
      let body := omap segment_component ws in
      if decide (w = "" ∧ ws ≠ []) then RootDir :: body
      else if decide (w = ".") then CurDir :: body
      else match segment_component w with Some c => c :: body | None => body end
  end.

Definition is_absolute (p : Path) : bool :=
  match p with RootDir :: _ => true | _ => false end.

(** [Path::join]: an absolute path replaces; [.] disappears inside a path. *)
Definition join (p q : Path) : Path :=
  if is_absolute q then q
  else match p, q with
       | [], _ => q
       | _, CurDir :: q => p ++ q
       | _, _ => p ++ q
       end.

(** [PathBuf::pop]: [false] at a root or at the empty path. *)
Definition pop (p : Path) : option Path :=
  match last p with
  | None | Some RootDir => None
  | Some _ => Some (removelast p)
  end.

(** [Path::parent] agrees with it; [Path::file_name] is the last [Normal]. *)
Definition parent (p : Path) : option Path := pop p.
Definition file_name (p : Path) : option string :=
  match last p with Some (Normal seg) => Some seg | _ => None end.

Fixpoint path_strip_prefix (root p : Path) : option Path :=
  match root, p with
  | [], _ => Some p
  | c :: root, d :: p => if decide (c = d) then path_strip_prefix root p else None
  | _ :: _, [] => None
  end.

Definition path_starts_with (p root : Path) : bool :=
  match path_strip_prefix root p with Some _ => true | None => false end.

(** ** Containment *)

Inductive Errno := EXDEV | ELOOP | ENOSYS | EPERM | EOPNOTSUPP | EEXIST | EOther (code : N).

(** [io::Error] by its kind; an error of the system keeps its number.  The path
    a message quotes is left out.  [OutOfFuel] is of the model only. *)
Inductive IoError :=
| PermissionDenied (message : string)
| InvalidInput (message : string)
| OsError (e : Errno)
| OutOfFuel.

Definition escape_error : IoError := PermissionDenied "path escapes the workspace sandbox".

(** The loop of [contain]; [None] is its early return. *)
Fixpoint normalize (normalized joined : Path) : option Path :=
  match joined with
  | [] => Some normalized
  | RootDir :: cs => normalize [RootDir] cs
  | CurDir :: cs => normalize normalized cs
  | ParentDir :: cs => match pop normalized with Some n => normalize n cs | None => None end
  | Normal seg :: cs => normalize (normalized ++ [Normal seg]) cs
  end.

Definition contain (root requested : Path) : result IoError Path :=
  let joined := if is_absolute requested then requested else join root requested in
  match normalize [] joined with
  | None => Err escape_error
  | Some normalized => if path_starts_with normalized root then Ok normalized else Err escape_error
  end.

(** ** Fingerprints *)

(** [feed]: [len(label) || label || len(bytes) || bytes]. *)
Definition feed (label b : bytes) : bytes :=
  le_bytes 8 (N.of_nat (length label)) ++ label ++ le_bytes 8 (N.of_nat (length b)) ++ b.

Definition feed_str (label : string) (b : bytes) : bytes := feed (string_bytes label) b.

(** Tuple order of [(&str, &str)]. *)
Definition env_leb (a b : string * string) : bool :=
  match String.compare a.1 b.1 with Lt => true | Eq => String.leb a.2 b.2 | Gt => false end.

Record CommandTuple := mkCommandTuple {
  ct_surface : string; ct_program_abs : string; ct_argv : list string;
  ct_env_delta : list (string * string); ct_cwd : string }.

(** What [compute] hashes. *)
Definition command_encoding (t : CommandTuple) : bytes :=
  let env := sort_by env_leb (ct_env_delta t) in
  feed_str "surface" (string_bytes (ct_surface t)) ++
  feed_str "program" (string_bytes (ct_program_abs t)) ++
  feed_str "argc" (le_bytes 8 (N.of_nat (length (ct_argv t)))) ++
  concat ((λ a, feed_str "arg" (string_bytes a)) <$> ct_argv t) ++
  feed_str "envc" (le_bytes 8 (N.of_nat (length env))) ++
  concat ((λ kv, feed_str "envk" (string_bytes kv.1) ++ feed_str "envv" (string_bytes kv.2)) <$> env) ++
  feed_str "cwd" (string_bytes (ct_cwd t)).

(** What [compute_labeled] hashes. *)
Definition labeled_encoding (surface : string) (parts : list (string * bytes)) : bytes :=
  feed_str "surface" (string_bytes surface) ++
  feed_str "partc" (le_bytes 8 (N.of_nat (length parts))) ++
  concat ((λ p, feed_str "label" (string_bytes p.1) ++ feed_str "part" p.2) <$> parts).

(** [{b:02x}]. *)
Definition hex_digit (x : N) : ascii := ascii_of_N (if x <? 10 then 48 + x else 87 + x).
Fixpoint to_hex (digest : bytes) : string :=
  match digest with
  | [] => EmptyString
  | b :: digest => String (hex_digit (Byte.to_N b / 16)) (String (hex_digit (Byte.to_N b mod 16)) (to_hex digest))
  end.

Section fingerprint.
Context (sha256 : bytes → bytes).

Definition CommandFingerprint_compute (t : CommandTuple) : string := to_hex (sha256 (command_encoding t)).
Definition CommandFingerprint_compute_labeled (surface : string) (parts : list (string * bytes)) : string :=
  to_hex (sha256 (labeled_encoding surface parts)).
End fingerprint.

(** [&self.0[..self.0.len().min(12)]]. *)
Definition CommandFingerprint_short (f : string) : string := String.substring 0 (Nat.min (String.length f) 12) f.

(** ** What a fingerprint binds *)

Definition sized_bytes (b : bytes) : Prop := N.of_nat (length b) < u64_bound.
Definition sized (s : string) : Prop := sized_bytes (string_bytes s).

(** Lengths of Rust strings and vectors fit 64 bits. *)
Record tuple_sized (t : CommandTuple) : Prop := {
  sized_surface : sized (ct_surface t);
  sized_program : sized (ct_program_abs t);
  sized_argc : N.of_nat (length (ct_argv t)) < u64_bound;
  sized_argv : Forall sized (ct_argv t);
  sized_envc : N.of_nat (length (ct_env_delta t)) < u64_bound;
  sized_env : Forall (λ kv, sized kv.1 ∧ sized kv.2) (ct_env_delta t);
  sized_cwd : sized (ct_cwd t)
}.

Definition parts_sized (surface : string) (parts : list (string * bytes)) : Prop :=
  sized surface ∧ N.of_nat (length parts) < u64_bound ∧ Forall (λ p, sized p.1 ∧ sized_bytes p.2) parts.

(** The same command: the explicit environment counts as a multiset. *)
Definition same_command (t u : CommandTuple) : Prop :=
  ct_surface t = ct_surface u ∧ ct_program_abs t = ct_program_abs u ∧ ct_argv t = ct_argv u ∧
  ct_env_delta t ≡ₚ ct_env_delta u ∧ ct_cwd t = ct_cwd u.

Lemma string_bytes_inj s s' : string_bytes s = string_bytes s' → s = s'.
Proof. intros Heq. by rewrite <- (String.string_of_list_byte_of_string s), <- (String.string_of_list_byte_of_string s'); f_equal. Qed.

(** Fields are self-delimiting. *)
Lemma feed_inj l l' b b' r r' : sized_bytes l → sized_bytes l' → sized_bytes b → sized_bytes b' →
  feed l b ++ r = feed l' b' ++ r' → l = l' ∧ b = b' ∧ r = r'.
Proof.
  intros Hl Hl' Hb Hb'. unfold feed. rewrite <- !app_assoc. intros Heq.
  apply app_inj_1 in Heq as [Hlen Heq]; [|by rewrite !length_le_bytes]. apply le8_inj in Hlen; [|done..].
  apply app_inj_1 in Heq as [-> Heq]; [|lia].
  apply app_inj_1 in Heq as [Hlen' Heq]; [|by rewrite !length_le_bytes]. apply le8_inj in Hlen'; [|done..].
  apply app_inj_1 in Heq as [-> ->]; [|lia]. done.
Qed.

Definition short (s : string) : bool := (length (string_bytes s) <? 100)%nat.

Lemma sized_label s : short s = true → sized s.
Proof. unfold short. intros H%Nat.ltb_lt. unfold sized, sized_bytes, u64_bound. lia. Qed.

Lemma feed_str_inj l b b' r r' : short l = true → sized_bytes b → sized_bytes b' → feed_str l b ++ r = feed_str l b' ++ r' → b = b' ∧ r = r'.
Proof. intros Hl%sized_label Hb Hb' Heq. by apply feed_inj in Heq as (_ & -> & ->). Qed.

Lemma sized_le8 x : sized_bytes (le_bytes 8 x).
Proof. unfold sized_bytes. by rewrite length_le_bytes. Qed.

Lemma feed_count_inj l x y r r' : short l = true → x < u64_bound → y < u64_bound →
  feed_str l (le_bytes 8 x) ++ r = feed_str l (le_bytes 8 y) ++ r' → x = y ∧ r = r'.
Proof. intros Hl Hx Hy [Heq ->]%feed_str_inj; [|done|apply sized_le8..]. by apply le8_inj in Heq. Qed.

Lemma feed_string_inj l s s' r r' : short l = true → sized s → sized s' →
  feed_str l (string_bytes s) ++ r = feed_str l (string_bytes s') ++ r' → s = s' ∧ r = r'.
Proof. intros Hl Hs Hs' [Heq%string_bytes_inj ->]%feed_str_inj; done. Qed.

(** As many items, each self-delimiting. *)
Lemma concat_inj {A} (enc : A → bytes) (P : A → Prop) l k r r' :
  (∀ x y r r', P x → P y → enc x ++ r = enc y ++ r' → x = y ∧ r = r') →
  Forall P l → Forall P k → length l = length k → concat (enc <$> l) ++ r = concat (enc <$> k) ++ r' → l = k ∧ r = r'.
Proof.
  intros Henc Hl. revert k. induction Hl as [|x l Hx _ IH]; intros [|y k] Hk Hlen Heq; try done.
  apply Forall_cons in Hk as [Hy Hk]. rewrite !fmap_cons in Heq. cbn [concat] in Heq. rewrite <- !app_assoc in Heq.
  apply Henc in Heq as [-> Heq]; [|done..]. injection Hlen as Hlen. destruct (IH _ Hk Hlen Heq) as [-> ->]. done.
Qed.

Lemma command_encoding_inj t u : tuple_sized t → tuple_sized u → command_encoding t = command_encoding u → same_command t u.
Proof.
  intros [] [] Heq. unfold command_encoding in Heq. cbn zeta in Heq.
  set (env := sort_by env_leb (ct_env_delta t)) in *. set (env' := sort_by env_leb (ct_env_delta u)) in *.
  assert (env ≡ₚ ct_env_delta t) as Hp by apply sort_by_perm. assert (env' ≡ₚ ct_env_delta u) as Hp' by apply sort_by_perm.
  apply feed_string_inj in Heq as [Hsurface Heq]; [|done..].
  apply feed_string_inj in Heq as [Hprogram Heq]; [|done..].
  apply feed_count_inj in Heq as [Hargc Heq]; [|done..].
  apply (concat_inj _ sized) in Heq as [Hargv Heq]; [|intros x y r r' Hx Hy H; by apply (feed_string_inj "arg") in H|done|done|lia].
  apply feed_count_inj in Heq as [Henvc Heq]; [|done|by rewrite Hp|by rewrite Hp'].
  apply (concat_inj _ (λ kv, sized kv.1 ∧ sized kv.2)) in Heq as [Henv Heq].
  - rewrite <- (app_nil_r (feed_str _ _)), <- (app_nil_r (feed_str _ (string_bytes (ct_cwd u)))) in Heq.
    apply feed_string_inj in Heq as [Hcwd _]; [|done..]. unfold same_command. by rewrite <- Hp, <- Hp', Henv.
  - intros [k v] [k' v'] r r' [Hx Hb] [Hy Hc] H. cbn [fst snd] in *. rewrite <- !app_assoc in H.
    apply feed_string_inj in H as [-> H]; [|done..]. apply feed_string_inj in H as [-> H]; done.
  - by rewrite Hp.
  - by rewrite Hp'.
  - lia.
Qed.

Lemma labeled_encoding_inj s s' l k : parts_sized s l → parts_sized s' k → labeled_encoding s l = labeled_encoding s' k → s = s' ∧ l = k.
Proof.
  intros (Hs & Hl & Hf) (Hs' & Hk & Hf') Heq. unfold labeled_encoding in Heq.
  apply feed_string_inj in Heq as [-> Heq]; [|done..]. apply feed_count_inj in Heq as [Hn Heq]; [|done..].
  rewrite <- (app_nil_r (concat _)), <- (app_nil_r (concat (_ <$> k))) in Heq.
  apply (concat_inj _ (λ p, sized p.1 ∧ sized_bytes p.2)) in Heq as [-> _]; [done| |done|done|lia].
  intros [x b] [y c] r r' [Hx Hb] [Hy Hc] H. cbn [fst snd] in *. rewrite <- !app_assoc in H.
  apply feed_string_inj in H as [-> H]; [|done..]. apply feed_str_inj in H as [-> H]; done.
Qed.

Lemma encodings_apart t s l : tuple_sized t → parts_sized s l → command_encoding t ≠ labeled_encoding s l.
Proof.
  intros [] (Hs & _ & _) Heq. apply feed_string_inj in Heq as [_ Heq]; [|done..].
  apply feed_inj in Heq as (Hlabel & _); [done|by apply sized_label..|done|apply sized_le8].
Qed.

Lemma hex_digit_inj x y : x < 16 → y < 16 → hex_digit x = hex_digit y → x = y.
Proof.
  intros Hx Hy Heq. apply (f_equal N_of_ascii) in Heq. unfold hex_digit in Heq. rewrite !N_ascii_embedding in Heq.
  all: destruct (x <? 10) eqn:?, (y <? 10) eqn:?; lia.
Qed.

Lemma to_hex_inj a b : to_hex a = to_hex b → a = b.
Proof.
  revert b. induction a as [|x a IH]; intros [|y b] Heq; try done. injection Heq as Hh Hl Heq.
  pose proof (to_N_bounded x). pose proof (to_N_bounded y).
  apply hex_digit_inj in Hh; [|apply N.Div0.div_lt_upper_bound; lia..]. apply hex_digit_inj in Hl; [|by apply N.mod_lt..].
  f_equal; [|by apply IH]. apply (inj Some). rewrite <- (of_to_N x), <- (of_to_N y). f_equal.
  rewrite (N.div_mod (to_N x) 16), (N.div_mod (to_N y) 16) by done. congruence.
Qed.

Section binding.
Context (sha256 : bytes → bytes).

(** The two inputs differ and hash alike. *)
Definition sha_collision (a b : bytes) : Prop := a ≠ b ∧ sha256 a = sha256 b.

(** C31. An approval is bound to its command.  Two commands with one
    fingerprint have the same surface, program, arguments and working directory,
    and the same explicit environment up to its order; two labelled tuples with
    one fingerprint are equal; and no command shares a fingerprint with a
    labelled tuple.  The only way out is a collision of SHA-256 on the two byte
    strings hashed. *)
Theorem fingerprint_binds t u s l s' k : tuple_sized t → tuple_sized u → parts_sized s l → parts_sized s' k →
  (CommandFingerprint_compute sha256 t = CommandFingerprint_compute sha256 u →
     same_command t u ∨ sha_collision (command_encoding t) (command_encoding u)) ∧
  (CommandFingerprint_compute_labeled sha256 s l = CommandFingerprint_compute_labeled sha256 s' k →
     s = s' ∧ l = k ∨ sha_collision (labeled_encoding s l) (labeled_encoding s' k)) ∧
  (CommandFingerprint_compute sha256 t = CommandFingerprint_compute_labeled sha256 s l →
     sha_collision (command_encoding t) (labeled_encoding s l)).
Proof.
  intros Ht Hu Hs Hs'. split_and!; intros Heq%to_hex_inj.
  - destruct (decide (command_encoding t = command_encoding u)); [left; by apply command_encoding_inj|by right].
  - destruct (decide (labeled_encoding s l = labeled_encoding s' k)); [left; by apply labeled_encoding_inj|by right].
  - split; [by apply encodings_apart|done].
Qed.
End binding.

Lemma fingerprint_binds_witness :
  let t := mkCommandTuple "shell" "/bin/ls" ["-l"] [("B", "2"); ("A", "1")] "/ws" in
  let u := mkCommandTuple "shell" "/bin/ls" ["-l"] [("A", "1"); ("B", "2")] "/ws" in
  same_command t u ∨ sha_collision (λ b, b) (command_encoding t) (command_encoding u).
Proof.
  intros t u. apply (fingerprint_binds (λ b, b) t u "fs" [("op", [])] "fs" [("op", [])]).
  - constructor; repeat constructor.
  - constructor; repeat constructor.
  - split_and!; repeat constructor.
  - split_and!; repeat constructor.
  - vm_compute. reflexivity.
Defined.

(** ** Contained paths *)

(** What a directory entry may be called. *)
Definition good_name (s : string) : Prop := s ≠ "" ∧ s ≠ "." ∧ s ≠ ".." ∧ split_on "/"%char s = [s].
Definition names_ok (p : Path) : Prop := Forall (λ c, match c with Normal s => good_name s | _ => True end) p.

Lemma split_on_word c s : Forall (λ w, split_on c w = [w]) (split_on c s).
Proof.
  induction s as [|a s IH]; cbn; [by constructor|]. case_decide as Ha; [by constructor|].
  destruct (split_on c s) as [|w ws] eqn:Hs; [constructor; [cbn; by rewrite decide_False|constructor]|].
  apply Forall_cons in IH as [Hw IH]. constructor; [|done]. cbn. by rewrite decide_False, Hw.
Qed.

Lemma segment_names_ok w c : split_on "/"%char w = [w] → segment_component w = Some c → match c with Normal s => good_name s | _ => True end.
Proof.
  unfold segment_component. intros Hw Hc. destruct (decide (w = "" ∨ w = ".")) as [|Hn]; [done|].
  destruct (decide (w = "..")) as [|Hd]; injection Hc as <-; [done|]. unfold good_name. naive_solver.
Qed.

Lemma Path_new_ok s : names_ok (Path_new s).
Proof.
  unfold Path_new, names_ok. pose proof (split_on_word "/"%char s) as Hf. destruct (split_on _ s) as [|w ws]; [constructor|].
  apply Forall_cons in Hf as [Hw Hf].
  assert (Forall (λ c, match c with Normal s => good_name s | _ => True end) (omap segment_component ws)) as Hbody.
  { apply Forall_forall. intros c (w' & Hin & Hc)%list_elem_of_omap. rewrite Forall_forall in Hf. apply (segment_names_ok w'); [by apply Hf|done]. }
  case_decide; [by constructor|]. case_decide; [by constructor|]. destruct (segment_component w) eqn:Hc; [|done].
  constructor; [|done]. by eapply segment_names_ok.
Qed.

(** A normalized path is names below an optional root. *)
Definition plain (p : Path) : Prop := ∃ segs, p = Normal <$> segs ∨ p = RootDir :: (Normal <$> segs).

Lemma pop_snoc p c : c ≠ RootDir → pop (p ++ [c]) = Some p.
Proof. intros Hc. unfold pop. rewrite last_snoc, removelast_last. by destruct c. Qed.

Lemma pop_plain p q : plain p → pop p = Some q → plain q.
Proof.
  intros (segs & Hp) Hq. destruct segs as [|s segs _] using rev_ind; [by destruct Hp; subst|]. rewrite fmap_app in Hp. cbn in Hp.
  exists segs. destruct Hp as [->| ->]; [|rewrite app_comm_cons in Hq]; rewrite pop_snoc in Hq by done; injection Hq as <-; auto.
Qed.

Lemma plain_snoc p seg : plain p → plain (p ++ [Normal seg]).
Proof. intros (segs & [->| ->]); exists (segs ++ [seg]); rewrite fmap_app; auto. Qed.

Lemma pop_names_ok p q : names_ok p → pop p = Some q → names_ok q.
Proof.
  destruct p as [|c p _] using rev_ind; [done|]. unfold pop. rewrite last_snoc, removelast_last. intros [Hok _]%Forall_app.
  destruct c; intros; by simplify_eq.
Qed.

Lemma normalize_plain acc cs p : plain acc → normalize acc cs = Some p → plain p.
Proof.
  revert acc. induction cs as [|c cs IH]; intros acc Hacc Hn; cbn in Hn; [by simplify_eq|]. destruct c.
  - eapply IH; [|done]. exists []. by right.
  - by eapply IH.
  - destruct (pop acc) eqn:Hp; [|done]. eapply IH; [|done]. by eapply pop_plain.
  - eapply IH; [|done]. by apply plain_snoc.
Qed.

Lemma normalize_names_ok acc cs p : names_ok acc → names_ok cs → normalize acc cs = Some p → names_ok p.
Proof.
  revert acc. induction cs as [|c cs IH]; intros acc Hacc Hcs Hn; cbn in Hn; [by simplify_eq|]. apply Forall_cons in Hcs as [Hc Hcs]. destruct c.
  - eapply IH; [|done|done]. by constructor.
  - by apply (IH acc).
  - destruct (pop acc) eqn:Hp; [|done]. eapply IH; [|done|done]. exact (pop_names_ok _ _ Hacc Hp).
  - eapply IH; [|done|done]. apply Forall_app_2; [done|]. by constructor.
Qed.

Lemma normalize_normals acc segs : normalize acc (Normal <$> segs) = Some (acc ++ (Normal <$> segs)).
Proof. revert acc. induction segs as [|s segs IH]; intros acc; cbn; [by rewrite app_nil_r|]. by rewrite IH, <- app_assoc. Qed.

Lemma path_strip_prefix_Some root p q : path_strip_prefix root p = Some q ↔ p = root ++ q.
Proof.
  revert p. induction root as [|c root IH]; intros p; cbn; [naive_solver|]. destruct p as [|d p]; [naive_solver|].
  case_decide; [rewrite IH|]; naive_solver.
Qed.

Lemma names_ok_join p q : names_ok p → names_ok q → names_ok (join p q).
Proof.
  unfold join. intros Hp Hq. destruct (is_absolute q); [done|]. destruct p; [done|]. destruct q as [|[] q]; try by apply Forall_app_2.
  apply Forall_cons in Hq as [_ Hq]. by apply Forall_app_2.
Qed.

Lemma plain_below root q : root ≠ [] → plain (root ++ q) → ∃ segs, q = Normal <$> segs.
Proof.
  destruct root as [|c root]; [done|]. intros _ (segs & Hs).
  assert (∃ rest, root ++ q = Normal <$> rest) as (rest & Hrest).
  { destruct Hs as [Hs|Hs]; [|exists segs; by injection Hs]. destruct segs as [|s segs]; [done|]. exists segs. by injection Hs. }
  symmetry in Hrest. apply fmap_app_inv in Hrest as (l1 & l2 & _ & Hq & _). by exists l2.
Qed.

(** Whatever is asked for, a path [contain] lets through is the root followed by
    names, none of them [.] or [..]. *)
Lemma contain_inside root requested p : root ≠ [] → contain root requested = Ok p → ∃ segs, p = root ++ (Normal <$> segs).
Proof.
  unfold contain, path_starts_with. intros Hroot Hc. destruct (normalize [] _) as [n|] eqn:Hn; [|done].
  destruct (path_strip_prefix root n) as [q|] eqn:Hq; [|done]. injection Hc as <-. apply path_strip_prefix_Some in Hq as ->.
  apply normalize_plain in Hn; [|by exists []; left]. destruct (plain_below _ _ Hroot Hn) as [segs ->]. by exists segs.
Qed.

Lemma contain_names_ok root requested p : names_ok root → names_ok requested → contain root requested = Ok p → names_ok p.
Proof.
  unfold contain. intros Hr Hq Hc. destruct (normalize [] _) as [n|] eqn:Hn; [|done]. destruct (path_starts_with n root); [|done]. injection Hc as <-.
  eapply normalize_names_ok; [constructor| |done]. destruct (is_absolute requested); [done|]. by apply names_ok_join.
Qed.

(** Names below the root are let through unchanged. *)
Lemma contain_normals root segs : plain root → root ≠ [] → contain root (Normal <$> segs) = Ok (root ++ (Normal <$> segs)).
Proof.
  intros (rs & Hr) Hne. assert (join root (Normal <$> segs) = root ++ (Normal <$> segs)) as Hj by (unfold join; destruct segs; by destruct root).
  assert (normalize [] (root ++ (Normal <$> segs)) = Some (root ++ (Normal <$> segs))) as Hn.
  { destruct Hr as [->| ->]; [rewrite <- fmap_app|cbn; rewrite <- fmap_app]; by rewrite normalize_normals. }
  unfold contain. replace (is_absolute (Normal <$> segs)) with false by by destruct segs. rewrite Hj, Hn. unfold path_starts_with.
  by rewrite (proj2 (path_strip_prefix_Some _ _ _) eq_refl).
Qed.

(** A root that has dots of its own contains nothing. *)
Lemma contain_plain root requested p : contain root requested = Ok p → plain root.
Proof.
  unfold contain, path_starts_with. intros Hc. destruct (normalize [] _) as [n|] eqn:Hn; [|done].
  destruct (path_strip_prefix root n) as [q|] eqn:Hq; [|done]. apply path_strip_prefix_Some in Hq as ->.
  apply normalize_plain in Hn as (rest & Hs); [|by exists []; left]. destruct Hs as [Hs|Hs]; [|destruct root as [|c root]; [by exists []; left|injection Hs as -> Hs]].
  all: symmetry in Hs; apply fmap_app_inv in Hs as (l1 & _ & -> & _); exists l1; auto.
Qed.

(** A path that climbs above the root and comes back is let through. *)
Example contain_climbs_and_returns : contain (Path_new "/ws") (Path_new "../ws/file") = Ok (Path_new "/ws/file").
Proof. reflexivity. Qed.
