(* ===== verification/Contained.v ===== *)
(** * The containment boundary ([crates/engine/daemon-core/src/exec/contained.rs])

    A workspace is reached only through the open descriptor of its root: every
    operation of [ContainedRoot] resolves its path from there, on Linux by one
    [openat2] that follows no link, elsewhere by opening one component after
    the other without following links.

    The kernel is a parameter (class [Kernel]) with what its manual documents as
    laws ([KernelLaws]); a descriptor is the file it refers to.  Operations run
    one at a time, and the file system may be anything when one starts: full of
    links, and changed by others since the last one.  The stub for other systems
    is not modelled. *)

From S2P Require Import Prelude Text Exec.

#[local] Open Scope N_scope.
#[local] Open Scope daemon_scope.

(** ** The kernel *)

Abbreviation Node := N.

Inductive Object :=
| ODir (entries : gmap string Node)
| OFile (data : bytes) (mode : N)
| OLink (target : string)
| OSpecial.

Record OFlags := mkOFlags {
  o_write : bool; o_create : bool; o_trunc : bool; o_directory : bool; o_nofollow : bool; o_cloexec : bool }.
#[export] Instance eta_OFlags : Eta OFlags := λ f,
  mkOFlags (o_write f) (o_create f) (o_trunc f) (o_directory f) (o_nofollow f) (o_cloexec f).

Definition RDONLY : OFlags := mkOFlags false false false false false false.
Definition RDONLY_DIRECTORY : OFlags := RDONLY <| o_directory := true |>.
Definition WRITE_CREATE_TRUNC : OFlags := mkOFlags true true true false false false.
Definition with_cloexec (f : OFlags) : OFlags := f <| o_cloexec := true |>.
Definition with_nofollow (f : OFlags) : OFlags := (with_cloexec f) <| o_nofollow := true |>.

Record ResolveFlags := mkResolveFlags { r_beneath : bool; r_no_symlinks : bool; r_no_magiclinks : bool }.

Record Stat := mkStat { st_mode : N; st_size : Z; st_mtime : Z; st_mtime_nsec : Z }.

(** [create_dir_all] and [open] follow links; they are for the root itself. *)
Class Kernel (W : Type) := {
  look : W → Node → option Object;
  sys_create_dir_all : Path → W → result Errno unit * W;
  sys_open : Path → OFlags → W → result Errno Node * W;
  sys_openat : Node → string → OFlags → N → W → result Errno Node * W;
  sys_openat2 : Node → Path → OFlags → N → ResolveFlags → W → result Errno Node * W;
  sys_mkdirat : Node → string → N → W → result Errno unit * W;
  sys_unlinkat : Node → string → bool → W → result Errno unit * W;
  sys_renameat : Node → string → Node → string → W → result Errno unit * W;
  sys_fchmod : Node → N → W → result Errno unit * W;
  sys_write_all : Node → bytes → W → result Errno unit * W;
  sys_read_to_end : Node → W → result Errno bytes;
  sys_statat_nofollow : Node → string → W → result Errno Stat;
  sys_fstat : Node → W → result Errno Stat;
  sys_readlinkat : Node → string → W → result Errno string;
  sys_getdents : Node → W → result Errno (list string);
  as_raw_fd : Node → W → N
}.

(** ** Errors and metadata *)

Definition escape : IoError := escape_error.

Definition to_io (e : Errno) : IoError :=
  match e with EXDEV | ELOOP => escape | other => OsError other end.

Section fs.
Context `{Kernel W}.

Abbreviation Io := (M W IoError).

Definition sys {A} (call : W → result Errno A * W) : Io A := λ w,
  match call w with (Ok a, w') => (Ok a, w') | (Err e, w') => (Err (to_io e), w') end.

Definition sys_read {A} (call : W → result Errno A) : Io A := λ w,
  match call w with Ok a => (Ok a, w) | Err e => (Err (to_io e), w) end.

Definition from_result {A} (r : result IoError A) : Io A := λ w, (r, w).
End fs.

Definition DIR_MODE : N := 493.
Definition FILE_MODE : N := 420.

Record Meta := mkMeta {
  mt_is_dir : bool; mt_is_file : bool; mt_is_symlink : bool; mt_size : N; mt_mtime_ms : N; mt_mode : N }.

(** [FileType::from_raw_mode] compares [mode & S_IFMT]. *)
Definition file_type (mode : N) : N := N.land mode 61440.
Definition S_IFDIR : N := 16384.
Definition S_IFREG : N := 32768.
Definition S_IFLNK : N := 40960.

(** [(st_mtime * 1000 + st_mtime_nsec / 1_000_000).max(0) as u64]. *)
Definition mtime_ms (st : Stat) : N :=
  wrap64 (Z.to_N (st_mtime st * 1000 + st_mtime_nsec st ÷ 1000000)%Z).

Definition meta_from_stat (st : Stat) : Meta :=
  mkMeta (file_type (st_mode st) =? S_IFDIR) (file_type (st_mode st) =? S_IFREG) (file_type (st_mode st) =? S_IFLNK)
    (Z.to_N (st_size st mod Z.of_N u64_bound)) (mtime_ms st) (N.land (st_mode st) 4095).

(** Of an open descriptor, which never refers to a link. *)
Definition meta_from_std (st : Stat) : Meta :=
  mkMeta (file_type (st_mode st) =? S_IFDIR) (file_type (st_mode st) =? S_IFREG) false
    (Z.to_N (st_size st mod Z.of_N u64_bound)) (mtime_ms st) (N.land (st_mode st) 4095).

Record DirEntryLite := mkDirEntryLite { de_name : string; de_meta : Meta }.

(** The path [/proc/self/fd/<n>], and the descriptor kept open. *)
Record ChildCwd := mkChildCwd { cc_path : string; cc_keepalive : Node }.

(** ** Resolution *)

Fixpoint reject_escape (rel : Path) : result IoError unit :=
  match rel with
  | [] => Ok tt
  | (ParentDir | RootDir) :: _ => Err escape
  | (CurDir | Normal _) :: cs => reject_escape cs
  end.

Fixpoint normal_segments (rel : Path) : result IoError (list string) :=
  match rel with
  | [] => Ok []
  | Normal seg :: cs => match normal_segments cs with Ok out => Ok (seg :: out) | Err e => Err e end
  | CurDir :: cs => normal_segments cs
  | _ => Err escape
  end.

(** [(parent, final_name)]. *)
Definition split_parent (rel : Path) : option (Path * string) :=
  name ← file_name rel; Some (default [] (parent rel), name).

Record ContainedRoot := mkContainedRoot { cr_root_fd : Node; cr_root_abs : Path }.

Definition norm (cr : ContainedRoot) (path : Path) : result IoError Path :=
  match contain (cr_root_abs cr) path with
  | Ok abs => Ok (default [] (path_strip_prefix (cr_root_abs cr) abs))
  | Err e => Err e
  end.

Section ops.
Context `{Kernel W}.

Abbreviation Io := (M W IoError).

Definition ContainedRoot_open (root : Path) : Io ContainedRoot :=
  _ ← sys (sys_create_dir_all root);
  root_fd ← sys (sys_open root (with_cloexec RDONLY_DIRECTORY));
  mret (mkContainedRoot root_fd root).

(** The components after the first, each opened from the one before. *)
Fixpoint walk_from (cur : Node) (segs : list string) (oflags : OFlags) (mode : N) : Io Node :=
  match segs with
  | [] => mret cur
  | [seg] => sys (sys_openat cur seg (with_nofollow oflags) mode)
  | seg :: segs =>
      next ← sys (sys_openat cur seg (with_nofollow RDONLY_DIRECTORY) 0);
      walk_from next segs oflags mode
  end.

Definition walk_openat (root : Node) (rel : Path) (oflags : OFlags) (mode : N) : Io Node :=
  _ ← from_result (reject_escape rel);
  segs ← from_result (normal_segments rel);
  match segs with
  | [] => sys (sys_openat root "." (with_nofollow oflags) mode)
  | _ => walk_from root segs oflags mode
  end.

(** A kernel without [openat2] walks, as the other systems do. *)
Definition openat2_or_walk (root : Node) (path rel : Path) (oflags : OFlags) (mode : N) : Io Node := λ w,
  match sys_openat2 root path (with_cloexec oflags) mode (mkResolveFlags true true true) w with
  | (Ok fd, w') => (Ok fd, w')
  | (Err (ENOSYS | EPERM | EOPNOTSUPP), w') => walk_openat root rel oflags mode w'
  | (Err e, w') => (Err (to_io e), w')
  end.

(** On Linux. *)
Definition resolve_open (root : Node) (rel : Path) (oflags : OFlags) (mode : N) : Io Node :=
  let path := match rel with [] => [CurDir] | _ => rel end in
  _ ← from_result (reject_escape rel);
  openat2_or_walk root path rel oflags mode.

Definition open_at (cr : ContainedRoot) (rel : Path) (oflags : OFlags) (mode : N) : Io Node :=
  rel ← from_result (norm cr rel);
  resolve_open (cr_root_fd cr) rel oflags mode.

Definition parent_fd_and_name (cr : ContainedRoot) (rel : Path) : Io (Node * string) :=
  rel ← from_result (norm cr rel);
  match split_parent rel with
  | None => throw (InvalidInput "operation requires a name below the root")
  | Some (parent, name) =>
      parent_fd ← open_at cr parent RDONLY_DIRECTORY 0;
      mret (parent_fd, name)
  end.

(** ** Operations *)

Definition resolve_display (cr : ContainedRoot) (rel : Path) : result IoError Path := contain (cr_root_abs cr) rel.

Definition read_sync (cr : ContainedRoot) (rel : Path) : Io bytes :=
  fd ← open_at cr rel RDONLY 0;
  sys_read (sys_read_to_end fd).

Definition read_capped_sync (cr : ContainedRoot) (rel : Path) (cap : N) : Io (bytes * Meta * bool) :=
  fd ← open_at cr rel RDONLY 0;
  st ← sys_read (sys_fstat fd);
  full ← sys_read (sys_read_to_end fd);
  let truncated := cap <? N.of_nat (length full) in
  mret (if truncated then take (N.to_nat cap) full else full, meta_from_std st, truncated).

(** [mkdirat], and a look at what is there already. *)
Definition make_dir (cur : Node) (seg : string) : Io unit := λ w,
  match sys_mkdirat cur seg DIR_MODE w with
  | (Ok _, w') => (Ok tt, w')
  | (Err EEXIST, w') =>
      match sys_statat_nofollow cur seg w' with
      | Err e => (Err (to_io e), w')
      | Ok st => if file_type (st_mode st) =? S_IFLNK then (Err escape, w') else (Ok tt, w')
      end
  | (Err e, w') => (Err (to_io e), w')
  end.

Fixpoint create_from (cur : Node) (segs : list string) : Io unit :=
  match segs with
  | [] => mret tt
  | seg :: segs =>
      _ ← make_dir cur seg;
      next ← sys (sys_openat cur seg (with_nofollow RDONLY_DIRECTORY) 0);
      create_from next segs
  end.

Definition create_dir_all_sync (cr : ContainedRoot) (rel : Path) : Io unit :=
  rel ← from_result (norm cr rel);
  segs ← from_result (normal_segments rel);
  create_from (cr_root_fd cr) segs.

(** [if let Some(parent) = rel.parent() { if !parent.is_empty() { create_dir_all } }]. *)
Definition create_parent (cr : ContainedRoot) (rel : Path) : Io unit :=
  match parent rel with
  | Some ((_ :: _) as p) => create_dir_all_sync cr p
  | _ => mret tt
  end.

Definition open_write_file (cr : ContainedRoot) (rel : Path) : Io Node :=
  _ ← create_parent cr rel;
  open_at cr rel WRITE_CREATE_TRUNC FILE_MODE.

Definition write_sync (cr : ContainedRoot) (rel : Path) (b : bytes) : Io unit :=
  file ← open_write_file cr rel;
  sys (sys_write_all file b).

Definition write_meta_sync (cr : ContainedRoot) (rel : Path) (b : bytes) : Io Meta :=
  _ ← create_parent cr rel;
  fd ← open_at cr rel WRITE_CREATE_TRUNC FILE_MODE;
  _ ← sys (sys_write_all fd b);
  st ← sys_read (sys_fstat fd);
  mret (meta_from_std st).

Definition lossy (name : string) : string := String.string_of_list_byte (from_utf8_lossy (string_bytes name)).

(** The entries but [.] and [..]; one that is gone by now is left out. *)
Fixpoint stat_entries (dir_fd : Node) (names : list string) (w : W) : list DirEntryLite :=
  match names with
  | [] => []
  | raw :: names =>
      if decide (raw = "." ∨ raw = "..") then stat_entries dir_fd names w
      else match sys_statat_nofollow dir_fd raw w with
           | Ok st => mkDirEntryLite (lossy raw) (meta_from_stat st) :: stat_entries dir_fd names w
           | Err _ => stat_entries dir_fd names w
           end
  end.

Definition read_dir_sync (cr : ContainedRoot) (rel : Path) : Io (list DirEntryLite) :=
  dir_fd ← open_at cr rel RDONLY_DIRECTORY 0;
  names ← sys_read (sys_getdents dir_fd);
  gets (λ w, sort_by (λ a b, String.leb (de_name a) (de_name b)) (stat_entries dir_fd names w)).

Definition symlink_metadata_sync (cr : ContainedRoot) (rel : Path) : Io Meta :=
  rel ← from_result (norm cr rel);
  match split_parent rel with
  | None => st ← sys_read (sys_fstat (cr_root_fd cr)); mret (meta_from_stat st)
  | Some (parent, name) =>
      parent_fd ← open_at cr parent RDONLY_DIRECTORY 0;
      st ← sys_read (sys_statat_nofollow parent_fd name);
      mret (meta_from_stat st)
  end.

Definition remove_file_sync (cr : ContainedRoot) (rel : Path) : Io unit :=
  '(parent_fd, name) ← parent_fd_and_name cr rel;
  sys (sys_unlinkat parent_fd name false).

Definition remove_dir_sync (cr : ContainedRoot) (rel : Path) : Io unit :=
  '(parent_fd, name) ← parent_fd_and_name cr rel;
  sys (sys_unlinkat parent_fd name true).

(** The loop over the entries: a link is unlinked, never entered. *)
Fixpoint remove_children (remove_all : Path → Io unit) (cr : ContainedRoot) (rel : Path) (children : list DirEntryLite) : Io unit :=
  match children with
  | [] => mret tt
  | child :: children =>
      let child_rel := join rel (Path_new (de_name child)) in
      _ ← (if mt_is_symlink (de_meta child) then remove_file_sync cr child_rel
           else if mt_is_dir (de_meta child) then remove_all child_rel
           else remove_file_sync cr child_rel);
      remove_children remove_all cr rel children
  end.

(** [fuel] bounds the depth of the recursion. *)
Fixpoint remove_dir_all_sync (fuel : nat) (cr : ContainedRoot) (rel : Path) : Io unit :=
  match fuel with
  | O => throw OutOfFuel
  | S fuel =>
      children ← read_dir_sync cr rel;
      _ ← remove_children (remove_dir_all_sync fuel cr) cr rel children;
      remove_dir_sync cr rel
  end.

Definition rename_sync (cr : ContainedRoot) (from to : Path) : Io unit :=
  '(from_parent, from_name) ← parent_fd_and_name cr from;
  '(to_parent, to_name) ← parent_fd_and_name cr to;
  sys (sys_renameat from_parent from_name to_parent to_name).

Definition read_link_sync (cr : ContainedRoot) (rel : Path) : Io string :=
  '(parent_fd, name) ← parent_fd_and_name cr rel;
  sys_read (sys_readlinkat parent_fd name).

Definition set_mode_sync (cr : ContainedRoot) (rel : Path) (mode : N) : Io unit :=
  fd ← open_at cr rel RDONLY 0;
  sys (sys_fchmod fd mode).

Definition verify_dir_sync (cr : ContainedRoot) (rel : Path) : Io Path :=
  _ ← open_at cr rel RDONLY_DIRECTORY 0;
  from_result (contain (cr_root_abs cr) rel).

Definition child_cwd_sync (cr : ContainedRoot) (rel : Path) : Io ChildCwd :=
  _ ← create_dir_all_sync cr rel;
  fd ← open_at cr rel RDONLY_DIRECTORY 0;
  gets (λ w, mkChildCwd ("/proc/self/fd/" +:+ pretty (as_raw_fd fd w)) fd).
End ops.
