(* ===== verification/KernelSpec.v ===== *)
(** * What the kernel promises

    The documented behaviour of the system calls [ContainedRoot] makes, as laws
    on the class [Kernel].  Times and link counts are left out; a failing call
    changes nothing, and a number is not used again while it is looked at. *)

From S2P Require Import Prelude Text Exec Contained.

#[local] Open Scope N_scope.
#[local] Open Scope daemon_scope.

(** ** What the kernel promises *)

Section laws.
Context `{Kernel W}.

(** The entry [s] of the directory [d]. *)
Definition edge (w : W) (d : Node) (s : string) (n : Node) : Prop := ∃ es, look w d = Some (ODir es) ∧ es !! s = Some n.
Definition is_directory (w : W) (n : Node) : Prop := ∃ es, look w n = Some (ODir es).

(** Along directory entries only: a link leads nowhere. *)
Fixpoint walk (w : W) (d : Node) (segs : list string) : option Node :=
  match segs with
  | [] => Some d
  | s :: segs => match look w d with Some (ODir es) => n ← es !! s; walk w n segs | _ => None end
  end.

Definition beneath (w : W) (root n : Node) : Prop := ∃ segs, walk w root segs = Some n.

(** [openat] of one name with [O_NOFOLLOW]: what is there, or a new file; never
    a link. *)
Record opened (d : Node) (name : string) (fl : OFlags) (n : Node) (w w' : W) : Prop := {
  opened_edge : edge w' d name n;
  opened_no_link : ∀ t, look w' n ≠ Some (OLink t);
  opened_dir : o_directory fl = true → is_directory w' n;
  opened_from : edge w d name n ∨ o_create fl = true ∧ look w n = None;
  opened_edges : ∀ a s b, edge w' a s b ↔ edge w a s b ∨ a = d ∧ s = name ∧ b = n;
  opened_others : ∀ x o, look w x = Some o → x ≠ d → x ≠ n → look w' x = Some o;
  opened_trunc : o_trunc fl = true → ∀ data m, look w' n = Some (OFile data m) → data = [];
  opened_same : o_create fl = false → o_trunc fl = false → w' = w
}.

(** [openat2] beneath [root] without links: the same at the end of a walk. *)
Definition resolved (root : Node) (segs : list string) (fl : OFlags) (n : Node) (w w' : W) : Prop :=
  match last segs with
  | None => n = root ∧ w' = w ∧ is_directory w root
  | Some name => ∃ d, walk w root (removelast segs) = Some d ∧ opened d name fl n w w'
  end.

(** Only the object [n] changed, and no entry. *)
Definition only_object (n : Node) (w w' : W) : Prop :=
  (∀ x o, look w x = Some o → x ≠ n → look w' x = Some o) ∧ (∀ a s b, edge w' a s b ↔ edge w a s b).

Class KernelLaws : Prop := {
  law_openat d name fl mode w n w' : good_name name → o_nofollow fl = true →
    sys_openat d name fl mode w = (Ok n, w') → opened d name fl n w w';
  law_openat_dot d fl mode w n w' : sys_openat d "." fl mode w = (Ok n, w') → n = d ∧ w' = w ∧ is_directory w d;
  law_openat_err d name fl mode w e w' : sys_openat d name fl mode w = (Err e, w') → w' = w;
  law_openat2 root path fl mode w n w' segs : normal_segments path = Ok segs → Forall good_name segs →
    sys_openat2 root path fl mode (mkResolveFlags true true true) w = (Ok n, w') → resolved root segs fl n w w';
  law_openat2_err root path fl mode rf w e w' : sys_openat2 root path fl mode rf w = (Err e, w') → w' = w;
  law_mkdirat d name mode w w' : good_name name → sys_mkdirat d name mode w = (Ok tt, w') →
    ∃ n, look w n = None ∧ (∀ a s b, edge w' a s b ↔ edge w a s b ∨ a = d ∧ s = name ∧ b = n) ∧
      (∀ x o, look w x = Some o → x ≠ d → look w' x = Some o);
  law_mkdirat_err d name mode w e w' : sys_mkdirat d name mode w = (Err e, w') → w' = w;
  law_unlinkat d name rmdir w w' : good_name name → sys_unlinkat d name rmdir w = (Ok tt, w') →
    ∃ n, edge w d name n ∧ (∀ a s b, edge w' a s b → edge w a s b) ∧
      (∀ x o, look w x = Some o → x ≠ d → x ≠ n → look w' x = Some o);
  law_unlinkat_err d name rmdir w e w' : sys_unlinkat d name rmdir w = (Err e, w') → w' = w;
  law_renameat d name d' name' w w' : good_name name → good_name name' → sys_renameat d name d' name' w = (Ok tt, w') →
    ∃ n, edge w d name n ∧ (∀ a s b, edge w' a s b → edge w a s b ∨ a = d' ∧ s = name' ∧ b = n) ∧
      (∀ x o, look w x = Some o → x ≠ d → x ≠ d' → ¬ edge w d' name' x → look w' x = Some o);
  law_renameat_err d name d' name' w e w' : sys_renameat d name d' name' w = (Err e, w') → w' = w;
  law_fchmod n mode w r w' : sys_fchmod n mode w = (r, w') → only_object n w w';
  law_write_all n b w r w' : sys_write_all n b w = (r, w') → only_object n w w';
  law_written n b w w' data m : sys_write_all n b w = (Ok tt, w') → (∀ d m, look w n = Some (OFile d m) → d = []) →
    look w' n = Some (OFile data m) → data = b;
  law_read n w b : sys_read_to_end n w = Ok b → ∃ m, look w n = Some (OFile b m);
  law_readlink d name w t : good_name name → sys_readlinkat d name w = Ok t → ∃ n, edge w d name n ∧ look w n = Some (OLink t);
  law_getdents d w names : sys_getdents d w = Ok names →
    ∃ es, look w d = Some (ODir es) ∧ ∀ x, x ∈ names → x = "." ∨ x = ".." ∨ is_Some (es !! x)
}.

(** ** Walks *)

Lemma walk_app w d segs segs' : walk w d (segs ++ segs') = n ← walk w d segs; walk w n segs'.
Proof.
  revert d. induction segs as [|s segs IH]; intros d; [done|]. cbn. destruct (look w d) as [[es| | |]|]; try done.
  destruct (es !! s) as [n|]; [apply IH|done].
Qed.

Lemma walk_one w d s n : walk w d [s] = Some n ↔ edge w d s n.
Proof.
  unfold edge. cbn. destruct (look w d) as [[es| | |]|]; split; try naive_solver.
  - destruct (es !! s) eqn:Hs; naive_solver.
  - intros (es' & He & Hs). injection He as <-. by rewrite Hs.
Qed.

Lemma walk_snoc w d segs s n : walk w d (segs ++ [s]) = Some n ↔ ∃ m, walk w d segs = Some m ∧ edge w m s n.
Proof.
  rewrite walk_app. destruct (walk w d segs) as [m|]; cbn -[walk]; [|naive_solver]. rewrite walk_one. naive_solver.
Qed.

Lemma walk_mono w w' d segs n : (∀ a s b, edge w a s b → edge w' a s b) → walk w d segs = Some n → walk w' d segs = Some n.
Proof.
  intros He. revert n. induction segs as [|s segs IH] using rev_ind; intros n; [done|]. rewrite !walk_snoc. naive_solver.
Qed.

Lemma beneath_root w root : beneath w root root.
Proof. by exists []. Qed.

Lemma beneath_edge w root d s n : beneath w root d → edge w d s n → beneath w root n.
Proof. intros [segs Hs] He. exists (segs ++ [s]). apply walk_snoc. eauto. Qed.
End laws.
