(* ===== verification/MemFs.v ===== *)
(** * A file system in memory

    The simplest kernel that keeps the promises: objects in a finite map, new
    ones under unused numbers, links never followed below a root. *)

From S2P Require Import Prelude Text Exec Contained KernelSpec.

#[local] Open Scope N_scope.
#[local] Open Scope daemon_scope.

Abbreviation Mem := (gmap N Object).

Definition ENOENT : Errno := EOther 2.
Definition ENOTDIR : Errno := EOther 20.
Definition EISDIR : Errno := EOther 21.
Definition EINVAL : Errno := EOther 22.
Definition ENOTEMPTY : Errno := EOther 39.

Definition entries_of (w : Mem) (d : N) : option (gmap string N) :=
  match w !! d with Some (ODir es) => Some es | _ => None end.

Definition entry_of (w : Mem) (d : N) (name : string) : option N := es ← entries_of w d; es !! name.

Definition unused (w : Mem) : N := fresh (dom w : gset N).

Definition mem_mkdirat (d : N) (name : string) (mode : N) (w : Mem) : result Errno unit * Mem :=
  match entries_of w d with
  | None => (Err ENOTDIR, w)
  | Some es =>
      match es !! name with
      | Some _ => (Err EEXIST, w)
      | None => (Ok tt, <[d := ODir (<[name := unused w]> es)]> (<[unused w := ODir ∅]> w))
      end
  end.

Definition mem_openat (d : N) (name : string) (fl : OFlags) (mode : N) (w : Mem) : result Errno N * Mem :=
  match entries_of w d with
  | None => (Err ENOTDIR, w)
  | Some es =>
      if decide (name = ".") then (if o_write fl then (Err EISDIR, w) else (Ok d, w))
      else match es !! name with
           | None =>
               if o_create fl && negb (o_directory fl)
               then (Ok (unused w), <[d := ODir (<[name := unused w]> es)]> (<[unused w := OFile [] mode]> w))
               else (Err ENOENT, w)
           | Some n =>
               match w !! n with
               | None => (Err ENOENT, w)
               | Some (OLink _) => (Err ELOOP, w)
               | Some (ODir _) => if o_write fl then (Err EISDIR, w) else (Ok n, w)
               | Some (OFile _ m) => if o_directory fl then (Err ENOTDIR, w) else (Ok n, if o_trunc fl then <[n := OFile [] m]> w else w)
               | Some OSpecial => if o_directory fl then (Err ENOTDIR, w) else (Ok n, w)
               end
           end
  end.

Fixpoint mem_walk (w : Mem) (d : N) (segs : list string) : option N :=
  match segs with [] => Some d | s :: segs => es ← entries_of w d; n ← es !! s; mem_walk w n segs end.

Definition mem_openat2 (root : N) (path : Path) (fl : OFlags) (mode : N) (rf : ResolveFlags) (w : Mem) : result Errno N * Mem :=
  match normal_segments path with
  | Err _ => (Err EXDEV, w)
  | Ok segs =>
      match last segs with
      | None => mem_openat root "." fl mode w
      | Some name =>
          match mem_walk w root (removelast segs) with
          | None => (Err ELOOP, w)
          | Some d => match w !! d with Some (OLink _) => (Err ELOOP, w) | _ => mem_openat d name fl mode w end
          end
      end
  end.

Definition mem_unlinkat (d : N) (name : string) (rmdir : bool) (w : Mem) : result Errno unit * Mem :=
  match entries_of w d with
  | None => (Err ENOTDIR, w)
  | Some es =>
      match es !! name with
      | None => (Err ENOENT, w)
      | Some n =>
          if bool_decide (is_Some (entries_of w n)) then
            if rmdir then if bool_decide (entries_of w n = Some ∅) then (Ok tt, <[d := ODir (delete name es)]> w) else (Err ENOTEMPTY, w)
            else (Err EISDIR, w)
          else if rmdir then (Err ENOTDIR, w) else (Ok tt, <[d := ODir (delete name es)]> w)
      end
  end.

Definition mem_renameat (d : N) (name : string) (d' : N) (name' : string) (w : Mem) : result Errno unit * Mem :=
  match entries_of w d, entries_of w d' with
  | Some es, Some _ =>
      match es !! name with
      | None => (Err ENOENT, w)
      | Some n =>
          let w1 := <[d := ODir (delete name es)]> w in
          match entries_of w1 d' with
          | Some es' => (Ok tt, <[d' := ODir (<[name' := n]> es')]> w1)
          | None => (Err ENOTDIR, w)
          end
      end
  | _, _ => (Err ENOTDIR, w)
  end.

Definition mem_stat (w : Mem) (n : N) : result Errno Stat :=
  match w !! n with
  | Some (ODir _) => Ok (mkStat (S_IFDIR + 493) 0 0 0)
  | Some (OFile data m) => Ok (mkStat (S_IFREG + m) (Z.of_nat (length data)) 0 0)
  | Some (OLink t) => Ok (mkStat (S_IFLNK + 511) (Z.of_nat (String.length t)) 0 0)
  | Some OSpecial => Ok (mkStat 8192 0 0 0)
  | None => Err ENOENT
  end.

#[export] Instance mem_kernel : Kernel Mem := {
  look w n := w !! n;
  sys_create_dir_all _ w := (Ok tt, w);
  sys_open _ _ w := (Ok 1, w);
  sys_openat := mem_openat;
  sys_openat2 := mem_openat2;
  sys_mkdirat := mem_mkdirat;
  sys_unlinkat := mem_unlinkat;
  sys_renameat := mem_renameat;
  sys_fchmod n mode w := match w !! n with Some (OFile data _) => (Ok tt, <[n := OFile data mode]> w) | _ => (Err EINVAL, w) end;
  sys_write_all n b w := match w !! n with Some (OFile data m) => (Ok tt, <[n := OFile (b ++ drop (length b) data) m]> w) | _ => (Err EINVAL, w) end;
  sys_read_to_end n w := match w !! n with Some (OFile data _) => Ok data | _ => Err EISDIR end;
  sys_statat_nofollow d name w := match entry_of w d name with Some n => mem_stat w n | None => Err ENOENT end;
  sys_fstat n w := mem_stat w n;
  sys_readlinkat d name w := match entry_of w d name with Some n => match w !! n with Some (OLink t) => Ok t | _ => Err EINVAL end | None => Err ENOENT end;
  sys_getdents d w := match entries_of w d with Some es => Ok ("." :: ".." :: (map_to_list es).*1) | None => Err ENOTDIR end;
  as_raw_fd n _ := n
}.

(** ** It keeps the promises *)

Lemma mem_edge (w : Mem) d s n : edge w d s n ↔ entry_of w d s = Some n.
Proof.
  unfold edge, entry_of, entries_of. cbn. split.
  - intros (es & -> & Hs). done.
  - destruct (w !! d) as [[es| | |]|]; try done. intros Hs. by exists es.
Qed.

Lemma entries_of_Some (w : Mem) d es : entries_of w d = Some es ↔ w !! d = Some (ODir es).
Proof. unfold entries_of. destruct (w !! d) as [[]|]; naive_solver. Qed.

Lemma mem_walk_spec (w : Mem) d segs : mem_walk w d segs = walk w d segs.
Proof.
  revert d. induction segs as [|s segs IH]; intros d; [done|]. cbn. unfold entries_of. destruct (w !! d) as [[es| | |]|]; try done. cbn.
  destruct (es !! s); [apply IH|done].
Qed.

Lemma unused_None (w : Mem) : w !! unused w = None.
Proof. unfold unused. apply (not_elem_of_dom (D := gset N)). exact (is_fresh (dom w : gset N)). Qed.

(** A new object that has no entries, under a new name. *)
Lemma edge_add (w : Mem) d es name n o : w !! d = Some (ODir es) → es !! name = None → w !! n = None → (∀ es, o = ODir es → es = ∅) →
  ∀ a s b, edge (<[d := ODir (<[name := n]> es)]> (<[n := o]> w)) a s b ↔ edge w a s b ∨ a = d ∧ s = name ∧ b = n.
Proof.
  intros Hd Hes Hn Ho a s b. rewrite !mem_edge. unfold entry_of, entries_of. destruct (decide (a = d)) as [->|Had].
  - rewrite lookup_insert_eq, Hd. cbn. destruct (decide (s = name)) as [->|Hs]; [rewrite lookup_insert_eq, Hes; naive_solver|]. rewrite lookup_insert_ne by done. naive_solver.
  - rewrite lookup_insert_ne by done. destruct (decide (a = n)) as [->|Han]; [|rewrite lookup_insert_ne by done; naive_solver].
    rewrite lookup_insert_eq, Hn. destruct o as [es'| | |]; cbn; [rewrite (Ho es' eq_refl), lookup_empty|..]; naive_solver.
Qed.

(** Data changes, entries do not. *)
Lemma edge_data (w : Mem) n data m data' m' : w !! n = Some (OFile data m) → ∀ a s b, edge (<[n := OFile data' m']> w) a s b ↔ edge w a s b.
Proof.
  intros Hn a s b. rewrite !mem_edge. unfold entry_of, entries_of. destruct (decide (a = n)) as [->|]; [rewrite lookup_insert_eq, Hn; done|by rewrite lookup_insert_ne].
Qed.

Lemma edge_remove (w : Mem) d es name a s b : w !! d = Some (ODir es) → edge (<[d := ODir (delete name es)]> w) a s b → edge w a s b.
Proof.
  intros Hd. rewrite !mem_edge. unfold entry_of, entries_of. destruct (decide (a = d)) as [->|]; [|by rewrite lookup_insert_ne].
  rewrite lookup_insert_eq, Hd. cbn. intros Hs. by apply lookup_delete_Some in Hs as [_ Hs].
Qed.

(** Nothing happened. *)
Lemma opened_there d name fl (w : Mem) n o : edge w d name n → w !! n = Some o → (∀ t, o ≠ OLink t) → (o_directory fl = true → ∃ es, o = ODir es) →
  (o_trunc fl = true → ∀ data m, o ≠ OFile data m) → opened d name fl n w w.
Proof.
  intros He Hn Hlink Hdir Htrunc. constructor; cbn; try done.
  - intros t Ht. rewrite Hn in Ht. injection Ht as ->. by eapply Hlink.
  - intros H. destruct (Hdir H) as [es ->]. by exists es.
  - by left.
  - intros a s b. split; [by left|]. by intros [|(-> & -> & ->)].
  - intros H data m. rewrite Hn. intros [= ->]. by destruct (Htrunc H data m).
Qed.

Lemma mem_opened d name fl mode (w : Mem) n w' : name ≠ "." → mem_openat d name fl mode w = (Ok n, w') → opened d name fl n w w'.
Proof.
  intros Hdot. unfold mem_openat. destruct (entries_of w d) as [es|] eqn:Hes; [|done]. apply entries_of_Some in Hes. rewrite decide_False by done.
  destruct (es !! name) as [n'|] eqn:Hname.
  - assert (edge w d name n') as He by (by exists es). destruct (w !! n') as [[es'|data m|t|]|] eqn:Hn'; [| |done| |done].
    + destruct (o_write fl); [done|]. intros [= <- <-]. eapply opened_there; eauto; done.
    + destruct (o_directory fl) eqn:Hd; [done|]. destruct (o_trunc fl) eqn:Ht; intros [= <- <-]; [|by eapply opened_there; eauto; congruence].
      assert (n' ≠ d) as Hne by (intros ->; congruence). pose proof (edge_data w n' data m [] m Hn') as Hedges. constructor; cbn; try done.
      * by apply Hedges.
      * intros t. rewrite lookup_insert_eq. done.
      * congruence.
      * by left.
      * intros a s b. rewrite Hedges. split; [by left|]. by intros [|(-> & -> & ->)].
      * intros x o Hx _ Hxn. by rewrite lookup_insert_ne.
      * intros _ data' m'. rewrite lookup_insert_eq. by intros [= <- <-].
      * congruence.
    + destruct (o_directory fl) eqn:Hd; [done|]. intros [= <- <-]. eapply opened_there; eauto; try done. congruence.
  - destruct (o_create fl && negb (o_directory fl)) eqn:Hc; [|done]. apply andb_true_iff in Hc as [Hc Hd%negb_true_iff]. intros [= <- <-].
    pose proof (unused_None w) as Hu. set (u := unused w) in *. assert (u ≠ d) as Hne by congruence.
    pose proof (edge_add w d es name u (OFile [] mode) Hes Hname Hu ltac:(done)) as Hedges. constructor; cbn; try done.
    + apply Hedges. by right.
    + intros t. rewrite lookup_insert_ne, lookup_insert_eq by done. done.
    + congruence.
    + by right.
    + intros x o Hx Hxd Hxu. by rewrite !lookup_insert_ne.
    + intros _ data m. rewrite lookup_insert_ne, lookup_insert_eq by done. by intros [= <- <-].
    + congruence.
Qed.

Lemma mem_openat_err d name fl mode (w : Mem) e w' : mem_openat d name fl mode w = (Err e, w') → w' = w.
Proof. unfold mem_openat. repeat case_match; naive_solver. Qed.

Lemma mem_openat_dot d fl mode (w : Mem) n w' : mem_openat d "." fl mode w = (Ok n, w') → n = d ∧ w' = w ∧ is_directory w d.
Proof.
  unfold mem_openat. destruct (entries_of w d) as [es|] eqn:Hes; [|done]. cbn. destruct (o_write fl); [done|]. intros [= <- <-].
  split_and!; [done..|]. exists es. by apply entries_of_Some.
Qed.

#[export] Instance mem_laws : @KernelLaws Mem mem_kernel.
Proof.
  constructor; cbn [look sys_openat sys_openat2 sys_mkdirat sys_unlinkat sys_renameat sys_fchmod sys_write_all sys_read_to_end sys_readlinkat sys_getdents mem_kernel].
  - intros d name fl mode w n w' (_ & Hdot & _) _. by apply mem_opened.
  - apply mem_openat_dot.
  - apply mem_openat_err.
  - intros root path fl mode w n w' segs Hp Hgood. unfold mem_openat2, resolved. rewrite Hp. destruct (last segs) as [name|] eqn:Hl; [|apply mem_openat_dot].
    rewrite mem_walk_spec. destruct (walk w root (removelast segs)) as [d|]; [|done]. intros Ho. exists d. split; [done|].
    assert (mem_openat d name fl mode w = (Ok n, w')) as Hopen by (by destruct (w !! d) as [[]|]). eapply mem_opened; [|done].
    assert (name ∈ segs) as Hin by by apply last_Some_elem_of. rewrite Forall_forall in Hgood. by destruct (Hgood _ Hin) as (_ & ? & _).
  - intros root path fl mode rf w e w'. unfold mem_openat2. destruct (normal_segments path) as [segs|]; [|naive_solver].
    destruct (last segs); [|apply mem_openat_err]. destruct (mem_walk _ _ _) as [d|]; [|naive_solver]. destruct (w !! d) as [[]|]; try apply mem_openat_err. naive_solver.
  - intros d name mode w w' _. unfold mem_mkdirat. destruct (entries_of w d) as [es|] eqn:Hes; [|done]. apply entries_of_Some in Hes.
    destruct (es !! name) eqn:Hname; [done|]. intros [= <-]. exists (unused w). pose proof (unused_None w) as Hu.
    split_and!; [done|by apply (edge_add w d es name _ (ODir ∅) Hes Hname Hu); intros ? [= <-]|].
    intros x o Hx Hxd. rewrite !lookup_insert_ne; [done|congruence|done].
  - intros d name mode w e w'. unfold mem_mkdirat. repeat case_match; naive_solver.
  - intros d name rmdir w w' _. unfold mem_unlinkat. destruct (entries_of w d) as [es|] eqn:Hes; [|done]. apply entries_of_Some in Hes.
    destruct (es !! name) as [n|] eqn:Hname; [|done]. intros Hok. exists n. split; [by exists es|].
    assert (w' = <[d := ODir (delete name es)]> w) as -> by (repeat case_match; naive_solver). split.
    + intros a s b. by apply edge_remove.
    + intros x o Hx Hd _. by rewrite lookup_insert_ne.
  - intros d name rmdir w e w'. unfold mem_unlinkat. repeat case_match; naive_solver.
  - intros d name d' name' w w' _ _. unfold mem_renameat. destruct (entries_of w d) as [es|] eqn:Hes; [|done]. apply entries_of_Some in Hes.
    destruct (entries_of w d'); [|done]. destruct (es !! name) as [n|] eqn:Hname; [|done]. cbn zeta. set (w1 := <[d := ODir (delete name es)]> w).
    destruct (entries_of w1 d') as [es'|] eqn:Hes'; [|done]. apply entries_of_Some in Hes'. intros [= <-]. exists n. split_and!.
    + by exists es.
    + intros a s b. rewrite mem_edge. unfold entry_of, entries_of. destruct (decide (a = d')) as [->|Ha].
      * rewrite lookup_insert_eq. cbn. destruct (decide (s = name')) as [->|Hs]; [rewrite lookup_insert_eq; naive_solver|].
        rewrite lookup_insert_ne by done. intros Hb. left. apply (edge_remove w d es name); [done|]. by exists es'.
      * rewrite lookup_insert_ne by done. intros Hb. left. apply (edge_remove w d es name); [done|]. by apply mem_edge.
    + intros x o Hx Hd Hd' _. unfold w1. by rewrite !lookup_insert_ne.
  - intros d name d' name' w e w'. unfold mem_renameat. repeat case_match; naive_solver.
  - intros n mode w r w'. destruct (w !! n) as [[|data m| |]|] eqn:Hn; intros [= <- <-]; try done. split; [|by eapply edge_data].
    intros x o Hx Hne. cbn. by rewrite lookup_insert_ne.
  - intros n b w r w'. destruct (w !! n) as [[|data m| |]|] eqn:Hn; intros [= <- <-]; try done. split; [|by eapply edge_data].
    intros x o Hx Hne. cbn. by rewrite lookup_insert_ne.
  - intros n b w w' data m. destruct (w !! n) as [[|old m'| |]|] eqn:Hn; try done. intros [= <-] Hempty. rewrite (Hempty _ _ eq_refl), drop_nil, app_nil_r.
    rewrite lookup_insert_eq. by intros [= <- <-].
  - intros n w b. destruct (w !! n) as [[|data m| |]|]; try done. intros [= <-]. by exists m.
  - intros d name w t _. destruct (entry_of w d name) as [n|] eqn:He; [|done]. destruct (w !! n) as [[| |t'|]|] eqn:Hn; try done. intros [= <-].
    exists n. split; [by apply mem_edge|done].
  - intros d w names. destruct (entries_of w d) as [es|] eqn:Hes; [|done]. apply entries_of_Some in Hes. intros [= <-]. exists es. split; [done|].
    intros x. rewrite !elem_of_cons. intros [->|[->|Hx]]; auto. right; right. apply list_elem_of_fmap in Hx as ([k v] & -> & Hx).
    apply elem_of_map_to_list in Hx. by exists v.
Qed.
