(* ===== verification/Confined.v ===== *)
(** * The workspace is confined

    For every operation of [ContainedRoot] on any kernel that keeps its promises:
    nothing outside the workspace changes or is read, whatever links the file
    system is full of.  [MemFs] is the kernel of the example. *)

From S2P Require Import Prelude Text Exec Contained KernelSpec MemFs.

#[local] Open Scope N_scope.
#[local] Open Scope daemon_scope.

Section confined.
Context `{Kernel W}.

(** ** Confinement

    From [w] to [w'] nothing outside the workspace changed, and nothing that was
    outside is inside now. *)
Definition keeps_outside (root : Node) (w w' : W) : Prop :=
  ∀ n o, look w n = Some o → ¬ beneath w root n → look w' n = Some o ∧ ¬ beneath w' root n.

#[export] Instance keeps_outside_refl root : Reflexive (keeps_outside root).
Proof. intros w n o Hn Hb. done. Qed.

#[export] Instance keeps_outside_trans root : Transitive (keeps_outside root).
Proof. intros w1 w2 w3 H12 H23 n o Hn Hb. destruct (H12 n o Hn Hb). by apply H23. Qed.

(** A change confined to objects inside, whose new entries lead inside or to
    new objects. *)
Lemma keeps_step root w w' (T : Node → Prop) :
  (∀ x, T x → beneath w root x) → (∀ x o, look w x = Some o → ¬ T x → look w' x = Some o) →
  (∀ a s b, edge w' a s b → edge w a s b ∨ beneath w root b ∨ look w b = None) → keeps_outside root w w'.
Proof.
  intros HT Hobj Hedge n o Hn Hb. split; [apply Hobj; [done|]; auto|]. intros [segs Hs].
  assert (∀ segs m, walk w' root segs = Some m → beneath w root m ∨ look w m = None) as Hwalk.
  { clear segs Hs. intros segs. induction segs as [|s segs IH] using rev_ind; intros m; [cbn; intros [= <-]; left; apply beneath_root|].
    rewrite walk_snoc. intros (a & Ha & [He|[Hm|Hm]]%Hedge); [|by auto..]. destruct (IH _ Ha) as [Hb'|Hnone].
    - left. by eapply beneath_edge.
    - destruct He as (es & He & _). congruence. }
  destruct (Hwalk _ _ Hs); [done|congruence].
Qed.

Lemma only_object_keeps root n w w' : beneath w root n → only_object n w w' → keeps_outside root w w'.
Proof. intros Hb [Ho He]. apply (keeps_step _ _ _ (λ x, x = n)); [by intros x ->|done|]. intros a s b Hab%He. by left. Qed.

Lemma opened_keeps root d name fl n w w' : beneath w root d → opened d name fl n w w' → keeps_outside root w w'.
Proof.
  intros Hd []. apply (keeps_step _ _ _ (λ x, x = d ∨ x = n ∧ edge w d name n)).
  - intros x [->|[-> He]]; [done|]. by eapply beneath_edge.
  - intros x o Hx Hn. apply opened_others; [done|naive_solver|]. intros ->. destruct opened_from as [|[_ ?]]; [naive_solver|congruence].
  - intros a s b [He|(-> & -> & ->)]%opened_edges; [by left|]. destruct opened_from as [He|[_ Hnone]]; auto.
Qed.

Lemma opened_walk root init d name fl n w w' : walk w root init = Some d → opened d name fl n w w' → walk w' root (init ++ [name]) = Some n.
Proof.
  intros Hd []. apply walk_snoc. exists d. split; [|done]. eapply walk_mono; [|exact Hd]. intros a s b He. apply opened_edges. by left.
Qed.

(** *** Runs *)

(** [m] run at [w] keeps the outside, and its value satisfies [Q]. *)
Definition safe (root : Node) (w : W) {A} (m : M W IoError A) (Q : A → W → Prop) : Prop :=
  keeps_outside root w (m w).2 ∧ ∀ a, (m w).1 = Ok a → Q a (m w).2.

Lemma safe_bind root w {A B} (m : M W IoError A) (f : A → M W IoError B) Q R :
  safe root w m Q → (∀ a w', Q a w' → safe root w' (f a) R) → safe root w (m ≫= f) R.
Proof.
  unfold safe, mbind, M_bind. destruct (m w) as [[a|e] w']; cbn; intros [Hk Hq] Hf; [|split; [done|done]].
  destruct (Hf a w' (Hq a eq_refl)) as [Hk' Hr]. split; [by etrans|done].
Qed.

Lemma safe_ret root w {A} (a : A) (Q : A → W → Prop) : Q a w → safe root w (mret a) Q.
Proof. intros HQ. split; [reflexivity|]. intros b [= <-]. done. Qed.

Lemma safe_throw root w {A} e (Q : A → W → Prop) : safe root w (throw e) Q.
Proof. split; [reflexivity|done]. Qed.

Lemma safe_result root w {A} (r : result IoError A) (Q : A → W → Prop) : (∀ a, r = Ok a → Q a w) → safe root w (from_result r) Q.
Proof. intros HQ. split; [reflexivity|done]. Qed.

Lemma safe_gets root w {A} (f : W → A) (Q : A → W → Prop) : Q (f w) w → safe root w (gets f) Q.
Proof. intros HQ. split; [reflexivity|]. intros b [= <-]. done. Qed.

Lemma safe_sys_read root w {A} (call : W → result Errno A) (Q : A → W → Prop) : (∀ a, call w = Ok a → Q a w) → safe root w (sys_read call) Q.
Proof. intros HQ. unfold safe, sys_read. destruct (call w) as [a|e]; (split; [reflexivity|]); intros b [= <-]. by apply HQ. Qed.

Lemma safe_sys root w {A} (call : W → result Errno A * W) (Q : A → W → Prop) :
  (∀ a w', call w = (Ok a, w') → keeps_outside root w w' ∧ Q a w') → (∀ e w', call w = (Err e, w') → keeps_outside root w w') → safe root w (sys call) Q.
Proof.
  intros Hok Herr. unfold safe, sys. destruct (call w) as [[a|e] w'] eqn:Hc; cbn.
  - destruct (Hok a w' eq_refl) as [Hk HQ]. split; [done|]. by intros b [= <-].
  - split; [by eapply Herr|done].
Qed.

Lemma safe_mono root w {A} (m : M W IoError A) (Q R : A → W → Prop) : safe root w m Q → (∀ a w', Q a w' → R a w') → safe root w m R.
Proof. intros [Hk HQ] HR. split; [done|]. auto. Qed.

(** ** Resolution *)

Context `{!KernelLaws}.

Definition read_only (fl : OFlags) : bool := negb (o_create fl) && negb (o_trunc fl).

(** The descriptor of the object the names lead to. *)
Record found (root : Node) (segs : list string) (fl : OFlags) (w : W) (n : Node) (w' : W) : Prop := {
  found_walk : walk w' root segs = Some n;
  found_no_link : ∀ t, look w' n ≠ Some (OLink t);
  found_dir : o_directory fl = true → is_directory w' n;
  found_trunc : o_trunc fl = true → ∀ data m, look w' n = Some (OFile data m) → data = [];
  found_same : read_only fl = true → w' = w
}.

Lemma opened_found root init d name fl n w w' : walk w root init = Some d → opened d name fl n w w' → found root (init ++ [name]) fl w n w'.
Proof.
  intros Hd Ho. pose proof (opened_walk _ _ _ _ _ _ _ _ Hd Ho). destruct Ho. constructor; try done.
  unfold read_only. rewrite andb_true_iff, !negb_true_iff. intros []. auto.
Qed.

Lemma safe_openat root w init d name fl mode : walk w root init = Some d → good_name name → o_nofollow fl = true →
  safe root w (sys (sys_openat d name fl mode)) (λ n w', found root (init ++ [name]) fl w n w').
Proof.
  intros Hd Hname Hfl. apply safe_sys.
  - intros n w' Hopen%law_openat; [|done..]. split; [eapply opened_keeps; [|done]; by exists init|by eapply opened_found].
  - by intros e w' ->%law_openat_err.
Qed.

Lemma found_flags root segs fl w n w' : found root segs (with_nofollow fl) w n w' → found root segs fl w n w'.
Proof. by intros []. Qed.

Lemma found_cloexec root segs fl w n w' : found root segs (with_cloexec fl) w n w' → found root segs fl w n w'.
Proof. by intros []. Qed.

Lemma safe_walk_from root w init cur segs fl mode : walk w root init = Some cur → Forall good_name segs → segs ≠ [] →
  safe root w (walk_from cur segs fl mode) (λ n w', found root (init ++ segs) fl w n w').
Proof.
  revert init cur. induction segs as [|s segs IH]; intros init cur Hcur Hgood Hne; [done|]. apply Forall_cons in Hgood as [Hs Hgood].
  destruct segs as [|s' segs]; cbn [walk_from].
  - eapply safe_mono; [by apply safe_openat|]. intros n w'. apply found_flags.
  - eapply safe_bind; [by apply safe_openat|]. intros next w' []. assert (w' = w) as -> by by apply found_same0.
    rewrite cons_middle, app_assoc. by apply IH.
Qed.

Lemma normal_segments_normals segs : normal_segments (Normal <$> segs) = Ok segs.
Proof. induction segs as [|s segs IH]; [done|]. cbn. by rewrite IH. Qed.

Lemma reject_escape_normals segs : reject_escape (Normal <$> segs) = Ok tt.
Proof. by induction segs. Qed.

Lemma found_root root fl w : is_directory w root → found root [] fl w root w.
Proof. intros [es Hes]. constructor; try done; [congruence|by exists es|congruence]. Qed.

Lemma safe_walk_openat root w segs fl mode : Forall good_name segs →
  safe root w (walk_openat root (Normal <$> segs) fl mode) (λ n w', found root segs fl w n w').
Proof.
  intros Hgood. unfold walk_openat. rewrite reject_escape_normals, normal_segments_normals.
  eapply safe_bind; [by apply (safe_result _ _ _ (λ _ w', w' = w))|]. intros _ w' ->. eapply safe_bind; [apply (safe_result _ _ _ (λ l w', l = segs ∧ w' = w)); by intros ? [= <-]|].
  intros l w' [-> ->]. destruct segs as [|s segs].
  - apply safe_sys; [|by intros e w' ->%law_openat_err]. intros n w' (-> & -> & Hd)%law_openat_dot. split; [done|]. by apply found_root.
  - by apply (safe_walk_from root w []).
Qed.

Lemma resolved_found root segs fl n w w' : resolved root segs fl n w w' → found root segs fl w n w' ∧ keeps_outside root w w'.
Proof.
  unfold resolved. destruct segs as [|s segs _] using rev_ind; cbn [last].
  - intros (-> & -> & Hd). split; [by apply found_root|done].
  - rewrite last_snoc, removelast_last. intros (d & Hd & Ho). split; [by eapply opened_found|]. eapply opened_keeps; [|done]. by exists segs.
Qed.

Lemma safe_resolve_open root w segs fl mode : Forall good_name segs →
  safe root w (resolve_open root (Normal <$> segs) fl mode) (λ n w', found root segs fl w n w').
Proof.
  intros Hgood. unfold resolve_open. cbn zeta. rewrite reject_escape_normals. set (path := match Normal <$> segs with [] => _ | _ => _ end).
  assert (normal_segments path = Ok segs) as Hpath by (subst path; destruct segs; [done|apply (normal_segments_normals (_ :: _))]).
  eapply safe_bind; [by apply (safe_result _ _ _ (λ _ w', w' = w))|]. intros _ w' ->. pose proof (safe_walk_openat root w segs fl mode Hgood) as Hwalk.
  unfold openat2_or_walk, safe. destruct (sys_openat2 _ _ _ _ _ w) as [[n|e] w'] eqn:Ho.
  - eapply law_openat2, resolved_found in Ho as [Hf Hk]; [|done..]. split; [done|]. intros a [= <-]. by apply found_cloexec.
  - apply law_openat2_err in Ho as ->. destruct e; try (split; [reflexivity|discriminate]); exact Hwalk.
Qed.

(** *** From requested paths *)

Context (cr : ContainedRoot) (Hroot : cr_root_abs cr ≠ []) (Hnames : names_ok (cr_root_abs cr)).

Lemma norm_segments rel p : names_ok rel → norm cr rel = Ok p → ∃ segs, p = Normal <$> segs ∧ Forall good_name segs.
Proof using Hroot Hnames.
  intros Hrel. unfold norm. destruct (contain _ rel) as [abs|] eqn:Hc; [|done]. intros [= <-].
  pose proof (contain_names_ok _ _ _ Hnames Hrel Hc) as Hok. destruct (contain_inside _ _ _ Hroot Hc) as (segs & ->).
  rewrite (proj2 (path_strip_prefix_Some _ _ _) eq_refl). exists segs. split; [done|]. apply Forall_app in Hok as [_ Hok]. by apply Forall_fmap in Hok.
Qed.

(** What is below the root already is left alone. *)
Lemma norm_normals rel p segs : norm cr rel = Ok p → norm cr (Normal <$> segs) = Ok (Normal <$> segs).
Proof using Hroot.
  unfold norm. destruct (contain _ rel) as [abs|] eqn:Hc; [|done]. intros _. rewrite contain_normals by (done || by eapply contain_plain).
  by rewrite (proj2 (path_strip_prefix_Some _ _ _) eq_refl).
Qed.

(** The names a requested path stands for, and what is there. *)
Definition found_at (rel : Path) (fl : OFlags) (w : W) (n : Node) (w' : W) : Prop :=
  ∃ segs, norm cr rel = Ok (Normal <$> segs) ∧ Forall good_name segs ∧ found (cr_root_fd cr) segs fl w n w'.

Lemma safe_open_at w rel fl mode : names_ok rel → safe (cr_root_fd cr) w (open_at cr rel fl mode) (λ n w', found_at rel fl w n w').
Proof using All.
  intros Hrel. unfold open_at. eapply safe_bind; [apply (safe_result _ _ _ (λ p w', norm cr rel = Ok p ∧ w' = w)); by intros p ->|].
  intros p w' [Hn ->]. destruct (norm_segments rel p Hrel Hn) as (segs & -> & Hgood).
  eapply safe_mono; [by apply safe_resolve_open|]. intros n w' Hf. by exists segs.
Qed.

Lemma names_ok_normals segs : Forall good_name segs → names_ok (Normal <$> segs).
Proof. intros Hgood. by apply Forall_fmap. Qed.

Lemma pop_normals init name : pop (Normal <$> (init ++ [name])) = Some (Normal <$> init).
Proof. rewrite fmap_app. by apply pop_snoc. Qed.

Lemma split_parent_normals segs d name : split_parent (Normal <$> segs) = Some (d, name) → ∃ init, segs = init ++ [name] ∧ d = Normal <$> init.
Proof.
  unfold split_parent, file_name, parent. destruct segs as [|s init _] using rev_ind; [done|]. rewrite pop_normals, fmap_app. change (Normal <$> [s]) with [Normal s]. rewrite last_snoc. cbn.
  intros [= <- <-]. by exists init.
Qed.

(** The directory of a name below the root; nothing has changed yet. *)
Definition parent_of (w : W) (dn : Node * string) (w' : W) : Prop :=
  w' = w ∧ beneath w (cr_root_fd cr) dn.1 ∧ is_directory w dn.1 ∧ good_name dn.2.

Lemma safe_open_dir w segs : Forall good_name segs →
  safe (cr_root_fd cr) w (open_at cr (Normal <$> segs) RDONLY_DIRECTORY 0) (λ d w', w' = w ∧ beneath w (cr_root_fd cr) d ∧ is_directory w d).
Proof using All.
  intros Hgood. eapply safe_mono; [apply safe_open_at; by apply names_ok_normals|]. intros d w' (segs' & _ & _ & []).
  assert (w' = w) as -> by by apply found_same0. split_and!; [done|by exists segs'|by apply found_dir0].
Qed.

Lemma safe_parent w rel : names_ok rel → safe (cr_root_fd cr) w (parent_fd_and_name cr rel) (parent_of w).
Proof using All.
  intros Hrel. unfold parent_fd_and_name. eapply safe_bind; [apply (safe_result _ _ _ (λ p w', norm cr rel = Ok p ∧ w' = w)); by intros p ->|].
  intros p w' [Hn ->]. destruct (norm_segments rel p Hrel Hn) as (segs & -> & Hgood).
  destruct (split_parent _) as [[d name]|] eqn:Hs; [|apply safe_throw]. apply split_parent_normals in Hs as (init & -> & ->).
  apply Forall_app in Hgood as [Hinit Hname]. eapply safe_bind; [by apply safe_open_dir|]. intros fd w' (-> & Hb & Hd). apply safe_ret.
  split_and!; [done..|]. apply Forall_cons in Hname as [Hname _]. exact Hname.
Qed.

(** *** Directories *)

Lemma safe_make_dir w init cur seg : walk w (cr_root_fd cr) init = Some cur → good_name seg →
  safe (cr_root_fd cr) w (make_dir cur seg) (λ _ w', walk w' (cr_root_fd cr) init = Some cur).
Proof using All.
  intros Hcur Hseg. unfold safe, make_dir. destruct (sys_mkdirat cur seg DIR_MODE w) as [[[]|e] w'] eqn:Hm.
  - apply law_mkdirat in Hm as (n & Hn & He & Ho); [|done]. cbn. split; [|intros _ _; eapply walk_mono; [|done]; intros a s b; rewrite He; auto].
    apply (keeps_step _ _ _ (λ x, x = cur)); [intros x ->; by exists init|done|]. intros a s b [|(-> & -> & ->)]%He; auto.
  - apply law_mkdirat_err in Hm as ->. destruct e; try (split; [reflexivity|discriminate]).
    destruct (sys_statat_nofollow cur seg w) as [st|]; [|split; [reflexivity|discriminate]].
    destruct (_ =? _); (split; [reflexivity|]); [discriminate|done].
Qed.

Lemma safe_create_from w init cur segs : walk w (cr_root_fd cr) init = Some cur → Forall good_name segs →
  safe (cr_root_fd cr) w (create_from cur segs) (λ _ _, True).
Proof using All.
  revert w init cur. induction segs as [|s segs IH]; intros w init cur Hcur Hgood; cbn [create_from]; [by apply safe_ret|].
  apply Forall_cons in Hgood as [Hs Hgood]. eapply safe_bind; [by eapply safe_make_dir|]. intros [] w1 H1. cbn beta in H1.
  eapply safe_bind; [by apply (safe_openat _ w1 init)|]. intros next w2 Hf. eapply IH; [by destruct Hf|done].
Qed.

Lemma safe_create_dir_all w rel : names_ok rel → safe (cr_root_fd cr) w (create_dir_all_sync cr rel) (λ _ _, True).
Proof using All.
  intros Hrel. unfold create_dir_all_sync. eapply safe_bind; [apply (safe_result _ _ _ (λ p w', norm cr rel = Ok p ∧ w' = w)); by intros p ->|].
  intros p w' [Hn ->]. destruct (norm_segments rel p Hrel Hn) as (segs & -> & Hgood). rewrite normal_segments_normals.
  eapply safe_bind; [apply (safe_result _ _ _ (λ l w', l = segs)); by intros ? [= <-]|]. intros l w' ->. by apply (safe_create_from w' []).
Qed.

Lemma safe_create_parent w rel : names_ok rel → safe (cr_root_fd cr) w (create_parent cr rel) (λ _ _, True).
Proof using All.
  intros Hrel. unfold create_parent. destruct (parent rel) as [[|c p]|] eqn:Hp; try by apply safe_ret.
  apply safe_create_dir_all. exact (pop_names_ok _ _ Hrel Hp).
Qed.

(** *** Changes of one object or one entry *)

Lemma safe_only_object w n (call : W → result Errno unit * W) : beneath w (cr_root_fd cr) n → (∀ r w', call w = (r, w') → only_object n w w') →
  safe (cr_root_fd cr) w (sys call) (λ _ w', only_object n w w').
Proof using All.
  intros Hn Hcall. apply safe_sys.
  - intros [] w' Hc. pose proof (Hcall _ _ Hc). split; [by eapply only_object_keeps|done].
  - intros e w' Hc. by eapply only_object_keeps, Hcall.
Qed.

Lemma safe_unlinkat w d name rmdir : beneath w (cr_root_fd cr) d → good_name name →
  safe (cr_root_fd cr) w (sys (sys_unlinkat d name rmdir)) (λ _ w', ∀ a s b, edge w' a s b → edge w a s b).
Proof using All.
  intros Hd Hname. apply safe_sys; [|by intros e w' ->%law_unlinkat_err]. intros [] w' (n & He & Hedges & Ho)%law_unlinkat; [|done]. split; [|done].
  apply (keeps_step _ _ _ (λ x, x = d ∨ x = n)); [|naive_solver|naive_solver]. intros x [->| ->]; [done|]. by eapply beneath_edge.
Qed.

Lemma safe_renameat w d name d' name' : beneath w (cr_root_fd cr) d → beneath w (cr_root_fd cr) d' → good_name name → good_name name' →
  safe (cr_root_fd cr) w (sys (sys_renameat d name d' name')) (λ _ _, True).
Proof using All.
  intros Hd Hd' Hn Hn'. apply safe_sys; [|by intros e w' ->%law_renameat_err]. intros [] w' (n & He & Hedges & Ho)%law_renameat; [|done..]. split; [|done].
  apply (keeps_step _ _ _ (λ x, x = d ∨ x = d' ∨ edge w d' name' x)).
  - intros x [->|[->|Hx]]; [done..|]. by eapply beneath_edge.
  - naive_solver.
  - intros a s b [Hab|(-> & -> & ->)]%Hedges; [by left|]. right; left. exact (beneath_edge _ _ _ _ _ Hd He).
Qed.

(** *** Operations *)

Lemma safe_remove_file w rel : names_ok rel →
  safe (cr_root_fd cr) w (remove_file_sync cr rel) (λ _ w', ∀ a s b, edge w' a s b → edge w a s b).
Proof using All.
  intros Hrel. eapply safe_bind; [by apply safe_parent|]. intros [d name] w' (-> & Hb & _ & Hname). by apply safe_unlinkat.
Qed.

Lemma safe_remove_dir w rel : names_ok rel →
  safe (cr_root_fd cr) w (remove_dir_sync cr rel) (λ _ w', ∀ a s b, edge w' a s b → edge w a s b).
Proof using All.
  intros Hrel. eapply safe_bind; [by apply safe_parent|]. intros [d name] w' (-> & Hb & _ & Hname). by apply safe_unlinkat.
Qed.

Lemma stat_entries_from d names (w : W) e : e ∈ stat_entries d names w → ∃ raw, raw ∈ names ∧ raw ≠ "." ∧ raw ≠ ".." ∧ de_name e = lossy raw.
Proof using All.
  induction names as [|raw names IH]; cbn; [by intros ?%elem_of_nil|]. destruct (decide (raw = "." ∨ raw = "..")) as [|Hraw]; [set_solver|].
  destruct (sys_statat_nofollow d raw w); [|set_solver]. rewrite elem_of_cons. intros [->|Hin]; [|set_solver].
  exists raw. split; [set_solver|]. naive_solver.
Qed.

(** A listing shows entries of a directory inside. *)
Definition lists (w : W) (rel : Path) (es : list DirEntryLite) : Prop :=
  ∃ segs d ents, norm cr rel = Ok (Normal <$> segs) ∧ walk w (cr_root_fd cr) segs = Some d ∧ look w d = Some (ODir ents) ∧
    ∀ e, e ∈ es → ∃ raw n, ents !! raw = Some n ∧ de_name e = lossy raw.

Lemma safe_read_dir w rel : names_ok rel → safe (cr_root_fd cr) w (read_dir_sync cr rel) (λ es w', w' = w ∧ lists w rel es).
Proof using All.
  intros Hrel. eapply safe_bind; [by apply safe_open_at|]. intros d w' (segs & Hn & _ & []). assert (w' = w) as -> by by apply found_same0.
  eapply safe_bind; [apply (safe_sys_read _ _ _ (λ names w', sys_getdents d w = Ok names ∧ w' = w)); auto|].
  intros names w' [(ents & He & Hin)%law_getdents ->]. apply safe_gets. split; [done|]. exists segs, d, ents. split_and!; [done..|].
  intros e He'. rewrite sort_by_perm in He'. apply stat_entries_from in He' as (raw & Hraw & H1 & H2 & Hname).
  destruct (Hin raw Hraw) as [|[|[n Hn']]]; [done..|]. by exists raw, n.
Qed.

Definition fewer_edges (w w' : W) : Prop := ∀ a s b, edge w' a s b → edge w a s b.

Lemma safe_remove_children remove_all w rel children : names_ok rel →
  (∀ w rel, names_ok rel → safe (cr_root_fd cr) w (remove_all rel) (λ _ w', fewer_edges w w')) →
  safe (cr_root_fd cr) w (remove_children remove_all cr rel children) (λ _ w', fewer_edges w w').
Proof using All.
  intros Hrel Hall. revert w. induction children as [|child children IH]; intros w; [apply safe_ret; by intros ???|]. cbn [remove_children].
  assert (names_ok (join rel (Path_new (de_name child)))) as Hchild by (apply names_ok_join; [done|apply Path_new_ok]).
  eapply (safe_bind _ _ _ _ (λ _ w', fewer_edges w w')).
  2:{ intros [] w2 H2. eapply safe_mono; [apply IH|]. intros [] w3 H3 a s b Hab. by apply H2, H3. }
  destruct (mt_is_symlink _); [|destruct (mt_is_dir _)]; [by apply safe_remove_file|by apply Hall|by apply safe_remove_file].
Qed.

Lemma safe_remove_dir_all fuel w rel : names_ok rel → safe (cr_root_fd cr) w (remove_dir_all_sync fuel cr rel) (λ _ w', fewer_edges w w').
Proof using All.
  revert w rel. induction fuel as [|fuel IH]; intros w rel Hrel; cbn [remove_dir_all_sync]; [apply safe_throw|].
  eapply safe_bind; [by apply safe_read_dir|]. intros children w' [-> _]. eapply safe_bind; [by apply safe_remove_children|].
  intros [] w2 H2. eapply safe_mono; [by apply safe_remove_dir|]. intros [] w3 H3 a s b Hab. by apply H2, H3.
Qed.

(** *** Removal ends

    The recursion is as deep as the tree: with directories at most [k] names
    below the root and names that read back as they are, [k + 2] levels do. *)

Definition fueled {A} (m : M W IoError A) : Prop := ∀ w, (m w).1 ≠ Err OutOfFuel.

Lemma fueled_bind {A B} (m : M W IoError A) (f : A → M W IoError B) : fueled m → (∀ a, fueled (f a)) → fueled (m ≫= f).
Proof. intros Hm Hf w. unfold mbind, M_bind. specialize (Hm w). destruct (m w) as [[a|e] w']; [apply Hf|]. cbn in *. intros [= ->]. done. Qed.

Lemma fueled_sys {A} (call : W → result Errno A * W) : fueled (sys call).
Proof. intros w. unfold sys. by destruct (call w) as [[a|[]] w']. Qed.

Lemma fueled_sys_read {A} (call : W → result Errno A) : fueled (sys_read call).
Proof. intros w. unfold sys_read. by destruct (call w) as [a|[]]. Qed.

Lemma fueled_norm rel : fueled (from_result (norm cr rel)).
Proof.
  intros w. unfold from_result, norm, contain. destruct (normalize _ _); [|done]. by destruct (path_starts_with _ _).
Qed.

Lemma fueled_walk_from cur segs fl mode : fueled (walk_from cur segs fl mode).
Proof.
  revert cur. induction segs as [|s segs IH]; intros cur; [done|]. destruct segs; [apply fueled_sys|]. apply fueled_bind; [apply fueled_sys|apply IH].
Qed.

Lemma reject_escape_error rel : reject_escape rel ≠ Err OutOfFuel.
Proof. by induction rel as [|[] rel IH]. Qed.

Lemma normal_segments_error rel : normal_segments rel ≠ Err OutOfFuel.
Proof. induction rel as [|[] rel IH]; try done. cbn. by destruct (normal_segments rel) as [|[]]. Qed.

Lemma fueled_resolve root rel fl mode : fueled (resolve_open root rel fl mode).
Proof.
  assert (fueled (walk_openat root rel fl mode)) as Hwalk.
  { apply fueled_bind; [intros w; apply reject_escape_error|]. intros _. apply fueled_bind; [intros w; apply normal_segments_error|].
    intros [|s segs]; [apply fueled_sys|apply fueled_walk_from]. }
  apply fueled_bind; [intros w; apply reject_escape_error|]. intros _ w. unfold openat2_or_walk.
  destruct (sys_openat2 _ _ _ _ _ w) as [[n|[]] w']; try done; apply Hwalk.
Qed.

Lemma fueled_open_at rel fl mode : fueled (open_at cr rel fl mode).
Proof. apply fueled_bind; [apply fueled_norm|]. intros p. apply fueled_resolve. Qed.

Lemma fueled_parent rel : fueled (parent_fd_and_name cr rel).
Proof.
  apply fueled_bind; [apply fueled_norm|]. intros p. destruct (split_parent p) as [[d name]|]; [|done].
  apply fueled_bind; [apply fueled_open_at|done].
Qed.

Lemma fueled_unlink rel rmdir : fueled ('(parent_fd, name) ← parent_fd_and_name cr rel; sys (sys_unlinkat parent_fd name rmdir)).
Proof. apply fueled_bind; [apply fueled_parent|]. intros [d name]. apply fueled_sys. Qed.

Lemma fueled_read_dir rel : fueled (read_dir_sync cr rel).
Proof. apply fueled_bind; [apply fueled_open_at|]. intros d. apply fueled_bind; [apply fueled_sys_read|done]. Qed.

Lemma normalize_snoc acc cs s : normalize acc (cs ++ [Normal s]) = (λ p, p ++ [Normal s]) <$> normalize acc cs.
Proof.
  revert acc. induction cs as [|c cs IH]; intros acc; [done|]. destruct c; cbn; try apply IH. by destruct (pop acc).
Qed.

Lemma Path_new_name s : good_name s → Path_new s = [Normal s].
Proof.
  intros (H1 & H2 & H3 & Hs). unfold Path_new. rewrite Hs. cbn. rewrite decide_False by naive_solver. rewrite decide_False by done.
  unfold segment_component. rewrite decide_False by naive_solver. by rewrite decide_False.
Qed.

Lemma norm_child rel segs s : norm cr rel = Ok (Normal <$> segs) → good_name s → norm cr (join rel (Path_new s)) = Ok (Normal <$> (segs ++ [s])).
Proof using All.
  intros Hn Hs. rewrite Path_new_name by done. assert (join rel [Normal s] = rel ++ [Normal s]) as -> by by destruct rel.
  unfold norm, contain in *. replace (is_absolute (rel ++ [Normal s])) with (is_absolute rel) by by destruct rel as [|[]].
  assert (join (cr_root_abs cr) (rel ++ [Normal s]) = join (cr_root_abs cr) rel ++ [Normal s]) as Hj.
  { unfold join. destruct (cr_root_abs cr); [done|]. destruct rel as [|[] rel]; try done; cbn; by rewrite <- ?app_assoc. }
  set (joined := if is_absolute rel then rel else join (cr_root_abs cr) rel) in *.
  replace (if is_absolute rel then _ else _) with (joined ++ [Normal s]) by (subst joined; by destruct (is_absolute rel)).
  rewrite normalize_snoc. destruct (normalize [] joined) as [p|]; [|done]. cbn. unfold path_starts_with in *.
  destruct (path_strip_prefix (cr_root_abs cr) p) as [q|] eqn:Hq; [|done]. injection Hn as Hn. rewrite Hq in Hn. cbn in Hn. subst q.
  apply path_strip_prefix_Some in Hq as ->. rewrite <- app_assoc, (proj2 (path_strip_prefix_Some _ _ _) eq_refl).
  rewrite (proj2 (path_strip_prefix_Some _ _ _) eq_refl). by rewrite fmap_app.
Qed.

(** Nothing is more than [k] names below the root; names the listing shows as
    they are. *)
Definition shallow (k : nat) (w : W) : Prop := ∀ segs n, walk w (cr_root_fd cr) segs = Some n → (length segs ≤ k)%nat.
Definition readable_names (w : W) : Prop := ∀ d s n, edge w d s n → good_name s ∧ lossy s = s.

Lemma ends_bind w {A B} (m : M W IoError A) (f : A → M W IoError B) Q : safe (cr_root_fd cr) w m Q → (m w).1 ≠ Err OutOfFuel →
  (∀ a w', Q a w' → (f a w').1 ≠ Err OutOfFuel) → ((m ≫= f) w).1 ≠ Err OutOfFuel.
Proof.
  unfold safe, mbind, M_bind. destruct (m w) as [[a|e] w']; intros [_ HQ] Hm Hf; [by apply Hf, HQ|]. cbn in *. intros [= ->]. done.
Qed.

Lemma remove_children_ends remove_all w rel children k : names_ok rel → shallow k w → readable_names w →
  (∀ w rel, names_ok rel → safe (cr_root_fd cr) w (remove_all rel) (λ _ w', fewer_edges w w')) →
  (∀ child w, child ∈ children → shallow k w → readable_names w → (remove_all (join rel (Path_new (de_name child))) w).1 ≠ Err OutOfFuel) →
  (remove_children remove_all cr rel children w).1 ≠ Err OutOfFuel.
Proof using All.
  intros Hrel Hk Hr Hsafe. revert w Hk Hr. induction children as [|child children IH]; intros w Hk Hr Hall; [done|]. cbn [remove_children].
  assert (names_ok (join rel (Path_new (de_name child)))) as Hchild by (apply names_ok_join; [done|apply Path_new_ok]).
  eapply (ends_bind _ _ _ (λ _ w', fewer_edges w w')).
  - destruct (mt_is_symlink _); [|destruct (mt_is_dir _)]; [by apply safe_remove_file|by apply Hsafe|by apply safe_remove_file].
  - destruct (mt_is_symlink _); [|destruct (mt_is_dir _)]; [apply fueled_unlink|apply Hall; [by left|done..]|apply fueled_unlink].
  - intros [] w2 H2. apply IH.
    + intros segs n Hs. eapply Hk, walk_mono; [|done]. exact H2.
    + intros d s n Hs. by eapply Hr, H2.
    + intros c w3 Hc. apply Hall. by right.
Qed.

(** It ends, whatever it finds. *)
Lemma remove_dir_all_ends fuel w rel segs k : names_ok rel → norm cr rel = Ok (Normal <$> segs) → shallow k w → readable_names w →
  (0 < fuel)%nat → (k < fuel + length segs)%nat → (remove_dir_all_sync fuel cr rel w).1 ≠ Err OutOfFuel.
Proof using All.
  revert w rel segs. induction fuel as [|fuel IH]; intros w rel segs Hrel Hn Hk Hr Hpos Hf; [lia|]. cbn [remove_dir_all_sync].
  eapply ends_bind; [by apply safe_read_dir|apply fueled_read_dir|]. intros children w' [-> (segs' & d & ents & Hn' & Hwalk & Hd & Hents)].
  rewrite Hn in Hn'. injection Hn' as Heq. apply (inj (fmap Normal)) in Heq as <-.
  eapply ends_bind; [apply safe_remove_children; [done|intros; by apply safe_remove_dir_all]| |intros; apply fueled_unlink].
  apply remove_children_ends with k; [done..|intros; by apply safe_remove_dir_all|]. intros child w2 (raw & n & Hraw & ->)%Hents Hk2 Hr2.
  assert (edge w d raw n) as He by by exists ents. destruct (Hr _ _ _ He) as [Hgood ->].
  assert (length (segs ++ [raw]) ≤ k)%nat as Hlen by (eapply Hk, walk_snoc; eauto). rewrite length_app in Hlen. cbn in Hlen.
  apply IH with (segs ++ [raw]); [apply names_ok_join; [done|apply Path_new_ok]|by apply norm_child|done..|lia|rewrite length_app; cbn; lia].
Qed.
(** What is read: the data of a file at the names the path stands for. *)
Definition reads (w : W) (rel : Path) (data : bytes) : Prop :=
  ∃ segs n m, norm cr rel = Ok (Normal <$> segs) ∧ walk w (cr_root_fd cr) segs = Some n ∧ look w n = Some (OFile data m).

Lemma safe_open_read w rel : names_ok rel →
  safe (cr_root_fd cr) w (open_at cr rel RDONLY 0) (λ n w', w' = w ∧ beneath w (cr_root_fd cr) n ∧ ∀ data, sys_read_to_end n w = Ok data → reads w rel data).
Proof using All.
  intros Hrel. eapply safe_mono; [by apply safe_open_at|]. intros n w' (segs & Hn & _ & []). assert (w' = w) as -> by by apply found_same0.
  split_and!; [done|by exists segs|]. intros data [m Hm]%law_read. by exists segs, n, m.
Qed.

Lemma safe_read w rel : names_ok rel → safe (cr_root_fd cr) w (read_sync cr rel) (λ data w', w' = w ∧ reads w rel data).
Proof using All.
  intros Hrel. eapply safe_bind; [by apply safe_open_read|]. intros n w' (-> & _ & Hdata). apply safe_sys_read. auto.
Qed.

Lemma safe_read_capped w rel cap : names_ok rel →
  safe (cr_root_fd cr) w (read_capped_sync cr rel cap) (λ r w', ∃ data, r.1.1 `prefix_of` data ∧ reads w rel data).
Proof using All.
  intros Hrel. eapply safe_bind; [by apply safe_open_read|]. intros n w' (-> & _ & Hdata).
  eapply safe_bind; [by apply (safe_sys_read _ _ _ (λ _ w', w' = w))|]. intros st w' ->.
  eapply safe_bind; [apply (safe_sys_read _ _ _ (λ full w', reads w rel full)); auto|]. intros full w' Hfull. apply safe_ret. exists full. split; [|done].
  cbn. destruct (_ <? _); [|done]. exists (drop (N.to_nat cap) full). by rewrite take_drop.
Qed.

(** A file opened to be written is empty, and where the path says. *)
Lemma safe_open_write w rel : names_ok rel → safe (cr_root_fd cr) w (open_write_file cr rel)
  (λ n w', ∃ segs, norm cr rel = Ok (Normal <$> segs) ∧ walk w' (cr_root_fd cr) segs = Some n ∧ ∀ data m, look w' n = Some (OFile data m) → data = []).
Proof using All.
  intros Hrel. eapply safe_bind; [by apply safe_create_parent|]. intros [] w1 _. eapply safe_mono; [by apply safe_open_at|].
  intros n w' (segs & Hn & _ & []). exists segs. split_and!; [done..|]. by apply found_trunc0.
Qed.

(** After a write the file at the path, when it is a regular one, holds the bytes. *)
Definition written (w : W) (rel : Path) (b : bytes) : Prop :=
  ∃ segs n, norm cr rel = Ok (Normal <$> segs) ∧ walk w (cr_root_fd cr) segs = Some n ∧ ∀ data m, look w n = Some (OFile data m) → data = b.

Lemma safe_write_all w n segs rel b : norm cr rel = Ok (Normal <$> segs) → walk w (cr_root_fd cr) segs = Some n →
  (∀ data m, look w n = Some (OFile data m) → data = []) → safe (cr_root_fd cr) w (sys (sys_write_all n b)) (λ _ w', written w' rel b).
Proof using All.
  intros Hn Hw Hempty. apply safe_sys.
  - intros [] w' Hc. pose proof (law_write_all _ _ _ _ _ Hc) as Ho. split; [eapply only_object_keeps; [by exists segs|done]|].
    exists segs, n. split_and!; [done|eapply walk_mono; [|done]; intros a s e; by apply (proj2 Ho)|]. intros data m. by eapply law_written.
  - intros e w' Hc%law_write_all. eapply only_object_keeps; [by exists segs|done].
Qed.

Lemma safe_write w rel b : names_ok rel → safe (cr_root_fd cr) w (write_sync cr rel b) (λ _ w', written w' rel b).
Proof using All.
  intros Hrel. eapply safe_bind; [by apply safe_open_write|]. intros n w' (segs & Hn & Hw & Hempty). by eapply safe_write_all.
Qed.

Lemma safe_write_meta w rel b : names_ok rel → safe (cr_root_fd cr) w (write_meta_sync cr rel b) (λ _ w', written w' rel b).
Proof using All.
  intros Hrel. eapply safe_bind; [by apply safe_create_parent|]. intros [] w1 _. eapply safe_bind; [by apply safe_open_at|].
  intros n w2 (segs & Hn & _ & []). eapply safe_bind; [eapply safe_write_all; [done..|by apply found_trunc0]|]. intros [] w3 Hw. cbn beta in Hw.
  eapply safe_bind; [by apply (safe_sys_read _ _ _ (λ _ w', w' = w3))|]. intros st w' ->. by apply safe_ret.
Qed.

Lemma safe_symlink_metadata w rel : names_ok rel → safe (cr_root_fd cr) w (symlink_metadata_sync cr rel) (λ _ _, True).
Proof using All.
  intros Hrel. unfold symlink_metadata_sync. eapply safe_bind; [apply (safe_result _ _ _ (λ p w', norm cr rel = Ok p ∧ w' = w)); by intros p ->|].
  intros p w' [Hn ->]. destruct (norm_segments rel p Hrel Hn) as (segs & -> & Hgood). destruct (split_parent _) as [[d name]|] eqn:Hs.
  - apply split_parent_normals in Hs as (init & -> & ->). apply Forall_app in Hgood as [Hinit _].
    eapply safe_bind; [by apply safe_open_dir|]. intros fd w' _. eapply safe_bind; [by apply (safe_sys_read _ _ _ (λ _ _, True))|]. intros. by apply safe_ret.
  - eapply safe_bind; [by apply (safe_sys_read _ _ _ (λ _ _, True))|]. intros. by apply safe_ret.
Qed.

Lemma safe_rename w from to : names_ok from → names_ok to → safe (cr_root_fd cr) w (rename_sync cr from to) (λ _ _, True).
Proof using All.
  intros Hf Ht. eapply safe_bind; [by apply safe_parent|]. intros [d name] w' (-> & Hb & _ & Hname).
  eapply safe_bind; [by apply safe_parent|]. intros [d' name'] w' (-> & Hb' & _ & Hname'). by apply safe_renameat.
Qed.

Lemma safe_read_link w rel : names_ok rel → safe (cr_root_fd cr) w (read_link_sync cr rel) (λ t _, ∃ n, beneath w (cr_root_fd cr) n ∧ look w n = Some (OLink t)).
Proof using All.
  intros Hrel. eapply safe_bind; [by apply safe_parent|]. intros [d name] w' (-> & Hb & _ & Hname). apply safe_sys_read.
  intros t (n & He & Hl)%law_readlink; [|done]. exists n. split; [by eapply beneath_edge|done].
Qed.

Lemma safe_set_mode w rel mode : names_ok rel → safe (cr_root_fd cr) w (set_mode_sync cr rel mode) (λ _ _, True).
Proof using All.
  intros Hrel. eapply safe_bind; [by apply safe_open_read|]. intros n w' (-> & Hb & _). eapply safe_mono; [|done].
  apply (safe_only_object _ n); [done|]. intros r w'. apply law_fchmod.
Qed.

(** A directory inside: below the root by names alone. *)
Definition inside_dir (w : W) (n : Node) : Prop := beneath w (cr_root_fd cr) n ∧ is_directory w n.

Lemma safe_verify_dir w rel : names_ok rel →
  safe (cr_root_fd cr) w (verify_dir_sync cr rel) (λ p _, ∃ segs n, p = cr_root_abs cr ++ (Normal <$> segs) ∧ walk w (cr_root_fd cr) segs = Some n ∧ is_directory w n).
Proof using All.
  intros Hrel. eapply safe_bind; [by apply safe_open_at|]. intros n w' (segs & Hn & _ & []). assert (w' = w) as -> by by apply found_same0.
  apply safe_result. intros p Hp. destruct (contain_inside _ _ _ Hroot Hp) as (segs' & ->). exists segs', n. split_and!; [done| |by apply found_dir0].
  unfold norm in Hn. rewrite Hp, (proj2 (path_strip_prefix_Some _ _ _) eq_refl) in Hn. cbn in Hn. injection Hn as Heq.
  by apply (inj (fmap Normal)) in Heq as ->.
Qed.

Lemma safe_child_cwd w rel : names_ok rel → safe (cr_root_fd cr) w (child_cwd_sync cr rel) (λ c w', inside_dir w' (cc_keepalive c)).
Proof using All.
  intros Hrel. eapply safe_bind; [by apply safe_create_dir_all|]. intros [] w1 _. eapply safe_bind; [by apply safe_open_at|].
  intros n w' (segs & _ & _ & []). apply safe_gets. split; [by exists segs|by apply found_dir0].
Qed.
End confined.

(** ** The theorem *)

(** The operations, on paths as they are given. *)
Inductive FsOp :=
| FsRead (rel : string)
| FsReadCapped (rel : string) (cap : N)
| FsWrite (rel : string) (b : bytes)
| FsWriteSync (rel : string) (b : bytes)
| FsReadDir (rel : string)
| FsSymlinkMetadata (rel : string)
| FsCreateDirAll (rel : string)
| FsRemoveFile (rel : string)
| FsRemoveDir (rel : string)
| FsRemoveDirAll (fuel : nat) (rel : string)
| FsRename (from to : string)
| FsReadLink (rel : string)
| FsSetMode (rel : string) (mode : N)
| FsVerifyDir (rel : string)
| FsChildCwd (rel : string).

Inductive FsReply :=
| FsBytes (rel : string) (b : bytes)
| FsPart (rel : string) (b : bytes) (meta : Meta) (truncated : bool)
| FsWritten (rel : string) (b : bytes)
| FsEntries (rel : string) (es : list DirEntryLite)
| FsMeta (meta : Meta)
| FsDone
| FsTarget (target : string)
| FsPath (p : Path)
| FsCwd (c : ChildCwd).

Section confinement.
Context `{Kernel W}.

Definition run_fs_op (cr : ContainedRoot) (op : FsOp) : M W IoError FsReply :=
  match op with
  | FsRead rel => b ← read_sync cr (Path_new rel); mret (FsBytes rel b)
  | FsReadCapped rel cap => '(b, meta, t) ← read_capped_sync cr (Path_new rel) cap; mret (FsPart rel b meta t)
  | FsWrite rel b => _ ← write_meta_sync cr (Path_new rel) b; mret (FsWritten rel b)
  | FsWriteSync rel b => _ ← write_sync cr (Path_new rel) b; mret (FsWritten rel b)
  | FsReadDir rel => es ← read_dir_sync cr (Path_new rel); mret (FsEntries rel es)
  | FsSymlinkMetadata rel => meta ← symlink_metadata_sync cr (Path_new rel); mret (FsMeta meta)
  | FsCreateDirAll rel => _ ← create_dir_all_sync cr (Path_new rel); mret FsDone
  | FsRemoveFile rel => _ ← remove_file_sync cr (Path_new rel); mret FsDone
  | FsRemoveDir rel => _ ← remove_dir_sync cr (Path_new rel); mret FsDone
  | FsRemoveDirAll fuel rel => _ ← remove_dir_all_sync fuel cr (Path_new rel); mret FsDone
  | FsRename from to => _ ← rename_sync cr (Path_new from) (Path_new to); mret FsDone
  | FsReadLink rel => t ← read_link_sync cr (Path_new rel); mret (FsTarget t)
  | FsSetMode rel mode => _ ← set_mode_sync cr (Path_new rel) mode; mret FsDone
  | FsVerifyDir rel => p ← verify_dir_sync cr (Path_new rel); mret (FsPath p)
  | FsChildCwd rel => c ← child_cwd_sync cr (Path_new rel); mret (FsCwd c)
  end.

(** What a reply shows, of the state before ([w]) or after ([w']). *)
Definition reply_inside (cr : ContainedRoot) (w w' : W) (reply : FsReply) : Prop :=
  match reply with
  | FsBytes rel b => reads cr w (Path_new rel) b
  | FsPart rel b _ _ => ∃ data, b `prefix_of` data ∧ reads cr w (Path_new rel) data
  | FsWritten rel b => written cr w' (Path_new rel) b
  | FsEntries rel es => lists cr w (Path_new rel) es
  | FsTarget t => ∃ n, beneath w (cr_root_fd cr) n ∧ look w n = Some (OLink t)
  | FsPath p => ∃ segs n, p = cr_root_abs cr ++ (Normal <$> segs) ∧ walk w (cr_root_fd cr) segs = Some n ∧ is_directory w n
  | FsCwd c => inside_dir cr w' (cc_keepalive c)
  | FsMeta _ | FsDone => True
  end.

Context `{!KernelLaws}.

Lemma safe_then cr w {A} (m : M W IoError A) (f : A → FsReply) (Q : A → W → Prop) : safe (cr_root_fd cr) w m Q →
  (∀ a w', Q a w' → reply_inside cr w w' (f a)) → safe (cr_root_fd cr) w (a ← m; mret (f a)) (λ r w', reply_inside cr w w' r).
Proof. intros Hm Hf. eapply safe_bind; [done|]. intros a w' HQ. apply safe_ret. auto. Qed.

Lemma safe_fs_op root_fd root op w : Path_new root ≠ [] →
  safe root_fd w (run_fs_op (mkContainedRoot root_fd (Path_new root)) op) (λ r w', reply_inside (mkContainedRoot root_fd (Path_new root)) w w' r).
Proof.
  intros Hroot. set (cr := mkContainedRoot root_fd (Path_new root)). assert (names_ok (cr_root_abs cr)) as Hnames by apply Path_new_ok.
  change root_fd with (cr_root_fd cr). destruct op; cbn [run_fs_op].
  - eapply safe_then; [apply safe_read; auto using Path_new_ok|naive_solver].
  - eapply safe_bind; [apply safe_read_capped; auto using Path_new_ok|]. intros [[b meta] t] w' Hr. by apply safe_ret.
  - eapply safe_then; [apply safe_write_meta; auto using Path_new_ok|done].
  - eapply safe_then; [apply safe_write; auto using Path_new_ok|done].
  - eapply safe_then; [apply safe_read_dir; auto using Path_new_ok|naive_solver].
  - eapply safe_then; [apply safe_symlink_metadata; auto using Path_new_ok|done].
  - eapply safe_then; [apply safe_create_dir_all; auto using Path_new_ok|done].
  - eapply safe_then; [apply safe_remove_file; auto using Path_new_ok|done].
  - eapply safe_then; [apply safe_remove_dir; auto using Path_new_ok|done].
  - eapply safe_then; [apply safe_remove_dir_all; auto using Path_new_ok|done].
  - eapply safe_then; [apply safe_rename; auto using Path_new_ok|done].
  - eapply safe_then; [apply safe_read_link; auto using Path_new_ok|done].
  - eapply safe_then; [apply safe_set_mode; auto using Path_new_ok|done].
  - eapply safe_then; [apply safe_verify_dir; auto using Path_new_ok|done].
  - eapply safe_then; [apply safe_child_cwd; auto using Path_new_ok|done].
Qed.

(** C29. A tool cannot leave its workspace.  Whatever path is given to whatever
    operation, and whatever links the file system holds, by [openat2] or by the
    walk that replaces it: an object that was not reachable from the root by
    directory entries is unchanged afterwards and still not reachable; what is
    read is a file, a directory or a link inside, a file being the one the
    normalized path names; what was written is there under that path; and the
    working directory handed to a child process is a directory inside. *)
Theorem workspace_confined root_fd root op w r w' : Path_new root ≠ [] →
  run_fs_op (mkContainedRoot root_fd (Path_new root)) op w = (r, w') →
  keeps_outside root_fd w w' ∧ ∀ reply, r = Ok reply → reply_inside (mkContainedRoot root_fd (Path_new root)) w w' reply.
Proof. intros Hroot Hrun. pose proof (safe_fs_op root_fd root op w Hroot) as Hs. unfold safe in Hs. rewrite Hrun in Hs. exact Hs. Qed.

(** A read of what was just written returns it. *)
Lemma write_then_read cr rel b w w1 b' w2 : cr_root_abs cr ≠ [] → names_ok (cr_root_abs cr) → names_ok rel →
  write_sync cr rel b w = (Ok tt, w1) → read_sync cr rel w1 = (Ok b', w2) → b' = b.
Proof.
  intros Hr Hn Hrel Hw Hread. destruct (safe_write cr Hr Hn w rel b Hrel) as [_ H1]. rewrite Hw in H1.
  destruct (safe_read cr Hr Hn w1 rel Hrel) as [_ H2]. rewrite Hread in H2.
  destruct (H1 tt eq_refl) as (segs & n & Hs & Hwalk & Hdata). destruct (H2 b' eq_refl) as [_ (segs' & n' & m & Hs' & Hwalk' & Hl)].
  rewrite Hs in Hs'. injection Hs' as Heq. apply (inj (fmap Normal)) in Heq as <-.
  cbn in *. rewrite Hwalk in Hwalk'. injection Hwalk' as <-. by eapply Hdata.
Qed.
End confinement.

(** A workspace with a directory and a link out of it, and a secret outside. *)
Definition demo_fs : Mem :=
  <[1 := ODir {["docs" := 2; "out" := 4]}]> (<[2 := ODir {["note" := 3]}]> (<[3 := OFile (string_bytes "hello") 420]>
  (<[4 := OLink "/etc"]> (<[10 := ODir {["passwd" := 11]}]> (<[11 := OFile (string_bytes "secret") 384]> ∅))))).
Definition demo_root : ContainedRoot := mkContainedRoot 1 (Path_new "/ws").

Lemma workspace_confined_witness :
  let '(r, w') := run_fs_op demo_root (FsWrite "a/../new//./file" (string_bytes "text")) demo_fs in
  (∃ reply, r = Ok reply) ∧ keeps_outside 1 demo_fs w' ∧ ∀ reply, r = Ok reply → reply_inside demo_root demo_fs w' reply.
Proof.
  destruct (run_fs_op demo_root _ demo_fs) as [r w'] eqn:Hrun. split.
  - exists (FsWritten "a/../new//./file" (string_bytes "text")). revert Hrun. vm_compute. by intros [= <- _].
  - apply (workspace_confined 1 "/ws" (FsWrite "a/../new//./file" (string_bytes "text"))); [discriminate|exact Hrun].
Defined.

(** The link out of the workspace is refused, whether it is the last name or
    one on the way, as are [..] and a path elsewhere. *)
Example links_refused :
  (run_fs_op demo_root (FsRead "out/passwd") demo_fs).1 = Err escape ∧ (run_fs_op demo_root (FsWrite "out/new" []) demo_fs).1 = Err escape ∧
  (run_fs_op demo_root (FsReadDir "out") demo_fs).1 = Err escape ∧ (run_fs_op demo_root (FsRead "../etc/passwd") demo_fs).1 = Err escape ∧
  (run_fs_op demo_root (FsRead "/etc/passwd") demo_fs).1 = Err escape ∧ (run_fs_op demo_root (FsChildCwd "out") demo_fs).1 = Err escape ∧
  (run_fs_op demo_root (FsRead "/ws/docs/../docs/note") demo_fs).1 = Ok (FsBytes "/ws/docs/../docs/note" (string_bytes "hello")).
Proof. split_and!; vm_compute; reflexivity. Qed.
