(* ===== verification/LocalEnv.v ===== *)
(** * The local execution environment

    [LocalEnvironment] ([crates/engine/daemon-core/src/exec/local.rs]): files of
    the workspace through [ContainedRoot], commands in a directory of it, under
    the environment policy of [crates/contracts/daemon-common/src/env_policy.rs].
    Starting a process and waiting for it is one call of the class [Spawner];
    [None] is a run that was cancelled first.  The pipes are read after the exit,
    so a child that fills one waits until it is cancelled: to this model that is
    such a run. *)

From S2P Require Import Prelude Text Exec Contained KernelSpec Confined.

#[local] Open Scope N_scope.
#[local] Open Scope daemon_scope.

(** ** Environment policies *)

Inductive EnvPolicy := InheritFull | Clean (allowlist : list string).

Abbreviation Env := (gmap string string).

(** [parent] is the daemon's own environment. *)
Definition EnvPolicy_apply (policy : EnvPolicy) (parent : Env) (extra : list (string * string)) : Env :=
  let base := match policy with
              | InheritFull => parent
              | Clean allowlist =>
                  foldl (λ cmd name, match parent !! name with Some value => <[name := value]> cmd | None => cmd end) ∅ allowlist
              end in
  foldl (λ cmd kv, <[kv.1 := kv.2]> cmd) base extra.

(** Nothing passes but what is listed. *)
Lemma clean_lookup allowlist parent name : EnvPolicy_apply (Clean allowlist) parent [] !! name = if decide (name ∈ allowlist) then parent !! name else None.
Proof.
  cbn. induction allowlist as [|x allowlist IH] using rev_ind; [done|]. rewrite foldl_app. cbn. destruct (decide (x = name)) as [->|Hx].
  - rewrite (decide_True (P := name ∈ allowlist ++ [name])) by set_solver. destruct (parent !! name) eqn:Hp; [by rewrite lookup_insert_eq|].
    rewrite IH. by destruct (decide _).
  - assert (name ∈ allowlist ++ [x] ↔ name ∈ allowlist) as Hin by set_solver.
    rewrite (decide_ext _ _ _ _ Hin), <- IH. destruct (parent !! x); [by rewrite lookup_insert_ne|done].
Qed.

(** ** Commands *)

Record Command := mkCommand { cmd_program : string; cmd_args : list string; cmd_cwd : option Path }.

Record ExecResult := mkExecResult { er_exit_code : Z; er_stdout : bytes; er_stderr : bytes }.
Definition ExecResult_ok (r : ExecResult) : bool := (er_exit_code r =? 0)%Z.

(** The root by its path, or a descriptor kept open across the start. *)
Inductive SpawnDir := AtPath (p : Path) | AtFd (fd : Node).

(** Exit code (none after a signal), output and error output. *)
Class Spawner (W : Type) := sys_spawn :
  string → list string → SpawnDir → Env → W → result Errno (option (option Z * bytes * bytes)) * W.

Record LocalEnvironment := mkLocalEnvironment { le_root : Path; le_trusted : bool }.
Definition LocalEnvironment_new (root : Path) : LocalEnvironment := mkLocalEnvironment root true.

Section local.
Context `{Kernel W} `{Spawner W} (parent : Env).

Abbreviation Io := (M W IoError).

Definition run_result (out : option (option Z * bytes * bytes)) : ExecResult :=
  match out with
  | None => mkExecResult (-1) [] (string_bytes "cancelled")
  | Some (code, stdout, stderr) => mkExecResult (default (-1)%Z code) (from_utf8_lossy stdout) (from_utf8_lossy stderr)
  end.

Definition spawn_in (cmd : Command) (dir : SpawnDir) : Io ExecResult :=
  out ← sys (sys_spawn (cmd_program cmd) (cmd_args cmd) dir (EnvPolicy_apply (Clean ["PATH"]) parent []));
  mret (run_result out).

Definition local_run (le : LocalEnvironment) (cmd : Command) : Io ExecResult :=
  _ ← sys (sys_create_dir_all (le_root le));
  match cmd_cwd cmd with
  | Some requested =>
      cr ← ContainedRoot_open (le_root le);
      guard ← child_cwd_sync cr requested;
      spawn_in cmd (AtFd (cc_keepalive guard))
  | None => spawn_in cmd (AtPath (le_root le))
  end.

Definition local_read (le : LocalEnvironment) (path : Path) : Io bytes :=
  cr ← ContainedRoot_open (le_root le); read_sync cr path.

Definition local_write (le : LocalEnvironment) (path : Path) (b : bytes) : Io unit :=
  cr ← ContainedRoot_open (le_root le); _ ← write_meta_sync cr path b; mret tt.

Definition local_list (le : LocalEnvironment) (path : Path) : Io (list string) :=
  cr ← ContainedRoot_open (le_root le); entries ← read_dir_sync cr path; mret (de_name <$> entries).

(** A command with a working directory is started, if at all, in a directory
    inside the root the kernel opened, with [PATH] as its only variable. *)
Lemma run_in_workspace `{!KernelLaws} le cmd requested w r w' : le_root le ≠ [] → names_ok (le_root le) → names_ok requested →
  cmd_cwd cmd = Some requested → local_run le cmd w = (r, w') →
  (∃ e, r = Err e) ∨
  ∃ cr n w1, cr_root_abs cr = le_root le ∧ inside_dir cr w1 n ∧ spawn_in cmd (AtFd n) w1 = (r, w').
Proof.
  intros Hroot Hnames Hreq Hcwd. unfold local_run. rewrite Hcwd. intros [(e & _ & ->)|(u & w0 & _ & Hrun)]%M_bind_inv; [by left; exists e|].
  apply M_bind_inv in Hrun as [(e & _ & ->)|(cr & w1 & Hopen & Hrun)]; [by left; exists e|].
  assert (cr_root_abs cr = le_root le) as Habs.
  { unfold ContainedRoot_open in Hopen. apply M_bind_inv in Hopen as [(e & _ & [=])|(u1 & w2 & _ & Hopen)].
    apply M_bind_inv in Hopen as [(e & _ & [=])|(fd & w3 & _ & Hopen)]. by injection Hopen as <- _. }
  apply M_bind_inv in Hrun as [(e & _ & ->)|(guard & w2 & Hguard & Hrun)]; [by left; exists e|]. right. exists cr, (cc_keepalive guard), w2.
  split_and!; [done| |done]. destruct (safe_child_cwd cr ltac:(by rewrite Habs) ltac:(by rewrite Habs) w1 requested Hreq) as [_ Hin].
  rewrite Hguard in Hin. by apply Hin.
Qed.
End local.
