(* ===== verification/Credentials.v ===== *)
(** * The credential authority and its brokers

    [crates/substrate/daemon-credentials/src] and the brokers of
    [crates/substrate/daemon-host/src/credentials.rs]: scopes and their
    attenuation ([daemon-common]), signed capability leases, the authority that
    mints, resolves and revokes them, and the chain of relays above it.

    The envelope digest, the signatures and the source of secrets are
    parameters; the clock is an argument.  A method of the authority takes
    several locks in turn; [acquire] is split where another call can come in
    between. *)

From S2P Require Import Prelude Text Common.

#[local] Open Scope N_scope.
#[local] Open Scope daemon_scope.

(** ** Scopes *)

Record CredScope := mkCredScope { cs_profiles : gset string; cs_actions : gset string; cs_max_tokens : option N }.

Definition CredScope_nothing : CredScope := mkCredScope ∅ ∅ (Some 0).

Definition CredScope_intersect (self other : CredScope) : CredScope :=
  let tighter := match cs_max_tokens self, cs_max_tokens other with
                 | Some a, Some b => Some (N.min a b)
                 | Some a, None => Some a
                 | None, Some b => Some b
                 | None, None => None
                 end in
  mkCredScope (cs_profiles self ∩ cs_profiles other) (cs_actions self ∩ cs_actions other) tighter.

Definition CredScope_allows (self : CredScope) (profile action : string) : bool :=
  bool_decide (profile ∈ cs_profiles self) && bool_decide (action ∈ cs_actions self).

Definition CredScope_contains (self other : CredScope) : bool :=
  bool_decide (cs_profiles other ⊆ cs_profiles self) && bool_decide (cs_actions other ⊆ cs_actions self) &&
  match cs_max_tokens self, cs_max_tokens other with
  | None, _ => true
  | Some _, None => false
  | Some a, Some b => b <=? a
  end.

Definition CredScope_is_empty (self : CredScope) : bool :=
  bool_decide (cs_profiles self = ∅) || bool_decide (cs_actions self = ∅) || bool_decide (cs_max_tokens self = Some 0).

(** ** Leases *)

Inductive CredMode := Native | Bearer | Proxied.
#[export] Instance CredMode_eq_dec : EqDecision CredMode.
Proof. solve_decision. Defined.

Inductive CredError :=
| Unavailable (profile : string) | ScopeDenied | Expired | BadSignature | CredFenced | NoAuthority | CredOther (message : string).

Definition CredError_to_string (e : CredError) : string :=
  match e with
  | Unavailable p => "no credential available for profile " +:+ p
  | ScopeDenied => "scope denied: requested capability exceeds the grant"
  | Expired => "capability expired"
  | BadSignature => "capability signature invalid"
  | CredFenced => "fenced: a stale incarnation cannot acquire credentials"
  | NoAuthority => "no credential authority reachable"
  | CredOther m => m
  end.

Record CapabilityLease := mkCapabilityLease {
  cl_cap_id : string; cl_profile : string; cl_scope : CredScope; cl_mode : CredMode; cl_expires_at_ms : N;
  cl_epoch : N; cl_secret : option string; cl_signature : bytes }.
#[export] Instance eta_CapabilityLease : Eta CapabilityLease := λ l,
  mkCapabilityLease (cl_cap_id l) (cl_profile l) (cl_scope l) (cl_mode l) (cl_expires_at_ms l) (cl_epoch l) (cl_secret l) (cl_signature l).

Definition is_expired (lease : CapabilityLease) (now_ms : N) : bool := cl_expires_at_ms lease <=? now_ms.

Definition mode_tag (mode : CredMode) : string :=
  match mode with Native => "native" | Bearer => "bearer" | Proxied => "proxied" end.

(** A [BTreeSet] is walked in ascending order. *)
Definition sorted_set (s : gset string) : list string := sort_by String.leb (elements s).

Definition scope_fingerprint (scope : CredScope) : string :=
  "p[" +:+ String.concat "," (sorted_set (cs_profiles scope)) +:+ "]a[" +:+ String.concat "," (sorted_set (cs_actions scope)) +:+
  "]t[" +:+ match cs_max_tokens scope with Some t => pretty t | None => "inf" end +:+ "]".

(** The subject and the assertions of the envelope. *)
Record CapabilityFields := mkCapabilityFields {
  cf_cap_id : string; cf_profile : string; cf_mode : string; cf_expires : N; cf_epoch : N; cf_scope : string; cf_secret : string }.

Definition capability_fields (lease : CapabilityLease) : CapabilityFields :=
  mkCapabilityFields (cl_cap_id lease) (cl_profile lease) (mode_tag (cl_mode lease)) (cl_expires_at_ms lease) (cl_epoch lease)
    (scope_fingerprint (cl_scope lease)) (default "" (cl_secret lease)).

(** Envelope digest, and the key pair of the node. *)
Class CapabilityCrypto := {
  envelope_digest : CapabilityFields → bytes;
  sign_digest : bytes → bytes;
  verify_digest : bytes → bytes → bool
}.

(** What the authority relies on: its own signatures verify. *)
Class SignaturesVerify `{CapabilityCrypto} : Prop := verify_signed d : verify_digest d (sign_digest d) = true.

Section leases.
Context `{CapabilityCrypto}.

Definition capability_digest (lease : CapabilityLease) : bytes := envelope_digest (capability_fields lease).
Definition CapabilitySigner_sign (lease : CapabilityLease) : bytes := sign_digest (capability_digest lease).

Definition CapabilityVerifyingKey_verify (lease : CapabilityLease) (now_ms : N) : result CredError unit :=
  if negb (verify_digest (capability_digest lease) (cl_signature lease)) then Err BadSignature
  else if is_expired lease now_ms then Err Expired
  else Ok tt.
End leases.

(** ** Sources of secrets *)

Record Provisioned := mkProvisioned { pv_secret : string; pv_fresh : bool }.

Class CredentialSource (S : Type) := {
  source_profile : S → string;
  provision : S → string → CredMode → N → result CredError Provisioned * S;
  source_revoke : S → string → S;
  source_rotate : S → string → N → S
}.

(** The source over one configured key. *)
Record StubCredentialSource := mkStubCredentialSource {
  ss_profile : string; ss_key : string; ss_can_mint : bool; ss_minted : gmap string string; ss_revoked : gset string }.
#[export] Instance eta_StubCredentialSource : Eta StubCredentialSource := λ s,
  mkStubCredentialSource (ss_profile s) (ss_key s) (ss_can_mint s) (ss_minted s) (ss_revoked s).

Definition stub_provision (s : StubCredentialSource) (cap_id : string) (mode : CredMode) (now : N) : result CredError Provisioned * StubCredentialSource :=
  match mode with
  | Native => (Ok (mkProvisioned ("native-token:" +:+ cap_id) true), s)
  | Bearer =>
      if ss_can_mint s then
        let key := "sk-fresh-" +:+ cap_id in
        (Ok (mkProvisioned key true), s <| ss_minted := <[cap_id := key]> (ss_minted s) |>)
      else (Ok (mkProvisioned (ss_key s) false), s)
  | Proxied => (Ok (mkProvisioned (ss_key s) false), s)
  end.

Definition stub_revoke (s : StubCredentialSource) (cap_id : string) : StubCredentialSource :=
  s <| ss_minted := delete cap_id (ss_minted s) |> <| ss_revoked := {[cap_id]} ∪ ss_revoked s |>.

#[export] Instance stub_source : CredentialSource StubCredentialSource := {
  source_profile := ss_profile; provision := stub_provision; source_revoke := stub_revoke; source_rotate s _ _ := s }.

(** ** The audit *)

Inductive CredAuditKind := ARequest | AGrant | AAttenuate | AUse | ADeny | ARevoke | AExpire.

Definition CredAuditKind_label (k : CredAuditKind) : string :=
  match k with
  | ARequest => "cred.request" | AGrant => "cred.grant" | AAttenuate => "cred.attenuate" | AUse => "cred.use"
  | ADeny => "cred.deny" | ARevoke => "cred.revoke" | AExpire => "cred.expire"
  end.

Record AcquireCtx := mkAcquireCtx { ac_requester : option string; ac_trace : string }.

Record CredentialAuditEvent := mkCredentialAuditEvent {
  ae_kind : CredAuditKind; ae_profile : string; ae_cap_id : option string; ae_scope : CredScope; ae_requester : option string;
  ae_trace : string; ae_detail : string; ae_timestamp_ms : N }.

Definition CredentialAuditEvent_summary (e : CredentialAuditEvent) : string :=
  CredAuditKind_label (ae_kind e) +:+ " profile=" +:+ ae_profile e +:+ " cap=" +:+ default "-" (ae_cap_id e) +:+
  " requester=" +:+ default "-" (ae_requester e) +:+ " " +:+ ae_detail e.

(** ** The authority *)

Record Budget := mkBudget { bu_tokens : option N; bu_wall_ms : option N }.
Definition Budget_unlimited : Budget := mkBudget None None.

Record CredentialAuthority (S : Type) := mkCredentialAuthority {
  au_profile : string; au_grant : CredScope; au_mode : CredMode; au_ttl_ms : N; au_source : S; au_next_cap : N;
  au_proxied : gmap string string; au_revoked : gset string; au_epoch : N; au_spent_tokens : N; au_ceiling : option N;
  au_audit : list CredentialAuditEvent }.
Arguments mkCredentialAuthority {S}.
Arguments au_profile {S}. Arguments au_grant {S}. Arguments au_mode {S}. Arguments au_ttl_ms {S}. Arguments au_source {S}.
Arguments au_next_cap {S}. Arguments au_proxied {S}. Arguments au_revoked {S}. Arguments au_epoch {S}. Arguments au_spent_tokens {S}.
Arguments au_ceiling {S}. Arguments au_audit {S}.
#[export] Instance eta_CredentialAuthority S : Eta (CredentialAuthority S) := λ a,
  mkCredentialAuthority (au_profile a) (au_grant a) (au_mode a) (au_ttl_ms a) (au_source a) (au_next_cap a) (au_proxied a)
    (au_revoked a) (au_epoch a) (au_spent_tokens a) (au_ceiling a) (au_audit a).

Section authority.
Context `{CapabilityCrypto} `{CredentialSource Src}.

Abbreviation Auth := (M (CredentialAuthority Src) CredError).

Definition CredentialAuthority_new (grant : CredScope) (mode : CredMode) (ttl_ms : N) (source : Src) : CredentialAuthority Src :=
  mkCredentialAuthority (source_profile source) grant mode ttl_ms source 0 ∅ ∅ 0 0 None [].

Definition with_cost_ceiling (ceiling : N) (a : CredentialAuthority Src) : CredentialAuthority Src := a <| au_ceiling := Some ceiling |>.

Definition push_audit (kind : CredAuditKind) (cap_id : option string) (scope : CredScope) (ctx : AcquireCtx) (detail : string) (now : N) : Auth unit :=
  modify (λ a, a <| au_audit := au_audit a ++
    [mkCredentialAuditEvent kind (au_profile a) cap_id scope (ac_requester ctx) (ac_trace ctx) detail now] |>).

(** [self.source.provision(..)]. *)
Definition call_source (cap_id : string) (now : N) : Auth Provisioned := λ a,
  let '(r, s) := provision (au_source a) cap_id (au_mode a) now in (r, a <| au_source := s |>).

(** Up to the secret: the checks, the id and the call of the source. *)
Definition acquire_begin (ctx : AcquireCtx) (profile : string) (scope : CredScope) (now : N) : Auth (CredScope * string * Provisioned) :=
  _ ← push_audit ARequest None scope ctx "" now;
  a ← get;
  if negb (bool_decide (profile = au_profile a)) then
    let e := Unavailable profile in
    _ ← push_audit ADeny None scope ctx (CredError_to_string e) now;
    throw e
  else
    let issued := CredScope_intersect (au_grant a) scope in
    if CredScope_is_empty issued then
      _ ← push_audit ADeny None issued ctx "requested scope exceeds the grant" now;
      throw ScopeDenied
    else
      let cap_id := au_profile a +:+ "-cap-" +:+ pretty (au_next_cap a) in
      _ ← modify (λ a, a <| au_next_cap := au_next_cap a +₆₄ 1 |>);
      provisioned ← call_source cap_id now;
      mret (issued, cap_id, provisioned).

(** From there: the key kept back, the epoch, the signature. *)
Definition acquire_finish (ctx : AcquireCtx) (profile : string) (issued : CredScope) (cap_id : string) (p : Provisioned) (now : N) : Auth CapabilityLease :=
  a ← get;
  secret ← (match au_mode a with
            | Native | Bearer => mret (Some (pv_secret p))
            | Proxied => _ ← modify (λ a, a <| au_proxied := <[cap_id := pv_secret p]> (au_proxied a) |>); mret None
            end);
  let lease := mkCapabilityLease cap_id profile issued (au_mode a) (now +₆₄ au_ttl_ms a) (au_epoch a) secret [] in
  let lease := lease <| cl_signature := CapabilitySigner_sign lease |> in
  _ ← push_audit AGrant (Some cap_id) issued ctx
        ("mode=" +:+ mode_tag (au_mode a) +:+ " fresh=" +:+ (if pv_fresh p then "true" else "false")) now;
  mret lease.

Definition authority_acquire (ctx : AcquireCtx) (profile : string) (scope : CredScope) (now : N) : Auth CapabilityLease :=
  '(issued, cap_id, p) ← acquire_begin ctx profile scope now;
  acquire_finish ctx profile issued cap_id p now.

Definition authority_verify (lease : CapabilityLease) (now : N) : Auth unit := λ a,
  (CapabilityVerifyingKey_verify lease now, a).

Definition use_capability (ctx : AcquireCtx) (lease : CapabilityLease) (now : N) : Auth string :=
  _ ← authority_verify lease now;
  a ← get;
  if negb (cl_epoch lease =? au_epoch a) then throw (Unavailable (cl_profile lease))
  else if bool_decide (cl_cap_id lease ∈ au_revoked a) then throw (Unavailable (cl_profile lease))
  else
    secret ← (match cl_mode lease with
              | Proxied => _ ← ok_or (au_proxied a !! cl_cap_id lease) (Unavailable (cl_profile lease)); mret ("proxied-result:" +:+ cl_cap_id lease)
              | Native | Bearer => ok_or (cl_secret lease) (CredOther "lease missing embedded secret")
              end);
    _ ← push_audit AUse (Some (cl_cap_id lease)) (cl_scope lease) ctx ("mode=" +:+ mode_tag (cl_mode lease)) now;
    mret secret.

Definition authority_revoke (ctx : AcquireCtx) (cap_id : string) (now : N) : Auth unit :=
  _ ← modify (λ a, a <| au_source := source_revoke (au_source a) cap_id |>);
  _ ← modify (λ a, a <| au_proxied := delete cap_id (au_proxied a) |>);
  _ ← modify (λ a, a <| au_revoked := {[cap_id]} ∪ au_revoked a |>);
  push_audit ARevoke (Some cap_id) CredScope_nothing ctx "" now.

Definition revoke_all (ctx : AcquireCtx) (now : N) : Auth unit :=
  _ ← modify (λ a, a <| au_epoch := au_epoch a +₆₄ 1 |>);
  _ ← modify (λ a, a <| au_proxied := ∅ |>);
  push_audit ARevoke None CredScope_nothing ctx "revoke_all (credential removed/replaced)" now.

Definition authority_rotate (cap_id : string) (now : N) : Auth unit :=
  modify (λ a, a <| au_source := source_rotate (au_source a) cap_id now |>).

Definition charge (tokens : N) : Auth Budget :=
  _ ← modify (λ a, a <| au_spent_tokens := sat_add (au_spent_tokens a) tokens |>);
  gets (λ a, match au_ceiling a with
             | Some c => if c <=? au_spent_tokens a then mkBudget (Some 0) None else mkBudget (Some (c - au_spent_tokens a)) None
             | None => Budget_unlimited
             end).

Definition take_audit : Auth (list CredentialAuditEvent) := λ a, (Ok (au_audit a), a <| au_audit := [] |>).
End authority.

(** ** Brokers *)

(** The token an incarnation was granted, and the session's current one. *)
Record FenceGuard := mkFenceGuard { fg_granted : FenceToken; fg_live : FenceToken }.
Definition is_stale (g : FenceGuard) : bool := fg_granted g <? fg_live g.

Definition fence_ok (fence : option FenceGuard) : result CredError unit :=
  match fence with Some g => if is_stale g then Err CredFenced else Ok tt | None => Ok tt end.

(** A relay with its grant, or the owner. *)
Record RelayBroker := mkRelayBroker { rb_grant : CredScope; rb_fence : option FenceGuard }.

Section brokers.
Context `{CapabilityCrypto} `{CredentialSource Src}.

Abbreviation Auth := (M (CredentialAuthority Src) CredError).

Definition lift_result {A} (r : result CredError A) : Auth A := λ a, (r, a).

Definition owner_acquire (fence : option FenceGuard) (ctx : AcquireCtx) (profile : string) (scope : CredScope) (now : N) : Auth CapabilityLease :=
  _ ← lift_result (fence_ok fence); authority_acquire ctx profile scope now.

Definition owner_use (fence : option FenceGuard) (ctx : AcquireCtx) (lease : CapabilityLease) (now : N) : Auth string :=
  _ ← lift_result (fence_ok fence); use_capability ctx lease now.

Definition owner_rotate (fence : option FenceGuard) (cap_id : string) (now : N) : Auth unit :=
  match fence_ok fence with Ok _ => authority_rotate cap_id now | Err _ => mret tt end.

(** Through the relays, nearest first. *)
Fixpoint broker_acquire (relays : list RelayBroker) (fence : option FenceGuard) (ctx : AcquireCtx) (profile : string) (scope : CredScope) (now : N) : Auth CapabilityLease :=
  match relays with
  | [] => owner_acquire fence ctx profile scope now
  | r :: relays =>
      _ ← lift_result (fence_ok (rb_fence r));
      let narrowed := CredScope_intersect (rb_grant r) scope in
      if CredScope_is_empty narrowed then throw ScopeDenied
      else broker_acquire relays fence ctx profile narrowed now
  end.

Fixpoint broker_use (relays : list RelayBroker) (fence : option FenceGuard) (ctx : AcquireCtx) (lease : CapabilityLease) (now : N) : Auth string :=
  match relays with
  | [] => owner_use fence ctx lease now
  | r :: relays => _ ← lift_result (fence_ok (rb_fence r)); broker_use relays fence ctx lease now
  end.
End brokers.

(** ** Runs of the authority *)

Inductive AuthorityOp :=
| AoAcquire (ctx : AcquireCtx) (profile : string) (scope : CredScope) (now : N)
| AoUse (ctx : AcquireCtx) (lease : CapabilityLease) (now : N)
| AoRevoke (ctx : AcquireCtx) (cap_id : string) (now : N)
| AoRevokeAll (ctx : AcquireCtx) (now : N)
| AoRotate (cap_id : string) (now : N)
| AoCharge (tokens : N)
| AoTakeAudit.

Section runs.
Context `{CapabilityCrypto} `{CredentialSource Src}.

Definition run_authority_op (op : AuthorityOp) (a : CredentialAuthority Src) : CredentialAuthority Src :=
  match op with
  | AoAcquire ctx profile scope now => (authority_acquire ctx profile scope now a).2
  | AoUse ctx lease now => (use_capability ctx lease now a).2
  | AoRevoke ctx cap_id now => (authority_revoke ctx cap_id now a).2
  | AoRevokeAll ctx now => (revoke_all ctx now a).2
  | AoRotate cap_id now => (authority_rotate cap_id now a).2
  | AoCharge tokens => (charge tokens a).2
  | AoTakeAudit => (take_audit a).2
  end.

Definition run_authority (ops : list AuthorityOp) (a : CredentialAuthority Src) : CredentialAuthority Src :=
  foldl (λ a op, run_authority_op op a) a ops.

(** A revocation that concerns the capability. *)
Definition kills (cap_id : string) (op : AuthorityOp) : bool :=
  match op with
  | AoRevoke _ cap _ => bool_decide (cap = cap_id)
  | AoRevokeAll _ _ => true
  | _ => false
  end.

Definition unfenced (relays : list RelayBroker) (fence : option FenceGuard) : bool :=
  forallb (λ f, match f with Some g => negb (is_stale g) | None => true end) (fence :: (rb_fence <$> relays)).

(** *** What acquiring does *)

Record minted (profile : string) (scope : CredScope) (now : N) (a : CredentialAuthority Src) (lease : CapabilityLease) (a' : CredentialAuthority Src) : Prop := {
  minted_profile : cl_profile lease = profile ∧ profile = au_profile a;
  minted_scope : cl_scope lease = CredScope_intersect (au_grant a) scope ∧ CredScope_is_empty (cl_scope lease) = false;
  minted_mode : cl_mode lease = au_mode a;
  minted_expiry : cl_expires_at_ms lease = now +₆₄ au_ttl_ms a;
  minted_epoch : cl_epoch lease = au_epoch a;
  minted_secret : match au_mode a with Proxied => cl_secret lease = None ∧ is_Some (au_proxied a' !! cl_cap_id lease) | _ => is_Some (cl_secret lease) end;
  minted_signature : cl_signature lease = CapabilitySigner_sign lease
}.

(** Revocation state is not touched; keys kept back stay. *)
Definition same_revocations (a a' : CredentialAuthority Src) : Prop :=
  au_epoch a' = au_epoch a ∧ au_revoked a' = au_revoked a ∧ (∀ cap, is_Some (au_proxied a !! cap) → is_Some (au_proxied a' !! cap)) ∧ au_profile a' = au_profile a.

Ltac run_authority_code := unfold mbind, M_bind, mret, M_ret, get, gets, modify, throw; cbn -[unfenced CredScope_intersect CredScope_is_empty pretty CapabilitySigner_sign String.append].

Lemma authority_acquire_spec ctx profile scope now a : same_revocations a (authority_acquire ctx profile scope now a).2 ∧
  ∀ lease, (authority_acquire ctx profile scope now a).1 = Ok lease → minted profile scope now a lease (authority_acquire ctx profile scope now a).2.
Proof.
  unfold authority_acquire, acquire_begin, acquire_finish, push_audit, call_source. run_authority_code.
  destruct (bool_decide (profile = au_profile a)) eqn:Hp; [|by run_authority_code]. apply bool_decide_eq_true in Hp as ->. run_authority_code.
  destruct (CredScope_is_empty (CredScope_intersect (au_grant a) scope)) eqn:He; [by run_authority_code|]. run_authority_code.
  set (cap := au_profile a +:+ _). destruct (provision (au_source a) cap (au_mode a) now) as [[p|e] s]; [|by run_authority_code]. run_authority_code.
  destruct (au_mode a) eqn:Hm; run_authority_code.
  1,2: split; [done|]; intros lease [= <-]; constructor; cbn; rewrite ?Hm; eauto.
  split.
  - split_and!; [done|done| |done]. intros c Hc. cbn. destruct (decide (c = cap)) as [->|]; [rewrite lookup_insert_eq; by eexists|by rewrite lookup_insert_ne].
  - intros lease [= <-]. constructor; cbn; rewrite ?Hm; eauto. split; [done|]. rewrite lookup_insert_eq. by eexists.
Qed.

(** The source is asked at most once, and in [Bearer] mode the lease carries what it gave. *)
Inductive source_call (mode : CredMode) (now : N) (s s' : Src) (secret : option string) : Prop :=
| source_not_called : s' = s → secret = None → source_call mode now s s' secret
| source_called cap : s' = (provision s cap mode now).2 → (∀ k, secret = Some k → ∃ p, (provision s cap mode now).1 = Ok p ∧ k = pv_secret p) → source_call mode now s s' secret.

Lemma acquire_source ctx profile scope now a :
  source_call (au_mode a) now (au_source a) (au_source (authority_acquire ctx profile scope now a).2)
    (match (authority_acquire ctx profile scope now a).1 with Ok lease => cl_secret lease | Err _ => None end).
Proof.
  unfold authority_acquire, acquire_begin, acquire_finish, push_audit, call_source. run_authority_code.
  destruct (bool_decide (profile = au_profile a)); [|by left]. run_authority_code.
  destruct (CredScope_is_empty (CredScope_intersect (au_grant a) scope)); [by left|]. run_authority_code.
  set (cap := au_profile a +:+ _). destruct (provision (au_source a) cap (au_mode a) now) as [[p|e] s] eqn:Hp; run_authority_code.
  - destruct (au_mode a); run_authority_code; apply (source_called _ _ _ _ _ cap); rewrite Hp; try done; intros k [= <-]; eauto.
  - apply (source_called _ _ _ _ _ cap); by rewrite Hp.
Qed.

Lemma use_state ctx lease now (a : CredentialAuthority Src) : ∃ audit, (use_capability ctx lease now a).2 = a <| au_audit := audit |>.
Proof.
  assert (a = a <| au_audit := au_audit a |>) as Ha by by destruct a.
  unfold use_capability, authority_verify, push_audit, ok_or. run_authority_code. destruct (CapabilityVerifyingKey_verify lease now); [|eauto]. run_authority_code.
  destruct (negb _); [eauto|]. destruct (bool_decide _); [eauto|]. destruct (cl_mode lease); run_authority_code; [destruct (cl_secret lease); eauto..|].
  destruct (au_proxied a !! cl_cap_id lease); eauto.
Qed.

(** What each call does to the revocation state. *)
Lemma run_op_revocations op a :
  au_epoch (run_authority_op op a) = (match op with AoRevokeAll _ _ => au_epoch a +₆₄ 1 | _ => au_epoch a end) ∧
  au_revoked (run_authority_op op a) = (match op with AoRevoke _ cap _ => {[cap]} ∪ au_revoked a | _ => au_revoked a end) ∧
  ∀ cap, kills cap op = false → is_Some (au_proxied a !! cap) → is_Some (au_proxied (run_authority_op op a) !! cap).
Proof.
  destruct op; cbn [run_authority_op].
  - destruct (authority_acquire_spec ctx profile scope now a) as [(He & Hr & Hp & _) _]. eauto.
  - by destruct (use_state ctx lease now a) as [audit ->].
  - unfold authority_revoke, push_audit. run_authority_code. split_and!; [done..|]. intros cap Hc%bool_decide_eq_false Hs. by rewrite lookup_delete_ne.
  - unfold revoke_all, push_audit. run_authority_code. done.
  - done.
  - done.
  - done.
Qed.

(** When a use succeeds. *)
Lemma use_spec ctx lease now (a : CredentialAuthority Src) : (∃ secret, (use_capability ctx lease now a).1 = Ok secret) ↔
  CapabilityVerifyingKey_verify lease now = Ok tt ∧ cl_epoch lease = au_epoch a ∧ (cl_cap_id lease ∉ au_revoked a) ∧
  match cl_mode lease with Proxied => is_Some (au_proxied a !! cl_cap_id lease) | _ => is_Some (cl_secret lease) end.
Proof.
  unfold use_capability, authority_verify, push_audit, ok_or. run_authority_code. destruct (CapabilityVerifyingKey_verify lease now) as [[]|e]; [|naive_solver].
  run_authority_code. destruct (cl_epoch lease =? au_epoch a) eqn:He; [apply N.eqb_eq in He|apply N.eqb_neq in He; naive_solver]. cbn.
  case_bool_decide as Hr; [naive_solver|]. destruct (cl_mode lease); run_authority_code.
  1,2: destruct (cl_secret lease); split; naive_solver.
  destruct (au_proxied a !! cl_cap_id lease); split; naive_solver.
Qed.

Lemma broker_use_spec relays fence ctx lease now (a : CredentialAuthority Src) : (∃ secret, (broker_use relays fence ctx lease now a).1 = Ok secret) ↔
  unfenced relays fence = true ∧ ∃ secret, (use_capability ctx lease now a).1 = Ok secret.
Proof.
  assert (∀ fence' (m : M (CredentialAuthority Src) CredError string), (∃ secret, ((_ ← lift_result (fence_ok fence'); m) a).1 = Ok secret) ↔
    match fence' with Some g => negb (is_stale g) | None => true end = true ∧ ∃ secret, (m a).1 = Ok secret) as Hfence.
  { intros fence' m. unfold lift_result, fence_ok. run_authority_code. destruct fence' as [g|]; [destruct (is_stale g)|]; naive_solver. }
  unfold unfenced. induction relays as [|r relays IH]; cbn [broker_use].
  - unfold owner_use. rewrite Hfence. cbn. by rewrite andb_true_r.
  - rewrite Hfence, IH. cbn. rewrite !andb_true_iff. tauto.
Qed.

Lemma run_revocations ops (a : CredentialAuthority Src) cap : au_epoch a + N.of_nat (length ops) < u64_bound →
  (au_epoch (run_authority ops a) = au_epoch a ∧ cap ∉ au_revoked (run_authority ops a) ↔ existsb (kills cap) ops = false ∧ cap ∉ au_revoked a) ∧
  au_epoch a ≤ au_epoch (run_authority ops a) ∧
  (existsb (kills cap) ops = false → is_Some (au_proxied a !! cap) → is_Some (au_proxied (run_authority ops a) !! cap)).
Proof.
  unfold run_authority. revert a. induction ops as [|op ops IH]; intros a Hn; [cbn; naive_solver lia|]. cbn [foldl length] in *. cbn [existsb].
  destruct (run_op_revocations op a) as (He & Hr & Hp). set (a1 := run_authority_op op a) in *.
  assert (au_epoch a1 = au_epoch a ∨ au_epoch a1 = au_epoch a + 1 ∧ kills cap op = true) as Hstep.
  { destruct op; rewrite He; auto. right. split; [|done]. apply wrap64_small. lia. }
  destruct (IH a1) as (Hiff & Hle & Hkeep); [lia|]. rewrite orb_false_iff. split_and!.
  - destruct Hstep as [Heq|[Heq Hk]]; [|rewrite Hk; split; [intros [H1 _]; lia|naive_solver]]. rewrite Heq in Hiff. rewrite Hiff, Hr.
    clear - He Heq Hn. destruct op; cbn [kills]; try tauto.
    + rewrite bool_decide_eq_false, not_elem_of_union, not_elem_of_singleton. split; [intros (?&?&?)|intros ((?&?)&?)]; split_and!; congruence.
    + rewrite He, wrap64_small in Heq by lia. lia.
  - lia.
  - intros [Hk Hks] Hs. apply Hkeep; [done|]. by apply Hp.
Qed.

Lemma intersect_contains s t : CredScope_contains s (CredScope_intersect s t) = true ∧ CredScope_contains t (CredScope_intersect s t) = true.
Proof.
  unfold CredScope_contains, CredScope_intersect. cbn. rewrite !andb_true_iff, !bool_decide_eq_true. destruct (cs_max_tokens s), (cs_max_tokens t); cbn.
  all: split_and!; try set_solver; try done; apply N.leb_le; lia.
Qed.

Lemma contains_trans s t u : CredScope_contains s t = true → CredScope_contains t u = true → CredScope_contains s u = true.
Proof.
  unfold CredScope_contains. rewrite !andb_true_iff, !bool_decide_eq_true. intros [[H1 H2] H3] [[H4 H5] H6]. split_and!; [set_solver..|].
  destruct (cs_max_tokens s), (cs_max_tokens t), (cs_max_tokens u); try done. apply N.leb_le in H3, H6. apply N.leb_le. lia.
Qed.

Lemma unfenced_cons r relays fence :
  unfenced (r :: relays) fence = match rb_fence r with Some g => negb (is_stale g) | None => true end && unfenced relays fence.
Proof. unfold unfenced. cbn. rewrite !andb_assoc. f_equal. apply andb_comm. Qed.

(** Its own leases pass the check until they expire. *)
Lemma verify_own `{!SignaturesVerify} lease now : cl_signature lease = CapabilitySigner_sign lease →
  CapabilityVerifyingKey_verify lease now = Ok tt ↔ now < cl_expires_at_ms lease.
Proof.
  intros Hs. unfold CapabilityVerifyingKey_verify, is_expired. rewrite Hs. unfold CapabilitySigner_sign at 1. rewrite verify_signed. cbn.
  destruct (cl_expires_at_ms lease <=? now) eqn:He; [apply N.leb_le in He|apply N.leb_gt in He]; split; done || lia.
Qed.

(** The relays narrow; the owner mints. *)
Lemma broker_acquire_spec relays fence ctx profile scope now (a : CredentialAuthority Src) lease a' : broker_acquire relays fence ctx profile scope now a = (Ok lease, a') →
  ∃ narrowed, CredScope_contains scope narrowed = true ∧ Forall (λ r, CredScope_contains (rb_grant r) narrowed = true) relays ∧
    authority_acquire ctx profile narrowed now a = (Ok lease, a') ∧ unfenced relays fence = true.
Proof.
  revert scope. induction relays as [|r relays IH]; intros scope; cbn [broker_acquire].
  - unfold owner_acquire, lift_result, fence_ok, unfenced. run_authority_code. destruct fence as [g|]; [destruct (is_stale g) eqn:Hs; [done|]|]; intros Hacq.
    all: exists scope; split_and!; [|done|done|cbn; try done; by rewrite Hs].
    all: unfold CredScope_contains; rewrite !bool_decide_eq_true_2 by done; destruct (cs_max_tokens scope); cbn; [by apply N.leb_le|done].
  - unfold lift_result, fence_ok. run_authority_code. destruct (rb_fence r) as [g|] eqn:Hf; [destruct (is_stale g) eqn:Hs; [done|]|]; run_authority_code.
    all: destruct (CredScope_is_empty _); [done|]; intros (narrowed & Hsub & Hall & Hacq & Hun)%IH; exists narrowed.
    all: destruct (intersect_contains (rb_grant r) scope) as [Hg Hq]; split_and!; [by eapply contains_trans|constructor; [by eapply contains_trans|done]|done|].
    all: rewrite unfenced_cons, Hf, ?Hs; exact Hun.
Qed.

(** C33. A lease that comes back through a chain of relays never exceeds what
    was asked for, nor the grant of any relay on the way, nor the owner's; it is
    not empty, it is for the owner's profile, and in [Proxied] mode it carries
    no secret.  Whatever calls the authority then serves, the lease resolves
    exactly while no call revoked it (itself or all), its id had not been
    revoked before, it has not expired and no broker on the way is a stale
    incarnation. *)
Theorem brokered_lease `{!SignaturesVerify} relays fence ctx profile scope now (a : CredentialAuthority Src) lease a' :
  broker_acquire relays fence ctx profile scope now a = (Ok lease, a') →
  (CredScope_contains scope (cl_scope lease) = true ∧ Forall (λ r, CredScope_contains (rb_grant r) (cl_scope lease) = true) relays ∧
   CredScope_contains (au_grant a) (cl_scope lease) = true ∧ CredScope_is_empty (cl_scope lease) = false ∧
   cl_profile lease = au_profile a ∧ (cl_mode lease = Proxied → cl_secret lease = None)) ∧
  ∀ ops relays' fence' ctx' now', au_epoch a + N.of_nat (length ops) < u64_bound →
    (∃ secret, (broker_use relays' fence' ctx' lease now' (run_authority ops a')).1 = Ok secret) ↔
    existsb (kills (cl_cap_id lease)) ops = false ∧ (cl_cap_id lease ∉ au_revoked a) ∧ now' < cl_expires_at_ms lease ∧ unfenced relays' fence' = true.
Proof.
  intros (narrowed & Hsub & Hall & Hacq & _)%broker_acquire_spec.
  destruct (authority_acquire_spec ctx profile narrowed now a) as [Hsame Hmint]. rewrite Hacq in Hsame, Hmint. destruct (Hmint lease eq_refl) as [Hprof Hscope Hmode _ Hep Hsec Hsig].
  destruct Hprof as [Hp1 Hp2], Hscope as [Hs1 Hs2]. destruct (intersect_contains (au_grant a) narrowed) as [Hg Hn]. rewrite <- Hs1 in Hg, Hn. split.
  - split_and!; [exact (contains_trans _ _ _ Hsub Hn)| |done..|congruence|].
    + eapply Forall_impl; [exact Hall|]. intros r Hr. exact (contains_trans _ _ _ Hr Hn).
    + intros Hm. rewrite Hmode in Hm. rewrite Hm in Hsec. by destruct Hsec.
  - intros ops relays' fence' ctx' now' Hlen. destruct Hsame as (He & Hr & _). cbn in He, Hr.
    destruct (run_revocations ops a' (cl_cap_id lease)) as (Hiff & _ & Hkeep); [by rewrite He|]. rewrite He, Hr in Hiff.
    rewrite broker_use_spec, use_spec, verify_own, Hep, Hmode by exact Hsig. split.
    + intros (Hun & Hexp & Hepo & Hnr & _). destruct (proj1 Hiff) as [Hk Hna]; auto.
    + intros (Hk & Hna & Hexp & Hun). destruct (proj2 Hiff) as [Hepo Hnr]; [auto|]. split_and!; auto.
      cbn in Hsec. destruct (au_mode a); auto. destruct Hsec as [_ Hkey]. auto.
Qed.
End runs.

(** ** Concrete runs *)

Definition toy_encoding (f : CapabilityFields) : bytes :=
  string_bytes (cf_cap_id f +:+ "|" +:+ cf_profile f +:+ "|" +:+ cf_mode f +:+ "|" +:+ pretty (cf_expires f) +:+ "|" +:+ pretty (cf_epoch f) +:+ "|" +:+ cf_scope f +:+ "|" +:+ cf_secret f).

#[local] Instance toy_crypto : CapabilityCrypto := {
  envelope_digest := toy_encoding; sign_digest d := Byte.x07 :: d; verify_digest d s := bool_decide (s = Byte.x07 :: d) }.

#[local] Instance toy_signatures_verify : SignaturesVerify.
Proof. intros d. by apply bool_decide_eq_true_2. Qed.

Definition toy_scope : CredScope := mkCredScope {["openai"]} {["chat"]} (Some 1000).
Definition toy_relay : RelayBroker := mkRelayBroker (mkCredScope {["openai"; "grok"]} {["chat"; "embed"]} (Some 500)) (Some (mkFenceGuard 3 3)).
Definition toy_authority (mode : CredMode) : CredentialAuthority StubCredentialSource :=
  CredentialAuthority_new toy_scope mode 60000 (mkStubCredentialSource "openai" "sk-configured" false ∅ ∅).
Definition toy_ctx : AcquireCtx := mkAcquireCtx None "t".
Definition toy_lease (mode : CredMode) : CapabilityLease :=
  let lease := mkCapabilityLease "openai-cap-0" "openai" (CredScope_intersect toy_scope (CredScope_intersect (rb_grant toy_relay) toy_scope)) mode 60100 0
    (match mode with Proxied => None | Native => Some "native-token:openai-cap-0" | Bearer => Some "sk-configured" end) [] in
  lease <| cl_signature := CapabilitySigner_sign lease |>.

Lemma brokered_lease_witness :
  (broker_acquire [toy_relay] None toy_ctx "openai" toy_scope 100 (toy_authority Proxied)).1 = Ok (toy_lease Proxied) ∧
  cl_secret (toy_lease Proxied) = None ∧
  (∃ secret, (broker_use [toy_relay] None toy_ctx (toy_lease Proxied) 500
     (run_authority [AoCharge 5; AoRevoke toy_ctx "openai-cap-1" 200] (broker_acquire [toy_relay] None toy_ctx "openai" toy_scope 100 (toy_authority Proxied)).2)).1 = Ok secret).
Proof.
  destruct (broker_acquire [toy_relay] None toy_ctx "openai" toy_scope 100 (toy_authority Proxied)) as [r a'] eqn:Hacq.
  assert (r = Ok (toy_lease Proxied)) as -> by (change ((r, a').1 = Ok (toy_lease Proxied)); rewrite <- Hacq; vm_compute; reflexivity).
  destruct (brokered_lease [toy_relay] None toy_ctx "openai" toy_scope 100 (toy_authority Proxied) (toy_lease Proxied) a' Hacq) as [_ Hlife].
  split; [reflexivity|]. split; [reflexivity|]. apply Hlife; [vm_compute; reflexivity|]. split_and!; [vm_compute; reflexivity|cbn; apply not_elem_of_empty|vm_compute; reflexivity..].
Defined.

(** Revoking one lease, or all, stops it; the key in [Proxied] mode never comes back. *)
Example revoke_all_stops_leases :
  let a' := (broker_acquire [toy_relay] None toy_ctx "openai" toy_scope 100 (toy_authority Bearer)).2 in
  (use_capability toy_ctx (toy_lease Bearer) 200 a').1 = Ok "sk-configured" ∧
  (use_capability toy_ctx (toy_lease Bearer) 200 (revoke_all toy_ctx 150 a').2).1 = Err (Unavailable "openai") ∧
  (use_capability toy_ctx (toy_lease Proxied) 200 (broker_acquire [toy_relay] None toy_ctx "openai" toy_scope 100 (toy_authority Proxied)).2).1 =
    Ok "proxied-result:openai-cap-0".
Proof. vm_compute. auto. Qed.

(** The secret is provisioned before the epoch is read: a credential replaced,
    and every lease revoked, in between leaves a lease on the old key that
    resolves. *)
Example replaced_during_acquire :
  match acquire_begin toy_ctx "openai" toy_scope 100 (toy_authority Bearer) with
  | (Ok (issued, cap_id, p), a1) =>
      let a2 := (revoke_all toy_ctx 100 (a1 <| au_source := mkStubCredentialSource "openai" "sk-replaced" false ∅ ∅ |>)).2 in
      match acquire_finish toy_ctx "openai" issued cap_id p 100 a2 with
      | (Ok lease, a3) => (use_capability toy_ctx lease 200 a3).1
      | (Err e, _) => Err e
      end
  | (Err e, _) => Err e
  end = Ok "sk-configured".
Proof. vm_compute. reflexivity. Qed.

(** Two scopes with one fingerprint: the signature does not tell them apart. *)
Example fingerprint_collision :
  let one := mkCredScope {["a,b"]} {["chat"]} None in
  let two := mkCredScope {["a"; "b"]} {["chat"]} None in
  scope_fingerprint one = scope_fingerprint two ∧ CredScope_allows one "a" "chat" = false ∧ CredScope_allows two "a" "chat" = true.
Proof. vm_compute. auto. Qed.
