(* ===== verification/CredPool.v ===== *)
(** * Stored credentials, their pools and the broker of a node

    [crates/substrate/daemon-host/src/credstore.rs] (the in-memory and the file-backed
    store, and the sources over a store), the broker of [daemon-host/src/credentials.rs]
    that keeps an authority per profile, every writer of the stored credentials: the
    [CredentialSet] and [CredentialRemove] handlers and the end of a sign-in of
    [daemon-host/src/node_api/cred_auth.rs], the account credentials of
    [node_api/provisioning.rs] and the rejection marks of [node_api/internals.rs]; and the
    embedded pool of the standalone engine ([daemon-core/src/credentials.rs]).

    The sources of one broker share its store: a source only reads it, so each
    call of an authority is given the broker's store as it then is.  The refresher
    of [acquire] is a parameter, a function that may rewrite the store. *)

From S2P Require Import Prelude Text Common Credentials.

#[local] Open Scope N_scope.
#[local] Open Scope daemon_scope.

(** ** The store *)

(** [CredentialStore]: writes may fail; a listing says of each row whether it is present. *)
Class CredentialStore (T : Type) := {
  store_set : string → string → M T string unit;
  store_get : string → T → option string;
  store_remove : string → M T string unit;
  store_list : T → list (string * bool);
  store_add_key : string → string → M T string unit;
  store_keys : string → T → list string
}.

(** What [CredentialInfo::redacted] makes of the first key of a row. *)
Definition redacted_present (secret : option string) : bool := match secret with Some s => negb (bool_decide (s = "")) | None => false end.

(** *** In memory *)

Definition MemCredentialStore : Type := gmap string (list string).

Definition mem_set (profile secret : string) : M MemCredentialStore string unit := modify <[profile := [secret]]>.
Definition mem_get (profile : string) (s : MemCredentialStore) : option string := ks ← s !! profile; head ks.
Definition mem_remove (profile : string) : M MemCredentialStore string unit := modify (delete profile).
Definition mem_list (s : MemCredentialStore) : list (string * bool) :=
  (λ pk, (pk.1, redacted_present (head pk.2))) <$> sort_by (λ a b, String.leb a.1 b.1) (map_to_list s).
Definition mem_add_key (profile secret : string) : M MemCredentialStore string unit :=
  modify (λ s, <[profile := default [] (s !! profile) ++ [secret]]> s).
Definition mem_keys (profile : string) (s : MemCredentialStore) : list string := default [] (s !! profile).

#[export] Instance mem_store : CredentialStore MemCredentialStore := {
  store_set := mem_set; store_get := mem_get; store_remove := mem_remove; store_list := mem_list;
  store_add_key := mem_add_key; store_keys := mem_keys }.

(** *** In a file *)

(** What [std::fs] does for the store: files with their modes, those that cannot be read,
    and the failures to come, one entry per change asked for; a write that fails leaves the
    file as it was, or cut short. *)
Record File := mkFile { fl_content : bytes; fl_mode : N }.
Record FileSystem := mkFileSystem {
  fs_files : gmap string File; fs_unreadable : gset string; fs_faults : list (option (string * option nat)) }.
#[export] Instance eta_FileSystem : Eta FileSystem := λ s, mkFileSystem (fs_files s) (fs_unreadable s) (fs_faults s).

Definition fs_change (broken : nat → FileSystem → FileSystem) (done : M FileSystem string unit) : M FileSystem string unit := λ s,
  match fs_faults s with
  | Some (e, kept) :: rest => (Err e, (match kept with Some n => broken n | None => id end) (s <| fs_faults := rest |>))
  | None :: rest => done (s <| fs_faults := rest |>)
  | [] => done s
  end.

Definition fs_read (path : string) (s : FileSystem) : option bytes :=
  if bool_decide (path ∈ fs_unreadable s) then None else fl_content <$> fs_files s !! path.

Definition fs_put (path : string) (content : bytes) (s : FileSystem) : FileSystem :=
  s <| fs_files := <[path := mkFile content (default 420 (fl_mode <$> fs_files s !! path))]> (fs_files s) |>.

Definition fs_write (path : string) (content : bytes) : M FileSystem string unit :=
  fs_change (λ n, fs_put path (take n content)) (modify (fs_put path content)).

Definition fs_set_permissions (path : string) (mode : N) : M FileSystem string unit :=
  fs_change (λ _, id) (modify (λ s, s <| fs_files := alter (λ f, mkFile (fl_content f) mode) path (fs_files s) |>)).

Definition fs_rename (from to : string) : M FileSystem string unit :=
  fs_change (λ _, id) (λ s,
    match fs_files s !! from with
    | Some f => (Ok tt, s <| fs_files := <[to := f]> (delete from (fs_files s)) |>)
    | None => (Err "No such file or directory", s)
    end).

Definition fs_create_dir_all : M FileSystem string unit := fs_change (λ _, id) (mret tt).

Definition slash : Ascii.ascii := Ascii.ascii_of_nat 47.
Definition dot : Ascii.ascii := Ascii.ascii_of_nat 46.

(** The last occurrence of a character. *)
Fixpoint rsplit (c : Ascii.ascii) (s : string) : option (string * string) :=
  match s with
  | EmptyString => None
  | String a r =>
      match rsplit c r with
      | Some (x, y) => Some (String a x, y)
      | None => if Ascii.eqb a c then Some (EmptyString, r) else None
      end
  end.

(** [Path::with_extension], of a path that ends in a file name. *)
Definition with_extension (path ext : string) : string :=
  let '(dir, name) := match rsplit slash path with Some (d, n) => (d +:+ "/", n) | None => ("", path) end in
  let stem := match rsplit dot name with Some (String a s, _) => String a s | _ => name end in
  dir +:+ stem +:+ "." +:+ ext.

(** The reading and writing of the map as JSON. *)
Class StoreJson := {
  map_from_slice : bytes → option (gmap string string);
  map_to_vec_pretty : gmap string string → result string bytes
}.

Record FileCredentialStore := mkFileCredentialStore { fc_path : string; fc_fs : FileSystem }.

Section file.
Context `{StoreJson}.

Definition on_fs {A} (m : M FileSystem string A) : M FileCredentialStore string A := λ s,
  let '(r, fs) := m (fc_fs s) in (r, mkFileCredentialStore (fc_path s) fs).

Definition FileCredentialStore_open (path : string) : M FileSystem string FileCredentialStore := λ fs,
  match fs_create_dir_all fs with (Ok _, fs) => (Ok (mkFileCredentialStore path fs), fs) | (Err e, fs) => (Err e, fs) end.

Definition read_map (s : FileCredentialStore) : gmap string string :=
  match fs_read (fc_path s) (fc_fs s) with
  | Some bytes => default ∅ (map_from_slice bytes)
  | None => ∅
  end.

Definition write_map (m : gmap string string) : M FileCredentialStore string unit := λ s,
  match map_to_vec_pretty m with
  | Err e => (Err e, s)
  | Ok bytes =>
      let tmp := with_extension (fc_path s) "tmp" in
      on_fs (_ ← fs_write tmp bytes; _ ← fs_set_permissions tmp 384; fs_rename tmp (fc_path s)) s
  end.

Definition file_set (profile secret : string) : M FileCredentialStore string unit := λ s,
  write_map (<[profile := secret]> (read_map s)) s.
Definition file_get (profile : string) (s : FileCredentialStore) : option string := read_map s !! profile.
Definition file_remove (profile : string) : M FileCredentialStore string unit := λ s, write_map (delete profile (read_map s)) s.
Definition file_list (s : FileCredentialStore) : list (string * bool) :=
  (λ ps, (ps.1, redacted_present (Some ps.2))) <$> sort_by (λ a b, String.leb a.1 b.1) (map_to_list (read_map s)).

(** The defaults of the trait. *)
Definition default_add_key (profile secret : string) : M FileCredentialStore string unit := file_set profile secret.
Definition default_keys (profile : string) (s : FileCredentialStore) : list string := option_list (file_get profile s).

#[export] Instance file_store : CredentialStore FileCredentialStore := {
  store_set := file_set; store_get := file_get; store_remove := file_remove; store_list := file_list;
  store_add_key := default_add_key; store_keys := default_keys }.

(** A rewrite that succeeds leaves the new map at the path, readable by its owner only; one
    that fails, wherever it does, leaves the file at the path as it was. *)
Lemma write_map_atomic m s : with_extension (fc_path s) "tmp" ≠ fc_path s →
  fc_path (write_map m s).2 = fc_path s ∧ fs_unreadable (fc_fs (write_map m s).2) = fs_unreadable (fc_fs s) ∧
  match (write_map m s).1 with
  | Ok _ => ∃ bytes, map_to_vec_pretty m = Ok bytes ∧ fs_files (fc_fs (write_map m s).2) !! fc_path s = Some (mkFile bytes 384)
  | Err _ => fs_files (fc_fs (write_map m s).2) !! fc_path s = fs_files (fc_fs s) !! fc_path s
  end.
Proof.
  intros Hne. unfold write_map. destruct (map_to_vec_pretty m) as [bytes|e]; [|done].
  destruct s as [path [files unreadable faults]]. cbn [fc_path fc_fs] in *. set (tmp := with_extension path "tmp") in *.
  unfold on_fs, fs_write, fs_set_permissions, fs_rename, fs_change, fs_put, modify, mbind, M_bind. cbn.
  destruct faults as [|[[e1 [n1|]]|] faults]; cbn; [|by rewrite lookup_insert_ne|done|].
  1: rewrite lookup_alter_eq, lookup_insert_eq; cbn; split_and!; [done..|exists bytes; by rewrite lookup_insert_eq].
  destruct faults as [|[[e2 [n2|]]|] faults]; cbn; [|by rewrite lookup_insert_ne..|].
  1: rewrite lookup_alter_eq, lookup_insert_eq; cbn; split_and!; [done..|exists bytes; by rewrite lookup_insert_eq].
  destruct faults as [|[[e3 [n3|]]|] faults]; cbn; [|by rewrite lookup_alter_ne, lookup_insert_ne..|].
  all: rewrite lookup_alter_eq, lookup_insert_eq; cbn; split_and!; [done..|exists bytes; by rewrite lookup_insert_eq].
Qed.
End file.

(** The written map is read back. *)
Class StoreJsonLaws `{StoreJson} := map_round_trip m b : map_to_vec_pretty m = Ok b → map_from_slice b = Some m.

(** A write that returns is what is read next, and changes no other row; one that fails
    changes no row. *)
Lemma file_set_get `{StoreJsonLaws} profile secret s : with_extension (fc_path s) "tmp" ≠ fc_path s → fc_path s ∉ fs_unreadable (fc_fs s) →
  read_map (file_set profile secret s).2 =
    match (file_set profile secret s).1 with Ok _ => <[profile := secret]> (read_map s) | Err _ => read_map s end.
Proof.
  intros Hne Hr. destruct (write_map_atomic (<[profile := secret]> (read_map s)) s Hne) as (Hp & Hu & Hw). unfold file_set.
  destruct (write_map _ s) as [[[]|e] s'] eqn:Hs; cbn in *.
  - destruct Hw as (bytes & Hb & Hf). unfold read_map at 1. unfold fs_read. rewrite Hp, Hu, bool_decide_eq_false_2, Hf by done. cbn.
    by rewrite (map_round_trip _ _ Hb).
  - unfold read_map, fs_read. by rewrite Hp, Hu, Hw.
Qed.

Definition stored_secret_for_mode (mode : CredMode) (profile secret : string) : result CredError Provisioned :=
  match mode with
  | Bearer | Proxied => Ok (mkProvisioned secret false)
  | Native => Err (CredOther ("native (short-lived) credentials require an OAuth/STS-backed source; profile '" +:+ profile +:+
                              "' is store-backed — use Bearer or Proxied"))
  end.

(** ** Sources over the store *)

Section sources.
Context {T : Type} `{CredentialStore T}.

Record StoreCredentialSource := mkStoreCredentialSource { sc_store : T; sc_profile : string; sc_fallback : string }.

Definition store_provision (s : StoreCredentialSource) (cap_id : string) (mode : CredMode) (now : N) : result CredError Provisioned * StoreCredentialSource :=
  (stored_secret_for_mode mode (sc_profile s) (default (sc_fallback s) (store_get (sc_profile s) (sc_store s))), s).

#[export] Instance store_source : CredentialSource StoreCredentialSource := {
  source_profile := sc_profile; provision := store_provision; source_revoke s _ := s; source_rotate s _ _ := s }.

Record PooledStoreCredentialSource := mkPooledStoreCredentialSource {
  po_store : T; po_profile : string; po_fallback : string; po_cooldown_ms : N;
  po_cooldown : gmap string N; po_served : gmap string string }.
#[export] Instance eta_PooledStoreCredentialSource : Eta PooledStoreCredentialSource := λ s,
  mkPooledStoreCredentialSource (po_store s) (po_profile s) (po_fallback s) (po_cooldown_ms s) (po_cooldown s) (po_served s).

Definition PooledStoreCredentialSource_new (store : T) (profile fallback : string) : PooledStoreCredentialSource :=
  mkPooledStoreCredentialSource store profile fallback 30000 ∅ ∅.

Definition pool (s : PooledStoreCredentialSource) : list string :=
  match store_keys (po_profile s) (po_store s) with [] => [po_fallback s] | keys => keys end.

(** When the key revives; [0] when it was never exhausted. *)
Definition revives (s : PooledStoreCredentialSource) (k : string) : N := default 0 (po_cooldown s !! k).
Definition key_live (s : PooledStoreCredentialSource) (now : N) (k : string) : bool := revives s k <=? now.

Definition live_count (s : PooledStoreCredentialSource) (now : N) : nat := length (filter (λ k, key_live s now k = true) (pool s)).

(** [Iterator::min_by_key]: the first of the least. *)
Definition min_by_key {A} (f : A → N) (l : list A) : option A :=
  match l with [] => None | x :: l => Some (foldl (λ m y, if f y <? f m then y else m) x l) end.

Definition choose (s : PooledStoreCredentialSource) (now : N) : option string :=
  match find (key_live s now) (pool s) with Some k => Some k | None => min_by_key (revives s) (pool s) end.

Definition pooled_provision (s : PooledStoreCredentialSource) (cap_id : string) (mode : CredMode) (now : N) : result CredError Provisioned * PooledStoreCredentialSource :=
  match mode with
  | Native => (stored_secret_for_mode mode (po_profile s) "", s)
  | _ =>
      match choose s now with
      | None => (Err (Unavailable (po_profile s)), s)
      | Some chosen => (Ok (mkProvisioned chosen false), s <| po_served := <[cap_id := chosen]> (po_served s) |>)
      end
  end.

Definition pooled_revoke (s : PooledStoreCredentialSource) (cap_id : string) : PooledStoreCredentialSource :=
  s <| po_served := delete cap_id (po_served s) |>.

Definition pooled_rotate (s : PooledStoreCredentialSource) (cap_id : string) (now : N) : PooledStoreCredentialSource :=
  match po_served s !! cap_id with
  | Some key => s <| po_cooldown := <[key := now +₆₄ po_cooldown_ms s]> (po_cooldown s) |>
  | None => s
  end.

#[export] Instance pooled_source : CredentialSource PooledStoreCredentialSource := {
  source_profile := po_profile; provision := pooled_provision; source_revoke := pooled_revoke; source_rotate := pooled_rotate }.

(** *** Rotation *)

Lemma min_by_key_spec {A} (f : A → N) l x : min_by_key f l = Some x → x ∈ l ∧ ∀ y, y ∈ l → f x ≤ f y.
Proof.
  destruct l as [|a l]; [done|]. cbn [min_by_key]. intros [= <-]. revert a. induction l as [|b l IH]; intros a; cbn [foldl].
  - split; [by left|]. intros y ->%list_elem_of_singleton. lia.
  - destruct (f b <? f a) eqn:Hlt; [apply N.ltb_lt in Hlt; destruct (IH b) as [Hin Hmin]|apply N.ltb_ge in Hlt; destruct (IH a) as [Hin Hmin]].
    all: split; [set_solver|]. all: intros y [->|[->|Hy]%elem_of_cons]%elem_of_cons.
    all: try (apply Hmin; set_solver). all: etrans; [apply Hmin; by left|lia].
Qed.

Lemma choose_spec s now : ∃ k, choose s now = Some k ∧ k ∈ pool s ∧
  (key_live s now k = false → ∀ k', k' ∈ pool s → key_live s now k' = false ∧ revives s k ≤ revives s k').
Proof.
  unfold choose. destruct (find (key_live s now) (pool s)) as [k|] eqn:Hf.
  - apply find_some in Hf as [Hin Hl]. exists k. split_and!; [done|by apply list_elem_of_In|congruence].
  - destruct (min_by_key (revives s) (pool s)) as [k|] eqn:Hm.
    + destruct (min_by_key_spec _ _ _ Hm) as [Hin Hmin]. exists k. split_and!; [done..|]. intros _ k' Hk'. split; [|by apply Hmin].
      apply (find_none _ _ Hf). by apply list_elem_of_In.
    + unfold pool in Hm. by destruct (store_keys _ _).
Qed.

(** A source over a pool always serves a key of it, a live one when there is
    one and else the one that revives first; a key that was rotated out is not
    served again before its cooldown ends while another key is live. *)
Theorem pooled_rotation (s : PooledStoreCredentialSource) cap cap' mode now now' :
  mode ≠ Native → now + po_cooldown_ms s < u64_bound →
  ∃ p s1, provision s cap mode now = (Ok p, s1) ∧ pv_secret p ∈ pool s ∧
    ((∃ k, k ∈ pool s ∧ key_live s now k = true) → key_live s now (pv_secret p) = true) ∧
  let s2 := source_rotate s1 cap now in
  key_live s2 now' (pv_secret p) = (now + po_cooldown_ms s <=? now') ∧
  ∃ p' s3, provision s2 cap' mode now' = (Ok p', s3) ∧ pv_secret p' ∈ pool s ∧
    (now' < now + po_cooldown_ms s → (∃ k, k ∈ pool s ∧ k ≠ pv_secret p ∧ key_live s now' k = true) → pv_secret p' ≠ pv_secret p).
Proof.
  intros Hmode Hw. destruct (choose_spec s now) as (k & Hk & Hin & Hbest).
  set (s1 := s <| po_served := <[cap := k]> (po_served s) |>). exists (mkProvisioned k false), s1. cbn [provision pooled_source pv_secret source_rotate].
  assert (∀ s n c k, choose s n = Some k → pooled_provision s c mode n = (Ok (mkProvisioned k false), s <| po_served := <[c := k]> (po_served s) |>)) as Hprov.
  { intros s' n c k' Hc. unfold pooled_provision. rewrite Hc. by destruct mode. }
  split; [by apply Hprov|]. split; [done|]. split.
  { intros (k' & Hk' & Hl). destruct (key_live s now k) eqn:Hlk; [done|]. destruct (Hbest eq_refl k' Hk'). congruence. }
  assert (pooled_rotate s1 cap now = s1 <| po_cooldown := <[k := now + po_cooldown_ms s]> (po_cooldown s) |>) as ->.
  { unfold pooled_rotate. cbn. rewrite lookup_insert_eq. cbn. by rewrite wrap64_small. }
  set (s2 := s1 <| po_cooldown := _ |>). assert (key_live s2 now' k = (now + po_cooldown_ms s <=? now')) as Hlive.
  { unfold key_live, revives. cbn. by rewrite lookup_insert_eq. }
  split; [done|]. destruct (choose_spec s2 now') as (k2 & Hk2 & Hin2 & Hbest2). exists (mkProvisioned k2 false), (s2 <| po_served := <[cap' := k2]> (po_served s2) |>).
  split; [by apply Hprov|]. split; [done|]. cbn [pv_secret]. intros Hnow (k' & Hk' & Hne & Hl) ->. rewrite Hlive in Hbest2.
  destruct (Hbest2 ltac:(apply N.leb_gt; lia) k' Hk') as [Hdead _]. unfold key_live, revives in Hdead, Hl. cbn in Hdead. rewrite lookup_insert_ne in Hdead by done. congruence.
Qed.

End sources.

(** ** The broker of a node *)

Record MultiProfileStoreBroker {T : Type} := mkMultiProfileStoreBroker {
  mb_store : T; mb_fallback : string; mb_actions : list string; mb_scope_tokens : option N; mb_mode : CredMode;
  mb_ttl_ms : N; mb_authorities : gmap string (CredentialAuthority (@PooledStoreCredentialSource T)) }.
Arguments MultiProfileStoreBroker T : clear implicits.
Arguments mkMultiProfileStoreBroker {T}.
#[export] Instance eta_MultiProfileStoreBroker {T} : Eta (MultiProfileStoreBroker T) := λ b,
  mkMultiProfileStoreBroker (mb_store b) (mb_fallback b) (mb_actions b) (mb_scope_tokens b) (mb_mode b) (mb_ttl_ms b) (mb_authorities b).

Definition MultiProfileStoreBroker_new {T} (store : T) (fallback : string) (actions : list string) (scope_tokens : option N) (mode : CredMode) (ttl_ms : N) : MultiProfileStoreBroker T :=
  mkMultiProfileStoreBroker store fallback actions scope_tokens mode ttl_ms ∅.

(** What the handlers read of a profile. *)
Record BoundAccount := mkBoundAccount { ba_transport_instance : string; ba_credential_ref : string }.
Record ProfileCredentials := mkProfileCredentials {
  pc_id : string; pc_credential_ref : option string; pc_fallback_credential_ref : option string; pc_bound_accounts : list BoundAccount }.
#[export] Instance eta_ProfileCredentials : Eta ProfileCredentials := λ p,
  mkProfileCredentials (pc_id p) (pc_credential_ref p) (pc_fallback_credential_ref p) (pc_bound_accounts p).

Definition credential_profile (spec : ProfileCredentials) : string := default (pc_id spec) (pc_credential_ref spec).

Definition PROVIDER_REF_PREFIX : string := "provider/".
Definition is_provider_credential_ref (credential_ref : string) : bool := String.prefix PROVIDER_REF_PREFIX credential_ref.

(** The row a pasted secret lands in. *)
Definition credential_key (profiles : list ProfileCredentials) (profile : string) : string :=
  match find (λ spec, bool_decide (pc_id spec = profile)) profiles with
  | Some spec => if is_provider_credential_ref (credential_profile spec) then credential_profile spec else profile
  | None => profile
  end.

Definition credential_used_by_in (credential_ref : string) (profiles : list ProfileCredentials) : list string :=
  pc_id <$> filter (λ spec, bool_decide (credential_profile spec = credential_ref) || bool_decide (pc_fallback_credential_ref spec = Some credential_ref) ||
                            bool_decide (credential_ref ∈ ba_credential_ref <$> pc_bound_accounts spec) = true) profiles.

(** The profile store as a handler finds it: its profiles, or no store, and how reading or
    updating it fails, if it does. *)
Record ProfileStore := mkProfileStore {
  ps_profiles : list ProfileCredentials; ps_get_error : option string; ps_update_error : option string }.

Definition ps_get (id : string) (s : ProfileStore) : result string (option ProfileCredentials) :=
  match ps_get_error s with Some e => Err e | None => Ok (find (λ spec, bool_decide (pc_id spec = id)) (ps_profiles s)) end.

Definition ps_update (spec : ProfileCredentials) (s : ProfileStore) : result string ProfileStore :=
  match ps_update_error s with
  | Some e => Err e
  | None => Ok (mkProfileStore ((λ p, if bool_decide (pc_id p = pc_id spec) then spec else p) <$> ps_profiles s) None None)
  end.

(** The end of a sign-in. *)
Inductive CredentialSlotKind := Derived | ProviderKeyForProfile.

Record AuthOutcome := mkAuthOutcome {
  ao_credential_blob : string; ao_credential_ref : string; ao_account_label : string; ao_transport_instance : string; ao_slot : CredentialSlotKind }.

Record AuthBindRequest := mkAuthBindRequest {
  ab_profile : string; ab_transport_instance : option string; ab_credential_ref : option string }.

Record AuthCompleteResponse := mkAuthCompleteResponse {
  ac_credential_ref : string; ac_account_label : string; ac_transport_instance : string; ac_bound_profile : option string }.

Definition AGENT_FAMILY_PREFIX : string := "agent/".

Definition strip (prefix s : string) : option string :=
  if String.prefix prefix s then Some (String.substring (String.length prefix) (String.length s - String.length prefix) s) else None.

(** What precedes the first [/]. *)
Fixpoint before_slash (s : string) : option string :=
  match s with
  | EmptyString => None
  | String a r => if Ascii.eqb a slash then Some EmptyString else String a <$> before_slash r
  end.

(** The agent whose reference this is. *)
Definition agent_of_ref (credential_ref : string) : option string := strip AGENT_FAMILY_PREFIX credential_ref ≫= before_slash.

Section broker.
Context `{CapabilityCrypto} {T : Type} `{CredentialStore T}.
Context (refresher : option (string → T → result CredError bool * T)).

Abbreviation Broker := (M (MultiProfileStoreBroker T) CredError).
Abbreviation Authority := (CredentialAuthority (@PooledStoreCredentialSource T)).

(** The authority of the profile, built on first use. *)
Definition authority_for (profile : string) (b : MultiProfileStoreBroker T) : Authority :=
  match mb_authorities b !! profile with
  | Some authority => authority
  | None => CredentialAuthority_new (mkCredScope {[profile]} (list_to_set (mb_actions b)) (mb_scope_tokens b)) (mb_mode b) (mb_ttl_ms b)
              (PooledStoreCredentialSource_new (mb_store b) profile (mb_fallback b))
  end.

(** A method of it, on the store as it is. *)
Definition on_authority {A} (profile : string) (m : M Authority CredError A) : Broker A := λ b,
  let a := authority_for profile b in
  let '(r, a') := m (a <| au_source := (au_source a) <| po_store := mb_store b |> |>) in
  (r, b <| mb_authorities := <[profile := a']> (mb_authorities b) |>).

Definition revoke_profile (profile : string) (ctx : AcquireCtx) (now : N) : Broker unit := λ b,
  match mb_authorities b !! profile with
  | Some _ => on_authority profile (revoke_all ctx now) b
  | None => (Ok tt, b)
  end.

Definition refresh_if_stale (profile : string) (ctx : AcquireCtx) (now : N) : Broker unit :=
  match refresher with
  | None => mret tt
  | Some refresh => λ b,
      match refresh profile (mb_store b) with
      | (Ok true, st) => revoke_profile profile ctx now (b <| mb_store := st |>)
      | (Ok false, st) => (Ok tt, b <| mb_store := st |>)
      | (Err e, st) => (Err e, b <| mb_store := st |>)
      end
  end.

Definition multi_acquire (ctx : AcquireCtx) (profile : string) (scope : CredScope) (now : N) : Broker CapabilityLease :=
  _ ← refresh_if_stale profile ctx now; on_authority profile (authority_acquire ctx profile scope now).

Definition multi_use (ctx : AcquireCtx) (lease : CapabilityLease) (now : N) : Broker string :=
  on_authority (cl_profile lease) (use_capability ctx lease now).

Definition multi_rotate (profile cap_id : string) (now : N) : Broker unit := on_authority profile (authority_rotate cap_id now).

Definition multi_take_audit : Broker (list CredentialAuditEvent) := λ b,
  (Ok (pa ← map_to_list (mb_authorities b); au_audit pa.2), b <| mb_authorities := (λ a, (take_audit a).2) <$> mb_authorities b |>).

(** A write of the store; its failure is [ApiError::Other], here [CredOther]. *)
Definition on_credentials (what : string) (m : M T string unit) : Broker unit := λ b,
  match m (mb_store b) with
  | (Ok _, st) => (Ok tt, b <| mb_store := st |>)
  | (Err e, st) => (Err (CredOther (what +:+ ": " +:+ e)), b <| mb_store := st |>)
  end.

(** The handlers, on a node with a credential store and a revoker; the label of a row and
    the notices to clients are left out, and the other errors of [ApiError] are [CredOther]
    with their text. *)
Definition credential_set (profiles : list ProfileCredentials) (profile secret : string) (ctx : AcquireCtx) (now : N) : Broker unit :=
  let key := credential_key profiles profile in
  _ ← on_credentials "credential set" (store_set key secret);
  revoke_profile key ctx now.

Definition credential_remove (profiles : list ProfileCredentials) (profile : string) (force : bool) (ctx : AcquireCtx) (now : N) : Broker unit :=
  let used_by := credential_used_by_in profile profiles in
  if negb force && negb (bool_decide (used_by = [])) then
    throw (CredOther ("credential in use by profile(s): " +:+ String.concat ", " used_by +:+ "; remove with force to delete anyway"))
  else
    _ ← on_credentials "credential remove" (store_remove profile);
    revoke_profile profile ctx now.

Definition store_account_credential (credential_ref blob : string) : Broker unit :=
  on_credentials "credential set" (store_set credential_ref blob).

Definition profile_store (ps : option ProfileStore) : Broker ProfileStore := ok_or ps (CredOther "profile management not available").
Definition profile_result {A} (r : result string A) : Broker A := match r with Ok a => mret a | Err e => throw (CredOther e) end.

(** The end of a sign-in that minted the key of a provider: the key is stored under the
    provider's reference, the leases on it are revoked, and the bound profile is pointed at it. *)
Definition finish_provider_key (ps : option ProfileStore) (outcome : AuthOutcome) (bind : AuthBindRequest) (ctx : AcquireCtx) (now : N)
    : Broker (AuthCompleteResponse * option ProfileStore) :=
  let credential_ref := ao_credential_ref outcome in
  _ ← on_credentials "credential set" (store_set credential_ref (ao_credential_blob outcome));
  _ ← revoke_profile credential_ref ctx now;
  profiles ← profile_store ps;
  profiles' ← match ps_get (ab_profile bind) profiles with
              | Ok (Some spec) =>
                  if bool_decide (pc_credential_ref spec = Some credential_ref) then mret profiles
                  else profile_result (ps_update (spec <| pc_credential_ref := Some credential_ref |>) profiles)
              | _ => mret profiles
              end;
  mret (mkAuthCompleteResponse credential_ref (ao_account_label outcome) (ao_transport_instance outcome) (Some (ab_profile bind)), Some profiles').

(** The account of the sign-in on the bound profile. *)
Definition bind_account (ps : option ProfileStore) (outcome : AuthOutcome) (credential_ref : string) (bind : AuthBindRequest) : Broker ProfileStore :=
  profiles ← profile_store ps;
  found ← profile_result (ps_get (ab_profile bind) profiles);
  spec ← ok_or found (CredOther ("unknown profile: " +:+ ab_profile bind));
  let instance := default (ao_transport_instance outcome) (ab_transport_instance bind) in
  profile_result (ps_update (spec <| pc_bound_accounts :=
    filter (λ a, ba_transport_instance a ≠ instance) (pc_bound_accounts spec) ++ [mkBoundAccount instance credential_ref] |>) profiles).

(** Any other sign-in: the blob is stored under the reference of the bind or the outcome,
    and no lease is revoked. *)
Definition finish_derived (ps : option ProfileStore) (outcome : AuthOutcome) (bind : option AuthBindRequest)
    : Broker (AuthCompleteResponse * option ProfileStore) :=
  let credential_ref := default (ao_credential_ref outcome) (bind ≫= ab_credential_ref) in
  _ ← on_credentials "credential set" (store_set credential_ref (ao_credential_blob outcome));
  bound ← match bind with
          | Some b => profiles ← bind_account ps outcome credential_ref b; mret (Some (ab_profile b), Some profiles)
          | None => mret (None, ps)
          end;
  _ ← (match agent_of_ref credential_ref with
       | Some name => λ b, (Ok tt, b <| mb_store := (store_remove ("agent/" +:+ name +:+ "/rejected") (mb_store b)).2 |>)
       | None => mret tt
       end : Broker unit);
  mret (mkAuthCompleteResponse credential_ref (ao_account_label outcome) (ao_transport_instance outcome) bound.1, bound.2).

(** [finish_auth_outcome]; the routing it rebuilds and the agent's sessions it evicts are
    left out. *)
Definition finish_auth_outcome (ps : option ProfileStore) (outcome : AuthOutcome) (bind : option AuthBindRequest) (ctx : AcquireCtx) (now : N)
    : Broker (AuthCompleteResponse * option ProfileStore) :=
  match ao_slot outcome with
  | ProviderKeyForProfile =>
      b ← ok_or bind (CredOther "provider-key auth requires a bind naming the target profile: the profile must adopt the minted key's credential ref for the model broker to use it");
      finish_provider_key ps outcome b ctx now
  | Derived => finish_derived ps outcome bind
  end.

(** The marks of an agent whose credential was refused: its successes are removed and the
    rejection is stamped. *)
Definition note_agent_auth_rejection (family stamp : string) (st : T) : bool * T :=
  match strip "agent/" family with
  | None | Some EmptyString => (false, st)
  | Some name =>
      let '(changed, st) :=
        foldl (λ cs row, if row.2 && String.prefix ("agent/" +:+ name +:+ "/acp:") row.1
                         then match store_remove row.1 cs.2 with (Ok _, st) => (true, st) | (Err _, st) => (cs.1, st) end
                         else cs) (false, st) (store_list st) in
      let rejected_ref := "agent/" +:+ name +:+ "/rejected" in
      match store_get rejected_ref st with
      | Some _ => (changed, st)
      | None => match store_set rejected_ref stamp st with (Ok _, st) => (true, st) | (Err _, st) => (changed, st) end
      end
  end.

(** *** Runs of the broker *)

Inductive BrokerOp :=
| BoAcquire (ctx : AcquireCtx) (profile : string) (scope : CredScope) (now : N)
| BoUse (ctx : AcquireCtx) (lease : CapabilityLease) (now : N)
| BoRotate (profile cap_id : string) (now : N)
| BoTakeAudit
| BoSet (profiles : list ProfileCredentials) (profile secret : string) (ctx : AcquireCtx) (now : N)
| BoRemove (profiles : list ProfileCredentials) (profile : string) (force : bool) (ctx : AcquireCtx) (now : N)
| BoFinishAuth (ps : option ProfileStore) (outcome : AuthOutcome) (bind : option AuthBindRequest) (ctx : AcquireCtx) (now : N)
| BoStoreAccount (credential_ref blob : string)
| BoAgentRejected (family stamp : string).

Definition run_broker_op (op : BrokerOp) (b : MultiProfileStoreBroker T) : MultiProfileStoreBroker T :=
  match op with
  | BoAcquire ctx profile scope now => (multi_acquire ctx profile scope now b).2
  | BoUse ctx lease now => (multi_use ctx lease now b).2
  | BoRotate profile cap_id now => (multi_rotate profile cap_id now b).2
  | BoTakeAudit => (multi_take_audit b).2
  | BoSet profiles profile secret ctx now => (credential_set profiles profile secret ctx now b).2
  | BoRemove profiles profile force ctx now => (credential_remove profiles profile force ctx now b).2
  | BoFinishAuth ps outcome bind ctx now => (finish_auth_outcome ps outcome bind ctx now b).2
  | BoStoreAccount credential_ref blob => (store_account_credential credential_ref blob b).2
  | BoAgentRejected family stamp => b <| mb_store := (note_agent_auth_rejection family stamp (mb_store b)).2 |>
  end.

Definition run_broker (ops : list BrokerOp) (b : MultiProfileStoreBroker T) : MultiProfileStoreBroker T := foldl (λ b op, run_broker_op op b) b ops.





(** *** What a call does to the authority of a row *)







































End broker.

(** ** The embedded pool of the standalone engine *)

Inductive KeyStatus := Live | Exhausted | Dead.
#[export] Instance KeyStatus_eq_dec : EqDecision KeyStatus.
Proof. solve_decision. Defined.

Record Key := mkKey { ky_id : string; ky_secret : string; ky_status : KeyStatus; ky_cooldown_until_ms : N }.
#[export] Instance eta_Key : Eta Key := λ k, mkKey (ky_id k) (ky_secret k) (ky_status k) (ky_cooldown_until_ms k).

Record EmbeddedCredentialPool := mkEmbeddedCredentialPool {
  ep_profile : string; ep_grant : CredScope; ep_ttl_ms : N; ep_cooldown_ms : N; ep_keys : list Key }.
#[export] Instance eta_EmbeddedCredentialPool : Eta EmbeddedCredentialPool := λ p,
  mkEmbeddedCredentialPool (ep_profile p) (ep_grant p) (ep_ttl_ms p) (ep_cooldown_ms p) (ep_keys p).

Abbreviation Embedded := (M EmbeddedCredentialPool CredError).

Definition EmbeddedCredentialPool_new (profile : string) (grant : CredScope) (keys : list (string * string)) (ttl_ms cooldown_ms : N) : EmbeddedCredentialPool :=
  mkEmbeddedCredentialPool profile grant ttl_ms cooldown_ms ((λ '(id, secret), mkKey id secret Live 0) <$> keys).

Definition single_key : EmbeddedCredentialPool :=
  EmbeddedCredentialPool_new "default" (mkCredScope {["default"]} {["chat"]} None) [("default", "embedded-key")] 60000 30000.

Definition revivable (k : Key) (now : N) : bool := bool_decide (ky_status k = Exhausted) && (ky_cooldown_until_ms k <=? now).

Definition embedded_live_count (p : EmbeddedCredentialPool) (now : N) : nat :=
  length (filter (λ k, bool_decide (ky_status k = Live) || revivable k now = true) (ep_keys p)).

Definition select (now : N) : Embedded (option (string * string)) := λ p,
  let keys := (λ k, if revivable k now then k <| ky_status := Live |> else k) <$> ep_keys p in
  (Ok ((λ k, (ky_id k, ky_secret k)) <$> find (λ k, bool_decide (ky_status k = Live)) keys), p <| ep_keys := keys |>).

(** [iter_mut().find(..)], and what is done to the key found. *)
Fixpoint update_key (id : string) (f : Key → Key) (keys : list Key) : list Key :=
  match keys with
  | [] => []
  | k :: keys => if bool_decide (ky_id k = id) then f k :: keys else k :: update_key id f keys
  end.

Definition mark_exhausted (cap_id : string) (now : N) (p : EmbeddedCredentialPool) : EmbeddedCredentialPool :=
  let until := now +₆₄ ep_cooldown_ms p in
  p <| ep_keys := update_key cap_id (λ k, k <| ky_status := Exhausted |> <| ky_cooldown_until_ms := until |>) (ep_keys p) |>.

Definition mark_dead (cap_id : string) (p : EmbeddedCredentialPool) : EmbeddedCredentialPool :=
  p <| ep_keys := update_key cap_id (λ k, k <| ky_status := Dead |>) (ep_keys p) |>.

Definition embedded_acquire (profile : string) (scope : CredScope) (now : N) : Embedded CapabilityLease :=
  p ← get;
  if negb (bool_decide (profile = ep_profile p)) then throw (Unavailable profile)
  else
    found ← select now;
    '(cap_id, secret) ← ok_or found (Unavailable profile);
    let issued := CredScope_intersect (ep_grant p) scope in
    if CredScope_is_empty issued then throw ScopeDenied
    else mret (mkCapabilityLease cap_id profile issued Native (now +₆₄ ep_ttl_ms p) 0 (Some secret) []).

Definition embedded_rotate (cap_id : string) (now : N) (p : EmbeddedCredentialPool) : EmbeddedCredentialPool := mark_exhausted cap_id now p.

(** A lease is on a key that is neither dead nor cooling down, within the grant
    and the request. *)
Lemma embedded_serves_usable profile scope now p lease : (embedded_acquire profile scope now p).1 = Ok lease →
  ∃ k, k ∈ ep_keys p ∧ ky_id k = cl_cap_id lease ∧ cl_secret lease = Some (ky_secret k) ∧ (ky_status k = Live ∨ revivable k now = true) ∧
    cl_scope lease = CredScope_intersect (ep_grant p) scope ∧ profile = ep_profile p.
Proof.
  unfold embedded_acquire, mbind, M_bind, get, select, ok_or. cbn -[CredScope_intersect CredScope_is_empty]. case_bool_decide as Hp; [|done]. cbn -[CredScope_intersect CredScope_is_empty].
  destruct (find _ _) as [k'|] eqn:Hf; [|done]. cbn -[CredScope_intersect CredScope_is_empty]. destruct (CredScope_is_empty _); [done|]. intros [= <-].
  apply find_some in Hf as [Hin Hl%bool_decide_eq_true]. apply list_elem_of_In, list_elem_of_fmap in Hin as (k & -> & Hk). exists k. cbn. destruct (revivable k now); auto 10.
Qed.

(** ** Concrete runs *)

#[local] Instance pool_crypto : CapabilityCrypto := {
  envelope_digest f := string_bytes (cf_cap_id f +:+ "|" +:+ pretty (cf_epoch f) +:+ "|" +:+ cf_secret f); sign_digest d := Byte.x07 :: d;
  verify_digest d s := bool_decide (s = Byte.x07 :: d) }.

#[local] Instance pool_signatures_verify : SignaturesVerify.
Proof. intros d. by apply bool_decide_eq_true_2. Qed.

Definition some_scope : CredScope := mkCredScope {["grok"]} {["chat"]} None.
Definition some_ctx : AcquireCtx := mkAcquireCtx None "t".
Definition some_ops : list BrokerOp := [BoSet [] "grok" "key-a" some_ctx 1; BoAcquire some_ctx "other" some_scope 2].
Definition some_broker : MultiProfileStoreBroker MemCredentialStore :=
  run_broker None some_ops (MultiProfileStoreBroker_new ∅ "sk-fallback" ["chat"] None Bearer 60000).
Definition some_lease : CapabilityLease :=
  let lease := mkCapabilityLease "grok-cap-0" "grok" some_scope Bearer 60100 0 (Some "key-a") [] in lease <| cl_signature := CapabilitySigner_sign lease |>.

(** A sign-in that minted a key for the row, and one that stores a blob there. *)
Definition sign_in (slot : CredentialSlotKind) : BrokerOp :=
  BoFinishAuth None (mkAuthOutcome "key-c" "grok" "me" "t/me" slot) (Some (mkAuthBindRequest "work" None (Some "grok"))) some_ctx 250.


(** The sign-in that stores a blob replaces the credential of the row, and the lease on the
    old one still resolves to it. *)
Example sign_in_keeps_leases :
  let b := run_broker None [sign_in Derived] (multi_acquire None some_ctx "grok" some_scope 100 some_broker).2 in
  store_get "grok" (mb_store b) = Some "key-c" ∧ (multi_use some_ctx some_lease 500 b).1 = Ok "key-a".
Proof. vm_compute. auto. Qed.

(** A file that is there but cannot be read, or does not parse, is taken for an empty store:
    the next credential that is set replaces all the others. *)
#[local] Instance toy_store_json : StoreJson := {
  map_from_slice b := if bool_decide (b = string_bytes "two") then Some {["a" := "1"; "b" := "2"]} else
                      if bool_decide (b = string_bytes "one") then Some {["c" := "3"]} else None;
  map_to_vec_pretty m := Ok (string_bytes (if bool_decide (size m = 1%nat) then "one" else "two")) }.

Definition on_disk (unreadable : gset string) : FileCredentialStore :=
  mkFileCredentialStore "data/credentials.json" (mkFileSystem {["data/credentials.json" := mkFile (string_bytes "two") 384]} unreadable []).

Example unreadable_store_is_lost :
  store_get "a" (on_disk ∅) = Some "1" ∧ with_extension "data/credentials.json" "tmp" = "data/credentials.tmp" ∧
  (store_set "c" "3" (on_disk {["data/credentials.json"]})).1 = Ok tt ∧
  fs_files (fc_fs (store_set "c" "3" (on_disk {["data/credentials.json"]})).2) !! "data/credentials.json" =
    Some (mkFile (string_bytes "one") 384).
Proof. vm_compute. auto. Qed.

(** A dead key that is rotated is alive again after the cooldown. *)
Example dead_key_revives :
  let p := embedded_rotate "default" 100 (mark_dead "default" single_key) in
  (embedded_acquire "default" (ep_grant single_key) 200 (mark_dead "default" single_key)).1 = Err (Unavailable "default") ∧
  (embedded_acquire "default" (ep_grant single_key) 30099 p).1 = Err (Unavailable "default") ∧
  match (embedded_acquire "default" (ep_grant single_key) 30100 p).1 with Ok lease => cl_secret lease = Some "embedded-key" | Err _ => False end.
Proof. vm_compute. auto. Qed.

(** A secret pasted for a profile on a provider-wide reference lands there. *)
Example paste_is_redirected :
  credential_key [mkProfileCredentials "work" (Some "provider/openai") None []; mkProfileCredentials "home" (Some "oauth2/x") None []] <$> ["work"; "home"; "new"] =
    ["provider/openai"; "home"; "new"].
Proof. vm_compute. reflexivity. Qed.
